(* ===== verification/_CoqProject ===== *)
-Q . S2P
Prelude.v
MachineInt.v
Status.v
Wide.v
Numeric.v
Memory.v
Float.v
Matrix.v
MatrixSpec.v
MatrixQ.v
Bitmap.v
Base64.v
FcMonad.v
Cordic.v
FcVariants.v
FcBase.v
FcPid.v
FcPidQ.v
FcOps.v
FcTransforms.v
Svpwm.v
Dtc.v
DtcQ.v
FcFloat.v
FcShape.v
Decomp.v
DecompQ.v
LuQ.v
CholeskyQ.v
DecompSpec.v
Ldlt.v
LdltQ.v
LdltSpec.v
Qr.v
Svd.v
SvdQ.v
SvdSpec.v
QrReal.v
QrQ.v
QrSpec.v
DecompAtomic.v
FilterBase.v
Filters.v
FilterSpec.v
FilterRing.v
FilterMedian.v
FilterBiquad.v
Kalman.v
KalmanSpec.v
KalmanQ.v
FloatParts.v
PfInt.v
FloatGrid.v
FloatBits.v
UkfBits.v
UkfBitsSpec.v
PfSpan.v
PfResample.v
PfResampleSpec.v
PfExp.v
PfExpSpec.v
PfWeights.v
PfLikelihoodSpec.v
PfWeightsSpec.v
Foc.v
FocQ.v
Smo.v
SmoLock.v
EzPid.v
EzPidSpec.v
Mmio.v
C2Gpio.v
C2Pwm.v
C2Timer.v
C2SysUart.v
C2HpUart.v
C2I2c.v
C2Qspi.v
C2Psram.v
C2Misc.v
