(* ===== verification/Prelude.v ===== *)
(** * xHive: a verification library for the portable C core

    The repository is an embedded SDK.  Its own code is a set of small C
    libraries under src/libs (linears, fieldctrl, filters, ezctrl, bitmap, base64)
    and the register drivers of one chip under
    src/vendor/openecos/starrysky/c2; the rest of the tree is third-party code,
    vendor firmware, build scripts and demos.  This library models the former
    function by function and proves what makes each part correct.

    ** The program and its parts

    - linears (libs/linears) is the numeric foundation: the fixed-point type
      [linears_fixed_t] (F31: an int64_t over 2^31), 128-bit accumulators, and
      matrix routines in five numeric kinds over caller-owned storage.
    - fieldctrl (libs/fieldctrl) is motor control, written once over FC_ macros
      and compiled for q15, q31, float and double: PID, transforms, PWM, FOC, DTC
      and a sliding-mode observer.  It computes through linears.
    - filters (libs/filters) is signal filtering over F_ macros, in the same four
      formats; it uses linears, and fieldctrl's observer uses its low-pass.
    - ezctrl (libs/ezctrl) adapts the float PID of fieldctrl to an object with
      a configuration and a callback.
    - bitmap and base64 are independent utilities.
    - the StarrySky C2 drivers touch hardware only through the register accessors
      of c2_common.h; the PSRAM driver is composed of the QSPI and GPIO drivers.

    ** Files

    - [Prelude]: tactics and generic lemmas.  [MachineInt]: C integers as [Z]
      with their wrap-around.  [Status]: status codes and output cells
      ([None] is NULL).
    - [Wide], [Numeric]: numeric_internal.h and numeric.c.
    - [Memory], [Float], [Matrix]: a byte store, the IEEE formats, basic.c with
      its two kernel headers.  [MatrixSpec] proves the commit discipline of
      every kind, [MatrixQ] the exactness of the q15 and q31 kernels.
    - [Decomp]: decomp_internal.h, decomp_template.h, decomp_lu.inc and
      decomp_cholesky.inc over the interface [DArith].  [DecompQ] holds the loop,
      array and rounding lemmas, [LuQ] and [CholeskyQ] the backward error of the
      fixed-point factorizations, [DecompSpec] the entry points.
    - [Ldlt]: decomp_ldlt.inc, over [DBlock] (the expressions that the code selects by
      D_FIXED).  [LdltQ] holds the arithmetic of its pivots and the invariant of the
      elimination, [LdltSpec] the theorems.
    - [Qr], [Svd]: decomp_qr.inc with the scaled norm of decomp_template.h, and
      decomp_svd_template.inc, over [DOrtho].  [SvdQ] holds the arithmetic of a rotation
      and the column lemmas, [SvdSpec] the sweeps and the entry points.
      [QrReal] analyses reflections with errors in the reals, [QrQ] gives the values of
      the code's reflectors, rows and columns, [QrSpec] the invariant of the passes and
      the theorem; [DecompAtomic] speaks of all eight entry points of linears_decomp.h.
    - [FcMonad]: the sticky status threaded through fieldctrl as a monad whose
      [Return] is an early return, with the weakest precondition [wp] and the
      arithmetic interface [FcArith].  [Cordic]: cordic.c and the fcq_ services.
      [FcVariants] and [FcFloat]: the fixed-point and native instances.
    - [FcBase]: base_impl.h and fieldctrl_pid_work.h.  [FcPid] proves the PID
      facts of every variant, [FcPidQ] its equations in exact integers.  [FcOps]
      holds one lemma per q operator; [FcTransforms] and [Svpwm] use them.
    - [Dtc], [Foc], [Smo]: dtc_impl.h and dtc.c, foc_impl.h, smo_impl.h, with
      [DtcQ], [FocQ] and [SmoLock] for their theorems.  [FcShape] holds the facts
      about bodies that need no arithmetic.
    - [FilterBase], [Filters]: filters_scalar_impl.h and filters_impl.h over the
      interface [FilterFormat].  [FilterSpec], [FilterRing], [FilterMedian],
      [FilterBiquad] hold the theorems.
    - [Kalman]: kalman_scalar.c and kalman_scalar_impl.h over [KalmanFormat];
      [KalmanSpec] proves the invariant of all formats, [KalmanQ] the exact
      formulas of the fixed-point ones.
    - [PfInt], [PfSpan], [PfResample], [PfExp]: the integer kernels of the q15 and
      q31 particle filters: q_integer_bits.h, q_integer_wide.h and pf_q_internal.h,
      the storage validation and in-place gather of ukf_internal.h, systematic
      resampling with its entry point, and pf_q_exp_impl.h.  [FloatParts] holds the
      facts about frexp and ldexp, [PfResampleSpec] and [PfExpSpec] the theorems.
    - [UkfBits]: the bit-level conversions and comparisons of ukf_internal.h and
      pf_q_internal.h, each with its portable #else branch; [PfWeights]:
      pf_q_likelihood_impl.h, the input boundary of the exponential, PQ(reweight)
      and the effective sample size.  [FloatGrid] and [FloatBits] read floats as
      integers on the grid of their least subnormal; [UkfBitsSpec],
      [PfLikelihoodSpec] and [PfWeightsSpec] hold the theorems.
    - [EzPid], [EzPidSpec]: ezctrl/src/pid_impl.h.
    - [Bitmap]: inc/xhive/bitmap.h.  [Base64]: base64.c.
    - [Mmio]: register programs against an arbitrary device.  [C2Gpio], [C2Pwm],
      [C2Timer], [C2SysUart], [C2HpUart], [C2I2c], [C2Qspi], [C2Psram], [C2Misc]:
      a driver each.

    ** How state and operations correspond to the code

    Definitions keep the C names.  A struct is a [Record], an enum an [Inductive],
    a w-bit integer a [Z] whose wrap-around is written out, an output pointer an
    [option] cell, an array a list.  A function returns its status and the cells
    and contexts it leaves behind; nothing is returned on paths where the code
    writes nothing.  Only where buffers may alias (basic.c) is there a store of
    bytes; the filters and the decompositions keep the address of each array next
    to its contents, because their overlap tests read it (after them the writable
    buffers are disjoint).  The workspace of a decomposition is unspecified after
    the call and is not returned.  FC_TRY and F_TRY are the binds of [fc]
    and [attempt].  A driver routine is a program of register reads and writes run
    by [exec] against a [Device], any function from the past accesses to an answer.

    ** Interfaces

    The algorithms are written against classes and the variants are instances, as
    in the C code, where each #include compiles them again:
    - [FcArith] (the FC_ macros) with [FcLaws] (what every variant promises of
      them: store and clamp agree with the order, an OK result means no sticky
      error), [FcSticky] (an operation under an error status does nothing),
      [FcHonest] (an early return never reports success), [FcCmpEq] (compare
      decides equality, for the fixed-point variants).
    - [FcFoc] and [FcSmo]: the tests and filter bridges the variants select by #if.
    - [FilterFormat]: the F_ operations and the steps selected by FILTERS_FIXED.
    - [DArith] and [DDeterminant]: the D_ macros and the diagonal product of the
      decompositions.  [KalmanFormat]: the K_ operations, with [KalmanSigns], what
      the covariance invariant needs of them.
    Theorems that need only the laws are proved once for the four variants
    ([FcPid], [FcShape], [SmoLock], [MatrixSpec]); the exact ones are about the
    fixed-point instances.

    ** What the theorems show

    - Refinement of exact arithmetic: the fixed-point operations, square root and
      multiply-divide, the matrix kernels, the PID, FOC and DTC periods, FIR,
      biquad, moving average and EMA each compute their documented formula over
      the integers with one rounding where the code rounds, and report RANGE or
      DOMAIN exactly when it leaves the format.
    - Atomicity: a failing call leaves the context, the outputs and, for the
      matrices, all storage as they were, also when operands overlap.
    - Backward error: the fixed-point LU and Cholesky factors multiply back to the
      (permuted) input within half a unit per rounding, for every order n; the LDLT
      factors, with 1-by-1 and 2-by-2 pivots, within a fixed number of units per column;
      the QR factors, for at most 2000 rows, are orthonormal and multiply back within a
      bound that depends on the order only, although every reflector is computed from
      rounded norms.
    - Singular values: the sweeps end within their budget in every format; what a
      fixed-point success delivers was reached by plane rotations that are orthogonal
      within five units, the same for both factors, and no two columns correlate by
      more than the tolerance.
    - Invariants over call histories: the PID integral stays in its bounds, the
      covariance of a Kalman filter never turns negative, the DTC context stays in
      its types, the observer's lock is a run length, the adapter's two
      configurations never part, the driver shadows equal the last words written.
    - Equivalences: cached against direct coefficients, the in-place sort against a
      merge sort, the running sum against the mean of the history, the encoder
      against RFC 4648, the specialised exponential kernel against the generic one,
      the integer bit routines against the float expressions they replace.
    - Particle filter: resampling selects exactly the particles that the real
      targets (i + u) T / N select, for every binary draw u, and moves their rows in
      place; the integer exponential is its closed formula, without underflow; the
      likelihood of two exponents is that formula at their difference, and a weight
      update is proportional to weight times likelihood within one unit.
    - Bounds: CORDIC never fails and never wraps; PWM duties are centred in [0,1];
      rotations invert within three units; transfers end within their poll
      budget with at most one STOP.
    - Liveness: the EMA and the moving average settle.

    ** Bounds and fuel

    Every C loop with a static bound is a recursion on that bound (32 CORDIC
    rotations, 64 square-root digits, array lengths, poll limits), so totality is by
    construction.  The while loops without one run on fuel: [bit_length_loop] on 64
    bits, [advance_to] on the length of the array, the group loop of the base64 encoder on the
    length of its input, [ldlt_loop] on the order (a pass consumes a column or two),
    [svd_sweeps] on the budget of sweeps plus one; their lemmas show that the guard is
    false when they stop, or that they stop before the fuel does.  The overflow lemmas
    show that the guarded widths suffice: a 128-bit accumulator holds any sum of
    2^64 products of 62 bits, and the CORDIC coordinates stay below 2^62.

    ** What is assumed

    libm's hypot, sin, cos, atan2, exp and the caller's callbacks are parameters
    ([exp_neg_unit]: exp(-x) of a nonnegative x lies in [0,1]); the
    C compiler evaluates float expressions in their type (FLT_EVAL_METHOD 0, no
    contraction); hardware is an arbitrary device; the multi-element matrix
    theorems assume operand storage inside the address space ([abi_ok]).

    ** Not modelled

    - The coefficient designers of filters_design_impl.h: transcendental formulas
      whose content is libm's.
    - The matrix Kalman and unscented filters,
      and of the particle filters init, predict, update, estimate and the
      floating-point variants.
    - The super-high-resolution timer HAL of a third-party chip.
    - The vendored libraries (cjson, divsufsort, heatshrink, llhttp, mbedtls,
      micro-ecc, sha256, xxhash), the vendor firmware and headers, build scripts,
      templates, demos and tests are not this project's own logic. *)
From Stdlib Require Export ZArith Lia Bool.
From stdpp Require Export base tactics numbers list option decidable.

#[global] Open Scope Z_scope.

(** ** Notations of the development *)

Declare Scope xhive_scope.
Delimit Scope xhive_scope with xhive.

(** ** Tactics *)

(** Turns the boolean comparisons of the models into propositions. *)
Ltac zbool :=
  repeat match goal with
  | H : _ && _ = true |- _ => apply andb_true_iff in H; destruct H
  | H : _ || _ = false |- _ => apply orb_false_iff in H; destruct H
  | H : negb _ = true |- _ => apply negb_true_iff in H
  | H : negb _ = false |- _ => apply negb_false_iff in H
  | H : (_ <? _) = true |- _ => apply Z.ltb_lt in H
  | H : (_ <? _) = false |- _ => apply Z.ltb_ge in H
  | H : (_ <=? _) = true |- _ => apply Z.leb_le in H
  | H : (_ <=? _) = false |- _ => apply Z.leb_gt in H
  | H : (_ =? _) = true |- _ => apply Z.eqb_eq in H
  | H : (_ =? _) = false |- _ => apply Z.eqb_neq in H
  | H : (_ >? _) = _ |- _ => rewrite Z.gtb_ltb in H
  | H : (_ >=? _) = _ |- _ => rewrite Z.geb_leb in H
  end.

(** Case analysis on the condition of the innermost conditional of the goal. *)
Ltac case_if :=
  match goal with
  | |- context [if ?b then _ else _] =>
      lazymatch b with
      | context [if _ then _ else _] => fail
      | _ => let E := fresh "E" in destruct b eqn:E; zbool
      end
  end.

Ltac case_if_in H :=
  match type of H with
  | context [if ?b then _ else _] =>
      lazymatch b with
      | context [if _ then _ else _] => fail
      | _ => let E := fresh "E" in destruct b eqn:E; zbool
      end
  end.

(** ** Loops *)

(** A C [while] loop run for at most [fuel] iterations.  A model that uses it
    comes with a lemma that the guard is false in the state it returns, so
    that the bound is never what stops the loop. *)
Fixpoint while_fuel {S : Type} (fuel : nat) (guard : S -> bool) (body : S -> S)
    (s : S) : S :=
  match fuel with
  | O => s
  | Datatypes.S n => if guard s then while_fuel n guard body (body s) else s
  end.

(** [for (i = n; i != 0; --i) s = body(i, s)] *)
Fixpoint for_down {S : Type} (n : nat) (body : nat -> S -> S) (s : S) : S :=
  match n with
  | O => s
  | Datatypes.S m => for_down m body (body n s)
  end.

(** [for (i = from; i < from + n; ++i) s = body(i, s)] *)
Fixpoint for_up {S : Type} (from n : nat) (body : nat -> S -> S) (s : S) : S :=
  match n with
  | O => s
  | Datatypes.S m => for_up (Datatypes.S from) m body (body from s)
  end.

Section Loops.
Context {S : Type}.

(** Rule of [while]: an invariant with a measure below the fuel. *)
Lemma while_fuel_rule (guard : S -> bool) (body : S -> S) (I : S -> Prop)
    (measure : S -> nat) :
  (forall s, I s -> guard s = true -> I (body s) /\ (measure (body s) < measure s)%nat) ->
  forall fuel s, I s -> (measure s <= fuel)%nat ->
  (forall s, I s -> measure s = O -> guard s = false) ->
  I (while_fuel fuel guard body s) /\ guard (while_fuel fuel guard body s) = false.
Proof.
  intros Hstep fuel. induction fuel as [|n IH]; intros s HI Hm Hz; cbn.
  - split; [done|]. apply Hz; [done|lia].
  - destruct (guard s) eqn:E; [|by rewrite E].
    destruct (Hstep s HI E). apply IH; auto. lia.
Qed.

Lemma for_down_rule (body : nat -> S -> S) (I : nat -> S -> Prop) :
  (forall i s, I (Datatypes.S i) s -> I i (body (Datatypes.S i) s)) ->
  forall n s, I n s -> I O (for_down n body s).
Proof. intros Hstep n. induction n; intros s HI; cbn; auto. Qed.

Lemma for_up_rule (body : nat -> S -> S) (I : nat -> S -> Prop) (hi : nat) :
  (forall i s, (i < hi)%nat -> I i s -> I (Datatypes.S i) (body i s)) ->
  forall n from s, (from + n = hi)%nat -> I from s -> I hi (for_up from n body s).
Proof.
  intros Hstep n. induction n as [|n IH]; intros from s Hn HI; cbn.
  - by replace hi with from by lia.
  - apply IH; [lia|]. apply Hstep; [lia|done].
Qed.
End Loops.

(** ** Integers *)

Section Integers.
Implicit Types a b c d k n m : Z.

(** A shifted value and a value below the shift do not share bits. *)
Lemma lor_shiftl_add a b k :
  0 <= k -> 0 <= b < 2 ^ k -> Z.lor (Z.shiftl a k) b = a * 2 ^ k + b.
Proof.
  intros Hk Hb. rewrite <- Z.shiftl_mul_pow2 by lia.
  symmetry. rewrite <- (Z.lxor_lor (Z.shiftl a k) b).
  - apply Z.add_nocarry_lxor. apply Z.bits_inj'. intros i Hi.
    rewrite Z.land_spec, Z.bits_0. destruct (Z.lt_ge_cases i k).
    + by rewrite Z.shiftl_spec_low by lia.
    + rewrite <- (Z.mod_small b (2 ^ k)) by lia.
      rewrite Z.mod_pow2_bits_high by lia. apply andb_false_r.
  - apply Z.bits_inj'. intros i Hi. rewrite Z.land_spec, Z.bits_0.
    destruct (Z.lt_ge_cases i k).
    + by rewrite Z.shiftl_spec_low by lia.
    + rewrite <- (Z.mod_small b (2 ^ k)) by lia.
      rewrite Z.mod_pow2_bits_high by lia. apply andb_false_r.
Qed.

Lemma lor_add_disjoint a b k :
  0 <= k -> 0 <= b < 2 ^ k -> a mod 2 ^ k = 0 -> Z.lor a b = a + b.
Proof.
  intros Hk Hb Ha.
  assert (a = Z.shiftl (a / 2 ^ k) k) as ->.
  { rewrite Z.shiftl_mul_pow2 by lia.
    rewrite Z.mul_comm. apply Z.div_exact; lia. }
  rewrite lor_shiftl_add by lia. by rewrite Z.shiftl_mul_pow2 by lia.
Qed.

Lemma land_mask a k : 0 <= k -> Z.land a (2 ^ k - 1) = a mod 2 ^ k.
Proof. intros Hk. rewrite <- Z.land_ones by lia. by rewrite Z.ones_equiv, Z.sub_1_r. Qed.

Lemma abs_mul_sgn a b : Z.sgn (a * b) = Z.sgn a * Z.sgn b.
Proof. apply Z.sgn_mul. Qed.

Lemma div_unique_le a b q : 0 < b -> b * q <= a < b * (q + 1) -> a / b = q.
Proof. intros Hb H. symmetry. apply Z.div_unique with (a - b * q); lia. Qed.
End Integers.

(** [div_nearest n d] is the quotient rounded to nearest, halfway cases away
    from zero: the rounding rule every fixed-point routine promises. *)
Definition div_nearest (n d : Z) : Z :=
  Z.sgn n * Z.sgn d * ((2 * Z.abs n + Z.abs d) / (2 * Z.abs d)).

Section Nearest.
Implicit Types n d q : Z.

Lemma div_nearest_pos n d :
  0 < d -> div_nearest n d = Z.sgn n * ((2 * Z.abs n + d) / (2 * d)).
Proof. intros Hd. unfold div_nearest. rewrite (Z.abs_eq d), (Z.sgn_pos d) by lia. lia. Qed.

(** The defining error bound: at most half a unit. *)
Lemma div_nearest_error n d : 0 < d -> 2 * Z.abs (div_nearest n d * d - n) <= d.
Proof.
  intros Hd. rewrite div_nearest_pos by done.
  pose proof (Z.div_mod (2 * Z.abs n + d) (2 * d) ltac:(lia)).
  pose proof (Z.mod_pos_bound (2 * Z.abs n + d) (2 * d) ltac:(lia)).
  set (q := (2 * Z.abs n + d) / (2 * d)) in *.
  destruct (Z.sgn_spec n) as [[? ->]|[[? ->]|[? ->]]]; nia.
Qed.

Lemma div_nearest_mono a b d : 0 < d -> a <= b -> div_nearest a d <= div_nearest b d.
Proof.
  intros Hd Hab. rewrite !div_nearest_pos by done.
  assert (forall x y, 0 <= x <= y -> (2 * x + d) / (2 * d) <= (2 * y + d) / (2 * d)) as Hm
    by (intros; apply Z.div_le_mono; lia).
  assert (forall x, 0 <= x -> 0 <= (2 * x + d) / (2 * d)) as Hn by (intros; apply Z.div_pos; lia).
  pose proof (Hn (Z.abs a) ltac:(lia)). pose proof (Hn (Z.abs b) ltac:(lia)).
  destruct (Z.sgn_spec a) as [[? ->]|[[? ->]|[? ->]]], (Z.sgn_spec b) as [[? ->]|[[? ->]|[? ->]]];
    try lia.
  - specialize (Hm (Z.abs a) (Z.abs b) ltac:(lia)). lia.
  - specialize (Hm (Z.abs b) (Z.abs a) ltac:(lia)). lia.
Qed.

(** How the code computes it: floor quotient, then one conditional increment. *)
Lemma div_nearest_step n d q r :
  0 < d -> 0 <= n -> n = d * q + r -> 0 <= r < d ->
  (2 * n + d) / (2 * d) = if d - r <=? r then q + 1 else q.
Proof. intros. case_if; apply div_unique_le; nia. Qed.

(** Rounding stays between integer bounds. *)
Lemma div_nearest_between n d l u : 0 < d -> l * d <= n <= u * d -> l <= div_nearest n d <= u.
Proof.
  intros Hd Hn. pose proof (div_nearest_error n d Hd). nia.
Qed.

(** A common factor cancels. *)
Lemma div_nearest_cancel n d k : 0 < d -> 0 < k -> div_nearest (n * k) (d * k) = div_nearest n d.
Proof.
  intros Hd Hk. rewrite !div_nearest_pos by nia. rewrite Z.sgn_mul, (Z.sgn_pos k), Z.mul_1_r by done.
  f_equal. rewrite Z.abs_mul, (Z.abs_eq k) by lia.
  replace (2 * (Z.abs n * k) + d * k) with ((2 * Z.abs n + d) * k) by ring.
  replace (2 * (d * k)) with (2 * d * k) by ring. by rewrite Z.div_mul_cancel_r by lia.
Qed.

Lemma div_nearest_1 n d : 0 < d -> div_nearest (n * d) d = n.
Proof. intros Hd. pose proof (div_nearest_between (n * d) d n n Hd). lia. Qed.
End Nearest.
