(* ===== verification/MachineInt.v ===== *)
(** * Machine integers of C

    A value of a [w]-bit C integer type is a [Z]; the wrap-around of the
    unsigned operations and of the conversions is written out with [u8], [u32],
    [u64], [i16], [i32], [i64].  Signed arithmetic that the code leaves
    unguarded is written with the same wrap-around, and the lemmas of the
    components show that it never wraps. *)
From S2P Require Import Prelude.

Definition wrap_unsigned (w x : Z) : Z := x mod 2 ^ w.
Definition wrap_signed (w x : Z) : Z := (x + 2 ^ (w - 1)) mod 2 ^ w - 2 ^ (w - 1).

Definition u8 (x : Z) : Z := x mod 256.
Definition u16 (x : Z) : Z := x mod 65536.
Definition u32 (x : Z) : Z := x mod 4294967296.
Definition u64 (x : Z) : Z := x mod 18446744073709551616.
Definition i8 (x : Z) : Z := (x + 128) mod 256 - 128.
Definition i16 (x : Z) : Z := (x + 32768) mod 65536 - 32768.
Definition i32 (x : Z) : Z := (x + 2147483648) mod 4294967296 - 2147483648.
Definition i64 (x : Z) : Z :=
  (x + 9223372036854775808) mod 18446744073709551616 - 9223372036854775808.

Definition UINT32_MAX : Z := 4294967295.
Definition UINT64_MAX : Z := 18446744073709551615.
Definition INT16_MAX : Z := 32767.
Definition INT16_MIN : Z := -32768.
Definition INT32_MAX : Z := 2147483647.
Definition INT32_MIN : Z := -2147483648.
Definition INT64_MAX : Z := 9223372036854775807.
Definition INT64_MIN : Z := -9223372036854775808.

(** Range predicates, in a form [lia] reads after [unfold_ranges]. *)
Definition is_u8 (x : Z) : Prop := 0 <= x < 256.
Definition is_u32 (x : Z) : Prop := 0 <= x < 4294967296.
Definition is_u64 (x : Z) : Prop := 0 <= x < 18446744073709551616.
Definition is_i16 (x : Z) : Prop := -32768 <= x <= 32767.
Definition is_i32 (x : Z) : Prop := -2147483648 <= x <= 2147483647.
Definition is_i64 (x : Z) : Prop := -9223372036854775808 <= x <= 9223372036854775807.

#[export] Instance is_u8_dec x : Decision (is_u8 x).
Proof. unfold is_u8. apply _. Defined.
#[export] Instance is_u32_dec x : Decision (is_u32 x).
Proof. unfold is_u32. apply _. Defined.
#[export] Instance is_u64_dec x : Decision (is_u64 x).
Proof. unfold is_u64. apply _. Defined.
#[export] Instance is_i16_dec x : Decision (is_i16 x).
Proof. unfold is_i16. apply _. Defined.
#[export] Instance is_i32_dec x : Decision (is_i32 x).
Proof. unfold is_i32. apply _. Defined.
#[export] Instance is_i64_dec x : Decision (is_i64 x).
Proof. unfold is_i64. apply _. Defined.

Ltac unfold_ranges :=
  unfold is_u8, is_u32, is_u64, is_i16, is_i32, is_i64,
    UINT32_MAX, UINT64_MAX, INT16_MAX, INT16_MIN, INT32_MAX, INT32_MIN,
    INT64_MAX, INT64_MIN in *.

(** [lia] for goals about ranges and limits. *)
Ltac rlia := unfold_ranges; lia.

(** The same with divisions and remainders by positive constants. *)
Ltac dlia := unfold_ranges; Z.to_euclidean_division_equations; lia.

Create HintDb mint.

Section Identity.
Implicit Types x : Z.

Lemma u8_id x : is_u8 x -> u8 x = x.
Proof. intros. apply Z.mod_small. rlia. Qed.
Lemma u32_id x : is_u32 x -> u32 x = x.
Proof. intros. apply Z.mod_small. rlia. Qed.
Lemma u64_id x : is_u64 x -> u64 x = x.
Proof. intros. apply Z.mod_small. rlia. Qed.
Lemma i16_id x : is_i16 x -> i16 x = x.
Proof. intros. unfold i16. rewrite Z.mod_small; rlia. Qed.
Lemma i32_id x : is_i32 x -> i32 x = x.
Proof. intros. unfold i32. rewrite Z.mod_small; rlia. Qed.
Lemma i64_id x : is_i64 x -> i64 x = x.
Proof. intros. unfold i64. rewrite Z.mod_small; rlia. Qed.

Lemma u8_range x : is_u8 (u8 x).
Proof. apply Z.mod_pos_bound. lia. Qed.
Lemma u32_range x : is_u32 (u32 x).
Proof. apply Z.mod_pos_bound. lia. Qed.
Lemma u64_range x : is_u64 (u64 x).
Proof. apply Z.mod_pos_bound. lia. Qed.
Lemma i64_range x : is_i64 (i64 x).
Proof.
  unfold i64. pose proof (Z.mod_pos_bound (x + 9223372036854775808) 18446744073709551616 ltac:(lia)).
  rlia.
Qed.
Lemma i32_range x : is_i32 (i32 x).
Proof.
  unfold i32. pose proof (Z.mod_pos_bound (x + 2147483648) 4294967296 ltac:(lia)). rlia.
Qed.
End Identity.

#[export] Hint Resolve u8_range u32_range u64_range i64_range i32_range : mint.

Section Arithmetic.
Implicit Types x y : Z.

Lemma u64_cong x y : (exists k, x = y + k * 18446744073709551616) -> u64 x = u64 y.
Proof. intros [k ->]. unfold u64. apply Z.mod_add. lia. Qed.

Lemma u64_add_l x y : u64 (u64 x + y) = u64 (x + y).
Proof. apply Z.add_mod_idemp_l. lia. Qed.
Lemma u64_add_r x y : u64 (x + u64 y) = u64 (x + y).
Proof. apply Z.add_mod_idemp_r. lia. Qed.
Lemma u64_idemp x : u64 (u64 x) = u64 x.
Proof. apply Z.mod_mod. lia. Qed.

(** The one's complement of an unsigned 64-bit value. *)
Lemma u64_lnot x : is_u64 x -> u64 (Z.lnot x) = UINT64_MAX - x.
Proof.
  intros. unfold Z.lnot. unfold u64.
  rewrite <- (Z.mod_add _ 1) by lia. rewrite Z.mod_small; rlia.
Qed.

Lemma u64_shiftr x k : 0 <= k -> is_u64 x -> is_u64 (Z.shiftr x k).
Proof.
  intros. rewrite Z.shiftr_div_pow2 by lia.
  pose proof (Z.pow_pos_nonneg 2 k).
  split; [apply Z.div_pos; rlia|].
  apply Z.div_lt_upper_bound; [lia|]. unfold is_u64 in *. nia.
Qed.

(** The carry out of an unsigned addition is the test [sum < a]. *)
Lemma u64_carry x y :
  is_u64 x -> is_u64 y ->
  (u64 (x + y) <? x) = (18446744073709551616 <=? x + y) /\
  u64 (x + y) = x + y - (if 18446744073709551616 <=? x + y then 18446744073709551616 else 0).
Proof.
  intros. unfold u64. case_if.
  - rewrite <- (Z.mod_add _ (-1)), Z.mod_small by rlia.
    split; [|lia]. apply Z.ltb_lt. rlia.
  - rewrite Z.mod_small by rlia. split; [|lia]. apply Z.ltb_ge. rlia.
Qed.
End Arithmetic.

(** Masking with the complement of a low mask, as the argument checks do. *)
Section Masks.
Lemma land_u32_r m y : is_u32 m -> Z.land m (u32 y) = Z.land m y.
Proof.
  intros Hm. unfold u32. change 4294967296 with (2 ^ 32).
  rewrite <- land_mask, (Z.land_comm y), Z.land_assoc, land_mask by lia.
  rewrite Z.mod_small by rlia. done.
Qed.

Lemma land_lnot_low m k : 0 <= k -> Z.land m (Z.lnot (2 ^ k - 1)) = m / 2 ^ k * 2 ^ k.
Proof.
  intros Hk. replace (2 ^ k - 1) with (Z.ones k) by (rewrite Z.ones_equiv; lia).
  rewrite <- Z.ldiff_land, Z.ldiff_ones_r by lia.
  by rewrite Z.shiftl_mul_pow2, Z.shiftr_div_pow2 by lia.
Qed.

Lemma high_bits_clear m k : 0 <= k -> is_u32 m ->
  Z.land m (u32 (Z.lnot (2 ^ k - 1))) = 0 <-> m < 2 ^ k.
Proof.
  intros Hk Hm. rewrite land_u32_r, land_lnot_low by done.
  pose proof (Z.pow_pos_nonneg 2 k ltac:(lia) Hk). unfold_ranges.
  split; intros; [|rewrite Z.div_small by lia; lia].
  pose proof (Z.div_mod m (2 ^ k) ltac:(lia)). pose proof (Z.mod_pos_bound m (2 ^ k) ltac:(lia)). nia.
Qed.
End Masks.
