(* ===== verification/Status.v ===== *)
(** * Status codes and output cells

    The C entry points return a [linears_status_t] and write their result
    through an output pointer.  The pointer is an [option]: [None] is [NULL],
    [Some v] a cell that holds [v].  An entry point returns the status and the
    cell it leaves behind. *)
From S2P Require Import Prelude MachineInt.

Inductive linears_status_t : Type :=
| LINEARS_OK
| LINEARS_ERROR_ARGUMENT
| LINEARS_ERROR_DIMENSION
| LINEARS_ERROR_SIZE
| LINEARS_ERROR_WORKSPACE
| LINEARS_ERROR_ALIAS
| LINEARS_ERROR_RANGE
| LINEARS_ERROR_DOMAIN
| LINEARS_ERROR_SINGULAR
| LINEARS_ERROR_NOT_POSITIVE_DEFINITE
| LINEARS_ERROR_NO_CONVERGENCE.

#[export] Instance linears_status_eq_dec : EqDecision linears_status_t.
Proof. solve_decision. Defined.

Definition status_ok (s : linears_status_t) : bool :=
  match s with LINEARS_OK => true | _ => false end.

Lemma status_ok_true s : status_ok s = true <-> s = LINEARS_OK.
Proof. destruct s; cbn; split; congruence. Qed.

(** The contract of a checked conversion: the exact value [v] is delivered when
    it passes the range test [fits], and otherwise RANGE leaves the cell alone. *)
Definition deliver {A : Type} (fits : bool) (v old : A) : linears_status_t * A :=
  if fits then (LINEARS_OK, v) else (LINEARS_ERROR_RANGE, old).

Definition fits_i64 (x : Z) : bool := (INT64_MIN <=? x) && (x <=? INT64_MAX).

Lemma fits_i64_spec x : fits_i64 x = true <-> is_i64 x.
Proof. unfold fits_i64. rewrite andb_true_iff, !Z.leb_le. rlia. Qed.

Lemma fits_i64_true x : is_i64 x -> fits_i64 x = true.
Proof. apply fits_i64_spec. Qed.

Lemma fits_i64_false x : ~ is_i64 x -> fits_i64 x = false.
Proof. intros H. destruct (fits_i64 x) eqn:E; [|done]. by apply fits_i64_spec in E. Qed.

(** An entry point over an output pointer, from its body over a valid cell. *)
Definition with_out {A : Type} (out : option A) (body : A -> linears_status_t * A)
    : linears_status_t * option A :=
  match out with
  | None => (LINEARS_ERROR_ARGUMENT, None)
  | Some old => let r := body old in (fst r, Some (snd r))
  end.

(** On a valid cell the entry point is its body. *)
Lemma with_out_inj {A} (cell : A) f g : with_out (Some cell) f = with_out (Some cell) g -> f cell = g cell.
Proof.
  cbn [with_out]. intros E. destruct (f cell), (g cell). cbn [fst snd] in E. by injection E as -> ->.
Qed.

(** A body that leaves the cell unchanged unless it reports success. *)
Definition atomic {A : Type} (body : A -> linears_status_t * A) : Prop :=
  forall old, fst (body old) <> LINEARS_OK -> snd (body old) = old.

Lemma with_out_atomic {A} (out : option A) body :
  atomic body -> fst (with_out out body) <> LINEARS_OK -> snd (with_out out body) = out.
Proof. intros Hb. destruct out; cbn; [|done]. intros. f_equal. by apply Hb. Qed.

Lemma deliver_atomic {A} (fits : bool) (v : A) : atomic (deliver fits v).
Proof. intros old. unfold deliver. by destruct fits. Qed.

#[export] Hint Resolve deliver_atomic : mint.
