(* ===== verification/Wide.v ===== *)
(** * Two-limb arithmetic: libs/linears/src/numeric_internal.h

    The 128-bit accumulator [linears_accum_t] and the integer operations shared
    by the fixed-point layer and the raw-Q matrix kernels, with the lemmas that
    relate each to exact integer arithmetic. *)
From S2P Require Import Prelude MachineInt Status.

(** ** Data *)

Record linears_accum_t : Type := mk_accum { low : Z; high : Z }.

#[export] Instance linears_accum_eq_dec : EqDecision linears_accum_t.
Proof. solve_decision. Defined.

Definition two64 : Z := 18446744073709551616.
Definition two127 : Z := 170141183460469231731687303715884105728.
Definition two128 : Z := 340282366920938463463374607431768211456.

(** Both limbs are uint64_t. *)
Definition accum_ok (a : linears_accum_t) : Prop := is_u64 (low a) /\ is_u64 (high a).

(** The unsigned and the two's-complement reading of the two limbs. *)
Definition accum_unsigned (a : linears_accum_t) : Z := low a + high a * two64.
Definition accum_value (a : linears_accum_t) : Z :=
  if high a <? 9223372036854775808 then accum_unsigned a else accum_unsigned a - two128.

Definition is_i128 (x : Z) : Prop := - two127 <= x < two127.

(** ** Operations *)

Definition ln_magnitude (value : Z) : Z :=
  if value <? 0 then u64 (u64 (i64 (- (i64 (value + 1)))) + 1) else u64 value.

Definition ln_negate (value : linears_accum_t) : linears_accum_t :=
  let l := u64 (u64 (Z.lnot (low value)) + 1) in
  mk_accum l (u64 (u64 (Z.lnot (high value)) + (if l =? 0 then 1 else 0))).

Definition ln_negative (value : linears_accum_t) : bool :=
  negb (Z.shiftr (high value) 63 =? 0).

Definition ln_absolute (value : linears_accum_t) : linears_accum_t :=
  if ln_negative value then ln_negate value else value.

Definition ln_compare_unsigned (a b : linears_accum_t) : Z :=
  if negb (high a =? high b) then (if high a >? high b then 1 else -1)
  else (if low a >? low b then 1 else 0) - (if low a <? low b then 1 else 0).

Definition ln_shift_u64 (value amount : Z) : linears_accum_t :=
  mk_accum (u64 (Z.shiftl value amount)) (Z.shiftr value (64 - amount)).

Definition ln_shift_i64 (value amount : Z) : linears_accum_t :=
  let result := ln_shift_u64 (ln_magnitude value) amount in
  if value <? 0 then ln_negate result else result.

Definition ln_multiply_unsigned (a b : Z) : linears_accum_t :=
  if Z.lor a b <=? UINT32_MAX then mk_accum (u64 (u32 a * u32 b)) 0
  else
    let a0 := u32 a in let a1 := Z.shiftr a 32 in
    let b0 := u32 b in let b1 := Z.shiftr b 32 in
    let p00 := u64 (a0 * b0) in
    let t := u64 (u64 (a1 * b0) + Z.shiftr p00 32) in
    let carry := Z.shiftr t 32 in
    let t := u64 (u32 t + u64 (a0 * b1)) in
    mk_accum (Z.lor (u64 (Z.shiftl t 32)) (u32 p00))
             (u64 (u64 (u64 (a1 * b1) + carry) + Z.shiftr t 32)).

Definition ln_product (a b : Z) : linears_accum_t :=
  let result := ln_multiply_unsigned (ln_magnitude a) (ln_magnitude b) in
  if xorb (a <? 0) (b <? 0) then ln_negate result else result.

Definition ln_add_unchecked (a b : linears_accum_t) : linears_accum_t :=
  let l := u64 (low a + low b) in
  mk_accum l (u64 (u64 (high a + high b) + (if l <? low a then 1 else 0))).

Definition ln_shift_accum (value : linears_accum_t) (amount : Z) : linears_accum_t :=
  mk_accum (u64 (Z.shiftl (low value) amount))
           (Z.lor (u64 (Z.shiftl (high value) amount)) (Z.shiftr (low value) (64 - amount))).

Definition ln_add_checked (a b out : linears_accum_t)
    : linears_status_t * linears_accum_t :=
  let result := ln_add_unchecked a b in
  if Bool.eqb (ln_negative a) (ln_negative b) &&
     negb (Bool.eqb (ln_negative result) (ln_negative a))
  then (LINEARS_ERROR_RANGE, out)
  else (LINEARS_OK, result).

Definition ln_add_product64 (sum : linears_accum_t) (product : Z) : linears_accum_t :=
  let old_low := low sum in
  let l := u64 (low sum + u64 product) in
  mk_accum l (u64 (high sum +
    u64 ((if product <? 0 then UINT64_MAX else 0) + (if l <? old_low then 1 else 0)))).

(** The two loops of the restoring square root, over (bit, value, root). *)
Definition sqrt_skip (value bit : Z) : Z :=
  while_fuel 33 (fun bit => value <? bit) (fun bit => Z.shiftr bit 2) bit.

Definition sqrt_guard (s : Z * Z * Z) : bool := negb (s.1.1 =? 0).

Definition sqrt_body (s : Z * Z * Z) : Z * Z * Z :=
  let '(bit, value, root) := s in
  if u64 (root + bit) <=? value
  then (Z.shiftr bit 2, u64 (value - u64 (root + bit)), u64 (Z.shiftr root 1 + bit))
  else (Z.shiftr bit 2, value, Z.shiftr root 1).

(** Returns (root, remainder). *)
Definition ln_sqrt_floor64 (value : Z) : Z * Z :=
  let bit := sqrt_skip value (Z.shiftl 1 62) in
  let '(_, value, root) := while_fuel 32 sqrt_guard sqrt_body (bit, value, 0) in
  (root, value).

Definition ln_sqrt_nearest64 (value : Z) : Z :=
  let '(root, remainder) := ln_sqrt_floor64 value in
  u64 (root + (if u64 (root + 1) <=? remainder then 1 else 0)).

(** ** Lemmas: signs, magnitudes, negation *)

Ltac unfold_accum :=
  unfold accum_value, accum_unsigned, accum_ok, is_i128, two64, two127, two128 in *.

(** [lia] for goals about accumulators whose limbs are in range. *)
Ltac alia := unfold_accum; unfold_ranges; cbn [low high] in *; lia.

Section Magnitude.
Lemma ln_magnitude_abs v : is_i64 v -> ln_magnitude v = Z.abs v.
Proof.
  intros Hv. unfold ln_magnitude. case_if.
  - rewrite (i64_id (v + 1)), i64_id, (u64_id (- (v + 1))), u64_id by rlia. lia.
  - rewrite u64_id by rlia. lia.
Qed.

Lemma abs_u64 v : is_i64 v -> is_u64 (Z.abs v).
Proof. rlia. Qed.
End Magnitude.

Section Accumulator.
Implicit Types a b r : linears_accum_t.

Lemma accum_unsigned_range a : accum_ok a -> 0 <= accum_unsigned a < two128.
Proof. alia. Qed.

Lemma accum_value_range a : accum_ok a -> is_i128 (accum_value a).
Proof. intros. unfold accum_value. case_if; alia. Qed.

(** The value determines the limbs. *)
Lemma accum_unsigned_inj a b :
  accum_ok a -> accum_ok b -> accum_unsigned a = accum_unsigned b -> a = b.
Proof.
  destruct a as [la ha], b as [lb hb]. intros [? ?] [? ?] ?.
  cbn in *. f_equal; alia.
Qed.

(** Two's complement: signed and unsigned reading agree modulo 2^128. *)
Lemma accum_value_mod a : accum_ok a -> accum_unsigned a = accum_value a mod two128.
Proof.
  intros. unfold accum_value. case_if.
  - by rewrite Z.mod_small by (apply accum_unsigned_range; done).
  - rewrite <- (Z.mod_add _ 1) by alia. rewrite Z.mod_small; alia.
Qed.

Lemma accum_value_unique a v :
  accum_ok a -> is_i128 v -> accum_unsigned a = v mod two128 -> accum_value a = v.
Proof.
  intros Ha Hv E. pose proof (accum_unsigned_range a Ha).
  destruct (Z.lt_ge_cases v 0).
  - rewrite <- (Z.mod_add _ 1), Z.mod_small in E by alia.
    unfold accum_value. case_if; alia.
  - rewrite Z.mod_small in E by alia. unfold accum_value. case_if; alia.
Qed.

Lemma ln_negative_spec a : accum_ok a -> ln_negative a = (accum_value a <? 0).
Proof.
  intros Ha. unfold ln_negative. rewrite Z.shiftr_div_pow2 by lia.
  change (2 ^ 63) with 9223372036854775808. unfold accum_value. case_if.
  - rewrite Z.div_small by alia. symmetry. apply Z.ltb_ge. alia.
  - assert (1 <= high a / 9223372036854775808) by (apply Z.div_le_lower_bound; lia).
    replace (high a / 9223372036854775808 =? 0) with false by (symmetry; apply Z.eqb_neq; lia).
    symmetry. apply Z.ltb_lt. alia.
Qed.

Lemma ln_negate_unsigned a :
  accum_ok a ->
  accum_ok (ln_negate a) /\ accum_unsigned (ln_negate a) = (- accum_unsigned a) mod two128.
Proof.
  intros [Hl Hh]. unfold ln_negate. rewrite !u64_lnot by done.
  assert (u64 (UINT64_MAX - low a + 1) =
          if low a =? 0 then 0 else 18446744073709551616 - low a) as ->.
  { case_if; [replace (low a) with 0 by lia; done|]. rewrite u64_id; rlia. }
  destruct (Z.eqb_spec (low a) 0) as [E|E].
  - change (0 =? 0) with true. cbv iota.
    assert (u64 (UINT64_MAX - high a + 1) =
            if high a =? 0 then 0 else 18446744073709551616 - high a) as ->.
    { case_if; [replace (high a) with 0 by lia; done|]. rewrite u64_id; rlia. }
    destruct (Z.eqb_spec (high a) 0) as [E'|E'].
    + split; [alia|]. unfold accum_unsigned. cbn [low high]. by rewrite E, E'.
    + split; [alia|]. rewrite <- (Z.mod_add _ 1) by alia. rewrite Z.mod_small; alia.
  - replace (18446744073709551616 - low a =? 0) with false by (symmetry; apply Z.eqb_neq; rlia).
    rewrite Z.add_0_r, (u64_id (UINT64_MAX - high a)) by rlia.
    split; [alia|]. rewrite <- (Z.mod_add _ 1) by alia. rewrite Z.mod_small; alia.
Qed.

Lemma ln_negate_ok a : accum_ok a -> accum_ok (ln_negate a).
Proof. apply ln_negate_unsigned. Qed.

Lemma ln_negate_value a :
  accum_ok a -> accum_value a <> - two127 -> accum_value (ln_negate a) = - accum_value a.
Proof.
  intros Ha Hm. destruct (ln_negate_unsigned a Ha) as [Hok Hu].
  pose proof (accum_value_range a Ha). apply accum_value_unique; [done|alia|].
  rewrite Hu, (accum_value_mod a) by done.
  rewrite <- (Z.sub_0_l (_ mod _)), Zminus_mod_idemp_r. f_equal.
Qed.

Lemma ln_absolute_unsigned a :
  accum_ok a ->
  accum_ok (ln_absolute a) /\ accum_unsigned (ln_absolute a) = Z.abs (accum_value a).
Proof.
  intros Ha. unfold ln_absolute. rewrite ln_negative_spec by done. case_if.
  - destruct (ln_negate_unsigned a Ha) as [Hok Hu]. split; [done|].
    rewrite Hu. pose proof (accum_unsigned_range a Ha).
    rewrite <- (Z.mod_add _ 1) by alia.
    rewrite Z.mod_small; revert E; unfold accum_value; case_if; alia.
  - split; [done|]. revert E. unfold accum_value. case_if; alia.
Qed.

Lemma ln_compare_unsigned_spec a b :
  accum_ok a -> accum_ok b ->
  ln_compare_unsigned a b = Z.sgn (accum_unsigned a - accum_unsigned b).
Proof.
  intros [? ?] [? ?]. unfold ln_compare_unsigned. symmetry.
  destruct (Z.eqb_spec (high a) (high b)) as [E|E]; cbn [negb].
  - destruct (Z.ltb_spec (low a) (low b)).
    + replace (low a >? low b) with false by lia. apply Z.sgn_neg. alia.
    + destruct (Z.eq_dec (low a) (low b)).
      * replace (low a >? low b) with false by lia. apply Z.sgn_null. alia.
      * replace (low a >? low b) with true by lia. apply Z.sgn_pos. alia.
  - case_if; [apply Z.sgn_pos|apply Z.sgn_neg]; alia.
Qed.
End Accumulator.

(** ** Lemmas: shifts, products and sums *)

Section Shifts.
Lemma ln_shift_u64_spec v k :
  is_u64 v -> 0 < k < 64 ->
  accum_ok (ln_shift_u64 v k) /\ accum_unsigned (ln_shift_u64 v k) = v * 2 ^ k.
Proof.
  intros Hv Hk. unfold ln_shift_u64, accum_unsigned, accum_ok. cbn [low high].
  rewrite Z.shiftl_mul_pow2, Z.shiftr_div_pow2 by lia.
  assert (two64 = 2 ^ (64 - k) * 2 ^ k) as E
    by (rewrite <- Z.pow_add_r by lia; by replace (64 - k + k) with 64 by lia).
  assert (0 < 2 ^ k) by (apply Z.pow_pos_nonneg; lia).
  assert (0 < 2 ^ (64 - k)) by (apply Z.pow_pos_nonneg; lia).
  split; [split; [apply u64_range|]|].
  - split; [apply Z.div_pos; rlia|]. apply Z.div_lt_upper_bound; [lia|].
    change 18446744073709551616 with two64. unfold is_u64 in Hv.
    change 18446744073709551616 with two64 in Hv. clear E. nia.
  - unfold u64. change 18446744073709551616 with two64. rewrite E at 1.
    rewrite Z.mul_mod_distr_r by lia. rewrite E.
    rewrite (Z.div_mod v (2 ^ (64 - k))) at 3 by lia. ring.
Qed.

(** The high limb of a left shift is the 64-bit quotient of the exact value. *)
Lemma limbs_div_mod a : accum_ok a ->
  low a = accum_unsigned a mod two64 /\ high a = accum_unsigned a / two64.
Proof.
  intros. unfold accum_unsigned. rewrite Z.div_add, Z.mod_add by (unfold two64; lia).
  rewrite Z.mod_small, Z.div_small; alia.
Qed.
End Shifts.

Section Products.
Lemma u32_land x : u32 x = x mod 2 ^ 32.
Proof. done. Qed.

Lemma lor_small a b k : 0 <= a -> 0 <= b -> Z.lor a b < 2 ^ k -> 0 <= k -> a < 2 ^ k /\ b < 2 ^ k.
Proof.
  intros Ha Hb H Hk.
  assert (forall c d, 0 <= c -> 0 <= d -> Z.lor c d < 2 ^ k -> c < 2 ^ k) as Hone.
  { intros c d Hc Hd Hcd. destruct (Z.lt_ge_cases c (2 ^ k)); [done|exfalso].
    destruct (Z.eq_dec c 0); [subst; pose proof (Z.pow_pos_nonneg 2 k); lia|].
    assert (k <= Z.log2 c) by (apply Z.log2_le_pow2; lia).
    assert (Z.log2 c <= Z.log2 (Z.lor c d)) by (rewrite Z.log2_lor by done; lia).
    assert (0 < Z.lor c d).
    { pose proof (Z.lor_nonneg c d) as [_ ?]. destruct (Z.eq_dec (Z.lor c d) 0) as [Ez|]; [|lia].
      apply Z.lor_eq_0_iff in Ez. lia. }
    assert (Z.log2 (Z.lor c d) < k) by (apply Z.log2_lt_pow2; lia). lia. }
  split; [by apply Hone with b|]. apply Hone with a; try done. by rewrite Z.lor_comm.
Qed.

(** The schoolbook product of two words by 32-bit limbs. *)
Lemma limb_product_spec a b : is_u64 a -> is_u64 b ->
  let a0 := u32 a in let a1 := Z.shiftr a 32 in
  let b0 := u32 b in let b1 := Z.shiftr b 32 in
  let p00 := u64 (a0 * b0) in
  let t := u64 (u64 (a1 * b0) + Z.shiftr p00 32) in
  let carry := Z.shiftr t 32 in
  let t := u64 (u32 t + u64 (a0 * b1)) in
  let r := mk_accum (Z.lor (u64 (Z.shiftl t 32)) (u32 p00)) (u64 (u64 (u64 (a1 * b1) + carry) + Z.shiftr t 32)) in
  accum_ok r /\ accum_unsigned r = a * b.
Proof.
  intros Ha Hb. cbv zeta.
  rewrite !Z.shiftr_div_pow2 by lia. change (2 ^ 32) with 4294967296.
  set (a0 := u32 a). set (a1 := a / 4294967296). set (b0 := u32 b). set (b1 := b / 4294967296).
  assert (a = a0 + 4294967296 * a1) as Ea
    by (unfold a0, a1, u32; pose proof (Z.div_mod a 4294967296); lia).
  assert (b = b0 + 4294967296 * b1) as Eb
    by (unfold b0, b1, u32; pose proof (Z.div_mod b 4294967296); lia).
  assert (0 <= a0 <= 4294967295) by (pose proof (u32_range a); subst a0; rlia).
  assert (0 <= b0 <= 4294967295) by (pose proof (u32_range b); subst b0; rlia).
  assert (0 <= a1 <= 4294967295) by (unfold is_u64 in *; lia).
  assert (0 <= b1 <= 4294967295) by (unfold is_u64 in *; lia).
  clearbody a0 a1 b0 b1. subst a b. clear Ha Hb.
  assert (forall x y, 0 <= x <= 4294967295 -> 0 <= y <= 4294967295 ->
            0 <= x * y <= 18446744065119617025) as Hprod by (intros; nia).
  pose proof (Hprod a0 b0) as P00. pose proof (Hprod a1 b0) as P10.
  pose proof (Hprod a0 b1) as P01. pose proof (Hprod a1 b1) as P11.
  specialize (P00 ltac:(lia) ltac:(lia)). specialize (P10 ltac:(lia) ltac:(lia)).
  specialize (P01 ltac:(lia) ltac:(lia)). specialize (P11 ltac:(lia) ltac:(lia)).
  replace ((a0 + 4294967296 * a1) * (b0 + 4294967296 * b1)) with
    (a0 * b0 + 4294967296 * (a1 * b0) + 4294967296 * (a0 * b1)
     + 18446744073709551616 * (a1 * b1)) by ring.
  generalize dependent (a0 * b0). intros p00 P00.
  generalize dependent (a1 * b0). intros p10 P10.
  generalize dependent (a0 * b1). intros p01 P01.
  generalize dependent (a1 * b1). intros p11 P11.
  rewrite (u64_id p00), (u64_id p10), (u64_id p01), (u64_id p11) by rlia.
  pose proof (Z.div_mod p00 4294967296 ltac:(lia)) as D0.
  pose proof (Z.mod_pos_bound p00 4294967296 ltac:(lia)).
  rewrite (u64_id (p10 + p00 / 4294967296)) by rlia.
  set (t := p10 + p00 / 4294967296) in *.
  pose proof (Z.div_mod t 4294967296 ltac:(lia)) as D1.
  pose proof (Z.mod_pos_bound t 4294967296 ltac:(lia)).
  unfold u32. rewrite (u64_id (t mod 4294967296 + p01)) by rlia.
  set (t2 := t mod 4294967296 + p01) in *.
  pose proof (Z.div_mod t2 4294967296 ltac:(lia)) as D2.
  pose proof (Z.mod_pos_bound t2 4294967296 ltac:(lia)).
  rewrite (u64_id (p11 + t / 4294967296)), (u64_id (p11 + t / 4294967296 + _)) by rlia.
  assert (Z.lor (u64 (Z.shiftl t2 32)) (p00 mod 4294967296)
          = t2 mod 4294967296 * 4294967296 + p00 mod 4294967296) as ->.
  { rewrite Z.shiftl_mul_pow2 by lia. change (2 ^ 32) with 4294967296. unfold u64.
    change 18446744073709551616 with (4294967296 * 4294967296) at 1.
    rewrite Z.mul_mod_distr_r by lia.
    apply lor_add_disjoint with 32; [lia|change (2 ^ 32) with 4294967296; lia|].
    change (2 ^ 32) with 4294967296. apply Z.mod_mul. lia. }
  split; alia.
Qed.

Lemma ln_multiply_unsigned_spec a b :
  is_u64 a -> is_u64 b ->
  accum_ok (ln_multiply_unsigned a b) /\ accum_unsigned (ln_multiply_unsigned a b) = a * b.
Proof.
  intros Ha Hb. unfold ln_multiply_unsigned. case_if.
  - destruct (lor_small a b 32) as [? ?]; try rlia.
    rewrite !u32_id by rlia. rewrite u64_id by (unfold is_u64, is_u32 in *; nia).
    unfold accum_unsigned, accum_ok; cbn [low high]. unfold is_u64 in *. split; nia.
  - by apply limb_product_spec.
Qed.
End Products.

Section Sums.
Implicit Types a b r : linears_accum_t.

(** The magnitude of a product of two int64_t values fits with room to spare. *)
Lemma i64_product_bound x y : is_i64 x -> is_i64 y -> Z.abs (x * y) <= 2 ^ 126.
Proof.
  intros. rewrite Z.abs_mul. change (2 ^ 126) with (9223372036854775808 * 9223372036854775808).
  apply Z.mul_le_mono_nonneg; rlia.
Qed.

Lemma ln_product_spec x y :
  is_i64 x -> is_i64 y ->
  accum_ok (ln_product x y) /\ accum_value (ln_product x y) = x * y.
Proof.
  intros Hx Hy. unfold ln_product. rewrite !ln_magnitude_abs by done.
  destruct (ln_multiply_unsigned_spec (Z.abs x) (Z.abs y)) as [Hok Hu]; [rlia..|].
  rewrite <- Z.abs_mul in Hu. pose proof (i64_product_bound x y Hx Hy) as Hb.
  change (2 ^ 126) with 85070591730234615865843651857942052864 in Hb.
  set (m := ln_multiply_unsigned _ _) in *.
  assert (accum_value m = Z.abs (x * y)) as Hm.
  { apply accum_value_unique; [done|alia|]. rewrite Hu, Z.mod_small; alia. }
  destruct (Z.ltb_spec x 0), (Z.ltb_spec y 0); cbn [xorb].
  - split; [done|]. rewrite Hm. nia.
  - split; [by apply ln_negate_ok|]. rewrite ln_negate_value by (done || alia). nia.
  - split; [by apply ln_negate_ok|]. rewrite ln_negate_value by (done || alia). nia.
  - split; [done|]. rewrite Hm. nia.
Qed.

Lemma ln_add_unchecked_unsigned a b :
  accum_ok a -> accum_ok b ->
  accum_ok (ln_add_unchecked a b) /\
  accum_unsigned (ln_add_unchecked a b) = (accum_unsigned a + accum_unsigned b) mod two128.
Proof.
  intros [Hla Hha] [Hlb Hhb]. unfold ln_add_unchecked.
  destruct (u64_carry (low a) (low b) Hla Hlb) as [Hc Hs]. rewrite Hc, Hs.
  unfold accum_ok. cbn [low high]. split.
  { split; [|apply u64_range]. case_if; rlia. }
  rewrite u64_add_l. unfold accum_unsigned. cbn [low high].
  set (c := if 18446744073709551616 <=? low a + low b then 1 else 0).
  assert ((if 18446744073709551616 <=? low a + low b then 18446744073709551616 else 0)
          = c * two64) as -> by (subst c; case_if; done).
  assert (0 <= c <= 1) by (subst c; case_if; lia).
  assert (0 <= low a + low b - c * two64 < two64) by (subst c; case_if; alia).
  unfold u64. change 18446744073709551616 with two64.
  set (h := high a + high b + c).
  replace (low a + high a * two64 + (low b + high b * two64))
    with ((low a + low b - c * two64) + h * two64) by (unfold h; ring).
  pose proof (Z.div_mod h two64 ltac:(alia)).
  pose proof (Z.mod_pos_bound h two64 ltac:(alia)).
  replace (low a + low b - c * two64 + h * two64) with
    ((low a + low b - c * two64 + h mod two64 * two64) + h / two64 * two128) by alia.
  rewrite Z.mod_add by alia. rewrite (Z.mod_small (low a + _ - _ + _)); [done|]. alia.
Qed.

Lemma ln_add_unchecked_ok a b : accum_ok a -> accum_ok b -> accum_ok (ln_add_unchecked a b).
Proof. intros. by apply ln_add_unchecked_unsigned. Qed.

Lemma ln_add_unchecked_value a b :
  accum_ok a -> accum_ok b -> is_i128 (accum_value a + accum_value b) ->
  accum_value (ln_add_unchecked a b) = accum_value a + accum_value b.
Proof.
  intros Ha Hb Hfit. destruct (ln_add_unchecked_unsigned a b Ha Hb) as [Hok Hu].
  apply accum_value_unique; [done..|].
  rewrite Hu, (accum_value_mod a), (accum_value_mod b) by done. symmetry. by apply Z.add_mod.
Qed.

Definition fits_i128 (x : Z) : bool := (- two127 <=? x) && (x <? two127).

Lemma fits_i128_spec x : fits_i128 x = true <-> is_i128 x.
Proof. unfold fits_i128. rewrite andb_true_iff, Z.leb_le, Z.ltb_lt. done. Qed.

(** The sign test of [ln_add_checked] is exact overflow detection. *)
Lemma ln_add_checked_spec a b out :
  accum_ok a -> accum_ok b ->
  exists r, ln_add_checked a b out = deliver (fits_i128 (accum_value a + accum_value b)) r out /\
    accum_ok r /\
    (is_i128 (accum_value a + accum_value b) -> accum_value r = accum_value a + accum_value b).
Proof.
  intros Ha Hb. exists (ln_add_unchecked a b).
  pose proof (ln_add_unchecked_ok a b Ha Hb) as Hok.
  split; [|split; [done|by apply ln_add_unchecked_value]].
  unfold ln_add_checked. rewrite !ln_negative_spec by done.
  pose proof (accum_value_range a Ha). pose proof (accum_value_range b Hb).
  destruct (fits_i128 _) eqn:E.
  - apply fits_i128_spec in E. rewrite ln_add_unchecked_value by done. unfold deliver.
    destruct (Z.ltb_spec (accum_value a) 0), (Z.ltb_spec (accum_value b) 0),
      (Z.ltb_spec (accum_value a + accum_value b) 0); cbn [Bool.eqb andb negb];
      try done; exfalso; lia.
  - destruct (ln_add_unchecked_unsigned a b Ha Hb) as [_ Hu].
    rewrite (accum_value_mod _ Hok), (accum_value_mod a Ha), (accum_value_mod b Hb) in Hu.
    rewrite <- Z.add_mod in Hu by alia.
    pose proof (accum_value_range _ Hok).
    assert (~ is_i128 (accum_value a + accum_value b)) as Hn
      by (intros Hc%fits_i128_spec; congruence).
    set (va := accum_value a) in *. set (vb := accum_value b) in *.
    set (vr := accum_value (ln_add_unchecked a b)) in *.
    assert (exists k, vr = va + vb + k * two128) as [k Hk].
    { exists (vr / two128 - (va + vb) / two128).
      pose proof (Z.div_mod vr two128 ltac:(alia)).
      pose proof (Z.div_mod (va + vb) two128 ltac:(alia)). alia. }
    unfold deliver.
    destruct (Z.ltb_spec va 0), (Z.ltb_spec vb 0); cbn [Bool.eqb andb negb];
      try (exfalso; alia); destruct (Z.ltb_spec vr 0); cbn [Bool.eqb negb]; try done; exfalso; alia.
Qed.

Lemma ln_shift_i64_spec x k :
  is_i64 x -> 0 < k < 64 ->
  accum_ok (ln_shift_i64 x k) /\ accum_value (ln_shift_i64 x k) = x * 2 ^ k.
Proof.
  intros Hx Hk. unfold ln_shift_i64. rewrite ln_magnitude_abs by done.
  destruct (ln_shift_u64_spec (Z.abs x) k) as [Hok Hu]; [rlia|done|].
  assert (0 < 2 ^ k <= 2 ^ 63) as Hp.
  { split; [apply Z.pow_pos_nonneg; lia|]. apply Z.pow_le_mono_r; lia. }
  change (2 ^ 63) with 9223372036854775808 in Hp.
  assert (0 <= Z.abs x * 2 ^ k <= 85070591730234615865843651857942052864) as Hb.
  { unfold is_i64 in Hx. clear Hu Hok. nia. }
  set (m := ln_shift_u64 _ _) in *.
  assert (accum_value m = Z.abs x * 2 ^ k) as Hm.
  { apply accum_value_unique; [done|alia|]. rewrite Hu, Z.mod_small; alia. }
  case_if.
  - split; [by apply ln_negate_ok|]. rewrite ln_negate_value by (done || alia). nia.
  - split; [done|]. rewrite Hm. nia.
Qed.

(** A product sign-extended to two limbs. *)
Lemma sign_extend_spec p : is_i64 p ->
  let q := mk_accum (u64 p) (if p <? 0 then UINT64_MAX else 0) in accum_ok q /\ accum_value q = p.
Proof.
  intros Hp. cbv zeta. set (q := mk_accum _ _).
  assert (accum_ok q) as Hq.
  { unfold q; split; cbn [low high]; [apply u64_range|]. case_if; rlia. }
  split; [done|]. apply accum_value_unique; [done|alia|]. unfold q, accum_unsigned. cbn [low high]. case_if.
  - assert (u64 p = p + two64) as ->.
    { unfold u64. rewrite <- (Z.mod_add _ 1), Z.mod_small; alia. }
    rewrite <- (Z.mod_add p 1) by alia. rewrite Z.mod_small; alia.
  - rewrite u64_id by rlia. rewrite Z.mod_small; alia.
Qed.

Lemma ln_add_product64_spec a p :
  accum_ok a -> is_i64 p ->
  accum_ok (ln_add_product64 a p) /\
  (is_i128 (accum_value a + p) -> accum_value (ln_add_product64 a p) = accum_value a + p).
Proof.
  intros Ha Hp. destruct (sign_extend_spec p Hp) as [Hq Hv]. set (q := mk_accum _ _) in *.
  assert (ln_add_product64 a p = ln_add_unchecked a q) as ->.
  { unfold ln_add_product64, ln_add_unchecked, q. cbn [low high]. f_equal.
    rewrite u64_add_l, u64_add_r. f_equal. ring. }
  split; [by apply ln_add_unchecked_ok|]. intros Hfit.
  rewrite ln_add_unchecked_value by (rewrite ?Hv; done). by rewrite Hv.
Qed.
End Sums.

(** ** Lemmas: the restoring square root *)

Section Sqrt.
(** The state at [bit = 4^k]: [root] is the partial root [s] scaled by
    [2^(k+1)], and [value] what remains of [n] after [s^2]. *)
Definition sqrt_inv (n k : Z) (st : Z * Z * Z) : Prop :=
  let '(bit, value, root) := st in
  exists s, 0 <= s /\ bit = 4 ^ k /\ root = 2 ^ (k + 1) * s /\
    s mod 2 ^ (k + 1) = 0 /\ value = n - s * s /\ s * s <= n < (s + 2 ^ (k + 1)) ^ 2.

Lemma four_pow k : 0 <= k -> 4 ^ k = 2 ^ k * 2 ^ k.
Proof. intros. change 4 with (2 * 2). by rewrite Z.pow_mul_l. Qed.

Lemma pow2_double k : 0 <= k -> 2 ^ (k + 1) = 2 * 2 ^ k.
Proof. intros. rewrite Z.pow_add_r by lia. change (2 ^ 1) with 2. lia. Qed.

Lemma quarter_pow k : 0 < k -> Z.shiftr (4 ^ k) 2 = 4 ^ (k - 1).
Proof.
  intros. rewrite Z.shiftr_div_pow2 by lia. change (2 ^ 2) with 4.
  rewrite <- (Z.sub_add 1 k) at 1. rewrite Z.pow_add_r by lia.
  change (4 ^ 1) with 4. rewrite Z.div_mul by lia. done.
Qed.

(** The skip loop stops at zero or at the largest power of four not above the value. *)
Lemma sqrt_skip_spec n : is_u64 n ->
  (n = 0 /\ sqrt_skip n (Z.shiftl 1 62) = 0) \/
  (exists k, 0 <= k <= 31 /\ sqrt_skip n (Z.shiftl 1 62) = 4 ^ k /\ n < 4 ^ (k + 1)).
Proof.
  intros Hn. unfold sqrt_skip. change (Z.shiftl 1 62) with (4 ^ 31).
  assert (forall (m : nat) k, 0 <= k <= 31 -> n < 4 ^ (k + 1) -> (Z.to_nat k + 2 <= m)%nat ->
    let b := while_fuel m (fun bit => n <? bit) (fun bit => Z.shiftr bit 2) (4 ^ k) in
    (n = 0 /\ b = 0) \/ (exists j, 0 <= j <= 31 /\ b = 4 ^ j /\ n < 4 ^ (j + 1))) as Hgen.
  { induction m as [|m IH]; intros k Hk Hlt Hm; [lia|]. cbn [while_fuel].
    destruct (Z.ltb_spec n (4 ^ k)); [|right; exists k; lia].
    destruct (Z.eq_dec k 0) as [->|].
    - change (4 ^ 0) with 1 in *. change (Z.shiftr 1 2) with 0. left. split; [rlia|].
      destruct m; [lia|]. cbn. replace (n <? 0) with false; [done|]. symmetry. apply Z.ltb_ge. rlia.
    - rewrite quarter_pow by lia. apply IH; [lia| |lia]. by replace (k - 1 + 1) with k by lia. }
  apply (Hgen 33%nat 31); [lia| |lia]. change (4 ^ (31 + 1)) with 18446744073709551616. rlia.
Qed.

Lemma sqrt_body_inv n k bit value root :
  is_u64 n -> 0 <= k <= 31 -> sqrt_inv n k (bit, value, root) ->
  bit <> 0 /\
  exists value' root', sqrt_body (bit, value, root) = (Z.shiftr bit 2, value', root') /\
    (0 < k -> sqrt_inv n (k - 1) (Z.shiftr bit 2, value', root')) /\
    (k = 0 -> Z.shiftr bit 2 = 0 /\ value' = n - root' * root' /\ 0 <= root' /\
              root' * root' <= n < (root' + 1) ^ 2).
Proof.
  intros Hn Hk (s & Hs & -> & -> & Hmod & -> & Hlo & Hhi).
  rewrite pow2_double in * by lia. rewrite four_pow by lia.
  assert (0 < 2 ^ k <= 2 ^ 31) as Hp.
  { split; [apply Z.pow_pos_nonneg; lia|]. apply Z.pow_le_mono_r; lia. }
  change (2 ^ 31) with 2147483648 in Hp.
  set (p := 2 ^ k) in *.
  split; [nia|].
  assert (s < 4294967296) as Hs32 by (unfold is_u64 in Hn; nia).
  assert (s = 0 \/ s + 2 * p <= 4294967296) as Hsp.
  { destruct (Z.eq_dec s 0); [by left|right].
    assert (exists q, 4294967296 = 2 * p * q) as [q Hq].
    { exists (2 ^ (31 - k)). unfold p. rewrite <- Z.mul_assoc, <- Z.pow_add_r by lia.
      by replace (k + (31 - k)) with 31 by lia. }
    pose proof (Z.div_mod s (2 * p) ltac:(lia)) as Hd. rewrite Hmod, Z.add_0_r in Hd.
    set (j := s / (2 * p)) in *. assert (j < q) by nia. nia. }
  assert (is_u64 (2 * p * s + p * p)) as Hsum.
  { unfold is_u64. destruct Hsp; nia. }
  assert (Z.shiftr (2 * p * s) 1 = p * s) as Hhalf.
  { rewrite Z.shiftr_div_pow2 by lia. change (2 ^ 1) with 2.
    replace (2 * p * s) with (p * s * 2) by ring. by apply Z.div_mul. }
  assert (s mod p = 0) as Hsmod.
  { pose proof (Z.div_mod s (2 * p) ltac:(lia)) as Hd. rewrite Hmod, Z.add_0_r in Hd.
    rewrite Hd. replace (2 * p * (s / (2 * p))) with (2 * (s / (2 * p)) * p) by ring.
    apply Z.mod_mul. lia. }
  assert (forall s', 0 <= s' -> s' mod p = 0 -> s' * s' <= n < (s' + p) ^ 2 ->
    (0 < k -> sqrt_inv n (k - 1) (Z.shiftr (p * p) 2, n - s' * s', p * s')) /\
    (k = 0 -> Z.shiftr (p * p) 2 = 0 /\ n - s' * s' = n - (p * s') * (p * s') /\ 0 <= p * s' /\
              (p * s') * (p * s') <= n < (p * s' + 1) ^ 2)) as Hfin.
  { intros s' ? ? ?. split.
    - intros. exists s'. replace (k - 1 + 1) with k by lia. unfold p. rewrite <- four_pow by lia.
      rewrite quarter_pow by lia. done.
    - intros ->. change p with 1 in *. rewrite !Z.mul_1_l. auto with lia. }
  unfold sqrt_body. rewrite (u64_id (2 * p * s + p * p)), Hhalf by done. case_if.
  - exists (n - (s + p) * (s + p)), (p * (s + p)). split.
    + rewrite !u64_id.
      * f_equal; [f_equal|]; ring.
      * unfold is_u64 in *. destruct Hsp; nia.
      * unfold is_u64 in *. nia.
    + apply Hfin; [lia| |nia]. rewrite <- (Z.mul_1_l p) at 1. by rewrite Z.mod_add by lia.
  - exists (n - s * s), (p * s). split; [done|]. apply Hfin; [lia|done|nia].
Qed.

Lemma sqrt_loop_spec n (m : nat) : forall k st,
  is_u64 n -> 0 <= k <= 31 -> sqrt_inv n k st -> (Z.to_nat k < m)%nat ->
  exists r, while_fuel m sqrt_guard sqrt_body st = (0, n - r * r, r) /\
    0 <= r /\ r * r <= n < (r + 1) ^ 2.
Proof.
  induction m as [|m IH]; intros k [[bit value] root] Hn Hk Hinv Hm; [lia|].
  destruct (sqrt_body_inv n k bit value root Hn Hk Hinv) as (Hb & v' & r' & Hbody & Hpos & Hzero).
  cbn [while_fuel]. unfold sqrt_guard at 1. cbn [fst].
  replace (bit =? 0) with false by (symmetry; by apply Z.eqb_neq). cbn [negb]. rewrite Hbody.
  destruct (Z.eq_dec k 0) as [E|].
  - destruct (Hzero E) as (E0 & -> & Hr & Hb2). exists r'. rewrite E0. destruct m; done.
  - apply (IH (k - 1)); [done|lia|apply Hpos; lia|lia].
Qed.

Lemma ln_sqrt_floor64_spec n : is_u64 n ->
  ln_sqrt_floor64 n = (Z.sqrt n, n - Z.sqrt n * Z.sqrt n).
Proof.
  intros Hn. unfold ln_sqrt_floor64.
  destruct (sqrt_skip_spec n Hn) as [[-> ->]|(k & Hk & -> & Hlt)]; [done|].
  destruct (sqrt_loop_spec n 32 k (4 ^ k, n, 0)) as (r & -> & Hr & Hb); [done|lia| |lia|].
  - exists 0. rewrite Z.mod_0_l by (apply Z.pow_nonzero; lia).
    rewrite four_pow in Hlt by lia. repeat split; unfold is_u64 in *; try lia.
  - replace (Z.sqrt n) with r; [done|]. symmetry. apply Z.sqrt_unique. lia.
Qed.

(** Rounding the root: up exactly when the remainder exceeds the root. *)
Definition sqrt_nearest (n : Z) : Z :=
  let r := Z.sqrt n in if r + 1 <=? n - r * r then r + 1 else r.

Lemma sqrt_nearest_bounds n : 0 <= n ->
  let r := sqrt_nearest n in
  0 <= r /\ (r = 0 \/ (2 * r - 1) * (2 * r - 1) < 4 * n) /\ 4 * n < (2 * r + 1) * (2 * r + 1).
Proof.
  intros Hn. unfold sqrt_nearest. pose proof (Z.sqrt_spec n Hn) as Hs. cbv zeta in Hs.
  pose proof (Z.sqrt_nonneg n). set (r := Z.sqrt n) in *. clearbody r.
  cbv zeta. case_if; (split; [lia|split; [|lia]]).
  - right. lia.
  - destruct (Z.eq_dec r 0); [by left|right; lia].
Qed.

Lemma ln_sqrt_nearest64_spec n : is_u64 n -> ln_sqrt_nearest64 n = sqrt_nearest n.
Proof.
  intros Hn. unfold ln_sqrt_nearest64, sqrt_nearest. rewrite ln_sqrt_floor64_spec by done.
  pose proof (Z.sqrt_spec n ltac:(rlia)) as Hs. cbv zeta in Hs. pose proof (Z.sqrt_nonneg n).
  assert (Z.sqrt n < 4294967296) by (unfold is_u64 in *; nia).
  rewrite (u64_id (Z.sqrt n + 1)) by rlia. rewrite u64_id by (case_if; rlia). case_if; lia.
Qed.
End Sqrt.
