(* ===== verification/Numeric.v ===== *)
(** * Fixed-point arithmetic: libs/linears/src/numeric.c

    [linears_fixed_t] is an int64_t raw value over 2^31.  Every entry point of
    numeric.c is modelled with its NULL check, its range tests and its limb
    arithmetic, and refines an exact specification: the rational result
    rounded once, to nearest with halfway cases away from zero, or RANGE. *)
From S2P Require Import Prelude MachineInt Status Wide.

Definition LINEARS_FIXED_ONE : Z := 2147483648.

(** ** Scalar operations *)

Definition linears_fixed_from_q15 (value : Z) : Z := i64 (value * 65536).
Definition linears_fixed_from_q31 (value : Z) : Z := value.
Definition linears_fixed_compare (a b : Z) : Z :=
  (if a >? b then 1 else 0) - (if a <? b then 1 else 0).

Definition signed_result (magnitude : Z) (negative : bool) (out : Z)
    : linears_status_t * Z :=
  let limit := if negative then u64 (Z.shiftl 1 63) else u64 INT64_MAX in
  if limit <? magnitude then (LINEARS_ERROR_RANGE, out)
  else (LINEARS_OK,
        if negative then
          (if magnitude =? u64 (Z.shiftl 1 63) then INT64_MIN else i64 (- (i64 magnitude)))
        else i64 magnitude).

Definition round_shift (magnitude : linears_accum_t) (shift : Z) (negative : bool) (out : Z)
    : linears_status_t * Z :=
  if negb (Z.shiftr (high magnitude) shift =? 0) then (LINEARS_ERROR_RANGE, out)
  else
    let quotient := Z.lor (Z.shiftr (low magnitude) shift)
                          (u64 (Z.shiftl (high magnitude) (64 - shift))) in
    let remainder := Z.land (low magnitude) (u64 (u64 (Z.shiftl 1 shift) - 1)) in
    if u64 (Z.shiftl 1 (shift - 1)) <=? remainder then
      if quotient =? UINT64_MAX then (LINEARS_ERROR_RANGE, out)
      else signed_result (u64 (quotient + 1)) negative out
    else signed_result quotient negative out.

Definition linears_fixed_from_int (integer : Z) (out : option Z) : linears_status_t * option Z :=
  with_out out (fun old =>
    if (integer <? -4294967296) || (integer >? 4294967295) then (LINEARS_ERROR_RANGE, old)
    else (LINEARS_OK, i64 (integer * LINEARS_FIXED_ONE))).

Definition linears_fixed_add (a b : Z) (out : option Z) : linears_status_t * option Z :=
  with_out out (fun old =>
    if ((b >? 0) && (a >? i64 (INT64_MAX - b))) || ((b <? 0) && (a <? i64 (INT64_MIN - b)))
    then (LINEARS_ERROR_RANGE, old)
    else (LINEARS_OK, i64 (a + b))).

Definition linears_fixed_sub (a b : Z) (out : option Z) : linears_status_t * option Z :=
  with_out out (fun old =>
    if ((b >? 0) && (a <? i64 (INT64_MIN + b))) || ((b <? 0) && (a >? i64 (INT64_MAX + b)))
    then (LINEARS_ERROR_RANGE, old)
    else (LINEARS_OK, i64 (a - b))).

Definition linears_fixed_mul (a b : Z) (out : option Z) : linears_status_t * option Z :=
  with_out out (fun old =>
    round_shift (ln_multiply_unsigned (ln_magnitude a) (ln_magnitude b)) 31
      (xorb (a <? 0) (b <? 0)) old).

(** One iteration of the restoring division, over (rest, quotient). *)
Definition divide_step (low divisor : Z) (i : nat) (s : Z * Z) : Z * Z :=
  let '(rest, quotient) := s in
  let carry := Z.shiftr rest 63 in
  let rest := Z.lor (u64 (Z.shiftl rest 1)) (Z.land (Z.shiftr low (Z.of_nat i - 1)) 1) in
  let quotient := u64 (Z.shiftl quotient 1) in
  if negb (carry =? 0) || (divisor <=? rest)
  then (u64 (rest - divisor), Z.lor quotient 1)
  else (rest, quotient).

(** Returns (quotient, remainder). *)
Definition divide_magnitude (high low divisor : Z) : Z * Z :=
  if high =? 0 then (low / divisor, low mod divisor)
  else let '(rest, quotient) := for_down 64 (divide_step low divisor) (high, 0) in
       (quotient, rest).

Definition rounded_division (numerator : linears_accum_t) (divisor : Z) (negative : bool)
    (out : Z) : linears_status_t * Z :=
  if divisor <=? high numerator then (LINEARS_ERROR_RANGE, out)
  else
    let '(quotient, remainder) := divide_magnitude (high numerator) (low numerator) divisor in
    if u64 (divisor - remainder) <=? remainder then
      if quotient =? UINT64_MAX then (LINEARS_ERROR_RANGE, out)
      else signed_result (u64 (quotient + 1)) negative out
    else signed_result quotient negative out.

Definition linears_fixed_div (a b : Z) (out : option Z) : linears_status_t * option Z :=
  with_out out (fun old =>
    if b =? 0 then (LINEARS_ERROR_DOMAIN, old)
    else rounded_division (ln_shift_u64 (ln_magnitude a) 31) (ln_magnitude b)
           (xorb (a <? 0) (b <? 0)) old).

Definition linears_fixed_muldiv (a b divisor : Z) (out : option Z) : linears_status_t * option Z :=
  with_out out (fun old =>
    if divisor =? 0 then (LINEARS_ERROR_DOMAIN, old)
    else rounded_division (ln_multiply_unsigned (ln_magnitude a) (ln_magnitude b))
           (ln_magnitude divisor) (xorb (xorb (a <? 0) (b <? 0)) (divisor <? 0)) old).

(** One base-4 digit of the wide square root, over (root, remainder). *)
Definition sqrt_digit (radicand : linears_accum_t) (pair : nat) (s : Z * Z) : Z * Z :=
  let '(root, remainder) := s in
  let position := 2 * (Z.of_nat pair - 1) in
  let digit := if 64 <=? position then Z.land (Z.shiftr (high radicand) (position - 64)) 3
               else Z.land (Z.shiftr (low radicand) position) 3 in
  let remainder := Z.lor (u64 (Z.shiftl remainder 2)) digit in
  let root := u64 (Z.shiftl root 1) in
  let trial := Z.lor (u64 (Z.shiftl root 1)) 1 in
  if trial <=? remainder then (u64 (root + 1), u64 (remainder - trial)) else (root, remainder).

Definition linears_fixed_sqrt (value : Z) (out : option Z) : linears_status_t * option Z :=
  with_out out (fun old =>
    if value <? 0 then (LINEARS_ERROR_DOMAIN, old)
    else
      let radicand := ln_shift_u64 (u64 value) 31 in
      if high radicand =? 0 then (LINEARS_OK, i64 (ln_sqrt_nearest64 (low radicand)))
      else
        let '(root, remainder) := for_down 48 (sqrt_digit radicand) (0, 0) in
        (LINEARS_OK, i64 (u64 (root + (if u64 (root + 1) <=? remainder then 1 else 0))))).

Definition linears_fixed_neg (value : Z) (out : option Z) : linears_status_t * option Z :=
  with_out out (fun old =>
    if value =? INT64_MIN then (LINEARS_ERROR_RANGE, old) else (LINEARS_OK, i64 (- value))).

Definition linears_fixed_abs (value : Z) (out : option Z) : linears_status_t * option Z :=
  with_out out (fun old =>
    if value =? INT64_MIN then (LINEARS_ERROR_RANGE, old)
    else (LINEARS_OK, if value <? 0 then i64 (- value) else value)).

(** ** Quantization to the signal formats *)

Definition fixed_to_q15_cell (value old : Z) : linears_status_t * Z :=
  if (value <? - LINEARS_FIXED_ONE) || (value >? LINEARS_FIXED_ONE)
  then (LINEARS_ERROR_RANGE, old)
  else
    let magnitude := ln_magnitude value in
    let raw := u64 (Z.shiftr magnitude 16 +
                    (if 32768 <=? Z.land magnitude 65535 then 1 else 0)) in
    let raw := if (0 <=? value) && (raw =? 32768) then u64 INT16_MAX else raw in
    (LINEARS_OK, i16 (if value <? 0 then i32 (- (i32 raw)) else i32 raw)).

Definition linears_fixed_to_q15 (value : Z) (out : option Z) : linears_status_t * option Z :=
  with_out out (fixed_to_q15_cell value).

Definition fixed_to_q31_cell (value old : Z) : linears_status_t * Z :=
  if (value <? - LINEARS_FIXED_ONE) || (value >? LINEARS_FIXED_ONE)
  then (LINEARS_ERROR_RANGE, old)
  else (LINEARS_OK, if value =? LINEARS_FIXED_ONE then INT32_MAX else i32 value).

Definition linears_fixed_to_q31 (value : Z) (out : option Z) : linears_status_t * option Z :=
  with_out out (fixed_to_q31_cell value).

(** ** Accumulator operations *)

Definition linears_fixed_mac (accumulator : option linears_accum_t) (a b : Z)
    : linears_status_t * option linears_accum_t :=
  with_out accumulator (fun acc => ln_add_checked acc (ln_product a b) acc).

Definition linears_fixed_msu (accumulator : option linears_accum_t) (a b : Z)
    : linears_status_t * option linears_accum_t :=
  with_out accumulator (fun acc => ln_add_checked acc (ln_negate (ln_product a b)) acc).

Definition linears_accum_to_fixed (value : linears_accum_t) (out : option Z)
    : linears_status_t * option Z :=
  with_out out (fun old => round_shift (ln_absolute value) 31 (ln_negative value) old).

Definition quantize_unit (magnitude : Z) (negative : bool) (bits : Z) : Z :=
  let shift := 62 - bits in
  let raw := u64 (Z.shiftr magnitude shift +
    (if u64 (Z.shiftl 1 (shift - 1)) <=? Z.land magnitude (u64 (u64 (Z.shiftl 1 shift) - 1))
     then 1 else 0)) in
  let raw := if negb negative && (raw =? u64 (Z.shiftl 1 bits)) then u64 (raw - 1) else raw in
  if negative then i64 (- (i64 raw)) else i64 raw.

Definition quantize_accumulator (value : linears_accum_t) (bits : Z) (out : Z)
    : linears_status_t * Z :=
  let magnitude := ln_absolute value in
  if negb (high magnitude =? 0) || (low magnitude >? u64 (Z.shiftl 1 62))
  then (LINEARS_ERROR_RANGE, out)
  else (LINEARS_OK, quantize_unit (low magnitude) (ln_negative value) bits).

(** The two conversions write through a narrowing cast on success. *)
Definition narrow_out (narrow : Z -> Z) (body : Z -> linears_status_t * Z) (old : Z)
    : linears_status_t * Z :=
  let '(status, raw) := body 0 in
  (status, if status_ok status then narrow raw else old).

Definition linears_accum_to_q15 (value : linears_accum_t) (out : option Z)
    : linears_status_t * option Z :=
  with_out out (narrow_out i16 (quantize_accumulator value 15)).

Definition linears_accum_to_q31 (value : linears_accum_t) (out : option Z)
    : linears_status_t * option Z :=
  with_out out (narrow_out i32 (quantize_accumulator value 31)).

Definition quantize_mean (sum : linears_accum_t) (count bits : Z) (out : Z)
    : linears_status_t * Z :=
  if count =? 0 then (LINEARS_ERROR_DOMAIN, out)
  else
    let magnitude := ln_absolute sum in
    let bound := ln_shift_u64 count 62 in
    if ln_compare_unsigned magnitude bound >? 0 then (LINEARS_ERROR_RANGE, out)
    else
      let '(quotient, _) := divide_magnitude (high magnitude) (low magnitude) count in
      (LINEARS_OK, quantize_unit quotient (ln_negative sum) bits).

Definition linears_accum_mean_q15 (sum : linears_accum_t) (count : Z) (out : option Z)
    : linears_status_t * option Z :=
  with_out out (narrow_out i16 (quantize_mean sum count 15)).

Definition linears_accum_mean_q31 (sum : linears_accum_t) (count : Z) (out : option Z)
    : linears_status_t * option Z :=
  with_out out (narrow_out i32 (quantize_mean sum count 31)).

(** ** Array export

    An array argument is its address and its elements; address 0 is NULL. *)

Section ExportOps.
(** The widths of size_t and uintptr_t depend on the target. *)
Variables SIZE_MAX UINTPTR_MAX : Z.

Definition overlaps (x asize y bsize : Z) : bool :=
  if (asize =? 0) || (bsize =? 0) then false
  else if x <=? y then y - x <? asize else x - y <? bsize.

Definition in_unit (v : Z) : bool :=
  negb ((v <? - LINEARS_FIXED_ONE) || (v >? LINEARS_FIXED_ONE)).

Definition export_element (bits v old : Z) : Z :=
  snd (if bits =? 15 then fixed_to_q15_cell v old else fixed_to_q31_cell v old).

Definition export_values (values : Z) (elements : list Z) (out : Z) (cells : list Z) (bits : Z)
    : linears_status_t * list Z :=
  let count := Z.of_nat (length elements) in
  let width := if bits =? 15 then 2 else 4 in
  let alignment := if bits =? 15 then 2 else 4 in
  if negb (count =? 0) && ((values =? 0) || (out =? 0) || negb (values mod 8 =? 0) ||
                           negb (out mod alignment =? 0))
  then (LINEARS_ERROR_ARGUMENT, cells)
  else if (count >? SIZE_MAX / 8) || (count >? SIZE_MAX / width)
  then (LINEARS_ERROR_SIZE, cells)
  else if (count * 8 >? UINTPTR_MAX - values) || (count * width >? UINTPTR_MAX - out)
  then (LINEARS_ERROR_SIZE, cells)
  else if overlaps values (count * 8) out (count * width) then (LINEARS_ERROR_ALIAS, cells)
  else if negb (forallb in_unit elements) then (LINEARS_ERROR_RANGE, cells)
  else (LINEARS_OK, zip_with (export_element bits) elements cells).

Definition linears_fixed_export_q15 values elements out cells :=
  export_values values elements out cells 15.
Definition linears_fixed_export_q31 values elements out cells :=
  export_values values elements out cells 31.
End ExportOps.

(** ** Lemmas: rounding of magnitudes *)

Definition apply_sign (negative : bool) (m : Z) : Z := if negative then - m else m.

Section Rounding.
Lemma signed_result_spec m neg old :
  0 <= m -> is_u64 m ->
  signed_result m neg old = deliver (fits_i64 (apply_sign neg m)) (apply_sign neg m) old.
Proof.
  intros Hm Hu. unfold signed_result, apply_sign, deliver.
  change (u64 (Z.shiftl 1 63)) with 9223372036854775808.
  change (u64 INT64_MAX) with 9223372036854775807. destruct neg.
  - case_if; [by rewrite fits_i64_false by rlia|].
    rewrite fits_i64_true by rlia. case_if; [f_equal; rlia|].
    by rewrite (i64_id m), i64_id by rlia.
  - case_if; [by rewrite fits_i64_false by rlia|].
    rewrite fits_i64_true by rlia. by rewrite i64_id by rlia.
Qed.

Lemma signed_result_over neg m old :
  18446744073709551616 <= m ->
  deliver (fits_i64 (apply_sign neg m)) (apply_sign neg m) old = (LINEARS_ERROR_RANGE, old).
Proof. intros. unfold deliver, apply_sign. rewrite fits_i64_false; [done|]. destruct neg; rlia. Qed.

(** The final increment: a 64-bit quotient, rounded up when [up] holds. *)
Lemma round_up_spec q (up : bool) neg old :
  is_u64 q ->
  (if up then if q =? UINT64_MAX then (LINEARS_ERROR_RANGE, old)
              else signed_result (u64 (q + 1)) neg old
   else signed_result q neg old)
  = deliver (fits_i64 (apply_sign neg (if up then q + 1 else q)))
            (apply_sign neg (if up then q + 1 else q)) old.
Proof.
  intros Hq. destruct up.
  - case_if.
    + symmetry. apply signed_result_over. rlia.
    + rewrite u64_id by rlia. apply signed_result_spec; rlia.
  - apply signed_result_spec; rlia.
Qed.

(** The value a rounded shift or division aims at. *)
Definition half_up (n d : Z) : Z := (2 * n + d) / (2 * d).

Lemma half_up_step n d q r :
  0 < d -> 0 <= n -> n = d * q + r -> 0 <= r < d ->
  half_up n d = if d - r <=? r then q + 1 else q.
Proof. apply div_nearest_step. Qed.

Lemma half_up_over n d m : 0 < d -> 0 <= m -> m * d <= n -> m <= half_up n d.
Proof. intros. apply Z.div_le_lower_bound; lia. Qed.

Lemma half_up_mono a b d : 0 < d -> a <= b -> half_up a d <= half_up b d.
Proof. intros Hd H. unfold half_up. apply Z.div_le_mono; lia. Qed.

Lemma half_up_0 d : 0 < d -> half_up 0 d = 0.
Proof. intros Hd. unfold half_up. apply Z.div_small. lia. Qed.

Lemma half_up_nonneg a d : 0 < d -> 0 <= a -> 0 <= half_up a d.
Proof. intros Hd Ha. unfold half_up. apply Z.div_pos; lia. Qed.

Lemma half_up_exact q d : 0 < d -> half_up (q * d) d = q.
Proof. intros Hd. unfold half_up. symmetry. apply Z.div_unique with d; lia. Qed.

Lemma half_up_scale a b c : 0 < b -> 0 < c -> half_up (a * c) (b * c) = half_up a b.
Proof.
  intros Hb Hc. unfold half_up. replace (2 * (a * c) + b * c) with ((2 * a + b) * c) by lia.
  replace (2 * (b * c)) with (2 * b * c) by lia. by rewrite Z.div_mul_cancel_r by lia.
Qed.

Lemma round_shift_spec a k neg old :
  accum_ok a -> 0 < k < 64 ->
  round_shift a k neg old =
    deliver (fits_i64 (apply_sign neg (half_up (accum_unsigned a) (2 ^ k))))
            (apply_sign neg (half_up (accum_unsigned a) (2 ^ k))) old.
Proof.
  intros [Hl Hh] Hk. unfold round_shift.
  assert (0 < 2 ^ k) by (apply Z.pow_pos_nonneg; lia).
  assert (two64 = 2 ^ (64 - k) * 2 ^ k) as E64
    by (rewrite <- Z.pow_add_r by lia; by replace (64 - k + k) with 64 by lia).
  assert (0 < 2 ^ (64 - k)) by (apply Z.pow_pos_nonneg; lia).
  rewrite !Z.shiftr_div_pow2, !Z.shiftl_mul_pow2, !Z.mul_1_l by lia.
  case_if.
  - symmetry. apply signed_result_over. apply half_up_over; [lia..|].
    assert (1 <= high a / 2 ^ k) as Hq.
    { pose proof (Z.div_pos (high a) (2 ^ k)). unfold is_u64 in Hh. lia. }
    pose proof (Z.mul_div_le (high a) (2 ^ k) ltac:(lia)).
    assert (2 ^ k <= high a) by nia. unfold accum_unsigned, two64. unfold is_u64 in *. lia.
  - assert (high a < 2 ^ k) as Hsmall.
    { destruct (Z.lt_ge_cases (high a) (2 ^ k)); [done|].
      assert (1 <= high a / 2 ^ k) by (apply Z.div_le_lower_bound; lia). lia. }
    assert (0 <= high a) as Hh0 by rlia. assert (0 <= low a) as Hl0 by rlia.
    assert (low a < two64) as Hl1 by (unfold two64; rlia).
    (* the quotient and the remainder of the exact value *)
    assert (2 ^ k = 2 * 2 ^ (k - 1)) as Ehalf.
    { rewrite <- Z.pow_succ_r by lia. f_equal. lia. }
    assert (0 < 2 ^ (k - 1)) by (apply Z.pow_pos_nonneg; lia).
    assert (2 ^ k <= two64 / 2) as Hk63.
    { change (two64 / 2) with (2 ^ 63). apply Z.pow_le_mono_r; lia. }
    change (two64 / 2) with 9223372036854775808 in Hk63.
    assert (high a * 2 ^ (64 - k) < two64) as Hhs by nia.
    rewrite (u64_id (high a * 2 ^ (64 - k))) by (split; [apply Z.mul_nonneg_nonneg; lia|unfold two64 in Hhs; lia]).
    rewrite (u64_id (2 ^ k)), (u64_id (2 ^ k - 1)), (u64_id (2 ^ (k - 1))) by (unfold is_u64; lia).
    rewrite land_mask by lia.
    assert (low a / 2 ^ k < 2 ^ (64 - k)) by (apply Z.div_lt_upper_bound; lia).
    pose proof (Z.div_pos (low a) (2 ^ k) ltac:(lia) ltac:(lia)).
    rewrite Z.lor_comm, (lor_add_disjoint _ _ (64 - k));
      [|lia|lia|by rewrite Z.mod_mul by lia].
    pose proof (Z.div_mod (low a) (2 ^ k) ltac:(lia)) as Ed.
    pose proof (Z.mod_pos_bound (low a) (2 ^ k) ltac:(lia)) as Er.
    set (q := high a * 2 ^ (64 - k) + low a / 2 ^ k).
    assert (is_u64 q) as Hq.
    { unfold is_u64. change 18446744073709551616 with two64. subst q. rewrite E64. nia. }
    rewrite (half_up_step _ _ q (low a mod 2 ^ k));
      [|lia|unfold accum_unsigned, two64; lia
       |unfold accum_unsigned; rewrite E64; subst q; lia|lia].
    replace (2 ^ k - low a mod 2 ^ k <=? low a mod 2 ^ k)
      with (2 ^ (k - 1) <=? low a mod 2 ^ k)
      by (destruct (Z.leb_spec (2 ^ (k - 1)) (low a mod 2 ^ k)); symmetry;
          [apply Z.leb_le|apply Z.leb_gt]; lia).
    by apply round_up_spec.
Qed.
End Rounding.

(** ** Lemmas: the wide division *)

Section Division.
Variables high low divisor : Z.
Hypothesis Hhigh : is_u64 high.
Hypothesis Hlow : is_u64 low.
Hypothesis Hdiv : is_u64 divisor.
Hypothesis Hlt : high < divisor.

(** After [64 - i] steps: the quotient and remainder of the leading bits. *)
Definition divide_inv (i : nat) (s : Z * Z) : Prop :=
  (i <= 64)%nat /\ 0 <= s.1 < divisor /\ 0 <= s.2 < 2 ^ (64 - Z.of_nat i) /\
  high * 2 ^ (64 - Z.of_nat i) + low / 2 ^ Z.of_nat i = s.2 * divisor + s.1.

Lemma low_bit i : 0 <= i ->
  low / 2 ^ i = 2 * (low / 2 ^ (i + 1)) + Z.land (Z.shiftr low i) 1.
Proof.
  intros. rewrite (land_mask _ 1) by lia. rewrite Z.shiftr_div_pow2 by lia.
  rewrite Z.pow_add_r by lia. change (2 ^ 1) with 2.
  rewrite <- Z.div_div by (try apply Z.pow_nonzero; lia).
  apply Z.div_mod. lia.
Qed.

Lemma land1_range x : 0 <= Z.land x 1 <= 1.
Proof.
  rewrite (land_mask _ 1) by lia. change (2 ^ 1) with 2.
  pose proof (Z.mod_pos_bound x 2 ltac:(lia)). lia.
Qed.

Lemma divide_step_inv i s : divide_inv (S i) s -> divide_inv i (divide_step low divisor (S i) s).
Proof.
  destruct s as [rest q]. unfold divide_inv. cbn [fst snd]. intros (Hi & Hr & Hq & E).
  unfold divide_step. replace (Z.of_nat (S i) - 1) with (Z.of_nat i) by lia.
  replace (64 - Z.of_nat i) with ((64 - Z.of_nat (S i)) + 1) by lia.
  pose proof (low_bit (Z.of_nat i) ltac:(lia)) as Eb.
  replace (Z.of_nat i + 1) with (Z.of_nat (S i)) in Eb by lia.
  pose proof (land1_range (Z.shiftr low (Z.of_nat i))) as Hbit.
  set (bit := Z.land (Z.shiftr low (Z.of_nat i)) 1) in *. clearbody bit.
  rewrite Z.pow_add_r by lia. change (2 ^ 1) with 2.
  assert (0 < 2 ^ (64 - Z.of_nat (S i)) <= 9223372036854775808) as Hp.
  { split; [apply Z.pow_pos_nonneg; lia|].
    change 9223372036854775808 with (2 ^ 63). apply Z.pow_le_mono_r; lia. }
  set (p := 2 ^ (64 - Z.of_nat (S i))) in *. clearbody p.
  rewrite !Z.shiftl_mul_pow2, Z.shiftr_div_pow2 by lia. change (2 ^ 1) with 2.
  change (2 ^ 63) with 9223372036854775808.
  rewrite (u64_id (q * 2)) by (unfold is_u64; lia).
  assert (Z.lor (q * 2) 1 = q * 2 + 1) as Eq1
    by (apply lor_add_disjoint with 1; [lia|lia|by apply Z.mod_mul]).
  rewrite Eq1. clear Eq1.
  assert (Z.lor (u64 (rest * 2)) bit = u64 (rest * 2) + bit) as Er1.
  { apply lor_add_disjoint with 1; [lia|change (2 ^ 1) with 2; lia|]. unfold u64.
    change 18446744073709551616 with (9223372036854775808 * 2).
    rewrite Z.mul_mod_distr_r by lia. by apply Z.mod_mul. }
  rewrite Er1. clear Er1. unfold is_u64 in *.
  assert (high * (p * 2) + low / 2 ^ Z.of_nat i = q * 2 * divisor + (2 * rest + bit)) as E2
    by (rewrite Eb; lia).
  case_if; cbn [fst snd].
  - apply orb_true_iff in E0. split; [lia|].
    assert (divisor <= 2 * rest + bit) as Hge.
    { destruct E0 as [E0|E0]; zbool.
      - destruct (Z.lt_ge_cases rest 9223372036854775808).
        + rewrite Z.div_small in E0 by lia. lia.
        + lia.
      - unfold u64 in E0. pose proof (Z.mod_le (rest * 2) 18446744073709551616). lia. }
    assert (u64 (u64 (rest * 2) + bit - divisor) = 2 * rest + bit - divisor) as ->.
    { replace (u64 (rest * 2) + bit - divisor) with (u64 (rest * 2) + (bit - divisor)) by lia.
      rewrite u64_add_l, u64_id by (unfold is_u64; lia). lia. }
    repeat split; lia.
  - split; [lia|].
    assert (rest < 9223372036854775808) as Hc.
    { destruct (Z.lt_ge_cases rest 9223372036854775808); [done|].
      assert (1 <= rest / 9223372036854775808) by (apply Z.div_le_lower_bound; lia). lia. }
    rewrite u64_id in * by (unfold is_u64; lia). repeat split; lia.
Qed.

Lemma divide_magnitude_spec :
  divide_magnitude high low divisor =
    ((low + high * two64) / divisor, (low + high * two64) mod divisor).
Proof.
  unfold divide_magnitude. case_if; [by rewrite E, Z.mul_0_l, Z.add_0_r|].
  pose proof (for_down_rule (divide_step low divisor) divide_inv divide_step_inv 64 (high, 0)) as H.
  destruct (for_down 64 (divide_step low divisor) (high, 0)) as [rest q].
  destruct H as (_ & Hr & Hq & Heq).
  { unfold divide_inv. cbn [fst snd]. change (64 - Z.of_nat 64) with 0.
    change (2 ^ Z.of_nat 64) with 18446744073709551616. rewrite Z.div_small by rlia.
    unfold is_u64 in *. change (2 ^ 0) with 1. lia. }
  cbn [fst snd] in *. change (2 ^ (64 - Z.of_nat 0)) with two64 in *.
  change (2 ^ Z.of_nat 0) with 1 in Heq. rewrite Z.div_1_r in Heq.
  f_equal; [apply Z.div_unique with rest|apply Z.mod_unique with q]; lia.
Qed.
End Division.

Lemma rounded_division_spec a d neg old :
  accum_ok a -> is_u64 d -> 0 < d ->
  rounded_division a d neg old =
    deliver (fits_i64 (apply_sign neg (half_up (accum_unsigned a) d)))
            (apply_sign neg (half_up (accum_unsigned a) d)) old.
Proof.
  intros [Hl Hh] Hd Hpos. unfold rounded_division. case_if.
  - symmetry. apply signed_result_over. apply half_up_over; [lia..|].
    unfold accum_unsigned, two64. unfold is_u64 in *. nia.
  - rewrite divide_magnitude_spec by done. fold (accum_unsigned a).
    pose proof (accum_unsigned_range a (conj Hl Hh)) as Hr.
    pose proof (Z.div_mod (accum_unsigned a) d ltac:(lia)) as Ed.
    pose proof (Z.mod_pos_bound (accum_unsigned a) d ltac:(lia)) as Em.
    rewrite (u64_id (d - _)) by (unfold is_u64 in *; lia).
    assert (is_u64 (accum_unsigned a / d)) as Hq.
    { split; [apply Z.div_pos; lia|]. apply Z.div_lt_upper_bound; [lia|].
      clear Ed Em Hr. unfold accum_unsigned, two64. unfold is_u64 in *. lia. }
    rewrite (half_up_step (accum_unsigned a) d _ _ Hpos ltac:(lia) Ed Em).
    by apply round_up_spec.
Qed.

(** A sign and a rounded magnitude are the rounded quotient. *)
Lemma apply_sign_nearest n d :
  d <> 0 ->
  apply_sign (xorb (n <? 0) (d <? 0)) (half_up (Z.abs n) (Z.abs d)) = div_nearest n d.
Proof.
  intros Hd. unfold apply_sign, div_nearest, half_up.
  destruct (Z.ltb_spec n 0), (Z.ltb_spec d 0); cbn [xorb];
    rewrite ?(Z.sgn_neg n), ?(Z.sgn_neg d), ?(Z.sgn_pos d) by lia; try lia;
    (destruct (Z.eq_dec n 0) as [->|];
     [change (Z.sgn 0) with 0; rewrite Z.div_small by lia; lia | rewrite Z.sgn_pos by lia; lia]).
Qed.

(** ** Lemmas: the wide square root *)

Section WideSqrt.
Variable radicand : linears_accum_t.
Hypothesis Hok : accum_ok radicand.
Hypothesis Hsize : accum_unsigned radicand < 2 ^ 96.

Let n : Z := accum_unsigned radicand.

(** The two bits at an even position, whichever limb holds them. *)
Lemma sqrt_digit_bits (pair : nat) :
  (1 <= pair <= 48)%nat ->
  let position := 2 * (Z.of_nat pair - 1) in
  (if 64 <=? position then Z.land (Z.shiftr (high radicand) (position - 64)) 3
   else Z.land (Z.shiftr (low radicand) position) 3) = n / 2 ^ position mod 4.
Proof.
  intros Hp position. destruct Hok as [Hl Hh].
  change 3 with (2 ^ 2 - 1). rewrite !land_mask by lia. change (2 ^ 2) with 4.
  assert (n = low radicand + high radicand * two64) as En by done.
  case_if; rewrite Z.shiftr_div_pow2 by lia.
  - replace (2 ^ position) with (two64 * 2 ^ (position - 64)).
    2:{ change two64 with (2 ^ 64). rewrite <- Z.pow_add_r by lia. f_equal. lia. }
    rewrite <- Z.div_div by (try apply Z.pow_nonzero; unfold two64; lia).
    rewrite En, Z.div_add by (unfold two64; lia).
    rewrite (Z.div_small (low radicand)) by (unfold two64; rlia). done.
  - assert (exists m, two64 = 2 ^ position * (4 * m)) as [m Em].
    { exists (2 ^ (62 - position)). change 4 with (2 ^ 2). rewrite <- !Z.pow_add_r by lia.
      change two64 with (2 ^ 64). f_equal. lia. }
    rewrite En, Em.
    replace (low radicand + high radicand * (2 ^ position * (4 * m)))
      with (low radicand + (high radicand * m * 4) * 2 ^ position) by ring.
    rewrite Z.div_add by (apply Z.pow_nonzero; lia). by rewrite Z.mod_add by lia.
Qed.

Definition wide_sqrt_inv (i : nat) (s : Z * Z) : Prop :=
  (i <= 48)%nat /\
  let prefix := n / 4 ^ Z.of_nat i in
  0 <= s.1 /\ s.2 = prefix - s.1 * s.1 /\ s.1 * s.1 <= prefix < (s.1 + 1) * (s.1 + 1).

Lemma wide_sqrt_step i s : wide_sqrt_inv (S i) s -> wide_sqrt_inv i (sqrt_digit radicand (S i) s).
Proof.
  destruct s as [root rem]. unfold wide_sqrt_inv. cbn [fst snd]. intros (Hi & Hr & -> & Hb).
  unfold sqrt_digit. rewrite (sqrt_digit_bits (S i)) by lia. cbv zeta.
  replace (2 * (Z.of_nat (S i) - 1)) with (2 * Z.of_nat i) by lia.
  rewrite Z.pow_mul_r by lia. change (2 ^ 2) with 4.
  assert (n / 4 ^ Z.of_nat i = 4 * (n / 4 ^ Z.of_nat (S i)) + n / 4 ^ Z.of_nat i mod 4) as Ed.
  { rewrite (Z.div_mod (n / 4 ^ Z.of_nat i) 4) at 1 by lia.
    rewrite Z.div_div by (try apply Z.pow_pos_nonneg; lia).
    replace (4 ^ Z.of_nat i * 4) with (4 ^ Z.of_nat (S i)); [done|].
    rewrite Nat2Z.inj_succ, Z.pow_succ_r by lia. lia. }
  pose proof (Z.mod_pos_bound (n / 4 ^ Z.of_nat i) 4 ltac:(lia)) as Hd.
  assert (n / 4 ^ Z.of_nat (S i) < 2 ^ 94) as Hsmall.
  { apply Z.div_lt_upper_bound; [apply Z.pow_pos_nonneg; lia|].
    assert (4 <= 4 ^ Z.of_nat (S i)).
    { rewrite <- (Z.pow_1_r 4) at 1. apply Z.pow_le_mono_r; lia. }
    change (2 ^ 94) with 19807040628566084398385987584 in *.
    change (2 ^ 96) with 79228162514264337593543950336 in *. fold n in Hsize. nia. }
  set (d := n / 4 ^ Z.of_nat i mod 4) in *. set (p := n / 4 ^ Z.of_nat (S i)) in *.
  rewrite Ed. clearbody d p. clear Ed Hok Hsize.
  change (2 ^ 94) with (140737488355328 * 140737488355328) in Hsmall.
  assert (root < 140737488355328) as Hr47 by nia.
  rewrite !Z.shiftl_mul_pow2 by lia. change (2 ^ 2) with 4. change (2 ^ 1) with 2.
  rewrite (u64_id ((p - root * root) * 4)) by (unfold is_u64; nia).
  rewrite (u64_id (root * 2)) by (unfold is_u64; lia).
  rewrite (u64_id (root * 2 * 2)) by (unfold is_u64; lia).
  rewrite (lor_add_disjoint (_ * 4) d 2); [|lia|change (2 ^ 2) with 4; lia|by apply Z.mod_mul].
  rewrite (lor_add_disjoint (root * 2 * 2) 1 1); [|lia|lia|change (2 ^ 1) with 2; by apply Z.mod_mul].
  rewrite (u64_id (root * 2 + 1)) by (unfold is_u64; lia).
  case_if; cbn [fst snd].
  - rewrite u64_id by (unfold is_u64; nia). repeat split; lia.
  - repeat split; lia.
Qed.

Lemma wide_sqrt_loop :
  let '(root, remainder) := for_down 48 (sqrt_digit radicand) (0, 0) in
  root = Z.sqrt n /\ remainder = n - root * root.
Proof.
  pose proof (for_down_rule (sqrt_digit radicand) wide_sqrt_inv wide_sqrt_step 48 (0, 0)) as H.
  destruct (for_down 48 (sqrt_digit radicand) (0, 0)) as [root rem].
  destruct H as (_ & Hr & Hrem & Hb).
  - unfold wide_sqrt_inv. cbn [fst snd]. change (4 ^ Z.of_nat 48) with (2 ^ 96).
    rewrite Z.div_small by (pose proof (accum_unsigned_range _ Hok); subst n; lia). lia.
  - cbn [fst snd] in *. change (4 ^ Z.of_nat 0) with 1 in *. rewrite Z.div_1_r in *.
    split; [|done]. symmetry. apply Z.sqrt_unique. lia.
Qed.
End WideSqrt.

(** ** The exact contracts of the scalar operations *)

Lemma linears_fixed_mul_exact (a b : Z) (out : option Z) :
  is_i64 a -> is_i64 b ->
  linears_fixed_mul a b out =
    with_out out (deliver (fits_i64 (div_nearest (a * b) LINEARS_FIXED_ONE))
                          (div_nearest (a * b) LINEARS_FIXED_ONE)).
Proof.
  intros Ha Hb. unfold linears_fixed_mul. destruct out as [old|]; [|done]. cbn [with_out].
  rewrite !ln_magnitude_abs by done.
  destruct (ln_multiply_unsigned_spec (Z.abs a) (Z.abs b)) as [Hok Hu]; [rlia..|].
  rewrite round_shift_spec, Hu by (done || lia). rewrite <- Z.abs_mul.
  rewrite <- (apply_sign_nearest (a * b) LINEARS_FIXED_ONE) by done.
  change (2 ^ 31) with (Z.abs LINEARS_FIXED_ONE).
  destruct (Z.eq_dec (a * b) 0) as [E|].
  - rewrite E. unfold apply_sign. change (half_up (Z.abs 0) (Z.abs LINEARS_FIXED_ONE)) with 0.
    by destruct (xorb _ _), (xorb _ _).
  - replace (xorb (a * b <? 0) (LINEARS_FIXED_ONE <? 0)) with (xorb (a <? 0) (b <? 0)); [done|].
    change (LINEARS_FIXED_ONE <? 0) with false. rewrite xorb_false_r.
    destruct (Z.ltb_spec a 0), (Z.ltb_spec b 0), (Z.ltb_spec (a * b) 0); cbn; try done; nia.
Qed.

(** A rounded division of magnitudes is the rounded quotient, with the sign the
    code computes from its operands. *)
Lemma signed_division (n d : Z) (neg : bool) (a : linears_accum_t) (old : Z) :
  accum_ok a -> accum_unsigned a = Z.abs n -> is_i64 d -> d <> 0 ->
  (n <> 0 -> neg = xorb (n <? 0) (d <? 0)) ->
  rounded_division a (ln_magnitude d) neg old =
    deliver (fits_i64 (div_nearest n d)) (div_nearest n d) old.
Proof.
  intros Hok Hu Hd Hnz Hneg. rewrite ln_magnitude_abs by done.
  rewrite rounded_division_spec, Hu by (done || rlia).
  rewrite <- (apply_sign_nearest n d) by done. destruct (Z.eq_dec n 0) as [->|].
  - replace (half_up (Z.abs 0) (Z.abs d)) with 0.
    + unfold apply_sign. by destruct neg, (xorb _ _).
    + symmetry. unfold half_up. apply Z.div_small. lia.
  - by rewrite Hneg.
Qed.

Lemma linears_fixed_div_exact (a b : Z) (out : option Z) :
  is_i64 a -> is_i64 b ->
  linears_fixed_div a b out =
    with_out out (fun old =>
      if b =? 0 then (LINEARS_ERROR_DOMAIN, old)
      else deliver (fits_i64 (div_nearest (a * LINEARS_FIXED_ONE) b))
                   (div_nearest (a * LINEARS_FIXED_ONE) b) old).
Proof.
  intros Ha Hb. unfold linears_fixed_div. destruct out as [old|]; [|done]. cbn [with_out].
  destruct (Z.eqb_spec b 0); [done|]. rewrite ln_magnitude_abs by done.
  destruct (ln_shift_u64_spec (Z.abs a) 31) as [Hok Hu]; [rlia|lia|].
  rewrite (signed_division (a * LINEARS_FIXED_ONE) b); try done.
  - rewrite Hu. unfold LINEARS_FIXED_ONE. lia.
  - intros. f_equal. unfold LINEARS_FIXED_ONE.
    destruct (Z.ltb_spec a 0); symmetry; [apply Z.ltb_lt|apply Z.ltb_ge]; lia.
Qed.

Lemma linears_fixed_muldiv_exact (a b divisor : Z) (out : option Z) :
  is_i64 a -> is_i64 b -> is_i64 divisor ->
  linears_fixed_muldiv a b divisor out =
    with_out out (fun old =>
      if divisor =? 0 then (LINEARS_ERROR_DOMAIN, old)
      else deliver (fits_i64 (div_nearest (a * b) divisor)) (div_nearest (a * b) divisor) old).
Proof.
  intros Ha Hb Hd. unfold linears_fixed_muldiv. destruct out as [old|]; [|done]. cbn [with_out].
  destruct (Z.eqb_spec divisor 0); [done|]. rewrite !(ln_magnitude_abs a), (ln_magnitude_abs b) by done.
  destruct (ln_multiply_unsigned_spec (Z.abs a) (Z.abs b)) as [Hok Hu]; [rlia..|].
  rewrite (signed_division (a * b) divisor); try done.
  - by rewrite Hu, Z.abs_mul.
  - intros Hnz. f_equal.
    destruct (Z.ltb_spec a 0), (Z.ltb_spec b 0), (Z.ltb_spec (a * b) 0); cbn; try done; nia.
Qed.

Lemma linears_fixed_sqrt_exact (value old : Z) :
  is_i64 value ->
  (value < 0 -> linears_fixed_sqrt value (Some old) = (LINEARS_ERROR_DOMAIN, Some old)) /\
  (0 <= value -> exists r,
     linears_fixed_sqrt value (Some old) = (LINEARS_OK, Some r) /\ is_i64 r /\ 0 <= r /\
     (r = 0 \/ (2 * r - 1) * (2 * r - 1) < 4 * (value * LINEARS_FIXED_ONE)) /\
     4 * (value * LINEARS_FIXED_ONE) < (2 * r + 1) * (2 * r + 1)).
Proof.
  intros Hv. unfold linears_fixed_sqrt. cbn [with_out].
  split; intros Hs; [by replace (value <? 0) with true by (symmetry; apply Z.ltb_lt; lia)|].
  replace (value <? 0) with false by (symmetry; apply Z.ltb_ge; lia).
  rewrite u64_id by rlia.
  destruct (ln_shift_u64_spec value 31) as [Hok Hu]; [rlia|lia|].
  change (2 ^ 31) with LINEARS_FIXED_ONE in Hu.
  set (n := value * LINEARS_FIXED_ONE) in *.
  assert (0 <= n < 19807040628566084398385987584) as Hn
    by (subst n; unfold LINEARS_FIXED_ONE; rlia).
  exists (sqrt_nearest n). pose proof (sqrt_nearest_bounds n ltac:(lia)) as (H0 & H1 & H2).
  assert (sqrt_nearest n <= 281474976710656) as Hr.
  { destruct (Z.le_gt_cases (sqrt_nearest n) 281474976710656); [done|exfalso]. nia. }
  split; [|split; [rlia|auto]].
  assert (n = low (ln_shift_u64 value 31) + high (ln_shift_u64 value 31) * two64) as En
    by (rewrite <- Hu; done).
  case_if.
  - rewrite E, Z.mul_0_l, Z.add_0_r in En. rewrite <- En.
    rewrite ln_sqrt_nearest64_spec by (rewrite En; apply Hok). by rewrite i64_id by rlia.
  - pose proof (wide_sqrt_loop (ln_shift_u64 value 31) Hok) as Hloop. rewrite Hu in Hloop.
    destruct (for_down 48 _ (0, 0)) as [root rem].
    destruct Hloop as [-> ->]; [change (2 ^ 96) with 79228162514264337593543950336; lia|].
    assert (Z.sqrt n + (if Z.sqrt n + 1 <=? n - Z.sqrt n * Z.sqrt n then 1 else 0) = sqrt_nearest n)
      as Enear by (unfold sqrt_nearest; case_if; lia).
    pose proof (Z.sqrt_nonneg n).
    rewrite (u64_id (Z.sqrt n + 1)) by (unfold is_u64; revert Enear; case_if; lia).
    by rewrite Enear, u64_id, i64_id by rlia.
Qed.

Lemma linears_fixed_ops_exact (a b : Z) (out : option Z) :
  is_i64 a -> is_i64 b ->
  let exact v := with_out out (deliver (fits_i64 v) v) in
  linears_fixed_from_int a out = exact (a * LINEARS_FIXED_ONE) /\
  linears_fixed_add a b out = exact (a + b) /\
  linears_fixed_sub a b out = exact (a - b) /\
  linears_fixed_neg a out = exact (- a) /\
  linears_fixed_abs a out = exact (Z.abs a).
Proof.
  intros Ha Hb exact. subst exact.
  unfold linears_fixed_from_int, linears_fixed_add, linears_fixed_sub, linears_fixed_neg,
    linears_fixed_abs, LINEARS_FIXED_ONE, deliver.
  destruct out as [old|]; [|done]. cbn [with_out].
  assert (forall (c : bool) v w, (c = false -> is_i64 v /\ w = v) -> (c = true -> ~ is_i64 v) ->
    (let r := if c then (LINEARS_ERROR_RANGE, old) else (LINEARS_OK, w) in (fst r, Some (snd r)))
    = (let r := if fits_i64 v then (LINEARS_OK, v) else (LINEARS_ERROR_RANGE, old) in
       (fst r, Some (snd r)))) as Hcase.
  { intros [] v w Hf Ht; cbv zeta.
    - by rewrite fits_i64_false by auto.
    - destruct (Hf eq_refl) as [? ->]. by rewrite fits_i64_true. }
  repeat match goal with |- _ /\ _ => split end; apply Hcase; intros E.
  - apply orb_false_iff in E as [? ?]. zbool. rewrite i64_id by rlia. rlia.
  - apply orb_true_iff in E as [?|?]; zbool; rlia.
  - apply orb_false_iff in E as [E1 E2].
    assert (is_i64 (a + b)); [|by rewrite i64_id].
    destruct (Z.lt_trichotomy b 0) as [?|[->|?]]; [|rlia|].
    + rewrite i64_id in E2 by rlia. apply andb_false_iff in E2 as [?|?]; zbool; rlia.
    + rewrite i64_id in E1 by rlia. apply andb_false_iff in E1 as [?|?]; zbool; rlia.
  - apply orb_true_iff in E as [E|E]; zbool; rewrite i64_id in * by rlia; rlia.
  - apply orb_false_iff in E as [E1 E2].
    assert (is_i64 (a - b)); [|by rewrite i64_id].
    destruct (Z.lt_trichotomy b 0) as [?|[->|?]]; [|rlia|].
    + rewrite i64_id in E2 by rlia. apply andb_false_iff in E2 as [?|?]; zbool; rlia.
    + rewrite i64_id in E1 by rlia. apply andb_false_iff in E1 as [?|?]; zbool; rlia.
  - apply orb_true_iff in E as [E|E]; zbool; rewrite i64_id in * by rlia; rlia.
  - zbool. rewrite i64_id by rlia. rlia.
  - zbool. rlia.
  - zbool. case_if; rewrite ?i64_id by rlia; rlia.
  - zbool. rlia.
Qed.

(** ** Quantization *)

(** The positive endpoint 2^bits has no signal code: it is stored as 2^bits - 1. *)
Definition endpoint (bits r : Z) : Z := if r =? 2 ^ bits then 2 ^ bits - 1 else r.

Definition in_unit_interval (v one : Z) : bool := (- one <=? v) && (v <=? one).

Section Quantization.
Lemma half_up_le n d m : 0 < d -> 0 <= n <= m * d -> 0 <= half_up n d <= m.
Proof.
  intros. unfold half_up. split; [apply Z.div_pos; lia|].
  enough ((2 * n + d) / (2 * d) < m + 1) by lia. apply Z.div_lt_upper_bound; lia.
Qed.

(** Floor division by the count first does not change the rounding. *)
Lemma half_up_div m c k :
  0 < c -> 0 < k -> 0 <= m -> half_up (m / c) (2 ^ k) = half_up m (c * 2 ^ k).
Proof.
  intros Hc Hk Hm. unfold half_up.
  replace k with (Z.succ (k - 1)) by lia. rewrite Z.pow_succ_r by lia.
  assert (0 < 2 ^ (k - 1)) by (apply Z.pow_pos_nonneg; lia). set (p := 2 ^ (k - 1)) in *.
  replace (2 * (m / c) + 2 * p) with (2 * (m / c + p)) by ring.
  replace (2 * m + c * (2 * p)) with (2 * (m + p * c)) by ring.
  replace (2 * (c * (2 * p))) with (2 * (c * (2 * p))) by ring.
  rewrite !Z.div_mul_cancel_l by lia. rewrite <- (Z.div_div _ c) by lia.
  by rewrite Z.div_add by lia.
Qed.

Lemma quantize_unit_spec m neg bits :
  bits = 15 \/ bits = 31 -> 0 <= m <= 2 ^ 62 ->
  quantize_unit m neg bits = endpoint bits (apply_sign neg (half_up m (2 ^ (62 - bits)))) /\
  -2 ^ bits <= quantize_unit m neg bits < 2 ^ bits.
Proof.
  intros Hb Hm. unfold quantize_unit.
  assert (exists e, 62 - bits = Z.succ e /\ 0 < e < 62) as (e & Ee & He)
    by (exists (61 - bits); lia).
  rewrite Ee, Z.sub_succ_l, Z.sub_1_r, Z.succ_pred.
  assert (0 < 2 ^ e <= 2 ^ 62) as Hp.
  { split; [apply Z.pow_pos_nonneg; lia|apply Z.pow_le_mono_r; lia]. }
  assert (2 ^ (Z.succ e) = 2 * 2 ^ e) as Es by (apply Z.pow_succ_r; lia).
  assert (2 ^ 62 = 2 ^ bits * 2 ^ Z.succ e) as E62
    by (rewrite <- Z.pow_add_r by lia; f_equal; lia).
  assert (0 < 2 ^ bits <= 2147483648) as Hpb by (destruct Hb as [->| ->]; lia).
  rewrite !Z.shiftl_mul_pow2, Z.shiftr_div_pow2, !Z.mul_1_l by lia.
  change (2 ^ 62) with 4611686018427387904 in *.
  rewrite (u64_id (2 ^ Z.succ e)), (u64_id (2 ^ Z.succ e - 1)), (u64_id (2 ^ e)),
    (u64_id (2 ^ bits)) by (unfold is_u64; lia).
  rewrite land_mask by lia.
  pose proof (half_up_le m (2 ^ Z.succ e) (2 ^ bits) ltac:(lia) ltac:(lia)) as Hle.
  pose proof (Z.div_mod m (2 ^ Z.succ e) ltac:(lia)) as Ed.
  pose proof (Z.mod_pos_bound m (2 ^ Z.succ e) ltac:(lia)) as Er.
  pose proof (half_up_step m (2 ^ Z.succ e) _ _ ltac:(lia) ltac:(lia) Ed Er) as Hstep.
  assert (m / 2 ^ Z.succ e + (if 2 ^ e <=? m mod 2 ^ Z.succ e then 1 else 0)
          = half_up m (2 ^ Z.succ e)) as ->.
  { rewrite Hstep. repeat case_if; lia. }
  set (q := half_up m (2 ^ Z.succ e)) in *. rewrite (u64_id q) by (unfold is_u64; lia).
  unfold endpoint, apply_sign. destruct neg; cbn [negb andb].
  - rewrite (i64_id q), i64_id by (unfold is_i64; lia).
    replace (- q =? 2 ^ bits) with false by (symmetry; apply Z.eqb_neq; lia). lia.
  - case_if; rewrite ?(u64_id (q - 1)), i64_id by (unfold is_u64, is_i64; lia); lia.
Qed.

Lemma apply_sign_value V d :
  0 < d -> apply_sign (V <? 0) (half_up (Z.abs V) d) = div_nearest V d.
Proof.
  intros. rewrite <- apply_sign_nearest by lia. rewrite (Z.abs_eq d) by lia.
  replace (d <? 0) with false by (symmetry; apply Z.ltb_ge; lia). by rewrite xorb_false_r.
Qed.
End Quantization.

Lemma linears_fixed_to_q_exact (value : Z) (out : option Z) :
  is_i64 value ->
  linears_fixed_to_q15 value out =
    with_out out (deliver (in_unit_interval value LINEARS_FIXED_ONE)
                          (endpoint 15 (div_nearest value 65536))) /\
  linears_fixed_to_q31 value out =
    with_out out (deliver (in_unit_interval value LINEARS_FIXED_ONE) (endpoint 31 value)).
Proof.
  intros Hv. unfold linears_fixed_to_q15, linears_fixed_to_q31.
  destruct out as [old|]; [|done]. cbn [with_out].
  assert (in_unit_interval value LINEARS_FIXED_ONE =
    negb ((value <? - LINEARS_FIXED_ONE) || (value >? LINEARS_FIXED_ONE))) as ->.
  { unfold in_unit_interval. rewrite negb_orb. rewrite Z.gtb_ltb, Z.leb_antisym.
    by rewrite (Z.leb_antisym LINEARS_FIXED_ONE value). }
  unfold fixed_to_q15_cell, fixed_to_q31_cell, deliver, LINEARS_FIXED_ONE.
  destruct (_ || _) eqn:E; [done|]. cbn [negb]. apply orb_false_iff in E as [? ?]. zbool.
  split; do 2 f_equal.
  - rewrite ln_magnitude_abs by done. rewrite <- apply_sign_value by lia.
    assert (0 <= half_up (Z.abs value) 65536 <= 32768) as Hq by (apply half_up_le; lia).
    rewrite Z.shiftr_div_pow2 by lia. change 65535 with (2 ^ 16 - 1). rewrite land_mask by lia.
    change (2 ^ 16) with 65536.
    assert (Z.abs value / 65536 + (if 32768 <=? Z.abs value mod 65536 then 1 else 0)
            = half_up (Z.abs value) 65536) as ->.
    { pose proof (Z.mod_pos_bound (Z.abs value) 65536 ltac:(lia)).
      rewrite (half_up_step (Z.abs value) 65536 (Z.abs value / 65536) (Z.abs value mod 65536));
        [|lia|lia|apply Z.div_mod; lia|lia]. repeat case_if; lia. }
    set (q := half_up (Z.abs value) 65536) in *. rewrite (u64_id q) by rlia.
    unfold endpoint, apply_sign. change (2 ^ 15) with 32768. change (u64 INT16_MAX) with 32767.
    destruct (Z.ltb_spec value 0).
    + replace (0 <=? value) with false by (symmetry; apply Z.leb_gt; lia). cbn [andb].
      rewrite (i32_id q), i32_id, i16_id by rlia.
      case_if; cbn [snd]; lia.
    + replace (0 <=? value) with true by (symmetry; apply Z.leb_le; lia). cbn [andb].
      destruct (Z.eqb_spec q 32768); rewrite i32_id, i16_id by rlia; cbn [snd]; lia.
  - unfold endpoint. change (2 ^ 31) with 2147483648. case_if; [done|]. by rewrite i32_id by rlia.
Qed.

(** ** Accumulators *)

Section AccumulatorOps.
Lemma accum_in_unit V a :
  accum_ok a -> V = accum_value a ->
  negb (high (ln_absolute a) =? 0) || (low (ln_absolute a) >? 2 ^ 62)
  = negb (in_unit_interval V (2 ^ 62)).
Proof.
  intros Ha ->. destruct (ln_absolute_unsigned a Ha) as [[Hl Hh] Hu].
  unfold in_unit_interval. change (2 ^ 62) with 4611686018427387904.
  unfold accum_unsigned, two64 in Hu. unfold is_u64 in *.
  destruct (_ || _) eqn:E; symmetry; [apply negb_true_iff|apply negb_false_iff].
  - apply orb_true_iff in E. apply andb_false_iff. destruct E; zbool.
    + destruct (Z.lt_ge_cases (accum_value a) 0); [left|right]; apply Z.leb_gt; lia.
    + destruct (Z.lt_ge_cases (accum_value a) 0); [left|right]; apply Z.leb_gt; nia.
  - apply orb_false_iff in E as [? ?]. zbool. apply andb_true_iff. split; apply Z.leb_le; nia.
Qed.

Lemma quantize_accumulator_spec a bits old :
  accum_ok a -> bits = 15 \/ bits = 31 ->
  let V := accum_value a in
  let q := endpoint bits (div_nearest V (2 ^ (62 - bits))) in
  quantize_accumulator a bits old = deliver (in_unit_interval V (2 ^ 62)) q old /\
  (in_unit_interval V (2 ^ 62) = true -> -2 ^ bits <= q < 2 ^ bits).
Proof.
  intros Ha Hb V q. unfold quantize_accumulator.
  change (u64 (Z.shiftl 1 62)) with (2 ^ 62). rewrite (accum_in_unit V a) by done.
  unfold deliver. destruct (in_unit_interval V (2 ^ 62)) eqn:E; cbn [negb]; [|done].
  unfold in_unit_interval in E. apply andb_true_iff in E as [E1 E2]. zbool.
  destruct (ln_absolute_unsigned a Ha) as [[Hl Hh] Hu]. fold V in Hu.
  change (2 ^ 62) with 4611686018427387904 in *.
  assert (low (ln_absolute a) = Z.abs V) as ->.
  { unfold accum_unsigned, two64, is_u64 in *. nia. }
  rewrite ln_negative_spec by done. fold V.
  destruct (quantize_unit_spec (Z.abs V) (V <? 0) bits Hb) as [Hq Hr]; [lia|].
  rewrite apply_sign_value in Hq by (destruct Hb as [->| ->]; done).
  fold q in Hq. rewrite Hq in *. done.
Qed.

Lemma narrow_out_deliver narrow fits q body old :
  (forall cell, body cell = deliver fits q cell) -> (fits = true -> narrow q = q) ->
  narrow_out narrow body old = deliver fits q old.
Proof.
  intros Hbody Hn. unfold narrow_out. rewrite Hbody. unfold deliver. destruct fits; cbn; [|done].
  by rewrite Hn.
Qed.
End AccumulatorOps.

(** linears_fixed_mac and linears_fixed_msu add or subtract the exact 128-bit
    product: they report RANGE, leaving the accumulator alone, exactly when the
    signed 128-bit sum overflows, and otherwise the new accumulator is well formed
    and denotes the exact sum. *)
Theorem linears_fixed_mac_msu_spec (acc : linears_accum_t) (a b : Z) :
  accum_ok acc -> is_i64 a -> is_i64 b ->
  (exists r, linears_fixed_mac (Some acc) a b =
       (let res := deliver (fits_i128 (accum_value acc + a * b)) r acc in (res.1, Some res.2)) /\
     accum_ok r /\
     (is_i128 (accum_value acc + a * b) -> accum_value r = accum_value acc + a * b)) /\
  (exists r, linears_fixed_msu (Some acc) a b =
       (let res := deliver (fits_i128 (accum_value acc - a * b)) r acc in (res.1, Some res.2)) /\
     accum_ok r /\
     (is_i128 (accum_value acc - a * b) -> accum_value r = accum_value acc - a * b)).
Proof.
  intros Hacc Ha Hb. destruct (ln_product_spec a b Ha Hb) as [Hp Hv].
  pose proof (i64_product_bound a b Ha Hb) as Hbound.
  change (2 ^ 126) with 85070591730234615865843651857942052864 in Hbound.
  assert (accum_value (ln_negate (ln_product a b)) = - (a * b)) as Hn.
  { rewrite ln_negate_value by (done || (rewrite Hv; unfold two127; lia)). by rewrite Hv. }
  split.
  - destruct (ln_add_checked_spec acc (ln_product a b) acc Hacc Hp) as (r & E & Hr & Hval).
    rewrite Hv in *. exists r. unfold linears_fixed_mac. cbn [with_out]. by rewrite E.
  - destruct (ln_add_checked_spec acc (ln_negate (ln_product a b)) acc Hacc) as (r & E & Hr & Hval);
      [by apply ln_negate_ok|].
    rewrite Hn, Z.add_opp_r in *. exists r. unfold linears_fixed_msu. cbn [with_out]. by rewrite E.
Qed.

(** Reading an F62 accumulator: linears_accum_to_fixed delivers its value over
    2^31 rounded once, RANGE exactly outside int64_t; linears_accum_to_q15 and
    _q31 test the exact value against [-1,+1] before the single rounding. *)
Theorem linears_accum_to_spec (a : linears_accum_t) (out : option Z) :
  accum_ok a ->
  let V := accum_value a in
  linears_accum_to_fixed a out =
    with_out out (deliver (fits_i64 (div_nearest V (2 ^ 31))) (div_nearest V (2 ^ 31))) /\
  linears_accum_to_q15 a out =
    with_out out (deliver (in_unit_interval V (2 ^ 62)) (endpoint 15 (div_nearest V (2 ^ 47)))) /\
  linears_accum_to_q31 a out =
    with_out out (deliver (in_unit_interval V (2 ^ 62)) (endpoint 31 (div_nearest V (2 ^ 31)))).
Proof.
  intros Ha V. unfold linears_accum_to_fixed, linears_accum_to_q15, linears_accum_to_q31.
  destruct out as [old|]; [|done]. cbn [with_out].
  destruct (ln_absolute_unsigned a Ha) as [Hok Hu].
  rewrite round_shift_spec, Hu, ln_negative_spec, apply_sign_value by (done || lia).
  split; [done|]. split.
  - rewrite (narrow_out_deliver i16 (in_unit_interval V (2 ^ 62))
               (endpoint 15 (div_nearest V (2 ^ 47)))); [done| |].
    + intros. by apply (quantize_accumulator_spec a 15); auto.
    + intros E. apply i16_id. pose proof (quantize_accumulator_spec a 15 0 Ha ltac:(auto)) as [_ H].
      specialize (H E). change (62 - 15) with 47 in H. fold V in H.
      change (2 ^ 15) with 32768 in H. rlia.
  - rewrite (narrow_out_deliver i32 (in_unit_interval V (2 ^ 62))
               (endpoint 31 (div_nearest V (2 ^ 31)))); [done| |].
    + intros. by apply (quantize_accumulator_spec a 31); auto.
    + intros E. apply i32_id. pose proof (quantize_accumulator_spec a 31 0 Ha ltac:(auto)) as [_ H].
      specialize (H E). change (62 - 31) with 31 in H. fold V in H.
      unfold is_i32. lia.
Qed.

Section Mean.
Variables (a : linears_accum_t) (count bits : Z).
Hypothesis Ha : accum_ok a.
Hypothesis Hcount : is_u64 count.
Hypothesis Hbits : bits = 15 \/ bits = 31.

Let V : Z := accum_value a.
Let q : Z := endpoint bits (div_nearest V (count * 2 ^ (62 - bits))).

Lemma quantize_mean_spec old :
  count <> 0 ->
  quantize_mean a count bits old = deliver (in_unit_interval V (count * 2 ^ 62)) q old /\
  (in_unit_interval V (count * 2 ^ 62) = true -> -2 ^ bits <= q < 2 ^ bits).
Proof.
  intros Hnz. assert (0 < count) as Hpos by (unfold is_u64 in *; lia).
  unfold quantize_mean. rewrite (proj2 (Z.eqb_neq count 0)) by done.
  destruct (ln_absolute_unsigned a Ha) as [Hok Hu]. fold V in Hu.
  destruct (ln_shift_u64_spec count 62 Hcount ltac:(lia)) as [Hbok Hbu].
  rewrite ln_compare_unsigned_spec, Hu, Hbu by done.
  assert ((Z.sgn (Z.abs V - count * 2 ^ 62) >? 0)
          = negb (in_unit_interval V (count * 2 ^ 62))) as ->.
  { change (2 ^ 62) with 4611686018427387904. unfold in_unit_interval.
    destruct (Z.leb_spec (- (count * 4611686018427387904)) V),
      (Z.leb_spec V (count * 4611686018427387904)); cbn [andb negb]; rewrite Z.gtb_ltb;
      (apply Z.ltb_ge; lia) || (apply Z.ltb_lt; lia). }
  unfold deliver. destruct (in_unit_interval V (count * 2 ^ 62)) eqn:E; cbn [negb]; [|done].
  unfold in_unit_interval in E. apply andb_true_iff in E as [E1 E2]. zbool.
  assert (Z.abs V <= count * 2 ^ 62) as Hle by lia. clear E1 E2.
  change (2 ^ 62) with 4611686018427387904 in *.
  assert (high (ln_absolute a) < count) as Hhigh.
  { destruct Hok. unfold accum_unsigned, two64, is_u64 in *. lia. }
  rewrite divide_magnitude_spec by (done || apply Hok). fold (accum_unsigned (ln_absolute a)).
  rewrite Hu, ln_negative_spec by done. fold V.
  destruct (quantize_unit_spec (Z.abs V / count) (V <? 0) bits Hbits) as [Hq Hr].
  { split; [apply Z.div_pos; lia|]. apply Z.div_le_upper_bound; [lia|].
    change (2 ^ 62) with 4611686018427387904. lia. }
  assert (0 < 62 - bits) by (destruct Hbits; lia).
  rewrite half_up_div, apply_sign_value in Hq by
    (try apply Z.mul_pos_pos; try apply Z.pow_pos_nonneg; lia).
  fold q in Hq. by rewrite Hq in *.
Qed.
End Mean.

(** linears_accum_mean_q15 and _q31 return the exact quotient sum/count
    quantized with ONE rounding although the code floors the division first:
    DOMAIN for a zero count, RANGE exactly when the exact mean is outside [-1,+1],
    for every count up to UINT64_MAX. *)
Theorem linears_accum_mean_spec (sum : linears_accum_t) (count : Z) (out : option Z) :
  accum_ok sum -> is_u64 count ->
  let V := accum_value sum in
  let contract bits := with_out out (fun old =>
    if count =? 0 then (LINEARS_ERROR_DOMAIN, old)
    else deliver (in_unit_interval V (count * 2 ^ 62))
                 (endpoint bits (div_nearest V (count * 2 ^ (62 - bits)))) old) in
  linears_accum_mean_q15 sum count out = contract 15 /\
  linears_accum_mean_q31 sum count out = contract 31.
Proof.
  intros Hs Hc V contract. subst contract.
  unfold linears_accum_mean_q15, linears_accum_mean_q31.
  destruct out as [old|]; [|done]. cbn [with_out].
  destruct (Z.eqb_spec count 0) as [->|Hnz]; [done|].
  split.
  - rewrite (narrow_out_deliver i16 (in_unit_interval V (count * 2 ^ 62))
               (endpoint 15 (div_nearest V (count * 2 ^ (62 - 15))))); [done| |].
    + intros. by apply quantize_mean_spec; auto.
    + intros E. apply i16_id.
      pose proof (quantize_mean_spec sum count 15 Hs Hc ltac:(auto) 0 Hnz) as [_ H].
      specialize (H E). change (2 ^ 15) with 32768 in H. unfold is_i16. fold V in H. lia.
  - rewrite (narrow_out_deliver i32 (in_unit_interval V (count * 2 ^ 62))
               (endpoint 31 (div_nearest V (count * 2 ^ (62 - 31))))); [done| |].
    + intros. by apply quantize_mean_spec; auto.
    + intros E. apply i32_id.
      pose proof (quantize_mean_spec sum count 31 Hs Hc ltac:(auto) 0 Hnz) as [_ H].
      specialize (H E). change (2 ^ 31) with 2147483648 in H. unfold is_i32. fold V in H. lia.
Qed.

Section ExportSpec.
Variables SIZE_MAX UINTPTR_MAX : Z.

Lemma in_unit_spec v : in_unit v = in_unit_interval v LINEARS_FIXED_ONE.
Proof.
  unfold in_unit, in_unit_interval. rewrite negb_orb, Z.gtb_ltb.
  by rewrite (Z.leb_antisym v), (Z.leb_antisym LINEARS_FIXED_ONE v).
Qed.

Lemma export_element_spec bits v old :
  bits = 15 \/ bits = 31 -> is_i64 v -> in_unit v = true ->
  export_element bits v old = endpoint bits (div_nearest v (2 ^ (31 - bits))).
Proof.
  intros Hb Hv Hin. rewrite in_unit_spec in Hin. unfold export_element.
  destruct (linears_fixed_to_q_exact v (Some old) Hv) as [H15 H31].
  unfold linears_fixed_to_q15, linears_fixed_to_q31 in *. cbn [with_out] in *.
  rewrite Hin in *. unfold deliver in *. cbn [fst snd] in *.
  destruct Hb as [-> | ->].
  - change (15 =? 15) with true. cbv iota. by injection H15.
  - change (31 =? 15) with false. cbv iota. change (2 ^ (31 - 31)) with 1.
    replace (div_nearest v 1) with v; [by injection H31|].
    pose proof (div_nearest_error v 1 ltac:(lia)). lia.
Qed.
End ExportSpec.

(** The array exports are all or nothing: a call that does not return OK
    leaves every output element unchanged; a call that returns OK had every input
    inside [-1,+1] and disjoint storage, and output element i is input i rounded
    to the signal format. *)
Theorem export_values_spec (SIZE_MAX UINTPTR_MAX values out bits : Z) (elements cells : list Z) :
  bits = 15 \/ bits = 31 -> Forall is_i64 elements -> length cells = length elements ->
  let '(status, cells') := export_values SIZE_MAX UINTPTR_MAX values elements out cells bits in
  (status <> LINEARS_OK -> cells' = cells) /\
  (status = LINEARS_OK ->
     Forall (fun v => - LINEARS_FIXED_ONE <= v <= LINEARS_FIXED_ONE) elements /\
     cells' = (fun v => endpoint bits (div_nearest v (2 ^ (31 - bits)))) <$> elements /\
     (elements <> [] ->
        values + 8 * Z.of_nat (length elements) <= out \/
        out + (if bits =? 15 then 2 else 4) * Z.of_nat (length elements) <= values)).
Proof.
  intros Hb Hi Hlen. unfold export_values.
  set (w := if bits =? 15 then 2 else 4). assert (w = 2 \/ w = 4) as Hw by (subst w; case_if; auto).
  clearbody w. cbv zeta.
  do 5 (case_if; [cbv iota beta; by split|]). cbv iota beta. split; [done|]. intros _.
  match goal with H : forallb _ _ = true |- _ => rename H into Hin end.
  match goal with H : overlaps _ _ _ _ = false |- _ => rename H into Hov end.
  assert (Forall (fun v => in_unit v = true) elements) as Hall
    by (apply Forall_forall; intros x Hx; rewrite forallb_forall in Hin; apply Hin;
        first [done|by apply list_elem_of_In]).
  split; [|split].
  - eapply Forall_impl; [|exact Hall]. cbn. intros v Hv. rewrite in_unit_spec in Hv.
    unfold in_unit_interval in Hv. zbool. lia.
  - clear -Hb Hi Hlen Hall. revert cells Hlen. induction elements as [|v vs IH]; intros cells Hlen;
      destruct cells as [|c cs]; try done.
    cbn. inversion Hall; inversion Hi; subst. rewrite export_element_spec by done.
    f_equal. apply IH; auto.
  - intros Hne. assert (0 < Z.of_nat (length elements)) by (destruct elements; [done|cbn; lia]).
    unfold overlaps in Hov. rewrite orb_false_intro in Hov by (apply Z.eqb_neq; lia).
    case_if_in Hov; zbool; lia.
Qed.

(** ** The operations of the public interface *)

(** linears_fixed_mul returns the exact product of the two F31 raw values
    over 2^31, rounded once to nearest with halves away from zero; RANGE exactly
    when that value is outside int64_t, with the output cell unchanged; ARGUMENT
    for a NULL output. *)
Theorem linears_fixed_mul_spec (a b : Z) (out : option Z) :
  is_i64 a -> is_i64 b ->
  linears_fixed_mul a b out =
    with_out out (deliver (fits_i64 (div_nearest (a * b) LINEARS_FIXED_ONE))
                          (div_nearest (a * b) LINEARS_FIXED_ONE)).
Proof. exact (linears_fixed_mul_exact a b out). Qed.

(** linears_fixed_div returns a*2^31/b rounded once to nearest, halves away
    from zero, for every nonzero b; DOMAIN for b = 0 and RANGE exactly when the
    rounded quotient is outside int64_t, both leaving the output unchanged. *)
Theorem linears_fixed_div_spec (a b : Z) (out : option Z) :
  is_i64 a -> is_i64 b ->
  linears_fixed_div a b out =
    with_out out (fun old =>
      if b =? 0 then (LINEARS_ERROR_DOMAIN, old)
      else deliver (fits_i64 (div_nearest (a * LINEARS_FIXED_ONE) b))
                   (div_nearest (a * LINEARS_FIXED_ONE) b) old).
Proof. exact (linears_fixed_div_exact a b out). Qed.

(** linears_fixed_muldiv returns a*b/divisor with the product kept exact and
    one rounding of the quotient, to nearest with halves away from zero; DOMAIN
    for a zero divisor, RANGE exactly when the result is outside int64_t. *)
Theorem linears_fixed_muldiv_spec (a b divisor : Z) (out : option Z) :
  is_i64 a -> is_i64 b -> is_i64 divisor ->
  linears_fixed_muldiv a b divisor out =
    with_out out (fun old =>
      if divisor =? 0 then (LINEARS_ERROR_DOMAIN, old)
      else deliver (fits_i64 (div_nearest (a * b) divisor)) (div_nearest (a * b) divisor) old).
Proof. exact (linears_fixed_muldiv_exact a b divisor out). Qed.

(** linears_fixed_sqrt succeeds on every nonnegative int64_t and returns the
    integer nearest to sqrt(value*2^31), on the 64-bit path and on the 94-bit
    restoring path; negative input is DOMAIN and leaves the output unchanged. *)
Theorem linears_fixed_sqrt_spec (value old : Z) :
  is_i64 value ->
  (value < 0 -> linears_fixed_sqrt value (Some old) = (LINEARS_ERROR_DOMAIN, Some old)) /\
  (0 <= value -> exists r,
     linears_fixed_sqrt value (Some old) = (LINEARS_OK, Some r) /\ is_i64 r /\ 0 <= r /\
     (r = 0 \/ (2 * r - 1) * (2 * r - 1) < 4 * (value * LINEARS_FIXED_ONE)) /\
     4 * (value * LINEARS_FIXED_ONE) < (2 * r + 1) * (2 * r + 1)).
Proof. exact (linears_fixed_sqrt_exact value old). Qed.

(** linears_fixed_from_int, _add, _sub, _neg and _abs deliver the exact
    integer result when it fits int64_t and RANGE, with the output unchanged,
    exactly when it does not: no signed operation they perform overflows. *)
Theorem linears_fixed_exact_ops (a b : Z) (out : option Z) :
  is_i64 a -> is_i64 b ->
  let exact v := with_out out (deliver (fits_i64 v) v) in
  linears_fixed_from_int a out = exact (a * LINEARS_FIXED_ONE) /\
  linears_fixed_add a b out = exact (a + b) /\
  linears_fixed_sub a b out = exact (a - b) /\
  linears_fixed_neg a out = exact (- a) /\
  linears_fixed_abs a out = exact (Z.abs a).
Proof. exact (linears_fixed_ops_exact a b out). Qed.

(** linears_fixed_to_q15 and linears_fixed_to_q31 accept exactly the F31
    interval [-1,+1], round once to nearest with halves away from zero, and map
    only the missing positive endpoint to the largest code; anything outside is
    RANGE with the output unchanged. *)
Theorem linears_fixed_to_q_spec (value : Z) (out : option Z) :
  is_i64 value ->
  linears_fixed_to_q15 value out =
    with_out out (deliver (in_unit_interval value LINEARS_FIXED_ONE)
                          (endpoint 15 (div_nearest value 65536))) /\
  linears_fixed_to_q31 value out =
    with_out out (deliver (in_unit_interval value LINEARS_FIXED_ONE) (endpoint 31 value)).
Proof. exact (linears_fixed_to_q_exact value out). Qed.

(** ** Witnesses: the contracts at concrete inputs *)

Lemma linears_fixed_mul_witness :
  is_i64 (-3) /\ is_i64 1073741824 /\
  linears_fixed_mul (-3) 1073741824 (Some 7) = (LINEARS_OK, Some (-2)).
Proof.
  split; [rlia|split; [rlia|]].
  rewrite (linears_fixed_mul_spec (-3) 1073741824 (Some 7)) by rlia. vm_compute; reflexivity.
Defined.

Lemma linears_fixed_div_witness :
  is_i64 INT64_MAX /\ linears_fixed_div INT64_MAX 1 (Some 7) = (LINEARS_ERROR_RANGE, Some 7).
Proof.
  split; [rlia|]. rewrite (linears_fixed_div_spec INT64_MAX 1 (Some 7)) by rlia. vm_compute; reflexivity.
Defined.

Lemma linears_fixed_muldiv_witness :
  is_i64 INT64_MIN /\
  linears_fixed_muldiv INT64_MIN INT64_MIN INT64_MAX (Some 7) = (LINEARS_ERROR_RANGE, Some 7) /\
  linears_fixed_muldiv INT64_MAX 5 (-10) (Some 7) = (LINEARS_OK, Some (-4611686018427387904)).
Proof.
  split; [rlia|split].
  - rewrite (linears_fixed_muldiv_spec INT64_MIN INT64_MIN INT64_MAX (Some 7)) by rlia. vm_compute; reflexivity.
  - rewrite (linears_fixed_muldiv_spec INT64_MAX 5 (-10) (Some 7)) by rlia. vm_compute; reflexivity.
Defined.

Lemma linears_fixed_sqrt_witness :
  is_i64 INT64_MAX /\ exists r, linears_fixed_sqrt INT64_MAX (Some 7) = (LINEARS_OK, Some r) /\ 0 <= r.
Proof.
  split; [rlia|].
  destruct (proj2 (linears_fixed_sqrt_spec INT64_MAX 7 ltac:(rlia)) ltac:(rlia))
    as (r & H & _ & Hr & _).
  exact (ex_intro _ r (conj H Hr)).
Defined.

Lemma linears_fixed_exact_ops_witness :
  linears_fixed_add INT64_MAX 1 (Some 7) = (LINEARS_ERROR_RANGE, Some 7) /\
  linears_fixed_sub INT64_MAX 1 (Some 7) = (LINEARS_OK, Some 9223372036854775806).
Proof.
  destruct (linears_fixed_exact_ops INT64_MAX 1 (Some 7) ltac:(rlia) ltac:(rlia))
    as (_ & Ha & Hs & _). rewrite Ha, Hs. split; (vm_compute; reflexivity).
Defined.

Lemma linears_fixed_to_q_witness :
  linears_fixed_to_q15 2147483648 (Some 0) = (LINEARS_OK, Some 32767) /\
  linears_fixed_to_q31 2147483649 (Some 7) = (LINEARS_ERROR_RANGE, Some 7).
Proof.
  rewrite (proj1 (linears_fixed_to_q_spec 2147483648 (Some 0) ltac:(rlia))).
  rewrite (proj2 (linears_fixed_to_q_spec 2147483649 (Some 7) ltac:(rlia))).
  split; (vm_compute; reflexivity).
Defined.

Lemma linears_fixed_mac_msu_witness :
  exists r, linears_fixed_msu (Some (mk_accum 5 0)) 3 4 = (LINEARS_OK, Some r) /\
    accum_value r = -7.
Proof.
  destruct (proj2 (linears_fixed_mac_msu_spec (mk_accum 5 0) 3 4
    ltac:(split; cbn; rlia) ltac:(rlia) ltac:(rlia))) as (r & E & _ & Hv).
  exists r. split; [rewrite E; reflexivity|]. apply Hv. split; vm_compute; congruence.
Defined.

Lemma linears_accum_to_witness :
  linears_accum_to_q15 (mk_accum 4611686018427387905 0) (Some 7) = (LINEARS_ERROR_RANGE, Some 7) /\
  linears_accum_to_fixed (mk_accum 3221225472 0) (Some 7) = (LINEARS_OK, Some 2).
Proof.
  destruct (linears_accum_to_spec (mk_accum 4611686018427387905 0) (Some 7)
    ltac:(split; cbn; rlia)) as (_ & H & _).
  destruct (linears_accum_to_spec (mk_accum 3221225472 0) (Some 7)
    ltac:(split; cbn; rlia)) as (H' & _).
  rewrite H, H'. split; (vm_compute; reflexivity).
Defined.

Lemma linears_accum_mean_witness :
  linears_accum_mean_q15 (mk_accum 4611686018427387904 0) 3 (Some 7) = (LINEARS_OK, Some 10923).
Proof.
  rewrite (proj1 (linears_accum_mean_spec (mk_accum 4611686018427387904 0) 3 (Some 7)
    ltac:(split; cbn; rlia) ltac:(rlia))).
  vm_compute; reflexivity.
Defined.

Lemma export_values_witness :
  (export_values 18446744073709551615 18446744073709551615 4096 [65536; -98304] 8192 [9; 9] 15).2
  = [1; -2].
Proof.
  pose proof (export_values_spec 18446744073709551615 18446744073709551615 4096 8192 15
    [65536; -98304] [9; 9] ltac:(auto) ltac:(repeat constructor; rlia) eq_refl) as H.
  destruct (export_values _ _ _ _ _ _ _) as [st cells] eqn:E. cbn [snd].
  assert (st = LINEARS_OK) as Hst by (vm_compute in E; congruence).
  destruct H as [_ H]. destruct (H Hst) as (_ & -> & _). vm_compute; reflexivity.
Defined.
