(* ===== verification/Memory.v ===== *)
(** * Byte-addressed memory

    The matrix routines of linears accept buffers that overlap in any way, so
    their model works on one store of bytes: objects are address ranges, and
    elements are little-endian, as on every target of the repository. *)
From S2P Require Import Prelude MachineInt.

(** The byte at each address. *)
Definition mem : Type := Z -> Z.

Definition set_byte (a v : Z) (m : mem) : mem := fun x => if x =? a then v else m x.

(** An unsigned integer of [n] bytes at address [a]. *)
Fixpoint load_bytes (n : nat) (a : Z) (m : mem) : Z :=
  match n with
  | O => 0
  | S n => m a + 256 * load_bytes n (a + 1) m
  end.

(** Stores the low [n] bytes of [v], two's complement when [v] is negative. *)
Fixpoint store_bytes (n : nat) (a v : Z) (m : mem) : mem :=
  match n with
  | O => m
  | S n => set_byte a (v mod 256) (store_bytes n (a + 1) (v / 256) m)
  end.

(** memmove: the bytes read before the first is written. *)
Definition memmove (dst src : Z) (n : nat) (m : mem) : mem :=
  store_bytes n dst (load_bytes n src m) m.

(** Address [x] belongs to the object of [n] bytes at [a]. *)
Definition inside (a n x : Z) : Prop := a <= x < a + n.

(** Two objects without a common byte. *)
Definition disjoint (a n b k : Z) : Prop := forall x, inside a n x -> inside b k x -> False.

(** Two stores that agree except on the object. *)
Definition same_outside (a n : Z) (m m' : mem) : Prop := forall x, ~ inside a n x -> m' x = m x.

(** A store of bytes. *)
Definition bytes_ok (m : mem) : Prop := forall x, 0 <= m x < 256.

Section Memory.
Implicit Types (a b n k v x : Z) (m : mem).

Lemma load_bytes_ext w a m m' :
  (forall x, inside a (Z.of_nat w) x -> m' x = m x) -> load_bytes w a m' = load_bytes w a m.
Proof.
  revert a. induction w as [|w IH]; intros a H; cbn [load_bytes]; [done|].
  rewrite H by (unfold inside; lia). rewrite (IH (a + 1)); [done|].
  intros x Hx. apply H. unfold inside in *. lia.
Qed.

Lemma store_bytes_outside w a v m x : ~ inside a (Z.of_nat w) x -> store_bytes w a v m x = m x.
Proof.
  revert a v. induction w as [|w IH]; intros a v H; cbn [store_bytes]; [done|].
  unfold set_byte. destruct (Z.eqb_spec x a) as [->|Hne]; [unfold inside in H; lia|].
  apply IH. unfold inside in *. lia.
Qed.

Lemma store_same_outside w a v m : same_outside a (Z.of_nat w) m (store_bytes w a v m).
Proof. intros x Hx. by apply store_bytes_outside. Qed.

Lemma load_store_same w a v m : load_bytes w a (store_bytes w a v m) = v mod 256 ^ Z.of_nat w.
Proof.
  revert a v. induction w as [|w IH]; intros a v; cbn [load_bytes store_bytes].
  - change (256 ^ Z.of_nat 0) with 1. by rewrite Z.mod_1_r.
  - unfold set_byte at 1. rewrite Z.eqb_refl.
    rewrite (load_bytes_ext w (a + 1) (store_bytes w (a + 1) (v / 256) m)).
    + rewrite IH, Nat2Z.inj_succ, Z.pow_succ_r by lia.
      rewrite Z.rem_mul_r; [done|lia|apply Z.pow_pos_nonneg; lia].
    + intros x Hx. unfold set_byte. destruct (Z.eqb_spec x a); [unfold inside in Hx; lia|done].
Qed.

Lemma load_store_disjoint w a (k : nat) b v m : disjoint a (Z.of_nat w) b (Z.of_nat k) ->
  load_bytes w a (store_bytes k b v m) = load_bytes w a m.
Proof. intros H. apply load_bytes_ext. intros x Hx. apply store_bytes_outside. intros Hy. by apply (H x). Qed.

Lemma load_bytes_range w a m : bytes_ok m -> 0 <= load_bytes w a m < 256 ^ Z.of_nat w.
Proof.
  intros Hm. revert a. induction w as [|w IH]; intros a; cbn [load_bytes]; [cbn; lia|].
  specialize (IH (a + 1)). pose proof (Hm a). rewrite Nat2Z.inj_succ, Z.pow_succ_r by lia. lia.
Qed.

(** A byte of a stored object. *)
Lemma load_bytes_store w a m m' : bytes_ok m ->
  (forall x, inside a (Z.of_nat w) x -> m' x = store_bytes w a (load_bytes w a m) m x) ->
  forall x, inside a (Z.of_nat w) x -> m' x = m x.
Proof.
  intros Hm H x Hx. rewrite H by done. clear H m'. revert a x Hx.
  induction w as [|w IH]; intros a x Hx; [unfold inside in Hx; lia|]. cbn [store_bytes load_bytes].
  unfold set_byte. pose proof (Hm a). rewrite (Z.add_comm (m a)), (Z.mul_comm 256).
  destruct (Z.eqb_spec x a) as [->|Hne].
  - rewrite Z.add_comm, Z.mod_add by lia. apply Z.mod_small. lia.
  - rewrite Z.div_add_l, (Z.div_small (m a)), Z.add_0_r by lia. apply IH. unfold inside in *. lia.
Qed.

Lemma same_outside_refl a n m : same_outside a n m m.
Proof. done. Qed.

Lemma same_outside_trans a n m1 m2 m3 :
  same_outside a n m1 m2 -> same_outside a n m2 m3 -> same_outside a n m1 m3.
Proof. intros H1 H2 x Hx. by rewrite H2, H1. Qed.

Lemma same_outside_sub a n b k m m' : (forall x, inside a n x -> inside b k x) ->
  same_outside a n m m' -> same_outside b k m m'.
Proof. intros Hsub H x Hx. apply H. auto. Qed.

Lemma load_same_outside w a b n m m' : disjoint a (Z.of_nat w) b n -> same_outside b n m m' ->
  load_bytes w a m' = load_bytes w a m.
Proof. intros Hd H. apply load_bytes_ext. intros x Hx. apply H. intros Hy. by apply (Hd x). Qed.

Lemma disjoint_sym a n b k : disjoint a n b k -> disjoint b k a n.
Proof. intros H x Hx Hy. by apply (H x). Qed.

Lemma disjoint_sub a n b k a' n' b' k' : disjoint a n b k ->
  (forall x, inside a' n' x -> inside a n x) -> (forall x, inside b' k' x -> inside b k x) ->
  disjoint a' n' b' k'.
Proof. intros H Ha Hb x Hx Hy. apply (H x); auto. Qed.
End Memory.
