(* ===== verification/Float.v ===== *)
(** * float and double: the IEEE 754 formats of the C types

    The native types are modelled by the Standard Library's [spec_float], the
    executable IEEE 754 arithmetic with rounding to nearest, ties to even.  The
    model evaluates every C expression in its own type, without fused
    multiply-add or excess precision. *)
From Stdlib Require Import SpecFloat.
From S2P Require Import Prelude MachineInt.

(** A binary format: the precision and the exponent bound. *)
Record float_format := mk_format { prec : Z; emax : Z }.

Definition binary32 : float_format := mk_format 24 128.
Definition binary64 : float_format := mk_format 53 1024.

Section Format.
Variable f : float_format.

Definition hidden_bit : Z := 2 ^ (prec f - 1).
Definition exponents : Z := 2 * emax f.
Definition least_exponent : Z := 3 - emax f - prec f.

(** The value of a bit pattern. *)
Definition float_of_bits (bits : Z) : spec_float :=
  let fraction := bits mod hidden_bit in
  let exponent := (bits / hidden_bit) mod exponents in
  let sign := (bits / hidden_bit) / exponents =? 1 in
  if exponent =? 0 then
    match fraction with
    | Zpos p => S754_finite sign p least_exponent
    | _ => S754_zero sign
    end
  else if exponent =? exponents - 1 then
    (if fraction =? 0 then S754_infinity sign else S754_nan)
  else
    match fraction + hidden_bit with
    | Zpos p => S754_finite sign p (exponent - 1 + least_exponent)
    | _ => S754_zero sign
    end.

(** The bit pattern of a value; NaN is the quiet one. *)
Definition bits_of_float (x : spec_float) : Z :=
  let pack (sign : bool) (exponent fraction : Z) :=
    ((if sign then exponents else 0) + exponent) * hidden_bit + fraction in
  match x with
  | S754_zero sign => pack sign 0 0
  | S754_infinity sign => pack sign (exponents - 1) 0
  | S754_nan => pack false (exponents - 1) (hidden_bit / 2)
  | S754_finite sign p e =>
      if Zpos p <? hidden_bit then pack sign 0 (Zpos p)
      else pack sign (e - least_exponent + 1) (Zpos p - hidden_bit)
  end.

Definition isfinite (x : spec_float) : bool :=
  match x with S754_zero _ | S754_finite _ _ _ => true | _ => false end.

Definition fadd (x y : spec_float) : spec_float := SFadd (prec f) (emax f) x y.
Definition fsub (x y : spec_float) : spec_float := SFsub (prec f) (emax f) x y.
Definition fmul (x y : spec_float) : spec_float := SFmul (prec f) (emax f) x y.
Definition fdiv (x y : spec_float) : spec_float := SFdiv (prec f) (emax f) x y.
Definition fsqrt (x : spec_float) : spec_float := SFsqrt (prec f) (emax f) x.
Definition fabs (x : spec_float) : spec_float := SFabs x.
Definition fzero : spec_float := S754_zero false.
Definition fone : spec_float := float_of_bits ((emax f - 1) * hidden_bit).

Definition flt (x y : spec_float) : bool := SFltb x y.
Definition feq (x y : spec_float) : bool := SFeqb x y.

(** Finite bit patterns survive the trip through values. *)
Lemma float_bits_roundtrip bits : 2 <= prec f -> 1 < emax f ->
  0 <= bits < 2 * exponents * hidden_bit -> isfinite (float_of_bits bits) = true ->
  bits_of_float (float_of_bits bits) = bits.
Proof.
  intros Hp He Hb. assert (0 < hidden_bit) as Hh by (apply Z.pow_pos_nonneg; lia).
  assert (0 < exponents) as Hx by (unfold exponents; lia).
  pose proof (Z.div_mod bits hidden_bit ltac:(lia)) as D1.
  pose proof (Z.mod_pos_bound bits hidden_bit Hh) as R1.
  assert (0 <= bits / hidden_bit < 2 * exponents) as Q1
    by (split; [apply Z.div_pos; lia|apply Z.div_lt_upper_bound; lia]).
  pose proof (Z.div_mod (bits / hidden_bit) exponents ltac:(lia)) as D2.
  pose proof (Z.mod_pos_bound (bits / hidden_bit) exponents Hx) as R2.
  assert (0 <= bits / hidden_bit / exponents < 2) as Q2
    by (split; [apply Z.div_pos; lia|apply Z.div_lt_upper_bound; lia]).
  unfold float_of_bits. set (q := bits / hidden_bit) in *. set (r := bits mod hidden_bit) in *.
  set (s := q / exponents) in *. set (e := q mod exponents) in *.
  assert (q = (if s =? 1 then exponents else 0) + e) as Hq.
  { destruct (Z.eqb_spec s 1) as [Es|Es]; [|assert (s = 0) as Es0 by lia]; nia. }
  destruct (Z.eqb_spec e 0) as [E0|E0]; [|destruct (Z.eqb_spec e (exponents - 1)) as [E1|E1]].
  - destruct r as [|p|p] eqn:Er; [| |lia]; intros _; cbn [bits_of_float].
    + nia.
    + rewrite (proj2 (Z.ltb_lt _ _)) by lia. nia.
  - by destruct (r =? 0).
  - intros _. destruct (r + hidden_bit) as [|p|p] eqn:Er; [lia| |lia]. cbn [bits_of_float].
    rewrite (proj2 (Z.ltb_ge _ _)) by lia. nia.
Qed.
End Format.
