(* ===== verification/Matrix.v ===== *)
(** * Matrices: libs/linears/src/basic.c and its two kernel headers

    Matrix descriptors, the storage, alias and workspace checks, the element
    kernels of the five numeric kinds, the staged commit, and the public
    operations over a byte-addressed store.  Data ranges may overlap in any way;
    a pointer is an address and NULL is 0. *)
From Stdlib Require Import SpecFloat.
From S2P Require Import Prelude MachineInt Status Wide Numeric Memory Float.

Inductive numeric_kind : Type := F32 | F64 | Q15 | Q31 | WORK.
Inductive matrix_op : Type := ADD | SUB | HADAMARD | MUL | MATVEC | TRANSPOSE | AXPBY | SCALE.
Inductive reduction_op : Type := DOT | NORM | TRACE.

#[export] Instance numeric_kind_eq_dec : EqDecision numeric_kind.
Proof. solve_decision. Defined.
#[export] Instance matrix_op_eq_dec : EqDecision matrix_op.
Proof. solve_decision. Defined.
#[export] Instance reduction_op_eq_dec : EqDecision reduction_op.
Proof. solve_decision. Defined.

(** A descriptor with the address it is stored at. *)
Record linears_matrix_t : Type := mk_matrix { at_ : Z; data : Z; rows : Z; cols : Z }.

(** What the target decides: size_t and uintptr_t, the descriptor, natural alignments. *)
Record abi : Type := mk_abi {
  SIZE_MAX : Z; UINTPTR_MAX : Z; sizeof_matrix : Z; align_matrix : Z; align_workspace : Z;
  element_alignment : numeric_kind -> Z;
}.

(** The parameters alpha and beta: one union per kind. *)
Record scalar : Type := mk_scalar { fixed : Z; floating : spec_float }.

Definition sizeof_workspace : Z := 8.

Definition element_width (kind : numeric_kind) : nat :=
  match kind with F32 => 4 | F64 => 8 | Q15 => 2 | Q31 => 4 | WORK => 8 end.
Definition element_size (kind : numeric_kind) : Z := Z.of_nat (element_width kind).

(** ** Elements: bit patterns in memory *)

Definition raw_bits (kind : numeric_kind) (base index : Z) (m : mem) : Z :=
  load_bytes (element_width kind) (base + index * element_size kind) m.

Definition set_raw (kind : numeric_kind) (base index value : Z) (m : mem) : mem :=
  store_bytes (element_width kind) (base + index * element_size kind) value m.

(** workspace[i].member = value: every member starts at the unit. *)
Definition set_unit (kind : numeric_kind) (workspace index value : Z) (m : mem) : mem :=
  store_bytes (element_width kind) (workspace + index * sizeof_workspace) value m.
Definition unit_bits (kind : numeric_kind) (workspace index : Z) (m : mem) : Z :=
  load_bytes (element_width kind) (workspace + index * sizeof_workspace) m.

(** Signed elements of the integer kinds. *)
Definition signed_bits (kind : numeric_kind) (bits : Z) : Z :=
  match kind with Q15 => i16 bits | Q31 => i32 bits | _ => i64 bits end.
Definition raw_int (kind : numeric_kind) (base index : Z) (m : mem) : Z :=
  signed_bits kind (raw_bits kind base index m).

Definition kind_format (kind : numeric_kind) : float_format :=
  match kind with F32 => binary32 | _ => binary64 end.
Definition raw_float (kind : numeric_kind) (base index : Z) (m : mem) : spec_float :=
  float_of_bits (kind_format kind) (raw_bits kind base index m).

(** A pointer that may be NULL reads as zero in the kernels. *)
Definition optional {A} (b : option linears_matrix_t) (zero : A) (get : linears_matrix_t -> A) : A :=
  match b with Some b => get b | None => zero end.

(** [for (i = from; ...; ++i) { status = body(i); if (status != OK) return status; }] *)
Fixpoint for_status {S : Type} (from n : nat) (body : nat -> S -> linears_status_t * S) (s : S)
    : linears_status_t * S :=
  match n with
  | O => (LINEARS_OK, s)
  | Datatypes.S n =>
      let r := body from s in
      if status_ok r.1 then for_status (Datatypes.S from) n body r.2 else r
  end.

Section Target.
Variable target : abi.
Let SIZE_MAX := SIZE_MAX target.
Let UINTPTR_MAX := UINTPTR_MAX target.

(** size_t arithmetic *)
Definition usize (x : Z) : Z := x mod (SIZE_MAX + 1).

Definition overlap (a asize b bsize : Z) : bool :=
  if (asize =? 0) || (bsize =? 0) then false
  else if a <=? b then b - a <? asize else a - b <? bsize.

(** Status, and the element count when it is OK. *)
Definition matrix_storage (matrix : option linears_matrix_t) (kind : numeric_kind) (count : Z)
    : linears_status_t * Z :=
  match matrix with
  | None => (LINEARS_ERROR_ARGUMENT, count)
  | Some x =>
      if negb (at_ x mod align_matrix target =? 0) then (LINEARS_ERROR_ARGUMENT, count)
      else if negb (cols x =? 0) && (rows x >? SIZE_MAX / cols x) then (LINEARS_ERROR_SIZE, count)
      else
        let count := usize (rows x * cols x) in
        let width := element_size kind in
        if count >? SIZE_MAX / width then (LINEARS_ERROR_SIZE, count)
        else if negb (count =? 0) &&
                ((data x =? 0) || negb (data x mod element_alignment target kind =? 0))
        then (LINEARS_ERROR_ARGUMENT, count)
        else if usize (count * width) >? UINTPTR_MAX - data x then (LINEARS_ERROR_SIZE, count)
        else (LINEARS_OK, count)
  end.

(** The [n] elements from [i] on are finite. *)
Fixpoint finite_from (kind : numeric_kind) (base : Z) (n : nat) (i : Z) (m : mem) : bool :=
  match n with
  | O => true
  | Datatypes.S n => isfinite (raw_float kind base i m) && finite_from kind base n (i + 1) m
  end.

Definition input_values (a : linears_matrix_t) (count : Z) (kind : numeric_kind) (m : mem)
    : linears_status_t :=
  match kind with
  | F32 | F64 => if finite_from kind (data a) (Z.to_nat count) 0 m then LINEARS_OK else LINEARS_ERROR_RANGE
  | _ => LINEARS_OK
  end.

(** The matrices that are not NULL, with their counts. *)
Definition present (xs : list (option linears_matrix_t * Z)) : list (linears_matrix_t * Z) :=
  omap (fun x => match x.1 with Some a => Some (a, x.2) | None => None end) xs.

Definition descriptor_conflict (kind : numeric_kind) (x y : linears_matrix_t * Z) : bool :=
  overlap (at_ x.1) (sizeof_matrix target) (data y.1) (usize (y.2 * element_size kind)) ||
  (negb (at_ x.1 =? at_ y.1) &&
   overlap (at_ x.1) (sizeof_matrix target) (at_ y.1) (sizeof_matrix target)).

Definition matrix_aliases (a : option linears_matrix_t) (acount : Z) (b : option linears_matrix_t)
    (bcount : Z) (out : option linears_matrix_t) (outcount : Z) (kind : numeric_kind) : linears_status_t :=
  let matrices := present [(a, acount); (b, bcount); (out, outcount)] in
  if existsb (fun x => existsb (descriptor_conflict kind x) matrices) matrices
  then LINEARS_ERROR_ALIAS else LINEARS_OK.

Definition scratch_storage (workspace bytes count : Z) (a : option linears_matrix_t) (acount : Z)
    (b : option linears_matrix_t) (bcount : Z) (out : option linears_matrix_t) (kind : numeric_kind)
    : linears_status_t :=
  if count >? SIZE_MAX / sizeof_workspace then LINEARS_ERROR_SIZE
  else
    let needed := usize (count * sizeof_workspace) in
    if needed =? 0 then LINEARS_OK
    else if (workspace =? 0) || (bytes <? needed) || negb (workspace mod align_workspace target =? 0)
    then LINEARS_ERROR_WORKSPACE
    else if bytes >? UINTPTR_MAX - workspace then LINEARS_ERROR_SIZE
    else if existsb (fun x => overlap workspace bytes (at_ x.1) (sizeof_matrix target) ||
                              overlap workspace bytes (data x.1) (usize (x.2 * element_size kind)))
              (present [(a, acount); (b, bcount); (out, count)])
    then LINEARS_ERROR_ALIAS else LINEARS_OK.

(** ** The raw-Q kernel (basic_q_impl.h) *)

Definition q_bits (kind : numeric_kind) : Z := match kind with Q15 => 15 | _ => 31 end.
Definition accum_zero : linears_accum_t := mk_accum 0 0.

(** A strided vector of elements: base address, first index, stride. *)
Definition strided (kind : numeric_kind) (base first stride : Z) (m : mem) (i : nat) : Z :=
  raw_int kind base (usize (first + usize (Z.of_nat i * stride))) m.

Definition dot_raw_ (kind : numeric_kind) (a b : nat -> Z) (count : Z) : linears_accum_t :=
  let wide :=
    let sum := for_up 0 (Z.to_nat count)
      (fun i sum => ln_add_product64 sum (i64 (a i * b i))) accum_zero in
    match kind with Q15 => ln_shift_accum sum 32 | _ => sum end in
  match kind with
  | Q15 =>
      if (SIZE_MAX <=? UINT32_MAX) || (count <=? INT64_MAX / 1073741824) then
        ln_shift_i64 (for_up 0 (Z.to_nat count) (fun i sum => i64 (sum + i64 (a i * b i))) 0) 32
      else wide
  | _ => wide
  end.

Definition linears_accum_to (kind : numeric_kind) (sum : linears_accum_t) (old : Z)
    : linears_status_t * Z :=
  match kind with
  | Q15 => narrow_out i16 (quantize_accumulator sum 15) old
  | _ => narrow_out i32 (quantize_accumulator sum 31) old
  end.

Definition q_sum (kind : numeric_kind) (op : matrix_op) (a : linears_matrix_t)
    (b : option linears_matrix_t) (out_cols alpha beta row col : Z) (m : mem) : linears_accum_t :=
  let i := usize (usize (row * out_cols) + col) in
  let shift := 62 - q_bits kind in
  match op with
  | MUL | MATVEC =>
      if cols a =? 0 then accum_zero
      else optional b accum_zero (fun b =>
        dot_raw_ kind (strided kind (data a) (usize (row * cols a)) 1 m)
                      (strided kind (data b) col (cols b) m) (cols a))
  | _ =>
      let x := raw_int kind (data a) i m in
      let y := optional b 0 (fun b => raw_int kind (data b) i m) in
      match op with
      | ADD => ln_shift_i64 (i64 (x + y)) shift
      | SUB => ln_shift_i64 (i64 (x - y)) shift
      | HADAMARD =>
          let product := i64 (x * y) in
          match kind with
          | Q15 => ln_shift_i64 product 32
          | _ => mk_accum (u64 product) (if product <? 0 then UINT64_MAX else 0)
          end
      | _ =>
          let scale v := match kind with Q15 => i64 (v * 65536) | _ => v end in
          let sum := ln_product alpha (scale x) in
          match op with AXPBY => ln_add_unchecked sum (ln_product beta (scale y)) | _ => sum end
      end
  end.

(** One staged element: its status, and the member stored when it is OK. *)
Definition q_element (kind : numeric_kind) (op : matrix_op) (a : linears_matrix_t)
    (b : option linears_matrix_t) (out_cols alpha beta row col : Z) (m : mem) : linears_status_t * Z :=
  match op with
  | TRANSPOSE => (LINEARS_OK, raw_int kind (data a) (usize (usize (col * cols a) + row)) m)
  | _ => linears_accum_to kind (q_sum kind op a b out_cols alpha beta row col m) 0
  end.

(** ** The working kernel (evaluate_work) *)

Definition fixed_cell (r : linears_status_t * option Z) : linears_status_t * Z :=
  (r.1, default 0 r.2).

Definition work_element (op : matrix_op) (a : linears_matrix_t) (b : option linears_matrix_t)
    (out_cols alpha beta row col : Z) (m : mem) : linears_status_t * Z :=
  let i := usize (usize (row * out_cols) + col) in
  let x i := raw_int WORK (data a) i m in
  let y i := optional b 0 (fun b => raw_int WORK (data b) i m) in
  match op with
  | TRANSPOSE => (LINEARS_OK, x (usize (usize (col * cols a) + row)))
  | ADD => fixed_cell (linears_fixed_add (x i) (y i) (Some 0))
  | SUB => fixed_cell (linears_fixed_sub (x i) (y i) (Some 0))
  | _ =>
      let sum :=
        match op with
        | MUL =>
            for_status 0 (Z.to_nat (cols a)) (fun k sum =>
              ln_add_checked sum
                (ln_product (x (usize (usize (row * cols a) + Z.of_nat k)))
                   (y (usize (usize (Z.of_nat k * optional b 0 cols) + col)))) sum) accum_zero
        | _ => ln_add_checked (ln_product alpha (x i)) (ln_product beta (y i)) accum_zero
        end in
      if status_ok sum.1 then fixed_cell (linears_accum_to_fixed sum.2 (Some 0)) else (sum.1, 0)
  end.

(** ** The native kernel (basic_float_impl.h) *)

Definition float_element (kind : numeric_kind) (op : matrix_op) (a : linears_matrix_t)
    (b : option linears_matrix_t) (out_cols : Z) (alpha beta : spec_float) (row col : Z) (m : mem)
    : linears_status_t * Z :=
  let f := kind_format kind in
  let i := usize (usize (row * out_cols) + col) in
  let adata i := raw_float kind (data a) i m in
  let bdata i := optional b fzero (fun b => raw_float kind (data b) i m) in
  let finish (result : spec_float) :=
    if isfinite result then (LINEARS_OK, bits_of_float f result) else (LINEARS_ERROR_RANGE, 0) in
  match op with
  | MUL | MATVEC =>
      let r := for_status 0 (Z.to_nat (cols a)) (fun k result =>
        let product := fmul f (adata (usize (usize (row * cols a) + Z.of_nat k)))
                              (bdata (usize (usize (Z.of_nat k * optional b 0 cols) + col))) in
        let result := fadd f result product in
        (if isfinite result then LINEARS_OK else LINEARS_ERROR_RANGE, result)) fzero in
      if status_ok r.1 then finish r.2 else (r.1, 0)
  | TRANSPOSE => finish (adata (usize (usize (col * cols a) + row)))
  | ADD => finish (fadd f (adata i) (bdata i))
  | SUB => finish (fsub f (adata i) (bdata i))
  | HADAMARD => finish (fmul f (adata i) (bdata i))
  | SCALE => finish (fmul f alpha (adata i))
  | AXPBY => finish (fadd f (fmul f alpha (adata i)) (fmul f beta (bdata i)))
  end.

(** ** Evaluation into the workspace and commit *)

Definition element (op : matrix_op) (kind : numeric_kind) (a : linears_matrix_t)
    (b : option linears_matrix_t) (out_cols : Z) (alpha beta : scalar) (row col : Z) (m : mem)
    : linears_status_t * Z :=
  match kind with
  | F32 | F64 => float_element kind op a b out_cols (floating alpha) (floating beta) row col m
  | Q15 | Q31 => q_element kind op a b out_cols (fixed alpha) (fixed beta) row col m
  | WORK => work_element op a b out_cols (fixed alpha) (fixed beta) row col m
  end.

(** The loops common to the evaluate functions: stage each element, stop at the first error. *)
Definition evaluate_row (op : matrix_op) (kind : numeric_kind) (a : linears_matrix_t)
    (b : option linears_matrix_t) (out : linears_matrix_t) (alpha beta : scalar) (workspace : Z)
    (row : nat) (m : mem) : linears_status_t * mem :=
  for_status 0 (Z.to_nat (cols out)) (fun col m =>
    let r := element op kind a b (cols out) alpha beta (Z.of_nat row) (Z.of_nat col) m in
    if status_ok r.1
    then (LINEARS_OK,
          set_unit kind workspace (usize (usize (Z.of_nat row * cols out) + Z.of_nat col)) r.2 m)
    else (r.1, m)) m.

Definition evaluate (op : matrix_op) (kind : numeric_kind) (a : linears_matrix_t)
    (b : option linears_matrix_t) (out : linears_matrix_t) (alpha beta : scalar) (workspace : Z) (m : mem)
    : linears_status_t * mem :=
  for_status 0 (Z.to_nat (rows out)) (evaluate_row op kind a b out alpha beta workspace) m.

Definition commit_result (out : linears_matrix_t) (count workspace : Z) (kind : numeric_kind) (m : mem)
    : mem :=
  for_up 0 (Z.to_nat count) (fun i m =>
    set_raw kind (data out) (Z.of_nat i) (unit_bits kind workspace (Z.of_nat i) m) m) m.

(** ** The public operations *)

Definition binary (op : matrix_op) : bool :=
  bool_decide (op <> TRANSPOSE /\ op <> SCALE).

Definition shapes_agree (op : matrix_op) (a : linears_matrix_t) (b : option linears_matrix_t)
    (out : linears_matrix_t) : bool :=
  match op with
  | MUL | MATVEC =>
      optional b false (fun b =>
        (cols a =? rows b) && (rows out =? rows a) && (cols out =? cols b) &&
        (negb (bool_decide (op = MATVEC)) || (cols b =? 1)))
  | TRANSPOSE => (rows out =? cols a) && (cols out =? rows a)
  | _ => (rows out =? rows a) && (cols out =? cols a) &&
         optional b true (fun b => (rows b =? rows a) && (cols b =? cols a))
  end.

(** [status = s; if (status != LINEARS_OK) return status;] *)
Definition require {A} (s : linears_status_t) (stop : A) (rest : linears_status_t * A)
    : linears_status_t * A :=
  if status_ok s then rest else (s, stop).

Definition matrix_compute (op : matrix_op) (kind : numeric_kind) (a b out : option linears_matrix_t)
    (alpha beta : scalar) (workspace workspace_bytes : Z) (m : mem) : linears_status_t * mem :=
  let sa := matrix_storage a kind 0 in
  let sb := match b with Some _ => matrix_storage b kind 0 | None => (LINEARS_OK, 0) end in
  let so := matrix_storage out kind 0 in
  require sa.1 m (require sb.1 m (require so.1 m (
  match a, out with
  | Some a', Some out' =>
      if binary op && match b with None => true | Some _ => false end then (LINEARS_ERROR_ARGUMENT, m)
      else if negb (shapes_agree op a' b out') then (LINEARS_ERROR_DIMENSION, m)
      else
        require (matrix_aliases a sa.2 b sb.2 out so.2 kind) m (
        require (scratch_storage workspace workspace_bytes so.2 a sa.2 b sb.2 out kind) m (
        require (input_values a' sa.2 kind m) m (
        require (optional b LINEARS_OK (fun b => input_values b sb.2 kind m)) m (
        if so.2 =? 0 then (LINEARS_OK, m)
        else
          let r := evaluate op kind a' b out' alpha beta workspace m in
          if status_ok r.1 then (LINEARS_OK, commit_result out' so.2 workspace kind r.2) else r))))
  | _, _ => (LINEARS_ERROR_ARGUMENT, m)
  end))).

Definition copy_matrix (kind : numeric_kind) (a out : option linears_matrix_t) (m : mem)
    : linears_status_t * mem :=
  let sa := matrix_storage a kind 0 in
  let so := matrix_storage out kind 0 in
  require sa.1 m (require so.1 m (
  match a, out with
  | Some a', Some out' =>
      if negb (rows a' =? rows out') || negb (cols a' =? cols out') then (LINEARS_ERROR_DIMENSION, m)
      else
        require (matrix_aliases a sa.2 None 0 out so.2 kind) m (
        require (input_values a' sa.2 kind m) m (
        (LINEARS_OK, if sa.2 =? 0 then m
                     else memmove (data out') (data a') (Z.to_nat (usize (sa.2 * element_size kind))) m)))
  | _, _ => (LINEARS_ERROR_ARGUMENT, m)
  end)).

Definition fill_value (kind : numeric_kind) (diagonal : bool) : Z :=
  if diagonal then
    match kind with
    | F32 => bits_of_float binary32 (fone binary32)
    | F64 => bits_of_float binary64 (fone binary64)
    | Q15 => INT16_MAX
    | Q31 => INT32_MAX
    | WORK => LINEARS_FIXED_ONE
    end
  else 0.

Definition fill_matrix (kind : numeric_kind) (out : option linears_matrix_t) (identity : bool) (m : mem)
    : linears_status_t * mem :=
  let so := matrix_storage out kind 0 in
  require so.1 m (
  match out with
  | Some out' =>
      if identity && negb (rows out' =? cols out') then (LINEARS_ERROR_DIMENSION, m)
      else
        require (matrix_aliases None 0 None 0 out so.2 kind) m (
        (LINEARS_OK, for_up 0 (Z.to_nat so.2) (fun i m =>
           let diagonal := identity && (Z.of_nat i / cols out' =? Z.of_nat i mod cols out') in
           set_raw kind (data out') (Z.of_nat i) (fill_value kind diagonal) m) m))
  | None => (LINEARS_ERROR_ARGUMENT, m)
  end).

(** ** Reductions *)

(** reduce_q15, reduce_q31: the status and the value for *out. *)
Definition q_reduce (op : reduction_op) (kind : numeric_kind) (a : linears_matrix_t)
    (b : option linears_matrix_t) (count : Z) (m : mem) : linears_status_t * Z :=
  let adata i := raw_int kind (data a) (usize (Z.of_nat i)) m in
  let bdata i := optional b 0 (fun b => raw_int kind (data b) (usize (Z.of_nat i)) m) in
  let sum :=
    match op with
    | TRACE =>
        ln_shift_accum (for_up 0 (Z.to_nat count) (fun i sum =>
          ln_add_product64 sum
            (raw_int kind (data a) (usize (usize (Z.of_nat i * cols a) + Z.of_nat i)) m)) accum_zero)
          (62 - q_bits kind)
    | NORM => dot_raw_ kind adata adata count
    | DOT => dot_raw_ kind adata bdata count
    end in
  match op with
  | NORM =>
      if negb (high sum =? 0) || (low sum >? u64 (Z.shiftl 1 62)) then (LINEARS_ERROR_RANGE, 0)
      else
        let raw := ln_sqrt_nearest64 (match kind with Q15 => Z.shiftr (low sum) 32 | _ => low sum end) in
        let raw := if raw =? u64 (Z.shiftl 1 (q_bits kind)) then u64 (raw - 1) else raw in
        (LINEARS_OK, match kind with Q15 => i16 raw | _ => i32 raw end)
  | _ => linears_accum_to kind sum 0
  end.

(** reduce_f32, reduce_f64: dot and trace sums, and the scaled norm. *)
Definition float_reduce (op : reduction_op) (kind : numeric_kind) (a : linears_matrix_t)
    (b : option linears_matrix_t) (count : Z) (m : mem) : linears_status_t * Z :=
  let f := kind_format kind in
  let bdata i := optional b fzero (fun b => raw_float kind (data b) i m) in
  let step (i : nat) (s : spec_float * spec_float) : linears_status_t * (spec_float * spec_float) :=
    let '(sum, scale) := s in
    let i := Z.of_nat i in
    let index := match op with TRACE => usize (usize (i * cols a) + i) | _ => i end in
    let x := raw_float kind (data a) index m in
    let checked (sum scale : spec_float) :=
      (if isfinite sum then LINEARS_OK else LINEARS_ERROR_RANGE, (sum, scale)) in
    match op with
    | NORM =>
        let x := fabs x in
        if feq x fzero then (LINEARS_OK, s)
        else if flt scale x then
          let ratio := fdiv f scale x in
          let squared := fmul f ratio ratio in
          checked (fadd f (fone f) (fmul f sum squared)) x
        else
          let ratio := fdiv f x scale in
          checked (fadd f sum (fmul f ratio ratio)) scale
    | DOT => checked (fadd f sum (fmul f x (bdata i))) scale
    | TRACE => checked (fadd f sum x) scale
    end in
  let r := for_status 0 (Z.to_nat count) step (fzero, fzero) in
  if status_ok r.1 then
    let result := match op with NORM => fmul f r.2.2 (fsqrt f r.2.1) | _ => r.2.1 end in
    if isfinite result then (LINEARS_OK, bits_of_float f result) else (LINEARS_ERROR_RANGE, 0)
  else (r.1, 0).

Definition reduction (op : reduction_op) (kind : numeric_kind) (a b : option linears_matrix_t)
    (out : Z) (m : mem) : linears_status_t * mem :=
  let sa := matrix_storage a kind 0 in
  let sb := match b with Some _ => matrix_storage b kind 0 | None => (LINEARS_OK, 0) end in
  require sa.1 m (require sb.1 m (
  match a with
  | None => (LINEARS_ERROR_ARGUMENT, m)
  | Some a' =>
      if bool_decide (op = DOT) && match b with None => true | Some _ => false end
      then (LINEARS_ERROR_ARGUMENT, m)
      else if (bool_decide (op = TRACE) && negb (rows a' =? cols a')) ||
              optional b false (fun b => negb (rows a' =? rows b) || negb (cols a' =? cols b))
      then (LINEARS_ERROR_DIMENSION, m)
      else if (out =? 0) || negb (out mod element_alignment target kind =? 0)
      then (LINEARS_ERROR_ARGUMENT, m)
      else if overlap out (element_size kind) (at_ a') (sizeof_matrix target) ||
              optional b false (fun b => overlap out (element_size kind) (at_ b) (sizeof_matrix target))
      then (LINEARS_ERROR_ALIAS, m)
      else
        require (matrix_aliases a sa.2 b sb.2 None 0 kind) m (
        require (input_values a' sa.2 kind m) m (
        require (optional b LINEARS_OK (fun b => input_values b sb.2 kind m)) m (
        let count := match op with TRACE => rows a' | _ => sa.2 end in
        let r := match kind with
                 | F32 | F64 => float_reduce op kind a' b count m
                 | _ => q_reduce op kind a' b count m
                 end in
        if status_ok r.1 then (LINEARS_OK, set_raw kind out 0 r.2 m) else (r.1, m))))
  end)).

(** ** Entry points, one per kind *)

Definition empty_scalar : scalar := mk_scalar 0 fzero.

Definition linears_add (kind : numeric_kind) a b out := matrix_compute ADD kind a b out empty_scalar empty_scalar.
Definition linears_sub (kind : numeric_kind) a b out := matrix_compute SUB kind a b out empty_scalar empty_scalar.
Definition linears_hadamard (kind : numeric_kind) a b out :=
  matrix_compute HADAMARD kind a b out empty_scalar empty_scalar.
Definition linears_mul (kind : numeric_kind) a b out := matrix_compute MUL kind a b out empty_scalar empty_scalar.
Definition linears_matvec (kind : numeric_kind) a b out :=
  matrix_compute MATVEC kind a b out empty_scalar empty_scalar.
Definition linears_transpose (kind : numeric_kind) a out :=
  matrix_compute TRANSPOSE kind a None out empty_scalar empty_scalar.
Definition linears_copy (kind : numeric_kind) a out := copy_matrix kind a out.
Definition linears_zero (kind : numeric_kind) out := fill_matrix kind out false.
Definition linears_identity (kind : numeric_kind) out := fill_matrix kind out true.
Definition linears_dot (kind : numeric_kind) a b out := reduction DOT kind a b out.
Definition linears_norm (kind : numeric_kind) a out := reduction NORM kind a None out.
Definition linears_trace (kind : numeric_kind) a out := reduction TRACE kind a None out.

(** The native variants reject coefficients that are not finite. *)
Definition linears_axpby (kind : numeric_kind) (alpha : scalar) a (beta : scalar) b out
    (workspace bytes : Z) (m : mem) : linears_status_t * mem :=
  match kind with
  | F32 | F64 =>
      if negb (isfinite (floating alpha)) || negb (isfinite (floating beta))
      then (LINEARS_ERROR_RANGE, m)
      else matrix_compute AXPBY kind a b out alpha beta workspace bytes m
  | _ => matrix_compute AXPBY kind a b out alpha beta workspace bytes m
  end.

Definition linears_scale (kind : numeric_kind) (alpha : scalar) a out (workspace bytes : Z) (m : mem)
    : linears_status_t * mem :=
  match kind with
  | F32 | F64 =>
      if negb (isfinite (floating alpha)) then (LINEARS_ERROR_RANGE, m)
      else matrix_compute SCALE kind a None out alpha alpha workspace bytes m
  | _ => matrix_compute SCALE kind a None out alpha alpha workspace bytes m
  end.
End Target.
