(* ===== verification/MatrixSpec.v ===== *)
(** * Matrices: the commit discipline

    Every elementwise operation evaluates into the workspace and commits at the
    end, so that inputs and output may overlap and a failure leaves all the
    matrices alone.  This holds for the five numeric kinds alike. *)
From Stdlib Require Import SpecFloat.
From S2P Require Import Prelude MachineInt Status Wide Numeric Memory Float Matrix.

(** What is assumed of a target: a 32- or 64-bit size_t. *)
Record abi_ok (target : abi) : Prop := {
  abi_size : SIZE_MAX target = 4294967295 \/ SIZE_MAX target = 18446744073709551615;
  abi_address : 0 <= UINTPTR_MAX target;
  abi_matrix : 0 < sizeof_matrix target;
}.

(** The loop with early return: all bodies succeed, or the first failure is the result. *)
Section ForStatus.
Context {S : Type}.

Lemma for_status_ext from n (f g : nat -> S -> linears_status_t * S) s :
  (forall i s, (from <= i < from + n)%nat -> f i s = g i s) ->
  for_status from n f s = for_status from n g s.
Proof.
  revert from s. induction n as [|n IH]; intros from s H; cbn [for_status]; [done|].
  rewrite H by lia. destruct (status_ok _); [|done]. apply IH. intros. apply H. lia.
Qed.

Lemma for_status_rule (f : nat -> S -> linears_status_t * S) (I : nat -> S -> Prop)
    (F : linears_status_t -> S -> Prop) hi :
  (forall i s, (i < hi)%nat -> I i s ->
     ((f i s).1 = LINEARS_OK /\ I (Datatypes.S i) (f i s).2) \/
     ((f i s).1 <> LINEARS_OK /\ F (f i s).1 (f i s).2)) ->
  forall n from s, (from + n = hi)%nat -> I from s ->
  let r := for_status from n f s in
  (r.1 = LINEARS_OK /\ I hi r.2) \/ (r.1 <> LINEARS_OK /\ F r.1 r.2).
Proof.
  intros Hstep n. induction n as [|n IH]; intros from s Hn HI; cbn [for_status].
  - left. by replace hi with from by lia.
  - destruct (Hstep from s ltac:(lia) HI) as [[E HI']|[E HF]].
    + rewrite E. cbn [status_ok]. apply IH; [lia|done].
    + right. destruct (status_ok (f from s).1) eqn:Es; [by apply status_ok_true in Es|done].
Qed.
End ForStatus.

Lemma for_up_ext {S} from n (f g : nat -> S -> S) s :
  (forall i s, (from <= i < from + n)%nat -> f i s = g i s) -> for_up from n f s = for_up from n g s.
Proof.
  revert from s. induction n as [|n IH]; intros from s H; cbn [for_up]; [done|].
  rewrite H by lia. apply IH. intros. apply H. lia.
Qed.

Section Spec.
Context (target : abi) (Htarget : abi_ok target).
Implicit Types (kind : numeric_kind) (m : mem) (a out : linears_matrix_t).

(** Descriptor fields are size_t values and an address. *)
Record matrix_wf (x : linears_matrix_t) : Prop := {
  wf_rows : 0 <= rows x <= SIZE_MAX target;
  wf_cols : 0 <= cols x <= SIZE_MAX target;
  wf_data : 0 <= data x;
}.

Definition elements (x : linears_matrix_t) : Z := rows x * cols x.

(** ** The checks *)

Lemma usize_id x : 0 <= x <= SIZE_MAX target -> usize target x = x.
Proof. intros H. apply Z.mod_small. lia. Qed.

Lemma overlap_disjoint p n q k : overlap p n q k = false -> disjoint p n q k.
Proof.
  unfold overlap, disjoint, inside. intros H x Ha Hb.
  destruct (_ || _) eqn:E; [apply orb_true_iff in E as [E|E]; zbool; lia|].
  destruct (Z.leb_spec p q); zbool; lia.
Qed.

Lemma element_size_pos kind : 0 < element_size kind <= 8.
Proof. unfold element_size. destruct kind; cbn [element_width]; lia. Qed.

(** What an accepted descriptor guarantees. *)
Record storage_ok (x : linears_matrix_t) kind : Prop := {
  st_count : 0 <= elements x;
  st_bytes : elements x * element_size kind <= SIZE_MAX target;
}.

Lemma storage_count x kind : storage_ok x kind -> 0 <= elements x <= SIZE_MAX target.
Proof. intros [H1 H2]. pose proof (element_size_pos kind). nia. Qed.

Lemma matrix_storage_spec x kind old c : matrix_wf x ->
  matrix_storage target (Some x) kind old = (LINEARS_OK, c) -> c = elements x /\ storage_ok x kind.
Proof.
  intros [Hr Hc Hd]. unfold matrix_storage. destruct (negb _); [done|].
  destruct (negb (cols x =? 0) && _) eqn:E1; [done|]. cbv zeta.
  assert (0 <= elements x <= SIZE_MAX target) as He.
  { unfold elements. apply andb_false_iff in E1 as [E1|E1]; zbool; [nia|].
    split; [nia|]. destruct (Z.eq_dec (cols x) 0); [nia|].
    pose proof (Z.mul_div_le (SIZE_MAX target) (cols x) ltac:(lia)). nia. }
  fold (elements x). rewrite usize_id by done.
  destruct (elements x >? _) eqn:E2; [done|]. zbool. pose proof (element_size_pos kind).
  assert (elements x * element_size kind <= SIZE_MAX target).
  { pose proof (Z.mul_div_le (SIZE_MAX target) (element_size kind) ltac:(lia)). nia. }
  case_if; [done|]. case_if; [done|]. intros Eq. injection Eq as <-.
  by split; [|split; [lia|]].
Qed.

Lemma storage_size x kind : storage_ok x kind ->
  usize target (elements x * element_size kind) = elements x * element_size kind.
Proof. intros [H1 H2]. apply usize_id. pose proof (element_size_pos kind). nia. Qed.

(** The bytes of a matrix's elements and of its descriptor. *)
Definition in_data kind (x : linears_matrix_t) (p : Z) : Prop := inside (data x) (elements x * element_size kind) p.
Definition in_descriptor (x : linears_matrix_t) (p : Z) : Prop := inside (at_ x) (sizeof_matrix target) p.

Lemma in_present xs x c : In (x, c) (present xs) <-> In (Some x, c) xs.
Proof.
  unfold present. rewrite <- !list_elem_of_In, list_elem_of_omap. split.
  - intros ([[y|] d] & Hin & E); cbn in E; [|done]. by injection E as -> ->.
  - intros Hin. by exists (Some x, c).
Qed.

(** The workspace of an accepted call: big enough and apart from every matrix. *)
Lemma scratch_spec workspace bytes a b out kind acount bcount :
  storage_ok out kind ->
  scratch_storage target workspace bytes (elements out) (Some a) acount b bcount (Some out) kind = LINEARS_OK ->
  0 < elements out ->
  forall x c, In (Some x, c) [(Some a, acount); (b, bcount); (Some out, elements out)] ->
  disjoint workspace (elements out * sizeof_workspace) (data x) (usize target (c * element_size kind)) /\
  disjoint workspace (elements out * sizeof_workspace) (at_ x) (sizeof_matrix target).
Proof.
  intros Hout H Hpos x c Hin%in_present. revert H. unfold scratch_storage.
  destruct (_ >? _) eqn:E1; [done|]. zbool.
  assert (usize target (elements out * sizeof_workspace) = elements out * sizeof_workspace) as ->.
  { apply usize_id. unfold sizeof_workspace in *.
    pose proof (Z.mul_div_le (SIZE_MAX target) 8 ltac:(lia)). lia. }
  destruct (_ =? 0) eqn:E2; [unfold sizeof_workspace in *; zbool; lia|].
  destruct (_ || _ || _) eqn:E3; [done|]. destruct (bytes >? _) eqn:E4; [done|].
  destruct (existsb _ _) eqn:E5; [done|]. intros _.
  apply orb_false_iff in E3 as [E3 _]. apply orb_false_iff in E3 as [_ E3]. zbool.
  assert (forall p, inside workspace (elements out * sizeof_workspace) p -> inside workspace bytes p) as Hsub
    by (unfold inside; lia).
  destruct (overlap workspace bytes (at_ x) (sizeof_matrix target)) eqn:O1;
    [|destruct (overlap workspace bytes (data x) (usize target (c * element_size kind))) eqn:O2].
  3: split; [apply overlap_disjoint in O2; by eapply disjoint_sub
            |apply overlap_disjoint in O1; by eapply disjoint_sub].
  all: exfalso; apply not_true_iff_false in E5; apply E5, existsb_exists; exists (x, c);
    (split; [done|]); cbn [fst snd]; rewrite ?O1, ?O2; by rewrite ?orb_true_r.
Qed.

Lemma scratch_bytes workspace bytes a b out kind acount bcount :
  storage_ok out kind ->
  scratch_storage target workspace bytes (elements out) (Some a) acount b bcount (Some out) kind = LINEARS_OK ->
  0 < elements out -> elements out * sizeof_workspace <= bytes.
Proof.
  intros Hout H Hpos. revert H. unfold scratch_storage. destruct (_ >? _) eqn:E1; [done|]. zbool.
  assert (usize target (elements out * sizeof_workspace) = elements out * sizeof_workspace) as ->.
  { apply usize_id. unfold sizeof_workspace in *. pose proof (Z.mul_div_le (SIZE_MAX target) 8 ltac:(lia)). lia. }
  destruct (_ =? 0) eqn:E2; [unfold sizeof_workspace in *; zbool; lia|]. destruct (_ || _ || _) eqn:E3; [done|]. intros _.
  apply orb_false_iff in E3 as [E3 _]. apply orb_false_iff in E3 as [_ E3]. zbool. lia.
Qed.

(** The descriptors lie apart from the element buffers. *)
Lemma aliases_spec oa ob oo acount bcount outcount kind :
  matrix_aliases target oa acount ob bcount oo outcount kind = LINEARS_OK ->
  forall x c y d, In (Some x, c) [(oa, acount); (ob, bcount); (oo, outcount)] ->
    In (Some y, d) [(oa, acount); (ob, bcount); (oo, outcount)] ->
    disjoint (at_ x) (sizeof_matrix target) (data y) (usize target (d * element_size kind)).
Proof.
  intros H x c y d Hx%in_present Hy%in_present. revert H. unfold matrix_aliases.
  destruct (existsb _ _) eqn:E; [done|]. intros _. apply overlap_disjoint.
  apply not_true_iff_false. intros Ho. apply not_true_iff_false in E. apply E.
  apply existsb_exists. exists (x, c). split; [done|]. apply existsb_exists. exists (y, d).
  split; [done|]. unfold descriptor_conflict. cbn [fst snd]. by rewrite Ho.
Qed.

(** ** Elements read only the matrices *)

(** Same bit patterns in both stores. *)
Definition same_elements kind (x : linears_matrix_t) m m' : Prop :=
  forall i, 0 <= i < elements x -> raw_bits kind (data x) i m' = raw_bits kind (data x) i m.

Lemma cell_index row col nrows ncols : 0 <= row < nrows -> 0 <= col < ncols ->
  nrows * ncols <= SIZE_MAX target ->
  usize target (usize target (row * ncols) + col) = row * ncols + col /\
  0 <= row * ncols + col < nrows * ncols.
Proof.
  intros Hr Hc Hs. assert (0 <= row * ncols /\ row * ncols + col < nrows * ncols) as [? ?] by nia.
  rewrite (usize_id (row * ncols)), usize_id by lia. lia.
Qed.

(** Row-major indices determine their cell. *)
Lemma index_inj r c row col ncols : 0 <= c < ncols -> 0 <= col < ncols ->
  r * ncols + c = row * ncols + col -> r = row /\ c = col.
Proof.
  intros Hc Hcol E. assert (r = row) as ->; [|lia].
  rewrite <- (Z.add_0_r r), <- (Z.add_0_r row), <- (Z.div_small c ncols), <- (Z.div_small col ncols) at 1 by lia.
  rewrite <- !Z.div_add_l by lia. by rewrite E.
Qed.

(** The shape conditions, as propositions. *)
Lemma shapes_spec op a b out : shapes_agree op a b out = true ->
  match op with
  | MUL | MATVEC => exists b', b = Some b' /\ cols a = rows b' /\ rows out = rows a /\ cols out = cols b'
  | TRANSPOSE => rows out = cols a /\ cols out = rows a
  | _ => rows out = rows a /\ cols out = cols a /\
         (forall b', b = Some b' -> rows b' = rows a /\ cols b' = cols a)
  end.
Proof.
  unfold shapes_agree.
  destruct op, b as [b'|]; cbn [optional]; intros H; zbool; try done; try (eexists; by repeat split);
    repeat (split; [done|]); intros ? [= <-]; done.
Qed.

Lemma dot_raw_ext kind (f g f' g' : nat -> Z) count :
  (forall i, (i < Z.to_nat count)%nat -> f i = f' i /\ g i = g' i) ->
  dot_raw_ target kind f g count = dot_raw_ target kind f' g' count.
Proof.
  intros H. unfold dot_raw_.
  rewrite (for_up_ext 0 (Z.to_nat count) (fun i sum => ln_add_product64 sum (i64 (f i * g i)))
    (fun i sum => ln_add_product64 sum (i64 (f' i * g' i)))).
  2: { intros i s [_ Hi]. by destruct (H i Hi) as [-> ->]. }
  destruct kind; try done. destruct (_ || _); [|done]. f_equal. apply for_up_ext.
  intros i s [_ Hi]. by destruct (H i Hi) as [-> ->].
Qed.

(** A cell of the output of operands whose checks passed. *)
Record cell_ok (op : matrix_op) kind a (b : option linears_matrix_t) out (row col : Z) : Prop := {
  ce_shapes : shapes_agree op a b out = true;
  ce_row : 0 <= row < rows out;
  ce_col : 0 <= col < cols out;
  ce_a : storage_ok a kind;
  ce_b : forall b', b = Some b' -> storage_ok b' kind;
  ce_out : storage_ok out kind;
}.

(** The index of the output element. *)
Lemma out_index op kind a b out row col : cell_ok op kind a b out row col ->
  usize target (usize target (row * cols out) + col) = row * cols out + col /\
  0 <= row * cols out + col < elements out.
Proof. intros []. apply cell_index; [done|done|by apply (storage_count out kind)]. Qed.

(** The other indices the kernels use stay inside their matrix. *)
Lemma transpose_index kind a b out row col : cell_ok TRANSPOSE kind a b out row col ->
  usize target (usize target (col * cols a) + row) = col * cols a + row /\
  0 <= col * cols a + row < elements a.
Proof.
  intros [Hs ? ? Ha _ _]. destruct (shapes_spec _ _ _ _ Hs) as [H1 H2].
  apply cell_index; [lia|lia|apply (storage_count a kind Ha)].
Qed.

Lemma product_index op kind a b' out row col k : op = MUL \/ op = MATVEC ->
  cell_ok op kind a (Some b') out row col -> (k < Z.to_nat (cols a))%nat ->
  (usize target (usize target (row * cols a) + Z.of_nat k) = row * cols a + Z.of_nat k /\
   0 <= row * cols a + Z.of_nat k < elements a) /\
  (usize target (usize target (Z.of_nat k * cols b') + col) = Z.of_nat k * cols b' + col /\
   0 <= Z.of_nat k * cols b' + col < elements b').
Proof.
  intros Hop [Hs ? ? Ha Hb _] Hk.
  assert (exists b'', Some b' = Some b'' /\ cols a = rows b'' /\ rows out = rows a /\ cols out = cols b'')
    as (b'' & [= <-] & H1 & H2 & H3) by (pose proof (shapes_spec _ _ _ _ Hs); by destruct Hop as [-> | ->]).
  split; apply cell_index; try lia.
  - apply (storage_count a kind Ha).
  - apply (storage_count b' kind (Hb _ eq_refl)).
Qed.

Lemma strided_index op kind a b' out row col k : op = MUL \/ op = MATVEC ->
  cell_ok op kind a (Some b') out row col -> (k < Z.to_nat (cols a))%nat ->
  usize target (usize target (row * cols a) + usize target (Z.of_nat k * 1)) = row * cols a + Z.of_nat k /\
  usize target (col + usize target (Z.of_nat k * cols b')) = Z.of_nat k * cols b' + col.
Proof.
  intros Hop Hc Hk. destruct (product_index _ _ _ _ _ _ _ _ Hop Hc Hk) as [[E1 H1] [E2 H2]].
  pose proof (storage_count a kind (ce_a _ _ _ _ _ _ _ Hc)). rewrite (Z.add_comm col), E2. split; [|done].
  rewrite Z.mul_1_r, (usize_id (Z.of_nat k)); [done|].
  destruct Hc as [Hs [? ?] _ _ _ _].
  assert (0 < rows a) by (pose proof (shapes_spec _ _ _ _ Hs) as Hsh;
    destruct Hop as [-> | ->]; destruct Hsh as (? & _ & _ & E & _); lia).
  unfold elements in *. nia.
Qed.

Definition pointwise (op : matrix_op) : bool :=
  match op with ADD | SUB | HADAMARD | AXPBY | SCALE => true | _ => false end.

Lemma pointwise_index op kind a b out row col : pointwise op = true ->
  cell_ok op kind a b out row col ->
  (0 <= row * cols out + col < elements a) /\
  (forall b', b = Some b' -> 0 <= row * cols out + col < elements b').
Proof.
  intros Hop Hc. destruct (out_index _ _ _ _ _ _ _ Hc) as [_ Hi]. unfold elements in *.
  pose proof (shapes_spec _ _ _ _ (ce_shapes _ _ _ _ _ _ _ Hc)) as Hs.
  destruct op; try done; destruct Hs as (E1 & E2 & E3); rewrite E1, E2 in *;
    (split; [done|]); intros b' Eb; by destruct (E3 b' Eb) as [-> ->].
Qed.

Section Reads.
Variables (kind : numeric_kind) (a out : linears_matrix_t) (b : option linears_matrix_t).
Variables (row col : Z) (m m' : mem).
Hypothesis Hsa : same_elements kind a m m'.
Hypothesis Hsb : forall b', b = Some b' -> same_elements kind b' m m'.

Lemma read_b {A} (zero : A) (get : Z -> A) i : (forall b', b = Some b' -> 0 <= i < elements b') ->
  optional b zero (fun b' => get (raw_bits kind (data b') i m'))
  = optional b zero (fun b' => get (raw_bits kind (data b') i m)).
Proof. intros Hi. destruct b as [b'|]; cbn; [|done]. by rewrite Hsb by auto. Qed.

Lemma q_dot_ext op b' : op = MUL \/ op = MATVEC -> b = Some b' -> cell_ok op kind a b out row col ->
  dot_raw_ target kind (strided target kind (data a) (usize target (row * cols a)) 1 m')
    (strided target kind (data b') col (cols b') m') (cols a)
  = dot_raw_ target kind (strided target kind (data a) (usize target (row * cols a)) 1 m)
    (strided target kind (data b') col (cols b') m) (cols a).
Proof.
  intros Hop Eb Hc. rewrite Eb in Hc. apply dot_raw_ext. intros i Hi.
  destruct (strided_index _ _ _ _ _ _ _ i Hop Hc Hi) as [E1 E2].
  destruct (product_index _ _ _ _ _ _ _ i Hop Hc Hi) as [[_ H1] [_ H2]].
  unfold strided, raw_int. rewrite E1, E2, (Hsa _ H1). by rewrite (Hsb b').
Qed.

(** The terms of a product loop. *)
Lemma product_terms {A} (get : Z -> A) (zero : A) op k : op = MUL \/ op = MATVEC ->
  cell_ok op kind a b out row col -> (k < Z.to_nat (cols a))%nat -> b <> None ->
  get (raw_bits kind (data a) (usize target (usize target (row * cols a) + Z.of_nat k)) m')
    = get (raw_bits kind (data a) (usize target (usize target (row * cols a) + Z.of_nat k)) m) /\
  (let i := usize target (usize target (Z.of_nat k * optional b 0 cols) + col) in
   optional b zero (fun b' => get (raw_bits kind (data b') i m'))
   = optional b zero (fun b' => get (raw_bits kind (data b') i m))).
Proof.
  intros Hop Hc Hk Hb. destruct b as [b'|]; [|done]. cbn [optional] in *.
  destruct (product_index _ _ _ _ _ _ _ k Hop Hc Hk) as [[-> H1] [-> H2]].
  by rewrite (Hsa _ H1), (Hsb b' eq_refl _ H2).
Qed.
End Reads.

(** The entry points of linears_work.h cover five operations. *)
Definition supported (op : matrix_op) kind : bool :=
  match kind, op with
  | WORK, (HADAMARD | MATVEC | SCALE) => false
  | _, _ => true
  end.

Section ElementExt.
Variables (kind : numeric_kind) (a out : linears_matrix_t) (b : option linears_matrix_t).
Variables (row col : Z) (m m' : mem) (op : matrix_op).
Hypothesis Hsa : same_elements kind a m m'.
Hypothesis Hsb : forall b', b = Some b' -> same_elements kind b' m m'.
Hypothesis Hc : cell_ok op kind a b out row col.

Lemma pointwise_terms {A} (get : Z -> A) (zero : A) : pointwise op = true ->
  let i := usize target (usize target (row * cols out) + col) in
  get (raw_bits kind (data a) i m') = get (raw_bits kind (data a) i m) /\
  optional b zero (fun b' => get (raw_bits kind (data b') i m'))
  = optional b zero (fun b' => get (raw_bits kind (data b') i m)).
Proof.
  intros Hp. cbv zeta. destruct (out_index _ _ _ _ _ _ _ Hc) as [-> _].
  destruct (pointwise_index _ _ _ _ _ _ _ Hp Hc) as [Hia Hib].
  split; [by rewrite (Hsa _ Hia)|by apply read_b].
Qed.

Lemma transpose_term : op = TRANSPOSE ->
  let i := usize target (usize target (col * cols a) + row) in
  raw_bits kind (data a) i m' = raw_bits kind (data a) i m.
Proof. intros E. rewrite E in Hc. cbv zeta. destruct (transpose_index _ _ _ _ _ _ Hc) as [-> Hi]. by apply Hsa. Qed.

(** Products have a second operand. *)
Lemma product_operand : op = MUL \/ op = MATVEC -> b <> None.
Proof.
  intros Hop. pose proof (shapes_spec _ _ _ _ (ce_shapes _ _ _ _ _ _ _ Hc)) as Hs.
  destruct Hop as [E|E]; rewrite E in Hs; destruct Hs as (b' & -> & _); done.
Qed.

Lemma q_element_ext alpha beta :
  q_element target kind op a b (cols out) alpha beta row col m'
  = q_element target kind op a b (cols out) alpha beta row col m.
Proof.
  assert (op = MUL \/ op = MATVEC -> q_sum target kind op a b (cols out) alpha beta row col m'
    = q_sum target kind op a b (cols out) alpha beta row col m) as Hprod.
  { intros Hop. pose proof (product_operand Hop) as Hb.
    assert (exists b', b = Some b') as [b' Eb] by (destruct b; [eauto|done]).
    pose proof (q_dot_ext kind a out b row col m m' Hsa Hsb op b' Hop Eb Hc) as E.
    unfold q_sum. rewrite Eb. cbn [optional].
    destruct Hop as [-> | ->]; (destruct (cols a =? 0); [done|exact E]). }
  pose proof (pointwise_terms (signed_bits kind) 0) as Hpoint.
  pose proof transpose_term as Htr.
  unfold q_element. destruct op; try (rewrite Hprod by auto; done);
    try (destruct (Hpoint eq_refl) as [E1 E2]; unfold q_sum, raw_int; by rewrite E1, ?E2).
  unfold raw_int. by rewrite Htr.
Qed.

Lemma work_element_ext alpha beta : kind = WORK -> supported op WORK = true ->
  work_element target op a b (cols out) alpha beta row col m'
  = work_element target op a b (cols out) alpha beta row col m.
Proof.
  intros Ek Hop. pose proof (pointwise_terms (signed_bits WORK) 0) as Hpoint.
  pose proof transpose_term as Htr.
  pose proof (product_terms kind a out b row col m m' Hsa Hsb (signed_bits WORK) 0 op) as Hterm.
  pose proof product_operand as Hb.
  rewrite Ek in Hpoint, Htr, Hterm, Hc. unfold work_element.
  destruct op; try done;
    try (destruct (Hpoint eq_refl) as [E1 E2]; unfold raw_int; by rewrite E1, ?E2).
  - erewrite for_status_ext; [done|]. intros k s [_ Hk]. cbv beta.
    destruct (Hterm k (or_introl eq_refl) Hc Hk) as [E1 E2]; [by auto|].
    unfold raw_int. cbv zeta in E2. by rewrite E1, E2.
  - unfold raw_int. by rewrite Htr.
Qed.

Lemma float_element_ext alpha beta :
  float_element target kind op a b (cols out) alpha beta row col m'
  = float_element target kind op a b (cols out) alpha beta row col m.
Proof.
  pose proof (pointwise_terms (float_of_bits (kind_format kind)) fzero) as Hpoint.
  pose proof transpose_term as Htr.
  pose proof (product_terms kind a out b row col m m' Hsa Hsb (float_of_bits (kind_format kind)) fzero op) as Hterm.
  pose proof product_operand as Hb. unfold float_element, raw_float in *.
  destruct op eqn:Eop; try (destruct (Hpoint eq_refl) as [E1 E2]; by rewrite E1, ?E2).
  1,2: erewrite for_status_ext; [done|]; intros k s [_ Hk]; cbv beta;
    destruct (Hterm k ltac:(auto) Hc Hk) as [E1 E2]; [by auto|];
    cbv zeta in E2; by rewrite E1, E2.
  by rewrite Htr.
Qed.

(** An element depends on the elements of the operands alone. *)
Lemma element_ext alpha beta : supported op kind = true ->
  element target op kind a b (cols out) alpha beta row col m'
  = element target op kind a b (cols out) alpha beta row col m.
Proof.
  intros Hs. pose proof (float_element_ext (floating alpha) (floating beta)) as Hf.
  pose proof (q_element_ext (fixed alpha) (fixed beta)) as Hq.
  pose proof (work_element_ext (fixed alpha) (fixed beta)) as Hw.
  unfold element. destruct kind; auto.
Qed.
End ElementExt.

(** ** Staging *)

Section Evaluate.
Variables (op : matrix_op) (kind : numeric_kind) (a out : linears_matrix_t) (b : option linears_matrix_t).
Variables (alpha beta : scalar) (workspace : Z) (m : mem).
Let n := elements out.
Let size := n * sizeof_workspace.
Let modulus := 256 ^ Z.of_nat (element_width kind).

(** The element of a cell, from the memory at the call. *)
Definition cell (row col : Z) : linears_status_t * Z :=
  element target op kind a b (cols out) alpha beta row col m.

Hypothesis Hsupported : supported op kind = true.
Hypothesis Hcell : forall row col, 0 <= row < rows out -> 0 <= col < cols out ->
  cell_ok op kind a b out row col.
Hypothesis Ha : disjoint workspace size (data a) (elements a * element_size kind).
Hypothesis Hb : forall b', b = Some b' -> disjoint workspace size (data b') (elements b' * element_size kind).

Lemma same_elements_outside x m' : disjoint workspace size (data x) (elements x * element_size kind) ->
  same_outside workspace size m m' -> same_elements kind x m m'.
Proof.
  intros Hd Hs i Hi. unfold raw_bits. apply (load_same_outside _ _ workspace size); [|done].
  apply disjoint_sym. eapply disjoint_sub; [exact Hd|done|]. intros p. unfold inside, element_size. nia.
Qed.

(** Every cell before [k] is staged and nothing but the workspace was written. *)
Definition staged (k : Z) (m' : mem) : Prop :=
  same_outside workspace size m m' /\
  forall row col, 0 <= row -> 0 <= col < cols out -> row * cols out + col < k ->
    (cell row col).1 = LINEARS_OK /\
    unit_bits kind workspace (row * cols out + col) m' = (cell row col).2 mod modulus.

Lemma unit_sub i p : 0 <= i < n ->
  inside (workspace + i * sizeof_workspace) (Z.of_nat (element_width kind)) p -> inside workspace size p.
Proof.
  intros Hi. pose proof (element_size_pos kind). unfold element_size in *.
  unfold inside, size, sizeof_workspace. lia.
Qed.

Lemma stage_cell row col m' : 0 <= row < rows out -> 0 <= col < cols out ->
  staged (row * cols out + col) m' -> (cell row col).1 = LINEARS_OK ->
  staged (row * cols out + col + 1)
    (set_unit kind workspace (usize target (usize target (row * cols out) + col)) (cell row col).2 m').
Proof.
  intros Hr Hc [Hs Hold] Hok. destruct (out_index _ _ _ _ _ _ _ (Hcell row col Hr Hc)) as [-> Hi].
  pose proof (element_size_pos kind) as Hw. unfold element_size in Hw. split.
  - eapply same_outside_trans; [exact Hs|]. eapply same_outside_sub; [|apply store_same_outside].
    intros p. by apply unit_sub.
  - intros r c Hr' Hc' Hlt. destruct (Z.eq_dec (r * cols out + c) (row * cols out + col)) as [E|Hne].
    + destruct (index_inj r c row col (cols out) Hc' Hc E) as [-> ->]. split; [done|]. apply load_store_same.
    + destruct (Hold r c Hr' Hc' ltac:(lia)) as [H1 H2]. split; [done|]. rewrite <- H2.
      unfold unit_bits, set_unit. apply load_store_disjoint. unfold disjoint, inside, sizeof_workspace. intros p.
      set (i := r * cols out + c) in *. set (j := row * cols out + col) in *. lia.
Qed.

Definition failed (s : linears_status_t) (m' : mem) : Prop :=
  same_outside workspace size m m' /\
  exists row col, 0 <= row < rows out /\ 0 <= col < cols out /\ (cell row col).1 = s.

Lemma evaluate_cell row col m' : 0 <= row < rows out -> 0 <= col < cols out ->
  staged (row * cols out + col) m' ->
  element target op kind a b (cols out) alpha beta row col m' = cell row col.
Proof.
  intros Hr Hc [Hs _]. apply element_ext; auto using same_elements_outside.
Qed.

Lemma evaluate_row_spec row m' : 0 <= Z.of_nat row < rows out -> 0 <= cols out ->
  staged (Z.of_nat row * cols out) m' ->
  let r := evaluate_row target op kind a b out alpha beta workspace row m' in
  (r.1 = LINEARS_OK /\ staged (Z.of_nat (S row) * cols out) r.2) \/
  (r.1 <> LINEARS_OK /\ failed r.1 r.2).
Proof.
  intros Hr Hc Hst. unfold evaluate_row.
  pose proof (for_status_rule (fun col m =>
      let r := element target op kind a b (cols out) alpha beta (Z.of_nat row) (Z.of_nat col) m in
      if status_ok r.1
      then (LINEARS_OK, set_unit kind workspace
              (usize target (usize target (Z.of_nat row * cols out) + Z.of_nat col)) r.2 m)
      else (r.1, m))
    (fun k => staged (Z.of_nat row * cols out + Z.of_nat k)) failed (Z.to_nat (cols out))) as Hrule.
  cbv zeta in Hrule |- *. destruct (Hrule) with (n := Z.to_nat (cols out)) (from := O) (s := m') as [[E H]|[E H]].
  - intros k m1 Hk H1. rewrite (evaluate_cell _ _ m1) by (done || lia).
    destruct (status_ok _) eqn:Es; cbn [fst snd].
    + left. split; [done|]. apply status_ok_true in Es.
      replace (Z.of_nat row * cols out + Z.of_nat (S k)) with (Z.of_nat row * cols out + Z.of_nat k + 1) by lia.
      apply stage_cell; [lia|lia|done|done].
    + right. split; [by intros E; rewrite E in Es|]. split; [apply H1|].
      exists (Z.of_nat row), (Z.of_nat k). repeat split; lia.
  - lia.
  - by rewrite Z.add_0_r.
  - left. split; [done|]. by replace (Z.of_nat (S row) * cols out)
      with (Z.of_nat row * cols out + Z.of_nat (Z.to_nat (cols out))) by lia.
  - by right.
Qed.

Lemma evaluate_spec : 0 <= rows out -> 0 <= cols out ->
  let r := evaluate target op kind a b out alpha beta workspace m in
  (r.1 = LINEARS_OK /\ staged n r.2) \/ (r.1 <> LINEARS_OK /\ failed r.1 r.2).
Proof.
  intros Hr Hc. unfold evaluate.
  pose proof (for_status_rule (evaluate_row target op kind a b out alpha beta workspace)
    (fun k => staged (Z.of_nat k * cols out)) failed (Z.to_nat (rows out))) as Hrule.
  cbv zeta in Hrule |- *. destruct (Hrule) with (n := Z.to_nat (rows out)) (from := O) (s := m) as [[E H]|[E H]].
  - intros k m1 Hk H1. apply evaluate_row_spec; [lia|done|done].
  - lia.
  - split; [done|]. intros row col H1 H2 H3. nia.
  - left. split; [done|]. by rewrite Z2Nat.id in H by lia.
  - by right.
Qed.
End Evaluate.

(** ** Commit *)

Lemma commit_spec kind out workspace m : storage_ok out kind ->
  disjoint workspace (elements out * sizeof_workspace) (data out) (elements out * element_size kind) ->
  let m' := commit_result out (elements out) workspace kind m in
  same_outside (data out) (elements out * element_size kind) m m' /\
  forall i, 0 <= i < elements out ->
    raw_bits kind (data out) i m' = unit_bits kind workspace i m mod 256 ^ Z.of_nat (element_width kind).
Proof.
  intros [Hn _] Hd. pose proof (element_size_pos kind) as Hw.
  pose proof (for_up_rule (fun i m =>
      set_raw kind (data out) (Z.of_nat i) (unit_bits kind workspace (Z.of_nat i) m) m)
    (fun k m' => same_outside (data out) (elements out * element_size kind) m m' /\
      forall i, 0 <= i < Z.of_nat k ->
        raw_bits kind (data out) i m' = unit_bits kind workspace i m mod 256 ^ Z.of_nat (element_width kind))
    (Z.to_nat (elements out))) as Hrule. cbv zeta.
  destruct (Hrule) with (n := Z.to_nat (elements out)) (from := O) (s := m) as [H1 H2].
  - intros k m' Hk [Hs Hold].
    assert (unit_bits kind workspace (Z.of_nat k) m' = unit_bits kind workspace (Z.of_nat k) m) as ->.
    { apply (load_same_outside _ _ (data out) (elements out * element_size kind)); [|done].
      eapply disjoint_sub; [exact Hd| |done]. intros p.
      unfold inside, sizeof_workspace, element_size in *. lia. }
    split.
    + eapply same_outside_trans; [exact Hs|]. eapply same_outside_sub; [|apply store_same_outside].
      intros p. unfold inside, element_size in *. nia.
    + intros i Hi. destruct (Z.eq_dec i (Z.of_nat k)) as [->|Hne]; [apply load_store_same|].
      rewrite <- Hold by lia. apply load_store_disjoint.
      unfold disjoint, inside. intros p. fold (element_size kind). nia.
  - lia.
  - split; [done|]. intros i. lia.
  - split; [exact H1|]. intros i Hi. apply H2. lia.
Qed.

(** ** The elementwise operations *)

Definition operand_wf (x : option linears_matrix_t) : Prop :=
  match x with Some x => matrix_wf x | None => True end.

(** The addresses an operation must not change whatever happens: the descriptors. *)
Definition in_descriptors a (b : option linears_matrix_t) out (p : Z) : Prop :=
  in_descriptor a p \/ in_descriptor out p \/ (exists b', b = Some b' /\ in_descriptor b' p).

(** On failure the elements as well. *)
Definition in_operands kind a (b : option linears_matrix_t) out (p : Z) : Prop :=
  in_descriptors a b out p \/ in_data kind a p \/ in_data kind out p \/
  (exists b', b = Some b' /\ in_data kind b' p).

(** The checks report RANGE for native operands only. *)
Lemma checks_not_range kind :
  (forall x old, (matrix_storage target x kind old).1 <> LINEARS_ERROR_RANGE) /\
  (forall workspace bytes count oa ac ob bc oo,
     scratch_storage target workspace bytes count oa ac ob bc oo kind <> LINEARS_ERROR_RANGE) /\
  (forall a count m, input_values a count kind m = LINEARS_ERROR_RANGE -> kind = F32 \/ kind = F64).
Proof.
  split; [|split].
  - intros [x|] old; unfold matrix_storage; [|done]. cbv zeta. by repeat case_if.
  - intros. unfold scratch_storage. cbv zeta. by repeat case_if.
  - intros a count m. destruct kind; cbn; auto; done.
Qed.

Lemma matrix_compute_cases op kind a b out alpha beta workspace bytes m st m' :
  matrix_wf a -> operand_wf b -> matrix_wf out -> supported op kind = true ->
  matrix_compute target op kind (Some a) b (Some out) alpha beta workspace bytes m = (st, m') ->
  (st <> LINEARS_OK /\ m' = m /\ (st = LINEARS_ERROR_RANGE -> kind = F32 \/ kind = F64)) \/
  (storage_ok a kind /\ storage_ok out kind /\ (forall b', b = Some b' -> storage_ok b' kind) /\
   shapes_agree op a b out = true /\
   exists acount bcount outcount, acount = elements a /\ outcount = elements out /\
   (forall b', b = Some b' -> bcount = elements b') /\
   matrix_aliases target (Some a) acount b bcount (Some out) outcount kind = LINEARS_OK /\
   scratch_storage target workspace bytes (elements out) (Some a) acount b bcount (Some out) kind = LINEARS_OK /\
   ((elements out = 0 /\ st = LINEARS_OK /\ m' = m) \/
    (0 < elements out /\
     let r := evaluate target op kind a b out alpha beta workspace m in
     (r.1 = LINEARS_OK /\ st = LINEARS_OK /\ m' = commit_result out (elements out) workspace kind r.2) \/
     (r.1 <> LINEARS_OK /\ st = r.1 /\ m' = r.2)))).
Proof.
  intros Ha Hb Hout Hsup. unfold matrix_compute, require.
  destruct (checks_not_range kind) as (Hr1 & Hr2 & Hr3).
  pose proof (Hr1 (Some a) 0) as Hra. pose proof (Hr1 (Some out) 0) as Hro.
  assert ((match b with Some _ => matrix_storage target b kind 0 | None => (LINEARS_OK, 0) end).1
    <> LINEARS_ERROR_RANGE) as Hrb by (destruct b; auto; done).
  destruct (matrix_storage target (Some a) kind 0) as [sa ca] eqn:Ea.
  destruct (matrix_storage target (Some out) kind 0) as [so co] eqn:Eo.
  destruct (match b with Some _ => matrix_storage target b kind 0 | None => (LINEARS_OK, 0) end)
    as [sb cb] eqn:Eb. cbn [fst snd] in *.
  destruct (status_ok sa) eqn:Ka; [|intros E; injection E as <- <-; left; by split; [intros ->|split]].
  destruct (status_ok sb) eqn:Kb; [|intros E; injection E as <- <-; left; by split; [intros ->|split]].
  destruct (status_ok so) eqn:Ko; [|intros E; injection E as <- <-; left; by split; [intros ->|split]].
  apply status_ok_true in Ka, Kb, Ko. subst sa sb so.
  apply matrix_storage_spec in Ea as [-> Sa], Eo as [-> So]; try done.
  assert (forall b', b = Some b' -> cb = elements b' /\ storage_ok b' kind) as Sb.
  { intros b' ->. by apply matrix_storage_spec in Eb. }
  destruct (binary op && _); [intros E; injection E as <- <-; by left|].
  destruct (shapes_agree op a b out) eqn:Es; cbn [negb]; [|intros E; injection E as <- <-; by left].
  destruct (matrix_aliases _ _ _ _ _ _ _ _) eqn:Eal; cbn [status_ok];
    try (intros E; injection E as <- <-; by left).
  all: try (unfold matrix_aliases in Eal; cbv zeta in Eal; by destruct (existsb _ _)).
  destruct (scratch_storage _ _ _ _ _ _ _ _ _ _) eqn:Esc; cbn [status_ok];
    try (intros E; injection E as <- <-; by left).
  all: try (by apply Hr2 in Esc).
  destruct (status_ok (input_values a _ _ _)) eqn:K1;
    [|intros E; injection E as <- <-; left; split; [intros Ei; by rewrite Ei in K1|split; [done|apply Hr3]]].
  destruct (status_ok (optional b _ _)) eqn:K2;
    [|intros E; injection E as <- <-; left; split; [intros Ei; by rewrite Ei in K2|split; [done|]];
      destruct b; [apply Hr3|done]].
  intros E. right. split; [done|]. split; [done|]. split; [intros b' Hb'; by apply Sb|]. split; [done|].
  exists (elements a), cb, (elements out). split; [done|]. split; [done|].
  split; [intros b' Hb'; by apply Sb|]. split; [done|]. split; [done|].
  destruct (Z.eqb_spec (elements out) 0) as [E0|E0]; [left; injection E as <- <-; done|].
  right. pose proof (st_count out kind So). split; [lia|]. revert E.
  destruct (evaluate _ _ _ _ _ _ _ _ _ _) as [s1 m1]. cbn [fst snd].
  destruct (status_ok s1) eqn:K3; intros E; injection E as <- <-.
  - left. by apply status_ok_true in K3.
  - right. split; [by intros ->|done].
Qed.

Lemma inside_self p n : inside p n p -> 0 < n.
Proof. unfold inside. lia. Qed.

(** The facts about an accepted call that evaluation and commit rely on. *)
Lemma accepted_disjoint kind a b out workspace bytes acount bcount outcount :
  storage_ok a kind -> storage_ok out kind -> (forall b', b = Some b' -> storage_ok b' kind) ->
  acount = elements a -> outcount = elements out -> (forall b', b = Some b' -> bcount = elements b') ->
  matrix_aliases target (Some a) acount b bcount (Some out) outcount kind = LINEARS_OK ->
  scratch_storage target workspace bytes (elements out) (Some a) acount b bcount (Some out) kind = LINEARS_OK ->
  0 < elements out ->
  (forall p, inside workspace (elements out * sizeof_workspace) p -> ~ in_operands kind a b out p) /\
  (forall p, in_data kind out p -> ~ in_descriptors a b out p).
Proof.
  intros Sa So Sb -> -> Hb Hal Hsc Hpos.
  pose proof (scratch_spec _ _ _ _ _ _ _ _ So Hsc Hpos) as Hw.
  pose proof (aliases_spec _ _ _ _ _ _ _ Hal) as Hd.
  assert (forall x c, In (Some x, c) [(Some a, elements a); (b, bcount); (Some out, elements out)] ->
    usize target (c * element_size kind) = elements x * element_size kind) as Hsz.
  { intros x c [E|[E|[E|[]]]]; injection E; intros; subst; rewrite ?(Hb _ eq_refl); apply storage_size; auto. }
  assert (In (Some a, elements a) [(Some a, elements a); (b, bcount); (Some out, elements out)]) as Ia
    by (left; done).
  assert (In (Some out, elements out) [(Some a, elements a); (b, bcount); (Some out, elements out)]) as Io
    by (right; right; left; done).
  assert (forall b', b = Some b' -> In (Some b', bcount) [(Some a, elements a); (b, bcount); (Some out, elements out)]) as Ib
    by (intros b' ->; right; left; done).
  split.
  - intros p Hp. unfold in_operands, in_descriptors, in_descriptor, in_data.
    intros [[Hi|[Hi|(b' & Eb & Hi)]]|[Hi|[Hi|(b' & Eb & Hi)]]].
    1: by apply (proj2 (Hw _ _ Ia) p). 1: by apply (proj2 (Hw _ _ Io) p).
    1: by apply (proj2 (Hw _ _ (Ib _ Eb)) p).
    + rewrite <- (Hsz _ _ Ia) in Hi. by apply (proj1 (Hw _ _ Ia) p).
    + rewrite <- (Hsz _ _ Io) in Hi. by apply (proj1 (Hw _ _ Io) p).
    + rewrite <- (Hsz _ _ (Ib _ Eb)) in Hi. by apply (proj1 (Hw _ _ (Ib _ Eb)) p).
  - intros p Hp. unfold in_data in Hp. rewrite <- (Hsz _ _ Io) in Hp.
    intros [Hi|[Hi|(b' & Eb & Hi)]].
    + by apply (Hd _ _ _ _ Ia Io p). + by apply (Hd _ _ _ _ Io Io p). + by apply (Hd _ _ _ _ (Ib _ Eb) Io p).
Qed.

(** An elementwise operation of any kind: when it fails, the elements and the descriptors of all the operands are as before; when it
    succeeds, every output cell holds its element computed from the memory as it was at the call,
    and besides the output elements only the workspace was written. *)
Lemma matrix_compute_effect op kind a b out alpha beta workspace bytes m st m' :
  matrix_wf a -> operand_wf b -> matrix_wf out -> supported op kind = true ->
  matrix_compute target op kind (Some a) b (Some out) alpha beta workspace bytes m = (st, m') ->
  (forall p, in_descriptors a b out p -> m' p = m p) /\
  (st <> LINEARS_OK -> forall p, in_operands kind a b out p -> m' p = m p) /\
  (st = LINEARS_OK ->
    (forall p, ~ in_data kind out p -> ~ inside workspace (elements out * sizeof_workspace) p -> m' p = m p) /\
    (forall row col, 0 <= row < rows out -> 0 <= col < cols out ->
      let r := element target op kind a b (cols out) alpha beta row col m in
      r.1 = LINEARS_OK /\
      raw_bits kind (data out) (row * cols out + col) m' = r.2 mod 256 ^ Z.of_nat (element_width kind))).
Proof.
  intros Ha Hb Hout Hsup E.
  destruct (matrix_compute_cases _ _ _ _ _ _ _ _ _ _ _ _ Ha Hb Hout Hsup E)
    as [(Hst & -> & _)|(Sa & So & Sb & Hs & ac & bc & oc & Hac & Hoc & Hbc & Hal & Hsc & Hrest)]; [done|].
  destruct Hrest as [(E0 & -> & ->)|[Hpos Hrest]].
  { split; [done|]. split; [done|]. intros _. split; [done|]. unfold elements in E0. intros. nia. }
  destruct (accepted_disjoint _ _ _ _ _ _ _ _ _ Sa So Sb Hac Hoc Hbc Hal Hsc Hpos) as [Hdis Hdesc].
  assert (forall x, (forall p, in_data kind x p -> in_operands kind a b out p) ->
    disjoint workspace (elements out * sizeof_workspace) (data x) (elements x * element_size kind)) as Hdd.
  { intros x Hx p Hp Hq. apply (Hdis p Hp), Hx, Hq. }
  destruct Hout as [[? ?] [? ?] ?].
  assert (forall row col, 0 <= row < rows out -> 0 <= col < cols out -> cell_ok op kind a b out row col) as Hcell
    by (intros; by split).
  pose proof (evaluate_spec op kind a out b alpha beta workspace m Hsup Hcell) as Hev. cbv zeta in Hev.
  destruct Hev as [[E1 [Hso Hcells]]|[E1 [Hso _]]]; [apply Hdd; unfold in_operands; auto
    |intros b' Eb; apply Hdd; unfold in_operands; eauto 6|done|done| |].
  - destruct Hrest as [(_ & -> & ->)|[? _]]; [|done].
    destruct (commit_spec kind out workspace (evaluate target op kind a b out alpha beta workspace m).2 So)
      as [Hco Hbits]; [apply Hdd; unfold in_operands; auto|].
    split; [|split; [done|intros _; split]].
    + intros p Hp. rewrite Hco by (intros Hq; by apply (Hdesc p)). apply Hso. intros Hq. apply (Hdis p Hq). by left.
    + intros p Hp Hq. rewrite Hco by done. by apply Hso.
    + intros row col Hr Hc. cbv zeta. destruct (Hcells row col ltac:(lia) Hc) as [H1' H2'].
      { unfold elements. nia. }
      split; [done|]. destruct (out_index _ _ _ _ _ _ _ (Hcell row col Hr Hc)) as [_ Hi].
      rewrite (Hbits _ Hi). rewrite H2'. apply Z.mod_mod. apply Z.pow_nonzero; lia.
  - destruct Hrest as [[? _]|(_ & -> & ->)]; [done|].
    split; [intros p Hp; apply Hso; intros Hq; apply (Hdis p Hq); by left|].
    split; [intros _ p Hp; apply Hso; intros Hq; by apply (Hdis p Hq)|done].
Qed.

(** Whatever the status, only the output elements and the given workspace are written. *)
Lemma matrix_compute_writes op kind a b out alpha beta workspace bytes m st m' :
  matrix_wf a -> operand_wf b -> matrix_wf out -> supported op kind = true ->
  matrix_compute target op kind (Some a) b (Some out) alpha beta workspace bytes m = (st, m') ->
  forall p, ~ in_data kind out p -> ~ inside workspace bytes p -> m' p = m p.
Proof.
  intros Ha Hb Hout Hsup E p Hp Hq.
  destruct (matrix_compute_cases _ _ _ _ _ _ _ _ _ _ _ _ Ha Hb Hout Hsup E)
    as [(_ & -> & _)|(Sa & So & Sb & Hs & ac & bc & oc & Hac & Hoc & Hbc & Hal & Hsc & Hrest)]; [done|].
  destruct Hrest as [(_ & _ & ->)|[Hpos Hrest]]; [done|].
  pose proof (scratch_bytes _ _ _ _ _ _ _ _ So Hsc Hpos) as Hle.
  destruct (accepted_disjoint _ _ _ _ _ _ _ _ _ Sa So Sb Hac Hoc Hbc Hal Hsc Hpos) as [Hdis _].
  assert (forall x, (forall p, in_data kind x p -> in_operands kind a b out p) ->
    disjoint workspace (elements out * sizeof_workspace) (data x) (elements x * element_size kind)) as Hdd
    by (intros x Hx p' Hp' Hq'; apply (Hdis p' Hp'), Hx, Hq').
  destruct Hout as [[? ?] [? ?] ?].
  assert (~ inside workspace (elements out * sizeof_workspace) p) as Hn by (unfold inside in *; lia).
  pose proof (evaluate_spec op kind a out b alpha beta workspace m Hsup ltac:(intros; by split)) as Hev. cbv zeta in Hev.
  assert (same_outside workspace (elements out * sizeof_workspace) m (evaluate target op kind a b out alpha beta workspace m).2) as Hso.
  { destruct Hev as [[_ [Hso _]]|[_ [Hso _]]]; [apply Hdd; unfold in_operands; auto|intros b' Eb; apply Hdd; unfold in_operands; eauto 6|done|done|exact Hso|exact Hso]. }
  destruct Hrest as [(_ & _ & ->)|(_ & _ & ->)]; [|by apply Hso].
  destruct (commit_spec kind out workspace (evaluate target op kind a b out alpha beta workspace m).2 So)
    as [Hco _]; [apply Hdd; unfold in_operands; auto|]. rewrite Hco by done. by apply Hso.
Qed.

(** C7. In-place and overlapping operations are safe for every kind, floating or fixed: whatever happens
    the descriptors stay; a failed call leaves the elements of all three matrices as they were; a
    successful one delivers, cell by cell, the element the kernel computes from the memory at the
    call, even where the output overlaps the operands, and writes nothing but the output and the
    workspace. *)
Theorem matrix_compute_commits op kind a b out alpha beta workspace bytes m st m' :
  matrix_wf a -> operand_wf b -> matrix_wf out -> supported op kind = true ->
  matrix_compute target op kind (Some a) b (Some out) alpha beta workspace bytes m = (st, m') ->
  (forall p, in_descriptors a b out p -> m' p = m p) /\
  (st <> LINEARS_OK -> forall p, in_operands kind a b out p -> m' p = m p) /\
  (st = LINEARS_OK ->
    (forall p, ~ in_data kind out p -> ~ inside workspace (elements out * sizeof_workspace) p -> m' p = m p) /\
    (forall row col, 0 <= row < rows out -> 0 <= col < cols out ->
      let r := element target op kind a b (cols out) alpha beta row col m in
      r.1 = LINEARS_OK /\
      raw_bits kind (data out) (row * cols out + col) m' = r.2 mod 256 ^ Z.of_nat (element_width kind))).
Proof. apply matrix_compute_effect. Qed.
End Spec.
