(* ===== verification/MatrixQ.v ===== *)
(** * Matrices: exactness of the q15 and q31 kernels

    Every q15/q31 element is the exact rational value of its formula, tested
    against [-1, +1] and rounded once; the accumulators never overflow for any
    size_t operand count. *)
From S2P Require Import Prelude MachineInt Status Wide Numeric Memory Float Matrix MatrixSpec.

(** The sum of the first [n] terms. *)
Fixpoint sum_first (n : nat) (f : nat -> Z) : Z :=
  match n with O => 0 | S n => sum_first n f + f n end.

Section Sums.
Implicit Types (f g : nat -> Z) (n : nat).

Lemma sum_first_bound n f (B : Z) : 0 <= B -> (forall i, (i < n)%nat -> Z.abs (f i) <= B) ->
  Z.abs (sum_first n f) <= Z.of_nat n * B.
Proof.
  intros HB. induction n as [|n IH]; intros H; cbn [sum_first]; [lia|].
  specialize (IH ltac:(intros; apply H; lia)). pose proof (H n ltac:(lia)). lia.
Qed.

Lemma sum_first_ext n f g : (forall i, (i < n)%nat -> f i = g i) -> sum_first n f = sum_first n g.
Proof. induction n; cbn [sum_first]; intros H; [done|]. rewrite IHn, H by auto with arith. done. Qed.

(** Accumulation in 128 bits is exact while the sums fit. *)
Lemma wide_sum_exact f n (B : Z) : 0 <= B <= 4611686018427387904 ->
  (forall i, (i < n)%nat -> Z.abs (f i) <= B) -> Z.of_nat n <= 18446744073709551615 ->
  let r := for_up 0 n (fun i sum => ln_add_product64 sum (f i)) accum_zero in
  accum_ok r /\ accum_value r = sum_first n f.
Proof.
  intros HB Hf Hn. cbv zeta.
  apply (for_up_rule (fun i sum => ln_add_product64 sum (f i))
    (fun k r => accum_ok r /\ accum_value r = sum_first k f)); [|lia|done].
  intros i r Hi [Hok Hv]. pose proof (Hf i Hi).
  destruct (ln_add_product64_spec r (f i) Hok) as [Hok' Hv']; [unfold is_i64; lia|].
  split; [done|]. cbn [sum_first]. rewrite <- Hv. apply Hv'. rewrite Hv.
  pose proof (sum_first_bound i f B (proj1 HB) ltac:(intros; apply Hf; lia)).
  unfold is_i128, two127. nia.
Qed.

(** So is accumulation in 64 bits. *)
Lemma narrow_sum_exact f n (B : Z) : 0 <= B -> (forall i, (i < n)%nat -> Z.abs (f i) <= B) ->
  Z.of_nat n * B <= INT64_MAX ->
  for_up 0 n (fun i sum => i64 (sum + f i)) 0 = sum_first n f.
Proof.
  intros HB Hf Hn.
  apply (for_up_rule (fun i sum => i64 (sum + f i)) (fun k r => r = sum_first k f)); [|lia|done].
  intros i r Hi ->. cbn [sum_first]. apply i64_id.
  pose proof (sum_first_bound i f B HB ltac:(intros; apply Hf; lia)). pose proof (Hf i Hi).
  unfold INT64_MAX, is_i64 in *. nia.
Qed.
End Sums.

(** Format alignment of a wide value. *)
Lemma ln_shift_accum_spec a k : accum_ok a -> 0 < k < 64 -> is_i128 (accum_value a * 2 ^ k) ->
  accum_ok (ln_shift_accum a k) /\ accum_value (ln_shift_accum a k) = accum_value a * 2 ^ k.
Proof.
  intros [Hl Hh] Hk Hfit. unfold ln_shift_accum.
  assert (0 < 2 ^ k) as Hp by (apply Z.pow_pos_nonneg; lia).
  assert (0 < 2 ^ (64 - k)) as Hq by (apply Z.pow_pos_nonneg; lia).
  assert (two64 = 2 ^ k * 2 ^ (64 - k)) as H64 by (rewrite <- Z.pow_add_r by lia; by replace (k + (64 - k)) with 64 by lia).
  rewrite !Z.shiftl_mul_pow2, Z.shiftr_div_pow2 by lia.
  assert (0 <= low a / 2 ^ (64 - k) < 2 ^ k) as Htop.
  { split; [apply Z.div_pos; [apply Hl|done]|]. apply Z.div_lt_upper_bound; [done|].
    rewrite Z.mul_comm, <- H64. apply Hl. }
  assert (u64 (high a * 2 ^ k) mod 2 ^ k = 0) as Hz.
  { unfold u64. change 18446744073709551616 with two64. rewrite H64, (Z.mul_comm (2 ^ k) (2 ^ (64 - k))).
    rewrite Z.mul_mod_distr_r by lia. apply Z.mod_mul. lia. }
  rewrite (lor_add_disjoint _ _ k) by (done || lia).
  assert (is_u64 (u64 (high a * 2 ^ k) + low a / 2 ^ (64 - k))) as Hh'.
  { pose proof (u64_range (high a * 2 ^ k)) as Hr. unfold is_u64 in *.
    pose proof (Z.div_mod (u64 (high a * 2 ^ k)) (2 ^ k) ltac:(lia)) as D. rewrite Hz in D.
    unfold two64 in H64. set (d := u64 (high a * 2 ^ k) / 2 ^ k) in *.
    assert (d < 2 ^ (64 - k)) by (apply (Z.mul_lt_mono_pos_l (2 ^ k)); lia).
    assert (2 ^ k * (d + 1) <= 2 ^ k * 2 ^ (64 - k)) by (apply Z.mul_le_mono_nonneg_l; lia). lia. }
  assert (accum_ok (mk_accum (u64 (low a * 2 ^ k)) (u64 (high a * 2 ^ k) + low a / 2 ^ (64 - k)))) as Hok
    by (split; [apply u64_range|done]).
  split; [done|]. apply accum_value_unique; [done..|].
  rewrite <- Z.mul_mod_idemp_l, <- accum_value_mod by (done || alia).
  unfold accum_unsigned at 1. cbn [low high]. pose proof (Z.div_mod (low a) (2 ^ (64 - k)) ltac:(lia)) as D1.
  assert (u64 (low a * 2 ^ k) = (low a mod 2 ^ (64 - k)) * 2 ^ k) as Hlow.
  { unfold u64. change 18446744073709551616 with two64. rewrite H64, (Z.mul_comm (2 ^ k) (2 ^ (64 - k))).
    apply Z.mul_mod_distr_r; lia. }
  pose proof (Z.div_mod (high a * 2 ^ k) two64 ltac:(alia)) as D2.
  pose proof (accum_unsigned_range _ Hok) as Hr. unfold accum_unsigned in Hr |- *. cbn [low high] in Hr.
  rewrite Hlow in Hr |- *. unfold u64 in Hr |- *. change 18446744073709551616 with two64 in Hr |- *.
  apply Z.mod_unique with (high a * 2 ^ k / two64); [left; lia|].
  change two128 with (two64 * two64) in *.
  set (t := low a / 2 ^ (64 - k)) in *. set (r := low a mod 2 ^ (64 - k)) in *.
  set (q := high a * 2 ^ k / two64) in *. set (h := (high a * 2 ^ k) mod two64) in *.
  assert (low a * 2 ^ k = two64 * t + r * 2 ^ k) by (rewrite D1, H64; ring).
  assert (high a * two64 * 2 ^ k = two64 * (high a * 2 ^ k)) by ring. lia.
Qed.

(** ** The kernel *)

Definition is_q (kind : numeric_kind) : Prop := kind = Q15 \/ kind = Q31.

(** The values of a signal element. *)
Definition q_range (kind : numeric_kind) (x : Z) : Prop := - 2 ^ q_bits kind <= x < 2 ^ q_bits kind.

Section Kernel.
Context (target : abi) (Htarget : abi_ok target).
Context (kind : numeric_kind) (Hkind : is_q kind).
Implicit Types (m : mem) (a out : linears_matrix_t).

Lemma raw_int_range base i m : q_range kind (raw_int kind base i m).
Proof.
  unfold raw_int, q_range. destruct Hkind as [-> | ->]; cbn [signed_bits q_bits].
  - unfold i16. change (2 ^ 15) with 32768.
    pose proof (Z.mod_pos_bound (raw_bits Q15 base i m + 32768) 65536 ltac:(lia)). lia.
  - change (2 ^ 31) with 2147483648. pose proof (i32_range (raw_bits Q31 base i m)). rlia.
Qed.

(** Products of signals. *)
Lemma q_product_bound x y : q_range kind x -> q_range kind y -> Z.abs (x * y) <= 2 ^ (2 * q_bits kind).
Proof.
  unfold q_range. intros Hx Hy. rewrite Z.abs_mul.
  replace (2 * q_bits kind) with (q_bits kind + q_bits kind) by lia.
  rewrite Z.pow_add_r by (destruct Hkind as [-> | ->]; cbn; lia).
  apply Z.mul_le_mono_nonneg; lia.
Qed.

Lemma q_product_i64 x y : q_range kind x -> q_range kind y -> is_i64 (x * y).
Proof.
  intros Hx Hy. pose proof (q_product_bound x y Hx Hy) as Hb. unfold is_i64.
  destruct Hkind as [-> | ->]; cbn in Hb; lia.
Qed.

Lemma size_max_u64 count : 0 <= count <= SIZE_MAX target -> count <= 18446744073709551615.
Proof. destruct (abi_size _ Htarget); lia. Qed.

(** The dot product of two element vectors, on the fast path and on the wide one. *)
Lemma dot_raw__spec (f g : nat -> Z) count :
  (forall i, q_range kind (f i)) -> (forall i, q_range kind (g i)) -> 0 <= count <= SIZE_MAX target ->
  let r := dot_raw_ target kind f g count in
  accum_ok r /\
  accum_value r = sum_first (Z.to_nat count) (fun i => f i * g i) * 2 ^ (62 - 2 * q_bits kind).
Proof.
  intros Hf Hg Hc. pose proof (size_max_u64 _ Hc) as Hcu.
  pose proof (fun i => q_product_bound _ _ (Hf i) (Hg i)) as Hb.
  pose proof (fun i => q_product_i64 _ _ (Hf i) (Hg i)) as Hi.
  set (s := sum_first _ _).
  destruct (wide_sum_exact (fun i => f i * g i) (Z.to_nat count) (2 ^ (2 * q_bits kind))) as [Hok Hv];
    [destruct Hkind as [-> | ->]; cbn; lia|intros; apply Hb|lia|]. fold s in Hv.
  pose proof (sum_first_bound (Z.to_nat count) (fun i => f i * g i) (2 ^ (2 * q_bits kind))
    ltac:(apply Z.pow_nonneg; lia) (fun i _ => Hb i)) as Hs. fold s in Hs. rewrite Z2Nat.id in Hs by lia.
  assert (for_up 0 (Z.to_nat count) (fun i sum => ln_add_product64 sum (i64 (f i * g i))) accum_zero
    = for_up 0 (Z.to_nat count) (fun i sum => ln_add_product64 sum (f i * g i)) accum_zero) as Ew
    by (apply for_up_ext; intros; by rewrite i64_id by apply Hi).
  unfold dot_raw_. destruct Hkind as [-> | ->].
  - change (62 - 2 * q_bits Q15) with 32 in *. change (2 ^ (2 * q_bits Q15)) with 1073741824 in *.
    destruct (_ || _) eqn:E.
    + rewrite (for_up_ext _ _ _ (fun i sum => i64 (sum + f i * g i))) by (intros; by rewrite (i64_id (f i * g i)) by apply Hi).
      assert (count * 1073741824 <= INT64_MAX) as Hfit.
      { unfold INT64_MAX. apply orb_true_iff in E as [E|E]; zbool.
        - unfold UINT32_MAX in E. nia.
        - pose proof (Z.mul_div_le INT64_MAX 1073741824 ltac:(lia)). unfold INT64_MAX in *. lia. }
      rewrite (narrow_sum_exact _ _ 1073741824) by (try (intros; apply Hb); lia).
      fold s. apply ln_shift_i64_spec; [|lia]. unfold is_i64, INT64_MAX in *. lia.
    + rewrite Ew, <- Hv. apply ln_shift_accum_spec; [done|lia|]. rewrite Hv.
      unfold is_i128, two127. change (2 ^ 32) with 4294967296. nia.
  - rewrite Ew. split; [done|]. rewrite Hv. change (2 ^ (62 - 2 * q_bits Q31)) with 1. lia.
Qed.

(** The exact value of an element, in units of 2^-62. *)
Definition q_exact (op : matrix_op) a (b : option linears_matrix_t) (out_cols alpha beta row col : Z) m : Z :=
  let bits := q_bits kind in
  let x := raw_int kind (data a) (row * out_cols + col) m in
  let y := optional b 0 (fun b => raw_int kind (data b) (row * out_cols + col) m) in
  match op with
  | MUL | MATVEC =>
      optional b 0 (fun b => sum_first (Z.to_nat (cols a)) (fun k =>
        raw_int kind (data a) (row * cols a + Z.of_nat k) m *
        raw_int kind (data b) (Z.of_nat k * cols b + col) m)) * 2 ^ (62 - 2 * bits)
  | TRANSPOSE => raw_int kind (data a) (col * cols a + row) m * 2 ^ (62 - bits)
  | ADD => (x + y) * 2 ^ (62 - bits)
  | SUB => (x - y) * 2 ^ (62 - bits)
  | HADAMARD => x * y * 2 ^ (62 - 2 * bits)
  | SCALE => alpha * x * 2 ^ (31 - bits)
  | AXPBY => (alpha * x + beta * y) * 2 ^ (31 - bits)
  end.

(** The contract of an element: the exact value in [-1, 1], rounded once. *)
Definition q_rounded (V : Z) : linears_status_t * Z :=
  deliver (in_unit_interval V (2 ^ 62)) (endpoint (q_bits kind) (div_nearest V (2 ^ (62 - q_bits kind)))) 0.

Lemma linears_accum_to_exact (s : linears_accum_t) : accum_ok s ->
  linears_accum_to kind s 0 = q_rounded (accum_value s).
Proof.
  intros Hs. destruct (linears_accum_to_spec s (Some 0) Hs) as (_ & H15 & H31).
  apply with_out_inj in H15, H31. unfold q_rounded, linears_accum_to.
  destruct Hkind as [-> | ->]; [exact H15|exact H31].
Qed.

(** Two coefficient products fit with room to spare. *)
Lemma coefficient_product c x : is_i64 c -> q_range kind x ->
  let v := match kind with Q15 => i64 (x * 65536) | _ => x end in
  is_i64 v /\ accum_ok (ln_product c v) /\ accum_value (ln_product c v) = c * x * 2 ^ (31 - q_bits kind) /\
  Z.abs (c * x * 2 ^ (31 - q_bits kind)) <= 2 ^ 94.
Proof.
  unfold q_range. intros Hc Hx. cbv zeta.
  assert (let v := match kind with Q15 => i64 (x * 65536) | _ => x end in
    v = x * 2 ^ (31 - q_bits kind) /\ Z.abs v <= 2147483648) as [E Hb].
  { destruct Hkind as [-> | ->]; cbn in *.
    - rewrite i64_id; unfold is_i64; lia.
    - lia. }
  rewrite E in *. assert (is_i64 (x * 2 ^ (31 - q_bits kind))) as Hv by (unfold is_i64; lia).
  destruct (ln_product_spec c _ Hc Hv) as [Hok Hval]. rewrite Z.mul_assoc in Hval.
  split; [done|]. split; [done|]. split; [done|]. rewrite <- Z.mul_assoc, Z.abs_mul.
  change (2 ^ 94) with (9223372036854775808 * 2147483648).
  apply Z.mul_le_mono_nonneg; unfold is_i64 in Hc; lia.
Qed.

Lemma q_sum_spec op a b out alpha beta row col m : op <> TRANSPOSE ->
  cell_ok target op kind a b out row col -> 0 <= cols a -> is_i64 alpha -> is_i64 beta ->
  let s := q_sum target kind op a b (cols out) alpha beta row col m in
  accum_ok s /\ accum_value s = q_exact op a b (cols out) alpha beta row col m.
Proof.
  intros Hop Hc Hcols Ha Hb. cbv zeta. unfold q_sum, q_exact.
  destruct (out_index target op kind a b out row col Hc) as [-> _].
  set (i := row * cols out + col).
  pose proof (raw_int_range (data a) i m) as Hx. set (x := raw_int kind (data a) i m) in *.
  assert (q_range kind (optional b 0 (fun b => raw_int kind (data b) i m))) as Hy.
  { destruct b; cbn [optional]; [apply raw_int_range|].
    unfold q_range. destruct Hkind as [-> | ->]; cbn; lia. }
  set (y := optional b 0 _) in *.
  assert (op = MUL \/ op = MATVEC -> let s := if cols a =? 0 then accum_zero
      else optional b accum_zero (fun b => dot_raw_ target kind
        (strided target kind (data a) (usize target (row * cols a)) 1 m)
        (strided target kind (data b) col (cols b) m) (cols a)) in
    accum_ok s /\ accum_value s = optional b 0 (fun b => sum_first (Z.to_nat (cols a)) (fun k =>
        raw_int kind (data a) (row * cols a + Z.of_nat k) m *
        raw_int kind (data b) (Z.of_nat k * cols b + col) m)) * 2 ^ (62 - 2 * q_bits kind)) as Hdot.
  { intros Hm. cbv zeta. destruct b as [b'|]; cbn [optional]; [|by destruct (cols a =? 0)].
    destruct (Z.eqb_spec (cols a) 0) as [->|Hne]; [done|].
    destruct (dot_raw__spec (strided target kind (data a) (usize target (row * cols a)) 1 m)
      (strided target kind (data b') col (cols b') m) (cols a)) as [Hok Hv];
      [intros; apply raw_int_range|intros; apply raw_int_range| |].
    { pose proof (storage_count target a kind (ce_a _ _ _ _ _ _ _ _ Hc)) as Hn.
      assert (0 < rows a).
      { pose proof (shapes_spec _ _ _ _ (ce_shapes _ _ _ _ _ _ _ _ Hc)) as Hsh.
        pose proof (ce_row _ _ _ _ _ _ _ _ Hc).
        destruct Hm as [-> | ->]; destruct Hsh as (? & _ & _ & E & _); lia. }
      unfold elements in Hn. nia. }
    split; [done|]. rewrite Hv. f_equal. apply sum_first_ext. intros k Hk.
    destruct (strided_index target op kind a b' out row col k Hm Hc Hk) as [E1 E2].
    unfold strided. by rewrite E1, E2. }
  unfold q_range in Hx, Hy. clearbody x y. destruct op; try done; try (by apply Hdot; auto).
  - rewrite i64_id by (unfold is_i64; destruct Hkind as [-> | ->]; cbn in Hx, Hy; lia).
    apply ln_shift_i64_spec; [unfold is_i64; destruct Hkind as [-> | ->]; cbn in Hx, Hy; lia
      |destruct Hkind as [-> | ->]; done].
  - rewrite i64_id by (unfold is_i64; destruct Hkind as [-> | ->]; cbn in Hx, Hy; lia).
    apply ln_shift_i64_spec; [unfold is_i64; destruct Hkind as [-> | ->]; cbn in Hx, Hy; lia
      |destruct Hkind as [-> | ->]; done].
  - rewrite i64_id by (by apply q_product_i64).
    pose proof (q_product_i64 x y Hx Hy) as Hp. destruct Hkind as [-> | ->].
    + by apply ln_shift_i64_spec.
    + destruct (sign_extend_spec (x * y) Hp) as [Hok Hv]. split; [done|].
      rewrite Hv. change (2 ^ (62 - 2 * q_bits Q31)) with 1. lia.
  - destruct (coefficient_product alpha x Ha Hx) as (_ & Ok1 & V1 & B1).
    destruct (coefficient_product beta y Hb Hy) as (_ & Ok2 & V2 & B2).
    split; [by apply ln_add_unchecked_ok|].
    rewrite ln_add_unchecked_value, V1, V2; [lia|done..|].
    rewrite V1, V2. change (2 ^ 94) with 19807040628566084398385987584 in *. unfold is_i128, two127. lia.
  - destruct (coefficient_product alpha x Ha Hx) as (_ & Ok1 & V1 & B1). by split.
Qed.

(** A signal is its own rounding. *)
Lemma q_rounded_signal x : q_range kind x -> q_rounded (x * 2 ^ (62 - q_bits kind)) = (LINEARS_OK, x).
Proof.
  unfold q_range, q_rounded, deliver, endpoint, in_unit_interval. intros Hx.
  assert (div_nearest (x * 2 ^ (62 - q_bits kind)) (2 ^ (62 - q_bits kind)) = x) as ->.
  { assert (0 < 2 ^ (62 - q_bits kind)) as Hp by (apply Z.pow_pos_nonneg; destruct Hkind as [-> | ->]; cbn; lia).
    pose proof (div_nearest_error (x * 2 ^ (62 - q_bits kind)) _ Hp). nia. }
  destruct Hkind as [-> | ->]; cbn [q_bits] in *.
  - change (2 ^ 15) with 32768 in *. change (2 ^ (62 - 15)) with 140737488355328.
    change (2 ^ 62) with 4611686018427387904.
    rewrite !(proj2 (Z.leb_le _ _)) by lia. cbn [andb].
    by destruct (Z.eqb_spec x 32768); [lia|].
  - change (2 ^ 31) with 2147483648 in *. change (2 ^ (62 - 31)) with 2147483648.
    change (2 ^ 62) with 4611686018427387904.
    rewrite !(proj2 (Z.leb_le _ _)) by lia. cbn [andb].
    by destruct (Z.eqb_spec x 2147483648); [lia|].
Qed.

Lemma q_element_exact op a b out alpha beta row col m :
  cell_ok target op kind a b out row col -> 0 <= cols a -> is_i64 alpha -> is_i64 beta ->
  q_element target kind op a b (cols out) alpha beta row col m
  = q_rounded (q_exact op a b (cols out) alpha beta row col m).
Proof.
  intros Hc Hcols Ha Hb. destruct (decide (op = TRANSPOSE)) as [->|Hop].
  - unfold q_element, q_exact. destruct (transpose_index target kind a b out row col Hc) as [-> _].
    rewrite q_rounded_signal by apply raw_int_range. done.
  - destruct (q_sum_spec op a b out alpha beta row col m Hop Hc Hcols Ha Hb) as [Hok <-].
    rewrite <- linears_accum_to_exact by done. unfold q_element. by destruct op.
Qed.

(** A rounded value is a signal, and survives the trip through memory. *)
Lemma q_rounded_range V : (q_rounded V).1 = LINEARS_OK ->
  in_unit_interval V (2 ^ 62) = true /\
  (q_rounded V).2 = endpoint (q_bits kind) (div_nearest V (2 ^ (62 - q_bits kind))) /\
  q_range kind (q_rounded V).2.
Proof.
  unfold q_rounded, deliver. destruct (in_unit_interval V (2 ^ 62)) eqn:E; [|done]. intros _.
  split; [done|]. split; [done|]. cbn [snd]. unfold in_unit_interval in E. zbool.
  set (d := 2 ^ (62 - q_bits kind)).
  assert (0 < d /\ 2 ^ 62 = 2 ^ q_bits kind * d /\ 0 < 2 ^ q_bits kind) as (Hp & Hd & Hq).
  { unfold d. split; [|split]; [apply Z.pow_pos_nonneg|rewrite <- Z.pow_add_r|apply Z.pow_pos_nonneg];
      try (destruct Hkind as [-> | ->]; cbn; lia). }
  pose proof (div_nearest_error V d Hp) as He. unfold q_range, endpoint.
  assert (- 2 ^ q_bits kind <= div_nearest V d <= 2 ^ q_bits kind) by nia.
  destruct (Z.eqb_spec (div_nearest V d) (2 ^ q_bits kind)); lia.
Qed.

Lemma signed_bits_stored v : q_range kind v ->
  signed_bits kind (v mod 256 ^ Z.of_nat (element_width kind)) = v.
Proof.
  unfold q_range. intros Hv. destruct Hkind as [-> | ->]; cbn [signed_bits element_width q_bits] in *.
  - change (256 ^ Z.of_nat 2) with 65536. change (2 ^ 15) with 32768 in Hv. unfold i16.
    rewrite Z.add_mod_idemp_l by lia. rewrite Z.mod_small by lia. lia.
  - change (256 ^ Z.of_nat 4) with 4294967296. change (2 ^ 31) with 2147483648 in Hv. unfold i32.
    rewrite Z.add_mod_idemp_l by lia. rewrite Z.mod_small by lia. lia.
Qed.

(** ** The operations *)

(** C6. Every q15/q31 elementwise operation (add, sub, hadamard, mul, matvec, transpose, axpby, scale),
    with operands that may overlap the output: success means that every exact result lies in
    [-1, +1] and that the output holds each rounded once, to nearest and halfway cases away from
    zero (the value +1 stored as the largest signal); RANGE means that some exact result lies
    outside [-1, +1], and changes none of the matrices. *)
Theorem linears_q_matrix_spec op a b out alpha beta workspace bytes m st m' :
  matrix_wf target a -> operand_wf target b -> matrix_wf target out ->
  is_i64 (fixed alpha) -> is_i64 (fixed beta) ->
  matrix_compute target op kind (Some a) b (Some out) alpha beta workspace bytes m = (st, m') ->
  let exact row col := q_exact op a b (cols out) (fixed alpha) (fixed beta) row col m in
  (st = LINEARS_OK -> forall row col, 0 <= row < rows out -> 0 <= col < cols out ->
     - 2 ^ 62 <= exact row col <= 2 ^ 62 /\
     raw_int kind (data out) (row * cols out + col) m'
       = endpoint (q_bits kind) (div_nearest (exact row col) (2 ^ (62 - q_bits kind)))) /\
  (st = LINEARS_ERROR_RANGE ->
     (exists row col, 0 <= row < rows out /\ 0 <= col < cols out /\ 2 ^ 62 < Z.abs (exact row col)) /\
     forall p, in_operands target kind a b out p -> m' p = m p).
Proof.
  intros Ha Hb Hout Hal Hbe E exact.
  assert (supported op kind = true) as Hsup by (destruct Hkind as [-> | ->]; done).
  assert (forall row col, cell_ok target op kind a b out row col ->
    element target op kind a b (cols out) alpha beta row col m = q_rounded (exact row col)) as Hex.
  { intros row col Hc. transitivity (q_element target kind op a b (cols out) (fixed alpha) (fixed beta) row col m);
      [by destruct Hkind as [-> | ->]|]. apply q_element_exact; try done. apply Ha. }
  destruct (matrix_compute_effect target op kind a b out alpha beta workspace bytes m st m'
    Ha Hb Hout Hsup E) as (_ & Hfail & Hok).
  destruct (matrix_compute_cases target op kind a b out alpha beta workspace bytes m st m'
    Ha Hb Hout Hsup E) as [(Hst & -> & Hr)|(Sa & So & Sb & Hs & ac & bc & oc & Hac & Hoc & Hbc & Hal' & Hsc & Hrest)].
  { split; [done|]. intros Er. destruct (Hr Er) as [->| ->]; by destruct Hkind. }
  assert (forall row col, 0 <= row < rows out -> 0 <= col < cols out ->
    cell_ok target op kind a b out row col) as Hcell by (intros; by split).
  split.
  - intros Est row col Hrow Hcol. destruct (proj2 (Hok Est) row col Hrow Hcol) as [E1 E2].
    rewrite (Hex _ _ (Hcell row col Hrow Hcol)) in E1, E2.
    destruct (q_rounded_range _ E1) as (Hu & Hv & Hq). split.
    + unfold in_unit_interval in Hu. zbool. lia.
    + unfold raw_int. rewrite E2, signed_bits_stored by done. exact Hv.
  - intros Est. split; [|apply Hfail; by rewrite Est].
    destruct Hrest as [(_ & ? & _)|[Hpos [(_ & ? & _)|(E1 & Es & _)]]]; [congruence..|].
    destruct (accepted_disjoint _ _ _ _ _ _ _ _ _ _ Sa So Sb Hac Hoc Hbc Hal' Hsc Hpos) as [Hdis _].
    destruct Ha, Hout.
    destruct (evaluate_spec target op kind a out b alpha beta workspace m Hsup Hcell)
      as [[E2 _]|[_ (_ & row & col & Hrow & Hcol & Hel)]]; [| |lia|lia|congruence|].
    { intros p Hp Hq. apply (Hdis p Hp). right. by left. }
    { intros b' Eb p Hp Hq. apply (Hdis p Hp). right. right. right. eauto. }
    exists row, col. split; [done|]. split; [done|].
    unfold cell in Hel. rewrite (Hex _ _ (Hcell row col Hrow Hcol)), <- Es, Est in Hel.
    unfold q_rounded, deliver in Hel. destruct (in_unit_interval _ _) eqn:Eu; [done|].
    unfold in_unit_interval in Eu. apply andb_false_iff in Eu as [Eu|Eu]; zbool; lia.
Qed.

(** ** Reductions *)

(** Signal elements by row-major position. *)
Definition q_elt (x : linears_matrix_t) m (i : nat) : Z := raw_int kind (data x) (Z.of_nat i) m.

Definition q_norm (squares : Z) : Z :=
  let root := sqrt_nearest squares in if root =? 2 ^ q_bits kind then root - 1 else root.

(** What a reduction delivers: a rounded sum, or the rounded root of the sum of squares. *)
Definition q_reduced (op : reduction_op) a (b : option linears_matrix_t) m : linears_status_t * Z :=
  let bits := q_bits kind in
  let n := Z.to_nat (elements a) in
  match op with
  | DOT => q_rounded (sum_first n (fun i => q_elt a m i * optional b 0 (fun b => q_elt b m i)) * 2 ^ (62 - 2 * bits))
  | TRACE =>
      q_rounded (sum_first (Z.to_nat (rows a)) (fun i =>
        raw_int kind (data a) (Z.of_nat i * cols a + Z.of_nat i) m) * 2 ^ (62 - bits))
  | NORM =>
      let squares := sum_first n (fun i => q_elt a m i * q_elt a m i) in
      if squares <=? 2 ^ (2 * bits) then (LINEARS_OK, q_norm squares) else (LINEARS_ERROR_RANGE, 0)
  end.

Lemma usize_index i n : 0 <= n <= SIZE_MAX target -> (i < Z.to_nat n)%nat ->
  usize target (Z.of_nat i) = Z.of_nat i.
Proof. intros. apply usize_id. lia. Qed.

Lemma sum_first_nonneg n f : (forall i, 0 <= f i) -> 0 <= sum_first n f.
Proof. intros H. induction n as [|n IH]; cbn [sum_first]; [lia|]. specialize (H n). lia. Qed.

(** A nonnegative value that fits 128 bits is its unsigned reading. *)
Lemma accum_nonneg (s : linears_accum_t) : accum_ok s -> 0 <= accum_value s ->
  accum_value s = low s + high s * two64.
Proof.
  intros Hs Hv. pose proof (accum_value_mod s Hs) as E. pose proof (accum_value_range s Hs).
  rewrite Z.mod_small in E by alia. done.
Qed.

Lemma norm_result (s : linears_accum_t) squares : accum_ok s -> 0 <= squares ->
  accum_value s = squares * 2 ^ (62 - 2 * q_bits kind) ->
  (if negb (high s =? 0) || (low s >? u64 (Z.shiftl 1 62)) then (LINEARS_ERROR_RANGE, 0)
   else
     let raw := ln_sqrt_nearest64 (match kind with Q15 => Z.shiftr (low s) 32 | _ => low s end) in
     let raw := if raw =? u64 (Z.shiftl 1 (q_bits kind)) then u64 (raw - 1) else raw in
     (LINEARS_OK, match kind with Q15 => i16 raw | _ => i32 raw end))
  = (if squares <=? 2 ^ (2 * q_bits kind) then (LINEARS_OK, q_norm squares) else (LINEARS_ERROR_RANGE, 0)).
Proof.
  intros Hs Hsq Hv. change (u64 (Z.shiftl 1 62)) with 4611686018427387904.
  pose proof (accum_nonneg s Hs) as Hval. rewrite Hv in Hval.
  assert (0 < 2 ^ (62 - 2 * q_bits kind)) as Hp by (apply Z.pow_pos_nonneg; destruct Hkind as [-> | ->]; cbn; lia).
  specialize (Hval ltac:(nia)). destruct Hs as [Hl Hh]. unfold is_u64, two64 in *.
  assert (2 ^ (2 * q_bits kind) * 2 ^ (62 - 2 * q_bits kind) = 4611686018427387904) as H62.
  { rewrite <- Z.pow_add_r by (destruct Hkind as [-> | ->]; cbn; lia).
    by replace (2 * q_bits kind + (62 - 2 * q_bits kind)) with 62 by lia. }
  destruct (Z.leb_spec squares (2 ^ (2 * q_bits kind))) as [Hle|Hgt].
  - assert (high s = 0 /\ low s = squares * 2 ^ (62 - 2 * q_bits kind)) as [E1 E2] by nia.
    rewrite E1. cbn [Z.eqb negb orb]. rewrite Z.gtb_ltb, (proj2 (Z.ltb_ge _ _)) by nia.
    assert (match kind with Q15 => Z.shiftr (low s) 32 | _ => low s end = squares) as ->.
    { rewrite E2. destruct Hkind as [-> | ->].
      - rewrite Z.shiftr_div_pow2 by lia. apply Z.div_mul. done.
      - change (2 ^ (62 - 2 * q_bits Q31)) with 1. lia. }
    cbv zeta. rewrite ln_sqrt_nearest64_spec by (unfold is_u64; nia).
    destruct (sqrt_nearest_bounds squares Hsq) as (R1 & R2 & _). unfold q_norm. set (r := sqrt_nearest squares) in *.
    assert (0 <= r <= 2 ^ q_bits kind) as Hr.
    { split; [done|]. replace (2 * q_bits kind) with (q_bits kind + q_bits kind) in Hle by lia.
      rewrite Z.pow_add_r in Hle by (destruct Hkind as [-> | ->]; cbn; lia). nia. }
    assert (u64 (Z.shiftl 1 (q_bits kind)) = 2 ^ q_bits kind) as -> by (by destruct Hkind as [-> | ->]).
    assert (0 < 2 ^ q_bits kind <= 2147483648) as Hq by (destruct Hkind as [-> | ->]; done).
    f_equal. destruct (Z.eqb_spec r (2 ^ q_bits kind)) as [E|E]; [rewrite u64_id by (unfold is_u64; lia)|];
      destruct Hkind as [-> | ->]; cbn [q_bits] in *;
      change (2 ^ 15) with 32768 in *; change (2 ^ 31) with 2147483648 in *;
      first [apply i16_id; unfold is_i16; lia|apply i32_id; unfold is_i32; lia].
  - assert (2 ^ (2 * q_bits kind) * 2 ^ (62 - 2 * q_bits kind) < squares * 2 ^ (62 - 2 * q_bits kind))
      by (apply Z.mul_lt_mono_pos_r; lia).
    destruct (Z.eqb_spec (high s) 0) as [E|E]; [|done]. cbn [negb orb].
    by rewrite Z.gtb_ltb, (proj2 (Z.ltb_lt _ _)) by lia.
Qed.

Lemma q_reduce_spec op a (b : option linears_matrix_t) m :
  storage_ok target a kind -> 0 <= rows a -> 0 <= cols a ->
  (op = TRACE -> rows a = cols a) -> (op = DOT -> b <> None) ->
  q_reduce target op kind a b (match op with TRACE => rows a | _ => elements a end) m = q_reduced op a b m.
Proof.
  intros Sa Hr Hc Htr Hdot. pose proof (storage_count target a kind Sa) as Hn.
  unfold q_reduce, q_reduced. destruct op; cbv zeta.
  - destruct b as [b'|]; [|by destruct (Hdot eq_refl)]. cbn [optional].
    destruct (dot_raw__spec (fun i => raw_int kind (data a) (usize target (Z.of_nat i)) m)
      (fun i => raw_int kind (data b') (usize target (Z.of_nat i)) m) (elements a)) as [Hok Hv];
      [intros; apply raw_int_range|intros; apply raw_int_range|done|].
    rewrite linears_accum_to_exact, Hv by done. do 2 f_equal. apply sum_first_ext. intros i Hi.
    unfold q_elt. by rewrite usize_index with (n := elements a).
  - destruct (dot_raw__spec (fun i => raw_int kind (data a) (usize target (Z.of_nat i)) m)
      (fun i => raw_int kind (data a) (usize target (Z.of_nat i)) m) (elements a)) as [Hok Hv];
      [intros; apply raw_int_range|intros; apply raw_int_range|done|].
    apply norm_result; [done|apply sum_first_nonneg; intros; apply Z.square_nonneg|]. rewrite Hv. f_equal.
    apply sum_first_ext. intros i Hi. unfold q_elt. by rewrite usize_index with (n := elements a).
  - specialize (Htr eq_refl).
    set (f i := raw_int kind (data a) (Z.of_nat i * cols a + Z.of_nat i) m).
    rewrite (for_up_ext _ _ _ (fun i sum => ln_add_product64 sum (f i))).
    2: { intros i s [_ Hi]. unfold f. do 2 f_equal.
         destruct (cell_index target (Z.of_nat i) (Z.of_nat i) (rows a) (cols a)); [lia|lia|apply Hn|done]. }
    assert (forall i, Z.abs (f i) <= 2 ^ q_bits kind) as Hf.
    { intros i. pose proof (raw_int_range (data a) (Z.of_nat i * cols a + Z.of_nat i) m).
      unfold q_range, f in *. lia. }
    assert (rows a <= 4294967296) as Hrows.
    { unfold elements in Hn. rewrite <- Htr in Hn. pose proof (size_max_u64 _ Hn). nia. }
    destruct (wide_sum_exact f (Z.to_nat (rows a)) (2 ^ q_bits kind)) as [Hok Hv];
      [destruct Hkind as [-> | ->]; done|auto|lia|].
    pose proof (sum_first_bound (Z.to_nat (rows a)) f (2 ^ q_bits kind)
      ltac:(apply Z.pow_nonneg; lia) (fun i _ => Hf i)) as Hb. rewrite Z2Nat.id in Hb by lia.
    destruct (ln_shift_accum_spec (for_up 0 (Z.to_nat (rows a)) (fun i sum => ln_add_product64 sum (f i)) accum_zero)
      (62 - q_bits kind)) as [Hok' Hv']; [done|destruct Hkind as [-> | ->]; done| |].
    { rewrite Hv. unfold is_i128, two127.
      destruct Hkind as [-> | ->]; cbn [q_bits] in *; change (2 ^ 15) with 32768 in *;
        change (2 ^ 31) with 2147483648 in *; change (2 ^ (62 - 15)) with 140737488355328;
        change (2 ^ (62 - 31)) with 2147483648; nia. }
    rewrite linears_accum_to_exact, Hv', Hv by done. done.
Qed.

Lemma q_reduced_range op a (b : option linears_matrix_t) m :
  (q_reduced op a b m).1 = LINEARS_OK -> q_range kind (q_reduced op a b m).2.
Proof.
  unfold q_reduced. destruct op; try (intros H; by destruct (q_rounded_range _ H) as (_ & _ & ?)). cbv zeta.
  set (s := sum_first _ _). assert (0 <= s) as Hs by (apply sum_first_nonneg; intros; apply Z.square_nonneg). clearbody s.
  destruct (Z.leb_spec s (2 ^ (2 * q_bits kind))) as [Hle|]; [|done]. intros _. cbn [snd].
  destruct (sqrt_nearest_bounds s Hs) as (R1 & R2 & _). unfold q_norm, q_range. set (r := sqrt_nearest s) in *.
  replace (2 * q_bits kind) with (q_bits kind + q_bits kind) in Hle by lia.
  rewrite Z.pow_add_r in Hle by (destruct Hkind as [-> | ->]; cbn; lia).
  assert (0 < 2 ^ q_bits kind) by (destruct Hkind as [-> | ->]; done).
  assert (r <= 2 ^ q_bits kind) by nia.
  destruct (Z.eqb_spec r (2 ^ q_bits kind)); lia.
Qed.

(** A q15/q31 reduction writes its one cell, and only on success: dot and trace deliver the exact
    sum, tested against [-1, +1] and rounded once; norm the nearest root of the exact sum of squares
    (the value 1 stored as the largest signal), and RANGE exactly when that sum exceeds 1. *)
Theorem linears_q_reduction_spec op a b cell m st m' :
  matrix_wf target a -> operand_wf target b ->
  reduction target op kind (Some a) b cell m = (st, m') ->
  (st <> LINEARS_OK -> m' = m) /\
  (st = LINEARS_OK ->
     (q_reduced op a b m).1 = LINEARS_OK /\ raw_int kind cell 0 m' = (q_reduced op a b m).2 /\
     same_outside cell (element_size kind) m m') /\
  (st = LINEARS_ERROR_RANGE -> (q_reduced op a b m).1 = LINEARS_ERROR_RANGE).
Proof.
  intros Ha Hb. unfold reduction, require.
  destruct (checks_not_range target kind) as (Hr1 & _ & Hr3).
  pose proof (Hr1 (Some a) 0) as Hra.
  assert ((match b with Some _ => matrix_storage target b kind 0 | None => (LINEARS_OK, 0) end).1
    <> LINEARS_ERROR_RANGE) as Hrb by (destruct b; auto; done).
  destruct (matrix_storage target (Some a) kind 0) as [sa ca] eqn:Ea.
  destruct (match b with Some _ => matrix_storage target b kind 0 | None => (LINEARS_OK, 0) end)
    as [sb cb] eqn:Eb. cbn [fst snd] in *.
  destruct (status_ok sa) eqn:Ka; [|intros E; injection E as <- <-; split; [done|split; [by intros ->|done]]].
  destruct (status_ok sb) eqn:Kb; [|intros E; injection E as <- <-; split; [done|split; [by intros ->|done]]].
  apply status_ok_true in Ka, Kb. subst sa sb. apply matrix_storage_spec in Ea as [-> Sa]; [|done].
  destruct (bool_decide (op = DOT) && _) eqn:Ed; [intros E; by injection E as <- <-|].
  destruct (_ || _) eqn:Es; [intros E; by injection E as <- <-|].
  destruct ((cell =? 0) || _); [intros E; by injection E as <- <-|].
  destruct (overlap _ _ _ _ || _); [intros E; by injection E as <- <-|].
  destruct (matrix_aliases _ _ _ _ _ _ _ _) eqn:Eal; cbn [status_ok];
    try (intros E; by injection E as <- <-).
  all: try (unfold matrix_aliases in Eal; cbv zeta in Eal; by destruct (existsb _ _)).
  assert (input_values a (elements a) kind m = LINEARS_OK /\
    optional b LINEARS_OK (fun b => input_values b cb kind m) = LINEARS_OK) as [-> ->]
    by (destruct Hkind as [-> | ->]; by destruct b).
  cbn [status_ok]. apply orb_false_iff in Es as [Es _].
  assert (match kind with F32 | F64 => float_reduce target op kind a b
      (match op with TRACE => rows a | _ => elements a end) m
    | _ => q_reduce target op kind a b (match op with TRACE => rows a | _ => elements a end) m end
    = q_reduced op a b m) as ->.
  { rewrite <- (q_reduce_spec op a b m Sa); [by destruct Hkind as [-> | ->]|apply Ha|apply Ha| |].
    - intros ->. rewrite bool_decide_eq_true_2 in Es by done. cbn [andb] in Es. by zbool.
    - intros ->. rewrite bool_decide_eq_true_2 in Ed by done. by destruct b. }
  destruct (status_ok (q_reduced op a b m).1) eqn:Kr; intros E; injection E as <- <-.
  - apply status_ok_true in Kr. split; [done|]. split; [|done]. intros _. split; [done|].
    unfold raw_int, raw_bits, set_raw. rewrite load_store_same, Z.mul_0_l, Z.add_0_r.
    split; [|apply store_same_outside]. by apply signed_bits_stored, q_reduced_range.
  - split; [done|]. split; [intros E; by rewrite E in Kr|auto].
Qed.
End Kernel.

(** ** Witnesses: in-place products on a 32-bit target *)

Definition sample_abi : abi :=
  mk_abi 4294967295 4294967295 12 4 8 (fun kind => element_size kind).

Lemma sample_abi_ok : abi_ok sample_abi.
Proof. split; cbn; [by left|lia|lia]. Qed.

(** A at 0x1000 with elements at 0x2000; the output descriptor at 0x1010 shares them. *)
Definition sample_a : linears_matrix_t := mk_matrix 4096 8192 2 2.
Definition sample_b : linears_matrix_t := mk_matrix 4128 8448 2 2.
Definition sample_out : linears_matrix_t := mk_matrix 4112 8192 2 2.

(** A = (1/2, 1/4; -1/2, 1/2), B = (1/2, 0; 1, -1). *)
Definition sample_mem : mem :=
  set_raw Q15 8192 0 16384 (set_raw Q15 8192 1 8192 (set_raw Q15 8192 2 (-16384) (set_raw Q15 8192 3 16384
  (set_raw Q15 8448 0 16384 (set_raw Q15 8448 1 0 (set_raw Q15 8448 2 32767 (set_raw Q15 8448 3 (-32768)
    (fun _ => 0)))))))).

Definition sample_product := linears_mul sample_abi Q15 (Some sample_a) (Some sample_b) (Some sample_out) 16384 32 sample_mem.

Lemma sample_wf : matrix_wf sample_abi sample_a /\ matrix_wf sample_abi sample_b /\ matrix_wf sample_abi sample_out.
Proof. by repeat split. Qed.

Lemma linears_q_matrix_witness :
  sample_product.1 = LINEARS_OK /\
  raw_int Q15 8192 0 sample_product.2 = 16384 /\ raw_int Q15 8192 3 sample_product.2 = -16384.
Proof.
  assert (sample_product.1 = LINEARS_OK) as E by by vm_compute.
  destruct (linears_q_matrix_spec sample_abi sample_abi_ok Q15 (or_introl eq_refl) MUL sample_a (Some sample_b)
    sample_out empty_scalar empty_scalar 16384 32 sample_mem sample_product.1 sample_product.2
    (proj1 sample_wf) (proj1 (proj2 sample_wf)) (proj2 (proj2 sample_wf)) ltac:(cbn; rlia) ltac:(cbn; rlia)
    (surjective_pairing _)) as [H _].
  split; [exact E|]. destruct (H E 0 0 ltac:(cbn; lia) ltac:(cbn; lia)) as [_ H0].
  destruct (H E 1 1 ltac:(cbn; lia) ltac:(cbn; lia)) as [_ H1].
  change (0 * cols sample_out + 0) with 0 in H0. change (1 * cols sample_out + 1) with 3 in H1.
  change (data sample_out) with 8192 in H0, H1. rewrite H0, H1. split; vm_compute; reflexivity.
Defined.

Lemma linears_q_reduction_witness :
  let r := linears_norm sample_abi Q15 (Some sample_a) 12288 sample_mem in
  r.1 = LINEARS_OK /\ raw_int Q15 12288 0 r.2 = 29537.
Proof.
  cbv zeta. set (r := linears_norm _ _ _ _ _).
  assert (r.1 = LINEARS_OK) as E by by vm_compute.
  destruct (linears_q_reduction_spec sample_abi sample_abi_ok Q15 (or_introl eq_refl) NORM sample_a None 12288
    sample_mem r.1 r.2 (proj1 sample_wf) I (surjective_pairing _)) as (_ & H & _).
  split; [exact E|]. destruct (H E) as (_ & -> & _). vm_compute. reflexivity.
Defined.

(** The failing product of the same matrices in f32 leaves memory alone: bit patterns of infinity. *)
Lemma matrix_compute_commits_witness :
  let m := set_raw F32 8192 0 2139095040 (fun _ => 0) in
  let r := linears_add sample_abi F32 (Some sample_a) (Some sample_b) (Some sample_out) 16384 32 m in
  r.1 = LINEARS_ERROR_RANGE /\ raw_bits F32 8192 0 r.2 = 2139095040.
Proof.
  cbv zeta. set (m := set_raw _ _ _ _ _). set (r := linears_add _ _ _ _ _ _ _ _).
  assert (r.1 = LINEARS_ERROR_RANGE) as E by by vm_compute.
  destruct (matrix_compute_commits sample_abi ADD F32 sample_a (Some sample_b) sample_out empty_scalar
    empty_scalar 16384 32 m r.1 r.2 (proj1 sample_wf) (proj1 (proj2 sample_wf)) (proj2 (proj2 sample_wf))
    eq_refl (surjective_pairing _)) as (_ & H & _).
  split; [exact E|]. unfold raw_bits. rewrite (load_bytes_ext _ _ m); [vm_compute; reflexivity|].
  intros p Hp. apply H; [by rewrite E|]. right. left.
  change (inside 8192 16 p). change (inside 8192 4 p) in Hp. unfold inside in *. lia.
Defined.
