(* ===== verification/Bitmap.v ===== *)
(** * Bitmaps: libs/bitmap/inc/xhive/bitmap.h

    A bitmap is an array of 64-bit words and a bit count.  The operations are
    modelled for the default build, in which [bitmap_assert] aborts; an access
    the C standard leaves undefined is an outcome of its own. *)
From S2P Require Import Prelude MachineInt.

(** What a call does: it returns, an assertion fails, or its behaviour is
    undefined (access past the array, shift by the width of the operand). *)
Inductive outcome (A : Type) : Type :=
| Ret (a : A)
| Abort
| Undefined.
Arguments Ret {A} a.
Arguments Abort {A}.
Arguments Undefined {A}.

Definition BITDAT_BITS : Z := 64.
Definition BITDAT_MAX : Z := 18446744073709551615.

Record xh_bitmap_t : Type := mk_bitmap { data : list Z; bits : Z }.

(** [data[i]] of an array with defined bounds. *)
Definition word_at (bm : xh_bitmap_t) (i : Z) : outcome Z :=
  match data bm !! Z.to_nat i with Some w => Ret w | None => Undefined end.

Definition bind_outcome {A B} (m : outcome A) (k : A -> outcome B) : outcome B :=
  match m with Ret a => k a | Abort => Abort | Undefined => Undefined end.

(** A bitmap argument is a pointer: [None] is NULL, which the assertions catch. *)
Definition with_bitmap {A} (bitmap : option xh_bitmap_t) (k : xh_bitmap_t -> outcome A)
    : outcome A :=
  match bitmap with Some bm => k bm | None => Abort end.

Definition with_assert {A} (c : bool) (m : outcome A) : outcome A := if c then m else Abort.

(** [data[i] = f(data[i])] *)
Definition update_word (bm : xh_bitmap_t) (i : Z) (f : Z -> Z) : outcome xh_bitmap_t :=
  bind_outcome (word_at bm i) (fun w =>
    Ret (mk_bitmap (<[Z.to_nat i := f w]> (data bm)) (bits bm))).

(** The allocator's two answers are arguments: does each request succeed. *)
Definition xh_bitmap_create (malloc_ok calloc_ok : bool) (nbits : Z) : option xh_bitmap_t :=
  if malloc_ok then
    if calloc_ok
    then Some (mk_bitmap (replicate (Z.to_nat (u64 (u64 (nbits + BITDAT_BITS) - 1) / BITDAT_BITS)) 0)
                         nbits)
    else None
  else None.

(** The loop over the whole words, then the masked remainder. *)
Fixpoint fill_words (bm : xh_bitmap_t) (value : bool) (i n : nat) : outcome xh_bitmap_t :=
  match n with
  | O => Ret bm
  | S m => bind_outcome (update_word bm (Z.of_nat i) (fun _ => if value then BITDAT_MAX else 0))
             (fun bm => fill_words bm value (S i) m)
  end.

Definition xh_bitmap_all_to (bitmap : option xh_bitmap_t) (value : bool) : outcome xh_bitmap_t :=
  with_bitmap bitmap (fun bm =>
    let qty := bits bm / BITDAT_BITS in
    let rem := bits bm mod BITDAT_BITS in
    bind_outcome (fill_words bm value 0 (Z.to_nat qty)) (fun bm =>
      if negb (rem =? 0) then
        update_word bm qty (fun _ =>
          if value
          then Z.shiftr (u64 (Z.shiftl BITDAT_MAX (BITDAT_BITS - rem))) (BITDAT_BITS - rem)
          else 0)
      else Ret bm)).

Definition xh_bitmap_set (bitmap : option xh_bitmap_t) (index : Z) : outcome xh_bitmap_t :=
  with_bitmap bitmap (fun bm =>
    with_assert (index <? bits bm)
      (update_word bm (index / BITDAT_BITS)
         (fun w => Z.lor w (u64 (Z.shiftl 1 (index mod BITDAT_BITS)))))).

Definition xh_bitmap_clear (bitmap : option xh_bitmap_t) (index : Z) : outcome xh_bitmap_t :=
  with_bitmap bitmap (fun bm =>
    with_assert (index <? bits bm)
      (update_word bm (index / BITDAT_BITS)
         (fun w => Z.land w (u64 (Z.lnot (u64 (Z.shiftl 1 (index mod BITDAT_BITS)))))))).

Definition xh_bitmap_test (bitmap : option xh_bitmap_t) (index : Z) : outcome bool :=
  with_bitmap bitmap (fun bm =>
    with_assert (index <? bits bm)
      (bind_outcome (word_at bm (index / BITDAT_BITS)) (fun w =>
         Ret (negb (Z.land w (u64 (Z.shiftl 1 (index mod BITDAT_BITS))) =? 0))))).

(** The fallback population count of compilers without the builtin. *)
Definition popcount_swar64 (x : Z) : Z :=
  let x := u64 (x - Z.land (Z.shiftr x 1) 0x5555555555555555) in
  let x := u64 (Z.land x 0x3333333333333333 + Z.land (Z.shiftr x 2) 0x3333333333333333) in
  let x := Z.land (u64 (x + Z.shiftr x 4)) 0x0F0F0F0F0F0F0F0F in
  Z.shiftr (u64 (x * 0x0101010101010101)) 56.

(** [__builtin_popcountll]: the number of one bits. *)
Definition builtin_popcountll (x : Z) : Z :=
  Z.of_nat (length (List.filter (fun k => Z.testbit x (Z.of_nat k)) (seq 0 64))).

Fixpoint count_words (bm : xh_bitmap_t) (i n : nat) (count : Z) : outcome Z :=
  match n with
  | O => Ret count
  | S m => bind_outcome (word_at bm (Z.of_nat i)) (fun val =>
             count_words bm (S i) m (u64 (count + builtin_popcountll val)))
  end.

Definition xh_bitmap_count_set_bits (bitmap : option xh_bitmap_t) : outcome Z :=
  with_bitmap bitmap (fun bm =>
    let len := u64 (u64 (bits bm + BITDAT_BITS) - 1) / BITDAT_BITS in
    count_words bm 0 (Z.to_nat len) 0).

(** The mask [1U << j] of the leftward searches: a 32-bit operand. *)
Definition mask_1U (j : nat) : outcome Z :=
  if (j <? 32)%nat then Ret (u32 (Z.shiftl 1 (Z.of_nat j))) else Undefined.

(** The inner loop, from bit [j] of word [i] down to 0; [Ret None] leaves it. *)
Fixpoint left_bits (word i : Z) (want : bool) (j : nat) : outcome (option Z) :=
  bind_outcome (mask_1U j) (fun mask =>
    if Bool.eqb (negb (Z.land word mask =? 0)) want
    then Ret (Some (Z.lor (u64 (i * BITDAT_BITS)) (Z.of_nat j)))
    else match j with O => Ret None | S j' => left_bits word i want j' end).

(** The outer loop, from word [i] down to 0; [skip] is its [continue] test and
    [first] the word of the start index. *)
Fixpoint left_words (bm : xh_bitmap_t) (want : bool) (skip : Z -> bool) (first i : nat)
    (start_rem : Z) : outcome Z :=
  bind_outcome (word_at bm (Z.of_nat i)) (fun word =>
    let next := match i with
                | O => Ret BITDAT_MAX
                | S i' => left_words bm want skip first i' start_rem
                end in
    if skip word then next
    else
      bind_outcome (left_bits word (Z.of_nat i) want
                      (if (i =? first)%nat then Z.to_nat start_rem else 63)) (fun found =>
        match found with Some index => Ret index | None => next end)).

Definition xh_bitmap_index_of_left_set (bitmap : option xh_bitmap_t) (start_index : Z) : outcome Z :=
  with_bitmap bitmap (fun bm =>
    with_assert (start_index <? bits bm)
      (let start_qty := Z.to_nat (start_index / BITDAT_BITS) in
       left_words bm true (fun w => w =? 0) start_qty start_qty (start_index mod BITDAT_BITS))).

Definition xh_bitmap_index_of_left (bitmap : option xh_bitmap_t) (start_index : Z) (bit_value : bool)
    : outcome Z :=
  with_bitmap bitmap (fun bm =>
    with_assert (start_index <? bits bm)
      (let start_qty := Z.to_nat (start_index / BITDAT_BITS) in
       left_words bm bit_value
         (fun w => (bit_value && (w =? 0)) || (negb bit_value && negb (w =? 0)))
         start_qty start_qty (start_index mod BITDAT_BITS))).

(** The inner loop of the rightward search, over bits [j .. 63] of word [i]. *)
Fixpoint right_bits (word i nbits : Z) (j n : nat) : option Z :=
  match n with
  | O => None
  | S m =>
      if Z.land word (u64 (Z.shiftl 1 (Z.of_nat j))) =? 0 then right_bits word i nbits (S j) m
      else let index := Z.lor (u64 (i * BITDAT_BITS)) (Z.of_nat j) in
           Some (if index <? nbits then index else BITDAT_MAX)
  end.

Fixpoint right_words (bm : xh_bitmap_t) (first : nat) (start_rem : nat) (i n : nat) : outcome Z :=
  match n with
  | O => Ret BITDAT_MAX
  | S m =>
      bind_outcome (word_at bm (Z.of_nat i)) (fun word =>
        if word =? 0 then right_words bm first start_rem (S i) m
        else
          let j := if (i =? first)%nat then start_rem else O in
          match right_bits word (Z.of_nat i) (bits bm) j (64 - j) with
          | Some index => Ret index
          | None => right_words bm first start_rem (S i) m
          end)
  end.

Definition xh_bitmap_index_of_right_set (bitmap : option xh_bitmap_t) (start_index : Z) : outcome Z :=
  with_bitmap bitmap (fun bm =>
    with_assert (start_index <? bits bm)
      (let qty := bits bm / BITDAT_BITS in
       let rem := bits bm mod BITDAT_BITS in
       let start_qty := Z.to_nat (start_index / BITDAT_BITS) in
       let stop := Z.to_nat (qty + (if negb (rem =? 0) then 1 else 0)) in
       right_words bm start_qty (Z.to_nat (start_index mod BITDAT_BITS)) start_qty (stop - start_qty))).

(** ** The abstract view: a bitmap is a set of indices below [bits] *)

Definition bm_bit (bm : xh_bitmap_t) (i : Z) : bool :=
  match data bm !! Z.to_nat (i / 64) with Some w => Z.testbit w (i mod 64) | None => false end.

(** The words cover [bits], hold 64-bit values, and the tail bits are zero. *)
Definition bitmap_ok (bm : xh_bitmap_t) : Prop :=
  0 <= bits bm <= 18446744073709551552 /\
  Z.of_nat (length (data bm)) = (bits bm + 63) / 64 /\
  Forall is_u64 (data bm) /\
  (forall i, bits bm <= i -> bm_bit bm i = false).

(** ** Lemmas: single bits of a word *)

Create HintDb bitmap.

Section Bits.
Lemma land_single w j : 0 <= j -> Z.land w (2 ^ j) = if Z.testbit w j then 2 ^ j else 0.
Proof.
  intros Hj. apply Z.bits_inj'. intros n Hn. rewrite Z.land_spec, Z.pow2_bits_eqb by lia.
  destruct (Z.eqb_spec j n) as [->|].
  - rewrite andb_true_r. destruct (Z.testbit w n); [by rewrite Z.pow2_bits_true by lia|].
    by rewrite Z.bits_0.
  - rewrite andb_false_r. destruct (Z.testbit w j); [|by rewrite Z.bits_0].
    by rewrite Z.pow2_bits_false by lia.
Qed.

Lemma land_single_zero w j : 0 <= j -> (Z.land w (2 ^ j) =? 0) = negb (Z.testbit w j).
Proof.
  intros. rewrite land_single by done. pose proof (Z.pow_pos_nonneg 2 j).
  destruct (Z.testbit w j); [apply Z.eqb_neq; lia|done].
Qed.

Lemma u64_pow2 j : 0 <= j < 64 -> u64 (Z.shiftl 1 j) = 2 ^ j.
Proof.
  intros. rewrite Z.shiftl_mul_pow2, Z.mul_1_l by lia. apply u64_id. split; [apply Z.pow_nonneg; lia|].
  change 18446744073709551616 with (2 ^ 64). apply Z.pow_lt_mono_r; lia.
Qed.

Lemma testbit_high w j : is_u64 w -> 64 <= j -> Z.testbit w j = false.
Proof.
  intros Hw Hj. rewrite <- (Z.mod_small w (2 ^ 64)) by (unfold is_u64 in Hw; lia).
  apply Z.mod_pow2_bits_high. lia.
Qed.

Lemma is_u64_bits w : 0 <= w -> (forall j, 64 <= j -> Z.testbit w j = false) -> is_u64 w.
Proof.
  intros H0 Hb. split; [done|]. destruct (Z.eq_dec w 0) as [->|]; [lia|].
  change 18446744073709551616 with (2 ^ 64). apply Z.log2_lt_pow2; [lia|].
  destruct (Z.lt_ge_cases (Z.log2 w) 64); [done|].
  pose proof (Hb (Z.log2 w) ltac:(done)). rewrite Z.bit_log2 in * by lia. done.
Qed.

Lemma lor_single_u64 w j : is_u64 w -> 0 <= j < 64 -> is_u64 (Z.lor w (2 ^ j)).
Proof.
  intros Hw Hj. apply is_u64_bits.
  - apply Z.lor_nonneg. split; [rlia|apply Z.pow_nonneg; lia].
  - intros k Hk. rewrite Z.lor_spec, testbit_high, Z.pow2_bits_false by (done || lia). done.
Qed.

Lemma land_u64 w m : is_u64 w -> 0 <= m -> is_u64 (Z.land w m).
Proof.
  intros Hw Hm. apply is_u64_bits.
  - apply Z.land_nonneg. left. rlia.
  - intros k Hk. by rewrite Z.land_spec, testbit_high.
Qed.

Lemma testbit_set w j k : 0 <= j -> Z.testbit (Z.lor w (2 ^ j)) k = (j =? k) || Z.testbit w k.
Proof. intros. rewrite Z.lor_spec, Z.pow2_bits_eqb by done. apply orb_comm. Qed.

Lemma testbit_clear w j k :
  is_u64 w -> 0 <= j < 64 -> 0 <= k ->
  Z.testbit (Z.land w (u64 (Z.lnot (2 ^ j)))) k = negb (j =? k) && Z.testbit w k.
Proof.
  intros Hw Hj Hk. rewrite Z.land_spec. destruct (Z.lt_ge_cases k 64).
  - unfold u64. change 18446744073709551616 with (2 ^ 64).
    rewrite Z.mod_pow2_bits_low, Z.lnot_spec, Z.pow2_bits_eqb by lia. apply andb_comm.
  - by rewrite testbit_high, andb_false_r by done.
Qed.

Lemma u64_zero_bits w : is_u64 w -> (forall j, 0 <= j < 64 -> Z.testbit w j = false) -> w = 0.
Proof.
  intros Hw Hb. apply Z.bits_inj'. intros n Hn. rewrite Z.bits_0.
  destruct (Z.lt_ge_cases n 64); [by apply Hb|by apply testbit_high].
Qed.

Lemma index_compose i j : 0 <= j < 64 -> 0 <= i -> i * 64 + j < 18446744073709551616 ->
  Z.lor (u64 (i * 64)) j = i * 64 + j.
Proof.
  intros. rewrite u64_id by rlia.
  apply lor_add_disjoint with 6; [lia|change (2 ^ 6) with 64; lia|].
  change (2 ^ 6) with 64. by apply Z.mod_mul.
Qed.
End Bits.

(** ** Lemmas: words of a well-formed bitmap *)

Section Words.
Variable bm : xh_bitmap_t.
Hypothesis Hok : bitmap_ok bm.

Lemma word_at_ok i : 0 <= i < bits bm ->
  exists w, data bm !! Z.to_nat (i / 64) = Some w /\ word_at bm (i / 64) = Ret w /\ is_u64 w.
Proof.
  intros Hi. destruct Hok as (Hb & Hlen & Hall & _).
  destruct (lookup_lt_is_Some_2 (data bm) (Z.to_nat (i / 64))) as [w Hw].
  { apply Nat2Z.inj_lt. rewrite Hlen, Z2Nat.id by (apply Z.div_pos; lia).
    apply Z.div_lt_upper_bound; [lia|]. pose proof (Z.div_mod (bits bm + 63) 64 ltac:(lia)).
    pose proof (Z.mod_pos_bound (bits bm + 63) 64 ltac:(lia)). lia. }
  exists w. unfold word_at. rewrite Hw. split; [done|split; [done|]].
  by eapply Forall_lookup_1.
Qed.

Lemma bm_bit_word i w :
  data bm !! Z.to_nat (i / 64) = Some w -> bm_bit bm i = Z.testbit w (i mod 64).
Proof. intros Hw. unfold bm_bit. by rewrite Hw. Qed.

(** Rewriting one word changes the bits of that word only. *)
Lemma update_word_spec index f :
  0 <= index < bits bm ->
  (forall w, is_u64 w -> is_u64 (f w)) ->
  (forall w k, is_u64 w -> 0 <= k < 64 -> bits bm <= index / 64 * 64 + k ->
     Z.testbit w k = false -> Z.testbit (f w) k = false) ->
  exists bm', update_word bm (index / 64) f = Ret bm' /\ bitmap_ok bm' /\ bits bm' = bits bm /\
    forall i, 0 <= i ->
      bm_bit bm' i = if i / 64 =? index / 64
                     then match data bm !! Z.to_nat (i / 64) with
                          | Some w => Z.testbit (f w) (i mod 64) | None => false end
                     else bm_bit bm i.
Proof.
  intros Hi Hf Htail. destruct (word_at_ok index Hi) as (w & Hlk & Hw & Hu).
  unfold update_word. rewrite Hw. cbn [bind_outcome]. eexists. split; [done|].
  assert (forall i, 0 <= i ->
    bm_bit (mk_bitmap (<[Z.to_nat (index / 64) := f w]> (data bm)) (bits bm)) i =
    if i / 64 =? index / 64
    then match data bm !! Z.to_nat (i / 64) with
         | Some w => Z.testbit (f w) (i mod 64) | None => false end
    else bm_bit bm i) as Hbit.
  { intros i H0. unfold bm_bit. cbn [data]. destruct (Z.eqb_spec (i / 64) (index / 64)) as [E|E].
    - rewrite E, Hlk, list_lookup_insert_eq by (by eapply lookup_lt_Some). done.
    - rewrite list_lookup_insert_ne; [done|].
      pose proof (Z.div_pos i 64). pose proof (Z.div_pos index 64). lia. }
  split; [|split; [done|exact Hbit]].
  destruct Hok as (Hb & Hlen & Hall & Hz). unfold bitmap_ok. cbn [data bits].
  rewrite length_insert. split; [done|]. split; [done|]. split.
  { by apply Forall_insert; [|apply Hf]. }
  intros i Hge. rewrite Hbit by lia. specialize (Hz i Hge).
  destruct (Z.eqb_spec (i / 64) (index / 64)) as [E|]; [|done].
  unfold bm_bit in Hz. rewrite E, Hlk in *. apply Htail; [done|apply Z.mod_pos_bound; lia| |done].
  rewrite <- E. pose proof (Z.div_mod i 64). lia.
Qed.
End Words.

Section SetClear.
Variables (bm : xh_bitmap_t) (index : Z).
Hypothesis Hok : bitmap_ok bm.
Hypothesis Hindex : 0 <= index.

Lemma same_word i : 0 <= i -> i / 64 = index / 64 -> (index mod 64 =? i mod 64) = (index =? i).
Proof.
  intros H0 E. pose proof (Z.div_mod i 64 ltac:(lia)). pose proof (Z.div_mod index 64 ltac:(lia)).
  destruct (Z.eqb_spec index i) as [->|]; [apply Z.eqb_refl|]. apply Z.eqb_neq. lia.
Qed.

Lemma index_mod : 0 <= index mod 64 < 64.
Proof. apply Z.mod_pos_bound. lia. Qed.

Lemma different_word i : i / 64 <> index / 64 -> (index =? i) = false.
Proof. intros. apply Z.eqb_neq. congruence. Qed.

Lemma set_in_range : index < bits bm ->
  exists bm', xh_bitmap_set (Some bm) index = Ret bm' /\ bitmap_ok bm' /\ bits bm' = bits bm /\
    forall i, 0 <= i -> bm_bit bm' i = (index =? i) || bm_bit bm i.
Proof.
  intros Hlt. unfold xh_bitmap_set, with_bitmap, with_assert, BITDAT_BITS.
  rewrite (proj2 (Z.ltb_lt _ _) Hlt), u64_pow2 by apply index_mod.
  pose proof index_mod as Hm.
  destruct (update_word_spec bm Hok index (fun w => Z.lor w (2 ^ (index mod 64))))
    as (bm' & E & Hbm' & Hbits & Hbit); [lia| | |].
  - intros. by apply lor_single_u64.
  - intros w k Hw Hk Hge Hzero. rewrite testbit_set, Hzero by lia.
    destruct (Z.eqb_spec (index mod 64) k); [|done].
    pose proof (Z.div_mod index 64 ltac:(lia)). lia.
  - exists bm'. split; [done|]. split; [done|]. split; [done|]. intros i H0. rewrite Hbit by done.
    destruct (Z.eqb_spec (i / 64) (index / 64)) as [Ei|Ei].
    + destruct (word_at_ok bm Hok index ltac:(lia)) as (w & Hlk & _ & Hw).
      rewrite Ei, Hlk. unfold bm_bit. rewrite Ei, Hlk, testbit_set by lia. by rewrite same_word.
    + by rewrite different_word.
Qed.

Lemma clear_in_range : index < bits bm ->
  exists bm', xh_bitmap_clear (Some bm) index = Ret bm' /\ bitmap_ok bm' /\ bits bm' = bits bm /\
    forall i, 0 <= i -> bm_bit bm' i = negb (index =? i) && bm_bit bm i.
Proof.
  intros Hlt. unfold xh_bitmap_clear, with_bitmap, with_assert, BITDAT_BITS.
  rewrite (proj2 (Z.ltb_lt _ _) Hlt), u64_pow2 by apply index_mod.
  pose proof index_mod as Hm.
  destruct (update_word_spec bm Hok index
    (fun w => Z.land w (u64 (Z.lnot (2 ^ (index mod 64)))))) as (bm' & E & Hbm' & Hbits & Hbit);
    [lia| | |].
  - intros. apply land_u64; [done|]. pose proof (u64_range (Z.lnot (2 ^ (index mod 64)))). rlia.
  - intros w k Hw Hk Hge Hzero. rewrite testbit_clear, Hzero by (done || lia). apply andb_false_r.
  - exists bm'. split; [done|]. split; [done|]. split; [done|]. intros i H0. rewrite Hbit by done.
    destruct (Z.eqb_spec (i / 64) (index / 64)) as [Ei|Ei].
    + destruct (word_at_ok bm Hok index ltac:(lia)) as (w & Hlk & _ & Hw).
      rewrite Ei, Hlk. unfold bm_bit. rewrite Ei, Hlk.
      rewrite testbit_clear by (done || apply Z.mod_pos_bound; lia). by rewrite same_word.
    + by rewrite different_word.
Qed.

Lemma test_in_range : index < bits bm -> xh_bitmap_test (Some bm) index = Ret (bm_bit bm index).
Proof.
  intros Hlt. unfold xh_bitmap_test, with_bitmap, with_assert, BITDAT_BITS.
  rewrite (proj2 (Z.ltb_lt _ _) Hlt). pose proof index_mod.
  destruct (word_at_ok bm Hok index ltac:(lia)) as (w & Hlk & -> & Hw). cbn [bind_outcome].
  rewrite u64_pow2, land_single_zero, negb_involutive by lia. unfold bm_bit. by rewrite Hlk.
Qed.
End SetClear.

(** xh_bitmap_set, _clear and _test implement insertion, deletion and
    membership on the set of indices below [bits]: in range they return, keep the
    bitmap well formed and change no other bit; an index at or past [bits], or a
    NULL bitmap, aborts at the assertion. *)
Theorem bitmap_set_clear_test (bm : xh_bitmap_t) (index : Z) :
  bitmap_ok bm -> 0 <= index ->
  (index < bits bm ->
     (exists bm', xh_bitmap_set (Some bm) index = Ret bm' /\ bitmap_ok bm' /\ bits bm' = bits bm /\
        (forall i, 0 <= i -> bm_bit bm' i = (index =? i) || bm_bit bm i)) /\
     (exists bm', xh_bitmap_clear (Some bm) index = Ret bm' /\ bitmap_ok bm' /\ bits bm' = bits bm /\
        (forall i, 0 <= i -> bm_bit bm' i = negb (index =? i) && bm_bit bm i)) /\
     xh_bitmap_test (Some bm) index = Ret (bm_bit bm index)) /\
  (bits bm <= index ->
     xh_bitmap_set (Some bm) index = Abort /\ xh_bitmap_clear (Some bm) index = Abort /\
     xh_bitmap_test (Some bm) index = Abort) /\
  xh_bitmap_set None index = Abort /\ xh_bitmap_test None index = Abort.
Proof.
  intros Hok H0. split; [|split; [|done]].
  - intros Hlt. auto using set_in_range, clear_in_range, test_in_range.
  - intros Hge. unfold xh_bitmap_set, xh_bitmap_clear, xh_bitmap_test, with_bitmap, with_assert.
    by rewrite (proj2 (Z.ltb_ge _ _) Hge).
Qed.

(** ** Creation and filling *)

Lemma create_words (nbits : Z) :
  0 <= nbits <= 18446744073709551552 ->
  u64 (u64 (nbits + BITDAT_BITS) - 1) / BITDAT_BITS = (nbits + 63) / 64.
Proof.
  intros. unfold BITDAT_BITS.
  assert (u64 (u64 (nbits + 64) - 1) = nbits + 63) as ->; [|done].
  change (u64 (nbits + 64) - 1) with (u64 (nbits + 64) + (-1)).
  rewrite u64_add_l, u64_id by rlia. lia.
Qed.

Lemma lookup_zero_word (n k : nat) w : replicate n 0 !! k = Some w -> w = 0.
Proof. intros H%lookup_replicate. tauto. Qed.

Section Fill.
(** The words already filled by the loop. *)
Lemma fill_words_spec (value : bool) n : forall i bm,
  (i + n <= length (data bm))%nat ->
  exists bm', fill_words bm value i n = Ret bm' /\ bits bm' = bits bm /\
    length (data bm') = length (data bm) /\
    forall k, data bm' !! k =
      if decide (i <= k < i + n)%nat then Some (if value then BITDAT_MAX else 0) else data bm !! k.
Proof.
  induction n as [|n IH]; intros i bm Hlen.
  - exists bm. cbn. split; [done|]. split; [done|]. split; [done|].
    intros k. rewrite decide_False by lia. done.
  - cbn [fill_words]. unfold update_word, word_at. rewrite Nat2Z.id.
    destruct (lookup_lt_is_Some_2 (data bm) i ltac:(lia)) as [w Hw]. rewrite Hw. cbn [bind_outcome].
    set (b := if value then BITDAT_MAX else 0) in *.
    destruct (IH (S i) (mk_bitmap (<[i:=b]> (data bm)) (bits bm))) as (bm' & E & Hb & Hl & Hk).
    { cbn [data]. rewrite length_insert. lia. }
    exists bm'. split; [done|]. split; [done|]. cbn [data] in *. rewrite length_insert in Hl.
    split; [done|]. intros k. rewrite Hk.
    destruct (decide (k = i)) as [->|].
    + rewrite decide_False, decide_True by lia. apply list_lookup_insert_eq. lia.
    + rewrite list_lookup_insert_ne by done. repeat case_decide; (done || lia).
Qed.
End Fill.

Lemma tail_mask rem : 0 < rem < 64 ->
  Z.shiftr (u64 (Z.shiftl BITDAT_MAX (BITDAT_BITS - rem))) (BITDAT_BITS - rem) = Z.ones rem.
Proof.
  intros Hr. unfold BITDAT_BITS, BITDAT_MAX.
  assert (0 < 2 ^ (64 - rem)) by (apply Z.pow_pos_nonneg; lia).
  assert (0 < 2 ^ rem) by (apply Z.pow_pos_nonneg; lia).
  assert (18446744073709551616 = 2 ^ rem * 2 ^ (64 - rem)) as E
    by (rewrite <- Z.pow_add_r by lia; by replace (rem + (64 - rem)) with 64 by lia).
  rewrite Z.shiftl_mul_pow2, Z.shiftr_div_pow2, Z.ones_equiv by lia.
  unfold u64. rewrite E. rewrite Z.mul_mod_distr_r by lia. rewrite Z.div_mul by lia.
  replace 18446744073709551615 with (2 ^ rem - 1 + (2 ^ (64 - rem) - 1) * 2 ^ rem) by lia.
  rewrite Z.mod_add by lia. rewrite Z.mod_small by lia. lia.
Qed.

Lemma filled_bit (value : bool) j :
  0 <= j < 64 -> Z.testbit (if value then BITDAT_MAX else 0) j = value.
Proof.
  intros. destruct value; [|apply Z.bits_0].
  change BITDAT_MAX with (Z.ones 64). by rewrite Z.ones_spec_low.
Qed.

Lemma tail_bit (value : bool) rem j :
  0 < rem < 64 -> 0 <= j -> Z.testbit (if value then Z.ones rem else 0) j = value && (j <? rem).
Proof.
  intros. destruct value; [|by rewrite Z.bits_0]. cbn [andb]. destruct (Z.ltb_spec j rem).
  - by rewrite Z.ones_spec_low by lia.
  - by rewrite Z.ones_spec_high by lia.
Qed.

Lemma ones_u64 r : 0 <= r <= 64 -> is_u64 (Z.ones r).
Proof.
  intros. rewrite Z.ones_equiv. assert (2 ^ r <= 2 ^ 64) by (apply Z.pow_le_mono_r; lia).
  pose proof (Z.pow_pos_nonneg 2 r). change (2 ^ 64) with 18446744073709551616 in *. rlia.
Qed.

(** The number of words, by the remainder of the bit count. *)
Lemma words_by_rem n : 0 <= n ->
  (n + 63) / 64 = if n mod 64 =? 0 then n / 64 else n / 64 + 1.
Proof.
  intros. pose proof (Z.div_mod n 64 ltac:(lia)). pose proof (Z.mod_pos_bound n 64 ltac:(lia)).
  case_if; symmetry; [apply Z.div_unique with 63|apply Z.div_unique with (n mod 64 - 1)]; lia.
Qed.

Section AllTo.
Variables (bm : xh_bitmap_t) (value : bool).
Hypothesis Hok : bitmap_ok bm.

Let q : nat := Z.to_nat (bits bm / 64).
Let r : Z := bits bm mod 64.

(** The word at every position after [xh_bitmap_all_to]. *)
Definition filled_word (k : nat) : option Z :=
  if decide (k < q)%nat then Some (if value then Z.ones 64 else 0)
  else if decide (k = q /\ r <> 0) then Some (if value then Z.ones r else 0) else None.

Lemma all_to_words :
  exists bm', xh_bitmap_all_to (Some bm) value = Ret bm' /\ bits bm' = bits bm /\
    length (data bm') = length (data bm) /\ forall k, data bm' !! k = filled_word k.
Proof.
  destruct Hok as (Hb & Hlen & _). unfold xh_bitmap_all_to, with_bitmap, BITDAT_BITS.
  rewrite words_by_rem in Hlen by lia. fold q r. fold r in Hlen.
  pose proof (Z.div_pos (bits bm) 64 ltac:(lia) ltac:(lia)) as Hq.
  pose proof (Z.mod_pos_bound (bits bm) 64 ltac:(lia)) as Hm. fold r in Hm.
  destruct (fill_words_spec value q 0 bm) as (b1 & -> & Hb1 & Hl1 & Hk1).
  { unfold q in *. revert Hlen. case_if; lia. }
  cbn [bind_outcome]. unfold filled_word. destruct (Z.eqb_spec r 0) as [Er|Er]; cbn [negb].
  - exists b1. do 3 (split; [done|]). intros k. rewrite Hk1. repeat case_decide; try done; try lia.
    apply lookup_ge_None_2. unfold q in *. lia.
  - rewrite tail_mask by lia. unfold update_word, word_at. fold q.
    destruct (lookup_lt_is_Some_2 (data b1) q) as [w Hw]; [rewrite Hl1; unfold q in *; lia|].
    rewrite Hw. cbn [bind_outcome]. eexists. split; [done|]. cbn [data bits].
    rewrite length_insert. do 2 (split; [done|]). intros k.
    destruct (decide (k = q)) as [->|Hne].
    + rewrite decide_False, decide_True by lia. apply list_lookup_insert_eq. rewrite Hl1. unfold q in *. lia.
    + rewrite list_lookup_insert_ne, Hk1 by done. repeat case_decide; try done; try lia.
      apply lookup_ge_None_2. unfold q in *. lia.
Qed.

Lemma all_to_spec :
  exists bm', xh_bitmap_all_to (Some bm) value = Ret bm' /\ bitmap_ok bm' /\ bits bm' = bits bm /\
    forall i, 0 <= i -> bm_bit bm' i = value && (i <? bits bm).
Proof.
  destruct all_to_words as (bm' & E & Hbits & Hlen & Hw). exists bm'. split; [done|].
  destruct Hok as (Hb & Hl & _).
  pose proof (Z.div_mod (bits bm) 64 ltac:(lia)) as Hdm.
  pose proof (Z.mod_pos_bound (bits bm) 64 ltac:(lia)) as Hm. fold r in Hm, Hdm.
  assert (forall i, 0 <= i -> bm_bit bm' i = value && (i <? bits bm)) as Hbit.
  { intros i Hi. unfold bm_bit. rewrite Hw. unfold filled_word.
    pose proof (Z.div_mod i 64 ltac:(lia)). pose proof (Z.mod_pos_bound i 64 ltac:(lia)).
    pose proof (Z.div_pos (bits bm) 64 ltac:(lia) ltac:(lia)).
    case_decide; [|case_decide]; unfold q in *.
    - rewrite (filled_bit value) by done. rewrite (proj2 (Z.ltb_lt i (bits bm))) by lia.
      by rewrite andb_true_r.
    - rewrite tail_bit by lia. f_equal.
      destruct (Z.ltb_spec (i mod 64) r), (Z.ltb_spec i (bits bm)); (done || lia).
    - rewrite (proj2 (Z.ltb_ge i (bits bm))) by lia. by rewrite andb_false_r. }
  split; [|done]. unfold bitmap_ok. rewrite Hbits, Hlen. do 2 (split; [done|]). split.
  - apply Forall_lookup_2. intros k w. rewrite Hw. unfold filled_word.
    repeat case_decide; intros [= <-]; destruct value; try rlia; apply ones_u64; lia.
  - intros i Hi. rewrite Hbit by lia. rewrite (proj2 (Z.ltb_ge i (bits bm))) by lia.
    apply andb_false_r.
Qed.
End AllTo.

Lemma create_spec (nbits : Z) :
  0 <= nbits <= 18446744073709551552 ->
  exists new, xh_bitmap_create true true nbits = Some new /\ bitmap_ok new /\ bits new = nbits /\
    forall i, bm_bit new i = false.
Proof.
  intros Hn. unfold xh_bitmap_create. rewrite create_words by done. eexists. split; [done|].
  set (new := mk_bitmap _ _).
  assert (forall i, bm_bit new i = false) as Hz.
  { intros i. unfold bm_bit. subst new. cbn [data]. destruct (replicate _ _ !! _) eqn:E; [|done].
    apply lookup_zero_word in E as ->. apply Z.bits_0. }
  split; [|done]. unfold bitmap_ok. subst new. cbn [data bits] in *. rewrite length_replicate.
  split; [done|]. split; [apply Z2Nat.id, Z.div_pos; lia|]. split; [|done].
  apply Forall_replicate. rlia.
Qed.

(** A created bitmap is well formed and empty, creation fails exactly when an
    allocation fails, and xh_bitmap_all_to sets every index below [bits] to the
    value while the tail bits of the last word stay zero. *)
Theorem bitmap_create_all_to (nbits : Z) (malloc_ok calloc_ok : bool) (bm : xh_bitmap_t) (value : bool) :
  0 <= nbits <= 18446744073709551552 -> bitmap_ok bm ->
  (xh_bitmap_create malloc_ok calloc_ok nbits = None <-> malloc_ok && calloc_ok = false) /\
  (exists new, xh_bitmap_create true true nbits = Some new /\ bitmap_ok new /\ bits new = nbits /\
     forall i, bm_bit new i = false) /\
  (exists bm', xh_bitmap_all_to (Some bm) value = Ret bm' /\ bitmap_ok bm' /\ bits bm' = bits bm /\
     forall i, 0 <= i -> bm_bit bm' i = value && (i <? bits bm)).
Proof.
  intros Hn Hok. split; [|split; [by apply create_spec|by apply all_to_spec]].
  unfold xh_bitmap_create. by destruct malloc_ok, calloc_ok.
Qed.

(** ** Counting *)

Definition set_indices (bm : xh_bitmap_t) (from n : nat) : list nat :=
  List.filter (fun i => bm_bit bm (Z.of_nat i)) (seq from n).

Section Count.
Variable bm : xh_bitmap_t.
Hypothesis Hok : bitmap_ok bm.

Lemma filter_ext_seq (f g : nat -> bool) from n :
  (forall i, (from <= i < from + n)%nat -> f i = g i) ->
  List.filter f (seq from n) = List.filter g (seq from n).
Proof.
  revert from. induction n as [|n IH]; intros from Hfg; [done|]. cbn.
  rewrite Hfg by lia. rewrite (IH (S from)); [done|]. intros. apply Hfg. lia.
Qed.

Lemma filter_shift (f : nat -> bool) from n :
  length (List.filter f (seq from n)) = length (List.filter (fun k => f (from + k)%nat) (seq 0 n)).
Proof.
  rewrite <- (Nat.add_0_r from) at 1. generalize O. induction n as [|n IH]; intros k; [done|].
  cbn. rewrite <- Nat.add_succ_r. by case_match; cbn; rewrite IH.
Qed.

Lemma popcount_word k w :
  data bm !! k = Some w ->
  builtin_popcountll w = Z.of_nat (length (set_indices bm (64 * k) 64)).
Proof.
  intros Hw. unfold builtin_popcountll, set_indices. rewrite (filter_shift _ (64 * k)). do 2 f_equal.
  apply filter_ext_seq. intros i Hi. unfold bm_bit.
  replace (Z.of_nat (64 * k + i) / 64) with (Z.of_nat k) by (apply Z.div_unique with (Z.of_nat i); lia).
  replace (Z.of_nat (64 * k + i) mod 64) with (Z.of_nat i)
    by (apply Z.mod_unique with (Z.of_nat k); lia).
  by rewrite Nat2Z.id, Hw.
Qed.

Lemma set_indices_length from n : (length (set_indices bm from n) <= n)%nat.
Proof. unfold set_indices. rewrite List.filter_length_le. by rewrite length_seq. Qed.

Lemma count_words_spec n : forall i c,
  (i + n <= length (data bm))%nat -> 0 <= c -> c + 64 * Z.of_nat n < 18446744073709551616 ->
  count_words bm i n c = Ret (c + Z.of_nat (length (set_indices bm (64 * i) (64 * n)))).
Proof.
  induction n as [|n IH]; intros i c Hlen Hc Hlim; cbn [count_words].
  - unfold set_indices. rewrite Nat.mul_0_r. cbn. by rewrite Z.add_0_r.
  - unfold word_at. rewrite Nat2Z.id.
    destruct (lookup_lt_is_Some_2 (data bm) i ltac:(lia)) as [w Hw].
    rewrite Hw. cbn [bind_outcome]. rewrite (popcount_word i w Hw).
    pose proof (set_indices_length (64 * i) 64).
    rewrite u64_id by rlia. rewrite IH by lia. f_equal.
    unfold set_indices. replace (64 * S n)%nat with (64 + 64 * n)%nat by lia.
    rewrite seq_app, List.filter_app, length_app.
    replace (64 * i + 64)%nat with (64 * S i)%nat by lia. lia.
Qed.

Lemma filter_none (f : nat -> bool) from n :
  (forall i, (from <= i < from + n)%nat -> f i = false) -> List.filter f (seq from n) = [].
Proof.
  intros Hf. rewrite (filter_ext_seq f (fun _ => false) from n Hf).
  generalize (seq from n). by induction l.
Qed.

Lemma indices_below_bits m :
  bits bm <= Z.of_nat m -> set_indices bm 0 m = set_indices bm 0 (Z.to_nat (bits bm)).
Proof.
  intros Hm. destruct Hok as (Hb & _ & _ & Hz). unfold set_indices.
  replace m with (Z.to_nat (bits bm) + (m - Z.to_nat (bits bm)))%nat by lia.
  rewrite seq_app, List.filter_app, (filter_none _ (0 + _)), app_nil_r; [done|].
  intros i Hi. apply Hz. lia.
Qed.
End Count.

(** xh_bitmap_count_set_bits returns exactly the number of indices below [bits]
    that are set, for every well-formed bitmap. *)
Theorem bitmap_count_set_bits (bm : xh_bitmap_t) :
  bitmap_ok bm -> bits bm <= 18446744073709551552 - 64 ->
  xh_bitmap_count_set_bits (Some bm) =
    Ret (Z.of_nat (length (set_indices bm 0 (Z.to_nat (bits bm))))).
Proof.
  intros Hok Hlim. unfold xh_bitmap_count_set_bits, with_bitmap.
  pose proof Hok as (Hb & Hlen & _). rewrite create_words by done. rewrite <- Hlen, Nat2Z.id.
  pose proof (Z.div_mod (bits bm + 63) 64 ltac:(lia)).
  pose proof (Z.mod_pos_bound (bits bm + 63) 64 ltac:(lia)).
  rewrite count_words_spec by lia. rewrite Z.add_0_l. do 3 f_equal.
  apply indices_below_bits; [done|]. lia.
Qed.

(** ** Searching *)

(** [r] answers a rightward search from [start]: the least set index, or none. *)
Definition right_answer (bm : xh_bitmap_t) (start r : Z) : Prop :=
  (r = BITDAT_MAX /\ forall i, start <= i < bits bm -> bm_bit bm i = false) \/
  (start <= r < bits bm /\ bm_bit bm r = true /\ forall i, start <= i < r -> bm_bit bm i = false).

(** [r] answers a leftward search: the greatest index at or below [start]. *)
Definition left_answer (bm : xh_bitmap_t) (want : bool) (start r : Z) : Prop :=
  (r = BITDAT_MAX /\ forall i, 0 <= i <= start -> bm_bit bm i = negb want) \/
  (0 <= r <= start /\ bm_bit bm r = want /\ forall i, r < i <= start -> bm_bit bm i = negb want).

Section Right.
Variable bm : xh_bitmap_t.
Hypothesis Hok : bitmap_ok bm.

Lemma bit_in_word i j w :
  0 <= i -> 0 <= j < 64 -> data bm !! Z.to_nat i = Some w -> bm_bit bm (i * 64 + j) = Z.testbit w j.
Proof.
  intros Hi Hj Hw. unfold bm_bit.
  replace ((i * 64 + j) / 64) with i by (apply Z.div_unique with j; lia).
  replace ((i * 64 + j) mod 64) with j by (apply Z.mod_unique with i; lia). by rewrite Hw.
Qed.

(** The bits [j .. 63] of word [i], scanned upwards. *)
Lemma right_bits_spec i w n : forall j,
  0 <= i -> i * 64 + 64 <= 18446744073709551616 -> data bm !! Z.to_nat i = Some w ->
  (j + n = 64)%nat ->
  match right_bits w i (bits bm) j n with
  | Some r => right_answer bm (i * 64 + Z.of_nat j) r
  | None => forall k, i * 64 + Z.of_nat j <= k < i * 64 + 64 -> bm_bit bm k = false
  end.
Proof.
  induction n as [|n IH]; intros j Hi Hmax Hw Hj; cbn [right_bits]; [intros; lia|].
  rewrite u64_pow2, land_single_zero by lia.
  pose proof (bit_in_word i (Z.of_nat j) w Hi ltac:(lia) Hw) as Hbit.
  destruct (Z.testbit w (Z.of_nat j)) eqn:E; cbn [negb].
  - unfold BITDAT_BITS. rewrite index_compose by lia. unfold right_answer. case_if.
    + right. split; [lia|]. split; [done|]. intros; lia.
    + destruct Hok as (_ & _ & _ & Hz). rewrite Hz in Hbit by lia. done.
  - specialize (IH (S j) Hi Hmax Hw ltac:(lia)).
    assert (forall k, i * 64 + Z.of_nat j <= k ->
      k = i * 64 + Z.of_nat j \/ i * 64 + Z.of_nat (S j) <= k) as Hsplit by lia.
    destruct (right_bits _ _ _ _ _) as [r|].
    + destruct IH as [[-> Hn]|(Hr & Hb & Hn)]; [left|right].
      * split; [done|]. intros k Hk. destruct (Hsplit k); [lia|by subst|apply Hn; lia].
      * split; [lia|split; [done|]]. intros k Hk. destruct (Hsplit k); [lia|by subst|apply Hn; lia].
    + intros k Hk. destruct (Hsplit k); [lia|by subst|apply IH; lia].
Qed.

Lemma zero_word i j w : 0 <= i -> 0 <= j < 64 -> data bm !! Z.to_nat i = Some w -> w = 0 ->
  bm_bit bm (i * 64 + j) = false.
Proof. intros Hi Hj Hw ->. by rewrite (bit_in_word i j 0), Z.bits_0. Qed.

Lemma right_words_spec first start_rem n : forall i,
  (first <= i)%nat -> (start_rem < 64)%nat -> (i + n = length (data bm))%nat ->
  let from := if (i =? first)%nat then Z.of_nat i * 64 + Z.of_nat start_rem else Z.of_nat i * 64 in
  exists r, right_words bm first start_rem i n = Ret r /\ right_answer bm from r.
Proof.
  pose proof Hok as (Hb & Hlen & _).
  pose proof (Z.div_mod (bits bm + 63) 64 ltac:(lia)).
  pose proof (Z.mod_pos_bound (bits bm + 63) 64 ltac:(lia)).
  induction n as [|n IH]; intros i Hfirst Hrem Hn from; cbn [right_words].
  - exists BITDAT_MAX. split; [done|]. left. split; [done|]. intros k Hk.
    revert Hk. subst from. case_if; lia.
  - unfold word_at. rewrite Nat2Z.id.
    destruct (lookup_lt_is_Some_2 (data bm) i ltac:(lia)) as [w Hw].
    rewrite Hw. cbn [bind_outcome].
    destruct (IH (S i) ltac:(lia) Hrem ltac:(lia)) as (r & Er & Hr).
    rewrite (proj2 (Nat.eqb_neq (S i) first)) in Hr by lia.
    assert (from = Z.of_nat i * 64 + Z.of_nat (if (i =? first)%nat then start_rem else 0)) as ->
      by (subst from; case_if; lia).
    set (j := if (i =? first)%nat then start_rem else O).
    assert (j < 64)%nat by (subst j; case_if; lia). clearbody j.
    assert ((forall k, Z.of_nat i * 64 + Z.of_nat j <= k < Z.of_nat i * 64 + 64 -> bm_bit bm k = false) ->
      exists r0, right_words bm first start_rem (S i) n = Ret r0 /\
        right_answer bm (Z.of_nat i * 64 + Z.of_nat j) r0) as Hskip.
    { intros Hnone. exists r. split; [done|].
      assert (forall k, Z.of_nat i * 64 + Z.of_nat j <= k ->
        k < Z.of_nat i * 64 + 64 \/ Z.of_nat (S i) * 64 <= k) as Hsplit by lia.
      destruct Hr as [[-> Hr]|(Hr & Hbit & Hno)]; [left|right].
      - split; [done|]. intros k Hk. destruct (Hsplit k); [lia|apply Hnone; lia|apply Hr; lia].
      - split; [lia|split; [done|]].
        intros k Hk. destruct (Hsplit k); [lia|apply Hnone; lia|apply Hno; lia]. }
    case_if.
    + apply Hskip. intros k Hk.
      replace k with (Z.of_nat i * 64 + (k - Z.of_nat i * 64)) by lia.
      apply zero_word with w; [lia|lia|by rewrite Nat2Z.id|done].
    + pose proof (right_bits_spec (Z.of_nat i) w (64 - j) j ltac:(lia) ltac:(lia)
        ltac:(by rewrite Nat2Z.id) ltac:(lia)) as Hbits.
      destruct (right_bits _ _ _ _ _) as [r0|]; [by exists r0|by apply Hskip].
Qed.
End Right.

(** xh_bitmap_index_of_right_set returns the least set index at or above the
    start, or BITDAT_MAX when there is none; it never reads past the words. *)
Theorem bitmap_index_of_right_set (bm : xh_bitmap_t) (start : Z) :
  bitmap_ok bm -> 0 <= start < bits bm ->
  exists r, xh_bitmap_index_of_right_set (Some bm) start = Ret r /\ right_answer bm start r.
Proof.
  intros Hok Hs. unfold xh_bitmap_index_of_right_set, with_bitmap, with_assert, BITDAT_BITS.
  rewrite (proj2 (Z.ltb_lt _ _)) by lia.
  pose proof Hok as (Hb & Hlen & _). rewrite words_by_rem in Hlen by lia.
  pose proof (Z.div_mod (bits bm) 64 ltac:(lia)). pose proof (Z.mod_pos_bound (bits bm) 64 ltac:(lia)).
  pose proof (Z.div_mod start 64 ltac:(lia)). pose proof (Z.mod_pos_bound start 64 ltac:(lia)).
  destruct (right_words_spec bm Hok (Z.to_nat (start / 64)) (Z.to_nat (start mod 64))
    (length (data bm) - Z.to_nat (start / 64)) (Z.to_nat (start / 64))) as (r & Hr & Ha); [lia..| |].
  { revert Hlen. case_if; lia. }
  rewrite Nat.eqb_refl in Ha. rewrite !Z2Nat.id in Ha by lia.
  replace (start / 64 * 64 + start mod 64) with start in Ha by lia.
  exists r. split; [|done]. rewrite <- Hr. f_equal.
  revert Hlen. destruct (Z.eqb_spec (bits bm mod 64) 0); cbn [negb]; lia.
Qed.

Section Left.
Variable bm : xh_bitmap_t.
Hypothesis Hok : bitmap_ok bm.

Lemma mask_low j : (j < 32)%nat -> mask_1U j = Ret (2 ^ Z.of_nat j).
Proof.
  intros Hj. unfold mask_1U. rewrite (proj2 (Nat.ltb_lt j 32) Hj).
  rewrite Z.shiftl_mul_pow2, Z.mul_1_l by lia. f_equal. apply u32_id.
  assert (2 ^ Z.of_nat j <= 2 ^ 31) by (apply Z.pow_le_mono_r; lia).
  pose proof (Z.pow_pos_nonneg 2 (Z.of_nat j)). change (2 ^ 31) with 2147483648 in *. rlia.
Qed.

Lemma bool_cases_eqb a b : (Bool.eqb a b = true /\ a = b) \/ (Bool.eqb a b = false /\ a = negb b).
Proof. destruct a, b; auto. Qed.

(** A downward scan that starts below bit 32 is defined and finds the highest match. *)
Lemma left_bits_spec w i want j :
  (j < 32)%nat -> 0 <= i -> i * 64 + 64 <= 18446744073709551616 ->
  (left_bits w i want j = Ret None /\
     forall k, 0 <= k <= Z.of_nat j -> Z.testbit w k = negb want) \/
  (exists r, left_bits w i want j = Ret (Some (i * 64 + r)) /\ 0 <= r <= Z.of_nat j /\
     Z.testbit w r = want /\ forall k, r < k <= Z.of_nat j -> Z.testbit w k = negb want).
Proof.
  intros Hj Hi Hmax. induction j as [|j IH]; cbn [left_bits];
    rewrite mask_low by lia; cbn [bind_outcome]; rewrite land_single_zero, negb_involutive by lia;
    match goal with |- context [Bool.eqb ?a want] =>
      destruct (bool_cases_eqb a want) as [[-> Hm]|[-> Hm]] end;
    unfold BITDAT_BITS; rewrite ?index_compose by lia.
  - right. exists 0. split; [done|]. split; [lia|]. split; [done|]. intros; lia.
  - left. split; [done|]. intros k Hk. by replace k with (Z.of_nat 0) by lia.
  - right. exists (Z.of_nat (S j)). split; [done|]. split; [lia|]. split; [done|]. intros; lia.
  - assert (forall k, k <= Z.of_nat (S j) -> k = Z.of_nat (S j) \/ k <= Z.of_nat j) as Hsplit by lia.
    destruct (IH ltac:(lia)) as [[-> Hn]|(r & -> & Hr & Hb & Hn)]; [left|right].
    + split; [done|]. intros k Hk. destruct (Hsplit k ltac:(lia)) as [->|]; [done|apply Hn; lia].
    + exists r. split; [done|]. split; [lia|]. split; [done|].
      intros k Hk. destruct (Hsplit k ltac:(lia)) as [->|]; [done|apply Hn; lia].
Qed.

(** From bit 32 on, the very first shift is undefined. *)
Lemma left_bits_high w i want j : (32 <= j)%nat -> left_bits w i want j = Undefined.
Proof.
  intros Hj. assert (mask_1U j = Undefined) as E.
  { unfold mask_1U. by rewrite (proj2 (Nat.ltb_ge j 32) Hj). }
  destruct j; cbn [left_bits]; by rewrite E.
Qed.

Lemma first_word w : 0 < bits bm -> data bm !! 0%nat = Some w ->
  (forall j, 0 <= j < 64 -> bm_bit bm j = Z.testbit w j) /\ (w = 0 \/ w <> 0).
Proof.
  intros Hb Hw. split; [|lia]. intros j Hj.
  by rewrite <- (bit_in_word bm 0 j w) by (done || lia).
Qed.
End Left.

(** From a start index below 32, xh_bitmap_index_of_left_set is defined and
    returns the greatest set index at or below the start, or BITDAT_MAX. *)
Theorem bitmap_index_of_left_set_low (bm : xh_bitmap_t) (start : Z) :
  bitmap_ok bm -> 0 <= start < bits bm -> start < 32 ->
  exists r, xh_bitmap_index_of_left_set (Some bm) start = Ret r /\ left_answer bm true start r.
Proof.
  intros Hok Hs H32. unfold xh_bitmap_index_of_left_set, with_bitmap, with_assert, BITDAT_BITS.
  rewrite (proj2 (Z.ltb_lt _ _)) by lia. rewrite Z.div_small, Z.mod_small by lia.
  destruct (word_at_ok bm Hok start Hs) as (w & Hlk & Hw & Hu).
  rewrite Z.div_small in Hlk, Hw by lia. change (Z.to_nat 0) with O in *.
  cbn [left_words]. change (Z.of_nat 0) with 0. rewrite Hw. cbn [bind_outcome Nat.eqb].
  destruct (first_word bm w ltac:(lia) Hlk) as [Hbit _]. case_if.
  - exists BITDAT_MAX. split; [done|]. left. split; [done|]. intros i Hi.
    by rewrite Hbit, E, Z.bits_0 by lia.
  - destruct (left_bits_spec w 0 true (Z.to_nat start)) as [[-> Hn]|(r & -> & Hr & Hb & Hn)]; [lia..| |];
      cbn [bind_outcome]; rewrite Z2Nat.id in * by lia.
    + exists BITDAT_MAX. split; [done|]. left. split; [done|]. intros i Hi. rewrite Hbit by lia. auto.
    + exists r. split; [done|]. right. split; [lia|]. rewrite Hbit by lia. split; [done|].
      intros i Hi. rewrite Hbit by lia. apply Hn. lia.
Qed.

(** Both leftward searches execute the undefined shift [1U << j] with j >= 32
    whenever the start index is itself set and sits in the upper half of its
    64-bit word: the mask must be a 64-bit operand, as in the rightward search. *)
Theorem bitmap_left_search_undefined (bm : xh_bitmap_t) (start : Z) :
  bitmap_ok bm -> 0 <= start < bits bm -> 32 <= start mod 64 -> bm_bit bm start = true ->
  xh_bitmap_index_of_left_set (Some bm) start = Undefined /\
  xh_bitmap_index_of_left (Some bm) start true = Undefined.
Proof.
  intros Hok Hs Hmod Hbit.
  destruct (word_at_ok bm Hok start Hs) as (w & Hlk & Hw & Hu).
  rewrite (bm_bit_word bm start w Hlk) in Hbit.
  assert (w <> 0) as Hne by (intros ->; by rewrite Z.bits_0 in Hbit).
  pose proof (Z.div_pos start 64 ltac:(lia) ltac:(lia)).
  unfold xh_bitmap_index_of_left_set, xh_bitmap_index_of_left, with_bitmap, with_assert, BITDAT_BITS.
  rewrite (proj2 (Z.ltb_lt _ _)) by lia.
  assert (word_at bm (Z.of_nat (Z.to_nat (start / 64))) = Ret w) as Hword by (by rewrite Z2Nat.id).
  assert ((w =? 0) = false) as Hz by (by apply Z.eqb_neq).
  set (n := Z.to_nat (start / 64)) in *. clearbody n.
  split; destruct n; cbn [left_words]; rewrite Hword; cbn [bind_outcome andb orb negb]; rewrite Hz;
    cbn [andb orb]; rewrite Nat.eqb_refl, left_bits_high by lia; done.
Qed.

(** xh_bitmap_index_of_left with bit_value false misses zero bits: it skips
    every word that is not all zero, so in the first word it reports BITDAT_MAX
    even when the start index itself is clear. *)
Theorem bitmap_left_clear_missed (bm : xh_bitmap_t) (start i : Z) :
  bitmap_ok bm -> 0 <= start < bits bm -> start < 64 -> 0 <= i < 64 ->
  bm_bit bm start = false -> bm_bit bm i = true ->
  xh_bitmap_index_of_left (Some bm) start false = Ret BITDAT_MAX /\
  ~ left_answer bm false start BITDAT_MAX.
Proof.
  intros Hok Hs H64 Hi Hclear Hset. split.
  - unfold xh_bitmap_index_of_left, with_bitmap, with_assert, BITDAT_BITS.
    rewrite (proj2 (Z.ltb_lt _ _)) by lia. rewrite Z.div_small, Z.mod_small by lia.
    destruct (word_at_ok bm Hok start Hs) as (w & Hlk & Hw & Hu).
    rewrite Z.div_small in Hlk, Hw by lia. change (Z.to_nat 0) with O in *.
    destruct (first_word bm w ltac:(lia) Hlk) as [Hbit _].
    assert ((w =? 0) = false) as Hz.
    { apply Z.eqb_neq. intros ->. rewrite Hbit, Z.bits_0 in Hset by lia. done. }
    cbn [left_words]. change (Z.of_nat 0) with 0. rewrite Hw. cbn [bind_outcome andb orb negb].
    by rewrite Hz.
  - intros [[_ Hn]|[Hr _]]; [|unfold BITDAT_MAX in Hr; lia].
    rewrite Hn in Hclear by lia. done.
Qed.

(** ** Witnesses *)

Definition sample : xh_bitmap_t := mk_bitmap [1099511627809] 64.

Lemma sample_ok : bitmap_ok sample.
Proof.
  split; [cbn; lia|]. split; [reflexivity|]. split; [repeat constructor; rlia|].
  intros i Hi. cbn in Hi. unfold bm_bit. rewrite lookup_ge_None_2; [done|]. cbn.
  assert (1 <= i / 64) by (apply Z.div_le_lower_bound; lia). lia.
Qed.

Lemma bitmap_set_clear_test_witness :
  exists bm', xh_bitmap_set (Some sample) 7 = Ret bm' /\ bitmap_ok bm'.
Proof.
  destruct (bitmap_set_clear_test sample 7 sample_ok ltac:(lia)) as [H _].
  destruct (H ltac:(cbn; lia)) as [(bm' & E & Hok & _) _]. exact (ex_intro _ bm' (conj E Hok)).
Defined.

Lemma bitmap_create_all_to_witness :
  exists bm', xh_bitmap_all_to (Some sample) true = Ret bm' /\ bm_bit bm' 63 = true.
Proof.
  destruct (bitmap_create_all_to 100 true true sample true ltac:(lia) sample_ok)
    as (_ & _ & bm' & E & _ & _ & Hb).
  exists bm'. split; [exact E|]. rewrite Hb by lia. reflexivity.
Defined.

Lemma bitmap_count_set_bits_witness : xh_bitmap_count_set_bits (Some sample) = Ret 3.
Proof. rewrite (bitmap_count_set_bits sample sample_ok) by (cbn; lia). vm_compute. reflexivity. Defined.

Lemma bitmap_index_of_right_set_witness :
  exists r, xh_bitmap_index_of_right_set (Some sample) 6 = Ret r /\ right_answer sample 6 r.
Proof. exact (bitmap_index_of_right_set sample 6 sample_ok ltac:(cbn; lia)). Defined.

Lemma bitmap_index_of_left_set_low_witness :
  exists r, xh_bitmap_index_of_left_set (Some sample) 31 = Ret r /\ left_answer sample true 31 r.
Proof. exact (bitmap_index_of_left_set_low sample 31 sample_ok ltac:(cbn; lia) ltac:(lia)). Defined.

Lemma bitmap_left_search_undefined_witness :
  bm_bit sample 40 = true /\ xh_bitmap_index_of_left_set (Some sample) 40 = Undefined.
Proof.
  split; [reflexivity|].
  exact (proj1 (bitmap_left_search_undefined sample 40 sample_ok ltac:(cbn; lia) ltac:(by vm_compute) eq_refl)).
Defined.

Lemma bitmap_left_clear_missed_witness :
  bm_bit sample 4 = false /\ xh_bitmap_index_of_left (Some sample) 4 false = Ret BITDAT_MAX.
Proof.
  split; [reflexivity|].
  exact (proj1 (bitmap_left_clear_missed sample 4 5 sample_ok ltac:(cbn; lia) ltac:(lia) ltac:(lia)
    eq_refl eq_refl)).
Defined.
