(* ===== verification/Base64.v ===== *)
(** * Base64: libs/base64/src/base64.c

    Characters and bytes are [Z] in 0..255.  A C string is the list of its
    characters before the terminating NUL; an output buffer is a list that the
    call overwrites from index 0.  The table decoder is the modelled build; the
    range-check decoder is proved equal to it. *)
From S2P Require Import Prelude MachineInt.

Definition SIZE_MAX : Z := 18446744073709551615.

(** The 65 characters of the string literal and its terminating NUL. *)
Definition base64_lut : list Z :=
  [65;66;67;68;69;70;71;72;73;74;75;76;77;78;79;80;81;82;83;84;85;86;87;88;89;90;
   97;98;99;100;101;102;103;104;105;106;107;108;109;110;111;112;113;114;115;116;117;118;119;120;121;122;
   48;49;50;51;52;53;54;55;56;57;43;47;61;0].

Definition decode_table : list Z :=
  [-1;-1;-1;-1; -1;-1;-1;-1; -1;-1;-1;-1; -1;-1;-1;-1;
   -1;-1;-1;-1; -1;-1;-1;-1; -1;-1;-1;-1; -1;-1;-1;-1;
   -1;-1;-1;-1; -1;-1;-1;-1; -1;-1;-1;62; -1;-1;-1;63;
   52;53;54;55; 56;57;58;59; 60;61;-1;-1; -1;-1;-1;-1;
   -1;0;1;2; 3;4;5;6; 7;8;9;10; 11;12;13;14;
   15;16;17;18; 19;20;21;22; 23;24;25;-1; -1;-1;-1;-1;
   -1;26;27;28; 29;30;31;32; 33;34;35;36; 37;38;39;40;
   41;42;43;44; 45;46;47;48; 49;50;51;-1; -1;-1;-1;-1;
   -1;-1;-1;-1; -1;-1;-1;-1; -1;-1;-1;-1; -1;-1;-1;-1;
   -1;-1;-1;-1; -1;-1;-1;-1; -1;-1;-1;-1; -1;-1;-1;-1;
   -1;-1;-1;-1; -1;-1;-1;-1; -1;-1;-1;-1; -1;-1;-1;-1;
   -1;-1;-1;-1; -1;-1;-1;-1; -1;-1;-1;-1; -1;-1;-1;-1;
   -1;-1;-1;-1; -1;-1;-1;-1; -1;-1;-1;-1; -1;-1;-1;-1;
   -1;-1;-1;-1; -1;-1;-1;-1; -1;-1;-1;-1; -1;-1;-1;-1;
   -1;-1;-1;-1; -1;-1;-1;-1; -1;-1;-1;-1; -1;-1;-1;-1;
   -1;-1;-1;-1; -1;-1;-1;-1; -1;-1;-1;-1; -1;-1;-1;-1].

Definition base64_char_decode (c : Z) : Z := nth (Z.to_nat c) decode_table (-1).

(** The decoder selected by BASE64_USE_RANGE_CHECK_DECODER. *)
Definition base64_char_decode_range (c : Z) : Z :=
  if (65 <=? c) && (c <=? 90) then c - 65
  else if (97 <=? c) && (c <=? 122) then c - 97 + 26
  else if (48 <=? c) && (c <=? 57) then c - 48 + 52
  else if c =? 43 then 62
  else if c =? 47 then 63
  else -1.

(** memchr over [sizeof(base64_lut)] bytes. *)
Definition in_lut (c : Z) : bool := existsb (fun d => d =? c) base64_lut.

Definition is_base64 (str : option (list Z)) (len : Z) : bool :=
  match str with
  | None => false
  | Some s => if len =? 0 then false else forallb in_lut (take (Z.to_nat len) s)
  end.

(** The decoding loop: (buffer, buffer_bits) and the bytes stored so far. *)
Fixpoint decode_loop (s : list Z) (buffer buffer_bits : Z) (out : list Z) : list Z :=
  match s with
  | [] => out
  | c :: s' =>
      if c =? 61 then out
      else
        let value := base64_char_decode c in
        if value =? -1 then decode_loop s' buffer buffer_bits out
        else
          let buffer := Z.lor (u32 (Z.shiftl buffer 6)) value in
          let buffer_bits := buffer_bits + 6 in
          if 8 <=? buffer_bits
          then decode_loop s' buffer (buffer_bits - 8)
                 (out ++ [u8 (Z.land (Z.shiftr buffer (buffer_bits - 8)) 255)])
          else decode_loop s' buffer buffer_bits out
  end.

Definition decode_padding (s : list Z) : Z :=
  let len := length s in
  (if (0 <? len)%nat && (nth (len - 1) s 0 =? 61) then 1 else 0) +
  (if (1 <? len)%nat && (nth (len - 2) s 0 =? 61) then 1 else 0).

(** Returns the size and the bytes written from [output\[0\]] on. *)
Definition base64_decode (base64 : option (list Z)) (output_given : bool) : Z * list Z :=
  match base64 with
  | None => (0, [])
  | Some s =>
      let len := Z.of_nat (length s) in
      if len =? 0 then (0, [])
      else
        let output_len := u64 (u64 (len * 3) / 4 - decode_padding s) in
        if negb output_given then (output_len, [])
        else let out := decode_loop s 0 0 [] in (Z.of_nat (length out), out)
  end.

(** Pack [n] bytes from index [i] into a buffer and pad it to 24 bits. *)
Definition pack_group (bytes : list Z) (i : Z) (n : nat) : Z :=
  let buffer := for_up 0 n (fun j buffer =>
    Z.lor (u32 (Z.shiftl buffer 8)) (nth (Z.to_nat i + j) bytes 0)) 0 in
  for_up n (3 - n) (fun _ buffer => u32 (Z.shiftl buffer 8)) buffer.

(** Store character [j] of the group at index [i]. *)
Definition store_char (buffer bytes_to_process output_len i : Z) (j : nat) (output : list Z)
    : list Z :=
  let index := i / 3 * 4 + Z.of_nat j in
  if output_len <=? index then output
  else if Z.of_nat j <? bytes_to_process + 1
       then <[Z.to_nat index :=
              nth (Z.to_nat (Z.land (Z.shiftr buffer (18 - Z.of_nat j * 6)) 63)) base64_lut 0]> output
       else <[Z.to_nat index := 61]> output.

(** One iteration of the encoder's outer loop. *)
Definition encode_group (bytes : list Z) (len output_len i : Z) (output : list Z) : list Z :=
  let bytes_to_process := if 3 <=? len - i then 3 else len - i in
  let buffer := pack_group bytes i (Z.to_nat bytes_to_process) in
  for_up 0 4 (store_char buffer bytes_to_process output_len i) output.

Definition base64_encode (data : option (list Z)) (len : Z) (output : option (list Z))
    : Z * option (list Z) :=
  match data with
  | None => (0, output)
  | Some bytes =>
      if len =? 0 then (0, output)
      else
        let output_len := u64 (u64 (len + 2) / 3 * 4) in
        match output with
        | None => (output_len, None)
        | Some cells =>
            let s := while_fuel (length bytes) (fun s => s.1 <? len)
                       (fun s => (s.1 + 3, encode_group bytes len output_len s.1 s.2)) (0, cells) in
            (output_len, Some s.2)
        end
  end.

(** ** The encoding, as a recursion over three-byte groups *)

Definition sym (v : Z) : Z := nth (Z.to_nat v) base64_lut 0.

Fixpoint encode_spec (l : list Z) : list Z :=
  match l with
  | a :: b :: c :: r =>
      sym (a / 4) :: sym (a mod 4 * 16 + b / 16) :: sym (b mod 16 * 4 + c / 64) :: sym (c mod 64)
      :: encode_spec r
  | [a; b] => [sym (a / 4); sym (a mod 4 * 16 + b / 16); sym (b mod 16 * 4); 61]
  | [a] => [sym (a / 4); sym (a mod 4 * 16); 61; 61]
  | [] => []
  end.

(** Induction in steps of three elements. *)
Lemma list_ind3 {A} (P : list A -> Prop) :
  P [] -> (forall a, P [a]) -> (forall a b, P [a; b]) ->
  (forall a b c r, P r -> P (a :: b :: c :: r)) -> forall l, P l.
Proof.
  intros H0 H1 H2 H3 l. assert (P l /\ (forall x, P (x :: l)) /\ (forall x y, P (x :: y :: l))) as H.
  { induction l as [|z l (Ha & Hb & Hc)]; auto. }
  apply H.
Qed.

Lemma encode_spec_length l :
  Z.of_nat (length (encode_spec l)) = (Z.of_nat (length l) + 2) / 3 * 4.
Proof.
  induction l as [|a|a b|a b c r IH] using list_ind3; try done.
  cbn [encode_spec length]. rewrite !Nat2Z.inj_succ, IH.
  replace (Z.succ (Z.succ (Z.succ (Z.of_nat (length r)))) + 2) with (Z.of_nat (length r) + 2 + 1 * 3) by lia.
  rewrite Z.div_add by lia. lia.
Qed.

Section Encode.
(** The characters one group stores, from its bytes. *)
Lemma nth_done (xs ys : list Z) (j : nat) i :
  0 <= i -> Z.of_nat (length xs) = i -> nth (Z.to_nat i + j) (xs ++ ys) 0 = nth j ys 0.
Proof. intros. rewrite app_nth2 by lia. f_equal. lia. Qed.

Lemma insert_done (pre cells : list Z) (j : nat) k v :
  0 <= k -> Z.of_nat (length pre) = k ->
  <[Z.to_nat (k + Z.of_nat j) := v]> (pre ++ cells) = pre ++ <[j := v]> cells.
Proof.
  intros Hk Hl. replace (Z.to_nat (k + Z.of_nat j)) with (length pre + j)%nat by lia.
  apply insert_app_r.
Qed.

(** Packing bytes into 24 bits and reading back 6-bit groups. *)
Lemma pack_or b v : 0 <= b -> b * 256 < 4294967296 -> is_u8 v ->
  Z.lor (u32 (Z.shiftl b 8)) v = b * 256 + v.
Proof.
  intros. rewrite Z.shiftl_mul_pow2 by lia. change (2 ^ 8) with 256. rewrite u32_id by rlia.
  apply lor_add_disjoint with 8; [lia|change (2 ^ 8) with 256; rlia|].
  change (2 ^ 8) with 256. by apply Z.mod_mul.
Qed.

Lemma pack_pad b : 0 <= b -> b * 256 < 4294967296 -> u32 (Z.shiftl b 8) = b * 256.
Proof. intros. rewrite Z.shiftl_mul_pow2 by lia. apply u32_id. change (2 ^ 8) with 256. rlia. Qed.

Lemma take6 b k : 0 <= k -> Z.land (Z.shiftr b k) 63 = b / 2 ^ k mod 64.
Proof. intros. rewrite Z.shiftr_div_pow2 by done. by apply (land_mask _ 6). Qed.

Definition group_char (buffer n : Z) (j : Z) : Z :=
  if j <? n + 1 then sym (buffer / 2 ^ (18 - j * 6) mod 64) else 61.

(** The inner loop overwrites exactly the four cells of its group. *)
Lemma store_four buffer n output_len i pre x0 x1 x2 x3 cells :
  0 <= i -> Z.of_nat (length pre) = 4 * i -> 4 * i + 4 <= output_len ->
  for_up 0 4 (store_char buffer n output_len (3 * i)) (pre ++ x0 :: x1 :: x2 :: x3 :: cells)
  = pre ++ group_char buffer n 0 :: group_char buffer n 1 :: group_char buffer n 2
        :: group_char buffer n 3 :: cells.
Proof.
  intros Hi Hpre Hroom.
  assert (forall j c l, (j < 4)%nat -> c = group_char buffer n (Z.of_nat j) ->
    store_char buffer n output_len (3 * i) j (pre ++ l) = pre ++ <[j := c]> l) as Hstore.
  { intros j c l Hj ->. unfold store_char, group_char, sym.
    replace (3 * i / 3 * 4) with (4 * i) by (replace (3 * i / 3) with i by (apply Z.div_unique with 0; lia); lia).
    rewrite (proj2 (Z.leb_gt output_len _)), take6 by lia.
    case_if; by rewrite insert_done by lia. }
  cbn [for_up].
  rewrite (Hstore 0%nat (group_char buffer n 0)), (Hstore 1%nat (group_char buffer n 1)),
    (Hstore 2%nat (group_char buffer n 2)), (Hstore 3%nat (group_char buffer n 3)) by (done || lia).
  done.
Qed.

Lemma pack_group_3 xs a b c r i :
  0 <= i -> Z.of_nat (length xs) = i -> is_u8 a -> is_u8 b -> is_u8 c ->
  pack_group (xs ++ a :: b :: c :: r) i 3 = a * 65536 + b * 256 + c.
Proof.
  intros Hi Hx Ha Hb Hc. unfold pack_group. cbn [for_up Nat.sub].
  rewrite !(nth_done xs _ _ i) by done. cbn [nth].
  rewrite (pack_or 0 a), (pack_or _ b), (pack_or _ c) by (done || rlia). lia.
Qed.

Lemma pack_group_2 xs a b i :
  0 <= i -> Z.of_nat (length xs) = i -> is_u8 a -> is_u8 b ->
  pack_group (xs ++ [a; b]) i 2 = a * 65536 + b * 256.
Proof.
  intros Hi Hx Ha Hb. unfold pack_group. cbn [for_up Nat.sub].
  rewrite !(nth_done xs _ _ i) by done. cbn [nth].
  rewrite (pack_or 0 a), (pack_or _ b), pack_pad by (done || rlia). lia.
Qed.

Lemma pack_group_1 xs a i :
  0 <= i -> Z.of_nat (length xs) = i -> is_u8 a -> pack_group (xs ++ [a]) i 1 = a * 65536.
Proof.
  intros Hi Hx Ha. unfold pack_group. cbn [for_up Nat.sub].
  rewrite !(nth_done xs _ _ i) by done. cbn [nth].
  rewrite (pack_or 0 a), (pack_pad (0 * 256 + a)), pack_pad by (done || rlia). lia.
Qed.

Lemma encode_group_spec bytes len buffer n output_len i pre cells :
  0 <= i -> Z.of_nat (length pre) = 4 * i -> 4 * i + 4 <= output_len -> (4 <= length cells)%nat ->
  n = Z.min 3 (len - 3 * i) -> pack_group bytes (3 * i) (Z.to_nat n) = buffer ->
  encode_group bytes len output_len (3 * i) (pre ++ cells)
  = (pre ++ [group_char buffer n 0; group_char buffer n 1; group_char buffer n 2;
             group_char buffer n 3]) ++ drop 4 cells.
Proof.
  intros Hi Hpre Hroom Hcells Hn Hbuf.
  destruct cells as [|x0 [|x1 [|x2 [|x3 cells]]]]; cbn in Hcells; try lia.
  unfold encode_group.
  replace (if 3 <=? len - 3 * i then 3 else len - 3 * i) with n by (case_if; lia).
  rewrite Hbuf, store_four by done. by rewrite <- app_assoc.
Qed.

(** The four 6-bit fields of a 24-bit word. *)
Lemma fields6 a b c : is_u8 a -> is_u8 b -> is_u8 c ->
  let v := a * 65536 + b * 256 + c in
  v / 2 ^ (18 - 0 * 6) mod 64 = a / 4 /\
  v / 2 ^ (18 - 1 * 6) mod 64 = a mod 4 * 16 + b / 16 /\
  v / 2 ^ (18 - 2 * 6) mod 64 = b mod 16 * 4 + c / 64 /\
  v / 2 ^ (18 - 3 * 6) mod 64 = c mod 64.
Proof.
  intros Ha Hb Hc v. unfold v.
  change (2 ^ (18 - 0 * 6)) with 262144. change (2 ^ (18 - 1 * 6)) with 4096.
  change (2 ^ (18 - 2 * 6)) with 64. change (2 ^ (18 - 3 * 6)) with 1.
  repeat split; dlia.
Qed.

Lemma group_chars_3 a b c : is_u8 a -> is_u8 b -> is_u8 c ->
  let v := a * 65536 + b * 256 + c in
  [group_char v 3 0; group_char v 3 1; group_char v 3 2; group_char v 3 3]
  = encode_spec [a; b; c].
Proof.
  intros Ha Hb Hc v. destruct (fields6 a b c Ha Hb Hc) as (H0 & H1 & H2 & H3).
  unfold group_char. fold v in H0, H1, H2, H3. by rewrite H0, H1, H2, H3.
Qed.

Lemma group_chars_2 a b : is_u8 a -> is_u8 b ->
  let v := a * 65536 + b * 256 in
  [group_char v 2 0; group_char v 2 1; group_char v 2 2; group_char v 2 3] = encode_spec [a; b].
Proof.
  intros Ha Hb v. destruct (fields6 a b 0 Ha Hb ltac:(rlia)) as (H0 & H1 & H2 & _).
  rewrite Z.add_0_r in H0, H1, H2. unfold group_char. fold v in H0, H1, H2.
  rewrite H0, H1, H2. cbn [encode_spec]. by rewrite Z.add_0_r.
Qed.

Lemma group_chars_1 a : is_u8 a ->
  let v := a * 65536 in
  [group_char v 1 0; group_char v 1 1; group_char v 1 2; group_char v 1 3] = encode_spec [a].
Proof.
  intros Ha v. destruct (fields6 a 0 0 Ha ltac:(rlia) ltac:(rlia)) as (H0 & H1 & _ & _).
  rewrite !Z.add_0_r in H0, H1. unfold group_char. fold v in H0, H1.
  rewrite H0, H1. cbn [encode_spec]. by rewrite Z.add_0_r.
Qed.

(** The loop from a group boundary on encodes the remaining bytes. *)
Lemma encode_loop_spec l : forall xs pre cells i output_len (fuel : nat),
  Forall is_u8 l -> 0 <= i -> Z.of_nat (length xs) = 3 * i -> Z.of_nat (length pre) = 4 * i ->
  4 * i + Z.of_nat (length (encode_spec l)) <= output_len ->
  (length (encode_spec l) <= length cells)%nat -> (length l <= fuel)%nat ->
  snd (while_fuel fuel (fun s => s.1 <? Z.of_nat (length (xs ++ l)))
    (fun s => (s.1 + 3, encode_group (xs ++ l) (Z.of_nat (length (xs ++ l))) output_len s.1 s.2))
    (3 * i, pre ++ cells))
  = pre ++ encode_spec l ++ drop (length (encode_spec l)) cells.
Proof.
  induction l as [|a|a b|a b c r IH] using list_ind3;
    intros xs pre cells i output_len fuel Hu8 Hi Hx Hp Hroom Hcells Hfuel;
    match goal with |- context [length (xs ++ ?l)] => pose proof (length_app xs l) as Hlen end;
    cbn [length encode_spec] in *.
  - destruct fuel; cbn [while_fuel fst snd]; [done|].
    by rewrite (proj2 (Z.ltb_ge _ _)) by lia.
  - destruct fuel as [|fuel]; [lia|]. inversion_clear Hu8. cbn [while_fuel fst snd].
    rewrite (proj2 (Z.ltb_lt _ _)) by lia.
    rewrite (encode_group_spec _ _ (a * 65536) 1) by (lia || by apply pack_group_1; lia || done).
    rewrite group_chars_1 by done.
    destruct fuel; cbn [while_fuel fst snd]; [|rewrite (proj2 (Z.ltb_ge _ _)) by lia];
      by rewrite <- app_assoc.
  - destruct fuel as [|fuel]; [lia|]. inversion_clear Hu8. inversion_clear H0. cbn [while_fuel fst snd].
    rewrite (proj2 (Z.ltb_lt _ _)) by lia.
    rewrite (encode_group_spec _ _ (a * 65536 + b * 256) 2)
      by (lia || by apply pack_group_2; lia || done).
    rewrite group_chars_2 by done.
    destruct fuel; cbn [while_fuel fst snd]; [|rewrite (proj2 (Z.ltb_ge _ _)) by lia];
      by rewrite <- app_assoc.
  - destruct fuel as [|fuel]; [lia|].
    inversion_clear Hu8. inversion_clear H0. inversion_clear H2. cbn [while_fuel fst snd].
    rewrite (proj2 (Z.ltb_lt _ _)) by lia.
    rewrite (encode_group_spec _ _ (a * 65536 + b * 256 + c) 3)
      by (lia || by apply pack_group_3; lia || done).
    rewrite group_chars_3 by done. cbn [encode_spec].
    specialize (IH (xs ++ [a; b; c]) (pre ++ encode_spec [a; b; c]) (drop 4 cells) (i + 1) output_len fuel).
    replace ((xs ++ [a; b; c]) ++ r) with (xs ++ a :: b :: c :: r) in IH by (by rewrite <- app_assoc).
    replace (3 * (i + 1)) with (3 * i + 3) in IH by lia. cbn [encode_spec] in IH.
    rewrite IH; try done; rewrite ?length_app, ?length_drop; cbn [length]; try lia.
    rewrite <- app_assoc. cbn [app].
    by rewrite drop_drop.
Qed.
End Encode.

Section Decode.
Lemma sym_decode v : 0 <= v < 64 ->
  base64_char_decode (sym v) = v /\ (sym v =? 61) = false /\ in_lut (sym v) = true.
Proof.
  intros Hv.
  assert (forallb (fun n => let v := Z.of_nat n in (base64_char_decode (sym v) =? v)
    && negb (sym v =? 61) && in_lut (sym v)) (seq 0 64) = true) as H by by vm_compute.
  rewrite forallb_forall in H. specialize (H (Z.to_nat v) ltac:(apply in_seq; lia)).
  cbv zeta in H. rewrite Z2Nat.id in H by lia. apply andb_true_iff in H as [H H2].
  apply andb_true_iff in H as [H0 H1]. apply Z.eqb_eq in H0. by apply negb_true_iff in H1.
Qed.

(** One character of the alphabet: the low bits of the buffer move up by six. *)
Definition push6 (buffer v : Z) : Z := u32 (buffer * 64) + v.

Lemma decode_step v s buffer bits out : is_u32 buffer -> 0 <= v < 64 -> 0 <= bits ->
  decode_loop (sym v :: s) buffer bits out =
  if 8 <=? bits + 6
  then decode_loop s (push6 buffer v) (bits + 6 - 8)
         (out ++ [push6 buffer v / 2 ^ (bits + 6 - 8) mod 256])
  else decode_loop s (push6 buffer v) (bits + 6) out.
Proof.
  intros Hb Hv Hbits. cbn [decode_loop]. destruct (sym_decode v Hv) as (-> & -> & _).
  rewrite (proj2 (Z.eqb_neq v (-1))) by lia.
  replace (Z.lor (u32 (Z.shiftl buffer 6)) v) with (push6 buffer v).
  2:{ unfold push6, u32. rewrite Z.shiftl_mul_pow2 by lia. change (2 ^ 6) with 64. symmetry.
      apply lor_add_disjoint with 6; [lia|change (2 ^ 6) with 64; lia|].
      change (2 ^ 6) with 64. dlia. }
  destruct (8 <=? bits + 6) eqn:E; [|done]. apply Z.leb_le in E.
  rewrite Z.shiftr_div_pow2 by lia. change 255 with (Z.ones 8).
  rewrite Z.land_ones by lia. unfold u8. change (2 ^ 8) with 256. by rewrite Z.mod_mod by lia.
Qed.

Lemma push6_u32 b v : is_u32 b -> 0 <= v < 64 -> is_u32 (push6 b v).
Proof. unfold push6, u32. intros. dlia. Qed.

Lemma decode_pair b v0 v1 s out : is_u32 b -> 0 <= v0 < 64 -> 0 <= v1 < 64 ->
  decode_loop (sym v0 :: sym v1 :: s) b 0 out
  = decode_loop s (push6 (push6 b v0) v1) 4 (out ++ [v0 * 4 + v1 / 16]).
Proof.
  intros Hb H0 H1. pose proof (push6_u32 b v0 Hb H0).
  rewrite !decode_step by (done || lia). cbn [Z.leb Z.add Z.sub Z.compare Pos.add Pos.compare
    Pos.compare_cont Z.opp Z.pos_sub Pos.sub Pos.succ].
  change (8 <=? 0 + 6) with false. cbn match. rewrite decode_step by (done || lia).
  change (8 <=? 0 + 6 + 6) with true. cbn match. change (0 + 6 + 6 - 8) with 4.
  do 3 f_equal. unfold push6, u32. change (2 ^ 4) with 16. dlia.
Qed.

Lemma decode_third b v1 v2 s out : is_u32 b -> 0 <= v1 < 64 -> 0 <= v2 < 64 ->
  decode_loop (sym v2 :: s) (push6 b v1) 4 out
  = decode_loop s (push6 (push6 b v1) v2) 2 (out ++ [v1 mod 16 * 16 + v2 / 4]).
Proof.
  intros Hb H1 H2. pose proof (push6_u32 b v1 Hb H1).
  rewrite decode_step by (done || lia). change (8 <=? 4 + 6) with true. cbn match.
  change (4 + 6 - 8) with 2. do 3 f_equal. unfold push6, u32. change (2 ^ 2) with 4. dlia.
Qed.

Lemma decode_fourth b v2 v3 s out : is_u32 b -> 0 <= v2 < 64 -> 0 <= v3 < 64 ->
  decode_loop (sym v3 :: s) (push6 b v2) 2 out
  = decode_loop s (push6 (push6 b v2) v3) 0 (out ++ [v2 mod 4 * 64 + v3]).
Proof.
  intros Hb H1 H2. pose proof (push6_u32 b v2 Hb H1).
  rewrite decode_step by (done || lia). change (8 <=? 2 + 6) with true. cbn match.
  change (2 + 6 - 8) with 0. do 3 f_equal. unfold push6, u32. change (2 ^ 0) with 1. dlia.
Qed.

Lemma decode_stop s b bits out : decode_loop (61 :: s) b bits out = out.
Proof. done. Qed.

(** Decoding inverts the encoding from any group boundary. *)
Lemma decode_encode_spec l : forall b out, Forall is_u8 l -> is_u32 b ->
  decode_loop (encode_spec l) b 0 out = out ++ l.
Proof.
  induction l as [|x|x y|x y z r IH] using list_ind3; intros b out Hl Hb; cbn [encode_spec].
  - by rewrite app_nil_r.
  - inversion_clear Hl. rewrite decode_pair, decode_stop by (done || dlia).
    do 2 f_equal. dlia.
  - inversion_clear Hl. inversion_clear H0.
    rewrite decode_pair by (done || dlia). rewrite decode_third by (try apply push6_u32; done || dlia).
    rewrite decode_stop, <- app_assoc. cbn [app]. repeat f_equal; dlia.
  - inversion_clear Hl. inversion_clear H0. inversion_clear H2.
    rewrite decode_pair by (done || dlia).
    rewrite decode_third by (try apply push6_u32; done || dlia).
    rewrite decode_fourth by (repeat apply push6_u32; done || dlia).
    rewrite IH by (try done; repeat apply push6_u32; done || dlia).
    rewrite <- !app_assoc. cbn [app]. repeat f_equal; dlia.
Qed.
End Decode.

Section Laws.
Lemma decode_padding_app p q : (2 <= length q)%nat -> decode_padding (p ++ q) = decode_padding q.
Proof.
  intros Hq. unfold decode_padding. rewrite length_app.
  rewrite !(proj2 (Nat.ltb_lt _ _)) by lia.
  rewrite !app_nth2 by lia.
  replace (length p + length q - 1 - length p)%nat with (length q - 1)%nat by lia.
  by replace (length p + length q - 2 - length p)%nat with (length q - 2)%nat by lia.
Qed.

Lemma encode_spec_long l : l <> [] -> (4 <= length (encode_spec l))%nat.
Proof. destruct l as [|a [|b [|c r]]]; cbn; intros; try done; lia. Qed.

(** The number of [=] signs at the end of an encoding. *)
Lemma encode_padding l : l <> [] -> Forall is_u8 l ->
  decode_padding (encode_spec l) = Z.of_nat (length (encode_spec l)) * 3 / 4 - Z.of_nat (length l).
Proof.
  induction l as [|x|x y|x y z r IH] using list_ind3; intros Hl Hb; [done| | |].
  - inversion_clear Hb. cbn [encode_spec]. done.
  - inversion_clear Hb. inversion_clear H0. cbn [encode_spec].
    unfold decode_padding. cbn [length nth Nat.sub Nat.ltb Nat.leb andb].
    destruct (sym_decode (y mod 16 * 4) ltac:(dlia)) as (_ & -> & _). done.
  - inversion_clear Hb. inversion_clear H0. inversion_clear H2.
    change (encode_spec (x :: y :: z :: r)) with (encode_spec [x; y; z] ++ encode_spec r).
    destruct r as [|w r].
    + cbn [encode_spec]. unfold decode_padding. cbn [app length nth Nat.sub Nat.ltb Nat.leb andb].
      destruct (sym_decode (z mod 64) ltac:(dlia)) as (_ & -> & _).
      by destruct (sym_decode (y mod 16 * 4 + z / 64) ltac:(dlia)) as (_ & -> & _).
    + pose proof (encode_spec_long (w :: r) ltac:(done)).
      rewrite decode_padding_app, IH, length_app by (done || lia).
      cbn [encode_spec length]. set (n := length (encode_spec (w :: r))).
      change (length (x :: y :: z :: w :: r)) with (3 + length (w :: r))%nat.
      generalize (length (w :: r)). intros m.
      dlia.
Qed.

Lemma decode_encoded l : l <> [] -> Forall is_u8 l -> Z.of_nat (length (encode_spec l)) * 3 <= SIZE_MAX ->
  base64_decode (Some (encode_spec l)) false = (Z.of_nat (length l), []) /\
  base64_decode (Some (encode_spec l)) true = (Z.of_nat (length l), l).
Proof.
  intros Hl Hb Hs. pose proof (encode_spec_long l Hl). unfold SIZE_MAX in Hs.
  unfold base64_decode. rewrite (proj2 (Z.eqb_neq _ 0)) by lia. cbn [negb].
  rewrite decode_encode_spec by (done || rlia). cbn [app].
  rewrite (u64_id (_ * 3)), encode_padding by (done || rlia).
  split; [|done]. f_equal. rewrite u64_id; [lia|].
  pose proof (encode_spec_length l). dlia.
Qed.

(** One call with an output buffer. *)
Lemma encoded data cells :
  Forall is_u8 data -> Z.of_nat (length data) <= 13835058055282163709 ->
  (length (encode_spec data) <= length cells)%nat ->
  base64_encode (Some data) (Z.of_nat (length data)) (Some cells)
    = (Z.of_nat (length (encode_spec data)),
       Some (encode_spec data ++ drop (length (encode_spec data)) cells)).
Proof.
  intros Hb Hlen Hcells. pose proof (encode_spec_length data) as Hn. unfold base64_encode.
  destruct (Z.of_nat (length data) =? 0) eqn:E.
  { apply Z.eqb_eq in E. by destruct data. }
  apply Z.eqb_neq in E. rewrite (u64_id (_ + 2)) by rlia.
  rewrite u64_id, <- Hn by dlia. do 2 f_equal.
  by apply (encode_loop_spec data [] [] cells 0 _ (length data)).
Qed.

(** [base64_encode]: a NULL pointer or an empty input encodes to nothing; otherwise the
    call returns the padded length, also as the size query, and overwrites exactly that many
    cells of the output with the RFC 4648 encoding of the bytes, leaving the rest as it was. *)
Theorem base64_encode_functional (data cells : list Z) :
  Forall is_u8 data -> Z.of_nat (length data) <= 13835058055282163709 ->
  (length (encode_spec data) <= length cells)%nat ->
  let len := Z.of_nat (length data) in
  let n := Z.of_nat (length (encode_spec data)) in
  base64_encode None len (Some cells) = (0, Some cells) /\
  n = (len + 2) / 3 * 4 /\
  base64_encode (Some data) len None = (n, None) /\
  base64_encode (Some data) len (Some cells)
    = (n, Some (encode_spec data ++ drop (length (encode_spec data)) cells)).
Proof.
  intros Hb Hlen Hcells len n. pose proof (encode_spec_length data) as Hn.
  split; [done|]. split; [done|]. split; [|by apply encoded].
  unfold base64_encode. destruct (len =? 0) eqn:E.
  { apply Z.eqb_eq in E. by destruct data. }
  rewrite (u64_id (len + 2)), u64_id by (unfold len in *; dlia).
  unfold len. by rewrite <- Hn.
Qed.

Lemma base64_encode_functional_witness :
  base64_encode (Some [77; 97]) 2 (Some [1; 2; 3; 4; 5]) = (4, Some [84; 87; 69; 61; 5]).
Proof.
  destruct (base64_encode_functional [77; 97] [1; 2; 3; 4; 5]) as (_ & _ & _ & H).
  - by repeat constructor.
  - by vm_compute.
  - by vm_compute; repeat constructor.
  - exact H.
Defined.

Lemma in_lut_encoded l : Forall is_u8 l -> forallb in_lut (encode_spec l) = true.
Proof.
  assert (forall v, 0 <= v < 64 -> in_lut (sym v) = true) as H by (intros; by apply sym_decode).
  induction l as [|x|x y|x y z r IH] using list_ind3; intros Hb; [done|..];
    inversion_clear Hb; try inversion_clear H1; try inversion_clear H3;
    cbn [encode_spec forallb]; rewrite ?IH, !H by (done || dlia); done.
Qed.

(** C38. Round trip: the characters [base64_encode] leaves in the buffer satisfy [is_base64], and
    [base64_decode] of them returns the original length, from the size query too, and writes
    the original bytes. *)
Theorem base64_roundtrip (data cells : list Z) :
  data <> [] -> Forall is_u8 data -> Z.of_nat (length data) <= 4611686018427387900 ->
  (length (encode_spec data) <= length cells)%nat ->
  exists n cells',
    base64_encode (Some data) (Z.of_nat (length data)) (Some cells) = (n, Some cells') /\
    let text := take (Z.to_nat n) cells' in
    is_base64 (Some text) n = true /\
    base64_decode (Some text) false = (Z.of_nat (length data), []) /\
    base64_decode (Some text) true = (Z.of_nat (length data), data).
Proof.
  intros Hne Hb Hlen Hcells. pose proof (encode_spec_length data) as Hn.
  pose proof (encode_spec_long data Hne).
  exists (Z.of_nat (length (encode_spec data))), (encode_spec data ++ drop (length (encode_spec data)) cells).
  split; [by apply encoded; [..|rlia|]|]. cbv zeta. rewrite Nat2Z.id, take_app_length.
  split; [|apply decode_encoded; try done; unfold SIZE_MAX; dlia].
  unfold is_base64. rewrite (proj2 (Z.eqb_neq _ 0)), Nat2Z.id by lia.
  rewrite take_ge by done. by apply in_lut_encoded.
Qed.

Lemma base64_roundtrip_witness :
  exists n cells',
    base64_encode (Some [0; 255; 16; 7]) 4 (Some [9; 9; 9; 9; 9; 9; 9; 9]) = (n, Some cells') /\
    let text := take (Z.to_nat n) cells' in
    is_base64 (Some text) n = true /\
    base64_decode (Some text) false = (4, []) /\
    base64_decode (Some text) true = (4, [0; 255; 16; 7]).
Proof.
  apply (base64_roundtrip [0; 255; 16; 7]); try done; by repeat constructor.
Defined.

(** Both builds of the character decoder agree on every byte: the 256-entry table and the
    range checks. *)
Theorem base64_decoders_agree c : is_u8 c -> base64_char_decode c = base64_char_decode_range c.
Proof.
  intros Hc.
  assert (forallb (fun n => base64_char_decode (Z.of_nat n) =? base64_char_decode_range (Z.of_nat n))
    (seq 0 256) = true) as H by by vm_compute.
  rewrite forallb_forall in H. specialize (H (Z.to_nat c) ltac:(apply in_seq; dlia)).
  rewrite Z2Nat.id in H by rlia. by apply Z.eqb_eq.
Qed.

Lemma base64_decoders_agree_witness : base64_char_decode 43 = 62.
Proof. exact (base64_decoders_agree 43 ltac:(rlia)). Defined.

(** Six bits per character at most are carried, eight per byte are consumed. *)
Lemma decode_loop_budget s : forall b bits out, 0 <= bits < 8 ->
  Z.of_nat (length (decode_loop s b bits out)) * 8 <= Z.of_nat (length out) * 8 + bits + 6 * Z.of_nat (length s)
  /\ exists l, decode_loop s b bits out = out ++ l.
Proof.
  induction s as [|c s IH]; intros b bits out Hb; cbn [decode_loop length].
  - split; [lia|]. exists []. by rewrite app_nil_r.
  - destruct (c =? 61); [split; [lia|]; exists []; by rewrite app_nil_r|].
    destruct (base64_char_decode c =? -1); [destruct (IH b bits out Hb); split; [lia|done]|].
    destruct (8 <=? bits + 6) eqn:E; zbool.
    + match goal with |- context [decode_loop s ?b' ?k ?o] =>
        destruct (IH b' k o ltac:(lia)) as [H [l Hl]] end.
      rewrite length_app in H. cbn [length] in H. split; [lia|].
      rewrite Hl, <- app_assoc. by eexists.
    + destruct (IH (Z.lor (u32 (Z.shiftl b 6)) (base64_char_decode c)) (bits + 6) out ltac:(lia)).
      split; [lia|done].
Qed.

(** [base64_decode] never writes more than three quarters of the text's length, whatever
    the characters; but its size query does not always bound the bytes it writes: the text
    ["AAAA="] asks for 2 bytes and gets 3, and for ["="] the query wraps around to [SIZE_MAX]
    while nothing is written. *)
Theorem base64_decode_written (s : list Z) :
  let '(n, out) := base64_decode (Some s) true in
  (n = Z.of_nat (length out) /\ n <= Z.of_nat (length s) * 3 / 4) /\
  base64_decode (Some [65; 65; 65; 65; 61]) false = (2, []) /\
  base64_decode (Some [65; 65; 65; 65; 61]) true = (3, [0; 0; 0]) /\
  base64_decode (Some [61]) false = (SIZE_MAX, []) /\
  base64_decode (Some [61]) true = (0, []).
Proof.
  unfold base64_decode at 1. destruct (Z.of_nat (length s) =? 0) eqn:E; cbn [negb].
  - zbool. split; [rewrite E; done|]. by vm_compute.
  - destruct (decode_loop_budget s 0 0 [] ltac:(lia)) as [H _]. cbn [length] in H.
    split; [split; [done|dlia]|]. by vm_compute.
Qed.

(** [is_base64] accepts exactly the nonempty texts over the alphabet, [=] and, because the
    search covers the literal's terminator too, the NUL character; it does not look at the
    position of [=] or at the length. *)
Theorem is_base64_spec (s : list Z) (len : Z) :
  0 <= len <= Z.of_nat (length s) -> Forall is_u8 s ->
  (is_base64 (Some s) len = true <->
   0 < len /\ Forall (fun c => base64_char_decode c <> -1 \/ c = 61 \/ c = 0) (take (Z.to_nat len) s)).
Proof.
  intros Hlen Hs. unfold is_base64. destruct (len =? 0) eqn:E; zbool; [split; [done|lia]|].
  assert (forallb (fun n => let c := Z.of_nat n in
    Bool.eqb (in_lut c) (negb (base64_char_decode c =? -1) || (c =? 61) || (c =? 0)))
    (seq 0 256) = true) as H by by vm_compute.
  rewrite forallb_forall in H.
  rewrite forallb_forall, <- List.Forall_forall.
  transitivity (Forall (fun c => base64_char_decode c <> -1 \/ c = 61 \/ c = 0) (take (Z.to_nat len) s));
    [|split; [intros; split; [lia|done]|tauto]].
  assert (Forall is_u8 (take (Z.to_nat len) s)) as Ht by by apply Forall_take.
  split; intros Hf.
  - induction Hf as [|c t Hc Hf IH]; [done|]. inversion_clear Ht. constructor; [|by apply IH].
    specialize (H (Z.to_nat c) ltac:(apply in_seq; rlia)). cbv zeta in H.
    rewrite Z2Nat.id, Hc in H by rlia. apply eqb_prop in H. symmetry in H.
    apply orb_true_iff in H as [H|H]; [apply orb_true_iff in H as [H|H]|]; zbool; auto.
  - induction Hf as [|c t Hc Hf IH]; [done|]. inversion_clear Ht. constructor; [|by apply IH].
    specialize (H (Z.to_nat c) ltac:(apply in_seq; rlia)). cbv zeta in H.
    rewrite Z2Nat.id in H by rlia. apply eqb_prop in H. rewrite H.
    destruct Hc as [Hc|[->| ->]]; [|done..]. by rewrite (proj2 (Z.eqb_neq _ _)).
Qed.

Lemma is_base64_spec_witness :
  is_base64 (Some [65; 0]) 2 = true <->
   0 < 2 /\ Forall (fun c => base64_char_decode c <> -1 \/ c = 61 \/ c = 0) [65; 0].
Proof. apply (is_base64_spec [65; 0] 2); [cbn; lia|by repeat constructor]. Defined.
End Laws.
