(* ===== verification/FcMonad.v ===== *)
(** * Status-threaded arithmetic: the conventions of libs/fieldctrl/src

    Every fieldctrl body keeps a local [status] that the FC_ macros of
    fieldctrl_variant.h pass by address: an operation runs only while the status
    is OK, records the first error, and yields zero afterwards.  [fc A] is such a
    computation; [Return] is an early [return] of the C function.  [FcArith] is
    the macro interface that the four numeric variants implement, so that the
    controller bodies are written once, as in the *_impl.h headers.  C leaves
    the evaluation order of nested macro arguments open; the model evaluates
    them from left to right (the order can only select which error is reported
    when two operands fail). *)
From S2P Require Import Prelude MachineInt Status.

Inductive outcome (A : Type) : Type :=
| Next (value : A) (status : linears_status_t)
| Return (status : linears_status_t).
Arguments Next {A} value status.
Arguments Return {A} status.

Definition fc (A : Type) : Type := linears_status_t -> outcome A.

#[export] Instance fc_ret : MRet fc := fun A a s => Next a s.
#[export] Instance fc_bind : MBind fc := fun A B f m s =>
  match m s with Next a s' => f a s' | Return s' => Return s' end.

Definition lift2 {A B C} (op : A -> B -> fc C) (x : fc A) (y : fc B) : fc C :=
  a ← x; b ← y; op a b.
Definition lift1 {A C} (op : A -> fc C) (x : fc A) : fc C := a ← x; op a.

(** [if (status != LINEARS_OK) return status;] *)
Definition check : fc unit := fun s => if status_ok s then Next tt s else Return s.

(** [if (condition) return error;] *)
Definition fail_if (condition : bool) (error : linears_status_t) : fc unit := fun s =>
  if condition then Return error else Next tt s.

(** [status = f(...)] for a callee that returns its own status and values. *)
Definition assign {A} (r : linears_status_t * A) : fc A := fun _ => Next r.2 r.1.

(** An operation on [&status]: skipped, with result [zero], after an error. *)
Definition guarded {A} (zero : A) (r : linears_status_t * A) : fc A := fun s =>
  if status_ok s then Next r.2 r.1 else Next zero s.

(** An early return of the value [v] on the condition or on a pending error. *)
Definition quit_if {A} (condition : bool) (v : A) (rest : fc A) : fc A := fun s =>
  if condition || negb (status_ok s) then Next v s else rest s.

(** The body of an entry point: [if (status == LINEARS_OK) *out = result; return status]. *)
Definition run {R} (body : fc R) (old : R) : linears_status_t * R :=
  match body LINEARS_OK with
  | Next r s => (s, if status_ok s then r else old)
  | Return s => (s, old)
  end.

(** ** Reasoning: sticky errors, partial and total correctness *)

Section Logic.
(** An error never turns into success. *)
Definition sticky {A} (m : fc A) : Prop := forall s, s <> LINEARS_OK ->
  match m s with Next _ s' => s' <> LINEARS_OK | Return s' => s' <> LINEARS_OK end.

(** If the computation ends with status OK, it has a value and the value satisfies [Q]. *)
Definition wp {A} (m : fc A) (Q : A -> Prop) : Prop :=
  match m LINEARS_OK with
  | Next a s => s = LINEARS_OK -> Q a
  | Return s => s <> LINEARS_OK
  end.

(** The computation ends with status OK and a value that satisfies [Q]. *)
Definition total {A} (m : fc A) (Q : A -> Prop) : Prop :=
  exists a, m LINEARS_OK = Next a LINEARS_OK /\ Q a.

Context {A B : Type}.
Implicit Types (m : fc A) (f : A -> fc B).

Lemma sticky_ret (a : A) : sticky (mret (M:=fc) a).
Proof. intros s Hs. exact Hs. Qed.

Lemma sticky_bind m f : sticky m -> (forall a, sticky (f a)) -> sticky (m ≫= f).
Proof.
  intros Hm Hf s Hs. specialize (Hm s Hs). unfold mbind, fc_bind.
  destruct (m s) as [a s'|s']; [by apply Hf|done].
Qed.

Lemma sticky_guarded (z : A) r : sticky (guarded z r).
Proof. intros s Hs. unfold guarded. destruct s; done. Qed.

Lemma sticky_check : sticky check.
Proof. intros s Hs. unfold check. destruct s; done. Qed.

Lemma sticky_fail_if b e : e <> LINEARS_OK -> sticky (fail_if b e).
Proof. intros He s Hs. unfold fail_if. by destruct b. Qed.

Lemma sticky_quit_if b (v : A) m : sticky (quit_if b v m).
Proof. intros s Hs. unfold quit_if. destruct s; try done; by rewrite orb_true_r. Qed.

Lemma sticky_if (b : bool) m1 m2 : sticky m1 -> sticky m2 -> sticky (if b then m1 else m2).
Proof. by destruct b. Qed.

(** Sequencing: a failing step of the sequence cannot be followed by success. *)
Lemma wp_bind m f Q : wp m (fun a => wp (f a) Q) -> (forall a, sticky (f a)) -> wp (m ≫= f) Q.
Proof.
  unfold wp, mbind, fc_bind. intros Hm Hf.
  destruct (m LINEARS_OK) as [a s|s]; [|done].
  destruct (decide (s = LINEARS_OK)) as [->|Hs]; [by apply Hm|].
  specialize (Hf a s Hs). destruct (f a s); [by intros ->|done].
Qed.

(** A sequence succeeds exactly when both parts do. *)
Lemma bind_ok_iff m f b : (forall a, sticky (f a)) ->
  (m ≫= f) LINEARS_OK = Next b LINEARS_OK <->
  exists a, m LINEARS_OK = Next a LINEARS_OK /\ f a LINEARS_OK = Next b LINEARS_OK.
Proof.
  intros Hf. unfold mbind, fc_bind. split.
  - destruct (m LINEARS_OK) as [a s|s]; [|done]. intros E.
    destruct (decide (s = LINEARS_OK)) as [->|Hs]; [eauto|].
    specialize (Hf a s Hs). by rewrite E in Hf.
  - by intros (a & -> & E).
Qed.

Lemma wp_ret (a : A) (Q : A -> Prop) : Q a -> wp (mret (M:=fc) a) Q.
Proof. intros HQ _. exact HQ. Qed.

Lemma wp_guarded (z : A) r (Q : A -> Prop) : (r.1 = LINEARS_OK -> Q r.2) -> wp (guarded z r) Q.
Proof. intros HQ. exact HQ. Qed.

Lemma wp_check (Q : unit -> Prop) : Q tt -> wp check Q.
Proof. intros HQ _. exact HQ. Qed.

Lemma wp_fail_if c e (Q : unit -> Prop) :
  e <> LINEARS_OK -> (c = false -> Q tt) -> wp (fail_if c e) Q.
Proof. intros He HQ. unfold wp, fail_if. destruct c; auto. Qed.

Lemma wp_assign (r : linears_status_t * A) (Q : A -> Prop) :
  (r.1 = LINEARS_OK -> Q r.2) -> wp (assign r) Q.
Proof. intros HQ. exact HQ. Qed.

Lemma wp_if (b : bool) m1 m2 (Q : A -> Prop) :
  (b = true -> wp m1 Q) -> (b = false -> wp m2 Q) -> wp (if b then m1 else m2) Q.
Proof. destruct b; auto. Qed.

Lemma wp_mono m (P Q : A -> Prop) : wp m P -> (forall a, P a -> Q a) -> wp m Q.
Proof. unfold wp. destruct (m LINEARS_OK); auto. Qed.

(** The value of a successful computation, with the equation that produced it. *)
Lemma wp_eq m (Q : A -> Prop) :
  wp m Q -> wp m (fun a => Q a /\ m LINEARS_OK = Next a LINEARS_OK).
Proof. unfold wp. destruct (m LINEARS_OK) as [a s|s]; [intros HQ ->; auto|done]. Qed.

Lemma wp_quit_if c (v : A) m (Q : A -> Prop) :
  (c = true -> Q v) -> (c = false -> wp m Q) -> wp (quit_if c v m) Q.
Proof. intros Ht Hf. unfold wp, quit_if. destruct c; cbn; [by auto|]. by apply Hf. Qed.

Lemma total_quit_if c (v : A) m (Q : A -> Prop) :
  (c = true -> Q v) -> (c = false -> total m Q) -> total (quit_if c v m) Q.
Proof. unfold total, quit_if. destruct c; cbn; [|auto]. intros H _. exists v. auto. Qed.

Lemma total_bind m f Q : total m (fun a => total (f a) Q) -> total (m ≫= f) Q.
Proof. intros (a & Ea & b & Eb & HQ). exists b. unfold mbind, fc_bind. by rewrite Ea. Qed.

Lemma total_ret (a : A) (Q : A -> Prop) : Q a -> total (mret (M:=fc) a) Q.
Proof. intros HQ. by exists a. Qed.

Lemma total_guarded (z : A) r (Q : A -> Prop) :
  r.1 = LINEARS_OK -> Q r.2 -> total (guarded z r) Q.
Proof. intros E HQ. exists r.2. unfold guarded. cbn. by rewrite E. Qed.

Lemma total_check (Q : unit -> Prop) : Q tt -> total check Q.
Proof. intros HQ. by exists tt. Qed.

Lemma total_fail_if c e (Q : unit -> Prop) : c = false -> Q tt -> total (fail_if c e) Q.
Proof. intros -> HQ. by exists tt. Qed.

Lemma total_mono m (P Q : A -> Prop) : total m P -> (forall a, P a -> Q a) -> total m Q.
Proof. intros (a & E & HP) HPQ. exists a. auto. Qed.

(** Success of an entry point. *)
Lemma run_ok m (Q : A -> Prop) old : wp m Q -> (run m old).1 = LINEARS_OK -> Q (run m old).2.
Proof.
  unfold run, wp. destruct (m LINEARS_OK) as [a s|s]; cbn; [|done].
  intros HQ ->. by apply HQ.
Qed.

Lemma run_ok_eq m (Q : A -> Prop) old : wp m Q -> (run m old).1 = LINEARS_OK ->
  m LINEARS_OK = Next (run m old).2 LINEARS_OK.
Proof. unfold run, wp. destruct (m LINEARS_OK) as [a s|s]; cbn; [|done]. by intros _ ->. Qed.

Lemma run_total m (Q : A -> Prop) old : total m Q -> exists r, run m old = (LINEARS_OK, r) /\ Q r.
Proof. intros (a & E & HQ). exists a. unfold run. by rewrite E. Qed.

(** Failure leaves the output object alone. *)
Lemma run_failed m old : (run m old).1 <> LINEARS_OK -> (run m old).2 = old.
Proof. unfold run. destruct (m LINEARS_OK) as [a s|s]; cbn; [|done]. by destruct s. Qed.
End Logic.

(** After [check] only an OK status continues. *)
Lemma sticky_check_bind {B} (f : unit -> fc B) : sticky (check ≫= f).
Proof. intros s Hs. unfold mbind, fc_bind, check. by destruct s. Qed.

Lemma wp_check_bind {B} (m : fc B) Q : wp m Q -> wp (check;; m) Q.
Proof. intros Hm. exact Hm. Qed.

Create HintDb sticky discriminated.
#[export] Hint Extern 0 (sticky (check ≫= _)) => apply sticky_check_bind : sticky.
#[export] Hint Resolve sticky_ret sticky_bind sticky_guarded sticky_check sticky_if sticky_quit_if : sticky.
#[export] Hint Extern 1 (sticky (fail_if _ _)) => apply sticky_fail_if; discriminate : sticky.
#[export] Hint Extern 2 => (progress intros) : sticky.
#[export] Hint Extern 3 (sticky (match ?x with _ => _ end)) => destruct x : sticky.
#[export] Hint Extern 3 (sticky (let _ := _ in _)) => (cbv zeta) : sticky.
Ltac solve_sticky := solve [eauto 100 with sticky].

(** ** The macro interface of fieldctrl_variant.h

    [T] is the signal type FC_T and [W] the working type FC_W.  A store macro takes
    the cell it may overwrite and returns the cell it leaves. *)
Class FcArith (T W : Type) := {
  FC_LOAD : T -> fc W;
  FC_STORE : W -> T -> fc T;
  FC_I : Z -> fc W;
  FC_ADD : W -> W -> fc W;
  FC_SUB : W -> W -> fc W;
  FC_MUL : W -> W -> fc W;
  FC_DIV : W -> W -> fc W;
  FC_NEG : W -> fc W;
  FC_ABS : W -> fc W;
  FC_SQRT : W -> fc W;
  FC_HYPOT : W -> W -> fc W;
  FC_RESCALE : W -> W -> W -> fc W;
  FC_CMP : W -> W -> Z;
  FC_WRAP : W -> fc W;
  FC_SINCOS : W -> W * W -> fc (W * W);
  FC_ATAN2 : W -> W -> fc W;
  FC_ACC_LOAD : W -> fc W;
  FC_ACC_STORE : W -> W -> fc W;
  FC_FIELD : T -> W;
  FC_ANGLE_STORE : W -> T -> fc T;
  (** The contents of uninitialised locals of the two types. *)
  fc_local_t : T;
  fc_local_w : W;
}.

(** What the controllers rely on.  [fc_repr] and [fc_wrepr] hold for every bit pattern of the
    signal and of the working type, [fc_value] for the numbers a successful computation produces.
    Errors are sticky, comparisons are those of a total preorder on numbers, a successful
    operation on numbers produces a number, and a store is monotone. *)
Class FcLaws (T W : Type) `{FcArith T W} := {
  fc_repr : T -> Prop;
  fc_wrepr : W -> Prop;
  fc_value : W -> Prop;
  fc_le : W -> W -> Prop;
  fc_value_wrepr w : fc_value w -> fc_wrepr w;
  fc_local_repr : fc_repr fc_local_t /\ fc_wrepr fc_local_w;
  fc_le_trans a b c : fc_value a -> fc_value b -> fc_value c -> fc_le a b -> fc_le b c -> fc_le a c;
  fc_cmp_le a b : fc_value a -> fc_value b -> (FC_CMP a b <= 0 <-> fc_le a b);
  fc_cmp_ge a b : fc_value a -> fc_value b -> (0 <= FC_CMP a b <-> fc_le b a);
  fc_load_sticky t : sticky (FC_LOAD t);
  fc_load_wp t : fc_repr t -> wp (FC_LOAD t) (fun w => w = FC_FIELD t /\ fc_value w);
  fc_acc_load_sticky w : sticky (FC_ACC_LOAD w);
  fc_acc_load_wp w : fc_wrepr w -> wp (FC_ACC_LOAD w) (fun w' => w' = w /\ fc_value w);
  fc_acc_store_sticky w c : sticky (FC_ACC_STORE w c);
  fc_acc_store_wp w c : fc_value w -> wp (FC_ACC_STORE w c) (fun w' => w' = w);
  fc_i_sticky n : sticky (FC_I n);
  fc_i_wp n : wp (FC_I n) fc_value;
  fc_i_small n : 0 <= n <= 65535 -> total (FC_I n) fc_value;
  fc_add_sticky a b : sticky (FC_ADD a b);
  fc_add_wp a b : fc_value a -> fc_value b -> wp (FC_ADD a b) fc_value;
  fc_sub_sticky a b : sticky (FC_SUB a b);
  fc_sub_wp a b : fc_value a -> fc_value b -> wp (FC_SUB a b) fc_value;
  fc_mul_sticky a b : sticky (FC_MUL a b);
  fc_mul_wp a b : fc_value a -> fc_value b -> wp (FC_MUL a b) fc_value;
  fc_div_sticky a b : sticky (FC_DIV a b);
  fc_div_wp a b : fc_value a -> fc_value b -> wp (FC_DIV a b) fc_value;
  (** A bound crossed by a sum, minus one term, does not pass the other term. *)
  fc_sub_upper a b hi r d : fc_value a -> fc_value b -> fc_value hi ->
    FC_ADD a b LINEARS_OK = Next r LINEARS_OK -> 0 < FC_CMP r hi ->
    FC_SUB hi a LINEARS_OK = Next d LINEARS_OK -> fc_le d b;
  fc_sub_lower a b lo r d : fc_value a -> fc_value b -> fc_value lo ->
    FC_ADD a b LINEARS_OK = Next r LINEARS_OK -> FC_CMP r lo < 0 ->
    FC_SUB lo a LINEARS_OK = Next d LINEARS_OK -> fc_le b d;
  fc_neg_sticky a : sticky (FC_NEG a);
  fc_neg_wp a : fc_value a -> wp (FC_NEG a) fc_value;
  fc_abs_sticky a : sticky (FC_ABS a);
  fc_abs_wp a : fc_value a -> wp (FC_ABS a) fc_value;
  fc_store_sticky w t : sticky (FC_STORE w t);
  fc_store_between w t l h : fc_value w -> fc_repr l -> fc_repr h -> fc_value (FC_FIELD l) ->
    fc_value (FC_FIELD h) -> fc_le (FC_FIELD l) w -> fc_le w (FC_FIELD h) ->
    wp (FC_STORE w t) (fun t' => fc_repr t' /\ fc_value (FC_FIELD t') /\
      fc_le (FC_FIELD l) (FC_FIELD t') /\ fc_le (FC_FIELD t') (FC_FIELD h));
}.

(** Numbers that compare equal are the same value: no signed zeros. *)
Class FcCmpEq (T W : Type) `{FcLaws T W} :=
  fc_cmp_eq a b : fc_value a -> fc_value b -> FC_CMP a b = 0 -> a = b.

#[export] Hint Extern 0 (sticky (FC_LOAD _)) => apply fc_load_sticky : sticky.
#[export] Hint Extern 0 (sticky (FC_ACC_LOAD _)) => apply fc_acc_load_sticky : sticky.
#[export] Hint Extern 0 (sticky (FC_ACC_STORE _ _)) => apply fc_acc_store_sticky : sticky.
#[export] Hint Extern 0 (sticky (FC_I _)) => apply fc_i_sticky : sticky.
#[export] Hint Extern 0 (sticky (FC_ADD _ _)) => apply fc_add_sticky : sticky.
#[export] Hint Extern 0 (sticky (FC_SUB _ _)) => apply fc_sub_sticky : sticky.
#[export] Hint Extern 0 (sticky (FC_MUL _ _)) => apply fc_mul_sticky : sticky.
#[export] Hint Extern 0 (sticky (FC_DIV _ _)) => apply fc_div_sticky : sticky.
#[export] Hint Extern 0 (sticky (FC_NEG _)) => apply fc_neg_sticky : sticky.
#[export] Hint Extern 0 (sticky (FC_ABS _)) => apply fc_abs_sticky : sticky.
#[export] Hint Extern 0 (sticky (FC_STORE _ _)) => apply fc_store_sticky : sticky.

Section Lifted.
Context {A B C : Type}.

Lemma sticky_lift2 (op : A -> B -> fc C) x y :
  sticky x -> sticky y -> (forall a b, sticky (op a b)) -> sticky (lift2 op x y).
Proof. intros. unfold lift2. solve_sticky. Qed.

Lemma sticky_lift1 (op : A -> fc C) x :
  sticky x -> (forall a, sticky (op a)) -> sticky (lift1 op x).
Proof. intros. unfold lift1. solve_sticky. Qed.

Lemma wp_lift2 (op : A -> B -> fc C) x y Q :
  wp x (fun a => wp y (fun b => wp (op a b) Q)) -> sticky y -> (forall a b, sticky (op a b)) ->
  wp (lift2 op x y) Q.
Proof.
  intros Hx Hy Hop. unfold lift2. apply wp_bind; [|solve_sticky].
  eapply wp_mono; [exact Hx|]. intros a Ha. apply wp_bind; [done|auto].
Qed.

Lemma wp_lift1 (op : A -> fc C) x Q :
  wp x (fun a => wp (op a) Q) -> (forall a, sticky (op a)) -> wp (lift1 op x) Q.
Proof. intros. unfold lift1. by apply wp_bind. Qed.
End Lifted.

#[export] Hint Resolve sticky_lift2 sticky_lift1 : sticky.

(** One step of a partial-correctness proof: the postcondition of the first command becomes a
    hypothesis, and the stickiness of the rest is discharged. *)
Tactic Notation "wp_step" uconstr(lem) "as" simple_intropattern(x) simple_intropattern(pat) :=
  apply wp_bind; [eapply wp_mono; [eapply lem; eauto|intros x pat]|intros; solve_sticky].
