(* ===== verification/Cordic.v ===== *)
(** * The q working arithmetic: fieldctrl_arith.h (fcq_ functions) and cordic.c

    The q15 and q31 variants compute in F31 [linears_fixed_t] values.  Each fcq_
    operation delegates to libs/linears under the sticky status; cordic.c adds
    turn reduction and 32 fixed Volder rotations on 2^60-scaled coordinates and
    2^62-scaled turns.  Every int64_t operation of the rotations is written with
    its wrap-around; the lemmas show that none wraps. *)
From S2P Require Import Prelude MachineInt Status Wide Numeric FcMonad.

(** ** The fcq_ operations *)

(** While the status is OK: the status becomes that of [f] and its cell, from 0, is returned. *)
Definition fcq_call (f : option Z -> linears_status_t * option Z) : fc Z :=
  guarded 0 (let r := f (Some 0) in (r.1, default 0 r.2)).

Definition fcq_add (a b : Z) : fc Z := fcq_call (linears_fixed_add a b).
Definition fcq_sub (a b : Z) : fc Z := fcq_call (linears_fixed_sub a b).
Definition fcq_mul (a b : Z) : fc Z := fcq_call (linears_fixed_mul a b).
Definition fcq_div (a b : Z) : fc Z := fcq_call (linears_fixed_div a b).
Definition fcq_neg (a : Z) : fc Z := fcq_call (linears_fixed_neg a).
Definition fcq_abs (a : Z) : fc Z := fcq_call (linears_fixed_abs a).
Definition fcq_sqrt (a : Z) : fc Z := fcq_call (linears_fixed_sqrt a).
Definition fcq_i (x : Z) : fc Z := fcq_call (linears_fixed_from_int x).
Definition fcq_rescale (a numerator denominator : Z) : fc Z :=
  fcq_call (linears_fixed_muldiv a numerator denominator).
Definition fcq_cmp (a b : Z) : Z := linears_fixed_compare a b.

Definition fcq15_load (x : Z) : fc Z := guarded 0 (LINEARS_OK, linears_fixed_from_q15 x).
Definition fcq31_load (x : Z) : fc Z := guarded 0 (LINEARS_OK, linears_fixed_from_q31 x).
Definition fcq_work_load (x : Z) : fc Z := guarded 0 (LINEARS_OK, x).
Definition fcq_work_store (x out : Z) : fc Z := guarded out (LINEARS_OK, x).
Definition fcq15_store (x out : Z) : fc Z := guarded out (fixed_to_q15_cell x out).
Definition fcq31_store (x out : Z) : fc Z := guarded out (fixed_to_q31_cell x out).

(** The body returns 0 early when the larger magnitude is zero or an error is pending. *)
Definition fcq_hypot (a b : Z) : fc Z :=
  aa ← fcq_abs a; bb ← fcq_abs b;
  let hi := if 0 <=? fcq_cmp aa bb then aa else bb in
  let lo := if 0 <=? fcq_cmp aa bb then bb else aa in
  quit_if (hi =? 0) 0
    (ratio ← fcq_div lo hi;
     sum ← fcq_mul ratio ratio;
     sum ← fcq_add LINEARS_FIXED_ONE sum;
     root ← fcq_sqrt sum;
     fcq_mul hi root).

(** ** cordic.c *)

Definition fc_atan_turns : list Z :=
  [576460752303423488; 340304653033718298; 179807632645220259; 91273161881380487;
   45813697873323707; 22929182573009054; 11467389120678282; 5734044481687724;
   2867065987018958; 1433538461969102; 716769914547871; 358385042719534;
   179192532040472; 89596267355325; 44798133844548; 22399066943135;
   11199533474175; 5599766737413; 2799883368747; 1399941684379;
   699970842190; 349985421095; 174992710548; 87496355274;
   43748177637; 21874088818; 10937044409; 5468522205;
   2734261102; 1367130551; 683565276; 341782638].

Definition atan_turns (i : nat) : Z := nth i fc_atan_turns 0.

Definition fc_coord_shift (value bits : Z) : Z :=
  let magnitude := if value <? 0 then u64 (0 - u64 value) else u64 value in
  let shifted := i64 (Z.shiftr magnitude bits) in
  if value <? 0 then i64 (- shifted) else shifted.

(** The [%] operator of C truncates towards zero. *)
Definition fcq_wrap (x : Z) : fc Z :=
  guarded 0 (LINEARS_OK,
    let remainder := Z.rem x LINEARS_FIXED_ONE in
    if remainder <? 0 then i64 (remainder + LINEARS_FIXED_ONE) else remainder).

Definition turn : Z := 4611686018427387904.
Definition quarter : Z := 1152921504606846976.
Definition cordic_gain : Z := 700114967507363239.

(** One rotation of fcq_sincos, over (x, y, z). *)
Definition rotate_step (i : nat) (v : Z * Z * Z) : Z * Z * Z :=
  let '(x, y, z) := v in
  let dx := fc_coord_shift x (Z.of_nat i) in
  let dy := fc_coord_shift y (Z.of_nat i) in
  if 0 <=? z then (i64 (x - dy), i64 (y + dx), i64 (z - atan_turns i))
  else (i64 (x + dy), i64 (y - dx), i64 (z + atan_turns i)).

(** Reduction to [-quarter, quarter] with the sign of the half turn removed. *)
Definition sincos_reduce (z : Z) : Z * Z :=
  let z := if 2 * quarter <=? z then i64 (z - turn) else z in
  if quarter <? z then (i64 (z - 2 * quarter), -1)
  else if z <? - quarter then (i64 (z + 2 * quarter), -1)
  else (z, 1).

(** The two F60 to F31 conversions; the second runs only after the first succeeded. *)
Definition sincos_export (sign x y : Z) : linears_status_t * (Z * Z) :=
  let '(status, s) := linears_fixed_muldiv (i64 (sign * y)) 1 536870912 (Some 0) in
  let '(status, c) :=
    if status_ok status then linears_fixed_muldiv (i64 (sign * x)) 1 536870912 (Some 0)
    else (status, Some 0) in
  (status, (default 0 s, default 0 c)).

(** The status and the two results for a reduced turn fraction z = w * 2^31. *)
Definition sincos_reduced (z : Z) : linears_status_t * (Z * Z) :=
  if (z =? 0) || (z =? quarter) || (z =? 2 * quarter) || (z =? 3 * quarter) then
    (LINEARS_OK,
     ((if z =? quarter then LINEARS_FIXED_ONE
       else if z =? 3 * quarter then - LINEARS_FIXED_ONE else 0),
      (if z =? 0 then LINEARS_FIXED_ONE
       else if z =? 2 * quarter then - LINEARS_FIXED_ONE else 0)))
  else
    let '(z, sign) := sincos_reduce z in
    let '(x, y, _) := for_up 0 32 rotate_step (cordic_gain, 0, z) in
    sincos_export sign x y.

(** [out] is the pair of cells; it changes only when the final status is OK. *)
Definition fcq_sincos (a : Z) (out : Z * Z) : fc (Z * Z) :=
  w ← fcq_wrap a;
  guarded out
    (let '(status, sc) := sincos_reduced (i64 (w * LINEARS_FIXED_ONE)) in
     (status, if status_ok status then sc else out)).

(** One vectoring iteration of fcq_atan2; the loop stops at y = 0. *)
Definition vector_step (i : nat) (v : Z * Z * Z) : Z * Z * Z :=
  let '(x, y, z) := v in
  let dx := fc_coord_shift x (Z.of_nat i) in
  let dy := fc_coord_shift y (Z.of_nat i) in
  if 0 <? y then (i64 (x + dy), i64 (y - dx), i64 (z + atan_turns i))
  else (i64 (x - dy), i64 (y + dx), i64 (z - atan_turns i)).

Fixpoint vector_loop (i n : nat) (v : Z * Z * Z) : Z * Z * Z :=
  match n with
  | O => v
  | S n => if v.1.2 =? 0 then v else vector_loop (S i) n (vector_step i v)
  end.

(** The angle of a vector with unit-ratio coordinates, in [0, turn). *)
Definition vector_angle (nx ny : Z) : Z :=
  let x := i64 (nx * 536870912) in
  let y := i64 (ny * 536870912) in
  let v := if x <? 0 then (i64 (- x), i64 (- y), turn / 2) else (x, y, 0) in
  let '(_, _, z) := vector_loop 0 32 v in
  let z := if z <? 0 then i64 (z + turn) else z in
  if turn <=? z then i64 (z - turn) else z.

(** The test of the incoming status and the other early returns are [quit_if]s. *)
Definition fcq_atan2 (fy fx : Z) : fc Z :=
  quit_if false 0
    (if (fx =? 0) && (fy =? 0) then guarded 0 (LINEARS_ERROR_DOMAIN, 0)
     else
       quit_if (fy =? 0) (if 0 <? fx then 0 else LINEARS_FIXED_ONE / 2)
         (quit_if (fx =? 0) (if 0 <? fy then LINEARS_FIXED_ONE / 4 else 3 * (LINEARS_FIXED_ONE / 4))
            (ax ← fcq_abs fx; ay ← fcq_abs fy;
             let largest := if ay <=? ax then ax else ay in
             nx ← fcq_div fx largest; ny ← fcq_div fy largest;
             quit_if false 0
               (a ← assign (let r := linears_fixed_muldiv (vector_angle nx ny) 1 LINEARS_FIXED_ONE (Some 0) in
                            (r.1, default 0 r.2));
                fcq_wrap a)))).

(** ** Lemmas: the operations under an OK status *)

Section Operations.
Lemma fcq_call_wp f v : f (Some 0) = with_out (Some 0) (deliver (fits_i64 v) v) ->
  wp (fcq_call f) (fun r => r = v /\ is_i64 r).
Proof.
  intros E. apply wp_guarded. rewrite E. cbn. unfold deliver.
  destruct (fits_i64 v) eqn:F; cbn; [|done]. apply fits_i64_spec in F. auto.
Qed.

Lemma fcq_call_total f v : f (Some 0) = with_out (Some 0) (deliver (fits_i64 v) v) -> is_i64 v ->
  total (fcq_call f) (fun r => r = v).
Proof.
  intros E Hv. apply total_guarded; rewrite E; cbn; by rewrite fits_i64_true.
Qed.

Lemma fcq_call_sticky f : sticky (fcq_call f).
Proof. apply sticky_guarded. Qed.

Context (a b : Z) (Ha : is_i64 a) (Hb : is_i64 b).

Lemma fcq_add_eq : linears_fixed_add a b (Some 0) = with_out (Some 0) (deliver (fits_i64 (a + b)) (a + b)).
Proof. apply (linears_fixed_ops_exact a b (Some 0) Ha Hb). Qed.
Lemma fcq_sub_eq : linears_fixed_sub a b (Some 0) = with_out (Some 0) (deliver (fits_i64 (a - b)) (a - b)).
Proof. apply (linears_fixed_ops_exact a b (Some 0) Ha Hb). Qed.
Lemma fcq_neg_eq : linears_fixed_neg a (Some 0) = with_out (Some 0) (deliver (fits_i64 (- a)) (- a)).
Proof. apply (linears_fixed_ops_exact a b (Some 0) Ha Hb). Qed.
Lemma fcq_abs_eq : linears_fixed_abs a (Some 0) = with_out (Some 0) (deliver (fits_i64 (Z.abs a)) (Z.abs a)).
Proof. apply (linears_fixed_ops_exact a b (Some 0) Ha Hb). Qed.
Lemma fcq_div_eq : b <> 0 ->
  linears_fixed_div a b (Some 0)
  = with_out (Some 0) (deliver (fits_i64 (div_nearest (a * LINEARS_FIXED_ONE) b))
                               (div_nearest (a * LINEARS_FIXED_ONE) b)).
Proof.
  intros Hnz. rewrite linears_fixed_div_exact by done. cbn. by rewrite (proj2 (Z.eqb_neq b 0)).
Qed.
Lemma fcq_muldiv_eq d : is_i64 d -> d <> 0 ->
  linears_fixed_muldiv a b d (Some 0)
  = with_out (Some 0) (deliver (fits_i64 (div_nearest (a * b) d)) (div_nearest (a * b) d)).
Proof.
  intros Hd Hnz. rewrite linears_fixed_muldiv_exact by done. cbn. by rewrite (proj2 (Z.eqb_neq d 0)).
Qed.
End Operations.

#[export] Hint Resolve fcq_call_sticky : sticky.

(** ** Lemmas: rotations *)

(** A planar vector displaced by less than [d] in each coordinate moves its norm by at most [2d]. *)
Section Norm.
Implicit Types u v e f d A : Z.

Lemma norm_grow u v e f d A :
  0 <= A -> u * u + v * v <= A * A -> Z.abs e <= d -> Z.abs f <= d ->
  (u + e) * (u + e) + (v + f) * (v + f) <= (A + 2 * d) * (A + 2 * d).
Proof.
  intros HA HN He Hf.
  assert (Z.abs u <= A /\ Z.abs v <= A) as [Hu Hv] by nia.
  assert (Z.abs (u * e) <= A * d /\ Z.abs (v * f) <= A * d) as [? ?] by (rewrite !Z.abs_mul; nia).
  assert (e * e <= d * d /\ f * f <= d * d) as [? ?] by nia. nia.
Qed.

Lemma norm_shrink_nonneg p q d A :
  0 <= p -> 0 <= q -> 0 <= d -> 2 * d <= A -> A * A <= p * p + q * q ->
  (A - 2 * d) * (A - 2 * d) <= Z.max 0 (p - d) * Z.max 0 (p - d) + Z.max 0 (q - d) * Z.max 0 (q - d).
Proof.
  intros Hp Hq Hd HA HN.
  set (p' := Z.max 0 (p - d)). set (q' := Z.max 0 (q - d)).
  assert (0 <= p' /\ 0 <= q' /\ p <= p' + d /\ q <= q' + d) as (? & ? & ? & ?) by lia.
  destruct (Z.le_gt_cases ((A - 2 * d) * (A - 2 * d)) (p' * p' + q' * q')) as [|Hlt]; [done|exfalso].
  assert (p' < A - 2 * d /\ q' < A - 2 * d) as [? ?] by nia.
  assert (p * p <= (p' + d) * (p' + d) /\ q * q <= (q' + d) * (q' + d)) as [? ?] by nia.
  assert (d * (p' + q') <= d * (2 * (A - 2 * d))) by nia. nia.
Qed.

Lemma square_shrink u e d : Z.abs e <= d -> Z.max 0 (Z.abs u - d) * Z.max 0 (Z.abs u - d) <= (u + e) * (u + e).
Proof. intros He. assert (Z.max 0 (Z.abs u - d) <= Z.abs (u + e)) by lia. nia. Qed.

Lemma norm_shrink u v e f d A :
  0 <= d -> 2 * d <= A -> A * A <= u * u + v * v -> Z.abs e <= d -> Z.abs f <= d ->
  (A - 2 * d) * (A - 2 * d) <= (u + e) * (u + e) + (v + f) * (v + f).
Proof.
  intros Hd HA HN He Hf.
  pose proof (norm_shrink_nonneg (Z.abs u) (Z.abs v) d A ltac:(lia) ltac:(lia) Hd HA) as H.
  rewrite !Z.abs_square in H. pose proof (square_shrink u e d He). pose proof (square_shrink v f d Hf). 
  specialize (H HN). lia.
Qed.

Lemma square_le u A : 0 <= A -> u * u <= A * A -> - A <= u <= A.
Proof. intros HA HN. nia. Qed.
End Norm.

Section Rotation.
Lemma coord_shift_spec v i : (i < 32)%nat -> Z.abs v < 4611686018427387904 ->
  exists e, Z.abs e <= 2 ^ Z.of_nat i /\ 2 ^ Z.of_nat i * fc_coord_shift v (Z.of_nat i) = v + e /\
    Z.abs (fc_coord_shift v (Z.of_nat i)) <= Z.abs v.
Proof.
  intros Hi Hv. unfold fc_coord_shift.
  assert (1 <= 2 ^ Z.of_nat i) as Hp by (pose proof (Z.pow_pos_nonneg 2 (Z.of_nat i)); lia).
  set (p := 2 ^ Z.of_nat i) in *.
  assert ((if v <? 0 then u64 (0 - u64 v) else u64 v) = Z.abs v) as ->.
  { unfold u64. destruct (Z.ltb_spec v 0); clearbody p; dlia. }
  rewrite Z.shiftr_div_pow2 by lia. fold p.
  pose proof (Z.div_mod (Z.abs v) p ltac:(lia)). pose proof (Z.mod_pos_bound (Z.abs v) p ltac:(lia)).
  assert (0 <= Z.abs v / p <= Z.abs v) as Hq by (split; [apply Z.div_pos; lia|apply Z.div_le_upper_bound; nia]).
  rewrite (i64_id (Z.abs v / p)) by rlia. destruct (Z.ltb_spec v 0).
  - rewrite i64_id by rlia. exists (Z.abs v mod p). split; [lia|]. split; [|lia].
    rewrite <- Zopp_mult_distr_r. lia.
  - exists (- (Z.abs v mod p)). split; [lia|]. split; lia.
Qed.

(** Guaranteed norm bounds after iteration [i]. *)
Definition grow (i : nat) (M : Z) : Z :=
  let p := 2 ^ Z.of_nat i in (Z.sqrt (M * M * (p * p + 1)) + 1 + 2 * p) / p + 1.
Definition shrink (i : nat) (m : Z) : Z :=
  let p := 2 ^ Z.of_nat i in (Z.sqrt (m * m * (p * p + 1)) - 2 * p) / p.
Fixpoint iterate (f : nat -> Z -> Z) (n : nat) (M : Z) : Z :=
  match n with O => M | S n => f n (iterate f n M) end.

Lemma grow_step i M N X Y :
  0 <= M -> N <= M * M -> 0 < N ->
  let p := 2 ^ Z.of_nat i in
  (p * X) * (p * X) + (p * Y) * (p * Y) <= (Z.sqrt (M * M * (p * p + 1)) + 1 + 2 * p) * (Z.sqrt (M * M * (p * p + 1)) + 1 + 2 * p) ->
  X * X + Y * Y <= grow i M * grow i M.
Proof.
  intros HM HN Hpos p H. unfold grow. fold p.
  assert (0 < p) as Hp by (apply Z.pow_pos_nonneg; lia).
  pose proof (Z.sqrt_nonneg (M * M * (p * p + 1))).
  set (A := Z.sqrt (M * M * (p * p + 1)) + 1 + 2 * p) in *.
  pose proof (Z.div_mod A p ltac:(lia)). pose proof (Z.mod_pos_bound A p Hp).
  assert (0 <= A / p) by (apply Z.div_pos; lia).
  set (M' := A / p + 1) in *. assert (A <= p * M') by nia.
  assert (p * p * (X * X + Y * Y) <= p * p * (M' * M')) by nia.
  apply (Zmult_le_reg_r _ _ (p * p)); nia.
Qed.

Lemma shrink_step i m X Y :
  let p := 2 ^ Z.of_nat i in
  2 * p <= Z.sqrt (m * m * (p * p + 1)) ->
  (Z.sqrt (m * m * (p * p + 1)) - 2 * p) * (Z.sqrt (m * m * (p * p + 1)) - 2 * p)
    <= (p * X) * (p * X) + (p * Y) * (p * Y) ->
  0 <= shrink i m /\ shrink i m * shrink i m <= X * X + Y * Y.
Proof.
  intros p HA H. unfold shrink. fold p.
  assert (0 < p) as Hp by (apply Z.pow_pos_nonneg; lia).
  set (B := Z.sqrt (m * m * (p * p + 1)) - 2 * p) in *.
  pose proof (Z.div_mod B p ltac:(lia)). pose proof (Z.mod_pos_bound B p Hp).
  assert (0 <= B / p) by (apply Z.div_pos; lia). split; [done|].
  assert (p * (B / p) <= B) by nia.
  apply (Zmult_le_reg_r _ _ (p * p)); [nia|]. nia.
Qed.

(** The planar part shared by both loops: a rotation by one table angle, [sigma] = 1 or -1. *)
Lemma planar_step i sigma m M x y :
  (i < 32)%nat -> sigma = 1 \/ sigma = -1 ->
  0 <= m -> 0 <= M < 3000000000000000000 ->
  m * m <= x * x + y * y <= M * M ->
  2 * 2 ^ Z.of_nat i <= Z.sqrt (m * m * (2 ^ Z.of_nat i * 2 ^ Z.of_nat i + 1)) ->
  let X := x - sigma * fc_coord_shift y (Z.of_nat i) in
  let Y := y + sigma * fc_coord_shift x (Z.of_nat i) in
  is_i64 X /\ is_i64 Y /\
  0 <= shrink i m /\ shrink i m * shrink i m <= X * X + Y * Y <= grow i M * grow i M.
Proof.
  intros Hi Hs Hm HM HN Hroom X Y.
  assert (0 < 2 ^ Z.of_nat i) as Hp by (apply Z.pow_pos_nonneg; lia).
  destruct (square_le x M ltac:(lia)) as [Hx1 Hx2]; [nia|].
  destruct (square_le y M ltac:(lia)) as [Hy1 Hy2]; [nia|].
  destruct (coord_shift_spec x i Hi ltac:(lia)) as (e & He & Ex & Bx).
  destruct (coord_shift_spec y i Hi ltac:(lia)) as (f & Hf & Ey & By).
  set (p := 2 ^ Z.of_nat i) in *.
  assert (p * X = (p * x - sigma * y) + - (sigma * f)) as EX by (unfold X; destruct Hs as [-> | ->]; lia).
  assert (p * Y = (p * y + sigma * x) + sigma * e) as EY by (unfold Y; destruct Hs as [-> | ->]; lia).
  assert (Z.abs (- (sigma * f)) <= p /\ Z.abs (sigma * e) <= p) as [Hf' He'] by (destruct Hs as [-> | ->]; lia).
  assert ((p * x - sigma * y) * (p * x - sigma * y) + (p * y + sigma * x) * (p * y + sigma * x)
          = (x * x + y * y) * (p * p + 1)) as Erot by (destruct Hs as [-> | ->]; ring).
  split; [|split].
  1,2: unfold X, Y; destruct Hs as [-> | ->]; rlia.
  assert (0 <= p * p + 1) as Hpp by (pose proof (Z.square_nonneg p); lia).
  pose proof (Z.sqrt_nonneg (m * m * (p * p + 1))).
  pose proof (Z.sqrt_spec (m * m * (p * p + 1))
    (Z.mul_nonneg_nonneg _ _ (Z.square_nonneg m) Hpp)) as [Hl _].
  pose proof (Z.sqrt_nonneg (M * M * (p * p + 1))).
  pose proof (Z.sqrt_spec (M * M * (p * p + 1))
    (Z.mul_nonneg_nonneg _ _ (Z.square_nonneg M) Hpp)) as [_ Hu].
  cbv zeta in Hu.
  pose proof (Z.mul_le_mono_nonneg_r _ _ _ Hpp (proj1 HN)) as Hl'.
  pose proof (Z.mul_le_mono_nonneg_r _ _ _ Hpp (proj2 HN)) as Hu'.
  destruct (shrink_step i m X Y Hroom) as [H1 H2].
  - fold p. rewrite EX, EY. apply norm_shrink; [lia|done| |done|done]. rewrite Erot. lia.
  - split; [done|]. split; [done|].
    destruct (Z.eq_dec (x * x + y * y) 0) as [E0|].
    { assert (m * m <= 0) as Hm0 by lia. clear -Hm0 Hroom Hp Hm. assert (m = 0) by nia. subst m.
      change (Z.sqrt (0 * 0 * (p * p + 1))) with 0 in Hroom. lia. }
    apply (grow_step i M (x * x + y * y)); [lia|lia| |].
    { pose proof (Z.square_nonneg x). pose proof (Z.square_nonneg y). lia. } fold p. rewrite EX, EY.
    apply norm_grow; [lia| |done|done]. rewrite Erot. lia.
Qed.
End Rotation.

Section Loops.
(** The bounds at each iteration, from initial norms [m0] and [M0]. *)
Definition bounds_ok (m0 M0 : Z) : bool :=
  forallb (fun i =>
    (0 <=? iterate shrink i m0) && (0 <=? iterate grow i M0) &&
    (iterate grow i M0 <? 3000000000000000000) &&
    (2 * 2 ^ Z.of_nat i <=?
       Z.sqrt (iterate shrink i m0 * iterate shrink i m0 * (2 ^ Z.of_nat i * 2 ^ Z.of_nat i + 1))))
    (seq 0 32).

Definition in_ring (m0 M0 : Z) (i : nat) (x y : Z) : Prop :=
  iterate shrink i m0 * iterate shrink i m0 <= x * x + y * y
    <= iterate grow i M0 * iterate grow i M0.

Lemma ring_step m0 M0 i sigma x y : bounds_ok m0 M0 = true -> (i < 32)%nat ->
  sigma = 1 \/ sigma = -1 -> in_ring m0 M0 i x y ->
  let X := x - sigma * fc_coord_shift y (Z.of_nat i) in
  let Y := y + sigma * fc_coord_shift x (Z.of_nat i) in
  i64 X = X /\ i64 Y = Y /\ in_ring m0 M0 (S i) X Y.
Proof.
  intros Hb Hi Hs Hr. unfold bounds_ok in Hb. rewrite forallb_forall in Hb.
  specialize (Hb i ltac:(apply in_seq; lia)). apply andb_true_iff in Hb as [Hb H4].
  apply andb_true_iff in Hb as [Hb H3]. apply andb_true_iff in Hb as [H1 H2]. zbool.
  destruct (planar_step i sigma _ _ x y Hi Hs H1 (conj H2 H3) Hr H4) as (HX & HY & _ & HN).
  cbv zeta. by rewrite !i64_id.
Qed.

(** Residual angle of the rotation mode after [n] iterations. *)
Fixpoint residual (n : nat) : Z :=
  match n with O => quarter | S n => Z.max (residual n - atan_turns n) (atan_turns n) end.

Lemma atan_turns_bound i : (i < 32)%nat -> 0 < atan_turns i <= 576460752303423488.
Proof.
  intros Hi. assert (forallb (fun i => (0 <? atan_turns i) && (atan_turns i <=? 576460752303423488))
    (seq 0 32) = true) as H by by vm_compute.
  rewrite forallb_forall in H. specialize (H i ltac:(apply in_seq; lia)).
  apply andb_true_iff in H as [? ?]. zbool. lia.
Qed.

Lemma residual_bound n : (n <= 32)%nat -> 0 <= residual n <= quarter.
Proof.
  intros Hn. induction n as [|n IH]; cbn [residual]; [done|].
  pose proof (atan_turns_bound n ltac:(lia)). unfold quarter in *. specialize (IH ltac:(lia)). lia.
Qed.

Lemma rotate_ok : bounds_ok cordic_gain cordic_gain = true.
Proof. by vm_compute. Qed.

Lemma sincos_loop z : - quarter <= z <= quarter ->
  let '(x, y, r) := for_up 0 32 rotate_step (cordic_gain, 0, z) in
  in_ring cordic_gain cordic_gain 32 x y /\ Z.abs r <= residual 32.
Proof.
  intros Hz.
  apply (for_up_rule rotate_step
    (fun i v => let '(x, y, r) := v in
       in_ring cordic_gain cordic_gain i x y /\ Z.abs r <= residual i) 32); [|done|].
  - intros i [[x y] r] Hi [Hr Ha]. unfold rotate_step.
    pose proof (atan_turns_bound i Hi). pose proof (residual_bound i ltac:(lia)).
    cbn [residual]. unfold quarter in *. destruct (Z.leb_spec 0 r).
    + destruct (ring_step _ _ i 1 x y rotate_ok Hi ltac:(auto) Hr) as (EX & EY & H').
      rewrite !Z.mul_1_l in *. rewrite EX, EY, i64_id by rlia. split; [done|lia].
    + destruct (ring_step _ _ i (-1) x y rotate_ok Hi ltac:(auto) Hr) as (EX & EY & H').
      replace (x - -1 * fc_coord_shift y (Z.of_nat i)) with (x + fc_coord_shift y (Z.of_nat i)) in * by lia.
      replace (y + -1 * fc_coord_shift x (Z.of_nat i)) with (y - fc_coord_shift x (Z.of_nat i)) in * by lia.
      rewrite EX, EY, i64_id by rlia. split; [done|lia].
  - split; [|rewrite Z.abs_le; done]. unfold in_ring, cordic_gain. cbn [iterate]. lia.
Qed.

(** The nearest-away conversion from F60 to F31. *)
Definition to_f31 (v : Z) : Z := div_nearest (v * 1) 536870912.

Lemma to_f31_error v : 2 * Z.abs (to_f31 v * 536870912 - v) <= 536870912.
Proof. pose proof (div_nearest_error (v * 1) 536870912 ltac:(lia)). unfold to_f31. lia. Qed.

Lemma to_f31_opp v : to_f31 (- v) = - to_f31 v.
Proof.
  unfold to_f31. rewrite !Z.mul_1_r, !div_nearest_pos by lia. rewrite Z.abs_opp, Z.sgn_opp. lia.
Qed.

Lemma to_f31_exact v : Z.abs v <= 1152921504606847063 ->
  linears_fixed_muldiv v 1 536870912 (Some 0) = (LINEARS_OK, Some (to_f31 v)) /\
  Z.abs (to_f31 v) <= LINEARS_FIXED_ONE.
Proof.
  intros Hv. pose proof (to_f31_error v). unfold LINEARS_FIXED_ONE.
  rewrite fcq_muldiv_eq by (done || rlia). fold (to_f31 v). cbn.
  unfold deliver. rewrite fits_i64_true by rlia. split; [done|lia].
Qed.

(** Within two units of the F31 unit circle. *)
Definition on_circle (s c : Z) : Prop :=
  (LINEARS_FIXED_ONE - 2) * (LINEARS_FIXED_ONE - 2) <= s * s + c * c
    <= (LINEARS_FIXED_ONE + 2) * (LINEARS_FIXED_ONE + 2).

Lemma ring_final x y : in_ring cordic_gain cordic_gain 32 x y ->
  1152921504606846890 * 1152921504606846890 <= x * x + y * y
    <= 1152921504606847063 * 1152921504606847063.
Proof.
  unfold in_ring.
  replace (iterate shrink 32 cordic_gain) with 1152921504606846890 by by vm_compute.
  replace (iterate grow 32 cordic_gain) with 1152921504606847063 by by vm_compute. done.
Qed.

Lemma quantized_on_circle x y : in_ring cordic_gain cordic_gain 32 x y -> on_circle (to_f31 y) (to_f31 x).
Proof.
  intros Hr%ring_final. pose proof (to_f31_error x). pose proof (to_f31_error y).
  pose proof (norm_grow y x (to_f31 y * 536870912 - y) (to_f31 x * 536870912 - x) 268435456
    1152921504606847063 ltac:(lia) ltac:(lia) ltac:(lia) ltac:(lia)) as Hu.
  pose proof (norm_shrink y x (to_f31 y * 536870912 - y) (to_f31 x * 536870912 - x) 268435456
    1152921504606846890 ltac:(lia) ltac:(lia) ltac:(lia) ltac:(lia) ltac:(lia)) as Hl.
  replace (y + (to_f31 y * 536870912 - y)) with (to_f31 y * 536870912) in Hu, Hl by lia.
  replace (x + (to_f31 x * 536870912 - x)) with (to_f31 x * 536870912) in Hu, Hl by lia.
  unfold on_circle, LINEARS_FIXED_ONE. lia.
Qed.

(** The conversion of both coordinates, with the sign of the removed half turn. *)
Definition signed_f31 (sign v : Z) : Z := sign * to_f31 v.

Lemma sincos_convert sign x y : sign = 1 \/ sign = -1 ->
  in_ring cordic_gain cordic_gain 32 x y ->
  sincos_export sign x y = (LINEARS_OK, (signed_f31 sign y, signed_f31 sign x)) /\
  Z.abs (to_f31 y) <= LINEARS_FIXED_ONE /\ Z.abs (to_f31 x) <= LINEARS_FIXED_ONE.
Proof.
  intros Hs Hr%ring_final. unfold sincos_export.
  destruct (square_le x 1152921504606847063 ltac:(lia)) as [? ?]; [nia|].
  destruct (square_le y 1152921504606847063 ltac:(lia)) as [? ?]; [nia|].
  rewrite !i64_id by (destruct Hs as [-> | ->]; rlia).
  destruct (to_f31_exact (sign * y)) as [-> _]; [destruct Hs as [-> | ->]; lia|]. cbn [status_ok].
  destruct (to_f31_exact (sign * x)) as [-> _]; [destruct Hs as [-> | ->]; lia|]. cbn.
  unfold signed_f31. split; [|split; apply to_f31_exact; lia].
  destruct Hs as [-> | ->]; [by rewrite !Z.mul_1_l|].
  replace (-1 * y) with (- y) by lia. replace (-1 * x) with (- x) by lia.
  rewrite !to_f31_opp. do 2 f_equal; lia.
Qed.

Lemma sincos_reduce_spec z : 0 <= z < turn ->
  let '(r, sign) := sincos_reduce z in
  - quarter <= r <= quarter /\
  ((sign = 1 /\ (r = z \/ r = z - turn)) \/ (sign = -1 /\ r = z - 2 * quarter)).
Proof.
  unfold sincos_reduce, turn, quarter. intros Hz.
  destruct (Z.leb_spec (2 * 1152921504606846976) z); rewrite ?(i64_id (z - _)) by rlia;
    repeat case_if; rewrite ?i64_id by rlia; lia.
Qed.
End Loops.

Section SinCos.
Definition cardinal (z : Z) : bool :=
  (z =? 0) || (z =? quarter) || (z =? 2 * quarter) || (z =? 3 * quarter).

Lemma sincos_rotated z : 0 <= z < turn -> cardinal z = false ->
  exists r sign x y rest, sincos_reduce z = (r, sign) /\ (sign = 1 \/ sign = -1) /\
    for_up 0 32 rotate_step (cordic_gain, 0, r) = (x, y, rest) /\
    sincos_reduced z = (LINEARS_OK, (signed_f31 sign y, signed_f31 sign x)) /\
    in_ring cordic_gain cordic_gain 32 x y /\
    Z.abs (to_f31 y) <= LINEARS_FIXED_ONE /\ Z.abs (to_f31 x) <= LINEARS_FIXED_ONE.
Proof.
  intros Hz Hc. unfold sincos_reduced. fold (cardinal z). rewrite Hc.
  pose proof (sincos_reduce_spec z Hz) as Hr. destruct (sincos_reduce z) as [r sign].
  destruct Hr as [Hr Hs]. pose proof (sincos_loop r Hr) as Hl.
  destruct (for_up 0 32 rotate_step (cordic_gain, 0, r)) as [[x y] rest] eqn:El. destruct Hl as [Hring _].
  exists r, sign, x, y, rest. split; [done|]. split; [lia|]. split; [exact El|].
  destruct (sincos_convert sign x y ltac:(lia) Hring) as (-> & ? & ?). auto.
Qed.

Lemma sincos_reduced_total z : 0 <= z < turn ->
  exists s c, sincos_reduced z = (LINEARS_OK, (s, c)) /\
    Z.abs s <= LINEARS_FIXED_ONE /\ Z.abs c <= LINEARS_FIXED_ONE /\ on_circle s c.
Proof.
  intros Hz. destruct (cardinal z) eqn:Hc.
  - unfold sincos_reduced. fold (cardinal z). rewrite Hc. do 2 eexists. split; [done|].
    unfold cardinal, quarter in Hc. unfold on_circle, LINEARS_FIXED_ONE, quarter.
    apply orb_true_iff in Hc as [Hc|Hc]; [apply orb_true_iff in Hc as [Hc|Hc];
      [apply orb_true_iff in Hc as [Hc|Hc]|]|]; zbool; subst z; (repeat split; by vm_compute).
  - destruct (sincos_rotated z Hz Hc) as (r & sign & x & y & ? & _ & Hs & _ & -> & Hring & Hy & Hx).
    do 2 eexists. split; [done|]. apply quantized_on_circle in Hring. unfold on_circle, signed_f31 in *.
    destruct Hs as [-> | ->]; lia.
Qed.

Lemma cardinal_half z : 0 <= z < 2 * quarter -> cardinal (z + 2 * quarter) = cardinal z.
Proof. unfold cardinal, quarter. intros. lia. Qed.

Lemma sincos_reduce_half z : 0 <= z < 2 * quarter -> cardinal z = false ->
  sincos_reduce (z + 2 * quarter) = ((sincos_reduce z).1, - (sincos_reduce z).2).
Proof.
  unfold cardinal, sincos_reduce, turn, quarter. intros Hz Hc. zbool.
  rewrite (proj2 (Z.leb_gt (2 * 1152921504606846976) z)) by lia.
  rewrite (proj2 (Z.leb_le (2 * 1152921504606846976) _)) by lia. rewrite (i64_id (_ - _)) by rlia.
  destruct (Z.ltb_spec 1152921504606846976 z).
  - repeat case_if; try lia. cbn. rewrite (i64_id (z - _)) by rlia. f_equal. lia.
  - rewrite (proj2 (Z.ltb_ge 1152921504606846976 _)) by lia.
    rewrite (proj2 (Z.ltb_lt _ (- 1152921504606846976))) by lia.
    rewrite (proj2 (Z.ltb_ge z _)) by lia. cbn. rewrite i64_id by rlia. f_equal. lia.
Qed.

(** Half a turn later both results change sign, exactly. *)
Lemma sincos_half z s c : 0 <= z < 2 * quarter ->
  sincos_reduced z = (LINEARS_OK, (s, c)) -> sincos_reduced (z + 2 * quarter) = (LINEARS_OK, (- s, - c)).
Proof.
  intros Hz E. destruct (cardinal z) eqn:Hc.
  - unfold cardinal, quarter in Hc. assert (z = 0 \/ z = quarter) as [-> | ->] by (unfold quarter in *; lia);
      vm_compute in E; injection E as <- <-; by vm_compute.
  - unfold turn, quarter in *.
    destruct (sincos_rotated z ltac:(unfold turn, quarter in *; lia) Hc)
      as (r & sg & x & y & rest & Er & Hs & El & E1 & _).
    destruct (sincos_rotated (z + 2 * quarter) ltac:(unfold turn, quarter in *; lia))
      as (r' & sg' & x' & y' & rest' & Er' & Hs' & El' & E2 & _); [by rewrite cardinal_half|].
    rewrite sincos_reduce_half, Er in Er' by done. cbn in Er'. injection Er' as <- <-.
    rewrite El in El'. injection El' as <- <- <-.
    rewrite E1 in E. injection E as <- <-. unfold quarter in *. rewrite E2. unfold signed_f31.
    do 2 f_equal; lia.
Qed.

Lemma fcq_wrap_eq a : is_i64 a -> forall s, fcq_wrap a s =
  if status_ok s then Next (a mod LINEARS_FIXED_ONE) LINEARS_OK else Next 0 s.
Proof.
  intros Ha s. unfold fcq_wrap, guarded. case_if; [|done]. cbn [fst snd]. f_equal.
  unfold LINEARS_FIXED_ONE.
  pose proof (Z.quot_rem' a 2147483648). pose proof (Z.rem_bound_abs a 2147483648 ltac:(lia)).
  case_if; rewrite ?i64_id by rlia; apply Z.mod_unique with
    (q := Z.quot a 2147483648 + if Z.rem a 2147483648 <? 0 then -1 else 0); try (left; lia).
  all: rewrite ?(proj2 (Z.ltb_lt _ _)), ?(proj2 (Z.ltb_ge _ _)) by lia; lia.
Qed.

Lemma wrap_bound a : 0 <= a mod LINEARS_FIXED_ONE < LINEARS_FIXED_ONE.
Proof. by apply Z.mod_pos_bound. Qed.

Lemma fcq_sincos_eq a out : is_i64 a ->
  fcq_sincos a out LINEARS_OK =
  Next (sincos_reduced (a mod LINEARS_FIXED_ONE * LINEARS_FIXED_ONE)).2 LINEARS_OK.
Proof.
  intros Ha. unfold fcq_sincos, mbind, fc_bind. rewrite fcq_wrap_eq by done. cbn [status_ok].
  pose proof (wrap_bound a) as Hw. unfold LINEARS_FIXED_ONE in *. unfold guarded. cbn [status_ok].
  rewrite i64_id by rlia.
  destruct (sincos_reduced_total (a mod 2147483648 * 2147483648)) as (s & c & -> & _);
    [unfold turn; lia|]. done.
Qed.

Lemma fcq_sincos_total a out : is_i64 a ->
  total (fcq_sincos a out) (fun sc =>
    Z.abs sc.1 <= LINEARS_FIXED_ONE /\ Z.abs sc.2 <= LINEARS_FIXED_ONE /\ on_circle sc.1 sc.2).
Proof.
  intros Ha. pose proof (wrap_bound a) as Hw. unfold LINEARS_FIXED_ONE in Hw.
  destruct (sincos_reduced_total (a mod LINEARS_FIXED_ONE * LINEARS_FIXED_ONE)) as (s & c & E & H);
    [unfold LINEARS_FIXED_ONE, turn; lia|].
  exists (s, c). rewrite fcq_sincos_eq, E by done. done.
Qed.

Lemma fcq_sincos_sticky a out : sticky (fcq_sincos a out).
Proof. apply sticky_bind; [apply sticky_guarded|intros; apply sticky_guarded]. Qed.
End SinCos.

(** C35. [fcq_sincos] never fails and never overflows an int64_t: for every F31 angle it returns OK
    with a sine and a cosine in [-1,+1] that lie within two F31 units of the unit circle; the
    result depends only on the angle modulo one turn, the four cardinal angles are exact, and
    half a turn negates both results exactly. *)
Theorem fcq_sincos_spec (a : Z) (out : Z * Z) :
  is_i64 a ->
  exists s c, fcq_sincos a out LINEARS_OK = Next (s, c) LINEARS_OK /\
    Z.abs s <= LINEARS_FIXED_ONE /\ Z.abs c <= LINEARS_FIXED_ONE /\
    (LINEARS_FIXED_ONE - 2) ^ 2 <= s * s + c * c <= (LINEARS_FIXED_ONE + 2) ^ 2 /\
    (a mod LINEARS_FIXED_ONE = 0 -> (s, c) = (0, LINEARS_FIXED_ONE)) /\
    (a mod LINEARS_FIXED_ONE = LINEARS_FIXED_ONE / 4 -> (s, c) = (LINEARS_FIXED_ONE, 0)) /\
    (forall b, is_i64 b -> b mod LINEARS_FIXED_ONE = a mod LINEARS_FIXED_ONE ->
       fcq_sincos b out LINEARS_OK = Next (s, c) LINEARS_OK) /\
    (forall b, is_i64 b -> (b - a) mod LINEARS_FIXED_ONE = LINEARS_FIXED_ONE / 2 ->
       fcq_sincos b out LINEARS_OK = Next (- s, - c) LINEARS_OK).
Proof.
  intros Ha. pose proof (wrap_bound a) as Hw. unfold LINEARS_FIXED_ONE in Hw.
  destruct (sincos_reduced_total (a mod LINEARS_FIXED_ONE * LINEARS_FIXED_ONE)) as (s & c & E & Hs & Hc & Hcirc);
    [unfold LINEARS_FIXED_ONE, turn; lia|].
  exists s, c. rewrite fcq_sincos_eq, E by done. split; [done|]. split; [done|]. split; [done|].
  split; [unfold on_circle in Hcirc; rewrite !Z.pow_2_r; done|].
  split; [intros H0; rewrite H0 in E; vm_compute in E; injection E as <- <-; done|].
  split; [intros H0; rewrite H0 in E; vm_compute in E; injection E as <- <-; done|].
  split; intros b Hb Hba.
  - by rewrite fcq_sincos_eq, Hba, E by done.
  - rewrite fcq_sincos_eq by done. pose proof (wrap_bound b) as Hw'.
    unfold LINEARS_FIXED_ONE in *. change (2147483648 / 2) with 1073741824 in Hba.
    set (wa := a mod 2147483648) in *. set (wb := b mod 2147483648) in *.
    assert (wb = wa + 1073741824 \/ wb = wa - 1073741824) as [Hwb|Hwb] by (subst wa wb; dlia).
    + replace (wb * 2147483648) with (wa * 2147483648 + 2 * quarter) by (unfold quarter; lia).
      by rewrite (sincos_half _ s c) by (unfold quarter; lia || done).
    + destruct (sincos_reduced_total (wb * 2147483648)) as (s' & c' & E' & _); [unfold turn; lia|].
      replace (wa * 2147483648) with (wb * 2147483648 + 2 * quarter) in E by (unfold quarter; lia).
      rewrite (sincos_half _ s' c') in E by (unfold quarter; lia || done).
      injection E as <- <-. rewrite E', !Z.opp_involutive. done.
Qed.

Lemma fcq_sincos_witness :
  exists s c, fcq_sincos (-3) (7, 7) LINEARS_OK = Next (s, c) LINEARS_OK /\ Z.abs s <= LINEARS_FIXED_ONE.
Proof.
  destruct (fcq_sincos_spec (-3) (7, 7) ltac:(rlia)) as (s & c & E & Hs & _).
  exact (ex_intro _ s (ex_intro _ c (conj E Hs))).
Defined.

Section Atan2.
Definition vector_lo : Z := 1152921504606846976.
Definition vector_hi : Z := 1630477228166597777.

Lemma vector_ok : bounds_ok vector_lo vector_hi = true.
Proof. by vm_compute. Qed.

(** Sum of the first [n] table angles. *)
Fixpoint swept (n : nat) : Z := match n with O => 0 | S n => swept n + atan_turns n end.

Lemma swept_bound n : (n <= 32)%nat -> 0 <= swept n <= swept 32.
Proof.
  intros Hn. assert (forallb (fun n => (0 <=? swept n) && (swept n <=? swept 32)) (seq 0 33) = true)
    as H by by vm_compute.
  rewrite forallb_forall in H. specialize (H n ltac:(apply in_seq; lia)).
  apply andb_true_iff in H as [? ?]. zbool. lia.
Qed.

Lemma swept_total : swept 32 = 1279524658044046701.
Proof. by vm_compute. Qed.

(** The vectoring loop from iteration [i]: no addition wraps, and the swept angle is bounded. *)
Lemma vector_loop_spec z0 n : 0 <= z0 <= turn / 2 -> forall i x y z, (i + n = 32)%nat ->
  in_ring vector_lo vector_hi i x y -> Z.abs (z - z0) <= swept i ->
  Z.abs ((vector_loop i n (x, y, z)).2 - z0) <= swept 32.
Proof.
  change (turn / 2) with 2305843009213693952. intros Hz0.
  induction n as [|n IH]; intros i x y z Hi Hr Hz; cbn [vector_loop fst snd].
  - by replace i with 32%nat in Hz by lia.
  - pose proof (swept_bound i ltac:(lia)). pose proof (swept_bound (S i) ltac:(lia)) as Hs.
    cbn [swept] in Hs. rewrite swept_total in *.
    case_if; [cbn; lia|]. unfold vector_step. pose proof (atan_turns_bound i ltac:(lia)).
    destruct (Z.ltb_spec 0 y).
    + destruct (ring_step _ _ i (-1) x y vector_ok ltac:(lia) ltac:(auto) Hr) as (EX & EY & H').
      replace (x - -1 * fc_coord_shift y (Z.of_nat i)) with (x + fc_coord_shift y (Z.of_nat i)) in * by lia.
      replace (y + -1 * fc_coord_shift x (Z.of_nat i)) with (y - fc_coord_shift x (Z.of_nat i)) in * by lia.
      rewrite EX, EY, i64_id by rlia. apply IH; [lia|done|]. cbn [swept]. lia.
    + destruct (ring_step _ _ i 1 x y vector_ok ltac:(lia) ltac:(auto) Hr) as (EX & EY & H').
      rewrite !Z.mul_1_l in *. rewrite EX, EY, i64_id by rlia. apply IH; [lia|done|].
      cbn [swept]. lia.
Qed.

(** A component over the larger magnitude. *)
Lemma unit_ratio f largest : 0 < largest -> Z.abs f <= largest ->
  Z.abs (div_nearest (f * LINEARS_FIXED_ONE) largest) <= LINEARS_FIXED_ONE /\
  (Z.abs f = largest -> Z.abs (div_nearest (f * LINEARS_FIXED_ONE) largest) = LINEARS_FIXED_ONE).
Proof.
  unfold LINEARS_FIXED_ONE. intros Hl Hf.
  pose proof (div_nearest_error (f * 2147483648) largest Hl) as He.
  set (q := div_nearest (f * 2147483648) largest) in *. split; [nia|].
  intros Ha. destruct (Z.abs_eq_or_opp f) as [E|E]; nia.
Qed.

Lemma vector_angle_range nx ny :
  Z.abs nx <= LINEARS_FIXED_ONE -> Z.abs ny <= LINEARS_FIXED_ONE ->
  Z.abs nx = LINEARS_FIXED_ONE \/ Z.abs ny = LINEARS_FIXED_ONE ->
  0 <= vector_angle nx ny < turn.
Proof.
  unfold LINEARS_FIXED_ONE. intros Bx By Hmax. unfold vector_angle. cbv zeta.
  rewrite (i64_id (nx * _)), (i64_id (ny * _)) by rlia.
  assert (forall x y z0, 0 <= z0 <= turn / 2 ->
    Z.abs x = Z.abs nx * 536870912 -> Z.abs y = Z.abs ny * 536870912 ->
    Z.abs ((vector_loop 0 32 (x, y, z0)).2 - z0) <= swept 32) as Hloop.
  { intros x y z0 Hz0 Ex Ey. apply vector_loop_spec; [done|done| |cbn [swept]; lia].
    unfold in_ring. cbn [iterate]. unfold vector_lo, vector_hi.
    rewrite <- (Z.abs_square x), <- (Z.abs_square y), Ex, Ey. nia. }
  rewrite swept_total in Hloop. change (turn / 2) with 2305843009213693952 in *. unfold turn in *.
  destruct (Z.ltb_spec (nx * 536870912) 0) as [Hn|Hn].
  - rewrite !i64_id by rlia.
    specialize (Hloop (- (nx * 536870912)) (- (ny * 536870912)) 2305843009213693952 ltac:(lia) ltac:(lia) ltac:(lia)).
    destruct (vector_loop _ _ _) as [[x y] z]. cbn [snd] in Hloop.
    destruct (Z.ltb_spec z 0); [lia|]. repeat case_if; rewrite ?i64_id by rlia; lia.
  - specialize (Hloop (nx * 536870912) (ny * 536870912) 0 ltac:(lia) ltac:(lia) ltac:(lia)).
    destruct (vector_loop _ _ _) as [[x y] z]. cbn [snd] in Hloop.
    destruct (Z.ltb_spec z 0); rewrite ?(i64_id (z + _)) by rlia;
      repeat case_if; rewrite ?i64_id by rlia; lia.
Qed.

(** The export of an angle, where the last half unit of the turn rounds up to one turn. *)
Lemma angle_export z : 0 <= z < turn ->
  total (a ← assign (let r := linears_fixed_muldiv z 1 LINEARS_FIXED_ONE (Some 0) in
                     (r.1, default 0 r.2)); fcq_wrap a)
        (fun a => 0 <= a < LINEARS_FIXED_ONE).
Proof.
  unfold turn. intros Hz. pose proof (div_nearest_error (z * 1) LINEARS_FIXED_ONE ltac:(done)) as He.
  rewrite fcq_muldiv_eq by (done || unfold LINEARS_FIXED_ONE; rlia). cbn.
  assert (is_i64 (div_nearest (z * 1) LINEARS_FIXED_ONE)) as Hi
    by (unfold LINEARS_FIXED_ONE in *; rlia).
  unfold deliver. rewrite fits_i64_true by done. cbn.
  exists (div_nearest (z * 1) LINEARS_FIXED_ONE mod LINEARS_FIXED_ONE).
  unfold mbind, fc_bind, assign. cbn [fst snd]. rewrite fcq_wrap_eq by done.
  split; [done|apply wrap_bound].
Qed.

Lemma fcq_atan2_total fy fx :
  is_i64 fy -> is_i64 fx -> fy <> INT64_MIN -> fx <> INT64_MIN -> (fx <> 0 \/ fy <> 0) ->
  total (fcq_atan2 fy fx) (fun a => 0 <= a < LINEARS_FIXED_ONE).
Proof.
  intros Hy Hx Hym Hxm Hnz. unfold fcq_atan2.
  apply total_quit_if; [done|intros _].
  rewrite (proj2 (andb_false_iff _ _)) by (rewrite !Z.eqb_neq; lia).
  apply total_quit_if; [intros _; case_if; by vm_compute|intros Hy0].
  apply total_quit_if; [intros _; case_if; by vm_compute|intros Hx0]. zbool.
  assert (is_i64 (Z.abs fx) /\ is_i64 (Z.abs fy)) as [Hax Hay] by rlia.
  apply total_bind. eapply total_mono;
    [by eapply fcq_call_total; [by apply (fcq_abs_eq fx fx)|]|]. intros ? ->.
  apply total_bind. eapply total_mono;
    [by eapply fcq_call_total; [by apply (fcq_abs_eq fy fy)|]|]. intros ? ->.
  cbv zeta. set (largest := if Z.abs fy <=? Z.abs fx then Z.abs fx else Z.abs fy).
  assert (0 < largest /\ is_i64 largest /\ Z.abs fx <= largest /\ Z.abs fy <= largest /\
    (Z.abs fx = largest \/ Z.abs fy = largest)) as (Hl & Hil & Hxl & Hyl & Hmax)
    by (unfold largest; case_if; rlia).
  clearbody largest.
  destruct (unit_ratio fx largest Hl Hxl) as [Bx Mx], (unit_ratio fy largest Hl Hyl) as [By My].
  assert (forall v, Z.abs v <= LINEARS_FIXED_ONE -> is_i64 v) as Hfit by (unfold LINEARS_FIXED_ONE; rlia).
  apply total_bind. eapply total_mono;
    [eapply fcq_call_total; [apply (fcq_div_eq fx largest); done || lia|auto]|]. intros ? ->.
  apply total_bind. eapply total_mono;
    [eapply fcq_call_total; [apply (fcq_div_eq fy largest); done || lia|auto]|]. intros ? ->.
  apply total_quit_if; [done|intros _]. apply angle_export, vector_angle_range; [done|done|tauto].
Qed.

(** An absolute value that does not fit makes the rest of the body yield zero. *)
Lemma fcq_abs_eq' f : is_i64 f ->
  fcq_abs f LINEARS_OK = if f =? INT64_MIN then Next 0 LINEARS_ERROR_RANGE else Next (Z.abs f) LINEARS_OK.
Proof.
  intros Hf. unfold fcq_abs, fcq_call, guarded. cbn [status_ok]. rewrite (fcq_abs_eq f f) by done.
  cbn. unfold deliver. destruct (Z.eqb_spec f INT64_MIN).
  - rewrite fits_i64_false by rlia. done.
  - rewrite fits_i64_true by rlia. done.
Qed.

Lemma fcq_atan2_range fy fx :
  is_i64 fy -> is_i64 fx -> fx <> 0 -> fy <> 0 -> fx = INT64_MIN \/ fy = INT64_MIN ->
  fcq_atan2 fy fx LINEARS_OK = Next 0 LINEARS_ERROR_RANGE.
Proof.
  intros Hy Hx Hx0 Hy0 Hm. unfold fcq_atan2, quit_if. cbn [orb negb status_ok].
  rewrite (proj2 (Z.eqb_neq fx 0)), (proj2 (Z.eqb_neq fy 0)) by done. cbn [andb orb negb].
  unfold mbind at 1, fc_bind at 1. rewrite fcq_abs_eq' by done. destruct (Z.eqb_spec fx INT64_MIN).
  - done.
  - unfold mbind at 1, fc_bind at 1. rewrite fcq_abs_eq' by done.
    by rewrite (proj2 (Z.eqb_eq fy INT64_MIN)) by tauto.
Qed.

Lemma fcq_atan2_sticky fy fx : sticky (fcq_atan2 fy fx).
Proof. apply sticky_quit_if. Qed.
End Atan2.


