(* ===== verification/FcVariants.v ===== *)
(** * The q15 and q31 variants: the FC_ macros of fieldctrl_variant.h

    FC_VARIANT 15 and 31 share the F31 working arithmetic and differ in the
    signal load and store and in FC_ANGLE_STORE.  Signals and working values are
    both [Z]; a variant is selected by its format. *)
From S2P Require Import Prelude MachineInt Status Wide Numeric FcMonad Cordic.

Inductive q_format : Type := Q15 | Q31.

Definition fcq_load (f : q_format) (x : Z) : fc Z :=
  match f with Q15 => fcq15_load x | Q31 => fcq31_load x end.
Definition fcq_store (f : q_format) (x out : Z) : fc Z :=
  match f with Q15 => fcq15_store x out | Q31 => fcq31_store x out end.
Definition fcq_field (f : q_format) (x : Z) : Z :=
  match f with Q15 => linears_fixed_from_q15 x | Q31 => linears_fixed_from_q31 x end.

(** Circular rounding: in q15 the upper half-cell is zero turns; elsewhere a stored angle that
    reads back as one turn is replaced by zero. *)
Definition fcq_angle_store (f : q_format) (x out : Z) : fc Z :=
  match f with
  | Q15 =>
      work ← fcq_wrap x;
      quit_if false out
        (if LINEARS_FIXED_ONE - 32768 <=? work then mret 0 else fcq15_store work out)
  | Q31 =>
      work ← fcq_wrap x;
      temp ← fcq31_store work 0;
      quit_if false out
        (work ← fcq31_load temp;
         one ← fcq_i 1;
         temp ← (if 0 <=? fcq_cmp work one then lift2 fcq31_store (fcq_i 0) (mret temp) else mret temp);
         quit_if false out (mret temp))
  end.

(** The macro definitions of the variant. *)
Definition fcq (f : q_format) : FcArith Z Z := {|
  FC_LOAD := fcq_load f;
  FC_STORE := fcq_store f;
  FC_I := fcq_i;
  FC_ADD := fcq_add;
  FC_SUB := fcq_sub;
  FC_MUL := fcq_mul;
  FC_DIV := fcq_div;
  FC_NEG := fcq_neg;
  FC_ABS := fcq_abs;
  FC_SQRT := fcq_sqrt;
  FC_HYPOT := fcq_hypot;
  FC_RESCALE := fcq_rescale;
  FC_CMP := fcq_cmp;
  FC_WRAP := fcq_wrap;
  FC_SINCOS := fcq_sincos;
  FC_ATAN2 := fcq_atan2;
  FC_ACC_LOAD := fcq_work_load;
  FC_ACC_STORE := fcq_work_store;
  FC_FIELD := fcq_field f;
  FC_ANGLE_STORE := fcq_angle_store f;
  fc_local_t := 0;
  fc_local_w := 0;
|}.

(** The range of the signal type. *)
Definition q_repr (f : q_format) (x : Z) : Prop :=
  match f with Q15 => is_i16 x | Q31 => is_i32 x end.
Definition q_bits (f : q_format) : Z := match f with Q15 => 15 | Q31 => 31 end.

Section Laws.
Variable f : q_format.

Lemma fcq_cmp_sign a b : fcq_cmp a b = Z.sgn (a - b).
Proof.
  unfold fcq_cmp, linears_fixed_compare. rewrite Z.gtb_ltb.
  destruct (Z.ltb_spec b a), (Z.ltb_spec a b); lia.
Qed.

Lemma fcq_field_range t : q_repr f t ->
  - LINEARS_FIXED_ONE <= fcq_field f t < LINEARS_FIXED_ONE.
Proof.
  unfold fcq_field, linears_fixed_from_q15, linears_fixed_from_q31, LINEARS_FIXED_ONE.
  destruct f; cbn; intros; [rewrite i64_id by rlia|]; rlia.
Qed.

Lemma fcq_field_i64 t : q_repr f t -> is_i64 (fcq_field f t).
Proof. intros Ht%fcq_field_range. unfold LINEARS_FIXED_ONE in Ht. rlia. Qed.

(** A stored working value is the value rounded to the signal format. *)
Definition q_round (x : Z) : Z :=
  match f with Q15 => endpoint 15 (div_nearest x 65536) | Q31 => endpoint 31 x end.

Lemma fcq_store_eq x out : is_i64 x ->
  fcq_store f x out LINEARS_OK =
  if in_unit_interval x LINEARS_FIXED_ONE then Next (q_round x) LINEARS_OK
  else Next out LINEARS_ERROR_RANGE.
Proof.
  intros Hx. destruct (linears_fixed_to_q_exact x (Some out) Hx) as [H15 H31].
  unfold linears_fixed_to_q15, linears_fixed_to_q31 in *. cbn [with_out] in *. cbv zeta in *.
  unfold fcq_store, q_round. destruct f; unfold fcq15_store, fcq31_store, guarded; cbn [status_ok].
  - destruct (fixed_to_q15_cell x out) as [st v]. unfold deliver in H15.
    destruct (in_unit_interval _ _); cbn in *; by injection H15 as -> ->.
  - destruct (fixed_to_q31_cell x out) as [st v]. unfold deliver in H31.
    destruct (in_unit_interval _ _); cbn in *; by injection H31 as -> ->.
Qed.

Lemma q_round_mono a b : a <= b -> q_round a <= q_round b.
Proof.
  intros Hab. unfold q_round, endpoint. destruct f.
  - pose proof (div_nearest_mono a b 65536 ltac:(lia) Hab). change (2 ^ 15) with 32768.
    repeat case_if; lia.
  - change (2 ^ 31) with 2147483648. repeat case_if; lia.
Qed.

Lemma q_round_field t : q_repr f t -> q_round (fcq_field f t) = t.
Proof.
  unfold q_round, fcq_field, endpoint, linears_fixed_from_q15, linears_fixed_from_q31.
  destruct f; cbn [q_repr]; intros Ht.
  - rewrite i64_id by rlia. change (2 ^ 15) with 32768.
    pose proof (div_nearest_error (t * 65536) 65536 ltac:(lia)).
    rewrite (proj2 (Z.eqb_neq _ _)) by rlia. lia.
  - change (2 ^ 31) with 2147483648. by rewrite (proj2 (Z.eqb_neq _ _)) by rlia.
Qed.

Lemma q_round_repr x : - LINEARS_FIXED_ONE <= x <= LINEARS_FIXED_ONE -> q_repr f (q_round x).
Proof.
  unfold q_round, endpoint, LINEARS_FIXED_ONE. intros Hx. destruct f; cbn [q_repr].
  - pose proof (div_nearest_error x 65536 ltac:(lia)). change (2 ^ 15) with 32768. case_if; rlia.
  - change (2 ^ 31) with 2147483648. case_if; rlia.
Qed.

Lemma fcq_field_mono s t : q_repr f s -> q_repr f t -> s <= t <-> fcq_field f s <= fcq_field f t.
Proof.
  unfold fcq_field, linears_fixed_from_q15, linears_fixed_from_q31.
  destruct f; cbn [q_repr]; intros; [rewrite !i64_id by rlia|]; lia.
Qed.

Lemma fcq_load_wp t : q_repr f t -> wp (fcq_load f t) (fun w => w = fcq_field f t /\ is_i64 w).
Proof.
  intros Ht. pose proof (fcq_field_i64 t Ht) as Hi. revert Hi.
  unfold fcq_load, fcq_field, fcq15_load, fcq31_load. destruct f; intros; by apply wp_guarded.
Qed.

Lemma fcq_load_total t : q_repr f t -> total (fcq_load f t) (fun w => w = fcq_field f t).
Proof.
  intros Ht. unfold fcq_load, fcq_field, fcq15_load, fcq31_load.
  destruct f; by apply total_guarded.
Qed.

Lemma fcq_from_int_eq n : is_i64 n ->
  linears_fixed_from_int n (Some 0) = with_out (Some 0) (deliver (fits_i64 (n * LINEARS_FIXED_ONE)) (n * LINEARS_FIXED_ONE)).
Proof. intros Hn. apply (linears_fixed_ops_exact n n (Some 0) Hn Hn). Qed.

Lemma fcq_i_total n : -4294967296 <= n <= 4294967295 ->
  total (fcq_i n) (fun r => r = n * LINEARS_FIXED_ONE).
Proof.
  intros Hn. eapply fcq_call_total; [by apply fcq_from_int_eq; rlia|].
  unfold LINEARS_FIXED_ONE. rlia.
Qed.

Lemma fcq_i_wp n : wp (fcq_i n) is_i64.
Proof.
  apply wp_guarded. unfold linears_fixed_from_int. cbn.
  destruct (_ || _) eqn:E; cbn; [done|]. intros _. apply i64_range.
Qed.

Lemma fcq_store_between w t l h : is_i64 w -> q_repr f l -> q_repr f h ->
  fcq_field f l <= w <= fcq_field f h ->
  wp (fcq_store f w t) (fun t' => t' = q_round w /\ q_repr f t' /\ l <= t' <= h).
Proof.
  intros Hw Hl Hh Hb. unfold wp. rewrite fcq_store_eq by done.
  pose proof (fcq_field_range l Hl). pose proof (fcq_field_range h Hh).
  unfold in_unit_interval. rewrite (proj2 (andb_true_iff _ _)) by (rewrite !Z.leb_le; lia). intros _.
  split; [done|]. split; [apply q_round_repr; lia|].
  rewrite <- (q_round_field l Hl), <- (q_round_field h Hh). split; apply q_round_mono; lia.
Qed.

Lemma fcq_load_sticky t : sticky (fcq_load f t).
Proof. unfold fcq_load. destruct f; apply sticky_guarded. Qed.
Lemma fcq_store_sticky w t : sticky (fcq_store f w t).
Proof. unfold fcq_store. destruct f; apply sticky_guarded. Qed.
End Laws.

(** The two variants keep the promises the controllers rely on. *)
Lemma fcq_div_wp a b : is_i64 a -> is_i64 b -> wp (fcq_div a b) is_i64.
Proof.
  intros Ha Hb. apply wp_guarded. rewrite linears_fixed_div_exact by done. cbn.
  destruct (Z.eqb_spec b 0); cbn; [done|]. unfold deliver.
  destruct (fits_i64 _) eqn:E; cbn; [|done]. by apply fits_i64_spec in E.
Qed.

Lemma fcq_call_value f v : f (Some 0) = with_out (Some 0) (deliver (fits_i64 v) v) ->
  wp (fcq_call f) is_i64.
Proof. intros E. eapply wp_mono; [by apply fcq_call_wp|]. by intros ? [_ ?]. Qed.

Lemma fcq_add_sub_ok a b r h d : is_i64 a -> is_i64 b -> is_i64 h ->
  fcq_add a b LINEARS_OK = Next r LINEARS_OK -> fcq_sub h a LINEARS_OK = Next d LINEARS_OK ->
  r = a + b /\ d = h - a.
Proof.
  intros Ha Hb Hh E1 E2.
  pose proof (fcq_call_wp _ _ (fcq_add_eq a b Ha Hb)) as W1.
  pose proof (fcq_call_wp _ _ (fcq_sub_eq h a Hh Ha)) as W2.
  unfold wp in W1, W2. unfold fcq_add, fcq_sub in *. rewrite E1 in W1. rewrite E2 in W2.
  split; [by apply W1|by apply W2].
Qed.

#[export] Instance fcq_laws (f : q_format) : @FcLaws Z Z (fcq f).
Proof.
  refine (@Build_FcLaws Z Z (fcq f) (q_repr f) is_i64 is_i64 Z.le _ _ _ _ _
    (fcq_load_sticky f) (fcq_load_wp f) _ _ _ _ _ _ _ _ _ _ _ _ _ _ _ _ _ _ _ _ _
    (fcq_store_sticky f) _);
    cbn [FC_CMP FC_ACC_LOAD FC_ACC_STORE FC_I FC_ADD FC_SUB FC_MUL FC_DIV FC_NEG FC_ABS FC_STORE
         FC_FIELD fc_local_t fc_local_w fcq];
    intros; try apply sticky_guarded; rewrite ?fcq_cmp_sign; try lia.
  - done.
  - destruct f; cbn; rlia.
  - by apply wp_guarded.
  - by apply wp_guarded.
  - apply fcq_i_wp.
  - destruct (fcq_i_total n ltac:(lia)) as (r & E & ->). exists (n * LINEARS_FIXED_ONE).
    split; [done|]. unfold LINEARS_FIXED_ONE. rlia.
  - by eapply fcq_call_value, fcq_add_eq.
  - by eapply fcq_call_value, fcq_sub_eq.
  - by eapply fcq_call_value, linears_fixed_mul_exact.
  - by apply fcq_div_wp.
  - destruct (fcq_add_sub_ok a b r hi d) as [-> ->]; try done. rewrite fcq_cmp_sign in *. lia.
  - destruct (fcq_add_sub_ok a b r lo d) as [-> ->]; try done. rewrite fcq_cmp_sign in *. lia.
  - by eapply fcq_call_value, (fcq_neg_eq a a).
  - by eapply fcq_call_value, (fcq_abs_eq a a).
  - eapply wp_mono; [by apply (fcq_store_between f w t l h)|]. cbn. intros t' (_ & Ht & Hb).
    split; [done|]. split; [by apply fcq_field_i64|].
    by rewrite <- !fcq_field_mono.
Defined.

#[export] Instance fcq_cmp_eq_law (f : q_format) : @FcCmpEq Z Z (fcq f) (fcq_laws f).
Proof. intros a b _ _. cbn. rewrite fcq_cmp_sign. lia. Qed.
