(* ===== verification/FcBase.v ===== *)
(** * Transforms, modulation, PID and VVVF: libs/fieldctrl/src/base_impl.h

    The bodies are generic over [FcArith], as the header is over FC_VARIANT.
    Results are built in locals and committed only under an OK status ([run]).
    A pointer argument that the code tests for overlap carries its address:
    [Some (address, contents)]; the object sizes are those of the target ABI. *)
From S2P Require Import Prelude MachineInt Status FcMonad.

Definition fc_overlap (x na y nb : Z) : bool := if x <=? y then y - x <? na else x - y <? nb.

(** ** Data *)

Record abc (T : Type) := mk_abc { abc_a : T; abc_b : T; abc_c : T }.
Record ab (T : Type) := mk_ab { alpha : T; beta : T }.
Record dq (T : Type) := mk_dq { dq_d : T; dq_q : T }.
Arguments mk_abc {T}. Arguments abc_a {T}. Arguments abc_b {T}. Arguments abc_c {T}.
Arguments mk_ab {T}. Arguments alpha {T}. Arguments beta {T}.
Arguments mk_dq {T}. Arguments dq_d {T}. Arguments dq_q {T}.

(** The option bits of [fieldctrl_base.h], their union in [fieldctrl_pid_work.h], and the derivative selector. *)
Definition FIELDCTRL_PID_OPT_INTEGRAL_LIMIT : Z := 1.
Definition FIELDCTRL_PID_OPT_INTEGRAL_SEPARATION : Z := 2.
Definition FIELDCTRL_PID_OPT_SETPOINT_WEIGHT : Z := 4.
Definition FIELDCTRL_PID_OPTIONS : Z := 7.
Definition FIELDCTRL_PID_DERIVATIVE_ON_ERROR : Z := 0.
Definition FIELDCTRL_PID_DERIVATIVE_ON_MEASUREMENT : Z := 1.

Record pid_config (T W : Type) := mk_pid_config {
  kp : W; ki : W; kd : W; lower : T; upper : T; options : Z; derivative_on : Z;
  derivative_filter : W; setpoint_weight : W;
  integral_lower : T; integral_upper : T; separation : T }.
Arguments mk_pid_config {T W}. Arguments kp {T W}. Arguments ki {T W}. Arguments kd {T W}.
Arguments lower {T W}. Arguments upper {T W}. Arguments options {T W}.
Arguments derivative_on {T W}. Arguments derivative_filter {T W}. Arguments setpoint_weight {T W}.
Arguments integral_lower {T W}. Arguments integral_upper {T W}. Arguments separation {T W}.

Record pid (T W : Type) := mk_pid {
  config : pid_config T W; integral : W; previous_error : W; previous_measurement : W;
  derivative : W; cached_dt : W; integral_step : W; derivative_gain : W; filter_weight : W;
  history : Z }.
Arguments mk_pid {T W}. Arguments config {T W}. Arguments integral {T W}.
Arguments previous_error {T W}. Arguments previous_measurement {T W}. Arguments derivative {T W}.
Arguments cached_dt {T W}. Arguments integral_step {T W}. Arguments derivative_gain {T W}.
Arguments filter_weight {T W}. Arguments history {T W}.

Record pid_output (T W : Type) := mk_pid_output {
  pid_command : T; pid_proportional : W; pid_integral : W; pid_derivative : W; pid_saturated : bool }.
Arguments mk_pid_output {T W}. Arguments pid_command {T W}. Arguments pid_proportional {T W}.
Arguments pid_integral {T W}. Arguments pid_derivative {T W}. Arguments pid_saturated {T W}.

Record vvvf_output (T : Type) := mk_vvvf_output {
  vvvf_angle : T; vvvf_voltage : ab T; vvvf_duty : abc T; vvvf_saturated : bool }.
Arguments mk_vvvf_output {T}. Arguments vvvf_angle {T}. Arguments vvvf_voltage {T}.
Arguments vvvf_duty {T}. Arguments vvvf_saturated {T}.

Section Base.
Context {T W : Type} `{FcArith T W}.

(** FC_STORE into a field of a local result. *)
Definition store (x : W) : fc T := FC_STORE x fc_local_t.
Definition acc_store (x : W) : fc W := FC_ACC_STORE x fc_local_w.
Definition FC_RATIO (n d : Z) : fc W := lift2 FC_DIV (FC_I n) (FC_I d).

(** ** Clamping and radial limiting *)

Definition base_clamp (x lo hi : W) : W :=
  if FC_CMP x lo <? 0 then lo else if 0 <? FC_CMP x hi then hi else x.

Definition base_limit (a b limit : W) (out : W * W) : linears_status_t * (W * W) :=
  run (magnitude ← FC_HYPOT a b;
       check;;
       (if 0 <? FC_CMP magnitude limit then
          a ← FC_RESCALE a limit magnitude;
          b ← FC_RESCALE b limit magnitude;
          mret (a, b)
        else mret (a, b))) out.

Definition fc_min (x y : W) : W := if FC_CMP x y <? 0 then x else y.
Definition fc_max (x y : W) : W := if 0 <? FC_CMP x y then x else y.

Definition base_pwm (a b bus : W) (out : abc T) : linears_status_t * abc T :=
  run (root3 ← lift1 FC_SQRT (FC_I 3);
       limit ← lift2 FC_DIV (FC_I 1) (mret root3);
       half ← FC_RATIO 1 2;
       aa ← FC_ABS a; bb ← FC_ABS b;
       let scale := if 0 <? FC_CMP aa bb then aa else bb in
       let scale := if FC_CMP scale bus <? 0 then bus else scale in
       a ← FC_DIV a scale; b ← FC_DIV b scale;
       check;;
       ab ← assign (base_limit a b limit (a, b));
       let '(a, b) := ab in
       let p := a in
       q ← lift2 FC_MUL (mret half) (lift2 FC_SUB (FC_MUL root3 b) (mret a));
       r ← lift2 FC_MUL (mret half) (lift1 FC_NEG (lift2 FC_ADD (mret a) (FC_MUL root3 b)));
       let lo := fc_min (fc_min p q) r in
       let hi := fc_max (fc_max p q) r in
       offset ← lift2 FC_MUL (mret half) (FC_ADD lo hi);
       p ← lift2 FC_ADD (mret half) (FC_SUB p offset);
       q ← lift2 FC_ADD (mret half) (FC_SUB q offset);
       r ← lift2 FC_ADD (mret half) (FC_SUB r offset);
       zero ← FC_I 0; one ← FC_I 1;
       let p := base_clamp p zero one in
       let q := base_clamp q zero one in
       let r := base_clamp r zero one in
       da ← store p; db ← store q; dc ← store r;
       mret (mk_abc da db dc)) out.

(** ** Public transforms *)

Definition wrap (angle : T) (output : option T) : linears_status_t * option T :=
  with_out output (run (a ← FC_LOAD angle; FC_ANGLE_STORE a fc_local_t)).

(** The two destinations are two objects; [T] objects occupy [sizeof_t] bytes. *)
Definition sincos (sizeof_t : Z) (angle : T) (sine cosine : option (Z * T))
    : linears_status_t * (option (Z * T) * option (Z * T)) :=
  match sine, cosine with
  | Some (ps, s0), Some (pc, c0) =>
      if fc_overlap ps sizeof_t pc sizeof_t then (LINEARS_ERROR_ALIAS, (sine, cosine))
      else
        let r := run (s ← FC_I 0; c ← FC_I 0;
                      a ← FC_LOAD angle;
                      sc ← FC_SINCOS a (s, c);
                      sout ← store sc.1; cout ← store sc.2;
                      mret (sout, cout)) (s0, c0) in
        (r.1, (Some (ps, r.2.1), Some (pc, r.2.2)))
  | _, _ => (LINEARS_ERROR_ARGUMENT, (sine, cosine))
  end.

Definition atan2 (y x : T) (angle : option T) : linears_status_t * option T :=
  with_out angle (run (a ← FC_LOAD y; b ← FC_LOAD x;
                       result ← FC_ATAN2 a b;
                       FC_ANGLE_STORE result fc_local_t)).

Definition clarke (phase : abc T) (stationary : option (ab T)) : linears_status_t * option (ab T) :=
  with_out stationary (run (
    a ← FC_LOAD (abc_a phase); b ← FC_LOAD (abc_b phase); c ← FC_LOAD (abc_c phase);
    al ← lift2 FC_SUB (lift2 FC_MUL (mret a) (FC_RATIO 2 3))
           (lift2 FC_ADD (lift2 FC_DIV (mret b) (FC_I 3)) (lift2 FC_DIV (mret c) (FC_I 3)));
    be ← lift2 FC_SUB (lift2 FC_DIV (mret b) (lift1 FC_SQRT (FC_I 3)))
           (lift2 FC_DIV (mret c) (lift1 FC_SQRT (FC_I 3)));
    x ← store al; y ← store be;
    mret (mk_ab x y))).

Definition inverse_clarke (stationary : ab T) (phase : option (abc T))
    : linears_status_t * option (abc T) :=
  with_out phase (run (
    a ← FC_LOAD (alpha stationary); b ← FC_LOAD (beta stationary);
    half ← FC_RATIO 1 2;
    root3half ← lift2 FC_MUL (lift1 FC_SQRT (FC_I 3)) (mret half);
    ra ← store a;
    rb ← lift1 store (lift2 FC_SUB (FC_MUL root3half b) (FC_MUL half a));
    rc ← lift1 store (lift1 FC_NEG (lift2 FC_ADD (FC_MUL half a) (FC_MUL root3half b)));
    mret (mk_abc ra rb rc))).

Definition park (stationary : ab T) (angle : T) (rotating : option (dq T))
    : linears_status_t * option (dq T) :=
  with_out rotating (run (
    s ← FC_I 0; c ← FC_I 0;
    a ← FC_LOAD (alpha stationary); b ← FC_LOAD (beta stationary); theta ← FC_LOAD angle;
    sc ← FC_SINCOS theta (s, c);
    let '(s, c) := sc in
    rd ← lift1 store (lift2 FC_ADD (FC_MUL a c) (FC_MUL b s));
    rq ← lift1 store (lift2 FC_SUB (FC_MUL b c) (FC_MUL a s));
    mret (mk_dq rd rq))).

Definition inverse_park (rotating : dq T) (angle : T) (stationary : option (ab T))
    : linears_status_t * option (ab T) :=
  with_out stationary (run (
    s ← FC_I 0; c ← FC_I 0;
    d ← FC_LOAD (dq_d rotating); q ← FC_LOAD (dq_q rotating); theta ← FC_LOAD angle;
    sc ← FC_SINCOS theta (s, c);
    let '(s, c) := sc in
    ra ← lift1 store (lift2 FC_SUB (FC_MUL d c) (FC_MUL q s));
    rb ← lift1 store (lift2 FC_ADD (FC_MUL d s) (FC_MUL q c));
    mret (mk_ab ra rb))).

Definition limit_voltage (voltage : ab T) (limit : T) (limited : option (ab T))
    : linears_status_t * option (ab T) :=
  with_out limited (run (
    a ← FC_LOAD (alpha voltage); b ← FC_LOAD (beta voltage); bound ← FC_LOAD limit;
    check;;
    zero ← FC_I 0;
    fail_if (FC_CMP bound zero <? 0) LINEARS_ERROR_DOMAIN;;
    ab ← assign (base_limit a b bound (a, b));
    x ← store ab.1; y ← store ab.2;
    mret (mk_ab x y))).

(** The last call returns the callee's status and passes it the caller's destination. *)
Definition svpwm (voltage : ab T) (dc_bus : T) (duty : option (abc T))
    : linears_status_t * option (abc T) :=
  with_out duty (fun old => run (
    a ← FC_LOAD (alpha voltage); b ← FC_LOAD (beta voltage); bus ← FC_LOAD dc_bus;
    check;;
    zero ← FC_I 0;
    fail_if (FC_CMP bus zero <=? 0) LINEARS_ERROR_DOMAIN;;
    assign (base_pwm a b bus old)) old).

(** ** PID *)

Definition has_option (options bit : Z) : bool := negb (Z.land options bit =? 0).

Definition pid_integral_bounds (c : pid_config T W) : W * W :=
  if has_option (options c) FIELDCTRL_PID_OPT_INTEGRAL_LIMIT
  then (FC_FIELD (integral_lower c), FC_FIELD (integral_upper c))
  else (FC_FIELD (lower c), FC_FIELD (upper c)).

Definition positive (zero x : W) : bool := 0 <? FC_CMP x zero.
Definition negative (zero x : W) : bool := FC_CMP x zero <? 0.

(** Validation shared by init and retune; yields the integral bounds. *)
Definition pid_check (c : pid_config T W) : fc (W * W) :=
  zero ← FC_I 0;
  kp' ← FC_ACC_LOAD (kp c); ki' ← FC_ACC_LOAD (ki c); kd' ← FC_ACC_LOAD (kd c);
  lo ← FC_LOAD (lower c); hi ← FC_LOAD (upper c);
  filter ← FC_ACC_LOAD (derivative_filter c);
  weight ← FC_ACC_LOAD (setpoint_weight c);
  ilo ← FC_LOAD (integral_lower c); ihi ← FC_LOAD (integral_upper c);
  sep ← FC_LOAD (separation c);
  check;;
  let pos := positive zero kp' || positive zero ki' || positive zero kd' in
  let neg := negative zero kp' || negative zero ki' || negative zero kd' in
  fail_if ((pos && neg) || (0 <=? FC_CMP lo hi) || (FC_CMP filter zero <? 0) ||
           negb (Z.land (options c) (u32 (Z.lnot FIELDCTRL_PID_OPTIONS)) =? 0) ||
           (negb (derivative_on c =? FIELDCTRL_PID_DERIVATIVE_ON_ERROR) &&
            negb (derivative_on c =? FIELDCTRL_PID_DERIVATIVE_ON_MEASUREMENT)))
    LINEARS_ERROR_DOMAIN;;
  one ← FC_I 1;
  fail_if (has_option (options c) FIELDCTRL_PID_OPT_SETPOINT_WEIGHT &&
           ((FC_CMP weight zero <? 0) || (0 <? FC_CMP weight one)))
    LINEARS_ERROR_DOMAIN;;
  fail_if (has_option (options c) FIELDCTRL_PID_OPT_INTEGRAL_SEPARATION &&
           (FC_CMP sep zero <=? 0))
    LINEARS_ERROR_DOMAIN;;
  (if has_option (options c) FIELDCTRL_PID_OPT_INTEGRAL_LIMIT then
     fail_if (0 <? FC_CMP ilo ihi) LINEARS_ERROR_DOMAIN;; mret (ilo, ihi)
   else mret (lo, hi)).

(** A context pointer and a config pointer; a body over the two objects. *)
Definition with_config {A} (ctx : option A) (config : option (pid_config T W))
    (body : A -> pid_config T W -> fc A) : linears_status_t * option A :=
  match ctx, config with
  | Some old, Some c => let r := run (body old c) old in (r.1, Some r.2)
  | _, _ => (LINEARS_ERROR_ARGUMENT, ctx)
  end.

Definition pid_init (ctx : option (pid T W)) (config : option (pid_config T W)) (integral : T)
    : linears_status_t * option (pid T W) :=
  with_config ctx config (fun _ c =>
    zero ← FC_I 0;
    initial ← FC_LOAD integral;
    check;;
    bounds ← pid_check c;
    check;;
    fail_if ((FC_CMP initial bounds.1 <? 0) || (0 <? FC_CMP initial bounds.2)) LINEARS_ERROR_DOMAIN;;
    mret (mk_pid c initial zero zero zero zero zero zero zero 0)).

Definition pid_retune (ctx : option (pid T W)) (config' : option (pid_config T W))
    : linears_status_t * option (pid T W) :=
  with_config ctx config' (fun old c =>
    zero ← FC_I 0;
    bounds ← pid_check c;
    check;;
    let stale := negb (FC_CMP (ki c) (ki (config old)) =? 0) ||
                 negb (FC_CMP (kd c) (kd (config old)) =? 0) ||
                 negb (FC_CMP (derivative_filter c) (derivative_filter (config old)) =? 0) in
    mret (mk_pid c
            (base_clamp (integral old) bounds.1 bounds.2)
            (previous_error old) (previous_measurement old)
            (if FC_CMP (kd c) zero =? 0 then zero else derivative old)
            (if stale then zero else cached_dt old)
            (integral_step old) (derivative_gain old) (filter_weight old) (history old))).

Definition pid_reset (ctx : option (pid T W)) (integral' : T)
    : linears_status_t * option (pid T W) :=
  with_out ctx (fun old => run (
    zero ← FC_I 0;
    initial ← FC_LOAD integral';
    check;;
    let bounds := pid_integral_bounds (config old) in
    fail_if ((FC_CMP initial bounds.1 <? 0) || (0 <? FC_CMP initial bounds.2)) LINEARS_ERROR_DOMAIN;;
    mret (mk_pid (config old) initial zero zero zero (cached_dt old) (integral_step old)
            (derivative_gain old) (filter_weight old) 0)) old).

(** The period-derived coefficients (ki*dt, kd/dt, dt/(Tf+dt)), recomputed when dt changed. *)
Definition pid_coefficients (zero : W) (ctx : pid T W) (period : W) : fc (W * W * W) :=
  let c := config ctx in
  if FC_CMP period (cached_dt ctx) =? 0
  then mret (integral_step ctx, derivative_gain ctx, filter_weight ctx)
  else
    step ← FC_MUL (ki c) period;
    gain ← (if FC_CMP (kd c) zero =? 0 then mret (derivative_gain ctx) else FC_DIV (kd c) period);
    weight ← (if 0 <? FC_CMP (derivative_filter c) zero
              then lift2 FC_DIV (mret period) (FC_ADD (derivative_filter c) period)
              else mret (filter_weight ctx));
    mret (step, gain, weight).

Definition pid_proportional_term (c : pid_config T W) (setpoint measurement error : W) : fc W :=
  p ← (if has_option (options c) FIELDCTRL_PID_OPT_SETPOINT_WEIGHT
       then lift2 FC_SUB (FC_MUL (setpoint_weight c) setpoint) (mret measurement)
       else mret error);
  FC_MUL (kp c) p.

(** I'(n): held under separation, otherwise advanced and clamped. *)
Definition pid_candidate (c : pid_config T W) (step old error : W) : fc W :=
  let bounds := pid_integral_bounds c in
  advance ← (if has_option (options c) FIELDCTRL_PID_OPT_INTEGRAL_SEPARATION
             then magnitude ← FC_ABS error; mret (FC_CMP magnitude (FC_FIELD (separation c)) <=? 0)
             else mret true);
  (if (advance : bool) then
     sum ← lift2 FC_ADD (mret old) (FC_MUL step error);
     mret (base_clamp sum bounds.1 bounds.2)
   else mret old).

Definition pid_derivative_term (zero : W) (ctx : pid T W) (gain weight error measurement : W) : fc W :=
  let c := config ctx in
  let d := derivative ctx in
  if negb (history ctx =? 0) && negb (FC_CMP (kd c) zero =? 0) then
    delta ← (if derivative_on c =? FIELDCTRL_PID_DERIVATIVE_ON_MEASUREMENT
             then FC_SUB (previous_measurement ctx) measurement
             else FC_SUB error (previous_error ctx));
    delta ← FC_MUL gain delta;
    (if 0 <? FC_CMP (derivative_filter c) zero
     then lift2 FC_ADD (mret d) (lift2 FC_MUL (mret weight) (FC_SUB delta d))
     else mret delta)
  else mret d.

(** The stored I(n): the candidate, held back while the command is beyond a bound. *)
Definition pid_anti_windup (lo hi raw pd old i : W) : fc W :=
  if (0 <? FC_CMP raw hi) && (0 <? FC_CMP i old) then
    boundary ← FC_SUB hi pd;
    mret (if 0 <? FC_CMP boundary old then boundary else old)
  else if (FC_CMP raw lo <? 0) && (FC_CMP i old <? 0) then
    boundary ← FC_SUB lo pd;
    mret (if FC_CMP boundary old <? 0 then boundary else old)
  else mret i.

Definition pid_step_work (ctx : pid T W) (setpoint measurement period : W)
    : fc (pid T W * pid_output T W) :=
  zero ← FC_I 0;
  fail_if (FC_CMP period zero <=? 0) LINEARS_ERROR_DOMAIN;;
  let c := config ctx in
  let lo := FC_FIELD (lower c) in
  let hi := FC_FIELD (upper c) in
  error ← FC_SUB setpoint measurement;
  p ← pid_proportional_term c setpoint measurement error;
  coefficients ← pid_coefficients zero ctx period;
  let '(step, gain, weight) := coefficients in
  let old := integral ctx in
  i ← pid_candidate c step old error;
  d ← pid_derivative_term zero ctx gain weight error measurement;
  pd ← FC_ADD p d;
  raw ← FC_ADD pd i;
  check;;
  let saturated := (0 <? FC_CMP raw hi) || (FC_CMP raw lo <? 0) in
  command ← store (base_clamp raw lo hi);
  i ← pid_anti_windup lo hi raw pd old i;
  rp ← acc_store p; ri ← acc_store i; rd ← acc_store d;
  check;;
  mret (mk_pid c i error measurement d period step gain weight 1,
        mk_pid_output command rp ri rd saturated).

(** Context and output are two objects of the given sizes. *)
Definition pid_step (sizeof_pid sizeof_output : Z) (ctx : option (Z * pid T W))
    (setpoint measurement dt : T) (output : option (Z * pid_output T W))
    : linears_status_t * (option (Z * pid T W) * option (Z * pid_output T W)) :=
  match ctx, output with
  | Some (px, old), Some (po, out) =>
      if fc_overlap px sizeof_pid po sizeof_output
      then (LINEARS_ERROR_ALIAS, (ctx, output))
      else
        let r := run (reference ← FC_LOAD setpoint;
                      feedback ← FC_LOAD measurement;
                      period ← FC_LOAD dt;
                      check;;
                      assign (run (pid_step_work old reference feedback period) (old, out)))
                     (old, out) in
        (r.1, (Some (px, r.2.1), Some (po, r.2.2)))
  | _, _ => (LINEARS_ERROR_ARGUMENT, (ctx, output))
  end.

(** ** Open-loop VVVF; the context is its field angle *)

Definition vvvf_init (ctx : option W) (angle : T) : linears_status_t * option W :=
  with_out ctx (run (a ← lift1 FC_WRAP (FC_LOAD angle); acc_store a)).

Definition vvvf_work (state : W) (f amp bus period : W) (duty : abc T) : fc (W * vvvf_output T) :=
  zero ← FC_I 0;
  fail_if ((FC_CMP amp zero <? 0) || (FC_CMP bus zero <=? 0) || (FC_CMP period zero <=? 0))
    LINEARS_ERROR_DOMAIN;;
  advance ← FC_MUL f period;
  check;;
  magnitude ← FC_ABS advance; half ← FC_RATIO 1 2;
  fail_if (0 <? FC_CMP magnitude half) LINEARS_ERROR_DOMAIN;;
  angle ← lift1 FC_WRAP (FC_ADD state advance);
  let scale := if 0 <? FC_CMP amp bus then amp else bus in
  v ← FC_DIV amp scale;
  limit ← lift2 FC_DIV (FC_I 1) (lift1 FC_SQRT (FC_I 3));
  let saturated := 0 <? FC_CMP v limit in
  let v := if saturated then limit else v in
  sc ← FC_SINCOS angle (zero, zero);
  a ← FC_MUL v sc.2; b ← FC_MUL v sc.1;
  va ← lift1 store (FC_MUL a bus);
  vb ← lift1 store (FC_MUL b bus);
  out_angle ← FC_ANGLE_STORE angle fc_local_t;
  next ← FC_ACC_STORE angle state;
  check;;
  one ← FC_I 1;
  d ← assign (base_pwm a b one duty);
  mret (next, mk_vvvf_output out_angle (mk_ab va vb) d saturated).

Definition vvvf_step (sizeof_vvvf sizeof_output : Z) (ctx : option (Z * W))
    (frequency amplitude dc_bus dt : T) (output : option (Z * vvvf_output T))
    : linears_status_t * (option (Z * W) * option (Z * vvvf_output T)) :=
  match ctx, output with
  | Some (px, old), Some (po, out) =>
      if fc_overlap px sizeof_vvvf po sizeof_output
      then (LINEARS_ERROR_ALIAS, (ctx, output))
      else
        let r := run (f ← FC_LOAD frequency; amp ← FC_LOAD amplitude;
                      bus ← FC_LOAD dc_bus; period ← FC_LOAD dt;
                      check;;
                      vvvf_work old f amp bus period (mk_abc fc_local_t fc_local_t fc_local_t))
                     (old, out) in
        (r.1, (Some (px, r.2.1), Some (po, r.2.2)))
  | _, _ => (LINEARS_ERROR_ARGUMENT, (ctx, output))
  end.
End Base.

#[export] Hint Extern 0 (sticky (store _)) => (unfold store) : sticky.
#[export] Hint Extern 0 (sticky (acc_store _)) => (unfold acc_store) : sticky.
#[export] Hint Extern 0 (sticky (FC_RATIO _ _)) => (unfold FC_RATIO) : sticky.
