(* ===== verification/FcPid.v ===== *)
(** * Correctness of the PID controller of base_impl.h

    The theorems hold for every implementation of the arithmetic interface; the
    witnesses instantiate them with the q15 and q31 variants. *)
From S2P Require Import Prelude MachineInt Status FcMonad Numeric Cordic FcVariants FcBase.

(** The calls a client makes on a context after [pid_init]. *)
Inductive pid_call (T W : Type) : Type :=
| CallStep (setpoint measurement dt : T)
| CallReset (integral : T)
| CallRetune (c : pid_config T W).
Arguments CallStep {T W}. Arguments CallReset {T W}. Arguments CallRetune {T W}.

Section Pid.
Context {T W : Type} `{FcLaws T W}.

(** ** Order and clamping *)

Lemma fc_lt_false a b : fc_value a -> fc_value b -> (FC_CMP a b <? 0) = false -> fc_le b a.
Proof. intros Ha Hb E. zbool. by apply fc_cmp_ge. Qed.
Lemma fc_lt_true a b : fc_value a -> fc_value b -> (FC_CMP a b <? 0) = true -> fc_le a b.
Proof. intros Ha Hb E. zbool. apply fc_cmp_le; [done|done|lia]. Qed.
Lemma fc_gt_false a b : fc_value a -> fc_value b -> (0 <? FC_CMP a b) = false -> fc_le a b.
Proof. intros Ha Hb E. zbool. by apply fc_cmp_le. Qed.
Lemma fc_gt_true a b : fc_value a -> fc_value b -> (0 <? FC_CMP a b) = true -> fc_le b a.
Proof. intros Ha Hb E. zbool. apply fc_cmp_ge; [done|done|lia]. Qed.

Lemma fc_le_refl a : fc_value a -> fc_le a a.
Proof.
  intros Ha. destruct (Z.le_ge_cases (FC_CMP a a) 0).
  - by apply fc_cmp_le.
  - by apply fc_cmp_ge.
Qed.

Definition between (lo x hi : W) : Prop := fc_value x /\ fc_le lo x /\ fc_le x hi.

Lemma base_clamp_between x lo hi :
  fc_value x -> fc_value lo -> fc_value hi -> fc_le lo hi -> between lo (base_clamp x lo hi) hi.
Proof.
  intros Hx Hl Hh Hlh. unfold base_clamp, between. destruct (FC_CMP x lo <? 0) eqn:E1.
  - auto using fc_le_refl.
  - destruct (0 <? FC_CMP x hi) eqn:E2; [auto using fc_le_refl|].
    eauto using fc_lt_false, fc_gt_false.
Qed.

(** ** Validated configurations and consistent contexts *)

(** Any bit pattern of the configuration structure. *)
Definition config_repr (c : pid_config T W) : Prop :=
  fc_wrepr (kp c) /\ fc_wrepr (ki c) /\ fc_wrepr (kd c) /\ fc_repr (lower c) /\ fc_repr (upper c) /\
  fc_wrepr (derivative_filter c) /\ fc_wrepr (setpoint_weight c) /\
  fc_repr (integral_lower c) /\ fc_repr (integral_upper c) /\ fc_repr (separation c).

(** What init and retune validate. *)
Record config_ok (c : pid_config T W) : Prop := {
  ok_gains : fc_value (kp c) /\ fc_value (ki c) /\ fc_value (kd c);
  ok_filter : fc_value (derivative_filter c) /\ fc_value (setpoint_weight c);
  ok_repr : fc_repr (lower c) /\ fc_repr (upper c);
  ok_limits : fc_value (FC_FIELD (lower c)) /\ fc_value (FC_FIELD (upper c));
  ok_order : fc_le (FC_FIELD (lower c)) (FC_FIELD (upper c));
  ok_separation : fc_value (FC_FIELD (separation c));
  ok_bounds : fc_value (pid_integral_bounds c).1 /\ fc_value (pid_integral_bounds c).2;
  ok_bounds_order : fc_le (pid_integral_bounds c).1 (pid_integral_bounds c).2;
}.

(** The invariant of an initialized context. *)
Record pid_ok (x : pid T W) : Prop := {
  ok_config : config_ok (config x);
  ok_integral : between (pid_integral_bounds (config x)).1 (integral x) (pid_integral_bounds (config x)).2;
  ok_history : fc_value (previous_error x) /\ fc_value (previous_measurement x);
  ok_derivative : fc_value (derivative x);
  ok_cache : fc_value (cached_dt x) /\ fc_value (integral_step x) /\
             fc_value (derivative_gain x) /\ fc_value (filter_weight x);
}.

Lemma pid_check_wp c : config_repr c ->
  wp (pid_check c) (fun b => b = pid_integral_bounds c /\ config_ok c).
Proof.
  intros (H1 & H2 & H3 & H4 & H5 & H6 & H7 & H8 & H9 & H10). unfold pid_check.
  wp_step fc_i_wp as zero Hzero.
  wp_step fc_acc_load_wp as ? [-> Vp]. wp_step fc_acc_load_wp as ? [-> Vi].
  wp_step fc_acc_load_wp as ? [-> Vd]. wp_step fc_load_wp as ? [-> Vlo].
  wp_step fc_load_wp as ? [-> Vhi]. wp_step fc_acc_load_wp as ? [-> Vf].
  wp_step fc_acc_load_wp as ? [-> Vw]. wp_step fc_load_wp as ? [-> Vil].
  wp_step fc_load_wp as ? [-> Vih]. wp_step fc_load_wp as ? [-> Vs].
  apply wp_bind; [apply wp_check|solve_sticky].
  apply wp_bind; [apply wp_fail_if; [done|intros Hc]|solve_sticky].
  wp_step fc_i_wp as one Hone.
  apply wp_bind; [apply wp_fail_if; [done|intros _]|solve_sticky].
  apply wp_bind; [apply wp_fail_if; [done|intros _]|solve_sticky].
  repeat (apply orb_false_iff in Hc as [Hc ?]).
  assert (fc_le (FC_FIELD (lower c)) (FC_FIELD (upper c))) as Hle
    by (zbool; apply fc_cmp_le; [done|done|lia]).
  apply wp_if; intros Eo.
  - apply wp_bind; [apply wp_fail_if; [done|intros Hb]|solve_sticky]. apply wp_ret.
    unfold pid_integral_bounds. rewrite Eo. split; [done|].
    split; unfold pid_integral_bounds; rewrite ?Eo; eauto using fc_gt_false.
  - apply wp_ret. unfold pid_integral_bounds. rewrite Eo. split; [done|].
    split; unfold pid_integral_bounds; rewrite ?Eo; eauto.
Qed.

(** ** The terms of a step *)

Lemma pid_proportional_wp c sp m e : config_ok c -> fc_value sp -> fc_value m -> fc_value e ->
  wp (pid_proportional_term c sp m e) fc_value.
Proof.
  intros [(Hp & _ & _) (_ & Hw) _ _ _ _ _ _] Hs Hm He. unfold pid_proportional_term.
  apply wp_bind; [|solve_sticky]. apply wp_if; intros _.
  - apply wp_lift2; [|solve_sticky|solve_sticky].
    eapply wp_mono; [by apply fc_mul_wp|]. intros a Ha. apply wp_ret.
    eapply wp_mono; [by apply fc_sub_wp|]. intros b Hb. by apply fc_mul_wp.
  - apply wp_ret. by apply fc_mul_wp.
Qed.

Lemma pid_coefficients_wp zero x period : pid_ok x -> fc_value zero -> fc_value period ->
  wp (pid_coefficients zero x period)
    (fun r => fc_value r.1.1 /\ fc_value r.1.2 /\ fc_value r.2).
Proof.
  intros [Hc _ _ _ (_ & Hs & Hg & Hw)] Hz Hp. destruct Hc as [(_ & Hi & Hd) (Hf & _) _ _ _ _ _ _].
  unfold pid_coefficients. apply wp_if; intros _; [by apply wp_ret|].
  wp_step fc_mul_wp as step Hstep.
  apply wp_bind; [|solve_sticky].
  apply (wp_mono _ fc_value); [apply wp_if; intros _; [by apply wp_ret|by apply fc_div_wp]|].
  intros gain Hgain. apply wp_bind; [|solve_sticky].
  apply (wp_mono _ fc_value).
  - apply wp_if; intros _; [|by apply wp_ret]. apply wp_lift2; [|solve_sticky|solve_sticky].
    apply wp_ret. eapply wp_mono; [by apply fc_add_wp|]. intros. by apply fc_div_wp.
  - intros weight Hweight. by apply wp_ret.
Qed.

Lemma pid_candidate_wp c step old e : config_ok c -> fc_value step -> fc_value e ->
  between (pid_integral_bounds c).1 old (pid_integral_bounds c).2 ->
  wp (pid_candidate c step old e)
    (fun i => between (pid_integral_bounds c).1 i (pid_integral_bounds c).2).
Proof.
  intros [_ _ _ _ _ _ (Hb1 & Hb2) Hb] Hs He Hold. unfold pid_candidate.
  apply wp_bind; [|solve_sticky]. apply (wp_mono _ (fun _ => True)).
  - apply wp_if; intros _; [|by apply wp_ret]. apply wp_bind; [|solve_sticky].
    eapply wp_mono; [by apply fc_abs_wp|]. intros. by apply wp_ret.
  - intros advance _. apply wp_if; intros _; [|by apply wp_ret].
    apply wp_bind; [|solve_sticky]. apply wp_lift2; [|solve_sticky|solve_sticky].
    apply wp_ret. eapply wp_mono; [by apply fc_mul_wp|]. intros a Ha.
    eapply wp_mono; [apply fc_add_wp; [apply Hold|done]|]. intros s Hsum. apply wp_ret.
    by apply base_clamp_between.
Qed.

Lemma pid_derivative_wp zero x gain weight e m : pid_ok x -> fc_value gain -> fc_value weight ->
  fc_value e -> fc_value m -> wp (pid_derivative_term zero x gain weight e m) fc_value.
Proof.
  intros [_ _ (He' & Hm') Hd _] Hg Hw He Hm. unfold pid_derivative_term.
  apply wp_if; intros _; [|by apply wp_ret].
  apply wp_bind; [|solve_sticky].
  apply (wp_mono _ fc_value); [apply wp_if; intros _; by apply fc_sub_wp|]. intros delta Hdelta.
  wp_step fc_mul_wp as delta' Hdelta'.
  apply wp_if; intros _; [|by apply wp_ret].
  apply wp_lift2; [|solve_sticky|solve_sticky]. apply wp_ret.
  apply wp_lift2; [|solve_sticky|solve_sticky]. apply wp_ret.
  eapply wp_mono; [by apply fc_sub_wp|]. intros.
  eapply wp_mono; [by apply fc_mul_wp|]. intros. by apply fc_add_wp.
Qed.

(** Anti-windup stops between the previous and the candidate integral. *)
Definition on_the_way (old r i : W) : Prop :=
  fc_value r /\ ((fc_le old r /\ fc_le r i) \/ (fc_le i r /\ fc_le r old)).

Lemma pid_anti_windup_wp lo hi raw pd old i :
  fc_value lo -> fc_value hi -> fc_value raw -> fc_value pd -> fc_value old -> fc_value i ->
  FC_ADD pd i LINEARS_OK = Next raw LINEARS_OK ->
  wp (pid_anti_windup lo hi raw pd old i) (fun r => on_the_way old r i /\
    ((FC_CMP raw lo <? 0) = false -> (0 <? FC_CMP raw hi) = false -> r = i)).
Proof.
  intros Hlo Hhi Hraw Hpd Hold Hi Eraw. unfold pid_anti_windup, on_the_way.
  apply wp_if; intros E1; [|apply wp_if; intros E2].
  - apply andb_true_iff in E1 as [E1 Ei]. apply wp_bind; [|solve_sticky].
    eapply wp_mono; [by apply wp_eq, fc_sub_wp|]. intros b [Hb Eb]. apply wp_ret.
    split; [|congruence]. apply Z.ltb_lt in E1.
    pose proof (fc_sub_upper _ _ _ _ _ Hpd Hi Hhi Eraw E1 Eb).
    destruct (0 <? FC_CMP b old) eqn:Ec; eauto 10 using fc_gt_true, fc_le_refl.
  - apply andb_true_iff in E2 as [E2 Ei]. apply wp_bind; [|solve_sticky].
    eapply wp_mono; [by apply wp_eq, fc_sub_wp|]. intros b [Hb Eb]. apply wp_ret.
    split; [|congruence]. apply Z.ltb_lt in E2.
    pose proof (fc_sub_lower _ _ _ _ _ Hpd Hi Hlo Eraw E2 Eb).
    destruct (FC_CMP b old <? 0) eqn:Ec; eauto 10 using fc_lt_true, fc_le_refl.
  - apply wp_ret. split; [|done]. split; [done|].
    destruct (Z.le_ge_cases (FC_CMP old i) 0).
    + left. split; [by apply fc_cmp_le|by apply fc_le_refl].
    + right. split; [by apply fc_le_refl|by apply fc_cmp_ge].
Qed.

Lemma pid_terms_sticky :
  (forall c sp m e, sticky (pid_proportional_term c sp m e)) /\
  (forall zero x period, sticky (pid_coefficients zero x period)) /\
  (forall c step old e, sticky (pid_candidate c step old e)) /\
  (forall zero x g w e m, sticky (pid_derivative_term zero x g w e m)) /\
  (forall lo hi raw pd old i, sticky (pid_anti_windup lo hi raw pd old i)).
Proof.
  unfold pid_proportional_term, pid_coefficients, pid_candidate, pid_derivative_term, pid_anti_windup.
  repeat split; intros; solve_sticky.
Qed.
End Pid.

#[export] Hint Extern 1 (sticky (pid_proportional_term _ _ _ _)) => apply pid_terms_sticky : sticky.
#[export] Hint Extern 1 (sticky (pid_coefficients _ _ _)) => apply pid_terms_sticky : sticky.
#[export] Hint Extern 1 (sticky (pid_candidate _ _ _ _)) => apply pid_terms_sticky : sticky.
#[export] Hint Extern 1 (sticky (pid_derivative_term _ _ _ _ _ _)) => apply pid_terms_sticky : sticky.
#[export] Hint Extern 1 (sticky (pid_anti_windup _ _ _ _ _ _)) => apply pid_terms_sticky : sticky.

Section PidStep.
Context {T W : Type} `{FcLaws T W}.

(** What a successful step promises, from the context [x] before it. *)
Record step_post (x : pid T W) (m period : W) (r : pid T W * pid_output T W) : Prop := {
  post_ok : pid_ok r.1;
  post_config : config r.1 = config x;
  post_history : history r.1 = 1 /\ previous_measurement r.1 = m /\ cached_dt r.1 = period;
  post_command : fc_repr (pid_command r.2) /\
    between (FC_FIELD (lower (config x))) (FC_FIELD (pid_command r.2)) (FC_FIELD (upper (config x)));
  post_terms : pid_integral r.2 = integral r.1 /\ pid_derivative r.2 = derivative r.1;
  post_cache : exists zero, FC_I 0 LINEARS_OK = Next zero LINEARS_OK /\ fc_value zero /\
    0 < FC_CMP period zero /\
    pid_coefficients zero x period LINEARS_OK
      = Next (integral_step r.1, derivative_gain r.1, filter_weight r.1) LINEARS_OK;
  post_windup : exists candidate,
    between (pid_integral_bounds (config x)).1 candidate (pid_integral_bounds (config x)).2 /\
    on_the_way (integral x) (integral r.1) candidate /\
    (pid_saturated r.2 = false -> integral r.1 = candidate);
}.

Lemma on_the_way_between lo hi old r i : fc_value lo -> fc_value hi ->
  between lo old hi -> between lo i hi -> on_the_way old r i -> between lo r hi.
Proof.
  intros Hl Hh (Vo & Lo & Ho) (Vi & Li & Hi) (Vr & [[H1 H2]|[H1 H2]]);
    (split; [done|split; eauto using fc_le_trans]).
Qed.

Lemma pid_step_work_wp x sp m period : pid_ok x -> fc_value sp -> fc_value m -> fc_value period ->
  wp (pid_step_work x sp m period) (step_post x m period).
Proof.
  intros Hx Hsp Hm Hp. pose proof (ok_config x Hx) as Hc. pose proof (ok_integral x Hx) as Hint.
  pose proof (ok_limits _ Hc) as [Hlo Hhi]. pose proof (ok_bounds _ Hc) as [Hb1 Hb2].
  pose proof (ok_repr _ Hc) as [Rlo Rhi].
  unfold pid_step_work. apply wp_bind; [|solve_sticky].
  eapply wp_mono; [apply wp_eq, fc_i_wp|]. intros zero [Hzero Ezero].
  apply wp_bind; [apply wp_fail_if; [done|intros Hpos%Z.leb_gt]|solve_sticky]. cbv zeta.
  wp_step fc_sub_wp as e He. wp_step pid_proportional_wp as p Vp.
  apply wp_bind; [|intros; solve_sticky].
  eapply wp_mono; [by apply wp_eq, (pid_coefficients_wp zero x period)|].
  intros [[step gain] weight] [(Hs & Hg & Hw) Ecoef]. cbn [fst snd] in *.
  wp_step pid_candidate_wp as i Hi. wp_step pid_derivative_wp as d Hd.
  wp_step fc_add_wp as pd Hpd.
  apply wp_bind; [|intros; solve_sticky].
  eapply wp_mono; [apply wp_eq, fc_add_wp; [done|apply Hi]|]. intros raw [Hraw Eraw].
  apply wp_bind; [apply wp_check|solve_sticky].
  pose proof (base_clamp_between raw _ _ Hraw Hlo Hhi (ok_order _ Hc)) as (Vcl & Lcl & Hcl).
  apply wp_bind; [eapply wp_mono; [by apply (fc_store_between _ _ (lower (config x)) (upper (config x)))|]|intros; solve_sticky].
  intros command (Rc & Vc & Lc & Uc).
  wp_step pid_anti_windup_wp as i' [Hway Heq]; [apply Hint|apply Hi|].
  assert (Hway' := on_the_way_between _ _ _ _ _ Hb1 Hb2 Hint Hi Hway).
  wp_step fc_acc_store_wp as ? ->. 
  apply wp_bind; [eapply wp_mono; [apply fc_acc_store_wp, Hway|intros ? ->]|solve_sticky].
  wp_step fc_acc_store_wp as ? ->.
  apply wp_bind; [apply wp_check|solve_sticky]. apply wp_ret.
  split; cbn; [|done..| |done| |].
  - split; cbn; auto.
  - done.
  - by exists zero.
  - exists i. split; [done|]. split; [done|]. intros Hsat.
    apply orb_false_iff in Hsat as [? ?]. auto.
Qed.
End PidStep.

Section PidReach.
Context {T W : Type} `{FcLaws T W}.

(** Contexts of a client that initializes once and then calls step, reset and retune in any
    order, with any arguments, whether or not the calls succeed. *)
Inductive pid_reach : pid T W -> Prop :=
| reach_init junk c i x : config_repr c -> fc_repr i ->
    pid_init (Some junk) (Some c) i = (LINEARS_OK, Some x) -> pid_reach x
| reach_step x sx so px po s m dt o st x' o' : pid_reach x ->
    fc_repr s -> fc_repr m -> fc_repr dt ->
    pid_step sx so (Some (px, x)) s m dt (Some (po, o)) = (st, (Some (px, x'), Some (po, o'))) ->
    pid_reach x'
| reach_reset x i st x' : pid_reach x -> fc_repr i ->
    pid_reset (Some x) i = (st, Some x') -> pid_reach x'
| reach_retune x c st x' : pid_reach x -> config_repr c ->
    pid_retune (Some x) (Some c) = (st, Some x') -> pid_reach x'.

(** The context without its period cache. *)
Definition forget_cache (zero : W) (x : pid T W) : pid T W :=
  mk_pid (config x) (integral x) (previous_error x) (previous_measurement x) (derivative x)
    zero (integral_step x) (derivative_gain x) (filter_weight x) (history x).

(** The cached coefficients are those a recomputation would give. *)
Definition cache_fresh (x : pid T W) : Prop :=
  forall zero, FC_I 0 LINEARS_OK = Next zero LINEARS_OK ->
    cached_dt x = zero \/
    pid_coefficients zero (forget_cache zero x) (cached_dt x) LINEARS_OK
      = Next (integral_step x, derivative_gain x, filter_weight x) LINEARS_OK.

(** One call, as a status and a final object: unchanged on failure, [Q] on success. *)
Lemma run_cases {R} (m : fc R) old (Q : R -> Prop) : wp m Q ->
  (run m old = ((run m old).1, old) /\ (run m old).1 <> LINEARS_OK) \/
  exists r, run m old = (LINEARS_OK, r) /\ Q r.
Proof.
  unfold wp, run. destruct (m LINEARS_OK) as [a s|s]; cbn; [|intros; by left].
  intros HQ. destruct (decide (s = LINEARS_OK)) as [->|Hs]; [right; eauto|left].
  by destruct s.
Qed.

(** A consistent new context: validated configuration, integral inside, no history. *)
Lemma pid_init_wp c i : config_repr c -> fc_repr i ->
  wp (zero ← FC_I 0; initial ← FC_LOAD i; check;; bounds ← pid_check c; check;;
      fail_if ((FC_CMP initial bounds.1 <? 0) || (0 <? FC_CMP initial bounds.2)) LINEARS_ERROR_DOMAIN;;
      mret (mk_pid c initial zero zero zero zero zero zero zero 0))
     (fun x => pid_ok x /\ cache_fresh x).
Proof.
  intros Hc Hi. assert (sticky (pid_check c)) by (unfold pid_check; solve_sticky).
  apply wp_bind; [|solve_sticky].
  eapply wp_mono; [apply wp_eq, fc_i_wp|]. intros zero [Hzero Ezero].
  wp_step fc_load_wp as ? [-> Vi]. apply wp_bind; [apply wp_check|solve_sticky].
  wp_step pid_check_wp as ? [-> Hok]. apply wp_bind; [apply wp_check|solve_sticky].
  apply wp_bind; [apply wp_fail_if; [done|intros Hb]|solve_sticky]. apply wp_ret.
  apply orb_false_iff in Hb as [Hb1 Hb2]. pose proof (ok_bounds _ Hok) as [V1 V2]. split.
  - split; cbn; [done| |done..]. split; eauto using fc_lt_false, fc_gt_false.
  - intros z Ez. rewrite Ezero in Ez. injection Ez as <-. by left.
Qed.

Lemma pid_reset_wp x i : pid_ok x -> fc_repr i ->
  wp (zero ← FC_I 0; initial ← FC_LOAD i; check;;
      fail_if ((FC_CMP initial (pid_integral_bounds (config x)).1 <? 0) || (0 <? FC_CMP initial (pid_integral_bounds (config x)).2)) 
        LINEARS_ERROR_DOMAIN;;
      mret (mk_pid (config x) initial zero zero zero (cached_dt x) (integral_step x)
              (derivative_gain x) (filter_weight x) 0))
     (fun x' => pid_ok x' /\ (cache_fresh x -> cache_fresh x')).
Proof.
  intros Hx Hi. destruct Hx as [Hok Hint _ _ Hcache]. wp_step fc_i_wp as zero Hzero.
  wp_step fc_load_wp as ? [-> Vi]. apply wp_bind; [apply wp_check|solve_sticky].
  apply wp_bind; [apply wp_fail_if; [done|intros Hb]|solve_sticky]. apply wp_ret.
  apply orb_false_iff in Hb as [Hb1 Hb2]. pose proof (ok_bounds _ Hok) as [V1 V2]. split; [|done].
  split; cbn; [done| |done..]. split; eauto using fc_lt_false, fc_gt_false.
Qed.

Lemma pid_coefficients_cong zero x y period :
  ki (config x) = ki (config y) -> kd (config x) = kd (config y) ->
  derivative_filter (config x) = derivative_filter (config y) ->
  cached_dt x = cached_dt y -> integral_step x = integral_step y ->
  derivative_gain x = derivative_gain y -> filter_weight x = filter_weight y ->
  pid_coefficients zero x period = pid_coefficients zero y period.
Proof. unfold pid_coefficients. by intros -> -> -> -> -> -> ->. Qed.

Section Exact.
Context `{!FcCmpEq T W}.

Lemma pid_retune_wp x c : pid_ok x -> config_repr c ->
  wp (zero ← FC_I 0; bounds ← pid_check c; check;;
      let stale := negb (FC_CMP (ki c) (ki (config x)) =? 0) ||
                   negb (FC_CMP (kd c) (kd (config x)) =? 0) ||
                   negb (FC_CMP (derivative_filter c) (derivative_filter (config x)) =? 0) in
      mret (mk_pid c (base_clamp (integral x) bounds.1 bounds.2)
              (previous_error x) (previous_measurement x)
              (if FC_CMP (kd c) zero =? 0 then zero else derivative x)
              (if stale then zero else cached_dt x)
              (integral_step x) (derivative_gain x) (filter_weight x) (history x)))
     (fun x' => pid_ok x' /\ (cache_fresh x -> cache_fresh x')).
Proof.
  intros Hx Hc. assert (sticky (pid_check c)) by (unfold pid_check; solve_sticky).
  destruct Hx as [Hold Hint Hh Hd (Hdt & Hcache)].
  apply wp_bind; [|solve_sticky].
  eapply wp_mono; [apply wp_eq, fc_i_wp|]. intros zero [Hzero Ezero].
  wp_step pid_check_wp as ? [-> Hok]. apply wp_bind; [apply wp_check|solve_sticky]. cbv zeta.
  apply wp_ret. pose proof (ok_bounds _ Hok) as [V1 V2]. split.
  - split; cbn; [done| |done|by case_match|split; [by case_match|done]].
    apply base_clamp_between; [apply Hint|done|done|apply (ok_bounds_order _ Hok)].
  - intros Hfresh z Ez. rewrite Ezero in Ez. injection Ez as <-. cbn.
    destruct (_ || _ || _) eqn:Es; [by left|].
    apply orb_false_iff in Es as [Es E3]. apply orb_false_iff in Es as [E1 E2].
    apply negb_false_iff, Z.eqb_eq in E1, E2, E3.
    destruct (ok_gains _ Hold) as (_ & ? & ?), (ok_gains _ Hok) as (_ & ? & ?).
    destruct (ok_filter _ Hold) as [? _], (ok_filter _ Hok) as [? _].
    apply fc_cmp_eq in E1, E2, E3; try done.
    destruct (Hfresh zero Ezero) as [?|Hf]; [by left|right]. rewrite <- Hf.
    erewrite pid_coefficients_cong; [done|..]; done.
Qed.

(** A recomputation at the period of the cache gives the cached values. *)
Lemma pid_coefficients_fresh zero x period :
  pid_ok x -> cache_fresh x -> FC_I 0 LINEARS_OK = Next zero LINEARS_OK ->
  fc_value zero -> fc_value period -> 0 < FC_CMP period zero ->
  pid_coefficients zero (forget_cache zero x) period LINEARS_OK
    = pid_coefficients zero x period LINEARS_OK.
Proof.
  intros Hx Hf Ez Vz Vp Hp. unfold pid_coefficients at 2. destruct (FC_CMP period (cached_dt x) =? 0) eqn:E.
  - apply Z.eqb_eq, fc_cmp_eq in E; [|done|apply (ok_cache _ Hx)]. subst period.
    destruct (Hf zero Ez) as [Hz|Hz]; [|exact Hz]. rewrite Hz in Hp.
    pose proof (fc_le_refl zero Vz). assert (FC_CMP zero zero <= 0) by by apply fc_cmp_le. lia.
  - unfold pid_coefficients, forget_cache. cbn [config cached_dt integral_step derivative_gain filter_weight].
    by rewrite (proj2 (Z.eqb_neq (FC_CMP period zero) 0)) by lia.
Qed.

Lemma step_post_fresh x m period r : pid_ok x -> fc_value period ->
  cache_fresh x -> step_post x m period r -> cache_fresh r.1.
Proof.
  intros Hx Vp Hf [_ Hcfg (_ & _ & Hdt) _ _ (zero & Ez & Vz & Hp & Ec) _] z Ez'.
  rewrite Ez in Ez'. injection Ez' as <-. right.
  rewrite Hdt. rewrite <- (pid_coefficients_fresh zero x period Hx Hf Ez Vz Vp Hp) in Ec.
  revert Ec. unfold pid_coefficients, forget_cache. rewrite Hcfg.
  cbn [config cached_dt integral_step derivative_gain filter_weight].
  rewrite (proj2 (Z.eqb_neq (FC_CMP period zero) 0)) by lia.
  unfold mbind, fc_bind, mret, fc_ret.
  destruct (FC_MUL _ _ _) as [step s1|s1]; [|done].
  destruct (FC_CMP (kd (config x)) zero =? 0).
  - destruct (0 <? FC_CMP (derivative_filter (config x)) zero).
    + destruct (lift2 FC_DIV _ _ s1) as [w s2|s2]; [|done]. congruence.
    + intros Ec. injection Ec. congruence.
  - destruct (FC_DIV _ _ s1) as [g s2|s2]; [|done].
    destruct (0 <? FC_CMP (derivative_filter (config x)) zero).
    + destruct (lift2 FC_DIV _ _ s2) as [w s3|s3]; [|done]. congruence.
    + intros Ec. injection Ec. congruence.
Qed.

(** The public step on disjoint objects: nothing changes on failure. *)
Lemma pid_step_cases sx so px po x s m dt o st x' o' :
  pid_ok x -> fc_repr s -> fc_repr m -> fc_repr dt ->
  pid_step sx so (Some (px, x)) s m dt (Some (po, o)) = (st, (Some (px, x'), Some (po, o'))) ->
  (st <> LINEARS_OK /\ x' = x /\ o' = o) \/
  (st = LINEARS_OK /\ fc_value (FC_FIELD dt) /\
   step_post x (FC_FIELD m) (FC_FIELD dt) (x', o')).
Proof.
  intros Hx Hs Hm Hdt. unfold pid_step. destruct (fc_overlap _ _ _ _).
  { intros E. injection E as <- <- <-. by left. }
  cbv zeta.
  match goal with |- context [run ?body (x, o)] =>
    assert (wp body (fun r => fc_value (FC_FIELD dt) /\ step_post x (FC_FIELD m) (FC_FIELD dt) r)) as Hwp end.
  { wp_step fc_load_wp as ? [-> Vs]. wp_step fc_load_wp as ? [-> Vm].
    wp_step fc_load_wp as ? [-> Vd]. apply wp_check_bind, wp_assign. intros E.
    split; [done|]. apply (run_ok _ (step_post x (FC_FIELD m) (FC_FIELD dt))); [|done].
    by apply pid_step_work_wp. }
  intros E. destruct (run_cases _ (x, o) _ Hwp) as [[Hrun Hst]|(r & Hrun & Vd & Hpost)];
    rewrite Hrun in E; cbn [fst snd] in E; injection E as <- <- <-.
  - by left.
  - right. by destruct r.
Qed.

Lemma pid_reach_ok x : pid_reach x -> pid_ok x /\ cache_fresh x.
Proof.
  induction 1 as [junk c i x Hc Hi E|x sx so px po s m dt o st x' o' _ [IH1 IH2] Hs Hm Hdt E
    |x i st x' _ [IH1 IH2] Hi E|x c st x' _ [IH1 IH2] Hc E].
  - unfold pid_init, with_config in E.
    destruct (run_cases _ junk _ (pid_init_wp c i Hc Hi)) as [[Hrun Hst]|(r & Hrun & Hr)];
      cbv zeta in E, Hrun; rewrite Hrun in E; cbn [fst snd] in E; injection E; intros; by subst.
  - destruct (pid_step_cases _ _ _ _ _ _ _ _ _ _ _ _ IH1 Hs Hm Hdt E)
      as [(_ & -> & _)|(_ & Vd & Hpost)]; [done|].
    split; [apply (post_ok _ _ _ _ Hpost)|by apply (step_post_fresh _ _ _ _ IH1 Vd IH2 Hpost)].
  - unfold pid_reset, with_out in E.
    destruct (run_cases _ x _ (pid_reset_wp x i IH1 Hi)) as [[Hrun Hst]|(r & Hrun & Hr & Hf)];
      cbv zeta in E, Hrun; rewrite Hrun in E; cbn [fst snd] in E; injection E; intros; subst; auto.
  - unfold pid_retune, with_config in E.
    destruct (run_cases _ x _ (pid_retune_wp x c IH1 Hc)) as [[Hrun Hst]|(r & Hrun & Hr & Hf)];
      cbv zeta in E, Hrun; rewrite Hrun in E; cbn [fst snd] in E; injection E; intros; subst; auto.
Qed.
End Exact.
End PidReach.

Section Properties.
Context {T W : Type} `{FcLaws T W} `{!FcCmpEq T W}.

Lemma pid_step_forget (x : pid T W) zero s m period r :
  pid_ok x -> cache_fresh x -> FC_I 0 LINEARS_OK = Next zero LINEARS_OK ->
  fc_value zero -> fc_value s -> fc_value m -> fc_value period ->
  pid_step_work x s m period LINEARS_OK = Next r LINEARS_OK <->
  pid_step_work (forget_cache zero x) s m period LINEARS_OK = Next r LINEARS_OK.
Proof.
  intros Hx Hf Ez Vz Vs Vm Vp. unfold pid_step_work.
  rewrite !bind_ok_iff by solve_sticky.
  split; intros (z & E1 & E); exists z; (split; [done|]);
    rewrite Ez in E1; injection E1 as <-;
    rewrite bind_ok_iff in E |- * by solve_sticky; destruct E as ([] & E2 & E); exists tt;
    (split; [done|]);
    (assert (0 < FC_CMP period zero)
       by (unfold fail_if in E2; destruct (Z.leb_spec (FC_CMP period zero) 0); [done|lia]));
    revert E; cbv zeta; rewrite !bind_ok_iff by (intros; solve_sticky);
    intros (e & Ee & E); exists e; (split; [exact Ee|]);
    revert E; rewrite !bind_ok_iff by (intros; solve_sticky);
    intros (p & Ep & E); exists p; (split; [exact Ep|]);
    revert E; rewrite !bind_ok_iff by (intros; solve_sticky);
    intros (c & Ec & E); exists c; (split; [|exact E]);
    [rewrite pid_coefficients_fresh|rewrite pid_coefficients_fresh in Ec]; done.
Qed.



(** Caching the period coefficients does not change results: on every reachable context a
    step succeeds exactly when it succeeds with the cache forgotten, with the same new context
    and the same output. *)
Theorem pid_cache_transparent (x : pid T W) zero s m period r :
  pid_reach x -> FC_I 0 LINEARS_OK = Next zero LINEARS_OK ->
  fc_value zero -> fc_value s -> fc_value m -> fc_value period ->
  pid_step_work x s m period LINEARS_OK = Next r LINEARS_OK <->
  pid_step_work (forget_cache zero x) s m period LINEARS_OK = Next r LINEARS_OK.
Proof. intros [Hx Hf]%pid_reach_ok. by apply pid_step_forget. Qed.
End Properties.
