(* ===== verification/FcPidQ.v ===== *)
(** * The q PID as exact arithmetic

    A successful q15 or q31 step computes [pid_reference]: the documented update
    equations over unbounded integers, with one nearest-away rounding per product
    and per quotient and no period cache. *)
From S2P Require Import Prelude MachineInt Status Numeric FcMonad Cordic FcVariants FcBase FcPid.

(** The F31 product and quotient, rounded once. *)
Definition rmul (a b : Z) : Z := div_nearest (a * b) LINEARS_FIXED_ONE.
Definition rdiv (a b : Z) : Z := div_nearest (a * LINEARS_FIXED_ONE) b.

Definition clamp (x lo hi : Z) : Z := if x <? lo then lo else if hi <? x then hi else x.

Section Q.
Variable f : q_format.

#[local] Instance q_arith : FcArith Z Z := fcq f.
#[local] Instance q_laws : FcLaws Z Z := fcq_laws f.

(** ** The operations on an OK status *)

Lemma q_add a b : is_i64 a -> is_i64 b -> wp (FC_ADD a b) (fun r => r = a + b /\ is_i64 r).
Proof. intros. by apply fcq_call_wp, fcq_add_eq. Qed.
Lemma q_sub a b : is_i64 a -> is_i64 b -> wp (FC_SUB a b) (fun r => r = a - b /\ is_i64 r).
Proof. intros. by apply fcq_call_wp, fcq_sub_eq. Qed.
Lemma q_mul a b : is_i64 a -> is_i64 b -> wp (FC_MUL a b) (fun r => r = rmul a b /\ is_i64 r).
Proof. intros. by apply fcq_call_wp, linears_fixed_mul_exact. Qed.
Lemma q_div a b : is_i64 a -> is_i64 b -> b <> 0 ->
  wp (FC_DIV a b) (fun r => r = rdiv a b /\ is_i64 r).
Proof. intros. by apply fcq_call_wp, fcq_div_eq. Qed.
Lemma q_abs a : is_i64 a -> wp (FC_ABS a) (fun r => r = Z.abs a /\ is_i64 r).
Proof. intros. by apply fcq_call_wp, (fcq_abs_eq a a). Qed.
Lemma q_cmp a b : FC_CMP a b = Z.sgn (a - b).
Proof. apply fcq_cmp_sign. Qed.

Lemma q_lt a b : (FC_CMP a b <? 0) = (a <? b).
Proof. rewrite q_cmp. destruct (Z.ltb_spec a b), (Z.ltb_spec (Z.sgn (a - b)) 0); lia. Qed.
Lemma q_gt a b : (0 <? FC_CMP a b) = (b <? a).
Proof. rewrite q_cmp. destruct (Z.ltb_spec b a), (Z.ltb_spec 0 (Z.sgn (a - b))); lia. Qed.
Lemma q_le a b : (FC_CMP a b <=? 0) = (a <=? b).
Proof. rewrite q_cmp. destruct (Z.leb_spec a b), (Z.leb_spec (Z.sgn (a - b)) 0); lia. Qed.
Lemma q_eq a b : (FC_CMP a b =? 0) = (a =? b).
Proof. rewrite q_cmp. destruct (Z.eqb_spec a b), (Z.eqb_spec (Z.sgn (a - b)) 0); lia. Qed.

Lemma q_clamp x lo hi : base_clamp x lo hi = clamp x lo hi.
Proof. unfold base_clamp, clamp. by rewrite q_lt, q_gt. Qed.

(** ** The reference step *)

Definition ref_proportional (c : pid_config Z Z) (sp m : Z) : Z :=
  rmul (kp c) (if has_option (options c) FIELDCTRL_PID_OPT_SETPOINT_WEIGHT
               then rmul (setpoint_weight c) sp - m else sp - m).

Definition ref_gain (x : pid Z Z) (dt : Z) : Z :=
  if kd (config x) =? 0 then derivative_gain x else rdiv (kd (config x)) dt.
Definition ref_weight (x : pid Z Z) (dt : Z) : Z :=
  if 0 <? derivative_filter (config x) then rdiv dt (derivative_filter (config x) + dt)
  else filter_weight x.

Definition ref_candidate (c : pid_config Z Z) (old sp m dt : Z) : Z :=
  if has_option (options c) FIELDCTRL_PID_OPT_INTEGRAL_SEPARATION &&
     (fcq_field f (separation c) <? Z.abs (sp - m))
  then old
  else clamp (old + rmul (rmul (ki c) dt) (sp - m)) (pid_integral_bounds c).1 (pid_integral_bounds c).2.

Definition ref_derivative (x : pid Z Z) (sp m dt : Z) : Z :=
  let c := config x in
  if (history x =? 0) || (kd c =? 0) then derivative x
  else
    let raw := rmul (rdiv (kd c) dt)
      (if derivative_on c =? FIELDCTRL_PID_DERIVATIVE_ON_MEASUREMENT
       then previous_measurement x - m else sp - m - previous_error x) in
    if 0 <? derivative_filter c
    then derivative x + rmul (rdiv dt (derivative_filter c + dt)) (raw - derivative x)
    else raw.

(** The stored integral: at most up to the crossed bound, never back past the old one. *)
Definition ref_integral (lo hi raw pd old i : Z) : Z :=
  if (hi <? raw) && (old <? i) then Z.max (hi - pd) old
  else if (raw <? lo) && (i <? old) then Z.min (lo - pd) old
  else i.

Definition pid_reference (x : pid Z Z) (sp m dt : Z) : pid Z Z * pid_output Z Z :=
  let c := config x in
  let lo := fcq_field f (lower c) in
  let hi := fcq_field f (upper c) in
  let p := ref_proportional c sp m in
  let i := ref_candidate c (integral x) sp m dt in
  let d := ref_derivative x sp m dt in
  let raw := p + d + i in
  let i' := ref_integral lo hi raw (p + d) (integral x) i in
  (mk_pid c i' (sp - m) m d dt (rmul (ki c) dt) (ref_gain x dt) (ref_weight x dt) 1,
   mk_pid_output (q_round f (clamp raw lo hi)) p i' d ((hi <? raw) || (raw <? lo))).

(** ** Refinement, term by term *)

Context (x : pid Z Z) (sp m dt : Z).
Context (Hx : pid_ok x) (Hf : cache_fresh x).
Context (Hsp : is_i64 sp) (Hm : is_i64 m) (Hdt : is_i64 dt) (Hpos : 0 < dt).
Let c := config x.

Lemma i64_of_value w : fc_value w -> is_i64 w.
Proof. done. Qed.

Lemma ref_proportional_wp e : e = sp - m -> is_i64 e ->
  wp (pid_proportional_term c sp m e) (fun p => p = ref_proportional c sp m /\ is_i64 p).
Proof.
  intros -> He. destruct (ok_gains _ (ok_config _ Hx)) as (Hp & _ & _).
  destruct (ok_filter _ (ok_config _ Hx)) as [_ Hw].
  unfold pid_proportional_term, ref_proportional. apply wp_bind; [|solve_sticky].
  destruct (has_option _ _).
  - apply wp_lift2; [|solve_sticky|solve_sticky].
    eapply wp_mono; [by apply q_mul|]. intros a [-> Ha]. apply wp_ret.
    eapply wp_mono; [by apply q_sub|]. intros b [-> Hb]. by apply q_mul.
  - apply wp_ret. by apply q_mul.
Qed.

Lemma ref_coefficients_wp : let zero := 0 in
  wp (pid_coefficients zero (forget_cache zero x) dt)
    (fun r => r = (rmul (ki c) dt, ref_gain x dt, ref_weight x dt) /\
      is_i64 r.1.1 /\ is_i64 r.1.2 /\ is_i64 r.2).
Proof.
  destruct (ok_gains _ (ok_config _ Hx)) as (_ & Hi & Hd).
  destruct (ok_filter _ (ok_config _ Hx)) as [Hfl _].
  destruct (ok_cache _ Hx) as (_ & _ & Hg & Hw).
  cbv zeta. unfold pid_coefficients, forget_cache, ref_gain, ref_weight.
  cbn [config cached_dt integral_step derivative_gain filter_weight].
  rewrite !q_eq, q_gt, (proj2 (Z.eqb_neq dt 0)) by lia.
  wp_step q_mul as step [-> Hstep]. fold c in Hi, Hd, Hfl |- *.
  apply wp_bind; [|solve_sticky].
  apply (wp_mono _ (fun g => g = (if kd c =? 0 then derivative_gain x else rdiv (kd c) dt) /\ is_i64 g)).
  { destruct (kd c =? 0); [by apply wp_ret|]. apply q_div; [done|done|lia]. }
  intros g [-> Hg']. apply wp_bind; [|solve_sticky].
  apply (wp_mono _ (fun w => w = (if 0 <? derivative_filter c then rdiv dt (derivative_filter c + dt)
                                  else filter_weight x) /\ is_i64 w)).
  { destruct (Z.ltb_spec 0 (derivative_filter c)); [|by apply wp_ret].
    apply wp_lift2; [|solve_sticky|solve_sticky]. apply wp_ret.
    eapply wp_mono; [by apply q_add|]. intros s [-> Hs]. apply q_div; [done|done|lia]. }
  intros w [-> Hw']. by apply wp_ret.
Qed.

Lemma ref_candidate_wp e : e = sp - m -> is_i64 e -> is_i64 (rmul (ki c) dt) ->
  wp (pid_candidate c (rmul (ki c) dt) (integral x) e)
    (fun i => i = ref_candidate c (integral x) sp m dt /\ is_i64 i).
Proof.
  intros -> He Hs. pose proof (ok_integral _ Hx) as (Hold & _).
  destruct (ok_bounds _ (ok_config _ Hx)) as [Hb1 Hb2]. fold c in Hb1, Hb2.
  unfold pid_candidate, ref_candidate. apply wp_bind; [|solve_sticky].
  apply (wp_mono _ (fun advance => advance = negb
    (has_option (options c) FIELDCTRL_PID_OPT_INTEGRAL_SEPARATION &&
     (fcq_field f (separation c) <? Z.abs (sp - m))))).
  { destruct (has_option _ _); [|by apply wp_ret]. wp_step q_abs as a [-> Ha]. apply wp_ret.
    by rewrite q_le, Z.leb_antisym. }
  intros ? ->. destruct (_ && _); cbn [negb]; [by apply wp_ret|].
  apply wp_bind; [|solve_sticky]. apply wp_lift2; [|solve_sticky|solve_sticky]. apply wp_ret.
  eapply wp_mono; [by apply q_mul|]. intros a [-> Ha].
  eapply wp_mono; [by apply q_add|]. intros s [-> Hs']. apply wp_ret. rewrite q_clamp.
  split; [done|]. unfold clamp. by repeat case_if.
Qed.

Lemma ref_derivative_wp e : e = sp - m -> is_i64 e ->
  is_i64 (ref_gain x dt) -> is_i64 (ref_weight x dt) ->
  wp (pid_derivative_term 0 x (ref_gain x dt) (ref_weight x dt) e m)
    (fun d => d = ref_derivative x sp m dt /\ is_i64 d).
Proof.
  intros -> He Hg Hw. destruct (ok_history _ Hx) as [Hpe Hpm]. pose proof (ok_derivative _ Hx) as Hd.
  unfold pid_derivative_term, ref_derivative, ref_gain, ref_weight in *. fold c in Hg, Hw |- *.
  rewrite q_eq, q_gt. destruct (history x =? 0), (kd c =? 0); cbn [negb andb orb]; try by apply wp_ret.
  apply wp_bind; [|solve_sticky].
  apply (wp_mono _ (fun delta => delta =
    (if derivative_on c =? FIELDCTRL_PID_DERIVATIVE_ON_MEASUREMENT
     then previous_measurement x - m else sp - m - previous_error x) /\ is_i64 delta)).
  { case_if; by apply q_sub. }
  intros delta [-> Hdelta]. wp_step q_mul as raw [-> Hraw].
  destruct (0 <? derivative_filter c); [|by apply wp_ret].
  apply wp_lift2; [|solve_sticky|solve_sticky]. apply wp_ret.
  apply wp_lift2; [|solve_sticky|solve_sticky]. apply wp_ret.
  eapply wp_mono; [by apply q_sub|]. intros a [-> Ha].
  eapply wp_mono; [by apply q_mul|]. intros b [-> Hb]. by apply q_add.
Qed.

Lemma ref_integral_wp lo hi raw pd old i :
  is_i64 lo -> is_i64 hi -> is_i64 pd -> is_i64 old -> is_i64 i ->
  wp (pid_anti_windup lo hi raw pd old i) (fun r => r = ref_integral lo hi raw pd old i /\ is_i64 r).
Proof.
  intros Hlo Hhi Hpd Hold Hi. unfold pid_anti_windup, ref_integral. rewrite !q_gt, !q_lt.
  destruct ((hi <? raw) && (old <? i)).
  - wp_step q_sub as b [-> Hb]. apply wp_ret. rewrite q_gt. unfold is_i64 in *. case_if; lia.
  - destruct ((raw <? lo) && (i <? old)); [|by apply wp_ret].
    wp_step q_sub as b [-> Hb]. apply wp_ret. rewrite q_lt. unfold is_i64 in *. case_if; lia.
Qed.

Lemma pid_reference_wp :
  wp (pid_step_work (forget_cache 0 x) sp m dt) (fun r => r = pid_reference x sp m dt).
Proof.
  destruct (ok_limits _ (ok_config _ Hx)) as [Hlo Hhi].
  destruct (ok_repr _ (ok_config _ Hx)) as [Rlo Rhi].
  pose proof (ok_order _ (ok_config _ Hx)) as Hle.
  pose proof (ok_integral _ Hx) as (Hint & _).
  unfold pid_step_work. apply wp_bind; [|solve_sticky].
  apply (wp_mono _ (fun z => z = 0)); [by intros _|]. intros zero ->.
  apply wp_bind; [apply wp_fail_if; [done|intros _]|solve_sticky]. cbv zeta.
  wp_step q_sub as e [Ee He].
  apply wp_bind; [eapply wp_mono; [by apply ref_proportional_wp|]|solve_sticky]. intros p [-> Hp].
  apply wp_bind; [eapply wp_mono; [by apply ref_coefficients_wp|]|solve_sticky].
  intros ? (-> & Hs & Hg & Hw). cbn [fst snd] in Hs, Hg, Hw. cbv beta iota.
  apply wp_bind; [eapply wp_mono; [by apply ref_candidate_wp|]|solve_sticky]. intros i [-> Hi].
  apply wp_bind; [eapply wp_mono; [by apply ref_derivative_wp|]|solve_sticky]. intros d [-> Hd].
  wp_step q_add as pd [-> Hpd]. wp_step q_add as raw [-> Hraw].
  apply wp_check_bind. rewrite q_clamp.
  cbn [config forget_cache integral] in *. fold c in Hlo, Hhi, Rlo, Rhi, Hle |- *.
  cbn in Hlo, Hhi, Hle.
  apply wp_bind; [eapply wp_mono; [apply (fcq_store_between f _ _ (lower c) (upper c)); try done|]|solve_sticky].
  1,2: unfold clamp; repeat case_if; try done; lia.
  intros command (-> & _).
  apply wp_bind; [eapply wp_mono; [by apply ref_integral_wp|]|solve_sticky]. intros i' [-> Hi'].
  wp_step fc_acc_store_wp as ? ->. wp_step fc_acc_store_wp as ? ->.
  wp_step fc_acc_store_wp as ? ->. apply wp_check_bind, wp_ret.
  unfold pid_reference. by rewrite q_gt, q_lt, Ee.
Qed.

Lemma pid_step_positive r : pid_step_work x sp m dt LINEARS_OK = Next r LINEARS_OK -> 0 < dt.
Proof.
  clear Hpos. unfold pid_step_work. rewrite bind_ok_iff by solve_sticky. intros (z & Ez & E).
  change (FC_I 0 LINEARS_OK) with (Next 0 LINEARS_OK) in Ez.
  injection Ez as <-. rewrite bind_ok_iff in E by solve_sticky. destruct E as (? & E & _).
  unfold fail_if in E. rewrite q_le in E. destruct (Z.leb_spec dt 0); done.
Qed.
End Q.

(** C1. Refinement: every successful q15 or q31 step on a reachable context has a positive period
    and computes exactly [pid_reference], the documented PID equations in unbounded integer
    arithmetic with one rounding per product and quotient; the period cache, the overflow checks
    and the commit order leave no trace in the result. *)
Theorem pid_step_refines (f : q_format) sx so px po (x : pid Z Z) s m dt o x' o' :
  @pid_reach Z Z (fcq f) (fcq_laws f) x -> q_repr f s -> q_repr f m -> q_repr f dt ->
  @pid_step Z Z (fcq f) sx so (Some (px, x)) s m dt (Some (po, o))
    = (LINEARS_OK, (Some (px, x'), Some (po, o'))) ->
  0 < fcq_field f dt /\
  (x', o') = pid_reference f x (fcq_field f s) (fcq_field f m) (fcq_field f dt).
Proof.
  intros Hreach Hs Hm Hdt E.
  destruct (@pid_reach_ok Z Z (fcq f) (fcq_laws f) (fcq_cmp_eq_law f) x Hreach) as [Hx Hf].
  pose proof (fcq_field_i64 f s Hs) as Vs. pose proof (fcq_field_i64 f m Hm) as Vm.
  pose proof (fcq_field_i64 f dt Hdt) as Vd.
  unfold pid_step in E. destruct (fc_overlap _ _ _ _); [done|]. cbv zeta in E.
  match type of E with context [run ?b (x, o)] =>
    assert (wp b (fun r => 0 < fcq_field f dt /\
      r = pid_reference f x (fcq_field f s) (fcq_field f m) (fcq_field f dt))) as Hwp end.
  { apply wp_bind; [eapply wp_mono; [by apply (fcq_load_wp f)|intros ? [-> _]]|solve_sticky].
    apply wp_bind; [eapply wp_mono; [by apply (fcq_load_wp f)|intros ? [-> _]]|solve_sticky].
    apply wp_bind; [eapply wp_mono; [by apply (fcq_load_wp f)|intros ? [-> _]]|solve_sticky].
    apply wp_check_bind, wp_assign. intros Hok.
    pose proof (@pid_step_work_wp Z Z (fcq f) (fcq_laws f) x _ _ _ Hx Vs Vm Vd) as Hwork.
    apply (run_ok_eq _ _ _ Hwork) in Hok. clear Hwork.
    pose proof (pid_step_positive f x _ _ _ _ Hok) as Hpos. split; [done|].
    rewrite (@pid_step_forget Z Z (fcq f) (fcq_laws f) (fcq_cmp_eq_law f) x 0) in Hok by done.
    pose proof (pid_reference_wp f x _ _ _ Hx Vs Vm Vd Hpos) as Hr. unfold wp, q_arith in Hr.
    rewrite Hok in Hr. by apply Hr. }
  apply (run_ok _ _ (x, o)) in Hwp; [|by injection E]. cbn [fst snd] in Hwp.
  injection E as _ <- <-. destruct Hwp as [Hpos <-]. split; [done|]. by destruct (run _ _).2.
Qed.

(** ** Witnesses: a q31 controller with derivative filter *)

Section Witnesses.
#[local] Instance q31_arith : FcArith Z Z := fcq Q31.
#[local] Instance q31_laws : FcLaws Z Z := fcq_laws Q31.
#[local] Instance q31_eq : FcCmpEq Z Z := fcq_cmp_eq_law Q31.

Definition sample_config : pid_config Z Z :=
  mk_pid_config 2147483648 1073741824 4294967296 (-1073741824) 1073741824 0 0
    2147483648 0 0 0 0.
Definition sample_pid : pid Z Z := mk_pid sample_config 0 0 0 0 0 0 0 0 0.
Definition sample_output : pid_output Z Z := mk_pid_output 0 0 0 0 false.

Lemma sample_reach : pid_reach sample_pid.
Proof.
  apply (reach_init sample_pid sample_config 0); [|cbn; rlia|by vm_compute].
  unfold config_repr; cbn; rlia.
Qed.

(** The first step, saturated at the upper limit. *)
Definition sample_step :=
  pid_step 1000 100 (Some (4096, sample_pid)) 1610612736 0 214748365 (Some (8192, sample_output)).
Definition sample_next : pid Z Z * pid_output Z Z :=
  match sample_step with
  | (_, (Some (_, x), Some (_, o))) => (x, o)
  | _ => (sample_pid, sample_output)
  end.

Lemma sample_step_ok :
  sample_step = (LINEARS_OK, (Some (4096, sample_next.1), Some (8192, sample_next.2))).
Proof. by vm_compute. Qed.



Lemma pid_cache_transparent_witness :
  pid_step_work sample_pid 1610612736 0 214748365 LINEARS_OK = Next sample_next LINEARS_OK /\
  pid_step_work (forget_cache 0 sample_pid) 1610612736 0 214748365 LINEARS_OK = Next sample_next LINEARS_OK.
Proof.
  assert (pid_step_work sample_pid 1610612736 0 214748365 LINEARS_OK = Next sample_next LINEARS_OK)
    as H by by vm_compute.
  split; [exact H|].
  apply (pid_cache_transparent sample_pid 0 1610612736 0 214748365 sample_next sample_reach
    eq_refl ltac:(cbn; rlia) ltac:(cbn; rlia) ltac:(cbn; rlia) ltac:(cbn; rlia)). exact H.
Defined.

Lemma pid_step_refines_witness :
  sample_next = pid_reference Q31 sample_pid 1610612736 0 214748365 /\
  pid_saturated sample_next.2 = true.
Proof.
  destruct (pid_step_refines Q31 1000 100 4096 8192 sample_pid 1610612736 0 214748365 sample_output
    sample_next.1 sample_next.2 sample_reach ltac:(cbn; rlia) ltac:(cbn; rlia) ltac:(cbn; rlia)
    sample_step_ok) as [_ H].
  split; [exact H|vm_compute; reflexivity].
Defined.
End Witnesses.
