(* ===== verification/FcOps.v ===== *)
(** * The remaining operators of the q variants

    Stickiness of the operators that the PID does not use, as a class of its own,
    and what the q15 and q31 operators return on an OK status. *)
From S2P Require Import Prelude MachineInt Status Numeric FcMonad Cordic FcVariants FcBase FcPid FcPidQ.

Class FcSticky (T W : Type) `{FcArith T W} := {
  fc_sqrt_sticky a : sticky (FC_SQRT a);
  fc_hypot_sticky a b : sticky (FC_HYPOT a b);
  fc_rescale_sticky a n d : sticky (FC_RESCALE a n d);
  fc_wrap_sticky a : sticky (FC_WRAP a);
  fc_sincos_sticky a out : sticky (FC_SINCOS a out);
  fc_atan2_sticky a b : sticky (FC_ATAN2 a b);
  fc_angle_store_sticky w t : sticky (FC_ANGLE_STORE w t);
}.

#[export] Hint Extern 0 (sticky (FC_SQRT _)) => apply fc_sqrt_sticky : sticky.
#[export] Hint Extern 0 (sticky (FC_HYPOT _ _)) => apply fc_hypot_sticky : sticky.
#[export] Hint Extern 0 (sticky (FC_RESCALE _ _ _)) => apply fc_rescale_sticky : sticky.
#[export] Hint Extern 0 (sticky (FC_WRAP _)) => apply fc_wrap_sticky : sticky.
#[export] Hint Extern 0 (sticky (FC_SINCOS _ _)) => apply fc_sincos_sticky : sticky.
#[export] Hint Extern 0 (sticky (FC_ATAN2 _ _)) => apply fc_atan2_sticky : sticky.
#[export] Hint Extern 0 (sticky (FC_ANGLE_STORE _ _)) => apply fc_angle_store_sticky : sticky.
#[export] Hint Extern 1 (sticky (fcq_wrap _)) => apply sticky_guarded : sticky.
#[export] Hint Extern 1 (sticky (fcq15_store _ _)) => apply sticky_guarded : sticky.
#[export] Hint Extern 1 (sticky (fcq31_store _ _)) => apply sticky_guarded : sticky.
#[export] Hint Extern 1 (sticky (fcq31_load _)) => apply sticky_guarded : sticky.
#[export] Hint Extern 1 (sticky (fcq_i _)) => apply sticky_guarded : sticky.
#[export] Hint Extern 1 (sticky (fcq_abs _)) => apply sticky_guarded : sticky.
#[export] Hint Extern 1 (sticky (fcq_add _ _)) => apply sticky_guarded : sticky.
#[export] Hint Extern 1 (sticky (fcq_mul _ _)) => apply sticky_guarded : sticky.
#[export] Hint Extern 1 (sticky (fcq_div _ _)) => apply sticky_guarded : sticky.
#[export] Hint Extern 1 (sticky (fcq_sqrt _)) => apply sticky_guarded : sticky.
#[export] Hint Extern 1 (sticky (store _)) => (unfold store) : sticky.
#[export] Hint Extern 1 (sticky (acc_store _)) => (unfold acc_store) : sticky.
#[export] Hint Extern 1 (sticky (FC_RATIO _ _)) => (unfold FC_RATIO) : sticky.

#[export] Instance fcq_sticky (f : q_format) : @FcSticky Z Z (fcq f).
Proof.
  constructor; cbn [FC_SQRT FC_HYPOT FC_RESCALE FC_WRAP FC_SINCOS FC_ATAN2 FC_ANGLE_STORE fcq]; intros;
    try apply sticky_guarded.
  - unfold fcq_hypot. solve_sticky.
  - apply fcq_sincos_sticky.
  - apply fcq_atan2_sticky.
  - unfold fcq_angle_store. destruct f; solve_sticky.
Qed.

(** The next operation by its lemma; stickiness of the rest is discharged. *)
Tactic Notation "wp_call" uconstr(lem) "as" simple_intropattern(x) simple_intropattern(pat) :=
  apply wp_bind; [eapply wp_mono; [by apply lem|intros x pat]|intros; solve_sticky].

(** Commands that test the status before they go on: they never continue with an error, so nothing
    is asked of what follows. *)
Definition settled {A} (m : fc A) : Prop := forall s, match m s with Next _ s' => s' = LINEARS_OK | Return _ => True end.

Section Settled.
Context {A B : Type}.

Lemma wp_bind_settled (m : fc A) (k : A -> fc B) Q : settled m -> wp m (fun a => wp (k a) Q) -> wp (m ≫= k) Q.
Proof.
  intros Hs Hm. specialize (Hs LINEARS_OK). unfold wp, mbind, fc_bind in *. destruct (m LINEARS_OK) as [a s|s]; [|done].
  subst s. by apply Hm.
Qed.

(** Nor of what follows a command that cannot fail. *)
Lemma wp_bind_total (m : fc A) (k : A -> fc B) (P : A -> Prop) Q :
  total m P -> (forall a, P a -> wp (k a) Q) -> wp (m ≫= k) Q.
Proof. intros (a & E & Ha) Hk. specialize (Hk a Ha). unfold wp, mbind, fc_bind in *. by rewrite E. Qed.

Lemma settled_bind (m : fc A) (k : A -> fc B) : (forall a, settled (k a)) -> settled (m ≫= k).
Proof. intros Hk s. unfold mbind, fc_bind. destruct (m s); [apply Hk|done]. Qed.

Lemma settled_ret_bind (m : fc A) (g : A -> B) : settled m -> settled (a ← m; mret (g a)).
Proof. intros Hm s. specialize (Hm s). unfold mbind, fc_bind. by destruct (m s). Qed.

Lemma settled_if (b : bool) (m1 m2 : fc A) : settled m1 -> settled m2 -> settled (if b then m1 else m2).
Proof. by destruct b. Qed.

Lemma settled_check_ret (v : A) : settled (check;; mret v).
Proof. intros s. unfold mbind, fc_bind, check. by destruct s. Qed.
End Settled.

Lemma wp_fail_if_bind {B} c e (m : fc B) Q : e <> LINEARS_OK -> (c = false -> wp m Q) -> wp (fail_if c e;; m) Q.
Proof. intros He Hm. unfold wp, mbind, fc_bind, fail_if. destruct c; [done|]. by apply Hm. Qed.

(** A computation that only ends with an error when it records one. *)
Lemma wp_any {A} (m : fc A) (Q : A -> Prop) : wp m Q -> wp m (fun _ => True).
Proof. intros Hm. by eapply wp_mono. Qed.

Section Q.
Variable f : q_format.

#[local] Instance ops_arith : FcArith Z Z := fcq f.
#[local] Instance ops_laws : FcLaws Z Z := fcq_laws f.
#[local] Instance ops_sticky : FcSticky Z Z := fcq_sticky f.

Lemma q_i n : -4294967296 <= n <= 4294967295 -> wp (FC_I n) (fun r => r = n * LINEARS_FIXED_ONE /\ is_i64 r).
Proof.
  intros Hn. destruct (fcq_i_total n Hn) as (r & E & ->). unfold wp. cbn [FC_I ops_arith fcq]. rewrite E.
  intros _. split; [done|]. unfold LINEARS_FIXED_ONE. rlia.
Qed.

Lemma q_load t : q_repr f t -> wp (FC_LOAD t) (fun r => r = fcq_field f t /\ is_i64 r).
Proof. apply fcq_load_wp. Qed.

Lemma q_neg a : is_i64 a -> wp (FC_NEG a) (fun r => r = - a /\ is_i64 r).
Proof. intros. by apply fcq_call_wp, (fcq_neg_eq a a). Qed.

Lemma q_rescale a n d : is_i64 a -> is_i64 n -> is_i64 d -> d <> 0 ->
  wp (FC_RESCALE a n d) (fun r => r = div_nearest (a * n) d /\ is_i64 r).
Proof. intros. by apply fcq_call_wp, fcq_muldiv_eq. Qed.

Lemma q_acc_load w : is_i64 w -> wp (FC_ACC_LOAD w) (fun r => r = w /\ is_i64 r).
Proof. intros Hw. eapply wp_mono; [by apply fc_acc_load_wp|]. by intros ? [-> _]. Qed.

Lemma q_rescale_any a n d : is_i64 a -> is_i64 n -> is_i64 d ->
  wp (FC_RESCALE a n d) (fun r => d <> 0 /\ r = div_nearest (a * n) d /\ is_i64 r).
Proof.
  intros Ha Hn Hd. destruct (Z.eqb_spec d 0) as [->|Hz].
  - apply wp_guarded. rewrite linears_fixed_muldiv_exact by done. done.
  - eapply wp_mono; [by apply q_rescale|]. by intros ? [].
Qed.

Lemma q_ratio n d : -4294967296 <= n <= 4294967295 -> 0 < d <= 4294967295 ->
  wp (FC_RATIO n d) (fun r => r = div_nearest (n * LINEARS_FIXED_ONE) d /\ is_i64 r).
Proof.
  intros Hn Hd. unfold FC_RATIO. apply wp_lift2; [|solve_sticky|solve_sticky].
  eapply wp_mono; [by apply q_i|]. intros a [-> Ha].
  eapply wp_mono; [by apply q_i; lia|]. intros b [-> Hb].
  eapply wp_mono; [apply q_div; try done; unfold LINEARS_FIXED_ONE; lia|]. intros r [-> Hr]. split; [|done].
  unfold rdiv. apply div_nearest_cancel; [lia|done].
Qed.

(** A stored value is the value rounded to the signal format. *)
Lemma q_store w : is_i64 w -> wp (store w) (fun t => t = q_round f w /\ q_repr f t /\
  - LINEARS_FIXED_ONE <= w <= LINEARS_FIXED_ONE).
Proof.
  intros Hw. unfold wp, store. cbn [FC_STORE ops_arith fcq]. rewrite fcq_store_eq by done.
  destruct (in_unit_interval w LINEARS_FIXED_ONE) eqn:E; [|done]. intros _.
  apply andb_true_iff in E. rewrite !Z.leb_le in E. split; [done|]. split; [by apply q_round_repr|lia].
Qed.

Lemma q_sqrt a : is_i64 a -> wp (FC_SQRT a) (fun r => is_i64 r /\ 0 <= r).
Proof.
  intros Ha. apply wp_guarded. destruct (linears_fixed_sqrt_exact a 0 Ha) as [Hneg Hpos].
  destruct (Z.ltb_spec a 0); [by rewrite Hneg|]. destruct (Hpos ltac:(lia)) as (r & -> & Hr & H0 & _). done.
Qed.

(** The scaled root of the squares is a working value. *)
Lemma q_hypot a b : is_i64 a -> is_i64 b -> wp (FC_HYPOT a b) is_i64.
Proof.
  intros Ha Hb. cbn [FC_HYPOT ops_arith fcq]. unfold fcq_hypot.
  wp_call (q_abs f a) as aa [Eaa Haa]. wp_call (q_abs f b) as bb [Ebb Hbb]. cbv zeta.
  set (hi := if 0 <=? fcq_cmp aa bb then aa else bb). set (lo := if 0 <=? fcq_cmp aa bb then bb else aa).
  assert (is_i64 hi /\ is_i64 lo) as [Hhi Hlo] by (unfold hi, lo; by case_if).
  apply wp_quit_if; [intros _; rlia|intros _].
  wp_call (fcq_div_wp lo hi) as ratio Hr. wp_call (q_mul f ratio ratio) as sq [Es Hs].
  wp_call (q_add f LINEARS_FIXED_ONE sq) as sum [Eu Hu].
  wp_call (q_sqrt sum) as root [Ho _].
  eapply wp_mono; [by apply (q_mul f hi root)|]. by intros ? [].
Qed.
End Q.
