(* ===== verification/FcTransforms.v ===== *)
(** * The rotating frame: park and inverse_park

    With a sine and a cosine within two units of the unit circle and one rounding
    per product and store, rotating a vector into the rotor frame and back is the
    identity up to three signal units. *)
From S2P Require Import Prelude MachineInt Status Numeric FcMonad Cordic FcVariants FcBase FcPid FcPidQ FcOps.

(** One signal unit in F31. *)
Definition unit_of (f : q_format) : Z := 2 ^ (31 - q_bits f).

Lemma unit_of_range f : 1 <= unit_of f <= 65536.
Proof. by destruct f. Qed.

Lemma rmul_error a b : Z.abs (rmul a b * LINEARS_FIXED_ONE - a * b) * 2 <= LINEARS_FIXED_ONE.
Proof. unfold rmul. pose proof (div_nearest_error (a * b) LINEARS_FIXED_ONE ltac:(done)). lia. Qed.

(** A stored value reads back within one unit. *)
Lemma q_round_error f w : - LINEARS_FIXED_ONE <= w <= LINEARS_FIXED_ONE ->
  Z.abs (fcq_field f (q_round f w) - w) <= unit_of f.
Proof.
  intros Hw. pose proof (q_round_repr f w Hw) as Hr. unfold LINEARS_FIXED_ONE in Hw.
  unfold fcq_field, unit_of, q_round, endpoint, linears_fixed_from_q15, linears_fixed_from_q31 in *.
  destruct f; cbn [q_bits q_repr] in *.
  - rewrite i64_id by rlia. change (2 ^ (31 - 15)) with 65536. change (2 ^ 15) with 32768 in *.
    pose proof (div_nearest_error w 65536 ltac:(lia)). revert Hr. case_if; intros; lia.
  - change (2 ^ (31 - 31)) with 1. change (2 ^ 31) with 2147483648 in *. case_if; lia.
Qed.

(** The error of a rotation and its inverse: products rounded (f, g), stores (e), and the circle (n). *)
Lemma rotation_error delta g f1 f2 e1 e2 x y v n u : let O := LINEARS_FIXED_ONE in
  O * O * delta = O * g + f1 * x + f2 * y + O * (e1 * x + e2 * y) + v * n ->
  Z.abs x <= O -> Z.abs y <= O -> Z.abs v <= O -> Z.abs n <= 4 * O + 4 ->
  Z.abs g <= O -> Z.abs f1 <= O -> Z.abs f2 <= O -> Z.abs e1 <= u -> Z.abs e2 <= u ->
  Z.abs delta <= 2 * u + 8.
Proof.
  intros O E Hx Hy Hv Hn Hg H1 H2 He1 He2.
  assert (forall a b A B, Z.abs a <= A -> Z.abs b <= B -> Z.abs (a * b) <= A * B) as Hm.
  { intros a b A B Ha Hb. rewrite Z.abs_mul. apply Z.mul_le_mono_nonneg; lia. }
  pose proof (Hm _ _ _ _ H1 Hx) as P1. pose proof (Hm _ _ _ _ H2 Hy) as P2.
  pose proof (Hm _ _ _ _ He1 Hx) as P3. pose proof (Hm _ _ _ _ He2 Hy) as P4.
  pose proof (Hm _ _ _ _ Hv Hn) as P5. clear Hm Hx Hy Hv Hn H1 H2 He1 He2.
  rewrite Z.abs_le in *. subst O. unfold LINEARS_FIXED_ONE in *. lia.
Qed.

Section Rotation.
Variable f : q_format.

#[local] Instance t_arith : FcArith Z Z := fcq f.
#[local] Instance t_laws : FcLaws Z Z := fcq_laws f.
#[local] Instance t_sticky : FcSticky Z Z := fcq_sticky f.

(** The next operation, which cannot fail. *)
Tactic Notation "total_call" uconstr(lem) "as" simple_intropattern(x) simple_intropattern(pat) :=
  apply total_bind; eapply total_mono; [by apply lem|intros x pat].

(** ** The operators on the unit interval never fail *)

Definition within (x : Z) : Prop := Z.abs x <= LINEARS_FIXED_ONE.

Lemma within_i64 x : within x -> is_i64 x.
Proof. unfold within, LINEARS_FIXED_ONE. intros. rlia. Qed.

Lemma field_within t : q_repr f t -> within (fcq_field f t).
Proof. intros Ht%fcq_field_range. unfold within. lia. Qed.

Lemma rmul_within x y : within x -> within y -> within (rmul x y).
Proof.
  unfold within. intros Hx Hy. pose proof (rmul_error x y) as He.
  assert (Z.abs (x * y) <= LINEARS_FIXED_ONE * LINEARS_FIXED_ONE) as Hp
    by (rewrite Z.abs_mul; apply Z.mul_le_mono_nonneg; lia).
  unfold LINEARS_FIXED_ONE in *. lia.
Qed.

Lemma total_mul x y : within x -> within y -> total (FC_MUL x y) (fun r => r = rmul x y).
Proof.
  intros Hx Hy. pose proof (within_i64 _ (rmul_within x y Hx Hy)).
  eapply fcq_call_total; [apply linears_fixed_mul_exact; by apply within_i64|done].
Qed.

Lemma total_store w : within w -> total (store w) (fun t => t = q_round f w).
Proof.
  intros Hw. exists (q_round f w). split; [|done]. unfold store. cbn [FC_STORE t_arith fcq].
  rewrite fcq_store_eq by (by apply within_i64). unfold in_unit_interval. unfold within in Hw.
  by rewrite (proj2 (Z.leb_le _ _)), (proj2 (Z.leb_le _ _)) by lia.
Qed.

Lemma total_i n : -4294967296 <= n <= 4294967295 -> total (FC_I n) (fun _ => True).
Proof. intros Hn. eapply total_mono; [by apply fcq_i_total|done]. Qed.

Lemma total_load t : q_repr f t -> total (FC_LOAD t) (fun r => r = fcq_field f t).
Proof. apply fcq_load_total. Qed.

Lemma total_lift2 {A B C} (op : A -> B -> fc C) x y Q :
  total x (fun a => total y (fun b => total (op a b) Q)) -> total (lift2 op x y) Q.
Proof. intros H. unfold lift2. by apply total_bind, (total_mono _ _ _ H); intros; apply total_bind. Qed.

Lemma total_lift1 {A C} (op : A -> fc C) x Q : total x (fun a => total (op a) Q) -> total (lift1 op x) Q.
Proof. intros H. unfold lift1. by apply total_bind. Qed.

(** x c + y s and x c - y s of a unit pair, stored. *)
Lemma total_plus x y c s : within x -> within y -> within c -> within s -> within (rmul x c + rmul y s) ->
  total (lift1 store (lift2 FC_ADD (FC_MUL x c) (FC_MUL y s))) (fun t => t = q_round f (rmul x c + rmul y s)).
Proof.
  intros Hx Hy Hc Hs Hw. apply total_lift1, total_lift2.
  eapply total_mono; [by apply total_mul|]. intros a ->. eapply total_mono; [by apply total_mul|]. intros b ->.
  eapply total_mono; [eapply fcq_call_total; [apply fcq_add_eq; by apply within_i64, rmul_within|by apply within_i64]|].
  intros r ->. by apply total_store.
Qed.

Lemma total_minus x y c s : within x -> within y -> within c -> within s -> within (rmul x c - rmul y s) ->
  total (lift1 store (lift2 FC_SUB (FC_MUL x c) (FC_MUL y s))) (fun t => t = q_round f (rmul x c - rmul y s)).
Proof.
  intros Hx Hy Hc Hs Hw. apply total_lift1, total_lift2.
  eapply total_mono; [by apply total_mul|]. intros a ->. eapply total_mono; [by apply total_mul|]. intros b ->.
  eapply total_mono; [eapply fcq_call_total; [apply fcq_sub_eq; by apply within_i64, rmul_within|by apply within_i64]|].
  intros r ->. by apply total_store.
Qed.

(** ** The two transforms *)

Definition rotor (x : ab Z) (s c : Z) : dq Z :=
  let a := fcq_field f (alpha x) in let b := fcq_field f (beta x) in
  mk_dq (q_round f (rmul a c + rmul b s)) (q_round f (rmul b c - rmul a s)).
Definition stator (x : dq Z) (s c : Z) : ab Z :=
  let d := fcq_field f (dq_d x) in let q := fcq_field f (dq_q x) in
  mk_ab (q_round f (rmul d c - rmul q s)) (q_round f (rmul d s + rmul q c)).

(** The sine and the cosine of a stored angle. *)
Definition angle_sincos (angle s c : Z) : Prop :=
  forall out, fcq_sincos (fcq_field f angle) out LINEARS_OK = Next (s, c) LINEARS_OK.

Lemma angle_sincos_exists angle : q_repr f angle ->
  exists s c, angle_sincos angle s c /\ within s /\ within c /\
    Z.abs (s * s + c * c - LINEARS_FIXED_ONE * LINEARS_FIXED_ONE) <= 4 * LINEARS_FIXED_ONE + 4.
Proof.
  intros Ha. pose proof (fcq_field_i64 f angle Ha) as Hi.
  destruct (fcq_sincos_total _ (0, 0) Hi) as ([s c] & E & Hs & Hc & Hcirc). exists s, c.
  split; [intros out; rewrite fcq_sincos_eq in E |- * by done; exact E|].
  split; [exact Hs|]. split; [exact Hc|]. cbn [fst snd] in Hcirc. unfold on_circle, LINEARS_FIXED_ONE in *.
  apply Z.abs_le. lia.
Qed.

Section Angle.
Context (angle s c : Z).
Hypothesis Hangle : q_repr f angle.
Hypothesis Hsc : angle_sincos angle s c.
Hypothesis Hs : within s.
Hypothesis Hc : within c.

Lemma total_angle out : total (FC_SINCOS (fcq_field f angle) out) (fun sc => sc = (s, c)).
Proof. exists (s, c). split; [apply Hsc|done]. Qed.

Lemma park_ok x old : q_repr f (alpha x) -> q_repr f (beta x) ->
  within (rmul (fcq_field f (alpha x)) c + rmul (fcq_field f (beta x)) s) ->
  within (rmul (fcq_field f (beta x)) c - rmul (fcq_field f (alpha x)) s) ->
  park x angle (Some old) = (LINEARS_OK, Some (rotor x s c)).
Proof.
  intros Ha Hb W1 W2. pose proof (field_within _ Ha). pose proof (field_within _ Hb). unfold park, with_out.
  match goal with |- context [run ?m old] => assert (total m (fun r => r = rotor x s c)) as Ht end.
  { apply total_bind. eapply total_mono; [by apply total_i; lia|intros s0 _].
    apply total_bind. eapply total_mono; [by apply total_i; lia|intros c0 _].
    total_call total_load as ? ->.
    total_call total_load as ? ->.
    total_call total_load as ? ->.
    total_call total_angle as ? ->.
    total_call total_plus as ? ->.
    total_call total_minus as ? ->.
    by apply total_ret. }
  destruct (run_total _ _ old Ht) as (r & -> & ->). done.
Qed.

Lemma inverse_park_ok y old : q_repr f (dq_d y) -> q_repr f (dq_q y) ->
  within (rmul (fcq_field f (dq_d y)) c - rmul (fcq_field f (dq_q y)) s) ->
  within (rmul (fcq_field f (dq_d y)) s + rmul (fcq_field f (dq_q y)) c) ->
  inverse_park y angle (Some old) = (LINEARS_OK, Some (stator y s c)).
Proof.
  intros Ha Hb W1 W2. pose proof (field_within _ Ha). pose proof (field_within _ Hb). unfold inverse_park, with_out.
  match goal with |- context [run ?m old] => assert (total m (fun r => r = stator y s c)) as Ht end.
  { apply total_bind. eapply total_mono; [by apply total_i; lia|intros s0 _].
    apply total_bind. eapply total_mono; [by apply total_i; lia|intros c0 _].
    total_call total_load as ? ->.
    total_call total_load as ? ->.
    total_call total_load as ? ->.
    total_call total_angle as ? ->.
    total_call total_minus as ? ->.
    total_call total_plus as ? ->.
    by apply total_ret. }
  destruct (run_total _ _ old Ht) as (r & -> & ->). done.
Qed.
End Angle.

(** Two rounded products. *)
Lemma rotation_within x y c s : within c -> within s -> Z.abs x + Z.abs y <= LINEARS_FIXED_ONE - 1 ->
  within (rmul x c + rmul y s) /\ within (rmul x c - rmul y s).
Proof.
  intros Hc Hs Hxy. pose proof (rmul_error x c) as E1. pose proof (rmul_error y s) as E2. unfold within in *.
  assert (Z.abs (x * c) <= Z.abs x * LINEARS_FIXED_ONE) by (rewrite Z.abs_mul; apply Z.mul_le_mono_nonneg_l; lia).
  assert (Z.abs (y * s) <= Z.abs y * LINEARS_FIXED_ONE) by (rewrite Z.abs_mul; apply Z.mul_le_mono_nonneg_l; lia).
  unfold LINEARS_FIXED_ONE in *. lia.
Qed.

(** There and back, before the last store. *)
Lemma rotation_back a b s c u D Q : let O := LINEARS_FIXED_ONE in
  let d := rmul a c + rmul b s in let q := rmul b c - rmul a s in
  within s -> within c -> Z.abs (s * s + c * c - O * O) <= 4 * O + 4 -> within a -> within b ->
  Z.abs (D - d) <= u -> Z.abs (Q - q) <= u ->
  Z.abs (rmul D c - rmul Q s - a) <= 2 * u + 8 /\ Z.abs (rmul D s + rmul Q c - b) <= 2 * u + 8.
Proof.
  intros O d q Hs Hc Hn Ha Hb HD HQ. unfold within in *. fold O in Hs, Hc, Ha, Hb.
  pose proof (rmul_error a c) as E1. pose proof (rmul_error b s) as E2. pose proof (rmul_error b c) as E3.
  pose proof (rmul_error a s) as E4. pose proof (rmul_error D c) as E5. pose proof (rmul_error Q s) as E6.
  pose proof (rmul_error D s) as E7. pose proof (rmul_error Q c) as E8. fold O in E1, E2, E3, E4, E5, E6, E7, E8.
  set (f1 := d * O - (a * c + b * s)). set (f2 := q * O - (b * c - a * s)).
  assert (Z.abs f1 <= O) as H1 by (subst f1 d; clear - E1 E2; lia).
  assert (Z.abs f2 <= O) as H2 by (subst f2 q; clear - E3 E4; lia).
  split.
  - apply (rotation_error _ ((rmul D c - rmul Q s) * O - (D * c - Q * s)) f1 f2 (D - d) (Q - q) c (- s) a
      (s * s + c * c - O * O)); fold O; try done; [subst f1 f2; ring|by rewrite Z.abs_opp|clear - E5 E6; lia].
  - apply (rotation_error _ ((rmul D s + rmul Q c) * O - (D * s + Q * c)) f1 f2 (D - d) (Q - q) s c b
      (s * s + c * c - O * O)); fold O; try done; [subst f1 f2; ring|clear - E7 E8; lia].
Qed.
End Rotation.

(** C33. The rotating frame is a change of coordinates: for every angle and every stationary vector
    with |alpha| + |beta| at most one less a few units, park and inverse_park both succeed, and
    rotating into the rotor frame and back returns each coordinate within three signal units and
    eight units of 2^-31. *)
Theorem park_roundtrip (f : q_format) (x : ab Z) (angle : Z) (old : dq Z) (old' : ab Z) :
  q_repr f (alpha x) -> q_repr f (beta x) -> q_repr f angle ->
  Z.abs (fcq_field f (alpha x)) + Z.abs (fcq_field f (beta x)) <= LINEARS_FIXED_ONE - 2 * unit_of f - 8 ->
  exists r y, @park Z Z (fcq f) x angle (Some old) = (LINEARS_OK, Some r) /\
    @inverse_park Z Z (fcq f) r angle (Some old') = (LINEARS_OK, Some y) /\
    Z.abs (fcq_field f (alpha y) - fcq_field f (alpha x)) <= 3 * unit_of f + 8 /\
    Z.abs (fcq_field f (beta y) - fcq_field f (beta x)) <= 3 * unit_of f + 8.
Proof.
  intros Ha Hb Hg Hsum. pose proof (unit_of_range f) as Hu.
  destruct (angle_sincos_exists f angle Hg) as (s & c & Hsc & Hs & Hc & Hn).
  pose proof (field_within f _ Ha) as Wa. pose proof (field_within f _ Hb) as Wb.
  set (a := fcq_field f (alpha x)) in *. set (b := fcq_field f (beta x)) in *.
  destruct (rotation_within a b c s) as [W1 _]; [done|done|lia|].
  destruct (rotation_within b a c s) as [_ W2]; [done|done|lia|].
  pose proof (q_round_error f _ (proj1 (Z.abs_le _ _) W1)) as HD. pose proof (q_round_error f _ (proj1 (Z.abs_le _ _) W2)) as HQ.
  pose proof (q_round_repr f _ (proj1 (Z.abs_le _ _) W1)) as RD. pose proof (q_round_repr f _ (proj1 (Z.abs_le _ _) W2)) as RQ.
  destruct (rotation_back a b s c (unit_of f) _ _ Hs Hc Hn Wa Wb HD HQ) as [E1 E2].
  exists (rotor f x s c), (stator f (rotor f x s c) s c).
  assert (within (rmul (fcq_field f (dq_d (rotor f x s c))) c - rmul (fcq_field f (dq_q (rotor f x s c))) s)) as W3
    by (clear - E1 Hsum Hu; unfold within, rotor; cbn [dq_d dq_q]; fold a b; lia).
  assert (within (rmul (fcq_field f (dq_d (rotor f x s c))) s + rmul (fcq_field f (dq_q (rotor f x s c))) c)) as W4
    by (clear - E2 Hsum Hu; unfold within, rotor; cbn [dq_d dq_q]; fold a b; lia).
  pose proof (q_round_error f _ (proj1 (Z.abs_le _ _) W3)) as E3. pose proof (q_round_error f _ (proj1 (Z.abs_le _ _) W4)) as E4.
  split; [by apply park_ok|]. split; [by apply inverse_park_ok|].
  unfold stator. cbn [alpha beta]. unfold rotor in *. cbn [dq_d dq_q] in *. fold a b in E3, E4 |- *. clear - E1 E2 E3 E4.
  split; lia.
Qed.

Lemma park_roundtrip_witness : exists r y,
  @park Z Z (fcq Q15) (mk_ab 10000 (-9000)) 5000 (Some (mk_dq 0 0)) = (LINEARS_OK, Some r) /\
  @inverse_park Z Z (fcq Q15) r 5000 (Some (mk_ab 0 0)) = (LINEARS_OK, Some y) /\
  Z.abs (alpha y - 10000) <= 3 /\ Z.abs (beta y + 9000) <= 3.
Proof.
  destruct (park_roundtrip Q15 (mk_ab 10000 (-9000)) 5000 (mk_dq 0 0) (mk_ab 0 0)) as (r & y & E1 & E2 & _);
    [cbn; rlia..|vm_compute; discriminate|].
  exists r, y. split; [exact E1|]. split; [exact E2|].
  vm_compute in E1. injection E1 as <-. vm_compute in E2. injection E2 as <-. vm_compute. split; discriminate.
Defined.
