(* ===== verification/Svpwm.v ===== *)
(** * Space-vector modulation centres the duties

    The q15 and q31 instances of base_pwm: whatever vector is requested, the
    largest and the smallest duty add up to one, so that both zero vectors get
    the same share of the period. *)
From S2P Require Import Prelude MachineInt Status Numeric FcMonad Cordic FcVariants FcBase FcPid FcPidQ FcOps FcTransforms.

Definition min3 (p q r : Z) : Z := Z.min (Z.min p q) r.
Definition max3 (p q r : Z) : Z := Z.max (Z.max p q) r.
Definition clamp1 (x : Z) : Z := clamp x 0 LINEARS_FIXED_ONE.
Definition HALF : Z := 1073741824.

Lemma clamp1_range x : 0 <= clamp1 x <= LINEARS_FIXED_ONE.
Proof. unfold clamp1, clamp, LINEARS_FIXED_ONE. repeat case_if; lia. Qed.

(** Shifting three values so that their extremes are symmetric about one half. *)
Lemma centred p q r : let off := rmul HALF (min3 p q r + max3 p q r) in
  let d x := clamp1 (HALF + (x - off)) in
  Z.abs (min3 (d p) (d q) (d r) + max3 (d p) (d q) (d r) - LINEARS_FIXED_ONE) <= 1.
Proof.
  intros off d. set (lo := min3 p q r) in *. set (hi := max3 p q r) in *.
  assert (forall x y, x <= y -> d x <= d y) as Hm.
  { intros x y Hxy. unfold d, clamp1, clamp, LINEARS_FIXED_ONE. repeat case_if; lia. }
  assert (min3 (d p) (d q) (d r) = d lo /\ max3 (d p) (d q) (d r) = d hi) as [-> ->].
  { assert (forall x y, d (Z.min x y) = Z.min (d x) (d y)) as Hmin.
    { intros x y. destruct (Z.le_ge_cases x y) as [Hxy|Hxy]; pose proof (Hm _ _ Hxy); (rewrite !Z.min_l by lia) || (rewrite !Z.min_r by lia); done. }
    assert (forall x y, d (Z.max x y) = Z.max (d x) (d y)) as Hmax.
    { intros x y. destruct (Z.le_ge_cases x y) as [Hxy|Hxy]; pose proof (Hm _ _ Hxy); (rewrite !Z.max_r by lia) || (rewrite !Z.max_l by lia); done. }
    unfold lo, hi, min3, max3. by rewrite !Hmin, !Hmax. }
  pose proof (rmul_error HALF (lo + hi)) as He. fold off in He.
  assert (lo <= hi) by (unfold lo, hi, min3, max3; lia).
  assert (Z.abs (2 * off - (lo + hi)) <= 1) as Ho by (clear - He; unfold HALF, LINEARS_FIXED_ONE in *; lia).
  clearbody lo hi off. clear He Hm. unfold d, clamp1, clamp, HALF, LINEARS_FIXED_ONE. repeat case_if; lia.
Qed.

Section Pwm.
Variable f : q_format.

#[local] Instance p_arith : FcArith Z Z := fcq f.
#[local] Instance p_laws : FcLaws Z Z := fcq_laws f.
#[local] Instance p_sticky : FcSticky Z Z := fcq_sticky f.

Lemma base_limit_wp a b limit out : is_i64 a -> is_i64 b -> is_i64 limit ->
  (base_limit a b limit out).1 = LINEARS_OK -> is_i64 (base_limit a b limit out).2.1 /\ is_i64 (base_limit a b limit out).2.2.
Proof.
  intros Ha Hb Hl. unfold base_limit.
  match goal with |- context [run ?m out] => assert (wp m (fun r => is_i64 r.1 /\ is_i64 r.2)) as Hwp end.
  { wp_call (q_hypot f) as m Hm. apply wp_check_bind. case_if; [|by apply wp_ret].
    wp_call (q_rescale_any f) as a' (_ & _ & Ha'). wp_call (q_rescale_any f) as b' (_ & _ & Hb'). by apply wp_ret. }
  intros E. exact (run_ok _ _ out Hwp E).
Qed.

Lemma fc_min_eq x y : fc_min x y = Z.min x y.
Proof. unfold fc_min. rewrite (q_lt f). case_if; lia. Qed.
Lemma fc_max_eq x y : fc_max x y = Z.max x y.
Proof. unfold fc_max. rewrite (q_gt f). case_if; lia. Qed.

(** The stored duties of three phase values. *)
Definition duties (p q r : Z) : abc Z :=
  let off := rmul HALF (min3 p q r + max3 p q r) in
  let d x := q_round f (clamp1 (HALF + (x - off))) in mk_abc (d p) (d q) (d r).

Lemma centred_duty_wp x off : is_i64 x -> is_i64 off ->
  wp (lift2 FC_ADD (mret HALF) (FC_SUB x off)) (fun d => d = HALF + (x - off) /\ is_i64 d).
Proof.
  intros Hx Ho. apply wp_lift2; [apply wp_ret|solve_sticky|solve_sticky].
  eapply wp_mono; [by apply (q_sub f)|]. intros y [-> Hy]. apply (q_add f); [unfold HALF; rlia|done].
Qed.

Lemma scaled_wp m : (forall Q, (forall y, is_i64 y -> Q y) -> wp m Q) -> sticky m ->
  wp (lift2 FC_MUL (mret HALF) m) is_i64.
Proof.
  intros Hm Hst. apply wp_lift2; [apply wp_ret, Hm|done|solve_sticky]. intros y Hy.
  eapply wp_mono; [apply (q_mul f); [unfold HALF; rlia|done]|]. by intros ? [].
Qed.

Lemma base_pwm_wp a b bus out : is_i64 a -> is_i64 b -> is_i64 bus ->
  (base_pwm a b bus out).1 = LINEARS_OK -> exists p q r, (base_pwm a b bus out).2 = duties p q r.
Proof.
  intros Ha Hb Hbus. unfold base_pwm.
  match goal with |- context [run ?m out] => assert (wp m (fun d => exists p q r, d = duties p q r)) as Hwp end.
  { apply wp_bind; [apply wp_lift1; [|solve_sticky]|solve_sticky].
    eapply wp_mono; [apply (q_i f); lia|]. intros three [_ H3]. eapply wp_mono; [by apply (q_sqrt f)|]. intros root [Hroot _].
    apply wp_bind; [apply wp_lift2; [|solve_sticky|solve_sticky]|solve_sticky].
    eapply wp_mono; [apply (q_i f); lia|]. intros one [_ H1]. apply wp_ret.
    eapply wp_mono; [by apply fcq_div_wp|]. intros limit Hlimit.
    apply wp_bind; [eapply wp_mono; [apply (q_ratio f 1 2); lia|intros half [Eh _]]|solve_sticky].
    change (div_nearest (1 * LINEARS_FIXED_ONE) 2) with HALF in Eh. subst half.
    wp_call (q_abs f) as aa [-> Haa]. wp_call (q_abs f) as bb [-> Hbb]. cbv zeta.
    assert (forall (c1 c2 : bool), is_i64 (if c2 then bus else if c1 then Z.abs a else Z.abs b)) as Hscale
      by (intros; by repeat case_if).
    wp_call fcq_div_wp as a' Ha'. wp_call fcq_div_wp as b' Hb'. apply wp_check_bind.
    apply wp_bind; [apply wp_assign|solve_sticky]. intros El.
    destruct (base_limit_wp a' b' limit (a', b') Ha' Hb' Hlimit El) as [Hp Hbl].
    set (v := (base_limit a' b' limit (a', b')).2) in *. clearbody v. destruct v as [p bl]. cbn [fst snd] in Hp, Hbl.
    cbv beta iota zeta.
    apply wp_bind; [eapply wp_mono; [apply scaled_wp; [|solve_sticky]|]|solve_sticky].
    { intros Q HQ. apply wp_lift2; [|solve_sticky|solve_sticky]. eapply wp_mono; [by apply (q_mul f)|]. intros y [_ Hy].
      apply wp_ret. eapply wp_mono; [by apply (q_sub f)|]. intros z [_ Hz]. by apply HQ. }
    intros q Hq. apply wp_bind; [eapply wp_mono; [apply scaled_wp; [|solve_sticky]|]|solve_sticky].
    { intros Q HQ. apply wp_lift1; [|solve_sticky]. apply wp_lift2; [apply wp_ret|solve_sticky|solve_sticky].
      eapply wp_mono; [by apply (q_mul f)|]. intros y [_ Hy]. eapply wp_mono; [by apply (q_add f)|]. intros z [_ Hz].
      eapply wp_mono; [by apply (q_neg f)|]. intros w [_ Hw]. by apply HQ. }
    intros r Hr. cbv zeta. rewrite !fc_min_eq, !fc_max_eq. fold (min3 p q r) (max3 p q r).
    assert (is_i64 (min3 p q r) /\ is_i64 (max3 p q r)) as [Hmin Hmax] by (unfold min3, max3, is_i64 in *; lia).
    apply wp_bind; [apply wp_lift2; [apply wp_ret|solve_sticky|solve_sticky]|solve_sticky].
    eapply wp_mono; [by apply (q_add f)|]. intros ex [-> Hex].
    eapply wp_mono; [apply (q_mul f); [unfold HALF; rlia|done]|]. intros off [Eoff Hoff].
    wp_call centred_duty_wp as dp [Edp Hdp]. wp_call centred_duty_wp as dq' [Edq Hdq]. wp_call centred_duty_wp as dr [Edr Hdr].
    apply wp_bind; [eapply wp_mono; [apply (q_i f); lia|intros zero [-> _]]|solve_sticky]. rewrite Z.mul_0_l.
    apply wp_bind; [eapply wp_mono; [apply (q_i f); lia|intros one' [-> _]]|solve_sticky]. rewrite Z.mul_1_l.
    rewrite !(q_clamp f). fold (clamp1 dp) (clamp1 dq') (clamp1 dr).
    assert (forall x, is_i64 (clamp1 x)) as Hcl by (intros x; pose proof (clamp1_range x); unfold LINEARS_FIXED_ONE in *; rlia).
    wp_call (q_store f) as sp [-> _]. wp_call (q_store f) as sq [-> _]. wp_call (q_store f) as sr [-> _].
    apply wp_ret. exists p, q, r. unfold duties. by rewrite Edp, Edq, Edr, Eoff. }
  intros E. exact (run_ok _ _ out Hwp E).
Qed.

(** The duties read back within a unit each of three values whose extremes add up to one. *)
Lemma duties_centred p q r : let d := duties p q r in
  let x := fcq_field f (abc_a d) in let y := fcq_field f (abc_b d) in let z := fcq_field f (abc_c d) in
  0 <= x <= LINEARS_FIXED_ONE /\ 0 <= y <= LINEARS_FIXED_ONE /\ 0 <= z <= LINEARS_FIXED_ONE /\
  Z.abs (min3 x y z + max3 x y z - LINEARS_FIXED_ONE) <= 2 * unit_of f + 1.
Proof.
  unfold duties. cbn [abc_a abc_b abc_c]. pose proof (centred p q r) as Hc. cbv zeta in Hc |- *.
  set (off := rmul HALF (min3 p q r + max3 p q r)) in *.
  assert (forall v, 0 <= fcq_field f (q_round f (clamp1 v)) <= LINEARS_FIXED_ONE /\
    Z.abs (fcq_field f (q_round f (clamp1 v)) - clamp1 v) <= unit_of f) as Hd.
  { intros v. pose proof (clamp1_range v) as Hv. split; [|apply q_round_error; lia].
    pose proof (q_round_repr f (clamp1 v) ltac:(lia)) as Hr. split; [|apply fcq_field_range in Hr; lia].
    assert (q_repr f 0) as R0 by (destruct f; cbn; rlia).
    pose proof (q_round_mono f 0 (clamp1 v) ltac:(lia)) as Hmono.
    assert (q_round f 0 = 0) as E0 by (by destruct f). rewrite E0 in Hmono.
    apply (fcq_field_mono f 0 _ R0 Hr) in Hmono. assert (fcq_field f 0 = 0) as E1 by (by destruct f). lia. }
  destruct (Hd (HALF + (p - off))) as [P1 P2]. destruct (Hd (HALF + (q - off))) as [Q1 Q2].
  destruct (Hd (HALF + (r - off))) as [R1 R2]. split; [done|]. split; [done|]. split; [done|].
  clear - Hc P2 Q2 R2. unfold min3, max3 in *. lia.
Qed.
End Pwm.

(** Space-vector modulation never leaves the linear range unbalanced: whatever the voltage and the
    bus, a successful call returns three duties in [0, 1] whose smallest and largest add up to one
    within two signal units, so the two zero vectors share the period equally; a failing call leaves
    the destination. *)
Theorem svpwm_centred (f : q_format) (v : ab Z) (bus : Z) (old : abc Z) :
  q_repr f (alpha v) -> q_repr f (beta v) -> q_repr f bus ->
  exists st d, @svpwm Z Z (fcq f) v bus (Some old) = (st, Some d) /\
  (st <> LINEARS_OK -> d = old) /\
  (st = LINEARS_OK -> 0 < fcq_field f bus /\
    let x := fcq_field f (abc_a d) in let y := fcq_field f (abc_b d) in let z := fcq_field f (abc_c d) in
    0 <= x <= LINEARS_FIXED_ONE /\ 0 <= y <= LINEARS_FIXED_ONE /\ 0 <= z <= LINEARS_FIXED_ONE /\
    Z.abs (min3 x y z + max3 x y z - LINEARS_FIXED_ONE) <= 2 * unit_of f + 1).
Proof.
  intros Ha Hb Hbus. unfold svpwm, with_out.
  match goal with |- context [run ?m old] =>
    assert (wp m (fun d => 0 < fcq_field f bus /\ exists p q r, d = duties f p q r)) as Hwp end.
  { apply wp_bind; [eapply wp_mono; [by apply (q_load f)|intros a [-> Hia]]|solve_sticky].
    apply wp_bind; [eapply wp_mono; [by apply (q_load f)|intros b [-> Hib]]|solve_sticky].
    apply wp_bind; [eapply wp_mono; [by apply (q_load f)|intros bu [-> Hibu]]|solve_sticky].
    apply wp_check_bind.
    eapply wp_bind_total; [apply fcq_i_total; lia|]. intros zero ->. rewrite Z.mul_0_l. apply wp_fail_if_bind; [done|]. rewrite (q_le f). intros Hc. zbool.
    apply wp_assign. intros El. split; [done|]. by apply (base_pwm_wp f) in El. }
  destruct (run_cases _ old _ Hwp) as [[Er Hs]|(r & Er & Hpos & p & q & s & ->)]; rewrite Er.
  - eexists _, old. split; [reflexivity|]. split; [done|]. intros E. by destruct (Hs E).
  - eexists _, _. split; [reflexivity|]. split; [done|]. intros _. split; [done|]. apply duties_centred.
Qed.

(** Full voltage at 30 degrees on a full bus: leg c rests at zero, legs a and b at one. *)
Lemma svpwm_centred_witness : exists d,
  @svpwm Z Z (fcq Q15) (mk_ab 16384 9459) 32767 (Some (mk_abc 7 7 7)) = (LINEARS_OK, Some d) /\
  Z.abs (min3 (abc_a d) (abc_b d) (abc_c d) + max3 (abc_a d) (abc_b d) (abc_c d) - 32768) <= 2.
Proof.
  destruct (svpwm_centred Q15 (mk_ab 16384 9459) 32767 (mk_abc 7 7 7)) as (st & d & E & _ & H); [cbn; rlia..|].
  vm_compute in E. injection E as <- <-. destruct (H eq_refl) as [_ Hd]. clear H.
  eexists. split; [vm_compute; reflexivity|]. vm_compute. discriminate.
Defined.
