(* ===== verification/Dtc.v ===== *)
(** * Direct torque control: libs/fieldctrl/src/dtc_impl.h and dtc.c

    The switching table, the zero-vector rule, the sector classifier, the two
    hysteresis comparators and the flux integrator, generic in the arithmetic. *)
From S2P Require Import Prelude MachineInt Status FcMonad Numeric Cordic FcVariants FcBase.

(** ** dtc.c *)

(** Indexed by [flux decrease/increase][torque decrease/increase][sector 1..6]. *)
Definition dtc_active_table : list (list (list Z)) :=
  [[[1; 5; 4; 6; 2; 3]; [2; 3; 1; 5; 4; 6]];
   [[5; 4; 6; 2; 3; 1]; [6; 2; 3; 1; 5; 4]]].

Definition active_switch (flux_up torque_up : bool) (sector : Z) : Z :=
  nth (Z.to_nat (sector - 1)) (nth (Nat.b2n torque_up) (nth (Nat.b2n flux_up) dtc_active_table []) []) 0.

Definition dtc_zero_state (previous : Z) : Z :=
  let ones := Z.land previous 1 + Z.land (Z.shiftr previous 1) 1 + Z.land (Z.shiftr previous 2) 1 in
  if 2 <=? ones then 7 else 0.

(** ** Data *)

Record dtc_config (T : Type) := mk_dtc_config {
  resistance : T; flux_band : T; torque_band : T; pole_pairs : Z }.
Arguments mk_dtc_config {T}. Arguments resistance {T}. Arguments flux_band {T}.
Arguments torque_band {T}. Arguments pole_pairs {T}.

Record dtc (T W : Type) := mk_dtc {
  dtc_cfg : dtc_config T; flux_alpha : W; flux_beta : W;
  flux_state : Z; torque_state : Z; last_switch : Z }.
Arguments mk_dtc {T W}. Arguments dtc_cfg {T W}. Arguments flux_alpha {T W}.
Arguments flux_beta {T W}. Arguments flux_state {T W}. Arguments torque_state {T W}.
Arguments last_switch {T W}.

Record dtc_result (T : Type) := mk_dtc_result {
  stator_flux : ab T; flux_magnitude : T; torque : T;
  sector : Z; switch_state : Z; r_flux_state : Z; r_torque_state : Z }.
Arguments mk_dtc_result {T}. Arguments stator_flux {T}. Arguments flux_magnitude {T}.
Arguments torque {T}. Arguments sector {T}. Arguments switch_state {T}.
Arguments r_flux_state {T}. Arguments r_torque_state {T}.

Section Dtc.
Context {T W : Type} `{FcArith T W}.

(** An early return: the caller's status is not written back. *)
Definition leave {A} (outer : linears_status_t) (v : A) : fc A := fun _ => Next v outer.

Definition slope_sector (sx sy slope_compare : Z) : Z :=
  if 0 <? sx then
    if 0 <? sy then (if slope_compare <? 0 then 1 else 2)
    else (if 0 <? slope_compare then 6 else 1)
  else
    if 0 <? sy then (if 0 <? slope_compare then 3 else 4)
    else (if slope_compare <? 0 then 4 else 5).

Definition dtc_sector (a b : W) : fc Z := fun outer =>
  (zero ← FC_I 0;
   let sx := FC_CMP a zero in
   let sy := FC_CMP b zero in
   if sy =? 0 then leave outer (if 0 <? sx then 1 else 4)
   else if sx =? 0 then leave outer (if 0 <? sy then 3 else 6)
   else
     abs_alpha ← FC_ABS a;
     abs_beta ← FC_ABS b;
     slope_compare ← (if 0 <=? FC_CMP abs_beta abs_alpha then mret 1
                      else
                        slope ← FC_DIV abs_beta abs_alpha;
                        threshold ← lift1 FC_SQRT (FC_I 3);
                        threshold ← lift2 FC_DIV (FC_I 1) (mret threshold);
                        mret (FC_CMP slope threshold));
     mret (slope_sector sx sy slope_compare)) outer.

Definition dtc_init (ctx : option (dtc T W)) (config : dtc_config T) (initial_flux : ab T)
    : linears_status_t * option (dtc T W) :=
  with_out ctx (run (
    r ← FC_LOAD (resistance config); fb ← FC_LOAD (flux_band config); tb ← FC_LOAD (torque_band config);
    a ← FC_LOAD (alpha initial_flux); b ← FC_LOAD (beta initial_flux);
    zero ← FC_I 0;
    check;;
    fail_if ((pole_pairs config =? 0) || (FC_CMP r zero <? 0) || (FC_CMP fb zero <=? 0) ||
             (FC_CMP tb zero <=? 0)) LINEARS_ERROR_ARGUMENT;;
    fail_if ((FC_CMP a zero =? 0) && (FC_CMP b zero =? 0)) LINEARS_ERROR_DOMAIN;;
    mret (mk_dtc config a b 1 0 0))).

(** The flux comparator. *)
Definition flux_hysteresis (error band negative_band : W) (state : Z) : Z :=
  if 0 <=? FC_CMP error band then 1
  else if FC_CMP error negative_band <=? 0 then -1
  else state.

(** The three-level torque comparator. *)
Definition torque_hysteresis (error band negative_band zero : W) (state : Z) : Z :=
  if 0 <=? FC_CMP error band then 1
  else if FC_CMP error negative_band <=? 0 then -1
  else if (state =? 1) && (0 <? FC_CMP error zero) then 1
  else if (state =? -1) && (FC_CMP error zero <? 0) then -1
  else 0.

(** One axis of the integrator: flux + dt * (voltage - resistance * current). *)
Definition integrate_flux (flux r current voltage interval : W) : fc W :=
  delta ← FC_MUL r current;
  delta ← FC_SUB voltage delta;
  delta ← FC_MUL interval delta;
  FC_ADD flux delta.

Definition dtc_step_work (ctx : dtc T W) (current applied_voltage : ab T)
    (flux_reference torque_reference dt : T) : fc (dtc T W * dtc_result T) :=
  let c := dtc_cfg ctx in
  r ← FC_LOAD (resistance c); fb ← FC_LOAD (flux_band c); tb ← FC_LOAD (torque_band c);
  flux_ref ← FC_LOAD flux_reference; torque_ref ← FC_LOAD torque_reference;
  interval ← FC_LOAD dt;
  ia ← FC_LOAD (alpha current); ib ← FC_LOAD (beta current);
  va ← FC_LOAD (alpha applied_voltage); vb ← FC_LOAD (beta applied_voltage);
  zero ← FC_I 0;
  check;;
  fail_if ((FC_CMP flux_ref fb <=? 0) || (FC_CMP interval zero <=? 0)) LINEARS_ERROR_ARGUMENT;;
  a ← integrate_flux (flux_alpha ctx) r ia va interval;
  b ← integrate_flux (flux_beta ctx) r ib vb interval;
  check;;
  fail_if ((FC_CMP a zero =? 0) && (FC_CMP b zero =? 0)) LINEARS_ERROR_DOMAIN;;
  magnitude ← FC_HYPOT a b;
  cross_a ← FC_MUL a ib;
  cross_b ← FC_MUL b ia;
  torque ← FC_SUB cross_a cross_b;
  gain ← lift2 FC_MUL (FC_RATIO 3 2) (FC_I (pole_pairs c));
  torque ← FC_MUL gain torque;
  flux_error ← FC_SUB flux_ref magnitude;
  torque_error ← FC_SUB torque_ref torque;
  check;;
  negative_band ← FC_NEG fb;
  let fs := flux_hysteresis flux_error fb negative_band (flux_state ctx) in
  negative_band ← FC_NEG tb;
  let ts := torque_hysteresis torque_error tb negative_band zero (torque_state ctx) in
  sector ← dtc_sector a b;
  let switch := if ts =? 0 then dtc_zero_state (last_switch ctx)
                else active_switch (0 <? fs) (0 <? ts) sector in
  out_alpha ← store a; out_beta ← store b;
  out_magnitude ← store magnitude; out_torque ← store torque;
  check;;
  mret (mk_dtc c a b fs ts switch,
        mk_dtc_result (mk_ab out_alpha out_beta) out_magnitude out_torque sector switch fs ts).

(** Context and result are two objects of the given sizes. *)
Definition dtc_step (sizeof_dtc sizeof_result : Z) (ctx : option (Z * dtc T W))
    (current applied_voltage : ab T) (flux_reference torque_reference dt : T)
    (out : option (Z * dtc_result T)) : linears_status_t * (option (Z * dtc T W) * option (Z * dtc_result T)) :=
  match ctx, out with
  | Some (px, old), Some (po, old_out) =>
      if fc_overlap px sizeof_dtc po sizeof_result then (LINEARS_ERROR_ALIAS, (ctx, out))
      else
        let r := run (dtc_step_work old current applied_voltage flux_reference torque_reference dt)
                   (old, old_out) in
        (r.1, (Some (px, r.2.1), Some (po, r.2.2)))
  | _, _ => (LINEARS_ERROR_ARGUMENT, (ctx, out))
  end.
End Dtc.
