(* ===== verification/DtcQ.v ===== *)
(** * Direct torque control turns the flux the way the torque comparator asks

    The q15 and q31 instances of Dtc.v: the sector classifier against the signs
    and magnitudes of the flux, the switching table against the geometry of the
    inverter's six active vectors, and the invariant of the context. *)
From S2P Require Import Prelude MachineInt Status Numeric FcMonad Cordic FcVariants FcBase FcPid FcPidQ Dtc FcOps.

(** ** Geometry of the inverter

    Bit 2 of a switch word is leg a, bit 1 leg b, bit 0 leg c.  Up to a positive
    factor the stationary voltage is (2a - b - c, sqrt 3 (b - c)). *)

Definition leg (i switch : Z) : Z := Z.b2z (Z.testbit switch i).
Definition vector_alpha (switch : Z) : Z := 2 * leg 2 switch - leg 1 switch - leg 0 switch.
Definition vector_beta (switch : Z) : Z := leg 1 switch - leg 0 switch.

(** The sign of sqrt 3 p - q: x |x| is increasing, so the signed squares compare alike. *)
Definition sqrt3_sign (p q : Z) : Z := Z.sgn (3 * (p * Z.abs p) - q * Z.abs q).

(** The sign of the cross product of the flux with the voltage: the direction in which the voltage
    turns the flux, which is that of its effect on the torque. *)
Definition turning (a b switch : Z) : Z := sqrt3_sign (a * vector_beta switch) (b * vector_alpha switch).

(** The number of legs that differ between two switch words. *)
Definition legs_moved (s t : Z) : Z :=
  Z.abs (leg 0 s - leg 0 t) + Z.abs (leg 1 s - leg 1 t) + Z.abs (leg 2 s - leg 2 t).

(** What a sector number says about the flux. *)
Definition in_sector (s a b : Z) : Prop :=
  (s = 1 /\ 0 < a /\ Z.abs b < a) \/ (s = 2 /\ 0 < a /\ 0 < b) \/ (s = 3 /\ a <= 0 /\ 0 < b) \/
  (s = 4 /\ a < 0 /\ Z.abs b < - a) \/ (s = 5 /\ a < 0 /\ b < 0) \/ (s = 6 /\ 0 <= a /\ b < 0).

Lemma sqrt3_sign_pos p q : q * Z.abs q < 3 * (p * Z.abs p) -> sqrt3_sign p q = 1.
Proof. intros. unfold sqrt3_sign. lia. Qed.
Lemma sqrt3_sign_neg p q : 3 * (p * Z.abs p) < q * Z.abs q -> sqrt3_sign p q = -1.
Proof. intros. unfold sqrt3_sign. lia. Qed.

(** In every sector the four table entries turn the flux as the torque bit says. *)
Lemma active_switch_turning flux_up torque_up s a b : in_sector s a b ->
  turning a b (active_switch flux_up torque_up s) = if torque_up then 1 else -1.
Proof.
  unfold turning. intros [[-> Hs]|[[-> Hs]|[[-> Hs]|[[-> Hs]|[[-> Hs]|[-> Hs]]]]]]; destruct flux_up, torque_up;
    match goal with |- sqrt3_sign (a * ?x) (b * ?y) = _ =>
      let x' := eval vm_compute in x in let y' := eval vm_compute in y in change x with x'; change y with y' end;
    (apply sqrt3_sign_pos || apply sqrt3_sign_neg); nia.
Qed.

Lemma active_switch_range flux_up torque_up s a b : in_sector s a b ->
  1 <= active_switch flux_up torque_up s <= 6.
Proof.
  intros [[-> _]|[[-> _]|[[-> _]|[[-> _]|[[-> _]|[-> _]]]]]]; destruct flux_up, torque_up; vm_compute; split; discriminate.
Qed.

(** The zero vector keeps at least two legs of the previous word. *)
Lemma dtc_zero_state_spec previous : 0 <= previous <= 7 ->
  (dtc_zero_state previous = 0 \/ dtc_zero_state previous = 7) /\
  legs_moved previous (dtc_zero_state previous) <= 1.
Proof.
  intros Hp. assert (Forall (fun p => (dtc_zero_state p = 0 \/ dtc_zero_state p = 7) /\
    legs_moved p (dtc_zero_state p) <= 1) [0; 1; 2; 3; 4; 5; 6; 7]) as Hall.
  { repeat constructor; vm_compute; (by left) || (by right) || discriminate. }
  rewrite Forall_forall in Hall. apply Hall. cbn. lia.
Qed.

Section Q.
Variable f : q_format.

#[local] Instance dtc_arith : FcArith Z Z := fcq f.
#[local] Instance dtc_laws : FcLaws Z Z := fcq_laws f.
#[local] Instance dtc_sticky : FcSticky Z Z := fcq_sticky f.

(** ** The sector classifier *)

Lemma sticky_leave {A} outer (v : A) : outer <> LINEARS_OK -> sticky (leave outer v).
Proof. intros Ho s _. exact Ho. Qed.
#[local] Hint Resolve sticky_leave : sticky.

Lemma dtc_sector_sticky a b : sticky (dtc_sector a b).
Proof.
  intros s Hs. unfold dtc_sector. revert s Hs.
  assert (forall outer, outer <> LINEARS_OK -> forall s, s <> LINEARS_OK ->
    match dtc_sector a b outer with Next _ s' => s' <> LINEARS_OK | Return s' => s' <> LINEARS_OK end) as H.
  2: { intros s Hs. by apply (H s Hs s Hs). }
  intros outer Ho s _. unfold dtc_sector.
  match goal with |- match ?m _ with _ => _ end => assert (sticky m) as Hm end; [|by apply Hm].
  solve_sticky.
Qed.

Lemma dtc_sector_wp a b : is_i64 a -> is_i64 b -> ~ (a = 0 /\ b = 0) ->
  wp (dtc_sector a b) (fun s => in_sector s a b).
Proof.
  intros Ha Hb Hnz. unfold wp, dtc_sector.
  change (FC_I 0) with (fcq_i 0). destruct (fcq_i_total 0 ltac:(lia)) as (z & Ez & ->).
  unfold mbind at 1, fc_bind at 1. rewrite Ez. cbv zeta. rewrite Z.mul_0_l, !(q_eq f), !(q_gt f).
  destruct (Z.eqb_spec b 0) as [->|Hbz].
  { cbn. intros _. unfold in_sector. destruct (Z.ltb_spec 0 a); lia. }
  destruct (Z.eqb_spec a 0) as [->|Haz].
  { cbn. intros _. unfold in_sector. destruct (Z.ltb_spec 0 b); lia. }
  match goal with |- match ?m _ with _ => _ end => assert (wp m (fun s => in_sector s a b)) as Hm end; [|exact Hm].
  wp_call (q_abs f a) as aa [-> Haa]. wp_call (q_abs f b) as bb [-> Hbb].
  apply wp_bind; [|solve_sticky].
  apply (wp_mono _ (fun sc => sc <= 0 -> Z.abs b < Z.abs a)).
  - apply wp_if; intros Hc.
    + apply wp_ret. lia.
    + rewrite (q_cmp f), Z.leb_gt in Hc.
      wp_call (fcq_div_wp (Z.abs b) (Z.abs a)) as slope Hs.
      apply wp_bind; [|solve_sticky]. apply wp_lift1; [|solve_sticky].
      eapply wp_mono; [by apply (q_i f); lia|]. intros three [_ H3].
      eapply wp_mono; [by apply (q_sqrt f)|]. intros root [Hr _].
      apply wp_bind; [|solve_sticky]. apply wp_lift2; [|solve_sticky|solve_sticky].
      eapply wp_mono; [by apply (q_i f); lia|]. intros one [_ H1].
      apply wp_ret. eapply wp_mono; [by apply fcq_div_wp|]. intros threshold _.
      apply wp_ret. lia.
  - intros sc Hsc. apply wp_ret. unfold slope_sector. rewrite !(q_gt f). unfold in_sector.
    destruct (Z.ltb_spec 0 a), (Z.ltb_spec 0 b), (Z.ltb_spec sc 0), (Z.ltb_spec 0 sc); lia.
Qed.

(** ** The step *)

(** flux + dt (v - r i), each product rounded once *)
Definition next_flux (flux r i v dt : Z) : Z := flux + rmul dt (v - rmul r i).

(** The electromagnetic torque 3/2 p (psi x i), each product rounded once. *)
Definition torque_value (pairs a b ia ib : Z) : Z :=
  rmul (rmul (3 * LINEARS_FIXED_ONE / 2) (pairs * LINEARS_FIXED_ONE)) (rmul a ib - rmul b ia).

(** The comparators on exact errors. *)
Definition two_level (error band state : Z) : Z :=
  if band <=? error then 1 else if error <=? - band then -1 else state.
Definition three_level (error band state : Z) : Z :=
  if band <=? error then 1 else if error <=? - band then -1
  else if (state =? 1) && (0 <? error) then 1 else if (state =? -1) && (error <? 0) then -1 else 0.

(** The context between calls. *)
Record dtc_ok (x : dtc Z Z) : Prop := {
  dtc_repr : q_repr f (resistance (dtc_cfg x)) /\ q_repr f (flux_band (dtc_cfg x)) /\
    q_repr f (torque_band (dtc_cfg x)) /\ 0 < pole_pairs (dtc_cfg x) <= 65535;
  dtc_bands : 0 < fcq_field f (flux_band (dtc_cfg x)) /\ 0 < fcq_field f (torque_band (dtc_cfg x));
  dtc_flux : is_i64 (flux_alpha x) /\ is_i64 (flux_beta x) /\ ~ (flux_alpha x = 0 /\ flux_beta x = 0);
  dtc_states : (flux_state x = 1 \/ flux_state x = -1) /\ -1 <= torque_state x <= 1;
  dtc_switch : 0 <= last_switch x <= 7;
}.

(** One control period in exact integers, given the flux magnitude m and the sector s. *)
Definition dtc_reference (x : dtc Z Z) (ia ib va vb flux_ref torque_ref dt m s : Z) : dtc Z Z * dtc_result Z :=
  let c := dtc_cfg x in
  let r := fcq_field f (resistance c) in
  let a := next_flux (flux_alpha x) r ia va dt in
  let b := next_flux (flux_beta x) r ib vb dt in
  let t := torque_value (pole_pairs c) a b ia ib in
  let fs := two_level (flux_ref - m) (fcq_field f (flux_band c)) (flux_state x) in
  let ts := three_level (torque_ref - t) (fcq_field f (torque_band c)) (torque_state x) in
  let sw := if ts =? 0 then dtc_zero_state (last_switch x) else active_switch (0 <? fs) (0 <? ts) s in
  (mk_dtc c a b fs ts sw,
   mk_dtc_result (mk_ab (q_round f a) (q_round f b)) (q_round f m) (q_round f t) s sw fs ts).

Lemma integrate_flux_wp flux r i v dt : is_i64 flux -> is_i64 r -> is_i64 i -> is_i64 v -> is_i64 dt ->
  wp (integrate_flux flux r i v dt) (fun y => y = next_flux flux r i v dt /\ is_i64 y).
Proof.
  intros. unfold integrate_flux, next_flux.
  wp_call (q_mul f r i) as d [-> Hd]. wp_call (q_sub f v) as e [-> He].
  wp_call (q_mul f dt) as g [-> Hg]. by apply (q_add f).
Qed.

Lemma integrate_flux_sticky flux r i v dt : sticky (integrate_flux flux r i v dt).
Proof. unfold integrate_flux. solve_sticky. Qed.
#[local] Hint Resolve integrate_flux_sticky dtc_sector_sticky : sticky.

Lemma two_level_eq error band state : is_i64 band ->
  flux_hysteresis error band (- band) state = two_level error band state.
Proof. intros. unfold flux_hysteresis, two_level. rewrite (q_le f), (q_cmp f). repeat case_if; lia. Qed.

Lemma three_level_eq error band state : torque_hysteresis error band (- band) 0 state = three_level error band state.
Proof.
  unfold torque_hysteresis, three_level. rewrite (q_le f), (q_gt f), (q_lt f), (q_cmp f).
  assert ((0 <=? Z.sgn (error - band)) = (band <=? error)) as ->; [|done].
  destruct (Z.leb_spec 0 (Z.sgn (error - band))), (Z.leb_spec band error); lia.
Qed.

(** What a successful period returns. *)
Definition dtc_post (x : dtc Z Z) (ia ib va vb flux_ref torque_ref dt : Z) (r : dtc Z Z * dtc_result Z) : Prop :=
  let a := next_flux (flux_alpha x) (fcq_field f (resistance (dtc_cfg x))) ia va dt in
  let b := next_flux (flux_beta x) (fcq_field f (resistance (dtc_cfg x))) ib vb dt in
  0 < dt /\ fcq_field f (flux_band (dtc_cfg x)) < flux_ref /\ is_i64 a /\ is_i64 b /\ ~ (a = 0 /\ b = 0) /\
  exists m s, fcq_hypot a b LINEARS_OK = Next m LINEARS_OK /\ in_sector s a b /\
    r = dtc_reference x ia ib va vb flux_ref torque_ref dt m s.

Lemma dtc_step_work_wp x (i v : ab Z) flux_ref torque_ref dt : dtc_ok x ->
  q_repr f (alpha i) -> q_repr f (beta i) -> q_repr f (alpha v) -> q_repr f (beta v) ->
  q_repr f flux_ref -> q_repr f torque_ref -> q_repr f dt ->
  wp (dtc_step_work x i v flux_ref torque_ref dt)
    (dtc_post x (fcq_field f (alpha i)) (fcq_field f (beta i)) (fcq_field f (alpha v)) (fcq_field f (beta v))
       (fcq_field f flux_ref) (fcq_field f torque_ref) (fcq_field f dt)).
Proof.
  intros [(Rr & Rf & Rt & Hp) [Hfb Htb] (Hfa & Hfbt & Hnz) _ _] Ria Rib Rva Rvb Rfr Rtr Rdt.
  unfold dtc_step_work.
  wp_call (q_load f) as r [-> Hr]. wp_call (q_load f) as fb [-> Hb1]. wp_call (q_load f) as tb [-> Hb2].
  wp_call (q_load f) as fr [-> Hfr]. wp_call (q_load f) as tr [-> Htr]. wp_call (q_load f) as t [-> Ht].
  wp_call (q_load f) as ia [-> Hia]. wp_call (q_load f) as ib [-> Hib].
  wp_call (q_load f) as va [-> Hva]. wp_call (q_load f) as vb [-> Hvb].
  apply wp_bind; [eapply wp_mono; [by apply (q_i f); lia|intros zero [-> _]]|solve_sticky]. rewrite Z.mul_0_l.
  apply wp_check_bind.
  apply wp_bind; [apply wp_fail_if; [done|intros [Hc1 Hc2]%orb_false_iff]|solve_sticky].
  rewrite (q_le f) in Hc1, Hc2. apply Z.leb_gt in Hc1, Hc2.
  wp_call integrate_flux_wp as a [Ea Ha]. wp_call integrate_flux_wp as b [Eb Hb].
  apply wp_check_bind.
  apply wp_bind; [apply wp_fail_if; [done|intros Hz]|solve_sticky].
  rewrite !(q_eq f) in Hz. assert (~ (a = 0 /\ b = 0)) as Hab.
  { intros [-> ->]. discriminate. }
  apply wp_bind; [eapply wp_mono; [by apply wp_eq, (q_hypot f)|]|solve_sticky]. intros m [Hm Em].
  wp_call (q_mul f a) as ca [-> Hca]. wp_call (q_mul f b) as cb [-> Hcb]. wp_call (q_sub f) as cross [-> Hcr].
  apply wp_bind; [apply wp_lift2; [|solve_sticky|solve_sticky]|solve_sticky].
  eapply wp_mono; [apply (q_ratio f 3 2); lia|]. intros g [Eg Hg].
  eapply wp_mono; [apply (q_i f); lia|]. intros pp [Epp Hpp].
  eapply wp_mono; [by apply (q_mul f)|]. intros gain [Egain Hgain].
  wp_call (q_mul f gain) as torque' [Etorque Htorque].
  wp_call (q_sub f) as fe [-> Hfe]. wp_call (q_sub f) as te [-> Hte]. apply wp_check_bind.
  wp_call (q_neg f) as nf [-> _]. cbv zeta. wp_call (q_neg f) as nt [-> _].
  rewrite two_level_eq, three_level_eq by done.
  wp_call dtc_sector_wp as s Hs.
  wp_call (q_store f) as oa [-> _]. wp_call (q_store f) as ob [-> _]. wp_call (q_store f) as om [-> _].
  wp_call (q_store f) as ot [-> _]. apply wp_check_bind, wp_ret.
  unfold dtc_post. cbv zeta. rewrite <- Ea, <- Eb. do 5 (split; [done|]). exists m, s. split; [exact Em|]. split; [done|].
  unfold dtc_reference, torque_value. cbv zeta. rewrite <- Ea, <- Eb.
  replace torque' with (rmul (rmul (3 * LINEARS_FIXED_ONE / 2) (pole_pairs (dtc_cfg x) * LINEARS_FIXED_ONE)) (rmul a (fcq_field f (beta i)) - rmul b (fcq_field f (alpha i)))); [done|].
  rewrite Etorque, Egain, Eg, Epp. reflexivity.
Qed.
End Q.

(** ** Histories of calls *)

Definition ab_repr (f : q_format) (x : ab Z) : Prop := q_repr f (alpha x) /\ q_repr f (beta x).

(** The contexts a client can hold: initialized once, then stepped, whatever the calls returned. *)
Inductive dtc_reach (f : q_format) : dtc Z Z -> Prop :=
| dtc_reach_init junk c flux x :
    q_repr f (resistance c) -> q_repr f (flux_band c) -> q_repr f (torque_band c) -> 0 <= pole_pairs c <= 65535 ->
    ab_repr f flux -> @dtc_init Z Z (fcq f) (Some junk) c flux = (LINEARS_OK, Some x) -> dtc_reach f x
| dtc_reach_step x sx so px po i v fr tr dt o st x' o' :
    dtc_reach f x -> ab_repr f i -> ab_repr f v -> q_repr f fr -> q_repr f tr -> q_repr f dt ->
    @dtc_step Z Z (fcq f) sx so (Some (px, x)) i v fr tr dt (Some (po, o))
      = (st, (Some (px, x'), Some (po, o'))) -> dtc_reach f x'.

Section Calls.
Variable f : q_format.

#[local] Instance calls_arith : FcArith Z Z := fcq f.
#[local] Instance calls_laws : FcLaws Z Z := fcq_laws f.
#[local] Instance calls_sticky : FcSticky Z Z := fcq_sticky f.

Lemma dtc_init_ok junk c flux x :
  q_repr f (resistance c) -> q_repr f (flux_band c) -> q_repr f (torque_band c) -> 0 <= pole_pairs c <= 65535 ->
  ab_repr f flux -> dtc_init (Some junk) c flux = (LINEARS_OK, Some x) -> dtc_ok f x.
Proof.
  intros Hr Hfb Htb Hp [Ha Hb] E. unfold dtc_init, with_out in E.
  match type of E with context [run ?m junk] => assert (wp m (dtc_ok f)) as Hwp end.
  { wp_call (q_load f) as r [-> _]. wp_call (q_load f) as fb [-> _]. wp_call (q_load f) as tb [-> _].
    wp_call (q_load f) as a [-> Hia]. wp_call (q_load f) as b [-> Hib].
    apply wp_bind; [eapply wp_mono; [by apply (q_i f); lia|intros zero [-> _]]|solve_sticky]. rewrite Z.mul_0_l.
    apply wp_check_bind.
    apply wp_bind; [apply wp_fail_if; [done|intros Hc]|solve_sticky].
    rewrite (q_lt f), !(q_le f) in Hc.
    apply wp_bind; [apply wp_fail_if; [done|intros Hz]|solve_sticky]. rewrite !(q_eq f) in Hz.
    apply wp_ret. apply orb_false_iff in Hc as [[[Hpp%Z.eqb_neq _]%orb_false_iff Hf%Z.leb_gt]%orb_false_iff Ht%Z.leb_gt].
    split; cbn; [repeat split; try done; lia|split; lia| |lia|lia].
    split; [done|]. split; [done|]. intros [E1 E2]. by rewrite E1, E2 in Hz. }
  destruct (run_cases _ junk _ Hwp) as [[Er Hs]|(r & Er & Hok)]; rewrite Er in E; injection E; [done|by intros <-].
Qed.

(** A step either reports an error and changes nothing, or succeeds with what [dtc_post] says. *)
Lemma dtc_step_cases x sx so px po i v fr tr dt o st x' o' : dtc_ok f x ->
  ab_repr f i -> ab_repr f v -> q_repr f fr -> q_repr f tr -> q_repr f dt ->
  dtc_step sx so (Some (px, x)) i v fr tr dt (Some (po, o)) = (st, (Some (px, x'), Some (po, o'))) ->
  (st <> LINEARS_OK /\ x' = x /\ o' = o) \/
  (st = LINEARS_OK /\ dtc_post f x (fcq_field f (alpha i)) (fcq_field f (beta i)) (fcq_field f (alpha v))
     (fcq_field f (beta v)) (fcq_field f fr) (fcq_field f tr) (fcq_field f dt) (x', o')).
Proof.
  intros Hx [Hia Hib] [Hva Hvb] Hfr Htr Hdt E. unfold dtc_step in E.
  destruct (fc_overlap _ _ _ _); [injection E as <- <- <-; by left|]. cbv zeta in E.
  pose proof (dtc_step_work_wp f x i v fr tr dt Hx Hia Hib Hva Hvb Hfr Htr Hdt) as Hwp.
  match type of E with context [run ?m (x, o)] =>
    destruct (run_cases m (x, o) _ Hwp) as [[Er Hs]|(r & Er & Hpost)] end;
    rewrite Er in E; cbn [fst snd] in E; injection E as <- <- <-; [by left|right; by destruct r].
Qed.

Lemma three_level_range e band state : -1 <= three_level e band state <= 1.
Proof. unfold three_level. repeat case_if; lia. Qed.

Lemma two_level_range e band state : state = 1 \/ state = -1 ->
  two_level e band state = 1 \/ two_level e band state = -1.
Proof. unfold two_level. repeat case_if; lia. Qed.

Lemma dtc_post_ok x ia ib va vb fr tr dt r : dtc_ok f x -> dtc_post f x ia ib va vb fr tr dt r -> dtc_ok f r.1.
Proof.
  intros [Hr Hb _ [Hfs Hts] Hsw] (_ & _ & Ha & Hbb & Hnz & m & s & _ & Hs & ->).
  split; cbn [dtc_reference fst dtc_cfg flux_alpha flux_beta flux_state torque_state last_switch]; try done.
  - split; [by apply two_level_range|apply three_level_range].
  - case_if.
    + by destruct (proj1 (dtc_zero_state_spec _ Hsw)) as [-> | ->].
    + pose proof (active_switch_range (0 <? two_level (fr - m) (fcq_field f (flux_band (dtc_cfg x))) (flux_state x))
        (0 <? three_level (tr - torque_value (pole_pairs (dtc_cfg x))
           (next_flux (flux_alpha x) (fcq_field f (resistance (dtc_cfg x))) ia va dt)
           (next_flux (flux_beta x) (fcq_field f (resistance (dtc_cfg x))) ib vb dt) ia ib)
           (fcq_field f (torque_band (dtc_cfg x))) (torque_state x)) _ _ _ Hs). lia.
Qed.

Lemma dtc_reach_ok x : dtc_reach f x -> dtc_ok f x.
Proof.
  induction 1 as [junk c flux x Hr Hf Ht Hp Hflux E|x sx so px po i v fr tr dt o st x' o' _ IH Hi Hv Hfr Htr Hdt E].
  - by eapply dtc_init_ok.
  - destruct (dtc_step_cases x sx so px po i v fr tr dt o st x' o') as [(_ & -> & _)|[_ Hpost]]; try done.
    exact (dtc_post_ok _ _ _ _ _ _ _ _ _ IH Hpost).
Qed.
End Calls.

(** C34. Type safety of the context: whatever calls follow a successful initialization, the bands in
    force are positive, the flux estimate is a nonzero vector of working values, the flux comparator
    holds one of its two levels, the torque comparator one of its three, and the remembered switch
    word is one of the inverter's eight. *)
Theorem dtc_invariant (f : q_format) (x : dtc Z Z) : dtc_reach f x ->
  0 < fcq_field f (flux_band (dtc_cfg x)) /\ 0 < fcq_field f (torque_band (dtc_cfg x)) /\
  0 < pole_pairs (dtc_cfg x) <= 65535 /\
  is_i64 (flux_alpha x) /\ is_i64 (flux_beta x) /\ ~ (flux_alpha x = 0 /\ flux_beta x = 0) /\
  (flux_state x = 1 \/ flux_state x = -1) /\ -1 <= torque_state x <= 1 /\ 0 <= last_switch x <= 7.
Proof. by intros [(_ & _ & _ & Hp) [? ?] (? & ? & ?) [? ?] ?]%dtc_reach_ok. Qed.

(** C17. The refinement of a control period: a successful step on a reachable context has a positive
    period and a reference above the flux band, and computes exactly [dtc_reference]: the integrated
    flux, the torque and the two comparators over unbounded integers with one rounding per product,
    for the magnitude the vector norm returns and a sector that contains the flux; a failing step
    changes neither context nor result. *)
Theorem dtc_step_refines (f : q_format) x sx so px po i v fr tr dt o st x' o' :
  dtc_reach f x -> ab_repr f i -> ab_repr f v -> q_repr f fr -> q_repr f tr -> q_repr f dt ->
  @dtc_step Z Z (fcq f) sx so (Some (px, x)) i v fr tr dt (Some (po, o)) = (st, (Some (px, x'), Some (po, o'))) ->
  (st <> LINEARS_OK /\ x' = x /\ o' = o) \/
  (st = LINEARS_OK /\ 0 < fcq_field f dt /\ fcq_field f (flux_band (dtc_cfg x)) < fcq_field f fr /\
   exists m s, fcq_hypot (flux_alpha x') (flux_beta x') LINEARS_OK = Next m LINEARS_OK /\
     in_sector s (flux_alpha x') (flux_beta x') /\
     (x', o') = dtc_reference f x (fcq_field f (alpha i)) (fcq_field f (beta i)) (fcq_field f (alpha v))
       (fcq_field f (beta v)) (fcq_field f fr) (fcq_field f tr) (fcq_field f dt) m s).
Proof.
  intros Hx Hi Hv Hfr Htr Hdt E. apply dtc_reach_ok in Hx.
  destruct (dtc_step_cases f x sx so px po i v fr tr dt o st x' o') as [Hf|[-> Hpost]]; try done; [by left|right].
  destruct Hpost as (Hd & Hb & _ & _ & _ & m & s & Em & Hs & Er). split; [done|]. split; [done|]. split; [done|].
  exists m, s. unfold dtc_reference in Er. injection Er as -> ->. done.
Qed.

(** C3. What the switching table is for: after a successful step, a torque state of zero selects a zero
    vector one leg away at most from the previous word, and a torque state of +1 or -1 selects an
    active vector whose voltage turns the estimated flux strictly in that direction, whatever the
    flux and the rounding of the sector test. *)
Theorem dtc_turns_flux (f : q_format) x sx so px po i v fr tr dt o x' o' :
  dtc_reach f x -> ab_repr f i -> ab_repr f v -> q_repr f fr -> q_repr f tr -> q_repr f dt ->
  @dtc_step Z Z (fcq f) sx so (Some (px, x)) i v fr tr dt (Some (po, o))
    = (LINEARS_OK, (Some (px, x'), Some (po, o'))) ->
  switch_state o' = last_switch x' /\ r_torque_state o' = torque_state x' /\
  if torque_state x' =? 0
  then (last_switch x' = 0 \/ last_switch x' = 7) /\ legs_moved (last_switch x) (last_switch x') <= 1
  else 1 <= last_switch x' <= 6 /\ turning (flux_alpha x') (flux_beta x') (last_switch x') = torque_state x'.
Proof.
  intros Hx Hi Hv Hfr Htr Hdt E. apply dtc_reach_ok in Hx.
  destruct (dtc_step_cases f x sx so px po i v fr tr dt o LINEARS_OK x' o') as [[[] _]|[_ Hpost]]; try done.
  destruct Hpost as (_ & _ & _ & _ & _ & m & s & _ & Hs & Er). unfold dtc_reference in Er. cbv zeta in Er.
  injection Er as -> ->. cbn [last_switch torque_state switch_state r_torque_state flux_alpha flux_beta].
  split; [done|]. split; [done|].
  match goal with |- context [three_level ?e ?b ?s] => set (ts := three_level e b s) in *;
    pose proof (three_level_range e b s) as Hts; fold ts in Hts end.
  destruct (Z.eqb_spec ts 0) as [_|Hnz]; [by apply dtc_zero_state_spec, (dtc_switch f)|].
  split; [by eapply active_switch_range|]. erewrite active_switch_turning by exact Hs.
  destruct (Z.ltb_spec 0 ts); lia.
Qed.

(** ** Witnesses *)

Definition sample_dtc : dtc Z Z :=
  mk_dtc (mk_dtc_config 214748365 107374182 107374182 2) 1073741824 0 1 0 0.
Definition sample_call : linears_status_t * (option (Z * dtc Z Z) * option (Z * dtc_result Z)) :=
  @dtc_step Z Z (fcq Q31) 64 64 (Some (1000, sample_dtc)) (mk_ab 214748365 429496730) (mk_ab 1073741824 1073741824)
    1288490189 1288490189 21474836 (Some (2000, mk_dtc_result (mk_ab 0 0) 0 0 0 0 0 0)).
Definition sample_after : dtc Z Z * dtc_result Z :=
  (default sample_dtc (snd <$> sample_call.2.1), default (mk_dtc_result (mk_ab 0 0) 0 0 0 0 0 0) (snd <$> sample_call.2.2)).

Lemma sample_dtc_reach : dtc_reach Q31 sample_dtc.
Proof.
  apply (dtc_reach_init Q31 (mk_dtc (mk_dtc_config 9 9 9 9) 9 9 9 9 9) (mk_dtc_config 214748365 107374182 107374182 2)
    (mk_ab 1073741824 0)); [cbn; rlia..|cbn; lia|split; cbn; rlia|vm_compute; reflexivity].
Qed.

Lemma sample_call_ok : sample_call = (LINEARS_OK, (Some (1000, sample_after.1), Some (2000, sample_after.2))).
Proof. vm_compute. reflexivity. Qed.

Lemma sample_signals : ab_repr Q31 (mk_ab 214748365 429496730) /\ ab_repr Q31 (mk_ab 1073741824 1073741824) /\
  q_repr Q31 1288490189 /\ q_repr Q31 21474836.
Proof. split; [|split; [|split]]; [split|split| |]; cbn; rlia. Qed.

Lemma dtc_invariant_witness : 0 < fcq_field Q31 (flux_band (dtc_cfg sample_dtc)).
Proof. apply (dtc_invariant Q31 sample_dtc sample_dtc_reach). Defined.

Lemma dtc_step_refines_witness :
  0 < fcq_field Q31 21474836 /\ flux_alpha sample_after.1 = 1084264494 /\ sector sample_after.2 = 1.
Proof.
  destruct sample_signals as (Hi & Hv & Hr & Ht).
  destruct (dtc_step_refines Q31 sample_dtc 64 64 1000 2000 _ _ _ _ _ _ _ _ _ sample_dtc_reach Hi Hv Hr Hr Ht sample_call_ok)
    as [[[] _]|(_ & Hd & _)]; [reflexivity|].
  split; [exact Hd|]. vm_compute. split; reflexivity.
Defined.

Lemma dtc_turns_flux_witness :
  torque_state sample_after.1 = 1 /\ turning (flux_alpha sample_after.1) (flux_beta sample_after.1) 6 = 1.
Proof.
  destruct sample_signals as (Hi & Hv & Hr & Ht).
  pose proof (dtc_turns_flux Q31 sample_dtc 64 64 1000 2000 _ _ _ _ _ _ _ _ sample_dtc_reach Hi Hv Hr Hr Ht sample_call_ok)
    as (_ & _ & H).
  assert (torque_state sample_after.1 = 1) as E by (vm_compute; reflexivity).
  assert (last_switch sample_after.1 = 6) as E' by (vm_compute; reflexivity).
  rewrite E in H. rewrite E' in H. exact (conj E (proj2 H)).
Defined.
