(* ===== verification/FcFloat.v ===== *)
(** * The f32 and f64 variants: FC_FLOAT_HELPERS of fieldctrl_arith.h

    The native arithmetic of fieldctrl on the IEEE values of Float.v.  floor,
    frexp, ldexp and sqrt are exact or correctly rounded by definition; hypot,
    sin, cos and atan2, whose rounding the C library leaves open, are the fields
    of [libm]. *)
From Stdlib Require Import SpecFloat.
From S2P Require Import Prelude MachineInt Status FcMonad Float.

Record libm := mk_libm {
  HYPOT : spec_float -> spec_float -> spec_float;
  SIN : spec_float -> spec_float;
  COS : spec_float -> spec_float;
  ATAN2 : spec_float -> spec_float -> spec_float;
}.

Section Native.
Variable f : float_format.
Variable lib : libm.

Definition fneg (x : spec_float) : spec_float := SFopp x.
Definition of_int (x : Z) : spec_float := binary_normalize (prec f) (emax f) x 0 false.

(** floor: exact; a zero keeps the sign of its argument. *)
Definition FLOOR (x : spec_float) : spec_float :=
  match x with
  | S754_finite s m e =>
      if 0 <=? e then x
      else binary_normalize (prec f) (emax f) (Z.shiftr (if s then Zneg m else Zpos m) (- e)) 0 s
  | _ => x
  end.

(** frexp of zero has exponent zero. *)
Definition FREXP (x : spec_float) : spec_float * Z :=
  match x with S754_finite _ _ _ => SFfrexp (prec f) (emax f) x | _ => (x, 0) end.
Definition LDEXP (x : spec_float) (e : Z) : spec_float := SFldexp (prec f) (emax f) x e.

(** The truncation of a finite nonnegative value to int. *)
Definition to_int (x : spec_float) : Z :=
  match x with
  | S754_finite s m e =>
      let v := if 0 <=? e then Z.shiftl (Zpos m) e else Z.shiftr (Zpos m) (- e) in if s then - v else v
  | _ => 0
  end.

(** (T)6.283185307179586476925286766559, (T)0.25, (T)0.5 *)
Definition two_pi : spec_float :=
  float_of_bits f (if prec f =? 24 then 1086918619 else 4618760256179416344).
Definition one_quarter : spec_float := fdiv f (fone f) (of_int 4).
Definition one_half : spec_float := fdiv f (fone f) (of_int 2).

Definition native_cmp (a b : spec_float) : Z := Z.b2z (flt b a) - Z.b2z (flt a b).

(** P##_load on a value computed by the operation. *)
Definition fl_load (x : spec_float) : fc spec_float :=
  guarded fzero (if isfinite x then (LINEARS_OK, x) else (LINEARS_ERROR_RANGE, fzero)).
Definition fl_store (x out : spec_float) : fc spec_float := fun s =>
  match fl_load x s with
  | Next x s => Next (if status_ok s then x else out) s
  | Return s => Return s
  end.
Definition fl_i (x : Z) : fc spec_float := fl_load (of_int x).
Definition fl_add (a b : spec_float) : fc spec_float := fl_load (fadd f a b).
Definition fl_sub (a b : spec_float) : fc spec_float := fl_load (fsub f a b).
Definition fl_mul (a b : spec_float) : fc spec_float := fl_load (fmul f a b).
Definition fl_div (a b : spec_float) : fc spec_float :=
  if feq b fzero then guarded fzero (LINEARS_ERROR_DOMAIN, fzero) else fl_load (fdiv f a b).
Definition fl_neg (a : spec_float) : fc spec_float := fl_load (fneg a).
Definition fl_abs (a : spec_float) : fc spec_float := fl_load (if flt a fzero then fneg a else a).
Definition fl_sqrt (a : spec_float) : fc spec_float :=
  if flt a fzero then guarded fzero (LINEARS_ERROR_DOMAIN, fzero) else fl_load (fsqrt f a).
Definition fl_hypot (a b : spec_float) : fc spec_float := fl_load (HYPOT lib a b).

(** Only the final exponent is applied. *)
Definition fl_rescale (a numerator denominator : spec_float) : fc spec_float :=
  let '(ma, ea) := FREXP a in
  let '(mn, en) := FREXP numerator in
  let '(md, ed) := FREXP denominator in
  fl_load (LDEXP (fdiv f (fmul f ma mn) md) (ea + en - ed)).

Definition wrapped (x : spec_float) : spec_float :=
  let x := fsub f x (FLOOR x) in
  if feq x fzero || SFleb (fone f) x then fzero else x.
Definition fl_wrap (x : spec_float) : fc spec_float := guarded fzero (LINEARS_OK, wrapped x).

(** A zero is stored as +0. *)
Definition positive_zero (x : spec_float) : spec_float := if feq x fzero then fzero else x.

(** sine and cosine of a wrapped angle by quadrants *)
Definition quadrant_sincos (w : spec_float) : spec_float * spec_float :=
  let quadrant := to_int (fadd f (fmul f w (of_int 4)) one_half) in
  let r := fmul f (fsub f w (fmul f (of_int quadrant) one_quarter)) two_pi in
  let ss := SIN lib r in
  let cc := COS lib r in
  let '(sn, cs) :=
    match Z.land quadrant 3 with
    | 0 => (ss, cc) | 1 => (cc, fneg ss) | 2 => (fneg ss, fneg cc) | _ => (fneg cc, ss)
    end in
  (positive_zero sn, positive_zero cs).

Definition fl_sincos (a : spec_float) (out : spec_float * spec_float) : fc (spec_float * spec_float) :=
  w ← fl_wrap a; guarded out (LINEARS_OK, quadrant_sincos w).

Definition fl_atan2 (y x : spec_float) : fc spec_float :=
  if feq x fzero && feq y fzero then guarded fzero (LINEARS_ERROR_DOMAIN, fzero)
  else fl_wrap (fdiv f (ATAN2 lib y x) two_pi).

(** FC_ANGLE_STORE of the variants other than q15. *)
Definition fl_angle_store (x out : spec_float) : fc spec_float :=
  work ← fl_wrap x;
  temp ← fl_store work fzero;
  quit_if false out
    (work ← fl_load temp;
     one ← fl_i 1;
     temp ← (if 0 <=? native_cmp work one then lift2 fl_store (fl_i 0) (mret temp) else mret temp);
     quit_if false out (mret temp)).

(** The macro definitions of FC_VARIANT 32 and 64. *)
Definition fc_float : FcArith spec_float spec_float := {|
  FC_LOAD := fl_load;
  FC_STORE := fl_store;
  FC_I := fl_i;
  FC_ADD := fl_add;
  FC_SUB := fl_sub;
  FC_MUL := fl_mul;
  FC_DIV := fl_div;
  FC_NEG := fl_neg;
  FC_ABS := fl_abs;
  FC_SQRT := fl_sqrt;
  FC_HYPOT := fl_hypot;
  FC_RESCALE := fl_rescale;
  FC_CMP := native_cmp;
  FC_WRAP := fl_wrap;
  FC_SINCOS := fl_sincos;
  FC_ATAN2 := fl_atan2;
  FC_ACC_LOAD := fl_load;
  FC_ACC_STORE := fl_store;
  FC_FIELD := fun x => x;
  FC_ANGLE_STORE := fl_angle_store;
  fc_local_t := fzero;
  fc_local_w := fzero;
|}.
End Native.
