(* ===== verification/FcShape.v ===== *)
(** * The shape of the controller bodies

    Two facts about a body that need no arithmetic: an early return never reports
    success ([honest]), and what the value it leaves looks like ([leaves]).  They
    hold for all four variants. *)
From Stdlib Require Import SpecFloat.
From S2P Require Import Prelude MachineInt Status Numeric Float FcMonad Cordic FcVariants FcBase FcFloat.

(** ** No early return reports success *)

Definition honest {A} (m : fc A) : Prop :=
  forall s, match m s with Next _ _ => True | Return s' => s' <> LINEARS_OK end.

Section Honest.
Context {A B : Type}.

Lemma honest_ret (a : A) : honest (mret (M:=fc) a).
Proof. by intros s. Qed.
Lemma honest_bind (m : fc A) (k : A -> fc B) : honest m -> (forall a, honest (k a)) -> honest (m ≫= k).
Proof. intros Hm Hk s. specialize (Hm s). unfold mbind, fc_bind. destruct (m s); [apply Hk|done]. Qed.
Lemma honest_guarded (z : A) r : honest (guarded z r).
Proof. intros s. unfold guarded. by destruct (status_ok s). Qed.
Lemma honest_assign (r : linears_status_t * A) : honest (assign r).
Proof. by intros s. Qed.
Lemma honest_check : honest check.
Proof. intros s. unfold check. by destruct s. Qed.
Lemma honest_fail_if b e : e <> LINEARS_OK -> honest (fail_if b e).
Proof. intros He s. unfold fail_if. by destruct b. Qed.
Lemma honest_quit_if b (v : A) m : honest m -> honest (quit_if b v m).
Proof. intros Hm s. unfold quit_if. case_if; [done|apply Hm]. Qed.
Lemma honest_if (b : bool) (m1 m2 : fc A) : honest m1 -> honest m2 -> honest (if b then m1 else m2).
Proof. by destruct b. Qed.
End Honest.

Create HintDb honest discriminated.
#[export] Hint Resolve honest_ret honest_bind honest_guarded honest_assign honest_check honest_if honest_quit_if : honest.
#[export] Hint Extern 1 (honest (fail_if _ _)) => apply honest_fail_if; discriminate : honest.
#[export] Hint Extern 2 => (progress intros) : honest.
#[export] Hint Extern 3 (honest (match ?x with _ => _ end)) => destruct x : honest.
#[export] Hint Extern 3 (honest (let _ := _ in _)) => (cbv zeta) : honest.
#[export] Hint Extern 4 (honest (lift2 _ _ _)) => (unfold lift2) : honest.
#[export] Hint Extern 4 (honest (lift1 _ _)) => (unfold lift1) : honest.
#[export] Hint Extern 4 (honest (store _)) => (unfold store) : honest.
#[export] Hint Extern 4 (honest (acc_store _)) => (unfold acc_store) : honest.
#[export] Hint Extern 4 (honest (FC_RATIO _ _)) => (unfold FC_RATIO) : honest.
Ltac solve_honest := solve [eauto 200 with honest].

(** The macros are expressions. *)
Class FcHonest (T W : Type) `{FcArith T W} := {
  honest_load t : honest (FC_LOAD t);
  honest_store w t : honest (FC_STORE w t);
  honest_i n : honest (FC_I n);
  honest_add a b : honest (FC_ADD a b);
  honest_sub a b : honest (FC_SUB a b);
  honest_mul a b : honest (FC_MUL a b);
  honest_div a b : honest (FC_DIV a b);
  honest_neg a : honest (FC_NEG a);
  honest_abs a : honest (FC_ABS a);
  honest_sqrt a : honest (FC_SQRT a);
  honest_hypot a b : honest (FC_HYPOT a b);
  honest_rescale a b c : honest (FC_RESCALE a b c);
  honest_wrap a : honest (FC_WRAP a);
  honest_sincos a o : honest (FC_SINCOS a o);
  honest_atan2 a b : honest (FC_ATAN2 a b);
  honest_acc_load w : honest (FC_ACC_LOAD w);
  honest_acc_store w c : honest (FC_ACC_STORE w c);
  honest_angle_store w t : honest (FC_ANGLE_STORE w t);
}.
#[export] Hint Resolve honest_load honest_store honest_i honest_add honest_sub honest_mul honest_div honest_neg
  honest_abs honest_sqrt honest_hypot honest_rescale honest_wrap honest_sincos honest_atan2 honest_acc_load
  honest_acc_store honest_angle_store : honest.

#[export] Instance fcq_honest (f : q_format) : @FcHonest Z Z (fcq f).
Proof.
  assert (forall a, honest (fcq_wrap a)) as Hw by (intros; apply honest_guarded).
  assert (forall a, honest (fcq31_load a)) as Hl by (intros; apply honest_guarded).
  assert (forall a o, honest (fcq15_store a o)) as H15 by (intros; apply honest_guarded).
  assert (forall a o, honest (fcq31_store a o)) as H31 by (intros; apply honest_guarded).
  assert (forall f, honest (fcq_call f)) as Hc by (intros; apply honest_guarded).
  constructor; intros; cbn; try apply honest_guarded; try (destruct f; apply honest_guarded).
  - unfold fcq_hypot, fcq_abs, fcq_div, fcq_mul, fcq_add, fcq_sqrt. solve_honest.
  - unfold fcq_sincos. solve_honest.
  - unfold fcq_atan2, fcq_abs, fcq_div. solve_honest.
  - unfold fcq_angle_store, fcq_i. destruct f; solve_honest.
Qed.

#[export] Instance float_honest (f : float_format) (lib : libm) : @FcHonest spec_float spec_float (fc_float f lib).
Proof.
  assert (forall a, honest (fl_load a)) as Hl by (intros; apply honest_guarded).
  assert (forall a o, honest (fl_store a o)) as Hs.
  { intros a o s. unfold fl_store. specialize (Hl a s). by destruct (fl_load a s). }
  constructor; intros; cbn; try apply Hl; try apply Hs.
  - unfold fl_div. solve_honest.
  - unfold fl_sqrt. solve_honest.
  - unfold fl_rescale. solve_honest.
  - apply honest_guarded.
  - unfold fl_sincos, fl_wrap. solve_honest.
  - unfold fl_atan2, fl_wrap. solve_honest.
  - unfold fl_angle_store, fl_wrap, fl_i. solve_honest.
Qed.

(** What every value a command can leave satisfies, whatever its status. *)
Definition leaves {A} (m : fc A) (Q : A -> Prop) : Prop :=
  forall s, match m s with Next a _ => Q a | Return _ => True end.

Lemma leaves_bind {A B} (m : fc A) (k : A -> fc B) Q : (forall a, leaves (k a) Q) -> leaves (m ≫= k) Q.
Proof. intros Hk s. unfold mbind, fc_bind. destruct (m s); [apply Hk|done]. Qed.

Lemma leaves_ret {A} (a : A) (Q : A -> Prop) : Q a -> leaves (mret (M:=fc) a) Q.
Proof. intros Ha s. exact Ha. Qed.


(** A run ends in one of two ways: the old object and an error, or OK and a value that the body leaves. *)
Lemma run_shape {R} (m : fc R) (Q : R -> Prop) old : honest m -> leaves m Q ->
  ((run m old).1 <> LINEARS_OK /\ (run m old).2 = old) \/ ((run m old).1 = LINEARS_OK /\ Q (run m old).2).
Proof.
  intros Hh Hl. specialize (Hh LINEARS_OK). specialize (Hl LINEARS_OK). unfold run.
  destruct (m LINEARS_OK) as [r s|s]; cbn; [|by left].
  destruct (decide (s = LINEARS_OK)) as [->|Hs]; [by right|left]. by destruct s.
Qed.
