(* ===== verification/Decomp.v ===== *)
(** * Factorizations: decomp_internal.h, decomp_template.h, decomp_lu.inc and decomp_cholesky.inc

    Boundary checks, the D_ macros with their sticky status, partial-pivot LU with
    its clients solve, inverse and determinant, and Cholesky, for the five formats.
    A matrix is its descriptor with its elements: once [validate] has passed, the
    buffers are disjoint but for inputs, which are only read.  The contents of the
    workspace after a call are unspecified by the interface and are not returned;
    the permutation, which a failing call may have written, is. *)
From Stdlib Require Import SpecFloat.
From S2P Require Import Prelude MachineInt Status Wide Numeric Memory Float Matrix FcMonad Cordic FcFloat.

(** ** decomp_internal.h *)

(** What the target decides beyond [abi]: size_t and int objects. *)
Record decomp_abi : Type := mk_decomp_abi {
  base_abi : abi; sizeof_size : Z; align_size : Z; sizeof_int : Z; align_int : Z }.

Section Ranges.
Variable target : decomp_abi.

Definition linears_decomp_range (pointer bytes alignment : Z) : linears_status_t :=
  if bytes =? 0 then LINEARS_OK
  else if (pointer =? 0) || negb (pointer mod alignment =? 0) then LINEARS_ERROR_ARGUMENT
  else if bytes >? UINTPTR_MAX (base_abi target) - pointer then LINEARS_ERROR_SIZE
  else LINEARS_OK.

Definition uintptr (x : Z) : Z := x mod (UINTPTR_MAX (base_abi target) + 1).

Definition linears_decomp_overlap (a a_bytes b b_bytes : Z) : bool :=
  negb (a_bytes =? 0) && negb (b_bytes =? 0) &&
  (a <? uintptr (b + b_bytes)) && (b <? uintptr (a + a_bytes)).

(** The saturating macros of linears.h. *)
Definition LINEARS_SIZE_MUL (a b : Z) : Z :=
  let max := SIZE_MAX (base_abi target) in
  if Z.lor a (if b =? 0 then 1 else 0) >? max / (if b =? 0 then 1 else b) then max else usize (base_abi target) (a * b).
Definition LINEARS_SIZE_ADD (a b : Z) : Z :=
  let max := SIZE_MAX (base_abi target) in
  if Z.lor a (if b =? 0 then 1 else 0) >? max - b then max else usize (base_abi target) (a + b).

Definition LINEARS_LU_WORKSPACE (n : Z) : Z := LINEARS_SIZE_MUL n n.
Definition LINEARS_SOLVE_WORKSPACE (n rhs : Z) : Z :=
  LINEARS_SIZE_ADD (LINEARS_SIZE_MUL n n) (LINEARS_SIZE_MUL n rhs).
Definition LINEARS_INVERSE_WORKSPACE (n : Z) : Z := LINEARS_SOLVE_WORKSPACE n n.
Definition LINEARS_DETERMINANT_WORKSPACE (n : Z) : Z := LINEARS_LU_WORKSPACE n.
Definition LINEARS_CHOLESKY_WORKSPACE (n : Z) : Z := LINEARS_LU_WORKSPACE n.
End Ranges.

(** ** The D_ macros: raw elements [R], working scalars [W] *)

Class DArith (R W : Type) := {
  D_KIND : numeric_kind;
  D_ZERO : W;
  D_ONE : W;
  D_ADD : W -> W -> fc W;
  D_SUB : W -> W -> fc W;
  D_MUL : W -> W -> fc W;
  D_DIV : W -> W -> fc W;
  D_SQRT : W -> fc W;
  D_NEG : W -> fc W;
  D_ABS : W -> fc W;
  D_CMP : W -> W -> Z;
  D_LOAD : R -> fc W;
  D_STORE : W -> R;
  D_OUTPUT_BOUNDS : W -> W -> linears_status_t;
  (** [value - a * b] *)
  D_SUB_PRODUCT : W -> W -> W -> fc W;
  (** [value] minus the dot product of the first [count] elements of two strided vectors. *)
  D_DOT_SUB : W -> (nat -> W) -> (nat -> W) -> nat -> fc W;
}.

(** A loop whose body has a sticky status, and one that returns on an error. *)
Fixpoint for_fc {S : Type} (from n : nat) (body : nat -> S -> fc S) (s : S) : fc S :=
  match n with
  | O => mret s
  | Datatypes.S n => s ← body from s; for_fc (Datatypes.S from) n body s
  end.

(** A block with [status] OK at its start: the status after it, and its values. *)
Definition settle {A} (m : fc A) (d : A) : linears_status_t * A :=
  match m LINEARS_OK with Next a s => (s, a) | Return s => (s, d) end.

(** ** The fixed formats *)

Section FixedArith.
Variable kind : numeric_kind.

(** D_IMPORT and D_QUANTIZE; a raw value outside the output range stores 0. *)
Definition D_IMPORT (value : Z) : Z :=
  match kind with Q15 => linears_fixed_from_q15 value | Q31 => linears_fixed_from_q31 value | _ => value end.
Definition D_QUANTIZE (value : Z) : Z :=
  match kind with
  | Q15 => default 0 (linears_fixed_to_q15 value (Some 0)).2
  | Q31 => default 0 (linears_fixed_to_q31 value (Some 0)).2
  | _ => value
  end.

Definition accum_call (f : linears_status_t * option linears_accum_t) (old : linears_accum_t) : fc linears_accum_t :=
  guarded old (f.1, default old f.2).

Definition fixed_sub_product (value a b : Z) : fc Z :=
  accumulator ← accum_call (linears_fixed_mac (Some (mk_accum 0 0)) value LINEARS_FIXED_ONE) (mk_accum 0 0);
  accumulator ← accum_call (linears_fixed_msu (Some accumulator) a b) accumulator;
  fcq_call (linears_accum_to_fixed accumulator).

Definition fixed_dot_sub (value : Z) (left right : nat -> Z) (count : nat) : fc Z :=
  accumulator ← accum_call (linears_fixed_mac (Some (mk_accum 0 0)) value LINEARS_FIXED_ONE) (mk_accum 0 0);
  accumulator ← for_fc 0 count (fun i accumulator =>
    accum_call (linears_fixed_msu (Some accumulator) (left i) (right i)) accumulator) accumulator;
  fcq_call (linears_accum_to_fixed accumulator).

Definition fixed_output_bounds (minimum maximum : Z) : linears_status_t :=
  match kind with
  | WORK => LINEARS_OK
  | _ => if (minimum <? - LINEARS_FIXED_ONE) || (maximum >? LINEARS_FIXED_ONE) then LINEARS_ERROR_RANGE else LINEARS_OK
  end.

Definition fixed_arith : DArith Z Z := {|
  D_KIND := kind;
  D_ZERO := 0;
  D_ONE := LINEARS_FIXED_ONE;
  D_ADD := fcq_add;
  D_SUB := fcq_sub;
  D_MUL := fcq_mul;
  D_DIV := fcq_div;
  D_SQRT := fcq_sqrt;
  D_NEG := fcq_neg;
  D_ABS := fcq_abs;
  D_CMP := fcq_cmp;
  D_LOAD := fun value => mret (D_IMPORT value);
  D_STORE := D_QUANTIZE;
  D_OUTPUT_BOUNDS := fixed_output_bounds;
  D_SUB_PRODUCT := fixed_sub_product;
  D_DOT_SUB := fixed_dot_sub;
|}.
End FixedArith.

(** ** float and double *)

Section NativeArith.
Variable kind : numeric_kind.
Let f : float_format := kind_format kind.

(** D_LOCAL(finite): the value, and the first failure. *)
Definition finite (value : spec_float) : fc spec_float := fun s =>
  Next value (if negb (isfinite value) && status_ok s then LINEARS_ERROR_RANGE else s).

(** D_BINARY_ADAPTER *)
Definition native_adapter (value : spec_float) : fc spec_float := fun s =>
  if status_ok s then finite value s else Next fzero s.

Definition native_sub_product (value a b : spec_float) : fc spec_float :=
  product ← native_adapter (fmul f a b);
  native_adapter (fsub f value product).

Definition native_dot_sub (value : spec_float) (left right : nat -> spec_float) (count : nat) : fc spec_float :=
  for_fc 0 count (fun i value => native_sub_product value (left i) (right i)) value.

Definition native_output_bounds (minimum maximum : spec_float) : linears_status_t :=
  if negb (isfinite minimum) || negb (isfinite maximum) then LINEARS_ERROR_RANGE else LINEARS_OK.

Definition native_arith : DArith spec_float spec_float := {|
  D_KIND := kind;
  D_ZERO := fzero;
  D_ONE := fone f;
  D_ADD := fun a b => native_adapter (fadd f a b);
  D_SUB := fun a b => native_adapter (fsub f a b);
  D_MUL := fun a b => native_adapter (fmul f a b);
  D_DIV := fun a b => native_adapter (fdiv f a b);
  D_SQRT := fun a => native_adapter (fsqrt f a);
  D_NEG := fun a => mret (fneg a);
  D_ABS := fun a => mret (fabs a);
  D_CMP := native_cmp;
  D_LOAD := finite;
  D_STORE := fun value => value;
  D_OUTPUT_BOUNDS := native_output_bounds;
  D_SUB_PRODUCT := native_sub_product;
  D_DOT_SUB := native_dot_sub;
|}.
End NativeArith.

(** ** Boundary checks *)

(** A matrix pointer: the descriptor with its address (0 is NULL), and the elements behind it. *)
Record operand (R : Type) := mk_operand { descriptor : linears_matrix_t; elements : list R }.
Arguments mk_operand {R}. Arguments descriptor {R}. Arguments elements {R}.

(** A typed workspace passed by value: its address and its capacity in elements. *)
Record workspace := mk_workspace { ws_data : Z; ws_capacity : Z }.

(** Caller metadata: an address and the elements there. *)
Record metadata (A : Type) := mk_metadata { pointer : Z; contents : A }.
Arguments mk_metadata {A}. Arguments pointer {A}. Arguments contents {A}.

Fixpoint first_error (l : list linears_status_t) : linears_status_t :=
  match l with
  | [] => LINEARS_OK
  | s :: rest => if status_ok s then first_error rest else s
  end.

Section Checks.
Context {R W : Type} `{DArith R W} (target : decomp_abi).
Let SIZE_MAX := SIZE_MAX (base_abi target).

(** sizeof(D_RAW), sizeof(D_SCALAR) and their alignments. *)
Definition sizeof_raw : Z := element_size D_KIND.
Definition align_raw : Z := element_alignment (base_abi target) D_KIND.
Definition scalar_kind : numeric_kind := match D_KIND with F32 => F32 | F64 => F64 | _ => WORK end.
Definition sizeof_scalar : Z := element_size scalar_kind.
Definition align_scalar : Z := element_alignment (base_abi target) scalar_kind.

Definition descriptors (matrices : list linears_matrix_t) : linears_status_t :=
  first_error (map (fun m => linears_decomp_range target (at_ m) (sizeof_matrix (base_abi target)) (align_matrix (base_abi target))) matrices).

(** The bytes of a matrix, as the checks after the size test compute them. *)
Definition matrix_bytes (m : linears_matrix_t) : Z :=
  usize (base_abi target) (usize (base_abi target) (rows m * cols m) * sizeof_raw).

Definition validate_matrix (w : workspace) (workspace_bytes : Z) (m : linears_matrix_t) : linears_status_t :=
  let elements := LINEARS_SIZE_MUL target (rows m) (cols m) in
  let bytes := LINEARS_SIZE_MUL target elements sizeof_raw in
  if (elements =? SIZE_MAX) || (bytes =? SIZE_MAX) then LINEARS_ERROR_SIZE
  else
    let status := linears_decomp_range target (data m) bytes align_raw in
    if negb (status_ok status) then status
    else if linears_decomp_overlap target (ws_data w) workspace_bytes (at_ m) (sizeof_matrix (base_abi target)) ||
            linears_decomp_overlap target (ws_data w) workspace_bytes (data m) bytes
    then LINEARS_ERROR_ALIAS else LINEARS_OK.

(** The alias test of matrices [i] and [j]. *)
Definition validate_pair (input_count : nat) (i j : nat) (x y : linears_matrix_t) : linears_status_t :=
  if linears_decomp_overlap target (data x) (matrix_bytes x) (at_ y) (sizeof_matrix (base_abi target)) then LINEARS_ERROR_ALIAS
  else if (j <=? i)%nat then LINEARS_OK
  else if (i <? input_count)%nat && (j <? input_count)%nat then LINEARS_OK
  else if linears_decomp_overlap target (at_ x) (sizeof_matrix (base_abi target)) (at_ y) (sizeof_matrix (base_abi target)) ||
          linears_decomp_overlap target (data x) (matrix_bytes x) (data y) (matrix_bytes y)
  then LINEARS_ERROR_ALIAS else LINEARS_OK.

(** Loads every element for its status only; trivial in the fixed formats. *)
Definition validate_values (inputs : list (list R)) : linears_status_t :=
  first_error (map (fun value => (settle (D_LOAD value) D_ZERO).1) (concat inputs)).

Definition validate (matrices : list (operand R)) (input_count : nat) (w : workspace) (required : Z) : linears_status_t :=
  let ms := map descriptor matrices in
  let workspace_bytes := LINEARS_SIZE_MUL target required sizeof_scalar in
  if (required =? SIZE_MAX) || (workspace_bytes =? SIZE_MAX) then LINEARS_ERROR_SIZE
  else if ws_capacity w <? required then LINEARS_ERROR_WORKSPACE
  else
    let status := linears_decomp_range target (ws_data w) workspace_bytes align_scalar in
    if negb (status_ok status) then
      (if bool_decide (status = LINEARS_ERROR_ARGUMENT) then LINEARS_ERROR_WORKSPACE else status)
    else first_error
      (map (validate_matrix w workspace_bytes) ms ++
       concat (imap (fun i x => imap (fun j y => validate_pair input_count i j x y) ms) ms) ++
       [validate_values (map elements (take input_count matrices))]).

(** D_LOCAL(metadata) *)
Definition check_metadata (address bytes alignment : Z) (matrices : list linears_matrix_t) (w : workspace)
    (required : Z) : linears_status_t :=
  let status := linears_decomp_range target address bytes alignment in
  if negb (status_ok status) then status
  else if linears_decomp_overlap target address bytes (ws_data w) (usize (base_abi target) (required * sizeof_scalar))
  then LINEARS_ERROR_ALIAS
  else first_error (map (fun m =>
    if linears_decomp_overlap target address bytes (at_ m) (sizeof_matrix (base_abi target)) ||
       linears_decomp_overlap target address bytes (data m) (matrix_bytes m)
    then LINEARS_ERROR_ALIAS else LINEARS_OK) matrices).
End Checks.

(** ** Working arrays *)

Section Arrays.
Context {R W : Type} `{DArith R W}.
Implicit Types (a b : list W).

(** [a[i * stride + j]] *)
Definition at_index (stride : nat) a (i j : nat) : W := nth (i * stride + j) a D_ZERO.
Definition set_index (stride : nat) (i j : nat) (v : W) a : list W := <[(i * stride + j)%nat := v]> a.

(** The import loop of the entry points. *)
Definition load_all (values : list R) : linears_status_t * list W :=
  settle (for_fc 0 (length values) (fun i a =>
    match values !! i with
    | Some value => v ← D_LOAD value; mret (a ++ [v])
    | None => mret a
    end) []) [].

Definition swap_rows (stride k pivot : nat) a : list W :=
  for_up 0 stride (fun j a =>
    let temporary := at_index stride a k j in
    set_index stride pivot j temporary (set_index stride k j (at_index stride a pivot j) a)) a.

(** D_LOCAL(check_symmetric) *)
Definition check_symmetric (n : nat) a : linears_status_t :=
  first_error (concat (map (fun i => map (fun j =>
    if D_CMP (at_index n a i j) (at_index n a j i) =? 0 then LINEARS_OK else LINEARS_ERROR_DIMENSION)
    (seq (i + 1) (n - (i + 1)))) (seq 0 n))).

(** One step of the running extrema. *)
Definition extrema (value : W) (bounds : W * W) : W * W :=
  (if D_CMP value bounds.1 <? 0 then value else bounds.1,
   if 0 <? D_CMP value bounds.2 then value else bounds.2).

(** D_LOCAL(check_block), D_LOCAL(store_block) *)
Definition check_block (values : list W) : linears_status_t :=
  let bounds := foldl (fun bounds value => extrema value bounds) (D_ZERO, D_ZERO) values in
  D_OUTPUT_BOUNDS bounds.1 bounds.2.
Definition store_block (values : list W) : list R := map D_STORE values.

(** ** decomp_lu.inc: the factorization *)

Record lu_state := mk_lu { lu_a : list W; lu_b : list W; lu_permutation : option (list nat); lu_parity : Z }.

Definition swap_entries (k pivot : nat) (p : list nat) : list nat :=
  <[pivot := nth k p 0%nat]> (<[k := nth pivot p 0%nat]> p).

(** The row of the largest magnitude in column [k], from the diagonal down; the first on ties. *)
Definition lu_pivot (n k : nat) a : linears_status_t * (nat * W) :=
  settle (maximum ← D_ABS (at_index n a k k);
          for_fc (k + 1) (n - (k + 1)) (fun i best =>
            magnitude ← D_ABS (at_index n a i k);
            mret (if 0 <? D_CMP magnitude best.2 then (i, magnitude) else best)) (k, maximum)) (k, D_ZERO).

Definition lu_exchange (n rhs k pivot : nat) (st : lu_state) : lu_state :=
  if (pivot =? k)%nat then st
  else mk_lu (swap_rows n k pivot (lu_a st)) (swap_rows rhs k pivot (lu_b st))
         (swap_entries k pivot <$> lu_permutation st) (- lu_parity st).

(** The elimination of row [i] by row [k], and of the same row of the right-hand side. *)
Definition lu_eliminate (n rhs k i : nat) (st : lu_state) : linears_status_t * lu_state :=
  settle (factor ← D_DIV (at_index n (lu_a st) i k) (at_index n (lu_a st) k k);
          a ← for_fc (k + 1) (n - (k + 1)) (fun j a =>
                v ← D_SUB_PRODUCT (at_index n a i j) factor (at_index n a k j);
                mret (set_index n i j v a)) (set_index n i k factor (lu_a st));
          b ← for_fc 0 rhs (fun j b =>
                v ← D_SUB_PRODUCT (at_index rhs b i j) factor (at_index rhs b k j);
                mret (set_index rhs i j v b)) (lu_b st);
          mret (mk_lu a b (lu_permutation st) (lu_parity st))) st.

Definition lu_column (n rhs k : nat) (st : lu_state) : linears_status_t * lu_state :=
  let r := lu_pivot n k (lu_a st) in
  if negb (status_ok r.1) then (r.1, st)
  else if D_CMP r.2.2 D_ZERO =? 0 then (LINEARS_ERROR_SINGULAR, st)
  else for_status (k + 1) (n - (k + 1)) (lu_eliminate n rhs k) (lu_exchange n rhs k r.2.1 st).

Definition lu_factor (a : list W) (n : nat) (b : list W) (rhs : nat) (permutation : option (list nat))
    : linears_status_t * lu_state :=
  for_status 0 n (lu_column n rhs)
    (mk_lu a b ((fun p => seq 0 n ++ drop n p) <$> permutation) 1).

Definition back_substitute (lu : list W) (n : nat) (b : list W) (rhs : nat) : linears_status_t * list W :=
  for_status 0 n (fun from_last b =>
    let row := (n - 1 - from_last)%nat in
    for_status 0 rhs (fun column b =>
      settle (value ← (if (row + 1 <? n)%nat
                       then D_DOT_SUB (at_index rhs b row column)
                              (fun i => at_index n lu row (row + 1 + i))
                              (fun i => at_index rhs b (row + 1 + i) column) (n - row - 1)
                       else mret (at_index rhs b row column));
              x ← D_DIV value (at_index n lu row row);
              mret (set_index rhs row column x b)) b) b) b.

(** ** decomp_cholesky.inc: the factorization *)

Definition cholesky_entry (n i j : nat) (a : list W) : linears_status_t * list W :=
  let r := settle (D_DOT_SUB (at_index n a i j) (fun k => at_index n a i k) (fun k => at_index n a j k) j) D_ZERO in
  if negb (status_ok r.1) then (r.1, a)
  else if (i =? j)%nat then
    (if D_CMP r.2 D_ZERO <=? 0 then (LINEARS_ERROR_NOT_POSITIVE_DEFINITE, a)
     else settle (v ← D_SQRT r.2; mret (set_index n i j v a)) a)
  else settle (v ← D_DIV r.2 (at_index n a j j); mret (set_index n i j v a)) a.

Definition cholesky_row (n i : nat) (a : list W) : linears_status_t * list W :=
  let r := for_status 0 (i + 1) (cholesky_entry n i) a in
  if status_ok r.1
  then (LINEARS_OK, for_up (i + 1) (n - (i + 1)) (fun j a => set_index n i j D_ZERO a) r.2)
  else r.

Definition cholesky_factor (n : nat) (a : list W) : linears_status_t * list W :=
  for_status 0 n (cholesky_row n) a.
End Arrays.

(** ** The determinant's product of pivots *)

Class DDeterminant (W : Type) := {
  (** Over the factored array, its order and the sign of the row exchanges. *)
  D_DIAGONAL_PRODUCT : list W -> nat -> Z -> linears_status_t * W }.

(** Fixed: large factors first while the product is at most one, small ones otherwise. *)
Definition diagonal_choice (n i : nat) (product : Z) (lu : list Z) : fc nat :=
  let entry j := nth (j * n + j) lu 0 in
  magnitude ← fcq_abs product;
  selected ← fcq_abs (entry i);
  let prefer_large := fcq_cmp magnitude LINEARS_FIXED_ONE <=? 0 in
  best ← for_fc (i + 1) (n - (i + 1)) (fun j best =>
    candidate ← fcq_abs (entry j);
    mret (if (prefer_large && (0 <? fcq_cmp candidate best.2)) || (negb prefer_large && (fcq_cmp candidate best.2 <? 0))
          then (j, candidate) else best)) (i, selected);
  mret best.1.

Definition diagonal_factor (n i : nat) (st : Z * list Z) : linears_status_t * (Z * list Z) :=
  let '(product, lu) := st in
  let entry j := nth (j * n + j) lu 0 in
  let r := settle (diagonal_choice n i product lu) i in
  if negb (status_ok r.1) then (r.1, st)
  else
    let lu := if (r.2 =? i)%nat then lu
              else <[(r.2 * n + r.2)%nat := entry i]> (<[(i * n + i)%nat := entry r.2]> lu) in
    settle (product ← fcq_mul product (nth (i * n + i) lu 0); mret (product, lu)) st.

Definition fixed_diagonal_product (lu : list Z) (n : nat) (sign : Z) : linears_status_t * Z :=
  let r := for_status 0 n (diagonal_factor n) (LINEARS_FIXED_ONE, lu) in
  if negb (status_ok r.1) then (r.1, r.2.1)
  else if sign <? 0 then settle (fcq_neg r.2.1) r.2.1 else (LINEARS_OK, r.2.1).

Definition fixed_determinant : DDeterminant Z := {| D_DIAGONAL_PRODUCT := fixed_diagonal_product |}.

(** Native: mantissas and exponents apart. *)
Definition native_diagonal_product (kind : numeric_kind) (lu : list spec_float) (n : nat) (sign : Z)
    : linears_status_t * spec_float :=
  let f := kind_format kind in
  let r := for_up 0 n (fun i st =>
    let factor := FREXP f (nth (i * n + i) lu fzero) in
    let product := FREXP f (fmul f st.1 factor.1) in
    (product.1, st.2 + (factor.2 + product.2))) (fone f, 0) in
  let product := if sign <? 0 then fneg r.1 else r.1 in
  if r.2 >? INT32_MAX then (LINEARS_ERROR_RANGE, product)
  else if r.2 <? INT32_MIN then (LINEARS_OK, fzero)
  else settle (finite (LDEXP f product r.2)) product.

Definition native_determinant (kind : numeric_kind) : DDeterminant spec_float :=
  {| D_DIAGONAL_PRODUCT := native_diagonal_product kind |}.

(** ** The entry points *)

Section Entry.
Context {R W : Type} `{DArith R W} (target : decomp_abi).

(** The elements of an operand with a prefix overwritten. *)
Definition overwrite {A} (new old : list A) : list A := new ++ drop (length new) old.
Definition commit (m : operand R) (values : list R) : operand R :=
  mk_operand (descriptor m) (overwrite values (elements m)).

(** Every entry of an n-by-n array, row by row. *)
Definition grid {A} (n : nat) (f : nat -> nat -> A) : list A :=
  concat (map (fun i => map (f i) (seq 0 n)) (seq 0 n)).

(** The working copy of the first [count] elements of an input. *)
Definition import (m : operand R) (count : nat) : linears_status_t * list W := load_all (take count (elements m)).

Definition square (n : Z) (ms : list linears_matrix_t) : bool :=
  forallb (fun m => (rows m =? n) && (cols m =? n)) ms.

Definition lu_result : Type := operand R * operand R * metadata (list nat) * metadata Z.

Definition lu_bounds (n : nat) (a : list W) : linears_status_t :=
  let scan pick bounds :=
    foldl (fun bounds ij => if pick ij.1 ij.2 : bool then extrema (at_index n a ij.1 ij.2) bounds else bounds) bounds
      (grid n pair) in
  let l := scan (fun i j => (j <? i)%nat) (D_ZERO, if (n =? 0)%nat then D_ZERO else D_ONE) in
  let u := scan (fun i j => (i <=? j)%nat) (D_ZERO, D_ZERO) in
  first_error [D_OUTPUT_BOUNDS l.1 l.2; D_OUTPUT_BOUNDS u.1 u.2].

Definition linears_lu (a l u : operand R) (permutation : metadata (list nat)) (permutation_capacity : Z)
    (parity : metadata Z) (w : workspace) : linears_status_t * lu_result :=
  let old := (l, u, permutation, parity) in
  let matrices := [a; l; u] in
  let ms := map descriptor matrices in
  require (descriptors target ms) old (
  let n := rows (descriptor a) in
  if negb (square n ms) then (LINEARS_ERROR_DIMENSION, old)
  else
    let count := LINEARS_LU_WORKSPACE target n in
    let bytes := usize (base_abi target) (n * sizeof_size target) in
    require (validate target matrices 1 w count) old (
    if permutation_capacity <? n then (LINEARS_ERROR_WORKSPACE, old)
    else
      require (check_metadata target (pointer permutation) bytes (align_size target) ms w count) old (
      require (check_metadata target (pointer parity) (sizeof_int target) (align_int target) ms w count) old (
      if linears_decomp_overlap target (pointer permutation) bytes (pointer parity) (sizeof_int target)
      then (LINEARS_ERROR_ALIAS, old)
      else
        let work := import a (Z.to_nat count) in
        require work.1 old (
        let n := Z.to_nat n in
        let r := lu_factor work.2 n [] 0 (if pointer permutation =? 0 then None else Some (contents permutation)) in
        let permutation := mk_metadata (pointer permutation) (default (contents permutation) (lu_permutation r.2)) in
        let old := (l, u, permutation, parity) in
        require r.1 old (
        require (lu_bounds n (lu_a r.2)) old (
        let value := at_index n (lu_a r.2) in
        (LINEARS_OK,
         (commit l (grid n (fun i j => D_STORE (if (i =? j)%nat then D_ONE else if (j <? i)%nat then value i j else D_ZERO))),
          commit u (grid n (fun i j => D_STORE (if (i <=? j)%nat then value i j else D_ZERO))),
          permutation, mk_metadata (pointer parity) (lu_parity r.2)))))))))).

(** The common end of solve, inverse and Cholesky: preflight, then commit. *)
Definition deliver_block (values : list W) (out : operand R) : linears_status_t * operand R :=
  require (check_block values) out (LINEARS_OK, commit out (store_block values)).

(** Factor [a] with the right-hand side [b], substitute back, deliver. *)
Definition solve_work (a : list W) (n : nat) (b : list W) (rhs : nat) (out : operand R)
    : linears_status_t * operand R :=
  let r := lu_factor a n b rhs None in
  require r.1 out (
  let x := back_substitute (lu_a r.2) n (lu_b r.2) rhs in
  require x.1 out (deliver_block x.2 out)).

Definition linears_solve (a b x : operand R) (w : workspace) : linears_status_t * operand R :=
  let matrices := [a; b; x] in
  require (descriptors target (map descriptor matrices)) x (
  let n := rows (descriptor a) in
  let rhs := cols (descriptor b) in
  if negb (cols (descriptor a) =? n) || negb (rows (descriptor b) =? n) ||
     negb (rows (descriptor x) =? n) || negb (cols (descriptor x) =? rhs) then (LINEARS_ERROR_DIMENSION, x)
  else
    let required := LINEARS_SOLVE_WORKSPACE target n rhs in
    require (validate target matrices 2 w required) x (
    let n := Z.to_nat n in
    let rhs := Z.to_nat rhs in
    let wa := import a (n * n) in
    let wb := import b (n * rhs) in
    require wa.1 x (require wb.1 x (solve_work wa.2 n wb.2 rhs x)))).

Definition linears_inverse (a inverse : operand R) (w : workspace) : linears_status_t * operand R :=
  let matrices := [a; inverse] in
  let ms := map descriptor matrices in
  require (descriptors target ms) inverse (
  let n := rows (descriptor a) in
  if negb (square n ms) then (LINEARS_ERROR_DIMENSION, inverse)
  else
    let required := LINEARS_INVERSE_WORKSPACE target n in
    require (validate target matrices 1 w required) inverse (
    let n := Z.to_nat n in
    let wa := import a (n * n) in
    require wa.1 inverse (
      solve_work wa.2 n (grid n (fun i j => if (i =? j)%nat then D_ONE else D_ZERO)) n inverse))).

Definition linears_determinant `{DDeterminant W} (a determinant : operand R) (w : workspace)
    : linears_status_t * operand R :=
  let matrices := [a; determinant] in
  require (descriptors target (map descriptor matrices)) determinant (
  let n := rows (descriptor a) in
  if negb (cols (descriptor a) =? n) || negb (rows (descriptor determinant) =? 1) ||
     negb (cols (descriptor determinant) =? 1) then (LINEARS_ERROR_DIMENSION, determinant)
  else
    let count := LINEARS_DETERMINANT_WORKSPACE target n in
    require (validate target matrices 1 w count) determinant (
    let wa := import a (Z.to_nat count) in
    require wa.1 determinant (
    let r := lu_factor wa.2 (Z.to_nat n) [] 0 None in
    let result := if bool_decide (r.1 = LINEARS_ERROR_SINGULAR) then (LINEARS_OK, D_ZERO)
                  else if status_ok r.1 then D_DIAGONAL_PRODUCT (lu_a r.2) (Z.to_nat n) (lu_parity r.2)
                  else (r.1, D_ZERO) in
    require result.1 determinant (deliver_block [result.2] determinant)))).

Definition linears_cholesky (a l : operand R) (w : workspace) : linears_status_t * operand R :=
  let matrices := [a; l] in
  let ms := map descriptor matrices in
  require (descriptors target ms) l (
  let n := rows (descriptor a) in
  if negb (square n ms) then (LINEARS_ERROR_DIMENSION, l)
  else
    let count := LINEARS_CHOLESKY_WORKSPACE target n in
    require (validate target matrices 1 w count) l (
    let work := import a (Z.to_nat count) in
    require work.1 l (
    let n := Z.to_nat n in
    require (check_symmetric n work.2) l (
    let r := cholesky_factor n work.2 in
    require r.1 l (deliver_block r.2 l))))).
End Entry.
