(* ===== verification/DecompQ.v ===== *)
(** * Factorizations: loops, arrays and the fixed-point operations

    Rules for the loops of Decomp.v, the array laws of row-major storage, and what
    each fixed D_ operation yields; shared by the LU and Cholesky theorems. *)
From S2P Require Import Prelude MachineInt Status Wide Numeric Memory Float Matrix FcMonad Cordic FcFloat FcVariants Decomp.

(** ** Loops *)

Lemma settle_ok {A} (m : fc A) d (Q : A -> Prop) : wp m Q -> (settle m d).1 = LINEARS_OK -> Q (settle m d).2.
Proof. unfold wp, settle. destruct (m LINEARS_OK); cbn; auto. intros HQ E. by destruct (HQ E). Qed.

Lemma sticky_for_fc {S} (body : nat -> S -> fc S) : (forall i s, sticky (body i s)) ->
  forall n from s, sticky (for_fc from n body s).
Proof. intros Hb n. induction n as [|n IH]; intros from s; cbn; [solve_sticky|]. apply sticky_bind; auto. Qed.

Lemma wp_for_fc {S} (I : nat -> S -> Prop) (body : nat -> S -> fc S) (from n : nat) s :
  (forall i s, sticky (body i s)) ->
  (forall i s, (from <= i < from + n)%nat -> I i s -> wp (body i s) (I (i + 1)%nat)) ->
  I from s -> wp (for_fc from n body s) (I (from + n)%nat).
Proof.
  intros Hst. revert from s. induction n as [|n IH]; intros from s Hb Hs; cbn.
  - rewrite Nat.add_0_r. by apply wp_ret.
  - apply wp_bind; [|intros; by apply sticky_for_fc].
    eapply wp_mono; [apply Hb; [lia|done]|]. intros s' Hs'.
    replace (from + Datatypes.S n)%nat with (Datatypes.S from + n)%nat by lia. apply IH.
    + intros i t Hi. apply Hb. lia.
    + by rewrite Nat.add_1_r in Hs'.
Qed.

Lemma for_status_ok {S} (I : nat -> S -> Prop) (body : nat -> S -> linears_status_t * S) (from n : nat) s :
  (forall i s, (from <= i < from + n)%nat -> I i s -> (body i s).1 = LINEARS_OK -> I (i + 1)%nat (body i s).2) ->
  I from s -> (for_status from n body s).1 = LINEARS_OK -> I (from + n)%nat (for_status from n body s).2.
Proof.
  revert from s. induction n as [|n IH]; intros from s Hb Hs; cbn; [by rewrite Nat.add_0_r|].
  destruct (status_ok (body from s).1) eqn:E; [|by intros E'; rewrite E' in E].
  intros E'. replace (from + Datatypes.S n)%nat with (Datatypes.S from + n)%nat by lia. apply IH; [| |done].
  - intros i t Hi. apply Hb. lia.
  - apply status_ok_true in E. rewrite <- Nat.add_1_r. apply Hb; [lia|done|done].
Qed.

(** ** Row-major arrays *)

Lemma cell_inj n i j i' j' : (j < n)%nat -> (j' < n)%nat -> (i * n + j = i' * n + j')%nat -> i = i' /\ j = j'.
Proof.
  intros Hj Hj' E. assert (i = i') as ->; [|lia].
  destruct (Nat.lt_trichotomy i i') as [Hl|[He|Hl]]; [|done|]; nia.
Qed.

Lemma cell_lt n m i j : (i < m)%nat -> (j < n)%nat -> (i * n + j < m * n)%nat.
Proof. intros. nia. Qed.

Section Arrays.
Variable kind : numeric_kind.
#[local] Hint Extern 0 (DArith _ Z) => exact (fixed_arith kind) : typeclass_instances.
Implicit Types (a : list Z) (n i j k : nat).

Lemma length_set n i j v a : length (set_index n i j v a) = length a.
Proof. apply length_insert. Qed.

Lemma set_range n i j v a : Forall is_i64 a -> is_i64 v -> Forall is_i64 (set_index n i j v a).
Proof. intros. by apply Forall_insert. Qed.

Lemma at_range n i j a : Forall is_i64 a -> is_i64 (at_index n a i j).
Proof.
  intros Ha. unfold at_index. rewrite nth_lookup. destruct (a !! _) eqn:E; cbn; [|rlia].
  by eapply Forall_lookup_1 in E.
Qed.

Lemma at_set n i j i' j' v a : (j < n)%nat -> (j' < n)%nat -> (i * n + j < length a)%nat ->
  at_index n (set_index n i j v a) i' j' = if decide (i = i' /\ j = j') then v else at_index n a i' j'.
Proof.
  intros Hj Hj' Hlen. unfold at_index, set_index. rewrite !nth_lookup. case_decide as E.
  - destruct E as [-> ->]. rewrite list_lookup_insert_eq by lia. done.
  - rewrite list_lookup_insert_ne; [done|]. intros Heq. by apply E, (cell_inj n).
Qed.

(** Two rows of [m] exchanged. *)
Definition rows_moved m n (k p : nat) a b : Prop :=
  forall i j, (i < m)%nat -> (j < n)%nat ->
    at_index n b i j = at_index n a (if decide (i = k) then p else if decide (i = p) then k else i) j.
Definition rows_swapped n : nat -> nat -> list Z -> list Z -> Prop := rows_moved n n.

Lemma swap_rows_moved m n k p a : (k < m)%nat -> (p < m)%nat -> k <> p -> length a = (m * n)%nat -> Forall is_i64 a ->
  length (swap_rows n k p a) = (m * n)%nat /\ Forall is_i64 (swap_rows n k p a) /\ rows_moved m n k p a (swap_rows n k p a).
Proof.
  intros Hk Hp Hne Hlen Ha.
  pose (I := fun (c : nat) b => length b = (m * n)%nat /\ Forall is_i64 b /\
    forall i j, (i < m)%nat -> (j < n)%nat -> at_index n b i j =
      at_index n a (if decide (j < c)%nat then if decide (i = k) then p else if decide (i = p) then k else i else i) j).
  enough (I n (swap_rows n k p a)) as (Hl & Hf & Hv).
  { split; [done|]. split; [done|]. intros i j Hi Hj. rewrite Hv by done. by rewrite decide_True. }
  unfold swap_rows. apply (for_up_rule _ I n); [|lia|].
  - intros c b Hc (Hl & Hf & Hv). unfold I. rewrite !length_set. split; [done|].
    split; [by do 2 (apply set_range; [|by apply at_range])|]. intros i j Hi Hj.
    pose proof (cell_lt n m k c Hk Hc). pose proof (cell_lt n m p c Hp Hc).
    rewrite !at_set by (rewrite ?length_set; lia).
    repeat case_decide; rewrite ?Hv by done; repeat case_decide; try lia; intuition (subst; try lia); done.
  - split; [done|]. split; [done|]. intros i j Hi Hj. by rewrite decide_False by lia.
Qed.

Lemma swap_rows_spec n k p a : (k < n)%nat -> (p < n)%nat -> k <> p -> length a = (n * n)%nat -> Forall is_i64 a ->
  length (swap_rows n k p a) = (n * n)%nat /\ Forall is_i64 (swap_rows n k p a) /\ rows_swapped n k p a (swap_rows n k p a).
Proof. apply swap_rows_moved. Qed.
End Arrays.

(** ** The fixed operations *)

Lemma div_nearest_error_abs n d : d <> 0 -> 2 * Z.abs (div_nearest n d * d - n) <= Z.abs d.
Proof.
  intros Hd. destruct (Z.lt_trichotomy d 0) as [Hn|[->|Hp]]; [|done|by rewrite (Z.abs_eq d) by lia; apply div_nearest_error].
  assert (div_nearest n d = - div_nearest n (- d)) as E.
  { unfold div_nearest. rewrite Z.abs_opp, Z.sgn_opp. ring. }
  pose proof (div_nearest_error n (- d) ltac:(lia)). rewrite E. lia.
Qed.

Lemma accum_call_sticky r old : sticky (accum_call r old).
Proof. apply sticky_guarded. Qed.
#[export] Hint Resolve accum_call_sticky fcq_call_sticky : sticky.

Lemma fixed_sub_product_sticky v a b : sticky (fixed_sub_product v a b).
Proof. unfold fixed_sub_product. solve_sticky. Qed.

Lemma fixed_dot_sub_sticky v l r n : sticky (fixed_dot_sub v l r n).
Proof.
  unfold fixed_dot_sub. apply sticky_bind; [solve_sticky|]. intros acc.
  apply sticky_bind; [apply sticky_for_fc|]; solve_sticky.
Qed.
#[export] Hint Resolve fixed_sub_product_sticky fixed_dot_sub_sticky : sticky.

Lemma accum_mac_wp s a b : accum_ok s -> is_i64 a -> is_i64 b ->
  wp (accum_call (linears_fixed_mac (Some s) a b) s)
    (fun r => accum_ok r /\ accum_value r = accum_value s + a * b).
Proof.
  intros Hs Ha Hb. destruct (linears_fixed_mac_msu_spec s a b Hs Ha Hb) as [(r & -> & Hr & Hv) _].
  apply wp_guarded. unfold deliver. destruct (fits_i128 _) eqn:E; cbn; [|done].
  apply fits_i128_spec in E. auto.
Qed.

Lemma accum_msu_wp s a b : accum_ok s -> is_i64 a -> is_i64 b ->
  wp (accum_call (linears_fixed_msu (Some s) a b) s)
    (fun r => accum_ok r /\ accum_value r = accum_value s - a * b).
Proof.
  intros Hs Ha Hb. destruct (linears_fixed_mac_msu_spec s a b Hs Ha Hb) as [_ (r & -> & Hr & Hv)].
  apply wp_guarded. unfold deliver. destruct (fits_i128 _) eqn:E; cbn; [|done].
  apply fits_i128_spec in E. auto.
Qed.

Lemma accum_to_fixed_wp s : accum_ok s ->
  wp (fcq_call (linears_accum_to_fixed s)) (fun r => r = div_nearest (accum_value s) LINEARS_FIXED_ONE /\ is_i64 r).
Proof. intros Hs. apply fcq_call_wp. by destruct (linears_accum_to_spec s (Some 0) Hs) as (-> & _ & _). Qed.

Definition sum_to (n : nat) (f : nat -> Z) : Z := foldr (fun i s => s + f i) 0 (rev (seq 0 n)).

Lemma sum_to_S n f : sum_to (S n) f = sum_to n f + f n.
Proof. unfold sum_to. rewrite seq_S, rev_app_distr. done. Qed.

Lemma sum_to_ext n f g : (forall i, (i < n)%nat -> f i = g i) -> sum_to n f = sum_to n g.
Proof. induction n as [|n IH]; intros E; [done|]. rewrite !sum_to_S, IH, E by auto with lia. done. Qed.

Lemma sum_to_tail (m d : nat) f : (forall t, (m <= t < m + d)%nat -> f t = 0) -> sum_to (m + d) f = sum_to m f.
Proof.
  induction d as [|d IH]; intros H; [by rewrite Nat.add_0_r|].
  rewrite Nat.add_succ_r, sum_to_S, IH by (intros; apply H; lia). rewrite H by lia. lia.
Qed.

Lemma zero_accum : accum_ok (mk_accum 0 0) /\ accum_value (mk_accum 0 0) = 0.
Proof. split; [split; cbn; rlia|reflexivity]. Qed.

(** A value minus a dot product, rounded once. *)
Lemma fixed_dot_sub_wp v l r n : is_i64 v -> (forall i, (i < n)%nat -> is_i64 (l i) /\ is_i64 (r i)) ->
  wp (fixed_dot_sub v l r n) (fun x => is_i64 x /\
    x = div_nearest (v * LINEARS_FIXED_ONE - sum_to n (fun i => l i * r i)) LINEARS_FIXED_ONE).
Proof.
  intros Hv Hlr. unfold fixed_dot_sub. destruct zero_accum as [H0 V0].
  apply wp_bind; [|intros; apply sticky_bind; [apply sticky_for_fc|]; solve_sticky].
  eapply wp_mono; [apply accum_mac_wp; [done|done|unfold LINEARS_FIXED_ONE; rlia]|]. intros s (Hs & Vs).
  apply wp_bind; [|solve_sticky].
  eapply wp_mono; [apply (wp_for_fc (fun k s => accum_ok s /\
    accum_value s = v * LINEARS_FIXED_ONE - sum_to k (fun i => l i * r i)))|]; [solve_sticky| | |].
  - intros i t Hi (Ht & Vt). destruct (Hlr i) as [Hl Hr]; [lia|].
    eapply wp_mono; [by apply accum_msu_wp|]. intros u (Hu & Vu). split; [done|].
    rewrite Nat.add_1_r, sum_to_S. lia.
  - split; [done|]. rewrite Vs, V0. change (sum_to 0 _) with 0. lia.
  - intros t (Ht & Vt). eapply wp_mono; [by apply accum_to_fixed_wp|]. intros x [-> Hx]. split; [done|].
    by rewrite Vt, Nat.add_0_l.
Qed.

Lemma fixed_sub_product_wp v a b : is_i64 v -> is_i64 a -> is_i64 b ->
  wp (fixed_sub_product v a b) (fun x => is_i64 x /\
    2 * Z.abs (x * LINEARS_FIXED_ONE - (v * LINEARS_FIXED_ONE - a * b)) <= LINEARS_FIXED_ONE).
Proof.
  intros Hv Ha Hb. unfold fixed_sub_product. destruct zero_accum as [H0 V0].
  apply wp_bind; [|solve_sticky].
  eapply wp_mono; [apply accum_mac_wp; [done|done|unfold LINEARS_FIXED_ONE; rlia]|]. intros s (Hs & Vs).
  apply wp_bind; [|solve_sticky].
  eapply wp_mono; [by apply accum_msu_wp|]. intros t (Ht & Vt).
  eapply wp_mono; [by apply accum_to_fixed_wp|]. intros x [-> Hx]. split; [done|].
  rewrite Vt, Vs, V0. apply div_nearest_error. done.
Qed.

Lemma fixed_abs_wp a : is_i64 a -> wp (fcq_abs a) (fun x => x = Z.abs a /\ is_i64 x).
Proof. intros Ha. by apply fcq_call_wp, (fcq_abs_eq a a). Qed.

(** A quotient is within half a divisor of its dividend. *)
Lemma fixed_div_wp a b : is_i64 a -> is_i64 b -> b <> 0 ->
  wp (fcq_div a b) (fun x => is_i64 x /\ 2 * Z.abs (x * b - a * LINEARS_FIXED_ONE) <= Z.abs b /\
    (Z.abs a <= Z.abs b -> Z.abs x <= LINEARS_FIXED_ONE)).
Proof.
  intros Ha Hb Hn. eapply wp_mono; [by apply fcq_call_wp, fcq_div_eq|]. intros x [-> Hx]. split; [done|].
  pose proof (div_nearest_error_abs (a * LINEARS_FIXED_ONE) b Hn) as He. split; [done|]. intros Hab.
  set (q := div_nearest _ _) in *. clearbody q. unfold LINEARS_FIXED_ONE in *.
  assert (Z.abs (q * b) <= 2147483648 * Z.abs b + Z.abs b / 2 + 1) as Hq; [|rewrite Z.abs_mul in Hq; nia].
  pose proof (Z.div_mod (Z.abs b) 2 ltac:(lia)). pose proof (Z.mod_pos_bound (Z.abs b) 2 ltac:(lia)). lia.
Qed.
