(* ===== verification/LuQ.v ===== *)
(** * LU: the factors multiply back to the permuted matrix

    The fixed-point elimination of decomp_lu.inc as a backward-error theorem: each
    entry of L U differs from the entry of P A by at most half a unit per
    elimination step, and half a pivot unit for a multiplier. *)
From S2P Require Import Prelude MachineInt Status Wide Numeric Memory Float Matrix FcMonad Cordic FcFloat FcVariants Decomp DecompQ.

Section Lu.
Variable kind : numeric_kind.
#[local] Hint Extern 0 (DArith _ Z) => exact (fixed_arith kind) : typeclass_instances.
Implicit Types (a b A : list Z) (sigma : list nat) (n i j k r t : nat).

(** ** Row exchanges *)

(** Reached from the identity by exchanges of two different entries, with their parity. *)
Inductive exchanges n : list nat -> Z -> Prop :=
| exchanges_id : exchanges n (seq 0 n) 1
| exchanges_swap sigma s i j : exchanges n sigma s -> (i < n)%nat -> (j < n)%nat -> i <> j ->
    exchanges n (swap_entries i j sigma) (- s).

Lemma length_swap_entries i j sigma : length (swap_entries i j sigma) = length sigma.
Proof. unfold swap_entries. by rewrite !length_insert. Qed.

Lemma swap_entries_perm i j sigma : (i < length sigma)%nat -> (j < length sigma)%nat -> i <> j ->
  swap_entries i j sigma ≡ₚ sigma.
Proof.
  intros Hi Hj Hne. unfold swap_entries. rewrite !nth_lookup.
  destruct (lookup_lt_is_Some_2 sigma i Hi) as [x Ex]. destruct (lookup_lt_is_Some_2 sigma j Hj) as [y Ey].
  rewrite Ex, Ey. cbn. apply Permutation_inj. split; [by rewrite !length_insert|].
  exists (fun m => if decide (m = i) then j else if decide (m = j) then i else m). split.
  - intros u v E. repeat case_decide; congruence.
  - intros m. destruct (decide (m = j)) as [->|Hmj].
    + rewrite list_lookup_insert_eq by (by rewrite length_insert). repeat case_decide; congruence.
    + rewrite list_lookup_insert_ne by done. destruct (decide (m = i)) as [->|Hmi].
      * rewrite list_lookup_insert_eq by done. congruence.
      * by rewrite list_lookup_insert_ne.
Qed.

Lemma exchanges_spec n sigma s : exchanges n sigma s ->
  length sigma = n /\ sigma ≡ₚ seq 0 n /\ (s = 1 \/ s = -1).
Proof.
  induction 1 as [|sigma s i j _ (Hl & Hp & Hs) Hi Hj Hne].
  - rewrite length_seq. auto.
  - rewrite length_swap_entries. split; [done|]. split; [|lia].
    by rewrite swap_entries_perm by lia.
Qed.

Lemma nth_swap_entries k p i sigma : (k < length sigma)%nat -> (p < length sigma)%nat ->
  nth i (swap_entries k p sigma) 0%nat =
  nth (if decide (i = k) then p else if decide (i = p) then k else i) sigma 0%nat.
Proof.
  intros Hk Hp. unfold swap_entries. rewrite (nth_lookup (<[_ := _]> _)).
  destruct (decide (i = p)) as [->|Hip].
  - rewrite list_lookup_insert_eq by (by rewrite length_insert). cbn. repeat case_decide; by subst.
  - rewrite list_lookup_insert_ne by done. destruct (decide (i = k)) as [->|Hik].
    + by rewrite list_lookup_insert_eq.
    + by rewrite list_lookup_insert_ne, <- nth_lookup.
Qed.

(** ** The invariant of one row *)

(** The part of L U that row [i] has after [p] elimination steps, and the error it may have. *)
Definition row_product n a (p i j : nat) : Z :=
  sum_to (Nat.min i (Nat.min j p)) (fun t => at_index n a i t * at_index n a t j) +
  (if decide (j < Nat.min i p)%nat then at_index n a i j * at_index n a j j
   else LINEARS_FIXED_ONE * at_index n a i j).

Definition row_error n a (p i j : nat) : Z :=
  Z.of_nat (Nat.min i (Nat.min j p)) * LINEARS_FIXED_ONE +
  (if decide (j < Nat.min i p)%nat then Z.abs (at_index n a j j) else 0).

Definition row_ok n A sigma a (p i : nat) : Prop := forall j, (j < n)%nat ->
  2 * Z.abs (row_product n a p i j - LINEARS_FIXED_ONE * at_index n A (nth i sigma 0%nat) j) <= row_error n a p i j.

Lemma row_cong n a a' p p' i i' j :
  (Nat.min i (Nat.min j p) = Nat.min i' (Nat.min j p')) -> ((j < Nat.min i p)%nat <-> (j < Nat.min i' p')%nat) ->
  at_index n a' i' j = at_index n a i j ->
  (forall t, (t < Nat.min i (Nat.min j p))%nat -> at_index n a' i' t = at_index n a i t /\ at_index n a' t j = at_index n a t j) ->
  ((j < Nat.min i p)%nat -> at_index n a' j j = at_index n a j j) ->
  row_product n a' p' i' j = row_product n a p i j /\ row_error n a' p' i' j = row_error n a p i j.
Proof.
  intros Em Ed Eij Ht Ej. unfold row_product, row_error. rewrite <- Em, Eij.
  rewrite (sum_to_ext _ (fun t => at_index n a' i' t * at_index n a' t j) (fun t => at_index n a i t * at_index n a t j))
    by (intros t Hlt; by destruct (Ht t Hlt) as [-> ->]).
  destruct (decide (j < Nat.min i p)%nat) as [Hd|Hd].
  - rewrite !decide_True by tauto. by rewrite Ej.
  - by rewrite !decide_False by tauto.
Qed.

(** Rows other than the one that changed, while it is not yet used. *)
Lemma row_frame n A sigma a a' p i r : (forall t j, (t < n)%nat -> (j < n)%nat -> t <> i -> at_index n a' t j = at_index n a t j) ->
  (r < n)%nat -> r <> i -> (p <= i)%nat -> row_ok n A sigma a p r -> row_ok n A sigma a' p r.
Proof.
  intros Hf Hr Hne Hp Hok j Hj.
  destruct (row_cong n a a' p p r r j) as [-> ->]; [done|done|by apply Hf| | |by apply Hok].
  - intros t Ht. split; apply Hf; lia.
  - intros Hd. apply Hf; lia.
Qed.

(** A finished row does not change by further steps. *)
Lemma row_step n A sigma a k i : (i <= k)%nat -> row_ok n A sigma a k i -> row_ok n A sigma a (S k) i.
Proof. intros Hi Hok j Hj. destruct (row_cong n a a k (S k) i i j) as [-> ->]; auto; lia. Qed.

(** The same for the right-hand side that is carried along: one more column. *)
Definition rhs_product n rhs a b (p i c : nat) : Z :=
  sum_to (Nat.min i p) (fun t => at_index n a i t * at_index rhs b t c) + LINEARS_FIXED_ONE * at_index rhs b i c.

Definition rhs_ok n rhs B sigma a b (p i : nat) : Prop := forall c, (c < rhs)%nat ->
  2 * Z.abs (rhs_product n rhs a b p i c - LINEARS_FIXED_ONE * at_index rhs B (nth i sigma 0%nat) c) <= Z.of_nat (Nat.min i p) * LINEARS_FIXED_ONE.

Lemma rhs_cong n rhs a a' b b' p p' i i' c : Nat.min i p = Nat.min i' p' -> at_index rhs b' i' c = at_index rhs b i c ->
  (forall t, (t < Nat.min i p)%nat -> at_index n a' i' t = at_index n a i t /\ at_index rhs b' t c = at_index rhs b t c) ->
  rhs_product n rhs a' b' p' i' c = rhs_product n rhs a b p i c.
Proof.
  intros Em Ei Ht. unfold rhs_product. rewrite <- Em, Ei. f_equal.
  apply sum_to_ext. intros t Hlt. by destruct (Ht t Hlt) as [-> ->].
Qed.

Lemma rhs_frame n rhs B sigma a a' b b' p i r : (forall t j, (t < n)%nat -> (j < n)%nat -> t <> i -> at_index n a' t j = at_index n a t j) ->
  (forall t c, (t < n)%nat -> (c < rhs)%nat -> t <> i -> at_index rhs b' t c = at_index rhs b t c) ->
  (r < n)%nat -> r <> i -> (p <= i)%nat -> rhs_ok n rhs B sigma a b p r -> rhs_ok n rhs B sigma a' b' p r.
Proof.
  intros Ha Hb Hr Hne Hp Hok c Hc. rewrite (rhs_cong n rhs a a' b b' p p r r c); [by apply Hok|done|by apply Hb|].
  intros t Ht. split; [apply Ha|apply Hb]; lia.
Qed.

Lemma rhs_step n rhs B sigma a b k i : (i <= k)%nat -> rhs_ok n rhs B sigma a b k i -> rhs_ok n rhs B sigma a b (S k) i.
Proof.
  intros Hi Hok c Hc. replace (Nat.min i (S k)) with (Nat.min i k) by lia.
  rewrite (rhs_cong n rhs a a b b k (S k) i i c); [by apply Hok|lia|done|done].
Qed.

(** ** One step of the elimination *)

(** The pivot is the largest magnitude of its column. *)
Definition column_max n a k (best : nat * Z) (hi : nat) : Prop :=
  (k <= best.1 < n)%nat /\ best.2 = Z.abs (at_index n a best.1 k) /\
  forall i, (k <= i < hi)%nat -> Z.abs (at_index n a i k) <= best.2.

Lemma lu_pivot_spec n k a : (k < n)%nat -> Forall is_i64 a ->
  (lu_pivot n k a).1 = LINEARS_OK -> column_max n a k (lu_pivot n k a).2 n.
Proof.
  intros Hk Ha. unfold lu_pivot.
  apply (settle_ok _ _ (fun best => column_max n a k best n)).
  apply wp_bind; [|intros; apply sticky_for_fc; cbn; solve_sticky].
  eapply wp_mono; [apply fixed_abs_wp; by apply at_range|]. intros m [-> _].
  replace (fun best => column_max n a k best n) with (fun best => column_max n a k best (k + 1 + (n - (k + 1))))
    by (by replace (k + 1 + (n - (k + 1)))%nat with n by lia).
  apply (wp_for_fc (fun c best => column_max n a k best c)); [cbn; solve_sticky| |].
  - intros c best Hc (Hb & Hm & Hall). apply wp_bind; [|cbn; solve_sticky].
    eapply wp_mono; [apply fixed_abs_wp; by apply at_range|]. intros m [-> _]. apply wp_ret. cbn [D_CMP fixed_arith].
    rewrite fcq_cmp_sign. unfold column_max. case_if; cbn [fst snd].
    + split; [lia|]. split; [done|]. intros i Hi. destruct (decide (i = c)) as [->|]; [lia|].
      specialize (Hall i ltac:(lia)). lia.
    + split; [lia|]. split; [done|]. intros i Hi. destruct (decide (i = c)) as [->|]; [lia|].
      apply Hall. lia.
  - split; [cbn; lia|]. split; [done|]. intros i Hi. by replace i with k by lia.
Qed.

(** What the factorization keeps of its state. *)
Definition lu_ok n rhs (rest : option (list nat)) (st : lu_state) (sigma : list nat) : Prop :=
  length (lu_a st) = (n * n)%nat /\ Forall is_i64 (lu_a st) /\ length (lu_b st) = (n * rhs)%nat /\ Forall is_i64 (lu_b st) /\
  lu_permutation st = app sigma <$> rest /\ exchanges n sigma (lu_parity st).

Lemma swap_entries_app k p sigma rest : (k < length sigma)%nat -> (p < length sigma)%nat ->
  swap_entries k p (sigma ++ rest) = swap_entries k p sigma ++ rest.
Proof.
  intros Hk Hp. unfold swap_entries. rewrite !app_nth1 by done. rewrite insert_app_l by done.
  by rewrite insert_app_l by (by rewrite length_insert).
Qed.

(** The exchange moves the pivot to the diagonal. *)
Lemma lu_exchange_spec n rhs rest k p (st : lu_state) sigma : (k <= p < n)%nat -> lu_ok n rhs rest st sigma ->
  exists sigma', lu_ok n rhs rest (lu_exchange n rhs k p st) sigma' /\
    rows_swapped kind n k p (lu_a st) (lu_a (lu_exchange n rhs k p st)) /\
    rows_moved kind n rhs k p (lu_b st) (lu_b (lu_exchange n rhs k p st)) /\
    forall i, nth i sigma' 0%nat = nth (if decide (i = k) then p else if decide (i = p) then k else i) sigma 0%nat.
Proof.
  intros Hkp (Hl & Ha & Hlb & Hb & Hp & Hs). destruct (exchanges_spec n sigma _ Hs) as (Hn & _). unfold lu_exchange.
  destruct (Nat.eqb_spec p k) as [->|Hne].
  - exists sigma. split; [done|]. split; [|split]; [intros i j Hi Hj|intros i j Hi Hj|intros i]; by repeat case_decide; subst.
  - destruct (swap_rows_spec kind n k p (lu_a st)) as (Hl' & Ha' & Hv); auto; try lia.
    destruct (swap_rows_moved kind n rhs k p (lu_b st)) as (Hlb' & Hb' & Hvb); auto; try lia.
    exists (swap_entries k p sigma). split; [split; [done|]|].
    + split; [done|]. split; [done|]. split; [done|]. cbn. rewrite Hp. split.
      * destruct rest as [rest|]; cbn; [by rewrite swap_entries_app by lia|done].
      * apply exchanges_swap; auto; lia.
    + split; [done|]. split; [done|]. intros i. apply nth_swap_entries; lia.
Qed.

(** Exchanging two rows that have made the same steps keeps their invariant. *)
Lemma row_swap n A sigma sigma' a a' k p i : (k <= p < n)%nat -> (i < n)%nat ->
  rows_swapped kind n k p a a' ->
  (forall i, nth i sigma' 0%nat = nth (if decide (i = k) then p else if decide (i = p) then k else i) sigma 0%nat) ->
  (forall i, (i < n)%nat -> row_ok n A sigma a k i) -> row_ok n A sigma' a' k i.
Proof.
  intros Hkp Hi Hsw Hsig Hok j Hj. set (i' := if decide (i = k) then p else if decide (i = p) then k else i).
  assert (i' < n)%nat as Hi' by (unfold i'; repeat case_decide; lia).
  assert (Nat.min i k = Nat.min i' k) as Em by (unfold i'; repeat case_decide; lia).
  assert (forall t, (t < k)%nat -> at_index n a' t j = at_index n a t j) as Htop.
  { intros t Ht. rewrite Hsw by lia. by rewrite !decide_False by lia. }
  rewrite Hsig. fold i'. destruct (row_cong n a a' k k i' i j) as [-> ->]; [lia|lia|by apply Hsw| | |by apply Hok].
  - intros t Ht. split; [by apply Hsw; lia|]. apply Htop. lia.
  - intros Hd. apply Htop. lia.
Qed.

Lemma rhs_swap n rhs B sigma sigma' a a' b b' k p i : (k <= p < n)%nat -> (i < n)%nat ->
  rows_swapped kind n k p a a' -> rows_moved kind n rhs k p b b' ->
  (forall i, nth i sigma' 0%nat = nth (if decide (i = k) then p else if decide (i = p) then k else i) sigma 0%nat) ->
  (forall i, (i < n)%nat -> rhs_ok n rhs B sigma a b k i) -> rhs_ok n rhs B sigma' a' b' k i.
Proof.
  intros Hkp Hi Hsa Hsb Hsig Hok c Hc. set (i' := if decide (i = k) then p else if decide (i = p) then k else i).
  assert (i' < n)%nat as Hi' by (unfold i'; repeat case_decide; lia).
  assert (Nat.min i k = Nat.min i' k) as Em by (unfold i'; repeat case_decide; lia).
  rewrite Hsig. fold i'. rewrite (rhs_cong n rhs a a' b b' k k i' i c), Em; [by apply Hok|lia|by apply Hsb|].
  intros t Ht. split; [by apply Hsa; lia|]. rewrite Hsb by lia. by rewrite !decide_False by lia.
Qed.

(** Row [i] before and after its elimination by row [k], up to column [hi]. *)
Definition eliminated n k i (factor : Z) a a' (hi : nat) : Prop :=
  length a' = (n * n)%nat /\ Forall is_i64 a' /\ at_index n a' i k = factor /\
  (forall j, (k < j < hi)%nat -> 2 * Z.abs (at_index n a' i j * LINEARS_FIXED_ONE -
     (at_index n a i j * LINEARS_FIXED_ONE - factor * at_index n a k j)) <= LINEARS_FIXED_ONE) /\
  (forall r j, (r < n)%nat -> (j < n)%nat -> r <> i \/ (j < k \/ hi <= j)%nat -> at_index n a' r j = at_index n a r j).

Lemma eliminate_row n k i factor a : (k < i < n)%nat -> length a = (n * n)%nat -> Forall is_i64 a -> is_i64 factor ->
  wp (for_fc (k + 1) (n - (k + 1)) (fun j a =>
        v ← D_SUB_PRODUCT (at_index n a i j) factor (at_index n a k j);
        mret (set_index n i j v a)) (set_index n i k factor a))
     (fun a' => eliminated n k i factor a a' n).
Proof.
  intros Hki Hl Ha Hf. replace (fun a' => eliminated n k i factor a a' n)
    with (fun a' => eliminated n k i factor a a' (k + 1 + (n - (k + 1)))) by (by replace (k + 1 + (n - (k + 1)))%nat with n by lia).
  apply (wp_for_fc (fun c a' => eliminated n k i factor a a' c)); [cbn; solve_sticky| |].
  - intros c b Hc (Hlb & Hb & Hk & Hdone & Hsame). apply wp_bind; [|cbn; solve_sticky].
    eapply wp_mono; [apply fixed_sub_product_wp; try apply at_range; done|]. intros v [Hv He]. apply wp_ret.
    pose proof (cell_lt n n i c ltac:(lia) ltac:(lia)) as Hix.
    split; [by rewrite length_set|]. split; [by apply set_range|].
    split; [rewrite at_set by lia; by rewrite decide_False by lia|]. split.
    + intros j Hj. rewrite at_set by lia. case_decide as E; [|apply Hdone; lia].
      destruct E as [_ <-]. rewrite !Hsame in He by lia. done.
    + intros r j Hr Hj Hrj. rewrite at_set by lia. rewrite decide_False by lia. apply Hsame; lia.
  - pose proof (cell_lt n n i k ltac:(lia) ltac:(lia)) as Hix.
    split; [by rewrite length_set|]. split; [by apply set_range|].
    split; [rewrite at_set by lia; by rewrite decide_True|]. split; [lia|].
    intros r j Hr Hj Hrj. rewrite at_set by lia. by rewrite decide_False by lia.
Qed.

(** Row [i] of the right-hand side before and after its elimination, up to column [hi]. *)
Definition rhs_eliminated n rhs k i (factor : Z) b b' (hi : nat) : Prop :=
  length b' = (n * rhs)%nat /\ Forall is_i64 b' /\
  (forall c, (c < hi)%nat -> 2 * Z.abs (at_index rhs b' i c * LINEARS_FIXED_ONE -
     (at_index rhs b i c * LINEARS_FIXED_ONE - factor * at_index rhs b k c)) <= LINEARS_FIXED_ONE) /\
  (forall r c, (r < n)%nat -> (c < rhs)%nat -> r <> i \/ (hi <= c)%nat -> at_index rhs b' r c = at_index rhs b r c).

Lemma eliminate_rhs n rhs k i factor b : (k < i < n)%nat -> length b = (n * rhs)%nat -> Forall is_i64 b -> is_i64 factor ->
  wp (for_fc 0 rhs (fun j b =>
        v ← D_SUB_PRODUCT (at_index rhs b i j) factor (at_index rhs b k j);
        mret (set_index rhs i j v b)) b)
     (fun b' => rhs_eliminated n rhs k i factor b b' rhs).
Proof.
  intros Hki Hl Hb Hf. change (fun b' => rhs_eliminated n rhs k i factor b b' rhs) with (fun b' => rhs_eliminated n rhs k i factor b b' (0 + rhs)).
  apply (wp_for_fc (fun c b' => rhs_eliminated n rhs k i factor b b' c)); [cbn; solve_sticky| |].
  - intros c d Hc (Hld & Hd & Hdone & Hsame). apply wp_bind; [|cbn; solve_sticky].
    eapply wp_mono; [apply fixed_sub_product_wp; try apply at_range; done|]. intros v [Hv He]. apply wp_ret.
    pose proof (cell_lt rhs n i c ltac:(lia) ltac:(lia)) as Hix.
    split; [by rewrite length_set|]. split; [by apply set_range|]. split.
    + intros j Hj. rewrite at_set by lia. case_decide as E; [|apply Hdone; lia].
      destruct E as [_ <-]. rewrite !Hsame in He by lia. done.
    + intros r j Hr Hj Hrj. rewrite at_set by lia. rewrite decide_False by lia. apply Hsame; lia.
  - split; [done|]. split; [done|]. split; [lia|done].
Qed.

Lemma lu_eliminate_spec n rhs rest k i (st : lu_state) sigma : (k < i < n)%nat -> lu_ok n rhs rest st sigma ->
  at_index n (lu_a st) k k <> 0 -> (lu_eliminate n rhs k i st).1 = LINEARS_OK ->
  let st' := (lu_eliminate n rhs k i st).2 in
  lu_ok n rhs rest st' sigma /\ exists factor,
    2 * Z.abs (factor * at_index n (lu_a st) k k - at_index n (lu_a st) i k * LINEARS_FIXED_ONE) <= Z.abs (at_index n (lu_a st) k k) /\
    (Z.abs (at_index n (lu_a st) i k) <= Z.abs (at_index n (lu_a st) k k) -> Z.abs factor <= LINEARS_FIXED_ONE) /\
    eliminated n k i factor (lu_a st) (lu_a st') n /\ rhs_eliminated n rhs k i factor (lu_b st) (lu_b st') rhs.
Proof.
  intros Hki (Hl & Ha & Hlb & Hb & Hp & Hs) Hne. unfold lu_eliminate.
  apply (settle_ok _ _ (fun st' => lu_ok n rhs rest st' sigma /\ exists factor,
    2 * Z.abs (factor * at_index n (lu_a st) k k - at_index n (lu_a st) i k * LINEARS_FIXED_ONE) <= Z.abs (at_index n (lu_a st) k k) /\
    (Z.abs (at_index n (lu_a st) i k) <= Z.abs (at_index n (lu_a st) k k) -> Z.abs factor <= LINEARS_FIXED_ONE) /\
    eliminated n k i factor (lu_a st) (lu_a st') n /\ rhs_eliminated n rhs k i factor (lu_b st) (lu_b st') rhs)).
  apply wp_bind; [|intros; apply sticky_bind; [apply sticky_for_fc|intros; apply sticky_bind; [apply sticky_for_fc|]]; cbn; solve_sticky].
  eapply wp_mono; [apply fixed_div_wp; try apply at_range; done|]. intros factor (Hf & He & Hm).
  apply wp_bind; [|intros; apply sticky_bind; [apply sticky_for_fc|]; cbn; solve_sticky].
  eapply wp_mono; [by apply eliminate_row|]. intros a' Hel.
  apply wp_bind; [|cbn; solve_sticky]. eapply wp_mono; [by apply (eliminate_rhs n)|]. intros b' Hrhs.
  apply wp_ret. split; [|by exists factor]. destruct Hel as (Hl' & Ha' & _). destruct Hrhs as (Hlb' & Hb' & _). by split_and!.
Qed.

(** The eliminated row of the right-hand side has made one step more. *)
Lemma rhs_row_eliminated n rhs B sigma k i factor a a' b b' : (k < i < n)%nat -> eliminated n k i factor a a' n ->
  rhs_eliminated n rhs k i factor b b' rhs -> rhs_ok n rhs B sigma a b k i -> rhs_ok n rhs B sigma a' b' (S k) i.
Proof.
  intros Hki (_ & _ & Ek & _ & Hsame) (_ & _ & Hnew & Hrsame) Hok c Hc. specialize (Hok c Hc). revert Hok. unfold rhs_product.
  replace (Nat.min i k) with k by lia. replace (Nat.min i (S k)) with (S k) by lia.
  rewrite sum_to_S, Ek, (Hrsame k c) by lia.
  rewrite (sum_to_ext k (fun t => at_index n a' i t * at_index rhs b' t c) (fun t => at_index n a i t * at_index rhs b t c))
    by (intros t Ht; rewrite Hsame, Hrsame by lia; done).
  specialize (Hnew c Hc). intros Hok. rewrite Nat2Z.inj_succ. lia.
Qed.

(** The eliminated row has made one step more. *)
Lemma row_eliminated n A sigma k i factor a a' : (k < i < n)%nat ->
  eliminated n k i factor a a' n ->
  2 * Z.abs (factor * at_index n a k k - at_index n a i k * LINEARS_FIXED_ONE) <= Z.abs (at_index n a k k) ->
  row_ok n A sigma a k i -> row_ok n A sigma a' (S k) i.
Proof.
  intros Hki (_ & _ & Ek & Hnew & Hsame) Hfac Hok j Hj.
  assert (forall t c, (t < k)%nat -> (c < n)%nat -> at_index n a' t c = at_index n a t c) as Htop by (intros; apply Hsame; lia).
  assert (forall t, (t < k)%nat -> at_index n a' i t = at_index n a i t) as Hleft by (intros; apply Hsame; lia).
  destruct (decide (j < k)%nat) as [Hjk|Hjk].
  { destruct (row_cong n a a' k (S k) i i j) as [-> ->]; [lia|lia|by apply Hleft| |intros _; by apply Htop|by apply Hok].
    intros t Ht. split; [apply Hleft|apply Htop]; lia. }
  specialize (Hok j Hj). revert Hok. unfold row_product, row_error.
  rewrite !(decide_False (P := (j < Nat.min i k)%nat)) by lia.
  replace (Nat.min i (Nat.min j k)) with k by lia.
  assert (sum_to k (fun t => at_index n a' i t * at_index n a' t j) = sum_to k (fun t => at_index n a i t * at_index n a t j)) as Es
    by (apply sum_to_ext; intros t Ht; by rewrite Hleft, Htop by lia).
  destruct (decide (j = k)) as [->|Hne].
  - rewrite !decide_True by lia. replace (Nat.min i (Nat.min k (S k))) with k by lia.
    rewrite Es, Ek, (Hsame k k) by lia. lia.
  - rewrite !decide_False by lia. replace (Nat.min i (Nat.min j (S k))) with (S k) by lia.
    rewrite sum_to_S, Es, Ek, (Hsame k j) by lia. specialize (Hnew j ltac:(lia)).
    intros Hok. rewrite Nat2Z.inj_succ. lia.
Qed.

(** ** The invariant of the factorization *)

Definition pivots_ok n (k : nat) a : Prop := forall j, (j < k)%nat -> at_index n a j j <> 0 /\
  forall i, (j < i < n)%nat -> Z.abs (at_index n a i j) <= LINEARS_FIXED_ONE.

(** Row [i] after [p] steps, in the matrix and in the right-hand side. *)
Definition step_ok n rhs A B sigma (st : lu_state) (p i : nat) : Prop :=
  row_ok n A sigma (lu_a st) p i /\ rhs_ok n rhs B sigma (lu_a st) (lu_b st) p i.

Definition lu_inv n rhs rest A B (k : nat) (st : lu_state) (sigma : list nat) : Prop :=
  lu_ok n rhs rest st sigma /\ (forall i, (i < n)%nat -> step_ok n rhs A B sigma st k i) /\ pivots_ok n k (lu_a st).

(** Between two rows of step [k]: rows before [i] have made it, the others not yet. *)
Definition lu_mid n rhs rest A B k i (st : lu_state) (sigma : list nat) : Prop :=
  lu_ok n rhs rest st sigma /\ at_index n (lu_a st) k k <> 0 /\
  (forall r, (r < n)%nat -> step_ok n rhs A B sigma st (if decide (r < i)%nat then S k else k) r) /\
  (forall r, (i <= r < n)%nat -> Z.abs (at_index n (lu_a st) r k) <= Z.abs (at_index n (lu_a st) k k)) /\
  (forall r, (k < r < i)%nat -> Z.abs (at_index n (lu_a st) r k) <= LINEARS_FIXED_ONE) /\
  pivots_ok n k (lu_a st).

Lemma lu_mid_step n rhs rest A B k i (st : lu_state) sigma : (k < i < n)%nat -> lu_mid n rhs rest A B k i st sigma ->
  (lu_eliminate n rhs k i st).1 = LINEARS_OK -> lu_mid n rhs rest A B k (i + 1) (lu_eliminate n rhs k i st).2 sigma.
Proof.
  intros Hki (Hok & Hne & Hrows & Hmax & Hmul & Hpiv) E.
  destruct (lu_eliminate_spec n rhs rest k i st sigma Hki Hok Hne E) as (Hok' & factor & Hfac & Hone & Hel & Hrel).
  set (st' := (lu_eliminate n rhs k i st).2) in *. pose proof Hel as (_ & _ & Ek & _ & Hsame). pose proof Hrel as (_ & _ & _ & Hrsame).
  assert (forall r j, (r < n)%nat -> (j < n)%nat -> r <> i \/ (j < k)%nat -> at_index n (lu_a st') r j = at_index n (lu_a st) r j)
    as Hkeep by (intros; apply Hsame; lia).
  split; [done|]. split; [by rewrite Hkeep by lia|]. split; [|split; [|split]].
  - intros r Hr. specialize (Hrows r Hr). destruct (decide (r = i)) as [->|Hri].
    + rewrite decide_False in Hrows by lia. rewrite decide_True by lia. destruct Hrows as [H1 H2].
      split; [by eapply row_eliminated|by eapply rhs_row_eliminated].
    + assert (step_ok n rhs A B sigma st' (if decide (r < i)%nat then S k else k) r) as Hr'.
      { destruct Hrows as [H1 H2]. split.
        - eapply (row_frame n A sigma (lu_a st) (lu_a st') _ i); [intros; apply Hkeep; auto|done|done|case_decide; lia|done].
        - eapply (rhs_frame n rhs B sigma (lu_a st) (lu_a st') (lu_b st) (lu_b st') _ i); [intros; apply Hkeep; auto|intros; apply Hrsame; auto|done|done|case_decide; lia|done]. }
      repeat case_decide; (done || lia).
  - intros r Hr. rewrite !Hkeep by lia. apply Hmax. lia.
  - intros r Hr. destruct (decide (r = i)) as [->|Hri]; [|rewrite Hkeep by lia; apply Hmul; lia].
    rewrite Ek. apply Hone, Hmax. lia.
  - intros j Hj. rewrite Hkeep by lia. split; [by apply Hpiv|]. intros r Hr. rewrite Hkeep by lia. by apply (Hpiv j Hj).
Qed.

Lemma lu_column_step n rhs rest A B k (st : lu_state) sigma : (k < n)%nat -> lu_inv n rhs rest A B k st sigma ->
  (lu_column n rhs k st).1 = LINEARS_OK -> exists sigma', lu_inv n rhs rest A B (k + 1) (lu_column n rhs k st).2 sigma'.
Proof.
  intros Hk (Hok & Hrows & Hpiv). pose proof Hok as (Hl & Ha & _). unfold lu_column.
  destruct (status_ok (lu_pivot n k (lu_a st)).1) eqn:Ep; cbn [negb]; [|by intros E; cbn in E; rewrite E in Ep].
  apply status_ok_true in Ep. destruct (lu_pivot_spec n k (lu_a st) Hk Ha Ep) as (Hp & Hm & Hmax).
  set (best := (lu_pivot n k (lu_a st)).2) in *. cbn [D_CMP D_ZERO fixed_arith]. rewrite fcq_cmp_sign.
  destruct (Z.eqb_spec (Z.sgn (best.2 - 0)) 0) as [|Hnz]; [done|].
  destruct (lu_exchange_spec n rhs rest k best.1 st sigma Hp Hok) as (sigma' & Hok' & Hsw & Hswb & Hsig).
  set (st' := lu_exchange n rhs k best.1 st) in *.
  assert (forall r j, (r < n)%nat -> (j < n)%nat -> (r < k)%nat -> at_index n (lu_a st') r j = at_index n (lu_a st) r j)
    as Htop by (intros; rewrite Hsw by lia; by rewrite !decide_False by lia).
  assert (at_index n (lu_a st') k k = at_index n (lu_a st) best.1 k) as Ekk by (rewrite Hsw by lia; by rewrite decide_True).
  intros E. exists sigma'.
  enough (lu_mid n rhs rest A B k (k + 1 + (n - (k + 1))) (for_status (k + 1) (n - (k + 1)) (lu_eliminate n rhs k) st').2 sigma')
    as (Ho & Hne & Hr & _ & Hmul & Hpv).
  { replace (k + 1 + (n - (k + 1)))%nat with n in * by lia. split; [done|]. split.
    - intros i Hi. specialize (Hr i Hi). rewrite decide_True in Hr by done. by rewrite <- (Nat.add_1_r k) in Hr.
    - intros j Hj. destruct (decide (j = k)) as [->|]; [auto|]. apply Hpv. lia. }
  apply (for_status_ok (fun i s => lu_mid n rhs rest A B k i s sigma')); [|split|done].
  - intros i s Hi Hs Es. apply lu_mid_step; (done || lia).
  - done.
  - split; [rewrite Ekk; lia|]. split; [|split; [|split]].
    + intros r Hr. assert (step_ok n rhs A B sigma' st' k r) as [H1' H2'].
      { split; [eapply (row_swap n A sigma sigma' (lu_a st))|eapply (rhs_swap n rhs B sigma sigma' (lu_a st) (lu_a st') (lu_b st))]; try done; intros; by apply Hrows. }
      case_decide; [|done]. split; [apply row_step|apply rhs_step]; (lia || done).
    + intros r Hr. rewrite Ekk, Hsw, <- Hm by lia. apply Hmax. repeat case_decide; lia.
    + lia.
    + intros j Hj. rewrite Htop by lia. split; [by apply Hpiv|]. intros r Hr. rewrite Hsw by lia.
      apply (Hpiv j Hj). repeat case_decide; lia.
Qed.

Lemma lu_inv_start n rhs A B (p : option (list nat)) : length A = (n * n)%nat -> Forall is_i64 A -> length B = (n * rhs)%nat -> Forall is_i64 B ->
  lu_inv n rhs (drop n <$> p) A B 0 (mk_lu A B ((fun p => seq 0 n ++ drop n p) <$> p) 1) (seq 0 n).
Proof.
  intros Hl HA Hlb Hb. split; [split; [done|]|split; [|by intros j Hj; lia]].
  - split_and!; [done|done|done|by destruct p|constructor].
  - intros i Hi. split.
    + intros j Hj. unfold row_product, row_error. cbn [lu_a].
      replace (Nat.min i (Nat.min j 0)) with 0%nat by lia. rewrite !decide_False by lia.
      rewrite seq_nth by done. change (sum_to 0 _) with 0. rewrite Nat.add_0_l. lia.
    + intros c Hc. unfold rhs_product. cbn [lu_a lu_b]. replace (Nat.min i 0) with 0%nat by lia.
      rewrite seq_nth by done. change (sum_to 0 _) with 0. rewrite Nat.add_0_l. lia.
Qed.

Lemma lu_factor_inv n rhs A B (p : option (list nat)) : length A = (n * n)%nat -> Forall is_i64 A -> length B = (n * rhs)%nat -> Forall is_i64 B ->
  (lu_factor A n B rhs p).1 = LINEARS_OK ->
  exists sigma, lu_inv n rhs (drop n <$> p) A B n (lu_factor A n B rhs p).2 sigma.
Proof.
  intros Hl HA Hlb Hb. unfold lu_factor.
  apply (for_status_ok (fun k st => exists sigma, lu_inv n rhs (drop n <$> p) A B k st sigma)).
  - intros k st Hk [sigma Hst] E. eapply lu_column_step; [lia|done|done].
  - exists (seq 0 n). by apply lu_inv_start.
Qed.

(** ** The factors *)

(** The two triangles of the factored array, as the entry point stores them. *)
Definition lower n a i j : Z := if (i =? j)%nat then LINEARS_FIXED_ONE else if (j <? i)%nat then at_index n a i j else 0.
Definition upper n a i j : Z := if (i <=? j)%nat then at_index n a i j else 0.

(** The product of the factors is what the invariant keeps of a finished row. *)
Lemma product_entry n a i j : (i < n)%nat -> (j < n)%nat ->
  sum_to n (fun t => lower n a i t * upper n a t j) = row_product n a n i j.
Proof.
  intros Hi Hj. unfold row_product. replace (Nat.min i (Nat.min j n)) with (Nat.min i j) by lia.
  set (m := Nat.min i j). replace n with (S m + (n - S m))%nat at 1 by lia.
  rewrite sum_to_tail, sum_to_S.
  - f_equal.
    + apply sum_to_ext. intros t Ht. unfold lower, upper.
      rewrite (proj2 (Nat.eqb_neq i t)), (proj2 (Nat.ltb_lt t i)), (proj2 (Nat.leb_le t j)) by lia. done.
    + unfold lower, upper. case_decide; destruct (Nat.eqb_spec i m); try lia.
      * rewrite (proj2 (Nat.ltb_lt m i)), (proj2 (Nat.leb_le m j)) by lia. by replace m with j by lia.
      * rewrite (proj2 (Nat.leb_le m j)) by lia. by replace m with i by lia.
  - intros t Ht. unfold lower, upper. destruct (Nat.eqb_spec i t), (Nat.ltb_spec t i), (Nat.leb_spec t j); lia.
Qed.

(** What a successful factorization leaves: L U is P A and L y is P b, to half a unit a step. *)
Definition factored n rhs A B sigma a y : Prop :=
  length a = (n * n)%nat /\ Forall is_i64 a /\ length y = (n * rhs)%nat /\ Forall is_i64 y /\
  (forall i j, (i < n)%nat -> (j < n)%nat ->
    2 * Z.abs (sum_to n (fun t => lower n a i t * upper n a t j) - LINEARS_FIXED_ONE * at_index n A (nth i sigma 0%nat) j)
      <= Z.of_nat (Nat.min i j) * LINEARS_FIXED_ONE + (if (j <? i)%nat then Z.abs (upper n a j j) else 0) /\
    Z.abs (lower n a i j) <= LINEARS_FIXED_ONE /\ upper n a i i <> 0) /\
  (forall i c, (i < n)%nat -> (c < rhs)%nat ->
    2 * Z.abs (sum_to n (fun t => lower n a i t * at_index rhs y t c) - LINEARS_FIXED_ONE * at_index rhs B (nth i sigma 0%nat) c)
      <= Z.of_nat i * LINEARS_FIXED_ONE).

Lemma rhs_entry n rhs a y i c : (i < n)%nat ->
  sum_to n (fun t => lower n a i t * at_index rhs y t c) = rhs_product n rhs a y n i c.
Proof.
  intros Hi. unfold rhs_product. replace (Nat.min i n) with i by lia. replace n with (S i + (n - S i))%nat at 1 by lia.
  rewrite sum_to_tail, sum_to_S.
  - f_equal; [|unfold lower; by rewrite Nat.eqb_refl]. apply sum_to_ext. intros t Ht. unfold lower.
    by rewrite (proj2 (Nat.eqb_neq i t)), (proj2 (Nat.ltb_lt t i)) by lia.
  - intros t Ht. unfold lower. rewrite (proj2 (Nat.eqb_neq i t)), (proj2 (Nat.ltb_ge t i)) by lia. done.
Qed.

Lemma lu_factored n rhs rest A B st sigma : lu_inv n rhs rest A B n st sigma -> factored n rhs A B sigma (lu_a st) (lu_b st).
Proof.
  intros ((Hl & Ha & Hlb & Hb & _) & Hrows & Hpiv). split_and!; try done; [intros i j Hi Hj|intros i c Hi Hc].
  - split; [|split].
    + destruct (Hrows i Hi) as [Hrow _]. specialize (Hrow j Hj). rewrite product_entry by done. unfold row_error in Hrow.
      replace (Nat.min i (Nat.min j n)) with (Nat.min i j) in Hrow by lia. unfold upper. rewrite Nat.leb_refl.
      destruct (Nat.ltb_spec j i); [rewrite decide_True in Hrow by lia|rewrite decide_False in Hrow by lia]; done.
    + unfold lower. destruct (Nat.eqb_spec i j); [done|]. destruct (Nat.ltb_spec j i); [|done]. apply (Hpiv j Hj). lia.
    + unfold upper. rewrite Nat.leb_refl. by apply Hpiv.
  - destruct (Hrows i Hi) as [_ Hr]. specialize (Hr c Hc). rewrite rhs_entry by done. by replace (Nat.min i n) with i in Hr by lia.
Qed.

(** ** Back substitution *)

Lemma sum_to_head m f : sum_to (S m) f = f 0%nat + sum_to m (fun i => f (S i)).
Proof.
  induction m as [|m IH]; [rewrite !sum_to_S; change (sum_to 0 _) with 0; lia|].
  rewrite sum_to_S, IH, sum_to_S. lia.
Qed.

(** Row [i] of U x is row [i] of y, to half a unit and half a pivot. *)
Definition solved n rhs a y x i c : Prop :=
  2 * Z.abs (sum_to (n - i) (fun t => at_index n a i (i + t) * at_index rhs x (i + t) c) - LINEARS_FIXED_ONE * at_index rhs y i c)
    <= LINEARS_FIXED_ONE + Z.abs (at_index n a i i).

(** Rows from [row + 1] are solved, and row [row] up to column [column]. *)
Definition back_inv n rhs a y (row column : nat) x : Prop :=
  length x = (n * rhs)%nat /\ Forall is_i64 x /\
  (forall i c, (i < n)%nat -> (c < rhs)%nat -> (i < row \/ i = row /\ column <= c)%nat -> at_index rhs x i c = at_index rhs y i c) /\
  (forall i c, (i < n)%nat -> (c < rhs)%nat -> (row < i \/ i = row /\ c < column)%nat -> solved n rhs a y x i c).

Lemma solved_frame n rhs a y x x' i c : (forall t, (i <= t < n)%nat -> at_index rhs x' t c = at_index rhs x t c) ->
  solved n rhs a y x i c -> solved n rhs a y x' i c.
Proof.
  intros Hx. unfold solved. rewrite (sum_to_ext _ (fun t => at_index n a i (i + t) * at_index rhs x' (i + t) c)
    (fun t => at_index n a i (i + t) * at_index rhs x (i + t) c)); [done|]. intros t Ht. by rewrite Hx by lia.
Qed.

Lemma back_cell n rhs a y row c x : (row < n)%nat -> (c < rhs)%nat -> Forall is_i64 a -> at_index n a row row <> 0 ->
  back_inv n rhs a y row c x ->
  wp (value ← (if (row + 1 <? n)%nat
               then D_DOT_SUB (at_index rhs x row c) (fun i => at_index n a row (row + 1 + i)) (fun i => at_index rhs x (row + 1 + i) c) (n - row - 1)
               else mret (at_index rhs x row c));
      v ← D_DIV value (at_index n a row row);
      mret (set_index rhs row c v x)) (back_inv n rhs a y row (c + 1)).
Proof.
  intros Hrow Hc Ha Hp (Hl & Hx & Hsame & Hsol). set (p := at_index n a row row) in *.
  pose (rest := sum_to (n - row - 1) (fun i => at_index n a row (row + 1 + i) * at_index rhs x (row + 1 + i) c)).
  apply wp_bind; [|intros; cbn; solve_sticky].
  eapply wp_mono with (P := fun value => is_i64 value /\
    2 * Z.abs (value * LINEARS_FIXED_ONE - (at_index rhs y row c * LINEARS_FIXED_ONE - rest)) <= LINEARS_FIXED_ONE).
  { rewrite <- (Hsame row c) by lia. destruct (Nat.ltb_spec (row + 1) n) as [Hlt|Hge].
    - eapply wp_mono; [apply fixed_dot_sub_wp; [by apply at_range|intros; split; by apply at_range]|]. intros v [Hv ->]. split; [done|]. by apply div_nearest_error.
    - apply wp_ret. split; [by apply at_range|]. unfold rest. replace (n - row - 1)%nat with 0%nat by lia. change (sum_to 0 _) with 0. unfold LINEARS_FIXED_ONE. lia. }
  intros value [Hv Hve]. apply wp_bind; [|intros; cbn; solve_sticky].
  eapply wp_mono; [apply fixed_div_wp; [done|by apply at_range|done]|]. intros q (Hq & Hqe & _). apply wp_ret.
  pose proof (cell_lt rhs n row c Hrow Hc) as Hix.
  assert (forall i c', (i < n)%nat -> (c' < rhs)%nat -> (i <> row \/ c' <> c) -> at_index rhs (set_index rhs row c q x) i c' = at_index rhs x i c') as Hkeep
    by (intros; rewrite at_set by lia; by rewrite decide_False by lia).
  split; [by rewrite length_set|]. split; [by apply set_range|]. split.
  - intros i c' Hi Hc' Hb. rewrite Hkeep by lia. apply Hsame; lia.
  - intros i c' Hi Hc' Hb. destruct (decide (i = row /\ c' = c)) as [[-> ->]|Hne].
    + unfold solved. replace (n - row)%nat with (S (n - row - 1)) by lia. rewrite sum_to_head, Nat.add_0_r. fold p.
      rewrite (sum_to_ext _ _ (fun i => at_index n a row (row + 1 + i) * at_index rhs x (row + 1 + i) c)).
      2: { intros t Ht. replace (row + S t)%nat with (row + 1 + t)%nat by lia. by rewrite Hkeep by lia. }
      fold rest. rewrite at_set by lia. rewrite decide_True by done. clearbody rest. lia.
    + eapply solved_frame; [|apply Hsol; lia]. intros t Ht. apply Hkeep; lia.
Qed.

Lemma back_substitute_spec n rhs a y : length y = (n * rhs)%nat -> Forall is_i64 a -> Forall is_i64 y ->
  (forall i, (i < n)%nat -> at_index n a i i <> 0) -> (back_substitute a n y rhs).1 = LINEARS_OK ->
  let x := (back_substitute a n y rhs).2 in
  length x = (n * rhs)%nat /\ Forall is_i64 x /\ forall i c, (i < n)%nat -> (c < rhs)%nat -> solved n rhs a y x i c.
Proof.
  intros Hl Ha Hy Hp E. cbv zeta.
  pose (I := fun (k : nat) x => length x = (n * rhs)%nat /\ Forall is_i64 x /\
    (forall i c, (i < n - k)%nat -> (c < rhs)%nat -> at_index rhs x i c = at_index rhs y i c) /\
    (forall i c, (n - k <= i < n)%nat -> (c < rhs)%nat -> solved n rhs a y x i c)).
  enough (I (0 + n)%nat (back_substitute a n y rhs).2) as (Hlx & Hx & _ & Hs) by (split; [done|split; [done|intros; apply Hs; lia]]).
  revert E. unfold back_substitute. apply (for_status_ok I); [|split_and!; try done; lia].
  intros k x Hk (Hlx & Hx & Hsame & Hs) E. set (row := (n - 1 - k)%nat) in *.
  enough (back_inv n rhs a y row (0 + rhs) (for_status 0 rhs (fun column b => settle (value ← (if (row + 1 <? n)%nat
      then D_DOT_SUB (at_index rhs b row column) (fun i => at_index n a row (row + 1 + i)) (fun i => at_index rhs b (row + 1 + i) column) (n - row - 1)
      else mret (at_index rhs b row column)); v ← D_DIV value (at_index n a row row); mret (set_index rhs row column v b)) b) x).2) as (H1 & H2 & H3 & H4).
  { split_and!; [done|done|intros; apply H3; lia|intros; apply H4; lia]. }
  revert E. apply (for_status_ok (back_inv n rhs a y row)).
  - intros c z Hc Hz. apply (settle_ok _ _ (back_inv n rhs a y row (c + 1))). apply back_cell; try done; try lia. apply Hp. lia.
  - split_and!; [done|done|intros; apply Hsame; lia|intros; apply Hs; lia].
Qed.

(** C9. When the fixed-point factorization succeeds, the permutation is a
    permutation of the row indices reached by row exchanges whose parity is the
    returned sign, every multiplier is at most one in magnitude, every pivot is
    nonzero, and L U is the permuted matrix: in each entry the difference from
    P A is at most half a unit per elimination step, plus half a pivot unit below
    the diagonal, where the multiplier was rounded.  The right-hand side carried
    along is L^-1 P b: multiplied by L it differs from P b by half a unit a step. *)
Theorem lu_refines (n rhs : nat) (A b : list Z) (p : list nat) :
  length A = (n * n)%nat -> Forall is_i64 A -> length b = (n * rhs)%nat -> Forall is_i64 b ->
  (lu_factor A n b rhs (Some p)).1 = LINEARS_OK ->
  let st := (lu_factor A n b rhs (Some p)).2 in
  let L := lower n (lu_a st) in
  let U := upper n (lu_a st) in
  exists sigma, lu_permutation st = Some (sigma ++ drop n p) /\ sigma ≡ₚ seq 0 n /\ exchanges n sigma (lu_parity st) /\
    (forall i j, (i < n)%nat -> (j < n)%nat ->
      2 * Z.abs (sum_to n (fun t => L i t * U t j) - LINEARS_FIXED_ONE * at_index n A (nth i sigma 0%nat) j)
        <= Z.of_nat (Nat.min i j) * LINEARS_FIXED_ONE + (if (j <? i)%nat then Z.abs (U j j) else 0) /\
      Z.abs (L i j) <= LINEARS_FIXED_ONE /\ U i i <> 0) /\
    (forall i c, (i < n)%nat -> (c < rhs)%nat ->
      2 * Z.abs (sum_to n (fun t => L i t * at_index rhs (lu_b st) t c) - LINEARS_FIXED_ONE * at_index rhs b (nth i sigma 0%nat) c)
        <= Z.of_nat i * LINEARS_FIXED_ONE).
Proof.
  intros Hl HA Hlb Hb E st L U. destruct (lu_factor_inv n rhs A b (Some p) Hl HA Hlb Hb E) as (sigma & Hinv).
  fold st in Hinv. destruct (lu_factored _ _ _ _ _ _ _ Hinv) as (_ & _ & _ & _ & Hlu & Hly).
  destruct Hinv as ((_ & _ & _ & _ & Hp & Hs) & _). exists sigma.
  split; [done|]. split; [by apply (exchanges_spec n sigma _ Hs)|]. split; [done|]. split; [done|]. done.
Qed.
End Lu.

Lemma lu_refines_witness :
  let A := [536870912; 1073741824; 1073741824; 268435456] in
  let st := (@lu_factor Z Z (fixed_arith Matrix.Q15) A 2 [] 0 (Some [7; 7]%nat)).2 in
  lu_a st = [1073741824; 268435456; 1073741824; 939524096] /\
  exists sigma, lu_permutation st = Some (sigma ++ []) /\ sigma ≡ₚ [0; 1]%nat /\ exchanges 2 sigma (-1).
Proof.
  split; [vm_compute; reflexivity|].
  destruct (lu_refines Matrix.Q15 2 0 [536870912; 1073741824; 1073741824; 268435456] [] [7; 7]%nat) as (sigma & Hp & Hs & Hx & _).
  - reflexivity.
  - repeat constructor; rlia.
  - reflexivity.
  - constructor.
  - vm_compute. reflexivity.
  - exists sigma. split; [exact Hp|]. split; [exact Hs|exact Hx].
Defined.
