(* ===== verification/CholeskyQ.v ===== *)
(** * Cholesky: the factor multiplies back to the matrix

    The fixed-point factorization of decomp_cholesky.inc in place: the entries done
    so far, row by row, satisfy the backward-error bound; those to come still hold
    the input. *)
From S2P Require Import Prelude MachineInt Status Wide Numeric Memory Float Matrix FcMonad Cordic FcFloat FcVariants Decomp DecompQ.

Section Cholesky.
Variable kind : numeric_kind.
#[local] Hint Extern 0 (DArith _ Z) => exact (fixed_arith kind) : typeclass_instances.
Implicit Types (a A : list Z) (n i j r c t : nat).

(** The root of a positive value is within one root unit of it. *)
Lemma fixed_sqrt_wp v : is_i64 v -> 0 < v ->
  wp (fcq_sqrt v) (fun x => is_i64 x /\ 0 < x /\ Z.abs (x * x - v * LINEARS_FIXED_ONE) <= x).
Proof.
  intros Hv Hpos. destruct (linears_fixed_sqrt_exact v 0 Hv) as [_ H]. destruct (H ltac:(lia)) as (x & E & Hx & H0 & Hlo & Hhi).
  apply wp_guarded. rewrite E. cbn. intros _. split; [done|]. unfold LINEARS_FIXED_ONE in *. nia.
Qed.

(** The bound on one entry of L L^T. *)
Definition entry_ok n A a i j : Prop :=
  2 * Z.abs (sum_to (j + 1) (fun t => at_index n a i t * at_index n a j t) - LINEARS_FIXED_ONE * at_index n A i j)
    <= LINEARS_FIXED_ONE + (if (i =? j)%nat then 2 * at_index n a i i else at_index n a j j).

(** Entry (r, c) of the lower triangle is computed before entry (i, j). *)
Definition before i j r c : Prop := (r < i \/ r = i /\ c < j)%nat.

Definition cholesky_inv n A i j a : Prop :=
  length a = (n * n)%nat /\ Forall is_i64 a /\
  (forall r c, (c <= r < n)%nat -> before i j r c -> entry_ok n A a r c) /\
  (forall r, (r < n)%nat -> before i j r r -> 0 < at_index n a r r) /\
  (forall r c, (r < n)%nat -> (c < n)%nat -> (i < r \/ r = i /\ j <= c)%nat -> at_index n a r c = at_index n A r c) /\
  (forall r c, (r < i)%nat -> (r < c < n)%nat -> at_index n a r c = 0).

(** An entry that depends only on computed ones keeps its bound. *)
Lemma entry_frame n A a a' i j r c : (c <= r < n)%nat -> before i j r c ->
  (forall r c, (c <= r < n)%nat -> before i j r c -> at_index n a' r c = at_index n a r c) ->
  entry_ok n A a r c -> entry_ok n A a' r c.
Proof.
  intros Hr Hb Hsame Hok. unfold entry_ok, before in *.
  rewrite (sum_to_ext _ _ (fun t => at_index n a r t * at_index n a c t))
    by (intros t Ht; rewrite !Hsame by lia; done).
  destruct (Nat.eqb_spec r c) as [<-|]; by rewrite Hsame by lia.
Qed.

(** Storing an entry whose bound holds. *)
Lemma cholesky_store n A i j x a : (j <= i < n)%nat -> is_i64 x -> cholesky_inv n A i j a ->
  entry_ok n A (set_index n i j x a) i j -> (i = j -> 0 < x) -> cholesky_inv n A i (j + 1) (set_index n i j x a).
Proof.
  intros Hj Hx (Hl & Ha & Hok & Hpos & Hrest & Hzero) Hnew Hxpos.
  pose proof (cell_lt n n i j ltac:(lia) ltac:(lia)) as Hix.
  assert (forall r c, (r < n)%nat -> (c < n)%nat -> (r <> i \/ c <> j)%nat -> at_index n (set_index n i j x a) r c = at_index n a r c)
    as Hsame by (intros r c Hr Hc Hne; rewrite at_set by lia; by rewrite decide_False by lia).
  unfold cholesky_inv, before in *. split; [by rewrite length_set|]. split; [by apply set_range|]. split; [|split; [|split]].
  - intros r c Hr Hb. destruct (decide (r = i /\ c = j)) as [[-> ->]|Hne]; [done|].
    apply (entry_frame n A a _ i j); [done|unfold before; lia| |apply Hok; lia].
    intros r' c' Hr' Hb'. unfold before in Hb'. apply Hsame; lia.
  - intros r Hr Hb. destruct (decide (r = i /\ r = j)) as [[-> Hij]|Hne].
    + rewrite <- Hij, at_set by lia. rewrite decide_True by lia. auto.
    + rewrite Hsame by lia. apply Hpos; lia.
  - intros r c Hr Hc Hb. rewrite Hsame by lia. apply Hrest; lia.
  - intros r c Hr Hc. rewrite Hsame by lia. by apply Hzero.
Qed.

Lemma cholesky_entry_step n A i j a : (j <= i < n)%nat -> cholesky_inv n A i j a ->
  (cholesky_entry n i j a).1 = LINEARS_OK -> cholesky_inv n A i (j + 1) (cholesky_entry n i j a).2.
Proof.
  intros Hj Hinv. pose proof Hinv as (Hl & Ha & Hok & Hpos & Hrest & Hzero).
  pose proof (cell_lt n n i j ltac:(lia) ltac:(lia)) as Hix.
  assert (forall x r c, (r < n)%nat -> (c < n)%nat -> (r <> i \/ c <> j)%nat -> at_index n (set_index n i j x a) r c = at_index n a r c)
    as Hsame by (intros x r c Hr Hc Hne; rewrite at_set by lia; by rewrite decide_False by lia).
  assert (forall x, at_index n (set_index n i j x a) i j = x) as Hnew by (intros x; rewrite at_set by lia; by rewrite decide_True).
  unfold cholesky_entry. cbn [D_DOT_SUB D_SQRT D_DIV D_CMP D_ZERO fixed_arith].
  pose proof (settle_ok _ 0 _ (fixed_dot_sub_wp (at_index n a i j) (fun k => at_index n a i k) (fun k => at_index n a j k) j
    (at_range kind n i j a Ha) (fun k _ => conj (at_range kind n i k a Ha) (at_range kind n j k a Ha)))) as Hdot.
  set (r := settle (fixed_dot_sub _ _ _ _) 0) in *.
  destruct (status_ok r.1) eqn:Er; cbn [negb]; [|by intros E; cbn in E; rewrite E in Er].
  apply status_ok_true in Er. destruct (Hdot Er) as [Hv Ev]. rewrite (Hrest i j) in Ev by lia.
  pose proof (div_nearest_error (at_index n A i j * LINEARS_FIXED_ONE - sum_to j (fun t => at_index n a i t * at_index n a j t))
    LINEARS_FIXED_ONE ltac:(done)) as He. rewrite <- Ev in He.
  assert (forall x, sum_to (j + 1) (fun t => at_index n (set_index n i j x a) i t * at_index n (set_index n i j x a) j t)
    = sum_to j (fun t => at_index n a i t * at_index n a j t) + x * (if (i =? j)%nat then x else at_index n a j j)) as Hsum.
  { intros x. rewrite Nat.add_1_r, sum_to_S, Hnew. f_equal; [apply sum_to_ext; intros t Ht; by rewrite !Hsame by lia|].
    f_equal. destruct (Nat.eqb_spec i j) as [->|]; [apply Hnew|by rewrite Hsame by lia]. }
  destruct (Nat.eqb_spec i j) as [Hij|Hij].
  - rewrite fcq_cmp_sign. destruct (Z.leb_spec (Z.sgn (r.2 - 0)) 0) as [|Hp]; [done|].
    apply (settle_ok _ _ (fun a' => cholesky_inv n A i (j + 1) a')). apply wp_bind; [|solve_sticky].
    eapply wp_mono; [apply fixed_sqrt_wp; [done|lia]|]. intros x (Hx & Hx0 & Hxe). apply wp_ret.
    apply cholesky_store; auto. unfold entry_ok. rewrite Hsum. subst j. rewrite Nat.eqb_refl, Hnew. lia.
  - apply (settle_ok _ _ (fun a' => cholesky_inv n A i (j + 1) a')). apply wp_bind; [|solve_sticky].
    assert (0 < at_index n a j j) as Hjj by (apply Hpos; unfold before; lia).
    eapply wp_mono; [apply fixed_div_wp; [done|by apply at_range|lia]|]. intros x (Hx & Hxe & _). apply wp_ret.
    apply cholesky_store; [done|done|done| |done]. unfold entry_ok. rewrite Hsum.
    rewrite (proj2 (Nat.eqb_neq i j) Hij), (Hsame x j j) by lia. lia.
Qed.

(** The end of a row clears its upper part. *)
Definition cleared n i a a' (hi : nat) : Prop :=
  length a' = (n * n)%nat /\ Forall is_i64 a' /\
  forall r c, (r < n)%nat -> (c < n)%nat -> at_index n a' r c = if decide (r = i /\ i < c < hi)%nat then 0 else at_index n a r c.

Lemma clear_row n i a : (i < n)%nat -> length a = (n * n)%nat -> Forall is_i64 a ->
  cleared n i a (for_up (i + 1) (n - (i + 1)) (fun j a => set_index n i j D_ZERO a) a) n.
Proof.
  intros Hi Hl Ha. apply (for_up_rule _ (fun c b => (i < c)%nat /\ cleared n i a b c)); [|lia|].
  - intros j b Hj (Hij & Hlb & Hb & Hv). split; [lia|]. split; [by rewrite length_set|]. split; [apply set_range; [done|cbn; rlia]|].
    intros r c Hr Hc. pose proof (cell_lt n n i j Hi Hj). rewrite at_set by lia.
    destruct (decide (i = r /\ j = c)) as [[<- <-]|Hne].
    + case_decide; [done|lia].
    + rewrite Hv by done. repeat case_decide; try done; lia.
  - split; [lia|]. split; [done|]. split; [done|]. intros r c Hr Hc. by rewrite decide_False by lia.
Qed.

Lemma cholesky_row_step n A i a : (i < n)%nat -> cholesky_inv n A i 0 a ->
  (cholesky_row n i a).1 = LINEARS_OK -> cholesky_inv n A (i + 1) 0 (cholesky_row n i a).2.
Proof.
  intros Hi Ha. unfold cholesky_row.
  destruct (status_ok _) eqn:E; [|by intros E'; rewrite E' in E]. intros _. apply status_ok_true in E.
  assert (cholesky_inv n A i (i + 1) (for_status 0 (i + 1) (cholesky_entry n i) a).2) as Hinv.
  { pose proof (for_status_ok (fun j a => cholesky_inv n A i j a) (cholesky_entry n i) 0 (i + 1) a) as Hrule.
    rewrite Nat.add_0_l in Hrule. apply Hrule; [|done|done].
    intros j b Hj Hb Eb. apply cholesky_entry_step; (done || lia). }
  set (b := (for_status 0 (i + 1) (cholesky_entry n i) a).2) in *. clearbody b. cbn [snd].
  destruct Hinv as (Hl & Hb & Hok & Hpos & Hrest & Hzero).
  destruct (clear_row n i b Hi Hl Hb) as (Hl' & Hb' & Hv). set (b' := for_up _ _ _ _) in *. clearbody b'.
  unfold cholesky_inv, before in *. split; [done|]. split; [done|]. split; [|split; [|split]].
  - intros r c Hr Hbf. apply (entry_frame n A b _ i (i + 1)); [done|unfold before; lia| |apply Hok; lia].
    intros r' c' Hr' _. rewrite Hv by lia. by rewrite decide_False by lia.
  - intros r Hr Hbf. rewrite Hv by lia. rewrite decide_False by lia. apply Hpos; lia.
  - intros r c Hr Hc Hbf. rewrite Hv by lia. rewrite decide_False by lia. apply Hrest; lia.
  - intros r c Hr Hc. rewrite Hv by lia. case_decide; [done|]. apply Hzero; lia.
Qed.

(** The whole factorization ends with every entry done. *)
Lemma cholesky_factor_inv n A : length A = (n * n)%nat -> Forall is_i64 A -> (cholesky_factor n A).1 = LINEARS_OK ->
  cholesky_inv n A n 0 (cholesky_factor n A).2.
Proof.
  intros Hl HA E. unfold cholesky_factor in *. apply (for_status_ok (fun i a => cholesky_inv n A i 0 a)); [| |done].
  - intros i a Hi Ha Ea. apply cholesky_row_step; (done || lia).
  - split; [done|]. split; [done|]. unfold before. split; [|split; [|split]]; intros; (done || lia).
Qed.

(** [L] is a lower triangular factor of [A] up to the rounding of its entries. *)
Definition backward_ok n (A L : nat -> nat -> Z) : Prop := forall i j, (j <= i < n)%nat ->
  2 * Z.abs (sum_to n (fun t => L i t * L j t) - LINEARS_FIXED_ONE * A i j)
    <= LINEARS_FIXED_ONE + (if (i =? j)%nat then 2 * L i i else L j j) /\
  0 < L i i /\ ((j < i)%nat -> L j i = 0).

Lemma cholesky_inv_backward n A a : cholesky_inv n A n 0 a -> backward_ok n (at_index n A) (at_index n a).
Proof.
  intros (_ & _ & Hok & Hpos & _ & Hzero) i j Hij. split; [|split].
  - specialize (Hok i j Hij ltac:(unfold before; lia)). unfold entry_ok in Hok.
    replace n with (j + 1 + (n - (j + 1)))%nat at 1 by lia. rewrite sum_to_tail; [done|].
    intros t Ht. rewrite (Hzero j t) by lia. lia.
  - apply Hpos; unfold before; lia.
  - intros Hji. apply Hzero; lia.
Qed.

(** C10. When the fixed-point Cholesky factorization succeeds, the factor has a
    positive diagonal and a zero upper triangle, and L L^T differs from the input
    by at most half a unit and half a pivot per entry (a root unit on the diagonal),
    whatever the order of the matrix. *)
Theorem cholesky_refines (n : nat) (A : list Z) :
  length A = (n * n)%nat -> Forall is_i64 A -> (cholesky_factor n A).1 = LINEARS_OK ->
  let L := at_index n (cholesky_factor n A).2 in
  forall i j, (j <= i < n)%nat ->
    2 * Z.abs (sum_to n (fun t => L i t * L j t) - LINEARS_FIXED_ONE * at_index n A i j)
      <= LINEARS_FIXED_ONE + (if (i =? j)%nat then 2 * L i i else L j j) /\
    0 < L i i /\ ((j < i)%nat -> L j i = 0).
Proof. intros Hl HA E L. exact (cholesky_inv_backward n A _ (cholesky_factor_inv n A Hl HA E)). Qed.
End Cholesky.

Lemma cholesky_refines_witness :
  let A := [1073741824; 536870912; 536870912; 1073741824] in
  let F := (@cholesky_factor Z Z (fixed_arith Matrix.Q31) 2 A).2 in
  F = [1518500250; 0; 759250125; 1315059792] /\ 0 < @at_index Z Z (fixed_arith Matrix.Q31) 2 F 1 1.
Proof.
  split; [vm_compute; reflexivity|].
  apply (cholesky_refines Matrix.Q31 2 [1073741824; 536870912; 536870912; 1073741824]) with (i := 1%nat) (j := 0%nat).
  - reflexivity.
  - repeat constructor; rlia.
  - vm_compute. reflexivity.
  - lia.
Defined.
