(* ===== verification/DecompSpec.v ===== *)
(** * Factorizations: the entry points

    How a body fails (DecompAtomic.v uses it), and success: the fixed-point Cholesky
    entry point delivers the factors of CholeskyQ.v, each element rounded once to
    the signal. *)
From S2P Require Import Prelude MachineInt Status Wide Numeric Memory Float Matrix FcMonad Cordic FcFloat FcVariants Decomp DecompQ LuQ CholeskyQ.

(** ** Failure *)

(** A call that does not succeed ends in a state with [P]. *)
Definition fails_with {A} (P : A -> Prop) (r : linears_status_t * A) : Prop := r.1 <> LINEARS_OK -> P r.2.

Section Fails.
Context {A : Type} (P : A -> Prop).

Lemma fails_require s stop rest : P stop -> fails_with P rest -> fails_with P (require s stop rest).
Proof. intros HP Hr. unfold require. destruct (status_ok s); [exact Hr|]. by intros _. Qed.

Lemma fails_at s stop : P stop -> fails_with P (s, stop).
Proof. intros HP _. exact HP. Qed.

Lemma fails_ok (r : A) : fails_with P (LINEARS_OK, r).
Proof. intros Hne. by destruct Hne. Qed.

Lemma fails_if (b : bool) m1 m2 : fails_with P m1 -> fails_with P m2 -> fails_with P (if b then m1 else m2).
Proof. by destruct b. Qed.
End Fails.

(** Follows the early returns of a body to its end. *)
Ltac solve_fails :=
  cbv zeta;
  repeat lazymatch goal with
  | |- fails_with _ (require _ _ _) => apply fails_require
  | |- fails_with _ (if _ then _ else _) => apply fails_if
  | |- fails_with _ (LINEARS_OK, _) => apply fails_ok
  | |- fails_with _ (_, _) => apply fails_at
  | |- fails_with _ (deliver_block _ _) => unfold deliver_block
  | |- fails_with _ (solve_work _ _ _ _ _) => unfold solve_work; cbv zeta
  end; auto.

(** ** Success of the q15 and q31 entry points *)

Lemma require_ok {A} s (stop r : A) rest : require s stop rest = (LINEARS_OK, r) -> s = LINEARS_OK /\ rest = (LINEARS_OK, r).
Proof. unfold require. destruct s; cbn; intros E; try discriminate E. auto. Qed.

Section Signals.
Variable f : q_format.
Let kind : numeric_kind := match f with Q15 => Matrix.Q15 | Q31 => Matrix.Q31 end.
#[local] Hint Extern 0 (DArith _ Z) => exact (fixed_arith kind) : typeclass_instances.
#[local] Hint Extern 0 (DArith Z _) => exact (fixed_arith kind) : typeclass_instances.

Lemma import_field v : D_IMPORT kind v = fcq_field f v.
Proof. by destruct f. Qed.

Lemma quantize_round v : is_i64 v -> in_unit_interval v LINEARS_FIXED_ONE = true -> D_QUANTIZE kind v = q_round f v.
Proof.
  intros Hv Hu. destruct (linears_fixed_to_q_exact v (Some 0) Hv) as [H15 H31].
  unfold D_QUANTIZE, q_round, kind. destruct f; [rewrite H15|rewrite H31]; cbn; by rewrite Hu.
Qed.

Lemma load_all_ok (values : list Z) : (load_all values).1 = LINEARS_OK ->
  (load_all values).2 = map (fcq_field f) values.
Proof.
  unfold load_all. apply (settle_ok _ _ (fun a => a = map (fcq_field f) values)).
  eapply wp_mono; [apply (wp_for_fc (fun i a => a = map (fcq_field f) (take i values)))|]; [| |done|].
  - intros i a. destruct (values !! i); cbn; solve_sticky.
  - intros i a Hi ->. destruct (lookup_lt_is_Some_2 values i) as [v Ev]; [lia|]. rewrite Ev.
    cbn [D_LOAD fixed_arith]. intros _. cbn. rewrite Nat.add_1_r, (take_S_r values i v Ev), map_app.
    cbn. by rewrite import_field.
  - intros a ->. by rewrite Nat.add_0_l, firstn_all.
Qed.

Lemma extrema_bounds (values : list Z) lo hi :
  let bounds := foldl (fun bounds value => extrema value bounds) (lo, hi) values in
  bounds.1 <= lo /\ hi <= bounds.2 /\ Forall (fun v => bounds.1 <= v <= bounds.2) values.
Proof.
  revert lo hi. induction values as [|v values IH]; intros lo hi; cbn [foldl]; [cbn; split_and!; [lia|lia|constructor]|].
  unfold extrema at 2 4 6 8. cbn [fst snd D_CMP fixed_arith]. rewrite !fcq_cmp_sign.
  match goal with |- context [foldl _ (?l, ?h) values] => destruct (IH l h) as (H1 & H2 & H3) end.
  cbv zeta in *. set (bounds := foldl _ _ values) in *.
  assert (bounds.1 <= Z.min v lo /\ Z.max v hi <= bounds.2) as [Hlo Hhi] by (repeat case_if_in H1; repeat case_if_in H2; lia).
  split_and!; [lia|lia|]. constructor; [lia|done].
Qed.

(** The preflight keeps every value in the closed unit interval. *)
Lemma check_block_unit (values : list Z) : check_block values = LINEARS_OK ->
  Forall (fun v => - LINEARS_FIXED_ONE <= v <= LINEARS_FIXED_ONE) values.
Proof.
  unfold check_block. destruct (extrema_bounds values 0 0) as (_ & _ & Hall). cbv zeta in Hall.
  cbn [D_ZERO D_OUTPUT_BOUNDS fixed_arith]. set (bounds := foldl _ _ values) in *.
  unfold fixed_output_bounds. replace (match kind with WORK => _ | _ => _ end) with
    (if (bounds.1 <? - LINEARS_FIXED_ONE) || (bounds.2 >? LINEARS_FIXED_ONE) then LINEARS_ERROR_RANGE else LINEARS_OK)
    by (unfold kind; by destruct f).
  case_if; [done|]. intros _. eapply Forall_impl; [|exact Hall]. cbn. intros v Hv. lia.
Qed.

(** ** Sizes *)

Lemma size_mul_exact (target : decomp_abi) n : 0 <= n -> 0 <= SIZE_MAX (base_abi target) ->
  LINEARS_SIZE_MUL target n n <> SIZE_MAX (base_abi target) -> LINEARS_SIZE_MUL target n n = n * n.
Proof.
  intros Hn HS. unfold LINEARS_SIZE_MUL. cbv zeta. destruct (Z.eqb_spec n 0) as [->|Hnz].
  - case_if; [by intros []|done].
  - rewrite Z.lor_0_r. case_if; [by intros []|]. intros _. unfold usize. apply Z.mod_small.
    pose proof (Z.mul_div_le (SIZE_MAX (base_abi target)) n ltac:(lia)). nia.
Qed.

Lemma validate_required target (matrices : list (operand Z)) count w required :
  validate target matrices count w required = LINEARS_OK -> required <> SIZE_MAX (base_abi target).
Proof. unfold validate. by destruct (Z.eqb_spec required (SIZE_MAX (base_abi target))). Qed.

(** A matrix with its [rows * cols] elements, all of them signals. *)
Definition signals_ok (m : operand Z) : Prop :=
  0 <= rows (descriptor m) /\ 0 <= cols (descriptor m) /\
  length (elements m) = Z.to_nat (rows (descriptor m) * cols (descriptor m)) /\ Forall (q_repr f) (elements m).

(** Entry (i, j) of an operand in F31. *)
Definition field_at (n : nat) (m : operand Z) (i j : nat) : Z := fcq_field f (nth (i * n + j) (elements m) 0).
Definition element_at (n : nat) (m : operand Z) (i j : nat) : Z := nth (i * n + j) (elements m) 0.

Lemma at_import n m i j : at_index n (map (fcq_field f) (elements m)) i j = field_at n m i j.
Proof. unfold at_index, field_at. cbn [D_ZERO fixed_arith]. rewrite <- (map_nth (fcq_field f)). by destruct f. Qed.

Lemma import_square (target : decomp_abi) (a : operand Z) count : signals_ok a ->
  0 <= SIZE_MAX (base_abi target) -> cols (descriptor a) = rows (descriptor a) ->
  count = LINEARS_LU_WORKSPACE target (rows (descriptor a)) -> count <> SIZE_MAX (base_abi target) ->
  (import a (Z.to_nat count)).1 = LINEARS_OK ->
  let A := (import a (Z.to_nat count)).2 in
  let n := Z.to_nat (rows (descriptor a)) in
  A = map (fcq_field f) (elements a) /\ length A = (n * n)%nat /\ Forall is_i64 A.
Proof.
  intros (Hr & Hc & Hlen & Hall) HS Hsq -> Hne E. unfold LINEARS_LU_WORKSPACE in *.
  rewrite size_mul_exact in * by done. rewrite Hsq in Hlen.
  unfold import in *. rewrite firstn_all2 in * by lia. rewrite load_all_ok by done.
  split; [done|]. split; [rewrite length_map, Hlen, Z2Nat.inj_mul by lia; done|].
  apply Forall_map. eapply Forall_impl; [|exact Hall]. intros v Hv. by apply fcq_field_i64.
Qed.

Lemma first_error_ok l : first_error l = LINEARS_OK -> forall s, In s l -> s = LINEARS_OK.
Proof.
  induction l as [|x l IH]; cbn; [done|]. intros E s Hin. destruct (status_ok x) eqn:Ex.
  - apply status_ok_true in Ex. destruct Hin as [<-|Hin]; [done|by apply IH].
  - by rewrite E in Ex.
Qed.

Lemma check_symmetric_ok n (A : list Z) : check_symmetric n A = LINEARS_OK ->
  forall i j, (i < n)%nat -> (j < n)%nat -> at_index n A i j = at_index n A j i.
Proof.
  unfold check_symmetric. intros E i j Hi Hj.
  enough (forall i j, (i < j < n)%nat -> at_index n A i j = at_index n A j i) as Hlt.
  { destruct (Nat.lt_trichotomy i j) as [|[->|]]; [apply Hlt; lia|done|symmetry; apply Hlt; lia]. }
  clear i j Hi Hj. intros i j Hij.
  assert ((if D_CMP (at_index n A i j) (at_index n A j i) =? 0 then LINEARS_OK else LINEARS_ERROR_DIMENSION) = LINEARS_OK) as Ec.
  { apply (first_error_ok _ E). apply in_concat. eexists. split; [apply in_map_iff; exists i; split; [done|apply in_seq; lia]|].
    apply in_map_iff. exists j. split; [done|]. apply in_seq. lia. }
  cbn [D_CMP fixed_arith] in Ec. rewrite fcq_cmp_sign in Ec. case_if_in Ec; [lia|done].
Qed.

Lemma element_repr n m i j : signals_ok m -> q_repr f (element_at n m i j).
Proof.
  intros (_ & _ & _ & Hall). unfold element_at. destruct (Nat.lt_ge_cases (i * n + j) (length (elements m))) as [Hlt|Hge].
  - by apply Forall_nth.
  - rewrite nth_overflow by done. by destruct f.
Qed.

Lemma field_at_inj n m i j r c : signals_ok m -> field_at n m i j = field_at n m r c -> element_at n m i j = element_at n m r c.
Proof.
  intros Hm E. pose proof (element_repr n m i j Hm) as H1. pose proof (element_repr n m r c Hm) as H2.
  pose proof (fcq_field_mono f _ _ H1 H2). pose proof (fcq_field_mono f _ _ H2 H1). unfold field_at in E. fold (element_at n m i j) (element_at n m r c) in E. lia.
Qed.

(** What a delivered block looks like. *)
Lemma deliver_block_ok (values : list Z) (out r : operand Z) : Forall is_i64 values ->
  deliver_block values out = (LINEARS_OK, r) ->
  descriptor r = descriptor out /\ drop (length values) (elements r) = drop (length values) (elements out) /\
  Forall (fun v => Z.abs v <= LINEARS_FIXED_ONE) values /\
  forall k, (k < length values)%nat -> nth k (elements r) 0 = q_round f (nth k values 0).
Proof.
  intros Hv E. apply require_ok in E as [Ec E]. apply check_block_unit in Ec. injection E as <-.
  unfold commit, overwrite, store_block. cbn [descriptor elements D_STORE fixed_arith].
  split; [done|]. split; [rewrite length_map, <- (length_map (D_QUANTIZE kind)) at 1; by rewrite drop_app_length|].
  split; [eapply Forall_impl; [|exact Ec]; cbn; lia|]. intros k Hk.
  rewrite app_nth1 by (by rewrite length_map). rewrite (nth_indep _ 0 (D_QUANTIZE kind 0)) by (by rewrite length_map).
  rewrite map_nth. apply quantize_round.
  - by apply Forall_nth.
  - pose proof (proj1 (Forall_nth _ _) Ec k 0 Hk) as Hr. cbn in Hr. unfold in_unit_interval. zbool. lia.
Qed.

(** C11. A successful q15 or q31 Cholesky call had an exactly symmetric input, keeps
    the output descriptor and everything behind the n * n elements, and stores the
    elements, each rounded once, of an F31 factor within [-1, 1] that multiplies
    back to the input. *)
Theorem linears_cholesky_spec (target : decomp_abi) (a l : operand Z) (w : workspace) :
  signals_ok a -> 0 <= SIZE_MAX (base_abi target) -> (linears_cholesky target a l w).1 = LINEARS_OK ->
  let n := Z.to_nat (rows (descriptor a)) in
  let out := (linears_cholesky target a l w).2 in
  descriptor out = descriptor l /\ drop (n * n) (elements out) = drop (n * n) (elements l) /\
  (forall i j, (i < n)%nat -> (j < n)%nat -> element_at n a i j = element_at n a j i) /\
  exists L : nat -> nat -> Z, backward_ok n (field_at n a) L /\
    forall i j, (i < n)%nat -> (j < n)%nat ->
      Z.abs (L i j) <= LINEARS_FIXED_ONE /\ element_at n out i j = q_round f (L i j).
Proof.
  intros Ha HS Eok. cbv zeta. destruct (linears_cholesky target a l w) as [s out] eqn:E. cbn [fst] in Eok. subst s. cbn [snd].
  unfold linears_cholesky in E. apply require_ok in E as [_ E]. cbv zeta in E.
  destruct (square _ _) eqn:Esq; cbn [negb] in E; [|done]. cbn in Esq. zbool. subst.
  apply require_ok in E as [Ev E]. apply validate_required in Ev.
  apply require_ok in E as [Ei E]. apply require_ok in E as [Es E]. apply require_ok in E as [Ef E].
  set (n := Z.to_nat (rows (descriptor a))) in *.
  destruct (import_square target a _ Ha HS ltac:(done) eq_refl Ev Ei) as (EA & Hl & HA). fold n in Hl.
  set (A := (import a _).2) in *.
  pose proof (cholesky_factor_inv kind n A Hl HA Ef) as Hinv. pose proof Hinv as (Hlf & Hf & _).
  destruct (deliver_block_ok _ _ _ Hf E) as (Hd & Hdrop & Hunit & Hel). rewrite Hlf in Hdrop, Hel.
  split; [done|]. split; [done|]. split.
  - intros i j Hi Hj. pose proof (check_symmetric_ok n A Es i j Hi Hj) as Hsym. rewrite EA, !at_import in Hsym.
    by apply field_at_inj.
  - exists (at_index n (cholesky_factor n A).2). split.
    + intros i j Hij. rewrite <- at_import, <- EA. by apply (cholesky_inv_backward kind n A _ Hinv).
    + intros i j Hi Hj. pose proof (cell_lt n n i j Hi Hj). split; [|by apply Hel].
      by apply (proj1 (Forall_nth _ _) Hunit); rewrite Hlf.
Qed.
End Signals.

(** A 32-bit target and a 2-by-2 q15 matrix on it. *)
Definition rv32 : decomp_abi := mk_decomp_abi
  (mk_abi 4294967295 4294967295 12 4 4
     (fun kind => match kind with Matrix.Q15 => 2 | Matrix.Q31 => 4 | F32 => 4 | _ => 8 end)) 4 4 4 4.
Definition sample_matrix (at_ data : Z) (values : list Z) : operand Z := mk_operand (mk_matrix at_ data 2 2) values.
Definition sample_space : workspace := mk_workspace 4096 16.

Lemma linears_cholesky_spec_witness :
  let a := sample_matrix 256 1024 [16384; 8192; 8192; 16384] in
  let out := (@linears_cholesky Z Z (fixed_arith Matrix.Q15) rv32 a (sample_matrix 320 2048 [1; 2; 3; 4; 5]) sample_space).2 in
  elements out = [23170; 0; 11585; 20066; 5] /\
  exists L, backward_ok 2 (field_at Q15 2 a) L /\ element_at 2 out 1 0 = q_round Q15 (L 1%nat 0%nat).
Proof.
  split; [vm_compute; reflexivity|].
  destruct (linears_cholesky_spec Q15 rv32 (sample_matrix 256 1024 [16384; 8192; 8192; 16384])
    (sample_matrix 320 2048 [1; 2; 3; 4; 5]) sample_space) as (_ & _ & _ & L & HL & Hel).
  - split; [done|]. split; [done|]. split; [done|]. repeat constructor; rlia.
  - done.
  - vm_compute. reflexivity.
  - exists L. split; [exact HL|]. apply (Hel 1%nat 0%nat); cbn; lia.
Defined.
