(* ===== verification/Ldlt.v ===== *)
(** * Symmetric-indefinite factorization: decomp_ldlt.inc

    Bunch-Parlett with complete symmetric pivoting: 1-by-1 and 2-by-2 pivots, the
    factorization in its workspace and the entry point, over the interface of
    Decomp.v and the expressions that the code selects by D_FIXED. *)
From Stdlib Require Import SpecFloat.
From S2P Require Import Prelude MachineInt Status Wide Numeric Memory Float Matrix FcMonad Cordic FcFloat Decomp.

(** ** Constants and the expressions of a 2-by-2 pivot *)

Class DBlock (W : Type) := {
  D_CONST : Z -> fc W;
  (** [a * c - 1] *)
  D_BLOCK_DELTA : W -> W -> fc W;
  (** [c * x - y] and [a * y - x] *)
  D_BLOCK_SOLVE : W -> W -> W -> W -> fc (W * W);
  (** [value - l1 * c1 - l2 * c2] *)
  D_BLOCK_UPDATE : W -> W -> W -> W -> W -> fc W;
}.

Definition fixed_block_delta (a c : Z) : fc Z :=
  delta ← fixed_sub_product LINEARS_FIXED_ONE a c; fcq_neg delta.

Definition fixed_block_solve (a c x y : Z) : fc (Z * Z) :=
  first ← fixed_sub_product y c x;
  second ← fixed_sub_product x a y;
  first ← fcq_neg first;
  second ← fcq_neg second;
  mret (first, second).

Definition pick {A} (x y : A) (t : nat) : A := match t with O => x | S _ => y end.

Definition fixed_block : DBlock Z := {|
  D_CONST := fcq_i;
  D_BLOCK_DELTA := fixed_block_delta;
  D_BLOCK_SOLVE := fixed_block_solve;
  D_BLOCK_UPDATE := fun value l1 c1 l2 c2 => fixed_dot_sub value (pick l1 l2) (pick c1 c2) 2;
|}.

Section NativeBlock.
Variable kind : numeric_kind.

Definition native_block_delta (a c : spec_float) : fc spec_float :=
  delta ← native_adapter (fmul (kind_format kind) a c);
  native_adapter (fsub (kind_format kind) delta (fone (kind_format kind))).

Definition native_block_solve (a c x y : spec_float) : fc (spec_float * spec_float) :=
  first ← native_adapter (fmul (kind_format kind) c x);
  second ← native_adapter (fmul (kind_format kind) a y);
  first ← native_adapter (fsub (kind_format kind) first y);
  second ← native_adapter (fsub (kind_format kind) second x);
  mret (first, second).

Definition native_block_update (value l1 c1 l2 c2 : spec_float) : fc spec_float :=
  first ← native_adapter (fmul (kind_format kind) l1 c1);
  second ← native_adapter (fmul (kind_format kind) l2 c2);
  updated ← native_adapter (fsub (kind_format kind) value first);
  native_adapter (fsub (kind_format kind) updated second).

Definition native_block : DBlock spec_float := {|
  D_CONST := fun value => mret (of_int (kind_format kind) value);
  D_BLOCK_DELTA := native_block_delta;
  D_BLOCK_SOLVE := native_block_solve;
  D_BLOCK_UPDATE := native_block_update;
|}.
End NativeBlock.

Section Ldlt.
Context {R W : Type} `{DArith R W} `{DBlock W} (target : decomp_abi).

(** The array, with the metadata that a failing call may have written. *)
Record ldlt_state := mk_ldlt { ldlt_a : list W; ldlt_permutation : list nat; ldlt_blocks : list Z }.

(** ** Pivoting *)

(** D_LOCAL(ldlt_swap): rows throughout, columns of the active rows. *)
Definition swap_active_columns (n first p q : nat) (a : list W) : list W :=
  for_up first (n - first) (fun i a =>
    let value := at_index n a i p in
    set_index n i q value (set_index n i p (at_index n a i q) a)) a.

Definition ldlt_swap (n first p q : nat) (st : ldlt_state) : ldlt_state :=
  if (p =? q)%nat then st
  else mk_ldlt (swap_active_columns n first p q (swap_rows n p q (ldlt_a st)))
         (swap_entries p q (ldlt_permutation st)) (ldlt_blocks st).

(** The largest diagonal and off-diagonal magnitudes, with their first positions. *)
Record ldlt_pivot := mk_pivot {
  diagonal_max : W; diagonal_index : nat; off_diagonal_max : W; off_p : nat; off_q : nat }.

Definition search_row (n i : nat) (a : list W) (best : ldlt_pivot) : fc ldlt_pivot :=
  magnitude ← D_ABS (at_index n a i i);
  let best := if 0 <? D_CMP magnitude (diagonal_max best)
              then mk_pivot magnitude i (off_diagonal_max best) (off_p best) (off_q best) else best in
  for_fc (i + 1) (n - (i + 1)) (fun j best =>
    magnitude ← D_ABS (at_index n a i j);
    mret (if 0 <? D_CMP magnitude (off_diagonal_max best)
          then mk_pivot (diagonal_max best) (diagonal_index best) magnitude i j else best)) best.

Definition ldlt_search (n k : nat) (a : list W) : linears_status_t * ldlt_pivot :=
  let start := mk_pivot D_ZERO k D_ZERO k k in
  settle (for_fc k (n - k) (fun i => search_row n i a) start) start.

(** Whether the largest diagonal is the pivot. *)
Definition single_pivot (alpha : W) (best : ldlt_pivot) : linears_status_t * bool :=
  if 0 <=? D_CMP (diagonal_max best) (off_diagonal_max best) then (LINEARS_OK, true)
  else settle (ratio ← D_DIV (diagonal_max best) (off_diagonal_max best); mret (0 <=? D_CMP ratio alpha)) false.

(** ** The two kinds of step *)

(** The trailing triangle, each element updated and mirrored. *)
Definition update_trailing (n from : nat) (updated : nat -> nat -> list W -> fc W) (a : list W) : fc (list W) :=
  for_fc from (n - from) (fun i a =>
    for_fc i (n - i) (fun j a =>
      v ← updated i j a; mret (set_index n i j v (set_index n j i v a))) a) a.

Definition divide_column (n k : nat) (pivot : W) (a : list W) : fc (list W) :=
  for_fc (k + 1) (n - (k + 1)) (fun i a =>
    v ← D_DIV (at_index n a i k) pivot; mret (set_index n i k v a)) a.

Definition ldlt_single (n k index : nat) (st : ldlt_state) : linears_status_t * ldlt_state :=
  let st := ldlt_swap n k k index st in
  let pivot := at_index n (ldlt_a st) k k in
  let blocks := <[k := 1]> (ldlt_blocks st) in
  settle (a ← divide_column n k pivot (ldlt_a st);
          a ← update_trailing n (k + 1) (fun i j a =>
                D_SUB_PRODUCT (at_index n a j i) (at_index n a j k) (at_index n a k i)) a;
          mret (mk_ldlt a (ldlt_permutation st) blocks)) (mk_ldlt (ldlt_a st) (ldlt_permutation st) blocks).

(** The two multipliers of row [i]. *)
Definition block_row (n k : nat) (a_ b c delta : W) (i : nat) (a : list W) : fc (list W) :=
  x ← D_DIV (at_index n a i k) b;
  y ← D_DIV (at_index n a i (k + 1)) b;
  solved ← D_BLOCK_SOLVE a_ c x y;
  first ← D_DIV solved.1 delta;
  let a := set_index n i k first a in
  second ← D_DIV solved.2 delta;
  mret (set_index n i (k + 1) second a).

Definition ldlt_double (n k p q : nat) (st : ldlt_state) : linears_status_t * ldlt_state :=
  let st := ldlt_swap n k (k + 1) q (ldlt_swap n k k p st) in
  let blocks := <[(k + 1)%nat := 0]> (<[k := 2]> (ldlt_blocks st)) in
  settle (let b := at_index n (ldlt_a st) k (k + 1) in
          a_ ← D_DIV (at_index n (ldlt_a st) k k) b;
          c ← D_DIV (at_index n (ldlt_a st) (k + 1) (k + 1)) b;
          delta ← D_BLOCK_DELTA a_ c;
          a ← for_fc (k + 2) (n - (k + 2)) (block_row n k a_ b c delta) (ldlt_a st);
          a ← update_trailing n (k + 2) (fun i j a =>
                D_BLOCK_UPDATE (at_index n a j i) (at_index n a j k) (at_index n a k i)
                  (at_index n a j (k + 1)) (at_index n a (k + 1) i)) a;
          mret (mk_ldlt a (ldlt_permutation st) blocks)) (mk_ldlt (ldlt_a st) (ldlt_permutation st) blocks).

(** ** The factorization *)

(** One pass of the loop: the status, the next column and the state. *)
Definition ldlt_step (n : nat) (alpha : W) (k : nat) (st : ldlt_state) : linears_status_t * (nat * ldlt_state) :=
  let best := ldlt_search n k (ldlt_a st) in
  if negb (status_ok best.1) then (best.1, (k, st))
  else if (D_CMP (diagonal_max best.2) D_ZERO =? 0) && (D_CMP (off_diagonal_max best.2) D_ZERO =? 0)
  then (LINEARS_ERROR_SINGULAR, (k, st))
  else
    let single := single_pivot alpha best.2 in
    if negb (status_ok single.1) then (single.1, (k, st))
    else if single.2
    then let r := ldlt_single n k (diagonal_index best.2) st in (r.1, ((k + 1)%nat, r.2))
    else let r := ldlt_double n k (off_p best.2) (off_q best.2) st in (r.1, ((k + 2)%nat, r.2)).

Fixpoint ldlt_loop (fuel n : nat) (alpha : W) (k : nat) (st : ldlt_state) : linears_status_t * ldlt_state :=
  match fuel with
  | O => (LINEARS_OK, st)
  | S fuel =>
      if (k <? n)%nat then
        let r := ldlt_step n alpha k st in
        if status_ok r.1 then ldlt_loop fuel n alpha r.2.1 r.2.2 else (r.1, r.2.2)
      else (LINEARS_OK, st)
  end.

Definition ldlt_alpha : linears_status_t * W :=
  settle (alpha ← D_CONST 17; alpha ← D_SQRT alpha; alpha ← D_ADD D_ONE alpha;
          eight ← D_CONST 8; D_DIV alpha eight) D_ZERO.

(** At most one pass per column. *)
Definition ldlt_factor (work : list W) (n : nat) (permutation : list nat) (blocks : list Z)
    : linears_status_t * ldlt_state :=
  require ldlt_alpha.1 (mk_ldlt work permutation blocks)
    (ldlt_loop n n ldlt_alpha.2 0
       (mk_ldlt work (seq 0 n ++ drop n permutation) (repeat 0 n ++ drop n blocks))).

(** ** The entry point *)

(** Whether the entry (i, j), with j <= i, belongs to D. *)
Definition in_block (blocks : list Z) (i j : nat) : bool := (nth j blocks 0 =? 2) && (i =? j + 1)%nat.

Definition ldlt_bounds (n : nat) (a : list W) (blocks : list Z) : linears_status_t :=
  let lower := concat (map (fun i => (i, i) :: map (pair i) (seq 0 i)) (seq 0 n)) in
  let scan pick bounds :=
    foldl (fun bounds ij => if pick ij.1 ij.2 : bool then extrema (at_index n a ij.1 ij.2) bounds else bounds) bounds lower in
  let l := scan (fun i j => negb ((i =? j)%nat || in_block blocks i j)) (D_ZERO, if (n =? 0)%nat then D_ZERO else D_ONE) in
  let d := scan (fun i j => (i =? j)%nat || in_block blocks i j) (D_ZERO, D_ZERO) in
  first_error [D_OUTPUT_BOUNDS l.1 l.2; D_OUTPUT_BOUNDS d.1 d.2].

(** The entries of the two factors in the array. *)
Definition factor_l (n : nat) (a : list W) (blocks : list Z) (i j : nat) : W :=
  if (i =? j)%nat then D_ONE
  else if (j <? i)%nat && negb (in_block blocks i j) then at_index n a i j else D_ZERO.
Definition factor_d (n : nat) (a : list W) (blocks : list Z) (i j : nat) : W :=
  if (i =? j)%nat then at_index n a i i
  else if (j <? i)%nat then (if in_block blocks i j then at_index n a i j else D_ZERO)
  else if in_block blocks j i then at_index n a i j else D_ZERO.

Definition ldlt_result : Type := operand R * operand R * metadata (list nat) * metadata (list Z).

Definition linears_ldlt (a l d : operand R) (permutation : metadata (list nat)) (permutation_capacity : Z)
    (blocks : metadata (list Z)) (blocks_capacity : Z) (w : workspace) : linears_status_t * ldlt_result :=
  let old := (l, d, permutation, blocks) in
  let matrices := [a; l; d] in
  let ms := map descriptor matrices in
  require (descriptors target ms) old (
  let n := rows (descriptor a) in
  if negb (square n ms) then (LINEARS_ERROR_DIMENSION, old)
  else
    let required := LINEARS_LU_WORKSPACE target n in
    require (validate target matrices 1 w required) old (
    if (permutation_capacity <? n) || (blocks_capacity <? n) then (LINEARS_ERROR_WORKSPACE, old)
    else
      let bytes := LINEARS_SIZE_MUL target n (sizeof_size target) in
      require (check_metadata target (pointer permutation) bytes (align_size target) ms w required) old (
      require (check_metadata target (pointer blocks) n 1 ms w required) old (
      if linears_decomp_overlap target (pointer permutation) bytes (pointer blocks) n
      then (LINEARS_ERROR_ALIAS, old)
      else
        let work := import a (Z.to_nat required) in
        require work.1 old (
        let n := Z.to_nat n in
        require (check_symmetric n work.2) old (
        let r := ldlt_factor work.2 n (contents permutation) (contents blocks) in
        let permutation := mk_metadata (pointer permutation) (ldlt_permutation r.2) in
        let blocks := mk_metadata (pointer blocks) (ldlt_blocks r.2) in
        let old := (l, d, permutation, blocks) in
        require r.1 old (
        require (ldlt_bounds n (ldlt_a r.2) (ldlt_blocks r.2)) old (
        (LINEARS_OK,
         (commit l (grid n (fun i j => D_STORE (factor_l n (ldlt_a r.2) (ldlt_blocks r.2) i j))),
          commit d (grid n (fun i j => D_STORE (factor_d n (ldlt_a r.2) (ldlt_blocks r.2) i j))),
          permutation, blocks)))))))))).
End Ldlt.
