(* ===== verification/LdltQ.v ===== *)
(** * LDLT in the fixed formats: the pivots and the invariant of the elimination

    The pivot thresholds, the 2-by-2 block arithmetic and the loops of decomp_ldlt.inc
    in exact integers; what the array means after some columns: the two factors found,
    the active square, the row order, and a backward error that symmetric interchanges
    and both kinds of step preserve. *)
From S2P Require Import Prelude MachineInt Status Wide Numeric Memory Float Matrix FcMonad Cordic FcFloat FcVariants Decomp DecompQ LuQ Ldlt DecompSpec.

(** ** The arithmetic of a 2-by-2 pivot *)

Section Residual.
Local Open Scope Z_scope.

(** Divided by its off-diagonal [b], a 2-by-2 pivot has entries of at most 0.65, so its
    determinant stays below -0.57. *)
Lemma block_delta_bound a c delta : 100 * Z.abs a <= 65 * LINEARS_FIXED_ONE -> 100 * Z.abs c <= 65 * LINEARS_FIXED_ONE ->
  2 * Z.abs (- delta * LINEARS_FIXED_ONE - (LINEARS_FIXED_ONE * LINEARS_FIXED_ONE - a * c)) <= LINEARS_FIXED_ONE ->
  57 * LINEARS_FIXED_ONE <= 100 * Z.abs delta.
Proof.
  unfold LINEARS_FIXED_ONE. intros Ha Hc Hd. assert (Z.abs (a * c) <= 1395864371 * 1395864371) by (rewrite Z.abs_mul; nia). lia.
Qed.

Lemma block_multiplier_bound c x y delta first l : 100 * Z.abs c <= 65 * LINEARS_FIXED_ONE ->
  Z.abs x <= LINEARS_FIXED_ONE -> Z.abs y <= LINEARS_FIXED_ONE -> 57 * LINEARS_FIXED_ONE <= 100 * Z.abs delta ->
  2 * Z.abs (- first * LINEARS_FIXED_ONE - (y * LINEARS_FIXED_ONE - c * x)) <= LINEARS_FIXED_ONE ->
  2 * Z.abs (l * delta - first * LINEARS_FIXED_ONE) <= Z.abs delta -> Z.abs l <= 3 * LINEARS_FIXED_ONE.
Proof.
  unfold LINEARS_FIXED_ONE. intros Hc Hx Hy Hd Hf Hl. assert (Z.abs (c * x) <= 1395864371 * 2147483648) by (rewrite Z.abs_mul; nia).
  assert (Z.abs (first * 2147483648) <= 3543348020 * 2147483648) by lia.
  assert (Z.abs (l * delta) <= 3543348020 * 2147483648 + Z.abs delta) as Hld by lia. rewrite Z.abs_mul in Hld.
  destruct (Z.le_gt_cases (Z.abs l) 6442450944) as [|Hgt]; [done|]. set (al := Z.abs l) in *. set (ad := Z.abs delta) in *.
  assert (6442450944 * ad <= (al - 1) * ad) by (apply Z.mul_le_mono_nonneg_r; lia). lia.
Qed.

Lemma scaled_error p e t : 2 * Z.abs e <= t -> 2 * Z.abs (p * e) <= Z.abs p * t.
Proof. intros. rewrite Z.abs_mul. nia. Qed.

(** One row of the block system: the multipliers reproduce the coupling up to six
    pivot units. *)
Lemma block_residual a c x y delta first second l1 l2 A b X :
  100 * Z.abs a <= 65 * LINEARS_FIXED_ONE -> Z.abs x <= LINEARS_FIXED_ONE -> 57 * LINEARS_FIXED_ONE <= 100 * Z.abs delta ->
  2 * Z.abs (- delta * LINEARS_FIXED_ONE - (LINEARS_FIXED_ONE * LINEARS_FIXED_ONE - a * c)) <= LINEARS_FIXED_ONE ->
  2 * Z.abs (- first * LINEARS_FIXED_ONE - (y * LINEARS_FIXED_ONE - c * x)) <= LINEARS_FIXED_ONE ->
  2 * Z.abs (- second * LINEARS_FIXED_ONE - (x * LINEARS_FIXED_ONE - a * y)) <= LINEARS_FIXED_ONE ->
  2 * Z.abs (l1 * delta - first * LINEARS_FIXED_ONE) <= Z.abs delta ->
  2 * Z.abs (l2 * delta - second * LINEARS_FIXED_ONE) <= Z.abs delta ->
  Z.abs l1 <= 3 * LINEARS_FIXED_ONE ->
  2 * Z.abs (a * b - A * LINEARS_FIXED_ONE) <= Z.abs b -> 2 * Z.abs (x * b - X * LINEARS_FIXED_ONE) <= Z.abs b ->
  Z.abs (l1 * A + l2 * b - LINEARS_FIXED_ONE * X) <= 6 * Z.abs b.
Proof.
  set (S := LINEARS_FIXED_ONE). assert (0 < S) as HS by done. intros Ha Hx Hd Ed Ef Eg E1 E2 Hl EA EX.
  set (r := l1 * a + l2 * S - x * S).
  assert (Z.abs (delta * r) * 2 <= S * (Z.abs a + S + Z.abs x) + Z.abs delta * (Z.abs a + S)) as Hr.
  { set (d1 := first * S - (c * x - y * S)). set (d2 := second * S - (a * y - x * S)). set (d3 := delta * S - (a * c - S * S)).
    set (d4 := l1 * delta - first * S). set (d5 := l2 * delta - second * S).
    assert (S * (delta * r) = S * (a * d1 + a * d4 + S * d2 + S * d5 - x * d3)) as Er by (unfold r, d1, d2, d3, d4, d5; ring).
    apply Z.mul_cancel_l in Er; [|lia]. rewrite Er.
    assert (2 * Z.abs d1 <= S) as H1 by (clear - Ef; unfold d1; lia). assert (2 * Z.abs d2 <= S) as H2 by (clear - Eg; unfold d2; lia).
    assert (2 * Z.abs d3 <= S) as H3 by (clear - Ed; unfold d3; lia). 
    pose proof (scaled_error a d1 S H1). pose proof (scaled_error a d4 _ E1). pose proof (scaled_error S d2 S H2).
    pose proof (scaled_error S d5 _ E2). pose proof (scaled_error x d3 S H3). rewrite (Z.abs_eq S) in * by lia. clearbody d1 d2 d3 d4 d5 r. clear - H H0 H4 H5 H6. lia. }
  assert (200 * Z.abs r <= 635 * S) as Hr2.
  { rewrite Z.abs_mul in Hr. set (D := Z.abs delta) in *. set (ra := Z.abs r) in *. clearbody D ra.
    assert (0 <= D) by (clear - Hd HS; lia).
    assert (S * (100 * Z.abs a) <= S * (65 * S)) by (apply Z.mul_le_mono_nonneg_l; lia).
    assert (S * Z.abs x <= S * S) by (apply Z.mul_le_mono_nonneg_l; lia).
    assert (D * (100 * Z.abs a) <= D * (65 * S)) by (apply Z.mul_le_mono_nonneg_l; lia).
    assert (S * (57 * S) <= S * (100 * D)) by (apply Z.mul_le_mono_nonneg_l; lia).
    assert (D * (200 * ra) <= D * (635 * S)) by lia. apply (Z.mul_le_mono_pos_l _ _ D); lia. }
  assert (S * (l1 * A + l2 * b - S * X) = b * r + l1 * (A * S - a * b) - S * (X * S - x * b)) as E by (unfold r; ring).
  clearbody r. clear - HS Hl EA EX Hr2 E.
  assert (200 * Z.abs (b * r) <= Z.abs b * (635 * S)) as T1 by (clear - Hr2; rewrite Z.abs_mul; nia).
  assert (2 * Z.abs (l1 * (A * S - a * b)) <= 3 * S * Z.abs b) as T2.
  { transitivity (Z.abs l1 * Z.abs b); [apply scaled_error; clear - EA; lia|apply Z.mul_le_mono_nonneg_r; [lia|done]]. }
  assert (2 * Z.abs (S * (X * S - x * b)) <= S * Z.abs b) as T3.
  { transitivity (Z.abs S * Z.abs b); [apply scaled_error; clear - EX; lia|rewrite Z.abs_eq by lia; done]. }
  assert (S * Z.abs (l1 * A + l2 * b - S * X) <= S * (6 * Z.abs b)) as T; [|apply (Z.mul_le_mono_pos_l _ _ S) in T; done].
  rewrite <- (Z.abs_eq S) at 1 by lia. rewrite <- Z.abs_mul, E. clear - T1 T2 T3 HS. nia.
Qed.
End Residual.

(** A chain of sticky operations. *)
Ltac solve_chain := repeat first [solve [solve_sticky] | apply sticky_bind; [solve [solve_sticky]|intros]].

Section Ldlt.
Variable kind : numeric_kind.
#[local] Hint Extern 0 (DArith _ Z) => exact (fixed_arith kind) : typeclass_instances.
#[local] Hint Extern 0 (DBlock Z) => exact fixed_block : typeclass_instances.
Implicit Types (a b A : list Z) (n i j k p q : nat).

(** ** Symmetric interchanges *)

Definition swap_index p q i : nat := if decide (i = p) then q else if decide (i = q) then p else i.

Lemma swap_index_involutive p q i : swap_index p q (swap_index p q i) = i.
Proof. unfold swap_index. repeat case_decide; congruence. Qed.

Lemma swap_index_below k p q i : (k <= p)%nat -> (k <= q)%nat -> (i < k)%nat -> swap_index p q i = i.
Proof. intros. unfold swap_index. by rewrite !decide_False by lia. Qed.

Lemma swap_index_active k p q n i : (k <= p < n)%nat -> (k <= q < n)%nat -> (k <= i < n)%nat -> (k <= swap_index p q i < n)%nat.
Proof. intros. unfold swap_index. repeat case_decide; lia. Qed.

Lemma swap_index_lt p q n i : (p < n)%nat -> (q < n)%nat -> (i < n)%nat -> (swap_index p q i < n)%nat.
Proof. intros. unfold swap_index. repeat case_decide; lia. Qed.

Lemma swap_active_columns_spec n first p q a : (p < n)%nat -> (q < n)%nat -> p <> q -> (first <= n)%nat ->
  length a = (n * n)%nat -> Forall is_i64 a ->
  let b := swap_active_columns n first p q a in
  length b = (n * n)%nat /\ Forall is_i64 b /\
  forall i j, (i < n)%nat -> (j < n)%nat -> at_index n b i j = at_index n a i (if decide (first <= i)%nat then swap_index p q j else j).
Proof.
  intros Hp Hq Hne Hf Hlen Ha. cbv zeta.
  pose (I := fun (c : nat) b => (first <= c)%nat /\ length b = (n * n)%nat /\ Forall is_i64 b /\ forall i j, (i < n)%nat -> (j < n)%nat ->
    at_index n b i j = at_index n a i (if decide (first <= i < c)%nat then swap_index p q j else j)).
  enough (I n (swap_active_columns n first p q a)) as (_ & Hl & Hb & Hv).
  { split; [done|]. split; [done|]. intros i j Hi Hj. rewrite Hv by done. repeat case_decide; done || lia. }
  unfold swap_active_columns. apply (for_up_rule _ I n); [|lia|].
  - intros c b Hc (Hfc & Hl & Hb & Hv). unfold I. rewrite !length_set. split; [lia|]. split; [done|].
    split; [by do 2 (apply set_range; [|by apply at_range])|]. intros i j Hi Hj.
    pose proof (cell_lt n n c p ltac:(lia) Hp). pose proof (cell_lt n n c q ltac:(lia) Hq).
    rewrite !at_set by (rewrite ?length_set; lia). unfold swap_index in *.
    repeat case_decide; rewrite ?Hv by lia; repeat case_decide; try lia; intuition (subst; try lia); done.
  - split; [done|]. split; [done|]. split; [done|]. intros i j Hi Hj. by rewrite decide_False by lia.
Qed.

(** What an interchange does to the array and to the order of the rows. *)
Definition interchanged n k (tau : nat -> nat) a b : Prop :=
  forall i j, (i < n)%nat -> (j < n)%nat -> at_index n b i j = at_index n a (tau i) (if decide (k <= i)%nat then tau j else j).

Lemma ldlt_swap_spec n k p q (st : ldlt_state) sigma rest : (k <= p < n)%nat -> (k <= q < n)%nat ->
  length (ldlt_a st) = (n * n)%nat -> Forall is_i64 (ldlt_a st) ->
  ldlt_permutation st = sigma ++ rest -> length sigma = n -> sigma ≡ₚ seq 0 n ->
  let st' := ldlt_swap n k p q st in
  length (ldlt_a st') = (n * n)%nat /\ Forall is_i64 (ldlt_a st') /\
  interchanged n k (swap_index p q) (ldlt_a st) (ldlt_a st') /\ ldlt_blocks st' = ldlt_blocks st /\
  exists sigma', ldlt_permutation st' = sigma' ++ rest /\ length sigma' = n /\ sigma' ≡ₚ seq 0 n /\
    forall i, nth i sigma' 0%nat = nth (swap_index p q i) sigma 0%nat.
Proof.
  intros Hp Hq Hlen Ha Hs Hl Hperm. cbv zeta. unfold ldlt_swap. destruct (Nat.eqb_spec p q) as [->|Hne].
  - assert (forall i, swap_index q q i = i) as Eq by (intros i; unfold swap_index; by repeat case_decide).
    split; [done|]. split; [done|]. split; [intros i j _ _; rewrite !Eq; by case_decide|]. split; [done|].
    exists sigma. split; [done|]. split; [done|]. split; [done|]. intros i. by rewrite Eq.
  - destruct (swap_rows_spec kind n p q (ldlt_a st)) as (Hl1 & Ha1 & Hv1); auto; try lia.
    destruct (swap_active_columns_spec n k p q (swap_rows n p q (ldlt_a st))) as (Hl2 & Ha2 & Hv2); auto; try lia.
    cbn [ldlt_a ldlt_permutation ldlt_blocks]. split; [done|]. split; [done|]. split.
    { intros i j Hi Hj. rewrite Hv2 by done. unfold rows_swapped in Hv1. rewrite Hv1 by (try done; case_decide; try apply swap_index_lt; lia). done. }
    split; [done|]. exists (swap_entries p q sigma). rewrite Hs, swap_entries_app by lia. split; [done|].
    split; [by rewrite length_swap_entries|]. split; [by rewrite swap_entries_perm by lia|]. intros i. apply nth_swap_entries; lia.
Qed.

(** ** The loops of a step *)

Definition column_divided n k pivot a b (hi : nat) : Prop :=
  length b = (n * n)%nat /\ Forall is_i64 b /\
  (forall i, (k < i < hi)%nat -> 2 * Z.abs (at_index n b i k * pivot - at_index n a i k * LINEARS_FIXED_ONE) <= Z.abs pivot /\
    (Z.abs (at_index n a i k) <= Z.abs pivot -> Z.abs (at_index n b i k) <= LINEARS_FIXED_ONE)) /\
  (forall i j, (i < n)%nat -> (j < n)%nat -> j <> k \/ (i <= k \/ hi <= i)%nat -> at_index n b i j = at_index n a i j).

Lemma divide_column_spec n k pivot a : (k < n)%nat -> pivot <> 0 -> is_i64 pivot -> length a = (n * n)%nat -> Forall is_i64 a ->
  wp (divide_column n k pivot a) (fun b => column_divided n k pivot a b n).
Proof.
  intros Hk Hp Hpr Hl Ha. replace (fun b => column_divided n k pivot a b n)
    with (fun b => column_divided n k pivot a b (k + 1 + (n - (k + 1)))) by (by replace (k + 1 + (n - (k + 1)))%nat with n by lia).
  apply (wp_for_fc (fun c b => column_divided n k pivot a b c)); [cbn; solve_sticky| |].
  - intros c b Hc (Hlb & Hb & Hdone & Hsame). apply wp_bind; [|cbn; solve_sticky]. cbn [D_DIV fixed_arith].
    eapply wp_mono; [apply fixed_div_wp; [by apply at_range|done|done]|]. intros v (Hv & He & Hu). apply wp_ret.
    pose proof (cell_lt n n c k ltac:(lia) ltac:(lia)) as Hix. rewrite Hsame in He, Hu by lia.
    split; [by rewrite length_set|]. split; [by apply set_range|]. split.
    + intros i Hi. rewrite at_set by lia. case_decide as E; [destruct E as [<- _]; by split|]. apply Hdone. lia.
    + intros i j Hi Hj Hij. rewrite at_set by lia. rewrite decide_False by lia. apply Hsame; lia.
  - split; [done|]. split; [done|]. split; [lia|]. done.
Qed.

(** Cells outside the trailing square, and the pairs not yet reached. *)
Definition trailing_inv n from a (P : nat -> nat -> Z -> Prop) (i0 j0 : nat) b : Prop :=
  length b = (n * n)%nat /\ Forall is_i64 b /\
  (forall r c, (r < n)%nat -> (c < n)%nat -> (r < from \/ c < from)%nat -> at_index n b r c = at_index n a r c) /\
  (forall i j, (from <= i <= j)%nat -> (j < n)%nat ->
    if decide (i < i0 \/ i = i0 /\ j < j0)%nat then at_index n b i j = at_index n b j i /\ P i j (at_index n b j i)
    else at_index n b j i = at_index n a j i).

Lemma update_trailing_spec n from updated a (P : nat -> nat -> Z -> Prop) : (from <= n)%nat ->
  length a = (n * n)%nat -> Forall is_i64 a -> (forall i j b, sticky (updated i j b)) ->
  (forall i j b, (from <= i <= j)%nat -> (j < n)%nat -> Forall is_i64 b ->
    (forall r c, (r < n)%nat -> (c < n)%nat -> (r < from \/ c < from)%nat -> at_index n b r c = at_index n a r c) ->
    at_index n b j i = at_index n a j i -> wp (updated i j b) (fun v => is_i64 v /\ P i j v)) ->
  wp (update_trailing n from updated a) (fun b => trailing_inv n from a P n n b).
Proof.
  intros Hfrom Hl Ha Hst Hu. unfold update_trailing.
  eapply wp_mono; [apply (wp_for_fc (fun i b => trailing_inv n from a P i i b))| ].
  - intros. apply sticky_for_fc. intros. apply sticky_bind; [done|cbn; solve_sticky].
  - intros i b Hi Hb. eapply wp_mono; [apply (wp_for_fc (fun j b => trailing_inv n from a P i j b))|].
    + intros. apply sticky_bind; [done|cbn; solve_sticky].
    + intros j b' Hj (Hl' & Hb' & Hout & Hin). apply wp_bind; [|cbn; solve_sticky].
      eapply wp_mono; [apply Hu; [lia|lia|done|done|]|].
      { specialize (Hin i j ltac:(lia) ltac:(lia)). rewrite decide_False in Hin by lia. done. }
      intros v [Hv HP]. apply wp_ret. pose proof (cell_lt n n i j ltac:(lia) ltac:(lia)). pose proof (cell_lt n n j i ltac:(lia) ltac:(lia)).
      split; [by rewrite !length_set|]. split; [by do 2 (apply set_range; [|done])|]. split.
      * intros r c Hr Hc Hrc. rewrite !at_set by (rewrite ?length_set; lia). rewrite !decide_False by lia. by apply Hout.
      * intros i' j' Hi' Hj'. specialize (Hin i' j' ltac:(lia) ltac:(lia)).
        rewrite !at_set by (rewrite ?length_set; lia). destruct (decide (i' = i /\ j' = j)) as [[-> ->]|Hne].
        { rewrite (decide_True (P := (i < i \/ i = i /\ j < j + 1)%nat)) by lia. rewrite !(decide_True (P := (i = i /\ j = j))) by done.
          rewrite (decide_True (P := (j = j /\ i = i))) by done. repeat case_decide; by split. }
        rewrite !(decide_False (P := (i = j' /\ j = i'))) by lia. rewrite !(decide_False (P := (j = j' /\ i = i'))) by lia.
        rewrite !(decide_False (P := (i = i' /\ j = j'))) by lia. rewrite !(decide_False (P := (j = i' /\ i = j'))) by lia.
        repeat case_decide; try lia; done.
    + done.
    + intros b' (Hl' & Hb' & Hout & Hin). split; [done|]. split; [done|]. split; [done|]. intros i' j' Hi' Hj'.
      specialize (Hin i' j' Hi' Hj'). repeat case_decide; try lia; done.
  - split; [done|]. split; [done|]. split; [done|]. intros i j Hi Hj. rewrite decide_False by lia. done.
  - intros b (Hl' & Hb' & Hout & Hin). split; [done|]. split; [done|]. split; [done|]. intros i j Hi Hj.
    specialize (Hin i j Hi Hj). repeat case_decide; try lia; done.
Qed.

(** ** Multipliers of a 2-by-2 pivot *)

Lemma fixed_neg_wp (a : Z) : is_i64 a -> wp (fcq_neg a) (fun x => x = - a /\ is_i64 x).
Proof. intros Ha. by apply fcq_call_wp, (fcq_neg_eq a a). Qed.

Lemma fixed_block_delta_sticky (a c : Z) : sticky (fixed_block_delta a c).
Proof. unfold fixed_block_delta. solve_chain. Qed.

Lemma fixed_block_solve_sticky (a c x y : Z) : sticky (fixed_block_solve a c x y).
Proof. unfold fixed_block_solve. solve_chain. Qed.

Lemma fixed_block_delta_wp (a c : Z) : is_i64 a -> is_i64 c ->
  wp (fixed_block_delta a c) (fun delta => is_i64 delta /\
    2 * Z.abs (- delta * LINEARS_FIXED_ONE - (LINEARS_FIXED_ONE * LINEARS_FIXED_ONE - a * c)) <= LINEARS_FIXED_ONE).
Proof.
  intros Ha Hc. unfold fixed_block_delta. apply wp_bind; [|intros; solve_sticky].
  eapply wp_mono; [apply fixed_sub_product_wp; [unfold LINEARS_FIXED_ONE; rlia|done|done]|]. intros d [Hd Ed].
  eapply wp_mono; [by apply fixed_neg_wp|]. intros x [-> Hx]. split; [done|]. by rewrite Z.opp_involutive.
Qed.

#[local] Hint Resolve fixed_block_delta_sticky fixed_block_solve_sticky : sticky.

(** The two components of a block solution, before the division by the determinant. *)
Definition block_numerators (a c x y first second : Z) : Prop :=
  2 * Z.abs (- first * LINEARS_FIXED_ONE - (y * LINEARS_FIXED_ONE - c * x)) <= LINEARS_FIXED_ONE /\
  2 * Z.abs (- second * LINEARS_FIXED_ONE - (x * LINEARS_FIXED_ONE - a * y)) <= LINEARS_FIXED_ONE.

Lemma fixed_block_solve_wp (a c x y : Z) : is_i64 a -> is_i64 c -> is_i64 x -> is_i64 y ->
  wp (fixed_block_solve a c x y) (fun r => is_i64 r.1 /\ is_i64 r.2 /\ block_numerators a c x y r.1 r.2).
Proof.
  intros Ha Hc Hx Hy. unfold fixed_block_solve.
  apply wp_bind; [|intros; solve_chain].
  eapply wp_mono; [by apply fixed_sub_product_wp|]. intros f [Hf Ef].
  apply wp_bind; [|intros; solve_chain].
  eapply wp_mono; [by apply fixed_sub_product_wp|]. intros g [Hg Eg].
  apply wp_bind; [|intros; solve_chain].
  eapply wp_mono; [by apply fixed_neg_wp|]. intros f' [-> Hf'].
  apply wp_bind; [|solve_sticky]. eapply wp_mono; [by apply fixed_neg_wp|]. intros g' [-> Hg']. apply wp_ret. cbn [fst snd].
  split; [done|]. split; [done|]. unfold block_numerators. by rewrite !Z.opp_involutive.
Qed.

(** The multipliers [l1], [l2] of a row whose couplings to the pivot rows are [X], [Y]. *)
Definition block_row_ok (b a c delta X Y l1 l2 : Z) : Prop := exists x y first second,
  2 * Z.abs (x * b - X * LINEARS_FIXED_ONE) <= Z.abs b /\ (Z.abs X <= Z.abs b -> Z.abs x <= LINEARS_FIXED_ONE) /\
  2 * Z.abs (y * b - Y * LINEARS_FIXED_ONE) <= Z.abs b /\ (Z.abs Y <= Z.abs b -> Z.abs y <= LINEARS_FIXED_ONE) /\
  block_numerators a c x y first second /\
  2 * Z.abs (l1 * delta - first * LINEARS_FIXED_ONE) <= Z.abs delta /\
  2 * Z.abs (l2 * delta - second * LINEARS_FIXED_ONE) <= Z.abs delta.

Definition block_rows_solved n k (b a c delta : Z) (u v : list Z) (hi : nat) : Prop :=
  length v = (n * n)%nat /\ Forall is_i64 v /\
  (forall i, (k + 2 <= i < hi)%nat ->
     block_row_ok b a c delta (at_index n u i k) (at_index n u i (k + 1)) (at_index n v i k) (at_index n v i (k + 1))) /\
  (forall i j, (i < n)%nat -> (j < n)%nat -> (j < k \/ k + 2 <= j)%nat \/ (i < k + 2 \/ hi <= i)%nat -> at_index n v i j = at_index n u i j).

Lemma block_row_sticky n k (a_ b c delta : Z) i a : sticky (block_row n k a_ b c delta i a).
Proof.
  unfold block_row. cbn [D_DIV D_BLOCK_SOLVE fixed_arith fixed_block].
  solve_chain.
Qed.

Lemma block_rows_spec n k (b a c delta : Z) u : (k + 1 < n)%nat -> is_i64 b -> b <> 0 -> is_i64 a -> is_i64 c -> is_i64 delta -> delta <> 0 ->
  length u = (n * n)%nat -> Forall is_i64 u ->
  wp (for_fc (k + 2) (n - (k + 2)) (block_row n k a b c delta) u) (fun v => block_rows_solved n k b a c delta u v n).
Proof.
  intros Hk Hb Hbn Ha Hc Hd Hdn Hl Hu. replace (fun v => block_rows_solved n k b a c delta u v n)
    with (fun v => block_rows_solved n k b a c delta u v (k + 2 + (n - (k + 2)))) by (by replace (k + 2 + (n - (k + 2)))%nat with n by lia).
  apply (wp_for_fc (fun i v => block_rows_solved n k b a c delta u v i)); [intros; apply block_row_sticky| |].
  - intros i v Hi (Hlv & Hv & Hdone & Hsame). unfold block_row. cbn [D_DIV D_BLOCK_SOLVE fixed_arith fixed_block].
    pose proof (Hsame i k ltac:(lia) ltac:(lia) ltac:(lia)) as Ek. pose proof (Hsame i (k + 1)%nat ltac:(lia) ltac:(lia) ltac:(lia)) as Ek1.
    pose proof (cell_lt n n i k ltac:(lia) ltac:(lia)). pose proof (cell_lt n n i (k + 1) ltac:(lia) ltac:(lia)).
    apply wp_bind; [|intros; solve_chain].
    eapply wp_mono; [apply fixed_div_wp; [by apply at_range|done|done]|]. intros x (Hx & Ex & Ux).
    apply wp_bind; [|intros; solve_chain].
    eapply wp_mono; [apply fixed_div_wp; [by apply at_range|done|done]|]. intros y (Hy & Ey & Uy).
    apply wp_bind; [|intros; solve_chain].
    eapply wp_mono; [by apply fixed_block_solve_wp|]. intros [f g] (Hf & Hg & Hn). cbn [fst snd] in *.
    apply wp_bind; [|intros; solve_chain].
    eapply wp_mono; [by apply fixed_div_wp|]. intros l1 (H1 & E1 & _).
    apply wp_bind; [|solve_sticky]. eapply wp_mono; [by apply fixed_div_wp|]. intros l2 (H2 & E2 & _). apply wp_ret.
    assert (block_row_ok b a c delta (at_index n u i k) (at_index n u i (k + 1)) l1 l2) as Hok by (rewrite Ek in *; rewrite Ek1 in *; by exists x, y, f, g).
    clear Ek Ek1 Ex Ux Ey Uy Hn E1 E2. split; [by rewrite !length_set|]. split; [by do 2 (apply set_range; [|done])|]. split.
    + intros i' Hi'. rewrite !at_set by (rewrite ?length_set; lia). destruct (decide (i = i')) as [<-|Hne].
      * rewrite (decide_False (P := (i = i /\ (k + 1)%nat = k))) by lia. rewrite !decide_True by done. done.
      * rewrite !decide_False by tauto. apply Hdone. lia.
    + intros i' j' Hi' Hj' Hor. rewrite !at_set by (rewrite ?length_set; lia). rewrite !decide_False by lia. apply Hsame; lia.
  - split; [done|]. split; [done|]. split; [lia|]. done.
Qed.

(** ** The pivot search *)

Definition diagonal_seen n k a (best : ldlt_pivot) (hi : nat) : Prop :=
  (k <= diagonal_index best < n)%nat /\ (is_i64 (diagonal_max best) /\ 0 <= diagonal_max best) /\
  (diagonal_max best = 0 \/ diagonal_max best = Z.abs (at_index n a (diagonal_index best) (diagonal_index best))) /\
  forall r, (k <= r < hi)%nat -> Z.abs (at_index n a r r) <= diagonal_max best.

Definition couplings_seen n k a (best : ldlt_pivot) (i j : nat) : Prop :=
  (is_i64 (off_diagonal_max best) /\ 0 <= off_diagonal_max best) /\
  (off_diagonal_max best = 0 \/ (k <= off_p best < off_q best)%nat /\ (off_q best < n)%nat /\
     off_diagonal_max best = Z.abs (at_index n a (off_p best) (off_q best))) /\
  forall r c, (k <= r < c)%nat -> (c < n)%nat -> (r < i \/ r = i /\ c < j)%nat -> Z.abs (at_index n a r c) <= off_diagonal_max best.

Lemma search_row_sticky n i a best : sticky (search_row n i a best).
Proof.
  unfold search_row. apply sticky_bind; [cbn; solve_sticky|]. intros m. cbv zeta. apply sticky_for_fc. intros. cbn; solve_chain.
Qed.

Lemma search_row_spec n k i a best : (k <= i < n)%nat -> Forall is_i64 a -> diagonal_seen n k a best i -> couplings_seen n k a best i i ->
  wp (search_row n i a best) (fun r => diagonal_seen n k a r (i + 1) /\ couplings_seen n k a r (i + 1) (i + 1)).
Proof.
  intros Hi Ha (Hd1 & Hd2 & Hd3 & Hd4) (Hc1 & Hc2 & Hc3). unfold search_row. cbn [D_ABS fixed_arith].
  apply wp_bind; [|intros; cbv zeta; apply sticky_for_fc; intros; cbn; solve_chain].
  eapply wp_mono; [apply fixed_abs_wp; by apply at_range|]. intros m [-> Hm]. cbn [D_CMP]. rewrite fcq_cmp_sign.
  set (next := if 0 <? _ then _ else _).
  assert (diagonal_seen n k a next (i + 1)) as Hd.
  { unfold next. destruct (Z.ltb_spec 0 (Z.sgn (Z.abs (at_index n a i i) - diagonal_max best))) as [Hlt|Hge].
    - split; [cbn; lia|]. split; [split; [done|cbn; lia]|]. split; [by right|]. cbn. intros r Hr. destruct (decide (r = i)) as [->|]; [lia|].
      specialize (Hd4 r ltac:(lia)). lia.
    - split; [done|]. split; [done|]. split; [done|]. intros r Hr. destruct (decide (r = i)) as [->|]; [lia|]. apply Hd4. lia. }
  assert (couplings_seen n k a next i (i + 1)) as Hc.
  { assert (off_diagonal_max next = off_diagonal_max best /\ off_p next = off_p best /\ off_q next = off_q best) as (E1 & E2 & E3) by (unfold next; by case_if).
    unfold couplings_seen. rewrite E1, E2, E3. split; [done|]. split; [done|]. intros r c Hr Hcn Hrc. apply Hc3; lia. }
  clearbody next. clear - Hi Ha Hd Hc.
  eapply wp_mono; [apply (wp_for_fc (fun j r => diagonal_seen n k a r (i + 1) /\ couplings_seen n k a r i j))|].
  - intros. cbn. solve_chain.
  - intros j r Hj [Hdr (Hc1 & Hc2 & Hc3)]. apply wp_bind; [|cbn; solve_sticky].
    eapply wp_mono; [apply fixed_abs_wp; by apply at_range|]. intros m [-> Hm]. apply wp_ret. cbn [D_CMP fixed_arith]. rewrite fcq_cmp_sign.
    destruct (Z.ltb_spec 0 (Z.sgn (Z.abs (at_index n a i j) - off_diagonal_max r))) as [Hlt|Hge].
    + split; [exact Hdr|]. split; [split; [done|cbn; lia]|]. split; [right; cbn; lia|]. cbn. intros r' c Hr Hcn Hrc.
      destruct (decide (r' = i /\ c = j)) as [[-> ->]|]; [lia|]. specialize (Hc3 r' c ltac:(lia) ltac:(lia) ltac:(lia)). lia.
    + split; [exact Hdr|]. split; [done|]. split; [done|]. intros r' c Hr Hcn Hrc.
      destruct (decide (r' = i /\ c = j)) as [[-> ->]|]; [lia|]. apply Hc3; lia.
  - done.
  - intros r [Hdr (Hc1 & Hc2 & Hc3)]. split; [done|]. split; [done|]. split; [done|]. intros r' c Hr Hcn Hrc. apply Hc3; lia.
Qed.

(** The search finds both maxima of the active triangle. *)
Lemma ldlt_search_spec n k a : (k < n)%nat -> Forall is_i64 a -> (ldlt_search n k a).1 = LINEARS_OK ->
  diagonal_seen n k a (ldlt_search n k a).2 n /\ couplings_seen n k a (ldlt_search n k a).2 n n.
Proof.
  intros Hk Ha. unfold ldlt_search. apply (settle_ok _ _ (fun r => diagonal_seen n k a r n /\ couplings_seen n k a r n n)).
  eapply wp_mono; [apply (wp_for_fc (fun i r => diagonal_seen n k a r i /\ couplings_seen n k a r i i))|].
  - intros. apply search_row_sticky.
  - intros i r Hi [Hd Hc]. apply search_row_spec; auto; lia.
  - cbn [D_ZERO fixed_arith]. split; [split; [cbn; lia|]; split; [split; [cbn; rlia|done]|]; split; [by left|]; lia|].
    split; [split; [cbn; rlia|done]|]. split; [by left|]. lia.
  - intros r. by replace (k + (n - k))%nat with n by lia.
Qed.

Definition alpha_value : Z := 1375223195.

Lemma ldlt_alpha_value : ldlt_alpha = (LINEARS_OK, alpha_value).
Proof. vm_compute. reflexivity. Qed.

(** What the decision says of the two maxima. *)
Lemma single_pivot_spec (best : ldlt_pivot) : is_i64 (diagonal_max best) -> is_i64 (off_diagonal_max best) ->
  0 <= diagonal_max best -> 0 <= off_diagonal_max best -> diagonal_max best <> 0 \/ off_diagonal_max best <> 0 ->
  (single_pivot alpha_value best).1 = LINEARS_OK ->
  if (single_pivot alpha_value best).2 then 0 < diagonal_max best /\ 64 * off_diagonal_max best <= 100 * diagonal_max best
  else 0 < off_diagonal_max best /\ 1000 * diagonal_max best <= 641 * off_diagonal_max best.
Proof.
  intros Hd Ho Hd0 Ho0 Hne. unfold single_pivot. cbn [D_CMP D_DIV fixed_arith]. rewrite fcq_cmp_sign.
  destruct (Z.leb_spec 0 (Z.sgn (diagonal_max best - off_diagonal_max best))) as [Hge|Hlt]; [cbn; lia|].
  apply (settle_ok _ _ (fun single => if single : bool then 0 < diagonal_max best /\ 64 * off_diagonal_max best <= 100 * diagonal_max best
    else 0 < off_diagonal_max best /\ 1000 * diagonal_max best <= 641 * off_diagonal_max best)).
  apply wp_bind; [|cbn; solve_sticky]. eapply wp_mono; [apply fixed_div_wp; [done|done|lia]|]. intros ratio (Hr & E & _). apply wp_ret.
  rewrite fcq_cmp_sign. unfold alpha_value, LINEARS_FIXED_ONE in *. set (d := diagonal_max best) in *. set (o := off_diagonal_max best) in *.
  rewrite (Z.abs_eq o) in E by lia. clear - Hd0 Ho0 Hlt E. destruct (Z.leb_spec 0 (Z.sgn (ratio - 1375223195))); split; try nia.
Qed.
End Ldlt.

(** ** Sums over a block-diagonal middle factor *)

Lemma sum_to_zero n f : (forall t, (t < n)%nat -> f t = 0) -> sum_to n f = 0.
Proof. intros H. rewrite <- (Nat.add_0_l n). rewrite sum_to_tail; [done|]. intros t Ht. apply H. lia. Qed.

Lemma sum_to_add n f g : sum_to n (fun t => f t + g t) = sum_to n f + sum_to n g.
Proof. induction n as [|n IH]; [done|]. rewrite !sum_to_S, IH. lia. Qed.

(** Entry (i, j) of L D L^T over the first [k] columns. *)
Definition triple (k : nat) (L D : nat -> nat -> Z) (i j : nat) : Z :=
  sum_to k (fun t => sum_to k (fun s => L i t * D t s * L j s)).

Lemma triple_ext (k : nat) (L D L' D' : nat -> nat -> Z) (i j i' j' : nat) : (forall t, (t < k)%nat -> L' i' t = L i t /\ L' j' t = L j t) ->
  (forall t s, (t < k)%nat -> (s < k)%nat -> D' t s = D t s) -> triple k L' D' i' j' = triple k L D i j.
Proof.
  intros HL HD. apply sum_to_ext. intros t Ht. apply sum_to_ext. intros s Hs.
  destruct (HL t Ht) as [-> _]. destruct (HL s Hs) as [_ ->]. by rewrite HD.
Qed.

Lemma triple_step (k m : nat) (L D : nat -> nat -> Z) (i j : nat) : (k <= m)%nat -> (forall t, (t < k)%nat -> D t m = 0 /\ D m t = 0) ->
  sum_to (S m) (fun t => sum_to (S m) (fun s => L i t * D t s * L j s)) =
  sum_to m (fun t => sum_to m (fun s => L i t * D t s * L j s)) +
  (sum_to m (fun t => if decide (t < k)%nat then 0 else L i t * D t m * L j m) +
   sum_to m (fun s => if decide (s < k)%nat then 0 else L i m * D m s * L j s) + L i m * D m m * L j m).
Proof.
  intros Hk Hz. rewrite sum_to_S.
  rewrite (sum_to_ext m (fun t => sum_to (S m) (fun s => L i t * D t s * L j s))
    (fun t => sum_to m (fun s => L i t * D t s * L j s) + (if decide (t < k)%nat then 0 else L i t * D t m * L j m))).
  - rewrite sum_to_add, sum_to_S.
    rewrite (sum_to_ext m (fun s => L i m * D m s * L j s) (fun s => if decide (s < k)%nat then 0 else L i m * D m s * L j s)); [lia|].
    intros s Hs. case_decide as Hsk; [|done]. destruct (Hz s Hsk) as [_ ->]. lia.
  - intros t Ht. rewrite sum_to_S. case_decide as Htk; [|done]. destruct (Hz t Htk) as [-> _]. lia.
Qed.

(** A 1-by-1 and a 2-by-2 block append their own terms. *)
Lemma triple_single (k : nat) (L D : nat -> nat -> Z) (i j : nat) : (forall t, (t < k)%nat -> D t k = 0 /\ D k t = 0) ->
  triple (S k) L D i j = triple k L D i j + L i k * D k k * L j k.
Proof.
  intros Hz. unfold triple. rewrite (triple_step k k) by (done || lia).
  rewrite (sum_to_zero k (fun t => if decide (t < k)%nat then 0 else L i t * D t k * L j k)) by (intros t Ht; by rewrite decide_True).
  rewrite (sum_to_zero k (fun s => if decide (s < k)%nat then 0 else L i k * D k s * L j s)) by (intros t Ht; by rewrite decide_True). lia.
Qed.

Lemma triple_double (k : nat) (L D : nat -> nat -> Z) (i j : nat) : (forall t, (t < k)%nat -> D t k = 0 /\ D k t = 0 /\ D t (S k) = 0 /\ D (S k) t = 0) ->
  triple (S (S k)) L D i j = triple k L D i j +
    (L i k * D k k * L j k + L i k * D k (S k) * L j (S k) + L i (S k) * D (S k) k * L j k + L i (S k) * D (S k) (S k) * L j (S k)).
Proof.
  intros Hz. unfold triple. rewrite (triple_step k (S k)) by (try lia; intros t Ht; by destruct (Hz t Ht) as (? & ? & ? & ?)).
  fold (triple (S k) L D i j) (triple k L D i j). rewrite triple_single by (intros t Ht; by destruct (Hz t Ht) as (? & ? & ? & ?)).
  rewrite (sum_to_S k (fun t => if decide (t < k)%nat then 0 else L i t * D t (S k) * L j (S k))),
    (sum_to_S k (fun s => if decide (s < k)%nat then 0 else L i (S k) * D (S k) s * L j s)).
  rewrite (sum_to_zero k (fun t => if decide (t < k)%nat then 0 else L i t * D t (S k) * L j (S k))) by (intros t Ht; by rewrite decide_True).
  rewrite (sum_to_zero k (fun s => if decide (s < k)%nat then 0 else L i (S k) * D (S k) s * L j s)) by (intros t Ht; by rewrite decide_True).
  rewrite !decide_False by lia. lia.
Qed.

(** ** The pivot blocks *)

(** The marks of the first [k] columns: 1 for a 1-by-1 pivot, 2 and 0 for a 2-by-2 one. *)
Inductive tiling (blocks : list Z) : nat -> Prop :=
| tiling_0 : tiling blocks 0
| tiling_1 k : tiling blocks k -> nth k blocks 0 = 1 -> tiling blocks (k + 1)
| tiling_2 k : tiling blocks k -> nth k blocks 0 = 2 -> nth (k + 1) blocks 0 = 0 -> tiling blocks (k + 2).

Lemma tiling_ext blocks blocks' k : (forall i, (i < k)%nat -> nth i blocks' 0 = nth i blocks 0) -> tiling blocks k -> tiling blocks' k.
Proof.
  intros He Ht. induction Ht as [|k Ht IH H1|k Ht IH H1 H2]; [constructor| |].
  - apply tiling_1; [apply IH; intros; apply He; lia|rewrite He by lia; done].
  - apply tiling_2; [apply IH; intros; apply He; lia|rewrite He by lia; done|rewrite He by lia; done].
Qed.

(** A 2-by-2 block never crosses the end of the tiled columns. *)
Lemma tiling_block blocks k : tiling blocks k -> forall t, (t < k)%nat -> nth t blocks 0 = 2 -> (t + 1 < k)%nat.
Proof.
  induction 1 as [|k Ht IH H1|k Ht IH H1 H2]; intros t Hlt Hb; [lia| |].
  - destruct (decide (t = k)) as [->|]; [congruence|]. specialize (IH t ltac:(lia) Hb). lia.
  - destruct (decide (t = k)) as [->|]; [lia|]. destruct (decide (t = (k + 1)%nat)) as [->|]; [congruence|].
    specialize (IH t ltac:(lia) Hb). lia.
Qed.

Lemma tiling_boundary blocks k i t : tiling blocks k -> (t < k <= i)%nat -> in_block blocks i t = false.
Proof.
  intros Ht Hti. unfold in_block. destruct (Z.eqb_spec (nth t blocks 0) 2) as [E|]; [|done].
  pose proof (tiling_block blocks k Ht t ltac:(lia) E). cbn. apply Nat.eqb_neq. lia.
Qed.

(** ** The error of one cell *)

Lemma abs_mul_le x y u v : Z.abs x <= u -> Z.abs y <= v -> Z.abs (x * y) <= u * v.
Proof. intros. rewrite Z.abs_mul. apply Z.mul_le_mono_nonneg; lia. Qed.

Lemma single_cell S w w' li lj c d lambda bound : 0 < S -> 2 * Z.abs (w' * S - (w * S - lj * c)) <= S ->
  2 * Z.abs (li * d - c * S) <= Z.abs d -> Z.abs lj <= lambda -> Z.abs d <= bound ->
  2 * Z.abs (S * S * w - li * d * lj - S * S * w') <= S * S + lambda * bound.
Proof.
  intros HS Hw Hc Hl Hd. assert (2 * Z.abs (S * (w' * S - (w * S - lj * c))) <= S * S) as H1 by (rewrite Z.abs_mul; nia).
  assert (2 * Z.abs (lj * (li * d - c * S)) <= lambda * bound) as H2.
  { pose proof (abs_mul_le lj (2 * (li * d - c * S)) lambda bound Hl ltac:(lia)). lia. }
  clear - H1 H2. lia.
Qed.

Lemma double_cell S w w' li1 li2 lj1 lj2 c1 c2 A b C lambda bound : 0 < S ->
  2 * Z.abs (w' * S - (w * S - (lj1 * c1 + lj2 * c2))) <= S ->
  Z.abs (li1 * A + li2 * b - S * c1) <= 6 * Z.abs b -> Z.abs (li1 * b + li2 * C - S * c2) <= 6 * Z.abs b ->
  Z.abs lj1 <= lambda -> Z.abs lj2 <= lambda -> Z.abs b <= bound ->
  2 * Z.abs (S * S * w - (li1 * A * lj1 + li1 * b * lj2 + li2 * b * lj1 + li2 * C * lj2) - S * S * w') <= S * S + 24 * (lambda * bound).
Proof.
  intros HS Hw H1 H2 Hl1 Hl2 Hb. assert (2 * Z.abs (S * (w' * S - (w * S - (lj1 * c1 + lj2 * c2)))) <= S * S) as Hs by (rewrite Z.abs_mul; nia).
  pose proof (abs_mul_le lj1 (li1 * A + li2 * b - S * c1) lambda (6 * bound) Hl1 ltac:(lia)) as E1.
  pose proof (abs_mul_le lj2 (li1 * b + li2 * C - S * c2) lambda (6 * bound) Hl2 ltac:(lia)) as E2.
  clear - Hs E1 E2. lia.
Qed.

Section Ldlt.
Variable kind : numeric_kind.
#[local] Hint Extern 0 (DArith _ Z) => exact (fixed_arith kind) : typeclass_instances.
#[local] Hint Extern 0 (DArith Z _) => exact (fixed_arith kind) : typeclass_instances.
#[local] Hint Extern 0 (DBlock Z) => exact fixed_block : typeclass_instances.
Implicit Types (a b A : list Z) (n i j k p q t s : nat).

(** ** The invariant of the elimination *)

Definition in_active k i j : bool := (k <=? i)%nat && (k <=? j)%nat.

(** The factors found in the first [k] columns, with the active square, against the
    permuted input, in units of 2^-93. *)
Definition backward n A k a blocks (sigma : list nat) i j : Z :=
  LINEARS_FIXED_ONE * LINEARS_FIXED_ONE * at_index n A (nth i sigma 0%nat) (nth j sigma 0%nat) -
  triple k (factor_l n a blocks) (factor_d n a blocks) i j -
  (if in_active k i j then LINEARS_FIXED_ONE * LINEARS_FIXED_ONE * at_index n a i j else 0).

(** Bounds on the entries found so far. *)
Definition factors_within n k a blocks (lambda bound : Z) : Prop :=
  (forall i t, (i < n)%nat -> (t < k)%nat -> Z.abs (factor_l n a blocks i t) <= lambda) /\
  (forall t s, (t < k)%nat -> (s < k)%nat -> Z.abs (factor_d n a blocks t s) <= bound).

(** The error of one column. *)
Definition column_error (lambda bound : Z) : Z := LINEARS_FIXED_ONE * LINEARS_FIXED_ONE + 12 * (lambda * bound).

Record ldlt_inv n A (rest : list nat) k (st : ldlt_state) (sigma : list nat) : Prop := mk_ldlt_inv {
  inv_length : length (ldlt_a st) = (n * n)%nat;
  inv_range : Forall is_i64 (ldlt_a st);
  inv_permutation : ldlt_permutation st = sigma ++ rest;
  inv_sigma_length : length sigma = n;
  inv_sigma : sigma ≡ₚ seq 0 n;
  inv_column : (k <= n)%nat;
  inv_blocks : (n <= length (ldlt_blocks st))%nat;
  inv_tiling : tiling (ldlt_blocks st) k;
  inv_symmetric : forall i j, (k <= i < n)%nat -> (k <= j < n)%nat -> at_index n (ldlt_a st) i j = at_index n (ldlt_a st) j i;
  inv_block_symmetric : forall t s, (t < k)%nat -> (s < k)%nat ->
    factor_d n (ldlt_a st) (ldlt_blocks st) t s = factor_d n (ldlt_a st) (ldlt_blocks st) s t;
  inv_multipliers : forall i t, (i < n)%nat -> (t < k)%nat -> Z.abs (factor_l n (ldlt_a st) (ldlt_blocks st) i t) <= 3 * LINEARS_FIXED_ONE;
  inv_backward : forall lambda bound, LINEARS_FIXED_ONE <= lambda -> factors_within n k (ldlt_a st) (ldlt_blocks st) lambda bound ->
    forall i j, (i < n)%nat -> (j < n)%nat ->
    2 * Z.abs (backward n A k (ldlt_a st) (ldlt_blocks st) sigma i j) <= Z.of_nat k * column_error lambda bound
}.

Lemma at_identity n A i : (i < n)%nat -> nth i (seq 0 n) 0%nat = i.
Proof. intros Hi. rewrite seq_nth by done. lia. Qed.

Lemma ldlt_start n A permutation blocks : length A = (n * n)%nat -> Forall is_i64 A -> (n <= length blocks)%nat ->
  (forall i j, (i < n)%nat -> (j < n)%nat -> at_index n A i j = at_index n A j i) ->
  ldlt_inv n A (drop n permutation) 0 (mk_ldlt A (seq 0 n ++ drop n permutation) (repeat 0 n ++ drop n blocks)) (seq 0 n).
Proof.
  intros Hl HA Hb Hsym. split; cbn [ldlt_a ldlt_permutation ldlt_blocks]; auto; try lia.
  - by rewrite length_seq.
  - rewrite length_app, repeat_length, length_drop. lia.
  - constructor.
  - intros i j [_ Hi] [_ Hj]. by apply Hsym.
  - intros lambda bound _ _ i j Hi Hj. unfold backward, in_active. rewrite !(at_identity n A) by done. cbn [Nat.leb andb].
    change (triple 0 _ _ i j) with 0. lia.
Qed.

(** What an interchange of active rows does to the factors found. *)
Lemma factor_l_interchanged n k p q a b blocks i t : (k <= p < n)%nat -> (k <= q < n)%nat -> tiling blocks k ->
  interchanged kind n k (swap_index p q) a b -> (i < n)%nat -> (t < k)%nat ->
  factor_l n b blocks i t = factor_l n a blocks (swap_index p q i) t.
Proof.
  intros Hp Hq Ht Hint Hi Htk. destruct (Nat.lt_ge_cases i k) as [Hik|Hik].
  - rewrite (swap_index_below k) by lia. unfold factor_l. rewrite Hint by lia.
    rewrite (swap_index_below k p q i) by lia. by rewrite decide_False by lia.
  - pose proof (swap_index_active k p q n i ltac:(lia) ltac:(lia) ltac:(lia)) as Ha. unfold factor_l.
    rewrite !(tiling_boundary blocks k) by (done || lia). rewrite Hint by lia.
    rewrite (swap_index_below k p q t) by lia. rewrite (proj2 (Nat.eqb_neq i t)) by lia.
    rewrite (proj2 (Nat.eqb_neq (swap_index p q i) t)) by lia. rewrite !(proj2 (Nat.ltb_lt t _)) by lia. by case_decide.
Qed.

Lemma factor_d_interchanged n k p q a b blocks t s : (k <= p < n)%nat -> (k <= q < n)%nat ->
  interchanged kind n k (swap_index p q) a b -> (t < k)%nat -> (s < k)%nat -> factor_d n b blocks t s = factor_d n a blocks t s.
Proof.
  intros Hp Hq Hint Ht Hs. unfold factor_d.
  assert (forall u v, (u < k)%nat -> (v < k)%nat -> at_index n b u v = at_index n a u v) as E; [|by rewrite !E].
  intros u v Hu Hv. rewrite Hint by lia. rewrite (swap_index_below k p q u) by lia. by rewrite decide_False by lia.
Qed.

Lemma ldlt_swap_inv n A rest k p q st sigma : (k <= p < n)%nat -> (k <= q < n)%nat -> ldlt_inv n A rest k st sigma ->
  exists sigma', ldlt_inv n A rest k (ldlt_swap n k p q st) sigma'.
Proof.
  intros Hp Hq [Hl Ha Hperm Hsl Hs Hk Hb Ht Hsym Hds Hmult Hback].
  destruct (ldlt_swap_spec kind n k p q st sigma rest) as (Hl' & Ha' & Hint & Eb & sigma' & Hp' & Hsl' & Hs' & En); auto.
  exists sigma'. set (tau := swap_index p q) in *.
  assert (forall i t, (i < n)%nat -> (t < k)%nat -> factor_l n (ldlt_a (ldlt_swap n k p q st)) (ldlt_blocks st) i t = factor_l n (ldlt_a st) (ldlt_blocks st) (tau i) t) as El
    by (intros; by apply (factor_l_interchanged n k p q)).
  assert (forall t s, (t < k)%nat -> (s < k)%nat -> factor_d n (ldlt_a (ldlt_swap n k p q st)) (ldlt_blocks st) t s = factor_d n (ldlt_a st) (ldlt_blocks st) t s) as Ed
    by (intros; by apply (factor_d_interchanged n k p q)).
  assert (forall i, (i < n)%nat -> (tau i < n)%nat) as Htau by (intros; apply swap_index_lt; lia).
  split; rewrite ?Eb; auto.
  - intros i j Hi Hj. rewrite !Hint by lia. rewrite !decide_True by lia. apply Hsym; apply swap_index_active; lia.
  - intros t s Ht0 Hs0. rewrite !Ed by done. by apply Hds.
  - intros i t Hi Htk. rewrite El by done. apply Hmult; auto.
  - intros lambda bound Hlam [HwL HwD] i j Hi Hj.
    assert (factors_within n k (ldlt_a st) (ldlt_blocks st) lambda bound) as Hw.
    { split; [|intros t s Ht0 Hs0; rewrite <- Ed by done; by apply HwD].
      intros i' t Hi' Htk. specialize (HwL (tau i') t (Htau i' Hi') Htk). rewrite El in HwL by auto. unfold tau in HwL. by rewrite swap_index_involutive in HwL. }
    specialize (Hback lambda bound Hlam Hw (tau i) (tau j) (Htau i Hi) (Htau j Hj)).
    replace (backward n A k (ldlt_a (ldlt_swap n k p q st)) (ldlt_blocks st) sigma' i j) with
      (backward n A k (ldlt_a st) (ldlt_blocks st) sigma (tau i) (tau j)); [exact Hback|].
    unfold backward. rewrite !En. fold (tau i) (tau j). f_equal; [f_equal|].
    + symmetry. apply triple_ext; [intros t Htk; split; by apply El|intros t s Ht0 Hs0; by apply Ed].
    + unfold in_active. assert (forall u, (u < n)%nat -> (k <=? tau u)%nat = (k <=? u)%nat) as Ek.
      { intros u Hu. destruct (Nat.leb_spec k u) as [Hku|Hku].
        - apply Nat.leb_le. by apply (swap_index_active k p q n).
        - apply Nat.leb_gt. unfold tau. by rewrite (swap_index_below k) by lia. }
      rewrite !Ek by done. destruct (Nat.leb_spec k i), (Nat.leb_spec k j); cbn; try done.
      rewrite Hint by done. by rewrite decide_True by done.
Qed.

(** ** A 1-by-1 step *)

(** The new array of a 1-by-1 step in column [k]. *)
Record single_done n k a b : Prop := mk_single_done {
  single_length : length b = (n * n)%nat;
  single_range : Forall is_i64 b;
  single_same : forall r c, (r < n)%nat -> (c < n)%nat -> (r <= k \/ c < k)%nat -> at_index n b r c = at_index n a r c;
  single_column : forall i, (k < i < n)%nat -> Z.abs (at_index n b i k) <= 3 * LINEARS_FIXED_ONE /\
    2 * Z.abs (at_index n b i k * at_index n a k k - at_index n a i k * LINEARS_FIXED_ONE) <= Z.abs (at_index n a k k);
  single_trailing : forall i j, (k < i <= j)%nat -> (j < n)%nat -> at_index n b i j = at_index n b j i /\
    2 * Z.abs (at_index n b j i * LINEARS_FIXED_ONE - (at_index n a j i * LINEARS_FIXED_ONE - at_index n b j k * at_index n a k i)) <= LINEARS_FIXED_ONE
}.

(** Cells of the factors that a step on column [k] does not touch. *)
Lemma factor_l_frame n k a b blocks blocks' i t : (t < k)%nat -> (i < n)%nat -> (k <= n)%nat ->
  (forall r c, (r < n)%nat -> (c < k)%nat -> at_index n b r c = at_index n a r c) -> (forall u, (u < k)%nat -> nth u blocks' 0 = nth u blocks 0) ->
  factor_l n b blocks' i t = factor_l n a blocks i t.
Proof. intros Ht Hi Hk Hs Hb. unfold factor_l, in_block. rewrite Hs, Hb by lia. done. Qed.

Lemma factor_d_frame n k a b blocks blocks' t s : (t < k)%nat -> (s < k)%nat -> (k <= n)%nat ->
  (forall r c, (r < n)%nat -> (c < k)%nat -> at_index n b r c = at_index n a r c) -> (forall u, (u < k)%nat -> nth u blocks' 0 = nth u blocks 0) ->
  factor_d n b blocks' t s = factor_d n a blocks t s.
Proof. intros Ht Hs Hk Hsame Hb. unfold factor_d, in_block. by rewrite !Hsame, !Hb by lia. Qed.

(** Columns of different blocks do not meet in D. *)
Lemma factor_d_apart n a blocks k t m : tiling blocks k -> (t < k <= m)%nat -> factor_d n a blocks t m = 0 /\ factor_d n a blocks m t = 0.
Proof.
  intros Ht Htm. unfold factor_d. rewrite (tiling_boundary blocks k m t) by (done || lia).
  rewrite (proj2 (Nat.eqb_neq t m)), (proj2 (Nat.eqb_neq m t)) by lia. rewrite (proj2 (Nat.ltb_ge m t)) by lia.
  rewrite (proj2 (Nat.ltb_lt t m)) by lia. done.
Qed.

Lemma factor_l_above n a blocks i t : (i < t)%nat -> factor_l n a blocks i t = 0.
Proof. intros Hi. unfold factor_l. rewrite (proj2 (Nat.eqb_neq i t)) by lia. by rewrite (proj2 (Nat.ltb_ge t i)) by lia. Qed.

Lemma factor_l_unit n a blocks t : factor_l n a blocks t t = LINEARS_FIXED_ONE.
Proof. unfold factor_l. by rewrite Nat.eqb_refl. Qed.

Lemma factor_l_below n a blocks i t : (t < i)%nat -> nth t blocks 0 <> 2 \/ (t + 1 < i)%nat -> factor_l n a blocks i t = at_index n a i t.
Proof.
  intros Hi Hb. unfold factor_l, in_block. rewrite (proj2 (Nat.eqb_neq i t)) by lia. rewrite (proj2 (Nat.ltb_lt t i)) by lia.
  destruct Hb as [Hb|Hb]; [by rewrite (proj2 (Z.eqb_neq _ _) Hb)|]. rewrite (proj2 (Nat.eqb_neq i (t + 1))) by lia. by rewrite andb_false_r.
Qed.

Lemma single_residual n k a b i j lambda bound (L : nat -> Z) : single_done n k a b ->
  (forall i j, (k <= i < n)%nat -> (k <= j < n)%nat -> at_index n a i j = at_index n a j i) ->
  (k < n)%nat -> (i < n)%nat -> (j < n)%nat -> (forall t, (t < n)%nat -> Z.abs (L t) <= lambda) ->
  LINEARS_FIXED_ONE <= lambda -> Z.abs (at_index n a k k) <= bound ->
  (forall t, (t < k)%nat -> L t = 0) -> L k = LINEARS_FIXED_ONE -> (forall t, (k < t < n)%nat -> L t = at_index n b t k) ->
  2 * Z.abs ((if in_active k i j then LINEARS_FIXED_ONE * LINEARS_FIXED_ONE * at_index n a i j else 0) -
    L i * at_index n a k k * L j - (if in_active (S k) i j then LINEARS_FIXED_ONE * LINEARS_FIXED_ONE * at_index n b i j else 0))
  <= column_error lambda bound.
Proof.
  intros Hdone Hsym Hk Hi Hj HL Hlam Hbound Hz Ho Hc. unfold in_active, column_error. set (d := at_index n a k k) in *. set (S := LINEARS_FIXED_ONE) in *.
  assert (0 < S) as HS by done. assert (0 <= bound) by lia. assert (0 <= lambda * bound) by (apply Z.mul_nonneg_nonneg; lia).
  assert (0 <= S * S) by (apply Z.mul_nonneg_nonneg; lia). assert (S * bound <= lambda * bound) as Hmono by (apply Z.mul_le_mono_nonneg_r; lia).
  assert (forall t, (k < t < n)%nat -> 2 * Z.abs (S * S * at_index n a t k - S * d * L t) <= S * bound) as Hedge.
  { intros t Ht. destruct (single_column _ _ _ _ Hdone t Ht) as [_ Hcol]. fold d S in Hcol. rewrite Hc by done.
    pose proof (scaled_error S (at_index n b t k * d - at_index n a t k * S) (Z.abs d) Hcol) as HH.
    assert (Z.abs S * Z.abs d <= S * bound) by (rewrite (Z.abs_eq S) by lia; apply Z.mul_le_mono_nonneg_l; lia).
    replace (S * S * at_index n a t k - S * d * at_index n b t k) with (- (S * (at_index n b t k * d - at_index n a t k * S))) by ring.
    rewrite Z.abs_opp. lia. }
  destruct (Nat.leb_spec k i) as [Hki|Hik]; cbn [andb]; [|rewrite (Hz i) by lia; rewrite (proj2 (Nat.leb_gt (Datatypes.S k) i)) by lia; cbn [andb]; rewrite Z.mul_0_l, Z.abs_eq; lia].
  destruct (Nat.leb_spec k j) as [Hkj|Hjk]; [|rewrite (Hz j) by lia; rewrite (proj2 (Nat.leb_gt (Datatypes.S k) j)) by lia; rewrite andb_false_r, Z.mul_0_r, Z.abs_eq; lia].
  destruct (Nat.leb_spec (Datatypes.S k) i) as [Hi1|Hi1], (Nat.leb_spec (Datatypes.S k) j) as [Hj1|Hj1]; cbn [andb].
  - assert (forall u v, (k < u <= v)%nat -> (v < n)%nat -> 2 * Z.abs (S * S * at_index n a v u - L u * d * L v - S * S * at_index n b v u) <= S * S + lambda * bound) as Hcell.
    { intros u v Huv Hv. destruct (single_trailing _ _ _ _ Hdone u v Huv Hv) as [_ Ht]. destruct (single_column _ _ _ _ Hdone u ltac:(lia)) as [_ Hu].
      apply (single_cell S _ _ _ _ (at_index n a k u)); [done| | |by apply HL|done].
      - rewrite (Hc v) by lia. exact Ht.
      - rewrite (Hc u) by lia. rewrite (Hsym k u) by lia. exact Hu. }
    destruct (Nat.le_gt_cases i j) as [Hij|Hij].
    + rewrite (Hsym i j) by lia. destruct (single_trailing _ _ _ _ Hdone i j ltac:(lia) Hj) as [-> _]. pose proof (Hcell i j ltac:(lia) Hj). lia.
    + pose proof (Hcell j i ltac:(lia) Hi) as HH. replace (L i * d * L j) with (L j * d * L i) by ring. lia.
  - replace j with k by lia. rewrite Ho. pose proof (Hedge i ltac:(lia)) as HH. replace (L i * d * S) with (S * d * L i) by ring. lia.
  - replace i with k by lia. rewrite Ho. rewrite (Hsym k j) by lia. pose proof (Hedge j ltac:(lia)) as HH. lia.
  - replace i with k by lia. replace j with k by lia. rewrite Ho. fold d. replace (S * S * d - S * d * S - 0) with 0 by ring. lia.
Qed.

Lemma backward_step n A a b blocks blocks' sigma k m i j T : (k <= m)%nat ->
  triple m (factor_l n b blocks') (factor_d n b blocks') i j = triple k (factor_l n a blocks) (factor_d n a blocks) i j + T ->
  backward n A m b blocks' sigma i j = backward n A k a blocks sigma i j +
    ((if in_active k i j then LINEARS_FIXED_ONE * LINEARS_FIXED_ONE * at_index n a i j else 0) - T -
     (if in_active m i j then LINEARS_FIXED_ONE * LINEARS_FIXED_ONE * at_index n b i j else 0)).
Proof. intros Hk E. unfold backward. rewrite E. ring. Qed.

Lemma ldlt_single_inv n A rest k st sigma b : (k < n)%nat -> ldlt_inv n A rest k st sigma -> single_done n k (ldlt_a st) b ->
  ldlt_inv n A rest (k + 1) (mk_ldlt b (ldlt_permutation st) (<[k := 1]> (ldlt_blocks st))) sigma.
Proof.
  intros Hk [Hl Ha Hperm Hsl Hs _ Hb Ht Hsym Hds Hmult Hback] Hdone. set (a := ldlt_a st) in *. set (blocks := ldlt_blocks st) in *.
  assert (forall u, (u < k)%nat -> nth u (<[k := 1]> blocks) 0 = nth u blocks 0) as Hbelow by (intros u Hu; rewrite !nth_lookup, list_lookup_insert_ne by lia; done).
  assert (nth k (<[k := 1]> blocks) 0 = 1) as Hmark by (rewrite nth_lookup, list_lookup_insert_eq by lia; done).
  set (blocks' := <[k := 1]> blocks) in *.
  assert (forall r c, (r < n)%nat -> (c < k)%nat -> at_index n b r c = at_index n a r c) as Hleft by (intros; apply (single_same _ _ _ _ Hdone); lia).
  assert (tiling blocks' (k + 1)) as Ht' by (apply tiling_1; [by apply (tiling_ext blocks)|done]).
  assert (forall i t, (i < n)%nat -> (t < k)%nat -> factor_l n b blocks' i t = factor_l n a blocks i t) as El by (intros; apply (factor_l_frame n k); auto; lia).
  assert (forall t s, (t < k)%nat -> (s < k)%nat -> factor_d n b blocks' t s = factor_d n a blocks t s) as Ed by (intros; apply (factor_d_frame n k); auto; lia).
  assert (forall t, (t < k)%nat -> factor_d n b blocks' t k = 0 /\ factor_d n b blocks' k t = 0) as Eapart
    by (intros t Htk; apply (factor_d_apart n b blocks' k); [by apply (tiling_ext blocks)|lia]).
  assert (factor_d n b blocks' k k = at_index n a k k) as Edk by (unfold factor_d; rewrite Nat.eqb_refl; apply (single_same _ _ _ _ Hdone); lia).
  assert (forall i, (k < i)%nat -> factor_l n b blocks' i k = at_index n b i k) as Elk by (intros i Hi; apply factor_l_below; [lia|left; by rewrite Hmark]).
  split; cbn [ldlt_a ldlt_permutation ldlt_blocks]; fold a blocks blocks'; auto.
  - apply (single_length _ _ _ _ Hdone).
  - apply (single_range _ _ _ _ Hdone).
  - lia.
  - unfold blocks'. by rewrite length_insert.
  - intros i j Hi Hj. destruct (Nat.le_gt_cases i j); [apply (single_trailing _ _ _ _ Hdone i j); lia|symmetry; apply (single_trailing _ _ _ _ Hdone j i); lia].
  - intros t s Htk Hsk. destruct (decide (t = k)) as [->|], (decide (s = k)) as [->|]; [done| | |rewrite !Ed by lia; apply Hds; lia].
    + destruct (Eapart s ltac:(lia)) as [-> ->]. done.
    + destruct (Eapart t ltac:(lia)) as [-> ->]. done.
  - intros i t Hi Htk. destruct (decide (t = k)) as [->|]; [|rewrite El by lia; apply Hmult; lia].
    destruct (Nat.lt_trichotomy i k) as [Hlt|[->|Hgt]]; [rewrite factor_l_above by done; done|rewrite factor_l_unit; done|].
    rewrite Elk by done. by apply (single_column _ _ _ _ Hdone).
  - intros lambda bound Hlam [HwL HwD] i j Hi Hj.
    assert (factors_within n k a blocks lambda bound) as Hw.
    { split; [intros i' t Hi' Htk; rewrite <- El by done; apply HwL; lia|intros t s Htk Hsk; rewrite <- Ed by done; apply HwD; lia]. }
    specialize (Hback lambda bound Hlam Hw i j Hi Hj).
    rewrite (backward_step n A a b blocks blocks' sigma k (k + 1) i j (factor_l n b blocks' i k * at_index n a k k * factor_l n b blocks' j k)); [|lia|].
    + replace (k + 1)%nat with (S k) in * by lia.
      pose proof (single_residual n k a b i j lambda bound (fun t => factor_l n b blocks' t k) Hdone Hsym Hk Hi Hj) as Hres. cbv beta in Hres.
      rewrite Nat2Z.inj_succ. specialize (Hres ltac:(intros; apply HwL; lia) Hlam).
      specialize (Hres ltac:(rewrite <- Edk; apply HwD; lia) ltac:(intros; by apply factor_l_above) ltac:(apply factor_l_unit) ltac:(intros; apply Elk; lia)).
      clear - Hback Hres. lia.
    + replace (k + 1)%nat with (S k) by lia. rewrite triple_single by done. rewrite Edk. f_equal.
      apply triple_ext; [intros t Htk; split; by apply El|done].
Qed.

(** ** A 2-by-2 step *)

(** The new array of a 2-by-2 step in columns [k] and [k + 1]. *)
Record double_done n k a b : Prop := mk_double_done {
  double_length : length b = (n * n)%nat;
  double_range : Forall is_i64 b;
  double_same : forall r c, (r < n)%nat -> (c < n)%nat -> (r < k + 2 \/ c < k)%nat -> at_index n b r c = at_index n a r c;
  double_columns : forall i, (k + 2 <= i < n)%nat ->
    Z.abs (at_index n b i k) <= 3 * LINEARS_FIXED_ONE /\ Z.abs (at_index n b i (k + 1)) <= 3 * LINEARS_FIXED_ONE /\
    Z.abs (at_index n b i k * at_index n a k k + at_index n b i (k + 1) * at_index n a k (k + 1) - LINEARS_FIXED_ONE * at_index n a i k)
      <= 6 * Z.abs (at_index n a k (k + 1)) /\
    Z.abs (at_index n b i k * at_index n a k (k + 1) + at_index n b i (k + 1) * at_index n a (k + 1) (k + 1) - LINEARS_FIXED_ONE * at_index n a i (k + 1))
      <= 6 * Z.abs (at_index n a k (k + 1));
  double_trailing : forall i j, (k + 2 <= i <= j)%nat -> (j < n)%nat -> at_index n b i j = at_index n b j i /\
    2 * Z.abs (at_index n b j i * LINEARS_FIXED_ONE - (at_index n a j i * LINEARS_FIXED_ONE -
      (at_index n b j k * at_index n a k i + at_index n b j (k + 1) * at_index n a (k + 1) i))) <= LINEARS_FIXED_ONE
}.

(** The contribution of the block to entry (i, j), for multiplier columns [L1] and [L2]. *)
Definition block_term (L1 L2 : nat -> Z) (d11 d12 d22 : Z) i j : Z :=
  L1 i * d11 * L1 j + L1 i * d12 * L2 j + L2 i * d12 * L1 j + L2 i * d22 * L2 j.

Lemma block_term_comm L1 L2 d11 d12 d22 i j : block_term L1 L2 d11 d12 d22 i j = block_term L1 L2 d11 d12 d22 j i.
Proof. unfold block_term. ring. Qed.

Lemma double_residual n k a b i j lambda bound (L1 L2 : nat -> Z) : double_done n k a b ->
  (forall i j, (k <= i < n)%nat -> (k <= j < n)%nat -> at_index n a i j = at_index n a j i) ->
  (k + 1 < n)%nat -> (i <= j < n)%nat -> (forall t, (t < n)%nat -> Z.abs (L1 t) <= lambda /\ Z.abs (L2 t) <= lambda) ->
  LINEARS_FIXED_ONE <= lambda -> Z.abs (at_index n a k (k + 1)) <= bound ->
  (forall t, (t < k)%nat -> L1 t = 0 /\ L2 t = 0) -> L1 k = LINEARS_FIXED_ONE -> L2 k = 0 -> L1 (k + 1)%nat = 0 -> L2 (k + 1)%nat = LINEARS_FIXED_ONE ->
  (forall t, (k + 2 <= t < n)%nat -> L1 t = at_index n b t k /\ L2 t = at_index n b t (k + 1)) ->
  2 * Z.abs ((if in_active k i j then LINEARS_FIXED_ONE * LINEARS_FIXED_ONE * at_index n a i j else 0) -
    block_term L1 L2 (at_index n a k k) (at_index n a k (k + 1)) (at_index n a (k + 1) (k + 1)) i j -
    (if in_active (k + 2) i j then LINEARS_FIXED_ONE * LINEARS_FIXED_ONE * at_index n b i j else 0))
  <= LINEARS_FIXED_ONE * LINEARS_FIXED_ONE + 24 * (lambda * bound).
Proof.
  intros Hdone Hsym Hk [Hij Hj] HL Hlam Hbound Hz H11 H21 H12 H22 Hc. unfold in_active, block_term.
  set (A := at_index n a k k) in *. set (m := at_index n a k (k + 1)) in *. set (C := at_index n a (k + 1) (k + 1)) in *.
  set (S := LINEARS_FIXED_ONE) in *. assert (0 < S) as HS by done. assert (0 <= lambda * bound) by (apply Z.mul_nonneg_nonneg; lia).
  assert (0 <= S * S) by (apply Z.mul_nonneg_nonneg; lia). assert (S * bound <= lambda * bound) as Hmono by (apply Z.mul_le_mono_nonneg_r; lia).
  assert (forall r, Z.abs r <= 6 * Z.abs m -> 2 * Z.abs (S * r) <= S * S + 24 * (lambda * bound)) as Hsmall.
  { intros r Hr. pose proof (abs_mul_le S r S (6 * bound) ltac:(lia) ltac:(lia)) as HH. lia. }
  destruct (Nat.leb_spec k i) as [Hki|Hik]; cbn [andb].
  2: { destruct (Hz i) as [-> ->]; [lia|]. rewrite (proj2 (Nat.leb_gt (k + 2) i)) by lia. cbn [andb]. rewrite !Z.mul_0_l. cbn [Z.add Z.sub Z.opp Z.abs]. lia. }
  rewrite (proj2 (Nat.leb_le k j)) by lia. destruct (Nat.leb_spec (k + 2) i) as [Hi2|Hi2].
  - rewrite (proj2 (Nat.leb_le (k + 2) j)) by lia. cbn [andb].
    destruct (double_trailing _ _ _ _ Hdone i j ltac:(lia) Hj) as [-> Ht]. destruct (double_columns _ _ _ _ Hdone i ltac:(lia)) as (_ & _ & H1 & H2).
    rewrite (Hsym i j) by lia. destruct (Hc i ltac:(lia)) as [E1 E2]. destruct (Hc j ltac:(lia)) as [E3 E4].
    apply (double_cell S _ _ (L1 i) (L2 i) (L1 j) (L2 j) (at_index n a k i) (at_index n a (k + 1) i)); [done| | | |by apply HL|by apply HL|done].
    + rewrite E3, E4. exact Ht.
    + rewrite E1, E2, (Hsym k i) by lia. exact H1.
    + rewrite E1, E2, (Hsym (k + 1)%nat i) by lia. exact H2.
  - cbn [andb]. destruct (Nat.le_gt_cases (k + 2) j) as [Hj2|Hj2].
    + destruct (double_columns _ _ _ _ Hdone j ltac:(lia)) as (_ & _ & H1 & H2). destruct (Hc j ltac:(lia)) as [E3 E4]. rewrite <- E3, <- E4 in H1, H2. rewrite (Hsym i j) by lia.
      fold A m C S in H1, H2. destruct (decide (i = k)) as [->|].
      * rewrite H11, H21. specialize (Hsmall _ H1). rewrite <- Z.abs_opp. 
        replace (- (S * S * at_index n a j k - (S * A * L1 j + S * m * L2 j + 0 * m * L1 j + 0 * C * L2 j) - 0)) with (S * (L1 j * A + L2 j * m - S * at_index n a j k)) by ring. done.
      * replace i with (k + 1)%nat by lia. rewrite H12, H22. specialize (Hsmall _ H2). rewrite <- Z.abs_opp.
        replace (- (S * S * at_index n a j (k + 1) - (0 * A * L1 j + 0 * m * L2 j + S * m * L1 j + S * C * L2 j) - 0)) with (S * (L1 j * m + L2 j * C - S * at_index n a j (k + 1))) by ring. done.
    + assert (forall x, x = 0 -> 2 * Z.abs x <= S * S + 24 * (lambda * bound)) as Hexact by (intros x ->; cbn; lia). apply Hexact.
      destruct (decide (i = k)) as [->|Hik].
      * rewrite H11, H21. destruct (decide (j = k)) as [->|Hjk]; [rewrite H11, H21; fold A; ring|].
        replace j with (k + 1)%nat by lia. rewrite H12, H22. fold m. ring.
      * replace i with (k + 1)%nat by lia. replace j with (k + 1)%nat by lia. rewrite H12, H22. fold C. ring.
Qed.

Lemma in_active_comm k i j : in_active k i j = in_active k j i.
Proof. apply andb_comm. Qed.

(** The change of one entry's error by a step from column [k] to column [m]. *)
Definition step_residual n k m a b (L1 L2 : nat -> Z) i j : Z :=
  (if in_active k i j then LINEARS_FIXED_ONE * LINEARS_FIXED_ONE * at_index n a i j else 0) -
  block_term L1 L2 (at_index n a k k) (at_index n a k (k + 1)) (at_index n a (k + 1) (k + 1)) i j -
  (if in_active m i j then LINEARS_FIXED_ONE * LINEARS_FIXED_ONE * at_index n b i j else 0).

Lemma double_residual_any n k a b i j lambda bound (L1 L2 : nat -> Z) : double_done n k a b ->
  (forall i j, (k <= i < n)%nat -> (k <= j < n)%nat -> at_index n a i j = at_index n a j i) ->
  (k + 1 < n)%nat -> (i < n)%nat -> (j < n)%nat -> (forall t, (t < n)%nat -> Z.abs (L1 t) <= lambda /\ Z.abs (L2 t) <= lambda) ->
  LINEARS_FIXED_ONE <= lambda -> Z.abs (at_index n a k (k + 1)) <= bound ->
  (forall t, (t < k)%nat -> L1 t = 0 /\ L2 t = 0) -> L1 k = LINEARS_FIXED_ONE -> L2 k = 0 -> L1 (k + 1)%nat = 0 -> L2 (k + 1)%nat = LINEARS_FIXED_ONE ->
  (forall t, (k + 2 <= t < n)%nat -> L1 t = at_index n b t k /\ L2 t = at_index n b t (k + 1)) ->
  2 * Z.abs (step_residual n k (k + 2) a b L1 L2 i j) <= LINEARS_FIXED_ONE * LINEARS_FIXED_ONE + 24 * (lambda * bound).
Proof.
  intros Hdone Hsym Hk Hi Hj HL Hlam Hb Hz H11 H21 H12 H22 Hc.
  pose proof (fun u v Huv => double_residual n k a b u v lambda bound L1 L2 Hdone Hsym Hk Huv HL Hlam Hb Hz H11 H21 H12 H22 Hc) as Hres.
  destruct (Nat.le_gt_cases i j) as [Hij|Hij]; [by apply Hres|].
  specialize (Hres j i ltac:(lia)). unfold step_residual. rewrite block_term_comm, !(in_active_comm _ j i) in Hres.
  assert ((if in_active k i j then at_index n a j i else 0) = (if in_active k i j then at_index n a i j else 0)) as Ea.
  { unfold in_active. destruct (Nat.leb_spec k i), (Nat.leb_spec k j); cbn; try done. by rewrite (Hsym j i) by lia. }
  assert ((if in_active (k + 2) i j then at_index n b j i else 0) = (if in_active (k + 2) i j then at_index n b i j else 0)) as Eb.
  { unfold in_active. destruct (Nat.leb_spec (k + 2) i), (Nat.leb_spec (k + 2) j); cbn; try done.
    by rewrite (proj1 (double_trailing _ _ _ _ Hdone j i ltac:(lia) ltac:(lia))). }
  destruct (in_active k i j), (in_active (k + 2) i j); rewrite ?Ea, ?Eb in Hres; exact Hres.
Qed.

(** The marks of a 2-by-2 block. *)
Lemma block_marks blocks k : (k + 1 < length blocks)%nat ->
  let blocks' := <[(k + 1)%nat := 0]> (<[k := 2]> blocks) in
  length blocks' = length blocks /\ (forall u, (u < k)%nat -> nth u blocks' 0 = nth u blocks 0) /\ nth k blocks' 0 = 2 /\ nth (k + 1) blocks' 0 = 0.
Proof.
  intros Hk. cbv zeta. split; [by rewrite !length_insert|]. rewrite !nth_lookup. split; [|split].
  - intros u Hu. rewrite !nth_lookup, !list_lookup_insert_ne by lia. done.
  - rewrite list_lookup_insert_ne by lia. by rewrite list_lookup_insert_eq by lia.
  - by rewrite list_lookup_insert_eq by (rewrite length_insert; lia).
Qed.

(** The entries of the two factors in the columns of a new 2-by-2 block. *)
Lemma block_factors n k a b blocks : (k + 1 < n)%nat -> nth k blocks 0 = 2 -> nth (k + 1) blocks 0 = 0 -> double_done n k a b ->
  at_index n a (k + 1) k = at_index n a k (k + 1) ->
  (factor_l n b blocks k k = LINEARS_FIXED_ONE /\ factor_l n b blocks k (k + 1) = 0 /\
   factor_l n b blocks (k + 1) k = 0 /\ factor_l n b blocks (k + 1) (k + 1) = LINEARS_FIXED_ONE) /\
  (forall i, (k + 2 <= i)%nat -> factor_l n b blocks i k = at_index n b i k /\ factor_l n b blocks i (k + 1) = at_index n b i (k + 1)) /\
  factor_d n b blocks k k = at_index n a k k /\ factor_d n b blocks (k + 1) (k + 1) = at_index n a (k + 1) (k + 1) /\
  factor_d n b blocks k (k + 1) = at_index n a k (k + 1) /\ factor_d n b blocks (k + 1) k = at_index n a k (k + 1).
Proof.
  intros Hk H2 H0 Hdone Hsym. assert (in_block blocks (k + 1) k = true) as Hin by (unfold in_block; rewrite H2, Nat.eqb_refl; done).
  rewrite !factor_l_unit. rewrite (factor_l_above n b blocks k (k + 1)) by lia. split; [|split].
  - split; [done|]. split; [done|]. split; [|done]. unfold factor_l. rewrite Hin, (proj2 (Nat.eqb_neq (k + 1) k)) by lia. by rewrite andb_false_r.
  - intros i Hi. split; apply factor_l_below; try lia.
  - unfold factor_d. rewrite !Nat.eqb_refl, Hin, (proj2 (Nat.eqb_neq (k + 1) k)), (proj2 (Nat.eqb_neq k (k + 1))) by lia.
    rewrite (proj2 (Nat.ltb_lt k (k + 1))), (proj2 (Nat.ltb_ge (k + 1) k)) by lia. rewrite !(double_same _ _ _ _ Hdone) by lia. done.
Qed.

Lemma ldlt_double_inv n A rest k st sigma b : (k + 1 < n)%nat -> ldlt_inv n A rest k st sigma -> double_done n k (ldlt_a st) b ->
  ldlt_inv n A rest (k + 2) (mk_ldlt b (ldlt_permutation st) (<[(k + 1)%nat := 0]> (<[k := 2]> (ldlt_blocks st)))) sigma.
Proof.
  intros Hk [Hl Ha Hperm Hsl Hs _ Hb Ht Hsym Hds Hmult Hback] Hdone. set (a := ldlt_a st) in *. set (blocks := ldlt_blocks st) in *.
  destruct (block_marks blocks k ltac:(lia)) as (Hlen' & Hbelow & Hm2 & Hm0). set (blocks' := <[_ := 0]> _) in *.
  assert (forall r c, (r < n)%nat -> (c < k)%nat -> at_index n b r c = at_index n a r c) as Hleft by (intros; apply (double_same _ _ _ _ Hdone); lia).
  assert (tiling blocks' k) as Ht0 by by apply (tiling_ext blocks).
  assert (forall i t, (i < n)%nat -> (t < k)%nat -> factor_l n b blocks' i t = factor_l n a blocks i t) as El by (intros; apply (factor_l_frame n k); auto; lia).
  assert (forall t s, (t < k)%nat -> (s < k)%nat -> factor_d n b blocks' t s = factor_d n a blocks t s) as Ed by (intros; apply (factor_d_frame n k); auto; lia).
  pose proof (fun t (Htk : (t < k)%nat) => factor_d_apart n b blocks' k t k Ht0 ltac:(lia)) as Ap1.
  pose proof (fun t (Htk : (t < k)%nat) => factor_d_apart n b blocks' k t (k + 1) Ht0 ltac:(lia)) as Ap2.
  destruct (block_factors n k a b blocks' Hk Hm2 Hm0 Hdone ltac:(apply Hsym; lia)) as ((U1 & U2 & U3 & U4) & Hcols & D11 & D22 & D12 & D21).
  assert (forall t, (t < k + 2)%nat -> (t < k)%nat \/ t = k \/ t = (k + 1)%nat) as Hcases by (intros; lia).
  split; cbn [ldlt_a ldlt_permutation ldlt_blocks]; fold a blocks blocks'; auto.
  - apply (double_length _ _ _ _ Hdone).
  - apply (double_range _ _ _ _ Hdone).
  - lia.
  - lia.
  - by apply tiling_2.
  - intros i j Hi Hj. destruct (Nat.le_gt_cases i j); [apply (double_trailing _ _ _ _ Hdone i j); lia|symmetry; apply (double_trailing _ _ _ _ Hdone j i); lia].
  - intros t s Htk Hsk. destruct (Hcases t Htk) as [H1|[->| ->]], (Hcases s Hsk) as [H2|[->| ->]]; try done; [rewrite !Ed by lia; by apply Hds|..];
      try (by destruct (Ap1 t ltac:(assumption)) as [-> ->]); try (by destruct (Ap2 t ltac:(assumption)) as [-> ->]);
      try (by destruct (Ap1 s ltac:(assumption)) as [-> ->]); try (by destruct (Ap2 s ltac:(assumption)) as [-> ->]); congruence.
  - intros i t Hi Htk. destruct (Hcases t Htk) as [H1|Hkk]; [rewrite El by lia; by apply Hmult|].
    destruct (Nat.lt_ge_cases i (k + 2)) as [Hik|Hik].
    + assert (factor_l n b blocks' i t = 0 \/ factor_l n b blocks' i t = LINEARS_FIXED_ONE) as [-> | ->]; [|done|done].
      destruct (Nat.lt_ge_cases i k) as [Hlt|Hge]; [left; apply factor_l_above; lia|].
      assert (i = k \/ i = (k + 1)%nat) as [->| ->] by lia; destruct Hkk as [->| ->]; auto.
    + destruct (double_columns _ _ _ _ Hdone i ltac:(lia)) as (B1 & B2 & _). destruct (Hcols i Hik) as [E1 E2].
      destruct Hkk as [->| ->]; [by rewrite E1|by rewrite E2].
  - intros lambda bound Hlam [HwL HwD] i j Hi Hj.
    assert (factors_within n k a blocks lambda bound) as Hw.
    { split; [intros i' t Hi' Htk; rewrite <- El by done; apply HwL; lia|intros t s Htk Hsk; rewrite <- Ed by done; apply HwD; lia]. }
    specialize (Hback lambda bound Hlam Hw i j Hi Hj).
    set (L1 := fun t => factor_l n b blocks' t k). set (L2 := fun t => factor_l n b blocks' t (k + 1)%nat).
    rewrite (backward_step n A a b blocks blocks' sigma k (k + 2) i j (block_term L1 L2 (at_index n a k k) (at_index n a k (k + 1)) (at_index n a (k + 1) (k + 1)) i j)); [|lia|].
    + pose proof (double_residual_any n k a b i j lambda bound L1 L2 Hdone Hsym Hk Hi Hj) as Hres.
      replace (Z.of_nat (k + 2)) with (Z.of_nat k + 2) by lia. unfold column_error in *.
      enough (2 * Z.abs (step_residual n k (k + 2) a b L1 L2 i j) <= LINEARS_FIXED_ONE * LINEARS_FIXED_ONE + 24 * (lambda * bound)) as H
        by (unfold step_residual in H; clear - Hback H; nia).
      apply Hres; auto.
      * intros t Htn. split; apply HwL; lia.
      * rewrite <- D12. apply HwD; lia.
      * intros t Htk. split; apply factor_l_above; lia.
      * intros t Ht2. apply Hcols. lia.
    + replace (k + 2)%nat with (S (S k)) by lia. rewrite triple_double.
      * replace (S k) with (k + 1)%nat by lia. rewrite D11, D22, D12, D21. unfold block_term. f_equal.
        apply triple_ext; [intros t Htk; split; by apply El|done].
      * intros t Htk. replace (S k) with (k + 1)%nat by lia. destruct (Ap1 t Htk), (Ap2 t Htk). auto.
Qed.
End Ldlt.
