(* ===== verification/LdltSpec.v ===== *)
(** * LDLT: the code keeps the invariant, and the entry points

    Each pass of the loop is one step of LdltQ.v; the theorems about the
    factorization and about the q15 and q31 entry points follow. *)
From S2P Require Import Prelude MachineInt Status Wide Numeric Memory Float Matrix FcMonad Cordic FcFloat FcVariants Decomp DecompQ LuQ DecompSpec Ldlt LdltQ.

Section Ldlt.
Variable kind : numeric_kind.
#[local] Hint Extern 0 (DArith _ Z) => exact (fixed_arith kind) : typeclass_instances.
#[local] Hint Extern 0 (DArith Z _) => exact (fixed_arith kind) : typeclass_instances.
#[local] Hint Extern 0 (DBlock Z) => exact fixed_block : typeclass_instances.
Implicit Types (a b A : list Z) (n i j k p q t s : nat).

(** ** The steps of the code *)

Definition active_within n k a (dmax omax : Z) : Prop :=
  (forall i, (k <= i < n)%nat -> Z.abs (at_index n a i i) <= dmax) /\
  (forall i j, (k <= i < n)%nat -> (k <= j < n)%nat -> i <> j -> Z.abs (at_index n a i j) <= omax).

Lemma single_multiplier_bound l d x o : d <> 0 -> Z.abs x <= o -> 64 * o <= 100 * Z.abs d ->
  2 * Z.abs (l * d - x * LINEARS_FIXED_ONE) <= Z.abs d -> Z.abs l <= 3 * LINEARS_FIXED_ONE.
Proof.
  unfold LINEARS_FIXED_ONE. intros Hd Hx Ho Hl. assert (Z.abs (l * d) <= Z.abs x * 2147483648 + Z.abs d) as H by lia.
  rewrite Z.abs_mul in H. set (al := Z.abs l) in *. set (ad := Z.abs d) in *. assert (0 < ad) by (unfold ad; lia).
  assert (64 * al * ad <= (214748364800 + 64) * ad) as H2 by lia. apply Z.mul_le_mono_pos_r in H2; lia.
Qed.

Lemma single_code {B} n k a dmax omax (K : list Z -> fc B) (Q : B -> Prop) : (k < n)%nat -> length a = (n * n)%nat -> Forall is_i64 a ->
  active_within n k a dmax omax -> Z.abs (at_index n a k k) = dmax -> 0 < dmax -> 64 * omax <= 100 * dmax ->
  (forall b, sticky (K b)) -> (forall b, single_done kind n k a b -> wp (K b) Q) ->
  wp (b ← divide_column n k (at_index n a k k) a;
      b ← update_trailing n (k + 1) (fun i j b => D_SUB_PRODUCT (at_index n b j i) (at_index n b j k) (at_index n b k i)) b;
      K b) Q.
Proof.
  intros Hk Hl Ha [_ Hoff] Hd Hpos Ho HK HQ.
  assert (forall b : list Z, sticky (update_trailing n (k + 1) (fun i j b => D_SUB_PRODUCT (at_index n b j i) (at_index n b j k) (at_index n b k i)) b)) as Hst
    by (intros b; unfold update_trailing; apply sticky_for_fc; intros; apply sticky_for_fc; intros; cbn; solve_chain).
  apply wp_bind; [|intros b; apply sticky_bind; done].
  eapply wp_mono; [apply divide_column_spec; [done|lia|by apply at_range|done|done]|]. intros b (Hlb & Hb & Hcol & Hsame).
  apply wp_bind; [|done]. eapply wp_mono; [apply (update_trailing_spec kind n (k + 1) _ b (fun i j v => 2 * Z.abs (v * LINEARS_FIXED_ONE -
    (at_index n a j i * LINEARS_FIXED_ONE - at_index n b j k * at_index n a k i)) <= LINEARS_FIXED_ONE)); [lia|done|done|intros; cbn; solve_chain|]|].
  - intros i j c Hij Hj Hc Hout Hji. cbn [D_SUB_PRODUCT fixed_arith].
    rewrite <- (Hsame j i), <- (Hsame k i), <- (Hout j k), <- (Hout k i), <- Hji by lia.
    eapply wp_mono; [apply fixed_sub_product_wp; by apply at_range|]. done.
  - intros c (Hlc & Hc & Hout & Hin). apply HQ.
    assert (forall i, (k < i < n)%nat -> at_index n c i k = at_index n b i k) as Ek by (intros; apply Hout; lia).
    split; [done|done| | |].
    + intros r q Hr Hq Hrq. rewrite Hout by lia. apply Hsame; lia.
    + intros i Hi. rewrite Ek by done. destruct (Hcol i ltac:(lia)) as [E _]. split; [|exact E].
      apply (single_multiplier_bound _ (at_index n a k k) (at_index n a i k) omax); [lia|apply Hoff; lia|lia|exact E].
    + intros i j Hij Hj. specialize (Hin i j ltac:(lia) Hj). rewrite decide_True in Hin by lia. rewrite Ek by lia. exact Hin.
Qed.

Lemma double_entry_bound (a b e dmax : Z) : Z.abs e <= dmax -> 1000 * dmax <= 641 * Z.abs b -> b <> 0 ->
  2 * Z.abs (a * b - e * LINEARS_FIXED_ONE) <= Z.abs b -> 100 * Z.abs a <= 65 * LINEARS_FIXED_ONE.
Proof.
  unfold LINEARS_FIXED_ONE. intros He Hd Hb Ha. assert (Z.abs (a * b) <= Z.abs e * 2147483648 + Z.abs b) as H by lia.
  rewrite Z.abs_mul in H. set (al := Z.abs a) in *. set (ab := Z.abs b) in *. assert (0 < ab) by (unfold ab; lia).
  assert (1000 * al * ab <= (641 * 2147483648 + 1000) * ab) as H2 by lia. apply Z.mul_le_mono_pos_r in H2; lia.
Qed.

(** What a row of the code's block step achieves. *)
Lemma block_row_bounds (e1 b e2 a c delta X Y l1 l2 : Z) : b <> 0 -> Z.abs X <= Z.abs b -> Z.abs Y <= Z.abs b ->
  100 * Z.abs a <= 65 * LINEARS_FIXED_ONE -> 100 * Z.abs c <= 65 * LINEARS_FIXED_ONE ->
  2 * Z.abs (a * b - e1 * LINEARS_FIXED_ONE) <= Z.abs b -> 2 * Z.abs (c * b - e2 * LINEARS_FIXED_ONE) <= Z.abs b ->
  2 * Z.abs (- delta * LINEARS_FIXED_ONE - (LINEARS_FIXED_ONE * LINEARS_FIXED_ONE - a * c)) <= LINEARS_FIXED_ONE ->
  block_row_ok b a c delta X Y l1 l2 ->
  Z.abs l1 <= 3 * LINEARS_FIXED_ONE /\ Z.abs l2 <= 3 * LINEARS_FIXED_ONE /\
  Z.abs (l1 * e1 + l2 * b - LINEARS_FIXED_ONE * X) <= 6 * Z.abs b /\ Z.abs (l1 * b + l2 * e2 - LINEARS_FIXED_ONE * Y) <= 6 * Z.abs b.
Proof.
  intros Hb HX HY Ha Hc Ea Ec Ed (x & y & first & second & Ex & Ux & Ey & Uy & [Ef Eg] & E1 & E2).
  specialize (Ux HX). specialize (Uy HY). pose proof (block_delta_bound a c delta Ha Hc Ed) as Hdelta.
  pose proof (block_multiplier_bound c x y delta first l1 Hc Ux Uy Hdelta Ef E1) as B1.
  pose proof (block_multiplier_bound a y x delta second l2 Ha Uy Ux Hdelta Eg E2) as B2. split; [done|]. split; [done|]. split.
  - exact (block_residual a c x y delta first second l1 l2 e1 b X Ha Ux Hdelta Ed Ef Eg E1 E2 B1 Ea Ex).
  - rewrite (Z.mul_comm a c) in Ed. replace (l1 * b + l2 * e2 - LINEARS_FIXED_ONE * Y) with (l2 * e2 + l1 * b - LINEARS_FIXED_ONE * Y) by ring.
    exact (block_residual c a y x delta second first l2 l1 e2 b Y Hc Uy Hdelta Ed Eg Ef E2 E1 B2 Ec Ey).
Qed.

Lemma double_code {B} n k a dmax omax (K : list Z -> fc B) (Q : B -> Prop) : (k + 1 < n)%nat -> length a = (n * n)%nat -> Forall is_i64 a ->
  active_within n k a dmax omax -> Z.abs (at_index n a k (k + 1)) = omax -> 0 < omax -> 1000 * dmax <= 641 * omax ->
  (forall b, sticky (K b)) -> (forall b, double_done kind n k a b -> wp (K b) Q) ->
  wp (let b := at_index n a k (k + 1) in
      a_ ← D_DIV (at_index n a k k) b;
      c ← D_DIV (at_index n a (k + 1) (k + 1)) b;
      delta ← D_BLOCK_DELTA a_ c;
      v ← for_fc (k + 2) (n - (k + 2)) (block_row n k a_ b c delta) a;
      v ← update_trailing n (k + 2) (fun i j v =>
        D_BLOCK_UPDATE (at_index n v j i) (at_index n v j k) (at_index n v k i) (at_index n v j (k + 1)) (at_index n v (k + 1) i)) v;
      K v) Q.
Proof.
  intros Hk Hl Ha [Hdiag Hoff] Ho Hpos Hd HK HQ. cbv zeta. set (b := at_index n a k (k + 1)) in *.
  assert (is_i64 b) as Hbr by by apply at_range. assert (b <> 0) as Hbn by lia.
  assert (forall v : list Z, sticky (update_trailing n (k + 2) (fun i j v =>
    D_BLOCK_UPDATE (at_index n v j i) (at_index n v j k) (at_index n v k i) (at_index n v j (k + 1)) (at_index n v (k + 1) i)) v)) as Hst
    by (intros v; unfold update_trailing; apply sticky_for_fc; intros; apply sticky_for_fc; intros; cbn; solve_chain).
  assert (forall (a_ c delta : Z) (v : list Z), sticky (for_fc (k + 2) (n - (k + 2)) (block_row n k a_ b c delta) v)) as Hst2
    by (intros; apply sticky_for_fc; intros; apply block_row_sticky).
  cbn [D_DIV D_BLOCK_DELTA fixed_arith fixed_block].
  apply wp_bind; [|intros; repeat (apply sticky_bind; [first [apply fixed_block_delta_sticky|done|solve_sticky]|intros]); apply HK].
  eapply wp_mono; [apply fixed_div_wp; [by apply at_range|done|done]|]. intros a_ (Hra & Ea & _).
  apply wp_bind; [|intros; repeat (apply sticky_bind; [first [apply fixed_block_delta_sticky|done|solve_sticky]|intros]); apply HK].
  eapply wp_mono; [apply fixed_div_wp; [by apply at_range|done|done]|]. intros c (Hrc & Ec & _).
  apply wp_bind; [|intros; repeat (apply sticky_bind; [done|intros]); apply HK].
  eapply wp_mono; [by apply fixed_block_delta_wp|]. intros delta (Hrd & Ed).
  assert (100 * Z.abs a_ <= 65 * LINEARS_FIXED_ONE) as Ba by (apply (double_entry_bound a_ b (at_index n a k k) dmax); [apply Hdiag; lia|lia|done|done]).
  assert (100 * Z.abs c <= 65 * LINEARS_FIXED_ONE) as Bc by (apply (double_entry_bound c b (at_index n a (k + 1) (k + 1)) dmax); [apply Hdiag; lia|lia|done|done]).
  pose proof (block_delta_bound a_ c delta Ba Bc Ed) as Bd.
  apply wp_bind; [|intros; apply sticky_bind; done]. eapply wp_mono; [apply block_rows_spec; auto; unfold LINEARS_FIXED_ONE in Bd; lia|]. intros v (Hlv & Hv & Hrow & Hsame).
  apply wp_bind; [|done]. eapply wp_mono; [apply (update_trailing_spec kind n (k + 2) _ v (fun i j x => 2 * Z.abs (x * LINEARS_FIXED_ONE -
    (at_index n a j i * LINEARS_FIXED_ONE - (at_index n v j k * at_index n a k i + at_index n v j (k + 1) * at_index n a (k + 1) i))) <= LINEARS_FIXED_ONE));
    [lia|done|done|intros; cbn; solve_chain|]|].
  - intros i j w Hij Hj Hw Hout Hji. cbn [D_BLOCK_UPDATE fixed_block].
    rewrite <- (Hsame j i), <- (Hsame k i), <- (Hsame (k + 1)%nat i), <- (Hout j k), <- (Hout k i), <- (Hout j (k + 1)%nat), <- (Hout (k + 1)%nat i), <- Hji by lia.
    eapply wp_mono; [apply fixed_dot_sub_wp; [by apply at_range|]|].
    { intros [|t] Ht; cbn [pick]; split; by apply at_range. }
    intros x [Hx ->]. split; [done|]. cbn [pick]. change (sum_to 2 ?g) with (0 + g 0%nat + g 1%nat). cbn [pick]. rewrite Z.add_0_l. apply div_nearest_error. done.
  - intros w (Hlw & Hw & Hout & Hin). apply HQ.
    assert (forall i j, (k + 2 <= i < n)%nat -> (k <= j < k + 2)%nat -> at_index n w i j = at_index n v i j) as Ek by (intros; apply Hout; lia).
    split; [done|done| | |].
    + intros r q Hr Hq Hrq. rewrite Hout by lia. apply Hsame; lia.
    + intros i Hi. rewrite !Ek by lia. fold b. apply (block_row_bounds _ b _ a_ c delta); auto; try (rewrite Ho; apply Hoff; lia).
    + intros i j Hij Hj. specialize (Hin i j ltac:(lia) Hj). rewrite decide_True in Hin by lia. rewrite (Ek j k), (Ek j (k + 1)%nat) by lia. exact Hin.
Qed.

Lemma swap_index_ne p q i j : i <> j -> swap_index p q i <> swap_index p q j.
Proof. intros Hne E. apply Hne. rewrite <- (swap_index_involutive p q i), E. apply swap_index_involutive. Qed.

(** An interchange of active rows keeps the bounds of the active square. *)
Lemma active_interchanged n k p q a b dmax omax : (k <= p < n)%nat -> (k <= q < n)%nat ->
  interchanged kind n k (swap_index p q) a b -> active_within n k a dmax omax -> active_within n k b dmax omax.
Proof.
  intros Hp Hq Hint [Hd Ho]. split.
  - intros i Hi. rewrite Hint by lia. rewrite decide_True by lia. apply Hd. by apply swap_index_active.
  - intros i j Hi Hj Hne. rewrite Hint by lia. rewrite decide_True by lia.
    apply Ho; [by apply swap_index_active..|]. by apply swap_index_ne.
Qed.

(** The interchange as the invariant sees it. *)
Lemma ldlt_swap_code n A rest k p q st sigma dmax omax : (k <= p < n)%nat -> (k <= q < n)%nat -> ldlt_inv kind n A rest k st sigma ->
  active_within n k (ldlt_a st) dmax omax ->
  exists sigma', ldlt_inv kind n A rest k (ldlt_swap n k p q st) sigma' /\
    interchanged kind n k (swap_index p q) (ldlt_a st) (ldlt_a (ldlt_swap n k p q st)) /\
    active_within n k (ldlt_a (ldlt_swap n k p q st)) dmax omax.
Proof.
  intros Hp Hq Hinv Hact. destruct (ldlt_swap_inv kind n A rest k p q st sigma Hp Hq Hinv) as [sigma' Hinv'].
  destruct Hinv as [Hl Ha Hperm Hsl Hs _ _ _ _ _ _ _].
  destruct (ldlt_swap_spec kind n k p q st sigma rest) as (_ & _ & Hint & _); auto.
  exists sigma'. split; [done|]. split; [done|]. by apply (active_interchanged n k p q (ldlt_a st)).
Qed.

Lemma ldlt_single_code n A rest k index st sigma dmax omax : (k <= index < n)%nat -> ldlt_inv kind n A rest k st sigma ->
  active_within n k (ldlt_a st) dmax omax -> Z.abs (at_index n (ldlt_a st) index index) = dmax -> 0 < dmax -> 64 * omax <= 100 * dmax ->
  (ldlt_single n k index st).1 = LINEARS_OK -> exists sigma', ldlt_inv kind n A rest (k + 1) (ldlt_single n k index st).2 sigma'.
Proof.
  intros Hi Hinv Hact Hd Hpos Ho. destruct (ldlt_swap_code n A rest k k index st sigma dmax omax ltac:(lia) Hi Hinv Hact) as (sigma' & Hinv' & Hint & Hact').
  unfold ldlt_single. cbv zeta. set (st1 := ldlt_swap n k k index st) in *.
  apply (settle_ok _ _ (fun st2 => exists sigma', ldlt_inv kind n A rest (k + 1) st2 sigma')).
  apply (single_code n k (ldlt_a st1) dmax omax); auto; [lia|apply Hinv'|apply Hinv'| |intros; cbn; solve_sticky|].
  - rewrite Hint by lia. rewrite decide_True by lia.
    assert (swap_index k index k = index) as -> by (unfold swap_index; by rewrite decide_True). done.
  - intros b Hb. apply wp_ret. exists sigma'. apply ldlt_single_inv; auto; lia.
Qed.

Lemma ldlt_double_code n A rest k p q st sigma dmax omax : (k <= p < q)%nat -> (q < n)%nat -> ldlt_inv kind n A rest k st sigma ->
  active_within n k (ldlt_a st) dmax omax -> Z.abs (at_index n (ldlt_a st) p q) = omax -> 0 < omax -> 1000 * dmax <= 641 * omax ->
  (ldlt_double n k p q st).1 = LINEARS_OK -> exists sigma', ldlt_inv kind n A rest (k + 2) (ldlt_double n k p q st).2 sigma'.
Proof.
  intros Hp Hq Hinv Hact Ho Hpos Hd. destruct (ldlt_swap_code n A rest k k p st sigma dmax omax ltac:(lia) ltac:(lia) Hinv Hact) as (sigma1 & Hinv1 & Hint1 & Hact1).
  unfold ldlt_double. cbv zeta. set (st1 := ldlt_swap n k k p st) in *.
  destruct (ldlt_swap_code n A rest k (k + 1) q st1 sigma1 dmax omax ltac:(lia) ltac:(lia) Hinv1 Hact1) as (sigma2 & Hinv2 & Hint2 & Hact2).
  set (st2 := ldlt_swap n k (k + 1) q st1) in *.
  apply (settle_ok _ _ (fun st3 => exists sigma', ldlt_inv kind n A rest (k + 2) st3 sigma')).
  apply (double_code n k (ldlt_a st2) dmax omax); auto; [lia|apply Hinv2|apply Hinv2| |intros; cbn; solve_sticky|].
  - assert (swap_index (k + 1) q k = k /\ swap_index (k + 1) q (k + 1) = q /\ swap_index k p k = p /\ swap_index k p q = q) as (E1 & E2 & E3 & E4)
      by (unfold swap_index; split_and!; repeat case_decide; lia).
    rewrite Hint2 by lia. rewrite decide_True by lia. rewrite E1, E2. rewrite Hint1 by lia. rewrite decide_True by lia. by rewrite E3, E4.
  - intros b Hb. apply wp_ret. exists sigma2. apply ldlt_double_inv; auto; lia.
Qed.

(** One pass of the loop advances the column and keeps the invariant. *)
Lemma ldlt_step_inv n A rest k st sigma : (k < n)%nat -> ldlt_inv kind n A rest k st sigma -> (ldlt_step n alpha_value k st).1 = LINEARS_OK ->
  exists sigma', ldlt_inv kind n A rest (ldlt_step n alpha_value k st).2.1 (ldlt_step n alpha_value k st).2.2 sigma'.
Proof.
  intros Hk Hinv. pose proof (inv_range _ _ _ _ _ _ _ Hinv) as Ha. unfold ldlt_step. cbv zeta.
  destruct (status_ok (ldlt_search n k (ldlt_a st)).1) eqn:Es; cbn [negb]; [|intros E; cbn in E; by rewrite E in Es].
  apply status_ok_true in Es. destruct (ldlt_search_spec kind n k (ldlt_a st) Hk Ha Es) as [(Hd1 & (Hdr & Hd0) & Hd2 & Hd3) ((Hor & Ho0) & Ho2 & Ho3)].
  set (best := (ldlt_search n k (ldlt_a st)).2) in *. cbn [D_CMP D_ZERO fixed_arith]. rewrite !fcq_cmp_sign.
  destruct ((Z.sgn (diagonal_max best - 0) =? 0) && (Z.sgn (off_diagonal_max best - 0) =? 0)) eqn:Ez; [done|].
  assert (diagonal_max best <> 0 \/ off_diagonal_max best <> 0) as Hne by (apply andb_false_iff in Ez; destruct Ez as [Ez|Ez]; apply Z.eqb_neq in Ez; lia).
  destruct (status_ok (single_pivot alpha_value best).1) eqn:Ep; cbn [negb]; [|intros E; cbn in E; by rewrite E in Ep].
  apply status_ok_true in Ep. pose proof (single_pivot_spec kind best Hdr Hor Hd0 Ho0 Hne Ep) as Hchoice.
  assert (active_within n k (ldlt_a st) (diagonal_max best) (off_diagonal_max best)) as Hact.
  { split; [exact Hd3|]. intros i j Hi Hj Hij. destruct (Nat.lt_trichotomy i j) as [Hlt|[->|Hgt]]; [apply Ho3; lia|done|].
    rewrite (inv_symmetric _ _ _ _ _ _ _ Hinv) by done. apply Ho3; lia. }
  destruct (single_pivot alpha_value best).2; destruct Hchoice as [Hpos Hratio]; cbn [fst snd].
  - apply (ldlt_single_code n A rest k (diagonal_index best) st sigma (diagonal_max best) (off_diagonal_max best)); auto.
    destruct Hd2 as [E|E]; lia.
  - destruct Ho2 as [E|(H1 & H2 & E)]; [lia|].
    apply (ldlt_double_code n A rest k (off_p best) (off_q best) st sigma (diagonal_max best) (off_diagonal_max best)); auto; lia.
Qed.

(** Every pass advances, so the fuel of one per column suffices. *)
Lemma ldlt_step_advances n (alpha : Z) k st : (ldlt_step n alpha k st).1 = LINEARS_OK -> (k < (ldlt_step n alpha k st).2.1)%nat.
Proof.
  unfold ldlt_step. cbv zeta. destruct (status_ok (ldlt_search n k (ldlt_a st)).1) eqn:Es; cbn [negb]; [|intros E; cbn in E; by rewrite E in Es].
  case_if; [done|]. destruct (status_ok (single_pivot alpha (ldlt_search n k (ldlt_a st)).2).1) eqn:Ep; cbn [negb]; [|intros E2; cbn in E2; by rewrite E2 in Ep].
  destruct (single_pivot alpha _).2; cbn; lia.
Qed.

Lemma ldlt_loop_inv n A rest fuel k st sigma : (n <= k + fuel)%nat -> ldlt_inv kind n A rest k st sigma ->
  (ldlt_loop fuel n alpha_value k st).1 = LINEARS_OK -> exists sigma', ldlt_inv kind n A rest n (ldlt_loop fuel n alpha_value k st).2 sigma'.
Proof.
  revert k st sigma. induction fuel as [|fuel IH]; intros k st sigma Hn Hinv; cbn [ldlt_loop].
  - pose proof (inv_column _ _ _ _ _ _ _ Hinv). intros _. exists sigma. by replace n with k at 2 by lia.
  - destruct (Nat.ltb_spec k n) as [Hk|Hk].
    + destruct (status_ok (ldlt_step n alpha_value k st).1) eqn:Es; [|intros E; cbn in E; by rewrite E in Es].
      apply status_ok_true in Es. destruct (ldlt_step_inv n A rest k st sigma Hk Hinv Es) as [sigma' Hinv'].
      pose proof (ldlt_step_advances n alpha_value k st Es). intros E. apply (IH _ _ sigma'); [lia|done|done].
    + pose proof (inv_column _ _ _ _ _ _ _ Hinv). intros _. exists sigma. by replace n with k at 2 by lia.
Qed.

Lemma ldlt_factor_inv n A permutation blocks : length A = (n * n)%nat -> Forall is_i64 A -> (n <= length blocks)%nat ->
  (forall i j, (i < n)%nat -> (j < n)%nat -> at_index n A i j = at_index n A j i) ->
  (ldlt_factor A n permutation blocks).1 = LINEARS_OK ->
  exists sigma, ldlt_inv kind n A (drop n permutation) n (ldlt_factor A n permutation blocks).2 sigma.
Proof.
  intros Hl HA Hb Hsym. unfold ldlt_factor. rewrite ldlt_alpha_value. unfold require. cbn [fst snd status_ok].
  apply (ldlt_loop_inv n A _ n 0 _ (seq 0 n)); [lia|]. by apply ldlt_start.
Qed.

(** When the fixed-point LDLT factorization succeeds, on a symmetric matrix of any
    order, the row order is a permutation, the block marks tile the columns with 1-by-1
    and 2-by-2 pivots, D is symmetric, no multiplier exceeds three, and L D L^T is the
    symmetrically permuted input up to half a unit and, for entries of D of at most one
    and of L of at most [lambda], six times [lambda] units per column. *)
Theorem ldlt_refines n A permutation blocks :
  length A = (n * n)%nat -> Forall is_i64 A -> (n <= length blocks)%nat ->
  (forall i j, (i < n)%nat -> (j < n)%nat -> at_index n A i j = at_index n A j i) ->
  (ldlt_factor A n permutation blocks).1 = LINEARS_OK ->
  let st := (ldlt_factor A n permutation blocks).2 in
  let L := factor_l n (ldlt_a st) (ldlt_blocks st) in
  let D := factor_d n (ldlt_a st) (ldlt_blocks st) in
  exists sigma, ldlt_permutation st = sigma ++ drop n permutation /\ sigma ≡ₚ seq 0 n /\ tiling (ldlt_blocks st) n /\
    (forall t s, (t < n)%nat -> (s < n)%nat -> D t s = D s t) /\
    (forall i t, (i < n)%nat -> (t < n)%nat -> Z.abs (L i t) <= 3 * LINEARS_FIXED_ONE) /\
    forall lambda bound, LINEARS_FIXED_ONE <= lambda -> factors_within kind n n (ldlt_a st) (ldlt_blocks st) lambda bound ->
      forall i j, (i < n)%nat -> (j < n)%nat ->
      2 * Z.abs (LINEARS_FIXED_ONE * LINEARS_FIXED_ONE * at_index n A (nth i sigma 0%nat) (nth j sigma 0%nat) - triple n L D i j)
        <= Z.of_nat n * column_error lambda bound.
Proof.
  intros Hl HA Hb Hsym E. cbv zeta. destruct (ldlt_factor_inv n A permutation blocks Hl HA Hb Hsym E) as [sigma Hinv].
  exists sigma. split; [apply Hinv|]. split; [apply Hinv|]. split; [apply Hinv|]. split; [apply Hinv|]. split; [apply Hinv|].
  intros lambda bound Hlam Hw i j Hi Hj. pose proof (inv_backward _ _ _ _ _ _ _ Hinv lambda bound Hlam Hw i j Hi Hj) as H.
  unfold backward, in_active in H. rewrite (proj2 (Nat.leb_gt n i)) in H by done. cbn [andb] in H. by rewrite Z.sub_0_r in H.
Qed.

(** ** The preflight and the stored factors *)

Lemma nth_grid {X} n (f : nat -> nat -> X) i j d : (i < n)%nat -> (j < n)%nat -> nth (i * n + j) (grid n f) d = f i j.
Proof.
  intros Hi Hj. unfold grid. assert (forall m from, (i < m)%nat -> nth (i * n + j) (concat (map (fun r => map (f r) (seq 0 n)) (seq from m))) d = f (from + i)%nat j) as H; [|by rewrite (H n 0%nat)].
  clear Hi. induction i as [|i IH]; intros m from Hm; (destruct m as [|m]; [lia|]); cbn [seq map concat].
  - rewrite app_nth1 by (rewrite length_map, length_seq; lia). cbn [Nat.mul Nat.add].
    rewrite (nth_indep _ d (f from 0%nat)) by (rewrite length_map, length_seq; lia). rewrite map_nth, seq_nth by done. by rewrite Nat.add_0_r.
  - rewrite app_nth2 by (rewrite length_map, length_seq; lia). rewrite length_map, length_seq.
    replace (S i * n + j - n)%nat with (i * n + j)%nat by lia. rewrite IH by lia. by rewrite Nat.add_succ_comm.
Qed.

Lemma length_grid {X} n (f : nat -> nat -> X) : length (grid n f) = (n * n)%nat.
Proof.
  unfold grid. assert (forall m from, length (concat (map (fun r => map (f r) (seq 0 n)) (seq from m))) = (m * n)%nat) as H; [|apply H].
  induction m as [|m IH]; intros from; cbn [seq map concat]; [done|]. rewrite length_app, IH, length_map, length_seq. lia.
Qed.

(** Extrema over the entries that a scan picks. *)
Lemma scan_bounds n a (pick : nat -> nat -> bool) l lo hi :
  let bounds := foldl (fun bounds (ij : nat * nat) => if pick ij.1 ij.2 then extrema (at_index n a ij.1 ij.2) bounds else bounds) (lo, hi) l in
  bounds.1 <= lo /\ hi <= bounds.2 /\ forall i j, (i, j) ∈ l -> pick i j = true -> bounds.1 <= at_index n a i j <= bounds.2.
Proof.
  revert lo hi. induction l as [|[i j] l IH]; intros lo hi; cbn [foldl fst snd]; [split; [cbn; lia|]; split; [cbn; lia|]; intros i j H; by apply not_elem_of_nil in H|].
  destruct (pick i j) eqn:Ep.
  - unfold extrema at 2 4 6 8. cbn [fst snd D_CMP fixed_arith]. rewrite !fcq_cmp_sign.
    match goal with |- context [foldl _ (?x, ?y) l] => destruct (IH x y) as (H1 & H2 & H3) end. cbv zeta in *. set (bounds := foldl _ _ l) in *.
    assert (bounds.1 <= Z.min (at_index n a i j) lo /\ Z.max (at_index n a i j) hi <= bounds.2) as [Hlo Hhi] by (repeat case_if_in H1; repeat case_if_in H2; lia).
    split; [lia|]. split; [lia|]. intros i' j' Hin Hp. apply elem_of_cons in Hin as [E|Hin]; [injection E as -> ->; lia|by apply H3].
  - destruct (IH lo hi) as (H1 & H2 & H3). cbv zeta in *. split; [done|]. split; [done|].
    intros i' j' Hin Hp. apply elem_of_cons in Hin as [E|Hin]; [injection E as -> ->; congruence|by apply H3].
Qed.

Lemma lower_entries n i j : (j <= i < n)%nat -> (i, j) ∈ concat (map (fun i => (i, i) :: map (pair i) (seq 0 i)) (seq 0 n)).
Proof.
  intros Hij. apply list_elem_of_In, in_concat. exists ((i, i) :: map (pair i) (seq 0 i)). split.
  - apply (in_map (fun i => (i, i) :: map (pair i) (seq 0 i))), in_seq. lia.
  - destruct (decide (i = j)) as [->|]; [by left|right]. apply (in_map (pair i)), in_seq. lia.
Qed.
End Ldlt.

(** ** The q15 and q31 entry points *)

Section Signals.
Variable f : q_format.
Let kind : numeric_kind := match f with Q15 => Matrix.Q15 | Q31 => Matrix.Q31 end.
#[local] Hint Extern 0 (DArith _ Z) => exact (fixed_arith kind) : typeclass_instances.
#[local] Hint Extern 0 (DArith Z _) => exact (fixed_arith kind) : typeclass_instances.
#[local] Hint Extern 0 (DBlock Z) => exact fixed_block : typeclass_instances.

Lemma output_bounds_unit lo hi : fixed_output_bounds kind lo hi = LINEARS_OK -> - LINEARS_FIXED_ONE <= lo /\ hi <= LINEARS_FIXED_ONE.
Proof.
  unfold fixed_output_bounds. replace (match kind with WORK => _ | _ => _ end) with
    (if (lo <? - LINEARS_FIXED_ONE) || (hi >? LINEARS_FIXED_ONE) then LINEARS_ERROR_RANGE else LINEARS_OK) by (unfold kind; by destruct f).
  case_if; [done|]. intros _. lia.
Qed.

(** The preflight bounds every entry of both factors by one. *)
Lemma ldlt_bounds_unit n (a blocks : list Z) : ldlt_bounds n a blocks = LINEARS_OK ->
  (forall i j, (i < n)%nat -> (j < n)%nat -> factor_d n a blocks i j = factor_d n a blocks j i) ->
  factors_within kind n n a blocks LINEARS_FIXED_ONE LINEARS_FIXED_ONE.
Proof.
  unfold ldlt_bounds. cbv zeta. set (lower := concat _). intros E Hsym. pose proof (first_error_ok _ E) as Hall. clear E.
  pose proof (scan_bounds kind n a (fun i j => negb ((i =? j)%nat || in_block blocks i j)) lower D_ZERO (if (n =? 0)%nat then D_ZERO else D_ONE)) as (_ & _ & Hl).
  pose proof (scan_bounds kind n a (fun i j => (i =? j)%nat || in_block blocks i j) lower D_ZERO D_ZERO) as (_ & _ & Hd).
  cbv zeta in *. pose proof (output_bounds_unit _ _ (Hall _ (or_introl eq_refl))) as [Hl1 Hl2].
  pose proof (output_bounds_unit _ _ (Hall _ (or_intror (or_introl eq_refl)))) as [Hd1 Hd2]. clear Hall.
  assert (forall i j, (j <= i < n)%nat -> Z.abs (factor_d n a blocks i j) <= LINEARS_FIXED_ONE) as Hlow.
  { intros i j Hij. specialize (Hd i j (lower_entries n i j Hij)). unfold factor_d.
    destruct (Nat.eqb_spec i j) as [->|Hne]; [specialize (Hd eq_refl); lia|]. rewrite (proj2 (Nat.ltb_lt j i)) by lia.
    destruct (in_block blocks i j); [specialize (Hd eq_refl); lia|done]. }
  split.
  - intros i t Hi Ht. unfold factor_l. destruct (Nat.eqb_spec i t) as [->|Hne]; [done|]. destruct (Nat.ltb_spec t i) as [Hti|]; cbn [andb]; [|done].
    specialize (Hl i t (lower_entries n i t ltac:(lia))). rewrite (proj2 (Nat.eqb_neq i t)) in Hl by lia. cbn [orb] in Hl.
    destruct (in_block blocks i t); cbn [negb] in *; [done|]. specialize (Hl eq_refl). lia.
  - intros t s Ht Hs. destruct (Nat.le_gt_cases s t); [apply Hlow; lia|]. rewrite Hsym by done. apply Hlow. lia.
Qed.

(** A committed grid of signals. *)
Lemma commit_grid n (m : operand Z) (g : nat -> nat -> Z) : (forall i j, (i < n)%nat -> (j < n)%nat -> is_i64 (g i j) /\ Z.abs (g i j) <= LINEARS_FIXED_ONE) ->
  let out := commit m (grid n (fun i j => D_STORE (g i j))) in
  descriptor out = descriptor m /\ drop (n * n) (elements out) = drop (n * n) (elements m) /\
  forall i j, (i < n)%nat -> (j < n)%nat -> element_at n out i j = q_round f (g i j).
Proof.
  intros Hg. cbv zeta. unfold commit, overwrite. cbn [descriptor elements]. split; [done|]. rewrite length_grid. split.
  - by rewrite drop_app_length' by (by rewrite length_grid).
  - intros i j Hi Hj. unfold element_at. cbn [elements]. rewrite app_nth1 by (rewrite length_grid; by apply cell_lt).
    rewrite nth_grid by done. destruct (Hg i j Hi Hj) as [Hr Hb]. apply (quantize_round f); [done|]. unfold in_unit_interval. zbool. lia.
Qed.

Lemma ldlt_factor_blocks n (A : list Z) permutation blocks sigma rest :
  ldlt_inv kind n A rest n (ldlt_factor A n permutation blocks).2 sigma -> Forall is_i64 (ldlt_a (ldlt_factor A n permutation blocks).2).
Proof. apply inv_range. Qed.

Lemma factor_range n (a blocks : list Z) i j : Forall is_i64 a -> is_i64 (factor_l n a blocks i j) /\ is_i64 (factor_d n a blocks i j).
Proof.
  intros Ha. unfold factor_l, factor_d. assert (is_i64 0 /\ is_i64 LINEARS_FIXED_ONE) as [H0 H1] by (unfold LINEARS_FIXED_ONE; split; rlia).
  split; repeat case_if; try done; by apply (at_range kind).
Qed.

(** C12. A successful q15 or q31 LDLT call had an exactly symmetric input, keeps both output
    descriptors and everything behind the n * n elements, and returns a permutation of
    the rows, marks that tile the columns with 1-by-1 and 2-by-2 pivots, and the elements,
    each rounded once, of F31 factors within [-1, 1]: L has a unit diagonal and a zero
    upper triangle, D is symmetric and zero outside the blocks, and L D L^T is the
    symmetrically permuted input within 13/2 units of 2^-31 per column. *)
Theorem linears_ldlt_spec (target : decomp_abi) (a l d : operand Z) (permutation : metadata (list nat)) (permutation_capacity : Z)
    (blocks : metadata (list Z)) (blocks_capacity : Z) (w : workspace) :
  signals_ok f a -> 0 <= SIZE_MAX (base_abi target) ->
  blocks_capacity <= Z.of_nat (length (contents blocks)) ->
  (linears_ldlt target a l d permutation permutation_capacity blocks blocks_capacity w).1 = LINEARS_OK ->
  let n := Z.to_nat (rows (descriptor a)) in
  let '(out_l, out_d, out_permutation, out_blocks) :=
    (linears_ldlt target a l d permutation permutation_capacity blocks blocks_capacity w).2 in
  (descriptor out_l = descriptor l /\ drop (n * n) (elements out_l) = drop (n * n) (elements l)) /\
  (descriptor out_d = descriptor d /\ drop (n * n) (elements out_d) = drop (n * n) (elements d)) /\
  (forall i j, (i < n)%nat -> (j < n)%nat -> element_at n a i j = element_at n a j i) /\
  tiling (contents out_blocks) n /\
  exists sigma (L D : nat -> nat -> Z), contents out_permutation = sigma ++ drop n (contents permutation) /\ sigma ≡ₚ seq 0 n /\
    (forall i j, (i < n)%nat -> (j < n)%nat ->
       (Z.abs (L i j) <= LINEARS_FIXED_ONE /\ element_at n out_l i j = q_round f (L i j)) /\
       (Z.abs (D i j) <= LINEARS_FIXED_ONE /\ element_at n out_d i j = q_round f (D i j)) /\
       ((i < j)%nat -> L i j = 0) /\ L i i = LINEARS_FIXED_ONE /\ D i j = D j i /\
       ((j < i)%nat -> in_block (contents out_blocks) i j = false -> D i j = 0) /\
       2 * Z.abs (LINEARS_FIXED_ONE * LINEARS_FIXED_ONE * field_at f n a (nth i sigma 0%nat) (nth j sigma 0%nat) - triple n L D i j)
         <= 13 * (Z.of_nat n * (LINEARS_FIXED_ONE * LINEARS_FIXED_ONE))).
Proof.
  intros Ha HS Hbl Eok. cbv zeta. destruct (linears_ldlt _ _ _ _ _ _ _ _ _) as [s out] eqn:E. cbn [fst] in Eok. subst s. cbn [snd].
  unfold linears_ldlt in E. apply require_ok in E as [_ E]. cbv zeta in E.
  destruct (square _ _) eqn:Esq; cbn [negb] in E; [|done]. cbn in Esq. zbool. subst.
  apply require_ok in E as [Ev E]. apply validate_required in Ev. destruct (_ || _) eqn:Ecap in E; [done|]. zbool.
  apply require_ok in E as [_ E]. apply require_ok in E as [_ E]. destruct (linears_decomp_overlap _ _ _ _ _) in E; [done|].
  apply require_ok in E as [Ei E]. apply require_ok in E as [Es E]. apply require_ok in E as [Ef E]. apply require_ok in E as [Eb E].
  set (n := Z.to_nat (rows (descriptor a))) in *.
  destruct (import_square f target a _ Ha HS ltac:(done) eq_refl Ev Ei) as (EA & Hl & HA). fold n in Hl.
  set (A := (import a _).2) in *.
  assert (forall i j, (i < n)%nat -> (j < n)%nat -> at_index n A i j = at_index n A j i) as Hsym by (apply (check_symmetric_ok f); done).
  destruct (ldlt_factor_inv kind n A (contents permutation) (contents blocks) Hl HA ltac:(lia) Hsym Ef) as [sigma Hinv].
  set (st := (ldlt_factor A n (contents permutation) (contents blocks)).2) in *.
  pose proof (ldlt_bounds_unit n (ldlt_a st) (ldlt_blocks st) Eb (inv_block_symmetric _ _ _ _ _ _ _ Hinv)) as Hunit.
  pose proof (inv_backward _ _ _ _ _ _ _ Hinv LINEARS_FIXED_ONE LINEARS_FIXED_ONE ltac:(done) Hunit) as Hback.
  pose proof (factor_range n (ldlt_a st) (ldlt_blocks st)) as Hrange. pose proof (inv_range _ _ _ _ _ _ _ Hinv) as Hr64.
  destruct Hunit as [HL HD].
  destruct (commit_grid n l (factor_l n (ldlt_a st) (ldlt_blocks st))) as (Hl1 & Hl2 & Hl3); [intros i j Hi Hj; split; [by apply Hrange|by apply HL]|].
  destruct (commit_grid n d (factor_d n (ldlt_a st) (ldlt_blocks st))) as (Hd1 & Hd2 & Hd3); [intros i j Hi Hj; split; [by apply Hrange|by apply HD]|].
  apply (f_equal snd) in E. cbn [snd] in E. subst out. cbn [contents]. split; [exact (conj Hl1 Hl2)|]. split; [exact (conj Hd1 Hd2)|]. split.
  { intros i j Hi Hj. specialize (Hsym i j Hi Hj). rewrite EA, !(at_import f) in Hsym. by apply (field_at_inj f). }
  split; [apply Hinv|]. exists sigma, (factor_l n (ldlt_a st) (ldlt_blocks st)), (factor_d n (ldlt_a st) (ldlt_blocks st)).
  split; [apply Hinv|]. split; [apply Hinv|]. intros i j Hi Hj.
  split; [split; [by apply HL|by apply Hl3]|]. split; [split; [by apply HD|by apply Hd3]|].
  split; [apply factor_l_above|]. split; [apply factor_l_unit|]. split; [by apply (inv_block_symmetric _ _ _ _ _ _ _ Hinv)|]. split.
  - intros Hij Hb. unfold factor_d. rewrite (proj2 (Nat.eqb_neq i j)), (proj2 (Nat.ltb_lt j i)) by lia. by rewrite Hb.
  - specialize (Hback i j Hi Hj). unfold backward, in_active in Hback. rewrite (proj2 (Nat.leb_gt n i)) in Hback by done. cbn [andb] in Hback.
    rewrite Z.sub_0_r, EA, (at_import f) in Hback. unfold column_error in Hback. lia.
Qed.
End Signals.

(** An indefinite matrix that needs a 2-by-2 pivot, and a trailing 1-by-1 one. *)
Lemma ldlt_refines_witness :
  let A := [100000; 1073741824; 5000000; 1073741824; 0; 800000000; 5000000; 800000000; 1000] in
  let st := (@ldlt_factor Z Z (fixed_arith Matrix.Q31) fixed_block A 3 [0; 0; 0]%nat [0; 0; 0]).2 in
  (ldlt_blocks st = [2; 0; 1] /\ ldlt_a st = [100000; 1073741824; 5000000; 1073741824; 0; 800000000; 1600000000; 9850988; -7394069]) /\
  exists sigma, ldlt_permutation st = sigma ++ [] /\ sigma ≡ₚ seq 0 3.
Proof.
  split; [split; vm_compute; reflexivity|].
  destruct (ldlt_refines Matrix.Q31 3 [100000; 1073741824; 5000000; 1073741824; 0; 800000000; 5000000; 800000000; 1000] [0; 0; 0]%nat [0; 0; 0])
    as (sigma & H1 & H2 & _).
  - reflexivity.
  - repeat constructor; rlia.
  - cbn. lia.
  - intros i j Hi Hj. destruct i as [|[|[|]]]; try lia; destruct j as [|[|[|]]]; try lia; reflexivity.
  - vm_compute. reflexivity.
  - exists sigma. by split.
Defined.

Definition ldlt_call : linears_status_t * ldlt_result :=
  @linears_ldlt Z Z (fixed_arith Matrix.Q15) fixed_block rv32 (sample_matrix 256 1024 [0; 16384; 16384; 0])
    (sample_matrix 320 2048 [1; 2; 3; 4; 5]) (sample_matrix 384 2560 [1; 2; 3; 4; 5])
    (mk_metadata 3072 [7; 7; 7]%nat) 3 (mk_metadata 3328 [9; 9; 9]) 3 sample_space.

Lemma linears_ldlt_spec_witness :
  (elements ldlt_call.2.1.1.1 = [32767; 0; 0; 32767; 5] /\ elements ldlt_call.2.1.1.2 = [0; 16384; 16384; 0; 5] /\ contents ldlt_call.2.2 = [2; 0; 9]) /\
  tiling (contents ldlt_call.2.2) 2.
Proof.
  split; [vm_compute; split_and!; reflexivity|].
  assert (forall r : linears_status_t * ldlt_result, r = ldlt_call -> r.1 = LINEARS_OK /\ rows (descriptor (sample_matrix 256 1024 [0; 16384; 16384; 0])) = 2) as Hok
    by (intros r ->; split; vm_compute; reflexivity).
  pose proof (linears_ldlt_spec Q15 rv32 (sample_matrix 256 1024 [0; 16384; 16384; 0]) (sample_matrix 320 2048 [1; 2; 3; 4; 5])
    (sample_matrix 384 2560 [1; 2; 3; 4; 5]) (mk_metadata 3072 [7; 7; 7]%nat) 3 (mk_metadata 3328 [9; 9; 9]) 3 sample_space) as H.
  match type of H with _ -> _ -> _ -> ?r.1 = _ -> _ => specialize (Hok r eq_refl) end.
  specialize (H ltac:(split; [done|]; split; [done|]; split; [done|]; repeat constructor; rlia) ltac:(done) ltac:(done) (proj1 Hok)).
  match type of H with let _ := _ in match ?r.2 with _ => _ end => change r with ldlt_call in H end.
  destruct ldlt_call as [s [[[ol od] op] ob]]. cbn [fst snd] in *. apply H.
Defined.
