(* ===== verification/Qr.v ===== *)
(** * Householder QR: decomp_qr.inc

    The scaled norm of decomp_template.h, the reflectors of decomp_qr.inc and the
    entry point, over the interfaces of Decomp.v and Ldlt.v and the expressions
    that the code selects by D_FIXED.  [r_work] and [q_work] are two arrays, the
    reflector a third one. *)
From Stdlib Require Import SpecFloat.
From S2P Require Import Prelude MachineInt Status Wide Numeric Memory Float Matrix FcMonad Cordic FcFloat Decomp Ldlt.

(** ** Sums of products *)

Class DOrtho (W : Type) := {
  D_FIXED : bool;
  D_EPSILON : W;
  (** The sum of [count] products whose factors are computed in the loop. *)
  D_SUM : nat -> (nat -> fc (W * W)) -> fc W;
  (** [cosine * p - sine * q] and [sine * p + cosine * q] *)
  D_ROTATE : W -> W -> W -> W -> fc (W * W);
}.

Definition fixed_sum (count : nat) (factors : nat -> fc (Z * Z)) : fc Z :=
  accumulator ← for_fc 0 count (fun i accumulator =>
    product ← factors i;
    accum_call (linears_fixed_mac (Some accumulator) product.1 product.2) accumulator) (mk_accum 0 0);
  fcq_call (linears_accum_to_fixed accumulator).

Definition fixed_rotate (cosine sine p q : Z) : fc (Z * Z) :=
  first ← accum_call (linears_fixed_mac (Some (mk_accum 0 0)) cosine p) (mk_accum 0 0);
  first ← accum_call (linears_fixed_msu (Some first) sine q) first;
  second ← accum_call (linears_fixed_mac (Some (mk_accum 0 0)) sine p) (mk_accum 0 0);
  second ← accum_call (linears_fixed_mac (Some second) cosine q) second;
  new_p ← fcq_call (linears_accum_to_fixed first);
  new_q ← fcq_call (linears_accum_to_fixed second);
  mret (new_p, new_q).

Definition fixed_ortho : DOrtho Z := {|
  D_FIXED := true;
  D_EPSILON := 1;
  D_SUM := fixed_sum;
  D_ROTATE := fixed_rotate;
|}.

Section NativeOrtho.
Variable kind : numeric_kind.

Definition native_sum (count : nat) (factors : nat -> fc (spec_float * spec_float)) : fc spec_float :=
  for_fc 0 count (fun i sum =>
    factor ← factors i;
    product ← native_adapter (fmul (kind_format kind) factor.1 factor.2);
    native_adapter (fadd (kind_format kind) sum product)) fzero.

Definition native_rotate (cosine sine p q : spec_float) : fc (spec_float * spec_float) :=
  cp ← native_adapter (fmul (kind_format kind) cosine p);
  sq ← native_adapter (fmul (kind_format kind) sine q);
  sp ← native_adapter (fmul (kind_format kind) sine p);
  cq ← native_adapter (fmul (kind_format kind) cosine q);
  new_p ← native_adapter (fsub (kind_format kind) cp sq);
  new_q ← native_adapter (fadd (kind_format kind) sp cq);
  mret (new_p, new_q).

(** FLT_EPSILON, DBL_EPSILON: the step above one. *)
Definition native_epsilon : spec_float := LDEXP (kind_format kind) (fone (kind_format kind)) (1 - prec (kind_format kind)).

Definition native_ortho : DOrtho spec_float := {|
  D_FIXED := false;
  D_EPSILON := native_epsilon;
  D_SUM := native_sum;
  D_ROTATE := native_rotate;
|}.
End NativeOrtho.

Section Qr.
Context {R W : Type} `{DArith R W} `{DBlock W} `{DOrtho W} (target : decomp_abi).

(** The largest magnitude among [count] values, zero at least. *)
Definition largest_magnitude (count : nat) (values : nat -> W) : fc W :=
  for_fc 0 count (fun i maximum =>
    magnitude ← D_ABS (values i);
    mret (if 0 <? D_CMP magnitude maximum then magnitude else maximum)) D_ZERO.

(** The rest of a function that returns [d] under an error status. *)
Definition unless_failed {A} (d : A) (rest : fc A) : fc A := fun s => if status_ok s then rest s else Next d s.

(** D_LOCAL(norm) *)
Definition norm_of (count : nat) (values : nat -> W) : fc W :=
  maximum ← largest_magnitude count values;
  unless_failed D_ZERO (
  if D_CMP maximum D_ZERO =? 0 then mret D_ZERO
  else
    sum ← D_SUM count (fun i => ratio ← D_DIV (values i) maximum; mret (ratio, ratio));
    root ← D_SQRT sum;
    D_MUL maximum root).

(** The values of an array's cells from [from], each computed in order. *)
Definition compute_cells (from count : nat) (value : nat -> fc W) (v : list W) : fc (list W) :=
  for_fc from count (fun i v => x ← value i; mret (<[i := x]> v)) v.
Definition cell (v : list W) (i : nat) : W := nth i v D_ZERO.

(** The norm of column [k] of an m-by-n array from row [k], and its unit direction in
    [v]; [None] for a zero column. *)
Definition qr_direction (m n k : nat) (r v : list W) : fc (option (W * list W)) :=
  let column i := at_index n r (k + i) k in
  if D_FIXED then
    maximum ← largest_magnitude (m - k) column;
    unless_failed None (
    if D_CMP maximum D_ZERO =? 0 then mret None
    else
      v ← compute_cells k (m - k) (fun i => D_DIV (at_index n r i k) maximum) v;
      norm ← norm_of (m - k) (fun i => cell v (k + i));
      v ← for_fc k (m - k) (fun i v => x ← D_DIV (cell v i) norm; mret (<[i := x]> v)) v;
      norm ← D_MUL maximum norm;
      mret (Some (norm, v)))
  else
    norm ← norm_of (m - k) column;
    unless_failed None (
    if D_CMP norm D_ZERO =? 0 then mret None
    else
      v ← compute_cells k (m - k) (fun i => D_DIV (at_index n r i k) norm) v;
      mret (Some (norm, v))).

(** The normalized reflector, the new diagonal element and the constant two. *)
Definition qr_reflector (m k : nat) (norm : W) (v : list W) : fc (list W * W * W) :=
  shifted ← (if D_CMP (cell v k) D_ZERO <? 0
             then (x ← D_SUB (cell v k) D_ONE; mret (<[k := x]> v, norm))
             else (x ← D_ADD (cell v k) D_ONE; diagonal ← D_NEG norm; mret (<[k := x]> v, diagonal)));
  v_norm ← norm_of (m - k) (fun i => cell shifted.1 (k + i));
  v ← for_fc k (m - k) (fun i v => x ← D_DIV (cell v i) v_norm; mret (<[i := x]> v)) shifted.1;
  two ← D_CONST 2;
  mret (v, shifted.2, two).

(** H applied to column [j], scaled by its largest magnitude. *)
Definition qr_apply_column (m n k : nat) (v : list W) (two : W) (j : nat) (r : list W) : fc (list W) :=
  maximum ← largest_magnitude (m - k) (fun i => at_index n r (k + i) j);
  if D_CMP maximum D_ZERO =? 0 then mret r
  else
    dot ← D_SUM (m - k) (fun i => ratio ← D_DIV (at_index n r (k + i) j) maximum; mret (cell v (k + i), ratio));
    dot ← D_MUL two dot;
    for_fc k (m - k) (fun i r =>
      ratio ← D_DIV (at_index n r i j) maximum;
      ratio ← D_SUB_PRODUCT ratio (cell v i) dot;
      x ← D_MUL ratio maximum;
      mret (set_index n i j x r)) r.

(** Row [i] of Q times H. *)
Definition qr_apply_row (m k : nat) (v : list W) (two : W) (i : nat) (q : list W) : fc (list W) :=
  dot ← D_SUM (m - k) (fun t => mret (at_index m q i (k + t), cell v (k + t)));
  dot ← D_MUL two dot;
  for_fc k (m - k) (fun j q =>
    x ← D_SUB_PRODUCT (at_index m q i j) dot (cell v j);
    mret (set_index m i j x q)) q.

Record qr_state := mk_qr { qr_r : list W; qr_q : list W; qr_v : list W }.

(** The elements below the diagonal of column [k]. *)
Definition clear_column (m n k : nat) (r : list W) : list W :=
  for_up (k + 1) (m - (k + 1)) (fun i r => set_index n i k D_ZERO r) r.

Definition qr_column (m n k : nat) (st : qr_state) : linears_status_t * qr_state :=
  let direction := settle (qr_direction m n k (qr_r st) (qr_v st)) None in
  if negb (status_ok direction.1) then (direction.1, st)
  else match direction.2 with
  | None => (LINEARS_OK, st)
  | Some (norm, v) =>
      let reflector := settle (qr_reflector m k norm v) (v, D_ZERO, D_ZERO) in
      let '(v, diagonal, two) := reflector.2 in
      if negb (status_ok reflector.1) then (reflector.1, st)
      else settle (r ← for_fc (k + 1) (n - (k + 1)) (qr_apply_column m n k v two) (qr_r st);
                   let r := clear_column m n k (set_index n k k diagonal r) in
                   q ← for_fc 0 m (qr_apply_row m k v two) (qr_q st);
                   mret (mk_qr r q v)) st
  end.

Definition qr_factor (m n : nat) (st : qr_state) : linears_status_t * qr_state :=
  for_status 0 (Nat.min m n) (qr_column m n) st.

Definition LINEARS_QR_WORKSPACE (m n : Z) : Z :=
  LINEARS_SIZE_ADD target (LINEARS_SIZE_ADD target (LINEARS_SIZE_MUL target m n) (LINEARS_SIZE_MUL target m m)) m.

Definition identity (n : nat) : list W := grid n (fun i j => if (i =? j)%nat then D_ONE else D_ZERO).

Definition linears_qr (a q r : operand R) (w : workspace) : linears_status_t * (operand R * operand R) :=
  let old := (q, r) in
  let matrices := [a; q; r] in
  require (descriptors target (map descriptor matrices)) old (
  let m := rows (descriptor a) in
  let n := cols (descriptor a) in
  if negb (rows (descriptor q) =? m) || negb (cols (descriptor q) =? m) ||
     negb (rows (descriptor r) =? m) || negb (cols (descriptor r) =? n) then (LINEARS_ERROR_DIMENSION, old)
  else
    require (validate target matrices 1 w (LINEARS_QR_WORKSPACE m n)) old (
    if m =? 0 then (LINEARS_OK, old)
    else
      let m := Z.to_nat m in
      let n := Z.to_nat n in
      let work := import a (m * n) in
      require work.1 old (
      let f := qr_factor m n (mk_qr work.2 (identity m) (repeat D_ZERO m)) in
      require f.1 old (
      require (check_block (qr_q f.2)) old (
      require (check_block (qr_r f.2)) old (
      (LINEARS_OK, (commit q (store_block (qr_q f.2)), commit r (store_block (qr_r f.2)))))))))).
End Qr.
