(* ===== verification/Svd.v ===== *)
(** * One-sided Jacobi SVD: decomp_svd_template.inc

    Column correlations and rotations, the bounded sweeps, the selection sort that
    keeps the factors paired, the completion of zero columns, and the entry point.
    The local [status] of the factorization is threaded as the code threads it: an
    assignment replaces it, an operation under an error leaves it. *)
From Stdlib Require Import SpecFloat.
From S2P Require Import Prelude MachineInt Status Wide Numeric Memory Float Matrix FcMonad Cordic FcFloat Decomp Ldlt Qr.

Section Svd.
Context {R W : Type} `{DArith R W} `{DBlock W} `{DOrtho W} (target : decomp_abi).
Implicit Types (b w norms : list W).

(** A computation that starts from the current status. *)
Definition resume {A} (s : linears_status_t) (m : fc A) (d : A) : linears_status_t * A :=
  match m s with Next a s => (s, a) | Return s => (s, d) end.

(** D_LOCAL(svd_correlation): the cosine of the angle of columns [p] and [q]. *)
Definition svd_correlation b (rows columns p q : nat) (norm_p norm_q : W) : fc W :=
  D_SUM rows (fun row =>
    left ← D_DIV (at_index columns b row p) norm_p;
    right ← D_DIV (at_index columns b row q) norm_q;
    mret (left, right)).

Definition svd_rotation (norm_p norm_q correlation : W) : fc (W * W) :=
  let scale := if 0 <? D_CMP norm_p norm_q then norm_p else norm_q in
  p ← D_DIV norm_p scale;
  q ← D_DIV norm_q scale;
  alpha ← D_MUL p p;
  beta ← D_MUL q q;
  delta ← D_SUB beta alpha;
  gamma ← D_MUL p q;
  two ← D_CONST 2;
  gamma ← D_MUL gamma correlation;
  gamma ← D_MUL two gamma;
  abs_delta ← D_ABS delta;
  abs_gamma ← D_ABS gamma;
  let h := if 0 <? D_CMP abs_delta abs_gamma then abs_delta else abs_gamma in
  unless_failed (D_ZERO, D_ZERO) (
  p ← D_DIV delta h;
  q ← D_DIV gamma h;
  alpha ← D_MUL p p;
  beta ← D_MUL q q;
  t ← D_ADD alpha beta;
  t ← D_SQRT t;
  t ← D_MUL h t;
  t ← D_ADD abs_delta t;
  t ← D_DIV abs_gamma t;
  t ← (if xorb (D_CMP delta D_ZERO <? 0) (D_CMP correlation D_ZERO <? 0) then D_NEG t else mret t);
  c ← D_MUL t t;
  c ← D_ADD D_ONE c;
  c ← D_SQRT c;
  c ← D_DIV D_ONE c;
  s ← D_MUL t c;
  mret (c, s)).

(** The rotated array, and whether any element changed. *)
Definition svd_rotate_columns b (rows columns p q : nat) (cosine sine : W) : fc (list W * bool) :=
  for_fc 0 rows (fun row st =>
    let old_p := at_index columns st.1 row p in
    let old_q := at_index columns st.1 row q in
    new ← D_ROTATE cosine sine old_p old_q;
    let b := set_index columns row q new.2 (set_index columns row p new.1 st.1) in
    mret (b, st.2 || negb (D_CMP (at_index columns b row p) old_p =? 0) || negb (D_CMP (at_index columns b row q) old_q =? 0)))
    (b, false).

(** ** Completion of a zero column *)

Definition set_column (rows columns column : nat) (value : nat -> W) b : list W :=
  for_up 0 rows (fun row b => set_index columns row column (value row) b) b.

(** One projection of the modified Gram-Schmidt pass. *)
Definition svd_project (rows columns column previous : nat) b : fc (list W) :=
  projection ← D_SUM rows (fun row => mret (at_index columns b row previous, at_index columns b row column));
  for_fc 0 rows (fun row b =>
    x ← D_SUB_PRODUCT (at_index columns b row column) projection (at_index columns b row previous);
    mret (set_index columns row column x b)) b.

Definition svd_divide_column (rows columns column : nat) (divisor : W) b : fc (list W) :=
  for_fc 0 rows (fun row b =>
    x ← D_DIV (at_index columns b row column) divisor; mret (set_index columns row column x b)) b.

Definition minimum_norm (rows : nat) : fc W :=
  dimension ← D_CONST (i64 (Z.of_nat rows));
  two ← D_CONST 2;
  dimension ← D_SQRT dimension;
  dimension ← D_MUL two dimension;
  D_DIV D_ONE dimension.

Definition column_norm (rows columns column : nat) b : fc W := norm_of rows (fun row => at_index columns b row column).

(** D_LOCAL(svd_complete_column), over the coordinates still to try. *)
Fixpoint svd_try_coordinates (rows columns column : nat) (minimum : linears_status_t * W) (coordinates : list nat) b
    : linears_status_t * list W :=
  match coordinates with
  | [] => (LINEARS_ERROR_NO_CONVERGENCE, b)
  | coordinate :: rest =>
      let unit := set_column rows columns column (fun row => if (row =? coordinate)%nat then D_ONE else D_ZERO) b in
      let orthogonal := resume minimum.1 (for_fc 0 2 (fun _ => for_fc 0 column (svd_project rows columns column)) unit) unit in
      if negb (status_ok orthogonal.1) then orthogonal
      else
        let norm := settle (column_norm rows columns column orthogonal.2) D_ZERO in
        if negb (status_ok norm.1) then (norm.1, orthogonal.2)
        else if 0 <=? D_CMP norm.2 minimum.2
        then settle (svd_divide_column rows columns column norm.2 orthogonal.2) orthogonal.2
        else svd_try_coordinates rows columns column minimum rest orthogonal.2
  end.

Definition svd_complete_column (rows columns column : nat) b : linears_status_t * list W :=
  svd_try_coordinates rows columns column (settle (minimum_norm rows) D_ZERO) (seq 0 rows) b.

(** ** Sweeps *)

Record svd_state := mk_svd {
  svd_b : list W; svd_w : list W; svd_norms : list W; svd_rotated : bool; svd_status : linears_status_t }.

Definition with_status (st : svd_state) (s : linears_status_t) : svd_state :=
  mk_svd (svd_b st) (svd_w st) (svd_norms st) (svd_rotated st) s.
Definition with_norms (st : svd_state) norms : svd_state :=
  mk_svd (svd_b st) (svd_w st) norms (svd_rotated st) (svd_status st).

(** A result whose status is not OK is a return from the factorization. *)
Definition svd_pair (rows columns sweep max_sweeps : nat) (tolerance : W) (p q : nat) (st : svd_state)
    : linears_status_t * svd_state :=
  let norm i := cell (svd_norms st) i in
  if (D_CMP (norm p) D_ZERO =? 0) || (D_CMP (norm q) D_ZERO =? 0) then (LINEARS_OK, st)
  else
    let correlation := settle (svd_correlation (svd_b st) rows columns p q (norm p) (norm q)) D_ZERO in
    if negb (status_ok correlation.1) then (correlation.1, st)
    else
      let magnitude := settle (D_ABS correlation.2) D_ZERO in
      if D_CMP magnitude.2 tolerance <=? 0 then (LINEARS_OK, with_status st magnitude.1)
      else if (sweep =? max_sweeps)%nat then (LINEARS_ERROR_NO_CONVERGENCE, st)
      else
        let rotation := settle (svd_rotation (norm p) (norm q) correlation.2) (D_ZERO, D_ZERO) in
        if negb (status_ok rotation.1) then (rotation.1, st)
        else if D_FIXED && (D_CMP rotation.2.2 D_ZERO =? 0) then (LINEARS_ERROR_NO_CONVERGENCE, st)
        else
          let b := settle (svd_rotate_columns (svd_b st) rows columns p q rotation.2.1 rotation.2.2) (svd_b st, false) in
          if negb (status_ok b.1) then (b.1, st)
          else if D_FIXED && negb b.2.2 then (LINEARS_ERROR_NO_CONVERGENCE, st)
          else
            let w := settle (svd_rotate_columns (svd_w st) columns columns p q rotation.2.1 rotation.2.2) (svd_w st, false) in
            if negb (status_ok w.1) then (w.1, st)
            else
              settle (norm_p ← column_norm rows columns p b.2.1;
                      norm_q ← column_norm rows columns q b.2.1;
                      mret (mk_svd b.2.1 w.2.1 (<[q := norm_q]> (<[p := norm_p]> (svd_norms st))) true LINEARS_OK)) st.

(** The norms of all columns with the largest, from the current status. *)
Definition svd_column_norms (rows columns : nat) (st : svd_state) : linears_status_t * (svd_state * W) :=
  for_status 0 columns (fun p best =>
    let norm := resume (svd_status best.1) (column_norm rows columns p (svd_b best.1)) D_ZERO in
    let st := with_norms best.1 (<[p := norm.2]> (svd_norms best.1)) in
    (norm.1, (with_status st norm.1, if 0 <? D_CMP norm.2 best.2 then norm.2 else best.2))) (st, D_ZERO).

(** Columns of negligible norm become zero. *)
Definition svd_truncate (rows columns : nat) (cutoff : W) (st : svd_state) : svd_state :=
  for_up 0 columns (fun p st =>
    if D_CMP (cell (svd_norms st) p) cutoff <=? 0
    then mk_svd (set_column rows columns p (fun _ => D_ZERO) (svd_b st)) (svd_w st) (<[p := D_ZERO]> (svd_norms st)) (svd_rotated st) (svd_status st)
    else st) st.

Definition svd_sweep (rows columns sweep max_sweeps : nat) (tolerance : W) (st : svd_state) : linears_status_t * svd_state :=
  let normed := svd_column_norms rows columns (mk_svd (svd_b st) (svd_w st) (svd_norms st) false (svd_status st)) in
  require normed.1 st (
  let cutoff := resume (svd_status normed.2.1) (D_MUL normed.2.2 tolerance) D_ZERO in
  require cutoff.1 st (
  for_status 0 columns (fun p => for_status (p + 1) (columns - (p + 1)) (svd_pair rows columns sweep max_sweeps tolerance p))
    (svd_truncate rows columns cutoff.2 (with_status normed.2.1 cutoff.1)))).

(** The endless loop, [None] when the fuel runs out before it leaves. *)
Fixpoint svd_sweeps (fuel rows columns sweep max_sweeps : nat) (tolerance : W) (st : svd_state)
    : option (linears_status_t * svd_state) :=
  match fuel with
  | O => None
  | S fuel =>
      let r := svd_sweep rows columns sweep max_sweeps tolerance st in
      if status_ok r.1 && svd_rotated r.2
      then svd_sweeps fuel rows columns (sweep + 1) max_sweeps tolerance r.2 else Some r
  end.

(** ** Ordering and normalization *)

Definition swap_columns (rows columns p q : nat) b : list W :=
  for_up 0 rows (fun row b =>
    let temporary := at_index columns b row p in
    set_index columns row q temporary (set_index columns row p (at_index columns b row q) b)) b.

Definition largest_from (columns p : nat) norms : nat :=
  for_up (p + 1) (columns - (p + 1)) (fun q largest => if 0 <? D_CMP (cell norms q) (cell norms largest) then q else largest) p.

Definition svd_order (rows columns p : nat) (st : svd_state) : svd_state :=
  let largest := largest_from columns p (svd_norms st) in
  if (largest =? p)%nat then st
  else mk_svd (swap_columns rows columns p largest (svd_b st)) (swap_columns columns columns p largest (svd_w st))
         (<[largest := cell (svd_norms st) p]> (<[p := cell (svd_norms st) largest]> (svd_norms st)))
         (svd_rotated st) (svd_status st).

Definition svd_normalize (rows columns p : nat) (st : svd_state) : linears_status_t * svd_state :=
  let r := if D_CMP (cell (svd_norms st) p) D_ZERO =? 0 then svd_complete_column rows columns p (svd_b st)
           else resume (svd_status st) (svd_divide_column rows columns p (cell (svd_norms st) p) (svd_b st)) (svd_b st) in
  (r.1, mk_svd r.2 (svd_w st) (svd_norms st) (svd_rotated st) r.1).

(** The budget of sweeps bounds the loop: one pass for each, and the last one. *)
Definition svd_factor b w norms (rows columns max_sweeps : nat) (tolerance : W) : option (linears_status_t * svd_state) :=
  match svd_sweeps (S max_sweeps) rows columns 0 max_sweeps tolerance (mk_svd b w norms false LINEARS_OK) with
  | None => None
  | Some r => Some (require r.1 r.2 (
      for_status 0 columns (svd_normalize rows columns) (for_up 0 columns (svd_order rows columns) r.2)))
  end.

(** ** The entry point *)

Definition LINEARS_SVD_WORKSPACE (m n : Z) : Z :=
  LINEARS_SIZE_ADD target (LINEARS_SIZE_ADD target (LINEARS_SIZE_MUL target m n)
    (LINEARS_SIZE_MUL target (Z.min m n) (Z.min m n))) (Z.min m n).

(** The tall working copy with its largest magnitude. *)
Definition svd_load (a : list R) (m n : nat) : fc (list W * W) :=
  let columns := Nat.min m n in
  for_fc 0 (Nat.max m n) (fun row => for_fc 0 columns (fun column st =>
    match a !! (if (m <? n)%nat then column * n + row else row * n + column)%nat with
    | Some raw =>
        value ← D_LOAD raw;
        magnitude ← D_ABS value;
        mret (st.1 ++ [value], if 0 <? D_CMP magnitude st.2 then magnitude else st.2)
    | None => mret st
    end)) ([], D_ZERO).

(** The scaled copy and the tolerance, 8 * rows * epsilon. *)
Definition svd_prepare b (scale : W) (rows : nat) : fc (list W * W) :=
  b ← (if negb (D_CMP scale D_ZERO =? 0)
       then for_fc 0 (length b) (fun index b => x ← D_DIV (cell b index) scale; mret (<[index := x]> b)) b
       else mret b);
  tolerance ← D_CONST (i64 (Z.of_nat rows));
  tolerance ← D_MUL tolerance D_EPSILON;
  eight ← D_CONST 8;
  tolerance ← D_MUL eight tolerance;
  mret (b, tolerance).

Definition svd_result : Type := operand R * operand R * operand R.

(** [None] would be a loop that does not end within its budget. *)
Definition linears_svd (a u singular_values v : operand R) (max_sweeps : nat) (w : workspace)
    : option (linears_status_t * svd_result) :=
  let old := (u, singular_values, v) in
  let stop s := Some (s, old) in
  let matrices := [a; u; singular_values; v] in
  let status := descriptors target (map descriptor matrices) in
  if negb (status_ok status) then stop status
  else
    let m := rows (descriptor a) in
    let n := cols (descriptor a) in
    let columns := Z.min m n in
    if negb (rows (descriptor u) =? m) || negb (cols (descriptor u) =? columns) ||
       negb (rows (descriptor singular_values) =? columns) || negb (cols (descriptor singular_values) =? 1) ||
       negb (rows (descriptor v) =? n) || negb (cols (descriptor v) =? columns) then stop LINEARS_ERROR_DIMENSION
    else
      let status := validate target matrices 1 w (LINEARS_SVD_WORKSPACE m n) in
      if negb (status_ok status) then stop status
      else if columns =? 0 then stop LINEARS_OK
      else
        let m := Z.to_nat m in
        let n := Z.to_nat n in
        let rows := Nat.max m n in
        let columns := Nat.min m n in
        let loaded := settle (svd_load (elements a) m n) ([], D_ZERO) in
        if negb (status_ok loaded.1) then stop loaded.1
        else
          let prepared := settle (svd_prepare loaded.2.1 loaded.2.2 rows) ([], D_ZERO) in
          if negb (status_ok prepared.1) then stop prepared.1
          else if 0 <=? D_CMP prepared.2.2 D_ONE then stop LINEARS_ERROR_NO_CONVERGENCE
          else
            match svd_factor prepared.2.1 (identity columns) (repeat D_ZERO columns) rows columns max_sweeps prepared.2.2 with
            | None => None
            | Some r => Some (
                require r.1 old (
                let scaled := settle (for_fc 0 columns (fun column norms =>
                  x ← D_MUL (cell norms column) loaded.2.2; mret (<[column := x]> norms)) (svd_norms r.2)) [] in
                require scaled.1 old (
                let left := if (m <? n)%nat then svd_w r.2 else svd_b r.2 in
                let right := if (m <? n)%nat then svd_b r.2 else svd_w r.2 in
                require (check_block left) old (
                require (check_block scaled.2) old (
                require (check_block right) old (
                (LINEARS_OK, (commit u (store_block left), commit singular_values (store_block scaled.2), commit v (store_block right)))))))))
            end.
End Svd.
