(* ===== verification/SvdQ.v ===== *)
(** * SVD in the fixed formats: the rotation and the columns

    Every rotation that the code computes is orthogonal to within five units of
    2^-31; what the column operations of decomp_svd_template.inc leave in the
    row-major arrays. *)
From S2P Require Import Prelude MachineInt Status Wide Numeric Memory Float Matrix FcMonad Cordic FcFloat FcVariants FcOps Decomp DecompQ LuQ Ldlt LdltQ Qr Svd.

(** ** The arithmetic of a rotation *)

Section Rotation.
Let S := LINEARS_FIXED_ONE.

(** The rounded cosine and sine of a rounded tangent of at most one. *)
Lemma rotation_orthogonal t c1 r c s : Z.abs t <= S -> 2 * Z.abs (c1 * S - t * t) <= S ->
  S <= r -> Z.abs (r * r - (S + c1) * S) <= r -> 2 * Z.abs (c * r - S * S) <= r -> 2 * Z.abs (s * S - t * c) <= S ->
  Z.abs (c * c + s * s - S * S) <= 5 * S.
Proof.
  intros Ht Hc1 Hr Hrr Hc Hs. assert (S = 2147483648) as HS by reflexivity. clearbody S.
  set (e := r * r - S * S - t * t). assert (2 * Z.abs e <= 2 * r + S) as He by (clear - Hc1 Hrr; unfold e; lia).
  set (e4 := c * r - S * S) in *. set (e3 := s * S - t * c) in *.
  assert (t * t <= S * S) as Htt by (clear - Ht HS; nia).
  assert (0 <= r * r - S * S) as _ by nia.
  assert (2 * r <= 3 * S) as Hr2.
  { clear - Hr He Htt HS. destruct (Z.le_gt_cases (2 * r) (3 * S)) as [|Hgt]; [done|].
    assert (9 * (S * S) < 4 * (r * r)) by nia. assert (r * r <= 2 * (S * S) + r + S) by (unfold e in He; lia). nia. }
  assert (0 <= c <= S) as Hc2.
  { clear - Hr Hc HS. unfold e4 in Hc. split; nia. }
  assert (S * S * (c * c + s * s - S * S) = 2 * (S * S) * e4 + e4 * e4 - c * c * e + 2 * (t * c) * e3 + e3 * e3) as E
    by (unfold e, e4, e3; ring).
  assert (4 * Z.abs (2 * (S * S) * e4) <= 6 * (S * S * S)) as T1.
  { clear - Hc Hr2 HS. rewrite Z.abs_mul, (Z.abs_eq (2 * (S * S))) by lia. nia. }
  assert (16 * Z.abs (e4 * e4) <= 9 * (S * S)) as T2 by (clear - Hc Hr2 HS; rewrite Z.abs_mul; nia).
  assert (Z.abs (c * c * e) <= 2 * (S * S * S)) as T3.
  { clear - Hc2 He Hr2 HS. rewrite Z.abs_mul, (Z.abs_eq (c * c)) by nia. assert (Z.abs e <= 2 * S) by lia. assert (c * c <= S * S) by nia. nia. }
  assert (Z.abs (2 * (t * c) * e3) <= S * S * S) as T4.
  { clear - Hc2 Ht Hs HS. rewrite !Z.abs_mul, (Z.abs_eq c), (Z.abs_eq 2) by lia. assert (Z.abs t * c <= S * S) by nia. nia. }
  assert (4 * Z.abs (e3 * e3) <= S * S) as T5 by (clear - Hs HS; rewrite Z.abs_mul; nia).
  clearbody e e4 e3. set (d := c * c + s * s - S * S) in *. clearbody d.
  assert (S * S * Z.abs d <= S * S * (5 * S)) as T.
  { rewrite <- (Z.abs_eq (S * S)) at 1 by lia. rewrite <- Z.abs_mul, E. clear - T1 T2 T3 T4 T5 HS. subst S. lia. }
  apply Z.mul_le_mono_pos_l in T; lia.
Qed.
End Rotation.

(** ** The fixed operations without a side condition *)

Lemma fixed_mul_wp a b : is_i64 a -> is_i64 b -> wp (fcq_mul a b) (fun x => is_i64 x /\ x = div_nearest (a * b) LINEARS_FIXED_ONE).
Proof.
  intros Ha Hb. eapply wp_mono; [by apply fcq_call_wp, linears_fixed_mul_exact|]. by intros x [].
Qed.

Lemma fixed_mul_bound a b x : x = div_nearest (a * b) LINEARS_FIXED_ONE -> 2 * Z.abs (x * LINEARS_FIXED_ONE - a * b) <= LINEARS_FIXED_ONE.
Proof. intros ->. by apply div_nearest_error. Qed.

Lemma fixed_div_any a b : is_i64 a -> is_i64 b ->
  wp (fcq_div a b) (fun x => b <> 0 /\ is_i64 x /\ x = div_nearest (a * LINEARS_FIXED_ONE) b).
Proof.
  intros Ha Hb. destruct (Z.eqb_spec b 0) as [->|Hz].
  - apply wp_guarded. by rewrite linears_fixed_div_exact.
  - eapply wp_mono; [by apply fcq_call_wp, fcq_div_eq|]. intros x [-> Hx]. done.
Qed.

Lemma fixed_add_wp a b : is_i64 a -> is_i64 b -> wp (fcq_add a b) (fun x => x = a + b /\ is_i64 x).
Proof. intros. by apply fcq_call_wp, fcq_add_eq. Qed.

Lemma fixed_sub_wp a b : is_i64 a -> is_i64 b -> wp (fcq_sub a b) (fun x => x = a - b /\ is_i64 x).
Proof. intros. by apply fcq_call_wp, fcq_sub_eq. Qed.

Lemma fixed_const_wp n : wp (fcq_i n) is_i64.
Proof. apply fcq_i_wp. Qed.

Lemma fixed_root_wp v : is_i64 v -> wp (fcq_sqrt v) (fun x => is_i64 x /\ 0 <= x /\ Z.abs (x * x - v * LINEARS_FIXED_ONE) <= x /\
  (LINEARS_FIXED_ONE <= v -> LINEARS_FIXED_ONE <= x)).
Proof.
  intros Hv. apply wp_guarded. destruct (linears_fixed_sqrt_exact v 0 Hv) as [Hneg Hpos].
  destruct (Z.ltb_spec v 0); [by rewrite Hneg|]. destruct (Hpos ltac:(lia)) as (x & -> & Hx & H0 & Hlo & Hhi).
  intros _. cbn. split; [done|]. split; [done|]. unfold LINEARS_FIXED_ONE in *. split; [|nia].
  destruct Hlo as [->|Hlo]; [|nia]. lia.
Qed.

Lemma sticky_unless_failed {A} (d : A) m : sticky (unless_failed d m).
Proof. intros s Hs. unfold unless_failed. by destruct s. Qed.

Lemma wp_unless_failed {A} (d : A) m (Q : A -> Prop) : wp m Q -> wp (unless_failed d m) Q.
Proof. intros Hm. exact Hm. Qed.
#[export] Hint Resolve sticky_unless_failed : sticky.

Section Svd.
Variable kind : numeric_kind.
#[local] Hint Extern 0 (DArith _ Z) => exact (fixed_arith kind) : typeclass_instances.
#[local] Hint Extern 0 (DArith Z _) => exact (fixed_arith kind) : typeclass_instances.
#[local] Hint Extern 0 (DBlock Z) => exact fixed_block : typeclass_instances.
#[local] Hint Extern 0 (DOrtho Z) => exact fixed_ortho : typeclass_instances.
Implicit Types (a b w : list Z) (p q i j rows columns : nat).

(** A plane rotation whose cosine and sine are orthonormal within five units. *)
Definition near_rotation (c s : Z) : Prop :=
  is_i64 c /\ is_i64 s /\ Z.abs (c * c + s * s - LINEARS_FIXED_ONE * LINEARS_FIXED_ONE) <= 5 * LINEARS_FIXED_ONE.

Lemma unit_quotient (x h : Z) : x <> 0 -> h = Z.abs x -> Z.abs (div_nearest (x * LINEARS_FIXED_ONE) h) = LINEARS_FIXED_ONE.
Proof.
  intros Hx ->. destruct (Z.abs_spec x) as [[Hs ->]|[Hs ->]].
  - rewrite Z.mul_comm, div_nearest_1 by lia. done.
  - replace (x * LINEARS_FIXED_ONE) with (- LINEARS_FIXED_ONE * - x) by ring. rewrite div_nearest_1 by lia. done.
Qed.

Lemma square_rounded x y : y = div_nearest (x * x) LINEARS_FIXED_ONE -> 0 <= y /\ (Z.abs x = LINEARS_FIXED_ONE -> y = LINEARS_FIXED_ONE).
Proof.
  intros ->. split.
  - apply (div_nearest_between _ LINEARS_FIXED_ONE 0 (x * x)); [done|]. unfold LINEARS_FIXED_ONE. nia.
  - intros E. rewrite <- Z.abs_square, E. by rewrite div_nearest_1.
Qed.

(** Whatever the norms and the correlation, a rotation that is computed is orthogonal. *)
Lemma svd_rotation_wp norm_p norm_q correlation : is_i64 norm_p -> is_i64 norm_q -> is_i64 correlation ->
  wp (svd_rotation norm_p norm_q correlation) (fun cs => near_rotation cs.1 cs.2).
Proof.
  intros Hp Hq Hc. unfold svd_rotation. cbn [D_CMP D_DIV D_MUL D_SUB D_ADD D_SQRT D_ABS D_NEG D_CONST D_ZERO D_ONE fixed_arith fixed_block]. cbv zeta.
  set (scale := if 0 <? fcq_cmp norm_p norm_q then norm_p else norm_q). assert (is_i64 scale) as Hscale by (unfold scale; by case_if).
  wp_call (fixed_div_any norm_p scale) as p0 (_ & Hp0 & _). wp_call (fixed_div_any norm_q scale) as q0 (_ & Hq0 & _).
  wp_call (fixed_mul_wp p0 p0) as alpha0 [Ha0 _]. wp_call (fixed_mul_wp q0 q0) as beta0 [Hb0 _].
  wp_call (fixed_sub_wp beta0 alpha0) as delta [_ Hd]. wp_call (fixed_mul_wp p0 q0) as gamma0 [Hg0 _].
  wp_call (fixed_const_wp 2) as two Htwo. wp_call (fixed_mul_wp gamma0 correlation) as gamma1 [Hg1 _].
  wp_call (fixed_mul_wp two gamma1) as gamma [Hg _]. wp_call (fixed_abs_wp delta) as ad [Ead Had].
  wp_call (fixed_abs_wp gamma) as ag [Eag Hag]. apply wp_unless_failed.
  set (h := if 0 <? fcq_cmp ad ag then ad else ag). assert (h = Z.max ad ag) as Eh.
  { unfold h. rewrite fcq_cmp_sign. destruct (Z.ltb_spec 0 (Z.sgn (ad - ag))); lia. }
  assert (is_i64 h) as Hh by (rewrite Eh; rlia). clearbody h. clear scale Hscale Hp0 Hq0 Ha0 Hb0 Hg0 Hg1 Htwo.
  wp_call (fixed_div_any delta h) as p (Hhz & Hpr & Ep). wp_call (fixed_div_any gamma h) as q (_ & Hqr & Eq).
  wp_call (fixed_mul_wp p p) as alpha [Ha Ea]. wp_call (fixed_mul_wp q q) as beta [Hb Eb].
  apply square_rounded in Ea as [Ha0 Ea]. apply square_rounded in Eb as [Hb0 Eb].
  wp_call (fixed_add_wp alpha beta) as t1 [Et1 Ht1]. wp_call (fixed_root_wp t1) as t2 (Ht2 & _ & _ & Hroot).
  assert (LINEARS_FIXED_ONE <= t2) as Ht2s.
  { apply Hroot. destruct (Z.le_gt_cases ag ad).
    - assert (h = Z.abs delta) as Ehd by lia. pose proof (unit_quotient delta h ltac:(lia) Ehd) as Eu. rewrite <- Ep in Eu. apply Ea in Eu. lia.
    - assert (h = Z.abs gamma) as Ehg by lia. pose proof (unit_quotient gamma h ltac:(lia) Ehg) as Eu. rewrite <- Eq in Eu. apply Eb in Eu. lia. }
  wp_call (fixed_mul_wp h t2) as t3 [Ht3 Et3].
  assert (h <= t3) as Hh3.
  { rewrite Et3. apply (div_nearest_between _ LINEARS_FIXED_ONE h (h * t2)); [done|]. unfold LINEARS_FIXED_ONE in *. nia. }
  wp_call (fixed_add_wp ad t3) as t4 [Et4 Ht4]. assert (t4 <> 0 /\ Z.abs ag <= Z.abs t4) as [Ht4z Hag4] by lia.
  wp_call (fixed_div_wp ag t4) as t5 (Ht5 & _ & Htb). specialize (Htb Hag4).
  clear - Ht5 Htb Hd Hc.
  apply wp_bind; [|intros; solve_sticky].
  eapply (wp_mono _ (fun t => is_i64 t /\ Z.abs t <= LINEARS_FIXED_ONE)).
  { apply wp_if; intros _; [|by apply wp_ret]. eapply wp_mono; [by apply fixed_neg_wp|]. intros t [-> Ht]. split; [done|lia]. }
  intros t [Ht Htabs].
  wp_call (fixed_mul_wp t t) as c1 [Hc1 Ec1]. apply fixed_mul_bound in Ec1.
  wp_call (fixed_add_wp LINEARS_FIXED_ONE c1) as c2 [Ec2 Hc2].
  wp_call (fixed_root_wp c2) as r (Hr & _ & Er & Hrs).
  assert (0 <= c1) by (clear - Ec1; unfold LINEARS_FIXED_ONE in *; nia).
  specialize (Hrs ltac:(lia)).
  apply wp_bind; [|intros; solve_sticky]. eapply wp_mono; [apply fixed_div_wp; [unfold LINEARS_FIXED_ONE; rlia|done|unfold LINEARS_FIXED_ONE in *; lia]|].
  intros c (Hcr & Ecr & _). wp_call (fixed_mul_wp t c) as s [Hs Es]. apply fixed_mul_bound in Es. apply wp_ret.
  split; [done|]. split; [done|]. cbn [fst snd]. rewrite (Z.abs_eq r) in Ecr by (unfold LINEARS_FIXED_ONE in *; lia). subst c2.
  by apply (rotation_orthogonal t c1 r).
Qed.

(** ** Arrays of columns *)

(** An array of [rows] by [columns] machine values. *)
Definition array rows columns a : Prop := length a = (rows * columns)%nat /\ Forall is_i64 a.

Lemma array_set rows columns i j v a : array rows columns a -> is_i64 v -> array rows columns (set_index columns i j v a).
Proof. intros [Hl Ha] Hv. split; [by rewrite length_set|by apply set_range]. Qed.

Lemma array_at rows columns i j a : array rows columns a -> is_i64 (at_index columns a i j).
Proof. intros [_ Ha]. by apply at_range. Qed.

Lemma array_at_set rows columns i j i' j' v a : array rows columns a -> (i < rows)%nat -> (j < columns)%nat -> (j' < columns)%nat ->
  at_index columns (set_index columns i j v a) i' j' = if decide (i = i' /\ j = j') then v else at_index columns a i' j'.
Proof. intros [Hl _] Hi Hj Hj'. apply at_set; [done|done|]. rewrite Hl. by apply cell_lt. Qed.

Definition same_column rows columns j a a' : Prop := forall i, (i < rows)%nat -> at_index columns a' i j = at_index columns a i j.

(** Only column [j] changes. *)
Definition only_column rows columns j a a' : Prop :=
  array rows columns a' /\ forall j', (j' < columns)%nat -> j' <> j -> same_column rows columns j' a a'.

Lemma only_column_trans rows columns j a b c : only_column rows columns j a b -> only_column rows columns j b c -> only_column rows columns j a c.
Proof. intros [_ H1] [Hc H2]. split; [done|]. intros j' Hj' Hne i Hi. by rewrite (H2 j' Hj' Hne i Hi), (H1 j' Hj' Hne i Hi). Qed.

(** A loop that computes column [j] row by row. *)
Lemma write_column_wp rows columns j (f : nat -> list Z -> fc Z) (P : nat -> Z -> Prop) a :
  (j < columns)%nat -> array rows columns a -> (forall i b, sticky (f i b)) ->
  (forall i b, (i < rows)%nat -> only_column rows columns j a b -> at_index columns b i j = at_index columns a i j ->
    wp (f i b) (fun x => is_i64 x /\ P i x)) ->
  wp (for_fc 0 rows (fun i b => x ← f i b; mret (set_index columns i j x b)) a)
    (fun b => only_column rows columns j a b /\ forall i, (i < rows)%nat -> P i (at_index columns b i j)).
Proof.
  intros Hj Ha Hst Hf.
  eapply wp_mono; [apply (wp_for_fc (fun r b => only_column rows columns j a b /\ (forall i, (i < r)%nat -> P i (at_index columns b i j)) /\
    (forall i, (r <= i < rows)%nat -> at_index columns b i j = at_index columns a i j)))|].
  - intros i b. apply sticky_bind; [apply Hst|solve_sticky].
  - intros i b Hi (Hb & Hdone & Hrest). apply wp_bind; [|solve_sticky].
    eapply wp_mono; [apply Hf; [lia|done|apply Hrest; lia]|]. intros x [Hx HP]. apply wp_ret. destruct Hb as [Hb Hother].
    split; [split; [by apply array_set|]|split].
    + intros j' Hj' Hne i' Hi'. rewrite (array_at_set rows) by (done || lia). rewrite decide_False by lia. by apply Hother.
    + intros i' Hi'. rewrite (array_at_set rows) by (done || lia). case_decide as E; [by destruct E as [-> _]|]. apply Hdone. lia.
    + intros i' Hi'. rewrite (array_at_set rows) by (done || lia). rewrite decide_False by lia. apply Hrest. lia.
  - split; [by split|]. split; [lia|done].
  - intros b (Hb & Hdone & _). by split.
Qed.

Lemma for_up_column rows columns j (f : nat -> list Z -> Z) a :
  (j < columns)%nat -> array rows columns a -> (forall i b, (i < rows)%nat -> is_i64 (f i b)) ->
  only_column rows columns j a (for_up 0 rows (fun i b => set_index columns i j (f i b) b) a).
Proof.
  intros Hj Ha Hf. apply (for_up_rule _ (fun _ b => only_column rows columns j a b) rows); [|lia|by split].
  intros i b Hi [Hb Hother]. split; [apply array_set; auto|].
  intros j' Hj' Hne i' Hi'. rewrite (array_at_set rows) by (done || lia). rewrite decide_False by lia. by apply Hother.
Qed.

Lemma set_column_spec rows columns j value a : (j < columns)%nat -> array rows columns a -> (forall i, is_i64 (value i)) ->
  only_column rows columns j a (set_column rows columns j value a) /\
  forall i, (i < rows)%nat -> at_index columns (set_column rows columns j value a) i j = value i.
Proof.
  intros Hj Ha Hv. unfold set_column. split; [by apply (for_up_column _ _ _ (fun i _ => value i))|].
  apply (for_up_rule _ (fun r b => array rows columns b /\ forall i, (i < r)%nat -> at_index columns b i j = value i) rows); [|lia|by split; [|lia]].
  intros i b Hi [Hb Hdone]. split; [by apply array_set|]. intros i' Hi'.
  rewrite (array_at_set rows) by (done || lia). case_decide as E; [by destruct E as [-> _]|]. apply Hdone. lia.
Qed.

(** Two columns exchanged. *)
Lemma swap_columns_spec rows columns p q a : (p < columns)%nat -> (q < columns)%nat -> p <> q -> array rows columns a ->
  array rows columns (swap_columns rows columns p q a) /\
  forall i j, (i < rows)%nat -> (j < columns)%nat -> at_index columns (swap_columns rows columns p q a) i j = at_index columns a i (swap_index p q j).
Proof.
  intros Hp Hq Hne Ha.
  pose (I := fun r b => array rows columns b /\ forall i j, (i < rows)%nat -> (j < columns)%nat ->
    at_index columns b i j = at_index columns a i (if decide (i < r)%nat then swap_index p q j else j)).
  enough (I rows (swap_columns rows columns p q a)) as [Hb Hv].
  { split; [done|]. intros i j Hi Hj. rewrite Hv by done. by rewrite decide_True. }
  unfold swap_columns. apply (for_up_rule _ I rows); [|lia|].
  - intros r b Hr [Hb Hv]. cbv zeta. split; [apply array_set; [apply array_set; [done|]|]; by eapply array_at|].
    intros i j Hi Hj. rewrite (array_at_set rows) by (done || apply array_set; done || by eapply array_at).
    rewrite (array_at_set rows) by done. unfold swap_index in *.
    repeat case_decide; rewrite ?Hv by lia; repeat case_decide; try lia; intuition (subst; try lia); done.
  - split; [done|]. intros i j Hi Hj. by rewrite decide_False by lia.
Qed.

(** ** Sums of products *)

Lemma fixed_sum_wp count (factors : nat -> fc (Z * Z)) (l r : nat -> Z) : (forall i, sticky (factors i)) ->
  (forall i, (i < count)%nat -> wp (factors i) (fun x => is_i64 x.1 /\ is_i64 x.2 /\ x = (l i, r i))) ->
  wp (fixed_sum count factors) (fun x => is_i64 x /\ x = div_nearest (sum_to count (fun i => l i * r i)) LINEARS_FIXED_ONE).
Proof.
  intros Hst Hf. unfold fixed_sum. destruct zero_accum as [H0 V0].
  assert (forall i acc, sticky (product ← factors i; accum_call (linears_fixed_mac (Some acc) product.1 product.2) acc)) as Hbody
    by (intros; apply sticky_bind; [apply Hst|solve_sticky]).
  apply wp_bind; [|solve_sticky].
  eapply wp_mono; [apply (wp_for_fc (fun k acc => accum_ok acc /\ accum_value acc = sum_to k (fun i => l i * r i))); [done| |by split]|].
  - intros i acc Hi (Hacc & V). apply wp_bind; [|solve_sticky]. eapply wp_mono; [apply Hf; lia|]. intros x (H1 & H2 & ->). cbn [fst snd] in *.
    eapply wp_mono; [by apply accum_mac_wp|]. intros t (Ht & Vt). split; [done|]. rewrite Nat.add_1_r, sum_to_S. lia.
  - intros acc (Hacc & V). eapply wp_mono; [by apply accum_to_fixed_wp|]. intros x [-> Hx]. split; [done|]. by rewrite V.
Qed.

Lemma fixed_sum_sticky count factors : (forall i, sticky (factors i)) -> sticky (fixed_sum count factors).
Proof.
  intros Hst. unfold fixed_sum. apply sticky_bind; [|solve_sticky]. apply sticky_for_fc. intros. apply sticky_bind; [apply Hst|solve_sticky].
Qed.

(** An element of the unit column of a column with norm [norm]. *)
Definition unit_element (v norm : Z) : Z := div_nearest (v * LINEARS_FIXED_ONE) norm.
Definition correlation_sum rows columns p q a (norm_p norm_q : Z) : Z :=
  sum_to rows (fun i => unit_element (at_index columns a i p) norm_p * unit_element (at_index columns a i q) norm_q).

Lemma svd_correlation_wp rows columns p q a norm_p norm_q : Forall is_i64 a -> is_i64 norm_p -> is_i64 norm_q ->
  wp (svd_correlation a rows columns p q norm_p norm_q)
    (fun x => is_i64 x /\ x = div_nearest (correlation_sum rows columns p q a norm_p norm_q) LINEARS_FIXED_ONE).
Proof.
  intros Ha Hp Hq. unfold svd_correlation. cbn [D_SUM fixed_ortho D_DIV fixed_arith]. apply fixed_sum_wp; [intros; solve_sticky|].
  intros i Hi. pose proof (at_range kind columns i p a Ha). pose proof (at_range kind columns i q a Ha).
  wp_call (fixed_div_any (at_index columns a i p) norm_p) as x (_ & Hx & Ex).
  wp_call (fixed_div_any (at_index columns a i q) norm_q) as y (_ & Hy & Ey).
  apply wp_ret. cbn. rewrite Ex at 2. rewrite Ey at 2. done.
Qed.

(** ** Rotated columns *)

Definition rotated rows columns p q (c s : Z) a a' : Prop :=
  array rows columns a' /\ forall i j, (i < rows)%nat -> (j < columns)%nat -> at_index columns a' i j =
    if decide (j = p) then div_nearest (c * at_index columns a i p - s * at_index columns a i q) LINEARS_FIXED_ONE
    else if decide (j = q) then div_nearest (s * at_index columns a i p + c * at_index columns a i q) LINEARS_FIXED_ONE
    else at_index columns a i j.

Lemma fixed_rotate_sticky (c s x y : Z) : sticky (fixed_rotate c s x y).
Proof. unfold fixed_rotate. solve_sticky. Qed.
#[local] Hint Resolve fixed_rotate_sticky : sticky.

Lemma fixed_rotate_wp (c s x y : Z) : is_i64 c -> is_i64 s -> is_i64 x -> is_i64 y ->
  wp (fixed_rotate c s x y) (fun r => is_i64 r.1 /\ is_i64 r.2 /\
    r = (div_nearest (c * x - s * y) LINEARS_FIXED_ONE, div_nearest (s * x + c * y) LINEARS_FIXED_ONE)).
Proof.
  intros Hc Hs Hx Hy. unfold fixed_rotate. destruct zero_accum as [H0 V0].
  wp_call (accum_mac_wp (mk_accum 0 0) c x) as f1 [Hf1 V1]. wp_call (accum_msu_wp f1 s y) as f2 [Hf2 V2].
  wp_call (accum_mac_wp (mk_accum 0 0) s x) as g1 [Hg1 W1]. wp_call (accum_mac_wp g1 c y) as g2 [Hg2 W2].
  wp_call (accum_to_fixed_wp f2) as np [-> Hnp]. wp_call (accum_to_fixed_wp g2) as nq [-> Hnq]. apply wp_ret. cbn.
  split; [done|]. split; [done|]. rewrite V2, V1, W2, W1, V0. by rewrite !Z.add_0_l.
Qed.

Lemma svd_rotate_columns_wp rows columns p q (c s : Z) a : (p < columns)%nat -> (q < columns)%nat -> p <> q ->
  is_i64 c -> is_i64 s -> array rows columns a ->
  wp (svd_rotate_columns a rows columns p q c s) (fun r => rotated rows columns p q c s a r.1).
Proof.
  intros Hp Hq Hne Hc Hs Ha. unfold svd_rotate_columns. cbn [D_ROTATE fixed_ortho].
  eapply wp_mono; [apply (wp_for_fc (fun r st => array rows columns st.1 /\ forall i j, (i < rows)%nat -> (j < columns)%nat -> at_index columns st.1 i j =
    if decide (i < r)%nat then
      if decide (j = p) then div_nearest (c * at_index columns a i p - s * at_index columns a i q) LINEARS_FIXED_ONE
      else if decide (j = q) then div_nearest (s * at_index columns a i p + c * at_index columns a i q) LINEARS_FIXED_ONE
      else at_index columns a i j
    else at_index columns a i j))|].
  - intros i st. cbv zeta. solve_sticky.
  - intros r st Hr [Hb Hv]. cbv zeta.
    pose proof (array_at rows columns r p _ Hb). pose proof (array_at rows columns r q _ Hb).
    wp_call (fixed_rotate_wp c s (at_index columns st.1 r p) (at_index columns st.1 r q)) as x (Hx1 & Hx2 & ->).
    apply wp_ret. cbn [fst snd] in *. split; [by repeat apply array_set|]. intros i j Hi Hj.
    rewrite (array_at_set rows) by (done || lia || by apply array_set). rewrite (array_at_set rows) by (done || lia).
    rewrite !(Hv r) by lia. rewrite !(decide_False (P := (r < r)%nat)) by lia. rewrite Hv by done.
    repeat case_decide; try lia; intuition (subst; try lia); done.
  - split; [done|]. intros i j Hi Hj. by rewrite decide_False by lia.
  - intros st [Hb Hv]. split; [done|]. intros i j Hi Hj. rewrite Hv by done. by rewrite decide_True by lia.
Qed.

Lemma rotated_same rows columns p q c s a a' j : rotated rows columns p q c s a a' -> (j < columns)%nat -> j <> p -> j <> q -> same_column rows columns j a a'.
Proof. intros [_ Hr] Hj Hp Hq i Hi. rewrite Hr by done. by rewrite !decide_False. Qed.

(** ** Norms *)

Lemma for_fc_ext {S} (f g : nat -> S -> fc S) from n s : (forall i s, (from <= i < from + n)%nat -> f i s = g i s) -> forall st, for_fc from n f s st = for_fc from n g s st.
Proof.
  revert from s. induction n as [|n IH]; intros from s E st; cbn; [done|].
  rewrite E by lia. unfold mbind, fc_bind. destruct (g from s st) as [s' st'|]; [|done]. apply IH. intros. apply E. lia.
Qed.

Lemma largest_magnitude_ext count (v v' : nat -> Z) : (forall i, (i < count)%nat -> v i = v' i) ->
  forall st, largest_magnitude count v st = largest_magnitude count v' st.
Proof. intros E st. apply for_fc_ext. intros i s Hi. by rewrite E by lia. Qed.

Lemma norm_of_ext count (v v' : nat -> Z) : (forall i, (i < count)%nat -> v i = v' i) -> forall st, norm_of count v st = norm_of count v' st.
Proof.
  intros E st. unfold norm_of, mbind, fc_bind. rewrite (largest_magnitude_ext count v v') by done.
  destruct (largest_magnitude count v' st) as [m s|]; [|done]. unfold unless_failed. destruct (status_ok s); [|done].
  destruct (D_CMP m D_ZERO =? 0); [done|]. cbn [D_SUM fixed_ortho]. unfold fixed_sum, mbind, fc_bind at 1 3.
  rewrite (for_fc_ext _ (fun i acc => fc_bind _ _ (fun product => accum_call (linears_fixed_mac (Some acc) product.1 product.2) acc)
    (fc_bind _ _ (fun ratio => mret (ratio, ratio)) (D_DIV (v' i) m))) 0 count); [done|].
  intros i acc Hi. by rewrite E by lia.
Qed.

Lemma column_norm_ext rows columns j a a' : same_column rows columns j a a' -> forall st, column_norm rows columns j a' st = column_norm rows columns j a st.
Proof. intros E st. by apply norm_of_ext. Qed.

Lemma largest_magnitude_sticky count (v : nat -> Z) : sticky (largest_magnitude count v).
Proof. apply sticky_for_fc. intros. cbn. solve_sticky. Qed.

Lemma norm_of_sticky count (v : nat -> Z) : sticky (norm_of count v).
Proof. unfold norm_of. apply sticky_bind; [apply largest_magnitude_sticky|intros; apply sticky_unless_failed]. Qed.

Lemma largest_magnitude_wp count (v : nat -> Z) : (forall i, (i < count)%nat -> is_i64 (v i)) ->
  wp (largest_magnitude count v) (fun m => is_i64 m /\ 0 <= m /\ (forall i, (i < count)%nat -> Z.abs (v i) <= m) /\
    (m = 0 \/ exists i, (i < count)%nat /\ m = Z.abs (v i))).
Proof.
  intros Hv. unfold largest_magnitude. eapply wp_mono; [apply (wp_for_fc (fun k m => is_i64 m /\ 0 <= m /\
    (forall i, (i < k)%nat -> Z.abs (v i) <= m) /\ (m = 0 \/ exists i, (i < k)%nat /\ m = Z.abs (v i))))|].
  - intros. cbn. solve_sticky.
  - intros i m Hi (Hm & H0 & Hle & Hat). cbn [D_ABS D_CMP fixed_arith]. specialize (Hv i ltac:(lia)).
    wp_call (fixed_abs_wp (v i)) as x [Ex Hx]. apply wp_ret. rewrite fcq_cmp_sign.
    destruct (Z.ltb_spec 0 (Z.sgn (x - m))) as [Hlt|Hge]; (split; [done|]; split; [lia|]; split).
    + intros i' Hi'. destruct (decide (i' = i)) as [->|]; [lia|]. specialize (Hle i' ltac:(lia)). lia.
    + right. exists i. split; [lia|done].
    + intros i' Hi'. destruct (decide (i' = i)) as [->|]; [lia|]. apply Hle. lia.
    + destruct Hat as [->|(i' & Hi' & ->)]; [by left|right]. exists i'. split; [lia|done].
  - cbn. split; [rlia|]. split; [done|]. split; [lia|by left].
  - done.
Qed.

Lemma sum_to_nonneg n f : (forall i, (i < n)%nat -> 0 <= f i) -> 0 <= sum_to n f /\ forall i, (i < n)%nat -> f i <= sum_to n f.
Proof.
  induction n as [|n IH]; intros Hf; [split; [done|lia]|]. rewrite sum_to_S. destruct IH as [H0 IH]; [auto with lia|].
  pose proof (Hf n ltac:(lia)). split; [lia|]. intros i Hi. destruct (decide (i = n)) as [->|]; [lia|]. specialize (IH i ltac:(lia)). lia.
Qed.

(** The scaled norm is never below a magnitude of its vector. *)
Lemma norm_of_wp count (v : nat -> Z) : (forall i, (i < count)%nat -> is_i64 (v i)) ->
  wp (norm_of count v) (fun n => is_i64 n /\ 0 <= n /\ forall i, (i < count)%nat -> Z.abs (v i) <= n).
Proof.
  intros Hv. unfold norm_of. apply wp_bind; [|intros; apply sticky_unless_failed].
  eapply wp_mono; [by apply largest_magnitude_wp|]. intros m (Hm & Hm0 & Hle & Hat). apply wp_unless_failed.
  cbn [D_CMP D_ZERO fixed_arith]. rewrite fcq_cmp_sign. apply wp_if; intros Hz; zbool; [apply wp_ret; split; [rlia|split; [done|]]; intros i Hi; specialize (Hle i Hi); lia|].
  destruct Hat as [->|(k & Hk & Ek)]; [done|]. cbn [D_SUM D_DIV D_SQRT D_MUL fixed_arith fixed_ortho].
  apply wp_bind; [|intros; solve_sticky].
  eapply wp_mono; [apply (fixed_sum_wp count _ (fun i => div_nearest (v i * LINEARS_FIXED_ONE) m) (fun i => div_nearest (v i * LINEARS_FIXED_ONE) m))|].
  - intros. solve_sticky.
  - intros i Hi. specialize (Hv i Hi). wp_call (fixed_div_any (v i) m) as x (_ & Hx & ->). by apply wp_ret.
  - intros sum [Hs Es]. assert (LINEARS_FIXED_ONE <= sum) as Hsum.
    { set (r := fun i => div_nearest (v i * LINEARS_FIXED_ONE) m * div_nearest (v i * LINEARS_FIXED_ONE) m) in *.
      destruct (sum_to_nonneg count r) as [_ Hr]; [intros; unfold r; nia|]. specialize (Hr k Hk).
      assert (r k = LINEARS_FIXED_ONE * LINEARS_FIXED_ONE) as Erk by (unfold r; rewrite <- Z.abs_square, unit_quotient by lia; done).
      rewrite Es. apply (div_nearest_between _ LINEARS_FIXED_ONE _ (sum_to count r)); [done|]. unfold LINEARS_FIXED_ONE in *. lia. }
    clear Es. wp_call (fixed_root_wp sum) as root (Hr & _ & _ & Hroot). specialize (Hroot Hsum).
    eapply wp_mono; [by apply fixed_mul_wp|]. intros x [Hx Ex].
    assert (m <= x) as Hmx.
    { rewrite Ex. apply (div_nearest_between _ LINEARS_FIXED_ONE m (m * root)); [done|]. unfold LINEARS_FIXED_ONE in *. nia. }
    split; [done|]. split; [lia|]. intros i Hi. specialize (Hle i Hi). lia.
Qed.

Definition bounds_column rows columns j a (n : Z) : Prop := is_i64 n /\ 0 <= n /\ forall i, (i < rows)%nat -> Z.abs (at_index columns a i j) <= n.

Lemma column_norm_wp rows columns j a : Forall is_i64 a -> wp (column_norm rows columns j a) (bounds_column rows columns j a).
Proof. intros Ha. apply norm_of_wp. intros. by apply at_range. Qed.

Lemma unit_element_bound v n : 0 < n -> Z.abs v <= n -> Z.abs (unit_element v n) <= LINEARS_FIXED_ONE.
Proof.
  intros Hn Hv. unfold unit_element.
  pose proof (div_nearest_between (v * LINEARS_FIXED_ONE) n (- LINEARS_FIXED_ONE) LINEARS_FIXED_ONE Hn ltac:(unfold LINEARS_FIXED_ONE; nia)). lia.
Qed.

(** The correlation of columns that their norms bound is at most the number of rows. *)
Lemma correlation_bound rows columns p q a n m : 0 < n -> 0 < m -> bounds_column rows columns p a n -> bounds_column rows columns q a m ->
  Z.abs (correlation_sum rows columns p q a n m) <= Z.of_nat rows * (LINEARS_FIXED_ONE * LINEARS_FIXED_ONE).
Proof.
  intros Hn Hm (_ & _ & Hp) (_ & _ & Hq). unfold correlation_sum.
  assert (forall r, (r <= rows)%nat -> Z.abs (sum_to r (fun i => unit_element (at_index columns a i p) n * unit_element (at_index columns a i q) m))
    <= Z.of_nat r * (LINEARS_FIXED_ONE * LINEARS_FIXED_ONE)) as H; [|by apply H].
  induction r as [|r IH]; intros Hr; [done|]. rewrite sum_to_S. specialize (IH ltac:(lia)).
  pose proof (unit_element_bound _ n Hn (Hp r ltac:(lia))) as H1. pose proof (unit_element_bound _ m Hm (Hq r ltac:(lia))) as H2.
  set (x := unit_element _ n) in *. set (y := unit_element _ m) in *. clearbody x y.
  assert (Z.abs (x * y) <= LINEARS_FIXED_ONE * LINEARS_FIXED_ONE) by (rewrite Z.abs_mul; unfold LINEARS_FIXED_ONE in *; nia). lia.
Qed.

Lemma column_norm_sticky rows columns j a : sticky (column_norm rows columns j a).
Proof. apply norm_of_sticky. Qed.

(** ** Normalized and completed columns *)

Lemma svd_divide_column_wp rows columns j (d : Z) a : (j < columns)%nat -> array rows columns a -> is_i64 d ->
  wp (svd_divide_column rows columns j d a) (fun b => only_column rows columns j a b /\
    forall i, (i < rows)%nat -> at_index columns b i j = unit_element (at_index columns a i j) d).
Proof.
  intros Hj Ha Hd. unfold svd_divide_column. apply (write_column_wp rows columns j (fun i b => D_DIV (at_index columns b i j) d) (fun i x => x = unit_element (at_index columns a i j) d)); [done|done|intros; cbn; solve_sticky|].
  intros i b Hi [Hb _] E. cbn [D_DIV fixed_arith]. pose proof (array_at rows columns i j b Hb).
  eapply wp_mono; [by apply fixed_div_any|]. intros x (_ & Hx & Ex). split; [done|by rewrite Ex, E].
Qed.

Lemma svd_project_sticky rows columns j k a : sticky (svd_project rows columns j k a).
Proof.
  unfold svd_project. apply sticky_bind; [apply fixed_sum_sticky; intros; solve_sticky|]. intros. apply sticky_for_fc. intros. cbn. solve_sticky.
Qed.

Lemma svd_project_wp rows columns j k a : (j < columns)%nat -> array rows columns a ->
  wp (svd_project rows columns j k a) (only_column rows columns j a).
Proof.
  intros Hj Ha. unfold svd_project. cbn [D_SUM D_SUB_PRODUCT fixed_ortho fixed_arith].
  apply wp_bind; [|intros; apply sticky_for_fc; intros; solve_sticky].
  eapply wp_mono; [apply (fixed_sum_wp rows _ (fun i => at_index columns a i k) (fun i => at_index columns a i j)); [intros; solve_sticky|]|].
  - intros i Hi. apply wp_ret. pose proof (array_at rows columns i k a Ha). by pose proof (array_at rows columns i j a Ha).
  - intros x [Hx _]. eapply wp_mono; [apply (write_column_wp rows columns j (fun i b => fixed_sub_product (at_index columns b i j) x (at_index columns b i k)) (fun _ _ => True)); [done|done|intros; solve_sticky|]|by intros b []].
    intros i b Hi [Hb _] _. eapply wp_mono; [apply fixed_sub_product_wp; [by eapply array_at|done|by eapply array_at]|]. by intros y [].
Qed.

Lemma resume_ok {A} (s : linears_status_t) (m : fc A) d : sticky m -> (resume s m d).1 = LINEARS_OK -> s = LINEARS_OK /\ resume s m d = settle m d.
Proof.
  intros Hm E. destruct (decide (s = LINEARS_OK)) as [->|Hs]; [done|]. specialize (Hm s Hs). unfold resume in E.
  destruct (m s); cbn in E; by destruct Hm.
Qed.

(** A completed column leaves the others alone. *)
Lemma svd_try_coordinates_frame rows columns j minimum coordinates a b : (j < columns)%nat -> only_column rows columns j a b ->
  (svd_try_coordinates rows columns j minimum coordinates b).1 = LINEARS_OK ->
  only_column rows columns j a (svd_try_coordinates rows columns j minimum coordinates b).2.
Proof.
  intros Hj. revert b. induction coordinates as [|coordinate rest IH]; intros b Hb; [done|]. cbn [svd_try_coordinates]. cbv zeta.
  destruct (set_column_spec rows columns j (fun row => if (row =? coordinate)%nat then D_ONE else D_ZERO) b Hj (proj1 Hb)) as [Hu _].
  { intros i. cbn. case_if; unfold LINEARS_FIXED_ONE; rlia. }
  pose proof (only_column_trans _ _ _ _ _ _ Hb Hu) as Hau. set (unit := set_column _ _ _ _ b) in *. clearbody unit.
  assert (sticky (for_fc 0 2 (fun _ => for_fc 0 j (svd_project rows columns j)) unit)) as Hst
    by (apply sticky_for_fc; intros; apply sticky_for_fc; intros; apply svd_project_sticky).
  set (orthogonal := resume _ _ unit). destruct (status_ok orthogonal.1) eqn:E1; cbn [negb]; [|intros E; by rewrite E in E1].
  apply status_ok_true in E1. destruct (resume_ok _ _ _ Hst E1) as [_ Er]. unfold orthogonal in E1. rewrite Er in E1.
  assert (only_column rows columns j a orthogonal.2) as Ho.
  { unfold orthogonal. rewrite Er. revert E1. apply (settle_ok _ _ (only_column rows columns j a)).
    eapply wp_mono; [apply (wp_for_fc (fun _ b => only_column rows columns j a b))|]; [| |done|done].
    - intros. apply sticky_for_fc. intros. apply svd_project_sticky.
    - intros _ c _ Hc. eapply wp_mono; [apply (wp_for_fc (fun _ b => only_column rows columns j a b))|]; [intros; apply svd_project_sticky| |done|done].
      intros k e _ He. eapply wp_mono; [apply svd_project_wp; [done|apply He]|]. intros e' He'. by eapply only_column_trans. }
  clearbody orthogonal. clear Er E1 Hst. set (norm := settle _ _). destruct (status_ok norm.1) eqn:E2; cbn [negb]; [|intros E; cbn in E; by rewrite E in E2].
  apply status_ok_true in E2.
  assert (is_i64 norm.2) as Hn by (revert E2; apply (settle_ok _ _ is_i64); eapply wp_mono; [apply column_norm_wp, Ho|by intros ? []]). clearbody norm.
  case_if; [|by apply IH]. apply (settle_ok _ _ (only_column rows columns j a)).
  eapply wp_mono; [apply svd_divide_column_wp; [done|apply Ho|done]|]. intros c [Hc _]. by eapply only_column_trans.
Qed.
End Svd.
