(* ===== verification/SvdSpec.v ===== *)
(** * SVD: the sweeps end, what they leave, and the entry points

    In every format the loop of sweeps leaves within its budget.  In the fixed
    formats a success leaves columns that no pair correlation separates from
    orthogonality by more than the tolerance, reached by the same rotations of both
    factors, ordered by singular value, and normalized.  A successful q15 or q31 call
    loads the tall working copy, scales it by its largest magnitude, and delivers that
    factorization, each element of the three outputs rounded once to the signal. *)
From stdpp Require Import relations.
From S2P Require Import Prelude MachineInt Status Wide Numeric Memory Float Matrix FcMonad Cordic FcFloat FcVariants FcOps Decomp DecompQ LuQ DecompSpec Ldlt LdltQ Qr Svd SvdQ LdltSpec.

(** ** Termination *)

Section Budget.
Context {R W : Type} `{DArith R W} `{DBlock W} `{DOrtho W}.

(** A rule for early-return loops that does not need the body to succeed. *)
Lemma for_status_keeps {S} (P : S -> Prop) (body : nat -> S -> linears_status_t * S) from n s :
  (forall i s, P s -> P (body i s).2) -> P s -> P (for_status from n body s).2.
Proof.
  intros Hb. revert from s. induction n as [|n IH]; intros from s Hs; cbn; [done|].
  destruct (status_ok (body from s).1); [apply IH|]; auto.
Qed.

(** When the budget is used up, a pair is accepted or ends the factorization. *)
Lemma svd_pair_budget rows columns sweep tolerance p q (st : svd_state) :
  svd_rotated st = false -> svd_rotated (svd_pair rows columns sweep sweep tolerance p q st).2 = false.
Proof.
  intros Hr. unfold svd_pair. cbv zeta. rewrite Nat.eqb_refl. case_if; [done|]. case_if; [done|]. by case_if.
Qed.

Lemma svd_truncate_rotated rows columns cutoff (st : svd_state) : svd_rotated (svd_truncate rows columns cutoff st) = svd_rotated st.
Proof.
  unfold svd_truncate. apply (for_up_rule _ (fun _ s => svd_rotated s = svd_rotated st) columns); [|lia|done].
  intros p s _ <-. by case_if.
Qed.

Lemma svd_column_norms_rotated rows columns (st : svd_state) : svd_rotated (svd_column_norms rows columns st).2.1 = svd_rotated st.
Proof. unfold svd_column_norms. apply (for_status_keeps (fun best => svd_rotated best.1 = svd_rotated st)); [|done]. by intros p best <-. Qed.

Lemma svd_sweep_budget rows columns sweep tolerance (st : svd_state) :
  (svd_sweep rows columns sweep sweep tolerance st).1 = LINEARS_OK -> svd_rotated (svd_sweep rows columns sweep sweep tolerance st).2 = false.
Proof.
  unfold svd_sweep, require. cbv zeta. set (start := mk_svd _ _ _ false _). set (normed := svd_column_norms rows columns start).
  destruct (status_ok normed.1) eqn:E1; [|intros E; cbn in E; by rewrite E in E1]. set (cutoff := resume _ _ _).
  destruct (status_ok cutoff.1) eqn:E2; [|intros E; cbn in E; by rewrite E in E2]. intros _.
  apply (for_status_keeps (fun s => svd_rotated s = false)).
  - intros p s Hs. apply (for_status_keeps (fun s => svd_rotated s = false)); [|done]. intros q t. apply svd_pair_budget.
  - rewrite svd_truncate_rotated. apply svd_column_norms_rotated.
Qed.

Lemma svd_sweeps_leave fuel rows columns sweep max_sweeps tolerance (st : svd_state) :
  (sweep <= max_sweeps < sweep + fuel)%nat -> exists r, svd_sweeps fuel rows columns sweep max_sweeps tolerance st = Some r.
Proof.
  revert sweep st. induction fuel as [|fuel IH]; intros sweep st Hf; [lia|]. cbn [svd_sweeps].
  destruct (status_ok _ && svd_rotated _) eqn:E; [|by eexists]. zbool. apply IH.
  destruct (decide (sweep = max_sweeps)) as [->|]; [|lia].
  pose proof (svd_sweep_budget rows columns max_sweeps tolerance st) as Hb. rewrite status_ok_true in H2. rewrite Hb in H3; done.
Qed.

(** C15. The endless loop of the SVD leaves within its budget of sweeps, in every format,
    for every input and tolerance: the call always returns. *)
Theorem linears_svd_terminates (target : decomp_abi) (a u singular_values v : operand R) (max_sweeps : nat) (w : workspace) :
  exists r, linears_svd target a u singular_values v max_sweeps w = Some r.
Proof.
  unfold linears_svd. cbv zeta. repeat (case_if; [by eexists|]).
  unfold svd_factor. match goal with |- context [svd_sweeps ?f ?r ?c 0 ?m ?t ?st] => destruct (svd_sweeps_leave f r c 0 m t st ltac:(lia)) as [x ->] end.
  by eexists.
Qed.
End Budget.

(** ** What the sweeps leave, in the fixed formats *)

Section Jacobi.
Variable kind : numeric_kind.
#[local] Hint Extern 0 (DArith _ Z) => exact (fixed_arith kind) : typeclass_instances.
#[local] Hint Extern 0 (DArith Z _) => exact (fixed_arith kind) : typeclass_instances.
#[local] Hint Extern 0 (DBlock Z) => exact fixed_block : typeclass_instances.
#[local] Hint Extern 0 (DOrtho Z) => exact fixed_ortho : typeclass_instances.
Variables (rows columns max_sweeps : nat) (tolerance : Z).
Implicit Types (a b w norms : list Z) (p q i j : nat).

Definition zero_column a j : Prop := forall i, (i < rows)%nat -> at_index columns a i j = 0.

(** The norm that the code computes for column [j]. *)
Definition measured a j (n : Z) : Prop := column_norm rows columns j a LINEARS_OK = Next n LINEARS_OK.
Definition norm_known a j (n : Z) : Prop := n = 0 /\ zero_column a j \/ measured a j n.

(** Columns whose norm is at most the largest norm times the tolerance become zero. *)
Definition truncated a b : Prop := array rows columns b /\ exists (norm : nat -> Z) (largest : Z),
  (forall j, (j < columns)%nat -> measured a j (norm j) /\ norm j <= largest) /\
  (largest = 0 \/ exists j, (j < columns)%nat /\ largest = norm j) /\
  forall j, (j < columns)%nat ->
    if norm j <=? div_nearest (largest * tolerance) LINEARS_FIXED_ONE then zero_column b j else same_column kind rows columns j a b.

(** One move of the method: a truncation, or a near-orthogonal rotation of the same two
    columns of both arrays. *)
Inductive jacobi_step : list Z * list Z -> list Z * list Z -> Prop :=
  | jacobi_truncate a b w : truncated a b -> jacobi_step (a, w) (b, w)
  | jacobi_rotate a b w w' p q c s : (p < q < columns)%nat -> near_rotation c s ->
      rotated kind rows columns p q c s a b -> rotated kind columns columns p q c s w w' -> jacobi_step (a, w) (b, w').

(** Two columns that the method leaves alone. *)
Definition separated a norms p q : Prop := cell norms p = 0 \/ cell norms q = 0 \/
  2 * Z.abs (correlation_sum kind rows columns p q a (cell norms p) (cell norms q)) <= (2 * tolerance + 1) * LINEARS_FIXED_ONE.

Definition svd_ok (start : list Z * list Z) (st : svd_state) : Prop :=
  array rows columns (svd_b st) /\ array columns columns (svd_w st) /\
  (length (svd_norms st) = columns /\ Forall is_i64 (svd_norms st)) /\ rtc jacobi_step start (svd_b st, svd_w st).

Definition norms_known (st : svd_state) : Prop := forall j, (j < columns)%nat -> norm_known (svd_b st) j (cell (svd_norms st) j).

(** Pairs before (p, q) are separated while nothing rotated. *)
Definition pair_inv start p q (st : svd_state) : Prop := svd_ok start st /\ norms_known st /\
  (svd_rotated st = false -> forall p' q', (p' < q' < columns)%nat -> (p' < p \/ p' = p /\ q' < q)%nat -> separated (svd_b st) (svd_norms st) p' q').

Lemma cell_insert norms j j' (n : Z) : (j < length norms)%nat -> cell (<[j := n]> norms) j' = if decide (j' = j) then n else cell norms j'.
Proof.
  intros Hj. unfold cell. rewrite !nth_lookup. case_decide as E.
  - subst. by rewrite list_lookup_insert_eq by lia.
  - by rewrite list_lookup_insert_ne by done.
Qed.

Lemma cell_range norms j : Forall is_i64 norms -> is_i64 (cell norms j).
Proof.
  intros Hn. unfold cell. rewrite nth_lookup. destruct (norms !! j) eqn:E; cbn; [|rlia]. by eapply Forall_lookup_1 in E.
Qed.

Lemma measured_ext a b j n : same_column kind rows columns j a b -> measured a j n -> measured b j n.
Proof. intros Hs Hm. unfold measured. by rewrite (column_norm_ext kind rows columns j a b Hs). Qed.

Lemma norm_known_ext a b j n : same_column kind rows columns j a b -> norm_known a j n -> norm_known b j n.
Proof.
  intros Hs [[-> Hz]|Hm]; [left; split; [done|]; intros i Hi; by rewrite Hs, Hz|right; by eapply measured_ext].
Qed.

Lemma norm_known_bounds a j n : Forall is_i64 a -> norm_known a j n -> bounds_column kind rows columns j a n.
Proof.
  intros Ha [[-> Hz]|Hm].
  - split; [rlia|]. split; [done|]. intros i Hi. by rewrite (Hz i Hi).
  - pose proof (column_norm_wp kind rows columns j a Ha) as H. unfold wp, measured in *. rewrite Hm in H. by apply H.
Qed.

Lemma measured_wp a j : Forall is_i64 a -> wp (column_norm rows columns j a) (fun n => measured a j n /\ is_i64 n).
Proof.
  intros Ha. eapply wp_mono; [apply wp_eq, column_norm_wp; exact Ha|]. intros n [[Hn _] E]. by split.
Qed.

(** ** One pair *)

Lemma rotation_keeps start p q c s (st : svd_state) b w np nq : (p < q < columns)%nat -> near_rotation c s ->
  svd_ok start st -> norms_known st -> rotated kind rows columns p q c s (svd_b st) b -> rotated kind columns columns p q c s (svd_w st) w ->
  measured b p np -> is_i64 np -> measured b q nq -> is_i64 nq ->
  pair_inv start p (q + 1) (mk_svd b w (<[q := nq]> (<[p := np]> (svd_norms st))) true LINEARS_OK).
Proof.
  intros Hpq Hcs (Hb & Hw & (Hl & Hn) & Hrtc) Hk Hrb Hrw Hmp Hip Hmq Hiq. split; [|split; [|done]].
  - split; [apply Hrb|]. split; [apply Hrw|]. cbn [svd_norms svd_b svd_w]. split; [split; [by rewrite !length_insert|by repeat apply Forall_insert]|].
    eapply rtc_r; [exact Hrtc|]. by eapply jacobi_rotate.
  - intros j Hj. cbn [svd_norms svd_b]. rewrite !cell_insert by (rewrite ?length_insert; lia).
    case_decide as Eq; [subst; by right|]. case_decide as Ep; [subst; by right|].
    eapply norm_known_ext; [|by apply Hk]. by eapply rotated_same.
Qed.

Lemma separated_pair a norms p q (n m : Z) corr : n = cell norms p -> m = cell norms q ->
  corr = div_nearest (correlation_sum kind rows columns p q a n m) LINEARS_FIXED_ONE -> Z.abs corr <= tolerance -> separated a norms p q.
Proof.
  intros -> -> Ec Hc. right. right. set (sum := correlation_sum _ _ _ _ _ _ _ _) in *.
  pose proof (div_nearest_error sum LINEARS_FIXED_ONE ltac:(done)) as He. rewrite <- Ec in He. clear - Hc He.
  assert (2 * Z.abs sum <= 2 * Z.abs (corr * LINEARS_FIXED_ONE) + LINEARS_FIXED_ONE) by lia.
  rewrite Z.abs_mul in H. unfold LINEARS_FIXED_ONE in *. lia.
Qed.

Lemma svd_pair_step start sweep p q (st : svd_state) : Z.of_nat rows < 4294967296 -> (p < q < columns)%nat -> pair_inv start p q st ->
  (svd_pair rows columns sweep max_sweeps tolerance p q st).1 = LINEARS_OK ->
  pair_inv start p (q + 1) (svd_pair rows columns sweep max_sweeps tolerance p q st).2.
Proof.
  intros Hrows Hpq (Hok & Hk & Hsep). pose proof Hok as (Hb & Hw & (Hl & Hn) & Hrtc).
  assert (separated (svd_b st) (svd_norms st) p q -> forall s, pair_inv start p (q + 1) (with_status st s)) as Hkeep.
  { intros Hs s. split; [done|]. split; [done|]. cbn [svd_rotated with_status svd_b svd_norms]. intros Hr p' q' Hpq' Hbef.
    destruct (decide (p' = p /\ q' = q)) as [[-> ->]|]; [done|]. apply Hsep; [done|done|lia]. }
  unfold svd_pair. cbv zeta. cbn [D_CMP D_ZERO D_ABS D_FIXED fixed_arith fixed_ortho]. rewrite !fcq_cmp_sign.
  set (np := cell (svd_norms st) p) in *. set (nq := cell (svd_norms st) q) in *.
  assert (is_i64 np /\ is_i64 nq) as [Hnp Hnq] by (split; by apply cell_range).
  destruct ((Z.sgn (np - 0) =? 0) || (Z.sgn (nq - 0) =? 0)) eqn:Ez.
  { intros _. destruct st. apply Hkeep. apply orb_true_iff in Ez. unfold separated. fold np nq. lia. }
  zbool. pose proof (norm_known_bounds _ _ _ (proj2 Hb) (Hk p ltac:(lia))) as Bp. pose proof (norm_known_bounds _ _ _ (proj2 Hb) (Hk q ltac:(lia))) as Bq.
  fold np in Bp. fold nq in Bq. pose proof (correlation_bound kind rows columns p q (svd_b st) np nq ltac:(destruct Bp; lia) ltac:(destruct Bq; lia) Bp Bq) as Hsum.
  set (correlation := settle (svd_correlation _ _ _ _ _ _ _) 0). destruct (status_ok correlation.1) eqn:Ec; cbn [negb]; [|intros E; cbn in E; by rewrite E in Ec].
  apply status_ok_true in Ec. revert Ec. intros Ec. pose proof (settle_ok _ 0 _ (svd_correlation_wp kind rows columns p q (svd_b st) np nq (proj2 Hb) Hnp Hnq) Ec) as [Hci Ecv].
  fold correlation in Hci, Ecv.
  assert (settle (fcq_abs correlation.2) 0 = (LINEARS_OK, Z.abs correlation.2)) as ->.
  { pose proof (div_nearest_between (correlation_sum kind rows columns p q (svd_b st) np nq) LINEARS_FIXED_ONE
      (- (Z.of_nat rows * LINEARS_FIXED_ONE)) (Z.of_nat rows * LINEARS_FIXED_ONE) ltac:(done) ltac:(lia)) as Hbt. rewrite <- Ecv in Hbt.
    destruct (fcq_call_total (linears_fixed_abs correlation.2) (Z.abs correlation.2)) as (x & E & ->); [by apply (fcq_abs_eq _ 0)|unfold LINEARS_FIXED_ONE in *; rlia|].
    unfold settle, fcq_abs. by rewrite E. }
  cbn [fst snd]. destruct (Z.leb_spec (Z.sgn (Z.abs correlation.2 - tolerance)) 0) as [Hle|Hgt].
  { intros _. apply Hkeep. apply (separated_pair _ _ _ _ np nq correlation.2); [done|done|done|lia]. }
  case_if; [done|]. clear Hkeep Hsep Hsum Ecv Bp Bq.
  set (rotation := settle _ (0, 0)). destruct (status_ok rotation.1) eqn:Er; cbn [negb]; [|intros E'; cbn in E'; by rewrite E' in Er].
  apply status_ok_true in Er. pose proof (settle_ok _ (0, 0) _ (svd_rotation_wp kind np nq correlation.2 Hnp Hnq Hci) Er) as Hrot. fold rotation in Hrot. clearbody rotation.
  destruct (true && _); [done|]. pose proof Hrot as (Hrc & Hrs & _).
  set (b := settle _ (svd_b st, false)). destruct (status_ok b.1) eqn:Eb; cbn [negb]; [|intros E'; cbn in E'; by rewrite E' in Eb].
  apply status_ok_true in Eb.
  pose proof (settle_ok _ (svd_b st, false) _ (svd_rotate_columns_wp kind rows columns p q _ _ _ ltac:(lia) ltac:(lia) ltac:(lia) Hrc Hrs Hb) Eb) as Hrb.
  fold b in Hrb. clearbody b. destruct (true && _); [done|].
  set (w := settle _ (svd_w st, false)). destruct (status_ok w.1) eqn:Ew; cbn [negb]; [|intros E'; cbn in E'; by rewrite E' in Ew].
  apply status_ok_true in Ew.
  pose proof (settle_ok _ (svd_w st, false) _ (svd_rotate_columns_wp kind columns columns p q _ _ _ ltac:(lia) ltac:(lia) ltac:(lia) Hrc Hrs Hw) Ew) as Hrw.
  fold w in Hrw. clearbody w. apply (settle_ok _ _ (pair_inv start p (q + 1))).
  apply wp_bind; [|intros; apply sticky_bind; [apply column_norm_sticky|solve_sticky]]. eapply wp_mono; [apply measured_wp, Hrb|]. intros mp [Hmp Hip].
  apply wp_bind; [|solve_sticky]. eapply wp_mono; [apply measured_wp, Hrb|]. intros mq [Hmq Hiq]. apply wp_ret.
  eapply rotation_keeps; try done; [exact Hrot|exact Hrb|exact Hrw].
Qed.

(** ** One sweep *)

(** The norms of the first columns, and the largest of them. *)
Definition norms_seen (st : svd_state) (hi : nat) (best : svd_state * Z) : Prop :=
  svd_b best.1 = svd_b st /\ svd_w best.1 = svd_w st /\ svd_rotated best.1 = svd_rotated st /\
  (length (svd_norms best.1) = columns /\ Forall is_i64 (svd_norms best.1)) /\
  (forall j, (j < hi)%nat -> measured (svd_b st) j (cell (svd_norms best.1) j) /\ cell (svd_norms best.1) j <= best.2) /\
  is_i64 best.2 /\ (best.2 = 0 \/ exists j, (j < hi)%nat /\ best.2 = cell (svd_norms best.1) j).

Lemma svd_column_norms_spec (st : svd_state) : array rows columns (svd_b st) -> length (svd_norms st) = columns -> Forall is_i64 (svd_norms st) ->
  (svd_column_norms rows columns st).1 = LINEARS_OK -> norms_seen st columns (svd_column_norms rows columns st).2.
Proof.
  intros [_ Hb] Hl Hn. unfold svd_column_norms. apply (for_status_ok (norms_seen st)).
  - intros p best Hp (Eb & Ew & Er & [Hln Hfn] & Hseen & Hbi & Hat). cbv zeta. cbn [fst snd].
    set (norm := resume _ _ _). intros E. destruct (resume_ok _ _ _ (column_norm_sticky kind rows columns p _) E) as [_ Es]. unfold norm in E. rewrite Es in E.
    assert (measured (svd_b st) p norm.2 /\ is_i64 norm.2) as [Hm Hi].
    { unfold norm. rewrite Es. revert E. apply (settle_ok _ _ (fun n => measured (svd_b st) p n /\ is_i64 n)). rewrite Eb. by apply measured_wp. }
    clearbody norm. clear E Es. cbn [D_CMP fixed_arith]. rewrite fcq_cmp_sign.
    set (largest := if 0 <? _ then norm.2 else best.2). assert (largest = Z.max norm.2 best.2) as El by (unfold largest; case_if; lia). rewrite El. clear largest El.
    split; [done|]. split; [done|]. split; [done|]. cbn [svd_norms svd_b with_status with_norms fst snd].
    split; [split; [by rewrite length_insert|by apply Forall_insert]|]. split; [|split; [rlia|]].
    + intros j Hj. rewrite cell_insert by lia. case_decide as Ej; [subst; split; [done|lia]|].
      destruct (Hseen j ltac:(lia)). split; [done|lia].
    + destruct (Z.max_spec norm.2 best.2) as [[_ ->]|[_ ->]].
      * destruct Hat as [->|(j & Hj & ->)]; [by left|right]. exists j. split; [lia|]. rewrite cell_insert by lia. by rewrite decide_False by lia.
      * right. exists p. split; [lia|]. rewrite cell_insert by lia. by rewrite decide_True.
  - split; [done|]. split; [done|]. split; [done|]. split; [done|]. split; [lia|]. split; [cbn; rlia|by left].
Qed.

Definition cut (cutoff : Z) (st : svd_state) (hi : nat) (st' : svd_state) : Prop :=
  array rows columns (svd_b st') /\ svd_w st' = svd_w st /\ svd_rotated st' = svd_rotated st /\
  (length (svd_norms st') = columns /\ Forall is_i64 (svd_norms st')) /\
  forall j, (j < columns)%nat ->
    if (j <? hi)%nat && (cell (svd_norms st) j <=? cutoff) then zero_column (svd_b st') j /\ cell (svd_norms st') j = 0
    else same_column kind rows columns j (svd_b st) (svd_b st') /\ cell (svd_norms st') j = cell (svd_norms st) j.

Lemma svd_truncate_spec (cutoff : Z) (st : svd_state) : array rows columns (svd_b st) -> length (svd_norms st) = columns -> Forall is_i64 (svd_norms st) ->
  cut cutoff st columns (svd_truncate rows columns cutoff st).
Proof.
  intros Hb Hl Hn. unfold svd_truncate. apply (for_up_rule _ (cut cutoff st) columns); [|lia|].
  - intros p st' Hp (Hb' & Ew & Er & [Hl' Hn'] & Hcols). cbn [D_CMP fixed_arith]. rewrite fcq_cmp_sign.
    pose proof (Hcols p Hp) as Hpc. rewrite Nat.ltb_irrefl in Hpc. cbn [andb] in Hpc. destruct Hpc as [Hps Hpn]. rewrite Hpn.
    destruct (Z.leb_spec (cell (svd_norms st) p) cutoff) as [Hle|Hgt].
    + rewrite (proj2 (Z.leb_le _ 0)) by lia. assert (forall i : nat, is_i64 ((fun _ => 0) i)) as H0 by (intros; rlia).
      destruct (set_column_spec kind rows columns p (fun _ => 0) (svd_b st') Hp Hb' H0) as [[Hb2 Hsame] Hz].
      split; [done|]. split; [done|]. split; [done|]. cbn [svd_norms svd_b]. split; [split; [by rewrite length_insert|apply Forall_insert; [done|cbn; rlia]]|].
      intros j Hj. rewrite cell_insert by lia. specialize (Hcols j Hj). destruct (decide (j = p)) as [->|Hne].
      * rewrite (proj2 (Nat.ltb_lt _ _)), (proj2 (Z.leb_le _ _) Hle) by lia. by split.
      * replace (j <? S p)%nat with (j <? p)%nat by (destruct (Nat.ltb_spec j p), (Nat.ltb_spec j (S p)); done || lia).
        destruct (_ && _); destruct Hcols as [H1 H2]; (split; [|done]); intros i Hi; rewrite Hsame by done; by apply H1.
    + rewrite (proj2 (Z.leb_gt _ 0)) by lia. split; [done|]. split; [done|]. split; [done|]. split; [done|]. intros j Hj. specialize (Hcols j Hj).
      destruct (decide (j = p)) as [->|Hne]; [rewrite (proj2 (Z.leb_gt _ _) Hgt), andb_false_r in *; done|].
      replace (j <? S p)%nat with (j <? p)%nat by (destruct (Nat.ltb_spec j p), (Nat.ltb_spec j (S p)); done || lia). exact Hcols.
  - split; [done|]. split; [done|]. split; [done|]. split; [done|]. intros j Hj. done.
Qed.

(** A successful sweep keeps the invariant, and separates every pair when it rotates none. *)
Lemma svd_sweep_step start sweep (st : svd_state) : Z.of_nat rows < 4294967296 -> is_i64 tolerance -> svd_ok start st ->
  (svd_sweep rows columns sweep max_sweeps tolerance st).1 = LINEARS_OK ->
  pair_inv start columns columns (svd_sweep rows columns sweep max_sweeps tolerance st).2.
Proof.
  intros Hrows Htol (Hb & Hw & [Hl Hn] & Hrtc). unfold svd_sweep, require. cbv zeta. set (begin := mk_svd _ _ _ false _).
  set (normed := svd_column_norms rows columns begin). destruct (status_ok normed.1) eqn:E1; [|intros E; cbn in E; by rewrite E in E1].
  apply status_ok_true in E1. destruct (svd_column_norms_spec begin Hb Hl Hn E1) as (Eb & Ew & Er & [Hl1 Hn1] & Hseen & Hli & Hat).
  fold normed in Eb, Ew, Er, Hl1, Hn1, Hseen, Hli, Hat. clearbody normed. cbn [begin svd_b svd_w svd_rotated] in Eb, Ew, Er, Hseen.
  set (cutoff := resume _ _ _). destruct (status_ok cutoff.1) eqn:E2; [|intros E; cbn in E; by rewrite E in E2].
  apply status_ok_true in E2. assert (cutoff.2 = div_nearest (normed.2.2 * tolerance) LINEARS_FIXED_ONE) as Ecut.
  { assert (sticky (fcq_mul normed.2.2 tolerance)) as Hst by solve_sticky.
    assert (cutoff = settle (fcq_mul normed.2.2 tolerance) 0) as Ers by apply (resume_ok _ _ _ Hst E2). rewrite Ers in E2 |- *.
    revert E2. apply (settle_ok _ _ (fun x => x = _)). cbn [D_MUL fixed_arith]. eapply wp_mono; [by apply fixed_mul_wp|]. by intros x []. }
  clearbody cutoff. destruct (svd_truncate_spec cutoff.2 (with_status normed.2.1 cutoff.1)) as (Hb2 & Ew2 & Er2 & [Hl2 Hn2] & Hcols); [cbn; by rewrite Eb|done|done|].
  set (cutst := svd_truncate _ _ _ _) in *. clearbody cutst. cbn [with_status svd_b svd_w svd_rotated svd_norms] in *. rewrite Eb in Hcols.
  assert (svd_ok start cutst) as Hok.
  { split; [done|]. split; [by rewrite Ew2, Ew|]. split; [done|]. eapply rtc_r; [exact Hrtc|]. rewrite Ew2, Ew. apply jacobi_truncate.
    split; [done|]. exists (cell (svd_norms normed.2.1)), normed.2.2. split; [done|]. split; [done|]. intros j Hj. specialize (Hcols j Hj).
    rewrite (proj2 (Nat.ltb_lt _ _) Hj) in Hcols. cbn [andb] in Hcols. rewrite <- Ecut. case_if; apply Hcols. }
  assert (norms_known cutst) as Hkn.
  { intros j Hj. specialize (Hcols j Hj). rewrite (proj2 (Nat.ltb_lt _ _) Hj) in Hcols. cbn [andb] in Hcols. case_if_in Hcols; destruct Hcols as [H1 ->].
    - by left.
    - right. eapply measured_ext; [exact H1|]. by apply Hseen. }
  assert (pair_inv start 0 1 cutst) as Hinv by (split; [done|]; split; [done|]; lia).
  clear - Hrows Hinv. intros E.
  assert (forall p st, (p < columns)%nat -> pair_inv start p (p + 1) st ->
    (for_status (p + 1) (columns - (p + 1)) (svd_pair rows columns sweep max_sweeps tolerance p) st).1 = LINEARS_OK ->
    pair_inv start (p + 1) (p + 1 + 1) (for_status (p + 1) (columns - (p + 1)) (svd_pair rows columns sweep max_sweeps tolerance p) st).2) as Hrow.
  { intros p st Hp Hst Ep.
    pose proof (for_status_ok (pair_inv start p) (svd_pair rows columns sweep max_sweeps tolerance p) (p + 1) (columns - (p + 1)) st
      (fun q s Hq => svd_pair_step start sweep p q s Hrows ltac:(lia)) Hst Ep) as (H1 & H2 & H3).
    split; [done|]. split; [done|]. intros Hr p' q' Hpq Hbef. apply H3; [done|done|lia]. }
  pose proof (for_status_ok (fun p st => pair_inv start p (p + 1) st) _ 0 columns cutst (fun p st Hp => Hrow p st ltac:(lia)) Hinv E) as (H1 & H2 & H3).
  split; [done|]. split; [done|]. intros Hr p' q' Hpq _. apply H3; [done|done|lia].
Qed.

Lemma svd_sweeps_result start fuel sweep (st : svd_state) r : Z.of_nat rows < 4294967296 -> is_i64 tolerance -> svd_ok start st ->
  svd_sweeps fuel rows columns sweep max_sweeps tolerance st = Some r -> r.1 = LINEARS_OK ->
  svd_ok start r.2 /\ norms_known r.2 /\ forall p q, (p < q < columns)%nat -> separated (svd_b r.2) (svd_norms r.2) p q.
Proof.
  intros Hrows Htol. revert sweep st. induction fuel as [|fuel IH]; intros sweep st Hok; [done|]. cbn [svd_sweeps].
  pose proof (svd_sweep_step start sweep st Hrows Htol Hok) as Hstep. set (s := svd_sweep _ _ _ _ _ _) in *. clearbody s.
  destruct (status_ok s.1) eqn:Es; cbn [andb].
  - apply status_ok_true in Es. destruct (Hstep Es) as (H1 & H2 & H3). destruct (svd_rotated s.2); [by apply IH|].
    intros [= <-] _. split; [done|]. split; [done|]. intros p q Hpq. apply H3; [done|done|lia].
  - intros [= <-] E. by rewrite E in Es.
Qed.

(** ** The order of the columns *)

Lemma largest_from_spec p norms : (p < columns)%nat ->
  (p <= largest_from columns p norms < columns)%nat /\ forall k, (p <= k < columns)%nat -> cell norms k <= cell norms (largest_from columns p norms).
Proof.
  intros Hp. unfold largest_from.
  apply (for_up_rule _ (fun hi l => (p <= l < hi)%nat /\ forall k, (p <= k < hi)%nat -> cell norms k <= cell norms l) columns); [|lia|].
  - intros q l Hq [Hl Hle]. cbn [D_CMP fixed_arith]. rewrite fcq_cmp_sign.
    destruct (Z.ltb_spec 0 (Z.sgn (cell norms q - cell norms l))) as [Hlt|Hge]; (split; [lia|]); intros k Hk;
      (destruct (decide (k = q)) as [->|]; [lia|]); specialize (Hle k ltac:(lia)); lia.
  - split; [lia|]. intros k Hk. assert (k = p) as -> by lia. lia.
Qed.

(** The columns in the order [sigma]. *)
Definition arranged (b0 w0 : list Z) (n0 : nat -> Z) (sigma : list nat) (st : svd_state) : Prop :=
  array rows columns (svd_b st) /\ array columns columns (svd_w st) /\
  (length (svd_norms st) = columns /\ Forall is_i64 (svd_norms st)) /\
  (length sigma = columns /\ sigma ≡ₚ seq 0 columns) /\
  forall j, (j < columns)%nat -> cell (svd_norms st) j = n0 (nth j sigma 0%nat) /\
    (forall i, (i < rows)%nat -> at_index columns (svd_b st) i j = at_index columns b0 i (nth j sigma 0%nat)) /\
    (forall i, (i < columns)%nat -> at_index columns (svd_w st) i j = at_index columns w0 i (nth j sigma 0%nat)).

Definition descending norms (hi : nat) : Prop :=
  forall j k, (j < hi)%nat -> (j <= k < columns)%nat -> cell norms k <= cell norms j.

Lemma swap_columns_arranged b0 w0 n0 sigma p l (st : svd_state) : (p < columns)%nat -> (l < columns)%nat -> l <> p -> arranged b0 w0 n0 sigma st ->
  arranged b0 w0 n0 (swap_entries p l sigma)
    (mk_svd (swap_columns rows columns p l (svd_b st)) (swap_columns columns columns p l (svd_w st))
       (<[l := cell (svd_norms st) p]> (<[p := cell (svd_norms st) l]> (svd_norms st))) (svd_rotated st) (svd_status st)) /\
  forall j, cell (<[l := cell (svd_norms st) p]> (<[p := cell (svd_norms st) l]> (svd_norms st))) j = cell (svd_norms st) (swap_index p l j).
Proof.
  intros Hp Hl Hne (Hb & Hw & [Hln Hn] & [Hls Hs] & Hcols).
  destruct (swap_columns_spec kind rows columns p l _ Hp Hl ltac:(lia) Hb) as [Hb' Hbv].
  destruct (swap_columns_spec kind columns columns p l _ Hp Hl ltac:(lia) Hw) as [Hw' Hwv].
  assert (forall j, cell (<[l := cell (svd_norms st) p]> (<[p := cell (svd_norms st) l]> (svd_norms st))) j = cell (svd_norms st) (swap_index p l j)) as Hcell.
  { intros j. rewrite !cell_insert by (rewrite ?length_insert; lia). unfold swap_index. repeat case_decide; congruence. }
  split; [|exact Hcell]. split; [done|]. split; [done|]. cbn [svd_norms svd_b svd_w].
  split; [split; [by rewrite !length_insert|repeat apply Forall_insert; auto; by apply cell_range]|].
  split; [split; [by rewrite length_swap_entries|by rewrite swap_entries_perm by lia]|].
  intros j Hj. rewrite Hcell. rewrite nth_swap_entries by lia. fold (swap_index p l j).
  destruct (Hcols (swap_index p l j)) as (H1 & H2 & H3); [by apply swap_index_lt|].
  split; [done|]. split; intros i Hi; [rewrite Hbv by done|rewrite Hwv by done]; auto.
Qed.

Lemma svd_order_spec b0 w0 n0 (st : svd_state) sigma0 : arranged b0 w0 n0 sigma0 st ->
  exists sigma, arranged b0 w0 n0 sigma (for_up 0 columns (svd_order rows columns) st) /\
    descending (svd_norms (for_up 0 columns (svd_order rows columns) st)) columns.
Proof.
  intros H0. apply (for_up_rule _ (fun hi s => exists sigma, arranged b0 w0 n0 sigma s /\ descending (svd_norms s) hi) columns); [|lia|].
  - intros p s Hp (sigma & Ha & Hd). unfold svd_order. destruct (largest_from_spec p (svd_norms s) Hp) as [Hl Hle].
    set (l := largest_from _ _ _) in *. clearbody l. cbv zeta. destruct (Nat.eqb_spec l p) as [->|Hne].
    + exists sigma. split; [done|]. intros j k Hj Hk. destruct (decide (j = p)) as [->|]; [by apply Hle|apply Hd; lia].
    + destruct (swap_columns_arranged b0 w0 n0 sigma p l s Hp ltac:(lia) Hne Ha) as [Ha' Hcell].
      exists (swap_entries p l sigma). split; [done|]. cbn [svd_norms]. intros j k Hj Hk. rewrite !Hcell.
      destruct (decide (j = p)) as [->|Hjp].
      * replace (swap_index p l p) with l by (unfold swap_index; by rewrite decide_True). apply Hle. apply swap_index_active; lia.
      * rewrite (swap_index_below p p l j) by lia. apply Hd; [lia|].
        pose proof (swap_index_active (S j) p l columns k). destruct (decide (k = j)) as [->|]; [rewrite (swap_index_below p p l j) by lia; lia|]. lia.
  - exists sigma0. split; [done|]. intros j k Hj. lia.
Qed.

(** ** The normalized columns *)

Lemma svd_complete_column_frame j a : (j < columns)%nat -> array rows columns a -> (svd_complete_column rows columns j a).1 = LINEARS_OK ->
  only_column kind rows columns j a (svd_complete_column rows columns j a).2.
Proof. intros Hj Ha. apply svd_try_coordinates_frame; [done|by split]. Qed.

Definition normalized (from : svd_state) (hi : nat) (st : svd_state) : Prop :=
  array rows columns (svd_b st) /\ svd_w st = svd_w from /\ svd_norms st = svd_norms from /\
  forall j, (j < columns)%nat ->
    if (j <? hi)%nat
    then cell (svd_norms from) j <> 0 -> forall i, (i < rows)%nat -> at_index columns (svd_b st) i j = unit_element (at_index columns (svd_b from) i j) (cell (svd_norms from) j)
    else same_column kind rows columns j (svd_b from) (svd_b st).

Lemma normalized_step from p b st s : (p < columns)%nat -> normalized from p st -> only_column kind rows columns p (svd_b st) b ->
  (cell (svd_norms from) p <> 0 -> forall i, (i < rows)%nat -> at_index columns b i p = unit_element (at_index columns (svd_b from) i p) (cell (svd_norms from) p)) ->
  normalized from (p + 1) (mk_svd b (svd_w st) (svd_norms st) (svd_rotated st) s).
Proof.
  intros Hp (_ & Ew & En & Hcols) [Hb Hsame] Hnew. split; [done|]. split; [done|]. split; [done|]. intros j Hj. specialize (Hcols j Hj).
  cbn [svd_b]. destruct (Nat.ltb_spec j (p + 1)) as [Hlt|Hge].
  - destruct (decide (j = p)) as [->|Hne]; [done|]. rewrite (proj2 (Nat.ltb_lt j p)) in Hcols by lia.
    intros Hnz i Hi. rewrite Hsame by done. by apply Hcols.
  - rewrite (proj2 (Nat.ltb_ge j p)) in Hcols by lia. intros i Hi. rewrite Hsame by (done || lia). by apply Hcols.
Qed.

Lemma svd_normalize_spec (st : svd_state) : array rows columns (svd_b st) -> Forall is_i64 (svd_norms st) ->
  (for_status 0 columns (svd_normalize rows columns) st).1 = LINEARS_OK ->
  normalized st columns (for_status 0 columns (svd_normalize rows columns) st).2.
Proof.
  intros Hb Hn. apply (for_status_ok (normalized st)); [|split; [done|]; by split].
  intros p s Hp Hs. pose proof Hs as (Hbs & Ew & En & Hcols). unfold svd_normalize. cbv zeta. cbn [fst snd D_CMP D_ZERO fixed_arith]. rewrite fcq_cmp_sign, En.
  destruct (Z.eqb_spec (Z.sgn (cell (svd_norms st) p - 0)) 0) as [Hz|Hnz]; intros E.
  - rewrite <- En. apply normalized_step; [lia|done|apply svd_complete_column_frame; [lia|done|done]|lia].
  - assert (sticky (svd_divide_column rows columns p (cell (svd_norms st) p) (svd_b s))) as Hst
      by (apply sticky_for_fc; intros; cbn; solve_sticky).
    destruct (resume_ok _ _ _ Hst E) as [_ Er]. rewrite Er in E |- *.
    destruct (settle_ok _ (svd_b s) _ (svd_divide_column_wp kind rows columns p (cell (svd_norms st) p) (svd_b s) ltac:(lia) Hbs ltac:(by apply cell_range)) E) as [Ho Hv].
    set (d := settle _ _) in *. clearbody d. rewrite <- En. apply normalized_step; [lia|done|exact Ho|]. intros _ i Hi. rewrite Hv by done.
    specialize (Hcols p ltac:(lia)). rewrite Nat.ltb_irrefl in Hcols. by rewrite Hcols.
Qed.

(** [st] is a singular value decomposition of [b] times the transpose of [w] as far as the
    method goes: both arrays have undergone the same moves; in the arrays so reached
    every two columns are separated; the result holds those columns in one order, the
    norms descending, each column of nonzero norm divided by its norm. *)
Definition jacobi_result b w (st : svd_state) : Prop :=
  exists b0 w0 n0 (sigma : list nat), rtc jacobi_step (b, w) (b0, w0) /\
    (forall j, (j < columns)%nat -> norm_known b0 j (cell n0 j)) /\
    (forall p q, (p < q < columns)%nat -> separated b0 n0 p q) /\
    sigma ≡ₚ seq 0 columns /\ descending (svd_norms st) columns /\
    forall j, (j < columns)%nat -> let source := nth j sigma 0%nat in
      (cell (svd_norms st) j = cell n0 source /\ bounds_column kind rows columns source b0 (cell n0 source)) /\
      (forall i, (i < columns)%nat -> at_index columns (svd_w st) i j = at_index columns w0 i source) /\
      (cell (svd_norms st) j <> 0 -> forall i, (i < rows)%nat ->
         at_index columns (svd_b st) i j = unit_element (at_index columns b0 i source) (cell (svd_norms st) j)).

Lemma svd_factor_result b w norms (st : svd_state) :
  array rows columns b -> array columns columns w -> length norms = columns -> Forall is_i64 norms ->
  is_i64 tolerance -> Z.of_nat rows < 4294967296 ->
  svd_factor b w norms rows columns max_sweeps tolerance = Some (LINEARS_OK, st) ->
  jacobi_result b w st /\ (array rows columns (svd_b st) /\ array columns columns (svd_w st)) /\
  length (svd_norms st) = columns /\ Forall is_i64 (svd_norms st).
Proof.
  intros Hb Hw Hl Hn Htol Hrows. unfold svd_factor. destruct (svd_sweeps _ _ _ _ _ _ _) as [r|] eqn:Er; [|done].
  intros [= E]. unfold require in E. destruct (status_ok r.1) eqn:Es; [|apply (f_equal fst) in E; cbn in E; by rewrite E in Es].
  apply status_ok_true in Es.
  assert (svd_ok (b, w) (mk_svd b w norms false LINEARS_OK)) as Hstart by (split; [done|]; split; [done|]; split; [done|apply rtc_refl]).
  destruct (svd_sweeps_result (b, w) _ 0 _ r Hrows Htol Hstart Er Es) as ((Hb0 & Hw0 & [Hl0 Hn0] & Hrtc) & Hk & Hsep).
  destruct (svd_order_spec (svd_b r.2) (svd_w r.2) (cell (svd_norms r.2)) r.2 (seq 0 columns)) as (sigma & (Hb1 & Hw1 & [Hl1 Hn1] & [Hls Hs] & Hcols) & Hd).
  { split; [done|]. split; [done|]. split; [done|]. split; [split; [apply length_seq|done]|]. intros j Hj. by rewrite seq_nth by done. }
  set (ordered := for_up 0 columns (svd_order rows columns) r.2) in *. clearbody ordered.
  destruct (svd_normalize_spec ordered Hb1 Hn1) as (Hb2 & Ew & En & Hnorm); [by rewrite E|]. rewrite E in Hb2, Ew, En, Hnorm. cbn [snd] in *.
  split; [|by rewrite Ew, En].
  exists (svd_b r.2), (svd_w r.2), (svd_norms r.2), sigma. split; [done|]. split; [done|]. split; [done|]. split; [done|]. split; [by rewrite En|].
  intros j Hj. cbv zeta. destruct (Hcols j Hj) as (H1 & H2 & H3). rewrite En.
  split; [split; [done|]|split; [intros i Hi; rewrite Ew; by apply H3|]].
  { apply norm_known_bounds; [apply Hb0|]. apply Hk. assert (nth j sigma 0%nat ∈ seq 0 columns) as Hin by (rewrite <- Hs; apply list_elem_of_In, nth_In; lia).
    apply elem_of_seq in Hin. lia. }
  intros Hnz i Hi. specialize (Hnorm j Hj). rewrite (proj2 (Nat.ltb_lt _ _) Hj) in Hnorm. rewrite Hnorm by done. by rewrite H2.
Qed.
End Jacobi.

Section Signals.
Variable f : q_format.
Let kind : numeric_kind := match f with Q15 => Matrix.Q15 | Q31 => Matrix.Q31 end.
#[local] Hint Extern 0 (DArith _ Z) => exact (fixed_arith kind) : typeclass_instances.
#[local] Hint Extern 0 (DArith Z _) => exact (fixed_arith kind) : typeclass_instances.
#[local] Hint Extern 0 (DBlock Z) => exact fixed_block : typeclass_instances.
#[local] Hint Extern 0 (DOrtho Z) => exact fixed_ortho : typeclass_instances.
Implicit Types (m n i j : nat).

(** Entry (i, j) of the tall copy of an m-by-n matrix, which is its transpose if it is wide. *)
Definition tall_index m n i j : nat := if (m <? n)%nat then (j * n + i)%nat else (i * n + j)%nat.
Definition tall_field m n (a : list Z) i j : Z := fcq_field f (nth (tall_index m n i j) a 0).

Definition is_scale m n (a : list Z) (scale : Z) : Prop := is_i64 scale /\ 0 <= scale /\
  (forall i j, (i < Nat.max m n)%nat -> (j < Nat.min m n)%nat -> Z.abs (tall_field m n a i j) <= scale) /\
  (scale = 0 \/ exists i j, (i < Nat.max m n)%nat /\ (j < Nat.min m n)%nat /\ scale = Z.abs (tall_field m n a i j)).

Lemma tall_index_lt m n i j : (i < Nat.max m n)%nat -> (j < Nat.min m n)%nat -> (tall_index m n i j < m * n)%nat.
Proof. intros Hi Hj. unfold tall_index. destruct (Nat.ltb_spec m n); apply cell_lt; lia. Qed.

Lemma field_range (a : list Z) k : Forall (q_repr f) a -> is_i64 (fcq_field f (nth k a 0)).
Proof.
  intros Ha. apply fcq_field_i64. destruct (Nat.lt_ge_cases k (length a)) as [Hlt|Hge].
  - by apply Forall_nth.
  - rewrite nth_overflow by done. by destruct f.
Qed.

(** The copy before cell (r, c), row by row, with the largest magnitude so far. *)
Definition loaded m n (a : list Z) r c (st : list Z * Z) : Prop :=
  length st.1 = (r * Nat.min m n + c)%nat /\ Forall is_i64 st.1 /\
  (forall i j, (i < Nat.max m n)%nat -> (j < Nat.min m n)%nat -> (i < r \/ i = r /\ j < c)%nat -> at_index (Nat.min m n) st.1 i j = tall_field m n a i j) /\
  is_i64 st.2 /\ 0 <= st.2 /\
  (forall i j, (i < Nat.max m n)%nat -> (j < Nat.min m n)%nat -> (i < r \/ i = r /\ j < c)%nat -> Z.abs (tall_field m n a i j) <= st.2) /\
  (st.2 = 0 \/ exists i j, (i < Nat.max m n)%nat /\ (j < Nat.min m n)%nat /\ st.2 = Z.abs (tall_field m n a i j)).

Lemma loaded_step m n (a : list Z) r c b (scale v : Z) : (r < Nat.max m n)%nat -> (c < Nat.min m n)%nat -> loaded m n a r c (b, scale) ->
  v = tall_field m n a r c -> is_i64 v -> is_i64 (Z.abs v) -> loaded m n a r (c + 1) (b ++ [v], Z.max (Z.abs v) scale).
Proof.
  intros Hr Hc (Hl & Hb & Hat & Hs & Hs0 & Hle & Hex) Hv Hvi Hva. unfold loaded. cbn [fst snd] in *.
  split; [rewrite length_app; cbn; lia|]. split; [by apply Forall_app_2; [|constructor]|]. split; [|split; [rlia|split; [lia|split]]].
  - intros i j Hi Hj Hor. unfold at_index. destruct (decide (i = r /\ j = c)) as [[-> ->]|Hne].
    + rewrite app_nth2 by lia. replace (r * Nat.min m n + c - length b)%nat with 0%nat by lia. done.
    + rewrite app_nth1; [apply Hat; (done || lia)|]. rewrite Hl. destruct (decide (i = r)) as [->|]; [lia|nia].
  - intros i j Hi Hj Hor. destruct (decide (i = r /\ j = c)) as [[-> ->]|Hne]; [lia|]. specialize (Hle i j Hi Hj ltac:(lia)). lia.
  - destruct (Z.max_spec (Z.abs v) scale) as [[_ ->]|[_ ->]]; [done|]. right. exists r, c. split; [done|]. split; [done|]. by rewrite Hv.
Qed.

Lemma loaded_row m n (a : list Z) r st : loaded m n a r (Nat.min m n) st -> loaded m n a (r + 1) 0 st.
Proof.
  intros (Hl & Hb & Hat & Hs & Hs0 & Hle & Hex). split; [rewrite Hl; lia|]. split; [done|].
  split; [intros; apply Hat; lia|]. split; [done|]. split; [done|]. split; [intros; apply Hle; lia|done].
Qed.

Lemma svd_load_wp m n (a : list Z) : length a = (m * n)%nat -> Forall (q_repr f) a ->
  wp (svd_load a m n) (fun r => array (Nat.max m n) (Nat.min m n) r.1 /\ is_scale m n a r.2 /\
    forall i j, (i < Nat.max m n)%nat -> (j < Nat.min m n)%nat -> at_index (Nat.min m n) r.1 i j = tall_field m n a i j).
Proof.
  intros Hl Ha. unfold svd_load.
  eapply wp_mono; [apply (wp_for_fc (fun r st => loaded m n a r 0 st))|].
  - intros. apply sticky_for_fc. intros. cbn. destruct (a !! _); solve_sticky.
  - intros r st Hr Hst. eapply wp_mono; [apply (wp_for_fc (fun c st => loaded m n a r c st))|]; [| |exact Hst|intros; by apply loaded_row].
    + intros. cbn. destruct (a !! _); solve_sticky.
    + intros c [b scale] Hc Hbc. cbn [fst snd]. fold (tall_index m n r c).
      destruct (lookup_lt_is_Some_2 a (tall_index m n r c)) as [raw Eraw]; [rewrite Hl; apply tall_index_lt; lia|]. rewrite Eraw.
      assert (tall_field m n a r c = fcq_field f raw) as Ef by (unfold tall_field; by rewrite nth_lookup, Eraw).
      cbn [D_LOAD D_ABS D_CMP fixed_arith]. intros E. revert E. rewrite (import_field f).
      pose proof (field_range a (tall_index m n r c) Ha) as Hi. fold (tall_field m n a r c) in Hi. rewrite Ef in Hi.
      assert (wp (magnitude ← fcq_abs (fcq_field f raw); mret (b ++ [fcq_field f raw], if 0 <? fcq_cmp magnitude scale then magnitude else scale))
        (loaded m n a r (c + 1))) as Hwp.
      { wp_call (fixed_abs_wp (fcq_field f raw)) as x [Ex Hx]. apply wp_ret. rewrite fcq_cmp_sign.
        replace (if 0 <? _ then x else scale) with (Z.max x scale) by (case_if; lia). subst x. by apply loaded_step; (done || lia). }
      exact Hwp.
  - split; [done|]. split; [done|]. split; [lia|]. split; [cbn; rlia|]. split; [done|]. split; [lia|by left].
  - intros st (H1 & H2 & H3 & H4 & H5 & H6 & H7). split; [split; [by rewrite H1, Nat.add_0_r|done]|].
    split; [split; [done|]; split; [done|]; split; [intros; apply H6; lia|done]|]. intros i j Hi Hj. apply H3; lia.
Qed.

(** A loop that maps an operation over the cells. *)
Lemma map_cells_wp (op : Z -> fc Z) (g : Z -> Z) (b : list Z) : (forall x, sticky (op x)) ->
  (forall x, is_i64 x -> wp (op x) (fun y => is_i64 y /\ y = g x)) -> Forall is_i64 b ->
  wp (for_fc 0 (length b) (fun index b => x ← op (cell b index); mret (<[index := x]> b)) b)
    (fun r => length r = length b /\ Forall is_i64 r /\ forall k, (k < length b)%nat -> nth k r 0 = g (nth k b 0)).
Proof.
  intros Hst Hop Hb. eapply wp_mono; [apply (wp_for_fc (fun i r => length r = length b /\ Forall is_i64 r /\
    (forall k, (k < i)%nat -> nth k r 0 = g (nth k b 0)) /\ forall k, (i <= k)%nat -> nth k r 0 = nth k b 0))|].
  - intros. apply sticky_bind; [apply Hst|solve_sticky].
  - intros i r Hi (Hl & Hr & Hdone & Hrest). apply wp_bind; [|solve_sticky].
    eapply wp_mono; [apply Hop; by apply (cell_range kind)|]. intros x [Hx Ex]. apply wp_ret. unfold cell in Ex. cbn [D_ZERO fixed_arith] in Ex. rewrite Hrest in Ex by lia.
    split; [by rewrite length_insert|]. split; [by apply Forall_insert|].
    split; intros k Hk; rewrite nth_lookup.
    + destruct (decide (k = i)) as [->|Hne]; [by rewrite list_lookup_insert_eq by lia|]. rewrite list_lookup_insert_ne, <- nth_lookup by done. apply Hdone. lia.
    + rewrite list_lookup_insert_ne, <- nth_lookup by lia. apply Hrest. lia.
  - split; [done|]. split; [done|]. split; [lia|done].
  - intros r (H1 & H2 & H3 & _). split; [done|]. by split.
Qed.

Lemma nth_zero_bounded (b : list Z) k : Forall (fun v => Z.abs v <= 0) b -> nth k b 0 = 0.
Proof.
  intros Hb. destruct (Nat.lt_ge_cases k (length b)) as [Hlt|Hge]; [|by apply nth_overflow].
  pose proof (proj1 (Forall_nth _ _) Hb k 0 Hlt) as H. cbn in H. lia.
Qed.

(** The scaled copy, and the tolerance in units of 2^-31. *)
Lemma svd_prepare_wp (b : list Z) (scale : Z) rows : Forall is_i64 b -> is_i64 scale -> Forall (fun v => Z.abs v <= scale) b -> Z.of_nat rows <= INT64_MAX ->
  wp (svd_prepare b scale rows) (fun r => length r.1 = length b /\ Forall is_i64 r.1 /\
    (forall k, (k < length b)%nat -> nth k r.1 0 = unit_element (nth k b 0) scale) /\ r.2 = 8 * Z.of_nat rows /\ Z.of_nat rows < 4294967296).
Proof.
  intros Hb Hs Hle Hrows. unfold svd_prepare. cbn [D_CMP D_ZERO D_DIV D_CONST D_MUL D_EPSILON fixed_arith fixed_block fixed_ortho]. rewrite fcq_cmp_sign.
  assert (forall (b : list Z) n, sticky (for_fc 0 n (fun index b => x ← fcq_div (cell b index) scale; mret (<[index := x]> b)) b)) as Hst
    by (intros; apply sticky_for_fc; intros; solve_sticky).
  apply wp_bind; [|intros; solve_sticky].
  eapply (wp_mono _ (fun r => length r = length b /\ Forall is_i64 r /\ forall k, (k < length b)%nat -> nth k r 0 = unit_element (nth k b 0) scale)).
  { apply wp_if; intros Hz; zbool.
    { apply (map_cells_wp (fun x => fcq_div x scale) (fun x => unit_element x scale)); [intros; solve_sticky| |done].
      intros x Hx. eapply wp_mono; [by apply fixed_div_any|]. by intros y (_ & Hy & ->). }
     apply wp_ret. split; [done|]. split; [done|]. intros k Hk.
    assert (scale = 0) as -> by lia. by rewrite nth_zero_bounded. }
  intros b' (Hl & Hb' & Hv). rewrite i64_id by rlia.
  apply wp_bind; [|intros; solve_sticky]. eapply wp_mono; [apply fcq_call_wp, fcq_from_int_eq; rlia|]. intros t [-> Ht].
  wp_call (fixed_mul_wp (Z.of_nat rows * LINEARS_FIXED_ONE) 1) as t1 [Ht1 Et1]; [].
  rewrite Z.mul_1_r, div_nearest_1 in Et1 by done. subst t1.
  apply wp_bind; [|intros; solve_sticky]. eapply wp_mono; [apply fcq_call_wp, (fcq_from_int_eq 8); rlia|]. intros e [-> He].
  wp_call (fixed_mul_wp (8 * LINEARS_FIXED_ONE) (Z.of_nat rows)) as t2 [Ht2 Et2]. apply wp_ret. cbn [fst snd].
  replace (8 * LINEARS_FIXED_ONE * Z.of_nat rows) with (8 * Z.of_nat rows * LINEARS_FIXED_ONE) in Et2 by ring. rewrite div_nearest_1 in Et2 by done.
  split; [done|]. split; [done|]. split; [done|]. split; [done|]. unfold LINEARS_FIXED_ONE in Ht. rlia.
Qed.

Lemma identity_array n : array n n (identity n).
Proof.
  unfold identity. split; [apply length_grid|]. unfold grid. apply Forall_concat, Forall_forall. intros row Hin.
  apply in_map_iff in Hin as (i & <- & _). apply Forall_forall. intros v Hin. apply in_map_iff in Hin as (j & <- & _).
  cbn. case_if; unfold LINEARS_FIXED_ONE; rlia.
Qed.

Lemma stop_not_ok {A} s (x y : A) : status_ok s = false -> Some (s, x) = Some (LINEARS_OK, y) -> False.
Proof. intros Hs [= -> _]. done. Qed.

(** A block delivered after its preflight. *)
Lemma delivered columns count (values : list Z) (out : operand Z) : array count columns values -> check_block values = LINEARS_OK ->
  descriptor (commit out (store_block values)) = descriptor out /\
  forall i j, (i < count)%nat -> (j < columns)%nat -> Z.abs (at_index columns values i j) <= LINEARS_FIXED_ONE /\
    element_at columns (commit out (store_block values)) i j = q_round f (at_index columns values i j).
Proof.
  intros [Hl Hv] Hc. assert (deliver_block values out = (LINEARS_OK, commit out (store_block values))) as E by (unfold deliver_block, require; by rewrite Hc).
  destruct (deliver_block_ok f values out _ Hv E) as (H1 & _ & H2 & H3). split; [done|]. intros i j Hi Hj.
  pose proof (cell_lt columns count i j Hi Hj). split; [|apply H3; lia].
  apply (proj1 (Forall_nth _ _) H2 (i * columns + j)%nat 0). lia.
Qed.

(** C14. A successful q15 or q31 SVD: the tall copy of the input, divided by its largest
    magnitude, is decomposed with the tolerance of 8 max(m, n) units; U and V (the two
    factors, exchanged when the input is wide) lie within [-1, 1] and are stored with
    each element rounded once, and the singular values are the column norms times the
    scale, rounded once more. *)
Theorem linears_svd_spec (target : decomp_abi) (a u singular_values v : operand Z) (max_sweeps : nat) (w : workspace) (u' s' v' : operand Z) :
  signals_ok f a -> 0 < rows (descriptor a) <= INT64_MAX -> 0 < cols (descriptor a) <= INT64_MAX ->
  linears_svd target a u singular_values v max_sweeps w = Some (LINEARS_OK, (u', s', v')) ->
  let m := Z.to_nat (rows (descriptor a)) in
  let n := Z.to_nat (cols (descriptor a)) in
  let tall := Nat.max m n in
  let columns := Nat.min m n in
  exists scale B st, is_scale m n (elements a) scale /\
    (array tall columns B /\ forall i j, (i < tall)%nat -> (j < columns)%nat -> at_index columns B i j = unit_element (tall_field m n (elements a) i j) scale) /\
    jacobi_result kind tall columns (8 * Z.of_nat tall) B (identity columns) st /\
    let U := if (m <? n)%nat then svd_w st else svd_b st in
    let V := if (m <? n)%nat then svd_b st else svd_w st in
    (descriptor u' = descriptor u /\ forall i j, (i < m)%nat -> (j < columns)%nat ->
       Z.abs (at_index columns U i j) <= LINEARS_FIXED_ONE /\ element_at columns u' i j = q_round f (at_index columns U i j)) /\
    (descriptor s' = descriptor singular_values /\ forall j, (j < columns)%nat ->
       element_at 1 s' j 0 = q_round f (div_nearest (cell (svd_norms st) j * scale) LINEARS_FIXED_ONE)) /\
    (descriptor v' = descriptor v /\ forall i j, (i < n)%nat -> (j < columns)%nat ->
       Z.abs (at_index columns V i j) <= LINEARS_FIXED_ONE /\ element_at columns v' i j = q_round f (at_index columns V i j)).
Proof.
  intros (_ & _ & Hlen & Hall) Hm Hn. unfold linears_svd. cbv zeta.
  do 3 (case_if; [intros E'; exfalso; first [discriminate E'|by eapply stop_not_ok in E']|]).
  case_if; [lia|]. set (m := Z.to_nat (rows (descriptor a))). set (n := Z.to_nat (cols (descriptor a))).
  set (tall := Nat.max m n). set (columns := Nat.min m n).
  assert (length (elements a) = (m * n)%nat) as Hl by (unfold m, n; lia).
  pose proof (settle_ok _ ([], 0) _ (svd_load_wp m n (elements a) Hl Hall)) as Hload. set (loaded := settle (svd_load _ _ _) _) in *. clearbody loaded.
  destruct (status_ok loaded.1) eqn:EL; cbn [negb]; [|intros E'; by eapply stop_not_ok in E']. apply status_ok_true in EL.
  destruct (Hload EL) as (Hb & Hscale & Hat). destruct loaded as [s1 [b scale]]. cbn [fst snd] in *. clear Hload EL s1.
  assert (Forall (fun v => Z.abs v <= scale) b) as Hle.
  { apply Forall_nth. intros k d Hk. destruct Hb as [Hbl _]. pose proof Hscale as (_ & _ & Hsc & _).
    specialize (Hsc (k / columns)%nat (k mod columns)%nat). assert (columns <> 0)%nat by (unfold columns; lia).
    rewrite (nth_indep _ d 0) by done. pose proof (Nat.div_mod_eq k columns) as Ek. pose proof (Nat.mod_upper_bound k columns ltac:(done)) as Hmod.
    assert (k / columns < tall)%nat as Hdiv by (apply Nat.Div0.div_lt_upper_bound; fold tall columns in Hbl; lia).
    rewrite <- (Hat (k / columns)%nat (k mod columns)%nat Hdiv Hmod) in Hsc. specialize (Hsc Hdiv Hmod).
    unfold at_index in Hsc. fold columns in Hsc. replace (k / columns * columns + k mod columns)%nat with k in Hsc by lia. exact Hsc. }
  pose proof (settle_ok _ ([], 0) _ (svd_prepare_wp b scale tall (proj2 Hb) (proj1 Hscale) Hle ltac:(unfold tall, m, n; lia))) as Hprep.
  set (prepared := settle (svd_prepare _ _ _) _) in *. clearbody prepared.
  destruct (status_ok prepared.1) eqn:EP; cbn [negb]; [|intros E'; by eapply stop_not_ok in E']. apply status_ok_true in EP.
  destruct (Hprep EP) as (HBl & HB & HBv & Htol & Htall). destruct prepared as [s1 [B tolerance]]. cbn [fst snd] in *. subst tolerance. clear Hprep EP s1.
  case_if; [done|].
  assert (array tall columns B) as HBa by (split; [rewrite HBl; apply Hb|done]).
  destruct (svd_factor _ _ _ _ _ _ _) as [r|] eqn:Er; [|done]. intros E'. apply (f_equal (default (LINEARS_ERROR_RANGE, (u, singular_values, v)))) in E'. cbn [default] in E'.
  apply require_ok in E' as [Es E']. destruct r as [s1 st]. cbn [fst snd] in *. subst s1.
  destruct (svd_factor_result kind tall columns max_sweeps (8 * Z.of_nat tall) B (identity columns : list Z) (repeat 0 columns) st) as (Hres & [Hsb Hsw] & Hnl & Hni);
    [done|apply identity_array|apply repeat_length|apply Forall_forall; intros x Hx; apply repeat_spec in Hx as ->; cbn; rlia|rlia|done|exact Er|].
  pose proof (settle_ok _ [] _ (map_cells_wp (fun x => fcq_mul x scale) (fun x => div_nearest (x * scale) LINEARS_FIXED_ONE) (svd_norms st)
    ltac:(intros; cbn beta; solve_sticky) ltac:(intros x Hx; cbn beta; apply fixed_mul_wp; [done|apply Hscale]) Hni)) as Hnorms.
  apply require_ok in E' as [EN E']. rewrite Hnl in Hnorms. specialize (Hnorms EN). set (scaled := settle _ []) in *. destruct Hnorms as (Hsl & Hsi & Hsv).
  apply require_ok in E' as [EU E']. apply require_ok in E' as [ES E']. apply require_ok in E' as [EV E']. apply (f_equal snd) in E'. cbn [snd] in E'.
  clear Er EN. fold scaled in Hsl, Hsi, Hsv, ES, E'. clearbody scaled.
  exists scale, B, st. split; [exact Hscale|]. split; [split; [done|]|].
  { intros i j Hi Hj. unfold at_index. cbn [D_ZERO fixed_arith]. rewrite HBv by (destruct Hb as [-> _]; by apply cell_lt).
    pose proof (Hat i j Hi Hj) as Eat. unfold at_index in Eat. by rewrite <- Eat. }
  split; [exact Hres|]. cbv zeta. inversion E' as [[Eu Ev Ew]]. clear E' Eu Ev Ew.
  assert (array m columns (if (m <? n)%nat then svd_w st else svd_b st) /\ array n columns (if (m <? n)%nat then svd_b st else svd_w st)) as [HU HV].
  { unfold tall, columns in *. destruct (Nat.ltb_spec m n); (split; [|]); (rewrite Nat.min_l, Nat.max_r in * by lia; done) || (rewrite Nat.min_r, Nat.max_l in * by lia; done). }
  split; [apply (delivered columns m _ u HU EU)|]. split; [|apply (delivered columns n _ v HV EV)].
  destruct (delivered 1 columns scaled.2 singular_values) as [H5 H6]; [split; [by rewrite Nat.mul_1_r, Hsl|done]|exact ES|].
  split; [exact H5|]. intros j Hj. destruct (H6 j 0%nat Hj ltac:(lia)) as [_ ->]. f_equal. unfold at_index, cell. rewrite Nat.mul_1_r, Nat.add_0_r. by apply Hsv.
Qed.
End Signals.

(** A symmetric matrix with the singular values 3/4 and 1/4. *)
Definition svd_input : operand Z := sample_matrix 256 1024 [1073741824; 536870912; 536870912; 1073741824].
Definition svd_call : option (linears_status_t * svd_result) :=
  @linears_svd Z Z (fixed_arith Matrix.Q31) fixed_block fixed_ortho rv32 svd_input
    (sample_matrix 320 2048 [1; 2; 3; 4; 5]) (mk_operand (mk_matrix 384 2560 2 1) [1; 2; 3]) (sample_matrix 448 3072 [1; 2; 3; 4; 5]) 10 sample_space.

Lemma linears_svd_spec_witness :
  svd_call = Some (LINEARS_OK, (sample_matrix 320 2048 [1518500250; 1518500250; 1518500250; -1518500250; 5],
    mk_operand (mk_matrix 384 2560 2 1) [1610612736; 536870912; 3], sample_matrix 448 3072 [1518500250; 1518500250; 1518500250; -1518500250; 5])) /\
  exists scale, is_scale Q31 2 2 (elements svd_input) scale.
Proof.
  assert (svd_call = Some (LINEARS_OK, (sample_matrix 320 2048 [1518500250; 1518500250; 1518500250; -1518500250; 5],
    mk_operand (mk_matrix 384 2560 2 1) [1610612736; 536870912; 3], sample_matrix 448 3072 [1518500250; 1518500250; 1518500250; -1518500250; 5]))) as E
    by (vm_compute; reflexivity).
  split; [exact E|].
  destruct (linears_svd_spec Q31 rv32 svd_input (sample_matrix 320 2048 [1; 2; 3; 4; 5]) (mk_operand (mk_matrix 384 2560 2 1) [1; 2; 3])
    (sample_matrix 448 3072 [1; 2; 3; 4; 5]) 10 sample_space (sample_matrix 320 2048 [1518500250; 1518500250; 1518500250; -1518500250; 5])
    (mk_operand (mk_matrix 384 2560 2 1) [1610612736; 536870912; 3]) (sample_matrix 448 3072 [1518500250; 1518500250; 1518500250; -1518500250; 5]))
    as (scale & _ & _ & Hs & _).
  - split; [done|]. split; [done|]. split; [done|]. repeat constructor; rlia.
  - cbn. rlia.
  - cbn. rlia.
  - exact E.
  - exists scale. exact Hs.
Defined.
