(* ===== verification/QrReal.v ===== *)
(** * Householder reflections in the reals

    What a reflection computed with errors does to inner products, how far a
    rounded unit vector is from length one, and where the reflection of a column
    lands: the analysis behind the fixed-point QR theorem, free of the code. *)
From Stdlib Require Import Reals Lra Psatz.
From S2P Require Import Prelude.
Local Open Scope R_scope.

Lemma abs_le_iff a b : Rabs a <= b <-> - b <= a <= b.
Proof. split; [intros H; split; unfold Rabs in H; destruct (Rcase_abs a); lra|intros H; unfold Rabs; destruct (Rcase_abs a); lra]. Qed.

Lemma abs_mul_bound a b A B : Rabs a <= A -> Rabs b <= B -> Rabs (a * b) <= A * B.
Proof. intros Ha Hb. rewrite Rabs_mult. pose proof (Rabs_pos a). pose proof (Rabs_pos b). nra. Qed.

Lemma abs_div_bound a b A : 0 < b -> Rabs a <= A * b -> Rabs (a / b) <= A.
Proof.
  intros Hb Ha. unfold Rdiv. rewrite Rabs_mult, (Rabs_right (/ b)) by (left; by apply Rinv_0_lt_compat).
  apply (Rmult_le_reg_r b); [done|]. rewrite Rmult_assoc, Rinv_l by lra. lra.
Qed.

Lemma abs_of_square d P : 0 <= P -> d * d <= P * P -> Rabs d <= P.
Proof. intros HP H. apply Rsqr_le_abs_0 in H. by rewrite (Rabs_right P) in H by lra. Qed.

Lemma le_mul_one a r : 0 <= a -> 1 <= r -> a <= a * r.
Proof. intros. nra. Qed.

(** Linear arithmetic over bounds of absolute values. *)
Ltac abs_lra :=
  repeat match goal with
  | H : Rabs _ <= _ |- _ => apply abs_le_iff in H; destruct H
  end;
  first [lra | apply abs_le_iff; split; lra | split; lra].

(** ** Finite sums *)

Fixpoint rsum (n : nat) (f : nat -> R) : R := match n with O => 0 | S n => rsum n f + f n end.

Section Sums.
Implicit Types (f g : nat -> R) (n : nat).

Lemma rsum_ext n f g : (forall i, (i < n)%nat -> f i = g i) -> rsum n f = rsum n g.
Proof. induction n as [|n IH]; intros H; cbn; [done|]. by rewrite IH, H by auto with lia. Qed.

Lemma rsum_plus n f g : rsum n (fun i => f i + g i) = rsum n f + rsum n g.
Proof. induction n as [|n IH]; cbn; [lra|]. rewrite IH. lra. Qed.

Lemma rsum_scal n c f : rsum n (fun i => c * f i) = c * rsum n f.
Proof. induction n as [|n IH]; cbn; [lra|]. rewrite IH. lra. Qed.

Lemma rsum_le n f g : (forall i, (i < n)%nat -> f i <= g i) -> rsum n f <= rsum n g.
Proof. induction n as [|n IH]; intros H; cbn; [lra|]. pose proof (H n ltac:(lia)). specialize (IH ltac:(auto with lia)). lra. Qed.

Lemma rsum_nonneg n f : (forall i, (i < n)%nat -> 0 <= f i) -> 0 <= rsum n f.
Proof. intros H. induction n as [|n IH]; cbn; [lra|]. pose proof (H n ltac:(lia)). specialize (IH ltac:(auto with lia)). lra. Qed.

Lemma rsum_term n f i : (i < n)%nat -> (forall i, (i < n)%nat -> 0 <= f i) -> f i <= rsum n f.
Proof.
  intros Hi H. induction n as [|n IH]; [lia|]. cbn. pose proof (rsum_nonneg n f ltac:(auto with lia)). pose proof (H n ltac:(lia)).
  destruct (decide (i = n)) as [->|]; [lra|]. specialize (IH ltac:(lia) ltac:(auto with lia)). lra.
Qed.

Lemma rsum_bound n f c : (forall i, (i < n)%nat -> Rabs (f i) <= c) -> Rabs (rsum n f) <= INR n * c.
Proof.
  induction n as [|n IH]; intros H; [cbn; rewrite Rabs_R0; lra|]. cbn [rsum]. rewrite S_INR.
  pose proof (H n ltac:(lia)) as H1. specialize (IH ltac:(auto with lia)). abs_lra.
Qed.
End Sums.

(** ** Inner products *)

Definition dot (n : nat) (x y : nat -> R) : R := rsum n (fun i => x i * y i).

Section Dot.
Variable n : nat.
Implicit Types x y z : nat -> R.

Lemma dot_comm x y : dot n x y = dot n y x.
Proof. apply rsum_ext. intros. lra. Qed.

Lemma dot_plus_l x y z : dot n (fun i => x i + y i) z = dot n x z + dot n y z.
Proof. unfold dot. rewrite <- rsum_plus. apply rsum_ext. intros. lra. Qed.

Lemma dot_scal_l c x y : dot n (fun i => c * x i) y = c * dot n x y.
Proof. unfold dot. rewrite <- rsum_scal. apply rsum_ext. intros. lra. Qed.

Lemma dot_plus_r x y z : dot n x (fun i => y i + z i) = dot n x y + dot n x z.
Proof. rewrite dot_comm, dot_plus_l. f_equal; apply dot_comm. Qed.

Lemma dot_scal_r c x y : dot n x (fun i => c * y i) = c * dot n x y.
Proof. rewrite dot_comm, dot_scal_l. f_equal. apply dot_comm. Qed.

Lemma dot_self_nonneg x : 0 <= dot n x x.
Proof. apply rsum_nonneg. intros. nra. Qed.

Lemma dot_ext x y x' y' : (forall i, (i < n)%nat -> x i = x' i /\ y i = y' i) -> dot n x y = dot n x' y'.
Proof. intros H. apply rsum_ext. intros i Hi. by destruct (H i Hi) as [-> ->]. Qed.

Lemma cauchy x y : dot n x y * dot n x y <= dot n x x * dot n y y.
Proof.
  set (a := dot n x x). set (b := dot n x y). set (c := dot n y y).
  assert (forall t, 0 <= a + 2 * t * b + t * t * c) as H.
  { intros t. replace (a + 2 * t * b + t * t * c) with (dot n (fun i => x i + t * y i) (fun i => x i + t * y i)); [apply dot_self_nonneg|].
    rewrite dot_plus_l, !dot_plus_r, !dot_scal_l, !dot_scal_r. rewrite (dot_comm y x). unfold a, b, c. lra. }
  pose proof (dot_self_nonneg x : 0 <= a). pose proof (dot_self_nonneg y : 0 <= c).
  destruct (Req_dec c 0) as [Hc|Hc].
  - rewrite Hc in *. destruct (Req_dec b 0) as [->|Hb]; [lra|]. exfalso.
    specialize (H (- (a + 1) / (2 * b))). replace (2 * (- (a + 1) / (2 * b)) * b) with (- (a + 1)) in H by (field; lra). lra.
  - specialize (H (- b / c)). replace (a + 2 * (- b / c) * b + - b / c * (- b / c) * c) with ((a * c - b * b) / c) in H by (field; lra).
    assert (0 <= (a * c - b * b) / c * c) as H2 by nra. replace ((a * c - b * b) / c * c) with (a * c - b * b) in H2 by (field; lra). lra.
Qed.

(** A vector of length at most [X]. *)
Definition within x (X : R) : Prop := 0 <= X /\ dot n x x <= X * X.

Lemma within_weaken x X X' : X <= X' -> within x X -> within x X'.
Proof. intros H [H0 Hx]. split; [lra|]. nra. Qed.

Lemma within_ext x x' X : (forall t, (t < n)%nat -> x t = x' t) -> within x X -> within x' X.
Proof. intros E [H0 Hx]. split; [done|]. by rewrite <- (dot_ext x x x' x') by (intros; split; auto). Qed.

Lemma within_dot x y X Y : within x X -> within y Y -> Rabs (dot n x y) <= X * Y.
Proof.
  intros [HX Hx] [HY Hy]. pose proof (cauchy x y). pose proof (dot_self_nonneg x). pose proof (dot_self_nonneg y).
  assert (dot n x y * dot n x y <= (X * Y) * (X * Y)) as H2 by nra. apply abs_of_square; nra.
Qed.

Lemma within_component x X i : (i < n)%nat -> within x X -> Rabs (x i) <= X.
Proof.
  intros Hi [HX Hx]. pose proof (rsum_term n (fun i => x i * x i) i Hi ltac:(intros; nra)) as H. cbn in H. fold (dot n x x) in H.
  apply abs_of_square; [done|]. lra.
Qed.

Lemma within_plus x y X Y : within x X -> within y Y -> within (fun t => x t + y t) (X + Y).
Proof.
  intros Hx Hy. pose proof (within_dot x y X Y Hx Hy) as Hxy. destruct Hx as [HX Hx]. destruct Hy as [HY Hy]. split; [lra|].
  rewrite dot_plus_l, !dot_plus_r, (dot_comm y x). abs_lra.
Qed.

Lemma within_scal c x C X : Rabs c <= C -> within x X -> within (fun t => c * x t) (C * X).
Proof.
  intros Hc [HX Hx]. pose proof (Rabs_pos c). split; [nra|]. rewrite dot_scal_l, dot_scal_r. pose proof (dot_self_nonneg x).
  assert (c * c <= C * C) by (replace (c * c) with (Rabs c * Rabs c) by (rewrite <- Rabs_mult, Rabs_right; nra); nra).
  assert (c * c * dot n x x <= C * C * (X * X)) by (apply Rmult_le_compat; nra). lra.
Qed.

Lemma within_uniform e c P : 0 <= P -> P * P = INR n -> 0 <= c -> (forall t, (t < n)%nat -> Rabs (e t) <= c) -> within e (P * c).
Proof.
  intros HP HPP Hc He. split; [nra|]. assert (Rabs (dot n e e) <= INR n * (c * c)) as H by (apply rsum_bound; intros; apply abs_mul_bound; by apply He).
  rewrite <- HPP in H. pose proof (Rle_abs (dot n e e)). nra.
Qed.

(** ** A reflection with errors keeps inner products *)

(** [x'] is [x - d v] within [E]. *)
Definition moved v x x' (d E : R) : Prop := within (fun t => x' t - (x t - d * v t)) E.

Lemma reflected_pair x y v dx dy rx ry eta X Y : within x X -> within y Y ->
  Rabs (dx - 2 * dot n x v) <= rx -> Rabs (dy - 2 * dot n y v) <= ry -> Rabs (dot n v v - 1) <= eta -> eta <= / 100 ->
  Rabs (dot n (fun t => x t - dx * v t) (fun t => y t - dy * v t) - dot n x y)
    <= 41 / 10 * (X * Y * eta) + 11 / 10 * (X * ry + Y * rx) + 11 / 10 * (rx * ry).
Proof.
  intros Hx Hy Hdx Hdy Hv Heta.
  assert (within v (201 / 200)) as Hvv by (split; [lra|abs_lra]).
  pose proof (within_dot _ _ _ _ Hx Hvv) as Ha. pose proof (within_dot _ _ _ _ Hy Hvv) as Hb.
  set (a := dot n x v) in *. set (b := dot n y v) in *. set (w := dot n v v) in *.
  assert (dot n (fun t => x t - dx * v t) (fun t => y t - dy * v t) = dot n x y - dy * a - dx * b + dx * dy * w) as E.
  { replace (dot n (fun t => x t - dx * v t) (fun t => y t - dy * v t)) with
      (dot n (fun t => x t + (- dx) * v t) (fun t => y t + (- dy) * v t)) by (apply dot_ext; intros; split; lra).
    rewrite dot_plus_l, !dot_plus_r, !dot_scal_l, !dot_scal_r. rewrite (dot_comm v y). unfold a, b, w. ring. }
  set (ax := dx - 2 * a) in *. set (ay := dy - 2 * b) in *.
  replace (dot n (fun t => x t - dx * v t) (fun t => y t - dy * v t) - dot n x y) with
    (4 * (a * b * (w - 1)) + a * ay * (2 * w - 1) + b * ax * (2 * w - 1) + ax * ay * w) by (rewrite E; unfold ax, ay; ring).
  assert (Rabs (2 * w - 1) <= 51 / 50) as Hw1 by abs_lra. assert (Rabs w <= 101 / 100) as Hw2 by abs_lra.
  pose proof (abs_mul_bound _ _ _ _ (abs_mul_bound _ _ _ _ Ha Hb) Hv) as M1.
  pose proof (abs_mul_bound _ _ _ _ (abs_mul_bound _ _ _ _ Ha Hdy) Hw1) as M2.
  pose proof (abs_mul_bound _ _ _ _ (abs_mul_bound _ _ _ _ Hb Hdx) Hw1) as M3.
  pose proof (abs_mul_bound _ _ _ _ (abs_mul_bound _ _ _ _ Hdx Hdy) Hw2) as M4.
  destruct Hx as [HX _]. destruct Hy as [HY _].
  assert (0 <= rx) by (pose proof (Rabs_pos ax); lra). assert (0 <= ry) by (pose proof (Rabs_pos ay); lra).
  assert (0 <= eta) by (pose proof (Rabs_pos (w - 1)); lra).
  assert (0 <= X * Y * eta) by (repeat apply Rmult_le_pos; lra).
  assert (0 <= X * ry) by nra. assert (0 <= Y * rx) by nra. assert (0 <= rx * ry) by nra.
  replace (X * (201 / 200) * (Y * (201 / 200)) * eta) with (40401 / 40000 * (X * Y * eta)) in M1 by field.
  replace (X * (201 / 200) * ry * (51 / 50)) with (10251 / 10000 * (X * ry)) in M2 by field.
  replace (Y * (201 / 200) * rx * (51 / 50)) with (10251 / 10000 * (Y * rx)) in M3 by field.
  clearbody ax ay a b w. abs_lra.
Qed.

Lemma reflected_within x v dx rx eta X : within x X -> Rabs (dx - 2 * dot n x v) <= rx -> Rabs (dot n v v - 1) <= eta -> eta <= / 100 ->
  within (fun t => x t - dx * v t) (11 / 10 * (X + rx)).
Proof.
  intros Hx Hdx Hv Heta. pose proof (reflected_pair x x v dx dx rx rx eta X X Hx Hx Hdx Hdx Hv Heta) as H. destruct Hx as [HX Hx].
  assert (0 <= rx) by (pose proof (Rabs_pos (dx - 2 * dot n x v)); lra). split; [lra|].
  assert (X * X * eta <= X * X * / 100) by (apply Rmult_le_compat_l; nra). assert (0 <= X * X) by nra. assert (0 <= X * rx) by nra. assert (0 <= rx * rx) by nra.
  replace (11 / 10 * (X + rx) * (11 / 10 * (X + rx))) with (121 / 100 * (X * X) + 242 / 100 * (X * rx) + 121 / 100 * (rx * rx)) by field. abs_lra.
Qed.

Lemma reflect_dot x y v x' y' dx dy EX EY rx ry eta X Y : within x X -> within y Y ->
  moved v x x' dx EX -> moved v y y' dy EY ->
  Rabs (dx - 2 * dot n x v) <= rx -> Rabs (dy - 2 * dot n y v) <= ry -> Rabs (dot n v v - 1) <= eta -> eta <= / 100 ->
  Rabs (dot n x' y' - dot n x y) <= 41 / 10 * (X * Y * eta) + 11 / 10 * (X * ry + Y * rx) + 11 / 10 * (rx * ry)
    + 11 / 10 * (EX * (Y + ry)) + 11 / 10 * (EY * (X + rx)) + EX * EY.
Proof.
  intros Hx Hy Mx My Hdx Hdy Hv Heta. pose proof (reflected_pair x y v dx dy rx ry eta X Y Hx Hy Hdx Hdy Hv Heta) as H.
  pose proof (reflected_within x v dx rx eta X Hx Hdx Hv Heta) as Hp. pose proof (reflected_within y v dy ry eta Y Hy Hdy Hv Heta) as Hq.
  unfold moved in *. set (p := fun t => x t - dx * v t) in *. set (q := fun t => y t - dy * v t) in *.
  set (e := fun t => x' t - (x t - dx * v t)) in *. set (f := fun t => y' t - (y t - dy * v t)) in *.
  assert (dot n x' y' = dot n p q + dot n e q + dot n p f + dot n e f) as E.
  { unfold dot. rewrite <- !rsum_plus. apply rsum_ext. intros t Ht. unfold e, f, p, q. cbn beta. ring. }
  pose proof (within_dot _ _ _ _ Mx Hq) as T1. pose proof (within_dot _ _ _ _ Hp My) as T2. pose proof (within_dot _ _ _ _ Mx My) as T3.
  rewrite E. clearbody p q e f. abs_lra.
Qed.
End Dot.

(** ** Rounded unit vectors *)

(** The unit of F31. *)
Definition ulp : R := / 2147483648.
Lemma ulp_small : 0 < ulp <= / 1000000000.
Proof. unfold ulp. lra. Qed.

(** A computed norm of values of which the largest is at least one. *)
Lemma norm_accuracy n y M r sum root N :
  1 <= M -> M <= N -> (forall t, (t < n)%nat -> Rabs (y t) <= M) -> (exists t, (t < n)%nat /\ Rabs (y t) = M) ->
  (forall t, (t < n)%nat -> Rabs (r t - y t / M) <= ulp / 2) -> Rabs (sum - rsum n (fun t => r t * r t)) <= ulp / 2 ->
  1 <= root -> Rabs (root * root - sum) <= ulp * root -> Rabs (N - M * root) <= ulp / 2 ->
  Rabs (N * N - dot n y y) <= (2 * INR n + 4) * ulp * (N * N).
Proof.
  intros HM HMN Hy [k [Hk _]] Hr Hsum Hroot Hrr HN. pose proof ulp_small as Hu. set (e := ulp) in *. clearbody e.
  assert (1 <= INR n) as Hn by (apply (le_INR 1); lia).
  set (T := rsum n (fun t => (y t / M) * (y t / M))). assert (dot n y y = M * M * T) as ET.
  { unfold T, dot. rewrite <- rsum_scal. apply rsum_ext. intros t Ht. field. lra. }
  assert (Rabs (rsum n (fun t => r t * r t) - T) <= INR n * (11 / 10 * e)) as Hsq.
  { unfold T. replace (rsum n (fun t => r t * r t) - rsum n (fun t => y t / M * (y t / M))) with
      (rsum n (fun t => (r t - y t / M) * (r t + y t / M))).
    - apply rsum_bound. intros t Ht. specialize (Hr t Ht). assert (Rabs (y t / M) <= 1) as H1 by (apply abs_div_bound; [lra|]; rewrite Rmult_1_l; auto).
      assert (Rabs (r t + y t / M) <= 2 + e) as H2 by abs_lra. pose proof (abs_mul_bound _ _ _ _ Hr H2) as H3. assert (e / 2 * (2 + e) <= 11 / 10 * e) by nra. lra.
    - replace (rsum n (fun t => r t * r t) - rsum n (fun t => y t / M * (y t / M))) with
        (rsum n (fun t => r t * r t) + (-1) * rsum n (fun t => y t / M * (y t / M))) by ring.
      rewrite <- rsum_scal, <- rsum_plus. apply rsum_ext. intros. ring. }
  set (D := root * root - T). assert (Rabs D <= (11 / 10 * INR n + 3 / 2) * e * (root * root)) as HD.
  { assert (root <= root * root) by nra. assert (Rabs D <= INR n * (11 / 10 * e) + e / 2 + e * root) as H1 by (unfold D; abs_lra).
    assert (1 <= root * root) as H2 by nra. pose proof (le_mul_one (INR n * (11 / 10 * e)) _ ltac:(nra) H2).
    pose proof (le_mul_one (e / 2) _ ltac:(lra) H2). assert (e * root <= e * (root * root)) by nra. lra. }
  set (P := M * root) in *. assert (1 <= P) as HP by (unfold P; nra). set (g := N - P) in *.
  assert (N * N - dot n y y = M * M * D + 2 * P * g + g * g) as E by (rewrite ET; unfold D, g, P; ring).
  assert (Rabs (M * M * D) <= P * P * ((11 / 10 * INR n + 3 / 2) * e)) as T1.
  { replace (P * P * ((11 / 10 * INR n + 3 / 2) * e)) with (M * M * ((11 / 10 * INR n + 3 / 2) * e * (root * root))) by (unfold P; ring).
    apply abs_mul_bound; [rewrite Rabs_right by nra; lra|exact HD]. }
  assert (Rabs (2 * P * g) <= 2 * P * (e / 2)) as T2 by (apply abs_mul_bound; [rewrite Rabs_right by lra; lra|exact HN]).
  pose proof (abs_mul_bound _ _ _ _ HN HN) as T3.
  assert (P <= P * P) by nra. assert (2 * P * (e / 2) <= P * P * e) by nra. assert (e / 2 * (e / 2) <= P * P * (/ 10 * e)) by nra.
  assert (Rabs (N * N - dot n y y) <= P * P * ((11 / 10 * INR n + 13 / 5) * e)) as T4 by (rewrite E; abs_lra).
  assert (P * P <= N * N * (11 / 10)) as HPN.
  { assert (P <= N + e / 2) by (unfold g in HN; abs_lra). assert (P * P <= (N + e / 2) * (N + e / 2)) by nra. nra. }
  assert (0 <= (11 / 10 * INR n + 13 / 5) * e) by nra.
  assert (P * P * ((11 / 10 * INR n + 13 / 5) * e) <= N * N * (11 / 10) * ((11 / 10 * INR n + 13 / 5) * e)) by nra.
  assert (11 / 10 * (11 / 10 * INR n + 13 / 5) <= 2 * INR n + 4) by lra. assert (0 <= N * N * e) by nra. nra.
Qed.

(** The quotients by such a norm form a vector of length about one. *)
Lemma unit_vector n y N v kappa : 1 <= N -> kappa <= / 100 -> Rabs (N * N - dot n y y) <= kappa * (N * N) ->
  (forall t, (t < n)%nat -> Rabs (v t - y t / N) <= ulp / 2) -> Rabs (dot n v v - 1) <= kappa + 2 * INR n * ulp.
Proof.
  intros HN Hk HNN Hv. pose proof ulp_small as Hu. set (e := ulp) in *. clearbody e.
  set (w := fun t => / N * y t). set (g := fun t => v t - w t).
  assert (forall t, (t < n)%nat -> Rabs (g t) <= e / 2) as Hg by (intros t Ht; unfold g, w; rewrite (Rmult_comm (/ N)); by apply Hv).
  assert (dot n w w = dot n y y / (N * N)) as Eww by (unfold w; rewrite dot_scal_l, dot_scal_r; field; lra).
  assert (Rabs (dot n w w - 1) <= kappa) as Hww.
  { rewrite Eww. replace (dot n y y / (N * N) - 1) with (- (N * N - dot n y y) / (N * N)) by (field; lra).
    apply abs_div_bound; [nra|]. by rewrite Rabs_Ropp. }
  assert (within n w (11 / 10)) as Hw2 by (split; [lra|abs_lra]).
  assert (dot n v v = dot n w w + 2 * dot n w g + dot n g g) as E.
  { replace (dot n v v) with (dot n (fun t => w t + g t) (fun t => w t + g t)) by (apply dot_ext; intros; unfold g; split; lra).
    rewrite dot_plus_l, !dot_plus_r, (dot_comm n g w). ring. }
  assert (Rabs (dot n w g) <= INR n * (11 / 10 * (e / 2))) as T1.
  { apply rsum_bound. intros t Ht. apply abs_mul_bound; [|by apply Hg]. by apply (within_component n w). }
  assert (Rabs (dot n g g) <= INR n * (e / 2 * (e / 2))) as T2 by (apply rsum_bound; intros; apply abs_mul_bound; by apply Hg).
  assert (0 <= INR n) by apply pos_INR. assert (INR n * (e / 2 * (e / 2)) <= INR n * (/ 10 * e)) by (apply Rmult_le_compat_l; nra).
  assert (0 <= INR n * e) by nra. rewrite E. abs_lra.
Qed.

(** ** The reflection of a column onto its axis *)

Definition axis (k t : nat) : R := if decide (t = k) then 1 else 0.

Lemma dot_axis n k x : (k < n)%nat -> dot n x (axis k) = x k.
Proof.
  intros Hk. unfold dot. induction n as [|n IH]; [lia|]. cbn [rsum]. unfold axis at 2. case_decide as E.
  - subst n. rewrite (rsum_ext k _ (fun _ => 0 * 1)); [rewrite rsum_scal; lra|]. intros i Hi. unfold axis. rewrite decide_False by lia. lra.
  - rewrite IH by lia. lra.
Qed.

Section Column.
Variables (n k : nat) (d z v : nat -> R) (s Nz : R).
Hypothesis (Hk : (k < n)%nat) (Hsmall : INR n * ulp <= / 1000) (Hs : s = 1 \/ s = -1).
Hypothesis Hd : Rabs (dot n d d - 1) <= 8 * INR n * ulp.
Hypothesis Hz : forall t, (t < n)%nat -> z t = d t + s * axis k t.
Hypothesis (HNz : 1 <= Nz) (HNzz : Rabs (Nz * Nz - dot n z z) <= (2 * INR n + 4) * ulp * (Nz * Nz)).
Hypothesis Hv : forall t, (t < n)%nat -> Rabs (v t - z t / Nz) <= ulp / 2.

Lemma order_one : 1 <= INR n.
Proof. apply (le_INR 1). lia. Qed.

Lemma relative_small : (2 * INR n + 4) * ulp <= 6 * (INR n * ulp) /\ 0 < ulp <= / 1000000000.
Proof.
  pose proof order_one. pose proof ulp_small. split; [|done]. pose proof (Rmult_le_compat_r ulp 1 (INR n) ltac:(lra) ltac:(lra)). lra.
Qed.

Lemma reflector_unit : Rabs (dot n v v - 1) <= 8 * (INR n * ulp).
Proof.
  destruct relative_small as [H1 H2]. pose proof (unit_vector n z Nz v ((2 * INR n + 4) * ulp) HNz ltac:(lra) HNzz Hv). abs_lra.
Qed.

Variable P : R.
Hypothesis (HP : 0 <= P) (HPP : P * P = INR n).

Lemma root_order : 1 <= P <= INR n.
Proof. pose proof order_one. assert (1 <= P) by nra. split; nra. Qed.

Lemma direction_within : within n d (11 / 10).
Proof. split; [lra|]. destruct relative_small as [_ Hu]. replace (8 * INR n * ulp) with (8 * (INR n * ulp)) in Hd by ring. abs_lra. Qed.

Lemma reflector_within : within n v (11 / 10).
Proof. split; [lra|]. pose proof reflector_unit. abs_lra. Qed.

(** A unit vector is turned onto the axis. *)
Lemma reflected_unit : within n (fun t => d t - 2 * dot n d v * v t + s * axis k t) (30 * (INR n * ulp)).
Proof.
  destruct relative_small as [Hkap Hu]. pose proof order_one as Hn. destruct root_order as [HP1 HPn]. pose proof reflector_unit as Hvv.
  pose proof direction_within as Hd2. pose proof reflector_within as Hv2. set (nu := INR n * ulp) in *.
  set (g := fun t => v t - / Nz * z t). assert (within n g (P * (ulp / 2))) as Hg.
  { apply within_uniform; [done|done|lra|]. intros i Hi. unfold g. rewrite (Rmult_comm (/ Nz)). by apply Hv. }
  set (zz := dot n z z) in *. set (theta := 1 - dot n d d).
  assert (2 * dot n d z = zz - theta) as Edz.
  { assert (dot n d z = dot n d d + s * d k) as E1
      by (rewrite <- (dot_axis n k d Hk), <- dot_scal_r, <- dot_plus_r; apply dot_ext; intros i Hi; split; [done|by apply Hz]).
    assert (zz = dot n d z + s * (d k + s)) as E2.
    { unfold zz. transitivity (dot n (fun t => d t + s * axis k t) z); [apply dot_ext; intros i Hi; split; [by apply Hz|done]|].
      rewrite dot_plus_l, dot_scal_l, (dot_comm n (axis k)), dot_axis, Hz by done. unfold axis. by rewrite decide_True, Rmult_1_r. }
    assert (s * s = 1) as Es by (destruct Hs as [-> | ->]; lra). rewrite E2, E1. unfold theta. nra. }
  assert (dot n d v = dot n d z / Nz + dot n d g) as Edv.
  { transitivity (dot n d (fun t => / Nz * z t + g t)); [apply dot_ext; intros; unfold g; split; lra|]. rewrite dot_plus_r, dot_scal_r. lra. }
  set (q := fun t => / Nz * z t).
  assert (within n q (11 / 10)) as Hq.
  { split; [lra|]. unfold q. rewrite dot_scal_l, dot_scal_r. replace (/ Nz * (/ Nz * dot n z z)) with (zz / (Nz * Nz)) by (unfold zz; field; lra).
    apply (Rmult_le_reg_r (Nz * Nz)); [nra|]. replace (zz / (Nz * Nz) * (Nz * Nz)) with zz by (field; lra).
    assert ((2 * INR n + 4) * ulp * (Nz * Nz) <= / 100 * (Nz * Nz)) by (apply Rmult_le_compat_r; [nra|lra]). abs_lra. }
  assert (within n z (21 / 10)) as Hzw.
  { eapply (within_ext n (fun t => d t + s * axis k t)); [intros; by rewrite Hz|]. apply (within_weaken n _ (11 / 10 + 1 * 1)); [lra|].
    apply within_plus; [done|]. apply within_scal; [destruct Hs as [-> | ->]; abs_lra|]. split; [lra|]. rewrite dot_axis by done. unfold axis. rewrite decide_True by done. lra. }
  assert (Rabs ((Nz * Nz - zz) / (Nz * Nz)) <= 6 * nu) as Hr.
  { apply abs_div_bound; [nra|]. eapply Rle_trans; [exact HNzz|]. apply Rmult_le_compat_r; [nra|lra]. }
  assert (Rabs (theta / Nz) <= 8 * nu) as Hth.
  { apply abs_div_bound; [lra|]. assert (Rabs theta <= 8 * nu) by (unfold theta; replace (8 * INR n * ulp) with (8 * nu) in Hd by (unfold nu; ring); abs_lra).
    assert (0 <= nu) by (unfold nu; nra). nra. }
  assert (P * ulp <= nu /\ 0 <= nu <= / 1000) as [HPu Hnu].
  { split; [unfold nu; apply Rmult_le_compat_r; lra|]. split; [|lra]. unfold nu. apply Rmult_le_pos; lra. }
  assert (Rabs (- (2 * dot n d g)) <= 121 / 100 * nu) as Hdg.
  { pose proof (within_dot _ _ _ _ _ Hd2 Hg) as H. rewrite Rabs_Ropp. abs_lra. }
  assert (Rabs (- (2 * dot n d v)) <= 242 / 100) as Hdv by (pose proof (within_dot _ _ _ _ _ Hd2 Hv2) as H; rewrite Rabs_Ropp; abs_lra).
  pose proof (within_plus n _ _ _ _ (within_plus n _ _ _ _ (within_scal n _ _ _ _ Hr Hzw) (within_scal n _ _ _ _ Hth Hq))
    (within_plus n _ _ _ _ (within_scal n _ _ _ _ Hdg Hq) (within_scal n _ _ _ _ Hdv Hg))) as W.
  eapply within_ext; [|eapply within_weaken; [|exact W]]; [|lra].
  intros t Ht. cbn beta. unfold q, g. assert (d t = z t - s * axis k t) as Edt by (rewrite Hz by done; lra). rewrite Edt, Edv.
  assert (v t = / Nz * z t + g t) as -> by (unfold g; lra). replace (dot n d z) with ((zz - theta) / 2) by lra.
  unfold g. generalize (v t) (dot n d (fun t => v t - / Nz * z t)) (z t) (s * axis k t) zz theta. intros. field. lra.
Qed.

(** ** The column itself *)

Variables (x y : nat -> R) (M N nrm : R).
Hypothesis (HM : 0 < M) (HN : 1 <= N).
Hypothesis Hy : forall t, (t < n)%nat -> Rabs (y t - x t / M) <= ulp / 2.
Hypothesis Hdy : forall t, (t < n)%nat -> Rabs (d t - y t / N) <= ulp / 2.
Hypothesis Hnrm : Rabs (nrm - M * N) <= ulp / 2.

Lemma column_direction : within n (fun t => x t - M * N * d t) (P * (M * N * ulp)).
Proof.
  destruct relative_small as [_ Hu]. apply within_uniform; [done|done|repeat apply Rmult_le_pos; lra|]. intros t Ht. specialize (Hy t Ht). specialize (Hdy t Ht).
  assert (Rabs (M * (y t - x t / M)) <= M * (ulp / 2)) as H1 by (apply abs_mul_bound; [rewrite Rabs_right; lra|done]).
  assert (Rabs (M * N * (d t - y t / N)) <= M * N * (ulp / 2)) as H2 by (apply abs_mul_bound; [rewrite Rabs_right; nra|done]).
  replace (M * (y t - x t / M)) with (M * y t - x t) in H1 by (field; lra). replace (M * N * (d t - y t / N)) with (M * N * d t - M * y t) in H2 by (field; lra).
  assert (M * (ulp / 2) <= M * N * (ulp / 2)) by (apply Rmult_le_compat_r; nra). abs_lra.
Qed.

(** The exact reflection of the column is the stored diagonal element on the axis. *)
Lemma reflected_column : within n (fun t => x t - 2 * dot n x v * v t - (- s * nrm) * axis k t) (35 * (INR n * ulp) * (M * N) + ulp / 2).
Proof.
  destruct relative_small as [_ Hu]. pose proof order_one as Hn. destruct root_order as [HP1 HPn]. pose proof reflector_within as Hv2.
  set (L := M * N) in *. assert (0 < L) as HL by (unfold L; nra).
  pose proof column_direction as Hf. fold L in Hf. set (f := fun t => x t - L * d t) in *.
  assert (dot n x v = L * dot n d v + dot n f v) as E1.
  { transitivity (dot n (fun t => L * d t + f t) v); [apply dot_ext; intros; unfold f; split; lra|]. by rewrite dot_plus_l, dot_scal_l. }
  assert (Rabs (- (2 * dot n f v)) <= 2 * (P * (L * ulp) * (11 / 10))) as Hfv by (pose proof (within_dot _ _ _ _ _ Hf Hv2) as H; rewrite Rabs_Ropp; abs_lra).
  assert (Rabs (s * (nrm - L)) <= 1 * (ulp / 2)) as Hsn by (apply abs_mul_bound; [destruct Hs as [-> | ->]; abs_lra|done]).
  assert (within n (axis k) 1) as Hax by (split; [lra|]; rewrite dot_axis by done; unfold axis; rewrite decide_True by done; lra).
  pose proof (within_plus n _ _ _ _ (within_plus n _ _ _ _ (within_scal n L _ L _ ltac:(rewrite Rabs_right; lra) reflected_unit) Hf)
    (within_plus n _ _ _ _ (within_scal n _ _ _ _ Hfv Hv2) (within_scal n _ _ _ _ Hsn Hax))) as W.
  eapply within_ext; [|eapply within_weaken; [|exact W]].
  - intros t Ht. cbn beta. rewrite E1. unfold f. ring.
  - set (nu := INR n * ulp) in *. assert (P * (L * ulp) <= nu * L).
    { unfold nu. replace (P * (L * ulp)) with (P * (ulp * L)) by ring. rewrite Rmult_assoc. apply Rmult_le_compat_r; [|lra]. apply Rmult_le_pos; lra. }
    assert (0 <= P * (L * ulp)) by (repeat apply Rmult_le_pos; lra). replace (35 * nu * L) with (35 * (nu * L)) by ring. lra.
Qed.

(** The length of the column is close to that of the direction's multiple, and to the norm. *)
Lemma column_length : Rabs (dot n x x - M * N * (M * N)) <= 11 * (INR n * ulp) * (M * N * (M * N)).
Proof.
  destruct relative_small as [_ Hu]. pose proof order_one as Hn. destruct root_order as [HP1 HPn]. pose proof direction_within as Hd2.
  set (L := M * N) in *. assert (0 < L) as HL by (unfold L; nra). pose proof column_direction as Hf. fold L in Hf. set (f := fun t => x t - L * d t) in *.
  assert (dot n x x = L * L * dot n d d + 2 * L * dot n d f + dot n f f) as E.
  { transitivity (dot n (fun t => L * d t + f t) (fun t => L * d t + f t)); [apply dot_ext; intros; unfold f; split; lra|].
    rewrite dot_plus_l, !dot_plus_r, !dot_scal_l, !dot_scal_r, (dot_comm n f d). ring. }
  pose proof (within_dot _ _ _ _ _ Hd2 Hf) as T1. pose proof (within_dot _ _ _ _ _ Hf Hf) as T2.
  pose proof (abs_mul_bound (2 * L) _ (2 * L) _ ltac:(rewrite Rabs_right; lra) T1) as T3.
  pose proof (abs_mul_bound (L * L) _ (L * L) _ ltac:(rewrite Rabs_right; nra) Hd) as T4.
  set (nu := INR n * ulp) in *. set (W := nu * (L * L)). assert (0 <= W) by (unfold W, nu; repeat apply Rmult_le_pos; lra).
  assert (P * ulp * (L * L) <= W) as HW by (unfold W, nu; apply Rmult_le_compat_r; nra).
  replace (2 * L * (11 / 10 * (P * (L * ulp)))) with (11 / 5 * (P * ulp * (L * L))) in T3 by field.
  replace (P * (L * ulp) * (P * (L * ulp))) with (W * ulp) in T2 by (unfold W, nu; rewrite <- HPP; ring).
  assert (W * ulp <= W * / 10) by (apply Rmult_le_compat_l; lra).
  replace (L * L * (8 * INR n * ulp)) with (8 * W) in T4 by (unfold W, nu; ring). replace (11 * nu * (L * L)) with (11 * W) by (unfold W; ring).
  rewrite E. replace (L * L * (dot n d d - 1)) with (L * L * dot n d d - L * L) in T4 by ring. clearbody W. abs_lra.
Qed.
End Column.

(** ** The steps of the factorization *)

Section Steps.
Variables (n : nat) (P : R) (v : nat -> R).
Hypothesis (HP : 1 <= P) (HPP : P * P = INR n) (Hsmall : INR n * ulp <= / 1000).
Hypothesis Hv : Rabs (dot n v v - 1) <= 8 * (INR n * ulp).
Let nu : R := INR n * ulp.

Lemma steps_scale : 0 < ulp <= / 1000000000 /\ ulp <= nu /\ P * ulp <= nu /\ 0 < nu <= / 1000.
Proof.
  pose proof ulp_small as Hu. assert (P <= INR n) by nra. assert (1 <= INR n) by lra. unfold nu. repeat split; try lra; nra.
Qed.

(** A row of Q after the reflection, with one rounding for each element. *)
Definition row_reflected (q q' : nat -> R) : Prop := exists d, Rabs (d - 2 * dot n q v) <= ulp /\
  forall t, (t < n)%nat -> Rabs (q' t - (q t - d * v t)) <= ulp / 2.

Lemma row_moved q q' : row_reflected q q' -> exists d, Rabs (d - 2 * dot n q v) <= ulp /\ moved n v q q' d (/ 2 * (P * ulp)).
Proof.
  intros (d & Hd & Hq). pose proof ulp_small. exists d. split; [done|]. apply (within_weaken n _ (P * (ulp / 2))); [lra|].
  apply within_uniform; [lra|done|lra|done].
Qed.

Lemma row_pair_step q1 q2 q1' q2' : within n q1 (11 / 10) -> within n q2 (11 / 10) -> row_reflected q1 q1' -> row_reflected q2 q2' ->
  Rabs (dot n q1' q2' - dot n q1 q2) <= 50 * nu.
Proof.
  intros H1 H2 (d1 & Hd1 & M1)%row_moved (d2 & Hd2 & M2)%row_moved. destruct steps_scale as (Hu & Hun & Hpu & Hnu).
  eapply Rle_trans; [apply (reflect_dot n q1 q2 v q1' q2' d1 d2 _ _ _ _ (8 * nu) _ _ H1 H2 M1 M2 Hd1 Hd2 Hv); unfold nu in *; lra|].
  assert (0 <= P * ulp) by nra. set (p := P * ulp) in *. clearbody p nu. nra.
Qed.

Variable Y : R.
Hypothesis HY : 1 <= Y.

(** A column of R after the reflection: computed on the scaled column. *)
Definition column_reflected (r r' : nat -> R) : Prop := exists d, Rabs (d - 2 * dot n r v) <= 3 * nu * Y /\
  forall t, (t < n)%nat -> Rabs (r' t - (r t - d * v t)) <= 3 / 2 * Y * ulp.

Lemma column_moved r r' : column_reflected r r' -> exists d, Rabs (d - 2 * dot n r v) <= 3 * nu * Y /\ moved n v r r' d (3 / 2 * (P * ulp * Y)).
Proof.
  intros (d & Hd & Hr). pose proof ulp_small. exists d. split; [done|]. apply (within_weaken n _ (P * (3 / 2 * Y * ulp))); [lra|].
  apply within_uniform; [lra|done|nra|done].
Qed.

Lemma row_column_step q r q' r' : within n q (11 / 10) -> within n r Y -> row_reflected q q' -> column_reflected r r' ->
  Rabs (dot n q' r' - dot n q r) <= 90 * (nu * Y).
Proof.
  intros H1 H2 (d1 & Hd1 & M1)%row_moved (d2 & Hd2 & M2)%column_moved. destruct steps_scale as (Hu & Hun & Hpu & Hnu).
  eapply Rle_trans; [apply (reflect_dot n q r v q' r' d1 d2 _ _ _ _ (8 * nu) _ _ H1 H2 M1 M2 Hd1 Hd2 Hv); unfold nu in *; lra|].
  assert (0 <= P * ulp) by nra. set (p := P * ulp) in *. set (W := nu * Y). assert (0 < W) by (unfold W; nra).
  assert (p * Y <= W) by (unfold W; nra). assert (Y * ulp <= W) by (unfold W; nra). assert (0 <= p * Y) by nra.
  replace (11 / 10 * (ulp * (3 * nu * Y))) with (33 / 10 * (ulp * W)) by (unfold W; field).
  replace (11 / 10 * (/ 2 * p * (Y + 3 * nu * Y))) with (11 / 20 * (p * Y) + 33 / 20 * (p * W)) by (unfold W; field).
  replace (11 / 10 * (3 / 2 * (p * Y) * (11 / 10 + ulp))) with (363 / 200 * (p * Y) + 33 / 20 * (ulp * (p * Y))) by field.
  replace (/ 2 * p * (3 / 2 * (p * Y))) with (3 / 4 * (p * (p * Y))) by field.
  assert (ulp * W <= / 10 * W) by (apply Rmult_le_compat_r; lra). assert (p * W <= / 10 * W) by (apply Rmult_le_compat_r; lra).
  assert (ulp * (p * Y) <= / 10 * (p * Y)) by (apply Rmult_le_compat_r; lra). assert (p * (p * Y) <= / 10 * (p * Y)) by (apply Rmult_le_compat_r; lra).
  replace (41 / 10 * (11 / 10 * Y * (8 * nu))) with (902 / 25 * W) by (unfold W; field).
  replace (11 / 10 * (11 / 10 * (3 * nu * Y) + Y * ulp)) with (363 / 100 * W + 11 / 10 * (Y * ulp)) by (unfold W; field). lra.
Qed.

Lemma column_pair_step r r' : within n r Y -> column_reflected r r' -> Rabs (dot n r' r' - dot n r r) <= 50 * (nu * (Y * Y)).
Proof.
  intros H2 (d & Hd & M)%column_moved. destruct steps_scale as (Hu & Hun & Hpu & Hnu).
  eapply Rle_trans; [apply (reflect_dot n r r v r' r' d d _ _ _ _ (8 * nu) _ _ H2 H2 M M Hd Hd Hv); unfold nu in *; lra|].
  assert (0 <= P * ulp) by nra. set (p := P * ulp) in *. set (W := nu * (Y * Y)). assert (0 < Y * Y) by nra. assert (0 < W) by (unfold W; nra).
  assert (p * (Y * Y) <= W) by (unfold W; nra). assert (0 <= p * (Y * Y)) by nra.
  replace (11 / 10 * (3 * nu * Y * (3 * nu * Y))) with (99 / 10 * (nu * W)) by (unfold W; field).
  replace (11 / 10 * (3 / 2 * (p * Y) * (Y + 3 * nu * Y))) with (33 / 20 * (p * (Y * Y)) + 99 / 20 * (p * W)) by (unfold W; field).
  replace (3 / 2 * (p * Y) * (3 / 2 * (p * Y))) with (9 / 4 * (p * (p * (Y * Y)))) by field.
  assert (nu * W <= / 1000 * W) by (apply Rmult_le_compat_r; lra). assert (p * W <= / 1000 * W) by (apply Rmult_le_compat_r; lra).
  assert (p * (p * (Y * Y)) <= / 10 * (p * (Y * Y))) by (apply Rmult_le_compat_r; lra).
  replace (41 / 10 * (Y * Y * (8 * nu))) with (164 / 5 * W) by (unfold W; field).
  replace (11 / 10 * (Y * (3 * nu * Y) + Y * (3 * nu * Y))) with (33 / 5 * W) by (unfold W; field). lra.
Qed.

(** The pivot column, replaced by its diagonal element. *)
Lemma pivot_row_step q q' r c : within n q (11 / 10) -> within n r Y -> row_reflected q q' ->
  moved n v r c (2 * dot n r v) (40 * nu * Y) -> Rabs (dot n q' c - dot n q r) <= 90 * (nu * Y).
Proof.
  intros H1 H2 (d1 & Hd1 & M1)%row_moved Hc. destruct steps_scale as (Hu & Hun & Hpu & Hnu).
  eapply Rle_trans; [apply (reflect_dot n q r v q' c d1 (2 * dot n r v) _ _ _ 0 (8 * nu) _ _ H1 H2 M1 Hc Hd1); [|exact Hv|unfold nu in *; lra];
    rewrite Rminus_diag, Rabs_R0; lra|].
  assert (0 <= P * ulp) by nra. set (p := P * ulp) in *. set (W := nu * Y). assert (0 < W) by (unfold W; nra).
  assert (p * Y <= W) by (unfold W; nra). assert (Y * ulp <= W) by (unfold W; nra). assert (0 <= p * Y) by nra.
  replace (11 / 10 * (40 * nu * Y * (11 / 10 + ulp))) with (242 / 5 * W + 44 * (ulp * W)) by (unfold W; field).
  replace (/ 2 * p * (40 * nu * Y)) with (20 * (p * W)) by (unfold W; field).
  assert (ulp * W <= / 1000 * W) by (apply Rmult_le_compat_r; lra). assert (p * W <= / 1000 * W) by (apply Rmult_le_compat_r; lra).
  replace (41 / 10 * (11 / 10 * Y * (8 * nu))) with (902 / 25 * W) by (unfold W; field). lra.
Qed.
End Steps.
