(* ===== verification/QrQ.v ===== *)
(** * QR in the fixed formats: a reflection as the code computes it

    The F31 values as reals; how far the norm, the reflector and the reflected
    rows and columns of decomp_qr.inc are from the exact ones of QrReal.v. *)
From Stdlib Require Import Reals Lra.
From S2P Require Import Prelude MachineInt Status Wide Numeric Memory Float Matrix FcMonad Cordic FcFloat FcVariants FcOps Decomp DecompQ LuQ Ldlt LdltQ Qr SvdQ QrReal.

(** ** The value of an F31 word *)

Definition value (z : Z) : R := (IZR z * ulp)%R.

Lemma unit_ulp : (IZR LINEARS_FIXED_ONE * ulp)%R = 1%R.
Proof. unfold LINEARS_FIXED_ONE, ulp. lra. Qed.

Lemma value_one : value LINEARS_FIXED_ONE = 1%R.
Proof. exact unit_ulp. Qed.

Lemma value_zero : value 0 = 0%R.
Proof. unfold value. lra. Qed.

Lemma value_opp a : value (- a) = (- value a)%R.
Proof. unfold value. rewrite opp_IZR. lra. Qed.

Lemma value_add a b : value (a + b) = (value a + value b)%R.
Proof. unfold value. rewrite plus_IZR. lra. Qed.

Lemma value_sub a b : value (a - b) = (value a - value b)%R.
Proof. unfold value. rewrite minus_IZR. lra. Qed.

Lemma value_le a b : a <= b -> (value a <= value b)%R.
Proof. intros H. apply IZR_le in H. pose proof ulp_small. unfold value. nra. Qed.

Lemma value_lt a b : a < b -> (value a < value b)%R.
Proof. intros H. apply IZR_lt in H. pose proof ulp_small. unfold value. nra. Qed.

Lemma value_abs a : Rabs (value a) = value (Z.abs a).
Proof. unfold value. rewrite abs_IZR, Rabs_mult, (Rabs_right ulp); [done|]. pose proof ulp_small. lra. Qed.

Lemma value_pos a : 0 < a -> (0 < value a)%R.
Proof. intros H. rewrite <- value_zero. by apply value_lt. Qed.

Lemma value_unit a : LINEARS_FIXED_ONE <= a -> (1 <= value a)%R.
Proof. intros H. rewrite <- value_one. by apply value_le. Qed.

(** An integer that rounds a quotient. *)
Lemma rounded_quotient x n d : 0 < d -> 2 * Z.abs (x * d - n) <= d -> (Rabs (IZR x - IZR n / IZR d) <= / 2)%R.
Proof.
  intros Hd H. apply IZR_le in H. rewrite mult_IZR, abs_IZR, minus_IZR, mult_IZR in H. apply (IZR_lt 0) in Hd.
  replace (IZR x - IZR n / IZR d)%R with ((IZR x * IZR d - IZR n) / IZR d)%R by (field; lra). apply abs_div_bound; lra.
Qed.

Lemma value_quotient a b : 0 < b -> (Rabs (value (div_nearest (a * LINEARS_FIXED_ONE) b) - value a / value b) <= ulp / 2)%R.
Proof.
  intros Hb. pose proof (rounded_quotient _ (a * LINEARS_FIXED_ONE) b Hb (div_nearest_error _ _ Hb)) as H.
  set (x := div_nearest _ _) in *. apply (IZR_lt 0) in Hb. pose proof ulp_small. unfold value.
  replace (IZR x * ulp - IZR a * ulp / (IZR b * ulp))%R with (ulp * (IZR x - IZR (a * LINEARS_FIXED_ONE) / IZR b))%R.
  - replace (ulp / 2)%R with (ulp * / 2)%R by lra. apply abs_mul_bound; [rewrite Rabs_right; lra|done].
  - rewrite mult_IZR. replace (ulp * (IZR x - IZR a * IZR LINEARS_FIXED_ONE / IZR b))%R with (IZR x * ulp - IZR a * (IZR LINEARS_FIXED_ONE * ulp) / IZR b)%R by (field; lra).
    rewrite unit_ulp. field. lra.
Qed.

(** A word that rounds a sum of products, given in units of 2^-62. *)
Lemma value_rounded x n : 2 * Z.abs (x * LINEARS_FIXED_ONE - n) <= LINEARS_FIXED_ONE -> (Rabs (value x - IZR n * (ulp * ulp)) <= ulp / 2)%R.
Proof.
  intros H. apply rounded_quotient in H; [|done]. pose proof ulp_small. unfold value.
  replace (IZR x * ulp - IZR n * (ulp * ulp))%R with (ulp * (IZR x - IZR n / IZR LINEARS_FIXED_ONE))%R.
  - replace (ulp / 2)%R with (ulp * / 2)%R by lra. apply abs_mul_bound; [rewrite Rabs_right; lra|done].
  - pose proof unit_ulp as E. assert (IZR LINEARS_FIXED_ONE <> 0)%R by (unfold LINEARS_FIXED_ONE; lra).
    replace ulp with (/ IZR LINEARS_FIXED_ONE)%R by (apply (Rmult_eq_reg_l (IZR LINEARS_FIXED_ONE)); [rewrite E; by rewrite Rinv_r|done]). field. done.
Qed.

Lemma value_product a b : (Rabs (value (div_nearest (a * b) LINEARS_FIXED_ONE) - value a * value b) <= ulp / 2)%R.
Proof.
  replace (value a * value b)%R with (IZR (a * b) * (ulp * ulp))%R by (unfold value; rewrite mult_IZR; ring).
  apply value_rounded, div_nearest_error. done.
Qed.

Lemma value_sum_to n l r : (IZR (sum_to n (fun i => (l i * r i)%Z)) * (ulp * ulp))%R = dot n (fun i => value (l i)) (fun i => value (r i)).
Proof.
  induction n as [|n IH]; [cbn; unfold sum_to; cbn; lra|]. rewrite sum_to_S, plus_IZR, mult_IZR. unfold dot in *. cbn [rsum]. rewrite <- IH. unfold value. ring.
Qed.

Lemma value_sum n l r : (Rabs (value (div_nearest (sum_to n (fun i => (l i * r i)%Z)) LINEARS_FIXED_ONE) - dot n (fun i => value (l i)) (fun i => value (r i))) <= ulp / 2)%R.
Proof. rewrite <- value_sum_to. apply value_rounded, div_nearest_error. done. Qed.

Lemma value_sub_product x v a b : 2 * Z.abs (x * LINEARS_FIXED_ONE - (v * LINEARS_FIXED_ONE - a * b)) <= LINEARS_FIXED_ONE ->
  (Rabs (value x - (value v - value a * value b)) <= ulp / 2)%R.
Proof.
  intros H. apply value_rounded in H. replace (value v - value a * value b)%R with (IZR (v * LINEARS_FIXED_ONE - a * b) * (ulp * ulp))%R; [done|].
  rewrite minus_IZR, !mult_IZR. unfold value. replace ((IZR v * IZR LINEARS_FIXED_ONE - IZR a * IZR b) * (ulp * ulp))%R with (IZR v * ulp * (IZR LINEARS_FIXED_ONE * ulp) - IZR a * ulp * (IZR b * ulp))%R by ring.
  rewrite unit_ulp. ring.
Qed.

Lemma value_root x v : Z.abs (x * x - v * LINEARS_FIXED_ONE) <= x -> (Rabs (value x * value x - value v) <= ulp * value x)%R.
Proof.
  intros H. apply IZR_le in H. rewrite abs_IZR, minus_IZR, !mult_IZR in H. pose proof ulp_small.
  replace (value x * value x - value v)%R with ((ulp * ulp) * (IZR x * IZR x - IZR v * IZR LINEARS_FIXED_ONE))%R.
  - replace (ulp * value x)%R with (ulp * ulp * IZR x)%R by (unfold value; ring). apply abs_mul_bound; [rewrite Rabs_right; nra|done].
  - replace (ulp * ulp * (IZR x * IZR x - IZR v * IZR LINEARS_FIXED_ONE))%R with (IZR x * ulp * (IZR x * ulp) - IZR v * ulp * (IZR LINEARS_FIXED_ONE * ulp))%R by ring.
    rewrite unit_ulp. unfold value. ring.
Qed.

Section Qr.
Variable kind : numeric_kind.
#[local] Hint Extern 0 (DArith _ Z) => exact (fixed_arith kind) : typeclass_instances.
#[local] Hint Extern 0 (DArith Z _) => exact (fixed_arith kind) : typeclass_instances.
#[local] Hint Extern 0 (DBlock Z) => exact fixed_block : typeclass_instances.
#[local] Hint Extern 0 (DOrtho Z) => exact fixed_ortho : typeclass_instances.
Implicit Types (a b v : list Z) (i j k m n t : nat).

Lemma fixed_two : wp (fcq_i 2) (fun x => x = 2 * LINEARS_FIXED_ONE).
Proof. destruct (fcq_i_total 2 ltac:(lia)) as (x & E & Hx). unfold wp. by rewrite E. Qed.

(** ** The norm *)

Definition accurate_norm (count : nat) (y : nat -> R) (N : Z) : Prop :=
  is_i64 N /\ 0 < N /\ (1 <= value N)%R /\ (Rabs (value N * value N - dot count y y) <= (2 * INR count + 4) * ulp * (value N * value N))%R.

Lemma norm_of_accurate count (v : nat -> Z) : (forall i, (i < count)%nat -> is_i64 (v i)) -> (exists i, (i < count)%nat /\ LINEARS_FIXED_ONE <= Z.abs (v i)) ->
  wp (norm_of count v) (accurate_norm count (fun i => value (v i))).
Proof.
  intros Hv (o & Ho & Hone). unfold norm_of. apply wp_bind; [|intros; apply sticky_unless_failed].
  eapply wp_mono; [by apply (largest_magnitude_wp kind)|]. intros m (Hm & Hm0 & Hle & Hat). apply wp_unless_failed.
  assert (LINEARS_FIXED_ONE <= m) as Hm1 by (specialize (Hle o Ho); lia).
  cbn [D_CMP D_ZERO fixed_arith]. rewrite fcq_cmp_sign. apply wp_if; intros Hz; zbool; [unfold LINEARS_FIXED_ONE in *; lia|].
  destruct Hat as [->|(k & Hk & Ek)]; [done|]. cbn [D_SUM D_DIV D_SQRT D_MUL fixed_arith fixed_ortho].
  apply wp_bind; [|intros; solve_sticky].
  set (ratio := fun i => div_nearest (v i * LINEARS_FIXED_ONE) m).
  eapply wp_mono; [apply (fixed_sum_wp count _ ratio ratio)|].
  - intros. solve_sticky.
  - intros i Hi. specialize (Hv i Hi). wp_call (fixed_div_any (v i) m) as x (_ & Hx & ->). by apply wp_ret.
  - intros sum [Hs Es]. assert (LINEARS_FIXED_ONE <= sum) as Hsum.
    { destruct (sum_to_nonneg count (fun i => ratio i * ratio i)) as [_ Hr]; [intros; unfold ratio; nia|]. specialize (Hr k Hk).
      assert (ratio k * ratio k = LINEARS_FIXED_ONE * LINEARS_FIXED_ONE) as Erk by (unfold ratio; rewrite <- Z.abs_square, unit_quotient by lia; done).
      rewrite Es. apply (div_nearest_between _ LINEARS_FIXED_ONE _ (sum_to count (fun i => ratio i * ratio i))); [done|]. unfold LINEARS_FIXED_ONE in *. lia. }
    wp_call (fixed_root_wp sum) as root (Hr & _ & Er & Hroot). specialize (Hroot Hsum).
    eapply wp_mono; [by apply fixed_mul_wp|]. intros x [Hx Ex].
    assert (m <= x) as Hmx.
    { rewrite Ex. apply (div_nearest_between _ LINEARS_FIXED_ONE m (m * root)); [done|]. unfold LINEARS_FIXED_ONE in *. nia. }
    split; [done|]. split; [unfold LINEARS_FIXED_ONE in *; lia|]. split; [apply value_unit; lia|].
    apply (norm_accuracy count _ (value m) (fun i => value (ratio i)) (value sum) (value root)).
    + by apply value_unit.
    + by apply value_le.
    + intros t Ht. rewrite value_abs. apply value_le. by apply Hle.
    + exists k. split; [done|]. rewrite value_abs. by rewrite <- Ek.
    + intros t Ht. apply value_quotient. unfold LINEARS_FIXED_ONE in *. lia.
    + rewrite Es. apply value_sum.
    + by apply value_unit.
    + by apply value_root.
    + rewrite Ex. apply value_product.
Qed.

(** ** Vectors from row [k] on *)

(** The vector of the code's loops from [k]: zero above. *)
Definition tail k (f : nat -> Z) t : R := if (t <? k)%nat then 0%R else value (f t).

Lemma tail_below k f t : (t < k)%nat -> tail k f t = 0%R.
Proof. intros H. unfold tail. by rewrite (proj2 (Nat.ltb_lt t k)). Qed.

Lemma tail_from k f t : (k <= t)%nat -> tail k f t = value (f t).
Proof. intros H. unfold tail. by rewrite (proj2 (Nat.ltb_ge t k)). Qed.

Lemma rsum_split k d f : rsum (k + d) f = (rsum k f + rsum d (fun i => f (k + i)%nat))%R.
Proof. induction d as [|d IH]; [rewrite Nat.add_0_r; cbn; lra|]. rewrite Nat.add_succ_r. cbn [rsum]. rewrite IH. lra. Qed.

Lemma rsum_zero n f : (forall i, (i < n)%nat -> f i = 0%R) -> rsum n f = 0%R.
Proof. intros H. rewrite (rsum_ext n f (fun _ => (0 * 0)%R)) by (intros; rewrite H by done; lra). rewrite rsum_scal. lra. Qed.

Lemma dot_tail m k x f : (k <= m)%nat -> dot m x (tail k f) = dot (m - k) (fun i => x (k + i)%nat) (fun i => value (f (k + i)%nat)).
Proof.
  intros Hk. unfold dot. replace m with (k + (m - k))%nat at 1 by lia. rewrite rsum_split, rsum_zero; [|intros; rewrite tail_below by done; lra].
  rewrite Rplus_0_l. apply rsum_ext. intros. by rewrite tail_from by lia.
Qed.

Lemma accurate_norm_tail m k f N : (k < m)%nat -> accurate_norm (m - k) (fun i => value (f (k + i)%nat)) N -> accurate_norm m (tail k f) N.
Proof.
  intros Hk (H1 & H2 & H3 & H4). split; [done|]. split; [done|]. split; [done|]. rewrite dot_tail by lia.
  rewrite (dot_ext _ _ _ (fun i => value (f (k + i)%nat)) (fun i => value (f (k + i)%nat))) by (intros; rewrite tail_from by lia; done).
  eapply Rle_trans; [exact H4|]. assert (INR (m - k) <= INR m)%R by (apply le_INR; lia). pose proof ulp_small.
  apply Rmult_le_compat_r; [nra|]. apply Rmult_le_compat_r; lra.
Qed.

Definition vector m v : Prop := length v = m /\ Forall is_i64 v.

Lemma work_cell_range v i : Forall is_i64 v -> is_i64 (cell v i).
Proof. intros Hv. pose proof (at_range kind 0 0 i v Hv) as H. exact H. Qed.

Lemma vector_insert m v i x : vector m v -> is_i64 x -> vector m (<[i := x]> v).
Proof. intros [Hl Hv] Hx. split; [by rewrite length_insert|by apply Forall_insert]. Qed.

Lemma work_cell_insert m v i i' x : vector m v -> (i < m)%nat -> cell (<[i := x]> v) i' = if decide (i' = i) then x else cell v i'.
Proof.
  intros [Hl _] Hi. unfold cell. rewrite !nth_lookup. case_decide as E; [subst i'; rewrite list_lookup_insert_eq by lia; done|by rewrite list_lookup_insert_ne by lia].
Qed.

(** A loop that computes the cells from [k] on. *)
Lemma fill_cells_wp m k (f : nat -> list Z -> fc Z) (g : nat -> Z) v : (k <= m)%nat -> vector m v -> (forall i u, sticky (f i u)) ->
  (forall i u, (k <= i < m)%nat -> vector m u -> cell u i = cell v i -> wp (f i u) (fun x => is_i64 x /\ x = g i)) ->
  wp (for_fc k (m - k) (fun i u => x ← f i u; mret (<[i := x]> u)) v) (fun u => vector m u /\ forall i, (k <= i < m)%nat -> cell u i = g i).
Proof.
  intros Hk Hv Hst Hf.
  eapply wp_mono; [apply (wp_for_fc (fun r u => vector m u /\ (forall i, (k <= i < r)%nat -> cell u i = g i) /\ (forall i, (r <= i)%nat -> cell u i = cell v i)))|].
  - intros i u. apply sticky_bind; [apply Hst|solve_sticky].
  - intros i u Hi (Hu & Hdone & Hrest). apply wp_bind; [|solve_sticky].
    eapply wp_mono; [apply Hf; [lia|done|apply Hrest; lia]|]. intros x [Hx ->]. apply wp_ret. split; [by apply vector_insert|]. split.
    + intros t Ht. rewrite (work_cell_insert m) by (done || lia). case_decide; [by subst|]. apply Hdone. lia.
    + intros t Ht. rewrite (work_cell_insert m) by (done || lia). rewrite decide_False by lia. apply Hrest. lia.
  - split; [done|]. split; [lia|done].
  - intros u (Hu & Hdone & _). split; [done|]. intros i Hi. apply Hdone. lia.
Qed.

(** Quotients of the cells from [k] on. *)
Definition quotients m k (d f : nat -> R) (N : R) : Prop := forall t, (t < m)%nat -> (Rabs (d t - f t / N) <= ulp / 2)%R.

Lemma quotients_tail m k (f g : nat -> Z) N : 0 < N -> (forall i, (k <= i < m)%nat -> g i = div_nearest (f i * LINEARS_FIXED_ONE) N) ->
  quotients m k (tail k g) (tail k f) (value N).
Proof.
  intros HN Hg t Ht. destruct (Nat.lt_ge_cases t k) as [Hlt|Hge].
  - rewrite !tail_below by done. pose proof ulp_small. unfold Rdiv. rewrite Rmult_0_l, Rminus_0_r, Rabs_R0. lra.
  - rewrite !tail_from by done. rewrite Hg by lia. by apply value_quotient.
Qed.

(** The scaled column [y], its norm [N] and the direction in [v]. *)
Definition direction_ok m k (x : nat -> Z) (norm : Z) v : Prop := exists (M N : Z) (y : nat -> Z), 0 < M /\ accurate_norm m (tail k y) N /\
  quotients m k (tail k y) (tail k x) (value M) /\ quotients m k (tail k (cell v)) (tail k y) (value N) /\
  (Rabs (value norm - value M * value N) <= ulp / 2)%R /\ is_i64 norm /\ vector m v.

Lemma qr_direction_wp m n k r v : (k < m)%nat -> Forall is_i64 r -> vector m v ->
  wp (qr_direction m n k r v) (fun result => match result with
    | None => forall t, (k <= t < m)%nat -> at_index n r t k = 0
    | Some (norm, u) => direction_ok m k (fun t => at_index n r t k) norm u
    end).
Proof.
  intros Hk Hr Hv. unfold qr_direction. cbn [D_FIXED fixed_ortho]. cbv zeta.
  apply wp_bind; [|intros; apply sticky_unless_failed].
  eapply wp_mono; [apply (largest_magnitude_wp kind); intros; by apply at_range|]. intros M (HM & HM0 & Hle & Hat). apply wp_unless_failed.
  cbn [D_CMP D_ZERO D_DIV D_MUL fixed_arith]. rewrite fcq_cmp_sign. apply wp_if; intros Hz; zbool.
  { apply wp_ret. intros t Ht. specialize (Hle (t - k)%nat ltac:(lia)). replace (k + (t - k))%nat with t in Hle by lia. lia. }
  destruct Hat as [->|(o & Ho & Eo)]; [done|]. assert (0 < M) as HMp by lia.
  set (y := fun i => div_nearest (at_index n r i k * LINEARS_FIXED_ONE) M).
  apply wp_bind; [|intros; apply sticky_bind; [apply norm_of_sticky|intros; apply sticky_bind; [apply sticky_for_fc|]; intros; solve_sticky]].
  unfold compute_cells. eapply wp_mono; [apply (fill_cells_wp m k (fun i _ => fcq_div (at_index n r i k) M) y); [lia|done|intros; solve_sticky|]|].
  { intros i u Hi _ _. eapply wp_mono; [apply fixed_div_any; [by apply at_range|done]|]. intros x (_ & Hx & ->). done. }
  intros u [Hu Ey]. apply wp_bind; [|intros; apply sticky_bind; [apply sticky_for_fc|]; intros; solve_sticky].
  eapply wp_mono; [apply norm_of_accurate; [intros; by apply work_cell_range, Hu|]|].
  { exists o. split; [done|]. rewrite Ey by lia. unfold y. by rewrite unit_quotient by lia. }
  intros N HN. apply wp_bind; [|intros; solve_sticky].
  apply (accurate_norm_tail m k (cell u)) in HN; [|done]. destruct HN as (HNr & HNp & HN1 & HNN).
  eapply wp_mono; [apply (fill_cells_wp m k (fun i u => fcq_div (cell u i) N) (fun i => div_nearest (cell u i * LINEARS_FIXED_ONE) N)); [lia|done|intros; solve_sticky|]|].
  { intros i w Hi Hw E. rewrite <- E. eapply wp_mono; [apply fixed_div_any; [by apply work_cell_range, Hw|done]|]. intros x (_ & Hx & ->). done. }
  intros w [Hw Ew]. wp_call (fixed_mul_wp M N) as norm [Hnorm En]. apply wp_ret.
  exists M, N, (cell u). split; [done|]. split; [done|]. split; [by apply quotients_tail|]. split; [by apply quotients_tail|].
  split; [rewrite En; apply value_product|done].
Qed.

(** The shifted direction, its norm and the reflector. *)
Definition reflector_ok m k (d : nat -> R) (norm : Z) v (diagonal : Z) : Prop := exists (s : R) (Nz : Z) (z : nat -> R), (s = 1 \/ s = -1)%R /\
  (forall t, (t < m)%nat -> z t = d t + s * axis k t)%R /\ accurate_norm m z Nz /\ quotients m k (tail k (cell v)) z (value Nz) /\
  value diagonal = (- s * value norm)%R /\ is_i64 diagonal /\ vector m v.

Lemma qr_reflector_wp m k (norm : Z) v : (k < m)%nat -> vector m v -> is_i64 norm ->
  wp (qr_reflector m k norm v) (fun result => reflector_ok m k (tail k (cell v)) norm result.1.1 result.1.2 /\ result.2 = 2 * LINEARS_FIXED_ONE).
Proof.
  intros Hk Hv Hn. unfold qr_reflector. cbn [D_CMP D_ZERO D_ONE D_ADD D_SUB D_NEG D_DIV D_CONST fixed_arith fixed_block]. rewrite fcq_cmp_sign.
  pose proof (work_cell_range v k (proj2 Hv)) as Hvk.
  apply wp_bind; [|intros; apply sticky_bind; [apply norm_of_sticky|intros; apply sticky_bind; [apply sticky_for_fc|]; intros; solve_sticky]].
  set (direction := tail k (cell v)).
  eapply (wp_mono _ (fun shifted => exists s : R, (s = 1 \/ s = -1)%R /\ vector m shifted.1 /\ is_i64 shifted.2 /\ value shifted.2 = (- s * value norm)%R /\
    LINEARS_FIXED_ONE <= Z.abs (cell shifted.1 k) /\ forall t, (t < m)%nat -> tail k (cell shifted.1) t = (direction t + s * axis k t)%R)).
  { assert (forall x s, is_i64 x -> (value x = value (cell v k) + s)%R -> forall t, (t < m)%nat -> tail k (cell (<[k := x]> v)) t = (direction t + s * axis k t)%R) as Hset.
    { intros x s Hx E t Ht. unfold direction, axis. destruct (Nat.lt_ge_cases t k) as [Hlt|Hge].
      - rewrite !tail_below, decide_False by lia. lra.
      - rewrite !tail_from, (work_cell_insert m) by (done || lia). case_decide; [subst t; lra|lra]. }
    apply wp_if; intros Hc; zbool.
    - wp_call (fixed_sub_wp (cell v k) LINEARS_FIXED_ONE) as x [Ex Hx]. apply wp_ret. exists (-1)%R. cbn [fst snd].
      split; [by right|]. split; [by apply vector_insert|]. split; [done|]. split; [lra|]. split; [rewrite (work_cell_insert m), decide_True by done; lia|].
      apply Hset; [done|]. rewrite Ex, value_sub, value_one. lra.
    - wp_call (fixed_add_wp (cell v k) LINEARS_FIXED_ONE) as x [Ex Hx]. wp_call (fixed_neg_wp norm) as diagonal [Ed Hd]. apply wp_ret. exists 1%R. cbn [fst snd].
      split; [by left|]. split; [by apply vector_insert|]. split; [done|]. split; [rewrite Ed, value_opp; lra|].
      split; [rewrite (work_cell_insert m), decide_True by done; lia|]. apply Hset; [done|]. rewrite Ex, value_add, value_one. lra. }
  intros [u diagonal] (s & Hs & Hu & Hd & Ed & Hone & Hz). cbn [fst snd] in *.
  apply wp_bind; [|intros; apply sticky_bind; [apply sticky_for_fc|]; intros; solve_sticky].
  eapply wp_mono; [apply norm_of_accurate; [intros; by apply work_cell_range, Hu|]|].
  { exists 0%nat. split; [lia|]. by rewrite Nat.add_0_r. }
  intros N HN. apply wp_bind; [|intros; solve_sticky].
  apply (accurate_norm_tail m k (cell u)) in HN; [|done]. pose proof HN as (HNr & HNp & _).
  eapply wp_mono; [apply (fill_cells_wp m k (fun i u => fcq_div (cell u i) N) (fun i => div_nearest (cell u i * LINEARS_FIXED_ONE) N)); [lia|done|intros; solve_sticky|]|].
  { intros i w Hi Hw E. rewrite <- E. eapply wp_mono; [apply fixed_div_any; [by apply work_cell_range, Hw|done]|]. intros x (_ & Hx & ->). done. }
  intros w [Hw Ew]. apply wp_bind; [|intros; solve_sticky]. eapply wp_mono; [apply fixed_two|]. intros two ->. apply wp_ret.
  cbn [fst snd]. split; [|done]. exists s, N, (tail k (cell u)). split; [done|]. split; [exact Hz|]. split; [done|]. split; [by apply quotients_tail|]. done.
Qed.

(** ** Reflected rows and columns *)

(** A loop that computes the cells [line t] of an array, each from its old value. *)
Lemma write_line_wp rows columns (line : nat -> nat * nat) k m (body : nat -> list Z -> fc (list Z)) (Q : nat -> Z -> Prop) a :
  (k <= m)%nat -> array rows columns a -> (forall t, (k <= t < m)%nat -> (line t).1 < rows /\ (line t).2 < columns)%nat ->
  (forall t t', (k <= t < m)%nat -> (k <= t' < m)%nat -> line t = line t' -> t = t') -> (forall t b, sticky (body t b)) ->
  (forall t b, (k <= t < m)%nat -> array rows columns b -> at_index columns b (line t).1 (line t).2 = at_index columns a (line t).1 (line t).2 ->
    wp (body t b) (fun b' => exists x, is_i64 x /\ Q t x /\ b' = set_index columns (line t).1 (line t).2 x b)) ->
  wp (for_fc k (m - k) body a)
    (fun b => array rows columns b /\ (forall t, (k <= t < m)%nat -> Q t (at_index columns b (line t).1 (line t).2)) /\
      forall i j, (i < rows)%nat -> (j < columns)%nat -> (forall t, (k <= t < m)%nat -> line t <> (i, j)) -> at_index columns b i j = at_index columns a i j).
Proof.
  intros Hk Ha Hin Hinj Hst Hf.
  eapply wp_mono; [apply (wp_for_fc (fun r b => array rows columns b /\ (forall t, (k <= t < r)%nat -> Q t (at_index columns b (line t).1 (line t).2)) /\
    forall i j, (i < rows)%nat -> (j < columns)%nat -> (forall t, (k <= t < r)%nat -> line t <> (i, j)) -> at_index columns b i j = at_index columns a i j))|].
  - exact Hst.
  - intros r b Hr (Hb & Hdone & Hsame). destruct (Hin r ltac:(lia)) as [Hi Hj].
    eapply wp_mono; [apply Hf; [lia|done|]|].
    { apply Hsame; [done|done|]. intros t Ht E. specialize (Hinj t r ltac:(lia) ltac:(lia)). rewrite E in Hinj. destruct (line r). specialize (Hinj eq_refl). lia. }
    intros b' (x & Hx & HQ & ->). split; [by apply array_set|]. split.
    + intros t Ht. destruct (Hin t ltac:(lia)) as [Hi' Hj']. rewrite (array_at_set kind rows) by done. case_decide as E.
      * assert (r = t) as <- by (apply Hinj; [lia|lia|]; destruct (line r), (line t); cbn in *; destruct E; by subst). done.
      * apply Hdone. assert (t <> r) by (intros ->; by apply E). lia.
    + intros i j Hi' Hj' Hne. rewrite (array_at_set kind rows) by done. rewrite decide_False.
      * apply Hsame; [done|done|]. intros t Ht. apply Hne. lia.
      * intros [E1 E2]. apply (Hne r); [lia|]. destruct (line r). cbn in *. by subst.
  - split; [done|]. split; [lia|done].
  - replace (k + (m - k))%nat with m by lia. done.
Qed.

Definition row_at columns a i t : R := value (at_index columns a i t).
Definition column_at columns a j t : R := value (at_index columns a t j).

Lemma twice_wp (x : Z) : is_i64 x -> wp (fcq_mul (2 * LINEARS_FIXED_ONE) x) (fun y => is_i64 y /\ y = 2 * x).
Proof.
  intros Hx. eapply wp_mono; [apply fixed_mul_wp; [unfold LINEARS_FIXED_ONE; rlia|done]|]. intros y [Hy ->]. split; [done|].
  replace (2 * LINEARS_FIXED_ONE * x) with (2 * x * LINEARS_FIXED_ONE) by ring. by apply div_nearest_1.
Qed.

Definition other_rows rows columns i a b : Prop := forall i' j, (i' < rows)%nat -> (j < columns)%nat -> i' <> i -> at_index columns b i' j = at_index columns a i' j.

Lemma qr_apply_row_sticky m k v (two : Z) i q : sticky (qr_apply_row m k v two i q).
Proof.
  unfold qr_apply_row. cbn [D_SUM D_MUL D_SUB_PRODUCT fixed_arith fixed_ortho]. apply sticky_bind; [apply fixed_sum_sticky; intros; solve_sticky|].
  intros. apply sticky_bind; [solve_sticky|]. intros. apply sticky_for_fc. intros. solve_sticky.
Qed.

Lemma qr_apply_row_wp m k v i q : (k < m)%nat -> (i < m)%nat -> vector m v -> array m m q ->
  wp (qr_apply_row m k v (2 * LINEARS_FIXED_ONE) i q) (fun q' => array m m q' /\ other_rows m m i q q' /\
    row_reflected m (tail k (cell v)) (row_at m q i) (row_at m q' i)).
Proof.
  intros Hk Hi Hv Hq. unfold qr_apply_row. cbn [D_SUM D_MUL D_SUB_PRODUCT fixed_arith fixed_ortho].
  apply wp_bind; [|intros; apply sticky_bind; [solve_sticky|]; intros; apply sticky_for_fc; intros; solve_sticky].
  eapply wp_mono; [apply (fixed_sum_wp (m - k) _ (fun t => at_index m q i (k + t)) (fun t => cell v (k + t))); [intros; solve_sticky|]|].
  { intros t Ht. apply wp_ret. cbn. split; [by eapply (array_at kind)|]. split; [by apply work_cell_range, Hv|done]. }
  intros sum [Hsum Es]. apply wp_bind; [|intros; apply sticky_for_fc; intros; solve_sticky].
  eapply wp_mono; [by apply twice_wp|]. intros d [Hd ->].
  eapply wp_mono; [apply (write_line_wp m m (fun t => (i, t)) k m _
    (fun t x => Rabs (value x - (row_at m q i t - value (2 * sum) * value (cell v t))) <= ulp / 2)%R); [lia|done|by cbn; lia|by intros t t' _ _ [= ->]|intros; solve_sticky|]|].
  - cbn [fst snd]. intros t b Ht Hb E. rewrite E. pose proof (array_at kind m m i t _ Hq). pose proof (work_cell_range v t (proj2 Hv)).
    wp_call (fixed_sub_product_wp (at_index m q i t) (2 * sum) (cell v t)) as x [Hx Ex]. apply wp_ret. exists x. split; [done|]. split; [by apply value_sub_product|done].
  - cbn [fst snd]. intros b (Hb & Hdone & Hsame). split; [done|]. split.
    { intros i' j Hi' Hj Hne. apply Hsame; [done|done|]. intros t _ [= E _]. lia. }
    exists (value (2 * sum)). split.
    + replace (2 * sum) with (sum + sum) by lia. rewrite value_add, dot_tail by lia. 
      assert (Rabs (value sum - dot (m - k) (fun t => row_at m q i (k + t)) (fun t => value (cell v (k + t)))) <= ulp / 2)%R as H
        by (rewrite Es; exact (value_sum _ _ _)). abs_lra.
    + intros t Ht. destruct (Nat.lt_ge_cases t k) as [Hlt|Hge].
      * rewrite tail_below by done. unfold row_at. rewrite Hsame; [|done|done|intros t' Ht' [= E]; lia].
        match goal with |- (Rabs ?x <= _)%R => replace x with 0%R by lra end. rewrite Rabs_R0. pose proof ulp_small. lra.
      * rewrite tail_from by done. apply Hdone. lia.
Qed.

Definition other_columns rows columns j a b : Prop := forall i j', (i < rows)%nat -> (j' < columns)%nat -> j' <> j -> at_index columns b i j' = at_index columns a i j'.

(** A column that is zero from row [k] on is its own reflection. *)
Lemma column_reflected_same m k v (Y : R) x x' : (0 <= Y)%R -> (forall t, (t < m)%nat -> x' t = x t) -> (forall t, (k <= t < m)%nat -> x t = 0%R) ->
  column_reflected m (tail k (cell v)) Y x x'.
Proof.
  intros HY Hs Hz. pose proof ulp_small as Hu. pose proof (pos_INR m). exists 0%R. split.
  - assert (dot m x (tail k (cell v)) = 0)%R as ->.
    { apply rsum_zero. intros t Ht. destruct (Nat.lt_ge_cases t k); [rewrite tail_below by done; lra|rewrite Hz by done; lra]. }
    replace (0 - 2 * 0)%R with 0%R by lra. rewrite Rabs_R0. repeat apply Rmult_le_pos; lra.
  - intros t Ht. rewrite Hs by done. replace (x t - (x t - 0 * tail k (cell v) t))%R with 0%R by lra. rewrite Rabs_R0. repeat apply Rmult_le_pos; lra.
Qed.

Lemma qr_apply_column_sticky m n k v (two : Z) j r : sticky (qr_apply_column m n k v two j r).
Proof.
  unfold qr_apply_column. cbn [D_SUM D_MUL D_DIV D_SUB_PRODUCT D_CMP D_ZERO fixed_arith fixed_ortho].
  apply sticky_bind; [apply largest_magnitude_sticky|]. intros. case_if; [solve_sticky|]. apply sticky_bind; [apply fixed_sum_sticky; intros; solve_sticky|].
  intros. apply sticky_bind; [solve_sticky|]. intros. apply sticky_for_fc. intros. solve_sticky.
Qed.

(** The error of the factor: the rounded ratios, their rounded sum. *)
Lemma scaled_factor m (M Y sum : R) (x v rho : nat -> R) : (0 < M <= Y)%R -> within m v (11 / 10) -> (1 <= INR m)%R ->
  (forall t, (t < m)%nat -> Rabs (rho t - x t / M) <= ulp / 2)%R -> (Rabs (sum - dot m rho v) <= ulp / 2)%R ->
  (Rabs (M * (2 * sum) - 2 * dot m x v) <= 3 * (INR m * ulp) * Y)%R.
Proof.
  intros [HM HMY] Hv Hm Hrho Hsum. pose proof ulp_small as Hu.
  assert (Rabs (dot m (fun t => rho t - x t / M) v) <= INR m * (ulp / 2 * (11 / 10)))%R as H1.
  { apply rsum_bound. intros t Ht. apply abs_mul_bound; [by apply Hrho|by apply (within_component m v)]. }
  assert (dot m (fun t => rho t - x t / M) v = dot m rho v - dot m x v / M)%R as E.
  { replace (dot m rho v - dot m x v / M)%R with (dot m rho v + (- / M) * dot m x v)%R by (field; lra). rewrite <- dot_scal_l, <- dot_plus_l.
    apply dot_ext. intros. split; [field; lra|done]. }
  rewrite E in H1. set (a := dot m rho v) in *. set (b := dot m x v) in *. clearbody a b.
  assert (ulp <= INR m * ulp)%R by nra. set (nu := (INR m * ulp)%R) in *. replace (INR m * (ulp / 2 * (11 / 10)))%R with (11 / 20 * nu)%R in H1 by (unfold nu; field).
  assert (Rabs (M * (2 * sum - 2 * (b / M))) <= Y * (3 * nu))%R as H2 by (apply abs_mul_bound; [rewrite Rabs_right; lra|abs_lra]).
  replace (M * (2 * sum) - 2 * b)%R with (M * (2 * sum - 2 * (b / M)))%R by (field; lra). lra.
Qed.

(** The error of an element: the rounded ratio, difference and product. *)
Lemma scaled_element (M Y x x' w p q dc : R) : (0 < M <= Y)%R -> (1 <= Y)%R -> (Rabs (p - x / M) <= ulp / 2)%R ->
  (Rabs (q - (p - w * dc)) <= ulp / 2)%R -> (Rabs (x' - q * M) <= ulp / 2)%R -> (Rabs (x' - (x - M * dc * w)) <= 3 / 2 * Y * ulp)%R.
Proof.
  intros [HM HMY] HY Hp Hq Hx. pose proof ulp_small as Hu.
  assert (Rabs (M * (q - (x / M - w * dc))) <= Y * ulp)%R as H by (apply abs_mul_bound; [rewrite Rabs_right; lra|abs_lra]).
  replace (M * (q - (x / M - w * dc)))%R with (q * M - (x - M * dc * w))%R in H by (field; lra). assert (ulp <= Y * ulp)%R by nra. abs_lra.
Qed.

Lemma qr_apply_column_wp m n k v j r (Y : R) : (k < m)%nat -> (j < n)%nat -> vector m v -> within m (tail k (cell v)) (11 / 10) -> (1 <= Y)%R ->
  array m n r -> within m (column_at n r j) Y ->
  wp (qr_apply_column m n k v (2 * LINEARS_FIXED_ONE) j r) (fun r' => array m n r' /\ other_columns m n j r r' /\
    column_reflected m (tail k (cell v)) Y (column_at n r j) (column_at n r' j)).
Proof.
  intros Hk Hj Hv Hvw HY Hr HrY. unfold qr_apply_column. cbn [D_SUM D_MUL D_DIV D_SUB_PRODUCT D_CMP D_ZERO fixed_arith fixed_ortho].
  assert (forall i t, is_i64 (at_index n r i t)) as Hrange by (intros; by eapply (array_at kind)).
  apply wp_bind; [|intros; case_if; [solve_sticky|]; apply sticky_bind; [apply fixed_sum_sticky; intros; solve_sticky|];
    intros; apply sticky_bind; [solve_sticky|]; intros; apply sticky_for_fc; intros; solve_sticky].
  eapply wp_mono; [apply (largest_magnitude_wp kind); intros; apply Hrange|]. intros M (HM & HM0 & Hle & Hat).
  rewrite fcq_cmp_sign. apply wp_if; intros Hz; zbool.
  { apply wp_ret. split; [done|]. split; [done|]. apply column_reflected_same; [lra|done|]. intros t Ht. unfold column_at.
    specialize (Hle (t - k)%nat ltac:(lia)). replace (k + (t - k))%nat with t in Hle by lia. replace (at_index n r t j) with 0 by lia. apply value_zero. }
  destruct Hat as [->|(o & Ho & Eo)]; [done|]. assert (0 < M) as HMp by lia.
  assert (0 < value M <= Y)%R as HMY.
  { split; [by apply value_pos|]. rewrite Eo, <- value_abs. apply (within_component m (column_at n r j) Y (k + o)); [lia|done]. }
  set (ratio := fun i => div_nearest (at_index n r i j * LINEARS_FIXED_ONE) M).
  assert (forall t, Rabs (value (ratio t) - column_at n r j t / value M) <= ulp / 2)%R as Hratio by (intros; by apply value_quotient).
  apply wp_bind; [|intros; apply sticky_bind; [solve_sticky|]; intros; apply sticky_for_fc; intros; solve_sticky].
  eapply wp_mono; [apply (fixed_sum_wp (m - k) _ (fun t => cell v (k + t)) (fun t => ratio (k + t)%nat)); [intros; solve_sticky|]|].
  { intros t Ht. wp_call (fixed_div_any (at_index n r (k + t) j) M) as x (_ & Hx & ->). apply wp_ret. cbn. split; [by apply work_cell_range, Hv|done]. }
  intros sum [Hsum Es]. apply wp_bind; [|intros; apply sticky_for_fc; intros; solve_sticky].
  eapply wp_mono; [by apply twice_wp|]. intros dc [Hdc Edc].
  assert (Rabs (value sum - dot m (fun t => value (ratio t)) (tail k (cell v))) <= ulp / 2)%R as Hd.
  { rewrite dot_tail by lia. rewrite dot_comm, Es. exact (value_sum _ _ _). }
  eapply wp_mono; [apply (write_line_wp m n (fun t => (t, j)) k m _
    (fun t x => Rabs (value x - (column_at n r j t - value M * value dc * value (cell v t))) <= 3 / 2 * Y * ulp)%R); [lia|done|by cbn; lia|by intros t t' _ _ [= ->]|intros; solve_sticky|]|].
  - cbn [fst snd]. intros t b Ht Hb E. rewrite E. wp_call (fixed_div_any (at_index n r t j) M) as p (_ & Hp & Ep).
    pose proof (work_cell_range v t (proj2 Hv)). wp_call (fixed_sub_product_wp p (cell v t) dc) as q [Hq Eq]. wp_call (fixed_mul_wp q M) as x [Hx Ex]. apply wp_ret. exists x. split; [done|]. split; [|done].
    apply (scaled_element (value M) Y (column_at n r j t) (value x) (value (cell v t)) (value p) (value q)); [done|done| | |].
    + rewrite Ep. apply Hratio.
    + by apply value_sub_product.
    + rewrite Ex. apply value_product.
  - cbn [fst snd]. intros b (Hb & Hdone & Hsame). split; [done|]. split.
    { intros i j' Hi Hj' Hne. apply Hsame; [done|done|]. intros t _ [= _ E]. lia. }
    exists (value M * value dc)%R. split.
    + rewrite Edc. replace (2 * sum) with (sum + sum) by lia. rewrite value_add. replace (value sum + value sum)%R with (2 * value sum)%R by lra.
      apply (scaled_factor m (value M) Y (value sum) _ _ (fun t => value (ratio t))); auto. apply (le_INR 1). lia.
    + intros t Ht. destruct (Nat.lt_ge_cases t k) as [Hlt|Hge].
      * rewrite tail_below by done. unfold column_at. rewrite Hsame; [|done|done|intros t' Ht' [= E]; lia].
        match goal with |- (Rabs ?x <= _)%R => replace x with 0%R by lra end. rewrite Rabs_R0. pose proof ulp_small. repeat apply Rmult_le_pos; lra.
      * rewrite tail_from by done. apply Hdone. lia.
Qed.
End Qr.
