(* ===== verification/QrSpec.v ===== *)
(** * QR in the fixed formats: the invariant of the columns and the entry points

    The pivot column of a pass, the loops over the other columns and the rows, and the
    distances from an orthogonal Q and from the product A that every pass adds; what
    linears_qr stores when it succeeds: factors whose products differ from the identity
    and from the input by less than a bound that depends on the order only. *)
From Stdlib Require Import Reals Lra.
From S2P Require Import Prelude MachineInt Status Wide Numeric Memory Float Matrix FcMonad Cordic FcFloat FcVariants FcOps Decomp DecompQ LuQ Ldlt LdltQ LdltSpec Qr SvdQ QrReal QrQ CholeskyQ DecompSpec Svd SvdSpec.

Section Qr.
Variable kind : numeric_kind.
#[local] Hint Extern 0 (DArith _ Z) => exact (fixed_arith kind) : typeclass_instances.
#[local] Hint Extern 0 (DArith Z _) => exact (fixed_arith kind) : typeclass_instances.
#[local] Hint Extern 0 (DBlock Z) => exact fixed_block : typeclass_instances.
#[local] Hint Extern 0 (DOrtho Z) => exact fixed_ortho : typeclass_instances.
Implicit Types (a b r q v : list Z) (i j k m n t : nat).

(** ** The pivot column *)

(** Column [k] after the pass: its part above, the diagonal element, zeros. *)
Definition pivot_done m k (x : nat -> Z) (diagonal : Z) (c : nat -> R) : Prop := forall t, (t < m)%nat ->
  c t = (if decide (t < k)%nat then value (x t) else if decide (t = k) then value diagonal else 0)%R.

Definition head k (f : nat -> Z) t : R := if (t <? k)%nat then value (f t) else 0%R.

Lemma head_tail k f t : value (f t) = (head k f t + tail k f t)%R.
Proof. unfold head, tail. case_if; lra. Qed.

Lemma dot_head_tail m k f g : dot m (head k f) (tail k g) = 0%R.
Proof. apply rsum_zero. intros t _. unfold head, tail. case_if; lra. Qed.

Lemma within_tail m k f X : within m (fun t => value (f t)) X -> within m (tail k f) X.
Proof.
  intros [HX Hx]. split; [done|]. eapply Rle_trans; [|exact Hx]. apply rsum_le. intros t _. unfold tail. case_if; [nra|lra].
Qed.

(** The length that the direction is multiplied with. *)
Lemma multiple_bound (nu L X Y : R) : (0 < L)%R -> (0 <= nu <= / 1000)%R -> (1 <= Y)%R -> (X <= Y * Y)%R -> (Rabs (X - L * L) <= 11 * nu * (L * L))%R -> (L <= 51 / 50 * Y)%R.
Proof.
  intros HL Hnu HY HX H. destruct (Rle_lt_dec L (51 / 50 * Y)) as [|Hlt]; [done|]. exfalso.
  assert (51 / 50 * Y * (51 / 50 * Y) < L * L)%R by nra. assert (11 * nu * (L * L) <= 11 / 1000 * (L * L))%R by nra. assert (0 < Y * Y)%R by nra. abs_lra.
Qed.

Lemma pivot_length (nu L X Y nrm : R) : (0 < L)%R -> (1 <= Y)%R -> (ulp <= nu)%R -> (nu <= / 1000)%R -> (L <= 51 / 50 * Y)%R ->
  (Rabs (X - L * L) <= 11 * nu * (L * L))%R -> (Rabs (nrm - L) <= ulp / 2)%R -> (Rabs (nrm * nrm - X) <= 50 * (nu * (Y * Y)))%R.
Proof.
  intros HL HY Hun Hnu HLY H Hn. pose proof ulp_small as Hu.
  assert (Rabs (nrm + L) <= 3 * Y)%R as H1 by abs_lra. pose proof (abs_mul_bound _ _ _ _ Hn H1) as H2.
  replace ((nrm - L) * (nrm + L))%R with (nrm * nrm - L * L)%R in H2 by ring.
  assert (L * L <= 11 / 10 * (Y * Y))%R by nra. assert (0 < nu)%R by lra. assert (nu * (L * L) <= nu * (11 / 10 * (Y * Y)))%R by (apply Rmult_le_compat_l; lra).
  assert (ulp / 2 * (3 * Y) <= 3 / 2 * (nu * (Y * Y)))%R by (assert (Y <= Y * Y)%R by nra; assert (ulp * Y <= nu * (Y * Y))%R by (apply Rmult_le_compat; lra); lra).
  assert (0 <= nu * (Y * Y))%R by (repeat apply Rmult_le_pos; lra). abs_lra.
Qed.

Lemma pivot_column_step m k (x : nat -> Z) (norm : Z) u v (diagonal : Z) (c : nat -> R) (P Y : R) : (k < m)%nat -> (INR m * ulp <= / 1000)%R -> (0 <= P)%R -> (P * P = INR m)%R -> (1 <= Y)%R ->
  direction_ok kind m k x norm u -> reflector_ok kind m k (tail k (cell u)) norm v diagonal -> within m (fun t => value (x t)) Y -> pivot_done m k x diagonal c ->
  (Rabs (dot m (tail k (cell v)) (tail k (cell v)) - 1) <= 8 * (INR m * ulp))%R /\
  moved m (tail k (cell v)) (fun t => value (x t)) c (2 * dot m (fun t => value (x t)) (tail k (cell v))) (40 * (INR m * ulp) * Y) /\
  (Rabs (dot m c c - dot m (fun t => value (x t)) (fun t => value (x t))) <= 50 * (INR m * ulp * (Y * Y)))%R.
Proof.
  intros Hk Hsmall HP HPP HY (M & N & y & HM & (_ & _ & HN1 & HNN) & Hy & Hd & Hn & _) (s & Nz & z & Hs & Hz & (_ & _ & HNz & HNzz) & Hv & Ed & _) Hx Hc.
  set (xt := tail k x). set (d := tail k (cell u)) in *. set (w := tail k (cell v)) in *.
  pose proof ulp_small as Hu. assert (1 <= INR m)%R as Hm by (apply (le_INR 1); lia). apply value_pos in HM. set (nu := (INR m * ulp)%R) in *.
  assert (ulp <= nu)%R as Hun by (unfold nu; nra).
  assert (Rabs (dot m d d - 1) <= 8 * INR m * ulp)%R as Hdd.
  { pose proof (unit_vector m (tail k y) (value N) d ((2 * INR m + 4) * ulp)%R HN1 ltac:(unfold nu in *; nra) HNN Hd). unfold nu in *. abs_lra. }
  pose proof (reflector_unit m k d z w (value Nz) Hk Hsmall Hdd HNz HNzz Hv) as Hww.
  pose proof (reflected_column m k d z w s (value Nz) Hk Hsmall Hs Hdd Hz HNz HNzz Hv P HP HPP xt (tail k y) (value M) (value N) (value norm) HM HN1 Hy Hd Hn) as Hcol.
  pose proof (column_length m k d z (value Nz) Hk Hsmall Hdd HNzz P HP HPP xt (tail k y) (value M) (value N) (value norm) HM HN1 Hy Hd Hn) as Hlen.
  fold nu in Hww, Hcol, Hlen. set (L := (value M * value N)%R) in *. assert (0 < L)%R as HL by (unfold L; nra).
  pose proof (within_tail m k x Y Hx) as [_ Hxt]. fold xt in Hxt. pose proof (multiple_bound nu L _ Y HL ltac:(lra) HY Hxt Hlen) as HLY.
  split; [done|].
  assert (forall f : nat -> R, dot m (fun t => value (x t)) f = dot m (head k x) f + dot m xt f)%R as Esplit
    by (intros f; rewrite <- dot_plus_l; apply dot_ext; intros; split; [apply head_tail|done]).
  assert (forall t, (t < m)%nat -> c t = head k x t + (- s * value norm) * axis k t)%R as Ec.
  { intros t Ht. rewrite Hc by done. unfold head, axis. destruct (Nat.ltb_spec t k); repeat case_decide; try lia; [lra|rewrite Ed; lra|lra]. }
  split.
  - assert (dot m (fun t => value (x t)) w = dot m xt w) as Edot by (rewrite Esplit; unfold w; rewrite dot_head_tail; lra).
    unfold moved. rewrite Edot. apply (within_weaken m _ (1 * (35 * nu * L + ulp / 2))).
    { assert (nu * L <= nu * (51 / 50 * Y))%R by (apply Rmult_le_compat_l; lra). assert (ulp <= nu * Y)%R by nra. lra. }
    eapply within_ext; [|apply (within_scal m (-1)%R _ 1%R _ ltac:(abs_lra) Hcol)].
    intros t Ht. cbn beta. rewrite Ec, (head_tail k x t) by done. fold xt. ring.
  - assert (dot m c c = dot m (head k x) (head k x) + value norm * value norm)%R as Ecc.
    { rewrite (dot_ext m c c (fun t => head k x t + (- s * value norm) * axis k t)%R (fun t => head k x t + (- s * value norm) * axis k t)%R) by (intros; split; by apply Ec).
      rewrite dot_plus_l, !dot_plus_r, !dot_scal_l, !dot_scal_r, (dot_comm m (axis k) (head k x)), !dot_axis by done.
      assert (head k x k = 0%R) as -> by (unfold head; by rewrite Nat.ltb_irrefl). unfold axis. rewrite decide_True by done. destruct Hs as [-> | ->]; ring. }
    rewrite Ecc, Esplit, !(dot_comm m _ (fun t => value (x t))), !Esplit, (dot_comm m xt (head k x)). unfold xt at 1 2. rewrite dot_head_tail. fold xt.
    replace (dot m (head k x) (head k x) + value norm * value norm - (dot m (head k x) (head k x) + 0 + (0 + dot m xt xt)))%R with (value norm * value norm - dot m xt xt)%R by ring.
    by apply (pivot_length nu L).
Qed.

(** ** The loops of a pass *)

Lemma clear_column_spec m n k r : (k < m)%nat -> (k < n)%nat -> array m n r -> array m n (clear_column m n k r) /\
  forall i j, (i < m)%nat -> (j < n)%nat -> at_index n (clear_column m n k r) i j = if decide (j = k /\ (k < i)%nat) then 0 else at_index n r i j.
Proof.
  intros Hkm Hk Hr. unfold clear_column.
  pose (I := fun s b => (k < s)%nat /\ array m n b /\ forall i j, (i < m)%nat -> (j < n)%nat -> at_index n b i j = if decide (j = k /\ (k < i < s)%nat) then 0 else at_index n r i j).
  enough (I m (for_up (k + 1) (m - (k + 1)) (fun i r => set_index n i k D_ZERO r) r)) as (_ & H1 & H2).
  { split; [done|]. intros i j Hi Hj. rewrite H2 by done. repeat case_decide; try lia; done. }
  apply (for_up_rule _ I m); [|lia|].
  - intros s b Hs (Hks & Hb & Hv). split; [lia|]. split; [apply array_set; [done|cbn; rlia]|]. intros i j Hi Hj.
    rewrite (array_at_set kind m) by done. rewrite Hv by done. repeat case_decide; try lia; done.
  - split; [lia|]. split; [done|]. intros i j Hi Hj. by rewrite decide_False by lia.
Qed.

Lemma column_reflected_ext m (v : nat -> R) (Y : R) (x x' y y' : nat -> R) : (forall t, (t < m)%nat -> y t = x t) -> (forall t, (t < m)%nat -> y' t = x' t) ->
  column_reflected m v Y x x' -> column_reflected m v Y y y'.
Proof.
  intros E E' (d & Hd & H). exists d. split; [by rewrite (dot_ext m y v x v) by auto|]. intros t Ht. rewrite E, E' by done. by apply H.
Qed.

Lemma row_reflected_ext m (v x x' y y' : nat -> R) : (forall t, (t < m)%nat -> y t = x t) -> (forall t, (t < m)%nat -> y' t = x' t) ->
  row_reflected m v x x' -> row_reflected m v y y'.
Proof.
  intros E E' (d & Hd & H). exists d. split; [by rewrite (dot_ext m y v x v) by auto|]. intros t Ht. rewrite E, E' by done. by apply H.
Qed.

Definition columns_within m n r (Y : R) : Prop := forall j, (j < n)%nat -> within m (column_at kind n r j) Y.

Lemma qr_columns_loop m n k v r (Y : R) : (k < m)%nat -> vector m v -> within m (tail k (cell v)) (11 / 10) -> (1 <= Y)%R ->
  array m n r -> columns_within m n r Y ->
  wp (for_fc (k + 1) (n - (k + 1)) (qr_apply_column m n k v (2 * LINEARS_FIXED_ONE)) r) (fun r' => array m n r' /\
    (forall i j, (i < m)%nat -> (j < n)%nat -> (j <= k)%nat -> at_index n r' i j = at_index n r i j) /\
    forall j, (k < j < n)%nat -> column_reflected m (tail k (cell v)) Y (column_at kind n r j) (column_at kind n r' j)).
Proof.
  intros Hk Hv Hvw HY Hr HrY.
  eapply wp_mono; [apply (wp_for_fc (fun p r' => array m n r' /\
    (forall i j, (i < m)%nat -> (j < n)%nat -> (j <= k \/ p <= j)%nat -> at_index n r' i j = at_index n r i j) /\
    forall j, (k < j < p)%nat -> column_reflected m (tail k (cell v)) Y (column_at kind n r j) (column_at kind n r' j)))|].
  - intros. apply qr_apply_column_sticky.
  - intros p b Hp (Hb & Hsame & Hdone).
    assert (forall t, (t < m)%nat -> column_at kind n b p t = column_at kind n r p t) as Ep by (intros t Ht; unfold column_at; by rewrite Hsame by lia).
    eapply wp_mono; [apply (qr_apply_column_wp kind m n k v p b Y); auto; [lia|]|].
    { eapply within_ext; [|apply (HrY p); lia]. intros. by rewrite Ep. }
    intros c (Hc & Hother & Hrefl). split; [done|]. split.
    + intros i j Hi Hj Hjp. rewrite Hother by lia. apply Hsame; lia.
    + intros j Hj. destruct (decide (j = p)) as [->|Hne].
      * eapply column_reflected_ext; [| |exact Hrefl]; [intros; by rewrite Ep|done].
      * eapply column_reflected_ext; [| |apply (Hdone j); lia]; [done|]. intros t Ht. unfold column_at. by rewrite Hother by lia.
  - split; [done|]. split; [done|lia].
  - intros b (Hb & Hsame & Hdone). split; [done|]. split; [intros; apply Hsame; lia|]. intros j Hj. apply Hdone. lia.
Qed.

Lemma qr_rows_loop m k v q : (k < m)%nat -> vector m v -> array m m q ->
  wp (for_fc 0 m (qr_apply_row m k v (2 * LINEARS_FIXED_ONE)) q) (fun q' => array m m q' /\
    forall i, (i < m)%nat -> row_reflected m (tail k (cell v)) (row_at kind m q i) (row_at kind m q' i)).
Proof.
  intros Hk Hv Hq.
  eapply wp_mono; [apply (wp_for_fc (fun p q' => array m m q' /\ (forall i j, (i < m)%nat -> (j < m)%nat -> (p <= i)%nat -> at_index m q' i j = at_index m q i j) /\
    forall i, (i < p)%nat -> row_reflected m (tail k (cell v)) (row_at kind m q i) (row_at kind m q' i)))|].
  - intros. apply qr_apply_row_sticky.
  - intros p b Hp (Hb & Hsame & Hdone). eapply wp_mono; [apply (qr_apply_row_wp kind m k v p b); auto; lia|].
    intros c (Hc & Hother & Hrefl). split; [done|]. split.
    + intros i j Hi Hj Hip. rewrite Hother by lia. apply Hsame; lia.
    + intros i Hi. destruct (decide (i = p)) as [->|Hne].
      * eapply row_reflected_ext; [| |exact Hrefl]; [|done]. intros t Ht. unfold row_at. by rewrite Hsame by lia.
      * eapply row_reflected_ext; [| |apply (Hdone i); lia]; [done|]. intros t Ht. unfold row_at. by rewrite Hother by lia.
  - split; [done|]. split; [done|lia].
  - intros b (Hb & _ & Hdone). by split.
Qed.

(** ** One pass *)

(** Zeros below the diagonal of the first [k] columns. *)
Definition cleared m n k r : Prop := forall i j, (j < n)%nat -> (j < k)%nat -> (j < i < m)%nat -> at_index n r i j = 0.

Record qr_shape m n k (st : qr_state) : Prop := {
  shape_r : array m n (qr_r st);
  shape_q : array m m (qr_q st);
  shape_v : vector m (qr_v st);
  shape_cleared : cleared m n k (qr_r st);
}.

(** The reflector [w] applied: to the columns but [k], to column [k] and to the rows. *)
Record reflected_by m n k (w : nat -> R) (Y : R) (st st' : qr_state) : Prop := {
  by_unit : (Rabs (dot m w w - 1) <= 8 * (INR m * ulp))%R;
  by_columns : forall j, (j < n)%nat -> j <> k -> column_reflected m w Y (column_at kind n (qr_r st) j) (column_at kind n (qr_r st') j);
  by_pivot : let x := column_at kind n (qr_r st) k in let c := column_at kind n (qr_r st') k in
    moved m w x c (2 * dot m x w) (40 * (INR m * ulp) * Y) /\ (Rabs (dot m c c - dot m x x) <= 50 * (INR m * ulp * (Y * Y)))%R;
  by_rows : forall i, (i < m)%nat -> row_reflected m w (row_at kind m (qr_q st) i) (row_at kind m (qr_q st') i);
}.

Lemma shape_none m n k st : qr_shape m n k st -> (forall t, (k <= t < m)%nat -> at_index n (qr_r st) t k = 0) -> qr_shape m n (k + 1) st.
Proof.
  intros [Hr Hq Hv Hz] Hk. split; [done|done|done|]. intros i j Hj Hjk Hi. destruct (decide (j = k)) as [->|]; [apply Hk; lia|apply Hz; lia].
Qed.

Lemma qr_pass_wp m n k st (norm : Z) u v (diagonal : Z) (P Y : R) : (k < m)%nat -> (k < n)%nat -> (INR m * ulp <= / 1000)%R -> (0 <= P)%R -> (P * P = INR m)%R -> (1 <= Y)%R ->
  qr_shape m n k st -> columns_within m n (qr_r st) Y -> direction_ok kind m k (fun t => at_index n (qr_r st) t k) norm u ->
  reflector_ok kind m k (tail k (cell u)) norm v diagonal ->
  wp (r ← for_fc (k + 1) (n - (k + 1)) (qr_apply_column m n k v (2 * LINEARS_FIXED_ONE)) (qr_r st);
      let r := clear_column m n k (set_index n k k diagonal r) in
      q ← for_fc 0 m (qr_apply_row m k v (2 * LINEARS_FIXED_ONE)) (qr_q st);
      mret (mk_qr r q v))
    (fun st' => qr_shape m n (k + 1) st' /\ reflected_by m n k (tail k (cell v)) Y st st').
Proof.
  intros Hkm Hkn Hsmall HP HPP HY [Hr Hq Hvv Hz] HrY Hdir Hrefl.
  assert (is_i64 diagonal /\ vector m v) as [Hdg Hv] by (destruct Hrefl as (? & ? & ? & H); apply H).
  assert (forall c, pivot_done m k (fun t => at_index n (qr_r st) t k) diagonal c -> _) as Hpivot
    by (intros c Hc; exact (pivot_column_step m k _ norm u v diagonal c P Y Hkm Hsmall HP HPP HY Hdir Hrefl (HrY k Hkn) Hc)).
  assert (within m (tail k (cell v)) (11 / 10)) as Hw.
  { destruct (Hpivot (fun t => if decide (t < k)%nat then value (at_index n (qr_r st) t k) else if decide (t = k) then value diagonal else 0)%R) as [H _]; [by intros t _|].
    split; [lra|]. abs_lra. }
  apply wp_bind; [|intros; apply sticky_bind; [apply sticky_for_fc; intros; apply qr_apply_row_sticky|intros; solve_sticky]].
  eapply wp_mono; [by apply qr_columns_loop|]. intros r1 (Hr1 & Hsame & Hcols). cbv zeta.
  destruct (clear_column_spec m n k (set_index n k k diagonal r1) Hkm Hkn) as [Hr2 Ev]; [by apply array_set|]. set (r2 := clear_column _ _ _ _) in *. clearbody r2.
  assert (forall i j, (i < m)%nat -> (j < n)%nat -> at_index n r2 i j = if decide (j = k /\ (k < i)%nat) then 0 else if decide (k = i /\ k = j) then diagonal else at_index n r1 i j) as Er2.
  { intros i j Hi Hj. rewrite Ev by done. by rewrite (array_at_set kind m) by done. }
  apply wp_bind; [|intros; solve_sticky]. eapply wp_mono; [by apply qr_rows_loop|]. intros q1 [Hq1 Hrows]. apply wp_ret. split; [split; [done|done|done|]|].
  - intros i j Hj Hjk Hi. cbn [qr_r]. rewrite Er2 by lia. repeat case_decide; try lia. rewrite Hsame by lia. apply Hz; lia.
  - assert (pivot_done m k (fun t => at_index n (qr_r st) t k) diagonal (column_at kind n r2 k)) as Hdone.
    { intros t Ht. unfold column_at. rewrite Er2 by done. repeat case_decide; try lia; [rewrite value_zero; lra|done|by rewrite Hsame by lia]. }
    destruct (Hpivot _ Hdone) as (Hunit & Hmoved & Hlen). split; cbn [qr_r qr_q]; [done| |by split|done].
    intros j Hj Hne. assert (forall t, (t < m)%nat -> column_at kind n r2 j t = column_at kind n r1 j t) as E1.
    { intros t Ht. unfold column_at. rewrite Er2 by done. by rewrite !decide_False by lia. }
    destruct (Nat.lt_ge_cases j k) as [Hlt|Hge].
    + apply column_reflected_same; [lra| |].
      * intros t Ht. rewrite E1 by done. unfold column_at. by rewrite Hsame by lia.
      * intros t Ht. unfold column_at. rewrite Hz by lia. apply value_zero.
    + eapply column_reflected_ext; [| |apply (Hcols j); lia]; [done|exact E1].
Qed.

(** ** The invariant *)

(** What bounds the length of every column of R. *)
Definition reach m : R := (11 / 10 * sqrt (INR m))%R.

Definition qr_order m : Prop := (1 <= m)%nat /\ (m <= 2000)%nat.

Lemma order_scale m : qr_order m -> (0 <= sqrt (INR m))%R /\ (sqrt (INR m) * sqrt (INR m) = INR m)%R /\ (1 <= sqrt (INR m))%R /\
  (1 <= reach m)%R /\ (reach m * reach m = 121 / 100 * INR m)%R /\ (0 < INR m * ulp <= / 1000)%R /\ (forall k, (k <= m)%nat -> 0 <= INR k * (INR m * ulp) <= / 500)%R.
Proof.
  intros [H1 H2]. apply le_INR in H1, H2. replace (INR 2000) with 2000%R in H2 by (rewrite INR_IZR_INZ; reflexivity). cbn in H1.
  assert (0 < INR m * ulp <= / 1000)%R as Hnu by (unfold ulp; lra).
  pose proof (sqrt_sqrt (INR m) ltac:(lra)) as Hs. pose proof (sqrt_le_1 1 (INR m) ltac:(lra) ltac:(lra) H1) as H3. rewrite sqrt_1 in H3.
  split; [lra|]. split; [done|]. split; [done|]. split; [unfold reach; lra|]. split; [unfold reach; replace (11 / 10 * sqrt (INR m) * (11 / 10 * sqrt (INR m)))%R with (121 / 100 * (sqrt (INR m) * sqrt (INR m)))%R by field; by rewrite Hs|]. split; [done|].
  intros k Hk%le_INR. pose proof (pos_INR k). split; [apply Rmult_le_pos; lra|].
  assert (INR k * (INR m * ulp) <= 2000 * (2000 * ulp))%R; [|unfold ulp in *; lra]. pose proof ulp_small. apply Rmult_le_compat; [lra|lra|lra|apply Rmult_le_compat_r; lra].
Qed.

Record qr_inv m n A k (st : qr_state) : Prop := {
  inv_shape : qr_shape m n k st;
  inv_rows : forall i i', (i < m)%nat -> (i' < m)%nat ->
    (Rabs (dot m (row_at kind m (qr_q st) i) (row_at kind m (qr_q st) i') - axis i i') <= INR k * (50 * (INR m * ulp)))%R;
  inv_product : forall i j, (i < m)%nat -> (j < n)%nat ->
    (Rabs (dot m (row_at kind m (qr_q st) i) (column_at kind n (qr_r st) j) - value (at_index n A i j)) <= INR k * (90 * (INR m * ulp * reach m)))%R;
  inv_length : forall j, (j < n)%nat ->
    (dot m (column_at kind n (qr_r st) j) (column_at kind n (qr_r st) j) <= INR m + INR k * (50 * (INR m * ulp * (reach m * reach m))))%R;
}.

Lemma inv_rows_within m n A k st i : qr_order m -> (k <= m)%nat -> qr_inv m n A k st -> (i < m)%nat -> within m (row_at kind m (qr_q st) i) (11 / 10).
Proof.
  intros Hm Hk Hinv Hi. destruct (order_scale m Hm) as (_ & _ & _ & _ & _ & _ & Hsc). specialize (Hsc k Hk). pose proof (inv_rows _ _ _ _ _ Hinv i i Hi Hi) as H.
  unfold axis in H. rewrite decide_True in H by done. split; [lra|]. abs_lra.
Qed.

Lemma inv_columns_within m n A k st : qr_order m -> (k <= m)%nat -> qr_inv m n A k st -> columns_within m n (qr_r st) (reach m).
Proof.
  intros Hm Hk Hinv j Hj. destruct (order_scale m Hm) as (_ & _ & _ & HY & HYY & _ & Hsc). specialize (Hsc k Hk). pose proof (inv_length _ _ _ _ _ Hinv j Hj) as H.
  split; [lra|]. replace (INR k * (50 * (INR m * ulp * (reach m * reach m))))%R with (50 * (INR k * (INR m * ulp)) * (reach m * reach m))%R in H by ring.
  rewrite HYY in *. pose proof (pos_INR m). assert (50 * (INR k * (INR m * ulp)) * (121 / 100 * INR m) <= 1 / 10 * (121 / 100 * INR m))%R by (apply Rmult_le_compat_r; lra). lra.
Qed.

(** A bound that grows with every pass. *)
Lemma grown_bound (a b c e : R) k : (Rabs (a - c) <= INR k * e)%R -> (Rabs (b - a) <= e)%R -> (Rabs (b - c) <= INR (k + 1) * e)%R.
Proof. intros. rewrite plus_INR. cbn [INR]. replace ((INR k + 1) * e)%R with (INR k * e + e)%R by ring. abs_lra. Qed.

Lemma later_bound (a e : R) k : (0 <= e)%R -> (a <= INR k * e)%R -> (a <= INR (k + 1) * e)%R.
Proof. intros. rewrite plus_INR. cbn [INR]. lra. Qed.

Lemma qr_inv_none m n A k st : qr_order m -> qr_inv m n A k st -> (forall t, (k <= t < m)%nat -> at_index n (qr_r st) t k = 0) -> qr_inv m n A (k + 1) st.
Proof.
  intros Hm [Hs Hq Hp Hl] Hz. destruct (order_scale m Hm) as (_ & _ & _ & HY & HYY & Hnu & _). pose proof (pos_INR m).
  assert (0 <= INR m * ulp * reach m)%R by nra. assert (0 <= INR m * ulp * (reach m * reach m))%R by nra.
  split; [by apply shape_none| | |].
  - intros i i' Hi Hi'. apply later_bound; [lra|]. by apply Hq.
  - intros i j Hi Hj. apply later_bound; [lra|]. by apply Hp.
  - intros j Hj. specialize (Hl j Hj). rewrite plus_INR. cbn [INR]. lra.
Qed.

Lemma qr_inv_step m n A k w st st' : qr_order m -> (k < m)%nat -> (k < n)%nat -> qr_inv m n A k st -> qr_shape m n (k + 1) st' ->
  reflected_by m n k w (reach m) st st' -> qr_inv m n A (k + 1) st'.
Proof.
  intros Hm Hkm Hkn Hinv Hs' [Hw Hcols Hpivot Hrows]. destruct (order_scale m Hm) as (HP & HPP & HP1 & HY & HYY & [_ Hsmall] & _).
  pose proof (inv_rows_within m n A k st) as HQ. pose proof (inv_columns_within m n A k st Hm ltac:(lia) Hinv) as HR.
  destruct Hpivot as [Hmoved Hlen]. split; [done| | |].
  - intros i i' Hi Hi'. eapply grown_bound; [by eapply inv_rows|].
    apply (row_pair_step m (sqrt (INR m)) w); auto; apply HQ; auto; lia.
  - intros i j Hi Hj. eapply grown_bound; [by eapply inv_product|]. destruct (decide (j = k)) as [->|Hne].
    + apply (pivot_row_step m (sqrt (INR m)) w); auto. apply HQ; auto; lia.
    + apply (row_column_step m (sqrt (INR m)) w); auto. apply HQ; auto; lia.
  - intros j Hj. pose proof (inv_length _ _ _ _ _ Hinv j Hj) as H. rewrite plus_INR. cbn [INR].
    assert (Rabs (dot m (column_at kind n (qr_r st') j) (column_at kind n (qr_r st') j) - dot m (column_at kind n (qr_r st) j) (column_at kind n (qr_r st) j))
      <= 50 * (INR m * ulp * (reach m * reach m)))%R as Hstep.
    { destruct (decide (j = k)) as [->|Hne]; [done|]. apply (column_pair_step m (sqrt (INR m)) w); auto. }
    abs_lra.
Qed.

Lemma qr_column_inv m n A k st : qr_order m -> (k < m)%nat -> (k < n)%nat -> qr_inv m n A k st -> (qr_column m n k st).1 = LINEARS_OK ->
  qr_inv m n A (k + 1) (qr_column m n k st).2.
Proof.
  intros Hm Hkm Hkn Hinv. pose proof (inv_shape _ _ _ _ _ Hinv) as Hs. destruct (order_scale m Hm) as (HP & HPP & _ & HY & _ & [_ Hsmall] & _).
  unfold qr_column. cbv zeta. set (direction := settle _ None). destruct (status_ok direction.1) eqn:E1; cbn [negb]; [|intros E; cbn in E; by rewrite E in E1].
  apply status_ok_true in E1. apply settle_ok with (1 := qr_direction_wp kind m n k (qr_r st) (qr_v st) Hkm (proj2 (shape_r _ _ _ _ Hs)) (shape_v _ _ _ _ Hs)) in E1.
  fold direction in E1. destruct direction.2 as [[norm u]|]; [|intros _; by apply qr_inv_none].
  assert (is_i64 norm /\ vector m u) as [Hnorm Hu] by (destruct E1 as (? & ? & ? & H); apply H).
  set (reflector := settle _ _). destruct reflector.2 as [[v diagonal] two] eqn:Er. destruct (status_ok reflector.1) eqn:E2; cbn [negb]; [|intros E; cbn in E; by rewrite E in E2].
  apply status_ok_true in E2. apply settle_ok with (1 := qr_reflector_wp kind m k norm u Hkm Hu Hnorm) in E2.
  fold reflector in E2. rewrite Er in E2. cbn [fst snd] in E2. destruct E2 as [E2 ->].
  apply settle_ok. eapply wp_mono; [eapply (qr_pass_wp m n k st norm u v diagonal (sqrt (INR m)) (reach m)); eauto|].
  - apply (inv_columns_within m n A k); auto. lia.
  - intros st' [Hs' Hby]. by eapply qr_inv_step.
Qed.

Lemma at_identity_value m i j : (i < m)%nat -> (j < m)%nat -> value (at_index m (identity m) i j) = axis i j.
Proof.
  intros Hi Hj. unfold at_index, identity. rewrite (nth_grid m) by done. cbn. unfold axis. destruct (Nat.eqb_spec i j); [subst; by rewrite decide_True, value_one|]. rewrite decide_False by lia. apply value_zero.
Qed.
End Qr.

(** A distance of two sums of products, from the reals to the integers. *)
Lemma product_distance n (l r : nat -> Z) target (bound : Z) e : (Rabs (dot n (fun i => value (l i)) (fun i => value (r i)) - e) <= IZR bound * ulp)%R ->
  (e = IZR target * (ulp * ulp))%R -> Z.abs (sum_to n (fun i => l i * r i) - target) <= bound * LINEARS_FIXED_ONE.
Proof.
  intros H ->. rewrite <- value_sum_to in H. apply le_IZR. rewrite abs_IZR, minus_IZR, mult_IZR. set (s := IZR (sum_to _ _)) in *. pose proof ulp_small as Hu. pose proof unit_ulp as E.
  set (S := IZR LINEARS_FIXED_ONE) in *. assert (S * S * (ulp * ulp) = 1)%R as E2 by (replace (S * S * (ulp * ulp))%R with (S * ulp * (S * ulp))%R by ring; rewrite E; lra).
  assert (0 <= S * S)%R as HS by apply Rle_0_sqr.
  assert (Rabs (S * S * (s * (ulp * ulp) - IZR target * (ulp * ulp))) <= S * S * (IZR bound * ulp))%R as H2 by (apply abs_mul_bound; [rewrite Rabs_right; lra|done]).
  replace (S * S * (s * (ulp * ulp) - IZR target * (ulp * ulp)))%R with ((s - IZR target) * (S * S * (ulp * ulp)))%R in H2 by ring.
  replace (S * S * (IZR bound * ulp))%R with (IZR bound * S * (S * ulp))%R in H2 by ring. rewrite E2, E, !Rmult_1_r in H2. exact H2.
Qed.

Section Qr.
Variable kind : numeric_kind.
#[local] Hint Extern 0 (DArith _ Z) => exact (fixed_arith kind) : typeclass_instances.
#[local] Hint Extern 0 (DArith Z _) => exact (fixed_arith kind) : typeclass_instances.
#[local] Hint Extern 0 (DBlock Z) => exact fixed_block : typeclass_instances.
#[local] Hint Extern 0 (DOrtho Z) => exact fixed_ortho : typeclass_instances.
Implicit Types (a b r q v A : list Z) (i j k m n t : nat).

Definition unit_entries m n A : Prop := forall i j, (i < m)%nat -> (j < n)%nat -> Z.abs (at_index n A i j) <= LINEARS_FIXED_ONE.

Lemma qr_start m n A : array m n A -> unit_entries m n A -> qr_inv kind m n A 0 (mk_qr A (identity m) (repeat 0 m)).
Proof.
  intros HA HU.
  assert (forall i t, (i < m)%nat -> (t < m)%nat -> row_at kind m (identity m) i t = axis i t) as Erow.
  { intros i t Hi Ht. unfold row_at. rewrite at_identity_value by done. unfold axis. repeat case_decide; congruence. }
  assert (forall i (x : nat -> R), (i < m)%nat -> dot m (row_at kind m (identity m) i) x = x i) as Edot.
  { intros i x Hi. rewrite (dot_ext m _ x (axis i) x) by (intros; split; auto). by rewrite dot_comm, dot_axis. }
  split; cbn [qr_q qr_r qr_v INR].
  - split; [done|exact (identity_array Q31 m)| |intros i j; lia]. split; [apply repeat_length|]. apply Forall_forall. intros x Hx%repeat_spec. subst x. rlia.
  - intros i i' Hi Hi'. rewrite Edot, Erow by done. replace (axis i' i - axis i i')%R with 0%R; [rewrite Rabs_R0; lra|]. unfold axis. repeat case_decide; try congruence; lra.
  - intros i j Hi Hj. rewrite Edot by done. unfold column_at. rewrite Rminus_diag, Rabs_R0. lra.
  - intros j Hj. eapply Rle_trans; [apply Rle_abs|]. eapply Rle_trans; [apply (rsum_bound m _ (1 * 1))|lra].
    intros i Hi. assert (Rabs (column_at kind n A j i) <= 1)%R by (unfold column_at; rewrite value_abs, <- value_one; by apply value_le, HU). by apply abs_mul_bound.
Qed.

Lemma qr_factor_inv m n A : qr_order m -> array m n A -> unit_entries m n A ->
  (qr_factor m n (mk_qr A (identity m) (repeat 0 m))).1 = LINEARS_OK ->
  qr_inv kind m n A (Nat.min m n) (qr_factor m n (mk_qr A (identity m) (repeat 0 m))).2.
Proof.
  intros Hm HA HU. unfold qr_factor. apply (for_status_ok (fun k st => qr_inv kind m n A k st) (qr_column m n) 0 (Nat.min m n)); [|by apply qr_start].
  intros k st Hk Hinv. apply qr_column_inv; [done|lia|lia|done].
Qed.

(** An orthogonal factor and an upper triangular one that multiply back to [A]. *)
Definition qr_factors m n (A Q R : nat -> nat -> Z) : Prop :=
  (forall i i', (i < m)%nat -> (i' < m)%nat -> Z.abs (sum_to m (fun t => Q i t * Q i' t) - (if decide (i = i') then LINEARS_FIXED_ONE * LINEARS_FIXED_ONE else 0))
    <= 50 * (Z.of_nat m * Z.of_nat m) * LINEARS_FIXED_ONE) /\
  (forall i j, (i < m)%nat -> (j < n)%nat -> Z.abs (sum_to m (fun t => Q i t * R t j) - LINEARS_FIXED_ONE * A i j)
    <= 100 * (Z.of_nat m * Z.of_nat m * Z.sqrt_up (Z.of_nat m)) * LINEARS_FIXED_ONE) /\
  (forall i j, (j < i < m)%nat -> (j < n)%nat -> R i j = 0).

Lemma reach_bound m : (reach m <= 11 / 10 * IZR (Z.sqrt_up (Z.of_nat m)))%R.
Proof.
  unfold reach. apply Rmult_le_compat_l; [lra|]. set (p := Z.sqrt_up _).
  assert (0 <= p) as Hp by apply Z.sqrt_up_nonneg. assert (Z.of_nat m <= p * p) as Hmp.
  { destruct (Z.eq_dec (Z.of_nat m) 0) as [->|Hne]; [unfold p; nia|]. pose proof (Z.sqrt_up_spec (Z.of_nat m)) as H. destruct (Z.le_gt_cases (Z.of_nat m) 0); [lia|]. apply H. lia. }
  apply IZR_le in Hp, Hmp. rewrite mult_IZR in Hmp. rewrite <- (sqrt_square (IZR p)) by done. apply sqrt_le_1_alt. by rewrite INR_IZR_INZ.
Qed.

Lemma qr_factors_ok m n A st : qr_order m -> qr_inv kind m n A (Nat.min m n) st -> qr_factors m n (at_index n A) (at_index m (qr_q st)) (at_index n (qr_r st)).
Proof.
  intros Hm [[_ _ _ Hz] Hrows Hprod _]. destruct (order_scale m Hm) as (_ & _ & _ & HY & _ & [Hnu _] & _). pose proof (pos_INR (Nat.min m n)) as Hk0.
  assert (INR (Nat.min m n) <= INR m)%R as Hk by (apply le_INR; lia). pose proof ulp_small as Hu. pose proof (pos_INR m) as Hm0. split; [|split].
  - intros i i' Hi Hi'. refine (product_distance m (at_index m (qr_q st) i) (at_index m (qr_q st) i') _ _ (axis i i') _ _).
    + eapply Rle_trans; [exact (Hrows i i' Hi Hi')|]. rewrite !mult_IZR, <- INR_IZR_INZ.
      replace (50 * (INR m * INR m) * ulp)%R with (INR m * (50 * (INR m * ulp)))%R by ring. apply Rmult_le_compat_r; lra.
    + unfold axis. repeat case_decide; try congruence; [|lra]. rewrite mult_IZR. pose proof unit_ulp as E.
      replace (IZR LINEARS_FIXED_ONE * IZR LINEARS_FIXED_ONE * (ulp * ulp))%R with (IZR LINEARS_FIXED_ONE * ulp * (IZR LINEARS_FIXED_ONE * ulp))%R by ring. rewrite E. lra.
  - intros i j Hi Hj. refine (product_distance m (at_index m (qr_q st) i) (fun t => at_index n (qr_r st) t j) _ _ (value (at_index n A i j)) _ _).
    + eapply Rle_trans; [exact (Hprod i j Hi Hj)|]. rewrite !mult_IZR, <- INR_IZR_INZ. pose proof (reach_bound m) as Hr. set (p := IZR (Z.sqrt_up _)) in *.
      replace (100 * (INR m * INR m * p) * ulp)%R with (INR m * (100 * (INR m * ulp * p)))%R by ring. apply Rmult_le_compat; [lra|nra|lra|].
      assert (INR m * ulp * reach m <= INR m * ulp * (11 / 10 * p))%R by (apply Rmult_le_compat_l; lra). assert (0 <= INR m * ulp * p)%R by (apply Rmult_le_pos; lra). lra.
    + rewrite mult_IZR. unfold value. pose proof unit_ulp as E. replace (IZR LINEARS_FIXED_ONE * IZR (at_index n A i j) * (ulp * ulp))%R with (IZR (at_index n A i j) * ulp * (IZR LINEARS_FIXED_ONE * ulp))%R by ring. rewrite E. lra.
  - intros i j Hij Hj. apply Hz; lia.
Qed.
End Qr.

(** ** The entry points *)

Section Signals.
Variable f : q_format.
Let kind : numeric_kind := match f with Q15 => Matrix.Q15 | Q31 => Matrix.Q31 end.
#[local] Hint Extern 0 (DArith _ Z) => exact (fixed_arith kind) : typeclass_instances.
#[local] Hint Extern 0 (DArith Z _) => exact (fixed_arith kind) : typeclass_instances.
#[local] Hint Extern 0 (DBlock Z) => exact fixed_block : typeclass_instances.
#[local] Hint Extern 0 (DOrtho Z) => exact fixed_ortho : typeclass_instances.

(** The stored elements of an array, and the operand behind them. *)
Lemma stored_array rows_ columns (values : list Z) (out : operand Z) : array rows_ columns values -> check_block values = LINEARS_OK ->
  let stored := commit out (store_block values) in
  descriptor stored = descriptor out /\ drop (rows_ * columns) (elements stored) = drop (rows_ * columns) (elements out) /\
  forall i j, (i < rows_)%nat -> (j < columns)%nat -> Z.abs (at_index columns values i j) <= LINEARS_FIXED_ONE /\
    element_at columns stored i j = q_round f (at_index columns values i j).
Proof.
  intros Ha Hc. cbv zeta. destruct (delivered f columns rows_ values out Ha Hc) as [H1 H2]. split; [done|]. split; [|exact H2].
  destruct Ha as [Hl _]. unfold commit, overwrite, store_block. cbn [elements]. rewrite length_map, Hl. rewrite drop_app_length'; [done|]. by rewrite length_map.
Qed.

Lemma import_array (a : operand Z) m n : signals_ok f a -> m = Z.to_nat (rows (descriptor a)) -> n = Z.to_nat (cols (descriptor a)) ->
  (import a (m * n)).1 = LINEARS_OK ->
  array m n (import a (m * n)).2 /\ unit_entries kind m n (import a (m * n)).2 /\ forall i j, at_index n (import a (m * n)).2 i j = field_at f n a i j.
Proof.
  intros Ha -> -> E. pose proof Ha as (Hr & Hc & Hlen & Hall). unfold import in *. rewrite firstn_all2 in * by lia.
  assert (forall i j, at_index (Z.to_nat (cols (descriptor a))) (load_all (elements a)).2 i j = field_at f (Z.to_nat (cols (descriptor a))) a i j) as Hat
    by (intros; rewrite (load_all_ok f) by done; apply at_import).
  split; [|split; [|exact Hat]].
  - rewrite (load_all_ok f) by done. split; [rewrite length_map; lia|]. apply Forall_map. eapply Forall_impl; [|exact Hall]. intros v Hv. by apply fcq_field_i64.
  - intros i j _ _. rewrite Hat. pose proof (fcq_field_range f _ (element_repr f (Z.to_nat (cols (descriptor a))) a i j Ha)) as H. unfold field_at, element_at in *. lia.
Qed.

(** C13. A successful q15 or q31 QR call of at most 2000 rows keeps the output
    descriptors and everything behind the elements it writes, and stores, each
    rounded once, the elements of an F31 matrix Q and an exactly upper triangular F31
    matrix R within [-1, 1]: the rows of Q are orthonormal to within 50 m^2 units of
    2^-31 and Q R differs from the input by at most 100 m^2.5 units. *)
Theorem linears_qr_spec (target : decomp_abi) (a q r : operand Z) (w : workspace) :
  signals_ok f a -> rows (descriptor a) <= 2000 -> (linears_qr target a q r w).1 = LINEARS_OK ->
  let m := Z.to_nat (rows (descriptor a)) in
  let n := Z.to_nat (cols (descriptor a)) in
  let '(out_q, out_r) := (linears_qr target a q r w).2 in
  (descriptor out_q = descriptor q /\ drop (m * m) (elements out_q) = drop (m * m) (elements q)) /\
  (descriptor out_r = descriptor r /\ drop (m * n) (elements out_r) = drop (m * n) (elements r)) /\
  exists Q R : nat -> nat -> Z, qr_factors m n (field_at f n a) Q R /\
    (forall i j, (i < m)%nat -> (j < m)%nat -> Z.abs (Q i j) <= LINEARS_FIXED_ONE /\ element_at m out_q i j = q_round f (Q i j)) /\
    (forall i j, (i < m)%nat -> (j < n)%nat -> Z.abs (R i j) <= LINEARS_FIXED_ONE /\ element_at n out_r i j = q_round f (R i j)).
Proof.
  intros Ha Hm Eok. cbv zeta. destruct (linears_qr target a q r w) as [s out] eqn:E. cbn [fst] in Eok. subst s. cbn [snd].
  unfold linears_qr in E. apply require_ok in E as [_ E]. cbv zeta in E. case_if_in E; [discriminate E|]. apply require_ok in E as [_ E].
  set (m := Z.to_nat (rows (descriptor a))) in *. set (n := Z.to_nat (cols (descriptor a))) in *.
  case_if_in E; zbool.
  { injection E as <-. split; [done|]. split; [done|]. exists (fun _ _ => 0), (fun _ _ => 0). assert (m = 0%nat) as -> by (unfold m; lia). split; [split; [|split]|split]; intros; lia. }
  apply require_ok in E as [Ei E]. apply require_ok in E as [Ef E]. apply require_ok in E as [Eq E]. apply require_ok in E as [Er E].
  destruct (import_array a m n Ha eq_refl eq_refl Ei) as (HA & HU & Hat). set (A := (import a (m * n)).2) in *.
  assert (qr_order m) as Ho by (destruct Ha as (Hr0 & _); unfold m; split; lia).
  pose proof (qr_factor_inv kind m n A Ho HA HU Ef) as Hinv. set (st := (qr_factor m n _).2) in *.
  destruct (inv_shape kind m n A _ _ Hinv) as [HR HQ _ _].
  destruct (stored_array m m (qr_q st) q HQ Eq) as (Hq1 & Hq2 & Hq3). destruct (stored_array m n (qr_r st) r HR Er) as (Hr1 & Hr2 & Hr3).
  apply (f_equal snd) in E. cbn [snd] in E. subst out. split; [done|]. split; [done|].
  exists (at_index m (qr_q st)), (at_index n (qr_r st)). split; [|by split].
  destruct (qr_factors_ok kind m n A st Ho Hinv) as (Horth & Hprod & Hzero). split; [done|]. split; [|done]. intros i j Hi Hj. rewrite <- Hat. by apply Hprod.
Qed.
End Signals.

(** [[0.5, 0.25], [0.25, 0.5]] in q31. *)
Definition qr_call : linears_status_t * (operand Z * operand Z) :=
  @linears_qr Z Z (fixed_arith Matrix.Q31) fixed_block fixed_ortho rv32 (sample_matrix 256 1024 [1073741824; 536870912; 536870912; 1073741824])
    (sample_matrix 320 2048 [1; 2; 3; 4; 5]) (sample_matrix 384 2560 [1; 2; 3; 4; 5]) (mk_workspace 4096 256).

Lemma linears_qr_spec_witness :
  (elements qr_call.2.1 = [-1920767766; 960383883; -960383883; -1920767767; 5] /\ elements qr_call.2.2 = [-1200479855; -960383883; 0; -720287913; 5]) /\
  exists Q R, qr_factors 2 2 (field_at Q31 2 (sample_matrix 256 1024 [1073741824; 536870912; 536870912; 1073741824])) Q R.
Proof.
  split; [vm_compute; split; reflexivity|].
  assert (forall r : linears_status_t * (operand Z * operand Z), r = qr_call -> r.1 = LINEARS_OK) as Hok by (intros r ->; vm_compute; reflexivity).
  pose proof (linears_qr_spec Q31 rv32 (sample_matrix 256 1024 [1073741824; 536870912; 536870912; 1073741824])
    (sample_matrix 320 2048 [1; 2; 3; 4; 5]) (sample_matrix 384 2560 [1; 2; 3; 4; 5]) (mk_workspace 4096 256)) as H.
  match type of H with _ -> _ -> ?r.1 = _ -> _ => specialize (Hok r eq_refl) end.
  specialize (H ltac:(split; [done|]; split; [done|]; split; [done|]; repeat constructor; rlia) ltac:(cbn; lia) Hok).
  match type of H with let _ := _ in let _ := _ in match ?r.2 with _ => _ end => change r with qr_call in H end.
  destruct qr_call as [s [oq or]]. cbn [fst snd] in *. destruct H as (_ & _ & Q & R & H & _). exists Q, R. exact H.
Defined.
