(* ===== verification/DecompAtomic.v ===== *)
(** * Factorizations: failure leaves the outputs alone

    One theorem about every entry point of linears_decomp.h, in every format. *)
From S2P Require Import Prelude MachineInt Status Wide Numeric Memory Float Matrix FcMonad Cordic FcFloat Decomp DecompSpec Ldlt Qr Svd.

Section Atomic.
Context {R W : Type} `{DArith R W} `{DDeterminant W} `{DBlock W} `{DOrtho W} (target : decomp_abi).

(** C16. A call that fails, whatever its status and in whatever format, leaves its
    output matrices exactly as they were, and LU its parity too: the eight entry
    points lu, solve, inverse, determinant, cholesky, ldlt, qr and svd. *)
Theorem decomp_atomic (a b l u x d q r singular_values v : operand R) (permutation : metadata (list nat)) (capacity : Z)
    (parity : metadata Z) (blocks : metadata (list Z)) (blocks_capacity : Z) (max_sweeps : nat) (w : workspace) :
  fails_with (fun out : lu_result => out.1.1.1 = l /\ out.1.1.2 = u /\ out.2 = parity)
    (linears_lu target a l u permutation capacity parity w) /\
  fails_with (fun out => out = x) (linears_solve target a b x w) /\
  fails_with (fun out => out = x) (linears_inverse target a x w) /\
  fails_with (fun out => out = x) (linears_determinant target a x w) /\
  fails_with (fun out => out = l) (linears_cholesky target a l w) /\
  fails_with (fun out : ldlt_result => out.1.1.1 = l /\ out.1.1.2 = d) (linears_ldlt target a l d permutation capacity blocks blocks_capacity w) /\
  fails_with (fun out => out = (q, r)) (linears_qr target a q r w) /\
  from_option (fails_with (fun out => out = (u, singular_values, v))) True (linears_svd target a u singular_values v max_sweeps w).
Proof.
  split; [unfold linears_lu; solve_fails|]. split; [unfold linears_solve; solve_fails|].
  split; [unfold linears_inverse; solve_fails|]. split; [unfold linears_determinant; solve_fails|].
  split; [unfold linears_cholesky; solve_fails|]. split; [unfold linears_ldlt; solve_fails|].
  split; [unfold linears_qr; solve_fails|].
  unfold linears_svd. cbv zeta. repeat (case_if; [apply fails_at; reflexivity|]).
  destruct (svd_factor _ _ _ _ _ _ _); cbn [from_option]; [solve_fails|done].
Qed.
End Atomic.
