(* ===== verification/FilterBase.v ===== *)
(** * Scalar formats of the filters: filters_scalar_impl.h and filters_work.c

    The filter algorithms of libs/filters/src/filters_impl.h are written over
    F_LOCAL operations on a signal type F_S and a working type F_W.  The class
    [FilterFormat] is that interface together with the steps that the algorithms
    select by FILTERS_FIXED; [fixed_format] implements it for q15 and q31,
    [native_format] for float and double.  F_TRY is the bind of [attempt]. *)
From Stdlib Require Import SpecFloat.
From S2P Require Import Prelude MachineInt Status Wide Numeric Float FcMonad Cordic FcVariants.

(** ** F_TRY: a value, or the status to return *)

Definition attempt (A : Type) : Type := (linears_status_t + A)%type.

#[export] Instance attempt_ret : MRet attempt := fun A a => inr a.
#[export] Instance attempt_bind : MBind attempt := fun A B f m =>
  match m with inl e => inl e | inr a => f a end.

(** [if (condition) return error;] *)
Definition refuse (condition : bool) (error : linears_status_t) : attempt unit :=
  if condition then inl error else inr tt.

(** A call that returns a status and writes a local through a pointer. *)
Definition result_of {A} (local : A) (r : linears_status_t * option A) : attempt A :=
  if status_ok r.1 then inr (default local r.2) else inl r.1.

(** The end of a body: commit the new contents, or return the status with the old ones. *)
Definition finish {R} (m : attempt R) (old : R) : linears_status_t * R :=
  match m with inl e => (e, old) | inr r => (LINEARS_OK, r) end.

(** ** The recurrence shared by the Q filters and the observer *)

Definition filters_ema_work_step (state : option Z) (alpha input : Z) : linears_status_t * option Z :=
  with_out state (fun old =>
    if alpha <? 0 then (LINEARS_ERROR_DOMAIN, old)
    else finish (sum ← result_of (mk_accum 0 0) (linears_fixed_mac (Some (mk_accum 0 0)) (i64 (LINEARS_FIXED_ONE - alpha)) old);
                 sum ← result_of sum (linears_fixed_mac (Some sum) alpha input);
                 result_of 0 (linears_accum_to_fixed sum (Some 0))) old).

(** ** The interface *)

Class FilterFormat (S W : Type) := {
  F_LOAD : S -> attempt W;
  F_STORE : W -> attempt S;
  F_COEFFICIENT : W -> attempt W;
  F_COUNT : Z -> attempt W;
  F_ADD : W -> W -> attempt W;
  F_MUL : W -> W -> attempt W;
  F_CMP : W -> W -> Z;
  F_ZERO : W;
  F_ZERO_S : S;
  (** The weight bound that only the native formats test. *)
  F_ABOVE_ONE : W -> bool;
  F_BLEND : W -> W -> W -> attempt W;
  (** complementary: the output of the pass-through branch and of the mixing branch. *)
  F_PASS : S -> W -> attempt S;
  F_MIX : W -> W -> W -> attempt (W * S);
  (** fir: the sum of products. *)
  F_ACC : Type;
  F_ACC_ZERO : F_ACC;
  F_MAC : F_ACC -> W -> W -> attempt F_ACC;
  F_ACC_EXPORT : F_ACC -> attempt S;
  (** biquad: (result, next1, next2) from b0 b1 b2 a1 a2, the sample and the section's state. *)
  F_SECTION : W -> W -> W -> W -> W -> W -> W -> W -> attempt (S * W * W);
  (** moving average: the running sum that the fixed context keeps, and the mean. *)
  F_SUM : Type;
  F_SUM_ZERO : F_SUM;
  F_AVERAGE : F_SUM -> Z -> list S -> nat -> W -> attempt (F_SUM * S);
  (** median: the mean of the two middle samples. *)
  F_MIDDLE : W -> W -> W -> attempt W;
}.

(** F_LOCAL(weight) *)
Definition F_WEIGHT {S W : Type} `{FilterFormat S W} (value : S) : attempt S :=
  working ← F_LOAD value;
  refuse (F_CMP working F_ZERO <? 0) LINEARS_ERROR_DOMAIN;;
  refuse (F_ABOVE_ONE working) LINEARS_ERROR_DOMAIN;;
  mret value.

(** ** q15 and q31 *)

Section Fixed.
Variable f : q_format.

Definition fixed_op (op : option Z -> linears_status_t * option Z) : attempt Z := result_of 0 (op (Some 0)).

(** FILTERS_EXPORT, FILTERS_ACCUM_EXPORT, FILTERS_MEAN *)
Definition fixed_export (value : Z) : attempt Z :=
  fixed_op (match f with Q15 => linears_fixed_to_q15 value | Q31 => linears_fixed_to_q31 value end).
Definition accum_export (sum : linears_accum_t) : attempt Z :=
  fixed_op (match f with Q15 => linears_accum_to_q15 sum | Q31 => linears_accum_to_q31 sum end).
Definition accum_mean (sum : linears_accum_t) (count : Z) : attempt Z :=
  fixed_op (match f with Q15 => linears_accum_mean_q15 sum count | Q31 => linears_accum_mean_q31 sum count end).

Definition acc_zero : linears_accum_t := mk_accum 0 0.
Definition mac (sum : linears_accum_t) (a b : Z) : attempt linears_accum_t :=
  result_of sum (linears_fixed_mac (Some sum) a b).
Definition msu (sum : linears_accum_t) (a b : Z) : attempt linears_accum_t :=
  result_of sum (linears_fixed_msu (Some sum) a b).
Definition accum_to_fixed (sum : linears_accum_t) : attempt Z := fixed_op (linears_accum_to_fixed sum).

Definition fixed_blend (alpha previous input : Z) : attempt Z :=
  result_of previous (filters_ema_work_step (Some previous) (i32 alpha) input).

Definition fixed_mix (alpha observed prediction : Z) : attempt (Z * Z) :=
  sum ← mac acc_zero (i64 (LINEARS_FIXED_ONE - alpha)) observed;
  sum ← mac sum alpha prediction;
  result ← accum_export sum;
  candidate ← accum_to_fixed sum;
  mret (candidate, result).

Definition fixed_section (b0 b1 b2 a1 a2 sample s1 s2 : Z) : attempt (Z * Z * Z) :=
  sum ← mac acc_zero b0 sample;
  sum ← mac sum LINEARS_FIXED_ONE s1;
  result ← accum_export sum;
  y ← accum_to_fixed sum;
  sum ← mac acc_zero b1 sample;
  sum ← msu sum a1 y;
  sum ← mac sum LINEARS_FIXED_ONE s2;
  next1 ← accum_to_fixed sum;
  sum ← mac acc_zero b2 sample;
  sum ← msu sum a2 y;
  next2 ← accum_to_fixed sum;
  mret (result, next1, next2).

Definition fixed_average (sum : linears_accum_t) (window : Z) (state : list Z) (head : nat) (sample : Z)
    : attempt (linears_accum_t * Z) :=
  sum ← msu sum (fcq_field f (nth head state 0)) LINEARS_FIXED_ONE;
  sum ← mac sum sample LINEARS_FIXED_ONE;
  result ← accum_mean sum (u64 window);
  mret (sum, result).

(** The wide sum of two signals fits; the mean is rounded once. *)
Definition fixed_middle (left right two : Z) : attempt Z :=
  candidate ← fixed_op (linears_fixed_add left right);
  fixed_op (linears_fixed_div candidate two).

Definition fixed_format : FilterFormat Z Z := {|
  F_LOAD := fun value => inr (fcq_field f value);
  F_STORE := fixed_export;
  F_COEFFICIENT := fun value => inr value;
  F_COUNT := fun count => fixed_op (linears_fixed_from_int (i64 count));
  F_ADD := fun a b => fixed_op (linears_fixed_add a b);
  F_MUL := fun a b => fixed_op (linears_fixed_mul a b);
  F_CMP := linears_fixed_compare;
  F_ZERO := 0;
  F_ZERO_S := 0;
  F_ABOVE_ONE := fun _ => false;
  F_BLEND := fixed_blend;
  F_PASS := fun measurement _ => inr measurement;
  F_MIX := fixed_mix;
  F_ACC := linears_accum_t;
  F_ACC_ZERO := acc_zero;
  F_MAC := mac;
  F_ACC_EXPORT := accum_export;
  F_SECTION := fixed_section;
  F_SUM := linears_accum_t;
  F_SUM_ZERO := acc_zero;
  F_AVERAGE := fixed_average;
  F_MIDDLE := fixed_middle;
|}.
End Fixed.

(** ** float and double *)

Section Native.
Variable f : float_format.

Definition native_load (value : spec_float) : attempt spec_float :=
  if isfinite value then inr value else inl LINEARS_ERROR_RANGE.

Definition native_add (a b : spec_float) := native_load (fadd f a b).
Definition native_sub (a b : spec_float) := native_load (fsub f a b).
Definition native_mul (a b : spec_float) := native_load (fmul f a b).
Definition native_div (a b : spec_float) := native_load (fdiv f a b).

(** [(a > b) - (a < b)] *)
Definition native_compare (a b : spec_float) : Z := Z.b2z (flt b a) - Z.b2z (flt a b).

(** [(F_W)count] *)
Definition native_count (count : Z) : attempt spec_float :=
  inr (binary_normalize (prec f) (emax f) count 0 false).

Definition native_blend (alpha previous input : spec_float) : attempt spec_float :=
  if native_compare alpha fzero =? 0 then inr previous
  else if (native_compare alpha (fone f) =? 0) || (native_compare previous input =? 0) then inr input
  else if Bool.eqb (flt previous fzero) (flt input fzero) then
    new_part ← native_sub input previous;
    new_part ← native_mul alpha new_part;
    native_add previous new_part
  else
    complement ← native_sub (fone f) alpha;
    old_part ← native_mul complement previous;
    new_part ← native_mul alpha input;
    native_add old_part new_part.

Definition native_section (b0 b1 b2 a1 a2 sample s1 s2 : spec_float)
    : attempt (spec_float * spec_float * spec_float) :=
  term ← native_mul b0 sample;
  y ← native_add term s1;
  term ← native_mul b1 sample;
  feedback ← native_mul a1 y;
  next1 ← native_sub term feedback;
  next1 ← native_add next1 s2;
  term ← native_mul b2 sample;
  feedback ← native_mul a2 y;
  next2 ← native_sub term feedback;
  result ← native_load y;
  mret (result, next1, next2).

(** The mean is recomputed over the window; the slot at [head] holds the new sample. *)
Definition native_average (_ : unit) (window : Z) (state : list spec_float) (head : nat)
    (sample : spec_float) : attempt (unit * spec_float) :=
  divisor ← native_count window;
  sum ← for_up 0 (Z.to_nat window) (fun i acc =>
          sum ← acc;
          value ← (if (i =? head)%nat then mret sample else native_load (nth i state fzero));
          term ← native_div value divisor;
          native_add sum term) (inr fzero);
  result ← native_load sum;
  mret (tt, result).

Definition native_format : FilterFormat spec_float spec_float := {|
  F_LOAD := native_load;
  F_STORE := native_load;
  F_COEFFICIENT := native_load;
  F_COUNT := native_count;
  F_ADD := native_add;
  F_MUL := native_mul;
  F_CMP := native_compare;
  F_ZERO := fzero;
  F_ZERO_S := fzero;
  F_ABOVE_ONE := fun working => 0 <? native_compare working (fone f);
  F_BLEND := native_blend;
  F_PASS := fun _ candidate => native_load candidate;
  F_MIX := fun alpha observed prediction =>
    candidate ← native_blend alpha observed prediction;
    result ← native_load candidate;
    mret (candidate, result);
  F_ACC := spec_float;
  F_ACC_ZERO := fzero;
  F_MAC := fun sum coefficient delayed =>
    term ← native_mul coefficient delayed; native_add sum term;
  F_ACC_EXPORT := native_load;
  F_SECTION := native_section;
  F_SUM := unit;
  F_SUM_ZERO := tt;
  F_AVERAGE := native_average;
  F_MIDDLE := fun left right two =>
    left ← native_div left two; right ← native_div right two; native_add left right;
|}.
End Native.
