(* ===== verification/Filters.v ===== *)
(** * The finite-state filters: libs/filters/src/filters_impl.h

    EMA, complementary, FIR, biquad cascade, moving average and median, over
    [FilterFormat].  A context is a record; the arrays it keeps pointers to are
    owned by it from init on, each as an address with its contents, so that the
    overlap tests of the steps are those of the code.  The index loops run over
    [nat]; sizes and addresses are [Z]. *)
From S2P Require Import Prelude MachineInt Status Numeric FilterBase.

(** filters_internal.h *)
Definition filters_overlap (a asize b bsize : Z) : bool :=
  if (asize =? 0) || (bsize =? 0) then false
  else if a <=? b then b - a <? asize else a - b <? bsize.

(** ** Contexts *)

Record ema (S W : Type) := mk_ema { ema_alpha : S; ema_value : W }.
Arguments mk_ema {S W}. Arguments ema_alpha {S W}. Arguments ema_value {S W}.

Record complementary (S W : Type) := mk_complementary {
  comp_alpha : S; comp_period : W; comp_value : W }.
Arguments mk_complementary {S W}. Arguments comp_alpha {S W}. Arguments comp_period {S W}.
Arguments comp_value {S W}.

(** A pointer to an array: its address and its elements. *)
Record array (A : Type) := mk_array { base : Z; cells : list A }.
Arguments mk_array {A}. Arguments base {A}. Arguments cells {A}.

Record fir (S W : Type) := mk_fir {
  fir_coefficients : array W; fir_state : array S; taps : nat; fir_head : nat }.
Arguments mk_fir {S W}. Arguments fir_coefficients {S W}. Arguments fir_state {S W}.
Arguments taps {S W}. Arguments fir_head {S W}.

Record biquad_coefficients (W : Type) := mk_biquad_coefficients { b0 : W; b1 : W; b2 : W; a1 : W; a2 : W }.
Arguments mk_biquad_coefficients {W}. Arguments b0 {W}. Arguments b1 {W}. Arguments b2 {W}.
Arguments a1 {W}. Arguments a2 {W}.

Record biquad (W : Type) := mk_biquad {
  bq_coefficients : array (biquad_coefficients W); bq_state : array W; bq_workspace : array W;
  sections : nat }.
Arguments mk_biquad {W}. Arguments bq_coefficients {W}. Arguments bq_state {W}.
Arguments bq_workspace {W}. Arguments sections {W}.

Record moving_average (S Sum : Type) := mk_moving_average {
  ma_state : array S; ma_window : nat; ma_head : nat; ma_sum : Sum }.
Arguments mk_moving_average {S Sum}. Arguments ma_state {S Sum}. Arguments ma_window {S Sum}.
Arguments ma_head {S Sum}. Arguments ma_sum {S Sum}.

Record median (S : Type) := mk_median {
  med_state : array S; med_workspace : array S; med_window : nat; med_head : nat }.
Arguments mk_median {S}. Arguments med_state {S}. Arguments med_workspace {S}.
Arguments med_window {S}. Arguments med_head {S}.

(** What the target decides: size_t and the sizes of the element types. *)
Record filter_abi := mk_filter_abi { F_SIZE_MAX : Z; sizeof_signal : Z; sizeof_work : Z; sizeof_section : Z }.

(** An array whose first [n] elements were overwritten with [z]. *)
Definition clear {A} (n : nat) (z : A) (x : array A) : array A :=
  mk_array (base x) (replicate n z ++ drop n (cells x)).
Definition write {A} (i : nat) (v : A) (x : array A) : array A := mk_array (base x) (<[i := v]> (cells x)).

(** [head + 1 == count ? 0 : head + 1] *)
Definition advance (head count : nat) : nat := if (head + 1 =? count)%nat then 0%nat else (head + 1)%nat.

(** A step over a context and an output pointer, after F_LOCAL(output). *)
Definition with_output {C S} (sizeof_ctx sizeof_s : Z) (ctx : option (Z * C)) (output : option (Z * S))
    (body : C -> Z -> linears_status_t * (C * option S))
    : linears_status_t * (option (Z * C) * option (Z * S)) :=
  match ctx, output with
  | Some (px, c), Some (po, out) =>
      if filters_overlap px sizeof_ctx po sizeof_s then (LINEARS_ERROR_ALIAS, (ctx, output))
      else let r := body c po in (r.1, (Some (px, r.2.1), Some (po, default out r.2.2)))
  | _, _ => (LINEARS_ERROR_ARGUMENT, (ctx, output))
  end.

(** A body that leaves the context alone when it fails. *)
Definition stepped {C S} (m : attempt (C * S)) (old : C) : linears_status_t * (C * option S) :=
  match m with inl e => (e, (old, None)) | inr r => (LINEARS_OK, (r.1, Some r.2)) end.

Section Filters.
Context {S W : Type} `{FilterFormat S W} (target : filter_abi).

(** F_LOCAL(array_size) *)
Definition array_size (count element_size : Z) : attempt Z :=
  refuse (count =? 0) LINEARS_ERROR_ARGUMENT;;
  refuse (count >? F_SIZE_MAX target / element_size) LINEARS_ERROR_SIZE;;
  mret (count * element_size).

(** ** EMA *)

Definition ema_init (ctx : option (ema S W)) (alpha initial : S) : linears_status_t * option (ema S W) :=
  with_out ctx (finish (alpha ← F_WEIGHT alpha; value ← F_LOAD initial; mret (mk_ema alpha value))).

Definition ema_reset (ctx : option (ema S W)) (initial : S) : linears_status_t * option (ema S W) :=
  with_out ctx (fun old => finish (value ← F_LOAD initial; mret (mk_ema (ema_alpha old) value)) old).

Definition ema_step_work (ctx : ema S W) (input : S) : attempt (ema S W * S) :=
  sample ← F_LOAD input;
  alpha ← F_LOAD (ema_alpha ctx);
  candidate ← F_BLEND alpha (ema_value ctx) sample;
  result ← F_STORE candidate;
  mret (mk_ema (ema_alpha ctx) candidate, result).

Definition ema_step (sizeof_ema : Z) (ctx : option (Z * ema S W)) (input : S) (output : option (Z * S))
    : linears_status_t * (option (Z * ema S W) * option (Z * S)) :=
  with_output sizeof_ema (sizeof_signal target) ctx output (fun c _ => stepped (ema_step_work c input) c).

(** ** Complementary *)

Definition complementary_init (ctx : option (complementary S W)) (alpha : S) (sample_period : W) (initial : S)
    : linears_status_t * option (complementary S W) :=
  with_out ctx (finish (
    alpha ← F_WEIGHT alpha;
    period ← F_COEFFICIENT sample_period;
    refuse (F_CMP period F_ZERO <=? 0) LINEARS_ERROR_DOMAIN;;
    value ← F_LOAD initial;
    mret (mk_complementary alpha sample_period value))).

Definition complementary_reset (ctx : option (complementary S W)) (initial : S)
    : linears_status_t * option (complementary S W) :=
  with_out ctx (fun old => finish (
    value ← F_LOAD initial; mret (mk_complementary (comp_alpha old) (comp_period old) value)) old).

Definition complementary_step_work (ctx : complementary S W) (rate measurement : S)
    : attempt (complementary S W * S) :=
  derivative ← F_LOAD rate;
  observed ← F_LOAD measurement;
  alpha ← F_LOAD (comp_alpha ctx);
  mixed ← (if F_CMP alpha F_ZERO =? 0 then
             result ← F_PASS measurement observed; mret (observed, result)
           else
             increment ← F_MUL derivative (comp_period ctx);
             prediction ← F_ADD (comp_value ctx) increment;
             F_MIX alpha observed prediction);
  mret (mk_complementary (comp_alpha ctx) (comp_period ctx) mixed.1, mixed.2).

Definition complementary_step (sizeof_ctx : Z) (ctx : option (Z * complementary S W)) (rate measurement : S)
    (output : option (Z * S)) : linears_status_t * (option (Z * complementary S W) * option (Z * S)) :=
  with_output sizeof_ctx (sizeof_signal target) ctx output (fun c _ => stepped (complementary_step_work c rate measurement) c).

(** ** FIR *)

(** [for (i = 0; i < n; ++i) F_TRY(F_LOCAL(coefficient)(values[i], &value));] *)
Fixpoint all_coefficients (values : list W) : attempt unit :=
  match values with
  | [] => mret tt
  | v :: rest => F_COEFFICIENT v;; all_coefficients rest
  end.

Definition fir_init (sizeof_fir : Z) (ctx : option (Z * fir S W)) (coefficients : option (array W))
    (count : Z) (state : option (array S)) (state_capacity : Z)
    : linears_status_t * option (Z * fir S W) :=
  match ctx, coefficients, state with
  | Some (px, old), Some cs, Some st =>
      let r := finish (
        bytes ← array_size count (sizeof_signal target);
        coefficient_bytes ← array_size count (sizeof_work target);
        refuse (state_capacity <? count) LINEARS_ERROR_WORKSPACE;;
        refuse (filters_overlap px sizeof_fir (base cs) coefficient_bytes ||
                filters_overlap px sizeof_fir (base st) bytes ||
                filters_overlap (base cs) coefficient_bytes (base st) bytes) LINEARS_ERROR_ALIAS;;
        all_coefficients (take (Z.to_nat count) (cells cs));;
        mret (mk_fir cs (clear (Z.to_nat count) F_ZERO_S st) (Z.to_nat count) 0%nat)) old in
      (r.1, Some (px, r.2))
  | _, _, _ => (LINEARS_ERROR_ARGUMENT, ctx)
  end.

Definition fir_reset (ctx : option (fir S W)) : linears_status_t * option (fir S W) :=
  with_out ctx (fun old =>
    (LINEARS_OK, mk_fir (fir_coefficients old) (clear (taps old) F_ZERO_S (fir_state old)) (taps old) 0%nat)).

(** The loop from tap [i], with [n] taps left: newest sample first, then backwards round the ring. *)
Fixpoint fir_loop (ctx : fir S W) (sample : W) (i n index : nat) (sum : F_ACC) : attempt F_ACC :=
  match n with
  | O => mret sum
  | Datatypes.S n =>
      let next := if (i =? 0)%nat then index else if (index =? 0)%nat then (taps ctx - 1)%nat else (index - 1)%nat in
      delayed ← (if (i =? 0)%nat then mret sample else F_LOAD (nth next (cells (fir_state ctx)) F_ZERO_S));
      coefficient ← F_COEFFICIENT (nth i (cells (fir_coefficients ctx)) F_ZERO);
      sum ← F_MAC sum coefficient delayed;
      fir_loop ctx sample (Datatypes.S i) n next sum
  end.

Definition fir_step_work (ctx : fir S W) (input : S) : attempt (fir S W * S) :=
  sample ← F_LOAD input;
  sum ← fir_loop ctx sample 0 (taps ctx) (fir_head ctx) F_ACC_ZERO;
  result ← F_ACC_EXPORT sum;
  mret (mk_fir (fir_coefficients ctx) (write (fir_head ctx) input (fir_state ctx)) (taps ctx)
          (advance (fir_head ctx) (taps ctx)), result).

Definition fir_step (sizeof_fir : Z) (ctx : option (Z * fir S W)) (input : S) (output : option (Z * S))
    : linears_status_t * (option (Z * fir S W) * option (Z * S)) :=
  with_output sizeof_fir (sizeof_signal target) ctx output (fun c po =>
    stepped (refuse (filters_overlap po (sizeof_signal target) (base (fir_state c)) (Z.of_nat (taps c) * (sizeof_signal target)) ||
                     filters_overlap po (sizeof_signal target) (base (fir_coefficients c)) (Z.of_nat (taps c) * (sizeof_work target)))
               LINEARS_ERROR_ALIAS;;
             fir_step_work c input) c).

(** ** Biquad cascade *)

(** LINEARS_SIZE_MUL(2, sections) *)
Definition biquad_state_count (count : Z) : Z :=
  if count >? F_SIZE_MAX target / 2 then F_SIZE_MAX target else 2 * count.

Fixpoint all_sections (values : list (biquad_coefficients W)) : attempt unit :=
  match values with
  | [] => mret tt
  | c :: rest =>
      F_COEFFICIENT (b0 c);; F_COEFFICIENT (b1 c);; F_COEFFICIENT (b2 c);;
      F_COEFFICIENT (a1 c);; F_COEFFICIENT (a2 c);; all_sections rest
  end.

Definition biquad_init (sizeof_biquad : Z) (ctx : option (Z * biquad W))
    (coefficients : option (array (biquad_coefficients W))) (count : Z)
    (state : option (array W)) (state_capacity : Z) (workspace : option (array W)) (workspace_capacity : Z)
    : linears_status_t * option (Z * biquad W) :=
  match ctx, coefficients, state, workspace with
  | Some (px, old), Some cs, Some st, Some ws =>
      let state_count := biquad_state_count count in
      let r := finish (
        refuse (state_count =? F_SIZE_MAX target) LINEARS_ERROR_SIZE;;
        state_bytes ← array_size state_count (sizeof_work target);
        coefficient_bytes ← array_size count (sizeof_section target);
        refuse ((state_capacity <? state_count) || (workspace_capacity <? state_count)) LINEARS_ERROR_WORKSPACE;;
        refuse (filters_overlap px sizeof_biquad (base cs) coefficient_bytes ||
                filters_overlap px sizeof_biquad (base st) state_bytes ||
                filters_overlap px sizeof_biquad (base ws) state_bytes ||
                filters_overlap (base cs) coefficient_bytes (base st) state_bytes ||
                filters_overlap (base cs) coefficient_bytes (base ws) state_bytes ||
                filters_overlap (base st) state_bytes (base ws) state_bytes) LINEARS_ERROR_ALIAS;;
        all_sections (take (Z.to_nat count) (cells cs));;
        mret (mk_biquad cs (clear (Z.to_nat state_count) F_ZERO st) ws (Z.to_nat count))) old in
      (r.1, Some (px, r.2))
  | _, _, _, _ => (LINEARS_ERROR_ARGUMENT, ctx)
  end.

Definition biquad_reset (ctx : option (biquad W)) : linears_status_t * option (biquad W) :=
  with_out ctx (fun old =>
    (LINEARS_OK, mk_biquad (bq_coefficients old) (clear (2 * sections old) F_ZERO (bq_state old))
                   (bq_workspace old) (sections old))).

Definition zero_section : biquad_coefficients W := mk_biquad_coefficients F_ZERO F_ZERO F_ZERO F_ZERO F_ZERO.

(** One section: its result, and the two values for the workspace. *)
Definition biquad_section (ctx : biquad W) (i : nat) (sample : W) : attempt (S * W * W) :=
  let c := nth i (cells (bq_coefficients ctx)) zero_section in
  b0' ← F_COEFFICIENT (b0 c); b1' ← F_COEFFICIENT (b1 c); b2' ← F_COEFFICIENT (b2 c);
  a1' ← F_COEFFICIENT (a1 c); a2' ← F_COEFFICIENT (a2 c);
  F_SECTION b0' b1' b2' a1' a2' sample
    (nth (2 * i) (cells (bq_state ctx)) F_ZERO) (nth (2 * i + 1) (cells (bq_state ctx)) F_ZERO).

(** The [do] loop from section [i] with [n] sections left; the workspace keeps what a failing
    cascade wrote. *)
Fixpoint biquad_loop (ctx : biquad W) (i n : nat) (sample : W) (result : S) (workspace : list W)
    : linears_status_t * (S * list W) :=
  match n with
  | O => (LINEARS_OK, (result, workspace))
  | Datatypes.S n =>
      match biquad_section ctx i sample with
      | inl e => (e, (result, workspace))
      | inr (result, next1, next2) =>
          let workspace := <[(2 * i + 1)%nat := next2]> (<[(2 * i)%nat := next1]> workspace) in
          match F_LOAD result with
          | inl e => (e, (result, workspace))
          | inr sample => biquad_loop ctx (Datatypes.S i) n sample result workspace
          end
      end
  end.

Definition with_workspace (ctx : biquad W) (state workspace : list W) : biquad W :=
  mk_biquad (bq_coefficients ctx) (mk_array (base (bq_state ctx)) state)
    (mk_array (base (bq_workspace ctx)) workspace) (sections ctx).

Definition biquad_step_work (ctx : biquad W) (input : S) : linears_status_t * (biquad W * option S) :=
  match F_LOAD input with
  | inl e => (e, (ctx, None))
  | inr sample =>
      let state := cells (bq_state ctx) in
      let r := biquad_loop ctx 0 (sections ctx) sample input (cells (bq_workspace ctx)) in
      if status_ok r.1 then
        (LINEARS_OK, (with_workspace ctx (take (2 * sections ctx) r.2.2 ++ drop (2 * sections ctx) state) r.2.2,
                      Some r.2.1))
      else (r.1, (with_workspace ctx state r.2.2, None))
  end.

Definition biquad_step (sizeof_biquad : Z) (ctx : option (Z * biquad W)) (input : S) (output : option (Z * S))
    : linears_status_t * (option (Z * biquad W) * option (Z * S)) :=
  with_output sizeof_biquad (sizeof_signal target) ctx output (fun c po =>
    let bytes := Z.of_nat (2 * sections c) * (sizeof_work target) in
    if filters_overlap po (sizeof_signal target) (base (bq_state c)) bytes ||
       filters_overlap po (sizeof_signal target) (base (bq_workspace c)) bytes ||
       filters_overlap po (sizeof_signal target) (base (bq_coefficients c)) (Z.of_nat (sections c) * (sizeof_section target))
    then (LINEARS_ERROR_ALIAS, (c, None)) else biquad_step_work c input).

(** ** Moving average *)

Definition moving_average_init (sizeof_ctx : Z) (ctx : option (Z * moving_average S F_SUM)) (window : Z)
    (state : option (array S)) (state_capacity : Z) : linears_status_t * option (Z * moving_average S F_SUM) :=
  match ctx, state with
  | Some (px, old), Some st =>
      let r := finish (
        bytes ← array_size window (sizeof_signal target);
        refuse (state_capacity <? window) LINEARS_ERROR_WORKSPACE;;
        refuse (filters_overlap px sizeof_ctx (base st) bytes) LINEARS_ERROR_ALIAS;;
        mret (mk_moving_average (clear (Z.to_nat window) F_ZERO_S st) (Z.to_nat window) 0%nat F_SUM_ZERO)) old in
      (r.1, Some (px, r.2))
  | _, _ => (LINEARS_ERROR_ARGUMENT, ctx)
  end.

Definition moving_average_reset (ctx : option (moving_average S F_SUM))
    : linears_status_t * option (moving_average S F_SUM) :=
  with_out ctx (fun old =>
    (LINEARS_OK, mk_moving_average (clear (ma_window old) F_ZERO_S (ma_state old)) (ma_window old) 0%nat F_SUM_ZERO)).

Definition moving_average_step_work (ctx : moving_average S F_SUM) (input : S)
    : attempt (moving_average S F_SUM * S) :=
  sample ← F_LOAD input;
  r ← F_AVERAGE (ma_sum ctx) (Z.of_nat (ma_window ctx)) (cells (ma_state ctx)) (ma_head ctx) sample;
  mret (mk_moving_average (write (ma_head ctx) input (ma_state ctx)) (ma_window ctx)
          (advance (ma_head ctx) (ma_window ctx)) r.1, r.2).

Definition moving_average_step (sizeof_ctx : Z) (ctx : option (Z * moving_average S F_SUM)) (input : S)
    (output : option (Z * S)) : linears_status_t * (option (Z * moving_average S F_SUM) * option (Z * S)) :=
  with_output sizeof_ctx (sizeof_signal target) ctx output (fun c po =>
    stepped (refuse (filters_overlap po (sizeof_signal target) (base (ma_state c)) (Z.of_nat (ma_window c) * (sizeof_signal target)))
               LINEARS_ERROR_ALIAS;;
             moving_average_step_work c input) c).

(** ** Median *)

Definition median_init (sizeof_ctx : Z) (ctx : option (Z * median S)) (window : Z)
    (state : option (array S)) (state_capacity : Z) (workspace : option (array S)) (workspace_capacity : Z)
    : linears_status_t * option (Z * median S) :=
  match ctx, state, workspace with
  | Some (px, old), Some st, Some ws =>
      let r := finish (
        bytes ← array_size window (sizeof_signal target);
        refuse ((state_capacity <? window) || (workspace_capacity <? window)) LINEARS_ERROR_WORKSPACE;;
        refuse (filters_overlap px sizeof_ctx (base st) bytes ||
                filters_overlap px sizeof_ctx (base ws) bytes ||
                filters_overlap (base st) bytes (base ws) bytes) LINEARS_ERROR_ALIAS;;
        mret (mk_median (clear (Z.to_nat window) F_ZERO_S st) ws (Z.to_nat window) 0%nat)) old in
      (r.1, Some (px, r.2))
  | _, _, _ => (LINEARS_ERROR_ARGUMENT, ctx)
  end.

Definition median_reset (ctx : option (median S)) : linears_status_t * option (median S) :=
  with_out ctx (fun old =>
    (LINEARS_OK, mk_median (clear (med_window old) F_ZERO_S (med_state old)) (med_workspace old)
                   (med_window old) 0%nat)).

(** The inner [while]: the slot below which the key goes, after shifting larger elements up. *)
Fixpoint shift_larger (j : nat) (key : W) (workspace : list S) : linears_status_t * (nat * list S) :=
  match j with
  | O => (LINEARS_OK, (O, workspace))
  | Datatypes.S k =>
      match F_LOAD (nth k workspace F_ZERO_S) with
      | inl e => (e, (j, workspace))
      | inr compared =>
          if F_CMP compared key <=? 0 then (LINEARS_OK, (j, workspace))
          else shift_larger k key (<[j := nth k workspace F_ZERO_S]> workspace)
      end
  end.

(** The outer [for] from [i] with [n] elements left. *)
Fixpoint insertion_sort (i n : nat) (workspace : list S) : linears_status_t * list S :=
  match n with
  | O => (LINEARS_OK, workspace)
  | Datatypes.S n =>
      let key_scalar := nth i workspace F_ZERO_S in
      match F_LOAD key_scalar with
      | inl e => (e, workspace)
      | inr key =>
          let r := shift_larger i key workspace in
          if status_ok r.1 then insertion_sort (Datatypes.S i) n (<[r.2.1 := key_scalar]> r.2.2)
          else (r.1, r.2.2)
      end
  end.

(** The middle element, or the mean of the two middle ones. *)
Definition median_of (sorted : list S) (window : nat) : attempt S :=
  let result := nth (window / 2) sorted F_ZERO_S in
  if (window mod 2 =? 0)%nat then
    left ← F_LOAD (nth (window / 2 - 1) sorted F_ZERO_S);
    right ← F_LOAD result;
    two ← F_COUNT 2;
    candidate ← F_MIDDLE left right two;
    F_STORE candidate
  else mret result.

Definition with_scratch (ctx : median S) (workspace : list S) : median S :=
  mk_median (med_state ctx) (mk_array (base (med_workspace ctx)) workspace) (med_window ctx) (med_head ctx).

Definition median_step_work (ctx : median S) (input : S) : linears_status_t * (median S * option S) :=
  match F_LOAD input with
  | inl e => (e, (ctx, None))
  | inr _ =>
      let window := med_window ctx in
      let copied := take window (<[med_head ctx := input]> (cells (med_state ctx)))
                      ++ drop window (cells (med_workspace ctx)) in
      let r := insertion_sort 1 (window - 1) copied in
      let scratch := with_scratch ctx r.2 in
      if status_ok r.1 then
        match median_of r.2 window with
        | inl e => (e, (scratch, None))
        | inr result =>
            (LINEARS_OK, (mk_median (write (med_head ctx) input (med_state ctx)) (med_workspace scratch)
                            window (advance (med_head ctx) window), Some result))
        end
      else (r.1, (scratch, None))
  end.

Definition median_step (sizeof_ctx : Z) (ctx : option (Z * median S)) (input : S) (output : option (Z * S))
    : linears_status_t * (option (Z * median S) * option (Z * S)) :=
  with_output sizeof_ctx (sizeof_signal target) ctx output (fun c po =>
    let bytes := Z.of_nat (med_window c) * (sizeof_signal target) in
    if filters_overlap po (sizeof_signal target) (base (med_state c)) bytes ||
       filters_overlap po (sizeof_signal target) (base (med_workspace c)) bytes
    then (LINEARS_ERROR_ALIAS, (c, None)) else median_step_work c input).
End Filters.
