(* ===== verification/FilterSpec.v ===== *)
(** * Correctness of the fixed-point filters

    The q15 and q31 instances of Filters.v against exact integer arithmetic: the
    128-bit accumulators never overflow on the sizes an object can have, each
    result is rounded once, and a ring buffer is the history of the last samples. *)
From S2P Require Import Prelude MachineInt Status Wide Numeric FcMonad Cordic FcVariants FilterBase Filters.

(** ** Accumulator steps *)

Lemma result_of_deliver {A} (local cell v : A) (fits : bool) :
  result_of local (with_out (Some cell) (deliver fits v)) = if fits then inr v else inl LINEARS_ERROR_RANGE.
Proof. unfold result_of, deliver. cbn. by destruct fits. Qed.

Section Arithmetic.
Variable f : q_format.
Implicit Types (s r : linears_accum_t) (a b : Z).

(** A product added to, or taken from, a sum that stays within 128 bits. *)
Lemma mac_ok s a b : accum_ok s -> is_i64 a -> is_i64 b -> is_i128 (accum_value s + a * b) ->
  exists r, mac s a b = inr r /\ accum_ok r /\ accum_value r = accum_value s + a * b.
Proof.
  intros Hs Ha Hb Hfit. destruct (linears_fixed_mac_msu_spec s a b Hs Ha Hb) as [(r & E & Hr & Hv) _].
  exists r. unfold mac, result_of. rewrite E, (proj2 (fits_i128_spec _) Hfit). cbn. by rewrite Hv.
Qed.

Lemma msu_ok s a b : accum_ok s -> is_i64 a -> is_i64 b -> is_i128 (accum_value s - a * b) ->
  exists r, msu s a b = inr r /\ accum_ok r /\ accum_value r = accum_value s - a * b.
Proof.
  intros Hs Ha Hb Hfit. destruct (linears_fixed_mac_msu_spec s a b Hs Ha Hb) as [_ (r & E & Hr & Hv)].
  exists r. unfold msu, result_of. rewrite E, (proj2 (fits_i128_spec _) Hfit). cbn. by rewrite Hv.
Qed.

Lemma acc_zero_ok : accum_ok acc_zero /\ accum_value acc_zero = 0.
Proof. split; [split; cbn; rlia|reflexivity]. Qed.

Lemma accum_to_fixed_eq s : accum_ok s ->
  let v := div_nearest (accum_value s) (2 ^ 31) in
  accum_to_fixed s = if fits_i64 v then inr v else inl LINEARS_ERROR_RANGE.
Proof.
  intros Hs v. unfold accum_to_fixed, fixed_op.
  destruct (linears_accum_to_spec s (Some 0) Hs) as (-> & _ & _). apply result_of_deliver.
Qed.

Lemma accum_export_eq s : accum_ok s ->
  accum_export f s = if in_unit_interval (accum_value s) (2 ^ 62)
    then inr (endpoint (q_bits f) (div_nearest (accum_value s) (2 ^ (62 - q_bits f)))) else inl LINEARS_ERROR_RANGE.
Proof.
  intros Hs. unfold accum_export, fixed_op.
  destruct (linears_accum_to_spec s (Some 0) Hs) as (_ & H15 & H31).
  destruct f; cbn [q_bits]; [rewrite H15|rewrite H31]; apply result_of_deliver.
Qed.

Lemma accum_mean_eq s n : accum_ok s -> is_u64 n -> n <> 0 ->
  accum_mean f s n = if in_unit_interval (accum_value s) (n * 2 ^ 62)
    then inr (endpoint (q_bits f) (div_nearest (accum_value s) (n * 2 ^ (62 - q_bits f)))) else inl LINEARS_ERROR_RANGE.
Proof.
  intros Hs Hn Hnz. unfold accum_mean, fixed_op.
  destruct (linears_accum_mean_spec s n (Some 0) Hs Hn) as [H15 H31].
  cbn [with_out] in H15, H31. rewrite (proj2 (Z.eqb_neq n 0)) in H15, H31 by done.
  destruct f; cbn [q_bits]; [rewrite H15|rewrite H31]; unfold deliver; by destruct (in_unit_interval _ _).
Qed.

Lemma fixed_export_eq x : is_i64 x ->
  fixed_export f x = if in_unit_interval x LINEARS_FIXED_ONE then inr (q_round f x) else inl LINEARS_ERROR_RANGE.
Proof.
  intros Hx. unfold fixed_export, fixed_op, q_round.
  destruct (linears_fixed_to_q_exact x (Some 0) Hx) as [H15 H31].
  destruct f; [rewrite H15|rewrite H31]; apply result_of_deliver.
Qed.

(** The working value of a signal is the signal scaled to 31 fraction bits. *)
Lemma fcq_field_scale t : q_repr f t -> fcq_field f t = t * 2 ^ (31 - q_bits f).
Proof.
  unfold fcq_field, linears_fixed_from_q15, linears_fixed_from_q31. destruct f; cbn [q_repr q_bits]; intros.
  - rewrite i64_id by rlia. reflexivity.
  - change (2 ^ (31 - 31)) with 1. lia.
Qed.

Lemma q_repr_range t : q_repr f t <-> - 2 ^ q_bits f <= t < 2 ^ q_bits f.
Proof. destruct f; cbn [q_repr q_bits]; [change (2 ^ 15) with 32768|change (2 ^ 31) with 2147483648]; rlia. Qed.

Lemma q_bits_pos : 0 < q_bits f <= 31.
Proof. destruct f; cbn; lia. Qed.
End Arithmetic.

Lemma one_i64 : is_i64 LINEARS_FIXED_ONE.
Proof. unfold LINEARS_FIXED_ONE. rlia. Qed.

(** ** The exponential moving average *)

(** The exact convex combination, rounded once. *)
Definition ema_next (A v x : Z) : Z := div_nearest ((LINEARS_FIXED_ONE - A) * v + A * x) LINEARS_FIXED_ONE.

Lemma ema_next_hull A v x : 0 <= A <= LINEARS_FIXED_ONE -> Z.min v x <= ema_next A v x <= Z.max v x.
Proof. unfold ema_next, LINEARS_FIXED_ONE. intros HA. apply div_nearest_between; nia. Qed.

(** The shared recurrence never fails for a weight below one. *)
Lemma ema_work_step_eq v A x : is_i64 v -> is_i64 x -> 0 <= A < LINEARS_FIXED_ONE ->
  filters_ema_work_step (Some v) A x = (LINEARS_OK, Some (ema_next A v x)).
Proof.
  intros Hv Hx HA. pose proof (ema_next_hull A v x ltac:(lia)) as Hh. unfold ema_next in *.
  unfold filters_ema_work_step, LINEARS_FIXED_ONE in *. cbn [with_out].
  rewrite (proj2 (Z.ltb_ge A 0)), i64_id by rlia.
  destruct acc_zero_ok as [H0 V0].
  destruct (mac_ok acc_zero (2147483648 - A) v) as (s & E & Hs & Vs);
    [done|rlia|done|unfold is_i128, two127, is_i64 in *; rewrite V0; nia|].
  destruct (mac_ok s A x) as (t & E' & Ht & Vt);
    [done|rlia|done|unfold is_i128, two127, is_i64 in *; rewrite Vs, V0; nia|].
  unfold mac in E, E'. change (mk_accum 0 0) with acc_zero. rewrite E. cbn [mbind attempt_bind]. rewrite E'.
  cbn [mbind attempt_bind]. pose proof (accum_to_fixed_eq t Ht) as Ef. unfold accum_to_fixed, fixed_op in Ef.
  rewrite Ef, Vt, Vs, V0. change (2 ^ 31) with 2147483648. rewrite Z.add_0_l.
  rewrite fits_i64_true by rlia. reflexivity.
Qed.

(** ** Driving a filter through its entry point *)

Definition entry (C : Type) : Type :=
  option (Z * C) -> Z -> option (Z * Z) -> linears_status_t * (option (Z * C) * option (Z * Z)).

Section Drive.
Context {C : Type}.

(** The calls of a client that feeds the samples one after the other: what each call returned and
    left in the output cell, and the context at the end. *)
Fixpoint drive (step : entry C) (ctx : option (Z * C)) (output : option (Z * Z)) (inputs : list Z)
    : list (linears_status_t * option Z) * option (Z * C) :=
  match inputs with
  | [] => ([], ctx)
  | x :: rest =>
      let r := step ctx x output in
      let more := drive step r.2.1 r.2.2 rest in
      ((r.1, snd <$> r.2.2) :: more.1, more.2)
  end.

(** The outputs of a deterministic machine. *)
Fixpoint outputs (next : C -> Z -> C) (out : C -> Z -> Z) (c : C) (inputs : list Z) : list Z :=
  match inputs with
  | [] => []
  | x :: rest => out c x :: outputs next out (next c x) rest
  end.

Definition success (y : Z) : linears_status_t * option Z := (LINEARS_OK, Some y).

Lemma drive_ok (step : entry C) next out (Inv : C -> Prop) (P : Z -> Prop) px po :
  (forall c x o, Inv c -> P x ->
     step (Some (px, c)) x (Some (po, o)) = (LINEARS_OK, (Some (px, next c x), Some (po, out c x))) /\ Inv (next c x)) ->
  forall inputs c o, Inv c -> Forall P inputs ->
  drive step (Some (px, c)) (Some (po, o)) inputs
    = (map success (outputs next out c inputs), Some (px, fold_left next inputs c)) /\
  Inv (fold_left next inputs c).
Proof.
  intros Hstep inputs. induction inputs as [|x rest IH]; intros c o Hc Hp; [done|].
  apply Forall_cons_1 in Hp as [Hx Hp]. destruct (Hstep c x o Hc Hx) as [E Hn].
  cbn [drive]. rewrite E. cbn [fst snd]. destruct (IH (next c x) (out c x) Hn Hp) as [E' HI].
  rewrite E'. done.
Qed.

Lemma outputs_length next out c inputs : length (outputs next out c inputs) = length inputs.
Proof. revert c. induction inputs as [|x rest IH]; intros c; cbn; [done|]. f_equal. apply IH. Qed.

Lemma outputs_nth next out c inputs i d : (i < length inputs)%nat ->
  nth i (outputs next out c inputs) d = out (fold_left next (take i inputs) c) (nth i inputs 0).
Proof.
  revert c i. induction inputs as [|x rest IH]; intros c i Hi; cbn in *; [lia|].
  destruct i as [|i]; [done|]. cbn. apply IH. lia.
Qed.
End Drive.

(** Disjoint context and output objects. *)
Lemma with_output_ok {C S} (sc ss px po : Z) (c : C) (o : S) body c' y :
  filters_overlap px sc po ss = false -> body c po = (LINEARS_OK, (c', Some y)) ->
  with_output sc ss (Some (px, c)) (Some (po, o)) body = (LINEARS_OK, (Some (px, c'), Some (po, y))).
Proof. intros Ho Hb. unfold with_output. rewrite Ho, Hb. done. Qed.

(** Exact bounds on signals carry over to their working values. *)
Section Ema.
Variable f : q_format.

(** An initialized context: a weight in [0, 1) and a value within the signal range. *)
Record ema_ok (c : ema Z Z) : Prop := {
  ok_weight : q_repr f (ema_alpha c) /\ 0 <= ema_alpha c;
  ok_value : - LINEARS_FIXED_ONE <= ema_value c <= LINEARS_FIXED_ONE;
}.

Definition ema_weight (c : ema Z Z) : Z := fcq_field f (ema_alpha c).
Definition ema_after (c : ema Z Z) (x : Z) : ema Z Z :=
  mk_ema (ema_alpha c) (ema_next (ema_weight c) (ema_value c) (fcq_field f x)).
Definition ema_output (c : ema Z Z) (x : Z) : Z := q_round f (ema_value (ema_after c x)).

Lemma ema_weight_range c : ema_ok c -> 0 <= ema_weight c < LINEARS_FIXED_ONE.
Proof.
  intros [[Hr Hp] _]. unfold ema_weight. pose proof (fcq_field_range f _ Hr). split; [|lia].
  rewrite fcq_field_scale by done. apply Z.mul_nonneg_nonneg; [done|apply Z.pow_nonneg; lia].
Qed.

Lemma ema_step_ok c x : ema_ok c -> q_repr f x ->
  ema_step_work (H := fixed_format f) c x = inr (ema_after c x, ema_output c x) /\ ema_ok (ema_after c x).
Proof.
  intros Hc Hx. pose proof (ema_weight_range c Hc) as Hw. pose proof (fcq_field_range f x Hx) as Hfx.
  pose proof (ema_next_hull (ema_weight c) (ema_value c) (fcq_field f x) ltac:(lia)) as Hh.
  destruct Hc as [[Hr Hp] Hv]. unfold ema_step_work, ema_output, ema_after, fixed_format, ema_weight in *.
  cbn [F_LOAD F_BLEND F_STORE mbind attempt_bind ema_value ema_alpha]. unfold fixed_blend.
  unfold LINEARS_FIXED_ONE in *. rewrite i32_id by rlia.
  rewrite ema_work_step_eq by (unfold LINEARS_FIXED_ONE; rlia). unfold result_of. cbn.
  rewrite fixed_export_eq by rlia. unfold in_unit_interval, LINEARS_FIXED_ONE.
  rewrite (proj2 (Z.leb_le _ _)), (proj2 (Z.leb_le _ _)) by lia. cbn. split; [done|].
  split; cbn; [done|]. unfold LINEARS_FIXED_ONE. lia.
Qed.

Lemma ema_init_ok old alpha initial : q_repr f alpha -> 0 <= alpha -> q_repr f initial ->
  ema_init (H := fixed_format f) (Some old) alpha initial
    = (LINEARS_OK, Some (mk_ema alpha (fcq_field f initial))) /\
  ema_ok (mk_ema alpha (fcq_field f initial)).
Proof.
  intros Ha Hp Hi. pose proof (fcq_field_range f initial Hi).
  assert (0 <= fcq_field f alpha) as Hfa.
  { rewrite fcq_field_scale by done. apply Z.mul_nonneg_nonneg; [done|apply Z.pow_nonneg; lia]. }
  split; [|split; cbn; [done|lia]].
  unfold ema_init, F_WEIGHT, fixed_format. cbn. unfold refuse.
  change (linears_fixed_compare (fcq_field f alpha) 0) with (fcq_cmp (fcq_field f alpha) 0).
  rewrite fcq_cmp_sign. rewrite (proj2 (Z.ltb_ge _ _)) by lia. done.
Qed.

(** What the entry point does on disjoint objects. *)
Lemma ema_entry_ok (target : filter_abi) sizeof_ema px po c x o :
  filters_overlap px sizeof_ema po (sizeof_signal target) = false -> ema_ok c -> q_repr f x ->
  ema_step (H := fixed_format f) target sizeof_ema (Some (px, c)) x (Some (po, o))
    = (LINEARS_OK, (Some (px, ema_after c x), Some (po, ema_output c x))) /\ ema_ok (ema_after c x).
Proof.
  intros Ho Hc Hx. destruct (ema_step_ok c x Hc Hx) as [E Hn]. split; [|done].
  apply with_output_ok; [done|]. by rewrite E.
Qed.

(** The value moves towards the input, and strictly so until it is within half a unit over the weight. *)
Lemma ema_next_contracts A v x : 0 <= A <= LINEARS_FIXED_ONE ->
  Z.abs (ema_next A v x - x) <= Z.abs (v - x) /\
  (LINEARS_FIXED_ONE < 2 * A * Z.abs (v - x) -> Z.abs (ema_next A v x - x) < Z.abs (v - x)).
Proof.
  intros HA. pose proof (ema_next_hull A v x HA). split; [lia|].
  pose proof (div_nearest_error ((LINEARS_FIXED_ONE - A) * v + A * x) LINEARS_FIXED_ONE ltac:(done)) as He.
  fold (ema_next A v x) in He. unfold LINEARS_FIXED_ONE in *. intros Hd. nia.
Qed.

Lemma ema_run_contracts c x (n : nat) : ema_ok c -> q_repr f x ->
  let d c := Z.abs (ema_value c - fcq_field f x) in
  let c' := fold_left (ema_after) (replicate n x) c in
  ema_ok c' /\ ema_alpha c' = ema_alpha c /\ d c' <= d c /\
  (2 * ema_weight c * d c' <= LINEARS_FIXED_ONE \/ d c' <= d c - Z.of_nat n).
Proof.
  intros Hc Hx d. revert c Hc. induction n as [|n IH]; intros c Hc; cbn [replicate fold_left].
  - split; [done|]. split; [done|]. split; lia.
  - destruct (ema_step_ok c x Hc Hx) as [_ Hn]. pose proof (ema_weight_range c Hc) as HA.
    destruct (ema_next_contracts (ema_weight c) (ema_value c) (fcq_field f x) ltac:(lia)) as [Hle Hlt].
    assert (ema_weight (ema_after c x) = ema_weight c) as Hw by done.
    specialize (IH _ Hn). rewrite Hw in IH. cbv zeta in *. destruct IH as (Hok & Ha & Hd & Hs).
    set (c' := fold_left _ _ _) in *. split; [done|]. split; [by rewrite Ha|].
    assert (d (ema_after c x) <= d c) as Hstep by exact Hle.
    split; [lia|]. destruct Hs as [Hs|Hs]; [by left|].
    destruct (Z.le_gt_cases (2 * ema_weight c * d c) LINEARS_FIXED_ONE) as [Hb|Hb].
    + left. assert (0 <= d c') by (unfold d; lia). nia.
    + right. assert (d (ema_after c x) < d c) by (apply Hlt; unfold d in Hb; lia). lia.
Qed.
End Ema.

(** An EMA is its exact recurrence v' = (1 - alpha) v + alpha x, rounded once per sample and never
    out of range: initialized with a weight in [0, 1), it accepts every sequence of samples, and its
    outputs stay between the bounds that contain the initial value and the samples. *)
Theorem ema_filter_spec (f : q_format) (target : filter_abi) (sizeof_ema px po : Z) (old : ema Z Z)
    (alpha initial lo hi o : Z) (inputs : list Z) :
  filters_overlap px sizeof_ema po (sizeof_signal target) = false ->
  q_repr f alpha -> 0 <= alpha -> q_repr f lo -> q_repr f hi ->
  Forall (fun x => lo <= x <= hi) (initial :: inputs) ->
  let c := mk_ema alpha (fcq_field f initial) in
  ema_init (H := fixed_format f) (Some old) alpha initial = (LINEARS_OK, Some c) /\
  exists c', drive (ema_step (H := fixed_format f) target sizeof_ema) (Some (px, c)) (Some (po, o)) inputs
      = (map success (outputs (ema_after f) (ema_output f) c inputs), Some (px, c')) /\
    Forall (fun y => lo <= y <= hi) (outputs (ema_after f) (ema_output f) c inputs).
Proof.
  intros Ho Ha Hp Hlo Hhi Hin c. apply Forall_cons_1 in Hin as [Hi Hin].
  assert (forall x, lo <= x <= hi -> q_repr f x) as Hr.
  { intros x Hx. apply q_repr_range. apply q_repr_range in Hlo, Hhi. lia. }
  destruct (ema_init_ok f old alpha initial Ha Hp (Hr _ Hi)) as [Ei Hc]. split; [exact Ei|].
  exists (fold_left (ema_after f) inputs c).
  destruct (drive_ok (ema_step (H := fixed_format f) target sizeof_ema) (ema_after f) (ema_output f)
    (ema_ok f) (q_repr f) px po) with (inputs := inputs) (c := c) (o := o) as [E _];
    [intros; by apply ema_entry_ok|exact Hc|exact (Forall_impl _ Hr Hin)|].
  split; [exact E|]. clear E Ei Ho.
  assert (fcq_field f lo <= ema_value c <= fcq_field f hi) as Hv.
  { cbn. rewrite <- !fcq_field_mono by auto. lia. }
  change (ema_ok f c) in Hc. clearbody c. revert c Hc Hv. induction inputs as [|x rest IH]; intros c Hc Hv; cbn [outputs]; [constructor|].
  apply Forall_cons_1 in Hin as [Hx Hin].
  destruct (ema_step_ok f c x Hc (Hr _ Hx)) as [_ Hn]. pose proof (ema_weight_range f c Hc) as HA.
  pose proof (ema_next_hull (ema_weight f c) (ema_value c) (fcq_field f x) ltac:(lia)) as Hh.
  pose proof (proj1 (fcq_field_mono f lo x Hlo (Hr _ Hx)) (proj1 Hx)).
  pose proof (proj1 (fcq_field_mono f x hi (Hr _ Hx) Hhi) (proj2 Hx)).
  assert (fcq_field f lo <= ema_value (ema_after f c x) <= fcq_field f hi) as Hv' by (cbn; lia).
  constructor; [|by apply IH]. unfold ema_output.
  rewrite <- (q_round_field f lo Hlo), <- (q_round_field f hi Hhi). split; apply q_round_mono; lia.
Qed.

(** C36. Whatever its state, an EMA with a positive weight settles on a constant input x: after at most
    as many samples as its distance from x in units of 2^-31, the value stays within half a unit
    over the weight of x. *)
Theorem ema_settles (f : q_format) (target : filter_abi) (sizeof_ema px po : Z) (c : ema Z Z) (x o : Z) (n : nat) :
  filters_overlap px sizeof_ema po (sizeof_signal target) = false ->
  ema_ok f c -> 0 < ema_alpha c -> q_repr f x -> Z.abs (ema_value c - fcq_field f x) <= Z.of_nat n ->
  exists c', (drive (ema_step (H := fixed_format f) target sizeof_ema) (Some (px, c)) (Some (po, o)) (replicate n x)).2
      = Some (px, c') /\
    2 * fcq_field f (ema_alpha c) * Z.abs (ema_value c' - fcq_field f x) <= LINEARS_FIXED_ONE.
Proof.
  intros Ho Hc Ha Hx Hn. exists (fold_left (ema_after f) (replicate n x) c).
  destruct (drive_ok (ema_step (H := fixed_format f) target sizeof_ema) (ema_after f) (ema_output f)
    (ema_ok f) (q_repr f) px po) with (inputs := replicate n x) (c := c) (o := o) as [E _];
    [intros; by apply ema_entry_ok|exact Hc|by apply Forall_replicate|].
  split; [by rewrite E|]. destruct (ema_run_contracts f c x n Hc Hx) as (_ & _ & _ & [Hs|Hs]); [exact Hs|].
  assert (Z.abs (ema_value (fold_left (ema_after f) (replicate n x) c) - fcq_field f x) = 0) as -> by lia.
  rewrite Z.mul_0_r. done.
Qed.

(** ** Witnesses *)

(** q15 on a 32-bit target: two-byte signals, eight-byte working values. *)
Definition q15_target : filter_abi := mk_filter_abi 4294967295 2 8 40.

Lemma ema_filter_witness :
  (drive (ema_step (H := fixed_format Q15) q15_target 16)
     (Some (100, mk_ema 8192 (fcq_field Q15 0))) (Some (200, 7)) [1000; 2000; -3000]).1
  = map success [250; 688; -234].
Proof.
  destruct (ema_filter_spec Q15 q15_target 16 100 200 (mk_ema 1 1) 8192 0 (-3000) 2000 7 [1000; 2000; -3000])
    as [_ (c' & -> & _)]; [reflexivity|cbn; rlia|lia|cbn; rlia|cbn; rlia|repeat constructor; lia|].
  vm_compute. reflexivity.
Defined.

Lemma ema_settles_witness : exists c',
  (drive (ema_step (H := fixed_format Q31) (mk_filter_abi 4294967295 4 8 40) 16)
     (Some (100, mk_ema 1073741824 900)) (Some (200, 7)) (replicate 900 0)).2 = Some (100, c') /\
  2 * fcq_field Q31 1073741824 * Z.abs (ema_value c' - 0) <= LINEARS_FIXED_ONE.
Proof.
  apply (ema_settles Q31 (mk_filter_abi 4294967295 4 8 40) 16 100 200 (mk_ema 1073741824 900) 0 7 900);
    [reflexivity|constructor; cbn; unfold LINEARS_FIXED_ONE; rlia|cbn; lia|cbn; rlia|vm_compute; discriminate].
Defined.
