(* ===== verification/FilterRing.v ===== *)
(** * Delay rings: FIR and moving average against their histories

    A ring of [n] slots with a head is the list of the last [n] samples, newest
    first.  The FIR filter is shown to be the convolution of that history, the
    moving average its exact mean; the median is in FilterMedian. *)
From S2P Require Import Prelude MachineInt Status Wide Numeric FcMonad Cordic FcVariants FilterBase Filters.
From S2P Require Import FilterSpec.

(** Case analysis on the index tests of a goal. *)
Ltac nat_cases :=
  repeat match goal with
  | |- context [(?a =? ?b)%nat] =>
      lazymatch a with context [if _ then _ else _] => fail | _ => destruct (Nat.eqb_spec a b) end
  | |- context [(?a <? ?b)%nat] => destruct (Nat.ltb_spec a b)
  end; try lia.

(** ** Rings *)

Definition history (state : list Z) (head n : nat) : list Z :=
  reverse (take head state) ++ reverse (drop head (take n state)).

(** The history after a sample: the oldest one falls out. *)
Definition shift_in (n : nat) (x : Z) (h : list Z) : list Z := x :: take (n - 1) h.

(** The slot of the sample that is [j] steps old. *)
Definition ring_index (head n j : nat) : nat :=
  if (j <? head)%nat then (head - 1 - j)%nat else (head + n - 1 - j)%nat.

Section Ring.
Context (state : list Z) (head n : nat).
Hypothesis Hhead : (head < n)%nat.
Hypothesis Hlen : (n <= length state)%nat.

Lemma history_length : length (history state head n) = n.
Proof. unfold history. rewrite length_app, !length_reverse, length_take, length_drop, length_take. lia. Qed.

Lemma history_nth j d : (j < n)%nat -> nth j (history state head n) d = nth (ring_index head n j) state d.
Proof.
  intros Hj. unfold history, ring_index.
  assert (length (reverse (take head state)) = head) as Hl by (rewrite length_reverse, length_take; lia).
  unfold reverse in *. destruct (Nat.ltb_spec j head).
  - rewrite app_nth1 by lia. rewrite rev_append_rev, app_nil_r in *. rewrite rev_nth by (rewrite length_take; lia).
    rewrite length_take, nth_firstn, (proj2 (Nat.ltb_lt _ _)) by lia. f_equal. lia.
  - rewrite app_nth2, Hl by lia. rewrite rev_append_rev, app_nil_r.
    rewrite rev_nth by (rewrite length_drop, length_take; lia).
    rewrite length_drop, length_take, nth_skipn, nth_firstn, (proj2 (Nat.ltb_lt _ _)) by lia. f_equal. lia.
Qed.

(** The head holds the oldest sample. *)
Lemma history_oldest d : nth (n - 1) (history state head n) d = nth head state d.
Proof. rewrite history_nth by lia. unfold ring_index. destruct (Nat.ltb_spec (n - 1) head); f_equal; lia. Qed.

Lemma history_perm : Permutation (history state head n) (take n state).
Proof.
  unfold history. rewrite !reverse_Permutation.
  rewrite <- (take_drop head (take n state)) at 2. by rewrite take_take, Nat.min_l by lia.
Qed.

(** Writing the new sample over the oldest one and advancing the head shifts the history. *)
Lemma history_push x :
  history (<[head := x]> state) (advance head n) n = shift_in n x (history state head n).
Proof.
  destruct (nth_lookup_or_length state head 0) as [Eo|]; [|lia].
  set (A := take head state). set (o := nth head state 0) in *.
  set (B := drop (S head) (take n state)). set (C := drop n state).
  assert (length A = head) as HA by (unfold A; rewrite length_take; lia).
  assert (length B = n - 1 - head)%nat as HB by (unfold B; rewrite length_drop, length_take; lia).
  assert (state = A ++ o :: B ++ C) as Es.
  { unfold A, B, C. rewrite drop_take_drop by lia. by rewrite <- drop_S, take_drop. }
  clearbody A B C o. subst state. unfold history, shift_in.
  assert (<[head:=x]> (A ++ o :: B ++ C) = A ++ x :: B ++ C) as ->.
  { rewrite insert_app_r_alt by lia. by rewrite HA, Nat.sub_diag. }
  assert (forall y, take n (A ++ y :: B ++ C) = A ++ y :: B) as Ht.
  { intros y.
    change (A ++ y :: B ++ C) with (A ++ (y :: B) ++ C). rewrite app_assoc.
    apply take_app_length'. rewrite length_app. cbn. lia. }
  rewrite !Ht. rewrite (take_app_length' A (o :: B ++ C) head), (drop_app_length' A (o :: B) head) by lia.
  rewrite reverse_cons. rewrite app_assoc.
  rewrite (take_app_length' (reverse A ++ reverse B)) by (rewrite length_app, !length_reverse; lia).
  unfold advance. destruct (Nat.eqb_spec (head + 1) n).
  - destruct B; [|cbn in HB; lia]. rewrite take_0, drop_0, reverse_snoc, !reverse_nil. by rewrite app_nil_r.
  - change (A ++ x :: B ++ C) with (A ++ [x] ++ B ++ C). rewrite (app_assoc A [x] (B ++ C)).
    rewrite (take_app_length' (A ++ [x])) by (rewrite length_app; cbn; lia).
    change (A ++ x :: B) with (A ++ [x] ++ B). rewrite (app_assoc A [x] B).
    rewrite (drop_app_length' (A ++ [x])) by (rewrite length_app; cbn; lia).
    by rewrite reverse_snoc.
Qed.

End Ring.

Lemma advance_bound head n : (head < n)%nat -> (advance head n < n)%nat.
Proof. intros. unfold advance. nat_cases. Qed.


(** A cleared ring is a history of zeros. *)
Lemma history_clear (st : array Z) (n : nat) : (n <= length (cells st))%nat ->
  (n <= length (cells (clear n 0%Z st)))%nat /\ history (cells (clear n 0%Z st)) 0 n = replicate n 0.
Proof.
  intros Hn. unfold clear, history. cbn [cells]. split; [rewrite length_app, length_replicate; lia|].
  rewrite take_0, reverse_nil, drop_0. cbn [app]. rewrite take_app_length' by (by rewrite length_replicate).
  apply reverse_replicate.
Qed.

(** ** Successful initializations *)

Lemma finish_eq {R} (m : attempt R) old r :
  (finish m old).1 = LINEARS_OK -> (finish m old).2 = r -> finish m old = (LINEARS_OK, r).
Proof. destruct (finish m old). cbn. congruence. Qed.

Lemma finish_refuse {R} (c : bool) e (m : unit -> attempt R) old r : e <> LINEARS_OK ->
  finish (refuse c e ≫= m) old = (LINEARS_OK, r) -> c = false /\ finish (m tt) old = (LINEARS_OK, r).
Proof. intros He. destruct c; cbn; [|done]. intros E. by injection E as ->. Qed.

Lemma finish_array_size {R} target n size (m : Z -> attempt R) old r :
  finish (array_size target n size ≫= m) old = (LINEARS_OK, r) ->
  n <> 0 /\ finish (m (n * size)) old = (LINEARS_OK, r).
Proof.
  unfold array_size, refuse. destruct (Z.eqb_spec n 0); cbn; [done|].
  destruct (_ >? _); cbn; [done|]. auto.
Qed.

Lemma all_coefficients_fixed (f : q_format) (values : list Z) :
  all_coefficients (H := fixed_format f) values = inr tt.
Proof. by induction values. Qed.

(** ** FIR: the convolution of the history *)

(** g(i) + ... + g(i + n - 1) *)
Fixpoint sum_from (i n : nat) (g : nat -> Z) : Z :=
  match n with O => 0 | S n => g i + sum_from (S i) n g end.

Lemma sum_from_ext n : forall i g h, (forall j, (i <= j < i + n)%nat -> g j = h j) -> sum_from i n g = sum_from i n h.
Proof.
  induction n as [|n IH]; intros i g h E; cbn [sum_from]; [done|].
  rewrite (E i) by lia. f_equal. apply IH. intros. apply E. lia.
Qed.

Lemma sum_from_bound n B : forall i g, (forall j, (i <= j < i + n)%nat -> Z.abs (g j) <= B) ->
  Z.abs (sum_from i n g) <= Z.of_nat n * B.
Proof.
  induction n as [|n IH]; intros i g E; cbn [sum_from]; [lia|].
  pose proof (E i ltac:(lia)). pose proof (IH (S i) g ltac:(intros; apply E; lia)). lia.
Qed.

(** Σ coefficient_j * sample_j over the taps, in units of 2^-62. *)
Definition convolution (f : q_format) (coefficients samples : list Z) (n : nat) : Z :=
  sum_from 0 n (fun j => nth j coefficients 0 * fcq_field f (nth j samples 0)).

(** The rounded convolution, when it is a signal value. *)
Definition fir_value (f : q_format) (V : Z) : Z := endpoint (q_bits f) (div_nearest V (2 ^ (62 - q_bits f))).

(** The reference: a shift register.  A sum outside [-1, +1] is reported and the sample discarded. *)
Fixpoint fir_model (f : q_format) (coefficients : list Z) (n : nat) (h : list Z) (o : Z) (inputs : list Z)
    : list (linears_status_t * option Z) :=
  match inputs with
  | [] => []
  | x :: rest =>
      let V := convolution f coefficients (x :: h) n in
      if in_unit_interval V (2 ^ 62)
      then (LINEARS_OK, Some (fir_value f V)) :: fir_model f coefficients n (shift_in n x h) (fir_value f V) rest
      else (LINEARS_ERROR_RANGE, Some o) :: fir_model f coefficients n h o rest
  end.

Section Fir.
Variable f : q_format.
Variable coefficients : array Z.
Variable n : nat.

#[local] Instance format : FilterFormat Z Z := fixed_format f.

(** A context over these coefficients whose ring holds the history [h]. *)
Record fir_holds (state_base : Z) (c : fir Z Z) (h : list Z) : Prop := {
  h_coefficients : fir_coefficients c = coefficients;
  h_base : base (fir_state c) = state_base;
  h_taps : taps c = n;
  h_head : (fir_head c < n)%nat;
  h_length : (n <= length (cells (fir_state c)))%nat;
  h_history : history (cells (fir_state c)) (fir_head c) n = h;
  h_repr : Forall (q_repr f) h;
}.

(** Products of int64_t coefficients and signals leave room for 2^32 taps. *)
Hypothesis Hn : (0 < Z.of_nat n <= 4294967296).
Hypothesis Hcoefficients : Forall is_i64 (take n (cells coefficients)).
Hypothesis Hcount : (n <= length (cells coefficients))%nat.

Lemma coefficient_i64 j : (j < n)%nat -> is_i64 (nth j (cells coefficients) 0).
Proof.
  intros Hj. rewrite <- (take_drop n (cells coefficients)), app_nth1 by (rewrite length_take; lia).
  eapply Forall_nth; [exact Hcoefficients|rewrite length_take; lia].
Qed.

Lemma nth_repr h j : Forall (q_repr f) h -> (j < length h)%nat -> q_repr f (nth j h 0).
Proof. intros Hh Hj. by eapply Forall_nth. Qed.

(** The ring index of the tap before [i]. *)
Definition tap_index (head i : nat) : nat := if (i =? 0)%nat then head else ring_index head n (i - 1).

Lemma fir_loop_ok b c h x : fir_holds b c h -> q_repr f x -> forall m i s,
  (i + m = n)%nat -> accum_ok s -> Z.abs (accum_value s) <= Z.of_nat i * 2 ^ 94 ->
  exists r, fir_loop c (fcq_field f x) i m (tap_index (fir_head c) (i - 1)) s = inr r /\
    accum_ok r /\
    accum_value r = accum_value s
      + sum_from i m (fun j => nth j (cells coefficients) 0 * fcq_field f (nth j (x :: h) 0)).
Proof.
  intros [Hc _ Ht Hh Hl Hhist Hr] Hx m. induction m as [|m IH]; intros i s Him Hs Hv; cbn [sum_from fir_loop].
  { exists s. split; [done|]. split; [done|]. lia. }
  set (d := fcq_field f (nth i (x :: h) 0)). set (a := nth i (cells coefficients) 0).
  pose proof (coefficient_i64 i ltac:(lia)) as Ha. fold a in Ha.
  assert (length h = n) as Hlh by (rewrite <- Hhist; by apply history_length).
  assert (q_repr f (nth i (x :: h) 0)) as Hrep.
  { destruct i; [exact Hx|]. cbn [nth]. apply nth_repr; [done|lia]. }
  pose proof (fcq_field_range f _ Hrep) as Hd. fold d in Hd.
  set (next := if (i =? 0)%nat then tap_index (fir_head c) (i - 1)
               else if (tap_index (fir_head c) (i - 1) =? 0)%nat then (taps c - 1)%nat
               else (tap_index (fir_head c) (i - 1) - 1)%nat).
  assert (next = tap_index (fir_head c) i) as Hnext.
  { unfold next, tap_index, ring_index. rewrite Ht. nat_cases. }
  assert ((if (i =? 0)%nat then mret (fcq_field f x)
           else F_LOAD (nth next (cells (fir_state c)) F_ZERO_S)) = inr d) as Ed.
  { unfold d. destruct i as [|i]; [done|]. cbn [Nat.eqb]. rewrite Hnext. unfold tap_index.
    cbn [Nat.eqb nth]. rewrite Nat.sub_1_r. cbn [Nat.pred format fixed_format F_LOAD F_ZERO_S].
    rewrite <- (history_nth _ _ n Hh Hl i) by lia. by rewrite Hhist. }
  cbv zeta. rewrite Ed. cbn [mbind attempt_bind]. rewrite Hc. fold a.
  change (F_COEFFICIENT (nth i (cells coefficients) F_ZERO)) with (inr a : attempt Z).
  cbn [mbind attempt_bind].
  assert (Z.abs (a * d) <= 2 ^ 94) as Hprod.
  { rewrite Z.abs_mul. change (2 ^ 94) with (9223372036854775808 * 2147483648).
    unfold LINEARS_FIXED_ONE in Hd. apply Z.mul_le_mono_nonneg; rlia. }
  change (2 ^ 94) with 19807040628566084398385987584 in *.
  destruct (mac_ok s a d Hs Ha) as (r & Er & Hrok & Hrv); [unfold LINEARS_FIXED_ONE in Hd; rlia
    |unfold is_i128, two127; lia|].
  cbn [F_MAC format fixed_format]. rewrite Er. cbn [mbind attempt_bind].
  rewrite Hnext. destruct (IH (S i) r) as (t & Et & Htok & Htv); [lia|done|lia|].
  cbn [Nat.sub] in Et. rewrite Nat.sub_0_r in Et.
  exists t. split; [exact Et|]. split; [done|]. rewrite Htv, Hrv. unfold a, d. lia.
Qed.

Lemma shift_in_repr x h : q_repr f x -> Forall (q_repr f) h -> Forall (q_repr f) (shift_in n x h).
Proof. intros. constructor; [done|by apply Forall_take]. Qed.

(** One step: the rounded convolution and the shifted history, or RANGE. *)
Lemma fir_step_work_ok b c h x : fir_holds b c h -> q_repr f x ->
  let V := convolution f (cells coefficients) (x :: h) n in
  if in_unit_interval V (2 ^ 62)
  then exists c', fir_step_work c x = inr (c', fir_value f V) /\ fir_holds b c' (shift_in n x h)
  else fir_step_work c x = inl LINEARS_ERROR_RANGE.
Proof.
  intros Hholds Hx V. destruct acc_zero_ok as [H0 V0].
  destruct (fir_loop_ok b c h x Hholds Hx n 0 acc_zero) as (r & Er & Hr & Hv); [done|done|rewrite V0; lia|].
  assert (fir_step_work c x = (result ← accum_export f r;
    mret (mk_fir (fir_coefficients c) (write (fir_head c) x (fir_state c)) (taps c)
      (advance (fir_head c) (taps c)), result))) as ->.
  { destruct Hholds as [_ _ Ht _ _ _ _]. unfold fir_step_work. cbn [F_LOAD F_ACC_ZERO F_ACC_EXPORT format fixed_format].
    cbn [mbind attempt_bind]. rewrite Ht. unfold tap_index in Er. cbn [Nat.sub Nat.eqb] in Er. by rewrite Er. }
  rewrite accum_export_eq, Hv, V0, Z.add_0_l by done. fold (convolution f (cells coefficients) (x :: h) n). fold V.
  destruct (in_unit_interval V (2 ^ 62)); [|done]. eexists. split; [reflexivity|].
  destruct Hholds as [Hc Hb Ht Hh Hl Hhist Hrep]. rewrite Ht.
  split; cbn [fir_coefficients fir_state taps fir_head write base cells]; [done|done|done|by apply advance_bound|by rewrite length_insert| |by apply shift_in_repr].
  rewrite history_push by done. by rewrite Hhist.
Qed.

(** The output cell meets neither the context nor its arrays. *)
Definition fir_disjoint (target : filter_abi) (sizeof_fir px po state_base : Z) : Prop :=
  filters_overlap px sizeof_fir po (sizeof_signal target) = false /\
  filters_overlap po (sizeof_signal target) state_base (Z.of_nat n * sizeof_signal target) = false /\
  filters_overlap po (sizeof_signal target) (base coefficients) (Z.of_nat n * sizeof_work target) = false.

Lemma fir_drive_ok target sizeof_fir px po b : fir_disjoint target sizeof_fir px po b ->
  forall inputs c h o, fir_holds b c h -> Forall (q_repr f) inputs ->
  (drive (fir_step target sizeof_fir) (Some (px, c)) (Some (po, o)) inputs).1
    = fir_model f (cells coefficients) n h o inputs.
Proof.
  intros (D1 & D2 & D3) inputs. induction inputs as [|x rest IH]; intros c h o Hc Hin; [done|].
  apply Forall_cons_1 in Hin as [Hx Hin]. cbn [drive fir_model].
  pose proof (fir_step_work_ok b c h x Hc Hx) as Hs. cbv zeta in Hs |- *.
  set (V := convolution f (cells coefficients) (x :: h) n) in *.
  assert (fir_step target sizeof_fir (Some (px, c)) x (Some (po, o)) =
    let r := stepped (fir_step_work c x) c in
    (r.1, (Some (px, r.2.1), Some (po, default o r.2.2)))) as ->.
  { destruct Hc as [Hcc Hcb Hct _ _ _ _]. unfold fir_step, with_output.
    rewrite D1, Hcc, Hcb, Hct, D2, D3. reflexivity. }
  destruct (in_unit_interval V (2 ^ 62)).
  - destruct Hs as (c' & -> & Hc'). cbn. f_equal. by apply IH.
  - rewrite Hs. cbn. f_equal. by apply IH.
Qed.
End Fir.

(** C5. An FIR filter is the convolution of the samples it was given: initialized with int64_t F31
    coefficients, fed any signals, it returns at each sample the exact sum of coefficient times
    delayed sample over the taps, with zeros before the first one, rounded once to the signal
    format; a sum outside [-1, +1] is reported as RANGE, and its sample is dropped from the history. *)
Theorem fir_refines_convolution (f : q_format) (target : filter_abi) (sizeof_fir px po o count capacity : Z)
    (old c : fir Z Z) (coefficients state : array Z) (inputs : list Z) :
  count <= capacity <= Z.of_nat (length (cells state)) -> count <= Z.of_nat (length (cells coefficients)) ->
  0 <= count <= 4294967296 -> Forall is_i64 (cells coefficients) -> Forall (q_repr f) inputs ->
  fir_init (H := fixed_format f) target sizeof_fir (Some (px, old)) (Some coefficients) count (Some state) capacity
    = (LINEARS_OK, Some (px, c)) ->
  fir_disjoint coefficients (Z.to_nat count) target sizeof_fir px po (base state) ->
  (drive (fir_step (H := fixed_format f) target sizeof_fir) (Some (px, c)) (Some (po, o)) inputs).1
    = fir_model f (cells coefficients) (Z.to_nat count) (replicate (Z.to_nat count) 0) o inputs.
Proof.
  intros Hcap Hlen Hcount Hcoef Hin Hinit Hdis. set (n := Z.to_nat count) in *.
  assert (fir_holds f coefficients n (base state) c (replicate n 0) /\ 0 < count) as [Hholds Hpos].
  { revert Hinit. unfold fir_init. fold n. intros E. injection E as E1 E2.
    pose proof (finish_eq _ _ _ E1 E2) as E.
    apply finish_array_size in E as [Hz E]. apply finish_array_size in E as [_ E].
    apply finish_refuse in E as [_ E]; [|done]. apply finish_refuse in E as [_ E]; [|done].
    rewrite all_coefficients_fixed in E. injection E as <-. split; [|lia].
    destruct (history_clear state n ltac:(lia)) as [H1 H2].
    split; cbn; [done|done|done|lia|exact H1|exact H2|].
    apply Forall_replicate. destruct f; cbn; rlia. }
  apply fir_drive_ok with (b := base state); try done; try (unfold n; lia). by apply Forall_take.
Qed.

(** ** Moving average: the exact mean of the history *)

Definition total (h : list Z) : Z := foldr Z.add 0 h.

(** The reference: the mean of the last [n] samples, rounded once. *)
Fixpoint mean_model (n : nat) (h inputs : list Z) : list Z :=
  match inputs with
  | [] => []
  | x :: rest => div_nearest (total (shift_in n x h)) (Z.of_nat n) :: mean_model n (shift_in n x h) rest
  end.

Lemma total_app h k : total (h ++ k) = total h + total k.
Proof. unfold total. induction h as [|x h IH]; cbn; [done|]. rewrite IH. lia. Qed.

Lemma total_replicate n x : total (replicate n x) = Z.of_nat n * x.
Proof. induction n as [|n IH]; cbn [replicate total foldr]; [lia|]. fold (total (replicate n x)). lia. Qed.

Lemma total_shift n x h : length h = n -> (0 < n)%nat -> total (shift_in n x h) = x + total h - nth (n - 1) h 0.
Proof.
  intros Hl Hn. unfold shift_in. cbn [total foldr]. fold (total (take (n - 1) h)).
  rewrite <- (take_drop (n - 1) h) at 2. rewrite total_app.
  assert (drop (n - 1) h = [nth (n - 1) h 0]) as ->; [|cbn; lia].
  destruct (nth_lookup_or_length h (n - 1) 0) as [E|]; [|lia].
  rewrite (drop_S _ _ _ E), drop_ge by lia. done.
Qed.

Lemma total_bounds (lo hi : Z) h : Forall (fun x => lo <= x <= hi) h ->
  Z.of_nat (length h) * lo <= total h <= Z.of_nat (length h) * hi.
Proof.
  induction 1 as [|x h Hx Hh IH]; cbn [length total foldr]; [lia|]. fold (total h). lia.
Qed.

Lemma shift_in_length n x h : length h = n -> (0 < n)%nat -> length (shift_in n x h) = n.
Proof. intros. unfold shift_in. cbn. rewrite length_take. lia. Qed.

Section MovingAverage.
Variable f : q_format.
Variable n : nat.
Hypothesis Hn : 0 < Z.of_nat n < 18446744073709551616.

#[local] Instance average_format : FilterFormat Z Z := fixed_format f.

(** The running sum is that of the window: it never drifts. *)
Record ma_holds (state_base : Z) (c : moving_average Z linears_accum_t) (h : list Z) : Prop := {
  ma_base : base (ma_state c) = state_base;
  ma_window_n : ma_window c = n;
  ma_head_n : (ma_head c < n)%nat;
  ma_length : (n <= length (cells (ma_state c)))%nat;
  ma_history : history (cells (ma_state c)) (ma_head c) n = h;
  ma_repr : Forall (q_repr f) h;
  ma_sum_ok : accum_ok (ma_sum c);
  ma_sum_value : accum_value (ma_sum c) = total h * 2 ^ (62 - q_bits f);
}.

Lemma repr_bounds h : Forall (q_repr f) h -> Forall (fun x => - 2 ^ q_bits f <= x <= 2 ^ q_bits f - 1) h.
Proof. intros Hh. refine (Forall_impl _ _ Hh). intros x Hx%q_repr_range. lia. Qed.

Lemma scale_eq : 0 < 2 ^ q_bits f /\ 0 < 2 ^ (62 - q_bits f) /\ 2 ^ q_bits f * 2 ^ (62 - q_bits f) = 4611686018427387904.
Proof. by destruct f. Qed.

Lemma one_product t : q_repr f t -> fcq_field f t * LINEARS_FIXED_ONE = t * 2 ^ (62 - q_bits f).
Proof.
  intros Ht. rewrite fcq_field_scale by done. rewrite <- Z.mul_assoc. f_equal. by destruct f.
Qed.

(** The mean of signals is a signal. *)
Lemma mean_range h : length h = n -> Forall (q_repr f) h ->
  - 2 ^ q_bits f <= div_nearest (total h) (Z.of_nat n) <= 2 ^ q_bits f - 1.
Proof.
  intros Hl Hh. pose proof (total_bounds _ _ h (repr_bounds h Hh)) as Hb. rewrite Hl in Hb.
  apply div_nearest_between; lia.
Qed.

Lemma fixed_average_ok (s : linears_accum_t) h state head x :
  accum_ok s -> accum_value s = total h * 2 ^ (62 - q_bits f) -> length h = n -> Forall (q_repr f) h ->
  nth head state 0 = nth (n - 1) h 0 -> q_repr f x ->
  exists r, fixed_average f s (Z.of_nat n) state head (fcq_field f x)
      = inr (r, div_nearest (total (shift_in n x h)) (Z.of_nat n)) /\
    accum_ok r /\ accum_value r = total (shift_in n x h) * 2 ^ (62 - q_bits f).
Proof.
  intros Hs Hv Hl Hh Hold Hx. destruct scale_eq as (Hp & Hq & Hpq).
  assert (q_repr f (nth (n - 1) h 0)) as Ho by (eapply Forall_nth; [exact Hh|lia]).
  pose proof (total_bounds _ _ h (repr_bounds h Hh)) as Hb. rewrite Hl in Hb.
  assert (Forall (q_repr f) (shift_in n x h)) as Hh' by (constructor; [done|by apply Forall_take]).
  pose proof (total_shift n x h Hl ltac:(lia)) as Ht.
  pose proof (proj1 (q_repr_range f _) Ho) as Hor. pose proof (proj1 (q_repr_range f _) Hx) as Hxr.
  unfold fixed_average. rewrite Hold. set (old := nth (n - 1) h 0) in *.
  set (k := 2 ^ (62 - q_bits f)) in *. set (m := 2 ^ q_bits f) in *.
  assert (Z.abs (total h * k) <= Z.of_nat n * 4611686018427387904) as Habs by nia.
  assert (Z.abs (old * k) <= 4611686018427387904 /\ Z.abs (x * k) <= 4611686018427387904) as [Hok Hxk] by nia.
  destruct (msu_ok s (fcq_field f old) LINEARS_FIXED_ONE Hs (fcq_field_i64 f _ Ho) one_i64) as (r & -> & Hr & Hrv).
  { rewrite one_product, Hv by done. fold k. unfold is_i128, two127. lia. }
  rewrite one_product, Hv in Hrv by done. fold k in Hrv. cbn [mbind attempt_bind].
  destruct (mac_ok r (fcq_field f x) LINEARS_FIXED_ONE Hr (fcq_field_i64 f _ Hx) one_i64) as (t & -> & Htk & Htv).
  { rewrite one_product, Hrv by done. fold k. unfold is_i128, two127. lia. }
  rewrite one_product, Hrv in Htv by done. fold k in Htv. cbn [mbind attempt_bind].
  assert (accum_value t = total (shift_in n x h) * k) as Htt by (rewrite Htv, Ht; lia).
  rewrite u64_id by (unfold is_u64; lia). rewrite accum_mean_eq by (done || unfold is_u64; lia).
  pose proof (mean_range (shift_in n x h) (shift_in_length n x h Hl ltac:(lia)) Hh') as Hmean.
  pose proof (total_bounds _ _ _ (repr_bounds _ Hh')) as Hb'. rewrite shift_in_length in Hb' by lia. fold m in Hb', Hmean.
  rewrite Htt. fold k. rewrite div_nearest_cancel by lia.
  assert (in_unit_interval (total (shift_in n x h) * k) (Z.of_nat n * 2 ^ 62) = true) as ->.
  { unfold in_unit_interval. change (2 ^ 62) with 4611686018427387904. rewrite <- Hpq.
    apply andb_true_iff. rewrite !Z.leb_le. set (T := total (shift_in n x h)) in *.
    pose proof (Z.mul_le_mono_nonneg_r (Z.of_nat n * - m) T k ltac:(lia) ltac:(lia)).
    pose proof (Z.mul_le_mono_nonneg_r T (Z.of_nat n * m) k ltac:(lia) ltac:(lia)). lia. }
  unfold endpoint. fold m. rewrite (proj2 (Z.eqb_neq _ _)) by lia. cbn. by exists t.
Qed.

Lemma moving_average_step_ok b c h x : ma_holds b c h -> q_repr f x ->
  exists c', moving_average_step_work c x = inr (c', div_nearest (total (shift_in n x h)) (Z.of_nat n)) /\
    ma_holds b c' (shift_in n x h).
Proof.
  intros [Hb Hw Hh Hl Hhist Hr Hs Hv] Hx.
  assert (length h = n) as Hlh by (rewrite <- Hhist; by apply history_length).
  destruct (fixed_average_ok (ma_sum c) h (cells (ma_state c)) (ma_head c) x) as (r & Er & Hrk & Hrv); try done.
  { by rewrite <- Hhist, history_oldest. }
  unfold moving_average_step_work. cbn [F_LOAD F_AVERAGE F_SUM average_format fixed_format mbind attempt_bind].
  rewrite Hw, Er. cbn [mbind attempt_bind mret attempt_ret fst snd].
  eexists. split; [reflexivity|].
  split; cbn [ma_state ma_window ma_head ma_sum write base cells];
    [done|done|by apply advance_bound|by rewrite length_insert| |by constructor; [|apply Forall_take]|done|done].
  rewrite history_push by done. by rewrite Hhist.
Qed.

Lemma moving_average_drive_ok target sizeof_ctx px po b :
  filters_overlap px sizeof_ctx po (sizeof_signal target) = false ->
  filters_overlap po (sizeof_signal target) b (Z.of_nat n * sizeof_signal target) = false ->
  forall inputs c h o, ma_holds b c h -> Forall (q_repr f) inputs ->
  (drive (moving_average_step target sizeof_ctx) (Some (px, c)) (Some (po, o)) inputs).1
    = map success (mean_model n h inputs).
Proof.
  intros D1 D2 inputs. induction inputs as [|x rest IH]; intros c h o Hc Hin; [done|].
  apply Forall_cons_1 in Hin as [Hx Hin]. cbn [drive mean_model map].
  destruct (moving_average_step_ok b c h x Hc Hx) as (c' & E & Hc').
  assert (moving_average_step target sizeof_ctx (Some (px, c)) x (Some (po, o)) =
    (LINEARS_OK, (Some (px, c'), Some (po, div_nearest (total (shift_in n x h)) (Z.of_nat n))))) as ->.
  { apply with_output_ok; [done|]. destruct Hc as [Hb Hw _ _ _ _ _ _].
    cbn [F_SUM average_format fixed_format]. rewrite Hb, Hw, D2. cbn [refuse mbind attempt_bind].
    by rewrite E. }
  cbn. f_equal. by apply IH.
Qed.

Lemma moving_average_init_holds target sizeof_ctx px old c st capacity :
  Z.of_nat n <= capacity <= Z.of_nat (length (cells st)) ->
  moving_average_init target sizeof_ctx (Some (px, old)) (Z.of_nat n) (Some st) capacity = (LINEARS_OK, Some (px, c)) ->
  ma_holds (base st) c (replicate n 0).
Proof.
  intros Hcap Hinit. revert Hinit. unfold moving_average_init. intros E. injection E as E1 E2.
  pose proof (finish_eq _ _ _ E1 E2) as E.
  apply finish_array_size in E as [Hz E]. apply finish_refuse in E as [_ E]; [|done].
  apply finish_refuse in E as [_ E]; [|done]. rewrite Nat2Z.id in E. injection E as <-.
  destruct (history_clear st n ltac:(lia)) as [H1 H2]. destruct acc_zero_ok as [H3 H4].
  split; cbn [ma_state ma_window ma_head ma_sum]; [done|done|lia|exact H1|exact H2| |exact H3|].
  - apply Forall_replicate. destruct f; cbn; rlia.
  - rewrite H4, total_replicate. lia.
Qed.
End MovingAverage.

(** Where a moving average is used: its window, its objects, and what it was initialized with. *)
Record ma_setup (f : q_format) (target : filter_abi) (sizeof_ctx px po : Z) (n : nat)
    (old c : moving_average Z linears_accum_t) (state : array Z) (capacity : Z) : Prop := {
  su_window : 0 < Z.of_nat n < 18446744073709551616;
  su_capacity : Z.of_nat n <= capacity <= Z.of_nat (length (cells state));
  su_init : moving_average_init (H := fixed_format f) target sizeof_ctx (Some (px, old)) (Z.of_nat n)
    (Some state) capacity = (LINEARS_OK, Some (px, c));
  su_context : filters_overlap px sizeof_ctx po (sizeof_signal target) = false;
  su_state : filters_overlap po (sizeof_signal target) (base state) (Z.of_nat n * sizeof_signal target) = false;
}.

Lemma ma_setup_drive f target sizeof_ctx px po n old c state capacity o inputs :
  ma_setup f target sizeof_ctx px po n old c state capacity -> Forall (q_repr f) inputs ->
  (drive (moving_average_step (H := fixed_format f) target sizeof_ctx) (Some (px, c)) (Some (po, o)) inputs).1
    = map success (mean_model n (replicate n 0) inputs).
Proof.
  intros [Hn Hcap Hinit D1 D2] Hin. apply moving_average_drive_ok with (b := base state); try done.
  by apply (moving_average_init_holds f n Hn target sizeof_ctx px old c state capacity).
Qed.

Lemma mean_model_app n pre : forall h inputs,
  mean_model n h (pre ++ inputs) = mean_model n h pre ++ mean_model n (fold_left (fun h x => shift_in n x h) pre h) inputs.
Proof. induction pre as [|x pre IH]; intros h inputs; cbn; [done|]. by rewrite IH. Qed.

(** After k equal samples the k newest entries of the history are that sample. *)
Lemma history_saturates n x k h : length h = n -> (k <= n)%nat -> (0 < n)%nat ->
  fold_left (fun h x => shift_in n x h) (replicate k x) h = replicate k x ++ take (n - k) h.
Proof.
  intros Hl Hk Hn. revert h Hl. induction k as [|k IH]; intros h Hl.
  - cbn. rewrite Nat.sub_0_r, take_ge by lia. done.
  - cbn [replicate fold_left]. rewrite IH by (lia || by apply shift_in_length). unfold shift_in.
    replace (n - k)%nat with (S (n - S k)) by lia. cbn [take firstn].
    rewrite take_take, Nat.min_l by lia.
    change (x :: take (n - S k) h) with ([x] ++ take (n - S k) h). rewrite app_assoc.
    by rewrite <- (replicate_S_end k x).
Qed.

(** C26. A moving average never fails and never drifts: initialized with a window of n slots, it returns
    for every sample the mean of the last n samples (zeros before the first), rounded once, however
    many samples have passed through its running sum. *)
Theorem moving_average_refines_mean (f : q_format) (target : filter_abi) (sizeof_ctx px po : Z) (n : nat)
    (old c : moving_average Z linears_accum_t) (state : array Z) (capacity o : Z) (inputs : list Z) :
  ma_setup f target sizeof_ctx px po n old c state capacity -> Forall (q_repr f) inputs ->
  (drive (moving_average_step (H := fixed_format f) target sizeof_ctx) (Some (px, c)) (Some (po, o)) inputs).1
    = map success (mean_model n (replicate n 0) inputs).
Proof. apply ma_setup_drive. Qed.

(** A moving average reaches a constant input in exactly one window: whatever was fed before, after n
    equal samples the call returns that sample. *)
Theorem moving_average_settles (f : q_format) (target : filter_abi) (sizeof_ctx px po : Z) (n : nat)
    (old c : moving_average Z linears_accum_t) (state : array Z) (capacity o x : Z) (inputs : list Z) :
  ma_setup f target sizeof_ctx px po n old c state capacity -> Forall (q_repr f) inputs -> q_repr f x ->
  last (drive (moving_average_step (H := fixed_format f) target sizeof_ctx) (Some (px, c)) (Some (po, o))
          (inputs ++ replicate n x)).1 (LINEARS_ERROR_ARGUMENT, None) = success x.
Proof.
  intros Hs Hin Hx. pose proof (su_window _ _ _ _ _ _ _ _ _ _ Hs) as Hn.
  rewrite (ma_setup_drive _ _ _ _ _ _ _ _ _ _ _ _ Hs) by (apply Forall_app; split; [done|by apply Forall_replicate]).
  destruct n as [|m]; [lia|]. rewrite (replicate_S_end m x), app_assoc, mean_model_app, map_app. cbn [mean_model map].
  rewrite last_last. f_equal. rewrite fold_left_app.
  set (h := fold_left _ inputs _).
  assert (length h = S m) as Hl.
  { unfold h. assert (length (replicate (S m) 0%Z) = S m) as Hr by apply length_replicate. revert Hr.
    generalize (replicate (S m) 0%Z). clear - Hn. induction inputs as [|y rest IH]; intros k Hk; cbn; [done|].
    apply IH. apply shift_in_length; [done|lia]. }
  rewrite history_saturates by lia. unfold shift_in.
  rewrite Nat.sub_succ, Nat.sub_0_r, take_app_length' by (by rewrite length_replicate).
  change (x :: replicate m x) with (replicate (S m) x). rewrite total_replicate, Z.mul_comm. apply div_nearest_1. lia.
Qed.

(** ** Witnesses *)

(** Two taps, 1/2 each; then a sum above +1. *)
Lemma fir_refines_witness :
  (drive (fir_step (H := fixed_format Q15) q15_target 32)
     (Some (100, mk_fir (mk_array 500 [1073741824; 1610612736]) (mk_array 400 [0; 0]) 2 0)) (Some (200, 7))
     [1000; 2000; 32767; 32767]).1
  = [(LINEARS_OK, Some 500); (LINEARS_OK, Some 1750); (LINEARS_OK, Some 17884); (LINEARS_ERROR_RANGE, Some 17884)].
Proof.
  rewrite (fir_refines_convolution Q15 q15_target 32 100 200 7 2 2 (mk_fir (mk_array 1 []) (mk_array 1 []) 9 9)
    _ (mk_array 500 [1073741824; 1610612736]) (mk_array 400 [5; 6])).
  - vm_compute. reflexivity.
  - cbn. lia.
  - cbn. lia.
  - lia.
  - repeat constructor; rlia.
  - repeat constructor; rlia.
  - vm_compute. reflexivity.
  - split; [|split]; vm_compute; reflexivity.
Defined.

Lemma q15_average_setup :
  ma_setup Q15 q15_target 32 100 200 3 (mk_moving_average (mk_array 1 []) 9 9 (mk_accum 5 5))
    (mk_moving_average (mk_array 400 [0; 0; 0]) 3 0 (mk_accum 0 0)) (mk_array 400 [5; 6; 7]) 3.
Proof. split; [lia|cbn; lia|vm_compute; reflexivity..]. Defined.

Lemma moving_average_refines_witness :
  (drive (moving_average_step (H := fixed_format Q15) q15_target 32)
     (Some (100, mk_moving_average (mk_array 400 [0; 0; 0]) 3 0 (mk_accum 0 0))) (Some (200, 7)) [32767; -32768; 1000; 5]).1
  = map success [10922; 0; 333; -10588].
Proof.
  rewrite (moving_average_refines_mean _ _ _ _ _ _ _ _ _ _ _ _ q15_average_setup);
    [vm_compute; reflexivity|repeat constructor; rlia].
Defined.

Lemma moving_average_settles_witness :
  last (drive (moving_average_step (H := fixed_format Q15) q15_target 32)
     (Some (100, mk_moving_average (mk_array 400 [0; 0; 0]) 3 0 (mk_accum 0 0))) (Some (200, 7))
     ([32767; -32768] ++ replicate 3 1000)).1 (LINEARS_ERROR_ARGUMENT, None) = success 1000.
Proof.
  apply (moving_average_settles _ _ _ _ _ _ _ _ _ _ _ _ _ q15_average_setup); [repeat constructor; rlia|cbn; rlia].
Defined.
