(* ===== verification/FilterMedian.v ===== *)
(** * The median filter against a reference sort

    The insertion sort of filters_impl.h sorts its scratch array in place; the
    step returns the middle of the sorted history, or the mean of the two middle
    samples rounded once. *)
From stdpp Require Import sorting.
From S2P Require Import Prelude MachineInt Status Wide Numeric FcMonad Cordic FcVariants FilterBase Filters.
From S2P Require Import FilterSpec FilterRing.

Section Sort.
Variable f : q_format.
Implicit Types (P R : list Z) (k p v : Z).

#[local] Instance sort_format : FilterFormat Z Z := fixed_format f.

Lemma field_compare p k : q_repr f p -> q_repr f k ->
  (linears_fixed_compare (fcq_field f p) (fcq_field f k) <=? 0) = (p <=? k).
Proof.
  intros Hp Hk. change (linears_fixed_compare (fcq_field f p) (fcq_field f k)) with (fcq_cmp (fcq_field f p) (fcq_field f k)).
  rewrite fcq_cmp_sign. pose proof (fcq_field_mono f p k Hp Hk).
  destruct (Z.leb_spec p k); [apply Z.leb_le|apply Z.leb_gt]; lia.
Qed.

(** The inner loop opens a slot for the key: below it nothing exceeds the key, above it everything does. *)
Lemma shift_larger_ok P k : Forall (q_repr f) P -> q_repr f k -> forall y R,
  exists j ws', shift_larger (length P) (fcq_field f k) (P ++ y :: R) = (LINEARS_OK, (j, ws')) /\
    (j <= length P)%nat /\ (forall v, <[j := v]> ws' = take j P ++ v :: drop j P ++ R) /\
    (forall i, (0 < j)%nat -> i = (j - 1)%nat -> nth i P 0 <= k) /\ Forall (fun p => k < p) (drop j P).
Proof.
  intros HP Hk. induction P as [|p P IH] using rev_ind; intros y R.
  - exists O, (y :: R). split; [done|]. split; [lia|]. split; [intros v; reflexivity|]. split; [lia|constructor].
  - apply Forall_app in HP as [HP [Hp _]%Forall_cons_1]. rewrite length_app. cbn [length]. rewrite Nat.add_1_r.
    cbn [shift_larger].
    assert (nth (length P) ((P ++ [p]) ++ y :: R) 0 = p) as En.
    { rewrite <- app_assoc, app_nth2, Nat.sub_diag by lia. done. }
    cbn [F_LOAD F_ZERO_S F_CMP sort_format fixed_format]. rewrite En, (field_compare p k Hp Hk).
    destruct (Z.leb_spec p k).
    + exists (S (length P)), ((P ++ [p]) ++ y :: R). split; [done|]. split; [lia|].
      assert (length (P ++ [p]) = S (length P)) as Hl by (rewrite length_app; cbn; lia).
      split; [intros v|split; [intros i _ ->|]].
      * rewrite insert_app_r_alt, Hl, Nat.sub_diag by lia. rewrite take_ge, drop_ge by lia. reflexivity.
      * rewrite Nat.sub_succ, Nat.sub_0_r, app_nth2, Nat.sub_diag by lia. done.
      * rewrite drop_ge by lia. constructor.
    + assert (<[S (length P) := p]> ((P ++ [p]) ++ y :: R) = P ++ p :: p :: R) as ->.
      { rewrite insert_app_r_alt; rewrite length_app; cbn [length]; [|lia].
        replace (S (length P) - (length P + 1))%nat with 0%nat by lia. by rewrite <- app_assoc. }
      destruct (IH HP p (p :: R)) as (j & ws' & -> & Hj & Hins & Hbelow & Habove).
      exists j, ws'. split; [done|]. split; [lia|]. split; [|split].
      * intros v. rewrite Hins, take_app_le, drop_app_le by lia. by rewrite <- app_assoc.
      * intros i H0 ->. rewrite app_nth1 by lia. by apply Hbelow.
      * rewrite drop_app_le by lia. apply Forall_app. split; [done|]. by repeat constructor.
Qed.

Lemma sorted_insert P k j : StronglySorted Z.le P -> (j <= length P)%nat ->
  (forall i, (0 < j)%nat -> i = (j - 1)%nat -> nth i P 0 <= k) -> Forall (fun p => k < p) (drop j P) ->
  StronglySorted Z.le (take j P ++ k :: drop j P).
Proof.
  intros HP Hj Hb Ha. rewrite <- (take_drop j P) in HP. apply StronglySorted_app in HP as (Hc & H1 & H2).
  assert (Forall (fun p => p <= k) (take j P)) as Hk.
  { destruct j as [|j]; [constructor|]. specialize (Hb j ltac:(lia) ltac:(lia)).
    destruct (nth_lookup_or_length P j 0) as [E|]; [|lia]. rewrite (take_S_r _ _ _ E) in H1 |- *.
    apply Forall_app. split; [|by constructor]. apply StronglySorted_app in H1 as (Hc1 & _ & _).
    apply Forall_forall. intros p Hp. etransitivity; [|exact Hb]. apply Hc1; [by apply list_elem_of_In|].
    apply list_elem_of_In. by left. }
  apply StronglySorted_app. split; [|split; [done|]].
  - intros a b Ha' Hb'. apply list_elem_of_In in Ha', Hb'. rewrite Forall_forall in Hk, Ha.
    destruct Hb' as [->|Hb']; [by apply Hk|]. specialize (Hk _ Ha'). specialize (Ha _ Hb'). lia.
  - constructor; [done|]. refine (Forall_impl _ _ Ha). intros. lia.
Qed.

(** The outer loop: a sorted prefix grows to the whole window. *)
Lemma insertion_sort_ok Q : forall P R, Forall (q_repr f) (P ++ Q) -> StronglySorted Z.le P ->
  exists S, insertion_sort (length P) (length Q) (P ++ Q ++ R) = (LINEARS_OK, S ++ R) /\
    StronglySorted Z.le S /\ Permutation S (P ++ Q).
Proof.
  induction Q as [|k Q IH]; intros P R Hr Hs.
  - exists P. cbn. rewrite app_nil_r. done.
  - cbn [length insertion_sort app].
    assert (nth (length P) (P ++ k :: Q ++ R) F_ZERO_S = k) as ->.
    { rewrite app_nth2, Nat.sub_diag by lia. done. }
    change (F_LOAD k) with (inr (fcq_field f k) : attempt Z). cbv iota beta.
    apply Forall_app in Hr as [HP HQ]. apply Forall_cons_1 in HQ as [Hk HQ].
    destruct (shift_larger_ok P k HP Hk k (Q ++ R)) as (j & ws' & E & Hj & Hins & Hb & Ha).
    rewrite E. cbn [fst snd status_ok]. rewrite Hins.
    pose proof (sorted_insert P k j Hs Hj Hb Ha) as Hs'.
    set (P' := take j P ++ k :: drop j P) in *.
    assert (Permutation P' (k :: P)) as Hp.
    { unfold P'. rewrite <- Permutation_middle. by rewrite take_drop. }
    destruct (IH P' R) as (T & ET & HT & HpT); [|done|].
    { apply Forall_app. split; [|done]. rewrite Hp. by constructor. }
    assert (length P' = S (length P)) as Hl by (by rewrite Hp).
    exists T. replace (take j P ++ k :: drop j P ++ Q ++ R) with (P' ++ Q ++ R)
      by (unfold P'; by rewrite <- app_assoc).
    rewrite <- Hl. split; [exact ET|]. split; [done|]. rewrite HpT, Hp. cbn. by rewrite Permutation_middle.
Qed.
End Sort.

(** ** The reference: the middle of the sorted history *)

Definition sorted_middle (n : nat) (sorted : list Z) : Z :=
  if (n mod 2 =? 0)%nat then div_nearest (nth (n / 2 - 1) sorted 0 + nth (n / 2) sorted 0) 2
  else nth (n / 2) sorted 0.

Fixpoint median_model (n : nat) (h inputs : list Z) : list Z :=
  match inputs with
  | [] => []
  | x :: rest => sorted_middle n (merge_sort Z.le (shift_in n x h)) :: median_model n (shift_in n x h) rest
  end.

Section Median.
Variable f : q_format.
Variable n : nat.
Hypothesis Hn : (0 < n)%nat.

#[local] Instance median_format : FilterFormat Z Z := fixed_format f.

(** The mean of two signals through the wide working type is their mean, rounded once. *)
Lemma fixed_middle_ok l r : q_repr f l -> q_repr f r ->
  exists w, fixed_middle (fcq_field f l) (fcq_field f r) (2 * LINEARS_FIXED_ONE) = inr w /\
    fixed_export f w = inr (div_nearest (l + r) 2).
Proof.
  intros Hl Hr. pose proof (fcq_field_range f l Hl) as Bl. pose proof (fcq_field_range f r Hr) as Br.
  set (w := div_nearest (fcq_field f l + fcq_field f r) 2).
  assert (- LINEARS_FIXED_ONE <= w <= LINEARS_FIXED_ONE) as Bw by (apply div_nearest_between; lia).
  exists w. unfold LINEARS_FIXED_ONE in Bl, Br, Bw. split.
  - unfold fixed_middle, fixed_op.
    destruct (linears_fixed_ops_exact (fcq_field f l) (fcq_field f r) (Some 0)) as (_ & -> & _); [rlia..|].
    rewrite result_of_deliver, fits_i64_true by rlia. cbn [mbind attempt_bind].
    rewrite linears_fixed_div_exact by (unfold LINEARS_FIXED_ONE; rlia).
    rewrite (div_nearest_cancel _ 2 LINEARS_FIXED_ONE) by done. fold w.
    change (2 * LINEARS_FIXED_ONE =? 0) with false. cbv iota.
    rewrite result_of_deliver, fits_i64_true by rlia. done.
  - rewrite fixed_export_eq by rlia. unfold in_unit_interval, LINEARS_FIXED_ONE.
    rewrite (proj2 (Z.leb_le _ _)), (proj2 (Z.leb_le _ _)) by lia. cbn [andb]. f_equal.
    assert (- 2 ^ q_bits f <= div_nearest (l + r) 2 <= 2 ^ q_bits f - 1) as Bm.
    { apply q_repr_range in Hl, Hr. apply div_nearest_between; lia. }
    unfold w, q_round. rewrite !fcq_field_scale, <- Z.mul_add_distr_r by done.
    destruct f; cbn [q_bits] in *.
    + change (2 ^ (31 - 15)) with (32768 * 2). rewrite Z.mul_assoc, div_nearest_1 by done.
      change 65536 with (2 * 32768). rewrite div_nearest_cancel by done.
      unfold endpoint. by rewrite (proj2 (Z.eqb_neq _ _)) by lia.
    + change (2 ^ (31 - 31)) with 1. rewrite Z.mul_1_r.
      unfold endpoint. by rewrite (proj2 (Z.eqb_neq _ _)) by lia.
Qed.

Record median_holds (state_base workspace_base : Z) (c : median Z) (h : list Z) : Prop := {
  m_state : base (med_state c) = state_base;
  m_workspace : base (med_workspace c) = workspace_base;
  m_window : med_window c = n;
  m_head : (med_head c < n)%nat;
  m_length : (n <= length (cells (med_state c)))%nat;
  m_scratch : (n <= length (cells (med_workspace c)))%nat;
  m_history : history (cells (med_state c)) (med_head c) n = h;
  m_repr : Forall (q_repr f) h;
}.

Lemma median_of_ok T R : length T = n -> Forall (q_repr f) T ->
  median_of (T ++ R) n = inr (sorted_middle n T).
Proof.
  intros Hl HT. unfold median_of, sorted_middle.
  assert (n / 2 < n)%nat by (apply Nat.div_lt; lia).
  rewrite !app_nth1 by lia.
  destruct (n mod 2 =? 0)%nat; [|done].
  destruct (fixed_middle_ok (nth (n / 2 - 1) T 0) (nth (n / 2) T 0)) as (w & E & Ew);
    [eapply Forall_nth; [exact HT|lia]..|].
  change (F_COUNT 2) with (inr (2 * LINEARS_FIXED_ONE) : attempt Z).
  cbn [F_LOAD F_MIDDLE F_STORE median_format fixed_format mbind attempt_bind F_ZERO_S].
  rewrite E. cbn [mbind attempt_bind]. exact Ew.
Qed.

(** One step: the middle of the sorted shifted history. *)
Lemma median_step_ok b wb c h x : median_holds b wb c h -> q_repr f x ->
  exists c', median_step_work c x = (LINEARS_OK, (c', Some (sorted_middle n (merge_sort Z.le (shift_in n x h))))) /\
    median_holds b wb c' (shift_in n x h).
Proof.
  intros [Hb Hw Hwin Hh Hl Hs Hhist Hr] Hx. unfold median_step_work.
  change (F_LOAD x) with (inr (fcq_field f x) : attempt Z). cbv iota beta zeta. rewrite Hwin.
  set (st := <[med_head c := x]> (cells (med_state c))).
  assert (history st (advance (med_head c) n) n = shift_in n x h) as Hnext.
  { unfold st. rewrite history_push by done. by rewrite Hhist. }
  assert (n <= length st)%nat as Hst by (unfold st; by rewrite length_insert).
  assert (Permutation (shift_in n x h) (take n st)) as HP.
  { rewrite <- Hnext. apply history_perm; [by apply advance_bound|done]. }
  assert (Forall (q_repr f) (shift_in n x h)) as Hr' by (constructor; [done|by apply Forall_take]).
  set (R := drop n (cells (med_workspace c))).
  assert (length (take n st) = n) as HT by (rewrite length_take; lia).
  destruct (take n st) as [|t0 Q] eqn:ET; [cbn in HT; lia|].
  assert (Forall (q_repr f) ([t0] ++ Q)) as HQ by (cbn [app]; by rewrite <- HP).
  destruct (insertion_sort_ok f Q [t0] R HQ) as (T & E & HTs & HTp); [by repeat constructor|].
  cbn [length app] in E, HTp. replace (n - 1)%nat with (length Q) by (cbn in HT; lia).
  cbn [app]. change (sort_format f) with median_format in E. rewrite E. cbn [fst snd status_ok].
  assert (T = merge_sort Z.le (shift_in n x h)) as ->.
  { apply (StronglySorted_unique Z.le); [done|apply (StronglySorted_merge_sort Z.le)|].
    by rewrite merge_sort_Permutation, HTp, HP. }
  rewrite median_of_ok; [|by rewrite HTp|by rewrite HTp].
  eexists. split; [reflexivity|].
  assert (length (merge_sort Z.le (shift_in n x h)) = n) as HM by (by rewrite HTp).
  split; cbn [med_state med_workspace med_window med_head base cells write with_scratch]; try done;
    [by apply advance_bound|]. rewrite length_app. lia.
Qed.

(** The output cell meets neither the context nor its arrays. *)
Definition median_disjoint (target : filter_abi) (sizeof_ctx px po state_base workspace_base : Z) : Prop :=
  filters_overlap px sizeof_ctx po (sizeof_signal target) = false /\
  filters_overlap po (sizeof_signal target) state_base (Z.of_nat n * sizeof_signal target) = false /\
  filters_overlap po (sizeof_signal target) workspace_base (Z.of_nat n * sizeof_signal target) = false.

Lemma median_drive_ok target sizeof_ctx px po b wb : median_disjoint target sizeof_ctx px po b wb ->
  forall inputs c h o, median_holds b wb c h -> Forall (q_repr f) inputs ->
  (drive (median_step target sizeof_ctx) (Some (px, c)) (Some (po, o)) inputs).1
    = map success (median_model n h inputs).
Proof.
  intros (D1 & D2 & D3) inputs. induction inputs as [|x rest IH]; intros c h o Hc Hin; [done|].
  apply Forall_cons_1 in Hin as [Hx Hin]. cbn [drive median_model map].
  destruct (median_step_ok b wb c h x Hc Hx) as (c' & E & Hc').
  assert (median_step target sizeof_ctx (Some (px, c)) x (Some (po, o)) =
    (LINEARS_OK, (Some (px, c'), Some (po, sorted_middle n (merge_sort Z.le (shift_in n x h)))))) as ->.
  { apply with_output_ok; [done|]. destruct Hc as [Hb Hw Hwin _ _ _ _ _].
    cbv beta zeta. rewrite Hb, Hw, Hwin, D2, D3. exact E. }
  cbn. f_equal. by apply IH.
Qed.
End Median.

(** C27. A median filter is a sort: initialized with a window of n slots, it returns for every sample
    the middle of the last n samples (zeros before the first) sorted by a reference merge sort, for
    an even window the mean of the two middle ones rounded once; it never fails. *)
Theorem median_refines_sort (f : q_format) (target : filter_abi) (sizeof_ctx px po : Z) (n : nat)
    (old c : median Z) (state workspace : array Z) (capacity scratch o : Z) (inputs : list Z) :
  Z.of_nat n <= capacity <= Z.of_nat (length (cells state)) ->
  Z.of_nat n <= scratch <= Z.of_nat (length (cells workspace)) ->
  median_init (H := fixed_format f) target sizeof_ctx (Some (px, old)) (Z.of_nat n) (Some state) capacity
    (Some workspace) scratch = (LINEARS_OK, Some (px, c)) ->
  median_disjoint n target sizeof_ctx px po (base state) (base workspace) -> Forall (q_repr f) inputs ->
  (drive (median_step (H := fixed_format f) target sizeof_ctx) (Some (px, c)) (Some (po, o)) inputs).1
    = map success (median_model n (replicate n 0) inputs).
Proof.
  intros Hcap Hscr Hinit Hdis Hin.
  assert (median_holds f n (base state) (base workspace) c (replicate n 0) /\ (0 < n)%nat) as [Hholds Hpos].
  { revert Hinit. unfold median_init. intros E. injection E as E1 E2.
    pose proof (finish_eq _ _ _ E1 E2) as E.
    apply finish_array_size in E as [Hz E]. apply finish_refuse in E as [_ E]; [|done].
    apply finish_refuse in E as [_ E]; [|done]. rewrite Nat2Z.id in E. injection E as <-. split; [|lia].
    destruct (history_clear state n ltac:(lia)) as [H1 H2].
    split; cbn; [done|done|done|lia|exact H1|lia|exact H2|].
    apply Forall_replicate. destruct f; cbn; rlia. }
  by apply (median_drive_ok f n Hpos target sizeof_ctx px po (base state) (base workspace)).
Qed.

(** An even window: the mean of the two middle samples, halves away from zero. *)
Lemma median_refines_witness :
  (drive (median_step (H := fixed_format Q15) q15_target 32)
     (Some (100, mk_median (mk_array 400 [0; 0]) (mk_array 600 [5; 6]) 2 0)) (Some (200, 7)) [1001; 30; 32767; -5]).1
  = map success [501; 516; 16399; 16381].
Proof.
  rewrite (median_refines_sort Q15 q15_target 32 100 200 2 (mk_median (mk_array 1 []) (mk_array 1 []) 9 9)
    _ (mk_array 400 [5; 6]) (mk_array 600 [5; 6]) 2 2).
  - vm_compute. reflexivity.
  - cbn. lia.
  - cbn. lia.
  - vm_compute. reflexivity.
  - split; [|split]; vm_compute; reflexivity.
  - repeat constructor; rlia.
Defined.
