(* ===== verification/FilterBiquad.v ===== *)
(** * The biquad cascade against its exact recurrences

    Each section is the transposed direct form II: y = b0 v + s1,
    s1' = b1 v - a1 y + s2, s2' = b2 v - a2 y, each sum kept exact and rounded
    once.  The cascade runs on the caller's scratch array and commits the new
    states only when every section stayed in range. *)
From S2P Require Import Prelude MachineInt Status Wide Numeric FcMonad Cordic FcVariants FilterBase Filters.
From S2P Require Import FilterSpec FilterRing.

Lemma all_sections_fixed (f : q_format) (values : list (biquad_coefficients Z)) :
  all_sections (H := fixed_format f) values = inr tt.
Proof. by induction values. Qed.

(** ** The reference *)

(** The F31 value of an exact sum of products, and the signal it is exported as. *)
Definition f31 (V : Z) : Z := div_nearest V (2 ^ 31).

(** A section on the sample v: its output, its working output and its next two states. *)
Record section_sums := mk_sums { sum_y : Z; sum_1 : Z; sum_2 : Z }.

Definition section_exact (c : biquad_coefficients Z) (s : Z * Z) (v : Z) : section_sums :=
  let Y := b0 c * v + LINEARS_FIXED_ONE * s.1 in
  mk_sums Y (b1 c * v - a1 c * f31 Y + LINEARS_FIXED_ONE * s.2) (b2 c * v - a2 c * f31 Y).

Definition section_fits (r : section_sums) : bool :=
  in_unit_interval (sum_y r) (2 ^ 62) && fits_i64 (f31 (sum_1 r)) && fits_i64 (f31 (sum_2 r)).

(** The cascade: the signal of each section feeds the next; None when one is out of range. *)
Fixpoint cascade (f : q_format) (cs : list (biquad_coefficients Z)) (h : list (Z * Z)) (x : Z)
    : option (Z * list (Z * Z)) :=
  match cs, h with
  | c :: cs, s :: h =>
      let r := section_exact c s (fcq_field f x) in
      if section_fits r then
        match cascade f cs h (fir_value f (sum_y r)) with
        | Some (y, h') => Some (y, (f31 (sum_1 r), f31 (sum_2 r)) :: h')
        | None => None
        end
      else None
  | _, _ => Some (x, [])
  end.

Fixpoint biquad_model (f : q_format) (cs : list (biquad_coefficients Z)) (h : list (Z * Z)) (o : Z) (inputs : list Z)
    : list (linears_status_t * option Z) :=
  match inputs with
  | [] => []
  | x :: rest =>
      match cascade f cs h x with
      | Some (y, h') => (LINEARS_OK, Some y) :: biquad_model f cs h' y rest
      | None => (LINEARS_ERROR_RANGE, Some o) :: biquad_model f cs h o rest
      end
  end.

(** The state array: two cells per section. *)
Definition flatten (h : list (Z * Z)) : list Z := concat (map (fun s => [s.1; s.2]) h).

Lemma flatten_app h k : flatten (h ++ k) = flatten h ++ flatten k.
Proof. unfold flatten. by rewrite map_app, concat_app. Qed.

Lemma flatten_length h : length (flatten h) = (2 * length h)%nat.
Proof. induction h as [|s h IH]; [done|]. cbn in *. fold (flatten h). unfold flatten in *. lia. Qed.

Lemma flatten_zeros n : flatten (replicate n (0, 0)) = replicate (2 * n) 0.
Proof.
  induction n as [|n IH]; [done|]. replace (2 * S n)%nat with (S (S (2 * n))) by lia.
  cbn [replicate flatten map concat app fst snd]. do 2 f_equal. exact IH.
Qed.

(** The two cells of the section after those of [P]. *)
Lemma flatten_nth (P : list (Z * Z)) a b R :
  nth (2 * length P) (flatten P ++ a :: b :: R) 0 = a /\ nth (2 * length P + 1) (flatten P ++ a :: b :: R) 0 = b.
Proof.
  rewrite <- (flatten_length P). split.
  - by rewrite app_nth2, Nat.sub_diag by lia.
  - rewrite app_nth2 by lia. by replace (length (flatten P) + 1 - length (flatten P))%nat with 1%nat by lia.
Qed.

Lemma flatten_insert (P : list (Z * Z)) u v a b R :
  <[(2 * length P + 1)%nat := b]> (<[(2 * length P)%nat := a]> (flatten P ++ u :: v :: R))
    = flatten (P ++ [(a, b)]) ++ R.
Proof.
  rewrite <- (flatten_length P), flatten_app, <- app_assoc.
  rewrite insert_app_r_alt, Nat.sub_diag by lia. cbn [insert list_insert].
  rewrite insert_app_r_alt by lia.
  by replace (length (flatten P) + 1 - length (flatten P))%nat with 1%nat by lia.
Qed.

Section Biquad.
Variable f : q_format.

#[local] Instance biquad_format : FilterFormat Z Z := fixed_format f.

Definition section_i64 (c : biquad_coefficients Z) : Prop :=
  is_i64 (b0 c) /\ is_i64 (b1 c) /\ is_i64 (b2 c) /\ is_i64 (a1 c) /\ is_i64 (a2 c).

(** A product of int64_t values, one of them at most 2^31 in magnitude. *)
Lemma product_bound a b : is_i64 a -> Z.abs b <= LINEARS_FIXED_ONE -> Z.abs (a * b) <= 2 ^ 94.
Proof.
  intros Ha Hb. rewrite Z.abs_mul. change (2 ^ 94) with (9223372036854775808 * 2147483648).
  unfold LINEARS_FIXED_ONE in Hb. apply Z.mul_le_mono_nonneg; rlia.
Qed.

Lemma fixed_section_ok c s v : section_i64 c -> is_i64 s.1 -> is_i64 s.2 -> Z.abs v <= LINEARS_FIXED_ONE ->
  let r := section_exact c s v in
  fixed_section f (b0 c) (b1 c) (b2 c) (a1 c) (a2 c) v s.1 s.2 =
  if section_fits r then inr (fir_value f (sum_y r), f31 (sum_1 r), f31 (sum_2 r)) else inl LINEARS_ERROR_RANGE.
Proof.
  intros (H0 & H1 & H2 & H3 & H4) Hs1 Hs2 Hv r. destruct acc_zero_ok as [Hz Vz].
  assert (is_i64 v) as Hvi by (unfold LINEARS_FIXED_ONE in Hv; rlia).
  assert (forall s, is_i64 s -> Z.abs (LINEARS_FIXED_ONE * s) <= 2 ^ 94) as Hone.
  { intros s' Hs'. rewrite Z.mul_comm. by apply product_bound. }
  pose proof (product_bound _ v H0 Hv) as P0. pose proof (product_bound _ v H1 Hv) as P1.
  pose proof (product_bound _ v H2 Hv) as P2. pose proof (Hone _ Hs1) as O1. pose proof (Hone _ Hs2) as O2.
  change (2 ^ 94) with 19807040628566084398385987584 in *.
  unfold fixed_section.
  destruct (mac_ok acc_zero (b0 c) v) as (t & -> & Ht & Vt); [done..|unfold is_i128, two127; lia|].
  rewrite Vz, Z.add_0_l in Vt. cbn [mbind attempt_bind].
  destruct (mac_ok t LINEARS_FIXED_ONE s.1) as (y & -> & Hy & Vy); [done|exact one_i64|done|unfold is_i128, two127; lia|].
  cbn [mbind attempt_bind]. rewrite accum_export_eq, accum_to_fixed_eq by done.
  assert (accum_value y = sum_y r) as -> by (rewrite Vy, Vt; reflexivity).
  unfold section_fits. destruct (in_unit_interval (sum_y r) (2 ^ 62)) eqn:EY; [|done]. cbn [andb mbind attempt_bind].
  fold (f31 (sum_y r)).
  assert (Z.abs (f31 (sum_y r)) <= LINEARS_FIXED_ONE) as Hf.
  { apply andb_true_iff in EY. rewrite !Z.leb_le in EY. apply Z.abs_le. unfold f31, LINEARS_FIXED_ONE.
    apply div_nearest_between; [done|]. change (2 ^ 62) with 4611686018427387904 in EY.
    change (2 ^ 31) with 2147483648. lia. }
  pose proof (product_bound _ _ H3 Hf) as P3. pose proof (product_bound _ _ H4 Hf) as P4.
  change (2 ^ 94) with 19807040628566084398385987584 in *.
  assert (is_i64 (f31 (sum_y r))) as Hfi by (unfold LINEARS_FIXED_ONE in Hf; rlia).
  rewrite (proj2 (fits_i64_spec _) Hfi). cbn [mbind attempt_bind].
  destruct (mac_ok acc_zero (b1 c) v) as (t1 & -> & Ht1 & Vt1); [done..|unfold is_i128, two127; lia|].
  cbn [mbind attempt_bind]. rewrite Vz, Z.add_0_l in Vt1.
  destruct (msu_ok t1 (a1 c) (f31 (sum_y r))) as (t2 & -> & Ht2 & Vt2); [done..|unfold is_i128, two127; lia|].
  cbn [mbind attempt_bind].
  destruct (mac_ok t2 LINEARS_FIXED_ONE s.2) as (t3 & -> & Ht3 & Vt3); [done|exact one_i64|done|unfold is_i128, two127; lia|].
  cbn [mbind attempt_bind]. rewrite accum_to_fixed_eq by done.
  assert (accum_value t3 = sum_1 r) as -> by (rewrite Vt3, Vt2, Vt1; reflexivity).
  fold (f31 (sum_1 r)). destruct (fits_i64 (f31 (sum_1 r))); [|done]. cbn [andb mbind attempt_bind].
  destruct (mac_ok acc_zero (b2 c) v) as (t4 & -> & Ht4 & Vt4); [done..|unfold is_i128, two127; lia|].
  cbn [mbind attempt_bind]. rewrite Vz, Z.add_0_l in Vt4.
  destruct (msu_ok t4 (a2 c) (f31 (sum_y r))) as (t5 & -> & Ht5 & Vt5); [done..|unfold is_i128, two127; lia|].
  cbn [mbind attempt_bind]. rewrite accum_to_fixed_eq by done.
  assert (accum_value t5 = sum_2 r) as -> by (rewrite Vt5, Vt4; reflexivity).
  fold (f31 (sum_2 r)). by destruct (fits_i64 (f31 (sum_2 r))).
Qed.

Definition states_i64 (h : list (Z * Z)) : Prop := Forall (fun s => is_i64 s.1 /\ is_i64 s.2) h.

Lemma fir_value_repr V : in_unit_interval V (2 ^ 62) = true -> q_repr f (fir_value f V).
Proof.
  intros HV%andb_true_iff. rewrite !Z.leb_le in HV. apply q_repr_range. unfold fir_value, endpoint.
  assert (- 2 ^ q_bits f <= div_nearest V (2 ^ (62 - q_bits f)) <= 2 ^ q_bits f) as Hb.
  { apply div_nearest_between; [by destruct f|]. change (2 ^ 62) with 4611686018427387904 in HV.
    destruct f; cbn [q_bits];
      [change (2 ^ 15) with 32768; change (2 ^ (62 - 15)) with 140737488355328
      |change (2 ^ 31) with 2147483648; change (2 ^ (62 - 31)) with 2147483648]; lia. }
  assert (0 < 2 ^ q_bits f) by (by destruct f). case_if; lia.
Qed.

Lemma cascade_states cs : forall h x y h', length cs = length h ->
  cascade f cs h x = Some (y, h') -> length h' = length h /\ states_i64 h'.
Proof.
  induction cs as [|c cs IH]; intros [|s h] x y h' Hl E; cbn in Hl; try lia; cbn [cascade] in E.
  - injection E as <- <-. split; [done|constructor].
  - cbv zeta in E. destruct (section_fits _) eqn:Ef; [|done].
    destruct (cascade f cs h _) as [[y' k]|] eqn:Ec; [|done]. injection E as <- <-.
    apply IH in Ec as [Hk Hi]; [|lia]. split; [cbn; lia|]. constructor; [|done].
    apply andb_true_iff in Ef as [[_ E1]%andb_true_iff E2]. by rewrite !fits_i64_spec in *.
Qed.

(** The loop over the sections that remain after those of [P], with [W] the unwritten scratch. *)
Lemma biquad_loop_ok ctx Q : forall (P done_states : list (Z * Z)) (pre C post : list (biquad_coefficients Z)) x W R,
  cells (bq_state ctx) = flatten (done_states ++ Q) ++ R -> length done_states = length P ->
  cells (bq_coefficients ctx) = pre ++ C ++ post -> length pre = length P -> length C = length Q ->
  (2 * length Q <= length W)%nat -> Forall section_i64 C -> states_i64 Q -> q_repr f x ->
  let r := biquad_loop ctx (length P) (length Q) (fcq_field f x) x (flatten P ++ W) in
  match cascade f C Q x with
  | Some (y, h') => r = (LINEARS_OK, (y, flatten (P ++ h') ++ drop (2 * length Q) W))
  | None => r.1 = LINEARS_ERROR_RANGE /\ length r.2.2 = length (flatten P ++ W)
  end.
Proof.
  induction Q as [|s Q IH]; intros P k pre C post x W R HS Hk HC Hpre Hl HW HCi HQ Hx.
  - destruct C; [|done]. cbn. rewrite app_nil_r, drop_0. done.
  - destruct C as [|c C]; [done|]. cbn [length] in *. destruct W as [|u [|v W]]; cbn [length] in HW; try lia.
    apply Forall_cons_1 in HCi as [Hc HCi]. apply Forall_cons_1 in HQ as [[Hs1 Hs2] HQ].
    assert (Z.abs (fcq_field f x) <= LINEARS_FIXED_ONE) as Hv by (pose proof (fcq_field_range f x Hx); lia).
    pose proof (fixed_section_ok c s (fcq_field f x) Hc Hs1 Hs2 Hv) as Hsec. cbv zeta in Hsec |- *.
    assert (biquad_section ctx (length P) (fcq_field f x) =
      fixed_section f (b0 c) (b1 c) (b2 c) (a1 c) (a2 c) (fcq_field f x) s.1 s.2) as Eb.
    { unfold biquad_section. rewrite HC, app_nth2, Hpre, Nat.sub_diag by lia. cbn [app nth].
      rewrite HS, flatten_app, <- app_assoc, <- Hk.
      destruct (flatten_nth k s.1 s.2 (flatten Q ++ R)) as [E1 E2].
      change (flatten (s :: Q) ++ R) with (s.1 :: s.2 :: flatten Q ++ R).
      change (F_ZERO) with 0. by rewrite E1, E2. }
    cbn [biquad_loop cascade]. rewrite Eb, Hsec.
    destruct (section_fits (section_exact c s (fcq_field f x))) eqn:Ef; [|done].
    set (r := section_exact c s (fcq_field f x)) in *.
    assert (q_repr f (fir_value f (sum_y r))) as Hy.
    { apply fir_value_repr. by apply andb_true_iff in Ef as [[E _]%andb_true_iff _]. }
    change (F_LOAD (fir_value f (sum_y r))) with (inr (fcq_field f (fir_value f (sum_y r))) : attempt Z).
    cbv iota beta. rewrite flatten_insert.
    specialize (IH (P ++ [(f31 (sum_1 r), f31 (sum_2 r))]) (k ++ [s]) (pre ++ [c]) C post (fir_value f (sum_y r)) W R).
    rewrite !length_app in IH. cbn [length] in IH. rewrite !Nat.add_1_r in IH.
    rewrite <- !app_assoc in IH. cbv zeta in IH.
    specialize (IH HS ltac:(lia) HC ltac:(lia) ltac:(lia) ltac:(lia) HCi HQ Hy).
    destruct (cascade f C Q (fir_value f (sum_y r))) as [[y h']|].
    + rewrite IH, <- app_assoc. do 3 f_equal. replace (2 * S (length Q))%nat with (S (S (2 * length Q))) by lia.
      done.
    + destruct IH as [E1 E2]. split; [exact E1|]. rewrite E2, !length_app, !flatten_length, length_app. cbn. lia.
Qed.

(** A context over these coefficients, with the states [h] and scratch for as many. *)
Record biquad_holds (cs : list (biquad_coefficients Z)) (bc bs bw : Z) (c : biquad Z) (h : list (Z * Z)) : Prop := {
  q_coefficients : exists post, cells (bq_coefficients c) = cs ++ post;
  q_bases : base (bq_coefficients c) = bc /\ base (bq_state c) = bs /\ base (bq_workspace c) = bw;
  q_sections : sections c = length cs;
  q_states : exists R, cells (bq_state c) = flatten h ++ R;
  q_count : length h = length cs;
  q_scratch : (2 * length cs <= length (cells (bq_workspace c)))%nat;
  q_i64 : states_i64 h;
}.

Lemma biquad_step_ok cs bc bs bw c h x : Forall section_i64 cs -> biquad_holds cs bc bs bw c h -> q_repr f x ->
  match cascade f cs h x with
  | Some (y, h') => exists c', biquad_step_work c x = (LINEARS_OK, (c', Some y)) /\ biquad_holds cs bc bs bw c' h'
  | None => exists c', biquad_step_work c x = (LINEARS_ERROR_RANGE, (c', None)) /\ biquad_holds cs bc bs bw c' h
  end.
Proof.
  intros Hcs [[post HC] (Hb1 & Hb2 & Hb3) Hsec [R HS] Hl HW Hi] Hx. unfold biquad_step_work.
  change (F_LOAD x) with (inr (fcq_field f x) : attempt Z). cbv iota beta zeta.
  pose proof (biquad_loop_ok c h [] [] [] cs post x (cells (bq_workspace c)) R) as Hloop.
  cbn [length app] in Hloop. specialize (Hloop HS eq_refl HC eq_refl ltac:(lia) ltac:(lia) Hcs Hi Hx).
  cbn [flatten map concat app] in Hloop. cbv zeta in Hloop. rewrite Hsec, <- Hl.
  destruct (cascade f cs h x) as [[y h']|] eqn:Ec.
  - rewrite Hloop. cbn [fst snd status_ok]. eexists. split; [reflexivity|].
    destruct (cascade_states _ _ _ _ _ (eq_sym Hl) Ec) as [Hk Hi'].
    split; cbn [with_workspace bq_coefficients bq_state bq_workspace sections base cells]; try done;
      [by exists post|exists (drop (2 * length h) (cells (bq_state c)))|lia|].
    + by rewrite take_app_length' by (rewrite flatten_length; lia).
    + rewrite length_app, flatten_length, length_drop. lia.
  - destruct Hloop as [-> E]. cbn [fst snd status_ok]. eexists. split; [reflexivity|].
    split; cbn [with_workspace bq_coefficients bq_state bq_workspace sections base cells]; try done;
      [by exists post|by exists R|lia].
Qed.

(** The output cell meets neither the context nor its arrays. *)
Definition biquad_disjoint (target : filter_abi) (sizeof_ctx px po bc bs bw : Z) (n : nat) : Prop :=
  filters_overlap px sizeof_ctx po (sizeof_signal target) = false /\
  filters_overlap po (sizeof_signal target) bs (Z.of_nat (2 * n) * sizeof_work target) = false /\
  filters_overlap po (sizeof_signal target) bw (Z.of_nat (2 * n) * sizeof_work target) = false /\
  filters_overlap po (sizeof_signal target) bc (Z.of_nat n * sizeof_section target) = false.

Lemma biquad_drive_ok target sizeof_ctx px po cs bc bs bw : Forall section_i64 cs ->
  biquad_disjoint target sizeof_ctx px po bc bs bw (length cs) ->
  forall inputs c h o, biquad_holds cs bc bs bw c h -> Forall (q_repr f) inputs ->
  (drive (biquad_step target sizeof_ctx) (Some (px, c)) (Some (po, o)) inputs).1 = biquad_model f cs h o inputs.
Proof.
  intros Hcs (D1 & D2 & D3 & D4) inputs. induction inputs as [|x rest IH]; intros c h o Hc Hin; [done|].
  apply Forall_cons_1 in Hin as [Hx Hin]. cbn [drive biquad_model].
  pose proof (biquad_step_ok cs bc bs bw c h x Hcs Hc Hx) as Hs.
  assert (biquad_step target sizeof_ctx (Some (px, c)) x (Some (po, o)) =
    let r := biquad_step_work c x in (r.1, (Some (px, r.2.1), Some (po, default o r.2.2)))) as ->.
  { destruct Hc as [_ (Hb1 & Hb2 & Hb3) Hsec _ _ _ _]. unfold biquad_step, with_output. cbv zeta.
    rewrite D1, Hb1, Hb2, Hb3, Hsec, D2, D3, D4. reflexivity. }
  destruct (cascade f cs h x) as [[y h']|]; destruct Hs as (c' & -> & Hc'); cbn; f_equal; by apply IH.
Qed.
End Biquad.

(** C25. A biquad cascade is its exact recurrences: initialized over int64_t sections, it computes for
    every sample each section's y = b0 v + s1 and next states from exact sums rounded once, feeding
    each section's signal to the next; when a sum leaves its range anywhere in the cascade the call
    reports RANGE, the output is kept and no section's state moves. *)
Theorem biquad_refines_cascade (f : q_format) (target : filter_abi) (sizeof_ctx px po : Z) (n : nat)
    (old c : biquad Z) (coefficients : array (biquad_coefficients Z)) (state workspace : array Z)
    (capacity scratch o : Z) (inputs : list Z) :
  (n <= length (cells coefficients))%nat ->
  capacity <= Z.of_nat (length (cells state)) -> scratch <= Z.of_nat (length (cells workspace)) ->
  Forall section_i64 (take n (cells coefficients)) -> Forall (q_repr f) inputs ->
  biquad_init (H := fixed_format f) target sizeof_ctx (Some (px, old)) (Some coefficients) (Z.of_nat n)
    (Some state) capacity (Some workspace) scratch = (LINEARS_OK, Some (px, c)) ->
  biquad_disjoint target sizeof_ctx px po (base coefficients) (base state) (base workspace) n ->
  (drive (biquad_step (H := fixed_format f) target sizeof_ctx) (Some (px, c)) (Some (po, o)) inputs).1
    = biquad_model f (take n (cells coefficients)) (replicate n (0, 0)) o inputs.
Proof.
  intros Hlen Hcap Hscr Hcs Hin Hinit Hdis.
  assert (length (take n (cells coefficients)) = n) as Ht by (rewrite length_take; lia).
  apply biquad_drive_ok with (bc := base coefficients) (bs := base state) (bw := base workspace); try done;
    [by rewrite Ht|].
  revert Hinit. unfold biquad_init. intros E. injection E as E1 E2.
  pose proof (finish_eq _ _ _ E1 E2) as E. clear E1 E2.
  apply finish_refuse in E as [Hmax E]; [|done]. apply Z.eqb_neq in Hmax.
  assert (biquad_state_count target (Z.of_nat n) = Z.of_nat (2 * n)) as En.
  { unfold biquad_state_count in *. destruct (Z.of_nat n >? _); lia. }
  rewrite En in E. apply finish_array_size in E as [Hz E]. apply finish_array_size in E as [_ E].
  apply finish_refuse in E as [[Hw1 Hw2]%orb_false_iff E]; [|done]. apply finish_refuse in E as [_ E]; [|done].
  rewrite all_sections_fixed, !Nat2Z.id in E. injection E as <-.
  rewrite Z.ltb_ge in Hw1, Hw2. destruct (history_clear state (2 * n) ltac:(lia)) as [H1 H2].
  split; cbn [bq_coefficients bq_state bq_workspace sections base cells clear].
  - exists (drop n (cells coefficients)). by rewrite take_drop.
  - done.
  - by rewrite Ht.
  - rewrite flatten_zeros. by eexists.
  - by rewrite length_replicate.
  - rewrite Ht. lia.
  - apply Forall_replicate. cbn. rlia.
Qed.

(** One section, y = v/2 + y'/2, with y' its last output. *)
Lemma biquad_refines_witness :
  (drive (biquad_step (H := fixed_format Q15) q15_target 32)
     (Some (100, mk_biquad (mk_array 500 [mk_biquad_coefficients 1073741824 0 0 (-1073741824) 0])
       (mk_array 400 [0; 0]) (mk_array 600 [5; 6]) 1)) (Some (200, 7)) [1000; 1000; -32768]).1
  = map success [500; 750; -16009].
Proof.
  rewrite (biquad_refines_cascade Q15 q15_target 32 100 200 1
    (mk_biquad (mk_array 1 []) (mk_array 1 []) (mk_array 1 []) 9) _
    (mk_array 500 [mk_biquad_coefficients 1073741824 0 0 (-1073741824) 0]) (mk_array 400 [5; 6]) (mk_array 600 [5; 6]) 2 2).
  - vm_compute. reflexivity.
  - cbn. lia.
  - cbn. lia.
  - cbn. lia.
  - apply Forall_singleton. repeat split; cbn; rlia.
  - repeat constructor; rlia.
  - vm_compute. reflexivity.
  - split; [|split; [|split]]; vm_compute; reflexivity.
Defined.
