(* ===== verification/Kalman.v ===== *)
(** * The scalar Kalman filter: libs/filters/src/kalman_scalar.c and kalman_scalar_impl.h

    Reset, predict and update over the K_ macros.  The class [KalmanFormat] is
    that macro interface; its instances are the four the file compiles.  K_TRY is
    the bind of [attempt], and the state is committed only at the end. *)
From Stdlib Require Import SpecFloat.
From S2P Require Import Prelude MachineInt Status Wide Numeric Float FcMonad Cordic FcVariants FilterBase.

(** filters_kalman_scalar_<suffix>_t *)
Record kalman (S : Type) := mk_kalman { estimate : S; covariance : S }.
Arguments mk_kalman {S}. Arguments estimate {S}. Arguments covariance {S}.

(** ** The interface: signals [S], coefficients [C], working values [W] *)

Class KalmanFormat (S C W : Type) := {
  K_LOAD : S -> attempt W;
  K_LOAD_COEFFICIENT : C -> attempt W;
  K_EXPORT : W -> attempt S;
  K_ADD : W -> W -> attempt W;
  K_MUL : W -> W -> attempt W;
  K_GAIN : W -> W -> W -> W -> attempt W;
  K_SUB_PRODUCT : W -> W -> W -> attempt W;
  K_PRODUCT_OUT : W -> W -> attempt S;
  K_SUM_PRODUCT_OUT : W -> W -> W -> attempt S;
  K_TWO_PRODUCTS_OUT : W -> W -> W -> W -> attempt S;
  K_NEGATIVE : W -> bool;
  K_NONPOSITIVE : W -> bool;
  K_ONE : W;
}.

Section Kalman.
Context {S C W : Type} `{KalmanFormat S C W}.

Definition kalman_reset_work (estimate covariance : S) : attempt (kalman S) :=
  x ← K_LOAD estimate;
  p ← K_LOAD covariance;
  refuse (K_NEGATIVE p) LINEARS_ERROR_DOMAIN;;
  next_estimate ← K_EXPORT x;
  next_covariance ← K_EXPORT p;
  mret (mk_kalman next_estimate next_covariance).

Definition kalman_reset (state : option (kalman S)) (estimate covariance : S)
    : linears_status_t * option (kalman S) :=
  with_out state (finish (kalman_reset_work estimate covariance)).

Definition kalman_predict_work (state : kalman S) (transition : C) (process_noise : S) : attempt (kalman S) :=
  x ← K_LOAD (estimate state);
  p ← K_LOAD (covariance state);
  a ← K_LOAD_COEFFICIENT transition;
  q ← K_LOAD process_noise;
  refuse (K_NEGATIVE p || K_NEGATIVE q) LINEARS_ERROR_DOMAIN;;
  next_estimate ← K_PRODUCT_OUT a x;
  ap ← K_MUL a p;
  next_covariance ← K_SUM_PRODUCT_OUT q ap a;
  mret (mk_kalman next_estimate next_covariance).

Definition kalman_predict (state : option (kalman S)) (transition : C) (process_noise : S)
    : linears_status_t * option (kalman S) :=
  with_out state (fun old => finish (kalman_predict_work old transition process_noise) old).

Definition kalman_update_work (state : kalman S) (measurement : S) (observation : C) (measurement_noise : S)
    : attempt (kalman S) :=
  x ← K_LOAD (estimate state);
  p ← K_LOAD (covariance state);
  z ← K_LOAD measurement;
  h ← K_LOAD_COEFFICIENT observation;
  r ← K_LOAD measurement_noise;
  refuse (K_NEGATIVE p || K_NONPOSITIVE r) LINEARS_ERROR_DOMAIN;;
  ph ← K_MUL p h;
  s ← K_MUL ph h;
  s ← K_ADD s r;
  refuse (K_NONPOSITIVE s) LINEARS_ERROR_DOMAIN;;
  k ← K_GAIN p h ph s;
  residual ← K_SUB_PRODUCT z h x;
  next_estimate ← K_SUM_PRODUCT_OUT x k residual;
  j ← K_SUB_PRODUCT K_ONE k h;
  jp ← K_MUL j p;
  kr ← K_MUL k r;
  next_covariance ← K_TWO_PRODUCTS_OUT jp j kr k;
  mret (mk_kalman next_estimate next_covariance).

Definition kalman_update (state : option (kalman S)) (measurement : S) (observation : C) (measurement_noise : S)
    : linears_status_t * option (kalman S) :=
  with_out state (fun old => finish (kalman_update_work old measurement observation measurement_noise) old).
End Kalman.

(** ** q15 and q31 *)

Section Fixed.
Variable f : q_format.

Definition k_fixed_sub_product (base a b : Z) : attempt Z :=
  accumulator ← mac acc_zero base LINEARS_FIXED_ONE;
  accumulator ← msu accumulator a b;
  accum_to_fixed accumulator.

Definition k_two_products (a b c d : Z) : attempt Z :=
  accumulator ← mac acc_zero a b;
  accumulator ← mac accumulator c d;
  accum_export f accumulator.

Definition k_product (a b : Z) : attempt Z :=
  accumulator ← mac acc_zero a b;
  accum_export f accumulator.

Definition k_sum_product (base a b : Z) : attempt Z := k_two_products base LINEARS_FIXED_ONE a b.

Definition fixed_kalman : KalmanFormat Z Z Z := {|
  K_LOAD := fun value => inr (fcq_field f value);
  K_LOAD_COEFFICIENT := fun value => inr value;
  K_EXPORT := fixed_export f;
  K_ADD := fun a b => fixed_op (linears_fixed_add a b);
  K_MUL := fun a b => fixed_op (linears_fixed_mul a b);
  K_GAIN := fun p h _ s => fixed_op (linears_fixed_muldiv p h s);
  K_SUB_PRODUCT := k_fixed_sub_product;
  K_PRODUCT_OUT := k_product;
  K_SUM_PRODUCT_OUT := k_sum_product;
  K_TWO_PRODUCTS_OUT := k_two_products;
  K_NEGATIVE := fun value => value <? 0;
  K_NONPOSITIVE := fun value => value <=? 0;
  K_ONE := LINEARS_FIXED_ONE;
|}.
End Fixed.

(** ** float and double *)

Section Native.
Variable f : float_format.

(** [value <= 0.0f] *)
Definition nonpositive (value : spec_float) : bool := SFleb value fzero.

Definition native_sub_product (base a b : spec_float) : attempt spec_float :=
  product ← native_mul f a b;
  native_load (fsub f base product).

Definition native_sum_product (base a b : spec_float) : attempt spec_float :=
  product ← native_mul f a b;
  native_add f base product.

Definition native_two_products (a b c d : spec_float) : attempt spec_float :=
  first ← native_mul f a b;
  second ← native_mul f c d;
  native_add f first second.

Definition native_kalman : KalmanFormat spec_float spec_float spec_float := {|
  K_LOAD := native_load;
  K_LOAD_COEFFICIENT := native_load;
  K_EXPORT := native_load;
  K_ADD := native_add f;
  K_MUL := native_mul f;
  K_GAIN := fun _ _ ph s => native_div f ph s;
  K_SUB_PRODUCT := native_sub_product;
  K_PRODUCT_OUT := native_mul f;
  K_SUM_PRODUCT_OUT := native_sum_product;
  K_TWO_PRODUCTS_OUT := native_two_products;
  K_NEGATIVE := fun value => flt value fzero;
  K_NONPOSITIVE := nonpositive;
  K_ONE := fone f;
|}.
End Native.
