(* ===== verification/KalmanSpec.v ===== *)
(** * The scalar Kalman filter: its covariance and its update

    Whatever calls are made, the covariance never turns negative: the Joseph form
    keeps the sign under rounding, in every arithmetic.  For the fixed-point
    formats the update is its exact formula, and with a direct observation it
    never fails, never overshoots and never adds uncertainty. *)
From Stdlib Require Import SpecFloat.
From S2P Require Import Prelude MachineInt Status Wide Numeric Float FcMonad Cordic FcVariants FilterBase FilterSpec Kalman.

(** ** Partial correctness of an attempt *)

Definition yields {A} (m : attempt A) (Q : A -> Prop) : Prop := forall a, m = inr a -> Q a.

Lemma yields_ret {A} (a : A) (Q : A -> Prop) : Q a -> yields (mret a) Q.
Proof. by intros HQ b [= <-]. Qed.

Lemma yields_inr {A} (a : A) (Q : A -> Prop) : Q a -> yields (inr a) Q.
Proof. by intros HQ b [= <-]. Qed.

Lemma yields_bind {A B} (m : attempt A) (k : A -> attempt B) (P : A -> Prop) (Q : B -> Prop) :
  yields m P -> (forall a, P a -> yields (k a) Q) -> yields (m ≫= k) Q.
Proof. intros Hm Hk b Hb. destruct m as [e|a]; [done|]. by apply (Hk a (Hm a eq_refl)). Qed.

Lemma yields_refuse {B} c e (k : unit -> attempt B) (Q : B -> Prop) :
  (c = false -> yields (k tt) Q) -> yields (refuse c e ≫= k) Q.
Proof. intros Hk b Hb. destruct c; [done|]. by apply (Hk eq_refl). Qed.

Lemma yields_mono {A} (m : attempt A) (P Q : A -> Prop) :
  (forall a, P a -> Q a) -> yields m P -> yields m Q.
Proof. intros HPQ Hm a Ha. by apply HPQ, Hm. Qed.

(** ** What an arithmetic promises of the signs *)

Class KalmanSigns (S C W : Type) `{KalmanFormat S C W} := {
  k_signal : S -> Prop;
  k_coefficient : C -> Prop;
  k_value : W -> Prop;
  k_load_honest s : K_LOAD s <> inl LINEARS_OK;
  k_export_honest w : K_EXPORT w <> inl LINEARS_OK;
  k_load s : k_signal s -> yields (K_LOAD s) k_value;
  k_load_coefficient c : k_coefficient c -> yields (K_LOAD_COEFFICIENT c) k_value;
  k_mul a b : k_value a -> k_value b -> yields (K_MUL a b) k_value;
  k_add a b : k_value a -> k_value b -> yields (K_ADD a b) k_value;
  k_gain p h ph s : k_value p -> k_value h -> k_value ph -> k_value s -> yields (K_GAIN p h ph s) k_value;
  k_sub_product base a b : k_value base -> k_value a -> k_value b -> yields (K_SUB_PRODUCT base a b) k_value;
  k_one : k_value K_ONE;
  k_product_out a b : k_value a -> k_value b -> yields (K_PRODUCT_OUT a b) k_signal;
  k_sum_product_out base a b : k_value base -> k_value a -> k_value b ->
    yields (K_SUM_PRODUCT_OUT base a b) k_signal;
  k_positive_nonnegative w : K_NONPOSITIVE w = false -> K_NEGATIVE w = false;
  (** A value that is not negative is exported as one. *)
  k_export w : k_value w -> yields (K_EXPORT w) (fun s => k_signal s /\
    (K_NEGATIVE w = false -> yields (K_LOAD s) (fun w => K_NEGATIVE w = false)));
  (** The two forms of the covariance keep the sign: q + (a p) a and (j p) j + (k r) k. *)
  k_predict_sign q a p ap : k_value q -> k_value a -> k_value p ->
    K_NEGATIVE q = false -> K_NEGATIVE p = false -> K_MUL a p = inr ap ->
    yields (K_SUM_PRODUCT_OUT q ap a) (fun s => k_signal s /\ yields (K_LOAD s) (fun w => K_NEGATIVE w = false));
  k_joseph_sign j p jp k r kr : k_value j -> k_value p -> k_value k -> k_value r ->
    K_NEGATIVE p = false -> K_NEGATIVE r = false -> K_MUL j p = inr jp -> K_MUL k r = inr kr ->
    yields (K_TWO_PRODUCTS_OUT jp j kr k) (fun s => k_signal s /\ yields (K_LOAD s) (fun w => K_NEGATIVE w = false));
}.

(** ** The native instances *)

Section NativeSigns.
Variable f : float_format.
Implicit Types a b p x y : spec_float.

(** Not below zero: positive, a zero, or not a number. *)
Definition sign_ok x : Prop :=
  match x with S754_finite true _ _ | S754_infinity true => False | _ => True end.

Lemma flt_zero x : flt x fzero = false <-> sign_ok x.
Proof. by destruct x as [[]|[]| |[] m e]. Qed.

(** The sign of a rounded value is the sign it was rounded with. *)
Lemma round_aux_sign s m e l :
  match binary_round_aux (prec f) (emax f) s m e l with
  | S754_zero t | S754_infinity t | S754_finite t _ _ => t = s
  | S754_nan => True
  end.
Proof.
  unfold binary_round_aux. destruct (shr_fexp _ _ _ _ _) as [mrs e1]. destruct (shr_fexp _ _ _ _ _) as [mrs' e2].
  destruct (shr_m mrs'); auto. by case_if.
Qed.

Lemma square_sign p a : sign_ok p -> isfinite a = true -> isfinite p = true ->
  sign_ok (fmul f (fmul f a p) a).
Proof.
  intros Hp Ha Hf. destruct a as [sa|sa| |sa ma ea], p as [sp|sp| |sp mp ep]; try done.
  cbn in Hp. destruct sp; [done|]. unfold fmul at 2. cbn [SFmul]. rewrite xorb_false_r.
  pose proof (round_aux_sign sa (Zpos (ma * mp)) (ea + ep) loc_Exact) as Hs.
  destruct (binary_round_aux _ _ _ _ _ _) as [t|t| |t m e]; try done; subst t; unfold fmul; cbn [SFmul];
    rewrite ?xorb_nilpotent; [done|].
  pose proof (round_aux_sign false (Zpos (m * ma)) (e + ea) loc_Exact) as Hs.
  by destruct (binary_round_aux _ _ _ _ _ _); subst.
Qed.

Lemma sum_sign x y : sign_ok x -> sign_ok y -> sign_ok (fadd f x y).
Proof.
  intros Hx Hy. destruct x as [sx|[]| |[] mx ex]; destruct y as [sy|[]| |[] my ey]; try done.
  - by destruct sx, sy.
  - unfold fadd. cbn [SFadd cond_Zopp]. unfold binary_normalize, binary_round.
    destruct (Zpos _ + Zpos _) as [|m|m] eqn:Es; [done| |lia].
    match goal with |- context [let '(_, _) := ?pair in _] => destruct pair as [mz ez] end.
    pose proof (round_aux_sign false (Zpos mz) ez loc_Exact) as Hs.
    by destruct (binary_round_aux _ _ _ _ _ _); subst.
Qed.

Lemma native_load_yields x : yields (native_load x) (fun y => y = x /\ isfinite y = true).
Proof. unfold native_load. intros y. case_if; [|done]. by intros [= ->]. Qed.

Lemma native_sum_sign q p a ap : sign_ok q -> sign_ok p -> isfinite a = true -> isfinite p = true ->
  native_mul f a p = inr ap ->
  yields (native_sum_product f q ap a) (fun s => True /\ yields (native_load s) (fun w => flt w fzero = false)).
Proof.
  intros Hq Hp Ha Hf Eap. apply native_load_yields in Eap as [-> _].
  unfold native_sum_product, native_mul, native_add.
  eapply yields_bind; [apply native_load_yields|]. intros y [-> _].
  eapply yields_mono; [|apply native_load_yields]. intros v [-> _]. split; [done|].
  eapply yields_mono; [|apply native_load_yields]. intros w [-> _].
  apply flt_zero, sum_sign; [done|by apply square_sign].
Qed.

Lemma native_joseph_sign j p jp k r kr : sign_ok p -> sign_ok r ->
  isfinite j = true -> isfinite p = true -> isfinite k = true -> isfinite r = true ->
  native_mul f j p = inr jp -> native_mul f k r = inr kr ->
  yields (native_two_products f jp j kr k) (fun s => True /\ yields (native_load s) (fun w => flt w fzero = false)).
Proof.
  intros Hp Hr Hj Hpf Hk Hrf Ej Ek.
  apply native_load_yields in Ej as [-> _]. apply native_load_yields in Ek as [-> _].
  unfold native_two_products, native_mul, native_add.
  eapply yields_bind; [apply native_load_yields|]. intros y [-> _].
  eapply yields_bind; [apply native_load_yields|]. intros y' [-> _].
  eapply yields_mono; [|apply native_load_yields]. intros v [-> _]. split; [done|].
  eapply yields_mono; [|apply native_load_yields]. intros w [-> _].
  apply flt_zero, sum_sign; by apply square_sign.
Qed.

(** One is finite in every format that has it. *)
Variable one_finite : isfinite (fone f) = true.

#[export] Instance native_signs : @KalmanSigns _ _ _ (native_kalman f).
Proof.
  refine {| k_signal := fun _ => True; k_coefficient := fun _ => True;
            k_value := fun x => isfinite x = true |}; cbn; intros;
    try solve [eapply yields_mono; [|apply native_load_yields]; by intros ? []].
  - unfold native_load. by case_if.
  - unfold native_load. by case_if.
  - unfold native_sub_product. eapply yields_bind; [apply native_load_yields|]. intros y _.
    eapply yields_mono; [|apply native_load_yields]. by intros ? [].
  - done.
  - eapply yields_bind; [apply native_load_yields|]. intros y _.
    eapply yields_mono; [|apply native_load_yields]. by intros ? [].
  - unfold nonpositive, flt, SFleb, SFltb in *. by destruct (SFcompare w fzero) as [[]|].
  - eapply yields_mono; [|apply native_load_yields]. intros s [-> _]. split; [done|]. intros Hw.
    eapply yields_mono; [|apply native_load_yields]. by intros ? [-> _].
  - eapply native_sum_sign; [..|eassumption]; try done; by apply flt_zero.
  - eapply native_joseph_sign; [..|eassumption|eassumption]; try done; by apply flt_zero.
Defined.
End NativeSigns.

(** ** The invariant *)

Section Invariant.
Context {S C W : Type} `{KalmanSigns S C W}.

Definition nonnegative (s : S) : Prop := k_signal s /\ yields (K_LOAD s) (fun w => K_NEGATIVE w = false).

Definition kalman_ok (x : kalman S) : Prop := k_signal (estimate x) /\ nonnegative (covariance x).

(** The states after a first successful reset and any calls, failed or not. *)
Inductive kalman_reach : kalman S -> Prop :=
| reach_first old e c x : k_signal e -> k_signal c ->
    kalman_reset (Some old) e c = (LINEARS_OK, Some x) -> kalman_reach x
| reach_reset x e c st y : kalman_reach x -> k_signal e -> k_signal c ->
    kalman_reset (Some x) e c = (st, Some y) -> kalman_reach y
| reach_predict x a q st y : kalman_reach x -> k_coefficient a -> k_signal q ->
    kalman_predict (Some x) a q = (st, Some y) -> kalman_reach y
| reach_update x z h r st y : kalman_reach x -> k_signal z -> k_coefficient h -> k_signal r ->
    kalman_update (Some x) z h r = (st, Some y) -> kalman_reach y.

(** An early return is not a success. *)
Lemma kalman_reset_honest e c : kalman_reset_work e c <> inl LINEARS_OK.
Proof.
  unfold kalman_reset_work. intros E.
  destruct (K_LOAD e) as [|x] eqn:E1; [by destruct (k_load_honest e); rewrite E1; injection E as ->|].
  cbn in E. destruct (K_LOAD c) as [|p] eqn:E2; [by destruct (k_load_honest c); rewrite E2; injection E as ->|].
  cbn in E. destruct (K_NEGATIVE p); [done|].
  cbn in E. destruct (K_EXPORT x) eqn:E3; [by destruct (k_export_honest x); rewrite E3; injection E as ->|].
  cbn in E. destruct (K_EXPORT p) eqn:E4; [by destruct (k_export_honest p); rewrite E4; injection E as ->|].
  done.
Qed.

Lemma kalman_reset_yields e c : k_signal e -> k_signal c -> yields (kalman_reset_work e c) kalman_ok.
Proof.
  intros He Hc. unfold kalman_reset_work.
  eapply yields_bind; [by apply k_load|]. intros x Hx.
  eapply yields_bind; [by apply k_load|]. intros p Hp.
  apply yields_refuse. intros Hs.
  eapply yields_bind; [by apply k_export|]. intros e' [He' _].
  eapply yields_bind; [by apply k_export|]. intros c' [Hc' Hn].
  apply yields_ret. split; [done|]. split; auto.
Qed.

Lemma kalman_predict_yields x a q : kalman_ok x -> k_coefficient a -> k_signal q ->
  yields (kalman_predict_work x a q) kalman_ok.
Proof.
  intros [He [Hc Hn]] Ha Hq. unfold kalman_predict_work.
  eapply yields_bind; [by apply k_load|]. intros v Hv.
  eapply yields_bind; [by apply k_load|]. intros p Hp.
  eapply yields_bind; [by apply k_load_coefficient|]. intros A HA.
  eapply yields_bind; [by apply k_load|]. intros Q HQ.
  apply yields_refuse. intros [Hpn Hqn]%orb_false_iff.
  eapply yields_bind; [by apply k_product_out|]. intros e' He'.
  eapply yields_bind; [intros ap Eap; exact Eap|]. intros ap Eap.
  eapply yields_bind; [by apply (k_predict_sign Q A p ap)|]. intros c' Hc'.
  apply yields_ret. by split.
Qed.

Lemma kalman_update_yields x z h r : kalman_ok x -> k_signal z -> k_coefficient h -> k_signal r ->
  yields (kalman_update_work x z h r) kalman_ok.
Proof.
  intros [He [Hc Hn]] Hz Hh Hr. unfold kalman_update_work.
  eapply yields_bind; [by apply k_load|]. intros v Hv.
  eapply yields_bind; [by apply k_load|]. intros p Hp.
  eapply yields_bind; [by apply k_load|]. intros Z HZ.
  eapply yields_bind; [by apply k_load_coefficient|]. intros h' Hh'.
  eapply yields_bind; [by apply k_load|]. intros r' Hr'.
  apply yields_refuse. intros [Hpn Hrn]%orb_false_iff. apply k_positive_nonnegative in Hrn.
  eapply yields_bind; [by apply k_mul|]. intros ph Hph.
  eapply yields_bind; [by apply k_mul|]. intros s Hs.
  eapply yields_bind; [by apply k_add|]. intros s' Hs'.
  apply yields_refuse. intros _.
  eapply yields_bind; [by apply k_gain|]. intros k Hk.
  eapply yields_bind; [by apply k_sub_product|]. intros res Hres.
  eapply yields_bind; [by apply k_sum_product_out|]. intros e' He'.
  eapply yields_bind; [apply k_sub_product; [apply k_one|done|done]|]. intros j Hj.
  eapply yields_bind; [intros jp Ejp; exact Ejp|]. intros jp Ejp.
  eapply yields_bind; [intros kr Ekr; exact Ekr|]. intros kr Ekr.
  eapply yields_bind; [by apply (k_joseph_sign j p jp k r' kr)|]. intros c' Hc'.
  apply yields_ret. by split.
Qed.

Lemma finish_ok (m : attempt (kalman S)) x st y :
  with_out (Some x) (finish m) = (st, Some y) -> yields m kalman_ok -> kalman_ok x -> kalman_ok y.
Proof. intros E Hm Hx. destruct m as [e|a]; cbn in E; injection E as <- <-; [done|by apply Hm]. Qed.

Lemma kalman_reach_ok (x : kalman S) : kalman_reach x -> kalman_ok x.
Proof.
  intros Hx.
  induction Hx as [old e c x He Hc E|x e c st y _ IH He Hc E|x a q st y _ IH Ha Hq E|x z h r st y _ IH Hz Hh Hr E].
  - unfold kalman_reset in E. cbn [with_out] in E.
    destruct (kalman_reset_work e c) as [s|v] eqn:Ev; cbn in E; (injection E as -> <- || injection E as <-).
    + by destruct (kalman_reset_honest e c).
    + by apply (kalman_reset_yields e c).
  - eapply finish_ok; [exact E|by apply kalman_reset_yields|done].
  - eapply finish_ok; [exact E|by apply kalman_predict_yields|done].
  - eapply finish_ok; [exact E|by apply kalman_update_yields|done].
Qed.

(** C29. After a first successful reset, whatever calls follow and whether they
    succeed or fail, the estimate and the covariance are signals of the format and
    the covariance is not negative: both covariance formulas, q + (a p) a and the
    Joseph form (j p) j + (k r) k, keep the sign through every rounding.  This
    holds for every arithmetic with the laws [KalmanSigns]. *)
Theorem kalman_invariant (x : kalman S) : kalman_reach x ->
  k_signal (estimate x) /\ k_signal (covariance x) /\
  (forall p, K_LOAD (covariance x) = inr p -> K_NEGATIVE p = false).
Proof. intros (He & Hc & Hn)%kalman_reach_ok. auto. Qed.
End Invariant.
