(* ===== verification/KalmanQ.v ===== *)
(** * The scalar Kalman filter in exact integers

    The q15 and q31 instances of Kalman.v: each working value is rounded once,
    each result is range-checked before its one signal rounding.  A direct
    observation cannot fail, overshoot or add uncertainty. *)
From S2P Require Import Prelude MachineInt Status Wide Numeric FcMonad Cordic FcVariants FcBase FcPid FcPidQ.
From S2P Require Import FilterBase FilterSpec Kalman KalmanSpec.

(** ** Range-checked exact values *)

(** An F31 working value. *)
Definition fit (v : Z) : option Z := if fits_i64 v then Some v else None.

(** A signal, from its F62 value. *)
Definition signal (f : q_format) (V : Z) : option Z :=
  if in_unit_interval V (2 ^ 62) then Some (endpoint (q_bits f) (div_nearest V (2 ^ (62 - q_bits f)))) else None.

Definition in_range {A} (o : option A) : attempt A :=
  match o with Some a => inr a | None => inl LINEARS_ERROR_RANGE end.

(** One call of a body against one line of its exact version. *)
Lemma in_range_bind {A B} (m : attempt A) (o : option A) (k : A -> attempt B) (k' : A -> option B) :
  m = in_range o -> (forall x, o = Some x -> k x = in_range (k' x)) -> m ≫= k = in_range (o ≫= k').
Proof. intros -> Hk. destruct o; [by apply Hk|done]. Qed.

Lemma refuse_bind {A} (c : bool) e (m : attempt A) :
  (refuse c e ≫= fun _ => m) = if c then inl e else m.
Proof. by destruct c. Qed.

Lemma in_range_yields {A} (o : option A) (Q : A -> Prop) : (forall a, o = Some a -> Q a) -> yields (in_range o) Q.
Proof. intros H a. destruct o; cbn; [|done]. intros [= <-]. by apply H. Qed.

Lemma in_range_inr {A} (o : option A) x : in_range o = inr x -> o = Some x.
Proof. destruct o; cbn; [|done]. by intros [= ->]. Qed.

Section Q.
Variable f : q_format.
Implicit Types a b c d : Z.

#[local] Instance q_kalman : KalmanFormat Z Z Z := fixed_kalman f.

(** ** The operations *)

Lemma fixed_op_fit (op : option Z -> linears_status_t * option Z) v :
  op (Some 0) = with_out (Some 0) (deliver (fits_i64 v) v) -> fixed_op op = in_range (fit v).
Proof. intros E. unfold fixed_op, fit. rewrite E, result_of_deliver. by destruct (fits_i64 v). Qed.

Lemma kalman_mul a b : is_i64 a -> is_i64 b -> fixed_op (linears_fixed_mul a b) = in_range (fit (rmul a b)).
Proof. intros. by apply fixed_op_fit, linears_fixed_mul_exact. Qed.

Lemma kalman_add a b : is_i64 a -> is_i64 b -> fixed_op (linears_fixed_add a b) = in_range (fit (a + b)).
Proof. intros. apply fixed_op_fit. by destruct (linears_fixed_ops_exact a b (Some 0)) as (_ & -> & _). Qed.

Lemma kalman_muldiv a b d : is_i64 a -> is_i64 b -> is_i64 d -> d <> 0 ->
  fixed_op (linears_fixed_muldiv a b d) = in_range (fit (div_nearest (a * b) d)).
Proof.
  intros Ha Hb Hd Hn. apply fixed_op_fit. rewrite linears_fixed_muldiv_exact by done.
  cbn [with_out]. by rewrite (proj2 (Z.eqb_neq d 0)).
Qed.

(** One product never overflows an accumulator; a second one only at the corner. *)
Lemma mac_first a b : is_i64 a -> is_i64 b ->
  exists s, mac acc_zero a b = inr s /\ accum_ok s /\ accum_value s = a * b.
Proof.
  intros Ha Hb. destruct acc_zero_ok as [H0 V0].
  destruct (mac_ok acc_zero a b) as (s & E & Hs & V); rewrite ?V0 in *; try done; [|by exists s].
  pose proof (i64_product_bound a b Ha Hb) as Hp.
  change (2 ^ 126) with 85070591730234615865843651857942052864 in Hp. unfold is_i128, two127. lia.
Qed.

Lemma mac_overflow s a b : accum_ok s -> is_i64 a -> is_i64 b -> ~ is_i128 (accum_value s + a * b) ->
  mac s a b = inl LINEARS_ERROR_RANGE.
Proof.
  intros Hs Ha Hb Hfit. destruct (linears_fixed_mac_msu_spec s a b Hs Ha Hb) as [(r & E & _) _].
  unfold mac, result_of. rewrite E. destruct (fits_i128 _) eqn:Ef; [by apply fits_i128_spec in Ef|done].
Qed.

Lemma kalman_two_products a b c d : is_i64 a -> is_i64 b -> is_i64 c -> is_i64 d ->
  k_two_products f a b c d = in_range (signal f (a * b + c * d)).
Proof.
  intros Ha Hb Hc Hd. unfold k_two_products. destruct (mac_first a b Ha Hb) as (s & E & Hs & V).
  rewrite E. cbn [mbind attempt_bind]. rewrite <- V.
  destruct (decide (is_i128 (accum_value s + c * d))) as [Hfit|Hfit].
  - destruct (mac_ok s c d Hs Hc Hd Hfit) as (t & E' & Ht & V'). rewrite E'. cbn [mbind attempt_bind].
    rewrite accum_export_eq, V' by done. unfold signal. by destruct (in_unit_interval _ _).
  - rewrite mac_overflow by done. unfold signal.
    destruct (in_unit_interval _ _) eqn:Ei; [|done]. destruct Hfit.
    unfold in_unit_interval in Ei. change (2 ^ 62) with 4611686018427387904 in Ei. zbool.
    unfold is_i128, two127. lia.
Qed.

Lemma kalman_product a b : is_i64 a -> is_i64 b -> k_product f a b = in_range (signal f (a * b)).
Proof.
  intros Ha Hb. unfold k_product. destruct (mac_first a b Ha Hb) as (s & -> & Hs & V). cbn [mbind attempt_bind].
  rewrite accum_export_eq, V by done. unfold signal. by destruct (in_unit_interval _ _).
Qed.

Lemma kalman_sub_product base a b : is_i64 base -> is_i64 a -> is_i64 b ->
  k_fixed_sub_product base a b = in_range (fit (div_nearest (base * LINEARS_FIXED_ONE - a * b) LINEARS_FIXED_ONE)).
Proof.
  intros Hbase Ha Hb. unfold k_fixed_sub_product.
  destruct (mac_first base LINEARS_FIXED_ONE Hbase one_i64) as (s & -> & Hs & V). cbn [mbind attempt_bind].
  pose proof (i64_product_bound a b Ha Hb) as Hp.
  change (2 ^ 126) with 85070591730234615865843651857942052864 in Hp.
  destruct (msu_ok s a b Hs Ha Hb) as (t & -> & Ht & V').
  { rewrite V. unfold is_i128, two127, LINEARS_FIXED_ONE. rlia. }
  cbn [mbind attempt_bind]. rewrite accum_to_fixed_eq, V', V by done. unfold fit.
  change (2 ^ 31) with LINEARS_FIXED_ONE. by destruct (fits_i64 _).
Qed.

(** ** Ranges and signs *)

Lemma signal_repr V t : signal f V = Some t -> q_repr f t.
Proof.
  unfold signal, in_unit_interval, endpoint. intros E. case_if_in E; [|done].
  injection E as <-. pose proof (q_bits_pos f). apply q_repr_range.
  assert (0 < 2 ^ (62 - q_bits f)) by (apply Z.pow_pos_nonneg; lia).
  pose proof (div_nearest_between V (2 ^ (62 - q_bits f)) (- 2 ^ q_bits f) (2 ^ q_bits f)) as Hb.
  rewrite Z.mul_opp_l, <- Z.pow_add_r in Hb by lia.
  replace (q_bits f + (62 - q_bits f)) with 62 in Hb by lia.
  assert (0 < 2 ^ q_bits f) by (apply Z.pow_pos_nonneg; lia). case_if; lia.
Qed.

Lemma signal_nonnegative V t : 0 <= V -> signal f V = Some t -> 0 <= t.
Proof.
  intros HV. unfold signal, endpoint. case_if; [|done]. intros [= <-].
  pose proof (q_bits_pos f).
  assert (0 < 2 ^ (62 - q_bits f)) as Hd by (apply Z.pow_pos_nonneg; lia).
  assert (1 < 2 ^ q_bits f) by (apply Z.pow_gt_1; lia).
  enough (0 <= div_nearest V (2 ^ (62 - q_bits f))) by (case_if; lia).
  rewrite div_nearest_pos by done. pose proof (Z.sgn_nonneg V).
  apply Z.mul_nonneg_nonneg; [lia|]. apply Z.div_pos; lia.
Qed.

Lemma fcq_field_nonnegative t : q_repr f t -> 0 <= t <-> 0 <= fcq_field f t.
Proof. intros Ht. rewrite fcq_field_scale by done. pose proof (q_bits_pos f).
  assert (0 < 2 ^ (31 - q_bits f)) by (apply Z.pow_pos_nonneg; lia). nia. Qed.

Lemma fcq_field_positive t : q_repr f t -> t <= 0 <-> fcq_field f t <= 0.
Proof. intros Ht. rewrite fcq_field_scale by done. pose proof (q_bits_pos f).
  assert (0 < 2 ^ (31 - q_bits f)) by (apply Z.pow_pos_nonneg; lia). nia. Qed.

Lemma fit_some v a : fit v = Some a -> a = v /\ is_i64 a.
Proof. unfold fit. destruct (fits_i64 v) eqn:E; [|done]. intros [= <-]. by apply fits_i64_spec in E. Qed.

(** Rounding keeps the sign of a product by a nonnegative factor. *)
Lemma rmul_square a p : 0 <= p -> 0 <= rmul a p * a.
Proof.
  intros Hp. unfold rmul. rewrite div_nearest_pos by done.
  assert (0 <= (2 * Z.abs (a * p) + LINEARS_FIXED_ONE) / (2 * LINEARS_FIXED_ONE))
    by (apply Z.div_pos; unfold LINEARS_FIXED_ONE; lia).
  rewrite Z.sgn_mul. set (q := _ / _) in *.
  replace (Z.sgn a * Z.sgn p * q * a) with (Z.sgn p * q * (Z.sgn a * a)) by ring.
  apply Z.mul_nonneg_nonneg; [apply Z.mul_nonneg_nonneg; lia|]. rewrite Z.mul_comm, <- Z.abs_sgn. lia.
Qed.

Lemma fit_yields v : yields (in_range (fit v)) is_i64.
Proof. apply in_range_yields. intros x Hx. by apply fit_some in Hx as [-> ?]. Qed.

Lemma signal_yields V : yields (in_range (signal f V)) (q_repr f).
Proof. apply in_range_yields. apply signal_repr. Qed.

Lemma signal_sign V : 0 <= V -> yields (in_range (signal f V))
  (fun s => q_repr f s /\ yields (inr (fcq_field f s)) (fun w => (w <? 0) = false)).
Proof.
  intros HV. apply in_range_yields. intros t Ht. pose proof (signal_repr _ _ Ht) as Hr. split; [exact Hr|].
  apply yields_inr. apply Z.ltb_ge. rewrite <- fcq_field_nonnegative by done. by eapply signal_nonnegative.
Qed.

#[export] Instance q_signs : KalmanSigns Z Z Z.
Proof.
  refine {| k_signal := q_repr f; k_coefficient := is_i64; k_value := is_i64 |}; cbn; intros.
  - done.
  - unfold fixed_export, fixed_op, result_of. by case_if; destruct (_ : linears_status_t * _) as [[]].
  - apply yields_inr. by apply fcq_field_i64.
  - by apply yields_inr.
  - rewrite kalman_mul by done. apply fit_yields.
  - rewrite kalman_add by done. apply fit_yields.
  - destruct (decide (s = 0)) as [->|Hs].
    + unfold fixed_op. rewrite linears_fixed_muldiv_exact by done. cbn [with_out Z.eqb]. by intros a.
    + rewrite kalman_muldiv by done. apply fit_yields.
  - rewrite kalman_sub_product by done. apply fit_yields.
  - apply one_i64.
  - rewrite kalman_product by done. apply signal_yields.
  - unfold k_sum_product. rewrite kalman_two_products by (done || apply one_i64). apply signal_yields.
  - zbool. apply Z.ltb_ge. lia.
  - rewrite fixed_export_eq by done. intros t. case_if; [|done]. intros [= <-].
    unfold in_unit_interval in E. zbool. assert (q_repr f (q_round f w)) as Hr by (apply q_round_repr; lia).
    split; [done|]. intros Hw. zbool. apply yields_inr. apply Z.ltb_ge. rewrite <- fcq_field_nonnegative by done.
    rewrite <- (q_round_field f 0) by (destruct f; cbn; rlia). apply q_round_mono. by destruct f.
  - zbool. rewrite kalman_mul in * by done.
    match goal with E : in_range _ = inr _ |- _ => apply in_range_inr, fit_some in E as [-> Hap] end.
    unfold k_sum_product. rewrite kalman_two_products by (done || apply one_i64).
    apply signal_sign. pose proof (rmul_square a p ltac:(lia)). unfold LINEARS_FIXED_ONE. nia.
  - zbool. rewrite !kalman_mul in * by done.
    repeat match goal with E : in_range _ = inr _ |- _ => apply in_range_inr, fit_some in E as [-> ?] end.
    rewrite kalman_two_products by done. apply signal_sign.
    pose proof (rmul_square j p ltac:(lia)). pose proof (rmul_square k r ltac:(lia)). lia.
Defined.

(** ** Predict and update *)

Definition exact_predict (x p a q : Z) : option (kalman Z) :=
  e ← signal f (a * x);
  ap ← fit (rmul a p);
  c ← signal f (q * LINEARS_FIXED_ONE + ap * a);
  Some (mk_kalman e c).

Definition exact_update (x p z h r : Z) : option (kalman Z) :=
  ph ← fit (rmul p h);
  s ← fit (rmul ph h);
  s ← fit (s + r);
  k ← fit (div_nearest (p * h) s);
  residual ← fit (div_nearest (z * LINEARS_FIXED_ONE - h * x) LINEARS_FIXED_ONE);
  e ← signal f (x * LINEARS_FIXED_ONE + k * residual);
  j ← fit (div_nearest (LINEARS_FIXED_ONE * LINEARS_FIXED_ONE - k * h) LINEARS_FIXED_ONE);
  jp ← fit (rmul j p);
  kr ← fit (rmul k r);
  c ← signal f (jp * j + kr * k);
  Some (mk_kalman e c).

(** RANGE when some exact value has no representation. *)
Definition outcome (exact : option (kalman Z)) (old : kalman Z) : linears_status_t * option (kalman Z) :=
  match exact with Some new => (LINEARS_OK, Some new) | None => (LINEARS_ERROR_RANGE, Some old) end.

Lemma predict_exact x p a q : is_i64 x -> is_i64 p -> is_i64 a -> is_i64 q ->
  (next_estimate ← k_product f a x;
   ap ← fixed_op (linears_fixed_mul a p);
   next_covariance ← k_sum_product f q ap a;
   mret (mk_kalman next_estimate next_covariance)) = in_range (exact_predict x p a q).
Proof.
  intros Hx Hp Ha Hq. unfold exact_predict, k_sum_product. pose proof one_i64.
  apply in_range_bind; [by apply kalman_product|]. intros e _.
  apply in_range_bind; [by apply kalman_mul|]. intros ap [_ ?]%fit_some.
  apply in_range_bind; [by apply kalman_two_products|]. by intros c _.
Qed.

Lemma rmul_nonnegative a b : 0 <= a * b -> 0 <= rmul a b.
Proof.
  intros Hab. unfold rmul. rewrite div_nearest_pos by done.
  apply Z.mul_nonneg_nonneg; [by apply Z.sgn_nonneg|]. apply Z.div_pos; unfold LINEARS_FIXED_ONE; lia.
Qed.

Lemma innovation_positive ph s r p h : 0 <= p -> 0 < r -> ph = rmul p h -> s = rmul ph h -> 0 < s + r.
Proof.
  intros Hp Hr -> ->. enough (0 <= rmul (rmul p h) h) by lia. apply rmul_nonnegative.
  pose proof (rmul_square h p Hp) as Hs. unfold rmul in *. by rewrite (Z.mul_comm p h).
Qed.

Lemma update_exact x p z h r : is_i64 x -> is_i64 p -> is_i64 z -> is_i64 h -> is_i64 r -> 0 <= p -> 0 < r ->
  (ph ← fixed_op (linears_fixed_mul p h);
   s ← fixed_op (linears_fixed_mul ph h);
   s ← fixed_op (linears_fixed_add s r);
   refuse (s <=? 0) LINEARS_ERROR_DOMAIN;;
   k ← fixed_op (linears_fixed_muldiv p h s);
   residual ← k_fixed_sub_product z h x;
   next_estimate ← k_sum_product f x k residual;
   j ← k_fixed_sub_product LINEARS_FIXED_ONE k h;
   jp ← fixed_op (linears_fixed_mul j p);
   kr ← fixed_op (linears_fixed_mul k r);
   next_covariance ← k_two_products f jp j kr k;
   mret (mk_kalman next_estimate next_covariance)) = in_range (exact_update x p z h r).
Proof.
  intros Hx Hp Hz Hh Hr Hpos Hrpos. unfold exact_update, k_sum_product. pose proof one_i64.
  apply in_range_bind; [by apply kalman_mul|]. intros ph [Eph ?]%fit_some.
  apply in_range_bind; [by apply kalman_mul|]. intros s' [Es' ?]%fit_some.
  apply in_range_bind; [by apply kalman_add|]. intros s [Es ?]%fit_some.
  assert (0 < s) as Hs by (rewrite Es; by eapply (innovation_positive ph s' r p h)).
  rewrite (proj2 (Z.leb_gt _ 0)), refuse_bind by done.
  apply in_range_bind; [apply kalman_muldiv; (done || lia)|]. intros k [_ ?]%fit_some.
  apply in_range_bind; [by apply kalman_sub_product|]. intros residual [_ ?]%fit_some.
  apply in_range_bind; [by apply kalman_two_products|]. intros e _.
  apply in_range_bind; [by apply kalman_sub_product|]. intros j [_ ?]%fit_some.
  apply in_range_bind; [by apply kalman_mul|]. intros jp [_ ?]%fit_some.
  apply in_range_bind; [by apply kalman_mul|]. intros kr [_ ?]%fit_some.
  apply in_range_bind; [by apply kalman_two_products|]. by intros c _.
Qed.

Lemma predict_cases (s : kalman Z) (a q : Z) : kalman_reach s -> is_i64 a -> q_repr f q ->
  kalman_predict (Some s) a q =
    (if q <? 0 then (LINEARS_ERROR_DOMAIN, Some s)
     else outcome (exact_predict (fcq_field f (estimate s)) (fcq_field f (covariance s)) a (fcq_field f q)) s).
Proof.
  intros (He & Hc & Hn)%kalman_reach_ok Ha Hq. specialize (Hn _ eq_refl). cbn in He, Hc, Hn.
  pose proof (fcq_field_nonnegative q Hq). pose proof (fun t => fcq_field_i64 f t) as Hf.
  unfold kalman_predict, kalman_predict_work. cbn. rewrite Hn, refuse_bind. cbn [orb].
  destruct (Z.ltb_spec q 0); [by rewrite (proj2 (Z.ltb_lt (fcq_field f q) 0)) by lia|].
  rewrite (proj2 (Z.ltb_ge (fcq_field f q) 0)) by lia. rewrite predict_exact by auto.
  by destruct (exact_predict _ _ _ _).
Qed.

Lemma update_cases (s : kalman Z) (z h r : Z) : kalman_reach s -> q_repr f z -> is_i64 h -> q_repr f r ->
  q_repr f (estimate s) /\ q_repr f (covariance s) /\ 0 <= covariance s /\
  kalman_update (Some s) z h r =
    (if r <=? 0 then (LINEARS_ERROR_DOMAIN, Some s)
     else outcome (exact_update (fcq_field f (estimate s)) (fcq_field f (covariance s)) (fcq_field f z) h (fcq_field f r)) s).
Proof.
  intros (He & Hc & Hn)%kalman_reach_ok Hz Hh Hr. specialize (Hn _ eq_refl). cbn in He, Hc, Hn.
  pose proof (fcq_field_positive r Hr). pose proof (fcq_field_nonnegative _ Hc).
  pose proof (fun t => fcq_field_i64 f t) as Hf. do 3 (split; [done || (zbool; lia)|]).
  unfold kalman_update, kalman_update_work. cbn. rewrite Hn, refuse_bind. cbn [orb]. zbool.
  destruct (Z.leb_spec r 0); [by rewrite (proj2 (Z.leb_le (fcq_field f r) 0)) by lia|].
  rewrite (proj2 (Z.leb_gt (fcq_field f r) 0)) by lia. rewrite update_exact by (auto || lia).
  by destruct (exact_update _ _ _ _ _).
Qed.

(** ** A direct observation: h = 1 *)

Lemma fit_i64 v : is_i64 v -> fit v = Some v.
Proof. intros Hv. unfold fit. by rewrite fits_i64_true. Qed.

Lemma rmul_one a : rmul a LINEARS_FIXED_ONE = a.
Proof. unfold rmul. apply div_nearest_1. unfold LINEARS_FIXED_ONE. lia. Qed.

(** A weight of at least one unit is less than twice its exact value. *)
Lemma weight_below B a b k : 2 <= B -> 0 <= a <= B -> 0 <= b <= B -> 1 <= k ->
  0 < a + b -> 2 * Z.abs (k * (a + b) - a * B) <= a + b -> k * (a + b) < 2 * a * B.
Proof.
  intros HB Ha Hb Hk Hs He. assert (a + b <= k * (a + b)) by nia.
  assert (1 <= a) by (destruct (decide (a = 0)) as [->|]; lia). assert (a + b < 2 * a * B) by nia. lia.
Qed.

Lemma joseph_sum B a b k : 2 <= B -> 0 <= a <= B -> 0 <= b <= B -> 0 < a + b -> 0 <= k <= B ->
  2 * Z.abs (k * (a + b) - a * B) <= a + b ->
  k = 0 \/ (B - k) * (B - k) * a + k * k * b < a * (B * B).
Proof.
  intros HB Ha Hb Hs Hk He. destruct (decide (k = 0)) as [->|Hn]; [by left|right].
  pose proof (weight_below B a b k HB Ha Hb ltac:(lia) Hs He) as Hw.
  assert (k * (k * (a + b)) < k * (2 * a * B)) by (apply Z.mul_lt_mono_pos_l; lia).
  replace ((B - k) * (B - k) * a + k * k * b) with (a * (B * B) - k * (2 * a * B) + k * (k * (a + b))) by ring. lia.
Qed.

(** The rounded Joseph sum stays below a variance plus half a unit. *)
Lemma joseph_below B a b k x y : 2 <= B -> 0 <= a <= B -> 0 <= b <= B -> 0 < a + b -> 0 <= k <= B ->
  2 * Z.abs (k * (a + b) - a * B) <= a + b ->
  2 * Z.abs (x * B - (B - k) * a) <= B -> 2 * Z.abs (y * B - k * b) <= B -> x <= a -> 0 <= y ->
  2 * (x * (B - k) + y * k) < (2 * a + 1) * B.
Proof.
  intros HB Ha Hb Hs Hk He Hx Hy Hxa Hy0.
  destruct (joseph_sum B a b k HB Ha Hb Hs Hk He) as [->|Hj]; [nia|].
  assert ((B - k) * (2 * (x * B)) <= (B - k) * (2 * ((B - k) * a) + B)) by (apply Z.mul_le_mono_nonneg_l; lia).
  assert (k * (2 * (y * B)) <= k * (2 * (k * b) + B)) by (apply Z.mul_le_mono_nonneg_l; lia).
  apply (Z.mul_lt_mono_pos_r B); [lia|]. nia.
Qed.

(** A value that rounds between two signals is delivered between them. *)
Lemma signal_within V l u : q_repr f l -> q_repr f u ->
  l * 2 ^ (62 - q_bits f) <= V -> 2 * V < (2 * u + 1) * 2 ^ (62 - q_bits f) ->
  exists t, signal f V = Some t /\ l <= t <= u.
Proof.
  intros [Hl Hl']%q_repr_range [Hu Hu']%q_repr_range HlV HVu. pose proof (q_bits_pos f).
  assert (0 < 2 ^ (62 - q_bits f)) as HD by (apply Z.pow_pos_nonneg; lia).
  pose proof (div_nearest_error V (2 ^ (62 - q_bits f)) HD) as He.
  assert (2 ^ q_bits f * 2 ^ (62 - q_bits f) = 2 ^ 62) as Hp
    by (rewrite <- Z.pow_add_r by lia; f_equal; lia).
  unfold signal, in_unit_interval, endpoint.
  set (D := 2 ^ (62 - q_bits f)) in *. set (N := 2 ^ q_bits f) in *. clearbody D N.
  rewrite (proj2 (Z.leb_le _ _)), (proj2 (Z.leb_le _ _)) by nia.
  eexists. split; [reflexivity|]. rewrite (proj2 (Z.eqb_neq _ _)); nia.
Qed.

Lemma fcq_field_unit t : q_repr f t ->
  fcq_field f t * LINEARS_FIXED_ONE = t * 2 ^ (62 - q_bits f) /\ exists u, 0 < u /\ fcq_field f t = t * u.
Proof.
  intros Ht. rewrite fcq_field_scale by done. pose proof (q_bits_pos f). split.
  - change LINEARS_FIXED_ONE with (2 ^ 31). rewrite <- Z.mul_assoc, <- Z.pow_add_r by lia. do 2 f_equal. lia.
  - exists (2 ^ (31 - q_bits f)). split; [apply Z.pow_pos_nonneg; lia|done].
Qed.

(** C30. In every reachable state a q15 or q31 predict or update is its exact
    formula: each F31 value rounded once, each signal rounded once from its F62
    value.  It reports DOMAIN exactly for a process noise below zero or a
    measurement noise not above zero, RANGE exactly when one of the exact values
    has no representation, and both leave the state as it was. *)
Theorem kalman_refines (s : kalman Z) (a q z h r : Z) :
  kalman_reach s -> is_i64 a -> q_repr f q -> q_repr f z -> is_i64 h -> q_repr f r ->
  let field := fcq_field f in
  kalman_predict (Some s) a q =
    (if q <? 0 then (LINEARS_ERROR_DOMAIN, Some s)
     else outcome (exact_predict (field (estimate s)) (field (covariance s)) a (field q)) s) /\
  kalman_update (Some s) z h r =
    (if r <=? 0 then (LINEARS_ERROR_DOMAIN, Some s)
     else outcome (exact_update (field (estimate s)) (field (covariance s)) (field z) h (field r)) s).
Proof. intros. split; [by apply predict_cases|by apply update_cases]. Qed.

(** The gain of a direct observation, and the Joseph sum it gives. *)
Lemma joseph_direct P R : 0 <= P <= LINEARS_FIXED_ONE -> 0 < R <= LINEARS_FIXED_ONE ->
  let k := div_nearest (P * LINEARS_FIXED_ONE) (P + R) in
  let jp := rmul (LINEARS_FIXED_ONE - k) P in
  let kr := rmul k R in
  let V := jp * (LINEARS_FIXED_ONE - k) + kr * k in
  0 <= k <= LINEARS_FIXED_ONE /\ 0 <= jp <= P /\ 0 <= kr <= R /\
  0 <= V /\ 2 * V < (2 * Z.min P R + 1) * LINEARS_FIXED_ONE.
Proof.
  intros HP HR k jp kr V.
  pose proof (div_nearest_error (P * LINEARS_FIXED_ONE) (P + R) ltac:(lia)) as Hk. fold k in Hk.
  pose proof (div_nearest_error ((LINEARS_FIXED_ONE - k) * P) LINEARS_FIXED_ONE ltac:(done)) as Hjp.
  pose proof (div_nearest_error (k * R) LINEARS_FIXED_ONE ltac:(done)) as Hkr.
  assert (0 <= k <= LINEARS_FIXED_ONE) as Bk by (apply div_nearest_between; nia).
  assert (0 <= jp <= P) as Bjp by (apply div_nearest_between; nia).
  assert (0 <= kr <= R) as Bkr by (apply div_nearest_between; nia).
  fold (rmul (LINEARS_FIXED_ONE - k) P) (rmul k R) in Hjp, Hkr. fold jp in Hjp. fold kr in Hkr.
  do 3 (split; [done|]). split; [apply Z.add_nonneg_nonneg; apply Z.mul_nonneg_nonneg; lia|].
  pose proof (joseph_below LINEARS_FIXED_ONE P R k jp kr) as Jp.
  pose proof (joseph_below LINEARS_FIXED_ONE R P (LINEARS_FIXED_ONE - k) kr jp) as Jr.
  replace (LINEARS_FIXED_ONE - (LINEARS_FIXED_ONE - k)) with k in Jr by ring.
  assert (2 <= LINEARS_FIXED_ONE) by done. subst V. clearbody k jp kr. rewrite (Z.add_comm R P) in Jr.
  destruct (Z.min_spec P R) as [[_ ->]|[_ ->]]; lia.
Qed.

Lemma mix_between B x z k : 0 <= k <= B ->
  Z.min (x * B) (z * B) <= x * B + k * (z - x) <= Z.max (x * B) (z * B).
Proof. intros Hk. destruct (Z.le_ge_cases x z); nia. Qed.

Ltac fit_value :=
  match goal with |- ex (fun e => ex (fun c => mbind _ (fit ?v) = _ /\ _)) =>
    rewrite (fit_i64 v) by (unfold LINEARS_FIXED_ONE in *; rlia) end;
  cbn [mbind option_bind].

Lemma direct_exact x p z r : q_repr f x -> q_repr f p -> q_repr f z -> q_repr f r -> 0 <= p -> 0 < r ->
  exists e c, exact_update (fcq_field f x) (fcq_field f p) (fcq_field f z) LINEARS_FIXED_ONE (fcq_field f r)
      = Some (mk_kalman e c) /\
    Z.min x z <= e <= Z.max x z /\ 0 <= c <= Z.min p r.
Proof.
  intros Hx Hp Hz Hr Hp0 Hr0.
  pose proof (fcq_field_range f x Hx) as Bx. pose proof (fcq_field_range f z Hz) as Bz.
  pose proof (fcq_field_range f p Hp) as Bp. pose proof (fcq_field_range f r Hr) as Br.
  destruct (fcq_field_unit x Hx) as [Ex _]. destruct (fcq_field_unit z Hz) as [Ez _].
  destruct (fcq_field_unit p Hp) as [Ep (u & Hu & Eu)]. destruct (fcq_field_unit r Hr) as [Er (u' & Hu' & Eu')].
  assert (0 <= fcq_field f p) as P0 by nia. assert (0 < fcq_field f r) as R0 by nia.
  set (X := fcq_field f x) in *. set (P := fcq_field f p) in *. set (M := fcq_field f z) in *.
  set (R := fcq_field f r) in *. clearbody X P M R.
  destruct (joseph_direct P R ltac:(lia) ltac:(lia)) as (Bk & Bjp & Bkr & V0 & HV').
  unfold exact_update. rewrite rmul_one. fit_value. rewrite rmul_one. fit_value. fit_value. fit_value.
  set (k := div_nearest (P * LINEARS_FIXED_ONE) (P + R)) in *.
  replace (M * LINEARS_FIXED_ONE - LINEARS_FIXED_ONE * X) with ((M - X) * LINEARS_FIXED_ONE) by ring.
  rewrite div_nearest_1 by done. fit_value.
  assert (0 < 2 ^ (62 - q_bits f)) as HD by (apply Z.pow_pos_nonneg; [|pose proof (q_bits_pos f)]; lia).
  assert (Z.min x z * 2 ^ (62 - q_bits f) <= X * LINEARS_FIXED_ONE + k * (M - X) <= Z.max x z * 2 ^ (62 - q_bits f)) as HV.
  { rewrite <- Z.mul_min_distr_nonneg_r, <- Z.mul_max_distr_nonneg_r, <- Ex, <- Ez by lia. by apply mix_between. }
  destruct (signal_within (X * LINEARS_FIXED_ONE + k * (M - X)) (Z.min x z) (Z.max x z)) as (e & -> & Be);
    [by destruct (Z.min_spec x z) as [[_ ->]|[_ ->]]|by destruct (Z.max_spec x z) as [[_ ->]|[_ ->]]|lia|lia|].
  cbn [mbind option_bind]. rewrite <- Z.mul_sub_distr_r, div_nearest_1 by done. fit_value. fit_value. fit_value.
  assert (LINEARS_FIXED_ONE <= 2 ^ (62 - q_bits f)) as HO by (by destruct f).
  match goal with |- context [signal f ?V] => destruct (signal_within V 0 (Z.min p r)) as (c & -> & Bc) end;
    [by destruct f|by destruct (Z.min_spec p r) as [[_ ->]|[_ ->]]|lia| |by exists e, c].
  assert (Z.min P R * LINEARS_FIXED_ONE = Z.min p r * 2 ^ (62 - q_bits f)); [|lia].
  by rewrite <- !Z.mul_min_distr_nonneg_r, Ep, Er by (done || lia).
Qed.


(** With a direct observation (h = 1) a q15 or q31 update never fails, its
    estimate lies between the previous estimate and the measurement, and its
    covariance is at most the previous covariance and at most the measurement
    noise: a measurement never adds uncertainty, rounding included. *)
Theorem kalman_direct_observation (s : kalman Z) (z r : Z) :
  kalman_reach s -> q_repr f z -> q_repr f r -> 0 < r ->
  exists e c, kalman_update (Some s) z LINEARS_FIXED_ONE r = (LINEARS_OK, Some (mk_kalman e c)) /\
    Z.min (estimate s) z <= e <= Z.max (estimate s) z /\ 0 <= c <= Z.min (covariance s) r.
Proof.
  intros Hs Hz Hr Hpos. destruct (update_cases s z LINEARS_FIXED_ONE r Hs Hz one_i64 Hr) as (He & Hc & Hn & ->).
  rewrite (proj2 (Z.leb_gt r 0)) by done.
  destruct (direct_exact (estimate s) (covariance s) z r) as (e & c & -> & Hb); auto.
  by exists e, c.
Qed.
End Q.

(** ** Witnesses *)

(** A q15 filter reset to 0.25 with variance 0.5. *)
Lemma kalman_start : @kalman_reach _ _ _ (fixed_kalman Q15) (q_signs Q15) (mk_kalman 8192 16384).
Proof. by apply (reach_first (mk_kalman 0 0) 8192 16384). Qed.

Lemma kalman_invariant_witness :
  let x := mk_kalman 8192 16384 in
  @kalman_reach _ _ _ (fixed_kalman Q15) (q_signs Q15) x /\ q_repr Q15 (covariance x).
Proof. split; [apply kalman_start|apply (kalman_invariant (mk_kalman 8192 16384) kalman_start)]. Defined.

Lemma kalman_refines_witness :
  kalman_update (H := fixed_kalman Q15) (Some (mk_kalman 8192 16384)) 16384 LINEARS_FIXED_ONE 16384
  = (LINEARS_OK, Some (mk_kalman 12288 8192)).
Proof.
  etransitivity; [apply (kalman_refines Q15 (mk_kalman 8192 16384) 0 0 16384 LINEARS_FIXED_ONE 16384)|];
    try exact kalman_start; try exact one_i64; try (cbn; rlia). vm_compute. reflexivity.
Defined.

Lemma kalman_direct_observation_witness :
  @kalman_reach _ _ _ (fixed_kalman Q15) (q_signs Q15) (mk_kalman 8192 16384) /\ 0 < 16384 /\
  exists e c, kalman_update (H := fixed_kalman Q15) (Some (mk_kalman 8192 16384)) 16384 LINEARS_FIXED_ONE 16384
    = (LINEARS_OK, Some (mk_kalman e c)) /\ 8192 <= e <= 16384 /\ 0 <= c <= 16384.
Proof.
  split; [exact kalman_start|]. split; [lia|].
  apply (kalman_direct_observation Q15 (mk_kalman 8192 16384) 16384 16384 kalman_start); cbn; rlia.
Defined.
