(* ===== verification/FloatParts.v ===== *)
(** * Floats as dyadic fractions: frexp and ldexp are exact

    The code splits a float into an integer mantissa and a power of two with frexp
    and ldexp.  Nothing is rounded on the way. *)
From Stdlib Require Import SpecFloat.
From S2P Require Import Prelude MachineInt Status Float FcMonad FcFloat.

(** ** Digits *)

Lemma digits_log2 m : Zpos (digits2_pos m) = Z.log2 (Zpos m) + 1.
Proof.
  assert (forall p, digits2_pos p = Pos.size p) as Hsize by (intros p; induction p as [p IH|p IH|]; cbn; congruence).
  rewrite Hsize. destruct m; cbn [Pos.size Z.log2]; lia.
Qed.

Lemma digits_bounds m : 2 ^ (Zpos (digits2_pos m) - 1) <= Zpos m < 2 ^ Zpos (digits2_pos m).
Proof.
  rewrite digits_log2, Z.add_simpl_r, Z.add_1_r. apply (Z.log2_spec (Zpos m)). lia.
Qed.

Lemma iter_xO m d : Zpos (Pos.iter xO m d) = Zpos m * 2 ^ Zpos d.
Proof.
  revert m. induction d as [|d IH] using Pos.peano_ind; intros m; [cbn; lia|].
  rewrite Pos.iter_succ, Pos2Z.inj_succ, Z.pow_succ_r by lia. change (Z.pos (Pos.iter xO m d)~0) with (2 * Z.pos (Pos.iter xO m d)). rewrite IH. ring.
Qed.

Lemma digits_iter_xO m d : Zpos (digits2_pos (Pos.iter xO m d)) = Zpos (digits2_pos m) + Zpos d.
Proof. rewrite !digits_log2, iter_xO, Z.log2_mul_pow2 by lia. lia. Qed.

Section Parts.
Variable f : float_format.
Hypotheses (Hprec : 1 < prec f) (Hemax : prec f < emax f).

(** A mantissa of full length scaled by its precision is itself. *)
Lemma ldexp_full s m : Zpos (digits2_pos m) = prec f ->
  LDEXP f (S754_finite s m (- prec f)) (prec f) = S754_finite s m 0.
Proof.
  intros Hd. unfold LDEXP, SFldexp. rewrite Z.add_opp_diag_l.
  assert (fexp (prec f) (emax f) (Zpos (digits2_pos m)) = 0) as Hf by (unfold fexp, emin; lia).
  unfold binary_round. rewrite Z.add_0_r, Hf. change (shl_align m 0 0) with (m, 0). unfold binary_round_aux.
  assert (shr_fexp (prec f) (emax f) (Zpos m) 0 loc_Exact = (Build_shr_record (Zpos m) false false, 0)) as E
    by (unfold shr_fexp; cbn [Zdigits2]; rewrite Z.add_0_r, Hf; done).
  rewrite E. cbn [shr_m loc_of_shr_record round_nearest_even]. rewrite E. cbn [shr_m]. by rewrite (proj2 (Z.leb_le 0 (emax f - prec f))) by lia.
Qed.

(** The integer mantissa and the exponent of a finite positive value. *)
Lemma frexp_parts m e : Zpos (digits2_pos m) <= prec f ->
  let r := FREXP f (S754_finite false m e) in
  let d := prec f - Zpos (digits2_pos m) in
  to_int (LDEXP f r.1 (prec f)) = Zpos m * 2 ^ d /\ r.2 = e + Zpos (digits2_pos m).
Proof.
  intros Hd. unfold FREXP, SFfrexp. cbv zeta. destruct (Z.leb_spec (prec f) (Zpos (digits2_pos m))) as [Hle|Hlt]; cbn [fst snd].
  - rewrite ldexp_full by lia. replace (prec f - Zpos (digits2_pos m)) with 0 by lia. cbn [to_int Z.leb Z.compare].
    rewrite Z.shiftl_0_r. lia.
  - assert (Zpos (Z.to_pos (prec f - Zpos (digits2_pos m))) = prec f - Zpos (digits2_pos m)) as Ed by (apply Z2Pos.id; lia).
    rewrite ldexp_full by (rewrite digits_iter_xO, Ed; lia). cbn [to_int Z.leb Z.compare]. rewrite Z.shiftl_0_r, iter_xO, Ed. lia.
Qed.

Lemma valid_digits s m e : valid_binary (prec f) (emax f) (S754_finite s m e) = true ->
  Zpos (digits2_pos m) <= prec f /\ emin (prec f) (emax f) <= e <= emax f - prec f.
Proof.
  cbn. unfold bounded, canonical_mantissa, fexp. intros Hv. apply andb_true_iff in Hv as [Hc Hb]. zbool. lia.
Qed.

Lemma fone_finite : fone f = S754_finite false (Z.to_pos (2 ^ (prec f - 1))) (1 - prec f).
Proof.
  unfold fone, float_of_bits. unfold hidden_bit. set (h := 2 ^ (prec f - 1)). assert (0 < h) by (apply Z.pow_pos_nonneg; lia).
  rewrite Z.mod_mul, Z.div_mul, Z.mod_small by (unfold exponents; lia).
  rewrite (proj2 (Z.eqb_neq (emax f - 1) 0)) by lia. rewrite (proj2 (Z.eqb_neq (emax f - 1) (exponents f - 1))) by (unfold exponents; lia).
  rewrite Z.add_0_l, Z.div_small by (unfold exponents; lia). unfold least_exponent. destruct h as [|p|p] eqn:Eh; try lia.
  cbn [Z.eqb Z.to_pos]. f_equal. lia.
Qed.

(** [M / 2^k] is the value of [x]. *)
Definition dyadic (x : spec_float) (M k : Z) : Prop :=
  match x with
  | S754_zero _ => M = 0
  | S754_finite false m e => e <= 0 /\ Zpos m * 2 ^ k = M * 2 ^ (- e)
  | _ => False
  end.

Lemma below_one m e : valid_binary (prec f) (emax f) (S754_finite false m e) = true ->
  flt (S754_finite false m e) (fone f) = true -> e + Zpos (digits2_pos m) <= 0.
Proof.
  intros Hv. destruct (valid_digits _ _ _ Hv) as [Hd He]. rewrite fone_finite. unfold flt, SFltb, SFcompare.
  destruct (Z.compare_spec e (1 - prec f)) as [->|Hlt|Hgt]; intros Hc; [|lia|done].
  assert (Zpos m < 2 ^ (prec f - 1)) as Hm.
  { rewrite <- (Z2Pos.id (2 ^ (prec f - 1))) by (apply Z.pow_pos_nonneg; lia). apply Pos2Z.pos_lt_pos.
    unfold Pos.lt, Pos.compare. by destruct (Pos.compare_cont Eq m (Z.to_pos (2 ^ (prec f - 1)))). }
  pose proof (digits_bounds m) as [Hlow _]. assert (Zpos (digits2_pos m) - 1 < prec f - 1); [|lia].
  apply (Z.pow_lt_mono_r_iff 2); lia.
Qed.
End Parts.
