(* ===== verification/PfInt.v ===== *)
(** * Integer scalars of the q particle filter

    q_integer_bits.h, q_integer_wide.h and the integer helpers at the top of
    pf_q_internal.h: bit lengths, two-word sums and products, division and rounding
    by powers of two.  Each is exact within the range its comment states. *)
From S2P Require Import Prelude MachineInt Wide Numeric.

(** ** Two-word integers *)

Record filters_q_u128_t := mk_u128 { lo : Z; hi : Z }.
Record pf_q_i128_t := mk_i128 { ilo : Z; ihi : Z }.
Record filters_q_rounded_u64_t := mk_rounded { rounded_value : Z; inexact : Z }.

Definition u128_ok (a : filters_q_u128_t) : Prop := is_u64 (lo a) /\ is_u64 (hi a).
Definition u128_value (a : filters_q_u128_t) : Z := lo a + hi a * two64.
Definition i128_ok (a : pf_q_i128_t) : Prop := is_u64 (ilo a) /\ is_i64 (ihi a).
Definition i128_value (a : pf_q_i128_t) : Z := ilo a + ihi a * two64.

(** The builtin: the leading zeros of a nonzero 32-bit word. *)
Definition builtin_clz (x : Z) : Z := 31 - Z.log2 x.

(** The portable loop. *)
Definition bit_length_loop (value : Z) : Z :=
  (while_fuel 64 (fun s => negb (s.2 =? 0)) (fun s => (s.1 + 1, Z.shiftr s.2 1)) (0, value)).1.

(** The branch of GCC, by 32-bit halves. *)
Definition filters_q_bit_length (value : Z) : Z :=
  let high := u32 (Z.shiftr value 32) in
  let low := u32 value in
  if negb (high =? 0) then 64 - builtin_clz high
  else if negb (low =? 0) then 32 - builtin_clz low
  else 0.

Definition filters_q_multiply_u64 (a b : Z) : filters_q_u128_t :=
  let mask := 4294967295 in
  let a0 := Z.land a mask in let a1 := Z.shiftr a 32 in
  let b0 := Z.land b mask in let b1 := Z.shiftr b 32 in
  let low := u64 (a0 * b0) in
  let middle := u64 (u64 (a1 * b0) + Z.shiftr low 32) in
  let carry := Z.shiftr middle 32 in
  let middle := u64 (Z.land middle mask + u64 (a0 * b1)) in
  mk_u128 (Z.lor (u64 (Z.shiftl middle 32)) (Z.land low mask))
          (u64 (u64 (u64 (a1 * b1) + carry) + Z.shiftr middle 32)).

Definition filters_q_u128_bit_length (value : filters_q_u128_t) : Z :=
  if negb (hi value =? 0) then 64 + filters_q_bit_length (hi value) else filters_q_bit_length (lo value).

(** [(UINT64_C(1) << k) - 1] *)
Definition low_mask (k : Z) : Z := u64 (u64 (Z.shiftl 1 k) - 1).

Definition filters_q_round_u128 (value : filters_q_u128_t) (shift : Z) : filters_q_rounded_u64_t :=
  if shift =? 0 then mk_rounded (lo value) 0
  else if 128 <=? shift then
    mk_rounded (if shift =? 128 then Z.shiftr (hi value) 63 else 0)
               (Z.b2z (negb (lo value =? 0) || negb (hi value =? 0)))
  else
    let '(result, rounding, lost) :=
      if shift <? 64 then
        (Z.lor (Z.shiftr (lo value) shift) (u64 (Z.shiftl (hi value) (64 - shift))),
         Z.land (Z.shiftr (lo value) (shift - 1)) 1,
         negb (Z.land (lo value) (low_mask shift) =? 0))
      else if shift =? 64 then (hi value, Z.shiftr (lo value) 63, negb (lo value =? 0))
      else
        let tail := shift - 64 in
        (Z.shiftr (hi value) tail, Z.land (Z.shiftr (hi value) (tail - 1)) 1,
         negb (Z.land (hi value) (low_mask tail) =? 0) || negb (lo value =? 0)) in
    mk_rounded (u64 (result + rounding)) (Z.b2z lost).

(** ** pf_q_internal.h *)

Definition pf_q_uadd (a b : filters_q_u128_t) : filters_q_u128_t :=
  let l := u64 (lo a + lo b) in
  mk_u128 l (u64 (u64 (hi a + hi b) + Z.b2z (l <? lo a))).

Definition pf_q_ucmp (a b : filters_q_u128_t) : Z :=
  if negb (hi a =? hi b) then (if hi a <? hi b then -1 else 1)
  else if lo a =? lo b then 0 else if lo a <? lo b then -1 else 1.

Definition pf_q_umul (a b : Z) : filters_q_u128_t := filters_q_multiply_u64 a b.

Definition pf_q_umul32 (a : filters_q_u128_t) (b : Z) : filters_q_u128_t :=
  let r := pf_q_umul (lo a) b in mk_u128 (lo r) (u64 (hi r + u64 (hi a * b))).

Definition pf_q_ubits (a : filters_q_u128_t) : Z := filters_q_u128_bit_length a.
Definition pf_q_uround (a : filters_q_u128_t) (shift : Z) : Z := rounded_value (filters_q_round_u128 a shift).

(** Bit [bit] of [a], as the division reads it. *)
Definition udiv_digit (a : filters_q_u128_t) (bit : Z) : Z :=
  if 64 <=? bit then Z.land (Z.shiftr (hi a) (bit - 64)) 1 else Z.land (Z.shiftr (lo a) bit) 1.

(** One step over (quotient, remainder). *)
Definition udiv_step (a : filters_q_u128_t) (d bit : Z) (s : Z * Z) : Z * Z :=
  let r := Z.lor (u64 (Z.shiftl s.2 1)) (udiv_digit a bit) in
  if d <=? r
  then (if bit <? 64 then Z.lor s.1 (u64 (Z.shiftl 1 bit)) else s.1, u64 (r - d))
  else (s.1, r).

(** The quotient and [*remainder]. *)
Definition pf_q_udiv (a : filters_q_u128_t) (d : Z) : Z * Z :=
  for_down (Z.to_nat (pf_q_ubits a)) (fun bit s => udiv_step a d (Z.of_nat bit - 1) s) (0, 0).

(** Word [i] of the product of [a] and [mantissa], and of the result. *)
Definition product_words (a : filters_q_u128_t) (mantissa : Z) : list Z :=
  let p := pf_q_umul (lo a) mantissa in
  let q := pf_q_umul (hi a) mantissa in
  let middle := u64 (hi p + lo q) in
  [lo p; middle; u64 (hi q + Z.b2z (middle <? hi p))].

Definition shifted_word (words : list Z) (source : nat) (tail : Z) : Z :=
  if (source <? 3)%nat then
    let word := Z.shiftr (nth source words 0) tail in
    if negb (tail =? 0) && (source + 1 <? 3)%nat
    then Z.lor word (u64 (Z.shiftl (nth (source + 1) words 0) (64 - tail))) else word
  else 0.

(** The product shifted right, and [*fraction]. *)
Definition pf_q_uniform_product (a : filters_q_u128_t) (mantissa shift : Z) : filters_q_u128_t * bool :=
  let words := product_words a mantissa in
  let whole := Z.to_nat (shift / 64) in
  let tail := shift mod 64 in
  (mk_u128 (shifted_word words whole tail) (shifted_word words (whole + 1) tail),
   existsb (fun w => negb (w =? 0)) (take whole words) ||
   ((whole <? 3)%nat && negb (tail =? 0) && negb (Z.land (nth whole words 0) (low_mask tail) =? 0))).

Definition pf_q_iadd (sum : pf_q_i128_t) (magnitude : Z) (negative : bool) : pf_q_i128_t :=
  let previous := ilo sum in
  if negative then mk_i128 (u64 (ilo sum - magnitude)) (i64 (ihi sum - Z.b2z (previous <? magnitude)))
  else let l := u64 (ilo sum + magnitude) in mk_i128 l (i64 (ihi sum + Z.b2z (l <? previous))).

Definition pf_q_magnitude (value : Z) : Z := if value <? 0 then u64 (- (value + 1)) + 1 else value.

(** ** Bit lengths *)

Definition bits_of (x : Z) : Z := if x =? 0 then 0 else Z.log2 x + 1.

Lemma bits_of_spec x : 0 <= x -> 0 <= bits_of x /\ x < 2 ^ bits_of x /\ (x <> 0 -> 2 ^ (bits_of x - 1) <= x).
Proof.
  intros Hx. unfold bits_of. destruct (Z.eqb_spec x 0) as [->|]; [done|].
  pose proof (Z.log2_spec x ltac:(lia)) as [H1 H2]. pose proof (Z.log2_nonneg x).
  rewrite Z.add_simpl_r. split; [lia|]. split; [by rewrite Z.add_1_r|auto].
Qed.

Lemma bits_of_div2 x : 0 < x -> bits_of (x / 2) = bits_of x - 1.
Proof.
  intros Hx. unfold bits_of. rewrite (proj2 (Z.eqb_neq x 0)) by lia.
  destruct (Z.eqb_spec (x / 2) 0) as [E|E].
  - assert (x = 1) as -> by (pose proof (Z.div_mod x 2 ltac:(lia)); pose proof (Z.mod_pos_bound x 2 ltac:(lia)); lia). done.
  - change 2 with (2 ^ 1) at 1. rewrite <- Z.shiftr_div_pow2, Z.log2_shiftr by lia.
    assert (1 <= Z.log2 x) by (apply (Z.log2_le_pow2); [lia|pose proof (Z.div_mod x 2 ltac:(lia)); pose proof (Z.mod_pos_bound x 2 ltac:(lia)); pose proof (Z.div_pos x 2); lia]).
    lia.
Qed.

Lemma filters_q_bit_length_spec v : is_u64 v -> filters_q_bit_length v = bits_of v.
Proof.
  intros Hv. unfold filters_q_bit_length, builtin_clz, bits_of. rewrite Z.shiftr_div_pow2 by lia. change (2 ^ 32) with 4294967296.
  assert (0 <= v / 4294967296 < 4294967296) by (split; [apply Z.div_pos; rlia|apply Z.div_lt_upper_bound; rlia]).
  rewrite (u32_id (v / _)) by rlia. pose proof (Z.div_mod v 4294967296 ltac:(lia)) as D.
  pose proof (Z.mod_pos_bound v 4294967296 ltac:(lia)).
  destruct (Z.eqb_spec (v / 4294967296) 0) as [E|E]; cbn [negb].
  - assert (v = u32 v) as Ev by (unfold u32; lia). rewrite <- Ev.
    destruct (Z.eqb_spec v 0); cbn [negb]; lia.
  - rewrite (proj2 (Z.eqb_neq v 0)) by lia. change 4294967296 with (2 ^ 32). rewrite <- Z.shiftr_div_pow2, Z.log2_shiftr by lia.
    assert (32 <= Z.log2 v) by (apply Z.log2_le_pow2; lia). lia.
Qed.

(** Both branches of the preprocessor agree. *)
Lemma bit_length_loop_spec v : is_u64 v -> bit_length_loop v = bits_of v.
Proof.
  intros Hv. unfold bit_length_loop.
  destruct (while_fuel_rule (fun s : Z * Z => negb (s.2 =? 0)) (fun s => (s.1 + 1, Z.shiftr s.2 1))
    (fun s => 0 <= s.2 /\ s.1 + bits_of s.2 = bits_of v) (fun s => Z.to_nat (bits_of s.2))) with (fuel := 64%nat) (s := (0, v))
    as ((_ & Hs) & Hg).
  - intros [n x] [Hx Hn] Hg. cbn in *. zbool. rewrite Z.shiftr_div_pow2 by lia. change (2 ^ 1) with 2.
    pose proof (bits_of_div2 x ltac:(lia)) as E. pose proof (bits_of_spec x Hx) as (? & ? & Hlow).
    assert (bits_of x <> 0) by (intros Ez; rewrite Ez in *; cbn in *; lia). pose proof (Z.div_pos x 2). lia.
  - cbn. rlia.
  - cbn. unfold bits_of. destruct (v =? 0) eqn:E; [lia|]. zbool.
    assert (Z.log2 v < 64) by (apply Z.log2_lt_pow2; rlia). lia.
  - intros [n x] [Hx Hn] Hz. cbn in *. pose proof (bits_of_spec x Hx) as (? & ? & Hlow).
    assert (bits_of x = 0) as E by lia. rewrite E in *. change (2 ^ 0) with 1 in *. assert (x = 0) as -> by lia. done.
  - set (r := while_fuel _ _ _ _) in *. zbool. rewrite Hg in Hs. change (bits_of 0) with 0 in Hs. lia.
Qed.

Lemma pf_q_ubits_spec a : u128_ok a -> pf_q_ubits a = bits_of (u128_value a).
Proof.
  intros [Hl Hh]. unfold pf_q_ubits, filters_q_u128_bit_length. rewrite !filters_q_bit_length_spec by done.
  unfold u128_value. destruct (Z.eqb_spec (hi a) 0) as [->|E]; cbn [negb]; [f_equal; lia|].
  unfold bits_of. rewrite !(proj2 (Z.eqb_neq _ 0)) by (unfold two64; rlia).
  assert (Z.log2 (lo a + hi a * two64) = 64 + Z.log2 (hi a)) as ->; [|lia].
  pose proof (Z.log2_spec (hi a) ltac:(rlia)) as [H1 H2]. apply Z.log2_unique; [pose proof (Z.log2_nonneg (hi a)); lia|].
  pose proof (Z.log2_nonneg (hi a)). rewrite Z.pow_succ_r, !Z.pow_add_r by lia. rewrite Z.pow_succ_r in H2 by lia.
  change (2 ^ 64) with two64. unfold two64 in *. unfold_ranges. nia.
Qed.

(** ** Words *)

Lemma u128_range a : u128_ok a -> 0 <= u128_value a < two128.
Proof. intros [H1 H2]. unfold u128_value, two64, two128. unfold_ranges. lia. Qed.

(** The words of a value. *)
Lemma u128_unique a v : 0 <= v < two128 -> lo a = v mod two64 -> hi a = v / two64 -> u128_ok a /\ u128_value a = v.
Proof.
  intros Hv El Eh. pose proof (Z.div_mod v two64 ltac:(done)). pose proof (Z.mod_pos_bound v two64 ltac:(done)).
  assert (0 <= v / two64 < two64) by (unfold two128, two64 in *; split; [apply Z.div_pos; lia|apply Z.div_lt_upper_bound; lia]).
  unfold u128_ok, u128_value. rewrite El, Eh. unfold two64 in *. unfold_ranges. lia.
Qed.

(** A shift that stays within, or passes, the low word. *)
Lemma div_low l h k : 0 <= k <= 64 -> (l + h * two64) / 2 ^ k = l / 2 ^ k + h * 2 ^ (64 - k).
Proof.
  intros Hk. pose proof (Z.pow_pos_nonneg 2 k). replace two64 with (2 ^ (64 - k) * 2 ^ k).
  - rewrite Z.mul_assoc, Z.div_add by lia. done.
  - rewrite <- Z.pow_add_r by lia. by replace (64 - k + k) with 64 by lia.
Qed.

Lemma mod_low l h k : 0 <= k <= 64 -> (l + h * two64) mod 2 ^ k = l mod 2 ^ k.
Proof.
  intros Hk. pose proof (Z.pow_pos_nonneg 2 k). replace two64 with (2 ^ (64 - k) * 2 ^ k).
  - by rewrite Z.mul_assoc, Z.mod_add by lia.
  - rewrite <- Z.pow_add_r by lia. by replace (64 - k + k) with 64 by lia.
Qed.

Lemma div_high l h k : 64 <= k -> is_u64 l -> (l + h * two64) / 2 ^ k = h / 2 ^ (k - 64).
Proof.
  intros Hk Hl. replace k with (64 + (k - 64)) at 1 by lia. rewrite Z.pow_add_r by lia.
  pose proof (Z.pow_pos_nonneg 2 (k - 64) ltac:(lia) ltac:(lia)). change (2 ^ 64) with two64.
  rewrite <- Z.div_div by (done || lia). rewrite Z.div_add, (Z.div_small l) by (unfold two64; rlia). done.
Qed.

Lemma mod_high l h k : 64 <= k -> is_u64 l -> (l + h * two64) mod 2 ^ k = l + (h mod 2 ^ (k - 64)) * two64.
Proof.
  intros Hk Hl. pose proof (Z.pow_pos_nonneg 2 (k - 64) ltac:(lia) ltac:(lia)).
  assert (2 ^ k = 2 ^ (k - 64) * two64) as E by (change two64 with (2 ^ 64); rewrite <- Z.pow_add_r by lia; f_equal; lia).
  symmetry. apply Z.mod_unique with (h / 2 ^ (k - 64)).
  - left. pose proof (Z.mod_pos_bound h (2 ^ (k - 64)) ltac:(lia)). rewrite E. unfold two64. unfold_ranges. nia.
  - rewrite E. pose proof (Z.div_mod h (2 ^ (k - 64)) ltac:(lia)). unfold two64. nia.
Qed.

Lemma low_mask_eq k : 0 <= k < 64 -> low_mask k = 2 ^ k - 1.
Proof.
  intros Hk. unfold low_mask. rewrite Z.shiftl_1_l.
  assert (2 ^ k < 2 ^ 64) by (apply Z.pow_lt_mono_r; lia). pose proof (Z.pow_pos_nonneg 2 k). change (2 ^ 64) with 18446744073709551616 in *.
  rewrite (u64_id (2 ^ k)), u64_id by rlia. done.
Qed.

Lemma land_one x : Z.land x 1 = x mod 2.
Proof. apply (land_mask x 1). lia. Qed.

(** Rounding half up to a multiple of a power of two looks at one bit. *)
Lemma half_up_pow2 v k : 0 < k -> half_up v (2 ^ k) = v / 2 ^ k + v / 2 ^ (k - 1) mod 2.
Proof.
  intros Hk. unfold half_up. set (h := 2 ^ (k - 1)). assert (0 < h) by (apply Z.pow_pos_nonneg; lia).
  assert (2 ^ k = h * 2) as -> by (unfold h; rewrite Z.mul_comm, <- Z.pow_succ_r by lia; f_equal; lia).
  replace (2 * v + h * 2) with (2 * (v + 1 * h)) by lia. rewrite Z.div_mul_cancel_l by lia.
  rewrite <- !Z.div_div, Z.div_add by lia. set (q := v / h).
  pose proof (Z.div_mod q 2 ltac:(lia)). pose proof (Z.mod_pos_bound q 2 ltac:(lia)).
  pose proof (Z.div_mod (q + 1) 2 ltac:(lia)). pose proof (Z.mod_pos_bound (q + 1) 2 ltac:(lia)). lia.
Qed.

(** ** Exactness *)

Lemma pf_q_umul_spec a b : is_u64 a -> is_u64 b -> u128_ok (pf_q_umul a b) /\ u128_value (pf_q_umul a b) = a * b.
Proof.
  intros Ha Hb. pose proof (limb_product_spec a b Ha Hb) as [[Hl Hh] E]. unfold pf_q_umul, filters_q_multiply_u64.
  change 4294967295 with (2 ^ 32 - 1). rewrite !land_mask by lia. change (2 ^ 32) with 4294967296. fold (u32 a) (u32 b).
  cbv zeta in *. split; [split; assumption|exact E].
Qed.

Lemma pf_q_uadd_spec a b : u128_ok a -> u128_ok b -> u128_value a + u128_value b < two128 ->
  u128_ok (pf_q_uadd a b) /\ u128_value (pf_q_uadd a b) = u128_value a + u128_value b.
Proof.
  intros [Hal Hah] [Hbl Hbh] Hs. unfold u128_value, two64, two128 in *. unfold pf_q_uadd, u128_ok. cbn [lo hi]. unfold u64. unfold_ranges.
  assert (hi a + hi b < 18446744073709551616) by lia. rewrite (Z.mod_small (hi a + hi b)) by lia.
  destruct (Z.lt_ge_cases (lo a + lo b) 18446744073709551616) as [Hc|Hc].
  - rewrite (Z.mod_small (lo a + lo b)) by lia. replace (lo a + lo b <? lo a) with false by lia. cbn [Z.b2z].
    rewrite Z.mod_small by lia. lia.
  - replace ((lo a + lo b) mod 18446744073709551616) with (lo a + lo b - 18446744073709551616)
      by (apply Z.mod_unique with 1; lia).
    replace (lo a + lo b - 18446744073709551616 <? lo a) with true by lia. cbn [Z.b2z]. rewrite Z.mod_small by lia. lia.
Qed.

Lemma pf_q_ucmp_spec a b : u128_ok a -> u128_ok b -> pf_q_ucmp a b = Z.sgn (u128_value a - u128_value b).
Proof.
  intros [Hal Hah] [Hbl Hbh]. unfold pf_q_ucmp, u128_value, two64. unfold_ranges. symmetry.
  destruct (Z.eqb_spec (hi a) (hi b)) as [E|E]; cbn [negb].
  - destruct (Z.eqb_spec (lo a) (lo b)); [apply Z.sgn_null; lia|]. case_if; [apply Z.sgn_neg|apply Z.sgn_pos]; lia.
  - case_if; [apply Z.sgn_neg|apply Z.sgn_pos]; lia.
Qed.

Lemma pf_q_umul32_spec a b : u128_ok a -> is_u32 b -> u128_value a * b < two128 ->
  u128_ok (pf_q_umul32 a b) /\ u128_value (pf_q_umul32 a b) = u128_value a * b.
Proof.
  intros [Hal Hah] Hb Hs. destruct (pf_q_umul_spec (lo a) b Hal ltac:(rlia)) as [[Hl Hh] E].
  unfold pf_q_umul32, u128_ok. unfold u128_value, two64, two128 in *. cbn [lo hi]. unfold_ranges.
  assert (0 <= lo a * b) by nia. assert (0 <= hi a * b < 18446744073709551616) by nia.
  rewrite (u64_id (hi a * b)) by rlia. rewrite u64_id by rlia. lia.
Qed.

Lemma filters_q_round_u128_spec a k : u128_ok a -> 0 <= k -> half_up (u128_value a) (2 ^ k) < two64 ->
  filters_q_round_u128 a k =
  mk_rounded (half_up (u128_value a) (2 ^ k)) (Z.b2z (negb (u128_value a mod 2 ^ k =? 0))).
Proof.
  intros Ha Hk Hfit. pose proof (u128_range a Ha) as Hr. destruct Ha as [Hl Hh]. unfold filters_q_round_u128.
  set (V := u128_value a) in *. pose proof (Z.pow_pos_nonneg 2 k ltac:(lia) Hk).
  destruct (Z.eqb_spec k 0) as [->|Hk0].
  { change (2 ^ 0) with 1 in *. rewrite Z.mod_1_r. assert (half_up V 1 = V) as E.
    { unfold half_up. change (2 * 1) with 2. rewrite Z.add_comm, Z.mul_comm, Z.div_add by lia. done. }
    rewrite E in *. cbn [Z.eqb negb Z.b2z]. f_equal. unfold V, u128_value, two64 in *. unfold_ranges. lia. }
  destruct (Z.leb_spec 128 k).
  { assert (two128 <= 2 ^ k) by (change two128 with (2 ^ 128); apply Z.pow_le_mono_r; lia).
    rewrite (Z.mod_small V) by lia. f_equal.
    - rewrite half_up_pow2, (Z.div_small V) by lia. destruct (Z.eqb_spec k 128) as [->|].
      + unfold V, u128_value. rewrite div_high by (lia || done). rewrite Z.shiftr_div_pow2 by lia. change (128 - 1 - 64) with 63.
        symmetry. apply Z.mod_small. split; [apply Z.div_pos; rlia|apply Z.div_lt_upper_bound; [lia|]]. change (2 ^ 63 * 2) with two64. unfold two64. rlia.
      + assert (two128 <= 2 ^ (k - 1)) by (change two128 with (2 ^ 128); apply Z.pow_le_mono_r; lia).
        by rewrite (Z.div_small V) by lia.
    - unfold V, u128_value, two64. unfold_ranges. destruct (Z.eqb_spec (lo a) 0), (Z.eqb_spec (hi a) 0); cbn [negb orb]; f_equal; lia. }
  rewrite half_up_pow2 in * by lia. pose proof (Z.mod_pos_bound (V / 2 ^ (k - 1)) 2 ltac:(lia)).
  assert (0 <= V / 2 ^ k) by (apply Z.div_pos; lia). unfold V, u128_value in *.
  destruct (Z.ltb_spec k 64).
  - rewrite low_mask_eq, land_one, land_mask, !Z.shiftr_div_pow2, mod_low by lia. rewrite !div_low in * by lia.
    f_equal. replace (64 - (k - 1)) with (64 - k + 1) by lia. rewrite Z.pow_add_r, Z.mul_assoc, Z.mod_add by lia.
    assert (0 < 2 ^ (64 - k)) by (apply Z.pow_pos_nonneg; lia). assert (0 <= lo a / 2 ^ k) by (apply Z.div_pos; rlia).
    assert (0 <= hi a * 2 ^ (64 - k)) by (unfold_ranges; nia).
    rewrite (u64_id (Z.shiftl _ _)) by (rewrite Z.shiftl_mul_pow2 by lia; unfold two64 in *; rlia).
    rewrite Z.lor_comm, lor_shiftl_add.
    + pose proof (Z.mod_pos_bound (lo a / 2 ^ (k - 1)) 2 ltac:(lia)). replace (64 - (k - 1)) with (64 - k + 1) in * by lia.
      rewrite Z.pow_add_r, Z.mul_assoc, Z.mod_add in Hfit by lia.
      rewrite u64_id by (unfold two64 in *; rlia). lia.
    + lia.
    + split; [done|]. apply Z.div_lt_upper_bound; [lia|]. rewrite <- Z.pow_add_r by lia.
      replace (k + (64 - k)) with 64 by lia. unfold_ranges. lia.
  - destruct (Z.eqb_spec k 64) as [->|].
    + rewrite mod_high by (lia || done). change (64 - 64) with 0. rewrite Z.mod_1_r, Z.mul_0_l, Z.add_0_r. f_equal.
      change (64 - 1) with 63 in *. rewrite (div_low _ _ 63), (div_high _ _ 64) in * by (lia || done).
      change (64 - 64) with 0 in *. change (2 ^ (64 - 63)) with 2 in *. change (2 ^ 0) with 1 in *. rewrite Z.div_1_r, Z.mod_add in * by lia.
      rewrite Z.shiftr_div_pow2 by lia.
      assert (lo a / 2 ^ 63 mod 2 = lo a / 2 ^ 63) as E; [|rewrite E in *; apply u64_id; unfold two64 in *; rlia].
      apply Z.mod_small. split; [apply Z.div_pos; rlia|apply Z.div_lt_upper_bound; rlia].
    + rewrite low_mask_eq, land_one, land_mask, !Z.shiftr_div_pow2 by lia. rewrite !div_high, mod_high in * by (lia || done).
      replace (k - 1 - 64) with (k - 64 - 1) in * by lia. f_equal.
      * apply u64_id. unfold two64 in *. rlia.
      * pose proof (Z.mod_pos_bound (hi a) (2 ^ (k - 64)) ltac:(apply Z.pow_pos_nonneg; lia)). unfold two64 in *. unfold_ranges.
        destruct (Z.eqb_spec (hi a mod 2 ^ (k - 64)) 0), (Z.eqb_spec (lo a) 0); cbn [negb orb]; f_equal; lia.
Qed.

Lemma pf_q_uround_spec a k : u128_ok a -> 0 <= k -> half_up (u128_value a) (2 ^ k) < two64 ->
  pf_q_uround a k = half_up (u128_value a) (2 ^ k).
Proof. intros Ha Hk Hf. unfold pf_q_uround. by rewrite filters_q_round_u128_spec. Qed.

(** ** Division *)

Lemma udiv_digit_spec a bit : u128_ok a -> 0 <= bit < 128 -> udiv_digit a bit = u128_value a / 2 ^ bit mod 2.
Proof.
  intros [Hl Hh] Hb. unfold udiv_digit, u128_value. rewrite !land_one. destruct (Z.leb_spec 64 bit).
  - by rewrite Z.shiftr_div_pow2, div_high by (lia || done).
  - rewrite Z.shiftr_div_pow2, div_low by lia. replace (64 - bit) with (64 - bit - 1 + 1) by lia.
    rewrite Z.pow_add_r, Z.mul_assoc by lia. by rewrite Z.mod_add.
Qed.

(** The quotient and remainder of the bits of [a] from [bit] up. *)
Definition udiv_inv (a : filters_q_u128_t) (d : Z) (bit : nat) (s : Z * Z) : Prop :=
  let top := u128_value a / 2 ^ Z.of_nat bit in
  s.1 = top / d * 2 ^ Z.of_nat bit /\ s.2 = top mod d.

Lemma udiv_step_inv a d (bit : nat) s : u128_ok a -> (bit < 128)%nat -> 0 < d <= 2 ^ 63 -> u128_value a / d < two64 ->
  udiv_inv a d (S bit) s -> udiv_inv a d bit (udiv_step a d (Z.of_nat (S bit) - 1) s).
Proof.
  intros Ha Hb Hd Hq. unfold udiv_inv. cbv zeta. replace (Z.of_nat (S bit) - 1) with (Z.of_nat bit) by lia.
  rewrite Nat2Z.inj_succ, Z.pow_succ_r by lia. set (k := Z.of_nat bit) in *. set (P := 2 ^ k).
  assert (0 < P) by (apply Z.pow_pos_nonneg; lia). set (V := u128_value a) in *.
  pose proof (u128_range a Ha) as HV. fold V in HV.
  rewrite (Z.mul_comm 2 P), <- Z.div_div by lia. set (t := V / P) in *. assert (0 <= t) by (apply Z.div_pos; lia).
  pose proof (Z.div_mod t 2 ltac:(lia)) as Ht. pose proof (Z.mod_pos_bound t 2 ltac:(lia)).
  set (u := t / 2) in *. set (b := t mod 2) in *.
  pose proof (Z.div_mod u d ltac:(lia)) as Hu. pose proof (Z.mod_pos_bound u d ltac:(lia)).
  set (q := u / d) in *. set (r := u mod d) in *. assert (0 <= u) by (apply Z.div_pos; lia). assert (0 <= q) by (apply Z.div_pos; lia).
  intros [E1 E2]. unfold udiv_step. rewrite E1, E2, udiv_digit_spec by (done || lia). fold V P t b.
  assert (Z.lor (u64 (Z.shiftl r 1)) b = 2 * r + b) as ->.
  { rewrite u64_id by (rewrite Z.shiftl_mul_pow2 by lia; rlia). rewrite lor_shiftl_add by lia. lia. }
  assert (t = 2 * q * d + (2 * r + b)) as Et by lia.
  destruct (Z.leb_spec d (2 * r + b)) as [Hge|Hlt]; cbn [fst snd].
  - assert (t / d = 2 * q + 1) as Eq by (symmetry; apply Z.div_unique with (2 * r + b - d); lia).
    assert (t mod d = 2 * r + b - d) as Er by (symmetry; apply Z.mod_unique with (2 * q + 1); lia).
    rewrite Eq, Er. rewrite (u64_id (2 * r + b - d)) by rlia. split; [|done].
    assert ((2 * q + 1) * P <= V / d) as Hle.
    { apply Z.div_le_lower_bound; [lia|]. pose proof (Z.mul_div_le V P ltac:(lia)) as Hdm. fold t in Hdm. nia. }
    assert (P <= (2 * q + 1) * P) by nia.
    assert (P < two64) by lia.
    assert (k < 64) as Hk by (apply (Z.pow_lt_mono_r_iff 2); [lia|lia|]; fold P; change (2 ^ 64) with two64; lia).
    rewrite (proj2 (Z.ltb_lt k 64)) by done. rewrite Z.shiftl_1_l. fold P. rewrite u64_id by (unfold two64 in *; rlia).
    unfold P in *. replace (q * (2 ^ k * 2)) with (q * 2 ^ (k + 1)) by (rewrite Z.pow_add_r by lia; lia).
    rewrite (lor_add_disjoint _ _ (k + 1)); [rewrite Z.pow_add_r by lia; lia|lia| |apply Z.mod_mul; apply Z.pow_nonzero; lia].
    rewrite Z.pow_add_r by lia. lia.
  - assert (t / d = 2 * q) as Eq by (symmetry; apply Z.div_unique with (2 * r + b); lia).
    assert (t mod d = 2 * r + b) as Er by (symmetry; apply Z.mod_unique with (2 * q); lia).
    rewrite Eq, Er. split; [lia|done].
Qed.

Lemma pf_q_udiv_spec a d : u128_ok a -> 0 < d <= 2 ^ 63 -> u128_value a / d < two64 ->
  pf_q_udiv a d = (u128_value a / d, u128_value a mod d).
Proof.
  intros Ha Hd Hq. pose proof (u128_range a Ha) as HV. unfold pf_q_udiv. rewrite pf_q_ubits_spec by done.
  pose proof (bits_of_spec (u128_value a) ltac:(lia)) as (Hb0 & Hb & Hlow).
  assert (bits_of (u128_value a) <= 128) as Hb128.
  { destruct (Z.le_gt_cases (bits_of (u128_value a)) 128); [done|]. exfalso. assert (u128_value a <> 0) as Hn.
    { intros E. rewrite E in *. cbn in *. lia. }
    specialize (Hlow Hn). assert (two128 <= 2 ^ (bits_of (u128_value a) - 1)) by (change two128 with (2 ^ 128); apply Z.pow_le_mono_r; lia). lia. }
  set (n := Z.to_nat (bits_of (u128_value a))) in *.
  destruct (for_down_rule (fun bit s => udiv_step a d (Z.of_nat bit - 1) s) (fun bit s => (bit <= n)%nat /\ udiv_inv a d bit s))
    with (n := n) (s := (0, 0)) as (_ & E1 & E2).
  { intros i s [Hi Hs]. split; [lia|]. apply udiv_step_inv; (done || lia). }
  { split; [done|]. unfold udiv_inv, n. rewrite Z2Nat.id by lia. rewrite (Z.div_small (u128_value a)) by lia.
    cbn [fst snd]. by rewrite Z.div_0_l, Z.mod_0_l by lia. }
  change (2 ^ Z.of_nat 0) with 1 in *. rewrite Z.div_1_r in *. rewrite Z.mul_1_r in E1.
  rewrite (surjective_pairing (for_down _ _ _)). by rewrite E1, E2.
Qed.

(** ** The product with a binary fraction *)

Definition words_value (words : list Z) : Z := nth 0 words 0 + nth 1 words 0 * two64 + nth 2 words 0 * two128.

Lemma product_words_spec a m : u128_ok a -> is_u64 m ->
  length (product_words a m) = 3%nat /\ Forall is_u64 (product_words a m) /\ words_value (product_words a m) = u128_value a * m.
Proof.
  intros [Hl Hh] Hm. destruct (pf_q_umul_spec (lo a) m Hl Hm) as [[Hpl Hph] Ep]. destruct (pf_q_umul_spec (hi a) m Hh Hm) as [[Hql Hqh] Eq].
  unfold product_words, words_value. cbn [nth]. split; [done|].
  split; [repeat constructor; try apply u64_range; apply Hpl|]. unfold u128_value, two64, two128 in *.
  set (p := pf_q_umul (lo a) m) in *. set (q := pf_q_umul (hi a) m) in *. clearbody p q. unfold_ranges.
  assert (lo q + hi q * 18446744073709551616 <= 18446744073709551615 * 18446744073709551615) as Hq by nia.
  destruct (Z.lt_ge_cases (hi p + lo q) 18446744073709551616) as [Hc|Hc].
  - rewrite (u64_id (hi p + lo q)) by rlia. replace (hi p + lo q <? hi p) with false by lia. cbn [Z.b2z]. rewrite u64_id by rlia. lia.
  - assert (u64 (hi p + lo q) = hi p + lo q - 18446744073709551616) as -> by (symmetry; apply Z.mod_unique with 1; lia).
    replace (hi p + lo q - 18446744073709551616 <? hi p) with true by lia. cbn [Z.b2z]. rewrite u64_id by rlia. lia.
Qed.

(** The word that a shift by less than a word leaves at the bottom. *)
Lemma word_shift l h t : is_u64 l -> 0 < t < 64 ->
  Z.lor (Z.shiftr l t) (u64 (Z.shiftl h (64 - t))) = (l + h * two64) / 2 ^ t mod two64.
Proof.
  intros Hl Ht. rewrite div_low, Z.shiftr_div_pow2, Z.shiftl_mul_pow2 by lia.
  assert (two64 = 2 ^ t * 2 ^ (64 - t)) as E by (rewrite <- Z.pow_add_r by lia; by replace (t + (64 - t)) with 64 by lia).
  assert (0 < 2 ^ t) by (apply Z.pow_pos_nonneg; lia). assert (0 < 2 ^ (64 - t)) by (apply Z.pow_pos_nonneg; lia).
  assert (0 <= l / 2 ^ t < 2 ^ (64 - t)).
  { split; [apply Z.div_pos; rlia|apply Z.div_lt_upper_bound; [lia|]]. rewrite <- E. unfold two64. rlia. }
  assert (u64 (h * 2 ^ (64 - t)) = Z.shiftl (h mod 2 ^ t) (64 - t)) as ->.
  { unfold u64. change 18446744073709551616 with two64. by rewrite E, Z.mul_mod_distr_r, Z.shiftl_mul_pow2 by lia. }
  rewrite Z.lor_comm, lor_shiftl_add by lia. pose proof (Z.mod_pos_bound h (2 ^ t) ltac:(lia)).
  apply Z.mod_unique with (h / 2 ^ t).
  - left. rewrite E. nia.
  - rewrite E. pose proof (Z.div_mod h (2 ^ t) ltac:(lia)). nia.
Qed.

Section Shifted.
Variables w0 w1 w2 : Z.
Hypotheses (H0 : is_u64 w0) (H1 : is_u64 w1) (H2 : is_u64 w2).
Let words := [w0; w1; w2].
Let W := words_value words.

Lemma words_nested : W = w0 + (w1 + w2 * two64) * two64.
Proof. unfold W, words_value, words. cbn [nth]. unfold two64, two128. lia. Qed.

(** The words above [source], as one number. *)
Definition words_from (source : nat) : Z :=
  match source with O => W | 1%nat => w1 + w2 * two64 | 2%nat => w2 | _ => 0 end.

Lemma words_small : 0 <= W < 2 ^ 192.
Proof. rewrite words_nested. change (2 ^ 192) with (two64 * two64 * two64). unfold two64. unfold_ranges. lia. Qed.

Lemma words_from_spec source t : 0 <= t -> W / 2 ^ (64 * Z.of_nat source + t) = words_from source / 2 ^ t.
Proof.
  intros Ht. destruct source as [|[|[|source]]]; unfold words_from.
  - by rewrite Nat2Z.inj_0, Z.mul_0_r, Z.add_0_l.
  - rewrite words_nested, div_high by (lia || done). f_equal. f_equal. lia.
  - rewrite words_nested, div_high, div_high by (lia || done). f_equal. f_equal. lia.
  - pose proof words_small. rewrite Z.div_0_l by (apply Z.pow_nonzero; lia). apply Z.div_small.
    assert (2 ^ 192 <= 2 ^ (64 * Z.of_nat (S (S (S source))) + t)) by (apply Z.pow_le_mono_r; lia). lia.
Qed.

Lemma shifted_word_spec source t : 0 <= t < 64 ->
  shifted_word words source t = W / 2 ^ (64 * Z.of_nat source + t) mod two64.
Proof.
  intros Ht. rewrite words_from_spec by lia. unfold shifted_word, words.
  assert (forall w, is_u64 w -> Z.shiftr w t = w / 2 ^ t mod two64) as Htop.
  { intros w Hw. rewrite Z.shiftr_div_pow2 by lia. symmetry. pose proof (Z.pow_pos_nonneg 2 t). apply Z.mod_small.
    split; [apply Z.div_pos; rlia|]. apply Z.le_lt_trans with w; [|unfold two64; rlia]. apply Z.div_le_upper_bound; [lia|]. unfold_ranges. nia. }
  assert (forall w h, is_u64 w -> (if negb (t =? 0) && true then Z.lor (Z.shiftr w t) (u64 (Z.shiftl h (64 - t))) else Z.shiftr w t)
    = (w + h * two64) / 2 ^ t mod two64) as Hmid.
  { intros w h Hw. destruct (Z.eqb_spec t 0) as [->|]; cbn [negb andb]; [|apply word_shift; (done || lia)].
    rewrite Z.shiftr_0_r. change (2 ^ 0) with 1. rewrite Z.div_1_r, Z.mod_add by done. symmetry. apply Z.mod_small. unfold two64. rlia. }
  destruct source as [|[|[|source]]]; cbn [Nat.ltb Nat.leb Nat.add nth words_from]; rewrite ?andb_false_r.
  - rewrite words_nested, div_low, (Z.mul_add_distr_r w1) by lia.
    replace (w2 * two64 * 2 ^ (64 - t)) with (w2 * 2 ^ (64 - t) * two64) by ring. rewrite Z.add_assoc, Z.mod_add, <- div_low by (done || lia).
    by apply Hmid.
  - by apply Hmid.
  - by apply Htop.
  - by rewrite Z.div_0_l by (apply Z.pow_nonzero; lia).
Qed.

Lemma fraction_spec whole t : 0 <= t < 64 ->
  existsb (fun w => negb (w =? 0)) (take whole words) ||
  ((whole <? 3)%nat && negb (t =? 0) && negb (Z.land (nth whole words 0) (low_mask t) =? 0)) =
  negb (W mod 2 ^ (64 * Z.of_nat whole + t) =? 0).
Proof.
  intros Ht. rewrite low_mask_eq, land_mask by lia. assert (forall w, negb (t =? 0) && negb (w mod 2 ^ t =? 0) = negb (w mod 2 ^ t =? 0)) as Hz.
  { intros w. destruct (Z.eqb_spec t 0) as [->|]; [|done]. change (2 ^ 0) with 1. by rewrite Z.mod_1_r. }
  pose proof words_nested as EW. unfold words. assert (forall x, 0 <= x mod 2 ^ t) as Hp by (intros; apply Z.mod_pos_bound, Z.pow_pos_nonneg; lia).
  unfold two64 in EW. unfold_ranges.
  destruct whole as [|[|[|whole]]]; cbn [take existsb nth Nat.ltb Nat.leb andb orb]; rewrite ?Hz.
  - by rewrite EW, Nat2Z.inj_0, Z.mul_0_r, Z.add_0_l, mod_low by lia.
  - rewrite words_nested, mod_high by (lia || done). replace (64 * Z.of_nat 1 + t - 64) with t by lia. rewrite mod_low by lia.
    unfold two64. pose proof (Hp w1). destruct (Z.eqb_spec w0 0), (Z.eqb_spec (w1 mod 2 ^ t) 0); cbn [negb orb]; f_equal; lia.
  - rewrite words_nested, mod_high, mod_high by (lia || done). replace (64 * Z.of_nat 2 + t - 64 - 64) with t by lia.
    unfold two64. pose proof (Hp w2). destruct (Z.eqb_spec w0 0), (Z.eqb_spec w1 0), (Z.eqb_spec (w2 mod 2 ^ t) 0); cbn [negb orb]; f_equal; lia.
  - pose proof words_small. rewrite (Z.mod_small W), orb_false_r.
    + rewrite take_nil. cbn. destruct (Z.eqb_spec w0 0), (Z.eqb_spec w1 0), (Z.eqb_spec w2 0); cbn [negb orb]; f_equal; lia.
    + assert (2 ^ 192 <= 2 ^ (64 * Z.of_nat (S (S (S whole))) + t)) by (apply Z.pow_le_mono_r; lia). lia.
Qed.
End Shifted.

(** The product of a total and a binary fraction, exactly: floor and remainder test. *)
Lemma pf_q_uniform_product_spec a m k : u128_ok a -> is_u64 m -> 0 <= k -> u128_value a * m / 2 ^ k < two128 ->
  let r := pf_q_uniform_product a m k in
  u128_ok r.1 /\ u128_value r.1 = u128_value a * m / 2 ^ k /\ r.2 = negb (u128_value a * m mod 2 ^ k =? 0).
Proof.
  intros Ha Hm Hk Hfit. destruct (product_words_spec a m Ha Hm) as (Hlen & Hall & EW). unfold pf_q_uniform_product. cbv zeta.
  set (words := product_words a m) in *. clearbody words.
  destruct words as [|w0 [|w1 [|w2 [|]]]]; try discriminate. apply Forall_cons_iff in Hall as [H0 Hall].
  apply Forall_cons_iff in Hall as [H1 Hall]. apply Forall_cons_iff in Hall as [H2 _].
  pose proof (Z.mod_pos_bound k 64 ltac:(lia)) as Ht. pose proof (Z.div_pos k 64 Hk ltac:(lia)).
  assert (64 * Z.of_nat (Z.to_nat (k / 64)) + k mod 64 = k) as Ek by (rewrite Z2Nat.id by lia; symmetry; by apply Z.div_mod).
  rewrite fraction_spec, !shifted_word_spec by done. rewrite Nat2Z.inj_add, Z.mul_add_distr_l, Ek.
  replace (64 * Z.of_nat (Z.to_nat (k / 64)) + 64 * Z.of_nat 1 + k mod 64) with (k + 64) by lia. rewrite EW. cbn [fst snd].
  set (P := u128_value a * m) in *. assert (0 <= P) by (pose proof (u128_range a Ha); unfold_ranges; unfold P; nia).
  rewrite Z.pow_add_r, <- Z.div_div by (lia || (apply Z.pow_nonzero; lia) || (apply Z.pow_pos_nonneg; lia)). change (2 ^ 64) with two64.
  pose proof (Z.pow_pos_nonneg 2 k ltac:(lia) Hk). assert (0 <= P / 2 ^ k) by (apply Z.div_pos; lia).
  destruct (u128_unique (mk_u128 (P / 2 ^ k mod two64) (P / 2 ^ k / two64 mod two64)) (P / 2 ^ k)) as [Hok Hv]; cbn; [lia|done| |done].
  apply Z.mod_small. split; [apply Z.div_pos; done|]. apply Z.div_lt_upper_bound; [done|]. exact Hfit.
Qed.

(** ** Signed accumulators *)

Lemma pf_q_iadd_spec s m (neg : bool) : i128_ok s -> is_u64 m ->
  - two127 <= i128_value s + (if neg then - m else m) < two127 ->
  i128_ok (pf_q_iadd s m neg) /\ i128_value (pf_q_iadd s m neg) = i128_value s + (if neg then - m else m).
Proof.
  intros [Hl Hh] Hm. unfold pf_q_iadd, i128_ok, i128_value, two64, two127. unfold_ranges. destruct neg; cbn [ilo ihi]; intros Hb.
  - destruct (Z.ltb_spec (ilo s) m); cbn [Z.b2z].
    + assert (u64 (ilo s - m) = ilo s - m + 18446744073709551616) as -> by (symmetry; apply Z.mod_unique with (-1); lia).
      rewrite i64_id by rlia. lia.
    + rewrite u64_id, i64_id by rlia. lia.
  - destruct (Z.lt_ge_cases (ilo s + m) 18446744073709551616).
    + rewrite u64_id by rlia. replace (ilo s + m <? ilo s) with false by lia. cbn [Z.b2z]. rewrite i64_id by rlia. lia.
    + assert (u64 (ilo s + m) = ilo s + m - 18446744073709551616) as -> by (symmetry; apply Z.mod_unique with 1; lia).
      replace (ilo s + m - 18446744073709551616 <? ilo s) with true by lia. cbn [Z.b2z]. rewrite i64_id by rlia. lia.
Qed.

Lemma pf_q_magnitude_abs v : is_i64 v -> pf_q_magnitude v = Z.abs v.
Proof. intros Hv. unfold pf_q_magnitude. case_if; [rewrite u64_id by rlia|]; lia. Qed.
