(* ===== verification/FloatGrid.v ===== *)
(** * Floats as integers on their finest grid

    Every finite value of a format is an integer multiple of 2^emin.  On that grid
    addition is an integer sum followed by one rounding to [prec] bits, ties to
    even; scaling by a power of two is exact; the order is the order of integers. *)
From Stdlib Require Import SpecFloat.
From S2P Require Import Prelude MachineInt Status Float FcMonad FcFloat FloatParts PfInt.

(** ** Rounding an integer to a multiple of a power of two *)

Definition rne (m k : Z) : Z :=
  let q := m / 2 ^ k in
  match 2 * (m mod 2 ^ k) ?= 2 ^ k with
  | Lt => q
  | Gt => q + 1
  | Eq => if Z.even q then q else q + 1
  end.

Lemma rne_exact q k : 0 <= k -> rne (q * 2 ^ k) k = q.
Proof.
  intros Hk. assert (0 < 2 ^ k) by (apply Z.pow_pos_nonneg; lia). unfold rne.
  rewrite Z.div_mul, Z.mod_mul by lia. by rewrite (proj2 (Z.compare_lt_iff _ _)) by lia.
Qed.

Lemma rne_0 m : rne m 0 = m.
Proof. rewrite <- (Z.mul_1_r m) at 1. apply (rne_exact m 0). lia. Qed.

Lemma rne_near m k : 0 <= k -> 2 * m - 2 ^ k <= 2 * (rne m k * 2 ^ k) <= 2 * m + 2 ^ k.
Proof.
  intros Hk. assert (0 < 2 ^ k) by (apply Z.pow_pos_nonneg; lia). unfold rne. set (P := 2 ^ k) in *.
  pose proof (Z.div_mod m P ltac:(lia)) as D. pose proof (Z.mod_pos_bound m P ltac:(lia)).
  destruct (Z.compare_spec (2 * (m mod P)) P); [case_if| |]; nia.
Qed.

Lemma rne_range m k : 0 <= k -> m / 2 ^ k <= rne m k <= m / 2 ^ k + 1.
Proof. intros Hk. unfold rne. destruct (_ ?= _); [case_if|..]; lia. Qed.

(** A bound that is itself a multiple is kept. *)
Lemma rne_upper m k q : 0 <= k -> m <= q * 2 ^ k -> rne m k <= q.
Proof. intros Hk Hm. pose proof (rne_near m k Hk). assert (0 < 2 ^ k) by (apply Z.pow_pos_nonneg; lia). nia. Qed.

Lemma rne_lower m k q : 0 <= k -> q * 2 ^ k <= m -> q <= rne m k.
Proof. intros Hk Hm. pose proof (rne_near m k Hk). assert (0 < 2 ^ k) by (apply Z.pow_pos_nonneg; lia). nia. Qed.

(** ** The shift with its round and sticky bits *)

Definition shifted_record (m n : Z) : shr_record :=
  Build_shr_record (m / 2 ^ n) (Z.odd (m / 2 ^ (n - 1))) (negb (m mod 2 ^ (n - 1) =? 0)).

Lemma shr_1_step m r s : 0 <= m -> shr_1 (Build_shr_record m r s) = Build_shr_record (m / 2) (Z.odd m) (r || s).
Proof.
  intros Hm. destruct m as [|p|p]; [done| |lia]. destruct p as [p|p|]; cbn [shr_1]; [| |done].
  - f_equal. apply Z.div_unique with 1; lia.
  - f_equal. apply Z.div_unique with 0; lia.
Qed.

Lemma iter_pos_succ {A} (g : A -> A) n x : SpecFloat.iter_pos g (Pos.succ n) x = g (SpecFloat.iter_pos g n x).
Proof.
  assert (forall n x, SpecFloat.iter_pos g n (g x) = g (SpecFloat.iter_pos g n x)) as Hcomm.
  { intros p. induction p as [p IH|p IH|]; intros y; cbn; [by rewrite !IH|by rewrite !IH|done]. }
  revert x. induction n as [n IH|n IH|]; intros x.
  - change (SpecFloat.iter_pos g (Pos.succ n) (SpecFloat.iter_pos g (Pos.succ n) x) = g (SpecFloat.iter_pos g n (SpecFloat.iter_pos g n (g x)))).
    by rewrite !IH, !Hcomm.
  - change (SpecFloat.iter_pos g n (SpecFloat.iter_pos g n (g x)) = g (SpecFloat.iter_pos g n (SpecFloat.iter_pos g n x))). by rewrite !Hcomm.
  - done.
Qed.

Lemma shr_iter m n : 0 <= m -> SpecFloat.iter_pos shr_1 n (Build_shr_record m false false) = shifted_record m (Zpos n).
Proof.
  intros Hm. induction n as [|n IH] using Pos.peano_ind.
  - cbn [SpecFloat.iter_pos]. rewrite shr_1_step by done. unfold shifted_record. change (Zpos 1 - 1) with 0. change (2 ^ 0) with 1.
    by rewrite Z.div_1_r, Z.mod_1_r.
  - rewrite iter_pos_succ, IH, Pos2Z.inj_succ. unfold shifted_record. set (k := Zpos n). replace (Z.succ k - 1) with k by lia.
    assert (0 < 2 ^ (k - 1)) by (apply Z.pow_pos_nonneg; lia). assert (0 < 2 ^ k) by (apply Z.pow_pos_nonneg; lia).
    rewrite shr_1_step by (apply Z.div_pos; lia). f_equal.
    + rewrite Z.div_div, Z.mul_comm, <- Z.pow_succ_r by lia. done.
    + assert (2 ^ k = 2 ^ (k - 1) * 2) as E by (rewrite Z.mul_comm, <- Z.pow_succ_r by lia; f_equal; lia). rewrite E.
      rewrite Z.rem_mul_r by lia. pose proof (Z.mod_pos_bound m (2 ^ (k - 1)) ltac:(lia)). rewrite <- Z.bit0_odd, <- Z.bit0_mod, Z.bit0_odd.
      destruct (Z.odd (m / 2 ^ (k - 1))); cbn [orb Z.b2z].
      * symmetry. apply negb_true_iff, Z.eqb_neq. lia.
      * f_equal. by rewrite Z.mul_0_r, Z.add_0_r.
Qed.

Lemma shifted_record_rne m n : 0 <= m -> 0 < n ->
  round_nearest_even (shr_m (shifted_record m n)) (loc_of_shr_record (shifted_record m n)) = rne m n.
Proof.
  intros Hm Hn. unfold shifted_record, rne. cbn [shr_m]. set (h := 2 ^ (n - 1)). assert (0 < h) by (apply Z.pow_pos_nonneg; lia).
  assert (2 ^ n = h * 2) as -> by (unfold h; rewrite Z.mul_comm, <- Z.pow_succ_r by lia; f_equal; lia).
  rewrite Z.rem_mul_r by lia. pose proof (Z.mod_pos_bound m h ltac:(lia)). rewrite <- Z.bit0_mod, Z.bit0_odd.
  destruct (Z.odd (m / h)), (Z.eqb_spec (m mod h) 0) as [E|E]; cbn [loc_of_shr_record negb round_nearest_even Z.b2z].
  - rewrite (proj2 (Z.compare_eq_iff _ _)) by lia. done.
  - rewrite (proj2 (Z.compare_gt_iff _ _)) by lia. done.
  - rewrite (proj2 (Z.compare_lt_iff _ _)) by lia. done.
  - rewrite (proj2 (Z.compare_lt_iff _ _)) by lia. done.
Qed.

Lemma rne_scale m a n : 0 <= a -> 0 <= n -> rne (m * 2 ^ a) (a + n) = rne m n.
Proof.
  intros Ha Hn. assert (0 < 2 ^ a) by (apply Z.pow_pos_nonneg; lia). assert (0 < 2 ^ n) by (apply Z.pow_pos_nonneg; lia).
  unfold rne. rewrite Z.pow_add_r, (Z.mul_comm (2 ^ a)) by lia. rewrite Z.div_mul_cancel_r, Z.mul_mod_distr_r by lia.
  rewrite Z.mul_assoc, <- Zmult_compare_compat_r by lia. done.
Qed.

Lemma bits_of_digits m : bits_of (Zpos m) = Zpos (digits2_pos m).
Proof. by rewrite digits_log2. Qed.

Lemma bits_of_shift m a : 0 < m -> 0 <= a -> bits_of (m * 2 ^ a) = bits_of m + a.
Proof.
  intros Hm Ha. assert (0 < 2 ^ a) by (apply Z.pow_pos_nonneg; lia). unfold bits_of. rewrite !(proj2 (Z.eqb_neq _ 0)) by nia.
  rewrite Z.log2_mul_pow2 by lia. lia.
Qed.

Lemma bits_of_le v k : 0 <= v -> 0 <= k -> v < 2 ^ k -> bits_of v <= k.
Proof.
  intros Hv Hk H. unfold bits_of. destruct (Z.eqb_spec v 0); [lia|]. assert (Z.log2 v < k) by (apply Z.log2_lt_pow2; lia). lia.
Qed.

(** ** One rounding *)

(** A format with at least two digits, and a range wider than its precision. *)
Class IeeeFormat (f : float_format) : Prop := mk_ieee { ieee_prec : 1 < prec f; ieee_emax : prec f < emax f }.

Section Grid.
Variable f : float_format.
Context `{Hieee : !IeeeFormat f}.
Let Hprec : 1 < prec f := ieee_prec.
Let Hemax : prec f < emax f := ieee_emax.
Let P := prec f.
Let least := emin (prec f) (emax f).

(** The value as a multiple of 2^emin. *)
Definition grid (x : spec_float) : Z :=
  match x with
  | S754_finite s m e => let v := Zpos m * 2 ^ (e - least) in if s then - v else v
  | _ => 0
  end.

(** Rounding a nonnegative multiple to [prec] bits, ties to even, and any multiple. *)
Definition rnd_abs (v : Z) : Z := let k := Z.max 0 (bits_of v - P) in rne v k * 2 ^ k.
Definition rnd (v : Z) : Z := Z.sgn v * rnd_abs (Z.abs v).

Definition valid (x : spec_float) : Prop := isfinite x = true /\ valid_binary (prec f) (emax f) x = true.

(** Rounded mantissa [q] at exponent [e], renormalised when it reached 2^prec. *)
Definition packed (s : bool) (q e : Z) : spec_float :=
  match q with
  | Zpos m => if q =? 2 ^ P then S754_finite s (Z.to_pos (2 ^ (P - 1))) (e + 1) else S754_finite s m e
  | _ => S754_zero s
  end.

Lemma digits_le m k : Zpos m < 2 ^ k -> Zpos (digits2_pos m) <= k.
Proof.
  intros H. assert (0 <= k) by (destruct (Z.neg_nonneg_cases k) as [Hn|]; [rewrite Z.pow_neg_r in H by done|]; lia).
  rewrite <- bits_of_digits. by apply bits_of_le.
Qed.

Lemma no_shift q e : least <= e -> 0 <= q < 2 ^ P -> shr_fexp (prec f) (emax f) q e loc_Exact = (Build_shr_record q false false, e).
Proof.
  intros He Hq. unfold shr_fexp, shr. cbn [shr_record_of_loc].
  assert (fexp (prec f) (emax f) (Zdigits2 q + e) - e <= 0) as Hn.
  { unfold fexp. fold least P. destruct q as [|m|m]; cbn [Zdigits2]; [| |lia]; [unfold P; lia|].
    pose proof (digits_le m P ltac:(lia)). lia. }
  destruct (_ - e); [done|lia|done].
Qed.

Lemma round_aux_packed s m e : let n := fexp (prec f) (emax f) (Zpos (digits2_pos m) + e) - e in
  0 <= n -> e + n < emax f - P ->
  binary_round_aux (prec f) (emax f) s (Zpos m) e loc_Exact = packed s (rne (Zpos m) n) (e + n).
Proof.
  intros n Hn Hfit. unfold binary_round_aux.
  assert (exists mrs, shr_fexp (prec f) (emax f) (Zpos m) e loc_Exact = (mrs, e + n) /\
    round_nearest_even (shr_m mrs) (loc_of_shr_record mrs) = rne (Zpos m) n) as (mrs & -> & ->).
  { unfold shr_fexp. cbn [Zdigits2 shr_record_of_loc]. fold n. unfold shr. destruct n as [|k|k] eqn:En; [| |lia].
    - eexists. rewrite Z.add_0_r, rne_0. split; [done|]. done.
    - eexists. rewrite shr_iter by lia. split; [done|]. apply shifted_record_rne; lia. }
  assert (least <= e + n) as He by (unfold n, fexp; fold least; lia).
  assert (Zpos (digits2_pos m) - P <= n) as Hd by (unfold n, fexp; fold P; lia).
  pose proof (digits_bounds m) as [_ Hm]. assert (0 < 2 ^ P) as HP by (apply Z.pow_pos_nonneg; unfold P; lia).
  assert (0 < 2 ^ n) by (apply Z.pow_pos_nonneg; lia).
  assert (0 <= rne (Zpos m) n <= 2 ^ P) as Hq.
  { split; [apply rne_lower; lia|]. apply rne_upper; [done|]. rewrite <- Z.pow_add_r by (unfold P; lia).
    apply Z.le_trans with (2 ^ Zpos (digits2_pos m)); [lia|]. apply Z.pow_le_mono_r; lia. }
  set (q := rne (Zpos m) n) in *. unfold packed. destruct (Z.eqb_spec q (2 ^ P)) as [Eq|Nq].
  - unfold shr_fexp. cbn [shr_record_of_loc].
    assert (Zdigits2 q = P + 1) as ->.
    { rewrite Eq. destruct (2 ^ P) as [|p|p] eqn:Ep; [lia| |lia]. cbn [Zdigits2]. rewrite digits_log2, <- Ep, Z.log2_pow2 by (unfold P; lia). lia. }
    assert (fexp (prec f) (emax f) (P + 1 + (e + n)) - (e + n) = 1) as -> by (unfold fexp; fold least P; lia).
    unfold shr. rewrite shr_iter by lia. unfold shifted_record. cbn [shr_m]. rewrite Eq.
    assert (2 ^ P / 2 ^ 1 = 2 ^ (P - 1)) as -> by (rewrite <- Z.pow_sub_r by (unfold P; lia); done).
    assert (0 < 2 ^ (P - 1)) by (apply Z.pow_pos_nonneg; unfold P; lia).
    destruct (2 ^ P) as [|p|p] eqn:Ep; [lia| |lia]. destruct (2 ^ (P - 1)) as [|p'|p']; [lia| |lia].
    fold P. rewrite (proj2 (Z.leb_le _ _)) by lia. done.
  - rewrite no_shift by lia. cbn [shr_m]. destruct q as [|p|p]; [done| |lia]. fold P. by rewrite (proj2 (Z.leb_le _ _)) by lia.
Qed.

Lemma grid_packed s q e : least <= e -> 0 <= q -> grid (packed s q e) = (if s then -1 else 1) * (q * 2 ^ (e - least)).
Proof.
  intros He Hq. unfold packed. destruct q as [|m|m]; [cbn; lia| |lia]. destruct (Z.eqb_spec (Zpos m) (2 ^ P)) as [->|]; cbn [grid].
  - rewrite Z2Pos.id by (apply Z.pow_pos_nonneg; unfold P; lia). rewrite <- !Z.pow_add_r by (unfold P; lia).
    replace (P - 1 + (e + 1 - least)) with (P + (e - least)) by lia. destruct s; lia.
  - destruct s; lia.
Qed.

(** A canonical mantissa gives a valid value. *)
Lemma valid_packed s q e : least <= e < emax f - P -> 0 <= q <= 2 ^ P -> e = least \/ 2 ^ (P - 1) <= q -> valid (packed s q e).
Proof.
  intros He Hq Hcan. assert (0 < 2 ^ (P - 1)) as HP1 by (apply Z.pow_pos_nonneg; unfold P; lia).
  unfold packed, valid. destruct q as [|m|m]; [done| |lia].
  assert (forall p x, Zpos (digits2_pos p) <= P -> least <= x <= emax f - P -> (x = least \/ Zpos (digits2_pos p) = P) -> bounded (prec f) (emax f) p x = true) as Hb.
  { intros p x Hp Hx Hc. unfold bounded, canonical_mantissa, fexp. fold least P. apply andb_true_iff. split; [apply Z.eqb_eq|apply Z.leb_le]; lia. }
  destruct (Z.eqb_spec (Zpos m) (2 ^ P)) as [E|N]; cbn [isfinite valid_binary]; split; try done; apply Hb; try lia.
  - rewrite digits_log2, Z2Pos.id, Z.log2_pow2 by (unfold P; lia). lia.
  - right. rewrite digits_log2, Z2Pos.id, Z.log2_pow2 by (unfold P; lia). lia.
  - apply digits_le. lia.
  - destruct Hcan as [|Hcan]; [by left|]. right. pose proof (digits_le m P ltac:(lia)). pose proof (digits_bounds m) as [_ Hu].
    assert (P - 1 < Zpos (digits2_pos m)); [|lia]. apply (Z.pow_lt_mono_r_iff 2); lia.
Qed.

(** Values below half the largest binade cannot overflow. *)
Definition below_overflow (v : Z) : Prop := Z.abs v < 2 ^ (emax f - 1 - least).

Lemma rnd_abs_scale m a : 0 <= a -> 0 < m -> let n := Z.max 0 (bits_of m + a - P) - a in 0 <= n ->
  rnd_abs (m * 2 ^ a) = rne m n * 2 ^ (a + n).
Proof.
  intros Ha Hm n Hn. unfold rnd_abs. rewrite bits_of_shift by done. replace (Z.max 0 (bits_of m + a - P)) with (a + n) by lia.
  by rewrite rne_scale.
Qed.

Lemma binary_round_grid s m e : least <= e -> below_overflow (Zpos m * 2 ^ (e - least)) ->
  let r := binary_round (prec f) (emax f) s m e in
  valid r /\ grid r = (if s then -1 else 1) * rnd_abs (Zpos m * 2 ^ (e - least)).
Proof.
  intros He Hb. unfold binary_round. set (d := Zpos (digits2_pos m)). set (t := fexp (prec f) (emax f) (d + e)).
  pose proof (digits_bounds m) as [Hml Hmu]. fold d in Hml, Hmu.
  assert (d + e <= emax f - 1) as Hde.
  { unfold below_overflow in Hb. rewrite Z.abs_eq in Hb by (apply Z.mul_nonneg_nonneg; [lia|apply Z.pow_nonneg; lia]).
    assert (d - 1 + (e - least) < emax f - 1 - least); [|lia]. apply (Z.pow_lt_mono_r_iff 2); [lia|unfold least, emin; lia|].
    rewrite Z.pow_add_r by lia. assert (0 < 2 ^ (e - least)) by (apply Z.pow_pos_nonneg; lia). nia. }
  assert (exists mz ez, shl_align m e t = (mz, ez) /\ least <= ez <= t /\ Zpos mz * 2 ^ (ez - least) = Zpos m * 2 ^ (e - least) /\
    Zpos (digits2_pos mz) + ez = d + e) as (mz & ez & -> & Hez & Ev & Ed).
  { unfold shl_align. assert (least <= t) by (unfold t, fexp; fold least; lia). destruct (t - e) as [|k|k] eqn:Ek.
    - exists m, e. split; [done|]. split; [lia|]. split; [done|]. unfold d. lia.
    - exists m, e. split; [done|]. split; [lia|]. split; [done|]. unfold d. lia.
    - exists (Pos.iter xO m k), t. split; [done|]. split; [lia|]. rewrite iter_xO, digits_iter_xO. split; [|unfold d; lia].
      rewrite <- Z.mul_assoc, <- Z.pow_add_r by lia. f_equal. f_equal. lia. }
  cbv beta iota zeta. pose proof (round_aux_packed s mz ez) as Hr. cbv zeta in Hr. rewrite Ed in Hr. fold t in Hr.
  replace (ez + (t - ez)) with t in Hr by lia. assert (t < emax f - P) as Ht by (unfold t, fexp, emin; fold P; unfold P in *; lia).
  rewrite Hr by lia. set (n := t - ez). rewrite <- Ev. clear Hr.
  assert (Z.max 0 (bits_of (Zpos mz) + (ez - least) - P) - (ez - least) = n) as En by (rewrite bits_of_digits; unfold n, t, fexp; fold least P; lia).
  pose proof (rnd_abs_scale (Zpos mz) (ez - least) ltac:(lia) ltac:(lia)) as Hrnd. cbv zeta in Hrnd. rewrite En in Hrnd.
  pose proof (digits_bounds mz) as [Hzl Hzu]. assert (0 < 2 ^ n) by (apply Z.pow_pos_nonneg; unfold n; lia).
  assert (Zpos (digits2_pos mz) - P <= n) as Hd by (unfold n, t, fexp; fold P; lia).
  assert (0 <= rne (Zpos mz) n <= 2 ^ P) as Hq.
  { split; [apply rne_lower; lia|]. apply rne_upper; [unfold n; lia|]. rewrite <- Z.pow_add_r by (unfold n, P; lia).
    apply Z.le_trans with (2 ^ Zpos (digits2_pos mz)); [lia|]. apply Z.pow_le_mono_r; lia. }
  assert (least <= t) as Hlt by lia. split.
  - apply valid_packed; [lia|done|]. destruct (Z.eq_dec t least) as [|Hne]; [by left|]. right.
    assert (n = Zpos (digits2_pos mz) - P) as Enp by (assert (t = Z.max (d + e - P) least) by reflexivity; unfold n; lia).
    apply rne_lower; [unfold n; lia|]. rewrite <- Z.pow_add_r by (unfold P; lia).
    apply Z.le_trans with (2 ^ (Zpos (digits2_pos mz) - 1)); [|lia]. apply Z.pow_le_mono_r; lia.
  - rewrite grid_packed by lia. rewrite Hrnd by (unfold n; lia). f_equal. f_equal. f_equal. unfold n. lia.
Qed.

(** ** Valid values are fixed by rounding *)

Lemma valid_finite s m e : valid (S754_finite s m e) ->
  least <= e <= emax f - P /\ Zpos (digits2_pos m) <= P /\ Z.max 0 (Zpos (digits2_pos m) + e - least - P) = e - least.
Proof.
  intros [_ Hv]. cbn in Hv. unfold bounded, canonical_mantissa, fexp in Hv. fold least P in Hv. zbool. lia.
Qed.

Lemma rnd_opp v : rnd (- v) = - rnd v.
Proof. unfold rnd. rewrite Z.sgn_opp, Z.abs_opp. lia. Qed.

Lemma rnd_nonneg v : 0 <= v -> rnd v = rnd_abs v.
Proof.
  intros Hv. unfold rnd. rewrite Z.abs_eq by done. destruct (Z.eq_dec v 0) as [->|]; [|rewrite Z.sgn_pos by lia; lia].
  unfold rnd_abs. change (bits_of 0) with 0. rewrite Z.max_l by (unfold P; lia). by rewrite rne_0.
Qed.

Lemma rnd_grid x : valid x -> rnd (grid x) = grid x.
Proof.
  intros Hx. destruct x as [s|s| |s m e]; try done. destruct (valid_finite _ _ _ Hx) as (He & Hd & Ek).
  assert (rnd_abs (Zpos m * 2 ^ (e - least)) = Zpos m * 2 ^ (e - least)) as E.
  { unfold rnd_abs. rewrite bits_of_shift, bits_of_digits by lia. replace (_ + _ - P) with (Zpos (digits2_pos m) + e - least - P) by lia.
    rewrite Ek, rne_exact by lia. done. }
  assert (0 <= Zpos m * 2 ^ (e - least)) by (apply Z.mul_nonneg_nonneg; [lia|apply Z.pow_nonneg; lia]).
  cbn [grid]. destruct s; rewrite ?rnd_opp, rnd_nonneg, E by done; done.
Qed.

(** A multiple of a power of two with few enough digits is not rounded. *)
Lemma rnd_abs_exact m a : 0 <= a -> 0 <= m <= 2 ^ P -> rnd_abs (m * 2 ^ a) = m * 2 ^ a.
Proof.
  intros Ha Hm. unfold rnd_abs. destruct (Z.eq_dec m 0) as [->|Hn]; [rewrite Z.mul_0_l; change (bits_of 0) with 0; rewrite Z.max_l by (unfold P; lia); by rewrite rne_0|].
  destruct (Z.eq_dec m (2 ^ P)) as [->|Hne].
  - rewrite <- Z.pow_add_r by (unfold P; lia). set (k := Z.max 0 _). assert (bits_of (2 ^ (P + a)) = P + a + 1) as E.
    { unfold bits_of. rewrite (proj2 (Z.eqb_neq _ _)) by (apply Z.pow_nonzero; unfold P; lia). rewrite Z.log2_pow2 by (unfold P; lia). lia. }
    assert (0 <= k <= P + a) by (unfold k; rewrite E; unfold P; lia).
    replace (2 ^ (P + a)) with (2 ^ (P + a - k) * 2 ^ k) by (rewrite <- Z.pow_add_r by lia; f_equal; lia). by rewrite rne_exact by lia.
  - rewrite bits_of_shift by lia. set (k := Z.max 0 _). pose proof (bits_of_le m P ltac:(lia) ltac:(unfold P; lia) ltac:(lia)).
    assert (0 <= k <= a) by (unfold k; lia).
    replace (m * 2 ^ a) with (m * 2 ^ (a - k) * 2 ^ k) by (rewrite <- Z.mul_assoc, <- Z.pow_add_r by lia; do 2 f_equal; lia). by rewrite rne_exact by lia.
Qed.

(** ** The operations on the grid *)

Lemma normalize_grid v e s : least <= e -> below_overflow (v * 2 ^ (e - least)) ->
  let r := binary_normalize (prec f) (emax f) v e s in valid r /\ grid r = rnd (v * 2 ^ (e - least)).
Proof.
  intros He Hb. unfold binary_normalize. destruct v as [|m|m].
  - done.
  - pose proof (binary_round_grid false m e He Hb) as [Hv Eg]. split; [done|]. rewrite Eg, rnd_nonneg; [lia|].
    apply Z.mul_nonneg_nonneg; [lia|apply Z.pow_nonneg; lia].
  - change (Zneg m) with (- Zpos m) in *. rewrite Z.mul_opp_l in *. unfold below_overflow in Hb. rewrite Z.abs_opp in Hb.
    pose proof (binary_round_grid true m e He Hb) as [Hv Eg]. split; [done|]. rewrite Eg, rnd_opp, rnd_nonneg; [lia|].
    apply Z.mul_nonneg_nonneg; [lia|apply Z.pow_nonneg; lia].
Qed.

Lemma aligned_grid m e ez : least <= ez <= e -> Zpos (fst (shl_align m e ez)) * 2 ^ (ez - least) = Zpos m * 2 ^ (e - least).
Proof.
  intros He. unfold shl_align. destruct (ez - e) as [|k|k] eqn:Ek; cbn [fst]; [f_equal; f_equal; lia|lia|].
  rewrite iter_xO, <- Z.mul_assoc, <- Z.pow_add_r by lia. f_equal. f_equal. lia.
Qed.

Lemma fadd_grid x y : valid x -> valid y -> below_overflow (grid x + grid y) ->
  valid (fadd f x y) /\ grid (fadd f x y) = rnd (grid x + grid y).
Proof.
  intros Hx Hy Hb. pose proof (rnd_grid x Hx) as Ex. pose proof (rnd_grid y Hy) as Ey.
  destruct x as [sx|sx| |sx mx ex], y as [sy|sy| |sy my ey]; try (by destruct Hx); try (by destruct Hy).
  - by destruct sx, sy.
  - split; [done|]. change (grid (S754_zero sy)) with 0. rewrite Z.add_0_r. symmetry. exact Ex.
  - destruct (valid_finite _ _ _ Hx) as (Hex & _ & _). destruct (valid_finite _ _ _ Hy) as (Hey & _ & _).
    unfold fadd, SFadd. set (ez := Z.min ex ey).
    set (v := cond_Zopp sx _ + cond_Zopp sy _).
    assert (v * 2 ^ (ez - least) = grid (S754_finite sx mx ex) + grid (S754_finite sy my ey)) as Ev.
    { unfold v, ez. rewrite Z.mul_add_distr_r. cbn [grid]. rewrite <- (aligned_grid mx ex (Z.min ex ey)), <- (aligned_grid my ey (Z.min ex ey)) by lia.
      unfold cond_Zopp. destruct sx, sy; lia. }
    rewrite <- Ev in *. apply normalize_grid; [unfold ez; lia|done].
Qed.

Lemma fneg_grid x : grid (fneg x) = - grid x.
Proof. destruct x as [s|s| |s m e]; try done. cbn. destruct s; cbn; lia. Qed.

Lemma fneg_valid x : valid x -> valid (fneg x).
Proof. by destruct x. Qed.

Lemma fsub_grid x y : valid x -> valid y -> below_overflow (grid x - grid y) ->
  valid (fsub f x y) /\ grid (fsub f x y) = rnd (grid x - grid y).
Proof.
  intros Hx Hy Hb. assert (fsub f x y = fadd f x (fneg y)) as ->.
  { destruct x as [sx|sx| |sx mx ex], y as [sy|sy| |sy my ey]; try done; try by destruct sx, sy. }
  pose proof (fneg_grid y) as E. replace (grid x - grid y) with (grid x + grid (fneg y)) by lia.
  apply fadd_grid; [done|by apply fneg_valid|]. rewrite E. by replace (grid x + - grid y) with (grid x - grid y) by lia.
Qed.

(** Scaling up by a power of two is exact. *)
Definition power (k : Z) : spec_float := S754_finite false (Z.to_pos (2 ^ (P - 1))) (k - (P - 1)).

Lemma fmul_power_exact s m e k : valid (S754_finite s m e) -> least <= e + k -> Zpos (digits2_pos m) + e + k <= emax f - 1 ->
  let r := fmul f (S754_finite s m e) (power k) in
  valid r /\ grid r = (if s then -1 else 1) * (Zpos m * 2 ^ (e + k - least)).
Proof.
  intros Hx Hk Hde. destruct (valid_finite _ _ _ Hx) as (He & Hd & Ek). unfold power, fmul, SFmul. rewrite xorb_false_r.
  set (p := Z.to_pos (2 ^ (P - 1))). assert (Zpos p = 2 ^ (P - 1)) as Ep by (apply Z2Pos.id, Z.pow_pos_nonneg; unfold P; lia).
  set (a := P - 1) in *. assert (Zpos (m * p) = Zpos m * 2 ^ a) as Em by (rewrite Pos2Z.inj_mul, Ep; done).
  assert (Zpos (digits2_pos (m * p)) = Zpos (digits2_pos m) + a) as Ed by (rewrite <- !bits_of_digits, Em, bits_of_shift by (unfold a, P; lia); done).
  pose proof (digits_bounds m) as [Hml Hmu].
  set (ex := e + (k - a)). pose proof (round_aux_packed s (m * p) ex) as Hr. cbv zeta in Hr. rewrite Ed in Hr.
  set (t := fexp (prec f) (emax f) (Zpos (digits2_pos m) + a + ex)) in *.
  assert (t = Z.max (Zpos (digits2_pos m) + e + k - P) least) as Et by (unfold t, ex, fexp; fold least P; f_equal; lia).
  assert (t < emax f - P) as Hlt by (rewrite Et; unfold least, emin, P; lia).
  assert (least <= t <= e + k) as Htk by lia. assert (ex <= t) as Hext by (rewrite Et; unfold ex, a; lia).
  rewrite Hr by lia. replace (ex + (t - ex)) with t by lia.
  assert (rne (Zpos (m * p)) (t - ex) = Zpos m * 2 ^ (e + k - t)) as ->.
  { rewrite Em. replace a with (e + k - t + (t - ex)) by (unfold ex; lia). rewrite Z.pow_add_r, Z.mul_assoc by lia. by apply rne_exact; lia. }
  assert (0 < 2 ^ (e + k - t)) by (apply Z.pow_pos_nonneg; lia). split.
  - apply valid_packed; [lia| |].
    + split; [nia|]. apply Z.lt_le_incl, Z.lt_le_trans with (2 ^ (Zpos (digits2_pos m) + (e + k - t))).
      * rewrite Z.pow_add_r by lia. nia.
      * apply Z.pow_le_mono_r; lia.
    + destruct (Z.eq_dec t least) as [|Hne]; [by left|right].
      apply Z.le_trans with (2 ^ (Zpos (digits2_pos m) - 1 + (e + k - t))); [apply Z.pow_le_mono_r; lia|].
      rewrite Z.pow_add_r by lia. nia.
  - rewrite grid_packed by nia. rewrite <- Z.mul_assoc, <- Z.pow_add_r by lia.
    by replace (e + k - t + (t - least)) with (e + k - least) by lia.
Qed.

Lemma fmul_power_grid x k : valid x -> 0 <= k -> below_overflow (grid x * 2 ^ k) ->
  valid (fmul f x (power k)) /\ grid (fmul f x (power k)) = grid x * 2 ^ k.
Proof.
  intros Hx Hk Hb. destruct x as [s|s| |s m e]; [done|by destruct Hx|by destruct Hx|].
  destruct (valid_finite _ _ _ Hx) as (He & Hd & Ek). pose proof (digits_bounds m) as [Hml _].
  assert (0 < 2 ^ (e - least)) by (apply Z.pow_pos_nonneg; lia). assert (0 < 2 ^ k) by (apply Z.pow_pos_nonneg; lia).
  assert (Zpos (digits2_pos m) + e + k <= emax f - 1) as Hde.
  { unfold below_overflow in Hb. assert (Z.abs (grid (S754_finite s m e) * 2 ^ k) = Zpos m * 2 ^ (e - least + k)) as Eg.
    { rewrite Z.pow_add_r by lia. cbn [grid]. destruct s; nia. }
    rewrite Eg in Hb. assert (Zpos (digits2_pos m) - 1 + (e - least + k) < emax f - 1 - least); [|lia].
    apply (Z.pow_lt_mono_r_iff 2); [lia|unfold least, emin; lia|]. rewrite Z.pow_add_r by lia.
    assert (0 < 2 ^ (e - least + k)) by (apply Z.pow_pos_nonneg; lia). nia. }
  destruct (fmul_power_exact s m e k Hx ltac:(lia) Hde) as [Hv ->]. split; [done|].
  cbn [grid]. replace (e + k - least) with (e - least + k) by lia. rewrite Z.pow_add_r by lia. destruct s; lia.
Qed.

(** Conversion to an integer truncates. *)
Lemma to_int_grid x : valid x -> to_int x = Z.quot (grid x) (2 ^ (- least)).
Proof.
  intros Hx. destruct x as [s|s| |s m e]; try done. destruct (valid_finite _ _ _ Hx) as (He & _ & _).
  assert (least < 0) as Hneg by (unfold least, emin; lia). assert (0 < 2 ^ (- least)) as HG by (apply Z.pow_pos_nonneg; lia).
  assert ((if 0 <=? e then Z.shiftl (Zpos m) e else Z.shiftr (Zpos m) (- e)) = Zpos m * 2 ^ (e - least) / 2 ^ (- least)) as Ev.
  { destruct (Z.leb_spec 0 e).
    - rewrite Z.shiftl_mul_pow2 by done. replace (e - least) with (e + - least) by lia.
      by rewrite Z.pow_add_r, Z.mul_assoc, Z.div_mul by lia.
    - rewrite Z.shiftr_div_pow2 by lia. replace (- least) with (- e + (e - least)) by lia.
      assert (0 < 2 ^ (e - least)) by (apply Z.pow_pos_nonneg; lia). assert (0 < 2 ^ (- e)) by (apply Z.pow_pos_nonneg; lia).
      by rewrite Z.pow_add_r, Z.div_mul_cancel_r by lia. }
  unfold to_int. rewrite Ev. cbn [grid].
  assert (0 <= Zpos m * 2 ^ (e - least)) by (apply Z.mul_nonneg_nonneg; [lia|apply Z.pow_nonneg; lia]).
  destruct s; [rewrite Z.quot_opp_l by lia|]; by rewrite Z.quot_div_nonneg by lia.
Qed.

Lemma of_int_grid v : below_overflow (v * 2 ^ (- least)) -> valid (of_int f v) /\ grid (of_int f v) = rnd (v * 2 ^ (- least)).
Proof.
  intros Hb. unfold of_int. apply (normalize_grid v 0 false); [unfold least, emin; lia|]. by rewrite Z.sub_0_l.
Qed.

(** ** The order *)

Lemma finite_order m1 e1 m2 e2 : valid (S754_finite false m1 e1) -> valid (S754_finite false m2 e2) -> e1 < e2 ->
  Zpos m1 * 2 ^ (e1 - least) < Zpos m2 * 2 ^ (e2 - least).
Proof.
  intros H1 H2 He. destruct (valid_finite _ _ _ H1) as (He1 & Hd1 & _). destruct (valid_finite _ _ _ H2) as (He2 & Hd2 & Ek2).
  pose proof (digits_bounds m1) as [_ Hu]. pose proof (digits_bounds m2) as [Hl _].
  replace (e2 - least) with (e2 - e1 + (e1 - least)) by lia. rewrite Z.pow_add_r, Z.mul_assoc by lia.
  apply Z.mul_lt_mono_pos_r; [apply Z.pow_pos_nonneg; lia|]. apply Z.lt_le_trans with (2 ^ P).
  - apply Z.lt_le_trans with (2 ^ Zpos (digits2_pos m1)); [lia|]. apply Z.pow_le_mono_r; lia.
  - apply Z.le_trans with (2 ^ (Zpos (digits2_pos m2) - 1 + (e2 - e1))); [apply Z.pow_le_mono_r; lia|].
    rewrite Z.pow_add_r by lia. apply Z.mul_le_mono_nonneg_r; [apply Z.pow_nonneg; lia|done].
Qed.

Lemma magnitude_order m1 e1 m2 e2 : valid (S754_finite false m1 e1) -> valid (S754_finite false m2 e2) ->
  match e1 ?= e2 with Lt => Lt | Gt => Gt | Eq => Pos.compare_cont Eq m1 m2 end = (Zpos m1 * 2 ^ (e1 - least) ?= Zpos m2 * 2 ^ (e2 - least)).
Proof.
  intros H1 H2. destruct (Z.compare_spec e1 e2) as [->|Hlt|Hgt].
  - destruct (valid_finite _ _ _ H1) as (He1 & _). rewrite <- Zmult_compare_compat_r by (apply Z.lt_gt, Z.pow_pos_nonneg; lia). done.
  - symmetry. apply Z.compare_lt_iff. by apply finite_order.
  - symmetry. apply Z.compare_gt_iff. by apply finite_order.
Qed.

Lemma compare_grid x y : valid x -> valid y -> SFcompare x y = Some (grid x ?= grid y).
Proof.
  intros Hx Hy. destruct x as [sx|sx| |sx mx ex], y as [sy|sy| |sy my ey]; try (by destruct Hx); try (by destruct Hy); try done.
  - destruct (valid_finite _ _ _ Hy) as (He & _). assert (0 < Zpos my * 2 ^ (ey - least)) by (apply Z.mul_pos_pos; [lia|apply Z.pow_pos_nonneg; lia]).
    cbn [SFcompare grid]. destruct sy; f_equal; symmetry; [apply Z.compare_gt_iff|apply Z.compare_lt_iff]; lia.
  - destruct (valid_finite _ _ _ Hx) as (He & _). assert (0 < Zpos mx * 2 ^ (ex - least)) by (apply Z.mul_pos_pos; [lia|apply Z.pow_pos_nonneg; lia]).
    cbn [SFcompare grid]. destruct sx; f_equal; symmetry; [apply Z.compare_lt_iff|apply Z.compare_gt_iff]; lia.
  - destruct (valid_finite _ _ _ Hx) as (Hex & _), (valid_finite _ _ _ Hy) as (Hey & _).
    assert (0 < Zpos mx * 2 ^ (ex - least)) by (apply Z.mul_pos_pos; [lia|apply Z.pow_pos_nonneg; lia]).
    assert (0 < Zpos my * 2 ^ (ey - least)) by (apply Z.mul_pos_pos; [lia|apply Z.pow_pos_nonneg; lia]).
    pose proof (magnitude_order mx ex my ey Hx Hy) as E. cbn [SFcompare grid].
    destruct sx, sy; f_equal; [|symmetry; apply Z.compare_lt_iff; lia|symmetry; apply Z.compare_gt_iff; lia|exact E].
    rewrite Z.compare_opp, (Z.compare_antisym (Zpos mx * 2 ^ (ex - least))), <- E. by destruct (ex ?= ey).
Qed.

Lemma flt_grid x y : valid x -> valid y -> flt x y = (grid x <? grid y).
Proof. intros Hx Hy. unfold flt, SFltb, Z.ltb. rewrite compare_grid by done. by destruct (_ ?= _). Qed.

Lemma fle_grid x y : valid x -> valid y -> SFleb x y = (grid x <=? grid y).
Proof. intros Hx Hy. unfold SFleb, Z.leb. rewrite compare_grid by done. by destruct (_ ?= _). Qed.

Lemma feq_grid x y : valid x -> valid y -> feq x y = (grid x =? grid y).
Proof. intros Hx Hy. unfold feq, SFeqb. rewrite compare_grid by done. destruct (Z.compare_spec (grid x) (grid y)); symmetry; [apply Z.eqb_eq|apply Z.eqb_neq|apply Z.eqb_neq]; lia. Qed.

(** The value determines a nonzero float. *)
Lemma grid_inj x y : valid x -> valid y -> grid x = grid y -> grid x <> 0 -> x = y.
Proof.
  intros Hx Hy E Hn. destruct x as [sx|sx| |sx mx ex]; try done. destruct y as [sy|sy| |sy my ey]; try (cbn in *; lia).
  destruct (valid_finite _ _ _ Hx) as (Hex & _), (valid_finite _ _ _ Hy) as (Hey & _).
  assert (0 < 2 ^ (ex - least)) by (apply Z.pow_pos_nonneg; lia). assert (0 < 2 ^ (ey - least)) by (apply Z.pow_pos_nonneg; lia).
  cbn [grid] in E. assert (sx = sy /\ Zpos mx * 2 ^ (ex - least) = Zpos my * 2 ^ (ey - least)) as [<- Ev] by (destruct sx, sy; (split; [done|nia]) || nia).
  destruct (Z.lt_trichotomy ex ey) as [Hlt|[<-|Hgt]].
  - pose proof (finite_order mx ex my ey Hx Hy Hlt). lia.
  - f_equal. assert (Zpos mx = Zpos my) by nia. congruence.
  - pose proof (finite_order my ey mx ex Hy Hx Hgt). lia.
Qed.

Lemma fabs_grid x : grid (fabs x) = Z.abs (grid x).
Proof.
  destruct x as [s|s| |s m e]; try done. assert (0 <= Zpos m * 2 ^ (e - least)) by (apply Z.mul_nonneg_nonneg; [lia|apply Z.pow_nonneg; lia]).
  cbn [fabs SFabs grid]. destruct s; lia.
Qed.

Lemma fabs_valid x : valid x -> valid (fabs x).
Proof. by destruct x. Qed.
End Grid.

#[export] Instance binary32_ieee : IeeeFormat binary32.
Proof. by split. Qed.
#[export] Instance binary64_ieee : IeeeFormat binary64.
Proof. by split. Qed.
