(* ===== verification/FloatBits.v ===== *)
(** * The bits of a float and its place on the grid

    The magnitude bits are a strictly increasing code of the value: comparing and
    decoding them is comparing and decoding the numbers. *)
From Stdlib Require Import SpecFloat.
From S2P Require Import Prelude MachineInt Status Float FcMonad FcFloat FloatParts FloatGrid PfInt.

Section Bits.
Variable f : float_format.
Context `{Hieee : !IeeeFormat f}.
Let Hprec : 1 < prec f := ieee_prec.
Let Hemax : prec f < emax f := ieee_emax.



Definition sign_weight : Z := exponents f * hidden_bit f.

(** The value that the bits below the sign encode. *)
Definition magnitude_value (mag : Z) : Z :=
  if mag <? hidden_bit f then mag else (mag mod hidden_bit f + hidden_bit f) * 2 ^ (mag / hidden_bit f - 1).

Definition float_sign (x : spec_float) : bool := match x with S754_zero s | S754_finite s _ _ => s | _ => false end.

Lemma hidden_pos : 0 < hidden_bit f.
Proof. unfold hidden_bit. apply Z.pow_pos_nonneg; lia. Qed.

Lemma sign_weight_pos : 0 < sign_weight.
Proof. pose proof hidden_pos. unfold sign_weight, exponents. nia. Qed.

Lemma least_is : emin (prec f) (emax f) = least_exponent f.
Proof. reflexivity. Qed.

Lemma magnitude_value_at field frac : 1 <= field -> 0 <= frac < hidden_bit f ->
  magnitude_value (field * hidden_bit f + frac) = (frac + hidden_bit f) * 2 ^ (field - 1).
Proof.
  intros Hf Hfrac. pose proof hidden_pos. unfold magnitude_value. rewrite (proj2 (Z.ltb_ge _ _)) by nia.
  rewrite (Z.add_comm (field * _)), Z.mod_add, Z.div_add, Z.mod_small, Z.div_small by lia. done.
Qed.

Lemma magnitude_value_nonneg mag : 0 <= mag -> 0 <= magnitude_value mag.
Proof.
  intros Hm. pose proof hidden_pos. unfold magnitude_value. destruct (Z.ltb_spec mag (hidden_bit f)); [done|].
  pose proof (Z.mod_pos_bound mag (hidden_bit f) ltac:(lia)). apply Z.mul_nonneg_nonneg; [lia|apply Z.pow_nonneg; lia].
Qed.

Lemma magnitude_value_lt a b : 0 <= a < b -> magnitude_value a < magnitude_value b.
Proof.
  intros Hab. pose proof hidden_pos as Hh. set (k := hidden_bit f) in *.
  pose proof (Z.div_mod a k ltac:(lia)) as Da. pose proof (Z.div_mod b k ltac:(lia)) as Db.
  pose proof (Z.mod_pos_bound a k ltac:(lia)). pose proof (Z.mod_pos_bound b k ltac:(lia)).
  assert (a / k <= b / k) by (apply Z.div_le_mono; lia). unfold magnitude_value. fold k.
  destruct (Z.ltb_spec a k) as [Ha|Ha], (Z.ltb_spec b k) as [Hb|Hb]; [lia| |lia|].
  - assert (1 <= b / k) by (apply Z.div_le_lower_bound; lia). assert (0 < 2 ^ (b / k - 1)) by (apply Z.pow_pos_nonneg; lia). nia.
  - assert (1 <= a / k) by (apply Z.div_le_lower_bound; lia). assert (0 < 2 ^ (a / k - 1)) by (apply Z.pow_pos_nonneg; lia).
    destruct (Z.eq_dec (a / k) (b / k)) as [E|N]; [rewrite E in *; nia|].
    apply Z.lt_le_trans with (k * 2 ^ (a / k)).
    + replace (2 ^ (a / k)) with (2 * 2 ^ (a / k - 1)) by (rewrite <- Z.pow_succ_r by lia; f_equal; lia). nia.
    + assert (2 ^ (a / k) <= 2 ^ (b / k - 1)) by (apply Z.pow_le_mono_r; lia). nia.
Qed.

Lemma magnitude_value_le a b : 0 <= a -> 0 <= b -> a <= b <-> magnitude_value a <= magnitude_value b.
Proof.
  intros Ha Hb. split; intros H.
  - destruct (Z.eq_dec a b) as [->|]; [done|]. apply Z.lt_le_incl, magnitude_value_lt. lia.
  - destruct (Z.le_gt_cases a b) as [|Hgt]; [done|]. pose proof (magnitude_value_lt b a ltac:(lia)). lia.
Qed.

Lemma magnitude_value_ltb a b : 0 <= a -> 0 <= b -> (a <? b) = (magnitude_value a <? magnitude_value b).
Proof.
  intros Ha Hb. pose proof (magnitude_value_le b a Hb Ha). destruct (Z.ltb_spec a b), (Z.ltb_spec (magnitude_value a) (magnitude_value b)); lia.
Qed.

(** ** From a float to its bits *)

Lemma bits_magnitude x : valid f x -> let b := bits_of_float f x in
  0 <= b < 2 * sign_weight /\ b / sign_weight = Z.b2z (float_sign x) /\
  b mod sign_weight < (exponents f - 1) * hidden_bit f /\
  magnitude_value (b mod sign_weight) = Z.abs (grid f x).
Proof.
  intros Hx. pose proof hidden_pos as Hh. pose proof sign_weight_pos as HW. cbv zeta.
  assert (exists mag, bits_of_float f x = (if float_sign x then sign_weight else 0) + mag /\ 0 <= mag < (exponents f - 1) * hidden_bit f /\
    magnitude_value mag = Z.abs (grid f x)) as (mag & -> & Hmag & Ev).
  { destruct x as [s|s| |s m e]; [|by destruct Hx|by destruct Hx|].
    - exists 0. cbn [bits_of_float float_sign grid]. unfold magnitude_value. rewrite (proj2 (Z.ltb_lt _ _)) by done.
      split; [unfold sign_weight; destruct s; lia|]. split; [|done]. unfold exponents. nia.
    - destruct (valid_finite f _ _ _ Hx) as (He & Hd & Ek). pose proof (digits_bounds m) as [Hml Hmu].
      assert (Z.abs (grid f (S754_finite s m e)) = Zpos m * 2 ^ (e - emin (prec f) (emax f))) as ->.
      { cbn [grid]. assert (0 < 2 ^ (e - emin (prec f) (emax f))) by (apply Z.pow_pos_nonneg; lia). destruct s; nia. }
      cbn [bits_of_float float_sign]. destruct (Z.ltb_spec (Zpos m) (hidden_bit f)) as [Hlt|Hge].
      + exists (Zpos m). assert (Zpos (digits2_pos m) - 1 < prec f - 1) by (apply (Z.pow_lt_mono_r_iff 2); unfold hidden_bit in Hlt; lia).
        replace (e - emin (prec f) (emax f)) with 0 by lia. unfold magnitude_value. rewrite (proj2 (Z.ltb_lt _ _)) by lia.
        split; [unfold sign_weight; destruct s; lia|]. split; [unfold exponents in *; nia|]. lia.
      + assert (prec f - 1 < Zpos (digits2_pos m)) by (apply (Z.pow_lt_mono_r_iff 2); unfold hidden_bit in Hge; lia).
        assert (Zpos m < 2 * hidden_bit f) as Hm2.
        { unfold hidden_bit. rewrite <- Z.pow_succ_r by lia. replace (Z.succ (prec f - 1)) with (Zpos (digits2_pos m)) by lia. lia. }
        exists ((e - least_exponent f + 1) * hidden_bit f + (Zpos m - hidden_bit f)). rewrite <- least_is.
        split; [unfold sign_weight; destruct s; lia|]. split.
        * unfold emin in *. unfold exponents. nia.
        * rewrite magnitude_value_at by lia. f_equal; [lia|]. f_equal. lia. }
  assert (mag < sign_weight) by (unfold sign_weight; nia).
  destruct (float_sign x); cbn [Z.b2z].
  - assert ((sign_weight + mag) / sign_weight = 1) as -> by (symmetry; apply Z.div_unique with mag; lia).
    assert ((sign_weight + mag) mod sign_weight = mag) as -> by (symmetry; apply Z.mod_unique with 1; lia). lia.
  - rewrite Z.add_0_l, Z.div_small, Z.mod_small by lia. lia.
Qed.

Lemma grid_sign x : valid f x -> grid f x = (if float_sign x then - Z.abs (grid f x) else Z.abs (grid f x)).
Proof.
  intros Hx. destruct x as [s|s| |s m e]; [by destruct s|by destruct Hx|by destruct Hx|].
  destruct (valid_finite f _ _ _ Hx) as (He & _). assert (0 < 2 ^ (e - emin (prec f) (emax f))) by (apply Z.pow_pos_nonneg; lia).
  cbn [grid float_sign]. destruct s; nia.
Qed.

(** ** From bits to a float *)

Lemma float_of_bits_grid b : 0 <= b < 2 * sign_weight -> b mod sign_weight < (exponents f - 1) * hidden_bit f ->
  let x := float_of_bits f b in
  valid f x /\ grid f x = (if b / sign_weight =? 1 then -1 else 1) * magnitude_value (b mod sign_weight).
Proof.
  intros Hb Hmag. pose proof hidden_pos as Hh. pose proof sign_weight_pos as HW. assert (0 < exponents f) as Hx by (unfold exponents; lia).
  cbv zeta. unfold float_of_bits. set (k := hidden_bit f) in *. set (n := exponents f) in *.
  assert (b / k / n = b / sign_weight) as -> by (unfold sign_weight; fold k n; rewrite Z.div_div by lia; f_equal; lia).
  set (mag := b mod sign_weight) in *. set (s := b / sign_weight =? 1).
  pose proof (Z.mod_pos_bound b sign_weight HW) as Hm0. fold mag in Hm0.
  assert ((b / k) mod n = mag / k) as ->.
  { unfold mag, sign_weight. fold k n. rewrite (Z.mul_comm n k), Z.rem_mul_r by lia.
    rewrite (Z.add_comm (b mod k)), (Z.mul_comm k), Z.div_add_l, (Z.div_small (b mod k)) by (lia || apply Z.mod_pos_bound; lia). lia. }
  assert (b mod k = mag mod k) as ->.
  { unfold mag, sign_weight. fold k n. rewrite (Z.mul_comm n k), Z.rem_mul_r by lia.
    rewrite (Z.mul_comm k), Z.mod_add, Z.mod_mod by lia. done. }
  pose proof (Z.div_mod mag k ltac:(lia)) as D. pose proof (Z.mod_pos_bound mag k ltac:(lia)) as R.
  assert (0 <= mag / k) by (apply Z.div_pos; lia). assert (mag / k < n - 1) by (apply Z.div_lt_upper_bound; lia).
  assert (2 ^ (prec f - 1) = k) as Ek by reflexivity.
  destruct (Z.eqb_spec (mag / k) 0) as [E0|N0].
  - assert (mag < k) as Hlt by nia. assert (mag mod k = mag) as -> by (apply Z.mod_small; lia). clear D R Hmag E0.
    unfold magnitude_value. fold k. rewrite (proj2 (Z.ltb_lt _ _)) by done. clearbody mag.
    destruct mag as [|m|m] eqn:Em; [split; [done|cbn; lia]| |lia].
    assert (Zpos (digits2_pos m) <= prec f - 1) by (apply (digits_le f); lia). rewrite <- least_is. split.
    + split; [done|]. cbn. unfold bounded, canonical_mantissa, fexp, emin. apply andb_true_iff. split; [apply Z.eqb_eq|apply Z.leb_le]; lia.
    + cbn [grid]. rewrite Z.sub_diag. destruct s; lia.
  - rewrite (proj2 (Z.eqb_neq _ _)) by lia. rewrite D at 3. rewrite (Z.mul_comm k). rewrite magnitude_value_at by (fold k; lia). fold k.
    destruct (mag mod k + k) as [|m|m] eqn:Em; [lia| |lia]. rewrite <- least_is.
    assert (Zpos (digits2_pos m) = prec f) as Ed.
    { pose proof (digits_bounds m) as [Hl Hu]. assert (Zpos (digits2_pos m) - 1 < prec f).
      - apply (Z.pow_lt_mono_r_iff 2); [lia|lia|]. replace (prec f) with (Z.succ (prec f - 1)) by lia. rewrite Z.pow_succ_r by lia. lia.
      - assert (prec f - 1 < Zpos (digits2_pos m)); [|lia]. apply (Z.pow_lt_mono_r_iff 2); lia. }
    split.
    + split; [done|]. cbn. unfold bounded, canonical_mantissa, fexp, emin. rewrite Ed. unfold n, exponents in *.
      apply andb_true_iff. split; [apply Z.eqb_eq|apply Z.leb_le]; lia.
    + cbn [grid]. replace (mag / k - 1 + emin (prec f) (emax f) - emin (prec f) (emax f)) with (mag / k - 1) by lia. destruct s; lia.
Qed.
End Bits.
