(* ===== verification/UkfBits.v ===== *)
(** * Working floats by their bits

    The signal boundary of the q15 and q31 estimators (ukf_internal.h) and two
    helpers of the q particle filter.  Where the compiler has the IEEE layout the
    code reads and writes bit patterns; elsewhere it uses floating operations.
    Both branches of each #if are modelled: the second one is named [_portable]. *)
From Stdlib Require Import SpecFloat.
From S2P Require Import Prelude MachineInt Status Numeric Float Matrix FcMonad FcFloat FcVariants PfInt.

Section Format.
Variable f : q_format.

(** float for q15, double for q31. *)
Definition work_format : float_format := match f with Q15 => binary32 | Q31 => binary64 end.
Definition U_MANT_DIG : Z := prec work_format.
Definition U_SIGNAL_MAX : Z := match f with Q15 => INT16_MAX | Q31 => INT32_MAX end.
Definition U_SCALE : Z := match f with Q15 => 32768 | Q31 => 2147483648 end.
Definition i_signal (x : Z) : Z := match f with Q15 => i16 x | Q31 => i32 x end.

(** The unsigned integer of the size of the working type, and its fields. *)
Definition word (x : Z) : Z := match f with Q15 => u32 x | Q31 => u64 x end.
Definition sign_bit : Z := match f with Q15 => 31 | Q31 => 63 end.
Definition fraction_bits : Z := match f with Q15 => 23 | Q31 => 52 end.
Definition magnitude_mask : Z := match f with Q15 => 0x7fffffff | Q31 => 0x7fffffffffffffff end.
Definition exponent_mask : Z := match f with Q15 => 0x7f800000 | Q31 => 0x7ff0000000000000 end.
Definition fraction_mask : Z := match f with Q15 => 0x7fffff | Q31 => 0xfffffffffffff end.
Definition implicit_bit : Z := match f with Q15 => 0x800000 | Q31 => 0x10000000000000 end.

(** [memcpy(&bits, &value, sizeof(bits))] *)
Definition bits_from (value : spec_float) : Z := bits_of_float work_format value.

(** ** Predicates *)

Definition ukf_isfinite (value : spec_float) : bool :=
  negb (Z.land (bits_from value) exponent_mask =? exponent_mask).
Definition ukf_isfinite_portable (value : spec_float) : bool := isfinite value.

Definition ukf_in_unit (value : spec_float) : bool :=
  Z.land (bits_from value) magnitude_mask <=? match f with Q15 => 0x3f800000 | Q31 => 0x3ff0000000000000 end.
Definition ukf_in_unit_portable (value : spec_float) : bool :=
  SFleb (fneg (fone work_format)) value && SFleb value (fone work_format).

Definition ukf_finite (values : list spec_float) : linears_status_t :=
  if forallb ukf_isfinite values then LINEARS_OK else LINEARS_ERROR_RANGE.

Definition ukf_abs_greater (a b : spec_float) : bool :=
  Z.land (bits_from b) magnitude_mask <? Z.land (bits_from a) magnitude_mask.
Definition ukf_abs_greater_portable (a b : spec_float) : bool := flt (fabs b) (fabs a).

(** PQ(exponent_less) of pf_q_likelihood_impl.h *)
Definition pf_exponent_less (a b : spec_float) : bool :=
  let sign := Z.shiftl 1 sign_bit in
  let av := bits_from a in
  let bv := bits_from b in
  if negb (Z.land (Z.lxor av bv) sign =? 0)
  then negb (Z.land av sign =? 0) && negb (Z.land (Z.lor av bv) (word (Z.lnot sign)) =? 0)
  else if negb (Z.land av sign =? 0) then bv <? av else av <? bv.
Definition pf_exponent_less_portable (a b : spec_float) : bool := flt a b.

(** Exact stored symmetry, for an element type with its comparisons. *)
Definition ukf_symmetric {A} (zero : A) (negative : A -> bool) (equal : A -> A -> bool) (n : nat) (values : list A)
    (check_diagonal : bool) : linears_status_t :=
  if forallb (fun i =>
       negb (check_diagonal && negative (nth (i * n + i) values zero)) &&
       forallb (fun j => equal (nth (i * n + j) values zero) (nth (j * n + i) values zero)) (seq 0 i)) (seq 0 n)
  then LINEARS_OK else LINEARS_ERROR_DOMAIN.

(** ** Widening *)

Definition ukf_widen_value (value : Z) : spec_float :=
  let sign := if value <? 0 then Z.shiftl 1 sign_bit else 0 in
  let magnitude := if value <? 0 then u32 (- value) else u32 value in
  if magnitude =? 0 then fzero
  else
    let leading := builtin_clz magnitude in
    float_of_bits work_format
      (Z.lor (Z.lor sign (word (Z.shiftl (match f with Q15 => 143 | Q31 => 1023 end - leading) fraction_bits)))
             (Z.land (word (Z.shiftl magnitude (leading + match f with Q15 => -8 | Q31 => 21 end))) fraction_mask)).

Definition ukf_widen_value_portable (value : Z) : spec_float :=
  fmul work_format (of_int work_format value) (fdiv work_format (fone work_format) (of_int work_format U_SCALE)).

Definition ukf_widen (input : list Z) : list spec_float := map ukf_widen_value input.

(** ** Narrowing *)

Definition ukf_narrow_value (value : spec_float) : Z :=
  let bits := bits_from value in
  let exponent := Z.shiftr (Z.land bits magnitude_mask) fraction_bits in
  if exponent <? match f with Q15 => 111 | Q31 => 991 end then 0
  else
    let significand := Z.lor (Z.land bits fraction_mask) implicit_bit in
    let raw := u32 (Z.shiftr (word (Z.shiftr significand (match f with Q15 => 134 | Q31 => 1043 end - exponent) + 1)) 1) in
    if negb (Z.shiftr bits sign_bit =? 0) then i_signal (- raw)
    else if raw =? U_SCALE then U_SIGNAL_MAX else i_signal raw.

(** lround of a finite value: to nearest, halfway cases away from zero. *)
Definition LROUND (x : spec_float) : Z :=
  match x with
  | S754_finite s m e =>
      let v := if 0 <=? e then Z.shiftl (Zpos m) e else half_up (Zpos m) (2 ^ (- e)) in if s then - v else v
  | _ => 0
  end.

Definition ukf_narrow_value_portable (value : spec_float) : Z :=
  let scaled := fmul work_format value (of_int work_format U_SCALE) in
  if SFleb (fadd work_format (of_int work_format U_SIGNAL_MAX) (one_half work_format)) scaled then U_SIGNAL_MAX
  else i_signal (LROUND scaled).

Definition ukf_fits (values : list spec_float) : linears_status_t :=
  if forallb ukf_in_unit values then LINEARS_OK else LINEARS_ERROR_RANGE.
Definition ukf_store (values : list spec_float) : list Z := map ukf_narrow_value values.

(** ** The error of a narrowed value *)

(** The position of the highest set bit. *)
Definition top_bit (distance : Z) : Z :=
  match f with
  | Q15 => 31 - builtin_clz (u32 distance)
  | Q31 =>
      let high := u32 (Z.shiftr distance 32) in
      if negb (high =? 0) then 63 - builtin_clz high else 31 - builtin_clz (u32 distance)
  end.

Definition ukf_quantization_error (value : spec_float) (raw : Z) : spec_float :=
  let magnitude := if raw <? 0 then u32 (- raw) else u32 raw in
  let bits := Z.land (bits_from value) magnitude_mask in
  if raw =? 0 then float_of_bits work_format bits
  else
    let exponent := Z.shiftr bits fraction_bits in
    let shift := match f with Q15 => 135 | Q31 => 1044 end - exponent in
    let significand := Z.lor (Z.land bits fraction_mask) implicit_bit in
    let aligned := word (Z.shiftl magnitude shift) in
    let distance := if aligned <? significand then significand - aligned else aligned - significand in
    if distance =? 0 then fzero
    else
      let top := top_bit distance in
      float_of_bits work_format
        (Z.lor (word (Z.shiftl (exponent - fraction_bits + top) fraction_bits))
               (Z.land (word (Z.shiftl distance (fraction_bits - top))) fraction_mask)).

Definition ukf_quantization_error_portable (value : spec_float) (raw : Z) : spec_float :=
  fabs (fsub work_format value (ukf_widen_value raw)).

(** ** Division by a pivot *)

Definition ukf_pivot_divide (value inverse pivot : spec_float) : spec_float :=
  let product := fmul work_format value inverse in
  if Z.land (bits_from product) magnitude_mask <? match f with Q15 => 0x7f000000 | Q31 => 0x7fe0000000000000 end
  then product else fdiv work_format value pivot.
Definition ukf_pivot_divide_portable (value inverse pivot : spec_float) : spec_float :=
  let product := fmul work_format value inverse in
  if flt (fabs product) (LDEXP work_format (fone work_format) (match f with Q15 => 127 | Q31 => 1023 end))
  then product else fdiv work_format value pivot.

(** ** PQ(raw) of pf_q_internal.h: once with soft floats, and the expression it replaces *)

Definition pf_raw (value : spec_float) : Z :=
  let bits := bits_from value in
  let magnitude := Z.land bits magnitude_mask in
  let rounded :=
    if magnitude <? match f with Q15 => 0x37800000 | Q31 => 0x3df0000000000000 end then
      Z.b2z (magnitude =? match f with Q15 => 0x377fffff | Q31 => 0x3defffffffffffff end)
    else
      let shift := match f with Q15 => 135 | Q31 => 1044 end - Z.shiftr magnitude fraction_bits in
      let mantissa := Z.lor (Z.land magnitude fraction_mask) implicit_bit in
      Z.shiftr (word (mantissa + word (Z.shiftl 1 (shift - 1)))) shift in
  if negb (Z.shiftr bits sign_bit =? 0) then - rounded else rounded.

Definition pf_raw_portable (value : spec_float) : Z :=
  let scaled := fmul work_format value (of_int work_format U_SCALE) in
  to_int (if SFleb fzero scaled then fadd work_format scaled (one_half work_format)
          else fsub work_format scaled (one_half work_format)).
End Format.
