(* ===== verification/UkfBitsSpec.v ===== *)
(** * The bit routines compute the floating-point ones

    Each pair of preprocessor branches of UkfBits.v agrees: decoding, comparing,
    widening, narrowing and rounding by bits give the numbers that the IEEE
    operations give, with a single rounding where there is one. *)
From Stdlib Require Import SpecFloat.
From S2P Require Import Prelude MachineInt Status Numeric Float Matrix FcMonad FcFloat FcVariants PfInt FloatParts FloatGrid FloatBits UkfBits.

Lemma land_lxor a b c : Z.land (Z.lxor a b) c = Z.lxor (Z.land a c) (Z.land b c).
Proof.
  apply Z.bits_inj'. intros i Hi. rewrite Z.land_spec, !Z.lxor_spec, !Z.land_spec.
  by destruct (Z.testbit a i), (Z.testbit b i), (Z.testbit c i).
Qed.

Lemma half_up_shifts v k : 0 < k -> half_up v (2 ^ k) = (v / 2 ^ (k - 1) + 1) / 2.
Proof.
  intros Hk. rewrite half_up_pow2 by done.
  assert (v / 2 ^ k = v / 2 ^ (k - 1) / 2) as ->.
  { rewrite Z.div_div by (try apply Z.pow_nonzero; lia). f_equal. rewrite Z.mul_comm, <- Z.pow_succ_r by lia. f_equal. lia. }
  set (y := v / 2 ^ (k - 1)). pose proof (Z.div_mod y 2 ltac:(lia)). pose proof (Z.mod_pos_bound y 2 ltac:(lia)).
  pose proof (Z.div_mod (y + 1) 2 ltac:(lia)). pose proof (Z.mod_pos_bound (y + 1) 2 ltac:(lia)). lia.
Qed.

#[export] Instance work_ieee f : IeeeFormat (work_format f).
Proof. destruct f; apply _. Qed.

Section Format.
Variable f : q_format.

Definition work_valid (x : spec_float) : Prop := valid (work_format f) x.
Definition work_grid (x : spec_float) : Z := grid (work_format f) x.

(** One, a signal unit and half a unit on the grid. *)
Definition grid_one : Z := 2 ^ (- emin (prec (work_format f)) (emax (work_format f))).
Definition grid_unit : Z := grid_one / U_SCALE f.

Lemma grid_unit_spec : grid_one = U_SCALE f * grid_unit /\ grid_unit = 2 * (grid_unit / 2) /\ 0 < grid_unit / 2.
Proof. unfold grid_unit, grid_one. destruct f; vm_compute; done. Qed.

(** ** Fields *)

Lemma land_magnitude b : Z.land b (magnitude_mask f) = b mod sign_weight (work_format f).
Proof. destruct f; [apply (land_mask b 31)|apply (land_mask b 63)]; lia. Qed.

Lemma shiftr_sign b : Z.shiftr b (sign_bit f) = b / sign_weight (work_format f).
Proof. destruct f; apply Z.shiftr_div_pow2; cbn; lia. Qed.

Lemma shiftr_exponent b : Z.shiftr b (fraction_bits f) = b / hidden_bit (work_format f).
Proof. destruct f; apply Z.shiftr_div_pow2; cbn; lia. Qed.

Lemma hidden_word : hidden_bit (work_format f) = 2 ^ fraction_bits f /\ implicit_bit f = hidden_bit (work_format f) /\ 0 <= fraction_bits f.
Proof. by destruct f. Qed.

Lemma significand_of b : Z.lor (Z.land b (fraction_mask f)) (implicit_bit f) = b mod hidden_bit (work_format f) + hidden_bit (work_format f).
Proof.
  assert (Z.land b (fraction_mask f) = b mod 2 ^ fraction_bits f) as ->.
  { destruct f; [apply (land_mask b 23)|apply (land_mask b 52)]; lia. }
  destruct hidden_word as (Eh & Ei & Hfb). rewrite Ei, Eh.
  pose proof (Z.mod_pos_bound b (2 ^ fraction_bits f) ltac:(apply Z.pow_pos_nonneg; lia)).
  rewrite Z.lor_comm. replace (2 ^ fraction_bits f) with (Z.shiftl 1 (fraction_bits f)) at 1 by (rewrite Z.shiftl_mul_pow2; lia).
  rewrite lor_shiftl_add by lia. lia.
Qed.

Lemma fraction_of b : Z.land b (fraction_mask f) = b mod hidden_bit (work_format f).
Proof. destruct f; [apply (land_mask b 23)|apply (land_mask b 52)]; lia. Qed.

(** The magnitude bits of a valid value. *)
Definition mag (x : spec_float) : Z := bits_from f x mod sign_weight (work_format f).

Lemma mag_spec x : work_valid x ->
  0 <= mag x < (exponents (work_format f) - 1) * hidden_bit (work_format f) /\ magnitude_value (work_format f) (mag x) = Z.abs (work_grid x) /\
  bits_from f x / sign_weight (work_format f) = Z.b2z (float_sign x) /\ 0 <= bits_from f x < 2 * sign_weight (work_format f).
Proof.
  intros Hx. destruct (bits_magnitude (work_format f) x Hx) as (Hb & Hs & Hm & Ev).
  pose proof (sign_weight_pos (work_format f)). unfold mag, bits_from. 
  pose proof (Z.mod_pos_bound (bits_of_float (work_format f) x) (sign_weight (work_format f)) ltac:(lia)). auto with lia.
Qed.

(** ** Predicates *)

Lemma constant_code x b : work_valid x -> 0 <= b -> (mag x <=? b) = (Z.abs (work_grid x) <=? magnitude_value (work_format f) b).
Proof.
  intros Hx Hb. destruct (mag_spec x Hx) as (Hm & <- & _). pose proof (magnitude_value_le (work_format f) (mag x) b ltac:(lia) Hb).
  destruct (Z.leb_spec (mag x) b), (Z.leb_spec (magnitude_value (work_format f) (mag x)) (magnitude_value (work_format f) b)); lia.
Qed.

Lemma constant_code_lt x b : work_valid x -> 0 <= b -> (mag x <? b) = (Z.abs (work_grid x) <? magnitude_value (work_format f) b).
Proof.
  intros Hx Hb. destruct (mag_spec x Hx) as (Hm & <- & _). apply (magnitude_value_ltb (work_format f)); lia.
Qed.

Lemma one_valid : work_valid (fone (work_format f)) /\ work_grid (fone (work_format f)) = grid_one.
Proof. unfold work_valid, work_grid, grid_one. destruct f; by vm_compute. Qed.

Lemma in_unit_grid x : work_valid x -> ukf_in_unit f x = (Z.abs (work_grid x) <=? grid_one).
Proof.
  intros Hx. unfold ukf_in_unit. rewrite land_magnitude. fold (mag x). rewrite constant_code by (done || (destruct f; lia)).
  f_equal. unfold grid_one. destruct f; by vm_compute.
Qed.

Lemma ukf_in_unit_eq x : valid_binary (prec (work_format f)) (emax (work_format f)) x = true -> ukf_in_unit f x = ukf_in_unit_portable f x.
Proof.
  intros Hv. destruct (isfinite x) eqn:Hfin.
  - assert (work_valid x) as Hx by done. destruct one_valid as [H1 E1]. rewrite in_unit_grid by done. unfold ukf_in_unit_portable. 
    rewrite (fle_grid (work_format f)) by (done || by apply fneg_valid). rewrite (fle_grid (work_format f)) by done. rewrite fneg_grid. fold (work_grid (fone (work_format f))) (work_grid x). rewrite E1.
    destruct (Z.leb_spec (Z.abs (work_grid x)) grid_one), (Z.leb_spec (- grid_one) (work_grid x)), (Z.leb_spec (work_grid x) grid_one); lia.
  - clear Hv. destruct x as [s|s| |s m e]; try done; [destruct s|]; destruct f; by vm_compute.
Qed.

Lemma ukf_isfinite_eq x : valid_binary (prec (work_format f)) (emax (work_format f)) x = true -> ukf_isfinite f x = ukf_isfinite_portable x.
Proof.
  intros Hv. destruct (isfinite x) eqn:Hfin.
  - assert (work_valid x) as Hx by done. destruct (mag_spec x Hx) as (Hm & _ & _ & Hb). unfold ukf_isfinite, ukf_isfinite_portable. rewrite Hfin.
    apply negb_true_iff, Z.eqb_neq. intros E.
    assert (Z.land (bits_from f x) (exponent_mask f) = (bits_from f x / hidden_bit (work_format f)) mod exponents (work_format f) * hidden_bit (work_format f)) as El.
    { assert (exponent_mask f = Z.shiftl (exponents (work_format f) - 1) (fraction_bits f)) as -> by (by destruct f).
      rewrite <- (shiftr_exponent (bits_from f x)). destruct hidden_word as (-> & _ & Hfb). rewrite <- Z.shiftl_mul_pow2 by done.
      assert (exists k, 0 <= k /\ exponents (work_format f) = 2 ^ k) as (k & Hk & ->) by (destruct f; [exists 8|exists 11]; done).
      rewrite <- land_mask by done. apply Z.bits_inj'. intros i Hi. rewrite Z.land_spec.
      destruct (Z.lt_ge_cases i (fraction_bits f)).
      - rewrite !Z.shiftl_spec_low by done. by rewrite andb_false_r.
      - rewrite !Z.shiftl_spec, Z.land_spec, Z.shiftr_spec by lia. by replace (i - fraction_bits f + fraction_bits f) with i by lia. }
    rewrite El in E. assert (exponent_mask f = (exponents (work_format f) - 1) * hidden_bit (work_format f)) as Em by (by destruct f). rewrite Em in E.
    assert ((bits_from f x / hidden_bit (work_format f)) mod exponents (work_format f) = exponents (work_format f) - 1) as Ex by (pose proof (hidden_pos (work_format f)); nia).
    pose proof (hidden_pos (work_format f)). assert (0 < exponents (work_format f)) by (unfold exponents; pose proof (ieee_prec (f := (work_format f))); pose proof (ieee_emax (f := (work_format f))); lia).
    assert (mag x / hidden_bit (work_format f) = (bits_from f x / hidden_bit (work_format f)) mod exponents (work_format f)) as Eq.
    { unfold mag, sign_weight. rewrite (Z.mul_comm (exponents (work_format f))), Z.rem_mul_r by lia.
      rewrite (Z.add_comm (_ mod hidden_bit (work_format f))), (Z.mul_comm (hidden_bit (work_format f))), Z.div_add_l, (Z.div_small (_ mod hidden_bit (work_format f))) by (lia || apply Z.mod_pos_bound; lia). lia. }
    assert (mag x / hidden_bit (work_format f) < exponents (work_format f) - 1) by (apply Z.div_lt_upper_bound; lia). lia.
  - clear Hv. destruct x as [s|s| |s m e]; try done; [destruct s|]; destruct f; by vm_compute.
Qed.

Lemma bits_split x : work_valid x -> bits_from f x = Z.b2z (float_sign x) * sign_weight (work_format f) + mag x.
Proof.
  intros Hx. destruct (mag_spec x Hx) as (_ & _ & <- & _). pose proof (sign_weight_pos (work_format f)). unfold mag.
  pose proof (Z.div_mod (bits_from f x) (sign_weight (work_format f)) ltac:(lia)). lia.
Qed.

Lemma grid_magnitude x : work_valid x ->
  work_grid x = (if float_sign x then - magnitude_value (work_format f) (mag x) else magnitude_value (work_format f) (mag x)).
Proof. intros Hx. destruct (mag_spec x Hx) as (_ & -> & _). exact (grid_sign (work_format f) x Hx). Qed.

Lemma ukf_abs_greater_eq a b : work_valid a -> work_valid b -> ukf_abs_greater f a b = ukf_abs_greater_portable a b.
Proof.
  intros Ha Hb. unfold ukf_abs_greater, ukf_abs_greater_portable. rewrite !land_magnitude. fold (mag a) (mag b).
  rewrite (flt_grid (work_format f)) by (by apply fabs_valid). rewrite !fabs_grid. destruct (mag_spec a Ha) as (Hma & Ea & _).
  destruct (mag_spec b Hb) as (Hmb & Eb & _). unfold work_grid in *. rewrite <- Ea, <- Eb. apply (magnitude_value_ltb (work_format f)); lia.
Qed.

Lemma sign_mask : Z.shiftl 1 (sign_bit f) = sign_weight (work_format f).
Proof. by destruct f. Qed.

Lemma land_sign x : work_valid x -> Z.land (bits_from f x) (sign_weight (work_format f)) = Z.b2z (float_sign x) * sign_weight (work_format f).
Proof.
  intros Hx. destruct (mag_spec x Hx) as (_ & _ & <- & _). rewrite <- shiftr_sign, <- sign_mask.
  assert (0 <= sign_bit f) as Hk by by destruct f. set (k := sign_bit f) in *. set (b := bits_from f x).
  rewrite (Z.shiftl_mul_pow2 1), Z.mul_1_l, <- Z.shiftl_mul_pow2 by done.
  assert (is_Some (Some b) /\ Z.shiftr b k < 2 /\ 0 <= Z.shiftr b k) as (_ & Hlt & Hge).
  { unfold b, k. rewrite shiftr_sign. destruct (mag_spec x Hx) as (_ & _ & -> & _). destruct (float_sign x); cbn; (split; [by eexists|lia]). }
  assert (Z.shiftr b k = Z.land (Z.shiftr b k) 1) as -> by (rewrite land_one, Z.mod_small; lia).
  apply Z.bits_inj'. intros i Hi. rewrite Z.land_spec. destruct (Z.lt_ge_cases i k).
  - rewrite Z.shiftl_spec_low, Z.pow2_bits_false by lia. by rewrite andb_false_r.
  - rewrite Z.shiftl_spec, Z.land_spec, Z.shiftr_spec by lia. replace (i - k + k) with i by lia. f_equal.
    destruct (Z.eq_dec i k) as [->|]; [by rewrite Z.pow2_bits_true, Z.sub_diag by lia|].
    rewrite Z.pow2_bits_false by lia. symmetry. apply (Z.pow2_bits_false 0). lia.
Qed.

Lemma magnitude_zero m : 0 <= m -> (m =? 0) = (magnitude_value (work_format f) m =? 0).
Proof.
  intros Hm. pose proof (hidden_pos (work_format f)). assert (magnitude_value (work_format f) 0 = 0) as E0 by (unfold magnitude_value; by rewrite (proj2 (Z.ltb_lt _ _))).
  destruct (Z.eqb_spec m 0) as [->|Hn]; [by rewrite E0|]. pose proof (magnitude_value_lt (work_format f) 0 m ltac:(lia)). symmetry. apply Z.eqb_neq. lia.
Qed.

(** The comparison of finite exponents by bits is the floating comparison. *)
Lemma pf_exponent_less_eq a b : work_valid a -> work_valid b -> pf_exponent_less f a b = (work_grid a <? work_grid b).
Proof.
  intros Ha Hb. pose proof (sign_weight_pos (work_format f)) as HW. unfold pf_exponent_less. cbv zeta. rewrite sign_mask.
  rewrite land_lxor. rewrite !land_sign by done.
  assert (word f (Z.lnot (sign_weight (work_format f))) = magnitude_mask f) as -> by by destruct f.
  rewrite Z.land_lor_distr_l, !land_magnitude. fold (mag a) (mag b).
  rewrite !grid_magnitude by done. rewrite (bits_split a Ha), (bits_split b Hb).
  destruct (mag_spec a Ha) as (Hma & _ & _). destruct (mag_spec b Hb) as (Hmb & _ & _).
  pose proof (magnitude_zero (mag a) ltac:(lia)) as Za. pose proof (magnitude_zero (mag b) ltac:(lia)) as Zb.
  pose proof (magnitude_value_ltb (work_format f) (mag a) (mag b) ltac:(lia) ltac:(lia)) as Lab.
  pose proof (magnitude_value_ltb (work_format f) (mag b) (mag a) ltac:(lia) ltac:(lia)) as Lba.
  pose proof (magnitude_value_nonneg (work_format f) (mag a) ltac:(lia)). pose proof (magnitude_value_nonneg (work_format f) (mag b) ltac:(lia)).
  set (A := magnitude_value _ (mag a)) in *. set (B := magnitude_value _ (mag b)) in *. set (W := sign_weight (work_format f)) in *.
  assert ((Z.lor (mag a) (mag b) =? 0) = (A =? 0) && (B =? 0)) as ->.
  { rewrite <- Za, <- Zb. destruct (Z.eqb_spec (Z.lor (mag a) (mag b)) 0) as [E|N].
    - apply Z.lor_eq_0_iff in E as [-> ->]. done.
    - destruct (Z.eqb_spec (mag a) 0) as [Ea|], (Z.eqb_spec (mag b) 0) as [Eb|]; try done. rewrite Ea, Eb in N. done. }
  destruct (float_sign a), (float_sign b); cbn [Z.b2z]; rewrite ?Z.mul_1_l, ?Z.mul_0_l, ?Z.lxor_nilpotent, ?Z.lxor_0_r, ?Z.lxor_0_l; cbn [Z.eqb negb];
    try (rewrite (proj2 (Z.eqb_neq W 0)) by lia); cbn [negb andb].
  - assert ((W + mag b <? W + mag a) = (mag b <? mag a)) as -> by (destruct (Z.ltb_spec (W + mag b) (W + mag a)), (Z.ltb_spec (mag b) (mag a)); lia).
    rewrite Lba. destruct (Z.ltb_spec B A), (Z.ltb_spec (- A) (- B)); lia.
  - destruct (Z.eqb_spec A 0), (Z.eqb_spec B 0), (Z.ltb_spec (- A) B); cbn; lia.
  - symmetry. apply Z.ltb_ge. lia.
  - rewrite !Z.add_0_l. exact Lab.
Qed.

(** ** Encoding *)

Lemma compose_bits (s : bool) field frac : 0 <= field < exponents (work_format f) -> 0 <= frac < hidden_bit (work_format f) ->
  Z.lor (Z.lor (if s then Z.shiftl 1 (sign_bit f) else 0) (word f (Z.shiftl field (fraction_bits f)))) frac =
  Z.b2z s * sign_weight (work_format f) + (field * hidden_bit (work_format f) + frac).
Proof.
  intros Hf Hfr. destruct hidden_word as (Eh & _ & Hfb). pose proof (hidden_pos (work_format f)) as Hh.
  assert (sign_weight (work_format f) = exponents (work_format f) * hidden_bit (work_format f)) as EW by done.
  assert (word f (Z.shiftl field (fraction_bits f)) = field * hidden_bit (work_format f)) as ->.
  { rewrite Z.shiftl_mul_pow2, <- Eh by done.
    assert (sign_weight (work_format f) = match f with Q15 => 2147483648 | Q31 => 9223372036854775808 end) as E by by destruct f.
    assert (0 <= field * hidden_bit (work_format f) < sign_weight (work_format f)) as Hr by nia. rewrite E in Hr.
    set (v := field * hidden_bit (work_format f)) in *. clearbody v. destruct f; cbn [word]; [apply u32_id|apply u64_id]; rlia. }
  assert (Z.lor (if s then Z.shiftl 1 (sign_bit f) else 0) (field * hidden_bit (work_format f)) =
    (Z.b2z s * exponents (work_format f) + field) * hidden_bit (work_format f)) as ->.
  { destruct s; cbn [Z.b2z]; [|rewrite Z.lor_0_l; lia]. assert (0 <= sign_bit f) as Hsb by by destruct f.
    assert (2 ^ sign_bit f = sign_weight (work_format f)) as Ep by by destruct f.
    rewrite lor_shiftl_add by (try rewrite Ep; nia). rewrite Ep, EW. lia. }
  rewrite Eh. rewrite <- Z.shiftl_mul_pow2 by done. rewrite lor_shiftl_add by (try rewrite <- Eh; lia). rewrite EW, Eh. lia.
Qed.

Lemma encode (s : bool) field frac : 1 <= field < exponents (work_format f) - 1 -> 0 <= frac < hidden_bit (work_format f) ->
  let x := float_of_bits (work_format f)
    (Z.lor (Z.lor (if s then Z.shiftl 1 (sign_bit f) else 0) (word f (Z.shiftl field (fraction_bits f)))) frac) in
  work_valid x /\ work_grid x = (if s then -1 else 1) * ((frac + hidden_bit (work_format f)) * 2 ^ (field - 1)).
Proof.
  intros Hf Hfr. cbv zeta. rewrite compose_bits by lia. pose proof (hidden_pos (work_format f)). pose proof (sign_weight_pos (work_format f)).
  assert (sign_weight (work_format f) = exponents (work_format f) * hidden_bit (work_format f)) as EW by done.
  set (m := field * hidden_bit (work_format f) + frac). set (W := sign_weight (work_format f)) in *.
  assert (0 <= m < W) by (unfold m; nia). assert (m < (exponents (work_format f) - 1) * hidden_bit (work_format f)) as Hm by (unfold m; nia).
  assert ((Z.b2z s * W + m) mod W = m) as Em by (rewrite Z.add_comm, Z.mod_add, Z.mod_small; lia).
  assert ((Z.b2z s * W + m) / W = Z.b2z s) as Ed by (rewrite Z.add_comm, Z.div_add, Z.div_small; lia).
  destruct (float_of_bits_grid (work_format f) (Z.b2z s * W + m)) as [Hv Eg]; [fold W; destruct s; cbn [Z.b2z]; lia|fold W; by rewrite Em|].
  fold W in Eg. rewrite Em, Ed in Eg. split; [exact Hv|]. unfold work_grid. rewrite Eg. unfold m.
  rewrite (magnitude_value_at (work_format f)) by lia. by destruct s.
Qed.

(** A positive integer of at most [prec] bits, normalised by its top bit. *)
Lemma encode_integer (s : bool) d field : 0 < d -> Z.log2 d <= fraction_bits f -> 1 <= field < exponents (work_format f) - 1 ->
  let x := float_of_bits (work_format f)
    (Z.lor (Z.lor (if s then Z.shiftl 1 (sign_bit f) else 0) (word f (Z.shiftl field (fraction_bits f))))
           (Z.land (word f (Z.shiftl d (fraction_bits f - Z.log2 d))) (fraction_mask f))) in
  work_valid x /\ work_grid x = (if s then -1 else 1) * (d * 2 ^ (fraction_bits f - Z.log2 d + (field - 1))).
Proof.
  intros Hd Ht Hf. destruct hidden_word as (Eh & _ & Hfb). rewrite fraction_of. cbv zeta. set (t := Z.log2 d) in *.
  pose proof (Z.log2_spec d Hd) as [Hl Hu]. fold t in Hl, Hu. rewrite Z.pow_succ_r in Hu by (apply Z.log2_nonneg).
  assert (0 <= t) by apply Z.log2_nonneg. assert (0 < 2 ^ (fraction_bits f - t)) by (apply Z.pow_pos_nonneg; lia).
  assert (2 ^ fraction_bits f = 2 ^ t * 2 ^ (fraction_bits f - t)) as Ep by (rewrite <- Z.pow_add_r by lia; f_equal; lia).
  set (v := d * 2 ^ (fraction_bits f - t)). assert (hidden_bit (work_format f) <= v < 2 * hidden_bit (work_format f)) as Hv by (rewrite Eh; unfold v; nia).
  assert (word f (Z.shiftl d (fraction_bits f - t)) = v) as ->.
  { rewrite Z.shiftl_mul_pow2 by lia. fold v. assert (hidden_bit (work_format f) = match f with Q15 => 8388608 | Q31 => 4503599627370496 end) as E by by destruct f.
    rewrite E in Hv. clearbody v. destruct f; cbn [word]; [apply u32_id|apply u64_id]; rlia. }
  assert (v mod hidden_bit (work_format f) = v - hidden_bit (work_format f)) as -> by (symmetry; apply Z.mod_unique with 1; lia).
  destruct (encode s field (v - hidden_bit (work_format f)) Hf ltac:(lia)) as [Hval Eg]. split; [exact Hval|].
  rewrite Eg. rewrite Z.pow_add_r by lia. replace (v - hidden_bit (work_format f) + hidden_bit (work_format f)) with v by lia. unfold v. lia.
Qed.

Lemma hidden_is : hidden_bit (work_format f) = match f with Q15 => 8388608 | Q31 => 4503599627370496 end.
Proof. by destruct f. Qed.

Lemma exponents_is : exponents (work_format f) - 1 = match f with Q15 => 255 | Q31 => 2047 end.
Proof. by destruct f. Qed.

(** ** Widening is exact *)

Definition signal_range (value : Z) : Prop := - U_SCALE f <= value < U_SCALE f.

Lemma ukf_widen_value_grid value : signal_range value ->
  work_valid (ukf_widen_value f value) /\ work_grid (ukf_widen_value f value) = value * grid_unit.
Proof.
  intros Hv. unfold signal_range in Hv. unfold ukf_widen_value.
  assert ((if value <? 0 then u32 (- value) else u32 value) = Z.abs value) as ->.
  { assert (U_SCALE f <= 2147483648) by by destruct f. destruct (Z.ltb_spec value 0); rewrite u32_id by rlia; lia. }
  destruct (Z.eqb_spec (Z.abs value) 0) as [E0|N0]; [assert (value = 0) as -> by lia; by split|].
  set (d := Z.abs value) in *. assert (0 < d <= U_SCALE f) as Hd by lia. unfold builtin_clz.
  assert (Z.log2 d <= match f with Q15 => 15 | Q31 => 31 end) as Ht.
  { transitivity (Z.log2 (U_SCALE f)); [apply Z.log2_le_mono; lia|by destruct f]. }
  pose proof (Z.log2_nonneg d).
  assert (31 - Z.log2 d + match f with Q15 => -8 | Q31 => 21 end = fraction_bits f - Z.log2 d) as -> by (destruct f; cbn [fraction_bits]; lia).
  set (field := match f with Q15 => 143 | Q31 => 1023 end - (31 - Z.log2 d)).
  destruct (encode_integer (value <? 0) d field) as [Hval Eg];
    [lia|destruct f; cbn [fraction_bits]; lia|rewrite exponents_is; unfold field; destruct f; lia|].
  split; [exact Hval|]. etransitivity; [exact Eg|].
  assert (2 ^ (fraction_bits f - Z.log2 d + (field - 1)) = grid_unit) as ->.
  { replace (fraction_bits f - Z.log2 d + (field - 1)) with (match f with Q15 => 134 | Q31 => 1043 end) by (unfold field, fraction_bits; destruct f; lia).
    unfold grid_unit, grid_one. destruct f; vm_compute; reflexivity. }
  unfold d. destruct (Z.ltb_spec value 0); lia.
Qed.

(** ** Narrowing rounds once *)

(** The nearest signal, halfway cases away from zero, with +1 saturated. *)
Definition nearest_signal (v : Z) : Z :=
  let r := half_up (Z.abs v) grid_unit in
  if v <? 0 then - r else if r =? U_SCALE f then U_SIGNAL_MAX f else r.

Definition unit_operand (x : spec_float) : Prop := work_valid x /\ Z.abs (work_grid x) <= grid_one.

Lemma nearest_range v : Z.abs v <= grid_one -> 0 <= half_up (Z.abs v) grid_unit <= U_SCALE f.
Proof.
  intros Hv. destruct grid_unit_spec as (Eone & Eu & Hu). split; [apply Z.div_pos; lia|].
  unfold half_up. assert ((2 * Z.abs v + grid_unit) / (2 * grid_unit) < U_SCALE f + 1); [|lia]. apply Z.div_lt_upper_bound; nia.
Qed.

(** The fields of a value at or above half a unit. *)
Definition first_exponent : Z := match f with Q15 => 111 | Q31 => 991 end.
Definition one_exponent : Z := match f with Q15 => 127 | Q31 => 1023 end.

Lemma mag_fields x : work_valid x ->
  bits_from f x mod hidden_bit (work_format f) = mag x mod hidden_bit (work_format f) /\
  (mag x / hidden_bit (work_format f) < first_exponent -> Z.abs (work_grid x) < grid_unit / 2) /\
  (first_exponent <= mag x / hidden_bit (work_format f) ->
   Z.abs (work_grid x) = (mag x mod hidden_bit (work_format f) + hidden_bit (work_format f)) * 2 ^ (mag x / hidden_bit (work_format f) - 1)).
Proof.
  intros Hx. destruct (mag_spec x Hx) as (Hm & Ev & _). pose proof (hidden_pos (work_format f)) as Hh. split; [|split].
  - pose proof exponents_is as Ex. assert (0 < exponents (work_format f)) by (destruct f; lia).
    unfold mag, sign_weight. by rewrite (Z.mul_comm (exponents _)), Z.rem_mul_r, (Z.mul_comm (hidden_bit _)), Z.mod_add, Z.mod_mod by lia.
  - intros Hlt. rewrite <- Ev. assert (mag x < first_exponent * hidden_bit (work_format f)) as Hlt'.
    { pose proof (Z.div_mod (mag x) (hidden_bit (work_format f)) ltac:(lia)). pose proof (Z.mod_pos_bound (mag x) (hidden_bit (work_format f)) ltac:(lia)). nia. }
    pose proof (magnitude_value_lt (work_format f) (mag x) (first_exponent * hidden_bit (work_format f)) ltac:(lia)) as Hv.
    assert (magnitude_value (work_format f) (first_exponent * hidden_bit (work_format f)) = grid_unit / 2) as <-; [|done].
    unfold grid_unit, grid_one, first_exponent. destruct f; vm_compute; reflexivity.
  - intros Hge. rewrite <- Ev. unfold magnitude_value. assert (hidden_bit (work_format f) <= mag x); [|by rewrite (proj2 (Z.ltb_ge _ _))].
    assert (1 <= mag x / hidden_bit (work_format f)) by (unfold first_exponent in *; destruct f; lia).
    pose proof (Z.div_mod (mag x) (hidden_bit (work_format f)) ltac:(lia)). pose proof (Z.mod_pos_bound (mag x) (hidden_bit (work_format f)) ltac:(lia)). nia.
Qed.

Lemma unit_exponent x : unit_operand x -> mag x / hidden_bit (work_format f) <= one_exponent.
Proof.
  intros [Hx Hone]. destruct (mag_spec x Hx) as (Hm & Ev & _). pose proof (hidden_pos (work_format f)) as Hh.
  assert (mag x <= one_exponent * hidden_bit (work_format f)) as Hle.
  { apply (magnitude_value_le (work_format f)); [lia|unfold one_exponent; destruct f; lia|]. rewrite Ev. etransitivity; [exact Hone|].
    apply Z.eq_le_incl. unfold grid_one, one_exponent. destruct f; vm_compute; reflexivity. }
  apply Z.div_le_upper_bound; lia.
Qed.

Lemma unit_shift E : first_exponent <= E <= one_exponent ->
  let k := match f with Q15 => 135 | Q31 => 1044 end - E in 0 < k /\ grid_unit = 2 ^ k * 2 ^ (E - 1).
Proof.
  intros HE. cbv zeta. unfold first_exponent, one_exponent in HE. assert (grid_unit = 2 ^ match f with Q15 => 134 | Q31 => 1043 end) as ->
    by (unfold grid_unit, grid_one; destruct f; vm_compute; reflexivity).
  split; [destruct f; lia|]. rewrite <- Z.pow_add_r by (destruct f; lia). f_equal. destruct f; lia.
Qed.

Lemma i_signal_id v : - U_SCALE f <= v <= U_SIGNAL_MAX f -> i_signal f v = v.
Proof. intros Hv. unfold U_SCALE, U_SIGNAL_MAX, i_signal in *. destruct f; [apply i16_id|apply i32_id]; rlia. Qed.

Lemma scale_max : U_SCALE f = U_SIGNAL_MAX f + 1 /\ 0 < U_SCALE f <= 2147483648.
Proof. by destruct f. Qed.

Lemma ukf_narrow_value_ok x : unit_operand x -> ukf_narrow_value f x = nearest_signal (work_grid x).
Proof.
  intros Hx. pose proof Hx as [Hval Hone]. destruct (mag_fields x Hval) as (Emod & Hsmall & Hbig). pose proof (unit_exponent x Hx) as HE.
  destruct (nearest_range (work_grid x) Hone) as [Hr0 Hr1]. destruct scale_max as [Es Hs].
  unfold ukf_narrow_value. rewrite land_magnitude. fold (mag x). rewrite shiftr_exponent, significand_of, shiftr_sign, Emod.
  destruct (mag_spec x Hval) as (_ & _ & -> & _). fold first_exponent. unfold nearest_signal.
  destruct grid_unit_spec as (Eone & Eu & Hu).
  destruct (Z.ltb_spec (mag x / hidden_bit (work_format f)) first_exponent) as [Hlt|Hge].
  - specialize (Hsmall Hlt). assert (half_up (Z.abs (work_grid x)) grid_unit = 0) as -> by (apply Z.div_small; lia).
    rewrite (proj2 (Z.eqb_neq 0 _)) by lia. by case_if.
  - specialize (Hbig Hge). set (E := mag x / hidden_bit (work_format f)) in *. set (M := mag x mod hidden_bit (work_format f) + hidden_bit (work_format f)) in *.
    destruct (unit_shift E ltac:(lia)) as [Hk Eunit]. set (k := match f with Q15 => 135 | Q31 => 1044 end - E) in *.
    assert (match f with Q15 => 134 | Q31 => 1043 end - E = k - 1) as -> by (unfold k; destruct f; lia).
    assert (0 < 2 ^ k) by (apply Z.pow_pos_nonneg; lia).
    assert (0 < 2 ^ (E - 1)) by (apply Z.pow_pos_nonneg; unfold first_exponent in Hge; destruct f; lia).
    assert (half_up M (2 ^ k) = half_up (Z.abs (work_grid x)) grid_unit) as Eh by (rewrite Hbig, Eunit; symmetry; by apply half_up_scale).
    pose proof (Z.mod_pos_bound (mag x) (hidden_bit (work_format f)) (hidden_pos (work_format f))) as HM.
    assert (0 < 2 ^ (k - 1)) by (apply Z.pow_pos_nonneg; lia).
    assert (u32 (Z.shiftr (word f (Z.shiftr M (k - 1) + 1)) 1) = half_up (Z.abs (work_grid x)) grid_unit) as ->.
    { rewrite (Z.shiftr_div_pow2 M) by lia. assert (0 <= M / 2 ^ (k - 1) <= M) as Hq.
      { split; [apply Z.div_pos; lia|apply Z.div_le_upper_bound; nia]. }
      assert (word f (M / 2 ^ (k - 1) + 1) = M / 2 ^ (k - 1) + 1) as ->.
      { assert (M < match f with Q15 => 16777216 | Q31 => 9007199254740992 end) as HM2 by (unfold M; rewrite hidden_is in *; destruct f; lia).
        clear -HM2 Hq. clearbody M. destruct f; cbn [word]; [apply u32_id|apply u64_id]; rlia. }
      rewrite Z.shiftr_div_pow2 by lia. change (2 ^ 1) with 2. rewrite <- half_up_shifts, Eh by done. apply u32_id. rlia. }
    set (r := half_up (Z.abs (work_grid x)) grid_unit) in *. pose proof (grid_sign (work_format f) x Hval) as Esgn. fold (work_grid x) in Esgn.
    assert (0 < Z.abs (work_grid x)) by (rewrite Hbig; nia).
    destruct (float_sign x); cbn [Z.b2z Z.eqb negb].
    + rewrite (proj2 (Z.ltb_lt _ _)) by lia. apply i_signal_id. lia.
    + rewrite (proj2 (Z.ltb_ge _ _)) by lia. destruct (Z.eqb_spec r (U_SCALE f)); [done|]. apply i_signal_id. lia.
Qed.

(** ** The portable branches *)

Definition q_width : Z := match f with Q15 => 15 | Q31 => 31 end.

Lemma scale_power : of_int (work_format f) (U_SCALE f) = power (work_format f) q_width /\ U_SCALE f = 2 ^ q_width /\ 0 <= q_width.
Proof. unfold q_width. destruct f; split; (vm_compute; reflexivity) || done. Qed.

Lemma unit_fits v : Z.abs v <= 4 * U_SCALE f * grid_one -> below_overflow (work_format f) v.
Proof.
  intros Hv. unfold below_overflow. eapply Z.le_lt_trans; [exact Hv|]. unfold grid_one. destruct f; vm_compute; reflexivity.
Qed.

Lemma scaled_grid x : unit_operand x -> let y := fmul (work_format f) x (of_int (work_format f) (U_SCALE f)) in
  work_valid y /\ work_grid y = work_grid x * U_SCALE f.
Proof.
  intros [Hx Hone]. destruct scale_power as (-> & Es & Hq). cbv zeta. unfold work_valid, work_grid. rewrite Es. apply fmul_power_grid; [apply _|done|done|].
  apply unit_fits. rewrite <- Es. destruct scale_max as [_ Hs]. fold (work_grid x). rewrite Z.abs_mul, (Z.abs_eq (U_SCALE f)) by lia.
  assert (0 < grid_one) by (destruct grid_unit_spec; nia). nia.
Qed.

Lemma LROUND_grid y : work_valid y ->
  LROUND y = (if work_grid y <? 0 then - half_up (Z.abs (work_grid y)) grid_one else half_up (Z.abs (work_grid y)) grid_one).
Proof.
  intros Hy. assert (0 < grid_one) as HG by (destruct grid_unit_spec; destruct scale_max; nia).
  destruct y as [s|s| |s m e]; [|by destruct Hy|by destruct Hy|].
  - symmetry. apply (half_up_0 grid_one HG).
  - destruct (valid_finite _ _ _ _ Hy) as (He & _). unfold work_grid. cbn [grid LROUND]. unfold grid_one in *.
    set (least := emin _ _) in *. assert (least < 0) by (unfold least; by destruct f).
    assert (0 < 2 ^ (e - least)) by (apply Z.pow_pos_nonneg; lia).
    assert ((if 0 <=? e then Z.shiftl (Zpos m) e else half_up (Zpos m) (2 ^ (- e))) = half_up (Zpos m * 2 ^ (e - least)) (2 ^ (- least))) as ->.
    { destruct (Z.leb_spec 0 e).
      - rewrite Z.shiftl_mul_pow2 by done. replace (e - least) with (e + - least) by lia. rewrite Z.pow_add_r, Z.mul_assoc by lia.
        symmetry. by apply half_up_exact.
      - replace (- least) with (- e + (e - least)) by lia. rewrite (Z.pow_add_r 2 (- e)) by lia. symmetry. apply half_up_scale; [apply Z.pow_pos_nonneg; lia|done]. }
    destruct s.
    + rewrite (proj2 (Z.ltb_lt _ _)) by nia. by rewrite Z.abs_opp, Z.abs_eq by nia.
    + rewrite (proj2 (Z.ltb_ge _ _)) by nia. by rewrite Z.abs_eq by nia.
Qed.

Lemma saturation_bound : let c := fadd (work_format f) (of_int (work_format f) (U_SIGNAL_MAX f)) (one_half (work_format f)) in
  work_valid c /\ 2 * work_grid c = (2 * U_SIGNAL_MAX f + 1) * grid_one.
Proof. unfold work_valid, valid, work_grid, grid_one. destruct f; split; (split; vm_compute; reflexivity) || (vm_compute; reflexivity). Qed.

Lemma ukf_narrow_value_portable_ok x : unit_operand x -> ukf_narrow_value_portable f x = nearest_signal (work_grid x).
Proof.
  intros Hx. destruct (scaled_grid x Hx) as [Hy Ey]. destruct Hx as [_ Hone]. destruct saturation_bound as [Hc Ec]. unfold ukf_narrow_value_portable. cbv zeta in *.
  set (y := fmul _ x _) in *. set (c := fadd _ _ _) in *. rewrite (fle_grid (work_format f)) by done. fold (work_grid c) (work_grid y).
  rewrite (LROUND_grid y Hy), Ey. destruct grid_unit_spec as (Eone & Eu & Hu). destruct scale_max as [Es Hs].
  assert (half_up (Z.abs (work_grid x * U_SCALE f)) grid_one = half_up (Z.abs (work_grid x)) grid_unit) as ->.
  { rewrite Z.abs_mul, (Z.abs_eq (U_SCALE f)), Eone, (Z.mul_comm (U_SCALE f)) by lia. apply half_up_scale; lia. }
  destruct (nearest_range (work_grid x) Hone) as [Hr0 Hr1]. unfold nearest_signal. set (r := half_up (Z.abs (work_grid x)) grid_unit) in *.
  assert (r = U_SCALE f <-> (2 * U_SCALE f - 1) * grid_unit <= 2 * Z.abs (work_grid x)) as Hsat.
  { unfold r, half_up in *. pose proof (Z.div_mod (2 * Z.abs (work_grid x) + grid_unit) (2 * grid_unit) ltac:(lia)).
    pose proof (Z.mod_pos_bound (2 * Z.abs (work_grid x) + grid_unit) (2 * grid_unit) ltac:(lia)). split; intros; nia. }
  set (v := work_grid x) in *. set (C := work_grid c) in *. set (u := grid_unit) in *.
  assert (C <= v * U_SCALE f <-> (2 * U_SCALE f - 1) * u <= 2 * v) as Hcmp.
  { assert (2 * C = (2 * U_SCALE f - 1) * u * U_SCALE f) as E2 by (rewrite Ec, Eone; lia). clear -E2 Hs. set (A := (2 * U_SCALE f - 1) * u) in *. clearbody A C.
    rewrite (Z.mul_le_mono_pos_r A (2 * v) (U_SCALE f)) by lia. lia. }
  assert ((v * U_SCALE f <? 0) = (v <? 0)) as -> by (destruct (Z.ltb_spec v 0), (Z.ltb_spec (v * U_SCALE f) 0); nia).
  assert (0 < (2 * U_SCALE f - 1) * u) as HA by nia.
  destruct (Z.leb_spec C (v * U_SCALE f)) as [Hle|Hgt], (Z.ltb_spec v 0) as [Hn|Hp]; [lia| | |].
  - rewrite (proj2 (Z.eqb_eq r (U_SCALE f))) by lia. done.
  - apply i_signal_id. lia.
  - rewrite (proj2 (Z.eqb_neq r (U_SCALE f))) by lia. apply i_signal_id. lia.
Qed.

Lemma ukf_widen_value_portable_ok value : signal_range value -> ukf_widen_value_portable f value = ukf_widen_value f value.
Proof.
  intros Hv. destruct (ukf_widen_value_grid value Hv) as [Hw Ew]. unfold ukf_widen_value_portable.
  assert (fdiv (work_format f) (fone (work_format f)) (of_int (work_format f) (U_SCALE f)) = power (work_format f) (- q_width)) as ->
    by (unfold q_width; destruct f; vm_compute; reflexivity).
  destruct (Z.eq_dec value 0) as [->|Hn]; [unfold q_width; destruct f; vm_compute; reflexivity|].
  destruct grid_unit_spec as (Eone & Eu & Hu). destruct scale_max as [_ Hs]. destruct scale_power as (_ & Es & Hq). unfold signal_range in Hv.
  destruct (of_int_grid (work_format f) value) as [Hi Ei].
  { apply unit_fits. fold grid_one. rewrite Z.abs_mul, (Z.abs_eq grid_one) by nia. apply Z.mul_le_mono_nonneg_r; nia. }
  fold grid_one in Ei. set (least := emin (prec (work_format f)) (emax (work_format f))) in *.
  assert (rnd (work_format f) (value * grid_one) = value * grid_one) as Ex.
  { unfold rnd. rewrite Z.abs_mul, (Z.abs_eq grid_one) by nia. unfold grid_one. fold least. rewrite (rnd_abs_exact (work_format f)); [|unfold least; by destruct f|].
    - rewrite Z.mul_assoc. rewrite Z.sgn_mul, (Z.sgn_pos (2 ^ _)), Z.mul_1_r by (apply Z.pow_pos_nonneg; unfold least; by destruct f). by rewrite (Z.mul_comm (Z.sgn value)), Z.abs_sgn.
    - split; [lia|]. etransitivity; [|apply (Z.pow_le_mono_r 2 q_width)]; [lia|lia|unfold q_width; by destruct f]. }
  rewrite Ex in Ei. destruct (of_int (work_format f) value) as [s|s| |s m e]; [change (0 = value * grid_one) in Ei; assert (0 < grid_one) by nia; nia|by destruct Hi|by destruct Hi|].
  destruct (valid_finite _ _ _ _ Hi) as (He & Hd & _). fold least in He. pose proof (digits_bounds m) as [Hml Hmu].
  assert (0 < 2 ^ (e - least)) by (apply Z.pow_pos_nonneg; lia).
  assert (Zpos m * 2 ^ (e - least) = Z.abs value * grid_one) as Em.
  { rewrite <- (Z.abs_eq grid_one), <- Z.abs_mul, <- Ei by nia. cbn [grid]. fold least. destruct s; nia. }
  assert (1 - prec (work_format f) <= e <= 32 - Zpos (digits2_pos m)) as Heb.
  { unfold grid_one in Em. fold least in Em. assert (least < 0) by (unfold least; by destruct f).
    assert (- least < Zpos (digits2_pos m) + (e - least)).
    { apply (Z.pow_lt_mono_r_iff 2); [lia|lia|]. rewrite Z.pow_add_r by lia. nia. }
    assert (Zpos (digits2_pos m) - 1 + (e - least) < 32 + - least); [|lia].
    apply (Z.pow_lt_mono_r_iff 2); [lia|lia|]. rewrite !Z.pow_add_r by lia. change (2 ^ 32) with 4294967296. nia. }
  destruct (fmul_power_exact (work_format f) s m e (- q_width) Hi) as [Hr Er];
    [fold least; unfold least, q_width, emin; destruct f; cbn [work_format prec emax binary32 binary64] in *; lia
    |unfold q_width; destruct f; cbn [work_format prec emax binary32 binary64] in *; lia|].
  fold least in Er. apply (grid_inj (work_format f)); [done|done| |].
  - fold (work_grid (ukf_widen_value f value)). rewrite Er, Ew.
    assert (least <= e + - q_width) by (unfold least, q_width, emin; destruct f; cbn [work_format prec emax binary32 binary64] in *; lia).
    assert (0 < 2 ^ q_width) by lia.
    apply (Z.mul_reg_r _ _ (2 ^ q_width)); [lia|]. rewrite <- !Z.mul_assoc, <- Z.pow_add_r by lia.
    replace (e + - q_width - least + q_width) with (e - least) by lia. rewrite Em. cbn [grid] in Ei. fold least in Ei. rewrite <- Es.
    destruct s; nia.
  - rewrite Er. assert (0 < 2 ^ (e + - q_width - least)); [|destruct s; nia].
    apply Z.pow_pos_nonneg; [lia|]. unfold least, q_width, emin. destruct f; cbn [work_format prec emax binary32 binary64] in *; lia.
Qed.

(** ** The error of a narrowed value *)

Lemma top_bit_spec d : 0 < d < 2 ^ (fraction_bits f + 2) -> top_bit f d = Z.log2 d.
Proof.
  intros Hd. unfold top_bit, builtin_clz. unfold fraction_bits in Hd. destruct f.
  - change (2 ^ (23 + 2)) with 33554432 in Hd. rewrite u32_id by rlia. lia.
  - change (2 ^ (52 + 2)) with 18014398509481984 in Hd. rewrite Z.shiftr_div_pow2 by lia. change (2 ^ 32) with 4294967296.
    assert (0 <= d / 4294967296 < 4294967296) by (split; [apply Z.div_pos; lia|apply Z.div_lt_upper_bound; lia]).
    rewrite (u32_id (d / _)) by rlia. destruct (Z.eqb_spec (d / 4294967296) 0) as [E|N]; cbn [negb].
    + pose proof (Z.div_mod d 4294967296 ltac:(lia)). pose proof (Z.mod_pos_bound d 4294967296 ltac:(lia)). rewrite u32_id by rlia. lia.
    + change 4294967296 with (2 ^ 32). rewrite <- Z.shiftr_div_pow2, Z.log2_shiftr by lia.
      assert (32 <= Z.log2 d); [|lia]. apply Z.log2_le_pow2; [lia|]. pose proof (Z.div_mod d 4294967296 ltac:(lia)).
      pose proof (Z.mod_pos_bound d 4294967296 ltac:(lia)). change (2 ^ 32) with 4294967296. lia.
Qed.

Lemma nearest_error v : Z.abs v <= grid_one -> let r := nearest_signal v in
  (v < 0 -> r <= 0) /\ (0 <= v -> 0 <= r) /\ Z.abs r <= U_SCALE f /\
  (2 * Z.abs (Z.abs v - Z.abs r * grid_unit) <= grid_unit \/
   ((U_SCALE f - 1) * grid_unit <= Z.abs v /\ Z.abs (Z.abs v - Z.abs r * grid_unit) <= grid_unit)).
Proof.
  intros Hv. destruct (nearest_range v Hv) as [H0 H1]. destruct grid_unit_spec as (Eone & Eu & Hu). destruct scale_max as [Es Hs].
  assert (2 * Z.abs (Z.abs v - half_up (Z.abs v) grid_unit * grid_unit) <= grid_unit) as Hnear.
  { unfold half_up. pose proof (Z.div_mod (2 * Z.abs v + grid_unit) (2 * grid_unit) ltac:(lia)).
    pose proof (Z.mod_pos_bound (2 * Z.abs v + grid_unit) (2 * grid_unit) ltac:(lia)). nia. }
  cbv zeta. unfold nearest_signal. set (r := half_up (Z.abs v) grid_unit) in *.
  destruct (Z.ltb_spec v 0); [rewrite Z.abs_opp, (Z.abs_eq r) by lia; split; [lia|split; [lia|split; [lia|by left]]]|].
  destruct (Z.eqb_spec r (U_SCALE f)) as [Er|]; [|rewrite (Z.abs_eq r) by lia; split; [lia|split; [lia|split; [lia|by left]]]].
  split; [lia|]. split; [lia|]. split; [lia|]. right. rewrite Er in Hnear. rewrite (Z.abs_eq (U_SIGNAL_MAX f)) by lia. nia.
Qed.

Lemma nearest_signal_range v : Z.abs v <= grid_one -> signal_range (nearest_signal v).
Proof.
  intros Hv. unfold nearest_signal, signal_range. destruct (nearest_range v Hv). destruct scale_max as [Es Hs].
  case_if; [lia|]. case_if; zbool; lia.
Qed.

Lemma zero_code : float_of_bits (work_format f) 0 = fzero.
Proof. by destruct f. Qed.

Lemma ukf_quantization_error_ok x : unit_operand x ->
  let raw := ukf_narrow_value f x in let err := ukf_quantization_error f x raw in
  work_valid err /\ work_grid err = Z.abs (work_grid x - raw * grid_unit) /\ (work_grid err = 0 -> err = fzero).
Proof.
  intros Hx. cbv zeta. rewrite (ukf_narrow_value_ok x Hx). pose proof Hx as [Hval Hone]. destruct (nearest_error (work_grid x) Hone) as (Hneg & Hpos & Hr & Herr).
  destruct (mag_fields x Hval) as (Emod & Hsmall & Hbig). pose proof (unit_exponent x Hx) as HE. destruct (mag_spec x Hval) as (Hm & Ev & _).
  destruct grid_unit_spec as (Eone & Eu & Hu). destruct scale_max as [Es Hs]. pose proof (hidden_pos (work_format f)) as Hh.
  set (raw := nearest_signal (work_grid x)) in *. unfold ukf_quantization_error. rewrite land_magnitude. fold (mag x).
  destruct (Z.eqb_spec raw 0) as [E0|N0].
  - pose proof (sign_weight_pos (work_format f)) as HW. assert (mag x < sign_weight (work_format f)) by (apply Z.mod_pos_bound; lia).
    destruct (float_of_bits_grid (work_format f) (mag x)) as [Hv Eg]; [lia|rewrite Z.mod_small by lia; lia|].
    rewrite Z.div_small, Z.mod_small in Eg by lia. change (0 =? 1) with false in Eg. cbn iota in Eg.
    split; [exact Hv|]. unfold work_grid at 1 3. rewrite Eg, Ev, E0. split; [f_equal; lia|]. intros Ez.
    pose proof (magnitude_zero (mag x) ltac:(lia)) as Hz. rewrite Ev in Hz.
    assert (mag x = 0) as -> by (apply Z.eqb_eq; rewrite Hz; apply Z.eqb_eq; lia). apply zero_code.
  - assert (first_exponent <= mag x / hidden_bit (work_format f)) as Hge.
    { destruct (Z.le_gt_cases first_exponent (mag x / hidden_bit (work_format f))) as [|Hlt]; [done|]. specialize (Hsmall Hlt).
      exfalso. apply N0. unfold raw, nearest_signal. assert (half_up (Z.abs (work_grid x)) grid_unit = 0) as -> by (apply Z.div_small; lia).
      rewrite (proj2 (Z.eqb_neq 0 _)) by lia. by case_if. }
    specialize (Hbig Hge). rewrite shiftr_exponent, significand_of.
    set (E := mag x / hidden_bit (work_format f)) in *. set (M := mag x mod hidden_bit (work_format f) + hidden_bit (work_format f)) in *.
    destruct (unit_shift E ltac:(lia)) as [Hk Eunit]. set (k := match f with Q15 => 135 | Q31 => 1044 end - E) in *.
    assert (0 < 2 ^ k) as Hpk by (apply Z.pow_pos_nonneg; lia).
    assert (0 < 2 ^ (E - 1)) as HpE by (apply Z.pow_pos_nonneg; unfold first_exponent in Hge; destruct f; lia).
    pose proof (Z.mod_pos_bound (mag x) (hidden_bit (work_format f)) Hh) as HM.
    assert ((if raw <? 0 then u32 (- raw) else u32 raw) = Z.abs raw) as -> by (destruct (Z.ltb_spec raw 0); rewrite u32_id by rlia; lia).
    rewrite (Z.shiftl_mul_pow2 (Z.abs raw)) by lia. set (a := Z.abs raw * 2 ^ k) in *.
    assert (Z.abs (work_grid x) - Z.abs raw * grid_unit = (M - a) * 2 ^ (E - 1)) as Ediff by (rewrite Hbig, Eunit; unfold a; lia).
    assert (2 * Z.abs (M - a) <= 2 ^ k \/ ((U_SCALE f - 1) * 2 ^ k <= M /\ Z.abs (M - a) <= 2 ^ k)) as Hdist.
    { rewrite Ediff, Z.abs_mul, (Z.abs_eq (2 ^ (E - 1))) in Herr by lia. rewrite Eunit, Hbig in Herr.
      destruct Herr as [Herr|[Hb Herr]]; [left; nia|right; split; nia]. }
    assert (2 ^ k <= 2 * hidden_bit (work_format f)) as Hk2.
    { rewrite (proj1 hidden_word), <- Z.pow_succ_r by (destruct f; done). apply Z.pow_le_mono_r; [lia|]. unfold k, first_exponent, fraction_bits in *. destruct f; lia. }
    assert (Z.abs (M - a) <= hidden_bit (work_format f)) as Hd.
    { destruct Hdist as [?|[? ?]]; [lia|]. assert (16384 <= U_SCALE f - 1) by by destruct f. nia. }
    assert (word f a = a) as ->.
    { assert (0 <= a) as Ha0 by (unfold a; nia). assert (a < 3 * hidden_bit (work_format f)) as Ha1 by (unfold M in Hd; lia).
      rewrite hidden_is in Ha1. clear -Ha0 Ha1. clearbody a. destruct f; cbn [word]; [apply u32_id|apply u64_id]; rlia. }
    assert ((if a <? M then M - a else a - M) = Z.abs (M - a)) as -> by (destruct (Z.ltb_spec a M); lia).
    assert (Z.abs (work_grid x - raw * grid_unit) = Z.abs (M - a) * 2 ^ (E - 1)) as ->.
    { rewrite <- (Z.abs_eq (2 ^ (E - 1))), <- Z.abs_mul, <- Ediff by lia. destruct (Z.neg_nonneg_cases (work_grid x)); [specialize (Hneg ltac:(lia))|specialize (Hpos ltac:(lia))]; nia. }
    set (d := Z.abs (M - a)) in *. destruct (Z.eqb_spec d 0) as [Ed|Nd].
    { rewrite Ed. split; [by split|]. split; [done|done]. }
    assert (Z.log2 d <= fraction_bits f) as Hlog.
    { rewrite <- (Z.log2_pow2 (fraction_bits f)) by (destruct f; done). apply Z.log2_le_mono. rewrite <- (proj1 hidden_word). lia. }
    pose proof (Z.log2_nonneg d) as Hl0.
    rewrite top_bit_spec by (split; [lia|]; rewrite Z.pow_add_r, <- (proj1 hidden_word) by (destruct f; done); lia).
    destruct (encode_integer false d (E - fraction_bits f + Z.log2 d)) as [Hv Eg];
      [lia|done|rewrite exponents_is; unfold first_exponent, one_exponent, fraction_bits in *; destruct f; lia|].
    rewrite Z.lor_0_l in Hv, Eg. rewrite Z.mul_1_l in Eg.
    replace (fraction_bits f - Z.log2 d + (E - fraction_bits f + Z.log2 d - 1)) with (E - 1) in Eg by lia.
    split; [exact Hv|]. split; [exact Eg|]. intros Ez. rewrite Ez in Eg. nia.
Qed.

Lemma ukf_quantization_error_portable_ok x : unit_operand x -> let raw := ukf_narrow_value f x in
  ukf_quantization_error_portable f x raw = ukf_quantization_error f x raw.
Proof.
  intros Hx. destruct (ukf_quantization_error_ok x Hx) as (Hv & Eg & Hz). cbv zeta in *. rewrite (ukf_narrow_value_ok x Hx) in *.
  destruct Hx as [Hval Hone]. destruct (nearest_error (work_grid x) Hone) as (_ & _ & Hr & Herr).
  destruct grid_unit_spec as (Eone & Eu & Hu). destruct scale_max as [Es Hs]. set (raw := nearest_signal (work_grid x)) in *.
  pose proof (nearest_signal_range (work_grid x) Hone) as Hraw. fold raw in Hraw.
  destruct (ukf_widen_value_grid raw Hraw) as [Hw Ew]. set (err := ukf_quantization_error f x raw) in *.
  unfold ukf_quantization_error_portable. destruct (fsub_grid (work_format f) x (ukf_widen_value f raw) Hval Hw) as [Hs' Es'].
  { apply unit_fits. fold (work_grid x) (work_grid (ukf_widen_value f raw)). rewrite Ew, <- (Z.abs_eq (Z.abs _)), <- Eg by lia. rewrite Eg.
    rewrite Z.abs_eq by lia. nia. }
  fold (work_grid x) (work_grid (ukf_widen_value f raw)) in Es'. rewrite Ew in Es'.
  assert (rnd (work_format f) (work_grid x - raw * grid_unit) = work_grid x - raw * grid_unit) as Ernd.
  { pose proof (rnd_grid (work_format f) err Hv) as E. fold (work_grid err) in E. rewrite Eg in E.
    destruct (Z.abs_eq_or_opp (work_grid x - raw * grid_unit)) as [Ea|Ea]; rewrite Ea in E; [done|]. rewrite rnd_opp in E. lia. }
  rewrite Ernd in Es'. set (y := fsub _ _ _) in *.
  assert (grid (work_format f) (fabs y) = grid (work_format f) err) as E by (rewrite fabs_grid, Es'; symmetry; exact Eg).
  destruct (Z.eq_dec (work_grid err) 0) as [E0|N0].
  - rewrite (Hz E0). assert (grid (work_format f) y = 0) as Ey by (rewrite fabs_grid in E; fold (work_grid err) in E; lia).
    destruct y as [s|s| |s m e]; [done|by destruct Hs'|by destruct Hs'|]. destruct (valid_finite _ _ _ _ Hs') as (He & _).
    cbn [grid] in Ey. assert (0 < 2 ^ (e - emin (prec (work_format f)) (emax (work_format f)))) by (apply Z.pow_pos_nonneg; lia). destruct s; nia.
  - apply (grid_inj (work_format f)); [by apply fabs_valid|done|done|]. by rewrite E.
Qed.

(** ** PQ(raw) *)

(** The predecessor of half a unit, whose sum with one half rounds up to one. *)
Definition predecessor_code : Z := first_exponent * hidden_bit (work_format f) - 1.

Definition raw_value (x : spec_float) : Z :=
  let r := if mag x =? predecessor_code then 1 else half_up (Z.abs (work_grid x)) grid_unit in
  if work_grid x <? 0 then - r else r.

Lemma predecessor_small x : work_valid x -> mag x / hidden_bit (work_format f) < first_exponent ->
  half_up (Z.abs (work_grid x)) grid_unit = 0.
Proof.
  intros Hx Hlt. destruct (mag_fields x Hx) as (_ & Hsmall & _). specialize (Hsmall Hlt). destruct grid_unit_spec as (_ & Eu & Hu).
  apply Z.div_small. lia.
Qed.

Lemma code_cut m : 0 <= m -> (m <? first_exponent * hidden_bit (work_format f)) = (m / hidden_bit (work_format f) <? first_exponent).
Proof.
  intros Hm. pose proof (hidden_pos (work_format f)) as Hh. pose proof (Z.div_mod m (hidden_bit (work_format f)) ltac:(lia)).
  pose proof (Z.mod_pos_bound m (hidden_bit (work_format f)) Hh).
  destruct (Z.ltb_spec m (first_exponent * hidden_bit (work_format f))), (Z.ltb_spec (m / hidden_bit (work_format f)) first_exponent); nia.
Qed.

Lemma pf_raw_value x : unit_operand x -> pf_raw f x = raw_value x.
Proof.
  intros Hx. pose proof Hx as [Hval Hone]. destruct (mag_fields x Hval) as (Emod & Hsmall & Hbig). pose proof (unit_exponent x Hx) as HE.
  destruct (mag_spec x Hval) as (Hm & Ev & Esign & _). pose proof (hidden_pos (work_format f)) as Hh. unfold pf_raw, raw_value. cbv zeta.
  rewrite land_magnitude. fold (mag x). rewrite shiftr_sign, Esign, significand_of, shiftr_exponent.
  assert (match f with Q15 => 0x37800000 | Q31 => 0x3df0000000000000 end = first_exponent * hidden_bit (work_format f)) as -> by (unfold first_exponent; destruct f; vm_compute; reflexivity).
  assert (match f with Q15 => 0x377fffff | Q31 => 0x3defffffffffffff end = predecessor_code) as -> by (unfold predecessor_code, first_exponent; destruct f; vm_compute; reflexivity).
  rewrite code_cut by lia. pose proof (magnitude_zero (mag x) ltac:(lia)) as Hz. rewrite Ev in Hz.
  pose proof (grid_sign (work_format f) x Hval) as Esgn. fold (work_grid x) in Esgn.
  match goal with |- (if negb _ then - ?a else ?a) = (if _ then - ?b else ?b) => assert (a = b) as Eab end.
  { destruct (Z.ltb_spec (mag x / hidden_bit (work_format f)) first_exponent) as [Hlt|Hge].
    - rewrite (predecessor_small x Hval Hlt). by destruct (mag x =? predecessor_code).
    - rewrite (proj2 (Z.eqb_neq _ _)).
      2:{ intros E. pose proof (code_cut (mag x) ltac:(lia)) as C. rewrite E in C at 1. unfold predecessor_code in C. rewrite (proj2 (Z.ltb_lt _ _)) in C by lia.
          symmetry in C. zbool. lia. }
      specialize (Hbig Hge). set (E := mag x / hidden_bit (work_format f)) in *. set (M := mag x mod hidden_bit (work_format f) + hidden_bit (work_format f)) in *.
      destruct (unit_shift E ltac:(lia)) as [Hk Eunit]. set (k := match f with Q15 => 135 | Q31 => 1044 end - E) in *.
      assert (0 < 2 ^ (k - 1)) as Hp by (apply Z.pow_pos_nonneg; lia).
      assert (2 ^ k = 2 * 2 ^ (k - 1)) as E2 by (rewrite <- Z.pow_succ_r by lia; f_equal; lia).
      assert (0 < 2 ^ (E - 1)) by (apply Z.pow_pos_nonneg; unfold first_exponent in Hge; destruct f; lia).
      pose proof (Z.mod_pos_bound (mag x) (hidden_bit (work_format f)) Hh) as HM.
      assert (2 ^ (k - 1) <= hidden_bit (work_format f)) as Hk2.
      { rewrite (proj1 hidden_word). apply Z.pow_le_mono_r; [lia|]. unfold k, first_exponent, fraction_bits in *. destruct f; lia. }
      assert (M < 2 * hidden_bit (work_format f)) as HM2 by (unfold M; lia). assert (0 < M) by (unfold M; lia).
      assert (word f (M + word f (Z.shiftl 1 (k - 1))) = M + 2 ^ (k - 1)) as ->.
      { rewrite Z.shiftl_1_l. rewrite hidden_is in HM2, Hk2. set (c := 2 ^ (k - 1)) in *. clearbody c M. clear -Hp HM2 Hk2 H0.
        destruct f; cbn [word]; [rewrite (u32_id c) by rlia; apply u32_id|rewrite (u64_id c) by rlia; apply u64_id]; rlia. }
      rewrite Z.shiftr_div_pow2, Hbig, Eunit, half_up_scale by lia. unfold half_up.
      replace (2 * M + 2 ^ k) with (2 * (M + 2 ^ (k - 1))) by lia. by rewrite Z.div_mul_cancel_l by lia. }
  rewrite Eab. destruct (float_sign x); cbn [Z.b2z Z.eqb negb].
  - destruct (Z.ltb_spec (work_grid x) 0) as [|Hn]; [done|]. assert (work_grid x = 0) as E0 by lia. rewrite E0 in *.
    change (Z.abs 0 =? 0) with true in Hz. zbool. rewrite Hz. assert ((0 =? predecessor_code) = false) as -> by (unfold predecessor_code, first_exponent; destruct f; vm_compute; reflexivity).
    change (Z.abs 0) with 0. rewrite half_up_0; [done|]. destruct grid_unit_spec. lia.
  - by rewrite (proj2 (Z.ltb_ge _ _)) by lia.
Qed.

(** Above the first cell: the sum keeps all its bits, or loses one that decides nothing. *)
Lemma rounded_sum M k j : 0 < k <= prec (work_format f) -> 0 <= j -> 0 < M < 2 ^ prec (work_format f) ->
  rnd_abs (work_format f) ((M + 2 ^ (k - 1)) * 2 ^ j) / 2 ^ (k + j) = half_up M (2 ^ k).
Proof.
  intros Hk Hj HM. set (P := prec (work_format f)) in *. assert (0 < 2 ^ (k - 1)) as Hh by (apply Z.pow_pos_nonneg; lia).
  assert (2 ^ k = 2 * 2 ^ (k - 1)) as E2 by (rewrite <- Z.pow_succ_r by lia; f_equal; lia).
  set (N := M + 2 ^ (k - 1)). assert (0 < 2 ^ j) as Hj2 by (apply Z.pow_pos_nonneg; lia).
  assert (half_up M (2 ^ k) = N / 2 ^ k) as ->.
  { unfold half_up, N. replace (2 * M + 2 ^ k) with (2 * (M + 2 ^ (k - 1))) by lia. by rewrite Z.div_mul_cancel_l by lia. }
  rewrite Z.pow_add_r by lia. destruct (Z.le_gt_cases N (2 ^ P)) as [Hle|Hgt].
  - rewrite (rnd_abs_exact (work_format f)) by (unfold N in *; fold P; lia). by rewrite Z.div_mul_cancel_r by lia.
  - assert (2 ^ P = 2 ^ (P - k) * 2 ^ k) as EP by (rewrite <- Z.pow_add_r by lia; f_equal; lia). set (c := 2 ^ (P - k)) in *.
    assert (2 ^ (P + 1) = 2 * 2 ^ P) as EP1 by (rewrite <- Z.pow_succ_r by lia; f_equal; lia).
    assert (0 < c) by (apply Z.pow_pos_nonneg; lia).
    assert (bits_of N = P + 1) as EN.
    { unfold bits_of. rewrite (proj2 (Z.eqb_neq _ _)) by lia. f_equal. apply Z.log2_unique; [lia|]. rewrite <- Z.add_1_r, EP1. unfold N in *. nia. }
    pose proof (rnd_abs_scale (work_format f) N j Hj ltac:(lia)) as Er. cbv zeta in Er. fold P in Er. rewrite EN in Er.
    replace (Z.max 0 (P + 1 + j - P) - j) with 1 in Er by lia. rewrite Er by lia. rewrite Z.pow_add_r by lia. change (2 ^ 1) with 2.
    replace (rne N 1 * (2 ^ j * 2)) with (2 * rne N 1 * 2 ^ j) by lia. rewrite Z.div_mul_cancel_r by lia.
    pose proof (rne_near N 1 ltac:(lia)) as Hnear. change (2 ^ 1) with 2 in Hnear.
    pose proof (rne_lower N 1 (c * 2 ^ (k - 1)) ltac:(lia) ltac:(change (2 ^ 1) with 2; lia)) as Hlow.
    assert (N < c * 2 ^ k + 2 ^ (k - 1)) as HN by (unfold N in *; lia).
    transitivity c; [symmetry|]; [apply Z.div_unique with (2 * rne N 1 - c * 2 ^ k); lia|apply Z.div_unique with (N - c * 2 ^ k); lia].
Qed.

(** Below it: only the predecessor reaches the rounding boundary of one. *)
Lemma rounded_small v : 0 <= v < predecessor_code ->
  rnd_abs (work_format f) (magnitude_value (work_format f) v * U_SCALE f + grid_one / 2) / grid_one = 0.
Proof.
  intros Hv. set (P := prec (work_format f)). set (g := - emin (prec (work_format f)) (emax (work_format f))).
  assert (magnitude_value (work_format f) v <= magnitude_value (work_format f) (predecessor_code - 1)) as Hle by (apply (proj1 (magnitude_value_le (work_format f) v (predecessor_code - 1) ltac:(lia) ltac:(lia))); lia).
  pose proof (magnitude_value_nonneg (work_format f) v ltac:(lia)) as H0. set (A := magnitude_value (work_format f) v) in *. destruct scale_max as [_ Hs].
  assert (magnitude_value (work_format f) (predecessor_code - 1) * U_SCALE f + grid_one / 2 = (2 ^ P - 1) * 2 ^ (g - P)) as Etop
    by (unfold predecessor_code, first_exponent, grid_one, P, g; destruct f; vm_compute; reflexivity).
  assert (0 < P < g) as HPg by (unfold P, g; destruct f; vm_compute; split; reflexivity).
  assert (grid_one = 2 ^ P * 2 ^ (g - P)) as Eone by (unfold grid_one; fold g; rewrite <- Z.pow_add_r by lia; f_equal; lia).
  set (X := A * U_SCALE f + grid_one / 2). assert (X <= (2 ^ P - 1) * 2 ^ (g - P)) as HX by (unfold X; nia).
  assert (0 < 2 ^ (g - P)) by (apply Z.pow_pos_nonneg; lia). assert (0 < 2 ^ P) by (apply Z.pow_pos_nonneg; lia).
  assert (2 ^ (g - 1) <= X < 2 ^ g) as Hb.
  { assert (grid_one / 2 = 2 ^ (g - 1)) as Eh by (unfold grid_one; fold g; symmetry; apply Z.div_unique with 0; [lia|rewrite Z.add_0_r, <- Z.pow_succ_r by lia; f_equal; lia]).
    split; [unfold X; rewrite Eh; nia|]. unfold grid_one in Eone. fold g in Eone. nia. }
  assert (bits_of X = g) as EX.
  { unfold bits_of. rewrite (proj2 (Z.eqb_neq _ _)) by (assert (0 < 2 ^ (g - 1)) by (apply Z.pow_pos_nonneg; lia); lia).
    rewrite (Z.log2_unique X (g - 1)) by (rewrite ?Z.sub_1_r, ?Z.succ_pred, <- ?Z.sub_1_r; lia). lia. }
  unfold rnd_abs. fold P. rewrite EX, Z.max_r by lia. rewrite Eone, Z.div_mul_cancel_r by lia.
  apply Z.div_small. split; [apply rne_lower; nia|]. pose proof (rne_upper X (g - P) (2 ^ P - 1) ltac:(lia) HX). lia.
Qed.

(** Adding one half and truncating, in the work precision. *)
Lemma rounded_half x : unit_operand x ->
  rnd_abs (work_format f) (Z.abs (work_grid x) * U_SCALE f + grid_one / 2) / grid_one =
  (if mag x =? predecessor_code then 1 else half_up (Z.abs (work_grid x)) grid_unit).
Proof.
  intros Hx. pose proof Hx as [Hval Hone]. destruct (mag_fields x Hval) as (Emod & Hsmall & Hbig). pose proof (unit_exponent x Hx) as HE.
  destruct (mag_spec x Hval) as (Hm & Ev & _). pose proof (hidden_pos (work_format f)) as Hh. destruct scale_power as (_ & Es & Hq).
  destruct grid_unit_spec as (Eone & Eu & Hu).
  pose proof (code_cut (mag x) ltac:(lia)) as Hcut. destruct (Z.eqb_spec (mag x) predecessor_code) as [Ep|Np].
  - rewrite <- Ev, Ep. unfold predecessor_code, first_exponent, grid_one. destruct f; vm_compute; reflexivity.
  - destruct (Z.ltb_spec (mag x / hidden_bit (work_format f)) first_exponent) as [Hlt|Hge].
    + rewrite (predecessor_small x Hval Hlt), <- Ev. zbool. apply rounded_small. unfold predecessor_code in *. lia.
    + specialize (Hbig Hge). set (E := mag x / hidden_bit (work_format f)) in *. set (M := mag x mod hidden_bit (work_format f) + hidden_bit (work_format f)) in *.
      destruct (unit_shift E ltac:(lia)) as [Hk Eunit]. set (k := match f with Q15 => 135 | Q31 => 1044 end - E) in *.
      assert (0 < 2 ^ (E - 1)) by (apply Z.pow_pos_nonneg; unfold first_exponent in Hge; destruct f; lia).
      assert (1 <= E) by (unfold first_exponent in Hge; destruct f; lia).
      assert (2 ^ k = 2 * 2 ^ (k - 1)) as E2 by (rewrite <- Z.pow_succ_r by lia; f_equal; lia).
      pose proof (Z.mod_pos_bound (mag x) (hidden_bit (work_format f)) Hh) as HM.
      assert (Z.abs (work_grid x) * U_SCALE f + grid_one / 2 = (M + 2 ^ (k - 1)) * 2 ^ (E - 1 + q_width)) as ->.
      { assert (grid_one / 2 = 2 ^ (k - 1) * 2 ^ (E - 1) * 2 ^ q_width) as ->.
        { symmetry. apply Z.div_unique with 0; [lia|]. rewrite Eone, Eunit, Es. lia. }
        rewrite Hbig, Es, Z.pow_add_r by lia. ring. }
      assert (grid_one = 2 ^ (k + (E - 1 + q_width))) as -> by (rewrite Eone, Eunit, Es, !Z.pow_add_r by lia; lia).
      rewrite rounded_sum.
      * rewrite Hbig, Eunit. symmetry. apply half_up_scale; [apply Z.pow_pos_nonneg; lia|done].
      * split; [done|]. unfold k, first_exponent in *. destruct f; cbn [work_format prec binary32 binary64]; lia.
      * lia.
      * assert (2 ^ prec (work_format f) = 2 * hidden_bit (work_format f)) as -> by by destruct f. unfold M. lia.
Qed.

Lemma half_grid : work_valid (one_half (work_format f)) /\ work_grid (one_half (work_format f)) = grid_one / 2.
Proof. unfold work_valid, valid, work_grid, grid_one. destruct f; split; (split; vm_compute; reflexivity) || (vm_compute; reflexivity). Qed.

Lemma pf_raw_portable_value x : unit_operand x -> pf_raw_portable f x = raw_value x.
Proof.
  intros Hx. destruct (scaled_grid x Hx) as [Hy Ey]. pose proof (rounded_half x Hx) as Er. destruct half_grid as [Hh Eh]. destruct Hx as [_ Hone].
  unfold pf_raw_portable, raw_value. cbv zeta in *. set (y := fmul _ x _) in *. destruct scale_max as [_ Hs]. destruct grid_unit_spec as (Eone & Eu & Hu).
  assert (0 < grid_one) as HG by nia. assert (0 <= grid_one / 2 <= grid_one) as HH by (split; [apply Z.div_pos; lia|apply Z.div_le_upper_bound; lia]).
  rewrite (fle_grid (work_format f)) by done. change (grid (work_format f) fzero) with 0. fold (work_grid y). rewrite Ey.
  set (r := if mag x =? predecessor_code then 1 else _) in *.
  assert (below_overflow (work_format f) (work_grid x * U_SCALE f + grid_one / 2) /\ below_overflow (work_format f) (work_grid x * U_SCALE f - grid_one / 2)) as [Hb1 Hb2].
  { split; apply unit_fits; nia. }
  destruct (Z.ltb_spec (work_grid x) 0) as [Hn|Hp].
  - rewrite (proj2 (Z.leb_gt _ _)) by nia. destruct (fsub_grid (work_format f) y (one_half (work_format f)) Hy Hh) as [Hv Eg].
    { fold (work_grid y) (work_grid (one_half (work_format f))). by rewrite Ey, Eh. }
    rewrite (to_int_grid (work_format f)) by done. rewrite Eg. fold (work_grid y) (work_grid (one_half (work_format f))). rewrite Ey, Eh. fold grid_one.
    replace (work_grid x * U_SCALE f - grid_one / 2) with (- (Z.abs (work_grid x) * U_SCALE f + grid_one / 2)) by nia.
    rewrite rnd_opp, (rnd_nonneg (work_format f)), Z.quot_opp_l by lia. f_equal. rewrite <- Er. apply Z.quot_div_nonneg; [|done].
    unfold rnd_abs. apply Z.mul_nonneg_nonneg; [apply rne_lower; [lia|nia]|apply Z.pow_nonneg; lia].
  - rewrite (proj2 (Z.leb_le _ _)) by nia. destruct (fadd_grid (work_format f) y (one_half (work_format f)) Hy Hh) as [Hv Eg].
    { fold (work_grid y) (work_grid (one_half (work_format f))). by rewrite Ey, Eh. }
    rewrite (to_int_grid (work_format f)) by done. rewrite Eg. fold (work_grid y) (work_grid (one_half (work_format f))). rewrite Ey, Eh. fold grid_one.
    rewrite (rnd_nonneg (work_format f)) by nia. rewrite <- (Z.abs_eq (work_grid x)) at 1 by done. rewrite <- Er. apply Z.quot_div_nonneg; [|done].
    unfold rnd_abs. apply Z.mul_nonneg_nonneg; [apply rne_lower; [lia|nia]|apply Z.pow_nonneg; lia].
Qed.

(** The range check admits exactly the finite operands of [-1, +1]. *)
Lemma unit_operand_intro x : valid_binary (prec (work_format f)) (emax (work_format f)) x = true -> ukf_in_unit f x = true -> unit_operand x.
Proof.
  intros Hv Hu. destruct (isfinite x) eqn:Hfin.
  - assert (work_valid x) as Hx by done. split; [done|]. rewrite in_unit_grid in Hu by done. lia.
  - exfalso. clear Hv. destruct x as [s|s| |s m e]; try done; [destruct s|]; destruct f; by vm_compute in Hu.
Qed.

Lemma nearest_widened v : signal_range v -> nearest_signal (v * grid_unit) = v.
Proof.
  intros Hv. unfold signal_range in Hv. destruct grid_unit_spec as (_ & Eu & Hu). unfold nearest_signal.
  rewrite Z.abs_mul, (Z.abs_eq grid_unit), half_up_exact by lia.
  destruct (Z.ltb_spec (v * grid_unit) 0); [nia|]. rewrite (proj2 (Z.eqb_neq _ _)) by nia. nia.
Qed.

Lemma widened_unit v : signal_range v -> unit_operand (ukf_widen_value f v).
Proof.
  intros Hv. destruct (ukf_widen_value_grid v Hv) as [Hw Ew]. split; [done|]. rewrite Ew. unfold signal_range in Hv.
  destruct grid_unit_spec as (Eone & Eu & Hu). rewrite Z.abs_mul, Eone, (Z.abs_eq grid_unit) by lia. nia.
Qed.
End Format.

(** ** Properties *)

(** Deciding by bits is deciding by comparison: for every bit pattern the IEEE
    branches of the finiteness and range tests give what the portable ones give, and on
    finite operands so do the magnitude comparison and the exponent comparison of the
    particle filter, signed zeros and subnormals included. *)
Theorem ukf_predicates_equivalent (f : q_format) (a b : spec_float)
  (Ha : valid_binary (prec (work_format f)) (emax (work_format f)) a = true)
  (Hb : valid_binary (prec (work_format f)) (emax (work_format f)) b = true) :
  ukf_isfinite f a = ukf_isfinite_portable a /\
  ukf_in_unit f a = ukf_in_unit_portable f a /\
  (ukf_isfinite f a = true -> ukf_isfinite f b = true ->
   ukf_abs_greater f a b = ukf_abs_greater_portable a b /\
   pf_exponent_less f a b = pf_exponent_less_portable a b).
Proof.
  split; [by apply ukf_isfinite_eq|]. split; [by apply ukf_in_unit_eq|]. rewrite !ukf_isfinite_eq by done. intros Hfa Hfb.
  assert (work_valid f a) by done. assert (work_valid f b) by done. split; [by apply ukf_abs_greater_eq|].
  rewrite pf_exponent_less_eq by done. symmetry. by apply flt_grid.
Qed.

(** A signal that passed the range check is narrowed to its nearest raw value, halfway
    cases away from zero and +1 saturated, by both branches: the bit arithmetic rounds
    once, and so does lround after the exact scaling. *)
Theorem ukf_narrow_value_spec (f : q_format) (value : spec_float)
  (Hv : valid_binary (prec (work_format f)) (emax (work_format f)) value = true) (Hunit : ukf_in_unit f value = true) :
  ukf_narrow_value f value = nearest_signal f (work_grid f value) /\
  ukf_narrow_value_portable f value = ukf_narrow_value f value.
Proof.
  pose proof (unit_operand_intro f value Hv Hunit) as Hx. rewrite ukf_narrow_value_portable_ok, ukf_narrow_value_ok by done. done.
Qed.

(** C28. The integer evaluation of the quantization error is exact: it equals the magnitude
    of the difference between the value and the widened raw signal with no rounding, and
    the portable subtraction returns the same float. *)
Theorem ukf_quantization_error_spec (f : q_format) (value : spec_float)
  (Hv : valid_binary (prec (work_format f)) (emax (work_format f)) value = true) (Hunit : ukf_in_unit f value = true) :
  let raw := ukf_narrow_value f value in
  work_grid f (ukf_quantization_error f value raw) = Z.abs (work_grid f value - work_grid f (ukf_widen_value f raw)) /\
  ukf_quantization_error_portable f value raw = ukf_quantization_error f value raw.
Proof.
  pose proof (unit_operand_intro f value Hv Hunit) as Hx. destruct (ukf_quantization_error_ok f value Hx) as (_ & Eg & _).
  cbv zeta in *. split; [|by apply ukf_quantization_error_portable_ok]. rewrite Eg.
  rewrite ukf_narrow_value_ok by done. destruct Hx as [_ Hone]. rewrite (proj2 (ukf_widen_value_grid f _ (nearest_signal_range f _ Hone))). done.
Qed.

(** Widening is exact on both branches and narrowing undoes it: an array of raw signals
    imported into the working type passes the range check and is stored back unchanged. *)
Theorem ukf_signal_roundtrip (f : q_format) (signals : list Z) (Hsignals : Forall (signal_range f) signals) :
  ukf_fits f (ukf_widen f signals) = LINEARS_OK /\
  ukf_store f (ukf_widen f signals) = signals /\
  ukf_widen f signals = map (ukf_widen_value_portable f) signals.
Proof.
  unfold ukf_fits, ukf_store, ukf_widen. rewrite map_map. split; [|split].
  - rewrite (proj2 (forallb_forall _ _)); [done|]. intros x (v & <- & Hin)%in_map_iff. rewrite List.Forall_forall in Hsignals.
    destruct (widened_unit f v (Hsignals v Hin)) as [Hw Hle]. rewrite in_unit_grid by done. lia.
  - rewrite <- (map_id signals) at 2. apply map_ext_Forall. apply (List.Forall_impl _ (P := signal_range f)); [|done]. intros v Hv.
    rewrite ukf_narrow_value_ok by (by apply widened_unit). rewrite (proj2 (ukf_widen_value_grid f v Hv)). by apply nearest_widened.
  - apply map_ext_Forall. apply (List.Forall_impl _ (P := signal_range f)); [|done]. intros v Hv. symmetry. by apply ukf_widen_value_portable_ok.
Qed.

(** C23. The integer rounding that replaces the soft-float expression of the q particle
    filter returns the same integer for every operand of [-1, +1], its one
    double-rounding cell (the predecessor of half a unit) included. *)
Theorem pf_raw_equivalent (f : q_format) (value : spec_float)
  (Hv : valid_binary (prec (work_format f)) (emax (work_format f)) value = true) (Hunit : ukf_in_unit f value = true) :
  pf_raw f value = pf_raw_portable f value.
Proof. pose proof (unit_operand_intro f value Hv Hunit) as Hx. by rewrite pf_raw_value, pf_raw_portable_value. Qed.

(** One third, the predecessor of half a unit, and an operand just above -1/2. *)
Definition third : spec_float := float_of_bits binary32 0x3eaaaaab.
Definition before_half_unit : spec_float := float_of_bits binary32 0x377fffff.

Lemma ukf_predicates_equivalent_witness :
  (ukf_isfinite Q15 third = ukf_isfinite_portable third /\ ukf_in_unit Q15 third = ukf_in_unit_portable Q15 third /\
   (ukf_isfinite Q15 third = true -> ukf_isfinite Q15 before_half_unit = true ->
    ukf_abs_greater Q15 third before_half_unit = ukf_abs_greater_portable third before_half_unit /\
    pf_exponent_less Q15 third before_half_unit = pf_exponent_less_portable third before_half_unit)) /\
  ukf_isfinite Q15 third = true /\ ukf_isfinite Q15 before_half_unit = true.
Proof. split; [apply (ukf_predicates_equivalent Q15 third before_half_unit); by vm_compute|split; by vm_compute]. Defined.

Lemma ukf_narrow_value_witness :
  (ukf_narrow_value Q15 third = nearest_signal Q15 (work_grid Q15 third) /\
   ukf_narrow_value_portable Q15 third = ukf_narrow_value Q15 third) /\ ukf_narrow_value Q15 third = 10923.
Proof. split; [apply (ukf_narrow_value_spec Q15 third); by vm_compute|by vm_compute]. Defined.

Lemma ukf_quantization_error_witness : let raw := ukf_narrow_value Q15 third in
  (work_grid Q15 (ukf_quantization_error Q15 third raw) = Z.abs (work_grid Q15 third - work_grid Q15 (ukf_widen_value Q15 raw)) /\
   ukf_quantization_error_portable Q15 third raw = ukf_quantization_error Q15 third raw).
Proof. apply (ukf_quantization_error_spec Q15 third); by vm_compute. Defined.

Lemma ukf_signal_roundtrip_witness : let signals := [-32768; -1; 0; 1; 32767] in
  ukf_fits Q15 (ukf_widen Q15 signals) = LINEARS_OK /\ ukf_store Q15 (ukf_widen Q15 signals) = signals /\
  ukf_widen Q15 signals = map (ukf_widen_value_portable Q15) signals.
Proof. apply (ukf_signal_roundtrip Q15). repeat constructor; done. Defined.

Lemma pf_raw_equivalent_witness :
  pf_raw Q15 before_half_unit = pf_raw_portable Q15 before_half_unit /\ pf_raw Q15 before_half_unit = 1.
Proof. split; [apply (pf_raw_equivalent Q15 before_half_unit); by vm_compute|by vm_compute]. Defined.
