(* ===== verification/PfSpan.v ===== *)
(** * Address ranges of the estimators: the validation helpers of ukf_internal.h

    Every pointer of a call is registered as a range before it is read through;
    [ukf_disjoint] then decides whether the writable ones are apart from everything
    else.  Also the in-place gather of rows that resampling ends with. *)
From S2P Require Import Prelude MachineInt Status Matrix Decomp.

Inductive ukf_span_kind_t := UKF_INPUT | UKF_DESCRIPTOR | UKF_WRITABLE.

#[export] Instance ukf_span_kind_eq_dec : EqDecision ukf_span_kind_t.
Proof. solve_decision. Defined.

Record ukf_span_t := mk_span { begin : Z; end_ : Z; span_kind : ukf_span_kind_t }.

(** The registered items, in order. *)
Definition ukf_spans_t : Type := list ukf_span_t.

Section Spans.
Variable target : decomp_abi.
Let SIZE_MAX := SIZE_MAX (base_abi target).
Let UINTPTR_MAX := UINTPTR_MAX (base_abi target).

Definition ukf_span (spans : ukf_spans_t) (pointer bytes alignment : Z) (kind : ukf_span_kind_t)
    : linears_status_t * ukf_spans_t :=
  if bytes =? SIZE_MAX then (LINEARS_ERROR_SIZE, spans)
  else if negb (bytes =? 0) && ((pointer =? 0) || negb (pointer mod alignment =? 0)) then (LINEARS_ERROR_ARGUMENT, spans)
  else if bytes >? UINTPTR_MAX - pointer then (LINEARS_ERROR_SIZE, spans)
  else if bytes =? 0 then (LINEARS_OK, spans)
  else (LINEARS_OK, spans ++ [mk_span pointer (pointer + bytes) kind]).

Definition ukf_scratch (spans : ukf_spans_t) (pointer bytes alignment : Z) : linears_status_t * ukf_spans_t :=
  let r := ukf_span spans pointer bytes alignment UKF_WRITABLE in
  (if bool_decide (r.1 = LINEARS_ERROR_ARGUMENT) then LINEARS_ERROR_WORKSPACE else r.1, r.2).

(** The test of one pair of items. *)
Definition span_conflict (a b : ukf_span_t) : bool :=
  if negb ((begin a <? end_ b) && (begin b <? end_ a)) then false
  else if bool_decide (span_kind a = UKF_INPUT) && bool_decide (span_kind b = UKF_INPUT) then false
  else if bool_decide (span_kind a = UKF_DESCRIPTOR) && bool_decide (span_kind b = UKF_DESCRIPTOR) &&
          (begin a =? begin b) && (end_ a =? end_ b) then false
  else true.

Fixpoint disjoint_from (earlier rest : ukf_spans_t) : linears_status_t :=
  match rest with
  | [] => LINEARS_OK
  | a :: rest => if existsb (span_conflict a) earlier then LINEARS_ERROR_ALIAS else disjoint_from (earlier ++ [a]) rest
  end.

Definition ukf_disjoint (spans : ukf_spans_t) : linears_status_t := disjoint_from [] spans.

(** The status and [*bytes]. *)
Definition ukf_shape (matrix : linears_matrix_t) (expected_rows expected_cols element_size : Z) : linears_status_t * Z :=
  if (rows matrix =? 0) || (cols matrix =? 0) ||
     (negb (expected_rows =? 0) && negb (rows matrix =? expected_rows)) ||
     (negb (expected_cols =? 0) && negb (cols matrix =? expected_cols))
  then (LINEARS_ERROR_DIMENSION, 0)
  else
    let count := LINEARS_SIZE_MUL target (rows matrix) (cols matrix) in
    let bytes := LINEARS_SIZE_MUL target count element_size in
    (if (count =? SIZE_MAX) || (bytes =? SIZE_MAX) then LINEARS_ERROR_SIZE else LINEARS_OK, bytes).

Definition ukf_matrix (spans : ukf_spans_t) (matrix : linears_matrix_t)
    (expected_rows expected_cols element_size element_alignment : Z) (data_kind : ukf_span_kind_t)
    : linears_status_t * ukf_spans_t :=
  let r := ukf_span spans (at_ matrix) (sizeof_matrix (base_abi target)) (align_matrix (base_abi target)) UKF_DESCRIPTOR in
  require r.1 r.2 (
  let shape := ukf_shape matrix expected_rows expected_cols element_size in
  require shape.1 r.2 (ukf_span r.2 (data matrix) shape.2 element_alignment data_kind)).

Definition ukf_owned (spans : ukf_spans_t) (matrix : linears_matrix_t)
    (expected_rows expected_cols capacity element_size element_alignment : Z) : linears_status_t * ukf_spans_t :=
  let shape := ukf_shape matrix expected_rows expected_cols element_size in
  require shape.1 spans (
  if capacity <? usize (base_abi target) (rows matrix * cols matrix) then (LINEARS_ERROR_WORKSPACE, spans)
  else ukf_span spans (data matrix) shape.2 element_alignment UKF_WRITABLE).

(** [source != target] compares descriptor addresses. *)
Definition ukf_source (spans : ukf_spans_t) (source owner : linears_matrix_t) (element_size element_alignment : Z)
    : linears_status_t * ukf_spans_t :=
  let r := if at_ source =? at_ owner then (LINEARS_OK, spans)
           else ukf_span spans (at_ source) (sizeof_matrix (base_abi target)) (align_matrix (base_abi target)) UKF_DESCRIPTOR in
  require r.1 r.2 (
  let shape := ukf_shape source (rows owner) (cols owner) element_size in
  require shape.1 r.2 (
  if data source =? data owner then (LINEARS_OK, r.2)
  else ukf_span r.2 (data source) shape.2 element_alignment UKF_INPUT)).
End Spans.

(** ** Rows *)

Section Gather.
Context {A : Type}.
Implicit Types (l : list A) (width i j count : nat) (indices : list nat).

Definition row_of width l i : list A := take width (drop (i * width) l).

(** The memcpy of row [j] over row [i]. *)
Definition copy_row width i j l : list A := take (i * width) l ++ row_of width l j ++ drop (i * width + width) l.

Definition gather_forward width indices i l : list A :=
  if (i <? nth i indices 0)%nat then copy_row width i (nth i indices 0%nat) l else l.
Definition gather_backward width indices i l : list A :=
  if (nth i indices 0 <? i)%nat then copy_row width i (nth i indices 0%nat) l else l.

Definition ukf_gather_rows l width indices count : list A :=
  for_down count (fun i l => gather_backward width indices (i - 1) l)
    (for_up 0 count (fun i l => gather_forward width indices i l) l).

(** ** Correctness of the gather *)

Lemma length_copy_row width i j count l : (i < count)%nat -> (j < count)%nat -> length l = (count * width)%nat ->
  length (copy_row width i j l) = (count * width)%nat.
Proof.
  intros Hi Hj Hl. unfold copy_row, row_of. rewrite !length_app, !length_take, !length_drop, Hl.
  assert (i * width + width <= count * width)%nat by nia. assert (j * width + width <= count * width)%nat by nia. lia.
Qed.

Lemma row_of_copy width i j count l r : (i < count)%nat -> (j < count)%nat -> (r < count)%nat -> length l = (count * width)%nat ->
  row_of width (copy_row width i j l) r = if decide (r = i) then row_of width l j else row_of width l r.
Proof.
  intros Hi Hj Hr Hl. assert (i * width + width <= count * width)%nat by nia. assert (j * width + width <= count * width)%nat by nia.
  assert (length (row_of width l j) = width) as Hw by (unfold row_of; rewrite length_take, length_drop; lia).
  assert (length (take (i * width) l) = i * width)%nat as Ht by (rewrite length_take; lia).
  unfold copy_row. unfold row_of at 1. destruct (decide (r = i)) as [->|Hne].
  - rewrite drop_app_length' by done. by rewrite take_app_length'.
  - destruct (Nat.lt_ge_cases r i) as [Hlt|Hge].
    + assert (r * width + width <= i * width)%nat by nia. rewrite drop_app_le by lia.
      rewrite take_app_le by (rewrite length_drop, Ht; lia). unfold row_of.
      rewrite skipn_firstn_comm, take_take. f_equal. lia.
    + assert (i * width + width <= r * width)%nat by nia. rewrite drop_app_ge, Ht by lia. rewrite drop_app_ge, Hw by lia.
      rewrite drop_drop. unfold row_of. do 2 f_equal. lia.
Qed.

(** Rows whose index is ahead are final after the forward pass; the others are untouched. *)
Definition forward_row indices (done r : nat) : nat :=
  if decide (r < done /\ r < nth r indices 0)%nat then nth r indices 0%nat else r.
Definition backward_row indices count (left r : nat) : nat :=
  if decide (left <= r)%nat then nth r indices 0%nat else forward_row indices count r.

Definition rows_are width count (source : nat -> nat) l0 l : Prop :=
  length l = (count * width)%nat /\ forall r, (r < count)%nat -> row_of width l r = row_of width l0 (source r).

(** Copying row [j] over row [i] gives row [i] the source of row [j]. *)
Lemma rows_are_copy width count source source' l0 l i j : (i < count)%nat -> (j < count)%nat ->
  rows_are width count source l0 l ->
  (forall r, (r < count)%nat -> source' r = if decide (r = i) then source j else source r) ->
  rows_are width count source' l0 (copy_row width i j l).
Proof.
  intros Hi Hj [Hl Hrow] Hs. split; [by apply length_copy_row|]. intros r Hr.
  rewrite (row_of_copy _ _ _ count), Hs by done. case_decide; by rewrite Hrow.
Qed.

Lemma rows_are_ext width count source source' l0 l : rows_are width count source l0 l ->
  (forall r, (r < count)%nat -> source' r = source r) -> rows_are width count source' l0 l.
Proof. intros [Hl Hrow] Hs. split; [done|]. intros r Hr. by rewrite Hs, Hrow. Qed.

(** Indices that never decrease and stay in range. *)
Definition nondecreasing (indices : list nat) count : Prop :=
  forall i j, (i <= j < count)%nat -> (nth i indices 0 <= nth j indices 0 < count)%nat.

Lemma ukf_gather_rows_ok l width indices count : length l = (count * width)%nat -> nondecreasing indices count ->
  rows_are width count (fun r => nth r indices 0%nat) l (ukf_gather_rows l width indices count).
Proof.
  intros Hl Hind. unfold ukf_gather_rows.
  assert (rows_are width count (forward_row indices count) l (for_up 0 count (fun i l => gather_forward width indices i l) l)) as Hf.
  { apply (for_up_rule _ (fun i l' => rows_are width count (forward_row indices i) l l') count); [|lia|done].
    intros i l' Hi Hrows. unfold gather_forward. pose proof (Hind i i ltac:(lia)).
    destruct (Nat.ltb_spec i (nth i indices 0%nat)) as [Hlt|Hge].
    - eapply rows_are_copy; [done|lia|exact Hrows|]. intros r Hr. unfold forward_row. repeat case_decide; subst; try lia; done.
    - eapply rows_are_ext; [exact Hrows|]. intros r Hr. unfold forward_row. repeat case_decide; try lia.
      assert (r = i) as -> by lia. lia. }
  set (l1 := for_up _ _ _ _) in *. clearbody l1.
  destruct (for_down_rule (fun i l => gather_backward width indices (i - 1) l)
    (fun i l' => (i <= count)%nat /\ rows_are width count (backward_row indices count i) l l')) with (n := count) (s := l1) as [_ Hb].
  - intros i l' [Hi Hrows]. split; [lia|]. rewrite Nat.sub_succ, Nat.sub_0_r. unfold gather_backward. pose proof (Hind i i ltac:(lia)).
    destruct (Nat.ltb_spec (nth i indices 0%nat) i) as [Hlt|Hge].
    + pose proof (Hind (nth i indices 0%nat) i ltac:(lia)).
      eapply rows_are_copy; [lia|lia|exact Hrows|]. intros r Hr. unfold backward_row, forward_row. repeat case_decide; subst; lia.
    + eapply rows_are_ext; [exact Hrows|]. intros r Hr. unfold backward_row, forward_row. repeat case_decide; try lia.
      all: assert (r = i) as -> by lia; lia.
  - split; [done|]. eapply rows_are_ext; [exact Hf|]. intros r Hr. unfold backward_row. by rewrite decide_False by lia.
  - eapply rows_are_ext; [exact Hb|]. intros r Hr. unfold backward_row. by rewrite decide_True by lia.
Qed.
End Gather.

(** ** What the validation guarantees *)

Section Guarantees.
Variable target : decomp_abi.
Let SIZE_MAX := SIZE_MAX (base_abi target).
Hypothesis Hmax : 0 <= SIZE_MAX.

Lemma size_mul_fits a b : 0 <= a -> 0 <= b -> LINEARS_SIZE_MUL target a b <> SIZE_MAX ->
  LINEARS_SIZE_MUL target a b = a * b /\ a * b <= SIZE_MAX.
Proof.
  intros Ha Hb. unfold LINEARS_SIZE_MUL. fold SIZE_MAX. cbv zeta. destruct (Z.eqb_spec b 0) as [->|Hnz].
  - case_if; [by intros []|]. rewrite Z.mul_0_r. intros _. split; [|lia]. unfold usize. fold SIZE_MAX. apply Z.mod_small. lia.
  - rewrite Z.lor_0_r. case_if; [by intros []|]. intros _. pose proof (Z.mul_div_le SIZE_MAX b ltac:(lia)).
    assert (a * b <= SIZE_MAX) by nia. split; [|done]. unfold usize. fold SIZE_MAX. apply Z.mod_small. nia.
Qed.

Lemma ukf_span_ok spans pointer bytes alignment kind : (ukf_span target spans pointer bytes alignment kind).1 = LINEARS_OK ->
  bytes <> SIZE_MAX.
Proof. unfold ukf_span. fold SIZE_MAX. by destruct (Z.eqb_spec bytes SIZE_MAX). Qed.

Lemma ukf_shape_ok m r c size : (ukf_shape target m r c size).1 = LINEARS_OK ->
  rows m <> 0 /\ cols m <> 0 /\ (r <> 0 -> rows m = r) /\ (c <> 0 -> cols m = c) /\
  LINEARS_SIZE_MUL target (rows m) (cols m) <> SIZE_MAX.
Proof.
  unfold ukf_shape. fold SIZE_MAX. case_if; [done|]. cbv zeta. cbn [fst].
  destruct (Z.eqb_spec (LINEARS_SIZE_MUL target (rows m) (cols m)) SIZE_MAX); [done|]. intros _. zbool.
  destruct (Z.eqb_spec r 0), (Z.eqb_spec c 0), (Z.eqb_spec (rows m) r), (Z.eqb_spec (cols m) c); cbn in *; try done; auto.
Qed.

Lemma ukf_owned_ok spans m r c capacity size alignment : (ukf_owned target spans m r c capacity size alignment).1 = LINEARS_OK ->
  (ukf_shape target m r c size).1 = LINEARS_OK.
Proof. unfold ukf_owned, require. by destruct (status_ok _) eqn:E; [apply status_ok_true in E|intros E'; cbn in E'; rewrite E' in E]. Qed.
End Guarantees.
