(* ===== verification/PfResample.v ===== *)
(** * Systematic resampling of the q particle filter

    PQ(weight_total), PQ(resample_indices) and PQ(reset_weights) of
    pf_q_internal.h and the resample entry point of pf_q_filter_impl.h.  The integer
    recurrence selects exactly the particles that the real targets (i + u) T / N
    select, for every weight vector and every binary fraction u. *)
From Stdlib Require Import SpecFloat.
From S2P Require Import Prelude MachineInt Status Wide Numeric Float Matrix FcMonad FcFloat FcVariants Decomp PfInt UkfBits PfSpan.

Section Format.
Variable f : q_format.

Definition sizeof_signal : Z := match f with Q15 => 2 | Q31 => 4 end.

(** ** pf_q_internal.h *)

Definition pf_reset_weights (weights : list Z) : list Z := map (fun _ => U_SIGNAL_MAX f) weights.

Fixpoint weight_sum (weights : list Z) (sum : filters_q_u128_t) : linears_status_t * filters_q_u128_t :=
  match weights with
  | [] => (LINEARS_OK, sum)
  | w :: rest => if w <? 0 then (LINEARS_ERROR_DOMAIN, sum) else weight_sum rest (pf_q_uadd sum (mk_u128 w 0))
  end.

Definition pf_weight_total (weights : list Z) : linears_status_t * filters_q_u128_t :=
  let r := weight_sum weights (mk_u128 0 0) in
  if negb (status_ok r.1) then r
  else if (lo r.2 =? 0) && (hi r.2 =? 0) then (LINEARS_ERROR_DOMAIN, r.2)
  else r.

(** The uniform number as [mantissa / 2^shift]. *)
Definition uniform_parts (uniform : spec_float) : Z * Z :=
  if feq uniform fzero then (0, 0)
  else
    let fraction := FREXP (work_format f) uniform in
    (to_int (LDEXP (work_format f) fraction.1 (U_MANT_DIG f)), U_MANT_DIG f - fraction.2).

(** The locals of the loop: the cumulative weight of particle [j] and the target's floor and remainder. *)
Record resampler := mk_resampler { cumulative : filters_q_u128_t; position : nat; floor_target : filters_q_u128_t; remainder : Z }.

(** [while (cumulative < target && j + 1 < count)] *)
Definition advance_to (weights : list Z) (goal : filters_q_u128_t) (s : filters_q_u128_t * nat) : filters_q_u128_t * nat :=
  while_fuel (length weights)
    (fun s => (pf_q_ucmp s.1 goal <? 0) && (s.2 + 1 <? length weights)%nat)
    (fun s => (pf_q_uadd s.1 (mk_u128 (nth (S s.2) weights 0) 0), S s.2)) s.

Definition resample_step (weights : list Z) (fraction : bool) (step : Z * Z) (st : resampler) : nat * resampler :=
  let count := Z.of_nat (length weights) in
  let goal := if negb (remainder st =? 0) || fraction then pf_q_uadd (floor_target st) (mk_u128 1 0) else floor_target st in
  let at_ := advance_to weights goal (cumulative st, position st) in
  let remainder := u64 (remainder st + step.2) in
  let carry := count <=? remainder in
  (at_.2, mk_resampler at_.1 at_.2
            (pf_q_uadd (floor_target st) (mk_u128 (if carry then u64 (step.1 + 1) else step.1) 0))
            (if carry then u64 (remainder - count) else remainder)).

Fixpoint resample_loop (n : nat) (weights : list Z) (fraction : bool) (step : Z * Z) (st : resampler) : list nat :=
  match n with
  | O => []
  | S n => let r := resample_step weights fraction step st in r.1 :: resample_loop n weights fraction step r.2
  end.

(** [indices]: NULL or an array; its first [count] entries are written on success. *)
Definition pf_resample_indices (weights : list Z) (uniform : spec_float) (indices : option (list nat)) (capacity : Z)
    : linears_status_t * option (list nat) :=
  let count := Z.of_nat (length weights) in
  match indices with
  | None => (LINEARS_ERROR_ARGUMENT, None)
  | Some old =>
      if capacity <? count then (LINEARS_ERROR_WORKSPACE, indices)
      else if negb (isfinite uniform) then (LINEARS_ERROR_RANGE, indices)
      else if negb (SFleb fzero uniform && flt uniform (fone (work_format f))) then (LINEARS_ERROR_DOMAIN, indices)
      else
        let total := pf_weight_total weights in
        require total.1 indices (
        let parts := uniform_parts uniform in
        let initial := pf_q_uniform_product total.2 parts.1 parts.2 in
        let start := pf_q_udiv initial.1 count in
        let step := pf_q_udiv total.2 count in
        (LINEARS_OK, Some (resample_loop (length weights) weights initial.2 step
           (mk_resampler (mk_u128 (nth 0 weights 0) 0) 0 (mk_u128 start.1 0) start.2) ++ drop (length weights) old)))
  end.

(** ** The filter object and the entry point *)

(** A matrix embedded in the object: its descriptor, its capacity and its [rows * cols] elements. *)
Record owned_matrix := mk_owned { owned_descriptor : linears_matrix_t; owned_capacity : Z; owned_elements : list Z }.

Record pf_state := mk_pf {
  pf_address : Z; particles : owned_matrix; weights : owned_matrix;
  process_noise : owned_matrix; measurement_noise : owned_matrix }.

(** The target, and the size and alignment of the object. *)
Record pf_abi := mk_pf_abi { pf_target : decomp_abi; sizeof_state : Z; align_state : Z; align_signal : Z }.

Section Entry.
Variable abi : pf_abi.
Let target := pf_target abi.

Definition pf_own (spans : ukf_spans_t) (m : owned_matrix) (expected_rows expected_cols : Z) : linears_status_t * ukf_spans_t :=
  ukf_owned target spans (owned_descriptor m) expected_rows expected_cols (owned_capacity m) sizeof_signal (align_signal abi).

Definition pf_arrays (spans : ukf_spans_t) (st : pf_state) : linears_status_t * ukf_spans_t :=
  let count := rows (owned_descriptor (particles st)) in
  let n := cols (owned_descriptor (particles st)) in
  let m := rows (owned_descriptor (measurement_noise st)) in
  let r := pf_own spans (particles st) count n in require r.1 r.2 (
  let r := pf_own r.2 (weights st) count 1 in require r.1 r.2 (
  let r := pf_own r.2 (process_noise st) n n in require r.1 r.2 (
  pf_own r.2 (measurement_noise st) m m))).

Definition pf_check_state (spans : ukf_spans_t) (st : pf_state) : linears_status_t * ukf_spans_t :=
  let r := ukf_span target spans (pf_address st) (sizeof_state abi) (align_state abi) UKF_WRITABLE in
  require r.1 r.2 (pf_arrays r.2 st).

Definition with_elements (m : owned_matrix) (elements : list Z) : owned_matrix :=
  mk_owned (owned_descriptor m) (owned_capacity m) elements.

(** [indices] is the caller's array: its address (0 is NULL) and its contents. *)
Definition pf_resample (st : pf_state) (uniform : spec_float) (indices : metadata (list nat)) (capacity : Z)
    : linears_status_t * (pf_state * metadata (list nat)) :=
  let old := (st, indices) in
  let r := pf_check_state [] st in require r.1 old (
  let count := rows (owned_descriptor (particles st)) in
  let n := cols (owned_descriptor (particles st)) in
  if pointer indices =? 0 then (LINEARS_ERROR_ARGUMENT, old)
  else if capacity <? count then (LINEARS_ERROR_WORKSPACE, old)
  else
    let r := ukf_span target r.2 (pointer indices) (LINEARS_SIZE_MUL target count (sizeof_size target)) (align_size target) UKF_WRITABLE in
    require r.1 old (
    require (ukf_disjoint r.2) old (
    let selected := pf_resample_indices (owned_elements (weights st)) uniform (Some (contents indices)) capacity in
    let indices := mk_metadata (pointer indices) (default [] selected.2) in
    require selected.1 (st, indices) (
    (LINEARS_OK,
     (mk_pf (pf_address st)
        (with_elements (particles st) (ukf_gather_rows (owned_elements (particles st)) (Z.to_nat n) (contents indices) (Z.to_nat count)))
        (with_elements (weights st) (pf_reset_weights (owned_elements (weights st))))
        (process_noise st) (measurement_noise st),
      indices)))))).
End Entry.
End Format.
