(* ===== verification/PfResampleSpec.v ===== *)
(** * Systematic resampling selects the particles of the real targets

    The integer quotients and remainders of PfResample.v against the rational
    definition, and the entry point: a success gathers exactly those particles in
    place and resets the weights; a failure changes nothing. *)
From Stdlib Require Import SpecFloat.
From S2P Require Import Prelude MachineInt Status Wide Numeric Float Matrix FcMonad FcFloat FcVariants Decomp FloatParts DecompSpec PfInt UkfBits PfSpan PfResample.

(** ** Sums of weights *)

Definition total (ws : list Z) : Z := foldr Z.add 0 ws.

(** The cumulative weight of particle [j]. *)
Definition upto (ws : list Z) (j : nat) : Z := total (take (S j) ws).

(** What the entry point's validation guarantees of a weight column. *)
Definition weights_ok (ws : list Z) : Prop :=
  Forall (fun w => 0 <= w <= INT32_MAX) ws /\ 0 < Z.of_nat (length ws) < 2 ^ 62.

Lemma weights_app a b : total (a ++ b) = total a + total b.
Proof. unfold total. induction a as [|x a IH]; cbn; [done|]. rewrite IH. lia. Qed.

Lemma total_range ws : Forall (fun w => 0 <= w <= INT32_MAX) ws -> 0 <= total ws <= Z.of_nat (length ws) * INT32_MAX.
Proof. induction 1 as [|w ws Hw _ IH]; unfold total in *; cbn [foldr length]; [lia|]. unfold INT32_MAX in *. lia. Qed.

Lemma upto_S ws j : (S j < length ws)%nat -> upto ws (S j) = upto ws j + nth (S j) ws 0.
Proof.
  intros Hj. unfold upto. destruct (lookup_lt_is_Some_2 ws (S j) Hj) as [w Ew].
  rewrite (take_S_r ws (S j) w) by done. rewrite weights_app, (nth_lookup_Some ws (S j) 0 w) by done. cbn. lia.
Qed.

Lemma upto_range ws j : weights_ok ws -> 0 <= upto ws j <= total ws.
Proof.
  intros [Hw _]. unfold upto. pose proof (weights_app (take (S j) ws) (drop (S j) ws)) as E. rewrite take_drop in E.
  pose proof (total_range (take (S j) ws) ltac:(by apply Forall_take)).
  pose proof (total_range (drop (S j) ws) ltac:(by apply Forall_drop)). lia.
Qed.

Lemma upto_last ws j : (S j = length ws)%nat -> upto ws j = total ws.
Proof. intros E. unfold upto. by rewrite E, firstn_all. Qed.

Lemma upto_0 ws : (0 < length ws)%nat -> upto ws 0 = nth 0 ws 0.
Proof. destruct ws as [|w ws]; [cbn; lia|]. intros _. unfold upto, total. cbn [take foldr nth]. rewrite take_0. cbn. lia. Qed.

Lemma total_small ws : weights_ok ws -> total ws < 2 ^ 93 /\ total ws < two128.
Proof.
  intros [Hw Hn]. pose proof (total_range ws Hw). unfold INT32_MAX, two128 in *. change (2 ^ 62) with 4611686018427387904 in *.
  change (2 ^ 93) with 9903520314283042199192993792. lia.
Qed.

Lemma word_ok x : is_u64 x -> u128_ok (mk_u128 x 0) /\ u128_value (mk_u128 x 0) = x.
Proof. intros Hx. unfold u128_ok, u128_value. cbn. split; [split; [done|rlia]|lia]. Qed.

Lemma add_word a x : u128_ok a -> is_u64 x -> u128_value a + x < two128 ->
  u128_ok (pf_q_uadd a (mk_u128 x 0)) /\ u128_value (pf_q_uadd a (mk_u128 x 0)) = u128_value a + x.
Proof.
  intros Ha Hx Hs. destruct (word_ok x Hx) as [Hw E]. destruct (pf_q_uadd_spec a (mk_u128 x 0) Ha Hw) as [Hok V]; rewrite E in *; auto.
Qed.

Lemma weight_sum_ok ws s : Forall (fun w => 0 <= w <= INT32_MAX) ws -> u128_ok s ->
  u128_value s + total ws < two128 ->
  (weight_sum ws s).1 = LINEARS_OK /\ u128_ok (weight_sum ws s).2 /\ u128_value (weight_sum ws s).2 = u128_value s + total ws.
Proof.
  intros Hw. revert s. induction Hw as [|w ws Hw Hws IH]; intros s Hs Hb; cbn [weight_sum]; [unfold total; cbn; split_and!; auto; lia|].
  rewrite (proj2 (Z.ltb_ge w 0)) by lia. change (total (w :: ws)) with (w + total ws) in *. pose proof (total_range ws Hws).
  destruct (add_word s w Hs) as [Ha E]; [unfold INT32_MAX in *; rlia|lia|].
  destruct (IH (pf_q_uadd s (mk_u128 w 0)) Ha) as (H1 & H2 & H3); [lia|]. split_and!; auto. lia.
Qed.

Lemma pf_weight_total_ok ws : weights_ok ws -> 0 < total ws ->
  exists t, pf_weight_total ws = (LINEARS_OK, t) /\ u128_ok t /\ u128_value t = total ws.
Proof.
  intros Hok Ht. pose proof (total_small ws Hok). destruct (word_ok 0 ltac:(rlia)) as [H0 V0]. unfold pf_weight_total.
  destruct (weight_sum_ok ws (mk_u128 0 0) (proj1 Hok) H0 ltac:(lia)) as (H1 & H2 & H3).
  destruct (weight_sum ws (mk_u128 0 0)) as [st t]. cbn [fst snd] in *. subst st. cbn [status_ok negb].
  exists t. split; [|split; [done|lia]]. destruct (Z.eqb_spec (lo t) 0) as [E0|], (Z.eqb_spec (hi t) 0) as [E1|]; try done.
  assert (u128_value t = 0) by (unfold u128_value; by rewrite E0, E1). lia.
Qed.

Lemma pf_weight_total_domain ws : weights_ok ws -> total ws = 0 -> (pf_weight_total ws).1 = LINEARS_ERROR_DOMAIN.
Proof.
  intros Hok Ht. pose proof (total_small ws Hok). destruct (word_ok 0 ltac:(rlia)) as [H0 V0]. unfold pf_weight_total.
  destruct (weight_sum_ok ws (mk_u128 0 0) (proj1 Hok) H0 ltac:(lia)) as (H1 & H2 & H3).
  destruct (weight_sum ws (mk_u128 0 0)) as [st t]. cbn [fst snd] in *. subst st. cbn [status_ok negb].
  rewrite V0, Ht in H3. destruct H2 as [Hl Hh]. unfold u128_value, two64 in H3. unfold_ranges. rewrite (proj2 (Z.eqb_eq (lo t) 0)), (proj2 (Z.eqb_eq (hi t) 0)) by lia. done.
Qed.

(** ** The rational definition *)

(** Particle [j] is the first whose cumulative weight reaches (i + M / 2^k) T / N. *)
Definition selects (ws : list Z) (M k : Z) (i j : nat) : Prop :=
  let N := Z.of_nat (length ws) in
  let goal := (M + Z.of_nat i * 2 ^ k) * total ws in
  (j < length ws)%nat /\ goal <= upto ws j * N * 2 ^ k /\ forall j', (j' < j)%nat -> upto ws j' * N * 2 ^ k < goal.

(** The same fraction in other terms selects the same particle. *)
Lemma selects_fraction ws M k M' k' i j : 0 <= k -> 0 <= k' -> M * 2 ^ k' = M' * 2 ^ k -> selects ws M k i j -> selects ws M' k' i j.
Proof.
  intros Hk Hk' E (Hj & Hge & Hlt). pose proof (Z.pow_pos_nonneg 2 k ltac:(lia) Hk). pose proof (Z.pow_pos_nonneg 2 k' ltac:(lia) Hk').
  set (N := Z.of_nat (length ws)) in *. set (a := 2 ^ k) in *. set (b := 2 ^ k') in *. set (T := total ws) in *.
  assert ((M + Z.of_nat i * a) * T * b = (M' + Z.of_nat i * b) * T * a) as Eg.
  { transitivity ((M * b + Z.of_nat i * a * b) * T); [ring|]. rewrite E. ring. }
  unfold selects. fold N T b. split; [done|]. split.
  - apply (Z.mul_le_mono_pos_r _ _ a); [done|]. rewrite <- Eg.
    replace (upto ws j * N * b * a) with (upto ws j * N * a * b) by ring. by apply Z.mul_le_mono_nonneg_r; [lia|].
  - intros j' Hj'. apply (Z.mul_lt_mono_pos_r a); [done|]. rewrite <- Eg.
    replace (upto ws j' * N * b * a) with (upto ws j' * N * a * b) by ring. apply Z.mul_lt_mono_pos_r; [lia|]. by apply Hlt.
Qed.

(** ** The recurrence *)

Section Loop.
Variables (ws : list Z) (M k : Z).
Let N := Z.of_nat (length ws).
Let T := total ws.
Let D := 2 ^ k.
Let I := M * T / D.
Let fraction := negb (M * T mod D =? 0).
Hypotheses (Hws : weights_ok ws) (HT : 0 < T) (Hk : 0 <= k) (HM : 0 <= M < D).

Lemma D_positive : 0 < D.
Proof. apply Z.pow_pos_nonneg; lia. Qed.
Lemma N_range : 0 < N < 2 ^ 62.
Proof. apply Hws. Qed.

(** The integer goal of step [i] is the least integer at or above the rational one. *)
Lemma goal_least (i : nat) F R C : 0 <= R < N -> F * N + R = I + Z.of_nat i * T ->
  (if negb (R =? 0) || fraction then F + 1 else F) <= C <-> (M + Z.of_nat i * D) * T <= C * N * D.
Proof.
  intros HR HF. pose proof D_positive as HD. pose proof N_range as HN.
  pose proof (Z.div_mod (M * T) D ltac:(lia)) as E. pose proof (Z.mod_pos_bound (M * T) D HD) as Hphi. fold I in E.
  unfold fraction. set (phi := M * T mod D) in *. clearbody phi.
  assert ((M + Z.of_nat i * D) * T = F * N * D + (R * D + phi)) as ->.
  { transitivity (M * T + Z.of_nat i * T * D); [ring|]. rewrite E. transitivity ((I + Z.of_nat i * T) * D + phi); [ring|]. rewrite <- HF. ring. }
  assert (0 < N * D) by nia.
  destruct (Z.eqb_spec R 0) as [->|HR0]; cbn [negb orb].
  - destruct (Z.eqb_spec phi 0) as [Ep|Hp]; cbn [negb]; [rewrite Ep|].
    + split; intros; nia.
    + split; intros Hc; [nia|]. apply Z.le_succ_l, Z.lt_nge. intros Hle. nia.
  - assert (0 < R * D + phi < N * D) by nia. split; intros Hc; [nia|]. apply Z.le_succ_l, Z.lt_nge. intros Hle. nia.
Qed.

Definition reached (pos : nat) (c : filters_q_u128_t) : Prop :=
  (pos < length ws)%nat /\ u128_ok c /\ u128_value c = upto ws pos.

(** The inner loop stops at the first particle that reaches the goal, if one does. *)
Lemma advance_to_spec goal (s : filters_q_u128_t * nat) : u128_ok goal -> reached s.2 s.1 ->
  (forall j, (j < s.2)%nat -> upto ws j < u128_value goal) -> u128_value goal <= T ->
  let r := advance_to ws goal s in
  reached r.2 r.1 /\ (forall j, (j < r.2)%nat -> upto ws j < u128_value goal) /\ u128_value goal <= upto ws r.2.
Proof.
  intros Hg Hs Hlow HgT. unfold advance_to. cbv zeta.
  destruct (while_fuel_rule (fun s => (pf_q_ucmp s.1 goal <? 0) && (s.2 + 1 <? length ws)%nat)
    (fun s => (pf_q_uadd s.1 (mk_u128 (nth (S s.2) ws 0) 0), S s.2))
    (fun s => reached s.2 s.1 /\ forall j, (j < s.2)%nat -> upto ws j < u128_value goal)
    (fun s => (length ws - 1 - s.2)%nat)) with (fuel := length ws) (s := s) as ([Hr Hl] & Hstop).
  - intros [c pos] [(Hp & Hc & Ec) Hlt] Hguard. cbn [fst snd] in *. apply andb_true_iff in Hguard as [Hcmp Hnext].
    apply Nat.ltb_lt in Hnext. rewrite pf_q_ucmp_spec in Hcmp by done. zbool.
    assert (0 <= nth (S pos) ws 0 <= INT32_MAX) as Hw.
    { destruct Hws as [Hall _]. apply (proj1 (Forall_nth _ _) Hall). lia. }
    pose proof (upto_S ws pos ltac:(lia)) as Eup. pose proof (upto_range ws (S pos) Hws). pose proof (total_small ws Hws).
    destruct (add_word c (nth (S pos) ws 0) Hc) as [Ha Ea]; [unfold INT32_MAX in *; rlia|lia|].
    split; [|lia]. split; [split; [lia|split; [done|lia]]|]. intros j Hj. destruct (decide (j = pos)) as [->|]; [lia|]. apply Hlt. lia.
  - split; done.
  - lia.
  - intros [c pos] [(Hp & Hc & Ec) _] Hm. cbn [fst snd] in *. rewrite (proj2 (Nat.ltb_ge (pos + 1) (length ws))) by lia. apply andb_false_r.
  - set (r := while_fuel _ _ _ _) in *. clearbody r. split; [done|]. split; [done|]. destruct Hr as (Hp & Hc & Ec).
    apply andb_false_iff in Hstop as [Hcmp|Hnext].
    + rewrite pf_q_ucmp_spec in Hcmp by done. zbool. lia.
    + apply Nat.ltb_ge in Hnext. rewrite upto_last by lia. done.
Qed.

(** What holds before step [i]. *)
Definition loop_inv (i : nat) (st : resampler) : Prop :=
  reached (position st) (cumulative st) /\ u128_ok (floor_target st) /\ 0 <= remainder st < N /\
  u128_value (floor_target st) * N + remainder st = I + Z.of_nat i * T /\
  forall j, (j < position st)%nat -> upto ws j * N * D < (M + Z.of_nat i * D) * T.

(** Every floor target within the loop is at most the total. *)
Lemma floor_bound (i : nat) F R : (i < length ws)%nat -> 0 <= F -> 0 <= R -> F * N + R = I + Z.of_nat i * T -> F <= T /\ F * N + R < N * T.
Proof.
  intros Hi HF0 HR HF. pose proof D_positive. pose proof N_range. assert (I < T) by (apply Z.div_lt_upper_bound; nia).
  assert (Z.of_nat i + 1 <= N) by lia. assert (I + Z.of_nat i * T < N * T) by nia. split; [nia|lia].
Qed.

Lemma resample_step_spec (i : nat) st : (i < length ws)%nat -> loop_inv i st ->
  let r := resample_step ws fraction (T / N, T mod N) st in
  selects ws M k i r.1 /\ loop_inv (S i) r.2.
Proof.
  intros Hi (Hreach & Hfl & HR & HF & Hlow). pose proof N_range as HN. pose proof (total_small ws Hws) as [HT93 HT128]. fold T in HT93, HT128.
  pose proof (u128_range _ Hfl) as HFr. destruct (floor_bound i _ _ Hi (proj1 HFr) (proj1 HR) HF) as [HFT HFN].
  unfold resample_step. fold N. cbv zeta. cbn [fst snd].
  match goal with |- context [advance_to ws ?g _] => set (goal := g) end. set (F := u128_value (floor_target st)) in *.
  destruct (word_ok 1 ltac:(rlia)) as [H1 V1].
  assert (u128_ok goal /\ u128_value goal = if negb (remainder st =? 0) || fraction then F + 1 else F) as [Hgok Hgv].
  { unfold goal. destruct (_ || _); [|done]. rewrite <- V1. apply pf_q_uadd_spec; [done|done|]. rewrite V1. change (2 ^ 93) with 9903520314283042199192993792 in *. unfold two128 in *. fold F. lia. }
  assert (forall C, u128_value goal <= C <-> (M + Z.of_nat i * D) * T <= C * N * D) as Hleast
    by (intros C; rewrite Hgv; by apply goal_least).
  destruct (advance_to_spec goal (cumulative st, position st) Hgok Hreach) as (Hr & Hl & Hge).
  { intros j Hj. apply Z.lt_nge. intros Hle. apply Hleast in Hle. specialize (Hlow j Hj). lia. }
  { apply Hleast. pose proof D_positive. assert (M + Z.of_nat i * D <= N * D) by nia. nia. }
  set (r := advance_to _ _ _) in *. clearbody r. split.
  - split; [apply Hr|]. split; [by apply Hleast|]. intros j' Hj'. apply Z.lt_nge. intros Hle. apply Hleast in Hle. specialize (Hl j' Hj'). lia.
  - pose proof (Z.div_mod T N ltac:(lia)) as Edm. pose proof (Z.mod_pos_bound T N ltac:(lia)) as Hm.
    pose proof (total_range ws (proj1 Hws)) as HTr. fold T N in HTr.
    assert (0 <= T / N <= INT32_MAX) as Hst by (split; [apply Z.div_pos; lia|apply Z.div_le_upper_bound; lia]).
    change (2 ^ 62) with 4611686018427387904 in *. unfold INT32_MAX in *.
    rewrite (u64_id (remainder st + T mod N)) by rlia.
    assert (forall x, is_u64 x -> x <= 4294967296 -> u128_ok (pf_q_uadd (floor_target st) (mk_u128 x 0)) /\
      u128_value (pf_q_uadd (floor_target st) (mk_u128 x 0)) = F + x) as Hadd.
    { intros x Hx Hxb. apply add_word; [done|done|]. change (2 ^ 93) with 9903520314283042199192993792 in *. unfold two128 in *. fold F. lia. }
    assert (forall j, (j < r.2)%nat -> upto ws j * N * D < (M + Z.of_nat (S i) * D) * T) as Hnext.
    { intros j Hj. specialize (Hl j Hj). apply Z.lt_nge. intros Hle. pose proof D_positive.
      assert (u128_value goal <= upto ws j); [|lia]. apply Hleast. nia. }
    unfold loop_inv. cbn [position cumulative floor_target remainder].
    destruct (Z.leb_spec N (remainder st + T mod N)).
    + rewrite !u64_id by rlia. destruct (Hadd (T / N + 1) ltac:(rlia) ltac:(lia)) as [Ha Ea]. rewrite Ea. split_and!; try done; try lia.
    + destruct (Hadd (T / N) ltac:(rlia) ltac:(lia)) as [Ha Ea]. rewrite Ea. split_and!; try done; try lia.
Qed.

Lemma resample_loop_spec (n i : nat) st : (i + n <= length ws)%nat -> loop_inv i st ->
  let out := resample_loop n ws fraction (T / N, T mod N) st in
  length out = n /\ forall r, (r < n)%nat -> selects ws M k (i + r) (nth r out 0%nat).
Proof.
  revert i st. induction n as [|n IH]; intros i st Hn Hst; cbv zeta; cbn [resample_loop length nth]; [split; [done|lia]|].
  destruct (resample_step_spec i st ltac:(lia) Hst) as [Hsel Hinv].
  destruct (IH (S i) _ ltac:(lia) Hinv) as [Hlen Hout]. split; [by rewrite Hlen|].
  intros [|r] Hr; [by rewrite Nat.add_0_r|]. rewrite Nat.add_succ_r. apply Hout. lia.
Qed.
End Loop.

(** ** The uniform number *)

Lemma dyadic_unique x M k M' k' : 0 <= k -> 0 <= k' -> dyadic x M k -> dyadic x M' k' -> M * 2 ^ k' = M' * 2 ^ k.
Proof.
  intros Hk Hk'. destruct x as [s|s| |[] m e]; cbn; try done; [intros -> ->; lia|].
  intros [He E] [_ E']. apply (Z.mul_cancel_r _ _ (2 ^ (- e))); [apply Z.pow_nonzero; lia|].
  transitivity (M * 2 ^ (- e) * 2 ^ k'); [ring|]. rewrite <- E. transitivity (M' * 2 ^ (- e) * 2 ^ k); [|ring]. rewrite <- E'. ring.
Qed.

(** A number the code accepts as a draw from [0, 1). *)
Definition unit_draw (f : q_format) (u : spec_float) : Prop :=
  valid_binary (prec (work_format f)) (emax (work_format f)) u = true /\ isfinite u = true /\
  SFleb fzero u && flt u (fone (work_format f)) = true.

Lemma uniform_parts_spec f u : unit_draw f u ->
  let parts := uniform_parts f u in
  is_u64 parts.1 /\ 0 <= parts.2 /\ 0 <= parts.1 < 2 ^ parts.2 /\ dyadic u parts.1 parts.2.
Proof.
  intros (Hv & Hfin & Hunit). apply andb_true_iff in Hunit as [Hge Hlt]. unfold uniform_parts.
  assert (1 < prec (work_format f) <= 53 /\ prec (work_format f) < emax (work_format f)) as [Hp Hm] by (destruct f; cbn; lia).
  destruct u as [s|s| |[] m e]; try discriminate; [cbn; rlia|].
  change (feq (S754_finite false m e) fzero) with false. cbv match beta zeta.
  destruct (valid_digits (work_format f) _ _ _ Hv) as [Hd He].
  pose proof (below_one (work_format f) ltac:(lia) ltac:(lia) m e Hv Hlt) as Hone.
  destruct (frexp_parts (work_format f) ltac:(lia) ltac:(lia) m e Hd) as [EM Ek]. unfold U_MANT_DIG. cbn [fst snd]. rewrite EM, Ek.
  set (p := prec (work_format f)) in *. set (d := Zpos (digits2_pos m)) in *. pose proof (digits_bounds m) as [_ Hup]. fold d in Hup.
  assert (Zpos m * 2 ^ (p - d) < 2 ^ p) as Hlt_p.
  { replace (2 ^ p) with (2 ^ d * 2 ^ (p - d)) by (rewrite <- Z.pow_add_r by lia; f_equal; lia).
    apply Z.mul_lt_mono_pos_r; [apply Z.pow_pos_nonneg; lia|done]. }
  assert (0 <= Zpos m * 2 ^ (p - d)) by (apply Z.mul_nonneg_nonneg; [lia|apply Z.pow_nonneg; lia]).
  assert (2 ^ p <= 2 ^ 53) by (apply Z.pow_le_mono_r; lia). change (2 ^ 53) with 9007199254740992 in *.
  assert (2 ^ p <= 2 ^ (p - (e + d))) by (apply Z.pow_le_mono_r; lia).
  split; [rlia|]. split; [lia|]. split; [lia|]. cbn. split; [lia|].
  replace (p - (e + d)) with ((p - d) + (- e)) by lia. rewrite Z.pow_add_r by lia. ring.
Qed.

(** ** The indices *)

Definition resampled (f : q_format) (ws : list Z) (u : spec_float) (out : list nat) : Prop :=
  length out = length ws /\
  forall M k, 0 <= k -> dyadic u M k -> forall i, (i < length ws)%nat -> selects ws M k i (nth i out 0%nat).

Lemma pf_resample_indices_ok f ws u old capacity : weights_ok ws -> 0 < total ws -> unit_draw f u ->
  Z.of_nat (length ws) <= capacity ->
  exists out, pf_resample_indices f ws u (Some old) capacity = (LINEARS_OK, Some (out ++ drop (length ws) old)) /\ resampled f ws u out.
Proof.
  intros Hws HT Hu Hcap. destruct (uniform_parts_spec f u Hu) as (HM64 & Hk & HM & Hdy). pose proof Hu as (_ & Hfin & Hunit).
  destruct (pf_weight_total_ok ws Hws HT) as (t & Et & Ht & Vt). pose proof (total_small ws Hws) as [HT93 HT128]. pose proof Hws as [Hall HN].
  pose proof (total_range ws Hall) as HTr. unfold pf_resample_indices. rewrite (proj2 (Z.ltb_ge _ _)) by done. rewrite Hfin, Hunit, Et. cbn [negb fst snd require status_ok].
  set (M := (uniform_parts f u).1) in *. set (k := (uniform_parts f u).2) in *. set (N := Z.of_nat (length ws)) in *.
  assert (0 < 2 ^ k) by (apply Z.pow_pos_nonneg; lia).
  assert (0 <= M * total ws / 2 ^ k < total ws) as HI by (split; [apply Z.div_pos; nia|apply Z.div_lt_upper_bound; nia]).
  destruct (pf_q_uniform_product_spec t M k Ht HM64 Hk) as (Hi & Vi & Ef); [rewrite Vt, Z.mul_comm; lia|].
  cbv zeta in *. set (initial := pf_q_uniform_product t M k) in *. rewrite Vt, (Z.mul_comm _ M) in Vi, Ef.
  assert (forall x, 0 <= x <= total ws -> 0 <= x / N <= INT32_MAX) as Hquot
    by (intros x Hx; split; [apply Z.div_pos; lia|apply Z.div_le_upper_bound; [lia|]; lia]).
  change (2 ^ 62) with 4611686018427387904 in *.
  pose proof (Hquot (M * total ws / 2 ^ k) ltac:(lia)) as Hq1. pose proof (Hquot (total ws) ltac:(lia)) as Hq2. unfold INT32_MAX in Hq1, Hq2.
  assert (0 < N <= 2 ^ 63) as HN63 by (change (2 ^ 63) with 9223372036854775808; lia).
  rewrite (pf_q_udiv_spec initial.1 N Hi HN63), (pf_q_udiv_spec t N Ht HN63) by (rewrite ?Vi, ?Vt; unfold two64; lia).
  rewrite Vi, Vt, Ef. cbn [fst snd]. set (I := M * total ws / 2 ^ k) in *.
  pose proof (Hquot I ltac:(lia)) as HIN. pose proof (Z.div_mod I N ltac:(lia)) as Edm. pose proof (Z.mod_pos_bound I N ltac:(lia)) as Hmod.
  assert (0 <= nth 0 ws 0 <= INT32_MAX) as Hw0 by (apply (proj1 (Forall_nth _ _) Hall); lia). unfold INT32_MAX in *.
  destruct (word_ok (nth 0 ws 0) ltac:(rlia)) as [Hw Vw]. destruct (word_ok (I / N) ltac:(rlia)) as [Hs Vs].
  destruct (resample_loop_spec ws M k Hws HT Hk HM (length ws) 0
    (mk_resampler (mk_u128 (nth 0 ws 0) 0) 0 (mk_u128 (I / N) 0) (I mod N))) as [Hlen Hsel].
  - lia.
  - unfold loop_inv, reached. cbn [position cumulative floor_target remainder]. fold N I. rewrite Vs, Vw, upto_0 by lia.
    split; [split; [lia|done]|]. split; [done|]. split; [lia|]. split; [lia|]. intros j Hj. lia.
  - eexists. split; [reflexivity|]. split; [exact Hlen|]. intros M' k' Hk' Hdy' i Hii.
    apply (selects_fraction ws M k); [done|done| |by apply Hsel]. by apply (dyadic_unique u).
Qed.

(** Later targets never select earlier particles. *)
Lemma selects_mono ws M k i j i' j' : weights_ok ws -> 0 <= k -> (i <= i')%nat -> selects ws M k i j -> selects ws M k i' j' -> (j <= j')%nat.
Proof.
  intros Hws Hk Hi (_ & _ & Hlow) (_ & Hge & _). apply Nat.le_ngt. intros Hlt. specialize (Hlow j' Hlt).
  pose proof (total_range ws (proj1 Hws)) as [HT _]. pose proof (Z.pow_pos_nonneg 2 k ltac:(lia) Hk).
  assert ((M + Z.of_nat i * 2 ^ k) * total ws <= (M + Z.of_nat i' * 2 ^ k) * total ws); [|cbv zeta in *; lia].
  apply Z.mul_le_mono_nonneg_r; [done|]. apply Z.add_le_mono_l, Z.mul_le_mono_nonneg_r; lia.
Qed.

Lemma resampled_nondecreasing f ws u out : weights_ok ws -> unit_draw f u -> resampled f ws u out -> nondecreasing out (length ws).
Proof.
  intros Hws Hu (Hlen & Hsel). destruct (uniform_parts_spec f u Hu) as (_ & Hk & _ & Hdy). intros i j Hij.
  pose proof (Hsel _ _ Hk Hdy i ltac:(lia)) as Hi. pose proof (Hsel _ _ Hk Hdy j ltac:(lia)) as Hj.
  split; [by apply (selects_mono ws _ _ i _ j _ Hws Hk ltac:(lia) Hi)|apply Hj].
Qed.

(** ** When the indices are delivered *)

Lemma weight_sum_nonnegative ws s : (weight_sum ws s).1 = LINEARS_OK -> Forall (fun w => 0 <= w) ws.
Proof.
  revert s. induction ws as [|w ws IH]; intros s; cbn; [constructor|]. destruct (Z.ltb_spec w 0); [done|]. intros E. constructor; [lia|by eapply IH].
Qed.

Lemma pf_resample_indices_failed f ws u old capacity : (pf_resample_indices f ws u (Some old) capacity).1 <> LINEARS_OK ->
  (pf_resample_indices f ws u (Some old) capacity).2 = Some old.
Proof. unfold pf_resample_indices, require. repeat case_if; try done. Qed.

Lemma pf_resample_indices_delivers f ws u old capacity :
  Forall (fun w => w <= INT32_MAX) ws -> 0 < Z.of_nat (length ws) < 2 ^ 62 ->
  valid_binary (prec (work_format f)) (emax (work_format f)) u = true ->
  (pf_resample_indices f ws u (Some old) capacity).1 = LINEARS_OK ->
  weights_ok ws /\ 0 < total ws /\ unit_draw f u /\ Z.of_nat (length ws) <= capacity.
Proof.
  intros Hmax HN Hv. unfold pf_resample_indices. case_if; [done|]. case_if; [done|]. case_if; [done|].
  intros Et. assert ((pf_weight_total ws).1 = LINEARS_OK) as Hok.
  { revert Et. unfold require. destruct (status_ok _) eqn:Es; [by apply status_ok_true in Es|]. cbn. intros E'. by rewrite E' in Es. }
  assert (weights_ok ws) as Hws.
  { split; [|done]. assert ((weight_sum ws (mk_u128 0 0)).1 = LINEARS_OK) as Hs.
    { revert Hok. unfold pf_weight_total. destruct (status_ok _) eqn:Es; [by apply status_ok_true in Es|].
      cbn. intros E'. by rewrite E' in Es. }
    apply weight_sum_nonnegative in Hs. apply Forall_forall. intros w Hw. rewrite Forall_forall in Hs, Hmax. auto. }
  split; [done|]. split; [|split; [split; [done|split; [done|by apply andb_true_iff]]|lia]]. pose proof (total_range ws (proj1 Hws)).
  destruct (Z.eq_dec (total ws) 0) as [Ezero|]; [|lia]. by rewrite (pf_weight_total_domain ws Hws Ezero) in Hok.
Qed.

(** ** The entry point *)

(** The elements of an embedded matrix are its rows times its columns. *)
Definition owned_ok (m : owned_matrix) : Prop :=
  0 <= rows (owned_descriptor m) /\ 0 <= cols (owned_descriptor m) /\
  length (owned_elements m) = Z.to_nat (rows (owned_descriptor m) * cols (owned_descriptor m)).

Section Entry.
Variables (f : q_format) (abi : pf_abi) (st : pf_state) (u : spec_float) (indices : metadata (list nat)) (capacity : Z).
Let target := pf_target abi.
Let count := rows (owned_descriptor (particles st)).
Let n := cols (owned_descriptor (particles st)).
Hypotheses (Hmax : 0 <= SIZE_MAX (base_abi target) < 2 ^ 64) (Hsize : 4 <= sizeof_size target).
Hypotheses (Hparticles : owned_ok (particles st)) (Hweights : owned_ok (weights st)).

Lemma pf_own_ok spans m r c : (pf_own f abi spans m r c).1 = LINEARS_OK ->
  rows (owned_descriptor m) <> 0 /\ (r <> 0 -> rows (owned_descriptor m) = r) /\ (c <> 0 -> cols (owned_descriptor m) = c).
Proof. intros E. apply ukf_owned_ok, ukf_shape_ok in E as (? & ? & ? & ? & ?). auto. Qed.

Lemma require_status {A} s (stop : A) (rest : linears_status_t * A) : (require s stop rest).1 = LINEARS_OK -> s = LINEARS_OK /\ rest.1 = LINEARS_OK.
Proof. unfold require. destruct (status_ok s) eqn:E; [apply status_ok_true in E; auto|intros E'; cbn in E'; by rewrite E' in E]. Qed.

Lemma pf_check_state_ok spans : (pf_check_state f abi spans st).1 = LINEARS_OK ->
  count <> 0 /\ rows (owned_descriptor (weights st)) = count /\ cols (owned_descriptor (weights st)) = 1.
Proof.
  intros E. apply require_status in E as [_ E]. unfold pf_arrays in E. cbv zeta in E.
  apply require_status in E as [Ep E]. apply require_status in E as [Ew _].
  apply pf_own_ok in Ep as (Hc & _). apply pf_own_ok in Ew as (_ & Hr & Hw). fold count in Hc, Hr. auto.
Qed.

Lemma resample_failed : fails_with (fun r => r = (st, indices)) (pf_resample f abi st u indices capacity).
Proof.
  unfold pf_resample. cbv zeta. apply fails_require; [done|]. apply fails_if; [by apply fails_at|]. apply fails_if; [by apply fails_at|].
  apply fails_require; [done|]. apply fails_require; [done|]. unfold require.
  destruct (status_ok _) eqn:Es; [apply fails_ok|]. intros Hne. cbn [fst snd] in *. rewrite pf_resample_indices_failed by done.
  by destruct indices.
Qed.

Lemma resample_succeeds r : pf_resample f abi st u indices capacity = (LINEARS_OK, r) ->
  Forall (q_repr f) (owned_elements (weights st)) -> valid_binary (prec (work_format f)) (emax (work_format f)) u = true ->
  exists out, resampled f (owned_elements (weights st)) u out /\
    contents r.2 = out ++ drop (Z.to_nat count) (contents indices) /\
    rows_are (Z.to_nat n) (Z.to_nat count) (fun i => nth i out 0%nat) (owned_elements (particles st)) (owned_elements (particles r.1)) /\
    owned_elements (weights r.1) = repeat (U_SIGNAL_MAX f) (Z.to_nat count) /\
    process_noise r.1 = process_noise st /\ measurement_noise r.1 = measurement_noise st.
Proof.
  intros E Hq Hv. unfold pf_resample in E. cbv zeta in E. apply require_ok in E as [Es E].
  destruct (pf_check_state_ok _ Es) as (Hc0 & Hwr & Hwc). case_if_in E; [done|]. case_if_in E; [done|].
  apply require_ok in E as [Ei E]. apply require_ok in E as [_ E]. apply require_ok in E as [Esel E].
  apply ukf_span_ok in Ei. fold target count in Ei. destruct Hweights as (_ & _ & Hlw). rewrite Hwr, Hwc, Z.mul_1_r in Hlw.
  destruct Hparticles as (Hr & Hcl & Hlp). fold count n in Hr, Hcl, Hlp.
  destruct (size_mul_fits target ltac:(lia) count (sizeof_size target) ltac:(lia) ltac:(lia) Ei) as [_ Hfit].
  assert (0 < Z.of_nat (length (owned_elements (weights st))) < 2 ^ 62) as HN.
  { rewrite Hlw, Z2Nat.id by lia. change (2 ^ 62) with 4611686018427387904. change (2 ^ 64) with 18446744073709551616 in *. nia. }
  assert (Forall (fun w => w <= INT32_MAX) (owned_elements (weights st))) as Hle.
  { eapply Forall_impl; [|exact Hq]. cbn. intros w. unfold INT32_MAX. destruct f; cbn; unfold_ranges; lia. }
  destruct (pf_resample_indices_delivers f _ u (contents indices) capacity Hle HN Hv Esel) as (Hws & HT & Hu & Hcap).
  destruct (pf_resample_indices_ok f _ u (contents indices) capacity Hws HT Hu Hcap) as (out & Eout & Hres).
  rewrite Eout in E. injection E as <-. exists out. rewrite Hlw. cbn [contents default fst snd].
  pose proof (resampled_nondecreasing f _ u out Hws Hu Hres) as Hnd. rewrite Hlw in Hnd.
  split; [done|]. split; [done|]. cbn [particles weights process_noise measurement_noise with_elements owned_elements].
  split; [|split; [|done]].
  - fold count n. assert (forall i, (i < Z.to_nat count)%nat -> nth i (out ++ drop (Z.to_nat count) (contents indices)) 0%nat = nth i out 0%nat) as Hnth
      by (intros i Hi; apply app_nth1; destruct Hres as [-> _]; lia).
    eapply rows_are_ext; [apply ukf_gather_rows_ok|].
    + rewrite Hlp. by rewrite Z2Nat.inj_mul.
    + intros i j Hij. rewrite !Hnth by lia. by apply Hnd.
    + intros i Hi. symmetry. by apply Hnth.
  - unfold pf_reset_weights. rewrite <- Hlw. generalize (owned_elements (weights st)). intros l. induction l; cbn; congruence.
Qed.
End Entry.

(** ** The properties *)



(** Three particles in two dimensions on a 32-bit target, and the draw one half. *)
Definition rv32_pf : pf_abi := mk_pf_abi rv32 64 4 2.
Definition half : spec_float := float_of_bits binary32 1056964608.
Definition sample_owned (address data rows cols : Z) (values : list Z) : owned_matrix :=
  mk_owned (mk_matrix address data rows cols) (rows * cols) values.
Definition sample_pf : pf_state := mk_pf 256
  (sample_owned 256 1024 3 2 [10; 11; 20; 21; 30; 31]) (sample_owned 268 2048 3 1 [100; 0; 300])
  (sample_owned 280 3072 2 2 [1; 0; 0; 1]) (sample_owned 292 4096 1 1 [1]).


