(* ===== verification/PfExp.v ===== *)
(** * The integer exponential of the q particle filter

    pf_q_exp_impl.h: exp(-x) on one fixed grid per format, F40 for q15 and F64 for
    q31, by range reduction to ln(2)/32, a Horner polynomial and a table of
    2^(-j/32).  [None] asks the caller for the libm retry. *)
From Stdlib Require Import SpecFloat.
From S2P Require Import Prelude MachineInt Status Wide Numeric Float FcMonad FcFloat PfInt.

Record pf_q_exp_format_t := mk_exp_format {
  fractional : Z; likelihood_fraction : Z; degree : nat; one : filters_q_u128_t;
  likelihood_one : Z; step : Z; table : list filters_q_u128_t; coefficients : list Z }.

(** A table entry from its value: [lo, hi]. *)
Definition entry (x : Z) : filters_q_u128_t := mk_u128 (x mod two64) (x / two64).

Definition pf_q_exp_q15_table : list filters_q_u128_t := Eval vm_compute in map entry [
  0x10000000000; 0xfa83b2db72; 0xf5257d1525; 0xefe4b99bdd; 0xeac0c6e7dd; 0xe5b906e77d;
  0xe0ccdeec2b; 0xdbfbb797db; 0xd744fccad7; 0xd2a81d91f1; 0xce248c1520; 0xc9b9bd866e;
  0xc5672a1155; 0xc12c4cca66; 0xbd08a39f58; 0xb8fbaf4763; 0xb504f333fa; 0xb123f581d3;
  0xad583eea43; 0xa9a15ab4ea; 0xa5fed6a9b1; 0xa27043030c; 0x9ef5326092; 0x9b8d39b9d5;
  0x9837f0518e; 0x94f4efa8ff; 0x91c3d373ab; 0x8ea4398b46; 0x8b95c1e3eb; 0x88980e8093;
  0x85aac367cc; 0x82cd8698ac].

Definition pf_q_exp_q15_coefficients : list Z := [
  0x10000000000; 0x10000000000; 0x8000000000; 0x2aaaaaaaab; 0xaaaaaaaab].

Definition pf_q_exp_q31_table : list filters_q_u128_t := Eval vm_compute in map entry [
  0x10000000000000000; 0xfa83b2db722a033a; 0xf5257d152486cc2c; 0xefe4b99bdcdaf5cb;
  0xeac0c6e7dd24392f; 0xe5b906e77c8348a8; 0xe0ccdeec2a94e111; 0xdbfbb797daf23755;
  0xd744fccad69d6af4; 0xd2a81d91f12ae45a; 0xce248c151f8480e4; 0xc9b9bd866e2f27a3;
  0xc5672a115506dadd; 0xc12c4cca66709456; 0xbd08a39f580c36bf; 0xb8fbaf4762fb9ee9;
  0xb504f333f9de6484; 0xb123f581d2ac2590; 0xad583eea42a14ac6; 0xa9a15ab4ea7c0ef8;
  0xa5fed6a9b15138ea; 0xa27043030c496819; 0x9ef5326091a111ae; 0x9b8d39b9d54e5539;
  0x9837f0518db8a96f; 0x94f4efa8fef70961; 0x91c3d373ab11c336; 0x8ea4398b45cd53c0;
  0x8b95c1e3ea8bd6e7; 0x88980e8092da8527; 0x85aac367cc487b15; 0x82cd8698ac2ba1d7].

Definition pf_q_exp_q31_coefficients : list Z := [
  0x0; 0x0; 0x8000000000000000; 0x2aaaaaaaaaaaaaab;
  0xaaaaaaaaaaaaaab; 0x222222222222222; 0x5b05b05b05b05b; 0xd00d00d00d00d].

Definition pf_q_exp_q15 : pf_q_exp_format_t := mk_exp_format
  40 31 4 (mk_u128 0x10000000000 0) 2147483648 23816355775 pf_q_exp_q15_table pf_q_exp_q15_coefficients.
Definition pf_q_exp_q31 : pf_q_exp_format_t := mk_exp_format
  64 63 7 (mk_u128 0 1) 9223372036854775808 399572145162582989 pf_q_exp_q31_table pf_q_exp_q31_coefficients.

(** ** Two-word helpers *)

Definition pf_q_exp_shl (a : filters_q_u128_t) (shift : Z) : filters_q_u128_t :=
  if shift =? 0 then a
  else if shift <? 64 then
    mk_u128 (u64 (Z.shiftl (lo a) shift)) (Z.lor (u64 (Z.shiftl (hi a) shift)) (Z.shiftr (lo a) (64 - shift)))
  else
    let h := u64 (Z.shiftl (lo a) (shift - 64)) in
    mk_u128 0 (if 64 <? shift then Z.lor h (Z.shiftr (hi a) (128 - shift)) else h).

Definition pf_q_exp_usub (a b : filters_q_u128_t) : filters_q_u128_t :=
  mk_u128 (u64 (lo a - lo b)) (u64 (u64 (hi a - hi b) - Z.b2z (lo a <? lo b))).

(** The denominator shifted right by one. *)
Definition halve (d : filters_q_u128_t) : filters_q_u128_t :=
  mk_u128 (Z.lor (Z.shiftr (lo d) 1) (u64 (Z.shiftl (hi d) 63))) (Z.shiftr (hi d) 1).

(** The loop from [shift] down: the quotient and what is left of the numerator. *)
Fixpoint exp_div_loop (shift : nat) (numerator denominator : filters_q_u128_t) (quotient : Z) : Z * filters_q_u128_t :=
  let take := 0 <=? pf_q_ucmp numerator denominator in
  let numerator := if take then pf_q_exp_usub numerator denominator else numerator in
  let quotient := if take then Z.lor quotient (u64 (Z.shiftl 1 (Z.of_nat shift))) else quotient in
  match shift with
  | O => (quotient, numerator)
  | S shift => exp_div_loop shift numerator (halve denominator) quotient
  end.

(** The quotient and [*remainder]. *)
Definition pf_q_exp_div (numerator denominator : filters_q_u128_t) : Z * filters_q_u128_t :=
  if pf_q_ucmp numerator denominator <? 0 then (0, numerator)
  else
    let shift := pf_q_ubits numerator - pf_q_ubits denominator in
    exp_div_loop (Z.to_nat shift) numerator (pf_q_exp_shl denominator shift) 0.

Fixpoint exp_div64_loop (shift : nat) (numerator shifted quotient : Z) : Z * Z :=
  let take := shifted <=? numerator in
  let numerator := if take then u64 (numerator - shifted) else numerator in
  let quotient := if take then Z.lor quotient (u64 (Z.shiftl 1 (Z.of_nat shift))) else quotient in
  match shift with
  | O => (quotient, numerator)
  | S shift => exp_div64_loop shift numerator (Z.shiftr shifted 1) quotient
  end.

Definition pf_q_exp_div64 (numerator denominator : Z) : Z * Z :=
  if numerator <? denominator then (0, numerator)
  else
    let shift := filters_q_bit_length numerator - filters_q_bit_length denominator in
    exp_div64_loop (Z.to_nat shift) numerator (u64 (Z.shiftl denominator shift)) 0.

Definition pf_q_exp_round_div (numerator denominator : filters_q_u128_t) : Z :=
  let r := pf_q_exp_div numerator denominator in
  u64 (r.1 + Z.b2z (0 <=? pf_q_ucmp (pf_q_exp_shl r.2 1) denominator)).

Definition pf_q_exp_mantissa (mantissa shift : Z) : filters_q_u128_t :=
  if mantissa =? 0 then mk_u128 0 0
  else if 0 <=? shift then
    (if shift <? 64 then mk_u128 (u64 (Z.shiftl mantissa shift)) (if shift =? 0 then 0 else Z.shiftr mantissa (64 - shift))
     else mk_u128 0 (u64 (Z.shiftl mantissa (shift - 64))))
  else
    let right := - shift in
    if 64 <=? right then mk_u128 0 0
    else mk_u128 (u64 (Z.shiftr mantissa right + Z.land (Z.shiftr mantissa (right - 1)) 1)) 0.

Definition pf_q_exp_coefficient (format : pf_q_exp_format_t) (i : nat) : pf_q_i128_t :=
  let c := if (i <=? 1)%nat then mk_i128 (lo (one format)) (i64 (hi (one format)))
           else mk_i128 (nth i (coefficients format) 0) 0 in
  if Nat.odd i then
    let l := u64 (u64 (Z.lnot (ilo c)) + 1) in mk_i128 l (i64 (Z.lnot (ihi c) + Z.b2z (l =? 0)))
  else c.

(** The rounded magnitude and [*negative]. *)
Definition pf_q_exp_signed_product (a : pf_q_i128_t) (b fractional : Z) : Z * bool :=
  let magnitude :=
    if ihi a <? 0 then let l := u64 (u64 (Z.lnot (ilo a)) + 1) in mk_u128 l (u64 (u64 (Z.lnot (ihi a)) + Z.b2z (l =? 0)))
    else mk_u128 (ilo a) (u64 (ihi a)) in
  let product := if negb (hi magnitude =? 0) then mk_u128 0 b else pf_q_umul (lo magnitude) b in
  let rounded := pf_q_uround product fractional in
  (rounded, (ihi a <? 0) && negb (rounded =? 0)).

(** The product and [*overflow]. *)
Definition pf_q_exp_positive_product (a b : filters_q_u128_t) : filters_q_u128_t * bool :=
  let overflow := negb (hi a =? 0) && negb (hi b =? 0) in
  (if overflow then mk_u128 0 0
   else if negb (hi a =? 0) then mk_u128 0 (lo b)
   else if negb (hi b =? 0) then mk_u128 0 (lo a)
   else pf_q_umul (lo a) (lo b), overflow).

(** ** The kernels *)

(** [for (i = degree; i-- > 0;)] *)
Definition exp_polynomial (format : pf_q_exp_format_t) (remainder : Z) : pf_q_i128_t :=
  for_down (degree format) (fun i polynomial =>
    let product := pf_q_exp_signed_product polynomial remainder (fractional format) in
    pf_q_iadd (pf_q_exp_coefficient format (i - 1)) product.1 product.2)
    (pf_q_exp_coefficient format (degree format)).

(** Cells zero and one go to libm. *)
Definition exp_result (format : pf_q_exp_format_t) (value : Z) : option Z :=
  if (value <=? 1) || (value >? likelihood_one format) then None else Some value.

Definition pf_q_exp_fixed (format : pf_q_exp_format_t) (delta : filters_q_u128_t) : option Z :=
  let division := pf_q_exp_div delta (mk_u128 (step format) 0) in
  let k := division.1 in
  if k >? 32 * (likelihood_fraction format + 1) then None
  else
    let polynomial := exp_polynomial format (lo division.2) in
    if ihi polynomial <? 0 then None
    else
      let product := pf_q_exp_positive_product (nth (Z.to_nat (Z.land k 31)) (table format) (mk_u128 0 0))
                       (mk_u128 (ilo polynomial) (u64 (ihi polynomial))) in
      if product.2 then
        let shift := Z.shiftr k 5 in
        if likelihood_fraction format <=? shift then None
        else exp_result format (Z.shiftr (likelihood_one format) shift)
      else
        let shift := 2 * fractional format - likelihood_fraction format + Z.shiftr k 5 in
        if 128 <=? shift then None else exp_result format (pf_q_uround product.1 shift).

Definition f40_polynomial (remainder : Z) : Z :=
  let format := pf_q_exp_q15 in
  for_down (degree format) (fun i polynomial =>
    u64 (nth (i - 1) (coefficients format) 0 - pf_q_uround (pf_q_umul polynomial remainder) (fractional format)))
    (nth (degree format) (coefficients format) 0).

Definition pf_q_exp_fixed_f40 (delta : filters_q_u128_t) : option Z :=
  let format := pf_q_exp_q15 in
  if negb (hi delta =? 0) || (u64 (step format * (32 * (likelihood_fraction format + 1) + 1)) <=? lo delta) then None
  else
    let division := pf_q_exp_div64 (lo delta) (step format) in
    let k := division.1 in
    let polynomial := f40_polynomial division.2 in
    let numerator := pf_q_umul (lo (nth (Z.to_nat (Z.land k 31)) (table format) (mk_u128 0 0))) polynomial in
    exp_result format (pf_q_uround numerator (2 * fractional format - likelihood_fraction format + Z.shiftr k 5)).
