(* ===== verification/PfExpSpec.v ===== *)
(** * The integer exponential computes its closed formula

    Range reduction, Horner recurrence and table product of PfExp.v in exact
    integers: no subtraction underflows, no product overflows, and the specialised
    F40 kernel of q15 equals the generic one. *)
From S2P Require Import Prelude MachineInt Wide Numeric PfInt PfExp.

(** ** Two-word helpers *)

Lemma pf_q_exp_shl_spec a k : u128_ok a -> 0 <= k < 128 -> u128_value a * 2 ^ k < two128 ->
  u128_ok (pf_q_exp_shl a k) /\ u128_value (pf_q_exp_shl a k) = u128_value a * 2 ^ k.
Proof.
  intros Ha Hk Hfit. pose proof (u128_range a Ha) as Hr. destruct Ha as [Hl Hh]. unfold pf_q_exp_shl.
  destruct (Z.eqb_spec k 0) as [->|Hk0]; [split; [done|lia]|]. destruct (Z.ltb_spec k 64).
  - destruct (ln_shift_u64_spec (lo a) k Hl ltac:(lia)) as [[Hsl Hsh] Es]. unfold ln_shift_u64, accum_unsigned in *. cbn [low high] in *.
    assert (0 < 2 ^ k) by (apply Z.pow_pos_nonneg; lia). unfold u128_value in *.
    assert (hi a * 2 ^ k < two64) by (unfold two64, two128 in *; unfold_ranges; nia).
    rewrite (u64_id (Z.shiftl (hi a) k)) by (rewrite Z.shiftl_mul_pow2 by lia; unfold two64 in *; unfold_ranges; nia).
    rewrite lor_shiftl_add.
    + cbn [lo hi]. unfold u128_ok. cbn [lo hi]. unfold two64, two128 in *. split; [split; [done|]|lia]. unfold_ranges. nia.
    + lia.
    + rewrite Z.shiftr_div_pow2 by lia. split; [apply Z.div_pos; [rlia|apply Z.pow_pos_nonneg; lia]|].
      apply Z.div_lt_upper_bound; [apply Z.pow_pos_nonneg; lia|]. rewrite <- Z.pow_add_r by lia. replace (64 - k + k) with 64 by lia. rlia.
  - replace k with (64 + (k - 64)) in Hfit by lia. rewrite Z.pow_add_r in Hfit by lia. change (2 ^ 64) with two64 in Hfit.
    assert (0 < 2 ^ (k - 64)) by (apply Z.pow_pos_nonneg; lia).
    assert (hi a = 0) as Eh by (unfold u128_value, two64, two128 in *; unfold_ranges; nia).
    unfold u128_value in *. rewrite Eh in *. rewrite Z.shiftr_0_l, Z.lor_0_r.
    assert ((if 64 <? k then u64 (Z.shiftl (lo a) (k - 64)) else u64 (Z.shiftl (lo a) (k - 64))) = lo a * 2 ^ (k - 64)) as ->.
    { rewrite Z.shiftl_mul_pow2 by lia. rewrite u64_id; [by destruct (64 <? k)|]. unfold two64, two128 in *. unfold_ranges. nia. }
    unfold u128_ok. cbn [lo hi]. replace (2 ^ k) with (two64 * 2 ^ (k - 64)) by (change two64 with (2 ^ 64); rewrite <- Z.pow_add_r by lia; f_equal; lia).
    unfold two64, two128 in *. unfold_ranges. split; [split; [lia|nia]|lia].
Qed.

Lemma pf_q_exp_usub_spec a b : u128_ok a -> u128_ok b -> u128_value b <= u128_value a ->
  u128_ok (pf_q_exp_usub a b) /\ u128_value (pf_q_exp_usub a b) = u128_value a - u128_value b.
Proof.
  intros [Hal Hah] [Hbl Hbh] Hle. unfold pf_q_exp_usub, u128_ok, u128_value, two64 in *. cbn [lo hi]. unfold_ranges.
  assert (hi b <= hi a) by lia. rewrite (u64_id (hi a - hi b)) by rlia. destruct (Z.ltb_spec (lo a) (lo b)); cbn [Z.b2z].
  - assert (u64 (lo a - lo b) = lo a - lo b + 18446744073709551616) as -> by (symmetry; apply Z.mod_unique with (-1); lia).
    rewrite u64_id by rlia. lia.
  - rewrite !u64_id by rlia. lia.
Qed.

Lemma halve_spec a : u128_ok a -> u128_ok (halve a) /\ u128_value (halve a) = u128_value a / 2.
Proof.
  intros Ha. pose proof (u128_range a Ha). destruct Ha as [Hl Hh].
  apply (u128_unique (halve a)); [unfold two128 in *; split; [apply Z.div_pos; lia|apply Z.div_lt_upper_bound; lia]| |]; unfold halve, u128_value; cbn [lo hi].
  - change 63 with (64 - 1). by rewrite word_shift by (lia || done).
  - rewrite Z.shiftr_div_pow2 by lia. change (2 ^ 1) with 2. rewrite Z.div_div by done. rewrite (Z.mul_comm 2), <- Z.div_div by done.
    rewrite Z.div_add, (Z.div_small (lo a)) by (unfold two64; rlia). done.
Qed.

(** ** Division *)

Lemma exp_div_loop_spec d (s : nat) : 0 < d -> forall n den q, u128_ok n -> u128_ok den ->
  u128_value den = d * 2 ^ Z.of_nat s -> u128_value n < 2 * u128_value den ->
  0 <= q -> q mod 2 ^ Z.of_nat (S s) = 0 -> q + u128_value n / d < two64 ->
  let r := exp_div_loop s n den q in
  r.1 = q + u128_value n / d /\ u128_ok r.2 /\ u128_value r.2 = u128_value n mod d.
Proof.
  intros Hd. induction s as [|s IH]; intros n den q Hn Hden Ed Hlt Hq Hmod Hfit; pose proof (u128_range n Hn) as HV;
    cbn [exp_div_loop]; rewrite pf_q_ucmp_spec by done; set (V := u128_value n) in *.
  - change (2 ^ Z.of_nat 0) with 1 in *. change (2 ^ Z.of_nat 1) with 2 in *.
    destruct (Z.leb_spec 0 (Z.sgn (V - u128_value den))); cbn [fst snd].
    + destruct (pf_q_exp_usub_spec n den Hn Hden) as [Hs Es]; [fold V; lia|]. fold V in Es.
      assert (V / d = 1) as E1 by (symmetry; apply Z.div_unique with (V - d); lia).
      assert (V mod d = V - d) as E2 by (symmetry; apply Z.mod_unique with 1; lia).
      rewrite E1, E2 in *. split; [|split; [done|lia]]. change (u64 (Z.shiftl 1 (Z.of_nat 0))) with 1.
      apply (lor_add_disjoint q 1 1); done.
    + rewrite (Z.div_small V), (Z.mod_small V) by lia. split; [lia|]. done.
  - rewrite (Nat2Z.inj_succ (S s)), (Z.pow_succ_r 2 (Z.of_nat (S s))) in Hmod by lia. set (P := 2 ^ Z.of_nat (S s)) in *.
    assert (0 < P) by (apply Z.pow_pos_nonneg; lia).
    assert (P = 2 * 2 ^ Z.of_nat s) as EP by (unfold P; rewrite Nat2Z.inj_succ, Z.pow_succ_r by lia; done).
    destruct (halve_spec den Hden) as [Hh Eh]. rewrite Ed in Eh. replace (d * P) with (d * 2 ^ Z.of_nat s * 2) in Eh by lia. rewrite Z.div_mul in Eh by done.
    assert (q mod P = 0) as HqP.
    { apply Z.mod_divide; [lia|]. apply Z.mod_divide in Hmod; [|lia]. destruct Hmod as [c ->]. exists (c * 2). lia. }
    destruct (Z.leb_spec 0 (Z.sgn (V - u128_value den))).
    + destruct (pf_q_exp_usub_spec n den Hn Hden) as [Hs Es]; [fold V; lia|]. fold V in Es. rewrite Ed in Es.
      assert (V / d = (V - d * P) / d + P) as E1 by (replace V with (V - d * P + P * d) at 1 by lia; by rewrite Z.div_add by lia).
      assert (V mod d = (V - d * P) mod d) as E2 by (replace V with (V - d * P + P * d) at 1 by lia; by rewrite Z.mod_add by lia).
      assert (0 <= (V - d * P) / d) by (apply Z.div_pos; lia).
      rewrite Z.shiftl_1_l. fold P. rewrite (u64_id P) by (unfold two64 in *; rlia).
      assert (Z.lor q P = q + P) as Elor.
      { apply (lor_add_disjoint q P (Z.of_nat (S (S s)))); [lia| |]; rewrite Nat2Z.inj_succ, Z.pow_succ_r by lia; fold P; [lia|done]. }
      rewrite Elor. destruct (IH (pf_q_exp_usub n den) (halve den) (q + P) Hs Hh Eh) as (R1 & R2 & R3); [lia|lia| |rewrite Es; lia|].
      * fold P. rewrite Z.add_mod, HqP, Z.mod_same by lia. done.
      * rewrite Es in *. rewrite E1, E2. split; [lia|]. auto.
    + destruct (IH n (halve den) q Hn Hh Eh) as (R1 & R2 & R3); [fold V; lia|lia|done|done|]. auto.
Qed.

Lemma bits_of_mono a b : 0 <= a <= b -> bits_of a <= bits_of b.
Proof.
  intros H. unfold bits_of. destruct (Z.eqb_spec a 0), (Z.eqb_spec b 0); try lia.
  - pose proof (Z.log2_nonneg b). lia.
  - pose proof (Z.log2_le_mono a b ltac:(lia)). lia.
Qed.

(** The shift that aligns a divisor with a dividend. *)
Lemma align_spec n d : 0 < d <= n -> n < two128 ->
  let s := bits_of n - bits_of d in 0 <= s < 128 /\ d * 2 ^ s < 2 ^ bits_of n <= two128 /\ n < 2 * (d * 2 ^ s).
Proof.
  intros H Hn s. pose proof (bits_of_mono d n ltac:(lia)) as Hm.
  destruct (bits_of_spec n ltac:(lia)) as (_ & Hnu & Hnl). destruct (bits_of_spec d ltac:(lia)) as (Hd0 & Hdu & Hdl).
  specialize (Hnl ltac:(lia)). specialize (Hdl ltac:(lia)).
  assert (0 < bits_of d) by (unfold bits_of; rewrite (proj2 (Z.eqb_neq d 0)) by lia; pose proof (Z.log2_nonneg d); lia).
  assert (bits_of n <= 128) as H128.
  { apply Z.lt_succ_r. apply (Z.pow_lt_mono_r_iff 2); [lia|lia|]. change (2 ^ Z.succ 128) with (2 * two128). assert (2 ^ bits_of n = 2 * 2 ^ (bits_of n - 1)) by (rewrite <- Z.pow_succ_r by lia; f_equal; lia). lia. }
  assert (0 < 2 ^ s) by (apply Z.pow_pos_nonneg; lia).
  assert (2 ^ bits_of n = 2 ^ bits_of d * 2 ^ s) as E1 by (rewrite <- Z.pow_add_r by lia; f_equal; lia).
  assert (2 ^ (bits_of n - 1) = 2 ^ (bits_of d - 1) * 2 ^ s) as E2 by (rewrite <- Z.pow_add_r by lia; f_equal; lia).
  assert (2 ^ bits_of n <= two128) by (change two128 with (2 ^ 128); apply Z.pow_le_mono_r; lia).
  assert (2 ^ bits_of n = 2 * 2 ^ (bits_of n - 1)) as E3 by (rewrite <- Z.pow_succ_r by lia; f_equal; lia).
  split; [lia|]. split; nia.
Qed.

Lemma pf_q_exp_div_spec n d : u128_ok n -> u128_ok d -> 0 < u128_value d -> u128_value n / u128_value d < two64 ->
  let r := pf_q_exp_div n d in
  r.1 = u128_value n / u128_value d /\ u128_ok r.2 /\ u128_value r.2 = u128_value n mod u128_value d.
Proof.
  intros Hn Hd Hpos Hfit. pose proof (u128_range n Hn) as Hr. unfold pf_q_exp_div. rewrite pf_q_ucmp_spec by done.
  destruct (Z.ltb_spec (Z.sgn (u128_value n - u128_value d)) 0).
  - cbn [fst snd]. rewrite Z.div_small, Z.mod_small by lia. auto.
  - rewrite !pf_q_ubits_spec by done.
    destruct (align_spec (u128_value n) (u128_value d) ltac:(lia) ltac:(lia)) as (Hs & Hfit' & Hlt).
    destruct (pf_q_exp_shl_spec d _ Hd Hs ltac:(lia)) as [Hsok Es].
    set (s := bits_of _ - bits_of _) in *. assert (u128_value (pf_q_exp_shl d s) = u128_value d * 2 ^ Z.of_nat (Z.to_nat s)) as Es' by (by rewrite Es, Z2Nat.id by lia).
    pose proof (exp_div_loop_spec (u128_value d) (Z.to_nat s) Hpos n (pf_q_exp_shl d s) 0 Hn Hsok Es') as Hloop.
    rewrite Z.add_0_l in Hloop. apply Hloop; [|lia|by apply Z.mod_0_l, Z.pow_nonzero; lia|done].
    lia.
Qed.

(** The one-word division is the two-word one on words. *)
Lemma exp_div64_loop_eq (s : nat) : forall n sh q, is_u64 n -> is_u64 sh ->
  exp_div64_loop s n sh q = (let r := exp_div_loop s (mk_u128 n 0) (mk_u128 sh 0) q in (r.1, lo r.2)).
Proof.
  induction s as [|s IH]; intros n sh q Hn Hsh; cbn [exp_div64_loop exp_div_loop];
    assert ((0 <=? pf_q_ucmp (mk_u128 n 0) (mk_u128 sh 0)) = (sh <=? n)) as ->
      by (unfold pf_q_ucmp; cbn [lo hi negb Z.eqb]; destruct (Z.eqb_spec n sh), (Z.ltb_spec n sh), (Z.leb_spec sh n); (done || lia));
    destruct (Z.leb_spec sh n); try done.
  - cbn [fst snd]. rewrite IH by (try apply u64_range; by apply u64_shiftr). cbv zeta.
    assert (pf_q_exp_usub (mk_u128 n 0) (mk_u128 sh 0) = mk_u128 (u64 (n - sh)) 0) as ->.
    { unfold pf_q_exp_usub. cbn [lo hi]. by rewrite (proj2 (Z.ltb_ge n sh)). }
    unfold halve. cbn [lo hi]. by rewrite Z.shiftl_0_l, Z.shiftr_0_l, Z.lor_0_r.
  - rewrite IH by (try done; by apply u64_shiftr). unfold halve. cbn [lo hi]. by rewrite Z.shiftl_0_l, Z.shiftr_0_l, Z.lor_0_r.
Qed.

Lemma word_value x : is_u64 x -> u128_ok (mk_u128 x 0) /\ u128_value (mk_u128 x 0) = x.
Proof. intros Hx. unfold u128_ok, u128_value. cbn [lo hi]. split; [split; [done|rlia]|lia]. Qed.

Lemma pf_q_exp_div64_spec n d : is_u64 n -> is_u64 d -> 0 < d -> pf_q_exp_div64 n d = (n / d, n mod d).
Proof.
  intros Hn Hd Hpos. unfold pf_q_exp_div64. destruct (Z.ltb_spec n d); [rewrite Z.div_small, Z.mod_small by rlia; done|].
  rewrite !filters_q_bit_length_spec by done. destruct (align_spec n d ltac:(lia) ltac:(unfold two128; rlia)) as (Hs & Hfit & Hlt).
  set (s := bits_of n - bits_of d) in *.
  assert (2 ^ bits_of n <= two64) as H64.
  { change two64 with (2 ^ 64). apply Z.pow_le_mono_r; [lia|]. unfold bits_of. destruct (Z.eqb_spec n 0); [lia|].
    assert (Z.log2 n < 64) by (apply Z.log2_lt_pow2; rlia). lia. }
  rewrite Z.shiftl_mul_pow2 by lia. assert (0 < 2 ^ s) by (apply Z.pow_pos_nonneg; lia).
  assert (is_u64 (d * 2 ^ s)) as Hsh by (unfold is_u64, two64 in *; nia). rewrite u64_id by done.
  rewrite exp_div64_loop_eq by done. destruct (word_value n Hn) as [Hnok Vn]. destruct (word_value _ Hsh) as [Hsok Vs].
  destruct (exp_div_loop_spec d (Z.to_nat s) Hpos (mk_u128 n 0) (mk_u128 (d * 2 ^ s) 0) 0 Hnok Hsok) as (E1 & [Hlo Hhi] & E2).
  - by rewrite Vs, Z2Nat.id by lia.
  - lia.
  - lia.
  - by apply Z.mod_0_l, Z.pow_nonzero; lia.
  - rewrite Vn. assert (n / d <= n) by (apply Z.div_le_upper_bound; [lia|unfold_ranges; nia]). unfold two64. rlia.
  - cbv zeta. rewrite E1, Vn in *. f_equal. pose proof (Z.mod_pos_bound n d Hpos). unfold u128_value, two64 in E2.
    unfold_ranges. lia.
Qed.

(** ** The closed formula *)

Section Formula.
Variable format : pf_q_exp_format_t.

(** The coefficients, c_0 and c_1 being one. *)
Definition magnitude_at (i : nat) : Z := if (i <=? 1)%nat then u128_value (one format) else nth i (coefficients format) 0.

(** m_n = c_n and m_i = c_i - round(m_(i+1) r / 2^F), from [n] down to [i = n - steps]. *)
Fixpoint horner (r : Z) (n steps : nat) : Z :=
  match steps with
  | O => magnitude_at n
  | S steps => magnitude_at (n - S steps) - half_up (horner r n steps * r) (2 ^ fractional format)
  end.

Definition exp_formula (x : Z) : option Z :=
  let k := x / step format in
  if k >? 32 * (likelihood_fraction format + 1) then None
  else exp_result format (half_up (u128_value (nth (Z.to_nat (k mod 32)) (table format) (mk_u128 0 0)) * horner (x mod step format) (degree format) (degree format))
         (2 ^ (2 * fractional format - likelihood_fraction format + k / 32))).

(** An integer of at most F + 1 bits in two words. *)
Definition unit_word (a : filters_q_u128_t) : Prop := is_u64 (lo a) /\ 0 <= hi a <= 1 /\ u128_value a <= 2 ^ fractional format.

(** What both formats have in common: scales, a table of F-bit values, and coefficients
    that dominate the rounded product of their successor. *)
Record certified : Prop := mk_certified {
  fraction_range : 0 < fractional format <= 64;
  step_range : 0 < step format < 2 ^ 63 /\ step format <= 2 ^ fractional format;
  likelihood_range : 1 <= likelihood_fraction format < 64 /\ likelihood_fraction format <= fractional format;
  one_range : unit_word (one format) /\ likelihood_one format = 2 ^ likelihood_fraction format;
  table_range : length (table format) = 32%nat /\ Forall unit_word (table format);
  coefficient_range : forall i, (i <= degree format)%nat -> 0 <= magnitude_at i <= 2 ^ fractional format /\ ((2 <= i)%nat -> magnitude_at i < two64);
  coefficient_order : forall i, (i < degree format)%nat -> half_up (magnitude_at (S i) * step format) (2 ^ fractional format) <= magnitude_at i;
}.

(** The same, decided. *)
Definition unit_word_b (a : filters_q_u128_t) : bool :=
  (0 <=? lo a) && (lo a <? two64) && (0 <=? hi a) && (hi a <=? 1) && (u128_value a <=? 2 ^ fractional format).

Definition certificate : bool :=
  (0 <? fractional format) && (fractional format <=? 64) && (0 <? step format) && (step format <? 2 ^ 63) &&
  (step format <=? 2 ^ fractional format) && (1 <=? likelihood_fraction format) && (likelihood_fraction format <? 64) &&
  (likelihood_fraction format <=? fractional format) && unit_word_b (one format) &&
  (likelihood_one format =? 2 ^ likelihood_fraction format) && (length (table format) =? 32)%nat &&
  forallb unit_word_b (table format) &&
  forallb (fun i => (0 <=? magnitude_at i) && (magnitude_at i <=? 2 ^ fractional format) && ((i <=? 1)%nat || (magnitude_at i <? two64)))
    (seq 0 (S (degree format))) &&
  forallb (fun i => half_up (magnitude_at (S i) * step format) (2 ^ fractional format) <=? magnitude_at i) (seq 0 (degree format)).

Lemma unit_word_b_sound a : unit_word_b a = true -> unit_word a.
Proof. unfold unit_word_b, unit_word. intros H. zbool. unfold two64 in *. rlia. Qed.

Lemma certificate_sound : certificate = true -> certified.
Proof.
  unfold certificate. intros H. zbool. rewrite !forallb_forall in *.
  split; try (split; lia); try done.
  - split; [by apply unit_word_b_sound|lia].
  - split; [by apply Nat.eqb_eq|]. apply List.Forall_forall. intros a Ha. apply unit_word_b_sound. auto.
  - intros i Hi. match goal with Hc : forall x, In x (seq 0 (S _)) -> _ |- _ => specialize (Hc i ltac:(apply in_seq; lia)) end.
    zbool. split; [lia|]. intros Hi2. destruct (Nat.leb_spec i 1); [lia|]. cbn [orb] in *. lia.
  - intros i Hi. match goal with Hc : forall x, In x (seq 0 (degree format)) -> _ |- _ => specialize (Hc i ltac:(apply in_seq; lia)) end. lia.
Qed.
End Formula.

Lemma certified_q15 : certified pf_q_exp_q15.
Proof. apply certificate_sound. by vm_compute. Qed.
Lemma certified_q31 : certified pf_q_exp_q31.
Proof. apply certificate_sound. by vm_compute. Qed.

(** ** Horner's recurrence *)

Definition sign_of (i : nat) : Z := if Nat.odd i then -1 else 1.

Lemma sign_of_S i : sign_of (S i) = - sign_of i.
Proof. unfold sign_of. rewrite Nat.odd_succ, <- Nat.negb_odd. by destruct (Nat.odd i). Qed.

(** Negating a two-word value by complement. *)
Lemma complement_word l h : is_u64 l -> 0 <= h <= 1 ->
  let l' := u64 (u64 (Z.lnot l) + 1) in
  is_u64 l' /\ l' + (Z.lnot h + Z.b2z (l' =? 0)) * two64 = - (l + h * two64) /\ -2 <= Z.lnot h + Z.b2z (l' =? 0) <= 0.
Proof.
  intros Hl Hh. cbv zeta. rewrite u64_lnot by done. unfold Z.lnot, Z.pred, UINT64_MAX, two64. destruct (Z.eq_dec l 0) as [->|Hn].
  - change (u64 (18446744073709551615 - 0 + 1)) with 0. cbn [Z.eqb Z.b2z]. split; [rlia|lia].
  - rewrite u64_id by rlia. rewrite (proj2 (Z.eqb_neq _ 0)) by rlia. cbn [Z.b2z]. split; [rlia|lia].
Qed.

(** The words of a signed value of at most 64 bits and a sign. *)
Lemma i128_sign a : i128_ok a -> Z.abs (i128_value a) <= two64 -> (ihi a <? 0) = (i128_value a <? 0) /\ -1 <= ihi a <= 1.
Proof. intros [Hl Hh]. unfold i128_value, two64. unfold_ranges. intros Ha. split; lia. Qed.

Lemma pf_q_exp_signed_product_spec a b F : i128_ok a -> 0 < F <= 64 -> Z.abs (i128_value a) <= 2 ^ F -> is_u64 b ->
  pf_q_exp_signed_product a b F =
  (half_up (Z.abs (i128_value a) * b) (2 ^ F), (i128_value a <? 0) && negb (half_up (Z.abs (i128_value a) * b) (2 ^ F) =? 0)).
Proof.
  intros Ha HF Hv Hb. assert (2 ^ F <= two64) as HF64 by (change two64 with (2 ^ 64); apply Z.pow_le_mono_r; lia).
  assert (0 < 2 ^ F) as HFp by (apply Z.pow_pos_nonneg; lia).
  destruct (i128_sign a Ha ltac:(lia)) as [Es Hh]. pose proof Ha as [Hl Hhi]. unfold pf_q_exp_signed_product.
  match goal with |- context [if ihi a <? 0 then ?x else ?y] => set (m := if ihi a <? 0 then x else y) end.
  assert (u128_ok m /\ u128_value m = Z.abs (i128_value a)) as [Hm Em].
  { unfold m. rewrite Es. destruct (Z.ltb_spec (i128_value a) 0).
    - unfold u128_ok, u128_value. cbn [lo hi]. unfold i128_value, two64 in *. unfold_ranges.
      rewrite u64_lnot by rlia. unfold UINT64_MAX, Z.lnot, Z.pred. assert (ihi a = -1) as -> by lia. change (u64 (- (-1) + -1)) with 0.
      destruct (Z.eq_dec (ilo a) 0) as [E0|E0].
      + rewrite E0 in *. change (u64 (18446744073709551615 - 0 + 1)) with 0. cbn [Z.eqb Z.b2z]. change (u64 (0 + 1)) with 1. lia.
      + replace (u64 (18446744073709551615 - ilo a + 1)) with (18446744073709551616 - ilo a) by (rewrite u64_id by rlia; lia).
        rewrite (proj2 (Z.eqb_neq _ 0)) by lia. cbn [Z.b2z]. change (u64 (0 + 0)) with 0. lia.
    - unfold u128_ok, u128_value. cbn [lo hi]. unfold i128_value, two64 in *. unfold_ranges. rewrite u64_id by rlia. lia. }
  clearbody m. rewrite <- Em in *. rewrite Es.
  assert (u128_ok (if negb (hi m =? 0) then mk_u128 0 b else pf_q_umul (lo m) b) /\
    u128_value (if negb (hi m =? 0) then mk_u128 0 b else pf_q_umul (lo m) b) = u128_value m * b) as [Hp Ep].
  { destruct Hm as [Hml Hmh]. destruct (Z.eqb_spec (hi m) 0) as [E0|E0]; cbn [negb].
    - destruct (pf_q_umul_spec (lo m) b Hml Hb) as [Hok ->]. split; [done|]. unfold u128_value. rewrite E0. lia.
    - unfold u128_ok, u128_value, two64 in *. cbn [lo hi]. unfold_ranges. assert (hi m = 1 /\ lo m = 0) as [-> ->] by lia. split; [split; [lia|done]|lia]. }
  rewrite pf_q_uround_spec; [by rewrite Ep|done|lia|]. rewrite Ep.
  apply Z.le_lt_trans with b; [|unfold two64; rlia]. rewrite <- (half_up_exact b (2 ^ F)) at 2 by done. apply half_up_mono; [done|]. unfold_ranges. nia.
Qed.

Section Kernel.
Variable format : pf_q_exp_format_t.
Hypothesis Hcert : certified format.
Let F := fractional format.
Let n := degree format.

Lemma scale_positive : 0 < 2 ^ F.
Proof. destruct (fraction_range _ Hcert). apply Z.pow_pos_nonneg; unfold F; lia. Qed.

Lemma scale_64 : 2 ^ F <= two64.
Proof. destruct (fraction_range _ Hcert). change two64 with (2 ^ 64). apply Z.pow_le_mono_r; unfold F; lia. Qed.

Lemma horner_range r (steps : nat) : 0 <= r < step format -> (steps <= n)%nat ->
  0 <= horner format r n steps <= magnitude_at format (n - steps).
Proof.
  intros Hr. pose proof scale_positive as HF. induction steps as [|steps IH]; intros Hs; cbn [horner].
  - rewrite Nat.sub_0_r. split; [|lia]. by apply (coefficient_range _ Hcert).
  - specialize (IH ltac:(lia)). replace (n - steps)%nat with (S (n - S steps)) in IH by lia.
    pose proof (coefficient_order _ Hcert (n - S steps) ltac:(unfold n in *; lia)) as Hord. fold F in Hord. fold F.
    assert (half_up (horner format r n steps * r) (2 ^ F) <= half_up (magnitude_at format (S (n - S steps)) * step format) (2 ^ F))
      by (apply half_up_mono; [done|nia]).
    pose proof (half_up_nonneg (horner format r n steps * r) (2 ^ F) HF ltac:(nia)). lia.
Qed.

Lemma pf_q_exp_coefficient_spec i : (i <= n)%nat ->
  i128_ok (pf_q_exp_coefficient format i) /\ i128_value (pf_q_exp_coefficient format i) = sign_of i * magnitude_at format i.
Proof.
  intros Hi. destruct (coefficient_range _ Hcert i Hi) as [Hc Hc64]. destruct (one_range _ Hcert) as [(Hol & Hoh & _) _].
  unfold pf_q_exp_coefficient. match goal with |- context [if (i <=? 1)%nat then ?x else ?y] => set (c := if (i <=? 1)%nat then x else y) end.
  assert (is_u64 (ilo c) /\ 0 <= ihi c <= 1 /\ ilo c + ihi c * two64 = magnitude_at format i) as (Hl & Hh & Ev).
  { unfold c. unfold magnitude_at in *. destruct (Nat.leb_spec i 1); cbn [ilo ihi].
    - rewrite i64_id by rlia. auto.
    - specialize (Hc64 ltac:(lia)). unfold two64 in *. split; [rlia|lia]. }
  clearbody c. unfold sign_of. destruct (Nat.odd i).
  - destruct (complement_word (ilo c) (ihi c) Hl Hh) as (Hl' & Ev' & Hb). cbv zeta in *. unfold i128_ok, i128_value. cbn [ilo ihi].
    rewrite i64_id by rlia. split; [split; [done|rlia]|lia].
  - unfold i128_ok, i128_value. split; [split; [done|rlia]|lia].
Qed.

Lemma exp_polynomial_spec r : 0 <= r < step format ->
  i128_ok (exp_polynomial format r) /\ i128_value (exp_polynomial format r) = horner format r n n.
Proof.
  intros Hr. pose proof scale_positive as HFp. pose proof scale_64 as HF64. destruct (fraction_range _ Hcert) as [HF0 HF]. fold F in HF0, HF.
  destruct (step_range _ Hcert) as [[Hst0 Hst] HstF]. fold F in HstF. change (2 ^ 63) with 9223372036854775808 in Hst.
  unfold exp_polynomial. fold n.
  destruct (for_down_rule (fun i polynomial =>
    let product := pf_q_exp_signed_product polynomial r (fractional format) in
    pf_q_iadd (pf_q_exp_coefficient format (i - 1)) product.1 product.2)
    (fun i p => (i <= n)%nat /\ i128_ok p /\ i128_value p = sign_of i * horner format r n (n - i))) with (n := n) (s := pf_q_exp_coefficient format n)
    as (_ & Hok & Ev).
  - intros i p (Hi & Hok & Ev). cbv zeta. rewrite Nat.sub_succ, Nat.sub_0_r. fold F.
    pose proof (horner_range r (n - S i) Hr ltac:(lia)) as Hm. replace (n - (n - S i))%nat with (S i) in Hm by lia.
    destruct (coefficient_range _ Hcert (S i) Hi) as [Hc _]. fold F in Hc.
    pose proof (horner_range r (n - i) Hr ltac:(lia)) as Hm'. replace (n - (n - i))%nat with i in Hm' by lia.
    assert (horner format r n (n - i) = magnitude_at format i - half_up (horner format r n (n - S i) * r) (2 ^ F)) as Estep.
    { replace (n - i)%nat with (S (n - S i)) at 1 by lia. cbn [horner]. fold F. by replace (n - S (n - S i))%nat with i by lia. }
    set (m := horner format r n (n - S i)) in *.
    assert (Z.abs (i128_value p) = m) as Eabs by (rewrite Ev; unfold sign_of; destruct (Nat.odd (S i)); lia).
    rewrite pf_q_exp_signed_product_spec; [|done|lia|lia|rlia]. rewrite Eabs. cbn [fst snd].
    set (q := half_up (m * r) (2 ^ F)) in *. assert (0 <= q) by (apply half_up_nonneg; nia).
    destruct (coefficient_range _ Hcert i ltac:(unfold n in *; lia)) as [Hci _]. fold F in Hci.
    destruct (pf_q_exp_coefficient_spec i ltac:(lia)) as [Hcok Hcv].
    assert ((if (i128_value p <? 0) && negb (q =? 0) then - q else q) = - sign_of i * q) as Eq.
    { rewrite Ev, sign_of_S. unfold sign_of. destruct (Nat.odd i); destruct (Z.eqb_spec q 0) as [E0|E0]; cbn [negb];
        rewrite ?andb_false_r, ?andb_true_r; try lia; case_if; try lia.
      assert (m = 0) as Em by lia. unfold q in E0. rewrite Em, Z.mul_0_l, half_up_0 in E0 by done. lia. }
    assert (q <= r) by (rewrite <- (half_up_exact r (2 ^ F)) by done; apply half_up_mono; [done|nia]).
    destruct (pf_q_iadd_spec (pf_q_exp_coefficient format i) q ((i128_value p <? 0) && negb (q =? 0)) Hcok) as [Hok' Ev'].
    + unfold two64 in *. rlia.
    + rewrite Eq, Hcv. unfold two64, two127, sign_of in *. destruct (Nat.odd i); lia.
    + split; [lia|]. split; [done|]. rewrite Ev', Eq, Hcv, Estep. lia.
  - destruct (pf_q_exp_coefficient_spec n ltac:(lia)) as [Hok Ev]. split; [done|]. split; [done|]. rewrite Ev, Nat.sub_diag. done.
  - split; [exact Hok|]. etransitivity; [exact Ev|]. rewrite Nat.sub_0_r. change (sign_of 0) with 1. lia.
Qed.

Lemma unit_word_high a : unit_word format a -> hi a <> 0 -> hi a = 1 /\ lo a = 0 /\ F = 64.
Proof.
  intros (Hl & Hh & Hv) Hn. pose proof scale_64. destruct (fraction_range _ Hcert) as [HF0 HF1]. fold F in HF0, HF1, Hv.
  unfold u128_value, two64 in *. unfold_ranges. assert (hi a = 1 /\ lo a = 0) as [? ?] by lia. split; [done|]. split; [done|].
  destruct (Z.eq_dec F 64); [done|]. assert (2 ^ F <= 2 ^ 63) by (apply Z.pow_le_mono_r; lia). change (2 ^ 63) with 9223372036854775808 in *. lia.
Qed.

(** The overflow flag is raised exactly by 2^64 * 2^64; below it the product is exact. *)
Lemma pf_q_exp_positive_product_spec a b : unit_word format a -> unit_word format b ->
  let p := pf_q_exp_positive_product a b in
  if p.2 then F = 64 /\ u128_value a * u128_value b = 2 ^ (2 * F)
  else u128_ok p.1 /\ u128_value p.1 = u128_value a * u128_value b.
Proof.
  intros Ha Hb. unfold pf_q_exp_positive_product. pose proof Ha as ([Hal Hah] & _). pose proof Hb as ([Hbl Hbh] & _).
  destruct (Z.eqb_spec (hi a) 0) as [Ea|Na], (Z.eqb_spec (hi b) 0) as [Eb|Nb]; cbn [negb andb fst snd].
  - destruct (pf_q_umul_spec (lo a) (lo b)) as [Hok ->]; [done..|]. split; [done|]. unfold u128_value. rewrite Ea, Eb. lia.
  - destruct (unit_word_high b Hb Nb) as (E1 & E0 & _). unfold u128_ok, u128_value. cbn [lo hi]. rewrite Ea, E1, E0. split; [split; [rlia|done]|lia].
  - destruct (unit_word_high a Ha Na) as (E1 & E0 & _). unfold u128_ok, u128_value. cbn [lo hi]. rewrite Eb, E1, E0. split; [split; [rlia|done]|lia].
  - destruct (unit_word_high a Ha Na) as (E1 & E0 & E). destruct (unit_word_high b Hb Nb) as (E1' & E0' & _).
    split; [done|]. unfold u128_value. rewrite E, E0, E1, E0', E1'. done.
Qed.

Lemma half_up_le_one a d : 0 < d -> a <= d -> half_up a d <= 1.
Proof. intros Hd H. rewrite <- (half_up_exact 1 d) by done. apply half_up_mono; lia. Qed.

Lemma exp_result_small v : v <= 1 -> exp_result format v = None.
Proof. intros H. unfold exp_result. by replace (v <=? 1) with true by lia. Qed.

(** The table product rescaled to the likelihood grid, on both branches. *)
Lemma exp_scale_spec t p s : unit_word format t -> unit_word format p -> 0 <= s ->
  (let product := pf_q_exp_positive_product t p in
   if product.2 then
     if likelihood_fraction format <=? s then None else exp_result format (Z.shiftr (likelihood_one format) s)
   else
     let shift := 2 * F - likelihood_fraction format + s in
     if 128 <=? shift then None else exp_result format (pf_q_uround product.1 shift)) =
  exp_result format (half_up (u128_value t * u128_value p) (2 ^ (2 * F - likelihood_fraction format + s))).
Proof.
  intros Ht Hp Hs. pose proof (pf_q_exp_positive_product_spec t p Ht Hp) as H. cbv zeta in *.
  destruct (likelihood_range _ Hcert) as [HL HLF]. fold F in HLF. destruct (fraction_range _ Hcert) as [HF0 HF]. fold F in HF0, HF.
  destruct (one_range _ Hcert) as [_ E1]. set (L := likelihood_fraction format) in *. set (e := 2 * F - L + s) in *.
  assert (0 < 2 ^ e) by (apply Z.pow_pos_nonneg; lia).
  destruct (pf_q_exp_positive_product t p).2.
  - destruct H as [EF Ev]. rewrite Ev. destruct (Z.leb_spec L s).
    + symmetry. apply exp_result_small, half_up_le_one; [done|]. apply Z.pow_le_mono_r; lia.
    + f_equal. rewrite E1, Z.shiftr_div_pow2 by lia. rewrite <- Z.pow_sub_r by lia.
      replace (2 ^ (2 * F)) with (2 ^ (L - s) * 2 ^ e) by (rewrite <- Z.pow_add_r by lia; f_equal; unfold e; lia).
      by rewrite half_up_exact.
  - destruct H as [Hok Ev].
    assert (u128_value t * u128_value p <= 2 ^ (2 * F)) as Hb.
    { replace (2 * F) with (F + F) by lia. rewrite Z.pow_add_r by lia. destruct Ht as ([? _] & [? _] & Ht), Hp as ([? _] & [? _] & Hp).
      fold F in Ht, Hp. apply Z.mul_le_mono_nonneg; try done; unfold u128_value, two64; lia. }
    destruct (Z.leb_spec 128 e).
    + symmetry. apply exp_result_small, half_up_le_one; [done|]. etransitivity; [exact Hb|]. apply Z.pow_le_mono_r; lia.
    + rewrite pf_q_uround_spec; [by rewrite Ev|done|unfold e; lia|]. rewrite Ev.
      apply Z.le_lt_trans with (2 ^ L); [|change two64 with (2 ^ 64); apply Z.pow_lt_mono_r; lia].
      rewrite <- (half_up_exact (2 ^ L) (2 ^ e)) by done. apply half_up_mono; [done|]. rewrite <- Z.pow_add_r by lia.
      etransitivity; [exact Hb|]. apply Z.pow_le_mono_r; unfold e; lia.
Qed.

Lemma exp_fixed_ok delta : u128_ok delta -> u128_value delta / step format < two64 ->
  pf_q_exp_fixed format delta = exp_formula format (u128_value delta).
Proof.
  intros Hd Hq. destruct (step_range _ Hcert) as [[Hst0 Hst] HstF]. change (2 ^ 63) with 9223372036854775808 in Hst.
  pose proof (u128_range delta Hd) as Hr. set (x := u128_value delta) in *.
  assert (u128_value (mk_u128 (step format) 0) = step format) as Evs by (unfold u128_value; cbn [lo hi]; lia).
  destruct (pf_q_exp_div_spec delta (mk_u128 (step format) 0)) as (Eq & Hrok & Erem); rewrite ?Evs; [done|split; [cbn; rlia|done]|done|done|].
  rewrite Evs in Eq, Erem. fold x in Eq, Erem. unfold pf_q_exp_fixed, exp_formula. cbv zeta. rewrite Eq.
  set (k := x / step format) in *. assert (0 <= k) by (apply Z.div_pos; lia).
  pose proof (Z.mod_pos_bound x (step format) ltac:(lia)) as Hm.
  set (rest := (pf_q_exp_div delta (mk_u128 (step format) 0)).2) in *.
  assert (lo rest = x mod step format) as ->.
  { destruct Hrok as [Hl Hh]. unfold u128_value, two64 in Erem. unfold_ranges. assert (hi rest = 0) by lia. lia. }
  destruct (k >? 32 * (likelihood_fraction format + 1)); [done|].
  destruct (exp_polynomial_spec (x mod step format) Hm) as [[Hpl Hph] Epv].
  pose proof (horner_range (x mod step format) n Hm ltac:(lia)) as Hh. rewrite Nat.sub_diag in Hh.
  destruct (coefficient_range _ Hcert 0%nat ltac:(lia)) as [[_ H1] _]. fold F in H1. pose proof scale_64.
  set (p := exp_polynomial format (x mod step format)) in *. set (m := horner format (x mod step format) n n) in *.
  fold n. fold m. unfold i128_value, two64 in Epv. unfold two64 in *. unfold_ranges.
  replace (ihi p <? 0) with false by lia. rewrite (u64_id (ihi p)) by rlia.
  change 31 with (2 ^ 5 - 1). rewrite land_mask by lia. rewrite Z.shiftr_div_pow2 by lia. change (2 ^ 5) with 32.
  destruct (table_range _ Hcert) as [Hlen Htab].
  assert (unit_word format (nth (Z.to_nat (k mod 32)) (table format) (mk_u128 0 0))) as Ht.
  { rewrite List.Forall_forall in Htab. apply Htab, nth_In. pose proof (Z.mod_pos_bound k 32 ltac:(lia)). lia. }
  assert (u128_value (mk_u128 (ilo p) (ihi p)) = m) as Ep by (unfold u128_value, two64; cbn [lo hi]; lia).
  assert (unit_word format (mk_u128 (ilo p) (ihi p))) as Hp by (split; [cbn; rlia|]; rewrite Ep; fold F; cbn; lia).
  pose proof (exp_scale_spec _ _ (k / 32) Ht Hp ltac:(apply Z.div_pos; lia)) as E. rewrite Ep in E. exact E.
Qed.
End Kernel.

(** ** The F40 kernel *)

Lemma q15_coefficient i : (i <= 4)%nat -> nth i pf_q_exp_q15_coefficients 0 = magnitude_at pf_q_exp_q15 i.
Proof. intros Hi. do 5 (destruct i as [|i]; [done|]). lia. Qed.

Lemma f40_polynomial_spec r : 0 <= r < step pf_q_exp_q15 ->
  f40_polynomial r = horner pf_q_exp_q15 r 4 4.
Proof.
  intros Hr. pose proof certified_q15 as Hcert. unfold f40_polynomial. cbn [degree pf_q_exp_q15 coefficients].
  apply (for_down_rule _ (fun i p => (i <= 4)%nat /\ p = horner pf_q_exp_q15 r 4 (4 - i))) with (n := 4%nat); [|done].
  intros i p (Hi & ->). rewrite Nat.sub_succ, Nat.sub_0_r. split; [lia|].
  pose proof (horner_range _ Hcert r (4 - S i) Hr ltac:(cbn; lia)) as Hm. cbn [degree pf_q_exp_q15] in Hm.
  pose proof (horner_range _ Hcert r (4 - i) Hr ltac:(cbn; lia)) as Hm'. cbn [degree pf_q_exp_q15] in Hm'.
  destruct (coefficient_range _ Hcert (4 - (4 - S i))%nat ltac:(cbn; lia)) as [Hc _].
  destruct (coefficient_range _ Hcert (4 - (4 - i))%nat ltac:(cbn; lia)) as [Hc' _].
  assert (horner pf_q_exp_q15 r 4 (4 - i) = magnitude_at pf_q_exp_q15 i - half_up (horner pf_q_exp_q15 r 4 (4 - S i) * r) (2 ^ 40)) as Estep.
  { replace (4 - i)%nat with (S (4 - S i)) at 1 by lia. cbn [horner]. by replace (4 - S (4 - S i))%nat with i by lia. }
  rewrite q15_coefficient by lia. cbn [fractional pf_q_exp_q15] in *. change (2 ^ 40) with 1099511627776 in *. cbn [step pf_q_exp_q15] in Hr.
  set (m := horner pf_q_exp_q15 r 4 (4 - S i)) in *.
  destruct (pf_q_umul_spec m r) as [Hok Ev]; [rlia|rlia|].
  assert (half_up (m * r) 1099511627776 <= r) by (rewrite <- (half_up_exact r 1099511627776) at 2 by done; apply half_up_mono; [done|nia]).
  rewrite pf_q_uround_spec; [|done|lia|]; rewrite Ev; change (2 ^ 40) with 1099511627776; [|unfold two64; lia].
  rewrite Estep in *. apply u64_id. rlia.
Qed.

Lemma f40_ok delta : u128_ok delta -> pf_q_exp_fixed_f40 delta = exp_formula pf_q_exp_q15 (u128_value delta).
Proof.
  intros [Hl Hh]. pose proof certified_q15 as Hcert. unfold pf_q_exp_fixed_f40. cbv zeta.
  change (u64 (step pf_q_exp_q15 * (32 * (likelihood_fraction pf_q_exp_q15 + 1) + 1))) with 24411764669375.
  assert (forall x, x / step pf_q_exp_q15 > 1024 <-> 24411764669375 <= x) as Hcut.
  { intros x. cbn [step pf_q_exp_q15]. pose proof (Z.div_mod x 23816355775 ltac:(done)). pose proof (Z.mod_pos_bound x 23816355775 ltac:(done)). lia. }
  unfold exp_formula. cbv zeta. change (32 * (likelihood_fraction pf_q_exp_q15 + 1)) with 1024.
  destruct (Z.eqb_spec (hi delta) 0) as [E0|N0]; cbn [negb orb].
  2:{ replace (_ >? 1024) with true; [done|]. symmetry. apply Z.gtb_lt, Z.gt_lt, Hcut. unfold u128_value, two64. unfold_ranges. lia. }
  assert (u128_value delta = lo delta) as -> by (unfold u128_value; rewrite E0; lia). specialize (Hcut (lo delta)).
  destruct (Z.leb_spec 24411764669375 (lo delta)).
  { replace (_ >? 1024) with true; [done|]. symmetry. apply Z.gtb_lt, Z.gt_lt, Hcut. lia. }
  rewrite pf_q_exp_div64_spec by (done || (cbn; rlia)). cbn [fst snd].
  set (k := lo delta / step pf_q_exp_q15) in *. set (r := lo delta mod step pf_q_exp_q15).
  replace (k >? 1024) with false by lia. assert (0 <= k) by (apply Z.div_pos; [rlia|done]).
  assert (0 <= r < step pf_q_exp_q15) as Hr by (apply Z.mod_pos_bound; done).
  rewrite f40_polynomial_spec by done. change 31 with (2 ^ 5 - 1). rewrite land_mask by lia. rewrite Z.shiftr_div_pow2 by lia. change (2 ^ 5) with 32.
  pose proof (horner_range _ Hcert r 4 Hr ltac:(cbn; lia)) as Hm. change (degree pf_q_exp_q15) with 4%nat in *. set (m := horner pf_q_exp_q15 r 4 4) in *.
  change (magnitude_at pf_q_exp_q15 (4 - 4)) with 1099511627776 in Hm.
  destruct (table_range _ Hcert) as [Hlen Htab]. set (t := nth (Z.to_nat (k mod 32)) (table pf_q_exp_q15) (mk_u128 0 0)).
  assert (unit_word pf_q_exp_q15 t) as (Htl & Hth & Htv).
  { rewrite List.Forall_forall in Htab. apply Htab, nth_In. pose proof (Z.mod_pos_bound k 32 ltac:(lia)). lia. }
  cbn [fractional likelihood_fraction pf_q_exp_q15] in *. change (2 ^ 40) with 1099511627776 in *.
  assert (u128_value t = lo t) as -> by (unfold u128_value, two64 in *; unfold_ranges; lia).
  assert (lo t <= 1099511627776) by (unfold u128_value, two64 in *; unfold_ranges; lia).
  destruct (pf_q_umul_spec (lo t) m) as [Hok Ev]; [rlia|rlia|]. change (2 * 40 - 31) with 49.
  assert (0 <= k / 32) by (apply Z.div_pos; lia).
  assert (0 < 2 ^ (49 + k / 32)) by (apply Z.pow_pos_nonneg; lia).
  rewrite pf_q_uround_spec; [by rewrite Ev|done|lia|]. rewrite Ev.
  apply Z.le_lt_trans with (2 ^ 31); [|done]. rewrite <- (half_up_exact (2 ^ 31) (2 ^ (49 + k / 32))) by done.
  apply half_up_mono; [done|]. rewrite <- Z.pow_add_r by lia. apply Z.le_trans with (2 ^ 80); [change (2 ^ 80) with (1099511627776 * 1099511627776); nia|].
  apply Z.pow_le_mono_r; lia.
Qed.

(** ** Properties *)

(** C18. The generic integer exponential of both formats is its closed formula: for every
    nonnegative fixed-point argument the range reduction is the exact quotient and
    remainder by the step, every Horner subtraction stays nonnegative and every rounded
    product is half-up, and the table product is rescaled exactly, the single product
    that leaves 128 bits included; results of zero or one cell ask for libm. *)
Theorem pf_q_exp_fixed_spec (format : pf_q_exp_format_t) (delta : filters_q_u128_t)
  (Hformat : format = pf_q_exp_q15 \/ format = pf_q_exp_q31) (Hok : u128_ok delta)
  (Hquotient : u128_value delta / step format < two64) :
  pf_q_exp_fixed format delta = exp_formula format (u128_value delta).
Proof. destruct Hformat as [->| ->]; apply exp_fixed_ok; auto using certified_q15, certified_q31. Qed.

(** C20. The specialised F40 kernel of q15, with its 64-bit division and unsigned
    recurrence, returns what the generic two-word kernel returns, for every argument the
    generic kernel's quotient admits, refusals included. *)
Theorem pf_q_exp_f40_equivalent (delta : filters_q_u128_t) (Hok : u128_ok delta)
  (Hquotient : u128_value delta / step pf_q_exp_q15 < two64) :
  pf_q_exp_fixed_f40 delta = pf_q_exp_fixed pf_q_exp_q15 delta.
Proof. rewrite f40_ok, exp_fixed_ok by auto using certified_q15. done. Qed.

(** exp(-1) on the F64 grid, and a zero argument, whose product is exactly 2^128. *)
Lemma pf_q_exp_fixed_witness :
  pf_q_exp_fixed pf_q_exp_q31 (mk_u128 0 1) = exp_formula pf_q_exp_q31 two64 /\
  exp_formula pf_q_exp_q31 two64 = Some 3393088950634442634.
Proof.
  split; [|by vm_compute]. apply (pf_q_exp_fixed_spec pf_q_exp_q31 (mk_u128 0 1)); [by right|split; done|by vm_compute].
Defined.

Lemma pf_q_exp_f40_witness :
  pf_q_exp_fixed_f40 (mk_u128 1099511627776 0) = pf_q_exp_fixed pf_q_exp_q15 (mk_u128 1099511627776 0) /\
  pf_q_exp_fixed_f40 (mk_u128 1099511627776 0) = Some 790015084.
Proof.
  split; [|by vm_compute]. apply (pf_q_exp_f40_equivalent (mk_u128 1099511627776 0)); [split; done|by vm_compute].
Defined.
