(* ===== verification/PfWeights.v ===== *)
(** * Likelihoods and weights of the q particle filter

    The input boundary of the exponential (pf_q_exp_impl.h), the exponent
    differences of pf_q_likelihood_impl.h, and PQ(likelihood), PQ(reweight) and the
    effective sample size.  Weights are scaled so that the largest is the largest
    signal.  expf and exp are a parameter of the model, used for the cells that the
    integer exponential leaves to them. *)
From Stdlib Require Import SpecFloat.
From S2P Require Import Prelude MachineInt Status Wide Numeric Float Matrix FcMonad FcFloat FcVariants Decomp PfInt UkfBits PfSpan PfResample PfExp.

Section Format.
Variable f : q_format.

Definition exp_format : pf_q_exp_format_t := match f with Q15 => pf_q_exp_q15 | Q31 => pf_q_exp_q31 end.
Definition U_LIKELIHOOD_SCALE : Z := match f with Q15 => 2147483648 | Q31 => 9223372036854775808 end.

(** The kernel that the boundary of each format calls. *)
Definition exp_kernel (fixed : filters_q_u128_t) : option Z :=
  match f with Q15 => pf_q_exp_fixed_f40 fixed | Q31 => pf_q_exp_fixed pf_q_exp_q31 fixed end.

(** A magnitude's bits on the exponential's grid. *)
Definition fixed_from_bits (magnitude : Z) : filters_q_u128_t :=
  let encoded := Z.shiftr magnitude (fraction_bits f) in
  pf_q_exp_mantissa (Z.lor (Z.land magnitude (fraction_mask f)) (if encoded =? 0 then 0 else implicit_bit f))
    (if encoded =? 0 then match f with Q15 => -109 | Q31 => -1010 end
     else encoded - match f with Q15 => 110 | Q31 => 1011 end).

(** Above this argument exp rounds to zero: 0x1.62e432p+4f, 0x1.62e42fefa39f0p+5. *)
Definition exp_cutoff : spec_float :=
  float_of_bits (work_format f) match f with Q15 => 0x41b17219 | Q31 => 0x40462e42fefa39f0 end.

(** [None] is a zero return: the caller takes its libm path. *)
Definition pf_exp_neg_try (delta : spec_float) : option Z :=
  if feq delta fzero then Some U_LIKELIHOOD_SCALE
  else if match delta with S754_nan => true | _ => flt delta fzero end then None
  else if match delta with S754_infinity _ => true | _ => false end then
    (if flt fzero delta then Some 0 else None)
  else if flt exp_cutoff delta then Some 0
  else option_map (word f) (exp_kernel (fixed_from_bits (bits_from f delta))).

(** PQ(likelihood_delta_try) *)
Definition pf_likelihood_delta_try (high low : spec_float) : option Z :=
  let av := bits_from f high in
  let bv := bits_from f low in
  if av =? bv then Some (likelihood_one exp_format)
  else
    let negative_a := negb (Z.shiftr av (sign_bit f) =? 0) in
    let negative_b := negb (Z.shiftr bv (sign_bit f) =? 0) in
    let am := Z.land av (magnitude_mask f) in
    let bm := Z.land bv (magnitude_mask f) in
    let limit := match f with Q15 => 0x4e800000 | Q31 => 0x43a0000000000000 end in
    if (limit <=? am) || (limit <=? bm) then Some 0
    else
      let a := fixed_from_bits am in
      let b := fixed_from_bits bm in
      let delta := if negb (Bool.eqb negative_a negative_b) then pf_q_uadd a b
                   else if negative_a then pf_q_exp_usub b a else pf_q_exp_usub a b in
      if (lo delta =? 0) && (hi delta =? 0) then Some (likelihood_one exp_format)
      else
        let cutoff := pf_q_umul (step exp_format) (32 * (likelihood_fraction exp_format + 1) + 1) in
        if 0 <=? pf_q_ucmp delta cutoff then Some 0
        else exp_kernel delta.

Section Libm.
(** expf(-x) or exp(-x). *)
Variable EXP_NEG : spec_float -> spec_float.

Definition pf_likelihood (delta : spec_float) : Z :=
  match pf_exp_neg_try delta with
  | Some value => value
  | None =>
      let probability := EXP_NEG delta in
      u64 (to_int (fadd (work_format f) (fmul (work_format f) probability (of_int (work_format f) U_LIKELIHOOD_SCALE))
                     (one_half (work_format f))))
  end.

Definition pf_likelihood_pair (high low : spec_float) : Z :=
  match pf_likelihood_delta_try high low with
  | Some value => value
  | None => pf_likelihood (fsub (work_format f) high low)
  end.

(** The first loop: the checks, and the lowest exponent of a particle with weight. *)
Fixpoint reweight_scan (weights : list Z) (exponents : list spec_float) (lowest : option spec_float)
    : linears_status_t * option spec_float :=
  match weights, exponents with
  | w :: ws, e :: es =>
      if w <? 0 then (LINEARS_ERROR_DOMAIN, lowest)
      else if negb (ukf_isfinite f e) then (LINEARS_ERROR_RANGE, lowest)
      else
        let better := match lowest with None => true | Some l => pf_exponent_less f e l end in
        reweight_scan ws es (if negb (w =? 0) && better then Some e else lowest)
  | _, _ => (LINEARS_OK, lowest)
  end.

(** The second loop leaves the likelihood of each particle in its exponent's slot. *)
Definition cached_likelihoods (weights : list Z) (exponents : list spec_float) (lowest : spec_float) : list Z :=
  zip_with (fun w e => word f (if w =? 0 then 0 else pf_likelihood_pair e lowest)) weights exponents.

Definition weight_products (weights likelihoods : list Z) : list filters_q_u128_t :=
  zip_with (fun w l => pf_q_umul l (u64 w)) weights likelihoods.

Definition largest_product (products : list filters_q_u128_t) : filters_q_u128_t :=
  fold_left (fun maximum product => if 0 <? pf_q_ucmp product maximum then product else maximum) products (mk_u128 0 0).

(** The third loop: one product scaled by the shared quotient. *)
Definition scaled_weight (maximum : filters_q_u128_t) (multiplier shift : Z) (product : filters_q_u128_t) : Z :=
  let value := if pf_q_ucmp product maximum =? 0 then U_SIGNAL_MAX f
               else pf_q_uround (pf_q_umul32 product multiplier) shift in
  i_signal f (if U_SIGNAL_MAX f <? value then U_SIGNAL_MAX f else value).

(** The status and [staged], written only on success. *)
Definition pf_reweight (weights : list Z) (exponents : list spec_float) (staged : list Z) : linears_status_t * list Z :=
  let scan := reweight_scan weights exponents None in
  require scan.1 staged
  (match scan.2 with
   | None => (LINEARS_ERROR_DOMAIN, staged)
   | Some lowest =>
       let products := weight_products weights (cached_likelihoods weights exponents lowest) in
       let maximum := largest_product products in
       let shift := pf_q_ubits maximum in
       let numerator := pf_q_exp_shl (mk_u128 (U_SIGNAL_MAX f) 0) shift in
       let multiplier := u32 (pf_q_exp_round_div numerator maximum) in
       (LINEARS_OK, map (scaled_weight maximum multiplier shift) products ++ drop (length products) staged)
   end).
End Libm.

(** PQ(unsigned_value) *)
Definition pf_unsigned_value (value : filters_q_u128_t) : spec_float :=
  if hi value =? 0 then of_int (work_format f) (lo value)
  else fadd (work_format f)
         (fmul (work_format f) (of_int (work_format f) (hi value)) (of_int (work_format f) two64))
         (of_int (work_format f) (lo value)).

Definition square_sum (weights : list Z) : filters_q_u128_t :=
  fold_left (fun squares w => pf_q_uadd squares (mk_u128 (u64 (u64 w * u64 w)) 0)) weights (mk_u128 0 0).

(** The weights' descriptor and contents, and the result cell. *)
Definition pf_effective_sample_size (abi : pf_abi) (descriptor : linears_matrix_t) (weights : list Z) (out : option spec_float)
    : linears_status_t * option spec_float :=
  match out with
  | None => (LINEARS_ERROR_ARGUMENT, None)
  | Some _ =>
      let r := ukf_matrix (pf_target abi) [] descriptor 0 1 (sizeof_signal f) (align_signal abi) UKF_INPUT in
      require r.1 out (
      let total := pf_weight_total weights in
      require total.1 out (
      let sum := pf_unsigned_value total.2 in
      (LINEARS_OK, Some (fmul (work_format f) (fdiv (work_format f) sum (pf_unsigned_value (square_sum weights))) sum))))
  end.
End Format.
