(* ===== verification/PfLikelihoodSpec.v ===== *)
(** * The exponent differences of the q particle filter

    The bit fields of two exponents are moved to the exponential's grid with one
    rounding each, subtracted in two words and handed to the certified kernel.
    Nothing overflows below the early cutoffs, and the cutoffs are harmless. *)
From Stdlib Require Import SpecFloat.
From S2P Require Import Prelude MachineInt Status Wide Numeric Float Matrix FcMonad FcFloat FcVariants Decomp PfInt FloatParts FloatGrid FloatBits.
From S2P Require Import UkfBits UkfBitsSpec PfSpan PfResample PfExp PfExpSpec PfWeights.

(** A mantissa of at most 53 bits shifted either way, rounded half up to the right. *)
Lemma pf_q_exp_mantissa_spec m shift : 0 <= m < 2 ^ 53 -> (0 <= shift -> shift < 128 /\ m * 2 ^ shift < two128) ->
  u128_ok (pf_q_exp_mantissa m shift) /\
  u128_value (pf_q_exp_mantissa m shift) = (if 0 <=? shift then m * 2 ^ shift else half_up m (2 ^ (- shift))).
Proof.
  intros Hm Hleft. change (2 ^ 53) with 9007199254740992 in Hm. unfold pf_q_exp_mantissa.
  destruct (Z.eqb_spec m 0) as [->|Hn]; [split; [done|case_if; [done|symmetry; apply half_up_0, Z.pow_pos_nonneg; zbool; lia]]|].
  destruct (Z.leb_spec 0 shift) as [Hs|Hs].
  - destruct (Hleft Hs) as [Hs128 Hfit]. assert (0 < 2 ^ shift) by (apply Z.pow_pos_nonneg; lia).
    destruct (pf_q_exp_shl_spec (mk_u128 m 0) shift) as [Hok Ev]; [split; [cbn; rlia|done]|lia|unfold u128_value; cbn [lo hi]; lia|].
    unfold pf_q_exp_shl in Hok, Ev. cbn [lo hi] in Hok, Ev. rewrite !Z.shiftl_0_l, !Z.shiftr_0_l, !Z.lor_0_r in Hok, Ev. change (u64 0) with 0 in Hok, Ev.
    rewrite !Z.lor_0_l in Hok, Ev. unfold u128_value in Ev at 2. cbn [lo hi] in Ev. rewrite Z.mul_0_l, Z.add_0_r in Ev.
    destruct (Z.eqb_spec shift 0) as [E0|N0].
    + rewrite E0 in *. change (0 <? 64) with true. cbn iota. rewrite Z.shiftl_0_r, u64_id by rlia. split; [exact Hok|exact Ev].
    + destruct (Z.ltb_spec shift 64); [split; [exact Hok|exact Ev]|]. destruct (64 <? shift); split; [exact Hok|exact Ev|exact Hok|exact Ev].
  - destruct (Z.leb_spec 64 (- shift)) as [Hbig|Hsmall].
    + split; [done|]. symmetry. apply Z.div_small. assert (2 ^ 64 <= 2 ^ (- shift)) by (apply Z.pow_le_mono_r; lia). change (2 ^ 64) with 18446744073709551616 in *. lia.
    + rewrite half_up_pow2 by lia. rewrite land_one, !Z.shiftr_div_pow2 by lia. assert (0 < 2 ^ (- shift)) by (apply Z.pow_pos_nonneg; lia).
      assert (0 <= m / 2 ^ (- shift) <= m) by (split; [apply Z.div_pos; lia|apply Z.div_le_upper_bound; nia]).
      pose proof (Z.mod_pos_bound (m / 2 ^ (- shift - 1)) 2 ltac:(lia)). rewrite u64_id by rlia.
      unfold u128_ok, u128_value. cbn [lo hi]. split; [split; [rlia|done]|lia].
Qed.

Lemma exp_result_range format value v : exp_result format value = Some v -> 1 < v <= likelihood_one format.
Proof. unfold exp_result. intros H. case_if_in H; [done|]. simplify_eq. zbool. lia. Qed.

Section Format.
Variable f : q_format.

Lemma exp_certified : certified (exp_format f).
Proof. destruct f; [apply certified_q15|apply certified_q31]. Qed.

Lemma exp_kernel_ok d : u128_ok d -> u128_value d / step (exp_format f) < two64 ->
  exp_kernel f d = exp_formula (exp_format f) (u128_value d).
Proof. intros Hd Hq. unfold exp_kernel. destruct f; [by apply f40_ok|apply exp_fixed_ok; [apply certified_q31|done|done]]. Qed.

Lemma exp_kernel_range d v : exp_kernel f d = Some v -> 0 <= v <= U_LIKELIHOOD_SCALE f.
Proof.
  assert (U_LIKELIHOOD_SCALE f = likelihood_one (exp_format f)) as -> by by destruct f. intros H.
  enough (1 < v <= likelihood_one (exp_format f)) by lia. unfold exp_kernel in H. destruct f.
  - unfold pf_q_exp_fixed_f40 in H. cbv zeta in H. case_if_in H; [done|]. by apply exp_result_range in H.
  - unfold pf_q_exp_fixed in H. cbv zeta in H. repeat (case_if_in H; [done|]). case_if_in H; case_if_in H; try done; by apply exp_result_range in H.
Qed.

(** A magnitude on the exponential's grid, rounded half up, and a signed value. *)
Definition fixed_magnitude (v : Z) : Z := half_up (v * 2 ^ fractional (exp_format f)) (grid_one f).
Definition fixed (v : Z) : Z := if v <? 0 then - fixed_magnitude (- v) else fixed_magnitude v.

(** 2^(p+6): no difference below it overflows, distinct values beyond it are far apart. *)
Definition huge : Z := 2 ^ (U_MANT_DIG f + 6) * grid_one f.

Lemma grid_one_pos : 0 < grid_one f.
Proof. unfold grid_one. apply Z.pow_pos_nonneg; [lia|]. by destruct f. Qed.

Lemma scale_F_pos : 0 < 2 ^ fractional (exp_format f).
Proof. by destruct f. Qed.

Lemma fixed_magnitude_mono a b : a <= b -> fixed_magnitude a <= fixed_magnitude b.
Proof. intros H. apply half_up_mono; [apply grid_one_pos|]. pose proof scale_F_pos. nia. Qed.

Lemma fixed_magnitude_nonneg a : 0 <= a -> 0 <= fixed_magnitude a.
Proof. intros H. apply half_up_nonneg; [apply grid_one_pos|]. pose proof scale_F_pos. nia. Qed.

Lemma fixed_mono a b : a <= b -> fixed a <= fixed b.
Proof.
  intros H. unfold fixed. destruct (Z.ltb_spec a 0), (Z.ltb_spec b 0); [|pose proof (fixed_magnitude_nonneg (- a)); pose proof (fixed_magnitude_nonneg b); lia|lia|].
  - pose proof (fixed_magnitude_mono (- b) (- a)). lia.
  - by apply fixed_magnitude_mono.
Qed.

Lemma fixed_magnitude_range v : 0 <= v < huge -> 0 <= fixed_magnitude v <= 2 ^ (U_MANT_DIG f + 6 + fractional (exp_format f)).
Proof.
  intros Hv. split; [apply fixed_magnitude_nonneg; lia|]. unfold fixed_magnitude.
  rewrite <- (half_up_exact (2 ^ (U_MANT_DIG f + 6 + fractional (exp_format f))) (grid_one f)) by apply grid_one_pos. apply half_up_mono; [apply grid_one_pos|].
  rewrite Z.pow_add_r by (by destruct f). unfold huge in Hv. pose proof scale_F_pos. nia.
Qed.

Lemma two_magnitudes_fit : 2 * 2 ^ (U_MANT_DIG f + 6 + fractional (exp_format f)) < two128.
Proof. destruct f; vm_compute; reflexivity. Qed.

(** The fields of a magnitude moved to the grid. *)
Lemma fixed_from_bits_spec mag : 0 <= mag -> magnitude_value (work_format f) mag < huge ->
  u128_ok (fixed_from_bits f mag) /\ u128_value (fixed_from_bits f mag) = fixed_magnitude (magnitude_value (work_format f) mag).
Proof.
  intros Hmag Hhuge. pose proof (hidden_pos (work_format f)) as Hh. pose proof (Z.mod_pos_bound mag (hidden_bit (work_format f)) Hh) as HR.
  unfold fixed_from_bits. rewrite shiftr_exponent, fraction_of. set (E := mag / hidden_bit (work_format f)) in *. set (R := mag mod hidden_bit (work_format f)) in *.
  pose proof (Z.div_mod mag (hidden_bit (work_format f)) ltac:(lia)) as D. fold E R in D. assert (0 <= E) by (apply Z.div_pos; lia).
  set (M := Z.lor R (if E =? 0 then 0 else implicit_bit f)).
  assert (M = if E =? 0 then R else R + hidden_bit (work_format f)) as EM.
  { unfold M. destruct (E =? 0); [by rewrite Z.lor_0_r|]. pose proof (significand_of f mag) as S. rewrite fraction_of in S. exact S. }
  set (shift := if E =? 0 then _ else _). set (c := match f with Q15 => 110 | Q31 => 1011 end).
  assert (shift = Z.max E 1 - c) as Eshift by (unfold shift, c; destruct (Z.eqb_spec E 0); destruct f; lia).
  assert (magnitude_value (work_format f) mag = M * 2 ^ (Z.max E 1 - 1)) as Ev.
  { unfold magnitude_value. fold E R. rewrite EM. destruct (Z.eqb_spec E 0) as [E0|N0].
    - rewrite (proj2 (Z.ltb_lt _ _)) by nia. rewrite E0. change (Z.max 0 1 - 1) with 0. change (2 ^ 0) with 1. nia.
    - rewrite (proj2 (Z.ltb_ge _ _)) by nia. f_equal. f_equal. lia. }
  assert (0 <= M < 2 ^ 53) as HM.
  { rewrite EM. rewrite hidden_is in HR |- *. change (2 ^ 53) with 9007199254740992. destruct (E =? 0); destruct f; lia. }
  assert (fractional (exp_format f) + c = 1 - emin (prec (work_format f)) (emax (work_format f))) as Ec by (unfold c; by destruct f).
  assert (fixed_magnitude (magnitude_value (work_format f) mag) = if 0 <=? shift then M * 2 ^ shift else half_up M (2 ^ (- shift))) as Efix.
  { unfold fixed_magnitude, grid_one. rewrite Ev. assert (0 <= fractional (exp_format f)) by (by destruct f). assert (0 < c) by (unfold c; by destruct f).
    rewrite <- Z.mul_assoc, <- Z.pow_add_r by lia.
    destruct (Z.leb_spec 0 shift).
    - replace (Z.max E 1 - 1 + fractional (exp_format f)) with (shift + - emin (prec (work_format f)) (emax (work_format f))) by lia.
      rewrite Z.pow_add_r, Z.mul_assoc by lia. apply half_up_exact, Z.pow_pos_nonneg; lia.
    - replace (- emin (prec (work_format f)) (emax (work_format f))) with (- shift + (Z.max E 1 - 1 + fractional (exp_format f))) by lia.
      rewrite (Z.pow_add_r 2 (- shift)) by lia. apply half_up_scale; apply Z.pow_pos_nonneg; lia. }
  rewrite Efix. apply pf_q_exp_mantissa_spec; [done|]. intros Hs.
  pose proof (fixed_magnitude_range (magnitude_value (work_format f) mag) ltac:(split; [apply magnitude_value_nonneg; [apply _|lia]|done])) as Hr.
  rewrite Efix, (proj2 (Z.leb_le 0 shift)) in Hr by done. pose proof two_magnitudes_fit. split; [|lia].
  destruct (Z.eqb_spec E 0) as [E0|N0]; [exfalso; assert (1 < c) as Hc1 by (unfold c; by destruct f); clear -Hs Eshift E0 Hc1; lia|].
  assert (hidden_bit (work_format f) <= M) by (rewrite EM; lia).
  assert (2 ^ shift < 2 ^ 128); [|by apply (Z.pow_lt_mono_r_iff 2)]. change (2 ^ 128) with two128. assert (0 < 2 ^ shift) by (apply Z.pow_pos_nonneg; lia). nia.
Qed.

(** What the difference of two exponents evaluates to; [None] is the libm path. *)
Definition likelihood_reference (high low : Z) : option Z :=
  if high =? low then Some (U_LIKELIHOOD_SCALE f)
  else if (huge <=? Z.abs high) || (huge <=? Z.abs low) then Some 0
  else
    let d := fixed high - fixed low in
    if d =? 0 then Some (U_LIKELIHOOD_SCALE f)
    else if step (exp_format f) * (32 * (likelihood_fraction (exp_format f) + 1) + 1) <=? d then Some 0
    else exp_formula (exp_format f) d.

Lemma fixed_sign x : work_valid f x ->
  fixed (work_grid f x) = (if float_sign x then - fixed_magnitude (Z.abs (work_grid f x)) else fixed_magnitude (Z.abs (work_grid f x))).
Proof.
  intros Hx. pose proof (grid_sign (work_format f) x Hx) as Es. fold (work_grid f x) in Es. unfold fixed. set (v := work_grid f x) in *.
  assert (fixed_magnitude 0 = 0) as E0 by (unfold fixed_magnitude; apply half_up_0, grid_one_pos).
  destruct (float_sign x).
  - destruct (Z.ltb_spec v 0); [by rewrite Z.abs_neq by lia|]. assert (v = 0) as -> by lia. change (Z.abs 0) with 0. lia.
  - rewrite (proj2 (Z.ltb_ge _ _)) by lia. by rewrite Z.abs_eq by lia.
Qed.

(** The two-word difference of two finite exponents in order. *)
Lemma pf_difference_spec high low : work_valid f high -> work_valid f low -> work_grid f low <= work_grid f high ->
  Z.abs (work_grid f high) < huge -> Z.abs (work_grid f low) < huge ->
  let a := fixed_from_bits f (mag f high) in let b := fixed_from_bits f (mag f low) in
  let delta := if negb (Bool.eqb (float_sign high) (float_sign low)) then pf_q_uadd a b
               else if float_sign high then pf_q_exp_usub b a else pf_q_exp_usub a b in
  u128_ok delta /\ u128_value delta = fixed (work_grid f high) - fixed (work_grid f low).
Proof.
  intros Hh Hl Hle Hhh Hhl. cbv zeta. destruct (mag_spec f high Hh) as (Hmh & Eh & _). destruct (mag_spec f low Hl) as (Hml & El & _).
  destruct (fixed_from_bits_spec (mag f high) ltac:(lia) ltac:(lia)) as [Ha Ea]. destruct (fixed_from_bits_spec (mag f low) ltac:(lia) ltac:(lia)) as [Hb Eb].
  rewrite Eh in Ea. rewrite El in Eb. pose proof (fixed_mono _ _ Hle) as Hmono. rewrite (fixed_sign high Hh), (fixed_sign low Hl) in *.
  pose proof (fixed_magnitude_range (Z.abs (work_grid f high)) ltac:(lia)) as Hra. pose proof (fixed_magnitude_range (Z.abs (work_grid f low)) ltac:(lia)) as Hrb.
  pose proof two_magnitudes_fit. set (A := fixed_magnitude (Z.abs (work_grid f high))) in *. set (B := fixed_magnitude (Z.abs (work_grid f low))) in *.
  destruct (float_sign high), (float_sign low); cbn [Bool.eqb negb].
  - destruct (pf_q_exp_usub_spec (fixed_from_bits f (mag f low)) (fixed_from_bits f (mag f high)) Hb Ha) as [Hok E]; [lia|]. split; [exact Hok|lia].
  - destruct (pf_q_uadd_spec _ _ Ha Hb) as [Hok E]; [lia|]. split; [exact Hok|lia].
  - destruct (pf_q_uadd_spec _ _ Ha Hb) as [Hok E]; [lia|]. split; [exact Hok|lia].
  - destruct (pf_q_exp_usub_spec (fixed_from_bits f (mag f high)) (fixed_from_bits f (mag f low)) Ha Hb) as [Hok E]; [lia|]. split; [exact Hok|lia].
Qed.

Lemma huge_code x : work_valid f x -> (match f with Q15 => 0x4e800000 | Q31 => 0x43a0000000000000 end <=? mag f x) = (huge <=? Z.abs (work_grid f x)).
Proof.
  intros Hx. destruct (mag_spec f x Hx) as (Hm & Ev & _). set (c := match f with Q15 => _ | Q31 => _ end).
  assert (magnitude_value (work_format f) c = huge) as <- by (unfold c, huge, grid_one; destruct f; vm_compute; reflexivity).
  assert (0 <= c) by (unfold c; destruct f; lia). rewrite <- Ev. pose proof (magnitude_value_le (work_format f) c (mag f x) ltac:(lia) ltac:(lia)).
  destruct (Z.leb_spec c (mag f x)), (Z.leb_spec (magnitude_value (work_format f) c) (magnitude_value (work_format f) (mag f x))); lia.
Qed.

Lemma zero_words d : u128_ok d -> (lo d =? 0) && (hi d =? 0) = (u128_value d =? 0).
Proof.
  intros [Hl Hh]. unfold u128_value, two64. unfold_ranges. destruct (Z.eqb_spec (lo d) 0), (Z.eqb_spec (hi d) 0), (Z.eqb_spec (lo d + hi d * 18446744073709551616) 0); cbn; lia.
Qed.

Lemma sign_shift x : work_valid f x -> negb (Z.shiftr (bits_from f x) (sign_bit f) =? 0) = float_sign x.
Proof. intros Hx. rewrite shiftr_sign. destruct (mag_spec f x Hx) as (_ & _ & -> & _). by destruct (float_sign x). Qed.

Lemma delta_try_ok high low : work_valid f high -> work_valid f low -> work_grid f low <= work_grid f high ->
  pf_likelihood_delta_try f high low = likelihood_reference (work_grid f high) (work_grid f low).
Proof.
  intros Hh Hl Hle. unfold pf_likelihood_delta_try, likelihood_reference. cbv zeta.
  assert (likelihood_one (exp_format f) = U_LIKELIHOOD_SCALE f) as -> by by destruct f.
  rewrite !sign_shift, !land_magnitude by done. fold (mag f high) (mag f low). rewrite !huge_code by done.
  destruct (Z.eqb_spec (bits_from f high) (bits_from f low)) as [Eb|Nb].
  { assert (work_grid f high = work_grid f low) as ->; [|by rewrite Z.eqb_refl].
    rewrite !grid_magnitude by done. destruct (mag_spec f high Hh) as (_ & _ & Eh & _). destruct (mag_spec f low Hl) as (_ & _ & El & _).
    rewrite Eb, El in Eh. unfold mag. rewrite Eb. destruct (float_sign high), (float_sign low); done. }
  assert (work_grid f high = work_grid f low -> work_grid f high = 0) as Hzero.
  { intros E. destruct (Z.eq_dec (work_grid f high) 0) as [|N]; [done|]. exfalso. apply Nb. f_equal. by apply (grid_inj (work_format f)). }
  destruct (Z.leb_spec huge (Z.abs (work_grid f high))) as [Hbig|Hsh]; cbn [orb].
  { destruct (Z.eqb_spec (work_grid f high) (work_grid f low)) as [E|]; [|done]. specialize (Hzero E).
    assert (0 < huge) by (unfold huge; apply Z.mul_pos_pos; [by destruct f|apply grid_one_pos]). lia. }
  destruct (Z.leb_spec huge (Z.abs (work_grid f low))) as [Hbig|Hsl]; cbn [orb].
  { destruct (Z.eqb_spec (work_grid f high) (work_grid f low)) as [E|]; [|done]. specialize (Hzero E).
    assert (0 < huge) by (unfold huge; apply Z.mul_pos_pos; [by destruct f|apply grid_one_pos]). lia. }
  destruct (pf_difference_spec high low Hh Hl Hle Hsh Hsl) as [Hok Ed]. cbv zeta in *. set (delta := if negb _ then _ else _) in *.
  rewrite zero_words, Ed by done. set (d := fixed (work_grid f high) - fixed (work_grid f low)) in *.
  assert (0 < step (exp_format f) < 2 ^ 63) as Hstep by by destruct f.
  destruct (pf_q_umul_spec (step (exp_format f)) (32 * (likelihood_fraction (exp_format f) + 1) + 1)) as [Hcok Ec];
    [change (2 ^ 63) with 9223372036854775808 in Hstep; rlia|destruct f; cbn; rlia|].
  rewrite pf_q_ucmp_spec, Ec, Ed by done. set (c := step (exp_format f) * _) in *.
  destruct (Z.eqb_spec (work_grid f high) (work_grid f low)) as [E|N].
  { assert (d = 0) as -> by (unfold d; rewrite E; lia). done. }
  destruct (Z.eqb_spec d 0); [done|].
  assert ((0 <=? Z.sgn (d - c)) = (c <=? d)) as -> by (destruct (Z.leb_spec c d), (Z.leb_spec 0 (Z.sgn (d - c))); lia).
  destruct (Z.leb_spec c d); [done|]. rewrite <- Ed. apply exp_kernel_ok; [done|]. rewrite Ed.
  apply Z.le_lt_trans with (c / step (exp_format f)); [apply Z.div_le_mono; lia|]. unfold c. rewrite Z.mul_comm, Z.div_mul by lia. by destruct f.
Qed.

(** The error of the two roundings, in units of the exponential's grid. *)
Lemma fixed_error v : 2 * Z.abs (fixed v * grid_one f - v * 2 ^ fractional (exp_format f)) <= grid_one f.
Proof.
  assert (forall a, 0 <= a -> 2 * Z.abs (fixed_magnitude a * grid_one f - a * 2 ^ fractional (exp_format f)) <= grid_one f) as Hm.
  { intros a Ha. unfold fixed_magnitude, half_up. pose proof grid_one_pos as HG. set (G := grid_one f) in *. set (x := a * _).
    pose proof (Z.div_mod (2 * x + G) (2 * G) ltac:(lia)). pose proof (Z.mod_pos_bound (2 * x + G) (2 * G) ltac:(lia)). nia. }
  unfold fixed. destruct (Z.ltb_spec v 0); [specialize (Hm (- v) ltac:(lia))|by apply Hm].
  replace (- fixed_magnitude (- v) * grid_one f - v * 2 ^ fractional (exp_format f))
    with (- (fixed_magnitude (- v) * grid_one f - - v * 2 ^ fractional (exp_format f))) by lia. by rewrite Z.abs_opp.
Qed.
End Format.

(** ** Property *)

(** C22. The likelihood of an exponent difference: for finite exponents in order, the code's
    bit fields, two-word difference, cutoffs and kernel evaluate the closed formula of the
    exponential at the difference of the two exponents, each rounded once to the
    exponential's grid, so the argument is within one grid unit of the exact difference;
    equal exponents give one, and exponents too large to subtract give zero. *)
Theorem pf_likelihood_delta_spec (f : q_format) (high low : spec_float)
  (Hhigh : work_valid f high) (Hlow : work_valid f low) (Horder : flt high low = false) :
  pf_likelihood_delta_try f high low = likelihood_reference f (work_grid f high) (work_grid f low) /\
  Z.abs ((fixed f (work_grid f high) - fixed f (work_grid f low)) * grid_one f -
         (work_grid f high - work_grid f low) * 2 ^ fractional (exp_format f)) <= grid_one f.
Proof.
  rewrite (flt_grid (work_format f)) in Horder by done. zbool. split; [apply delta_try_ok; done|].
  pose proof (fixed_error f (work_grid f high)). pose proof (fixed_error f (work_grid f low)). lia.
Qed.

(** Exponents 1 and -1/2. *)
Definition exponent_high : spec_float := float_of_bits binary32 0x3f800000.
Definition exponent_low : spec_float := float_of_bits binary32 0xbf000000.

Lemma pf_likelihood_delta_witness :
  (pf_likelihood_delta_try Q15 exponent_high exponent_low =
     likelihood_reference Q15 (work_grid Q15 exponent_high) (work_grid Q15 exponent_low) /\
   Z.abs ((fixed Q15 (work_grid Q15 exponent_high) - fixed Q15 (work_grid Q15 exponent_low)) * grid_one Q15 -
          (work_grid Q15 exponent_high - work_grid Q15 exponent_low) * 2 ^ fractional (exp_format Q15)) <= grid_one Q15) /\
  pf_likelihood_delta_try Q15 exponent_high exponent_low = Some 479168370.
Proof. split; [apply (pf_likelihood_delta_spec Q15 exponent_high exponent_low); [split| split|]; by vm_compute|by vm_compute]. Defined.
