(* ===== verification/PfWeightsSpec.v ===== *)
(** * Reweighting the q particle filter

    One shared quotient scales every product of weight and likelihood: the largest
    becomes exactly the largest signal and the others stay within one unit of their
    exact share, for every vector of weights and finite exponents. *)
From Stdlib Require Import SpecFloat.
From S2P Require Import Prelude MachineInt Status Wide Numeric Float Matrix FcMonad FcFloat FcVariants Decomp PfInt FloatParts FloatGrid FloatBits.
From S2P Require Import UkfBits UkfBitsSpec PfSpan PfResample PfExp PfExpSpec PfWeights PfLikelihoodSpec.

(** ** Likelihoods *)

Section Likelihood.
Variable f : q_format.
Variable EXP_NEG : spec_float -> spec_float.

(** exp(-x) of a nonnegative finite x is a number of [0, 1]. *)
Definition exp_neg_unit : Prop := forall x, work_valid f x -> 0 <= work_grid f x ->
  work_valid f (EXP_NEG x) /\ 0 <= work_grid f (EXP_NEG x) <= grid_one f.
Hypothesis Hexp : exp_neg_unit.

Definition likelihood_bits : Z := match f with Q15 => 31 | Q31 => 63 end.

Lemma likelihood_power : of_int (work_format f) (U_LIKELIHOOD_SCALE f) = power (work_format f) likelihood_bits /\ U_LIKELIHOOD_SCALE f = 2 ^ likelihood_bits.
Proof. unfold likelihood_bits. destruct f; split; vm_compute; reflexivity. Qed.

(** A sum less than half a step above a power of two rounds back to it. *)
Lemma rnd_abs_power_bound v b r : 0 <= v <= 2 ^ b + r -> 0 <= r -> prec (work_format f) <= b -> 4 * r < 2 ^ (b + 2 - prec (work_format f)) ->
  rnd_abs (work_format f) v <= 2 ^ b.
Proof.
  intros Hv Hr Hb Hsmall. set (P := prec (work_format f)) in *. assert (1 < P) by (unfold P; by destruct f). unfold rnd_abs. fold P.
  assert (2 ^ (b + 2 - P) = 2 * 2 ^ (b + 1 - P)) as E2 by (rewrite <- Z.pow_succ_r by lia; f_equal; lia).
  assert (0 < 2 ^ (b + 1 - P)) by (apply Z.pow_pos_nonneg; lia). assert (2 ^ (b + 1 - P) <= 2 ^ b) by (apply Z.pow_le_mono_r; lia).
  assert (2 ^ (b + 1) = 2 * 2 ^ b) as Eb1 by (rewrite <- Z.pow_succ_r by lia; f_equal; lia).
  pose proof (bits_of_le v (b + 1) ltac:(lia) ltac:(lia) ltac:(lia)) as Hbits. set (k := Z.max 0 (bits_of v - P)). assert (0 <= k <= b + 1 - P) as Hk by (unfold k; lia).
  assert (2 ^ b = 2 ^ (b - k) * 2 ^ k) as Eb by (rewrite <- Z.pow_add_r by lia; f_equal; lia). rewrite Eb.
  apply Z.mul_le_mono_nonneg_r; [apply Z.pow_nonneg; lia|]. destruct (Z.le_gt_cases v (2 ^ b)) as [Hle|Hgt]; [apply rne_upper; lia|].
  assert (k = b + 1 - P) as Ek.
  { unfold k. assert (bits_of v = b + 1); [|lia]. unfold bits_of. rewrite (proj2 (Z.eqb_neq _ _)) by lia.
    rewrite (Z.log2_unique v b) by lia. done. }
  assert (0 < 2 ^ k) by (apply Z.pow_pos_nonneg; lia). unfold rne.
  assert (v / 2 ^ k = 2 ^ (b - k)) as -> by (symmetry; apply Z.div_unique with (v - 2 ^ b); [rewrite Ek; lia|lia]).
  assert (v mod 2 ^ k = v - 2 ^ b) as -> by (symmetry; apply Z.mod_unique with (2 ^ (b - k)); [rewrite Ek; lia|lia]).
  rewrite (proj2 (Z.compare_lt_iff _ _)) by (rewrite Ek; lia). done.
Qed.

Lemma likelihood_cell p : work_valid f p -> 0 <= work_grid f p <= grid_one f ->
  0 <= u64 (to_int (fadd (work_format f) (fmul (work_format f) p (of_int (work_format f) (U_LIKELIHOOD_SCALE f))) (one_half (work_format f)))) <= U_LIKELIHOOD_SCALE f.
Proof.
  intros Hp Hr. destruct likelihood_power as [-> EL]. set (g := - emin (prec (work_format f)) (emax (work_format f))).
  assert (grid_one f = 2 ^ g) as EG by done. pose proof (grid_one_pos f) as HG. destruct (half_grid f) as [Hh Eh].
  assert (0 <= grid_one f / 2 <= grid_one f) as HH by (split; [apply Z.div_pos; lia|apply Z.div_le_upper_bound; lia]).
  assert (forall v, Z.abs v <= 2 * (2 ^ likelihood_bits * grid_one f) -> below_overflow (work_format f) v) as Hfit.
  { intros v Hv. unfold below_overflow. eapply Z.le_lt_trans; [exact Hv|]. unfold likelihood_bits, grid_one. destruct f; vm_compute; reflexivity. }
  assert (0 < 2 ^ likelihood_bits) as HL by (apply Z.pow_pos_nonneg; [lia|unfold likelihood_bits; by destruct f]).
  destruct (fmul_power_grid (work_format f) p likelihood_bits Hp) as [Hm Em]; [unfold likelihood_bits; by destruct f|apply Hfit; unfold work_grid in Hr; nia|].
  set (y := fmul _ p _) in *. destruct (fadd_grid (work_format f) y (one_half (work_format f)) Hm Hh) as [Hs Es].
  { apply Hfit. rewrite Em. fold (work_grid f p) (work_grid f (one_half (work_format f))). rewrite Eh. nia. }
  rewrite (to_int_grid (work_format f)) by done. rewrite Es, Em. fold (work_grid f p) (work_grid f (one_half (work_format f))). rewrite Eh. fold (grid_one f).
  set (X := work_grid f p * 2 ^ likelihood_bits + grid_one f / 2). assert (0 <= X) by (unfold X; nia). rewrite rnd_nonneg by (apply _ || done).
  assert (0 <= rnd_abs (work_format f) X <= 2 ^ likelihood_bits * grid_one f) as HR.
  { split; [unfold rnd_abs; apply Z.mul_nonneg_nonneg; [apply rne_lower; [lia|nia]|apply Z.pow_nonneg; lia]|].
    assert (2 ^ likelihood_bits * grid_one f = 2 ^ (likelihood_bits + g)) as EX by (rewrite EG, Z.pow_add_r by (unfold likelihood_bits, g; by destruct f); done).
    rewrite EX. apply (rnd_abs_power_bound X (likelihood_bits + g) (grid_one f / 2)); [unfold X; nia|lia| |];
      unfold likelihood_bits, g, grid_one; destruct f; vm_compute; (reflexivity || discriminate). }
  rewrite Z.quot_div_nonneg by lia.
  assert (0 <= rnd_abs (work_format f) X / grid_one f <= 2 ^ likelihood_bits) as Hq by (split; [apply Z.div_pos; lia|apply Z.div_le_upper_bound; lia]).
  rewrite EL. assert (2 ^ likelihood_bits <= 9223372036854775808) by (unfold likelihood_bits; by destruct f). rewrite u64_id by rlia. done.
Qed.

Lemma exp_neg_try_range delta v : pf_exp_neg_try f delta = Some v -> 0 <= v <= U_LIKELIHOOD_SCALE f.
Proof.
  assert (0 < U_LIKELIHOOD_SCALE f) by by destruct f. unfold pf_exp_neg_try. intros E. case_if_in E; [simplify_eq; lia|]. case_if_in E; [done|].
  case_if_in E; [case_if_in E; [simplify_eq; lia|done]|]. case_if_in E; [simplify_eq; lia|].
  destruct (exp_kernel f _) eqn:Ek; cbn [option_map] in E; [|done]. apply (exp_kernel_range f) in Ek. injection E as <-.
  unfold word, U_LIKELIHOOD_SCALE in *. destruct f; [rewrite u32_id by rlia|rewrite u64_id by rlia]; lia.
Qed.

Lemma pf_likelihood_range delta : work_valid f delta -> 0 <= work_grid f delta -> 0 <= pf_likelihood f EXP_NEG delta <= U_LIKELIHOOD_SCALE f.
Proof.
  intros Hd H0. unfold pf_likelihood. destruct (pf_exp_neg_try f delta) eqn:E; [by apply exp_neg_try_range in E|].
  destruct (Hexp delta Hd H0). by apply likelihood_cell.
Qed.

Lemma likelihood_reference_range high low v : likelihood_reference f high low = Some v -> 0 <= v <= U_LIKELIHOOD_SCALE f.
Proof.
  assert (0 < U_LIKELIHOOD_SCALE f) by by destruct f. unfold likelihood_reference. cbv zeta. intros E.
  repeat (case_if_in E; [simplify_eq; lia|]). unfold exp_formula in E. cbv zeta in E. case_if_in E; [done|].
  apply exp_result_range in E. assert (U_LIKELIHOOD_SCALE f = likelihood_one (exp_format f)) as -> by by destruct f. lia.
Qed.

(** The libm path is only taken where the floating difference cannot overflow. *)
Lemma pf_likelihood_pair_range high low : work_valid f high -> work_valid f low -> flt high low = false ->
  0 <= pf_likelihood_pair f EXP_NEG high low <= U_LIKELIHOOD_SCALE f.
Proof.
  intros Hh Hl Horder. rewrite (flt_grid (work_format f)) in Horder by done. zbool. fold (work_grid f high) (work_grid f low) in Horder.
  unfold pf_likelihood_pair. rewrite delta_try_ok by done. destruct (likelihood_reference f _ _) eqn:E; [by apply likelihood_reference_range in E|].
  assert (Z.abs (work_grid f high) < huge f /\ Z.abs (work_grid f low) < huge f) as [Hbh Hbl].
  { unfold likelihood_reference in E. cbv zeta in E. case_if_in E; [done|]. case_if_in E; [done|]. zbool. lia. }
  destruct (fsub_grid (work_format f) high low Hh Hl) as [Hv Ev].
  { fold (work_grid f high) (work_grid f low). unfold below_overflow. apply Z.lt_le_trans with (2 * huge f); [lia|]. unfold huge, grid_one. destruct f; vm_compute; discriminate. }
  apply pf_likelihood_range; [exact Hv|]. unfold work_grid. rewrite Ev. fold (work_grid f high) (work_grid f low).
  rewrite rnd_nonneg by (apply _ || lia). unfold rnd_abs. apply Z.mul_nonneg_nonneg; [apply rne_lower; [lia|nia]|apply Z.pow_nonneg; lia].
Qed.

Lemma pf_likelihood_pair_same e : pf_likelihood_pair f EXP_NEG e e = U_LIKELIHOOD_SCALE f.
Proof. unfold pf_likelihood_pair, pf_likelihood_delta_try. cbv zeta. rewrite Z.eqb_refl. by destruct f. Qed.
End Likelihood.

(** ** Scaling *)

Lemma pf_q_exp_round_div_spec n d : u128_ok n -> u128_ok d -> 0 < u128_value d -> 2 * u128_value d < two128 ->
  half_up (u128_value n) (u128_value d) < two64 ->
  pf_q_exp_round_div n d = half_up (u128_value n) (u128_value d).
Proof.
  intros Hn Hd Hpos Hd2 Hfit. pose proof (u128_range n Hn) as Hr. set (N := u128_value n) in *. set (D := u128_value d) in *.
  pose proof (Z.div_mod N D ltac:(lia)) as DM. pose proof (Z.mod_pos_bound N D Hpos) as HM.
  pose proof (half_up_step N D (N / D) (N mod D) Hpos ltac:(lia) DM HM) as Eh.
  assert (N / D < two64) as Hq by (rewrite Eh in Hfit; case_if_in Hfit; lia).
  destruct (pf_q_exp_div_spec n d Hn Hd Hpos Hq) as (Eq & Hrok & Er). fold N D in Eq, Er. unfold pf_q_exp_round_div. cbv zeta. rewrite Eq.
  destruct (pf_q_exp_shl_spec (pf_q_exp_div n d).2 1 Hrok ltac:(lia)) as [Hsok Es]; [rewrite Er; lia|].
  rewrite pf_q_ucmp_spec by done. rewrite Es, Er. fold D. rewrite Eh in Hfit |- *. assert (0 <= N / D) by (apply Z.div_pos; lia).
  assert ((0 <=? Z.sgn (N mod D * 2 ^ 1 - D)) = (D - N mod D <=? N mod D)) as ->.
  { change (2 ^ 1) with 2. destruct (Z.leb_spec (D - N mod D) (N mod D)), (Z.leb_spec 0 (Z.sgn (N mod D * 2 - D))); lia. }
  destruct (D - N mod D <=? N mod D); cbn [Z.b2z]; rewrite ?Z.add_0_r; apply u64_id; unfold two64 in *; rlia.
Qed.

Lemma scale_error peak p m s : 0 < peak -> 0 <= p <= m -> 0 < m < 2 ^ s -> 0 < s ->
  Z.abs (half_up (p * half_up (peak * 2 ^ s) m) (2 ^ s) * m - peak * p) < m.
Proof.
  intros Hpk Hp Hm Hs. assert (0 < 2 ^ s) by (apply Z.pow_pos_nonneg; lia). set (S := 2 ^ s) in *.
  assert (forall n d, 0 < d -> 2 * Z.abs (half_up n d * d - n) <= d) as Hnear.
  { intros n d Hd. unfold half_up. pose proof (Z.div_mod (2 * n + d) (2 * d) ltac:(lia)). pose proof (Z.mod_pos_bound (2 * n + d) (2 * d) ltac:(lia)). nia. }
  pose proof (Hnear (peak * S) m ltac:(lia)) as H1. set (k := half_up (peak * S) m) in *.
  pose proof (Hnear (p * k) S ltac:(lia)) as H2. set (v := half_up (p * k) S) in *.
  assert (Z.abs ((v * m - peak * p) * S) < m * S); [|rewrite Z.abs_mul, (Z.abs_eq S) in * by lia; nia].
  replace ((v * m - peak * p) * S) with (m * (v * S - p * k) + p * (k * m - peak * S)) by ring.
  pose proof (Z.abs_triangle (m * (v * S - p * k)) (p * (k * m - peak * S))). rewrite !Z.abs_mul in *. rewrite (Z.abs_eq m), (Z.abs_eq p) in * by lia.
  set (x := Z.abs (v * S - p * k)) in *. set (y := Z.abs (k * m - peak * S)) in *.
  assert (2 * (m * x) <= m * S) by nia. assert (2 * (p * y) <= p * m) by nia. assert (p * m < m * S) by nia. lia.
Qed.

Section Scale.
Variable f : q_format.

(** Products stay below 2^46 and 2^94. *)
Definition product_bits : Z := match f with Q15 => 46 | Q31 => 94 end.

Lemma scaled_weight_spec maximum product : u128_ok maximum -> u128_ok product ->
  0 < u128_value maximum < 2 ^ product_bits -> u128_value product <= u128_value maximum ->
  let shift := pf_q_ubits maximum in
  let multiplier := u32 (pf_q_exp_round_div (pf_q_exp_shl (mk_u128 (U_SIGNAL_MAX f) 0) shift) maximum) in
  let s := scaled_weight f maximum multiplier shift product in
  0 <= s <= U_SIGNAL_MAX f /\ (u128_value product = u128_value maximum -> s = U_SIGNAL_MAX f) /\
  Z.abs (s * u128_value maximum - U_SIGNAL_MAX f * u128_value product) < u128_value maximum.
Proof.
  intros Hmok Hpok Hm Hp. pose proof (u128_range product Hpok) as Hp0. cbv zeta. rewrite pf_q_ubits_spec by done.
  destruct (bits_of_spec (u128_value maximum) ltac:(lia)) as (Hs0 & Hs1 & Hs2). specialize (Hs2 ltac:(lia)).
  pose proof (bits_of_le (u128_value maximum) product_bits ltac:(lia) ltac:(unfold product_bits; by destruct f) ltac:(lia)) as Hsb.
  set (m := u128_value maximum) in *. set (p := u128_value product) in *. set (s := bits_of m) in *. destruct (scale_max f) as [Emax Hmax].
  assert (0 < s) by (destruct (Z.eq_dec s 0) as [E|]; [rewrite E in Hs1; change (2 ^ 0) with 1 in Hs1|]; lia).
  assert (2 ^ s = 2 * 2 ^ (s - 1)) as E2 by (rewrite <- Z.pow_succ_r by lia; f_equal; lia). assert (0 < 2 ^ (s - 1)) by (apply Z.pow_pos_nonneg; lia).
  assert (s < 128 /\ U_SIGNAL_MAX f * 2 ^ s < two64 * two64 /\ 2 ^ s <= 2 ^ product_bits) as (Hs128 & Hfit & Hsp).
  { assert (2 ^ s <= 2 ^ product_bits) as Hle by (apply Z.pow_le_mono_r; lia). split; [unfold product_bits in *; destruct f; lia|]. split; [|done].
    assert (2 ^ product_bits < two64 * two64 / 4294967296) by (unfold product_bits; destruct f; vm_compute; reflexivity).
    change (two64 * two64 / 4294967296) with (2 ^ 96) in *. change (two64 * two64) with (2 ^ 96 * 4294967296). nia. }
  destruct (pf_q_exp_shl_spec (mk_u128 (U_SIGNAL_MAX f) 0) s) as [Hnok En];
    [split; [cbn; rlia|done]|lia|unfold u128_value; cbn [lo hi]; unfold two64, two128 in *; lia|].
  unfold u128_value in En at 2. cbn [lo hi] in En. rewrite Z.mul_0_l, Z.add_0_r in En.
  assert (0 <= half_up (U_SIGNAL_MAX f * 2 ^ s) m <= 2 * U_SIGNAL_MAX f) as Hk by (apply half_up_le; [lia|nia]).
  assert (m < 2 ^ 94) as Hm94 by (apply Z.lt_le_trans with (2 ^ product_bits); [lia|apply Z.pow_le_mono_r; [lia|unfold product_bits; by destruct f]]).
  change (2 ^ 94) with 19807040628566084398385987584 in Hm94.
  rewrite pf_q_exp_round_div_spec; [|done|done|fold m; lia|fold m; unfold two128; lia|rewrite En; fold m; unfold two64; lia].
  rewrite En. fold m. rewrite u32_id by rlia. pose proof (scale_error (U_SIGNAL_MAX f) p m s ltac:(by destruct f) ltac:(lia) ltac:(lia) ltac:(lia)) as Herr.
  set (k := half_up (U_SIGNAL_MAX f * 2 ^ s) m) in *. unfold scaled_weight. cbv zeta. rewrite pf_q_ucmp_spec by done. fold p m.
  destruct (pf_q_umul32_spec product k Hpok ltac:(rlia)) as [Hok Ev]; [fold p; unfold two128; nia|]. fold p in Ev.
  assert (0 <= half_up (p * k) (2 ^ s) <= k) as Hv by (apply half_up_le; [lia|nia]).
  rewrite pf_q_uround_spec; [|done|lia|rewrite Ev; unfold two64; lia]. rewrite Ev. set (v := half_up (p * k) (2 ^ s)) in *.
  destruct (Z.eqb_spec (Z.sgn (p - m)) 0) as [E|N].
  - assert (p = m) as Epm by lia. rewrite (proj2 (Z.ltb_ge _ _)) by lia. rewrite i_signal_id by lia. rewrite Epm. split; [lia|]. split; [done|]. lia.
  - assert (p < m) by lia. destruct (Z.ltb_spec (U_SIGNAL_MAX f) v); rewrite i_signal_id by lia; (split; [lia|]); (split; [lia|]); [|done]. nia.
Qed.

(** ** The products *)

Lemma largest_product_spec products acc : Forall u128_ok products -> u128_ok acc ->
  let r := fold_left (fun maximum product => if 0 <? pf_q_ucmp product maximum then product else maximum) products acc in
  u128_ok r /\ (r = acc \/ r ∈ products) /\ u128_value acc <= u128_value r /\
  Forall (fun p => u128_value p <= u128_value r) products.
Proof.
  revert acc. induction products as [|p ps IH]; intros acc Hps Hacc; cbn [fold_left]; [split; [done|]; split; [by left|]; split; [lia|constructor]|].
  apply Forall_cons_1 in Hps as [Hp Hps]. rewrite pf_q_ucmp_spec by done.
  destruct (Z.ltb_spec 0 (Z.sgn (u128_value p - u128_value acc))).
  - destruct (IH p Hps Hp) as (Hok & Hin & Hle & Hall). split; [done|]. split; [right; destruct Hin as [->|Hin]; [left|by right]|]. split; [lia|]. by constructor.
  - destruct (IH acc Hps Hacc) as (Hok & Hin & Hle & Hall). split; [done|]. split; [destruct Hin as [->|Hin]; [by left|right; by right]|]. split; [lia|]. constructor; [lia|done].
Qed.
End Scale.

(** ** The scan *)

Section Scan.
Variable f : q_format.

(** The lowest exponent among those of particles with weight, or the one given. *)
Definition lowest_of (weights : list Z) (exponents : list spec_float) (given found : option spec_float) : Prop :=
  match found with
  | None => given = None /\ Forall (fun w => w = 0) weights
  | Some l =>
      work_valid f l /\ (found = given \/ exists i w, weights !! i = Some w /\ exponents !! i = Some l /\ w <> 0) /\
      (forall g, given = Some g -> flt g l = false) /\
      (forall i w e, weights !! i = Some w -> exponents !! i = Some e -> w <> 0 -> flt e l = false)
  end.

Lemma reweight_scan_spec weights exponents given : length exponents = length weights ->
  Forall (fun e => valid_binary (prec (work_format f)) (emax (work_format f)) e = true) exponents ->
  (forall g, given = Some g -> work_valid f g) ->
  let r := reweight_scan f weights exponents given in
  (r.1 = LINEARS_OK -> Forall (fun w => 0 <= w) weights /\ Forall (fun e => isfinite e = true) exponents /\ lowest_of weights exponents given r.2) /\
  (r.1 <> LINEARS_OK -> r.1 = LINEARS_ERROR_DOMAIN /\ Exists (fun w => w < 0) weights \/ r.1 = LINEARS_ERROR_RANGE /\ Exists (fun e => isfinite e = false) exponents).
Proof.
  revert exponents given. induction weights as [|w ws IH]; intros [|e es] given Hlen Hv Hg; try done; cbn [reweight_scan].
  - split; [|done]. intros _. split; [constructor|]. split; [constructor|]. unfold lowest_of. destruct given as [g|]; cbn [snd].
    + split; [by apply Hg|]. split; [by left|]. split; [|intros i w e H; by rewrite lookup_nil in H].
      intros g' E. simplify_eq. rewrite (flt_grid (work_format f)) by (by apply Hg). by rewrite Z.ltb_irrefl.
    + split; [done|constructor].
  - apply Forall_cons_1 in Hv as [He Hes]. destruct (Z.ltb_spec w 0) as [Hn|Hp]; [split; [done|]; intros _; left; split; [done|by left]|].
    rewrite ukf_isfinite_eq by done. unfold ukf_isfinite_portable. destruct (isfinite e) eqn:Hfin; cbn [negb]; [|split; [done|]; intros _; right; split; [done|by left]].
    assert (work_valid f e) as Hve by done.
    set (better := match given with None => true | Some l => pf_exponent_less f e l end). set (next := if negb (w =? 0) && better then Some e else given).
    assert (forall g, next = Some g -> work_valid f g) as Hnext by (intros g E; unfold next in E; case_if_in E; [by simplify_eq|by apply Hg]).
    destruct (IH es next ltac:(by injection Hlen) Hes Hnext) as [Hok Hbad]. split; [|intros Hs; destruct (Hbad Hs) as [[? ?]|[? ?]]; [left|right]; (split; [done|by right])].
    intros Hs. destruct (Hok Hs) as (Hws & Hfs & Hlow). split; [by constructor|]. split; [by constructor|].
    unfold lowest_of in *. destruct (reweight_scan f ws es next).2 as [l|].
    + destruct Hlow as (Hvl & Hfrom & Hgiven & Hall). split; [done|].
      assert (w <> 0 -> flt e l = false) as Hel.
      { intros Hw0. unfold next in Hgiven. rewrite (proj2 (Z.eqb_neq w 0)) in Hgiven by done. cbn [negb andb] in Hgiven. destruct better eqn:Hb; [by apply Hgiven|].
        unfold better in Hb. destruct given as [g|]; [|done]. rewrite pf_exponent_less_eq in Hb by (done || by apply Hg).
        specialize (Hgiven g eq_refl). rewrite (flt_grid (work_format f)) in * by (done || by apply Hg). unfold work_grid in *. zbool. apply Z.ltb_ge. lia. }
      assert (forall g, given = Some g -> flt g l = false) as Hgl.
      { intros g Eg. unfold next in Hgiven. destruct (negb (w =? 0) && better) eqn:Hb; [|by apply Hgiven]. zbool.
        specialize (Hel ltac:(lia)). unfold better in *. rewrite Eg in *. rewrite pf_exponent_less_eq in * by (done || by apply Hg).
        rewrite (flt_grid (work_format f)) in * by (done || by apply Hg). unfold work_grid in *. zbool. apply Z.ltb_ge. lia. }
      split; [|split; [done|]].
      * destruct Hfrom as [E|(i & w' & Hw' & He' & Hn')]; [|right; by exists (S i), w'].
        unfold next in E. destruct (negb (w =? 0) && better) eqn:Hb; [|by left]. zbool. right. exists 0%nat, w. by simplify_eq.
      * intros [|i] w' e' Hw' He' Hn'; cbn in Hw', He'; [simplify_eq; by apply Hel|by apply (Hall i w' e')].
    + destruct Hlow as [E Hz]. unfold next in E. case_if_in E; [done|]. split; [done|]. constructor; [|done].
      destruct (Z.eqb_spec w 0) as [|N]; [done|]. cbn [negb andb] in *. unfold better in *. rewrite E in *. done.
Qed.
End Scan.

(** ** Reweighting *)

Section Reweight.
Variable f : q_format.
Variable EXP_NEG : spec_float -> spec_float.
Hypothesis Hexp : exp_neg_unit f EXP_NEG.

(** A particle's weight times its likelihood relative to the lowest exponent. *)
Definition share (lowest : spec_float) (w : Z) (e : spec_float) : Z :=
  (if w =? 0 then 0 else pf_likelihood_pair f EXP_NEG e lowest) * w.

Definition share_product (lowest : spec_float) (w : Z) (e : spec_float) : filters_q_u128_t :=
  pf_q_umul (word f (if w =? 0 then 0 else pf_likelihood_pair f EXP_NEG e lowest)) (u64 w).

Lemma weight_products_eq weights exponents lowest :
  weight_products weights (cached_likelihoods f EXP_NEG weights exponents lowest) = zip_with (share_product lowest) weights exponents.
Proof.
  unfold weight_products, cached_likelihoods, share_product. revert exponents.
  induction weights as [|w ws IH]; intros [|e es]; cbn; try done. by rewrite IH.
Qed.

Lemma share_product_ok lowest w e : 0 <= w -> q_repr f w -> work_valid f e -> work_valid f lowest -> (w <> 0 -> flt e lowest = false) ->
  u128_ok (share_product lowest w e) /\ u128_value (share_product lowest w e) = share lowest w e /\ 0 <= share lowest w e < 2 ^ product_bits f.
Proof.
  intros Hw Hr He Hl Ho. unfold share_product, share. set (l := if w =? 0 then 0 else pf_likelihood_pair f EXP_NEG e lowest).
  assert (0 <= l <= U_LIKELIHOOD_SCALE f) as Hrange.
  { unfold l. destruct (Z.eqb_spec w 0); [by destruct f|]. apply pf_likelihood_pair_range; auto. }
  assert (word f l = l) as -> by (unfold word, U_LIKELIHOOD_SCALE in *; destruct f; [apply u32_id|apply u64_id]; rlia).
  assert (w <= U_SIGNAL_MAX f) as Hmax by (unfold q_repr, U_SIGNAL_MAX in *; destruct f; rlia).
  assert (U_SIGNAL_MAX f <= 2147483647 /\ U_LIKELIHOOD_SCALE f <= 9223372036854775808) as [] by by destruct f.
  rewrite u64_id by rlia. destruct (pf_q_umul_spec l w ltac:(rlia) ltac:(rlia)) as [Hok ->]. split; [done|]. split; [done|].
  split; [nia|]. apply Z.le_lt_trans with (U_LIKELIHOOD_SCALE f * U_SIGNAL_MAX f); [nia|]. by destruct f.
Qed.

Definition lowest_exponent (weights : list Z) (exponents : list spec_float) (lowest : spec_float) : Prop :=
  (exists i w, weights !! i = Some w /\ exponents !! i = Some lowest /\ w <> 0) /\
  (forall i w e, weights !! i = Some w -> exponents !! i = Some e -> w <> 0 -> flt e lowest = false).

(** What a success stores: the largest share becomes the largest signal, and every
    other signal is within one unit of its exact proportion. *)
Definition proportional (lowest : spec_float) (weights : list Z) (exponents : list spec_float) (scaled : list Z) : Prop :=
  exists m, 0 < m /\ (exists i w e, weights !! i = Some w /\ exponents !! i = Some e /\ share lowest w e = m) /\
  forall i w e, weights !! i = Some w -> exponents !! i = Some e ->
    0 <= share lowest w e <= m /\
    exists s, scaled !! i = Some s /\ 0 <= s <= U_SIGNAL_MAX f /\ (share lowest w e = m -> s = U_SIGNAL_MAX f) /\
      Z.abs (s * m - U_SIGNAL_MAX f * share lowest w e) < m.

Lemma scaled_proportional weights exponents lowest staged : length exponents = length weights -> length staged = length weights ->
  Forall (fun w => 0 <= w) weights -> Forall (q_repr f) weights -> Forall (work_valid f) exponents -> work_valid f lowest ->
  lowest_exponent weights exponents lowest ->
  let products := weight_products weights (cached_likelihoods f EXP_NEG weights exponents lowest) in
  let maximum := largest_product products in
  let shift := pf_q_ubits maximum in
  let multiplier := u32 (pf_q_exp_round_div (pf_q_exp_shl (mk_u128 (U_SIGNAL_MAX f) 0) shift) maximum) in
  let scaled := map (scaled_weight f maximum multiplier shift) products ++ drop (length products) staged in
  length scaled = length weights /\ proportional lowest weights exponents scaled.
Proof.
  intros Hle Hls Hpos Hrepr Hval Hl [(b & wb & Hwb & Heb & Hnb) Hlow]. cbv zeta. rewrite weight_products_eq.
  set (products := zip_with _ _ _).
  assert (forall i w e, weights !! i = Some w -> exponents !! i = Some e ->
    products !! i = Some (share_product lowest w e) /\ u128_ok (share_product lowest w e) /\
    u128_value (share_product lowest w e) = share lowest w e /\ 0 <= share lowest w e < 2 ^ product_bits f) as Hat.
  { intros i w e Hw He. split; [unfold products; rewrite lookup_zip_with, Hw; cbn; by rewrite He|].
    apply share_product_ok; [by apply (Forall_lookup_1 _ _ _ _ Hpos Hw)|by apply (Forall_lookup_1 _ _ _ _ Hrepr Hw)|by apply (Forall_lookup_1 _ _ _ _ Hval He)|done|by apply (Hlow i)]. }
  assert (forall p, p ∈ products -> exists i w e, weights !! i = Some w /\ exponents !! i = Some e /\ p = share_product lowest w e) as Hfrom.
  { intros p Hin. apply list_elem_of_lookup in Hin as [i Hi]. apply lookup_zip_with_Some in Hi as (w & e & -> & ? & ?). eauto 6. }
  assert (Forall u128_ok products) as Hok by (apply Forall_lookup; intros k p Hin; destruct (Hfrom p (list_elem_of_lookup_2 _ _ _ Hin)) as (i & w & e & Hw & He & ->); by apply (Hat i)).
  assert (length products = length weights) as Hlp by (unfold products; rewrite length_zip_with; lia).
  destruct (largest_product_spec products (mk_u128 0 0) Hok) as (Hmok & Hmin & _ & Hmax); [by split|]. fold (largest_product products) in *.
  set (maximum := largest_product products) in *.
  destruct (Hat b wb lowest Hwb Heb) as (Hb & _ & Vb & Rb).
  assert (0 < share lowest wb lowest) as Hsb.
  { pose proof (Forall_lookup_1 _ _ _ _ Hpos Hwb). unfold share. rewrite (proj2 (Z.eqb_neq wb 0)) by done. rewrite pf_likelihood_pair_same. cbn in *. destruct f; cbn; lia. }
  assert (0 < u128_value maximum) as Hm by (pose proof (Forall_lookup_1 _ _ _ _ Hmax Hb); cbn in *; lia).
  destruct Hmin as [E|Hmin]; [rewrite E in Hm; by vm_compute in Hm|]. destruct (Hfrom _ Hmin) as (im & wm & em & Hwm & Hem & Em).
  destruct (Hat im wm em Hwm Hem) as (_ & _ & Vm & Rm). rewrite <- Em in Vm.
  split; [rewrite length_app, length_map, length_drop; lia|].
  exists (u128_value maximum). split; [done|]. split; [exists im, wm, em; by rewrite Vm|].
  intros i w e Hw He. destruct (Hat i w e Hw He) as (Hp & Hpok & Vp & Rp).
  pose proof (Forall_lookup_1 _ _ _ _ Hmax Hp) as Hpm. cbn in Hpm. split; [lia|].
  eexists. split; [rewrite lookup_app_l by (rewrite length_map; by apply lookup_lt_Some in Hp); by rewrite list_lookup_fmap, Hp|].
  pose proof (scaled_weight_spec f maximum (share_product lowest w e) Hmok Hpok ltac:(lia) ltac:(lia)) as H. cbv zeta in H. by rewrite Vp in H.
Qed.

(** C21. A weight update succeeds exactly when no weight is negative, every exponent is
    finite and some particle has weight; a failure stores nothing.  On success some
    particle with weight has the lowest exponent, every staged signal stays in [0, max],
    the largest product of weight and likelihood becomes exactly the largest signal, and
    every signal is within one unit of its exact proportion, although all are scaled by
    one 32-bit quotient.  The libm exponential is only assumed to map nonnegative
    arguments into [0, 1]. *)
Theorem pf_reweight_spec weights exponents staged :
  length exponents = length weights -> length staged = length weights -> Forall (q_repr f) weights ->
  Forall (fun e => valid_binary (prec (work_format f)) (emax (work_format f)) e = true) exponents ->
  let r := pf_reweight f EXP_NEG weights exponents staged in
  (r.1 = LINEARS_OK <->
    Forall (fun w => 0 <= w) weights /\ Forall (fun e => isfinite e = true) exponents /\ Exists (fun w => w <> 0) weights) /\
  (r.1 <> LINEARS_OK -> r.2 = staged /\ (r.1 = LINEARS_ERROR_DOMAIN \/ r.1 = LINEARS_ERROR_RANGE)) /\
  (r.1 = LINEARS_OK -> length r.2 = length weights /\
    exists lowest, lowest_exponent weights exponents lowest /\ proportional lowest weights exponents r.2).
Proof.
  intros Hle Hls Hrepr Hvalid. cbv zeta. pose proof (reweight_scan_spec f weights exponents None Hle Hvalid ltac:(done)) as [Hok Hbad].
  cbv zeta in *. unfold pf_reweight, require. destruct (reweight_scan f weights exponents None) as [status found]. cbn [fst snd] in *.
  destruct (status_ok status) eqn:Hst.
  - apply status_ok_true in Hst. destruct (Hok Hst) as (Hpos & Hfin & Hlow). destruct found as [l|].
    + destruct Hlow as (Hl & [|Hat] & _ & Hall); [done|]. assert (lowest_exponent weights exponents l) as Hlowest by by split.
      assert (Forall (work_valid f) exponents) as Hval.
      { apply Forall_lookup. intros i e He. split; (apply (Forall_lookup_1 _ _ _ _ Hvalid He) || apply (Forall_lookup_1 _ _ _ _ Hfin He)). }
      pose proof (scaled_proportional weights exponents l staged Hle Hls Hpos Hrepr Hval Hl Hlowest) as [Hlen Hprop].
      split; [|split; [done|intros _; split; [exact Hlen|by exists l]]]. split; [|done]. intros _. split_and!; [done..|].
      destruct Hat as (i & w & Hw & _ & Hn). apply Exists_exists. exists w. split; [by apply list_elem_of_In, (list_elem_of_lookup_2 _ i)|done].
    + destruct Hlow as [_ Hz]. split; [|split; [intros _; split; [done|by left]|done]]. split; [done|].
      intros (_ & _ & H). apply Exists_exists in H as (w & Hin & Hn). rewrite List.Forall_forall in Hz. by destruct (Hn (Hz w Hin)).
  - assert (status <> LINEARS_OK) as Hn by (intros ->; done). split; [|split; [intros _; split; [done|]|done]].
    + split; [done|]. intros (Hpos & Hfin & _). destruct (Hbad Hn) as [[_ H]|[_ H]]; apply Exists_exists in H as (x & Hin & Hx).
      * rewrite List.Forall_forall in Hpos. specialize (Hpos x Hin). lia.
      * rewrite List.Forall_forall in Hfin. specialize (Hfin x Hin). congruence.
    + destruct (Hbad Hn) as [[-> _]|[-> _]]; auto.
Qed.
End Reweight.

(** ** A concrete update: unequal weights, a zero weight and exponents far and near *)

Definition sample_weights : list Z := [16384; 8192; 0; 8192].
Definition sample_exponents : list spec_float :=
  [fone (work_format Q15); fadd (work_format Q15) (fone (work_format Q15)) (one_half (work_format Q15)); fzero; of_int (work_format Q15) 200].

(** A function of the documented range. *)
Definition sample_exp_neg (x : spec_float) : spec_float := if flt x (fone (work_format Q15)) then fone (work_format Q15) else fzero.

Lemma sample_exp_neg_unit : exp_neg_unit Q15 sample_exp_neg.
Proof.
  intros x _ _. unfold sample_exp_neg. destruct (one_valid Q15) as [H1 E1]. pose proof (grid_one_pos Q15).
  destruct (flt _ _); [rewrite E1; split; [done|lia]|]. split; [by vm_compute|]. split; by vm_compute.
Qed.

Lemma pf_reweight_witness :
  (let r := pf_reweight Q15 sample_exp_neg sample_weights sample_exponents [0; 0; 0; 0] in
   (r.1 = LINEARS_OK <->
     Forall (fun w => 0 <= w) sample_weights /\ Forall (fun e => isfinite e = true) sample_exponents /\ Exists (fun w => w <> 0) sample_weights) /\
   (r.1 <> LINEARS_OK -> r.2 = [0; 0; 0; 0] /\ (r.1 = LINEARS_ERROR_DOMAIN \/ r.1 = LINEARS_ERROR_RANGE)) /\
   (r.1 = LINEARS_OK -> length r.2 = length sample_weights /\
     exists lowest, lowest_exponent sample_weights sample_exponents lowest /\
       proportional Q15 sample_exp_neg lowest sample_weights sample_exponents r.2)) /\
  pf_reweight Q15 sample_exp_neg sample_weights sample_exponents [0; 0; 0; 0] = (LINEARS_OK, [32767; 9937; 0; 0]).
Proof.
  split; [|by vm_compute].
  apply (pf_reweight_spec Q15 sample_exp_neg sample_exp_neg_unit sample_weights sample_exponents [0; 0; 0; 0]); [done|done| |];
    repeat constructor; by vm_compute.
Defined.
