(* ===== verification/Foc.v ===== *)
(** * Field-oriented control: libs/fieldctrl/src/foc_impl.h

    The d/q current loop with its radial limiter and anti-windup, and the
    speed loop cascaded on it, generic in the arithmetic.  The test that the
    variants select with #if is the class [FcFoc]. *)
From S2P Require Import Prelude MachineInt Status Wide Numeric FcMonad Cordic FcVariants FcBase.

(** ** Data *)

Record foc_config (T W : Type) := mk_foc_config {
  kp_d : W; ki_d : W; kp_q : W; ki_q : W; voltage_limit : T }.
Arguments mk_foc_config {T W}. Arguments kp_d {T W}. Arguments ki_d {T W}.
Arguments kp_q {T W}. Arguments ki_q {T W}. Arguments voltage_limit {T W}.

Record foc (T W : Type) := mk_foc { foc_cfg : foc_config T W; foc_integral : dq W }.
Arguments mk_foc {T W}. Arguments foc_cfg {T W}. Arguments foc_integral {T W}.

Record foc_output (T W : Type) := mk_foc_output {
  rotor_current : dq T; requested_voltage : dq W; voltage : dq T;
  stationary_voltage : ab T; foc_duty : abc T; foc_saturated : bool }.
Arguments mk_foc_output {T W}. Arguments rotor_current {T W}. Arguments requested_voltage {T W}.
Arguments voltage {T W}. Arguments stationary_voltage {T W}. Arguments foc_duty {T W}.
Arguments foc_saturated {T W}.

Record speed_foc_config (T W : Type) := mk_speed_foc_config {
  inner : foc_config T W; speed_kp : W; speed_ki : W; current_limit : T; foc_pole_pairs : Z }.
Arguments mk_speed_foc_config {T W}. Arguments inner {T W}. Arguments speed_kp {T W}.
Arguments speed_ki {T W}. Arguments current_limit {T W}. Arguments foc_pole_pairs {T W}.

Record speed_foc (T W : Type) := mk_speed_foc {
  current_loop : foc T W; speed_loop : pid T W; s_pole_pairs : Z }.
Arguments mk_speed_foc {T W}. Arguments current_loop {T W}. Arguments speed_loop {T W}.
Arguments s_pole_pairs {T W}.

Record speed_foc_output (T W : Type) := mk_speed_foc_output {
  current_result : foc_output T W; reference_dq : dq T; mechanical_speed : T }.
Arguments mk_speed_foc_output {T W}. Arguments current_result {T W}. Arguments reference_dq {T W}.
Arguments mechanical_speed {T W}.

(** What the variants choose: the sign test of the integration direction against the voltage
    request, given (zero, delta_d, delta_q, raw_d, raw_q), and the all-zero objects of [{0}]. *)
Class FcFoc (T W : Type) := {
  foc_outward : W -> W -> W -> W -> W -> fc bool;
  fc_zero_t : T;
  fc_zero_w : W;
}.

(** [status = callee(..., &local); if (status != LINEARS_OK) return status;] *)
Definition callee {A} (local : A) (r : linears_status_t * option A) : fc A :=
  v ← assign (r.1, default local r.2); check;; mret v.

(** [status = f(&sum, ...); if (status != LINEARS_OK) return status;] on the accumulator. *)
Definition fixed_mac (sum : linears_accum_t) (a b : Z) : fc linears_accum_t :=
  callee sum (linears_fixed_mac (Some sum) a b).

(** q15 and q31: the sign of the exact product sum. *)
Definition foc_outward_q (_ delta_d delta_q raw_d raw_q : Z) : fc bool :=
  projection ← fixed_mac (mk_accum 0 0) delta_d raw_d;
  projection ← fixed_mac projection delta_q raw_q;
  mret ((Z.shiftr (high projection) 63 =? 0) &&
        (negb (high projection =? 0) || negb (low projection =? 0))).

#[export] Instance fcq_foc : FcFoc Z Z :=
  {| foc_outward := foc_outward_q; fc_zero_t := 0; fc_zero_w := 0 |}.

Section Foc.
Context {T W : Type} `{FcArith T W}.

(** f32 and f64: the projection of the independently normalized vectors. *)
Definition foc_outward_native (zero delta_d delta_q raw_d raw_q : W) : fc bool :=
  delta_scale ← FC_ABS delta_d;
  component ← FC_ABS delta_q;
  let delta_scale := if 0 <? FC_CMP component delta_scale then component else delta_scale in
  voltage_scale ← FC_ABS raw_d;
  component ← FC_ABS raw_q;
  let voltage_scale := if 0 <? FC_CMP component voltage_scale then component else voltage_scale in
  projection ← (if 0 <? FC_CMP delta_scale zero then
                  projection ← lift2 FC_MUL (FC_DIV delta_d delta_scale) (FC_DIV raw_d voltage_scale);
                  component ← lift2 FC_MUL (FC_DIV delta_q delta_scale) (FC_DIV raw_q voltage_scale);
                  FC_ADD projection component
                else mret zero);
  check;;
  mret (0 <? FC_CMP projection zero).

Context `{FcFoc T W}.

(** ** The radial limiter *)

Definition foc_radial_limit (d q radius : W) : fc (W * W * bool) :=
  magnitude ← FC_HYPOT d q;
  check;;
  let saturated := 0 <? FC_CMP magnitude radius in
  limited ← (if saturated then
               d ← FC_RESCALE d radius magnitude;
               q ← FC_RESCALE q radius magnitude;
               mret (d, q)
             else mret (d, q));
  check;;
  mret (limited.1, limited.2, saturated).

(** ** The current loop *)

Definition foc_init_body (config : foc_config T W) : fc (foc T W) :=
  kp_d' ← FC_ACC_LOAD (kp_d config); ki_d' ← FC_ACC_LOAD (ki_d config);
  kp_q' ← FC_ACC_LOAD (kp_q config); ki_q' ← FC_ACC_LOAD (ki_q config);
  radius ← FC_LOAD (voltage_limit config);
  zero ← FC_I 0;
  check;;
  fail_if ((FC_CMP kp_d' zero <? 0) || (FC_CMP ki_d' zero <? 0) || (FC_CMP kp_q' zero <? 0) ||
           (FC_CMP ki_q' zero <? 0) || (FC_CMP radius zero <=? 0)) LINEARS_ERROR_DOMAIN;;
  mret (mk_foc config (mk_dq zero zero)).

Definition foc_init (ctx : option (foc T W)) (config : option (foc_config T W))
    : linears_status_t * option (foc T W) :=
  match ctx, config with
  | Some old, Some c => let r := run (foc_init_body c) old in (r.1, Some r.2)
  | _, _ => (LINEARS_ERROR_ARGUMENT, ctx)
  end.

(** Conditional integration: the increments are kept unless the request is saturated and they
    point outward; the result is (integral, request, limited, saturated). *)
Definition foc_anti_windup (zero radius : W) (integral delta p candidate raw : W * W)
    (limit : W * W * bool) : fc (dq W * (W * W) * (W * W * bool)) :=
  let kept := (mk_dq candidate.1 candidate.2, raw, limit) in
  if limit.2 then
    outward ← foc_outward zero delta.1 delta.2 raw.1 raw.2;
    (if (outward : bool) then
       raw_d ← FC_ADD p.1 integral.1;
       raw_q ← FC_ADD p.2 integral.2;
       check;;
       limit ← foc_radial_limit raw_d raw_q radius;
       mret (mk_dq integral.1 integral.2, (raw_d, raw_q), limit)
     else mret kept)
  else mret kept.

(** The smaller of the configured ceiling and the linear range of the bus. *)
Definition foc_radius (limit : T) (bus : W) : fc W :=
  radius ← FC_LOAD limit;
  bus_radius ← lift2 FC_DIV (mret bus) (lift1 FC_SQRT (FC_I 3));
  mret (if FC_CMP bus_radius radius <? 0 then bus_radius else radius).

Definition local_dq : dq T := mk_dq fc_local_t fc_local_t.
Definition local_ab : ab T := mk_ab fc_local_t fc_local_t.
Definition local_abc : abc T := mk_abc fc_local_t fc_local_t fc_local_t.

Definition foc_step_work (next : foc T W) (current : ab T) (reference : dq T)
    (electrical_angle dc_bus dt : T) : fc (foc T W * foc_output T W) :=
  let c := foc_cfg next in
  period ← FC_LOAD dt; bus ← FC_LOAD dc_bus; angle ← FC_LOAD electrical_angle;
  zero ← FC_I 0; one ← FC_I 1;
  check;;
  fail_if ((FC_CMP period zero <=? 0) || (FC_CMP bus zero <=? 0) || (FC_CMP angle zero <? 0) ||
           (0 <=? FC_CMP angle one)) LINEARS_ERROR_DOMAIN;;
  rotor ← callee local_dq (park current electrical_angle (Some local_dq));
  error_d ← lift2 FC_SUB (FC_LOAD (dq_d reference)) (FC_LOAD (dq_d rotor));
  error_q ← lift2 FC_SUB (FC_LOAD (dq_q reference)) (FC_LOAD (dq_q rotor));
  p_d ← lift2 FC_MUL (FC_ACC_LOAD (kp_d c)) (mret error_d);
  p_q ← lift2 FC_MUL (FC_ACC_LOAD (kp_q c)) (mret error_q);
  delta_d ← lift2 FC_MUL (FC_ACC_LOAD (ki_d c)) (mret period);
  delta_d ← FC_MUL delta_d error_d;
  delta_q ← lift2 FC_MUL (FC_ACC_LOAD (ki_q c)) (mret period);
  delta_q ← FC_MUL delta_q error_q;
  candidate_d ← FC_ADD (dq_d (foc_integral next)) delta_d;
  candidate_q ← FC_ADD (dq_q (foc_integral next)) delta_q;
  raw_d ← FC_ADD p_d candidate_d;
  raw_q ← FC_ADD p_q candidate_q;
  radius ← foc_radius (voltage_limit c) bus;
  check;;
  limit ← foc_radial_limit raw_d raw_q radius;
  kept ← foc_anti_windup zero radius (dq_d (foc_integral next), dq_q (foc_integral next)) (delta_d, delta_q)
           (p_d, p_q) (candidate_d, candidate_q) (raw_d, raw_q) limit;
  let '(integral, (raw_d, raw_q), (limited_d, limited_q, saturated)) := kept in
  request_d ← acc_store raw_d; request_q ← acc_store raw_q;
  voltage_d ← store limited_d; voltage_q ← store limited_q;
  check;;
  let v := mk_dq voltage_d voltage_q in
  stationary ← callee local_ab (inverse_park v electrical_angle (Some local_ab));
  duty ← callee local_abc (svpwm stationary dc_bus (Some local_abc));
  mret (mk_foc c integral,
        mk_foc_output rotor (mk_dq request_d request_q) v stationary duty saturated).

(** Context and output are two objects of the given sizes. *)
Definition foc_step (sizeof_foc sizeof_output : Z) (ctx : option (Z * foc T W)) (current : ab T)
    (reference : dq T) (electrical_angle dc_bus dt : T) (output : option (Z * foc_output T W))
    : linears_status_t * (option (Z * foc T W) * option (Z * foc_output T W)) :=
  match ctx, output with
  | Some (px, old), Some (po, out) =>
      if fc_overlap px sizeof_foc po sizeof_output then (LINEARS_ERROR_ALIAS, (ctx, output))
      else
        let r := run (foc_step_work old current reference electrical_angle dc_bus dt) (old, out) in
        (r.1, (Some (px, r.2.1), Some (po, r.2.2)))
  | _, _ => (LINEARS_ERROR_ARGUMENT, (ctx, output))
  end.

(** ** The speed cascade *)

(** [FC_TYPE(pid_config) speed = {0}] with the four fields the speed loop sets. *)
Definition speed_pid_config (config : speed_foc_config T W) (lower' : T) : pid_config T W :=
  mk_pid_config (speed_kp config) (speed_ki config) fc_zero_w lower' (current_limit config) 0 0
    fc_zero_w fc_zero_w fc_zero_t fc_zero_t fc_zero_t.

Definition speed_foc_init_body (config : speed_foc_config T W) (local_foc : foc T W) (local_pid : pid T W)
    : fc (speed_foc T W) :=
  fail_if (foc_pole_pairs config =? 0) LINEARS_ERROR_DOMAIN;;
  limit ← FC_LOAD (current_limit config);
  kp' ← FC_ACC_LOAD (speed_kp config);
  ki' ← FC_ACC_LOAD (speed_ki config);
  zero ← FC_I 0;
  check;;
  fail_if ((FC_CMP limit zero <=? 0) || (FC_CMP kp' zero <? 0) || (FC_CMP ki' zero <? 0))
    LINEARS_ERROR_DOMAIN;;
  lower' ← lift1 store (FC_NEG limit);
  initial ← store zero;
  check;;
  current ← callee local_foc (foc_init (Some local_foc) (Some (inner config)));
  speed ← callee local_pid (pid_init (Some local_pid) (Some (speed_pid_config config lower')) initial);
  mret (mk_speed_foc current speed (foc_pole_pairs config)).

(** The locals of the body start as the caller's object does, uninitialised. *)
Definition speed_foc_init (ctx : option (speed_foc T W)) (config : option (speed_foc_config T W))
    : linears_status_t * option (speed_foc T W) :=
  match ctx, config with
  | Some old, Some c =>
      let r := run (speed_foc_init_body c (current_loop old) (speed_loop old)) old in (r.1, Some r.2)
  | _, _ => (LINEARS_ERROR_ARGUMENT, ctx)
  end.

Definition set_integral (x : pid T W) (v : W) : pid T W :=
  mk_pid (config x) v (previous_error x) (previous_measurement x) (derivative x) (cached_dt x)
    (integral_step x) (derivative_gain x) (filter_weight x) (history x).

Definition local_foc_output : foc_output T W :=
  mk_foc_output local_dq (mk_dq fc_local_w fc_local_w) local_dq local_ab local_abc false.
Definition local_pid_output : pid_output T W :=
  mk_pid_output fc_local_t fc_local_w fc_local_w fc_local_w false.

(** The addresses of the locals [next.current] and [result.current], which do not overlap. *)
Definition speed_foc_step_work (sizeof_foc sizeof_foc_output next_current_at result_current_at : Z)
    (ctx : speed_foc T W) (current : ab T) (mechanical_reference electrical_speed electrical_angle
    dc_bus dt : T) : fc (speed_foc T W * speed_foc_output T W) :=
  mechanical ← lift2 FC_DIV (FC_LOAD electrical_speed) (FC_I (s_pole_pairs ctx));
  reference ← FC_LOAD mechanical_reference;
  speed_error ← FC_SUB reference mechanical;
  period ← FC_LOAD dt;
  out_speed ← store mechanical;
  ref_d ← lift1 store (FC_I 0);
  check;;
  stepped ← assign (run (pid_step_work (speed_loop ctx) reference mechanical period)
                      (speed_loop ctx, local_pid_output));
  check;;
  let ref := mk_dq ref_d (pid_command stepped.2) in
  inner_step ← assign (foc_step sizeof_foc sizeof_foc_output
                         (Some (next_current_at, current_loop ctx)) current ref electrical_angle
                         dc_bus dt (Some (result_current_at, local_foc_output)));
  check;;
  let next_foc := default (current_loop ctx) (snd <$> inner_step.1) in
  let result := default local_foc_output (snd <$> inner_step.2) in
  speed ← (if foc_saturated result then
             residual ← lift2 FC_SUB (FC_ACC_LOAD (dq_q (requested_voltage result)))
                          (FC_LOAD (dq_q (voltage result)));
             zero ← FC_I 0;
             check;;
             mret (if ((0 <? FC_CMP speed_error zero) && (0 <? FC_CMP residual zero)) ||
                      ((FC_CMP speed_error zero <? 0) && (FC_CMP residual zero <? 0))
                   then set_integral stepped.1 (integral (speed_loop ctx)) else stepped.1)
           else mret stepped.1);
  mret (mk_speed_foc next_foc speed (s_pole_pairs ctx), mk_speed_foc_output result ref out_speed).

Definition speed_foc_step (sizeof_foc sizeof_foc_output next_current_at result_current_at : Z)
    (sizeof_ctx sizeof_output : Z) (ctx : option (Z * speed_foc T W)) (current : ab T)
    (mechanical_reference electrical_speed electrical_angle dc_bus dt : T)
    (output : option (Z * speed_foc_output T W))
    : linears_status_t * (option (Z * speed_foc T W) * option (Z * speed_foc_output T W)) :=
  match ctx, output with
  | Some (px, old), Some (po, out) =>
      if fc_overlap px sizeof_ctx po sizeof_output then (LINEARS_ERROR_ALIAS, (ctx, output))
      else
        let r := run (speed_foc_step_work sizeof_foc sizeof_foc_output next_current_at result_current_at
                        old current mechanical_reference electrical_speed electrical_angle dc_bus dt)
                   (old, out) in
        (r.1, (Some (px, r.2.1), Some (po, r.2.2)))
  | _, _ => (LINEARS_ERROR_ARGUMENT, (ctx, output))
  end.
End Foc.
