(* ===== verification/FocQ.v ===== *)
(** * Field-oriented control in exact integers

    The q15 and q31 instances of Foc.v: what the transforms, the radial limiter
    and the current loop return, and the rule that decides whether the integrals
    move. *)
From S2P Require Import Prelude MachineInt Status Wide Numeric FcMonad Cordic FcVariants FcBase FcPid FcPidQ FcOps Foc.

Lemma wp_callee {A} (local : A) (r : linears_status_t * option A) (Q : A -> Prop) :
  (r.1 = LINEARS_OK -> Q (default local r.2)) -> wp (callee local r) Q.
Proof. intros HQ. unfold wp, callee, assign, mbind, fc_bind, check. cbn. destruct r as [[] o]; cbn; auto; discriminate. Qed.

Lemma settled_callee {A} (local : A) r : settled (callee local r).
Proof. unfold callee. apply settled_bind. intros. apply settled_check_ret. Qed.

Lemma wp_callee_bind {A B} (local : A) (r : linears_status_t * option A) (k : A -> fc B) Q :
  (r.1 = LINEARS_OK -> wp (k (default local r.2)) Q) -> wp (callee local r ≫= k) Q.
Proof. intros HQ. apply wp_bind_settled; [apply settled_callee|]. by apply wp_callee. Qed.

Definition ab_of (f : q_format) (x : ab Z) : Prop := q_repr f (alpha x) /\ q_repr f (beta x).
Definition dq_of (f : q_format) (x : dq Z) : Prop := q_repr f (dq_d x) /\ q_repr f (dq_q x).

Section Q.
Variable f : q_format.

#[local] Instance foc_arith : FcArith Z Z := fcq f.
#[local] Instance foc_laws : FcLaws Z Z := fcq_laws f.
#[local] Instance foc_sticky : FcSticky Z Z := fcq_sticky f.

(** ** The exact sign of the integration direction *)

Lemma fixed_mac_wp s a b : accum_ok s -> is_i64 a -> is_i64 b ->
  wp (fixed_mac s a b) (fun r => accum_ok r /\ accum_value r = accum_value s + a * b).
Proof.
  intros Hs Ha Hb. apply wp_callee.
  destruct (linears_fixed_mac_msu_spec s a b Hs Ha Hb) as [(r & E & Hr & Hv) _]. rewrite E. unfold deliver.
  destruct (fits_i128 _) eqn:F; cbn; [|done]. intros _. split; [done|]. apply Hv. by apply fits_i128_spec.
Qed.

Lemma accum_positive r : accum_ok r ->
  ((Z.shiftr (high r) 63 =? 0) && (negb (high r =? 0) || negb (low r =? 0))) = (0 <? accum_value r).
Proof.
  intros [Hl Hh]. rewrite Z.shiftr_div_pow2 by lia. change (2 ^ 63) with 9223372036854775808.
  unfold is_u64 in *. unfold accum_value, accum_unsigned, two64, two128.
  destruct (Z.ltb_spec (high r) 9223372036854775808) as [Hs|Hs].
  - rewrite Z.div_small by lia. destruct (Z.eqb_spec (high r) 0), (Z.eqb_spec (low r) 0); cbn; symmetry;
      (apply Z.ltb_lt || apply Z.ltb_ge); lia.
  - assert (1 <= high r / 9223372036854775808) by (apply Z.div_le_lower_bound; lia).
    rewrite (proj2 (Z.eqb_neq _ _)) by lia. symmetry. apply Z.ltb_ge. lia.
Qed.

(** The increment (dd, dq) points outward of the request (rd, rq) iff their dot product is positive. *)
Lemma foc_outward_wp zero dd dq rd rq : is_i64 dd -> is_i64 dq -> is_i64 rd -> is_i64 rq ->
  wp (foc_outward zero dd dq rd rq) (fun o => o = (0 <? dd * rd + dq * rq)).
Proof.
  intros. cbn [foc_outward fcq_foc]. unfold foc_outward_q.
  assert (accum_ok (mk_accum 0 0)) as Hzero by (split; cbn; rlia).
  apply wp_bind_settled; [apply settled_callee|]. eapply wp_mono; [by apply fixed_mac_wp|]. intros s [Hs Vs].
  apply wp_bind_settled; [apply settled_callee|]. eapply wp_mono; [by apply fixed_mac_wp|]. intros t [Ht Vt].
  apply wp_ret. rewrite accum_positive by done. rewrite Vt, Vs. reflexivity.
Qed.

(** ** The transforms *)

(** The stationary vector in the rotating frame of (s, c), each product rounded once. *)
Definition rotate_d (a b s c : Z) : Z := rmul a c + rmul b s.
Definition rotate_q (a b s c : Z) : Z := rmul b c - rmul a s.

Lemma q_sincos a out : is_i64 a ->
  total (FC_SINCOS a out) (fun sc => on_circle sc.1 sc.2 /\
    Z.abs sc.1 <= LINEARS_FIXED_ONE /\ Z.abs sc.2 <= LINEARS_FIXED_ONE).
Proof. intros Ha. eapply total_mono; [by apply fcq_sincos_total|]. tauto. Qed.

(** The vector rotated into the frame of (s, c), and the status that storing it leaves. *)
Lemma park_wp cur angle old : ab_of f cur -> q_repr f angle ->
  (park cur angle (Some old)).1 = LINEARS_OK -> dq_of f (default old (park cur angle (Some old)).2).
Proof.
  intros [Ha Hb] Hg. unfold park, with_out.
  match goal with |- context [run ?m old] => assert (wp m (dq_of f)) as Hwp end.
  { apply wp_bind; [eapply wp_mono; [apply (q_i f); lia|intros s _]|solve_sticky].
    apply wp_bind; [eapply wp_mono; [apply (q_i f); lia|intros c _]|solve_sticky].
    wp_call (q_load f) as a [-> Hfa]. wp_call (q_load f) as b [-> Hfb]. wp_call (q_load f) as t [-> Hft].
    apply wp_bind; [|solve_sticky].
    destruct (q_sincos (fcq_field f angle) (s, c) Hft) as ((sn, cs) & E & _ & Hs & Hc). unfold wp. rewrite E. intros _.
    cbn [fst snd] in Hs, Hc. assert (is_i64 sn /\ is_i64 cs) as [Hsn Hcs] by (unfold LINEARS_FIXED_ONE in *; split; rlia).
    apply wp_bind; [apply wp_lift1; [apply wp_lift2; [|solve_sticky|solve_sticky]|solve_sticky]|solve_sticky].
    eapply wp_mono; [by apply (q_mul f)|]. intros x [-> Hx]. eapply wp_mono; [by apply (q_mul f)|]. intros y [-> Hy].
    eapply wp_mono; [by apply (q_add f)|]. intros z [-> Hz]. eapply wp_mono; [by apply (q_store f)|]. intros rd (_ & Hrd & _).
    apply wp_bind; [apply wp_lift1; [apply wp_lift2; [|solve_sticky|solve_sticky]|solve_sticky]|solve_sticky].
    eapply wp_mono; [by apply (q_mul f)|]. intros x' [-> Hx']. eapply wp_mono; [by apply (q_mul f)|]. intros y' [-> Hy'].
    eapply wp_mono; [by apply (q_sub f)|]. intros z' [-> Hz']. eapply wp_mono; [by apply (q_store f)|]. intros rq (_ & Hrq & _).
    by apply wp_ret. }
  destruct (run_cases _ old _ Hwp) as [[Er Hs]|(r & Er & Hr)]; rewrite Er; cbn; [done|by intros _].
Qed.

(** ** The radial limiter *)

(** A vector whose norm m exceeds the radius is scaled by radius/m, each component rounded once. *)
Definition limited (d q radius m : Z) : Z * Z * bool :=
  if radius <? m then (div_nearest (d * radius) m, div_nearest (q * radius) m, true) else (d, q, false).

Lemma foc_radial_limit_wp d q radius : is_i64 d -> is_i64 q -> is_i64 radius ->
  wp (foc_radial_limit d q radius) (fun r => exists m, fcq_hypot d q LINEARS_OK = Next m LINEARS_OK /\
    r = limited d q radius m /\ is_i64 r.1.1 /\ is_i64 r.1.2).
Proof.
  intros Hd Hq Hr. unfold foc_radial_limit, limited.
  apply wp_bind; [eapply wp_mono; [by apply wp_eq, (q_hypot f)|]|solve_sticky]. intros m [Hm Em].
  apply wp_check_bind. cbv zeta. rewrite (q_gt f). destruct (radius <? m) eqn:Ec.
  - apply wp_bind; [|solve_sticky].
    wp_call (q_rescale_any f) as d' (Hnz & -> & Hd'). wp_call (q_rescale_any f) as q' (_ & -> & Hq').
    apply wp_ret, wp_check_bind, wp_ret. exists m. by rewrite Ec.
  - apply wp_bind; [|solve_sticky]. apply wp_ret, wp_check_bind, wp_ret. exists m. by rewrite Ec.
Qed.

Lemma foc_radial_limit_sticky d q r : sticky (foc_radial_limit d q r).
Proof. unfold foc_radial_limit. solve_sticky. Qed.

Lemma settled_radial_limit d q r : settled (foc_radial_limit d q r).
Proof.
  unfold foc_radial_limit. apply settled_bind. intros m. apply settled_bind. intros _. apply settled_bind. intros l.
  apply settled_check_ret.
Qed.

Lemma foc_radius_wp limit bus : q_repr f limit -> is_i64 bus ->
  wp (foc_radius limit bus) (fun r => is_i64 r /\ r <= fcq_field f limit).
Proof.
  intros Hl Hb. unfold foc_radius. wp_call (q_load f) as r [-> Hr].
  apply wp_bind; [|solve_sticky]. apply wp_lift2; [apply wp_ret|solve_sticky|solve_sticky].
  apply wp_lift1; [|solve_sticky]. eapply wp_mono; [apply (q_i f); lia|]. intros three [_ H3].
  eapply wp_mono; [by apply (q_sqrt f)|]. intros root [Hroot _].
  eapply wp_mono; [by apply fcq_div_wp|]. intros br Hbr. apply wp_ret. rewrite (q_lt f).
  destruct (Z.ltb_spec br (fcq_field f limit)); split; try done; lia.
Qed.

Lemma foc_radius_sticky limit bus : sticky (foc_radius limit bus).
Proof. unfold foc_radius. solve_sticky. Qed.

#[local] Hint Resolve foc_radial_limit_sticky foc_radius_sticky : sticky.

(** ** The current loop *)

(** What init validates and every step keeps. *)
Record foc_ok (x : foc Z Z) : Prop := {
  foc_gains : is_i64 (kp_d (foc_cfg x)) /\ is_i64 (ki_d (foc_cfg x)) /\
    is_i64 (kp_q (foc_cfg x)) /\ is_i64 (ki_q (foc_cfg x));
  foc_signs : 0 <= kp_d (foc_cfg x) /\ 0 <= ki_d (foc_cfg x) /\ 0 <= kp_q (foc_cfg x) /\ 0 <= ki_q (foc_cfg x);
  foc_limit : q_repr f (voltage_limit (foc_cfg x)) /\ 0 < fcq_field f (voltage_limit (foc_cfg x));
  foc_integrals : is_i64 (dq_d (foc_integral x)) /\ is_i64 (dq_q (foc_integral x));
}.

(** Proportional part and integral increment of one axis. *)
Definition axis_terms (kp ki error dt : Z) : Z * Z := (rmul kp error, rmul (rmul ki dt) error).

(** The d and q terms of a period, given the current errors. *)
Definition foc_terms (x : foc Z Z) (error_d error_q dt : Z) : dq (Z * Z) :=
  let c := foc_cfg x in mk_dq (axis_terms (kp_d c) (ki_d c) error_d dt) (axis_terms (kp_q c) (ki_q c) error_q dt).

Definition dq_plus (a b : dq Z) : dq Z := mk_dq (dq_d a + dq_d b) (dq_q a + dq_q b).
Definition dq_dot (a b : dq Z) : Z := dq_d a * dq_d b + dq_q a * dq_q b.

(** The integral and the voltage request, given the radius and the norm m of the tentative request:
    the increments are dropped exactly when that norm exceeds the radius and their dot product with
    the request is positive. *)
Definition foc_reference (integral : dq Z) (t : dq (Z * Z)) (radius m : Z) : dq Z * dq Z :=
  let p := mk_dq (dq_d t).1 (dq_q t).1 in
  let delta := mk_dq (dq_d t).2 (dq_q t).2 in
  let raw := dq_plus p (dq_plus integral delta) in
  let next := if (radius <? m) && (0 <? dq_dot delta raw) then integral else dq_plus integral delta in
  (next, dq_plus p next).

Lemma foc_anti_windup_wp (zero radius m : Z) (integral delta p candidate raw : Z * Z) (limit : Z * Z * bool) :
  is_i64 radius -> is_i64 integral.1 -> is_i64 integral.2 -> is_i64 delta.1 -> is_i64 delta.2 ->
  is_i64 p.1 -> is_i64 p.2 -> is_i64 candidate.1 -> is_i64 candidate.2 -> is_i64 raw.1 -> is_i64 raw.2 ->
  is_i64 limit.1.1 -> is_i64 limit.1.2 ->
  limit = limited raw.1 raw.2 radius m ->
  wp (foc_anti_windup zero radius integral delta p candidate raw limit) (fun r =>
    is_i64 (dq_d r.1.1) /\ is_i64 (dq_q r.1.1) /\ is_i64 r.1.2.1 /\ is_i64 r.1.2.2 /\
    is_i64 r.2.1.1 /\ is_i64 r.2.1.2 /\
    if (radius <? m) && (0 <? delta.1 * raw.1 + delta.2 * raw.2)
    then exists m', fcq_hypot (p.1 + integral.1) (p.2 + integral.2) LINEARS_OK = Next m' LINEARS_OK /\
      r = (mk_dq integral.1 integral.2, (p.1 + integral.1, p.2 + integral.2),
           limited (p.1 + integral.1) (p.2 + integral.2) radius m')
    else r = (mk_dq candidate.1 candidate.2, raw, limit)).
Proof.
  intros Hr Hi1 Hi2 Hd1 Hd2 Hp1 Hp2 Hc1 Hc2 Hraw1 Hraw2 Hl1 Hl2 El. unfold foc_anti_windup.
  assert (limit.2 = (radius <? m)) as Es by (rewrite El; unfold limited; by destruct (radius <? m)).
  rewrite Es. destruct (radius <? m); cbn [andb]; [|by apply wp_ret].
  apply wp_bind_settled.
  { cbn [foc_outward fcq_foc]. unfold foc_outward_q. apply settled_bind. intros s.
    apply settled_ret_bind, settled_callee. }
  eapply wp_mono; [by apply foc_outward_wp|]. intros o ->. case_if; [|by apply wp_ret].
  wp_call (q_add f) as a [-> Ha]. wp_call (q_add f) as b [-> Hb]. apply wp_check_bind.
  apply wp_bind_settled; [apply settled_radial_limit|].
  eapply wp_mono; [by apply foc_radial_limit_wp|]. intros l (m' & Em & -> & H1 & H2). apply wp_ret.
  do 6 (split; [done|]). by exists m'.
Qed.

(** What a successful period returns. *)
Definition foc_post (x : foc Z Z) (current : ab Z) (reference : dq Z) (angle bus dt : Z)
    (r : foc Z Z * foc_output Z Z) : Prop :=
  exists rotor radius m m',
    let t := foc_terms x (fcq_field f (dq_d reference) - fcq_field f (dq_d rotor))
               (fcq_field f (dq_q reference) - fcq_field f (dq_q rotor)) (fcq_field f dt) in
    let raw := dq_plus (mk_dq (dq_d t).1 (dq_q t).1) (dq_plus (foc_integral x) (mk_dq (dq_d t).2 (dq_q t).2)) in
    let next := foc_reference (foc_integral x) t radius m in
    let l := limited (dq_d next.2) (dq_q next.2) radius m' in
    0 < fcq_field f dt /\ 0 < fcq_field f bus /\ 0 <= fcq_field f angle < LINEARS_FIXED_ONE /\
    radius <= fcq_field f (voltage_limit (foc_cfg x)) /\
    park current angle (Some local_dq) = (LINEARS_OK, Some rotor) /\
    fcq_hypot (dq_d raw) (dq_q raw) LINEARS_OK = Next m LINEARS_OK /\
    fcq_hypot (dq_d next.2) (dq_q next.2) LINEARS_OK = Next m' LINEARS_OK /\
    foc_cfg r.1 = foc_cfg x /\ foc_integral r.1 = next.1 /\
    rotor_current r.2 = rotor /\ requested_voltage r.2 = next.2 /\ foc_saturated r.2 = l.2 /\
    voltage r.2 = mk_dq (q_round f l.1.1) (q_round f l.1.2) /\
    inverse_park (voltage r.2) angle (Some local_ab) = (LINEARS_OK, Some (stationary_voltage r.2)) /\
    svpwm (stationary_voltage r.2) bus (Some local_abc) = (LINEARS_OK, Some (foc_duty r.2)).

Lemma some_status {A} (p : linears_status_t * option A) local :
  p.1 = LINEARS_OK -> p.2 <> None -> p = (LINEARS_OK, Some (default local p.2)).
Proof. destruct p as [s [v|]]; cbn; [by intros ->|done]. Qed.

Lemma with_out_some {R} (r : R) body : (with_out (Some r) body).2 <> None.
Proof. unfold with_out. by destruct (body r). Qed.

(** One axis up to its tentative request. *)
Lemma error_wp s t : q_repr f s -> q_repr f t ->
  wp (lift2 FC_SUB (FC_LOAD s) (FC_LOAD t)) (fun e => e = fcq_field f s - fcq_field f t /\ is_i64 e).
Proof.
  intros Hs Ht. apply wp_lift2; [|solve_sticky|solve_sticky]. eapply wp_mono; [by apply (q_load f)|]. intros a [-> Ha].
  eapply wp_mono; [by apply (q_load f)|]. intros b [-> Hb]. by apply (q_sub f).
Qed.

Lemma gain_wp k x : is_i64 k -> is_i64 x -> wp (lift2 FC_MUL (FC_ACC_LOAD k) (mret x)) (fun p => p = rmul k x /\ is_i64 p).
Proof.
  intros Hk Hx. apply wp_lift2; [|solve_sticky|solve_sticky]. eapply wp_mono; [by apply (q_acc_load f)|]. intros a [-> Ha].
  apply wp_ret. by apply (q_mul f).
Qed.

Lemma foc_step_work_wp x current reference angle bus dt : foc_ok x -> ab_of f current -> dq_of f reference ->
  q_repr f angle -> q_repr f bus -> q_repr f dt ->
  wp (foc_step_work x current reference angle bus dt)
    (fun r => foc_ok r.1 /\ foc_post x current reference angle bus dt r).
Proof.
  intros [(Hkd & Hid & Hkq & Hiq) Hsigns [Hl Hlpos] [Hi1 Hi2]] Hcur [Hr1 Hr2] Hang Hbus Hdt. unfold foc_step_work.
  wp_call (q_load f) as t [-> Ht]. wp_call (q_load f) as bu [-> Hbu]. wp_call (q_load f) as an [-> Han].
  apply wp_bind; [eapply wp_mono; [apply (q_i f); lia|intros zero [-> _]]|solve_sticky]. rewrite Z.mul_0_l.
  apply wp_bind; [eapply wp_mono; [apply (q_i f); lia|intros one [-> _]]|solve_sticky]. rewrite Z.mul_1_l.
  apply wp_check_bind, wp_fail_if_bind; [done|]. intros Hc.
  rewrite !(q_le f), (q_lt f), (q_cmp f) in Hc. zbool.
  apply wp_callee_bind. intros Epark.
  pose proof (park_wp current angle local_dq Hcur Hang Epark) as [Hro1 Hro2].
  apply (some_status _ local_dq) in Epark; [|apply with_out_some].
  set (rotor := default local_dq (park current angle (Some local_dq)).2) in *.
  wp_call error_wp as ed [Eed Hed]. wp_call error_wp as eq [Eeq Heq].
  wp_call gain_wp as pd [Epd Hpd]. wp_call gain_wp as pq [Epq Hpq].
  wp_call gain_wp as sd [Esd Hsd]. wp_call (q_mul f) as dd [Edd Hdd].
  wp_call gain_wp as sq [Esq Hsq]. wp_call (q_mul f) as dq' [Edq Hdq].
  wp_call (q_add f) as cd [Ecd Hcd]. wp_call (q_add f) as cq [Ecq Hcq].
  wp_call (q_add f) as rd [Erd Hrd]. wp_call (q_add f) as rq [Erq Hrq].
  wp_call foc_radius_wp as radius [Hrad Hradius]. apply wp_check_bind.
  apply wp_bind_settled; [apply settled_radial_limit|].
  eapply wp_mono; [by apply foc_radial_limit_wp|]. intros l (m & Em & El & Hl1 & Hl2).
  apply wp_bind; [eapply wp_mono; [by apply (foc_anti_windup_wp _ _ m)|]|solve_sticky].
  intros [[[nd nq] [qd qq]] [[ld lq] sat]]. cbn [fst snd dq_d dq_q]. intros (Hnd & Hnq & Hqd & Hqq & Hld & Hlq & Hkept).
  wp_step fc_acc_store_wp as ? ->. wp_step fc_acc_store_wp as ? ->.
  wp_call (q_store f) as vd [-> _]. wp_call (q_store f) as vq [-> _]. apply wp_check_bind. cbv zeta.
  apply wp_callee_bind. intros Einv. apply (some_status _ local_ab) in Einv; [|apply with_out_some].
  apply wp_callee_bind. intros Epwm. apply (some_status _ local_abc) in Epwm; [|apply with_out_some].
  apply wp_ret. split; [by split|].
  assert (exists m', fcq_hypot qd qq LINEARS_OK = Next m' LINEARS_OK /\ (ld, lq, sat) = limited qd qq radius m' /\
    (mk_dq nd nq, mk_dq qd qq) = foc_reference (foc_integral x)
      (foc_terms x (fcq_field f (dq_d reference) - fcq_field f (dq_d rotor))
         (fcq_field f (dq_q reference) - fcq_field f (dq_q rotor)) (fcq_field f dt)) radius m)
    as (m' & Em' & Elim & Eref).
  { unfold foc_reference, foc_terms, axis_terms, dq_plus, dq_dot. cbv zeta. cbn [dq_d dq_q fst snd].
    rewrite <- Eed, <- Eeq, <- Esd, <- Esq, <- Edd, <- Edq, <- Epd, <- Epq, <- Ecd, <- Ecq, <- Erd, <- Erq.
    destruct ((radius <? m) && (0 <? dd * rd + dq' * rq)).
    - destruct Hkept as (m' & Em' & Ek). injection Ek as -> -> -> -> E1. exists m'.
      split; [exact Em'|]. split; [exact E1|by destruct (foc_integral x)].
    - injection Hkept as -> -> -> -> E1. exists m. split; [exact Em|]. split; [by rewrite <- El|].
      cbn [dq_d dq_q]. by rewrite <- Erd, <- Erq. }
  exists rotor, radius, m, m'. cbv zeta. rewrite <- Eref. cbn [fst snd dq_d dq_q foc_cfg foc_integral
    rotor_current requested_voltage foc_saturated voltage stationary_voltage foc_duty].
  rewrite <- Elim. cbn [fst snd]. repeat (split; [done || lia|]).
  split; [|by repeat (split; [done|])].
  unfold foc_terms, axis_terms, dq_plus. cbn [dq_d dq_q fst snd].
  by rewrite <- Eed, <- Eeq, <- Esd, <- Esq, <- Edd, <- Edq, <- Epd, <- Epq, <- Ecd, <- Ecq, <- Erd, <- Erq.
Qed.
End Q.

(** ** Histories of calls *)

(** Any bit pattern of the configuration structure. *)
Definition foc_config_repr (f : q_format) (c : foc_config Z Z) : Prop :=
  is_i64 (kp_d c) /\ is_i64 (ki_d c) /\ is_i64 (kp_q c) /\ is_i64 (ki_q c) /\ q_repr f (voltage_limit c).

(** The contexts a client can hold: initialized once, then stepped, whatever the calls returned. *)
Inductive foc_reach (f : q_format) : foc Z Z -> Prop :=
| foc_reach_init junk c x : foc_config_repr f c ->
    @foc_init Z Z (fcq f) (Some junk) (Some c) = (LINEARS_OK, Some x) -> foc_reach f x
| foc_reach_step x sx so px po current reference angle bus dt o st x' o' :
    foc_reach f x -> ab_of f current -> dq_of f reference -> q_repr f angle -> q_repr f bus -> q_repr f dt ->
    @foc_step Z Z (fcq f) fcq_foc sx so (Some (px, x)) current reference angle bus dt (Some (po, o))
      = (st, (Some (px, x'), Some (po, o'))) -> foc_reach f x'.

Section Calls.
Variable f : q_format.

#[local] Instance foc_calls_arith : FcArith Z Z := fcq f.
#[local] Instance foc_calls_laws : FcLaws Z Z := fcq_laws f.
#[local] Instance foc_calls_sticky : FcSticky Z Z := fcq_sticky f.

Lemma foc_init_ok junk c x : foc_config_repr f c -> foc_init (Some junk) (Some c) = (LINEARS_OK, Some x) -> foc_ok f x.
Proof.
  intros (H1 & H2 & H3 & H4 & H5) E. unfold foc_init in E.
  assert (wp (foc_init_body c) (foc_ok f)) as Hwp.
  { unfold foc_init_body. wp_call (q_acc_load f) as a [-> _]. wp_call (q_acc_load f) as b [-> _].
    wp_call (q_acc_load f) as d [-> _]. wp_call (q_acc_load f) as e [-> _]. wp_call (q_load f) as r [-> _].
    apply wp_bind; [eapply wp_mono; [by apply (q_i f); lia|intros zero [-> Hz]]|solve_sticky]. rewrite Z.mul_0_l in *.
    apply wp_check_bind, wp_fail_if_bind; [done|]. intros Hc. rewrite !(q_lt f), (q_le f) in Hc. zbool.
    apply wp_ret. split; cbn; repeat split; done || lia || rlia. }
  destruct (run_cases _ junk _ Hwp) as [[Er Hs]|(r & Er & Hok)]; rewrite Er in E; injection E; [done|by intros <-].
Qed.

Lemma foc_step_cases x sx so px po current reference angle bus dt o st x' o' :
  foc_ok f x -> ab_of f current -> dq_of f reference -> q_repr f angle -> q_repr f bus -> q_repr f dt ->
  foc_step sx so (Some (px, x)) current reference angle bus dt (Some (po, o)) = (st, (Some (px, x'), Some (po, o'))) ->
  (st <> LINEARS_OK /\ x' = x /\ o' = o) \/
  (st = LINEARS_OK /\ foc_ok f x' /\ foc_post f x current reference angle bus dt (x', o')).
Proof.
  intros Hx Hc Hr Ha Hb Hd E. unfold foc_step in E.
  destruct (fc_overlap _ _ _ _); [injection E as <- <- <-; by left|]. cbv zeta in E.
  pose proof (foc_step_work_wp f x current reference angle bus dt Hx Hc Hr Ha Hb Hd) as Hwp.
  match type of E with context [run ?m (x, o)] =>
    destruct (run_cases m (x, o) _ Hwp) as [[Er Hs]|(r & Er & Hpost)] end;
    rewrite Er in E; cbn [fst snd] in E; injection E as <- <- <-; [by left|right; by destruct r].
Qed.

Lemma foc_reach_ok x : foc_reach f x -> foc_ok f x.
Proof.
  induction 1 as [junk c x Hc E|x sx so px po cur ref angle bus dt o st x' o' _ IH Hcur Href Ha Hb Hd E].
  - by eapply foc_init_ok.
  - by destruct (foc_step_cases x sx so px po cur ref angle bus dt o st x' o') as [(_ & -> & _)|(_ & Hok & _)].
Qed.
End Calls.


(** ** Witnesses *)

Definition sample_foc : foc Z Z :=
  mk_foc (mk_foc_config 2147483648 214748365 2147483648 214748365 1073741824) (mk_dq 0 0).
Definition blank_foc_output : foc_output Z Z :=
  mk_foc_output (mk_dq 0 0) (mk_dq 0 0) (mk_dq 0 0) (mk_ab 0 0) (mk_abc 0 0 0) false.
Definition sample_foc_call : linears_status_t * (option (Z * foc Z Z) * option (Z * foc_output Z Z)) :=
  @foc_step Z Z (fcq Q31) fcq_foc 64 96 (Some (1000, sample_foc)) (mk_ab 214748365 0) (mk_dq 0 1932735283)
    536870912 2147483647 214748365 (Some (2000, blank_foc_output)).
Definition sample_foc_after : foc Z Z * foc_output Z Z :=
  (default sample_foc (snd <$> sample_foc_call.2.1), default blank_foc_output (snd <$> sample_foc_call.2.2)).

Lemma sample_foc_reach : foc_reach Q31 sample_foc.
Proof.
  apply (foc_reach_init Q31 (mk_foc (mk_foc_config 9 9 9 9 9) (mk_dq 9 9))
    (mk_foc_config 2147483648 214748365 2147483648 214748365 1073741824)).
  - repeat split; cbn; rlia.
  - vm_compute. reflexivity.
Qed.

Lemma sample_foc_call_ok : sample_foc_call = (LINEARS_OK, (Some (1000, sample_foc_after.1), Some (2000, sample_foc_after.2))).
Proof. vm_compute. reflexivity. Qed.

