(* ===== verification/Smo.v ===== *)
(** * The sliding-mode observer: libs/fieldctrl/src/smo_impl.h

    A current predictor with a saturated injection, the back-EMF low-pass, the
    angle and speed tracker and the lock counter, generic in the arithmetic.
    What the variants select with #if, the low-pass filters of libs/filters and
    the order of division and saturation, is the class [FcSmo]. *)
From Stdlib Require Import SpecFloat.
From S2P Require Import Prelude MachineInt Status Numeric Float FcMonad Cordic FcVariants FcBase FilterBase Filters.
From S2P Require Import Foc.

Definition FIELDCTRL_SMO_FORWARD : Z := 1.
Definition FIELDCTRL_SMO_REVERSE : Z := -1.

(** ** Data *)

Record smo_config (T : Type) := mk_smo_config {
  smo_resistance : T; inductance : T; sample_dt : T; sliding_gain : T; boundary : T;
  emf_alpha : T; speed_alpha : T; min_emf : T; min_speed : T; max_speed : T;
  lock_samples : Z; direction : Z }.
Arguments mk_smo_config {T}. Arguments smo_resistance {T}. Arguments inductance {T}.
Arguments sample_dt {T}. Arguments sliding_gain {T}. Arguments boundary {T}. Arguments emf_alpha {T}.
Arguments speed_alpha {T}. Arguments min_emf {T}. Arguments min_speed {T}. Arguments max_speed {T}.
Arguments lock_samples {T}. Arguments direction {T}.

Record smo (T W LP : Type) := mk_smo {
  smo_cfg : smo_config T; current_hat : ab W; emf_alpha_filter : LP; emf_beta_filter : LP;
  speed_filter : LP; previous_angle : W; smo_angle : W; lock_count : Z; has_angle : bool }.
Arguments mk_smo {T W LP}. Arguments smo_cfg {T W LP}. Arguments current_hat {T W LP}.
Arguments emf_alpha_filter {T W LP}. Arguments emf_beta_filter {T W LP}. Arguments speed_filter {T W LP}.
Arguments previous_angle {T W LP}. Arguments smo_angle {T W LP}. Arguments lock_count {T W LP}.
Arguments has_angle {T W LP}.

Record smo_output (T W : Type) := mk_smo_output {
  out_current : ab T; emf : ab T; electrical_angle : T; electrical_speed : W;
  observable : bool; locked : bool }.
Arguments mk_smo_output {T W}. Arguments out_current {T W}. Arguments emf {T W}.
Arguments electrical_angle {T W}. Arguments electrical_speed {T W}. Arguments observable {T W}.
Arguments locked {T W}.

(** ** What the variants choose *)

Class FcSmo (T W LP : Type) `{FcArith T W} := {
  FC_LP_INIT : LP -> W -> W -> linears_status_t * option LP;
  FC_LP_RESET : LP -> W -> linears_status_t * option LP;
  FC_LP_STEP : LP -> W -> linears_status_t * option (LP * W);
  (** (sat_a, sat_b) from the errors, the boundary, one and minus one. *)
  smo_saturate : W -> W -> W -> W -> W -> fc (W * W);
}.

(** The smo_lowpass_ bridges of the fixed variants. *)
Definition smo_lowpass_init (ctx : ema Z Z) (alpha initial : Z) : linears_status_t * option (ema Z Z) :=
  let a := linears_fixed_to_q31 alpha (Some 0) in
  if status_ok a.1 then
    let value := linears_fixed_to_q31 initial (Some 0) in
    if status_ok value.1 then
      @ema_init Z Z (fixed_format Q31) (Some ctx) (default 0 a.2) (default 0 value.2)
    else (value.1, Some ctx)
  else (a.1, Some ctx).

Definition smo_lowpass_reset (ctx : ema Z Z) (initial : Z) : linears_status_t * option (ema Z Z) :=
  let value := linears_fixed_to_q31 initial (Some 0) in
  if status_ok value.1 then @ema_reset Z Z (fixed_format Q31) (Some ctx) (default 0 value.2)
  else (value.1, Some ctx).

Definition smo_lowpass_step (ctx : ema Z Z) (input : Z) : linears_status_t * option (ema Z Z * Z) :=
  let r := filters_ema_work_step (Some (ema_value ctx)) (ema_alpha ctx) input in
  if status_ok r.1 then
    let value := default (ema_value ctx) r.2 in (LINEARS_OK, Some (mk_ema (ema_alpha ctx) value, value))
  else (r.1, None).

Section Saturate.
Context {T W : Type} `{FcArith T W}.

(** Fixed: saturate before dividing. *)
Definition smo_saturate_fixed (error_a error_b boundary' one negative_one : W) : fc (W * W) :=
  negative_boundary ← FC_NEG boundary';
  check;;
  let sat (error : W) : fc W :=
    if 0 <=? FC_CMP error boundary' then mret one
    else if FC_CMP error negative_boundary <=? 0 then mret negative_one
    else FC_DIV error boundary' in
  sat_a ← sat error_a;
  sat_b ← sat error_b;
  mret (sat_a, sat_b).

(** Native: divide first, which preserves the range behaviour of the division. *)
Definition smo_saturate_native (error_a error_b boundary' one negative_one : W) : fc (W * W) :=
  sat_a ← FC_DIV error_a boundary';
  sat_b ← FC_DIV error_b boundary';
  check;;
  let clip (x : W) : W :=
    let x := if 0 <? FC_CMP x one then one else x in
    if FC_CMP x negative_one <? 0 then negative_one else x in
  mret (clip sat_a, clip sat_b).
End Saturate.

#[export] Instance fcq_smo (f : q_format) : @FcSmo Z Z (ema Z Z) (fcq f) := {|
  FC_LP_INIT := smo_lowpass_init;
  FC_LP_RESET := smo_lowpass_reset;
  FC_LP_STEP := smo_lowpass_step;
  smo_saturate := @smo_saturate_fixed Z Z (fcq f);
|}.

(** The native filters are those of libs/filters on the variant's own type. *)
Definition native_smo (f : float_format) (arith : FcArith spec_float spec_float)
    : @FcSmo spec_float spec_float (ema spec_float spec_float) arith := {|
  FC_LP_INIT := fun ctx alpha initial => @ema_init _ _ (native_format f) (Some ctx) alpha initial;
  FC_LP_RESET := fun ctx initial => @ema_reset _ _ (native_format f) (Some ctx) initial;
  FC_LP_STEP := fun ctx input =>
    match @ema_step_work _ _ (native_format f) ctx input with
    | inl e => (e, None) | inr r => (LINEARS_OK, Some r) end;
  smo_saturate := @smo_saturate_native _ _ arith;
|}.

Section Smo.
Context {T W LP : Type} `{FcArith T W} `{!FcSmo T W LP}.

(** ** Initialization *)

Definition smo_init_body (config : smo_config T) (initial_current : ab T) (old : smo T W LP)
    : fc (smo T W LP) :=
  fail_if ((lock_samples config =? 0) ||
           (negb (direction config =? FIELDCTRL_SMO_FORWARD) &&
            negb (direction config =? FIELDCTRL_SMO_REVERSE))) LINEARS_ERROR_DOMAIN;;
  resistance ← FC_LOAD (smo_resistance config); inductance' ← FC_LOAD (inductance config);
  period ← FC_LOAD (sample_dt config); gain ← FC_LOAD (sliding_gain config);
  boundary' ← FC_LOAD (boundary config);
  emf_alpha' ← FC_LOAD (emf_alpha config); speed_alpha' ← FC_LOAD (speed_alpha config);
  min_emf' ← FC_LOAD (min_emf config); min_speed' ← FC_LOAD (min_speed config);
  max_speed' ← FC_LOAD (max_speed config);
  hat_a ← FC_LOAD (alpha initial_current); hat_b ← FC_LOAD (beta initial_current);
  zero ← FC_I 0; one ← FC_I 1;
  check;;
  fail_if ((FC_CMP resistance zero <? 0) || (FC_CMP inductance' zero <=? 0) ||
           (FC_CMP period zero <=? 0) || (FC_CMP gain zero <=? 0) ||
           (FC_CMP boundary' zero <=? 0) || (FC_CMP emf_alpha' zero <=? 0) ||
           (0 <? FC_CMP emf_alpha' one) || (FC_CMP speed_alpha' zero <=? 0) ||
           (0 <? FC_CMP speed_alpha' one) || (FC_CMP min_emf' zero <=? 0) ||
           (FC_CMP min_speed' zero <=? 0) || (FC_CMP max_speed' min_speed' <=? 0)) LINEARS_ERROR_DOMAIN;;
  factor ← lift2 FC_ADD (mret resistance) (FC_DIV gain boundary');
  factor ← lift2 FC_MUL (mret period) (FC_DIV factor inductance');
  sample_angle ← FC_MUL max_speed' period;
  check;;
  two ← FC_I 2;
  fail_if (0 <=? FC_CMP factor two) LINEARS_ERROR_DOMAIN;;
  quarter_turn ← FC_RATIO 1 4;
  fail_if (0 <=? FC_CMP sample_angle quarter_turn) LINEARS_ERROR_DOMAIN;;
  fa ← callee (emf_alpha_filter old) (FC_LP_INIT (emf_alpha_filter old) emf_alpha' zero);
  fb ← callee (emf_beta_filter old) (FC_LP_INIT (emf_beta_filter old) emf_alpha' zero);
  fs ← callee (speed_filter old) (FC_LP_INIT (speed_filter old) speed_alpha' zero);
  mret (mk_smo config (mk_ab hat_a hat_b) fa fb fs zero zero 0 false).

Definition smo_init (ctx : option (smo T W LP)) (config : option (smo_config T)) (initial_current : ab T)
    : linears_status_t * option (smo T W LP) :=
  match ctx, config with
  | Some old, Some c => let r := run (smo_init_body c initial_current old) old in (r.1, Some r.2)
  | _, _ => (LINEARS_ERROR_ARGUMENT, ctx)
  end.

(** ** One sample *)

(** hat + step * (v - r * hat - z) on one axis. *)
Definition smo_predict (hat v r z step : W) : fc W :=
  derivative ← lift2 FC_SUB (mret v) (FC_MUL r hat);
  derivative ← FC_SUB derivative z;
  lift2 FC_ADD (mret hat) (FC_MUL step derivative).

Definition lowpass (filter : LP) (input : W) : fc (LP * W) :=
  callee (filter, input) (FC_LP_STEP filter input).

Definition smo_raw_angle (forward : bool) (ea eb : W) : fc W :=
  if forward then lift2 FC_ATAN2 (FC_NEG ea) (mret eb) else lift2 FC_ATAN2 (mret ea) (FC_NEG eb).

(** The difference of two angles, brought to half a turn. *)
Definition smo_difference (one raw_angle previous : W) : fc W :=
  difference ← FC_SUB raw_angle previous;
  half ← FC_RATIO 1 2;
  difference ← (if 0 <? FC_CMP difference half then FC_SUB difference one else mret difference);
  half ← FC_RATIO (-1) 2;
  (if FC_CMP difference half <? 0 then FC_ADD difference one else mret difference).

(** (raw speed, filtered speed, filter); zero speeds when there is no previous angle. *)
Definition smo_speed (zero one period raw_angle : W) (next : smo T W LP) : fc (W * W * LP) :=
  if has_angle next then
    difference ← smo_difference one raw_angle (previous_angle next);
    raw_speed ← FC_DIV difference period;
    check;;
    filtered ← lowpass (speed_filter next) raw_speed;
    mret (raw_speed, filtered.2, filtered.1)
  else mret (zero, zero, speed_filter next).

(** Minus the argument of the low-pass response at the estimated frequency. *)
Definition smo_phase (zero one speed period : W) (emf_alpha' : T) : fc W :=
  step ← FC_MUL speed period;
  sc ← FC_SINCOS step (zero, one);
  alpha' ← FC_LOAD emf_alpha';
  rho ← FC_SUB one alpha';
  numerator ← FC_MUL rho sc.1;
  denominator ← lift2 FC_ADD (mret alpha') (lift2 FC_MUL (mret rho) (FC_SUB one sc.2));
  FC_ATAN2 numerator denominator.

(** The conjunction that defines [observable]; its last two operands are evaluated only when the
    others hold. *)
Definition smo_observable (forward had_angle : bool) (zero raw_speed speed raw_magnitude
    speed_magnitude min_speed' max_speed' error_a error_b boundary' : W) : fc bool :=
  let direction_ok :=
    if forward then (0 <? FC_CMP raw_speed zero) && (0 <? FC_CMP speed zero)
    else (FC_CMP raw_speed zero <? 0) && (FC_CMP speed zero <? 0) in
  if had_angle && direction_ok && (0 <=? FC_CMP raw_magnitude min_speed') &&
     (FC_CMP raw_magnitude max_speed' <=? 0) && (0 <=? FC_CMP speed_magnitude min_speed') &&
     (FC_CMP speed_magnitude max_speed' <=? 0)
  then
    magnitude_a ← FC_ABS error_a;
    (if FC_CMP magnitude_a boundary' <=? 0 then
       magnitude_b ← FC_ABS error_b;
       mret (FC_CMP magnitude_b boundary' <=? 0)
     else mret false)
  else mret false.

(** The tracking part: (speed, speed filter, previous angle, angle, has_angle, observable). *)
Definition smo_track (zero one period boundary' error_a error_b ea eb : W) (next : smo T W LP)
    : fc (W * LP * W * W * bool * bool) :=
  let c := smo_cfg next in
  let forward := direction c =? FIELDCTRL_SMO_FORWARD in
  magnitude ← FC_HYPOT ea eb;
  check;;
  threshold ← FC_LOAD (min_emf c);
  if FC_CMP magnitude threshold <? 0 then
    fs ← callee (speed_filter next) (FC_LP_RESET (speed_filter next) zero);
    mret (zero, fs, previous_angle next, smo_angle next, false, false)
  else
    raw_angle ← smo_raw_angle forward ea eb;
    speeds ← smo_speed zero one period raw_angle next;
    let '(raw_speed, speed, fs) := speeds in
    phase ← smo_phase zero one speed period (emf_alpha c);
    angle ← lift1 FC_WRAP (FC_ADD raw_angle phase);
    min_speed' ← FC_LOAD (min_speed c); max_speed' ← FC_LOAD (max_speed c);
    raw_magnitude ← FC_ABS raw_speed; speed_magnitude ← FC_ABS speed;
    check;;
    ok ← smo_observable forward (has_angle next) zero raw_speed speed raw_magnitude speed_magnitude
           min_speed' max_speed' error_a error_b boundary';
    mret (speed, fs, raw_angle, angle, true, ok).

(** The saturating count of consecutive observable samples. *)
Definition smo_lock (count samples : Z) (ok : bool) : Z :=
  if negb ok then 0 else if count <? samples then u32 (count + 1) else count.

Definition smo_step_work (next : smo T W LP) (current voltage : ab T)
    : fc (smo T W LP * smo_output T W) :=
  let c := smo_cfg next in
  ia ← FC_LOAD (alpha current); ib ← FC_LOAD (beta current);
  va ← FC_LOAD (alpha voltage); vb ← FC_LOAD (beta voltage);
  resistance ← FC_LOAD (smo_resistance c); inductance' ← FC_LOAD (inductance c);
  period ← FC_LOAD (sample_dt c); gain ← FC_LOAD (sliding_gain c);
  boundary' ← FC_LOAD (boundary c);
  zero ← FC_I 0; one ← FC_I 1; negative_one ← FC_I (-1);
  error_a ← FC_SUB (alpha (current_hat next)) ia;
  error_b ← FC_SUB (beta (current_hat next)) ib;
  sat ← smo_saturate error_a error_b boundary' one negative_one;
  za ← FC_MUL gain sat.1; zb ← FC_MUL gain sat.2;
  step ← FC_DIV period inductance';
  hat_a ← smo_predict (alpha (current_hat next)) va resistance za step;
  hat_b ← smo_predict (beta (current_hat next)) vb resistance zb step;
  check;;
  fa ← lowpass (emf_alpha_filter next) za;
  fb ← lowpass (emf_beta_filter next) zb;
  tracked ← smo_track zero one period boundary' error_a error_b fa.2 fb.2 next;
  let '(speed, fs, previous, angle, has, ok) := tracked in
  check;;
  let count := smo_lock (lock_count next) (lock_samples c) ok in
  out_a ← store hat_a; out_b ← store hat_b;
  emf_a ← store fa.2; emf_b ← store fb.2;
  out_speed ← acc_store speed;
  out_angle ← FC_ANGLE_STORE angle fc_local_t;
  check;;
  mret (mk_smo c (mk_ab hat_a hat_b) fa.1 fb.1 fs previous angle count has,
        mk_smo_output (mk_ab out_a out_b) (mk_ab emf_a emf_b) out_angle out_speed ok
          (count =? lock_samples c)).

Definition smo_step (sizeof_smo sizeof_output : Z) (ctx : option (Z * smo T W LP))
    (current voltage : ab T) (output : option (Z * smo_output T W))
    : linears_status_t * (option (Z * smo T W LP) * option (Z * smo_output T W)) :=
  match ctx, output with
  | Some (px, old), Some (po, out) =>
      if fc_overlap px sizeof_smo po sizeof_output then (LINEARS_ERROR_ALIAS, (ctx, output))
      else
        let r := run (smo_step_work old current voltage) (old, out) in
        (r.1, (Some (px, r.2.1), Some (po, r.2.2)))
  | _, _ => (LINEARS_ERROR_ARGUMENT, (ctx, output))
  end.
End Smo.
