(* ===== verification/SmoLock.v ===== *)
(** * The lock of the sliding-mode observer is a run length

    For every arithmetic: the observer reports lock exactly when as many
    consecutive samples as configured were observable, whatever calls failed in
    between. *)
From Stdlib Require Import SpecFloat.
From S2P Require Import Prelude MachineInt Status Wide Numeric FcMonad Cordic FcVariants FcBase Float FcFloat FcShape FilterBase Filters.
From S2P Require Import Foc Smo.

#[export] Hint Extern 4 (honest (callee _ _)) => (unfold callee) : honest.

Class FcSmoHonest (T W LP : Type) `{FcSmo T W LP} :=
  honest_saturate a b c d e : honest (smo_saturate a b c d e).
#[export] Hint Resolve honest_saturate : honest.

#[export] Instance fcq_smo_honest (f : q_format) : @FcSmoHonest Z Z (ema Z Z) (fcq f) (fcq_smo f).
Proof. intros a b c d e. cbn [smo_saturate fcq_smo]. unfold smo_saturate_fixed. pose proof (fcq_honest f). solve_honest. Qed.

#[export] Instance float_smo_honest (f : float_format) (lib : libm) :
  @FcSmoHonest spec_float spec_float (ema spec_float spec_float) (fc_float f lib) (native_smo f (fc_float f lib)).
Proof. intros a b c d e. cbn [smo_saturate native_smo]. unfold smo_saturate_native. pose proof (float_honest f lib). solve_honest. Qed.

(** The number of leading [true]s: the newest samples in a row. *)
Fixpoint leading (flags : list bool) : Z :=
  match flags with true :: rest => 1 + leading rest | _ => 0 end.

Lemma leading_nonneg flags : 0 <= leading flags.
Proof. induction flags as [|[] rest IH]; cbn; lia. Qed.

Section Lock.
Context {T W LP : Type} `{FcArith T W} `{!FcSmo T W LP} `{!FcHonest T W} `{!FcSmoHonest T W LP}.
Implicit Types x : smo T W LP.

(** What a period does to the configuration and the counter. *)
Definition counted x (r : smo T W LP * smo_output T W) : Prop :=
  smo_cfg r.1 = smo_cfg x /\
  lock_count r.1 = smo_lock (lock_count x) (lock_samples (smo_cfg x)) (observable r.2) /\
  locked r.2 = (lock_count r.1 =? lock_samples (smo_cfg x)).

Lemma smo_step_work_counted x current voltage : leaves (smo_step_work x current voltage) (counted x).
Proof.
  unfold smo_step_work. repeat (apply leaves_bind; intros).
  match goal with |- leaves (let '_ := ?t in _) _ => destruct t as [[[[[speed fs] previous] angle] has] ok] end.
  repeat (apply leaves_bind; intros). by apply leaves_ret.
Qed.

Lemma smo_step_work_honest x current voltage : honest (smo_step_work x current voltage).
Proof.
  unfold smo_step_work, smo_track, smo_raw_angle, smo_speed, smo_difference, smo_phase, smo_observable, smo_predict, lowpass.
  solve_honest.
Qed.

Lemma smo_step_cases x sx so px po current voltage o st x' o' :
  smo_step sx so (Some (px, x)) current voltage (Some (po, o)) = (st, (Some (px, x'), Some (po, o'))) ->
  (st <> LINEARS_OK /\ x' = x /\ o' = o) \/ (st = LINEARS_OK /\ counted x (x', o')).
Proof.
  unfold smo_step. destruct (fc_overlap _ _ _ _); [intros E; injection E as <- <- <-; by left|]. cbv zeta.
  pose proof (smo_step_work_counted x current voltage LINEARS_OK) as Hc.
  pose proof (smo_step_work_honest x current voltage LINEARS_OK) as Hh. unfold run.
  destruct (smo_step_work x current voltage LINEARS_OK) as [[y z] s|s]; cbn [fst snd].
  - destruct (decide (s = LINEARS_OK)) as [->|Hs]; cbn [status_ok fst snd];
      [intros E; injection E as <- <- <-; by right|].
    intros E. left. destruct s; cbn in E; injection E as <- <- <-; done.
  - intros E. injection E as <- <- <-. by left.
Qed.

(** ** Histories of samples *)

(** What happened to a context since its initialization: the [observable] flags of the samples that
    succeeded, newest first. *)
Inductive smo_history : smo T W LP -> list bool -> Prop :=
| history_init junk c i x : 0 <= lock_samples c < 4294967296 ->
    smo_init (Some junk) (Some c) i = (LINEARS_OK, Some x) -> smo_history x []
| history_sample x flags sx so px po current voltage o x' o' : smo_history x flags ->
    smo_step sx so (Some (px, x)) current voltage (Some (po, o)) = (LINEARS_OK, (Some (px, x'), Some (po, o'))) ->
    smo_history x' (observable o' :: flags)
| history_failure x flags sx so px po current voltage o st x' o' : smo_history x flags -> st <> LINEARS_OK ->
    smo_step sx so (Some (px, x)) current voltage (Some (po, o)) = (st, (Some (px, x'), Some (po, o'))) ->
    smo_history x' flags.

Lemma smo_init_values junk c i x : smo_init (Some junk) (Some c) i = (LINEARS_OK, Some x) ->
  smo_cfg x = c /\ lock_count x = 0 /\ lock_samples c <> 0.
Proof.
  unfold smo_init, run. cbv zeta. intros E.
  assert (leaves (smo_init_body c i junk) (fun x => smo_cfg x = c /\ lock_count x = 0)) as Hl.
  { unfold smo_init_body. repeat (apply leaves_bind; intros). by apply leaves_ret. }
  assert (honest (smo_init_body c i junk)) as Hh.
  { assert (forall a b d, honest (callee a (FC_LP_INIT a b d))) as Hc by (intros; unfold callee; solve_honest).
    unfold smo_init_body. solve_honest. }
  specialize (Hl LINEARS_OK). specialize (Hh LINEARS_OK). unfold smo_init_body in E, Hl, Hh.
  destruct (Z.eqb_spec (lock_samples c) 0) as [Hz|Hz].
  { cbn in E. injection E as E _. done. }
  unfold smo_init_body in *. 
  match type of E with context [match ?m LINEARS_OK with _ => _ end] => destruct (m LINEARS_OK) as [y s|s] end; cbn in E.
  - injection E as -> <-. by destruct Hl.
  - by injection E as -> _.
Qed.

Lemma smo_lock_leading count samples ok flags : 0 < samples < 4294967296 -> count = Z.min samples (leading flags) ->
  smo_lock count samples ok = Z.min samples (leading (ok :: flags)).
Proof.
  intros Hs ->. pose proof (leading_nonneg flags). unfold smo_lock. destruct ok; cbn [negb leading]; [|lia].
  destruct (Z.ltb_spec (Z.min samples (leading flags)) samples); [rewrite u32_id by rlia|]; lia.
Qed.

Lemma smo_history_counts x flags : smo_history x flags ->
  0 < lock_samples (smo_cfg x) < 4294967296 /\ lock_count x = Z.min (lock_samples (smo_cfg x)) (leading flags).
Proof.
  induction 1 as [junk c i x Hc E|x flags sx so px po cur v o x' o' _ [Hs IH] E|x flags sx so px po cur v o st x' o' _ IH Hst E].
  - apply smo_init_values in E as (-> & -> & Hz). cbn. lia.
  - apply smo_step_cases in E as [[[] _]|(_ & Ec & El & _)]; [done|]. cbn [fst snd] in Ec, El. rewrite Ec, El.
    split; [done|]. by apply smo_lock_leading.
  - by apply smo_step_cases in E as [(_ & -> & _)|[-> _]].
Qed.
End Lock.

(** C24. The lock of the observer is a run length: whatever the arithmetic, the samples and the failed
    calls since the initialization, a successful sample reports lock exactly when it and the samples
    before it give at least [lock_samples] observable ones in a row, and the 32-bit counter never
    wraps; a failed call neither counts nor breaks the run. *)
Theorem smo_lock_spec {T W LP : Type} `{FcArith T W} `{!FcSmo T W LP} `{!FcHonest T W} `{!FcSmoHonest T W LP}
    (x : smo T W LP) flags sx so px po current voltage o st x' o' :
  smo_history x flags ->
  smo_step sx so (Some (px, x)) current voltage (Some (po, o)) = (st, (Some (px, x'), Some (po, o'))) ->
  (st <> LINEARS_OK /\ x' = x /\ o' = o) \/
  (st = LINEARS_OK /\ smo_cfg x' = smo_cfg x /\
   lock_count x' = Z.min (lock_samples (smo_cfg x)) (leading (observable o' :: flags)) /\
   locked o' = (lock_samples (smo_cfg x) <=? leading (observable o' :: flags))).
Proof.
  intros Hh E. apply smo_history_counts in Hh as [Hs Hc].
  apply smo_step_cases in E as [Hf|(-> & Ec & El & Elock)]; [by left|right]. cbn [fst snd] in Ec, El, Elock.
  rewrite (smo_lock_leading _ _ _ flags Hs Hc) in El. split; [done|]. split; [done|]. split; [done|].
  rewrite Elock, El. destruct (Z.leb_spec (lock_samples (smo_cfg x)) (leading (observable o' :: flags)));
    [apply Z.eqb_eq|apply Z.eqb_neq]; lia.
Qed.

(** ** Witness: a vector rotating by a twentieth of a turn per sample, one observable sample to lock *)

Definition sample_smo_config : smo_config Z :=
  mk_smo_config 214748365 1932735283 214748365 1073741824 214748365 2147268900 2147268900 107374182 214748365
    1932735283 1 FIELDCTRL_SMO_FORWARD.
Definition junk_smo : smo Z Z (ema Z Z) :=
  mk_smo sample_smo_config (mk_ab 9 9) (mk_ema 9 9) (mk_ema 9 9) (mk_ema 9 9) 9 9 9 true.
Definition blank_smo_output : smo_output Z Z := mk_smo_output (mk_ab 0 0) (mk_ab 0 0) 0 0 false false.
Definition sample_smo (x : smo Z Z (ema Z Z)) (current voltage : ab Z) :=
  @smo_step Z Z (ema Z Z) (fcq Q31) (fcq_smo Q31) 128 64 (Some (1000, x)) current voltage (Some (2000, blank_smo_output)).
Definition smo_after (x : smo Z Z (ema Z Z)) (current voltage : ab Z) : smo Z Z (ema Z Z) * smo_output Z Z :=
  let r := sample_smo x current voltage in (default x (snd <$> r.2.1), default blank_smo_output (snd <$> r.2.2)).
Definition smo_0 : smo Z Z (ema Z Z) :=
  default junk_smo (@smo_init Z Z (ema Z Z) (fcq Q31) (fcq_smo Q31) (Some junk_smo) (Some sample_smo_config) (mk_ab 0 0)).2.
Definition smo_1 := smo_after smo_0 (mk_ab 0 (-107374182)) (mk_ab 0 536870912).
Definition smo_2 := smo_after smo_1.1 (mk_ab 33180447 (-102118916)) (mk_ab (-165902236) 510594579).

Lemma smo_1_history : @smo_history Z Z (ema Z Z) (fcq Q31) (fcq_smo Q31) smo_1.1 [observable smo_1.2].
Proof.
  apply (history_sample smo_0 [] 128 64 1000 2000 (mk_ab 0 (-107374182)) (mk_ab 0 536870912) blank_smo_output).
  - apply (history_init junk_smo sample_smo_config (mk_ab 0 0)); [cbn; lia|vm_compute; reflexivity].
  - vm_compute. reflexivity.
Qed.

Lemma smo_lock_witness : observable smo_1.2 = false /\ locked smo_1.2 = false /\ locked smo_2.2 = true /\
  lock_count smo_2.1 = 1.
Proof.
  assert (observable smo_2.2 = true /\ observable smo_1.2 = false) as [E2 E1] by (vm_compute; split; reflexivity).
  destruct (smo_lock_spec (H := fcq Q31) smo_1.1 [observable smo_1.2] 128 64 1000 2000 (mk_ab 33180447 (-102118916))
    (mk_ab (-165902236) 510594579) blank_smo_output LINEARS_OK smo_2.1 smo_2.2 smo_1_history) as [[[] _]|(_ & _ & Hc & Hl)];
    [vm_compute; reflexivity|reflexivity|].
  rewrite E2, E1 in Hc, Hl. split; [exact E1|]. split; [vm_compute; reflexivity|]. split; [exact Hl|exact Hc].
Defined.
