(* ===== verification/EzPid.v ===== *)
(** * The ezctrl PID adapter: libs/ezctrl/src/pid_impl.h

    ezctrl keeps a configuration and the fieldctrl controller built from it.
    The adapter exists for float and double; a callback is an opaque pointer and
    its invocation an event that [ez_try_update] returns. *)
From Stdlib Require Import SpecFloat.
From S2P Require Import Prelude MachineInt Status FcMonad Float FcBase FcFloat.

Inductive ezc_status_t : Type := EZC_OK | EZC_ERR_INVALID_ARG.

#[export] Instance ezc_status_eq_dec : EqDecision ezc_status_t.
Proof. solve_decision. Defined.


Record ez_cfg := mk_ez_cfg {
  e_kp : spec_float; e_ki : spec_float; e_kd : spec_float;
  limit_enabled : bool; out_min : spec_float; out_max : spec_float;
  e_options : Z; deriv_source : Z; deriv_filter_t : spec_float; weight_p : spec_float;
  integral_min : spec_float; integral_max : spec_float; integral_separation : spec_float;
  callback : option Z; callback_ctx : Z }.

Record ez_pid := mk_ez_pid { cfg : ez_cfg; controller : pid spec_float spec_float; last_output : spec_float }.

Record ez_result := mk_ez_result {
  r_output : spec_float; r_setpoint : spec_float; r_measure : spec_float; r_error : spec_float;
  p_term : spec_float; i_term : spec_float; d_term : spec_float; limited : bool }.

Section Adapter.
Variable f : float_format.
Variable lib : libm.
(** Where the embedded controller and the local step result are, and their sizes. *)
Variables pid_at out_at sizeof_pid sizeof_output : Z.

#[local] Instance arithmetic : FcArith spec_float spec_float := fc_float f lib.

(** FLT_MAX, DBL_MAX *)
Definition EZC_PID_MAX : spec_float := SFmax_float (prec f) (emax f).

Definition zero_cfg : ez_cfg :=
  mk_ez_cfg fzero fzero fzero false fzero fzero 0 0 fzero fzero fzero fzero fzero None 0.
Definition zero_pid : pid spec_float spec_float :=
  mk_pid (mk_pid_config fzero fzero fzero fzero fzero 0 0 fzero fzero fzero fzero fzero)
    fzero fzero fzero fzero fzero fzero fzero fzero 0.
Definition zero_context : ez_pid := mk_ez_pid zero_cfg zero_pid fzero.

Definition built (ctx : ez_pid) : bool := flt (lower (config (controller ctx))) (upper (config (controller ctx))).

Definition clamp_integral (c : pid_config spec_float spec_float) (value : spec_float) : spec_float :=
  let own_limit := has_option (options c) FIELDCTRL_PID_OPT_INTEGRAL_LIMIT in
  let lo := if own_limit then integral_lower c else lower c in
  let hi := if own_limit then integral_upper c else upper c in
  if flt value lo then lo else if flt hi value then hi else value.

Definition map_cfg (c : ez_cfg) : pid_config spec_float spec_float :=
  mk_pid_config (e_kp c) (e_ki c) (e_kd c)
    (if limit_enabled c then out_min c else fneg EZC_PID_MAX)
    (if limit_enabled c then out_max c else EZC_PID_MAX)
    (e_options c) (deriv_source c) (deriv_filter_t c) (weight_p c)
    (integral_min c) (integral_max c) (integral_separation c).

Definition set_controller (ctx : ez_pid) (p : pid spec_float spec_float) : ez_pid := mk_ez_pid (cfg ctx) p (last_output ctx).
Definition ez_status (s : linears_status_t) : ezc_status_t := if status_ok s then EZC_OK else EZC_ERR_INVALID_ARG.

Definition apply (ctx : ez_pid) (next : ez_cfg) : ezc_status_t * ez_pid :=
  let c := map_cfg next in
  let r := if built ctx then pid_retune (Some (controller ctx)) (Some c)
           else pid_init (Some (controller ctx)) (Some c) (clamp_integral c fzero) in
  let p := default (controller ctx) r.2 in
  if status_ok r.1 then (EZC_OK, mk_ez_pid next p (last_output ctx))
  else (EZC_ERR_INVALID_ARG, set_controller ctx p).

(** A setter: reject NULL, edit a copy of the configuration, make it the one in effect. *)
Definition with_cfg (ctx : option ez_pid) (edit : ez_cfg -> ez_cfg) : ezc_status_t * option ez_pid :=
  match ctx with
  | None => (EZC_ERR_INVALID_ARG, None)
  | Some ctx => let r := apply ctx (edit (cfg ctx)) in (r.1, Some r.2)
  end.

Definition ez_init (ctx : option ez_pid) (c : option ez_cfg) : ezc_status_t * option ez_pid :=
  match ctx, c with
  | None, _ => (EZC_ERR_INVALID_ARG, None)
  | Some _, None => (EZC_ERR_INVALID_ARG, Some zero_context)
  | Some _, Some c => let r := apply zero_context c in (r.1, Some r.2)
  end.

Definition ez_set_gains (ctx : option ez_pid) (kp ki kd : spec_float) : ezc_status_t * option ez_pid :=
  with_cfg ctx (fun c => mk_ez_cfg kp ki kd (limit_enabled c) (out_min c) (out_max c) (e_options c)
    (deriv_source c) (deriv_filter_t c) (weight_p c) (integral_min c) (integral_max c)
    (integral_separation c) (callback c) (callback_ctx c)).

Definition edit_limit (c : ez_cfg) (enabled : bool) (lo hi : spec_float) : ez_cfg :=
  mk_ez_cfg (e_kp c) (e_ki c) (e_kd c) enabled lo hi (e_options c) (deriv_source c) (deriv_filter_t c)
    (weight_p c) (integral_min c) (integral_max c) (integral_separation c) (callback c) (callback_ctx c).
Definition ez_set_limit (ctx : option ez_pid) (lo hi : spec_float) := with_cfg ctx (fun c => edit_limit c true lo hi).
Definition ez_clear_limit (ctx : option ez_pid) := with_cfg ctx (fun c => edit_limit c false (out_min c) (out_max c)).

Definition ez_set_callback (ctx : option ez_pid) (cb : option Z) (user_ctx : Z) : ezc_status_t * option ez_pid :=
  match ctx with
  | None => (EZC_ERR_INVALID_ARG, None)
  | Some ctx =>
      let c := cfg ctx in
      (EZC_OK, Some (mk_ez_pid
        (mk_ez_cfg (e_kp c) (e_ki c) (e_kd c) (limit_enabled c) (out_min c) (out_max c) (e_options c)
           (deriv_source c) (deriv_filter_t c) (weight_p c) (integral_min c) (integral_max c)
           (integral_separation c) cb user_ctx) (controller ctx) (last_output ctx)))
  end.

Definition edit_derivative (c : ez_cfg) (source : Z) (filter : spec_float) : ez_cfg :=
  mk_ez_cfg (e_kp c) (e_ki c) (e_kd c) (limit_enabled c) (out_min c) (out_max c) (e_options c) source filter
    (weight_p c) (integral_min c) (integral_max c) (integral_separation c) (callback c) (callback_ctx c).
Definition ez_set_derivative_source (ctx : option ez_pid) (source : Z) :=
  with_cfg ctx (fun c => edit_derivative c source (deriv_filter_t c)).
Definition ez_set_derivative_filter (ctx : option ez_pid) (filter : spec_float) :=
  with_cfg ctx (fun c => edit_derivative c (deriv_source c) filter).

(** The option bits with the parameters they enable. *)
Definition edit_options (c : ez_cfg) (opts : Z) (weight imin imax sep : spec_float) : ez_cfg :=
  mk_ez_cfg (e_kp c) (e_ki c) (e_kd c) (limit_enabled c) (out_min c) (out_max c) opts (deriv_source c)
    (deriv_filter_t c) weight imin imax sep (callback c) (callback_ctx c).
Definition set_bit (opts bit : Z) : Z := Z.lor opts bit.
Definition clear_bit (opts bit : Z) : Z := Z.land opts (u32 (Z.lnot bit)).

Definition ez_set_integral_limit (ctx : option ez_pid) (imin imax : spec_float) :=
  with_cfg ctx (fun c => edit_options c (set_bit (e_options c) FIELDCTRL_PID_OPT_INTEGRAL_LIMIT)
    (weight_p c) imin imax (integral_separation c)).
Definition ez_clear_integral_limit (ctx : option ez_pid) :=
  with_cfg ctx (fun c => edit_options c (clear_bit (e_options c) FIELDCTRL_PID_OPT_INTEGRAL_LIMIT)
    (weight_p c) (integral_min c) (integral_max c) (integral_separation c)).
Definition ez_set_integral_separation (ctx : option ez_pid) (threshold : spec_float) :=
  with_cfg ctx (fun c => edit_options c (set_bit (e_options c) FIELDCTRL_PID_OPT_INTEGRAL_SEPARATION)
    (weight_p c) (integral_min c) (integral_max c) threshold).
Definition ez_clear_integral_separation (ctx : option ez_pid) :=
  with_cfg ctx (fun c => edit_options c (clear_bit (e_options c) FIELDCTRL_PID_OPT_INTEGRAL_SEPARATION)
    (weight_p c) (integral_min c) (integral_max c) (integral_separation c)).
Definition ez_set_setpoint_weight (ctx : option ez_pid) (weight : spec_float) :=
  with_cfg ctx (fun c => edit_options c (set_bit (e_options c) FIELDCTRL_PID_OPT_SETPOINT_WEIGHT)
    weight (integral_min c) (integral_max c) (integral_separation c)).

Definition ez_reset (ctx : option ez_pid) : option ez_pid :=
  match ctx with
  | None => None
  | Some ctx =>
      if negb (built ctx) then Some ctx
      else
        let r := pid_reset (Some (controller ctx)) (clamp_integral (config (controller ctx)) fzero) in
        Some (set_controller ctx (default (controller ctx) r.2))
  end.

Definition ez_reset_to (ctx : option ez_pid) (integral : spec_float) : ezc_status_t * option ez_pid :=
  match ctx with
  | None => (EZC_ERR_INVALID_ARG, None)
  | Some ctx =>
      let r := if built ctx then pid_reset (Some (controller ctx)) integral
               else pid_init (Some (controller ctx)) (Some (map_cfg (cfg ctx))) integral in
      (ez_status r.1, Some (set_controller ctx (default (controller ctx) r.2)))
  end.

Definition local_output : pid_output spec_float spec_float := mk_pid_output fzero fzero fzero fzero false.

(** The step on a built context: (status, context, step result). *)
Definition step_built (ctx : ez_pid) (setpoint measure dt : spec_float)
    : linears_status_t * (pid spec_float spec_float * pid_output spec_float spec_float) :=
  let r := pid_step sizeof_pid sizeof_output (Some (pid_at, controller ctx)) setpoint measure dt
             (Some (out_at, local_output)) in
  (r.1, (default (controller ctx) (snd <$> r.2.1), default local_output (snd <$> r.2.2))).

(** Status, context, the output cell, and the callback invocation if there was one. *)
Definition ez_try_update (ctx : option ez_pid) (setpoint measure dt : spec_float) (output : option spec_float)
    : ezc_status_t * (option ez_pid * option spec_float * option (Z * Z * ez_result)) :=
  match ctx, output with
  | Some ctx, Some old =>
      let r := if built ctx then (EZC_OK, ctx) else apply ctx (cfg ctx) in
      match r.1 with
      | EZC_ERR_INVALID_ARG => (EZC_ERR_INVALID_ARG, (Some r.2, Some old, None))
      | EZC_OK =>
          let ctx := r.2 in
          let s := step_built ctx setpoint measure dt in
          if negb (status_ok s.1) then (EZC_ERR_INVALID_ARG, (Some (set_controller ctx s.2.1), Some old, None))
          else
            let out := s.2.2 in
            let event :=
              (fun cb => (cb, callback_ctx (cfg ctx),
                mk_ez_result (pid_command out) setpoint measure (fsub f setpoint measure)
                  (pid_proportional out) (pid_integral out) (pid_derivative out) (pid_saturated out)))
              <$> callback (cfg ctx) in
            (EZC_OK, (Some (mk_ez_pid (cfg ctx) s.2.1 (pid_command out)), Some (pid_command out), event))
      end
  | _, _ => (EZC_ERR_INVALID_ARG, (ctx, output, None))
  end.

(** Context, returned value, callback invocation. *)
Definition ez_update (ctx : option ez_pid) (setpoint measure dt : spec_float)
    : option ez_pid * spec_float * option (Z * Z * ez_result) :=
  match ctx with
  | None => (None, fzero, None)
  | Some old =>
      let r := ez_try_update ctx setpoint measure dt (Some fzero) in
      let ctx' := default old r.2.1.1 in
      match r.1 with
      | EZC_OK => (Some ctx', default fzero r.2.1.2, r.2.2)
      | EZC_ERR_INVALID_ARG => (Some ctx', last_output ctx', r.2.2)
      end
  end.
End Adapter.
