(* ===== verification/EzPidSpec.v ===== *)
(** * The ezctrl PID adapter keeps its two copies in step

    ezctrl stores the configuration twice: the user's, and the one inside the
    fieldctrl controller.  Whatever calls are made and whatever they return, a
    controller that has been built runs on the configuration stored beside it. *)
From Stdlib Require Import SpecFloat.
From S2P Require Import Prelude MachineInt Status Numeric FcMonad Float Cordic FcVariants FcBase FcFloat FcShape EzPid.

(** ** fieldctrl calls, whatever the arithmetic *)

Section Pid.
Context {T W : Type} `{FcArith T W} `{!FcHonest T W}.

(** A call that fails changes nothing; one that succeeds leaves a controller with the configuration [c]. *)
Definition configures (p : pid T W) (c : pid_config T W) (r : linears_status_t * option (pid T W)) : Prop :=
  exists q, r.2 = Some q /\ ((r.1 <> LINEARS_OK /\ q = p) \/ (r.1 = LINEARS_OK /\ config q = c)).

Lemma configures_run p c body : honest body -> leaves body (fun q => config q = c) ->
  configures p c (let r := run body p in (r.1, Some r.2)).
Proof.
  intros Hh Hl. exists (run body p).2. split; [done|]. cbn [fst]. exact (run_shape body _ p Hh Hl).
Qed.

Lemma pid_check_honest c : honest (pid_check c).
Proof. unfold pid_check. solve_honest. Qed.
#[local] Hint Resolve pid_check_honest : honest.

Lemma pid_init_configures p c i : configures p c (pid_init (Some p) (Some c) i).
Proof. apply configures_run; [solve_honest|]. repeat (apply leaves_bind; intros). by apply leaves_ret. Qed.

Lemma pid_retune_configures p c : configures p c (pid_retune (Some p) (Some c)).
Proof. apply configures_run; [solve_honest|]. repeat (apply leaves_bind; intros). by apply leaves_ret. Qed.

Lemma pid_reset_configures p i : configures p (config p) (pid_reset (Some p) i).
Proof.
  unfold pid_reset, with_out. apply configures_run; [solve_honest|]. repeat (apply leaves_bind; intros). by apply leaves_ret.
Qed.

Lemma pid_step_work_leaves p s m d : leaves (pid_step_work p s m d) (fun r => config r.1 = config p).
Proof.
  unfold pid_step_work. do 2 (apply leaves_bind; intros). cbv zeta. repeat (apply leaves_bind; intros).
  match goal with |- leaves (let '_ := ?t in _) _ => destruct t as [[]] end.
  repeat (apply leaves_bind; intros). by apply leaves_ret.
Qed.

Lemma pid_step_work_honest p s m d : honest (pid_step_work p s m d).
Proof.
  unfold pid_step_work, pid_proportional_term, pid_coefficients, pid_candidate, pid_derivative_term, pid_anti_windup.
  solve_honest.
Qed.

Lemma pid_step_configures sx so px po p s m d o :
  exists st q y, pid_step sx so (Some (px, p)) s m d (Some (po, o)) = (st, (Some (px, q), Some (po, y))) /\
    ((st <> LINEARS_OK /\ q = p /\ y = o) \/ (st = LINEARS_OK /\ config q = config p)).
Proof.
  unfold pid_step. destruct (fc_overlap px sx po so); [eexists _, _, _; split; [done|]; by left|]. cbv zeta.
  match goal with |- context [run ?m (p, o)] =>
    destruct (run_shape m (fun r => config r.1 = config p) (p, o)) as [[Hs E]|[Hs E]] end; [solve_honest| | |].
  - repeat (apply leaves_bind; intros). intros st. unfold assign.
    destruct (run_shape (pid_step_work p a a0 a1) (fun r => config r.1 = config p) (p, o)) as [[_ E]|[_ E]];
      [apply pid_step_work_honest|apply pid_step_work_leaves|by rewrite E|done].
  - eexists _, _, _. split; [done|]. left. by rewrite E.
  - eexists _, _, _. split; [done|]. by right.
Qed.
End Pid.

(** ** The adapter *)

Section Adapter.
Variable f : float_format.
Variable lib : libm.
Variables pid_at out_at sizeof_pid sizeof_output : Z.

#[local] Instance ez_arith : FcArith spec_float spec_float := fc_float f lib.
#[local] Instance ez_honest : FcHonest spec_float spec_float := float_honest f lib.

(** A built controller runs on the configuration in effect. *)
Definition in_step (x : ez_pid) : Prop := built x = true -> config (controller x) = map_cfg f (cfg x).

(** What a call promises about the context x it was given and the one it leaves. *)
Definition kept (x x' : ez_pid) (st : ezc_status_t) : Prop :=
  in_step x' /\ (st <> EZC_OK -> cfg x' = cfg x /\ last_output x' = last_output x /\ (built x = true -> x' = x)).

Lemma sticky_float x : sticky (fl_load x).
Proof. apply sticky_guarded. Qed.

Lemma fl_load_wp x : wp (fl_load x) (fun r => r = x).
Proof. apply wp_guarded. destruct (isfinite x); done. Qed.
#[local] Hint Resolve sticky_float : sticky.
#[local] Hint Extern 1 (sticky (fl_i _ _)) => apply sticky_float : sticky.

Ltac load_step := apply wp_bind; [eapply wp_mono; [apply fl_load_wp|intros ? ->]|intros; solve_sticky].

(** What the validation of the bounds accepts. *)
Lemma float_check_wp c : wp (pid_check c) (fun _ => flt (lower c) (upper c) = true).
Proof.
  unfold pid_check. cbn [FC_LOAD FC_ACC_LOAD FC_I FC_CMP ez_arith fc_float]. unfold fl_i.
  do 11 load_step. apply wp_check_bind. cbv zeta. apply wp_bind; [|solve_sticky].
  apply wp_fail_if; [done|]. intros Hc.
  apply orb_false_iff in Hc as [[[[_ Hc]%orb_false_iff _]%orb_false_iff _]%orb_false_iff _].
  assert (flt (lower c) (upper c) = true) as Hlt.
  { apply Z.leb_gt in Hc. unfold native_cmp in Hc. by destruct (flt (lower c) (upper c)), (flt (upper c) (lower c)). }
  apply wp_bind; [eapply wp_mono; [apply fl_load_wp|intros ? ->]|solve_sticky].
  do 2 (apply wp_bind; [apply wp_fail_if; [done|intros _]|solve_sticky]).
  apply wp_if; intros _; [apply wp_bind; [apply wp_fail_if; [done|intros _]|solve_sticky]|]; by apply wp_ret.
Qed.

Lemma float_check_sticky c : sticky (pid_check c).
Proof. unfold pid_check. cbn [FC_LOAD FC_ACC_LOAD FC_I FC_CMP ez_arith fc_float]. solve_sticky. Qed.
#[local] Hint Resolve float_check_sticky : sticky.

Lemma run_wp {R} (m : fc R) (P : Prop) old : wp m (fun _ => P) -> (run m old).1 = LINEARS_OK -> P.
Proof. intros Hm E. exact (run_ok m (fun _ => P) old Hm E). Qed.

Lemma pid_init_builds p c i : (pid_init (Some p) (Some c) i).1 = LINEARS_OK -> flt (lower c) (upper c) = true.
Proof.
  apply run_wp. cbn [FC_LOAD FC_ACC_LOAD FC_I FC_CMP ez_arith fc_float]. unfold fl_i. do 2 load_step. apply wp_check_bind.
  apply wp_bind; [eapply wp_mono; [apply float_check_wp|intros b Hb]|solve_sticky]. apply wp_check_bind.
  apply wp_bind; [apply wp_fail_if; [done|intros _]|solve_sticky]. by apply wp_ret.
Qed.

Lemma pid_retune_builds p c : (pid_retune (Some p) (Some c)).1 = LINEARS_OK -> flt (lower c) (upper c) = true.
Proof.
  apply run_wp. cbn [FC_LOAD FC_ACC_LOAD FC_I FC_CMP ez_arith fc_float]. unfold fl_i. load_step.
  apply wp_bind; [eapply wp_mono; [apply float_check_wp|intros b Hb]|solve_sticky]. apply wp_check_bind. by apply wp_ret.
Qed.

(** A configuration is put in effect as a whole, or not at all. *)
Lemma apply_cases x next : let r := apply f lib x next in
  (r.1 = EZC_OK /\ cfg r.2 = next /\ last_output r.2 = last_output x /\ built r.2 = true /\
   config (controller r.2) = map_cfg f next) \/
  (r.1 = EZC_ERR_INVALID_ARG /\ r.2 = x).
Proof.
  unfold apply. cbv zeta.
  set (r := if built x then _ else _).
  assert (configures (controller x) (map_cfg f next) r) as (q & Eq & Hq)
    by (unfold r; destruct (built x); [apply pid_retune_configures|apply pid_init_configures]).
  assert (r.1 = LINEARS_OK -> flt (lower (map_cfg f next)) (upper (map_cfg f next)) = true) as Hb
    by (unfold r; destruct (built x); [apply pid_retune_builds|apply pid_init_builds]).
  rewrite Eq. change (default (controller x) (Some q)) with q. destruct Hq as [[Hst ->]|[Hst Ec]].
  - right. unfold status_ok. destruct r.1; try done; by destruct x.
  - left. rewrite Hst. cbn [status_ok fst snd]. do 3 (split; [done|]). unfold built. cbn [controller]. rewrite Ec. auto.
Qed.

Lemma set_controller_id x : set_controller x (controller x) = x.
Proof. by destruct x. Qed.

Lemma with_cfg_kept x edit : in_step x ->
  exists st x', with_cfg f lib (Some x) edit = (st, Some x') /\ kept x x' st /\
    (st = EZC_OK -> cfg x' = edit (cfg x) /\ built x' = true).
Proof.
  intros Hx. unfold with_cfg. destruct (apply_cases x (edit (cfg x))) as [(E & Ec & El & Hb & Ek)|[E ->]];
    (eexists _, _; split; [reflexivity|]; rewrite E).
  - split; [|done]. split; [|done]. intros _. by rewrite Ek, Ec.
  - by split; [split|].
Qed.

Lemma built_config x y : config (controller x) = config (controller y) -> built x = built y.
Proof. unfold built. by intros ->. Qed.

(** A controller that keeps its configuration. *)
Lemma in_step_config x y : cfg y = cfg x -> config (controller y) = config (controller x) -> in_step x -> in_step y.
Proof. intros Ec Ek Hx Hb. rewrite (built_config y x Ek) in Hb. by rewrite Ek, Ec, Hx. Qed.

Lemma ez_reset_kept x : in_step x -> exists x', ez_reset f lib (Some x) = Some x' /\ in_step x' /\ cfg x' = cfg x.
Proof.
  intros Hx. unfold ez_reset. change (arithmetic f lib) with ez_arith. destruct (built x) eqn:Eb; cbn [negb]; [|by exists x]. cbv zeta.
  destruct (pid_reset_configures (controller x) (clamp_integral (config (controller x)) fzero)) as (q & E & Hq).
  eexists. split; [reflexivity|]. split; [|done]. rewrite E.
  apply (in_step_config x); [done| |done]. cbn. by destruct Hq as [[_ ->]|[_ ->]].
Qed.

Lemma ez_reset_to_kept x i : in_step x ->
  exists st x', ez_reset_to f lib (Some x) i = (st, Some x') /\ kept x x' st.
Proof.
  intros Hx. unfold ez_reset_to. cbv zeta. change (arithmetic f lib) with ez_arith. destruct (built x) eqn:Eb.
  - destruct (pid_reset_configures (controller x) i) as (q & E & Hq). rewrite E.
    change (default (controller x) (Some q)) with q. eexists _, _. split; [reflexivity|].
    destruct Hq as [[Hst ->]|[Hst Ec]].
    + rewrite set_controller_id. split; [done|]. done.
    + split; [by apply (in_step_config x)|]. rewrite Hst. done.
  - destruct (pid_init_configures (controller x) (map_cfg f (cfg x)) i) as (q & E & Hq). rewrite E.
    change (default (controller x) (Some q)) with q. eexists _, _. split; [reflexivity|].
    destruct Hq as [[Hst ->]|[Hst Ec]].
    + rewrite set_controller_id. done.
    + split; [by intros _|]. rewrite Hst. done.
Qed.

(** One update: the context, the output cell and the callback. *)
Lemma ez_try_update_kept x sp m dt old : in_step x ->
  exists st x' out event,
    ez_try_update f lib pid_at out_at sizeof_pid sizeof_output (Some x) sp m dt (Some old)
      = (st, (Some x', Some out, event)) /\
    kept x x' st /\ cfg x' = cfg x /\
    (st = EZC_OK -> built x' = true /\ last_output x' = out /\
       exists p i d lim, event = (fun cb => (cb, callback_ctx (cfg x), mk_ez_result out sp m (fsub f sp m) p i d lim))
                                   <$> callback (cfg x)) /\
    (st <> EZC_OK -> out = old /\ event = None).
Proof.
  intros Hx. unfold ez_try_update. cbv zeta.
  assert (exists st y, (if built x then (EZC_OK, x) else apply f lib x (cfg x)) = (st, y) /\
    ((st = EZC_OK /\ built y = true /\ in_step y /\ cfg y = cfg x /\ last_output y = last_output x /\ (built x = true -> y = x)) \/
     (st = EZC_ERR_INVALID_ARG /\ y = x))) as (st & y & -> & Hy).
  { destruct (built x) eqn:Eb; [eexists _, _; split; [reflexivity|]; by left|].
    destruct (apply_cases x (cfg x)) as [(E & Ec & El & Hb & Ek)|[E Ey]]; destruct (apply f lib x (cfg x)) as [s z];
      cbn [fst snd] in *; eexists _, _; (split; [reflexivity|]); [left|by right].
    repeat (split; [done || by intros _; rewrite Ek, Ec|]). done. }
  cbn [fst snd]. destruct Hy as [(-> & Hb & Hin & Ec & El & Hbx)|[-> ->]].
  2: { eexists _, _, _, _. split; [reflexivity|]. by split; [split|]. }
  unfold step_built. change (arithmetic f lib) with ez_arith.
  destruct (pid_step_configures sizeof_pid sizeof_output pid_at out_at (controller y) sp m dt local_output)
    as (s & q & o & -> & Hq). cbn [fst snd fmap option_fmap option_map default from_option id].
  destruct Hq as [(Hs & -> & ->)|[-> Ek]].
  - assert (status_ok s = false) as -> by (by destruct s). cbn [negb]. rewrite set_controller_id.
    eexists _, _, _, _. split; [reflexivity|]. split; [|done]. split; [done|]. done.
  - cbn [status_ok negb]. eexists _, _, _, _. split; [reflexivity|].
    split; [|split; [done|]; split; [|done]].
    + split; [|done]. by apply (in_step_config y).
    + intros _. cbn [cfg controller last_output]. split; [by rewrite <- Hb; apply built_config|]. split; [done|].
      rewrite Ec. by eexists _, _, _, _.
Qed.

(** ** Histories of calls *)

Inductive ez_call : Type :=
| SetGains (kp ki kd : spec_float)
| SetLimit (lo hi : spec_float)
| ClearLimit
| SetCallback (cb : option Z) (user : Z)
| SetDerivativeSource (source : Z)
| SetDerivativeFilter (filter : spec_float)
| SetIntegralLimit (imin imax : spec_float)
| ClearIntegralLimit
| SetIntegralSeparation (threshold : spec_float)
| ClearIntegralSeparation
| SetSetpointWeight (weight : spec_float)
| Reset'
| ResetTo (integral : spec_float)
| TryUpdate (setpoint measure dt output : spec_float).

Definition ez_perform (x : ez_pid) (c : ez_call) : ezc_status_t * ez_pid :=
  let ret (r : ezc_status_t * option ez_pid) := (r.1, default x r.2) in
  match c with
  | SetGains kp ki kd => ret (ez_set_gains f lib (Some x) kp ki kd)
  | SetLimit lo hi => ret (ez_set_limit f lib (Some x) lo hi)
  | ClearLimit => ret (ez_clear_limit f lib (Some x))
  | SetCallback cb user => ret (ez_set_callback (Some x) cb user)
  | SetDerivativeSource source => ret (ez_set_derivative_source f lib (Some x) source)
  | SetDerivativeFilter filter => ret (ez_set_derivative_filter f lib (Some x) filter)
  | SetIntegralLimit imin imax => ret (ez_set_integral_limit f lib (Some x) imin imax)
  | ClearIntegralLimit => ret (ez_clear_integral_limit f lib (Some x))
  | SetIntegralSeparation threshold => ret (ez_set_integral_separation f lib (Some x) threshold)
  | ClearIntegralSeparation => ret (ez_clear_integral_separation f lib (Some x))
  | SetSetpointWeight weight => ret (ez_set_setpoint_weight f lib (Some x) weight)
  | Reset' => (EZC_OK, default x (ez_reset f lib (Some x)))
  | ResetTo i => ret (ez_reset_to f lib (Some x) i)
  | TryUpdate sp m dt o =>
      let r := ez_try_update f lib pid_at out_at sizeof_pid sizeof_output (Some x) sp m dt (Some o) in
      (r.1, default x r.2.1.1)
  end.

(** Any initialization, then any calls, whatever they returned. *)
Inductive ez_history : ez_pid -> Prop :=
| ez_started junk c st x : ez_init f lib (Some junk) (Some c) = (st, Some x) -> ez_history x
| ez_performed x c st x' : ez_history x -> ez_perform x c = (st, x') -> ez_history x'.

Lemma ez_perform_kept x c : in_step x -> kept x (ez_perform x c).2 (ez_perform x c).1.
Proof.
  intros Hx. pose proof (with_cfg_kept x) as Hset.
  destruct c; unfold ez_perform; cbv zeta;
    try match goal with |- context [?set f lib (Some x)] => unfold set end;
    try match goal with |- context [with_cfg f lib (Some x) ?e] =>
      destruct (Hset e Hx) as (st & x' & -> & Hk & _); exact Hk end.
  - split; [|done]. intros Hb. exact (Hx Hb).
  - destruct (ez_reset_kept x Hx) as (x' & E & Hk & Hc). unfold ez_reset in E |- *.
    cbn [fst snd]. split; [|done]. rewrite E. exact Hk.
  - destruct (ez_reset_to_kept x integral Hx) as (st & x' & E & Hk). unfold ez_reset_to in E |- *. rewrite E. exact Hk.
  - destruct (ez_try_update_kept x setpoint measure dt output Hx) as (st & x' & o & ev & -> & Hk & _). exact Hk.
Qed.

Lemma ez_history_in_step x : ez_history x -> in_step x.
Proof.
  induction 1 as [junk c st x E|x c st x' _ IH E].
  - unfold ez_init in E. destruct (apply_cases zero_context c) as [(_ & Ec & _ & _ & Ek)|[_ Ex]]; injection E as _ <-.
    + intros _. by rewrite Ek, Ec.
    + rewrite Ex. intros Hb. vm_compute in Hb. discriminate.
  - pose proof (ez_perform_kept x c IH) as [H _]. by rewrite E in H.
Qed.
End Adapter.

(** C31. The two configurations never part: after any initialization and any sequence of adapter calls,
    failed ones included, a built controller runs on the fieldctrl image of the user's
    configuration; a call that fails keeps the configuration and the last output, and on a built
    context changes nothing at all. *)
Theorem ez_in_step (f : float_format) (lib : libm) pid_at out_at sizeof_pid sizeof_output (x : ez_pid) (c : ez_call) st x' :
  ez_history f lib pid_at out_at sizeof_pid sizeof_output x ->
  ez_perform f lib pid_at out_at sizeof_pid sizeof_output x c = (st, x') ->
  (built x = true -> config (controller x) = map_cfg f (cfg x)) /\
  (built x' = true -> config (controller x') = map_cfg f (cfg x')) /\
  (st <> EZC_OK -> cfg x' = cfg x /\ last_output x' = last_output x /\ (built x = true -> x' = x)).
Proof.
  intros Hh%ez_history_in_step E. split; [exact Hh|].
  pose proof (ez_perform_kept f lib pid_at out_at sizeof_pid sizeof_output x c Hh) as Hk. by rewrite E in Hk.
Qed.

(** An update either fails, and then the output cell, the configuration and the last output are
    kept, no callback runs and ez_update returns the last good output, or succeeds on a built
    controller, and then the command is returned, remembered and, if a callback is set, reported to
    it once with the sample and its error. *)
Theorem ez_update_spec (f : float_format) (lib : libm) pid_at out_at sizeof_pid sizeof_output (x : ez_pid) sp m dt old :
  ez_history f lib pid_at out_at sizeof_pid sizeof_output x ->
  exists st x' out event,
    ez_try_update f lib pid_at out_at sizeof_pid sizeof_output (Some x) sp m dt (Some old)
      = (st, (Some x', Some out, event)) /\
    cfg x' = cfg x /\
    (st <> EZC_OK -> out = old /\ event = None /\ last_output x' = last_output x) /\
    (st = EZC_OK -> built x' = true /\ last_output x' = out /\
       exists p i d lim, event = (fun cb => (cb, callback_ctx (cfg x), mk_ez_result out sp m (fsub f sp m) p i d lim))
                                   <$> callback (cfg x)) /\
    (ez_update f lib pid_at out_at sizeof_pid sizeof_output (Some x) sp m dt).1.2 = last_output x'.
Proof.
  intros Hh%ez_history_in_step.
  destruct (ez_try_update_kept f lib pid_at out_at sizeof_pid sizeof_output x sp m dt old Hh)
    as (st & x' & out & ev & E & [_ Hf] & Hc & Hok & Hfail).
  exists st, x', out, ev. split; [exact E|]. split; [exact Hc|].
  split; [intros Hs; split; [by apply Hfail|]; split; [by apply Hfail|]; by apply Hf|].
  split; [exact Hok|].
  destruct (ez_try_update_kept f lib pid_at out_at sizeof_pid sizeof_output x sp m dt fzero Hh)
    as (st' & y & out' & ev' & E' & _ & _ & Hok' & _).
  assert (st' = st /\ y = x') as [-> ->].
  { revert E E'. unfold ez_try_update. cbv zeta. destruct (if built x then _ else _) as [[] z]; cbn [fst snd];
      [|split; congruence]. destruct (negb _); split; congruence. }
  unfold ez_update. rewrite E'. cbv zeta. cbn [fst snd]. destruct st; cbn.
  - by destruct (Hok' eq_refl) as (_ & -> & _).
  - done.
Qed.

(** ** Witnesses: a float controller with limits and a callback; the PID calls no libm function *)

Definition sample_libm : libm := mk_libm (fun a _ => a) (fun a => a) (fun a => a) (fun a _ => a).
Definition int32 (n : Z) : spec_float := of_int binary32 n.
Definition sample_cfg : ez_cfg :=
  mk_ez_cfg (int32 2) (int32 0) (int32 0) true (int32 (-10)) (int32 10) 0 0 fzero fzero fzero fzero fzero (Some 77) 5.
Definition sample_ez : ez_pid := default zero_context (ez_init binary32 sample_libm (Some zero_context) (Some sample_cfg)).2.

Lemma sample_ez_history : ez_history binary32 sample_libm 100 300 100 40 sample_ez.
Proof. apply (ez_started _ _ _ _ _ _ zero_context sample_cfg EZC_OK). vm_compute. reflexivity. Qed.

(** Inverted limits are refused, and the controller goes on as it was. *)
Lemma ez_in_step_witness : built sample_ez = true /\
  ez_perform binary32 sample_libm 100 300 100 40 sample_ez (SetLimit (int32 3) (int32 2)) = (EZC_ERR_INVALID_ARG, sample_ez).
Proof.
  assert (built sample_ez = true) as Hb by (vm_compute; reflexivity). split; [exact Hb|].
  destruct (ez_perform binary32 sample_libm 100 300 100 40 sample_ez (SetLimit (int32 3) (int32 2))) as [st x'] eqn:E.
  destruct (ez_in_step binary32 sample_libm 100 300 100 40 sample_ez _ st x' sample_ez_history E) as (_ & _ & H).
  assert (st = EZC_ERR_INVALID_ARG) as -> by (vm_compute in E; congruence).
  by rewrite (proj2 (proj2 (H ltac:(discriminate))) Hb).
Defined.

(** 2 * (4 - 1) = 6; the callback is told setpoint 4, measurement 1, error 3. *)
Lemma ez_update_witness : exists x' p i d lim,
  ez_try_update binary32 sample_libm 100 300 100 40 (Some sample_ez) (int32 4) (int32 1) (int32 1) (Some fzero)
    = (EZC_OK, (Some x', Some (int32 6), Some (77, 5, mk_ez_result (int32 6) (int32 4) (int32 1) (int32 3) p i d lim))) /\
  last_output x' = int32 6.
Proof.
  destruct (ez_update_spec binary32 sample_libm 100 300 100 40 sample_ez (int32 4) (int32 1) (int32 1) fzero
    sample_ez_history) as (st & x' & out & ev & E & _ & _ & H & _).
  assert (st = EZC_OK /\ out = int32 6) as [-> ->] by (vm_compute in E; injection E; intros; subst; split; reflexivity).
  destruct (H eq_refl) as (_ & Hl & p & i & d & lim & Ev). exists x', p, i, d, lim. split; [|exact Hl].
  rewrite E, Ev. assert (callback (cfg sample_ez) = Some 77 /\ callback_ctx (cfg sample_ez) = 5 /\
    fsub binary32 (int32 4) (int32 1) = int32 3) as (-> & -> & ->) by (vm_compute; repeat split). reflexivity.
Defined.
