(* ===== verification/Mmio.v ===== *)
(** * Memory-mapped I/O: inc/c2_common.h and the device interface

    A driver routine is a finite program of 32-bit register reads and writes
    ([c2_mmio_read32], [c2_mmio_write32]; the fences around them order accesses
    and carry no data).  The hardware is not source code: it is a [Device], an
    arbitrary answer to every read as a function of all accesses so far.  [exec]
    runs a program against it and records the accesses; the drivers' theorems
    hold for every device.  Polling loops are bounded by their poll_limit, so
    every routine is a total function. *)
From S2P Require Import Prelude MachineInt.

Inductive c2_status_t : Type :=
| C2_OK
| C2_ERROR_INVALID_ARGUMENT
| C2_ERROR_TIMEOUT
| C2_ERROR_BUSY
| C2_ERROR_NACK
| C2_ERROR_ARBITRATION
| C2_ERROR_UNSUPPORTED
| C2_ERROR_NOT_INITIALIZED
| C2_ERROR_IO.

#[export] Instance c2_status_eq_dec : EqDecision c2_status_t.
Proof. solve_decision. Defined.

Definition c2_ok (s : c2_status_t) : bool := match s with C2_OK => true | _ => false end.

(** word & mask, as a condition *)
Definition bit_set (word mask : Z) : bool := negb (Z.land word mask =? 0).

(** data == NULL && length != 0 *)
Definition bad_buffer (data : option (list Z)) (length : Z) : bool :=
  match data with None => negb (length =? 0) | Some _ => false end.

(** Programs over the registers [R]. *)
Inductive io (R A : Type) : Type :=
| Done (a : A)
| Read (r : R) (k : Z -> io R A)
| Write (r : R) (v : Z) (k : io R A).
Arguments Done {R A} a.
Arguments Read {R A} r k.
Arguments Write {R A} r v k.

Fixpoint io_bind {R A B} (m : io R A) (f : A -> io R B) : io R B :=
  match m with
  | Done a => f a
  | Read r k => Read r (fun v => io_bind (k v) f)
  | Write r v k => Write r v (io_bind k f)
  end.

#[export] Instance io_mret R : MRet (io R) := fun A a => Done a.
#[export] Instance io_mbind R : MBind (io R) := fun A B f m => io_bind m f.

Definition c2_mmio_read32 {R} (r : R) : io R Z := Read r Done.
Definition c2_mmio_write32 {R} (r : R) (v : Z) : io R unit := Write r v (Done tt).

(** The same program over a larger register file. *)
Fixpoint io_map {R S A} (g : R -> S) (m : io R A) : io S A :=
  match m with
  | Done a => Done a
  | Read r k => Read (g r) (fun v => io_map g (k v))
  | Write r v k => Write (g r) v (io_map g k)
  end.

(** ** Devices and executions *)

Inductive access (R : Type) : Type :=
| Rd (r : R) (v : Z)
| Wr (r : R) (v : Z).
Arguments Rd {R} r v.
Arguments Wr {R} r v.

(** The answer to a read of [r] after the accesses [h], oldest first; registers are 32 bits. *)
Class Device (R : Type) := {
  dev_read : list (access R) -> R -> Z;
  dev_read_u32 h r : is_u32 (dev_read h r);
}.

Fixpoint exec {R A} {d : Device R} (m : io R A) (h : list (access R)) : A * list (access R) :=
  match m with
  | Done a => (a, h)
  | Read r k => let v := dev_read h r in exec (k v) (h ++ [Rd r v])
  | Write r v k => exec k (h ++ [Wr r v])
  end.

(** The accesses of a program are appended to the history. *)
Section Exec.
Context {R : Type} {d : Device R}.

Lemma exec_bind {A B} (m : io R A) (f : A -> io R B) h :
  exec (m ≫= f) h = exec (f (exec m h).1) (exec m h).2.
Proof. unfold mbind, io_mbind. revert h. induction m; intros h; cbn; auto. Qed.

Lemma exec_ret {A} (a : A) h : exec (mret (M:=io R) a) h = (a, h).
Proof. done. Qed.

Lemma exec_read (r : R) h : exec (c2_mmio_read32 r) h = (dev_read h r, h ++ [Rd r (dev_read h r)]).
Proof. done. Qed.

Lemma exec_write (r : R) v h : exec (c2_mmio_write32 r v) h = (tt, h ++ [Wr r v]).
Proof. done. Qed.

(** Weakest precondition over the trace: the postcondition sees the result and the accesses. *)
Definition io_wp {A} (m : io R A) (h : list (access R)) (Q : A -> list (access R) -> Prop) : Prop :=
  Q (exec m h).1 (exec m h).2.

Lemma io_wp_bind {A B} (m : io R A) (f : A -> io R B) h Q :
  io_wp m h (fun a h' => io_wp (f a) h' Q) -> io_wp (m ≫= f) h Q.
Proof. unfold io_wp. by rewrite exec_bind. Qed.

Lemma io_wp_assoc {A B C} (m : io R A) (f : A -> io R B) (g : B -> io R C) h Q :
  io_wp ((m ≫= f) ≫= g) h Q -> io_wp (m ≫= (fun a => f a ≫= g)) h Q.
Proof. unfold io_wp. by rewrite !exec_bind. Qed.

Lemma io_wp_ret {A} (a : A) h (Q : A -> list (access R) -> Prop) : Q a h -> io_wp (mret (M:=io R) a) h Q.
Proof. done. Qed.

Lemma io_wp_read (r : R) h (Q : Z -> list (access R) -> Prop) :
  (forall v, is_u32 v -> Q v (h ++ [Rd r v])) -> io_wp (c2_mmio_read32 r) h Q.
Proof. intros HQ. apply HQ, dev_read_u32. Qed.

Lemma io_wp_write (r : R) v h (Q : unit -> list (access R) -> Prop) :
  Q tt (h ++ [Wr r v]) -> io_wp (c2_mmio_write32 r v) h Q.
Proof. done. Qed.

Lemma io_wp_mono {A} (m : io R A) h (P Q : A -> list (access R) -> Prop) :
  io_wp m h P -> (forall a h', P a h' -> Q a h') -> io_wp m h Q.
Proof. unfold io_wp. auto. Qed.

Lemma io_wp_exec {A} (m : io R A) h Q a h' : io_wp m h Q -> exec m h = (a, h') -> Q a h'.
Proof. unfold io_wp. intros H E. by rewrite E in H. Qed.

Lemma io_wp_if {A} (b : bool) (m1 m2 : io R A) h Q :
  (b = true -> io_wp m1 h Q) -> (b = false -> io_wp m2 h Q) -> io_wp (if b then m1 else m2) h Q.
Proof. destruct b; auto. Qed.

(** Every program only extends the history. *)
Lemma exec_extends {A} (m : io R A) h : exists l, (exec m h).2 = h ++ l.
Proof.
  revert h. induction m as [a|r k IH|r v k IH]; intros h; cbn.
  - exists []. by rewrite app_nil_r.
  - destruct (IH (dev_read h r) (h ++ [Rd r (dev_read h r)])) as [l ->].
    exists (Rd r (dev_read h r) :: l). by rewrite <- app_assoc.
  - destruct (IH (h ++ [Wr r v])) as [l ->]. exists (Wr r v :: l). by rewrite <- app_assoc.
Qed.
End Exec.

(** ** Reading traces *)

(** The value last written to a register, if any. *)
Definition last_write {R} `{EqDecision R} (r : R) (h : list (access R)) : option Z :=
  foldl (fun acc e => match e with
                      | Wr r' v => if decide (r' = r) then Some v else acc
                      | Rd _ _ => acc end) None h.

(** The values written to a register, in order. *)
Definition writes_to {R} `{EqDecision R} (r : R) (h : list (access R)) : list Z :=
  omap (fun e => match e with
                 | Wr r' v => if decide (r' = r) then Some v else None
                 | Rd _ _ => None end) h.

Definition reads_of {R} `{EqDecision R} (r : R) (h : list (access R)) : list Z :=
  omap (fun e => match e with
                 | Rd r' v => if decide (r' = r) then Some v else None
                 | Wr _ _ => None end) h.

Definition count_reads {R} (h : list (access R)) : nat :=
  length (omap (fun e => match e with Rd _ v => Some v | Wr _ _ => None end) h).

Section Traces.
Context {R : Type} `{EqDecision R}.
Implicit Types (r : R) (h : list (access R)).

Lemma last_write_app r h e : last_write r (h ++ [e]) =
  match e with Wr r' v => if decide (r' = r) then Some v else last_write r h | Rd _ _ => last_write r h end.
Proof. unfold last_write. by rewrite foldl_app. Qed.

Lemma last_write_same r v h : last_write r (h ++ [Wr r v]) = Some v.
Proof. rewrite last_write_app. by rewrite decide_True. Qed.

Lemma last_write_other r r' v h : r' <> r -> last_write r (h ++ [Wr r' v]) = last_write r h.
Proof. intros. rewrite last_write_app. by rewrite decide_False. Qed.

Lemma last_write_read r r' v h : last_write r (h ++ [Rd r' v]) = last_write r h.
Proof. by rewrite last_write_app. Qed.

Lemma last_write_concat r h l :
  last_write r (h ++ l) = match last_write r l with Some v => Some v | None => last_write r h end.
Proof.
  induction l as [|e l IH] using rev_ind; [by rewrite app_nil_r|].
  rewrite app_assoc, !last_write_app, IH. destruct e as [r' v|r' v]; [done|].
  by destruct (decide (r' = r)).
Qed.

(** Accesses that do not write a register leave its last write. *)
Lemma last_write_quiet r h l : writes_to r l = [] -> last_write r (h ++ l) = last_write r h.
Proof.
  revert h. induction l as [|e l IH] using rev_ind; intros h Hl; [by rewrite app_nil_r|].
  unfold writes_to in Hl. rewrite omap_app in Hl. apply app_eq_nil in Hl as [Hl He].
  rewrite app_assoc, last_write_app, (IH h Hl). destruct e as [r' v|r' v]; [done|].
  cbn in He. by destruct (decide (r' = r)).
Qed.

Lemma writes_to_app r h l : writes_to r (h ++ l) = writes_to r h ++ writes_to r l.
Proof. apply omap_app. Qed.

Lemma writes_to_wr r v h : writes_to r (Wr r v :: h) = v :: writes_to r h.
Proof. unfold writes_to. cbn [omap list_omap]. by rewrite decide_True. Qed.

Lemma writes_to_other r r' v h : r' <> r -> writes_to r (Wr r' v :: h) = writes_to r h.
Proof. intros. unfold writes_to. cbn [omap list_omap]. by rewrite decide_False. Qed.

Lemma writes_to_rd r r' v h : writes_to r (Rd r' v :: h) = writes_to r h.
Proof. done. Qed.

Lemma count_reads_rd r v h : count_reads (Rd r v :: h) = S (count_reads h).
Proof. done. Qed.

Lemma count_reads_wr r v h : count_reads (Wr r v :: h) = count_reads h.
Proof. done. Qed.

Lemma reads_of_app r h l : reads_of r (h ++ l) = reads_of r h ++ reads_of r l.
Proof. apply omap_app. Qed.

Lemma count_reads_app h l : count_reads (h ++ l) = (count_reads h + count_reads l)%nat.
Proof. unfold count_reads. by rewrite omap_app, length_app. Qed.
End Traces.

Create Rewrite HintDb trace.
#[export] Hint Rewrite @writes_to_app @reads_of_app @count_reads_app @writes_to_wr @writes_to_rd
  @count_reads_rd @count_reads_wr : trace.
#[export] Hint Rewrite @writes_to_other using discriminate : trace.

(** Output cells: a failed call leaves them as they were. *)
Definition fail {R A} (s : c2_status_t) (out : A) : io R (c2_status_t * A) := mret (s, out).

(** One step of symbolic execution of a driver. *)
Ltac io_step :=
  lazymatch goal with
  | |- io_wp (mbind _ _) _ _ => apply io_wp_bind
  | |- io_wp (mret _) _ _ => apply io_wp_ret
  | |- io_wp (fail _ _) _ _ => apply io_wp_ret
  | |- io_wp (c2_mmio_read32 _) _ _ => apply io_wp_read; let v := fresh "v" in let H := fresh "Hv" in intros v H
  | |- io_wp (c2_mmio_write32 _ _) _ _ => apply io_wp_write
  | |- io_wp (if ?b then _ else _) _ _ => let E := fresh "E" in destruct b eqn:E
  | |- io_wp (let _ := _ in _) _ _ => cbv zeta
  | |- io_wp (match ?x with _ => _ end) _ _ => destruct x
  end.

(** A device that answers every read with the same word. *)
Definition const_device {R} (v : Z) (Hv : is_u32 v) : Device R :=
  {| dev_read _ _ := v; dev_read_u32 _ _ := Hv |}.

Lemma zero_u32 : is_u32 0.
Proof. rlia. Qed.

(** A device that answers successive reads from a list, then with zeros. *)
Definition scripted_device {R} (answers : list Z) : Device R :=
  {| dev_read h _ := u32 (nth (count_reads h) answers 0); dev_read_u32 _ _ := u32_range _ |}.
