(* ===== verification/C2Gpio.v ===== *)
(** * GPIO: vendor/openecos/starrysky/c2/src/c2_gpio.c

    The context keeps the two shadows the driver relies on instead of reading
    the port back.  [None] is a NULL context; a NULL register block is
    [regs = false]. *)
From S2P Require Import Prelude MachineInt Mmio.

Inductive gpio_reg : Type := DR | DDR.
#[export] Instance gpio_reg_eq : EqDecision gpio_reg.
Proof. solve_decision. Defined.

Definition C2_GPIO_PIN_MASK : Z := 65535.

Inductive c2_gpio_direction : Type :=
| C2_GPIO_DIRECTION_OUTPUT
| C2_GPIO_DIRECTION_INPUT
| OTHER_DIRECTION.

Record c2_gpio : Type := mk_gpio {
  gpio_regs : bool; output_shadow : Z; input_mask_shadow : Z; gpio_initialized : bool }.

Definition c2_gpio_validate (gpio : option c2_gpio) : c2_status_t :=
  match gpio with
  | None => C2_ERROR_INVALID_ARGUMENT
  | Some g => if negb (gpio_initialized g) || negb (gpio_regs g) then C2_ERROR_NOT_INITIALIZED else C2_OK
  end.

Definition c2_gpio_mask_is_valid (pin_mask : Z) : bool :=
  Z.land pin_mask (u32 (Z.lnot C2_GPIO_PIN_MASK)) =? 0.

Definition c2_gpio_init (gpio : option c2_gpio) (regs : bool) (output_mask initial_output_bits : Z)
    : io gpio_reg (c2_status_t * option c2_gpio) :=
  match gpio with
  | None => fail C2_ERROR_INVALID_ARGUMENT gpio
  | Some _ =>
      if negb regs || negb (c2_gpio_mask_is_valid output_mask) ||
         negb (c2_gpio_mask_is_valid initial_output_bits)
      then fail C2_ERROR_INVALID_ARGUMENT gpio
      else
        let input_mask := Z.land (u32 (Z.lnot output_mask)) C2_GPIO_PIN_MASK in
        c2_mmio_write32 DDR C2_GPIO_PIN_MASK;;
        c2_mmio_write32 DR initial_output_bits;;
        c2_mmio_write32 DDR input_mask;;
        mret (C2_OK, Some (mk_gpio regs initial_output_bits input_mask true))
  end.

(** The prologue of every operation on an initialized context. *)
Definition with_gpio {A} (gpio : option c2_gpio) (out : A)
    (body : c2_gpio -> io gpio_reg (c2_status_t * A)) : io gpio_reg (c2_status_t * A) :=
  match gpio, c2_gpio_validate gpio with
  | Some g, C2_OK => body g
  | _, status => fail status out
  end.

Definition c2_gpio_set_direction_mask (gpio : option c2_gpio) (pin_mask : Z)
    (direction : c2_gpio_direction) : io gpio_reg (c2_status_t * option c2_gpio) :=
  with_gpio gpio gpio (fun g =>
    if negb (c2_gpio_mask_is_valid pin_mask) ||
       match direction with OTHER_DIRECTION => true | _ => false end
    then fail C2_ERROR_INVALID_ARGUMENT gpio
    else if pin_mask =? 0 then mret (C2_OK, gpio)
    else
      let shadow := match direction with
                    | C2_GPIO_DIRECTION_INPUT => Z.lor (input_mask_shadow g) pin_mask
                    | _ => Z.land (input_mask_shadow g) (u32 (Z.lnot pin_mask))
                    end in
      let shadow := Z.land shadow C2_GPIO_PIN_MASK in
      c2_mmio_write32 DDR shadow;;
      mret (C2_OK, Some (mk_gpio (gpio_regs g) (output_shadow g) shadow (gpio_initialized g)))).

Definition c2_gpio_write_mask (gpio : option c2_gpio) (pin_mask value_bits : Z)
    : io gpio_reg (c2_status_t * option c2_gpio) :=
  with_gpio gpio gpio (fun g =>
    if negb (c2_gpio_mask_is_valid pin_mask) || negb (c2_gpio_mask_is_valid value_bits)
    then fail C2_ERROR_INVALID_ARGUMENT gpio
    else if pin_mask =? 0 then mret (C2_OK, gpio)
    else
      let shadow := Z.lor (Z.land (output_shadow g) (u32 (Z.lnot pin_mask))) (Z.land value_bits pin_mask) in
      let shadow := Z.land shadow C2_GPIO_PIN_MASK in
      c2_mmio_write32 DR shadow;;
      mret (C2_OK, Some (mk_gpio (gpio_regs g) shadow (input_mask_shadow g) (gpio_initialized g)))).

Definition c2_gpio_set_mask (gpio : option c2_gpio) (pin_mask : Z) :=
  c2_gpio_write_mask gpio pin_mask pin_mask.

Definition c2_gpio_clear_mask (gpio : option c2_gpio) (pin_mask : Z) :=
  c2_gpio_write_mask gpio pin_mask 0.

Definition c2_gpio_toggle_mask (gpio : option c2_gpio) (pin_mask : Z)
    : io gpio_reg (c2_status_t * option c2_gpio) :=
  with_gpio gpio gpio (fun g =>
    if negb (c2_gpio_mask_is_valid pin_mask) then fail C2_ERROR_INVALID_ARGUMENT gpio
    else if pin_mask =? 0 then mret (C2_OK, gpio)
    else
      let shadow := Z.land (Z.lxor (output_shadow g) pin_mask) C2_GPIO_PIN_MASK in
      c2_mmio_write32 DR shadow;;
      mret (C2_OK, Some (mk_gpio (gpio_regs g) shadow (input_mask_shadow g) (gpio_initialized g)))).

Definition c2_gpio_read_inputs (gpio : option c2_gpio) (pin_mask : Z) (value_bits : option Z)
    : io gpio_reg (c2_status_t * option Z) :=
  with_gpio gpio value_bits (fun g =>
    match value_bits with
    | None => fail C2_ERROR_INVALID_ARGUMENT value_bits
    | Some _ =>
        if negb (c2_gpio_mask_is_valid pin_mask) ||
           negb (Z.land pin_mask (u32 (Z.lnot (input_mask_shadow g))) =? 0)
        then fail C2_ERROR_INVALID_ARGUMENT value_bits
        else if pin_mask =? 0 then mret (C2_OK, Some 0)
        else
          sample ← c2_mmio_read32 DR;
          mret (C2_OK, Some (Z.land (Z.land sample pin_mask) C2_GPIO_PIN_MASK))
    end).

Definition c2_gpio_get_shadow (gpio : option c2_gpio) (input_mask output_bits : option Z)
    : io gpio_reg (c2_status_t * (option Z * option Z)) :=
  with_gpio gpio (input_mask, output_bits) (fun g =>
    match input_mask, output_bits with
    | Some _, Some _ => mret (C2_OK, (Some (input_mask_shadow g), Some (output_shadow g)))
    | _, _ => fail C2_ERROR_INVALID_ARGUMENT (input_mask, output_bits)
    end).

(** ** Bit masks *)

Section Masks.
Lemma lnot32_testbit m i : 0 <= i < 32 -> Z.testbit (u32 (Z.lnot m)) i = negb (Z.testbit m i).
Proof.
  intros Hi. unfold u32. change 4294967296 with (2 ^ 32).
  rewrite Z.mod_pow2_bits_low by lia. by rewrite Z.lnot_spec by lia.
Qed.

Lemma mask_is_valid_spec m : is_u32 m -> c2_gpio_mask_is_valid m = true <-> 0 <= m < 65536.
Proof.
  intros Hm. unfold c2_gpio_mask_is_valid, C2_GPIO_PIN_MASK.
  rewrite Z.eqb_eq, (high_bits_clear m 16) by (lia || done). rlia.
Qed.

Lemma pin_mask_range x : 0 <= Z.land x C2_GPIO_PIN_MASK < 65536.
Proof. unfold C2_GPIO_PIN_MASK. change 65535 with (2 ^ 16 - 1). rewrite land_mask by lia. by apply Z.mod_pos_bound. Qed.

Lemma pin_mask_testbit x i : 0 <= i < 16 -> Z.testbit (Z.land x C2_GPIO_PIN_MASK) i = Z.testbit x i.
Proof.
  intros Hi. rewrite Z.land_spec. change C2_GPIO_PIN_MASK with (Z.ones 16).
  rewrite Z.ones_spec_low by lia. apply andb_true_r.
Qed.
End Masks.

(** ** Contexts and their hardware *)

Section Sync.
Context {d : Device gpio_reg}.
Implicit Types (g : c2_gpio) (h : list (access gpio_reg)).

(** The shadows are pin masks and equal the last words written to the registers. *)
Record gpio_ok g h : Prop := {
  ok_live : gpio_initialized g = true /\ gpio_regs g = true;
  ok_output : 0 <= output_shadow g < 65536;
  ok_input : 0 <= input_mask_shadow g < 65536;
  ok_dr : last_write DR h = Some (output_shadow g);
  ok_ddr : last_write DDR h = Some (input_mask_shadow g);
}.

(** One client call on a context, with its status and the context it leaves. *)
Inductive gpio_call : Type :=
| CallDirection (mask : Z) (direction : c2_gpio_direction)
| CallWrite (mask value : Z)
| CallSet (mask : Z)
| CallClear (mask : Z)
| CallToggle (mask : Z)
| CallRead (mask : Z).

Definition gpio_do (c : gpio_call) g : io gpio_reg (c2_status_t * option c2_gpio) :=
  match c with
  | CallDirection m dir => c2_gpio_set_direction_mask (Some g) m dir
  | CallWrite m v => c2_gpio_write_mask (Some g) m v
  | CallSet m => c2_gpio_set_mask (Some g) m
  | CallClear m => c2_gpio_clear_mask (Some g) m
  | CallToggle m => c2_gpio_toggle_mask (Some g) m
  | CallRead m => r ← c2_gpio_read_inputs (Some g) m (Some 0); mret (r.1, Some g)
  end.

(** A successful init followed by any calls, whatever the device answers. *)
Inductive gpio_reach : c2_gpio -> list (access gpio_reg) -> Prop :=
| gpio_reach_init g0 h om ob g h' : is_u32 om -> is_u32 ob ->
    exec (c2_gpio_init (Some g0) true om ob) h = ((C2_OK, Some g), h') -> gpio_reach g h'
| gpio_reach_call c g h st g' h' : gpio_reach g h ->
    exec (gpio_do c g) h = ((st, Some g'), h') -> gpio_reach g' h'.

Lemma with_gpio_ok {A} g h (out : A) body : gpio_ok g h -> with_gpio (Some g) out body = body g.
Proof. intros [[H1 H2] _ _ _ _]. unfold with_gpio, c2_gpio_validate. by rewrite H1, H2. Qed.

Lemma gpio_init_ok g0 h om ob : is_u32 om -> is_u32 ob ->
  io_wp (c2_gpio_init (Some g0) true om ob) h (fun r h' =>
    forall g, r = (C2_OK, Some g) -> gpio_ok g h').
Proof.
  intros Hom Hob. unfold c2_gpio_init. cbn [negb orb].
  destruct (c2_gpio_mask_is_valid om) eqn:E1; [|by io_step; intros].
  destruct (c2_gpio_mask_is_valid ob) eqn:E2; [|by io_step; intros]. cbn [negb orb].
  repeat io_step. intros g [= <-]. apply mask_is_valid_spec in E2; [|done].
  split; cbn [gpio_initialized gpio_regs output_shadow input_mask_shadow].
  - done.
  - done.
  - apply pin_mask_range.
  - rewrite last_write_other by done. apply last_write_same.
  - apply last_write_same.
Qed.

(** Every call keeps context and hardware in step. *)
Lemma gpio_do_ok c g h : gpio_ok g h ->
  io_wp (gpio_do c g) h (fun r h' => exists g', r.2 = Some g' /\ gpio_ok g' h').
Proof.
  intros Hok. pose proof Hok as [[Hi Hr] Ho Hm Hdr Hddr].
  assert (forall v h, last_write DR (h ++ [Wr DDR v]) = last_write DR h) as Hd1
    by (intros; by apply last_write_other).
  assert (forall v h, last_write DDR (h ++ [Wr DR v]) = last_write DDR h) as Hd2
    by (intros; by apply last_write_other).
  destruct c; cbn [gpio_do];
    unfold c2_gpio_set_direction_mask, c2_gpio_set_mask, c2_gpio_clear_mask, c2_gpio_write_mask,
      c2_gpio_toggle_mask, c2_gpio_read_inputs;
    rewrite (with_gpio_ok g h) by done; repeat (io_step || case_match); try (by exists g);
    eexists; (split; [done|]); split; cbn [gpio_initialized gpio_regs output_shadow input_mask_shadow];
    auto using pin_mask_range; rewrite ?Hd1, ?Hd2, ?last_write_read, ?last_write_same; auto.
Qed.

Lemma gpio_reach_ok g h : gpio_reach g h -> gpio_ok g h.
Proof.
  induction 1 as [g0 h om ob g h' Hom Hob E|c g h st g' h' _ IH E].
  - pose proof (gpio_init_ok g0 h om ob Hom Hob) as H. unfold io_wp in H. rewrite E in H. by apply H.
  - destruct (gpio_do_ok c g h IH) as (g'' & E' & Hok). rewrite E in E', Hok. cbn in E'. by injection E' as ->.
Qed.

(** In every context reachable from a successful init, whatever the hardware answers and
    whatever calls succeed or fail, both shadows are 16-bit pin masks and equal the words last
    written to the data and direction registers: software and hardware never drift apart. *)
Theorem gpio_in_sync g h : gpio_reach g h ->
  (gpio_initialized g = true /\ 0 <= output_shadow g < 65536 /\ 0 <= input_mask_shadow g < 65536) /\
  last_write DR h = Some (output_shadow g) /\ last_write DDR h = Some (input_mask_shadow g).
Proof. intros [[Hi _] Ho Hm Hdr Hddr]%gpio_reach_ok. auto. Qed.

(** A write of the data register that a mask selects. *)
Lemma masked_bits old m v i : 0 <= m < 65536 -> 0 <= i < 16 ->
  Z.testbit (Z.land (Z.lor (Z.land old (u32 (Z.lnot m))) (Z.land v m)) C2_GPIO_PIN_MASK) i
  = if Z.testbit m i then Z.testbit v i else Z.testbit old i.
Proof.
  intros Hm Hi. rewrite pin_mask_testbit, Z.lor_spec, !Z.land_spec, lnot32_testbit by lia.
  by destruct (Z.testbit m i), (Z.testbit old i), (Z.testbit v i).
Qed.

(** The mask operations change exactly the selected pins, bit by bit, with at most one
    register write; a mask outside the port is rejected without touching the hardware. *)
Theorem gpio_mask_operations g h m v :
  gpio_reach g h -> is_u32 m -> is_u32 v ->
  (65536 <= m -> exec (c2_gpio_write_mask (Some g) m v) h = ((C2_ERROR_INVALID_ARGUMENT, Some g), h) /\
                 exec (c2_gpio_toggle_mask (Some g) m) h = ((C2_ERROR_INVALID_ARGUMENT, Some g), h)) /\
  (m < 65536 -> v < 65536 -> exists g',
     exec (c2_gpio_write_mask (Some g) m v) h
       = ((C2_OK, Some g'), if m =? 0 then h else h ++ [Wr DR (output_shadow g')]) /\
     input_mask_shadow g' = input_mask_shadow g /\
     forall i, 0 <= i < 16 -> Z.testbit (output_shadow g') i
       = if Z.testbit m i then Z.testbit v i else Z.testbit (output_shadow g) i) /\
  (m < 65536 -> exists g',
     exec (c2_gpio_toggle_mask (Some g) m) h
       = ((C2_OK, Some g'), if m =? 0 then h else h ++ [Wr DR (output_shadow g')]) /\
     forall i, 0 <= i < 16 -> Z.testbit (output_shadow g') i
       = xorb (Z.testbit (output_shadow g) i) (Z.testbit m i)) /\
  (m < 65536 -> exists g',
     exec (c2_gpio_set_direction_mask (Some g) m C2_GPIO_DIRECTION_OUTPUT) h
       = ((C2_OK, Some g'), if m =? 0 then h else h ++ [Wr DDR (input_mask_shadow g')]) /\
     output_shadow g' = output_shadow g /\
     forall i, 0 <= i < 16 -> Z.testbit (input_mask_shadow g') i
       = Z.testbit (input_mask_shadow g) i && negb (Z.testbit m i)).
Proof.
  intros Hok%gpio_reach_ok Hm Hv.
  unfold c2_gpio_write_mask, c2_gpio_toggle_mask, c2_gpio_set_direction_mask.
  rewrite !(with_gpio_ok g h) by done.
  assert (forall x, is_u32 x -> x < 65536 -> c2_gpio_mask_is_valid x = true) as Hvalid
    by (intros; apply mask_is_valid_spec; [done|rlia]).
  split.
  { intros Hbig. replace (c2_gpio_mask_is_valid m) with false; [done|]. symmetry.
    apply not_true_iff_false. rewrite mask_is_valid_spec by done. lia. }
  split; [|split].
  - intros Hm' Hv'. rewrite !Hvalid by done. cbn [negb orb]. destruct (Z.eqb_spec m 0) as [->|Hnz].
    + exists g. split; [done|]. split; [done|]. intros. by rewrite Z.bits_0.
    + exists (mk_gpio (gpio_regs g) (Z.land (Z.lor (Z.land (output_shadow g) (u32 (Z.lnot m)))
        (Z.land v m)) C2_GPIO_PIN_MASK) (input_mask_shadow g) (gpio_initialized g)). split; [reflexivity|]. split; [done|]. intros i Hi. cbn [output_shadow].
      apply masked_bits; [rlia|done].
  - intros Hm'. rewrite !Hvalid by done. cbn [negb orb]. destruct (Z.eqb_spec m 0) as [->|Hnz].
    + exists g. split; [done|]. intros. by rewrite Z.bits_0, xorb_false_r.
    + exists (mk_gpio (gpio_regs g) (Z.land (Z.lxor (output_shadow g) m) C2_GPIO_PIN_MASK)
        (input_mask_shadow g) (gpio_initialized g)). split; [reflexivity|]. intros i Hi. cbn [output_shadow].
      by rewrite pin_mask_testbit, Z.lxor_spec by done.
  - intros Hm'. rewrite !Hvalid by done. cbn [negb orb]. destruct (Z.eqb_spec m 0) as [->|Hnz].
    + exists g. split; [done|]. split; [done|]. intros. by rewrite Z.bits_0, andb_true_r.
    + exists (mk_gpio (gpio_regs g) (output_shadow g)
        (Z.land (Z.land (input_mask_shadow g) (u32 (Z.lnot m))) C2_GPIO_PIN_MASK) (gpio_initialized g)). split; [reflexivity|]. split; [done|]. intros i Hi. cbn [input_mask_shadow].
      by rewrite pin_mask_testbit, Z.land_spec, lnot32_testbit by lia.
Qed.

(** Init exposes no output glitch: the first access disconnects every output, the second
    seeds the latch, and only the third opens the requested pins; invalid masks touch nothing. *)
Theorem gpio_init_order g0 h om ob : is_u32 om -> is_u32 ob ->
  exec (c2_gpio_init (Some g0) true om ob) h =
  if (om <? 65536) && (ob <? 65536)
  then ((C2_OK, Some (mk_gpio true ob (65535 - om) true)),
        h ++ [Wr DDR 65535; Wr DR ob; Wr DDR (65535 - om)])
  else ((C2_ERROR_INVALID_ARGUMENT, Some g0), h).
Proof.
  intros Hom Hob. unfold c2_gpio_init. cbn [negb orb].
  assert (forall x, is_u32 x -> c2_gpio_mask_is_valid x = (x <? 65536)) as Hvalid.
  { intros x Hx. destruct (Z.ltb_spec x 65536).
    - apply mask_is_valid_spec; [done|rlia].
    - apply not_true_iff_false. rewrite mask_is_valid_spec by done. lia. }
  rewrite !Hvalid by done. destruct (Z.ltb_spec om 65536), (Z.ltb_spec ob 65536); try done. cbn [negb orb andb].
  assert (Z.land (u32 (Z.lnot om)) C2_GPIO_PIN_MASK = 65535 - om) as E.
  { unfold C2_GPIO_PIN_MASK, u32. change 65535 with (2 ^ 16 - 1) at 1. rewrite land_mask by lia.
    change (2 ^ 16) with 65536. unfold Z.lnot. dlia. }
  rewrite E. cbn. by rewrite <- !app_assoc.
Qed.
End Sync.

(** ** Witnesses, against a port whose inputs read as zero *)

Section Witnesses.
#[local] Instance zero_port : Device gpio_reg := const_device 0 zero_u32.

Definition sample_gpio : c2_gpio := mk_gpio true 3 65520 true.

Lemma sample_gpio_reach :
  gpio_reach sample_gpio [Wr DDR 65535; Wr DR 3; Wr DDR 65520].
Proof. apply (gpio_reach_init (mk_gpio false 0 0 false) [] 15 3); [rlia|rlia|by vm_compute]. Qed.

Lemma gpio_in_sync_witness :
  last_write DR [Wr DDR 65535; Wr DR 3; Wr DDR 65520] = Some 3.
Proof. destruct (gpio_in_sync _ _ sample_gpio_reach) as (_ & H & _). exact H. Defined.

Lemma gpio_mask_operations_witness : exists g',
  (exec (c2_gpio_write_mask (Some sample_gpio) 6 4) [Wr DDR 65535; Wr DR 3; Wr DDR 65520]).1
    = (C2_OK, Some g').
Proof.
  destruct (gpio_mask_operations sample_gpio _ 6 4 sample_gpio_reach ltac:(rlia) ltac:(rlia))
    as (_ & H & _). destruct (H ltac:(lia) ltac:(lia)) as (g' & E & _).
  exists g'. rewrite E. reflexivity.
Defined.

Lemma gpio_init_order_witness :
  (exec (c2_gpio_init (Some sample_gpio) true 15 3) []).2 = [Wr DDR 65535; Wr DR 3; Wr DDR 65520].
Proof. rewrite (gpio_init_order sample_gpio [] 15 3 ltac:(rlia) ltac:(rlia)). reflexivity. Defined.
End Witnesses.
