(* ===== verification/C2Pwm.v ===== *)
(** * PWM: vendor/openecos/starrysky/c2/src/c2_pwm.c

    Four compare channels share a prescaler and a period.  [regs = false] is a
    NULL register block; output pointers are cells. *)
From S2P Require Import Prelude MachineInt Mmio.

Inductive pwm_reg : Type := CTRL | PSCR | CMP | CR0 | CR1 | CR2 | CR3 | STAT.
#[export] Instance pwm_reg_eq : EqDecision pwm_reg.
Proof. solve_decision. Defined.

Definition C2_PWM_CTRL_OVIE : Z := 1.
Definition C2_PWM_CTRL_EN : Z := 2.
Definition C2_PWM_CTRL_CLR : Z := 4.
Definition C2_PWM_FIELD_MAX : Z := 65535.
Definition C2_PWM_DUTY_SCALE : Z := 10000.
Definition C2_PWM_CHANNEL_COUNT : Z := 4.

(** [compare] holds the four channel values. *)
Record c2_pwm_config : Type := mk_pwm_config { prescaler : Z; period : Z; compare : list Z }.

Definition c2_pwm_channel_valid (channel : Z) : bool := u32 channel <? C2_PWM_CHANNEL_COUNT.

Definition c2_pwm_write_compare (channel compare : Z) : io pwm_reg unit :=
  if channel =? 0 then c2_mmio_write32 CR0 compare
  else if channel =? 1 then c2_mmio_write32 CR1 compare
  else if channel =? 2 then c2_mmio_write32 CR2 compare
  else if channel =? 3 then c2_mmio_write32 CR3 compare
  else mret tt.

Definition c2_pwm_validate_config (config : option c2_pwm_config) : c2_status_t :=
  match config with
  | None => C2_ERROR_INVALID_ARGUMENT
  | Some c =>
      if (prescaler c >? C2_PWM_FIELD_MAX) || (period c =? 0) || (period c >? C2_PWM_FIELD_MAX)
      then C2_ERROR_INVALID_ARGUMENT
      else if existsb (fun x => (x >? C2_PWM_FIELD_MAX) || (x >? period c)) (compare c)
      then C2_ERROR_INVALID_ARGUMENT
      else C2_OK
  end.

Definition c2_pwm_control_state : io pwm_reg Z :=
  v ← c2_mmio_read32 CTRL; mret (Z.land v (Z.lor C2_PWM_CTRL_OVIE C2_PWM_CTRL_EN)).

Definition c2_pwm_init_raw (regs : bool) (config : option c2_pwm_config) : io pwm_reg c2_status_t :=
  if negb regs then mret C2_ERROR_INVALID_ARGUMENT
  else
    match c2_pwm_validate_config config, config with
    | C2_OK, Some c =>
        c2_mmio_write32 PSCR (prescaler c);;
        c2_mmio_write32 CMP (period c);;
        c2_mmio_write32 CR0 (nth 0 (compare c) 0);;
        c2_mmio_write32 CR1 (nth 1 (compare c) 0);;
        c2_mmio_write32 CR2 (nth 2 (compare c) 0);;
        c2_mmio_write32 CR3 (nth 3 (compare c) 0);;
        mret C2_OK
    | status, _ => mret status
    end.

(** The divider, at least 1 and at most 65536. *)
Definition pwm_divider (clock_hz frequency_hz : Z) : Z :=
  let frequency_denominator := u64 (frequency_hz * C2_PWM_FIELD_MAX) in
  let divider := u64 (u64 (clock_hz + frequency_denominator) - 1) / frequency_denominator in
  let divider := if divider =? 0 then 1 else divider in
  if divider >? u32 (C2_PWM_FIELD_MAX + 1) then u32 (C2_PWM_FIELD_MAX + 1) else divider.

Definition pwm_period (clock_hz frequency_hz divider : Z) : Z :=
  let frequency_denominator := u64 (frequency_hz * divider) in
  let period := u64 (clock_hz + frequency_denominator / 2) / frequency_denominator in
  if period =? 0 then 1 else if period >? C2_PWM_FIELD_MAX then C2_PWM_FIELD_MAX else period.

Definition pwm_high_clocks (period duty : Z) : Z :=
  u64 (u64 (period * duty) + C2_PWM_DUTY_SCALE / 2) / C2_PWM_DUTY_SCALE.

(** Returns the status, the configuration cell and the actual-frequency cell. *)
Definition c2_pwm_calculate_config (clock_hz frequency_hz : Z) (duty : option (list Z))
    (config : option c2_pwm_config) (actual_frequency_hz : option Z)
    : c2_status_t * option c2_pwm_config * option Z :=
  match duty, config with
  | Some duty, Some _ =>
      if (clock_hz =? 0) || (frequency_hz =? 0) || (frequency_hz >? clock_hz) ||
         existsb (fun x => x >? C2_PWM_DUTY_SCALE) duty
      then (C2_ERROR_INVALID_ARGUMENT, config, actual_frequency_hz)
      else
        let divider := pwm_divider clock_hz frequency_hz in
        let period := pwm_period clock_hz frequency_hz divider in
        (C2_OK,
         Some (mk_pwm_config (u32 (divider - 1)) (u32 period)
                 ((fun x => u32 (u64 (period - pwm_high_clocks period x))) <$> duty)),
         match actual_frequency_hz with
         | Some _ => Some (u32 (clock_hz / u64 (divider * period)))
         | None => None
         end)
  | _, _ => (C2_ERROR_INVALID_ARGUMENT, config, actual_frequency_hz)
  end.

Definition c2_pwm_configure (regs : bool) (clock_hz frequency_hz : Z) (duty : option (list Z))
    (config_out : option c2_pwm_config) (actual_frequency_hz : option Z)
    : io pwm_reg (c2_status_t * option c2_pwm_config * option Z) :=
  if negb regs then mret (C2_ERROR_INVALID_ARGUMENT, config_out, actual_frequency_hz)
  else
    match c2_pwm_calculate_config clock_hz frequency_hz duty
            (Some (mk_pwm_config 0 0 [0; 0; 0; 0])) (Some 0) with
    | (C2_OK, config, actual) =>
        status ← c2_pwm_init_raw regs config;
        mret (if c2_ok status
              then (C2_OK, match config_out with Some _ => config | None => None end,
                    match actual_frequency_hz with Some _ => actual | None => None end)
              else (status, config_out, actual_frequency_hz))
    | (status, _, _) => mret (status, config_out, actual_frequency_hz)
    end.

Definition c2_pwm_set_compare (regs : bool) (channel compare : Z) : io pwm_reg c2_status_t :=
  if negb regs || negb (c2_pwm_channel_valid channel) then mret C2_ERROR_INVALID_ARGUMENT
  else
    v ← c2_mmio_read32 CMP;
    let period := Z.land v C2_PWM_FIELD_MAX in
    if (period =? 0) || (compare >? period) || (compare >? C2_PWM_FIELD_MAX)
    then mret C2_ERROR_INVALID_ARGUMENT
    else c2_pwm_write_compare channel compare;; mret C2_OK.

Definition c2_pwm_set_duty (regs : bool) (channel duty : Z) : io pwm_reg c2_status_t :=
  if negb regs || negb (c2_pwm_channel_valid channel) || (duty >? C2_PWM_DUTY_SCALE)
  then mret C2_ERROR_INVALID_ARGUMENT
  else
    v ← c2_mmio_read32 CMP;
    let period := Z.land v C2_PWM_FIELD_MAX in
    if period =? 0 then mret C2_ERROR_INVALID_ARGUMENT
    else
      let high_clocks := pwm_high_clocks period duty in
      c2_pwm_write_compare channel (u32 (period - u32 high_clocks));; mret C2_OK.

Definition c2_pwm_enable (regs : bool) : io pwm_reg c2_status_t :=
  if negb regs then mret C2_ERROR_INVALID_ARGUMENT
  else control ← c2_pwm_control_state;
       c2_mmio_write32 CTRL (Z.lor control C2_PWM_CTRL_EN);; mret C2_OK.

Definition c2_pwm_disable (regs : bool) : io pwm_reg c2_status_t :=
  if negb regs then mret C2_ERROR_INVALID_ARGUMENT
  else control ← c2_pwm_control_state;
       c2_mmio_write32 CTRL (Z.land control (u32 (Z.lnot C2_PWM_CTRL_EN)));; mret C2_OK.

Definition c2_pwm_clear (regs : bool) : io pwm_reg c2_status_t :=
  if negb regs then mret C2_ERROR_INVALID_ARGUMENT
  else control ← c2_pwm_control_state;
       c2_mmio_write32 CTRL (Z.lor control C2_PWM_CTRL_CLR);;
       c2_mmio_write32 CTRL control;; mret C2_OK.

Definition c2_pwm_irq_enable (regs enable : bool) : io pwm_reg c2_status_t :=
  if negb regs then mret C2_ERROR_INVALID_ARGUMENT
  else control ← c2_pwm_control_state;
       c2_mmio_write32 CTRL (if enable then Z.lor control C2_PWM_CTRL_OVIE
                             else Z.land control (u32 (Z.lnot C2_PWM_CTRL_OVIE)));;
       mret C2_OK.

(** The snapshot cell holds the raw word and the overflow flag. *)
Definition c2_pwm_irq_snapshot (regs : bool) (snapshot : option (Z * bool))
    : io pwm_reg (c2_status_t * option (Z * bool)) :=
  match regs, snapshot with
  | true, Some _ =>
      raw ← c2_mmio_read32 STAT;
      mret (C2_OK, Some (raw, negb (Z.land raw 1 =? 0)))
  | _, _ => fail C2_ERROR_INVALID_ARGUMENT snapshot
  end.

(** ** The timing calculation *)

Section Timing.
Variables clock_hz frequency_hz : Z.
Hypothesis Hc : is_u32 clock_hz.
Hypothesis Hf : is_u32 frequency_hz.
Hypothesis Hpos : 0 < frequency_hz <= clock_hz.

(** The smallest divider for which the period fits 16 bits, capped to the field. *)
Lemma pwm_divider_spec :
  let n := pwm_divider clock_hz frequency_hz in
  1 <= n <= 65536 /\ (n - 1) * (frequency_hz * 65535) < clock_hz /\
  (clock_hz <= 65536 * (frequency_hz * 65535) -> clock_hz <= n * (frequency_hz * 65535)).
Proof.
  unfold pwm_divider, C2_PWM_FIELD_MAX. change (u32 (65535 + 1)) with 65536. cbv zeta.
  assert (0 < frequency_hz * 65535 < 281470681743361) as Hd by rlia.
  set (den := frequency_hz * 65535) in *. rewrite (u64_id den), (u64_id (clock_hz + den)), u64_id by rlia.
  pose proof (Z.div_mod (clock_hz + den - 1) den ltac:(lia)).
  pose proof (Z.mod_pos_bound (clock_hz + den - 1) den ltac:(lia)).
  set (q := (clock_hz + den - 1) / den) in *.
  assert (1 <= q) by nia.
  destruct (Z.eqb_spec q 0); [lia|]. rewrite Z.gtb_ltb. destruct (Z.ltb_spec 65536 q); [|nia].
  assert (65536 * den <= clock_hz) by nia. split; [lia|]. split; [nia|auto].
Qed.

(** The period: the ratio rounded to nearest, inside 1..65535. *)
Lemma pwm_period_spec n : 1 <= n <= 65536 -> (n - 1) * (frequency_hz * 65535) < clock_hz ->
  let p := pwm_period clock_hz frequency_hz n in
  1 <= p <= 65535 /\
  (clock_hz <= n * (frequency_hz * 65535) ->
     2 * Z.abs (clock_hz - frequency_hz * n * p) <= frequency_hz * n).
Proof.
  intros Hn Hlow. unfold pwm_period, C2_PWM_FIELD_MAX. cbv zeta.
  assert (0 < frequency_hz * n <= 281474976645120) as Hd by (unfold is_u32 in *; nia).
  set (den := frequency_hz * n) in *. rewrite (u64_id den) by rlia.
  assert (0 <= den / 2 <= den) by dlia. rewrite u64_id by rlia.
  pose proof (Z.div_mod (clock_hz + den / 2) den ltac:(lia)).
  pose proof (Z.mod_pos_bound (clock_hz + den / 2) den ltac:(lia)).
  set (q := (clock_hz + den / 2) / den) in *.
  assert (2 * (den / 2) <= den < 2 * (den / 2) + 2) by dlia.
  assert (1 <= q) as Hq.
  { assert (den <= clock_hz + den / 2); [|nia]. destruct (Z.eq_dec n 1) as [En|].
    - assert (den = frequency_hz) by (unfold den; rewrite En; lia). lia.
    - assert (den <= (n - 1) * (frequency_hz * 65535)); [|lia]. unfold den. nia. }
  destruct (Z.eqb_spec q 0); [lia|]. rewrite Z.gtb_ltb.
  destruct (Z.ltb_spec 65535 q).
  - split; [lia|]. intros Hup. assert (n * (frequency_hz * 65535) = den * 65535) by (unfold den; ring).
    assert (65536 * den <= clock_hz + den / 2) by nia. lia.
  - split; [lia|]. intros _. nia.
Qed.

Lemma pwm_high_clocks_spec p duty : 0 <= p <= 65535 -> 0 <= duty <= 10000 ->
  let high := pwm_high_clocks p duty in
  0 <= high <= p /\ 2 * Z.abs (high * 10000 - p * duty) <= 10000.
Proof.
  intros Hp Hd. unfold pwm_high_clocks, C2_PWM_DUTY_SCALE. change (10000 / 2) with 5000. cbv zeta.
  assert (0 <= p * duty <= p * 10000) by nia. rewrite (u64_id (p * duty)), u64_id by rlia.
  pose proof (Z.div_mod (p * duty + 5000) 10000 ltac:(lia)).
  pose proof (Z.mod_pos_bound (p * duty + 5000) 10000 ltac:(lia)). nia.
Qed.
End Timing.

(** For every clock and every frequency not above it, and duties up to 100 percent, the
    calculation succeeds with a configuration that the raw initialisation accepts; prescaler,
    period and compares are the exact integers below without any wrap-around.  The period misses
    the requested ratio by at most half a count (except where the 16-bit fields saturate), every
    high time is the requested duty rounded to the nearest count, and 0 and 100 percent are
    exact. *)
Theorem pwm_calculate_spec (clock_hz frequency_hz : Z) (duty : list Z) (config : c2_pwm_config) (actual : option Z) :
  is_u32 clock_hz -> 0 < frequency_hz <= clock_hz ->
  length duty = 4%nat -> Forall (fun x => 0 <= x <= 10000) duty ->
  exists c freq,
    c2_pwm_calculate_config clock_hz frequency_hz (Some duty) (Some config) actual = (C2_OK, Some c, freq) /\
    c2_pwm_validate_config (Some c) = C2_OK /\
    0 <= prescaler c <= 65535 /\ 1 <= period c <= 65535 /\ length (compare c) = 4%nat /\
    (clock_hz <= 65536 * (frequency_hz * 65535) ->
       2 * Z.abs (clock_hz - frequency_hz * (prescaler c + 1) * period c) <= frequency_hz * (prescaler c + 1)) /\
    Forall2 (fun x cmp => 0 <= cmp <= period c /\
               2 * Z.abs ((period c - cmp) * 10000 - period c * x) <= 10000 /\
               (x = 0 -> cmp = period c) /\ (x = 10000 -> cmp = 0)) duty (compare c).
Proof.
  intros Hc Hf Hlen Hduty. assert (is_u32 frequency_hz) as Hfu by rlia.
  destruct (pwm_divider_spec clock_hz frequency_hz Hc Hf) as (Hn & Hlow & Hup).
  unfold c2_pwm_calculate_config.
  set (n := pwm_divider clock_hz frequency_hz) in *.
  destruct (pwm_period_spec clock_hz frequency_hz Hc Hfu Hf n Hn Hlow) as [Hp Herr].
  set (p := pwm_period clock_hz frequency_hz n) in *. clearbody n p.
  assert (existsb (fun x => x >? C2_PWM_DUTY_SCALE) duty = false) as ->.
  { unfold C2_PWM_DUTY_SCALE. clear -Hduty. induction Hduty as [|x l Hx _ IH]; cbn; [done|].
    rewrite IH, Z.gtb_ltb, (proj2 (Z.ltb_ge _ _)); [done|lia]. }
  rewrite (proj2 (Z.eqb_neq clock_hz 0)), (proj2 (Z.eqb_neq frequency_hz 0)), Z.gtb_ltb,
    (proj2 (Z.ltb_ge _ _)) by lia. cbn [orb]. cbv zeta.
  assert (Forall2 (fun x cmp => 0 <= cmp <= p /\ 2 * Z.abs ((p - cmp) * 10000 - p * x) <= 10000 /\
               (x = 0 -> cmp = p) /\ (x = 10000 -> cmp = 0))
            duty ((fun x => u32 (u64 (p - pwm_high_clocks p x))) <$> duty)) as Hall.
  { clear -Hduty Hp. induction Hduty as [|x l Hx _ IH]; cbn; [constructor|]. constructor; [|done].
    destruct (pwm_high_clocks_spec p x ltac:(lia) Hx) as [Hh Herr].
    set (high := pwm_high_clocks p x) in *. rewrite (u64_id (p - high)), u32_id by rlia.
    split; [lia|]. split; [lia|]. split; intros ->; lia. }
  do 2 eexists. split; [done|]. cbn [prescaler period compare]. rewrite !u32_id by rlia.
  split; [|split; [lia|split; [lia|split; [by rewrite length_fmap|split; [|done]]]]].
  - unfold c2_pwm_validate_config, C2_PWM_FIELD_MAX; cbn [prescaler period compare].
    rewrite !Z.gtb_ltb, (proj2 (Z.ltb_ge 65535 (n - 1))), (proj2 (Z.eqb_neq p 0)),
      (proj2 (Z.ltb_ge 65535 p)) by lia. cbn [orb].
    assert (existsb (fun x => (65535 <? x) || (p <? x))
      ((fun x => u32 (u64 (p - pwm_high_clocks p x))) <$> duty) = false) as E.
    { clear -Hall Hp. revert Hall. generalize ((fun x => u32 (u64 (p - pwm_high_clocks p x))) <$> duty).
      intros l Hall. induction Hall as [|x y l l' (Hy & _) _ IH]; cbn; [done|].
      rewrite IH, (proj2 (Z.ltb_ge 65535 y)), (proj2 (Z.ltb_ge p y)) by lia. done. }
    revert E. generalize ((fun x => u32 (u64 (p - pwm_high_clocks p x))) <$> duty). intros l E.
    replace (existsb (fun x => (x >? 65535) || (x >? p)) l) with false; [done|].
    rewrite <- E. clear. induction l as [|x l IH]; cbn; [done|]. by rewrite IH, !Z.gtb_ltb.
  - intros H. replace (n - 1 + 1) with n by lia. auto.
Qed.

Lemma pwm_calculate_witness :
  exists c freq, c2_pwm_calculate_config 50000000 20000 (Some [0; 2500; 5000; 10000])
    (Some (mk_pwm_config 0 0 [])) (Some 0) = (C2_OK, Some c, freq) /\ 1 <= period c <= 65535.
Proof.
  destruct (pwm_calculate_spec 50000000 20000 [0; 2500; 5000; 10000] (mk_pwm_config 0 0 []) (Some 0)
    ltac:(rlia) ltac:(lia) eq_refl ltac:(repeat constructor; lia)) as (c & freq & E & _ & _ & Hp & _).
  exists c, freq. exact (conj E Hp).
Defined.
