(* ===== verification/C2Timer.v ===== *)
(** * Timer: vendor/openecos/starrysky/c2/src/c2_timer.c

    A down-counter that reloads after zero.  The two nested loops of
    c2_timer_delay_clocks are one recursion on the polls left: every poll either
    continues the current chunk or starts the next one. *)
From S2P Require Import Prelude MachineInt Mmio.

Inductive timer_reg : Type := CONFIG | DATA.
#[export] Instance timer_reg_eq : EqDecision timer_reg.
Proof. solve_decision. Defined.

Definition C2_TIMER_CONFIG_LOAD : Z := 256.
Definition C2_TIMER_CONFIG_RUN : Z := 257.
Definition C2_TIMER_CLOCKS_PER_US : Z := 1000000.
Definition C2_TIMER_CLOCKS_PER_MS : Z := 1000.
Definition C2_TIMER_CHUNK_CLOCKS : Z := 4294967296.

Definition c2_timer_start (timer : bool) (reload : Z) : io timer_reg c2_status_t :=
  if negb timer then mret C2_ERROR_INVALID_ARGUMENT
  else
    c2_mmio_write32 CONFIG C2_TIMER_CONFIG_LOAD;;
    c2_mmio_write32 DATA reload;;
    c2_mmio_write32 CONFIG C2_TIMER_CONFIG_RUN;;
    mret C2_OK.

Definition c2_timer_stop (timer : bool) : io timer_reg c2_status_t :=
  if negb timer then mret C2_ERROR_INVALID_ARGUMENT
  else c2_mmio_write32 CONFIG C2_TIMER_CONFIG_LOAD;; mret C2_OK.

Definition c2_timer_current (timer : bool) (current : option Z)
    : io timer_reg (c2_status_t * option Z) :=
  match timer, current with
  | true, Some _ => v ← c2_mmio_read32 DATA; mret (C2_OK, Some v)
  | _, _ => fail C2_ERROR_INVALID_ARGUMENT current
  end.

Definition c2_timer_systick_init (timer : bool) : io timer_reg c2_status_t :=
  c2_timer_start timer UINT32_MAX.

Definition c2_timer_systick_now (timer : bool) (tick : option Z)
    : io timer_reg (c2_status_t * option Z) :=
  match tick with
  | None => fail C2_ERROR_INVALID_ARGUMENT tick
  | Some _ =>
      r ← c2_timer_current timer (Some 0);
      match r with
      | (C2_OK, Some current) => mret (C2_OK, Some (u32 (UINT32_MAX - current)))
      | (status, _) => fail status tick
      end
  end.

Definition c2_timer_systick_elapsed (timer : bool) (start : Z) (elapsed : option Z)
    : io timer_reg (c2_status_t * option Z) :=
  match elapsed with
  | None => fail C2_ERROR_INVALID_ARGUMENT elapsed
  | Some _ =>
      r ← c2_timer_systick_now timer (Some 0);
      match r with
      | (C2_OK, Some now) => mret (C2_OK, Some (u32 (now - start)))
      | (status, _) => fail status elapsed
      end
  end.

(** The chunk and its reload value for the clocks that remain. *)
Definition timer_chunk (clocks : Z) : Z :=
  if clocks >? C2_TIMER_CHUNK_CLOCKS then C2_TIMER_CHUNK_CLOCKS else clocks.
Definition timer_reload (chunk : Z) : Z :=
  if chunk =? C2_TIMER_CHUNK_CLOCKS then UINT32_MAX else u32 (u64 (chunk - 1)).

(** Poll the running chunk; [clocks] still include it. *)
Fixpoint timer_poll (polls_left : nat) (previous clocks : Z) : io timer_reg c2_status_t :=
  match polls_left with
  | O => c2_timer_stop true;; mret C2_ERROR_TIMEOUT
  | S polls_left =>
      r ← c2_timer_current true (Some 0);
      match r with
      | (C2_OK, Some current) =>
          if (current =? 0) || (current >? previous) then
            let clocks := u64 (clocks - timer_chunk clocks) in
            if clocks =? 0 then c2_timer_stop true
            else
              let reload := timer_reload (timer_chunk clocks) in
              status ← c2_timer_start true reload;
              (if c2_ok status then timer_poll polls_left reload clocks else mret status)
          else timer_poll polls_left current clocks
      | (status, _) => c2_timer_stop true;; mret status
      end
  end.

Definition c2_timer_delay_clocks (timer : bool) (clocks poll_limit : Z) : io timer_reg c2_status_t :=
  if clocks =? 0 then c2_timer_stop timer
  else
    let reload := timer_reload (timer_chunk clocks) in
    status ← c2_timer_start timer reload;
    (if c2_ok status then timer_poll (Z.to_nat poll_limit) reload clocks else mret status).

Definition c2_timer_convert_clocks (clock_hz duration units_per_second : Z) (clocks : Z)
    : c2_status_t * Z :=
  let whole := u64 (clock_hz / units_per_second * duration) in
  let fraction := u64 (clock_hz mod units_per_second * duration) in
  let rounded_fraction := fraction / units_per_second in
  let rounded_fraction :=
    if negb (fraction mod units_per_second =? 0) then u64 (rounded_fraction + 1) else rounded_fraction in
  if whole >? u64 (UINT64_MAX - rounded_fraction) then (C2_ERROR_INVALID_ARGUMENT, clocks)
  else (C2_OK, u64 (whole + rounded_fraction)).

(** The common body of the two public delays. *)
Definition timer_delay (timer : bool) (clock_hz delay units_per_second poll_limit : Z)
    : io timer_reg c2_status_t :=
  if delay =? 0 then mret C2_OK
  else if negb timer || (clock_hz =? 0) || (poll_limit =? 0) then mret C2_ERROR_INVALID_ARGUMENT
  else
    match c2_timer_convert_clocks clock_hz delay units_per_second 0 with
    | (C2_OK, clocks) => c2_timer_delay_clocks timer clocks poll_limit
    | (status, _) => mret status
    end.

Definition c2_timer_delay_us (timer : bool) (clock_hz delay_us poll_limit : Z) :=
  timer_delay timer clock_hz delay_us C2_TIMER_CLOCKS_PER_US poll_limit.
Definition c2_timer_delay_ms (timer : bool) (clock_hz delay_ms poll_limit : Z) :=
  timer_delay timer clock_hz delay_ms C2_TIMER_CLOCKS_PER_MS poll_limit.

(** ** Duration conversion *)

Definition ceil_div (a b : Z) : Z := (a + b - 1) / b.

Lemma convert_clocks_exact clock_hz duration units old :
  is_u32 clock_hz -> is_u32 duration -> units = 1000 \/ units = 1000000 ->
  c2_timer_convert_clocks clock_hz duration units old = (C2_OK, ceil_div (clock_hz * duration) units) /\
  0 <= ceil_div (clock_hz * duration) units < 18446744073709551616.
Proof.
  intros Hc Hd Hu. unfold c2_timer_convert_clocks, ceil_div.
  assert (1000 <= units <= 1000000) as Hu' by lia. unfold is_u32 in *.
  pose proof (Z.div_mod clock_hz units ltac:(lia)) as Ec.
  pose proof (Z.mod_pos_bound clock_hz units ltac:(lia)) as Hr.
  assert (0 <= clock_hz / units < 4294968) as Hq
    by (split; [apply Z.div_pos; lia|apply Z.div_lt_upper_bound; nia]).
  set (q := clock_hz / units) in *. set (r := clock_hz mod units) in *.
  assert (0 <= q * duration <= 4294967 * 4294967295) as Hw by nia.
  assert (0 <= r * duration <= 999999 * 4294967295) as Hf by nia.
  rewrite (u64_id (q * duration)), (u64_id (r * duration)) by rlia.
  pose proof (Z.div_mod (r * duration) units ltac:(lia)) as Ef.
  pose proof (Z.mod_pos_bound (r * duration) units ltac:(lia)) as Hfr.
  assert (0 <= r * duration / units <= 4294967295) as Hfq
    by (split; [apply Z.div_pos; lia|apply Z.div_le_upper_bound; nia]).
  set (fq := r * duration / units) in *. set (fr := (r * duration) mod units) in *.
  set (up := if negb (fr =? 0) then fq + 1 else fq).
  assert ((if negb (fr =? 0) then u64 (fq + 1) else fq) = up) as ->
    by (unfold up; destruct (fr =? 0); cbn; [done|apply u64_id; rlia]).
  assert (0 <= up <= 4294967296) by (unfold up; case_match; lia).
  assert ((clock_hz * duration + units - 1) / units = q * duration + up) as E.
  { symmetry. apply Z.div_unique with (if fr =? 0 then units - 1 else fr - 1).
    - left. destruct (Z.eqb_spec fr 0); lia.
    - unfold up. assert (clock_hz * duration = units * (q * duration) + r * duration) by nia.
      destruct (Z.eqb_spec fr 0); cbn [negb]; nia. }
  rewrite (u64_id (UINT64_MAX - up)), Z.gtb_ltb by rlia. unfold UINT64_MAX.
  rewrite (proj2 (Z.ltb_ge _ _)), E by lia. split; [|lia]. f_equal. apply u64_id. rlia.
Qed.

(** ** Bounded waiting *)

Definition total_clocks (reloads : list Z) : Z := foldr (fun r acc => r + 1 + acc) 0 reloads.

Lemma total_clocks_cons r l : total_clocks (r :: l) = r + 1 + total_clocks l.
Proof. done. Qed.

Section Delay.
Context {d : Device timer_reg}.

(** The accesses [l] of a wait: at most [polls] reads, stopped timer, all clocks on success. *)
Definition wait_trace (polls : nat) (clocks : Z) (st : c2_status_t) (l : list (access timer_reg)) : Prop :=
  (count_reads l <= polls)%nat /\
  (exists l', l = l' ++ [Wr CONFIG C2_TIMER_CONFIG_LOAD]) /\
  (st = C2_OK \/ st = C2_ERROR_TIMEOUT) /\
  (st = C2_OK -> total_clocks (writes_to DATA l) = clocks).

Lemma timer_reload_spec clocks : 0 < clocks < 18446744073709551616 ->
  0 < timer_chunk clocks <= clocks /\ timer_reload (timer_chunk clocks) + 1 = timer_chunk clocks /\
  (timer_chunk clocks = clocks \/ timer_chunk clocks = C2_TIMER_CHUNK_CLOCKS).
Proof.
  intros Hc. unfold timer_reload, timer_chunk, C2_TIMER_CHUNK_CLOCKS, UINT32_MAX. rewrite Z.gtb_ltb.
  destruct (Z.ltb_spec 4294967296 clocks).
  - cbn. lia.
  - destruct (Z.eqb_spec clocks 4294967296); [lia|]. rewrite u64_id, u32_id by rlia. lia.
Qed.

Lemma timer_poll_wp polls : forall previous clocks h,
  0 < clocks < 18446744073709551616 ->
  io_wp (timer_poll polls previous clocks) h (fun st h' =>
    exists l, h' = h ++ l /\ wait_trace polls (clocks - timer_chunk clocks) st l).
Proof.
  induction polls as [|polls IH]; intros previous clocks h Hc; cbn [timer_poll].
  - unfold c2_timer_stop. cbn [negb]. repeat io_step. eexists. split; [done|].
    split; [done|]. split; [by exists []|]. split; [by right|done].
  - unfold c2_timer_current. repeat io_step.
    + unfold c2_timer_stop. cbn [negb]. repeat io_step. rewrite <- app_assoc.
      eexists. split; [done|]. split; [cbn; lia|]. split; [eexists [_]; done|]. split; [by left|].
      intros _. destruct (timer_reload_spec clocks Hc) as (Hch & _ & _).
      rewrite u64_id in E0 by rlia. zbool. transitivity 0; [done|lia].
    + destruct (timer_reload_spec clocks Hc) as (Hch & _ & _). rewrite u64_id in E0 |- * by rlia. zbool.
      unfold c2_timer_start. cbn [negb]. repeat io_step; [|done].
      set (rest := clocks - timer_chunk clocks) in *.
      eapply io_wp_mono; [apply IH; lia|]. cbn beta.
      intros st h' (l & -> & Hn & (l' & ->) & Hst & Hok).
      rewrite <- !app_assoc. eexists. split; [done|].
      split; [rewrite !count_reads_app in *; cbn; lia|].
      split; [eexists ([_; _; _; _] ++ l'); done|]. split; [done|]. intros Hs.
      specialize (Hok Hs). autorewrite with trace in Hok |- *.
      change (writes_to DATA []) with (@nil Z) in *. rewrite ?app_nil_r in *. cbn [app].
      destruct (timer_reload_spec rest ltac:(lia)) as (_ & Er & _). rewrite total_clocks_cons. lia.
    + eapply io_wp_mono; [by apply IH|]. cbn beta. intros st h' (l & -> & Hn & (l' & ->) & Hst & Hok).
      rewrite <- !app_assoc. eexists. split; [done|].
      split; [rewrite !count_reads_app in *; cbn; lia|]. split; [by eexists (_ :: l')|]. split; [done|].
      intros Hs. rewrite !writes_to_app in *. cbn. by apply Hok.
Qed.

Lemma timer_delay_clocks_wp clocks poll_limit h : 0 < clocks < 18446744073709551616 ->
  io_wp (c2_timer_delay_clocks true clocks poll_limit) h (fun st h' =>
    exists l, h' = h ++ l /\ wait_trace (Z.to_nat poll_limit) clocks st l).
Proof.
  intros Hc. unfold c2_timer_delay_clocks. rewrite (proj2 (Z.eqb_neq clocks 0)) by lia.
  unfold c2_timer_start. cbn [negb]. repeat io_step; [|done].
  eapply io_wp_mono; [by apply timer_poll_wp|]. cbn beta.
  intros st h' (l & -> & Hn & (l' & ->) & Hst & Hok). rewrite <- !app_assoc.
  eexists. split; [done|]. split; [rewrite !count_reads_app in *; cbn; lia|].
  split; [eexists ([_; _; _] ++ l'); done|]. split; [done|]. intros Hs.
  specialize (Hok Hs). autorewrite with trace in Hok |- *.
  change (writes_to DATA []) with (@nil Z) in *. rewrite ?app_nil_r in *. cbn [app].
  destruct (timer_reload_spec clocks Hc) as (_ & Er & _). rewrite total_clocks_cons. lia.
Qed.

Lemma timer_delay_wp clock_hz delay units poll_limit h :
  is_u32 clock_hz -> is_u32 delay -> 0 < clock_hz -> 0 < delay -> 0 < poll_limit ->
  units = 1000 \/ units = 1000000 ->
  io_wp (timer_delay true clock_hz delay units poll_limit) h (fun st h' =>
    exists l, h' = h ++ l /\
      wait_trace (Z.to_nat poll_limit) (ceil_div (clock_hz * delay) units) st l).
Proof.
  intros Hc Hd Hc0 Hd0 Hp Hu. unfold timer_delay.
  rewrite (proj2 (Z.eqb_neq delay 0)), (proj2 (Z.eqb_neq clock_hz 0)), (proj2 (Z.eqb_neq poll_limit 0)) by lia.
  cbn [negb orb]. destruct (convert_clocks_exact clock_hz delay units 0 Hc Hd Hu) as [-> Hr].
  apply timer_delay_clocks_wp. split; [|lia]. unfold ceil_div in *.
  apply Z.div_str_pos. nia.
Qed.
End Delay.

(** C40. The delays, against any device: with valid arguments the call polls the counter at most
    poll_limit times and returns OK or TIMEOUT with the timer stopped as its last access; when
    it returns OK it has programmed reload values whose periods sum to exactly the requested time
    in clocks, rounded up, split into 32-bit chunks.  The 64-bit conversion never overflows. *)
Theorem timer_delay_spec (d : Device timer_reg) (us : bool) clock_hz delay poll_limit h st h' :
  is_u32 clock_hz -> is_u32 delay -> 0 < clock_hz -> 0 < delay -> 0 < poll_limit ->
  exec ((if us then c2_timer_delay_us else c2_timer_delay_ms) true clock_hz delay poll_limit) h = (st, h') ->
  exists l, h' = h ++ l /\
    Z.of_nat (count_reads l) <= poll_limit /\
    (st = C2_OK \/ st = C2_ERROR_TIMEOUT) /\
    last_write CONFIG h' = Some C2_TIMER_CONFIG_LOAD /\
    (st = C2_OK -> total_clocks (writes_to DATA l)
                   = ceil_div (clock_hz * delay) (if us then 1000000 else 1000)).
Proof.
  intros Hc Hd Hc0 Hd0 Hp E.
  assert (io_wp ((if us then c2_timer_delay_us else c2_timer_delay_ms) true clock_hz delay poll_limit) h
    (fun st h' => exists l, h' = h ++ l /\ wait_trace (Z.to_nat poll_limit)
       (ceil_div (clock_hz * delay) (if us then 1000000 else 1000)) st l)) as Hwp
    by (destruct us; apply timer_delay_wp; auto).
  unfold io_wp in Hwp. rewrite E in Hwp. cbn [fst snd] in Hwp.
  destruct Hwp as (l & -> & Hn & (l' & Hl') & Hst & Hok). exists l.
  split; [done|]. split; [lia|]. split; [done|]. split; [|done].
  rewrite Hl', app_assoc. apply last_write_same.
Qed.

Lemma timer_delay_witness :
  let d := const_device (R:=timer_reg) 0 zero_u32 in
  exists h', exec (c2_timer_delay_ms true 4000000 2000000 3) [] = (C2_OK, h') /\
    last_write CONFIG h' = Some C2_TIMER_CONFIG_LOAD.
Proof.
  intros d.
  assert (exec (c2_timer_delay_ms true 4000000 2000000 3) [] =
    (C2_OK, (exec (c2_timer_delay_ms true 4000000 2000000 3) []).2)) as E by by vm_compute.
  eexists. split; [exact E|].
  destruct (timer_delay_spec d false 4000000 2000000 3 [] _ _ ltac:(rlia) ltac:(rlia) ltac:(lia) ltac:(lia)
    ltac:(lia) E) as (l & _ & _ & _ & H & _). exact H.
Defined.
