(* ===== verification/C2SysUart.v ===== *)
(** * System UART: the c2_sys_uart_ functions of vendor/openecos/starrysky/c2/src/c2_uart.c

    One DATA register both ways, without flow control: writes are immediate, a
    read whose high 24 bits are set means that nothing has arrived.  [None] is a
    NULL pointer, a NULL register block is [sys_regs = false]; the caller's byte
    buffers are lists, a received byte replaces the cell the code stores to. *)
From S2P Require Import Prelude MachineInt Mmio.

Inductive sys_uart_reg : Type := CLKDIV | DATA.
#[export] Instance sys_uart_reg_eq : EqDecision sys_uart_reg.
Proof. solve_decision. Defined.

Definition C2_SYS_UART_RX_INVALID_MASK : Z := 4294967040.

Record c2_sys_uart : Type := mk_sys_uart { sys_regs : bool; sys_initialized : bool }.

Definition c2_sys_uart_validate (uart : option c2_sys_uart) : c2_status_t :=
  match uart with
  | None => C2_ERROR_INVALID_ARGUMENT
  | Some u => if negb (sys_initialized u) || negb (sys_regs u) then C2_ERROR_NOT_INITIALIZED else C2_OK
  end.

(** The prologue of every operation: leave with the status unless the context is live. *)
Definition with_sys {A} (uart : option c2_sys_uart) (out : A)
    (body : io sys_uart_reg (c2_status_t * A)) : io sys_uart_reg (c2_status_t * A) :=
  match c2_sys_uart_validate uart with C2_OK => body | status => fail status out end.

Definition c2_sys_uart_divider (clock_hz baud_rate : Z) (divider : option Z) : c2_status_t * option Z :=
  match divider with
  | None => (C2_ERROR_INVALID_ARGUMENT, divider)
  | Some _ =>
      if (clock_hz =? 0) || (baud_rate =? 0) then (C2_ERROR_INVALID_ARGUMENT, divider)
      else
        let value := clock_hz / baud_rate in
        if value =? 0 then (C2_ERROR_INVALID_ARGUMENT, divider) else (C2_OK, Some value)
  end.

Definition c2_sys_uart_init (uart : option c2_sys_uart) (regs : bool) (clock_hz baud_rate : Z)
    : io sys_uart_reg (c2_status_t * option c2_sys_uart) :=
  match uart with
  | None => fail C2_ERROR_INVALID_ARGUMENT uart
  | Some _ =>
      if negb regs then fail C2_ERROR_INVALID_ARGUMENT uart
      else
        match c2_sys_uart_divider clock_hz baud_rate (Some 0) with
        | (C2_OK, Some divider) =>
            c2_mmio_write32 CLKDIV divider;;
            mret (C2_OK, Some (mk_sys_uart regs true))
        | (status, _) => fail status uart
        end
  end.

Definition c2_sys_uart_configure (uart : option c2_sys_uart) (clock_hz baud_rate : Z)
    : io sys_uart_reg (c2_status_t * unit) :=
  with_sys uart tt
    match c2_sys_uart_divider clock_hz baud_rate (Some 0) with
    | (C2_OK, Some divider) => c2_mmio_write32 CLKDIV divider;; mret (C2_OK, tt)
    | (status, _) => fail status tt
    end.

Definition c2_sys_uart_disable (uart : option c2_sys_uart)
    : io sys_uart_reg (c2_status_t * option c2_sys_uart) :=
  with_sys uart uart
    (mret (C2_OK, match uart with Some u => Some (mk_sys_uart (sys_regs u) false) | None => None end)).

Definition c2_sys_uart_write_byte (uart : option c2_sys_uart) (byte : Z)
    : io sys_uart_reg (c2_status_t * unit) :=
  with_sys uart tt (c2_mmio_write32 DATA byte;; mret (C2_OK, tt)).

(** The remaining bytes from [index] on. *)
Fixpoint sys_write_loop (bytes : list Z) : io sys_uart_reg unit :=
  match bytes with
  | [] => mret tt
  | byte :: bytes => c2_mmio_write32 DATA byte;; sys_write_loop bytes
  end.

Definition c2_sys_uart_write (uart : option c2_sys_uart) (data : option (list Z)) (length : Z)
    (written : option Z) : io sys_uart_reg (c2_status_t * option Z) :=
  with_sys uart written
    match written with
    | None => fail C2_ERROR_INVALID_ARGUMENT written
    | Some _ =>
        if bad_buffer data length then fail C2_ERROR_INVALID_ARGUMENT written
        else
          sys_write_loop (take (Z.to_nat length) (default [] data));;
          mret (C2_OK, Some length)
    end.

Definition rx_invalid (raw : Z) : bool := negb (Z.land raw C2_SYS_UART_RX_INVALID_MASK =? 0).

Definition c2_sys_uart_read_byte_nonblocking (uart : option c2_sys_uart) (byte : option Z)
    : io sys_uart_reg (c2_status_t * option Z) :=
  with_sys uart byte
    match byte with
    | None => fail C2_ERROR_INVALID_ARGUMENT byte
    | Some _ =>
        raw ← c2_mmio_read32 DATA;
        (if rx_invalid raw then fail C2_ERROR_BUSY byte else mret (C2_OK, Some (u8 raw)))
    end.

Fixpoint sys_poll (polls_left : nat) (byte : option Z) : io sys_uart_reg (c2_status_t * option Z) :=
  match polls_left with
  | O => fail C2_ERROR_TIMEOUT byte
  | S polls_left =>
      raw ← c2_mmio_read32 DATA;
      (if rx_invalid raw then sys_poll polls_left byte else mret (C2_OK, Some (u8 raw)))
  end.

Definition c2_sys_uart_read_byte (uart : option c2_sys_uart) (byte : option Z) (poll_limit : Z)
    : io sys_uart_reg (c2_status_t * option Z) :=
  with_sys uart byte
    match byte with
    | None => fail C2_ERROR_INVALID_ARGUMENT byte
    | Some _ => sys_poll (Z.to_nat poll_limit) byte
    end.

Fixpoint sys_read_loop (polls_left : nat) (length read_count : Z) (data : list Z)
    : io sys_uart_reg (Z * list Z) :=
  match polls_left with
  | O => mret (read_count, data)
  | S polls_left =>
      if read_count <? length then
        raw ← c2_mmio_read32 DATA;
        (if rx_invalid raw then sys_read_loop polls_left length read_count data
         else sys_read_loop polls_left length (read_count + 1) (<[Z.to_nat read_count := u8 raw]> data))
      else mret (read_count, data)
  end.

Definition c2_sys_uart_read (uart : option c2_sys_uart) (data : option (list Z)) (length : Z)
    (read_count : option Z) (poll_limit : Z)
    : io sys_uart_reg (c2_status_t * (option (list Z) * option Z)) :=
  with_sys uart (data, read_count)
    match read_count with
    | None => fail C2_ERROR_INVALID_ARGUMENT (data, read_count)
    | Some _ =>
        if bad_buffer data length then fail C2_ERROR_INVALID_ARGUMENT (data, read_count)
        else
          r ← sys_read_loop (Z.to_nat poll_limit) length 0 (default [] data);
          let '(n, buffer) := r in
          mret (if n =? length then C2_OK else C2_ERROR_TIMEOUT,
                (match data with Some _ => Some buffer | None => None end, Some n))
    end.
