(* ===== verification/C2HpUart.v ===== *)
(** * High-performance UART: the c2_hp_uart_ functions of vendor/openecos/starrysky/c2/src/c2_uart.c

    The driver keeps the line-control word and the RX trigger in shadows and
    polls the line status before every access to a FIFO.  [None] is a NULL
    pointer, a NULL register block is [hp_regs = false]. *)
From S2P Require Import Prelude MachineInt Mmio.

Inductive hp_uart_reg : Type := LCR | DIV | TRX | FCR | LSR.
#[export] Instance hp_uart_reg_eq : EqDecision hp_uart_reg.
Proof. solve_decision. Defined.

Definition C2_HP_UART_LCR_FRAME_MASK : Z := 504.
Definition C2_HP_UART_FCR_FLUSH_MASK : Z := 3.
Definition C2_HP_UART_FCR_TRIGGER_MASK : Z := 12.
Definition C2_HP_UART_IRQ_ALL : Z := 7.
Definition C2_HP_UART_STATUS_PARITY_ERROR : Z := 16.
Definition C2_HP_UART_STATUS_TX_IDLE : Z := 64.
Definition C2_HP_UART_STATUS_RX_FIFO_EMPTY : Z := 128.
Definition C2_HP_UART_STATUS_TX_FIFO_FULL : Z := 256.
Definition C2_HP_UART_STATUS_ALL : Z := 511.
Definition C2_HP_UART_RX_TRIGGER_14_BYTES : Z := 3.

(** An enum argument may hold a value that is none of its constants. *)
Inductive c2_uart_parity : Type :=
| C2_UART_PARITY_NONE | C2_UART_PARITY_ODD | C2_UART_PARITY_EVEN | OTHER_PARITY.
Inductive c2_uart_stop_bits : Type :=
| C2_UART_STOP_BITS_1 | C2_UART_STOP_BITS_2 | OTHER_STOP_BITS.

Record c2_hp_uart_config : Type := mk_hp_config {
  baud_rate : Z; irq_enable_mask : Z; data_bits : Z;
  parity : c2_uart_parity; stop_bits : c2_uart_stop_bits; rx_trigger : Z }.

Record c2_hp_uart : Type := mk_hp_uart {
  hp_regs : bool; lcr_shadow : Z; fcr_trigger_shadow : Z; hp_initialized : bool }.

Definition c2_hp_uart_validate (uart : option c2_hp_uart) : c2_status_t :=
  match uart with
  | None => C2_ERROR_INVALID_ARGUMENT
  | Some u => if negb (hp_initialized u) || negb (hp_regs u) then C2_ERROR_NOT_INITIALIZED else C2_OK
  end.

Definition with_hp {A} (uart : option c2_hp_uart) (out : A)
    (body : c2_hp_uart -> io hp_uart_reg (c2_status_t * A)) : io hp_uart_reg (c2_status_t * A) :=
  match uart, c2_hp_uart_validate uart with
  | Some u, C2_OK => body u
  | _, status => fail status out
  end.

(** ** Configuration *)

Definition hp_config_valid (clock_hz : Z) (c : c2_hp_uart_config) : bool :=
  negb ((clock_hz =? 0) || (baud_rate c =? 0) || (data_bits c <? 5) || (data_bits c >? 8) ||
        match stop_bits c with OTHER_STOP_BITS => true | _ => false end ||
        match parity c with OTHER_PARITY => true | _ => false end ||
        (rx_trigger c >? C2_HP_UART_RX_TRIGGER_14_BYTES) ||
        bit_set (irq_enable_mask c) (u32 (Z.lnot C2_HP_UART_IRQ_ALL))).

Definition hp_frame (c : c2_hp_uart_config) : Z :=
  let lcr := u32 (Z.shiftl (u32 (data_bits c - 5)) 3) in
  let lcr := match stop_bits c with C2_UART_STOP_BITS_2 => Z.lor lcr (Z.shiftl 1 5) | _ => lcr end in
  match parity c with
  | C2_UART_PARITY_NONE => lcr
  | C2_UART_PARITY_EVEN => Z.lor (Z.lor lcr (Z.shiftl 1 6)) (Z.shiftl 1 7)
  | _ => Z.lor lcr (Z.shiftl 1 6)
  end.

(** The divider, the line-control word and the trigger bits. *)
Definition c2_hp_uart_encode (clock_hz : Z) (config : option c2_hp_uart_config)
    : c2_status_t * (Z * Z * Z) :=
  match config with
  | None => (C2_ERROR_INVALID_ARGUMENT, (0, 0, 0))
  | Some c =>
      if negb (hp_config_valid clock_hz c) then (C2_ERROR_INVALID_ARGUMENT, (0, 0, 0))
      else
        let quotient := clock_hz / baud_rate c in
        if (quotient <? 3) || (quotient >? 65536) then (C2_ERROR_INVALID_ARGUMENT, (0, 0, 0))
        else (C2_OK, (u32 (quotient - 1), Z.lor (hp_frame c) (irq_enable_mask c),
                      Z.land (u32 (Z.shiftl (rx_trigger c) 2)) C2_HP_UART_FCR_TRIGGER_MASK))
  end.

Definition c2_hp_uart_apply_config (u : c2_hp_uart) (clock_hz : Z) (config : option c2_hp_uart_config)
    : io hp_uart_reg (c2_status_t * c2_hp_uart) :=
  match c2_hp_uart_encode clock_hz config with
  | (C2_OK, (divider, lcr, fcr_trigger)) =>
      c2_mmio_write32 LCR 0;;
      c2_mmio_write32 DIV divider;;
      c2_mmio_write32 FCR (Z.lor fcr_trigger C2_HP_UART_FCR_FLUSH_MASK);;
      c2_mmio_write32 FCR fcr_trigger;;
      c2_mmio_write32 LCR lcr;;
      mret (C2_OK, mk_hp_uart (hp_regs u) lcr fcr_trigger true)
  | (status, _) => fail status u
  end.

Definition c2_hp_uart_init (uart : option c2_hp_uart) (regs : bool) (clock_hz : Z)
    (config : option c2_hp_uart_config) : io hp_uart_reg (c2_status_t * option c2_hp_uart) :=
  match uart with
  | None => fail C2_ERROR_INVALID_ARGUMENT uart
  | Some _ =>
      if negb regs then fail C2_ERROR_INVALID_ARGUMENT uart
      else
        r ← c2_hp_uart_apply_config (mk_hp_uart regs 0 0 false) clock_hz config;
        let '(status, candidate) := r in
        mret (status, if c2_ok status then Some candidate else uart)
  end.

Definition c2_hp_uart_configure (uart : option c2_hp_uart) (clock_hz : Z)
    (config : option c2_hp_uart_config) : io hp_uart_reg (c2_status_t * option c2_hp_uart) :=
  with_hp uart uart (fun u =>
    r ← c2_hp_uart_apply_config u clock_hz config; mret (r.1, Some r.2)).

Definition c2_hp_uart_disable (uart : option c2_hp_uart) : io hp_uart_reg (c2_status_t * option c2_hp_uart) :=
  with_hp uart uart (fun u =>
    let lcr := Z.land (lcr_shadow u) C2_HP_UART_LCR_FRAME_MASK in
    c2_mmio_write32 LCR lcr;;
    mret (C2_OK, Some (mk_hp_uart (hp_regs u) lcr (fcr_trigger_shadow u) false))).

Definition c2_hp_uart_get_status (uart : option c2_hp_uart) (status_word : option Z)
    : io hp_uart_reg (c2_status_t * option Z) :=
  with_hp uart status_word (fun _ =>
    match status_word with
    | None => fail C2_ERROR_INVALID_ARGUMENT status_word
    | Some _ => lsr ← c2_mmio_read32 LSR; mret (C2_OK, Some (Z.land lsr C2_HP_UART_STATUS_ALL))
    end).

Definition c2_hp_uart_set_irq_mask (uart : option c2_hp_uart) (irq_mask : Z)
    : io hp_uart_reg (c2_status_t * option c2_hp_uart) :=
  with_hp uart uart (fun u =>
    if bit_set irq_mask (u32 (Z.lnot C2_HP_UART_IRQ_ALL)) then fail C2_ERROR_INVALID_ARGUMENT uart
    else
      let lcr := Z.lor (Z.land (lcr_shadow u) (u32 (Z.lnot C2_HP_UART_IRQ_ALL))) irq_mask in
      c2_mmio_write32 LCR lcr;;
      mret (C2_OK, Some (mk_hp_uart (hp_regs u) lcr (fcr_trigger_shadow u) (hp_initialized u)))).

Definition c2_hp_uart_flush (uart : option c2_hp_uart) (kind : Z) : io hp_uart_reg (c2_status_t * unit) :=
  with_hp uart tt (fun u =>
    if (kind =? 0) || bit_set kind (u32 (Z.lnot C2_HP_UART_FCR_FLUSH_MASK))
    then fail C2_ERROR_INVALID_ARGUMENT tt
    else
      c2_mmio_write32 FCR (Z.lor (fcr_trigger_shadow u) kind);;
      c2_mmio_write32 FCR (fcr_trigger_shadow u);;
      mret (C2_OK, tt)).

(** ** Transmission *)

Definition c2_hp_uart_write_byte_nonblocking (uart : option c2_hp_uart) (byte : Z)
    : io hp_uart_reg (c2_status_t * unit) :=
  with_hp uart tt (fun _ =>
    lsr ← c2_mmio_read32 LSR;
    (if bit_set lsr C2_HP_UART_STATUS_TX_FIFO_FULL then fail C2_ERROR_BUSY tt
     else c2_mmio_write32 TRX byte;; mret (C2_OK, tt))).

Fixpoint hp_write_poll (polls_left : nat) (byte : Z) : io hp_uart_reg (c2_status_t * unit) :=
  match polls_left with
  | O => fail C2_ERROR_TIMEOUT tt
  | S polls_left =>
      lsr ← c2_mmio_read32 LSR;
      (if negb (bit_set lsr C2_HP_UART_STATUS_TX_FIFO_FULL)
       then c2_mmio_write32 TRX byte;; mret (C2_OK, tt)
       else hp_write_poll polls_left byte)
  end.

Definition c2_hp_uart_write_byte (uart : option c2_hp_uart) (byte poll_limit : Z)
    : io hp_uart_reg (c2_status_t * unit) :=
  with_hp uart tt (fun _ => hp_write_poll (Z.to_nat poll_limit) byte).

Fixpoint hp_idle_poll (polls_left : nat) : io hp_uart_reg (c2_status_t * unit) :=
  match polls_left with
  | O => fail C2_ERROR_TIMEOUT tt
  | S polls_left =>
      lsr ← c2_mmio_read32 LSR;
      (if bit_set lsr C2_HP_UART_STATUS_TX_IDLE then mret (C2_OK, tt) else hp_idle_poll polls_left)
  end.

Definition c2_hp_uart_wait_tx_complete (uart : option c2_hp_uart) (poll_limit : Z)
    : io hp_uart_reg (c2_status_t * unit) :=
  with_hp uart tt (fun _ => hp_idle_poll (Z.to_nat poll_limit)).

Fixpoint hp_write_loop (polls_left : nat) (data : list Z) (length written : Z) : io hp_uart_reg Z :=
  match polls_left with
  | O => mret written
  | S polls_left =>
      if written <? length then
        lsr ← c2_mmio_read32 LSR;
        (if negb (bit_set lsr C2_HP_UART_STATUS_TX_FIFO_FULL)
         then c2_mmio_write32 TRX (nth (Z.to_nat written) data 0);;
              hp_write_loop polls_left data length (written + 1)
         else hp_write_loop polls_left data length written)
      else mret written
  end.

Definition c2_hp_uart_write (uart : option c2_hp_uart) (data : option (list Z)) (length : Z)
    (written : option Z) (poll_limit : Z) : io hp_uart_reg (c2_status_t * option Z) :=
  with_hp uart written (fun _ =>
    match written with
    | None => fail C2_ERROR_INVALID_ARGUMENT written
    | Some _ =>
        if bad_buffer data length then fail C2_ERROR_INVALID_ARGUMENT written
        else
          n ← hp_write_loop (Z.to_nat poll_limit) (default [] data) length 0;
          mret (if n =? length then C2_OK else C2_ERROR_TIMEOUT, Some n)
    end).

(** ** Reception *)

(** A byte is stored also when its parity is bad. *)
Definition c2_hp_uart_read_ready (byte lsr : Z) (unavailable_status : c2_status_t)
    : io hp_uart_reg (c2_status_t * Z) :=
  if bit_set lsr C2_HP_UART_STATUS_RX_FIFO_EMPTY then fail unavailable_status byte
  else
    raw ← c2_mmio_read32 TRX;
    mret (if bit_set lsr C2_HP_UART_STATUS_PARITY_ERROR then C2_ERROR_IO else C2_OK, u8 raw).

Definition c2_hp_uart_read_byte_nonblocking (uart : option c2_hp_uart) (byte : option Z)
    : io hp_uart_reg (c2_status_t * option Z) :=
  with_hp uart byte (fun _ =>
    match byte with
    | None => fail C2_ERROR_INVALID_ARGUMENT byte
    | Some old =>
        lsr ← c2_mmio_read32 LSR;
        r ← c2_hp_uart_read_ready old lsr C2_ERROR_BUSY; mret (r.1, Some r.2)
    end).

Fixpoint hp_read_poll (polls_left : nat) (byte : Z) : io hp_uart_reg (c2_status_t * Z) :=
  match polls_left with
  | O => fail C2_ERROR_TIMEOUT byte
  | S polls_left =>
      lsr ← c2_mmio_read32 LSR;
      (if negb (bit_set lsr C2_HP_UART_STATUS_RX_FIFO_EMPTY)
       then c2_hp_uart_read_ready byte lsr C2_ERROR_TIMEOUT
       else hp_read_poll polls_left byte)
  end.

Definition c2_hp_uart_read_byte (uart : option c2_hp_uart) (byte : option Z) (poll_limit : Z)
    : io hp_uart_reg (c2_status_t * option Z) :=
  with_hp uart byte (fun _ =>
    match byte with
    | None => fail C2_ERROR_INVALID_ARGUMENT byte
    | Some old => r ← hp_read_poll (Z.to_nat poll_limit) old; mret (r.1, Some r.2)
    end).

(** The status, the count and the buffer when the loop or the early return ends. *)
Fixpoint hp_read_loop (polls_left : nat) (length read_count : Z) (data : list Z)
    : io hp_uart_reg (c2_status_t * (Z * list Z)) :=
  let finish := mret (if read_count =? length then C2_OK else C2_ERROR_TIMEOUT, (read_count, data)) in
  match polls_left with
  | O => finish
  | S polls_left =>
      if read_count <? length then
        lsr ← c2_mmio_read32 LSR;
        (if negb (bit_set lsr C2_HP_UART_STATUS_RX_FIFO_EMPTY) then
           raw ← c2_mmio_read32 TRX;
           let data := <[Z.to_nat read_count := u8 raw]> data in
           (if bit_set lsr C2_HP_UART_STATUS_PARITY_ERROR
            then mret (C2_ERROR_IO, (read_count + 1, data))
            else hp_read_loop polls_left length (read_count + 1) data)
         else hp_read_loop polls_left length read_count data)
      else finish
  end.

Definition c2_hp_uart_read (uart : option c2_hp_uart) (data : option (list Z)) (length : Z)
    (read_count : option Z) (poll_limit : Z)
    : io hp_uart_reg (c2_status_t * (option (list Z) * option Z)) :=
  with_hp uart (data, read_count) (fun _ =>
    match read_count with
    | None => fail C2_ERROR_INVALID_ARGUMENT (data, read_count)
    | Some _ =>
        if bad_buffer data length then fail C2_ERROR_INVALID_ARGUMENT (data, read_count)
        else
          r ← hp_read_loop (Z.to_nat poll_limit) length 0 (default [] data);
          let '(status, (n, buffer)) := r in
          mret (status, (match data with Some _ => Some buffer | None => None end, Some n))
    end).

(** ** Configuration words *)

(** What the header accepts, and the line-control word it stands for. *)
Definition hp_accepts (clock_hz : Z) (c : c2_hp_uart_config) : Prop :=
  0 < baud_rate c /\ 5 <= data_bits c <= 8 /\ parity c <> OTHER_PARITY /\
  stop_bits c <> OTHER_STOP_BITS /\ rx_trigger c <= 3 /\ irq_enable_mask c < 8 /\
  3 <= clock_hz / baud_rate c <= 65536.

Definition hp_lcr (c : c2_hp_uart_config) : Z :=
  irq_enable_mask c + 8 * (data_bits c - 5)
  + (match stop_bits c with C2_UART_STOP_BITS_2 => 32 | _ => 0 end)
  + (match parity c with C2_UART_PARITY_NONE => 0 | C2_UART_PARITY_EVEN => 192 | _ => 64 end).

Section Encode.
Variables (clock_hz : Z) (c : c2_hp_uart_config).
Hypothesis Hclock : is_u32 clock_hz.
Hypothesis Hfields : is_u32 (baud_rate c) /\ is_u32 (irq_enable_mask c) /\ is_u8 (data_bits c) /\ is_u32 (rx_trigger c).

Lemma irq_mask_valid m : is_u32 m -> bit_set m (u32 (Z.lnot C2_HP_UART_IRQ_ALL)) = negb (m <? 8).
Proof.
  intros Hm. unfold bit_set. f_equal. change C2_HP_UART_IRQ_ALL with (2 ^ 3 - 1).
  apply eq_true_iff_eq. rewrite Z.eqb_eq, Z.ltb_lt. by apply high_bits_clear.
Qed.

Lemma hp_config_valid_spec : hp_config_valid clock_hz c = true <->
  clock_hz <> 0 /\ 0 < baud_rate c /\ 5 <= data_bits c <= 8 /\ parity c <> OTHER_PARITY /\
  stop_bits c <> OTHER_STOP_BITS /\ rx_trigger c <= 3 /\ irq_enable_mask c < 8.
Proof.
  destruct Hfields as (Hb & Hi & Hd & Ht).
  unfold hp_config_valid, C2_HP_UART_RX_TRIGGER_14_BYTES. rewrite irq_mask_valid by done.
  rewrite negb_true_iff, !orb_false_iff, negb_false_iff, !Z.gtb_ltb, !Z.eqb_neq, !Z.ltb_ge, Z.ltb_lt.
  destruct (parity c), (stop_bits c); intuition (congruence || rlia).
Qed.

(** The shifts and disjunctions add up without overlapping. *)
Lemma hp_lcr_encoding : 5 <= data_bits c <= 8 -> parity c <> OTHER_PARITY -> stop_bits c <> OTHER_STOP_BITS ->
  irq_enable_mask c < 8 -> Z.lor (hp_frame c) (irq_enable_mask c) = hp_lcr c.
Proof.
  destruct Hfields as (_ & Hi & _ & _). intros Hd Hp Hs Hm. unfold hp_frame, hp_lcr.
  assert (data_bits c = 5 \/ data_bits c = 6 \/ data_bits c = 7 \/ data_bits c = 8) as Hd' by lia.
  assert (exists n : nat, irq_enable_mask c = Z.of_nat n /\ (n < 8)%nat) as (n & -> & Hn)
    by (exists (Z.to_nat (irq_enable_mask c)); rlia).
  destruct Hd' as [-> | [-> | [-> | ->]]], (parity c), (stop_bits c); try done;
    do 8 (destruct n as [|n]; [reflexivity|]); lia.
Qed.

Lemma hp_lcr_range : hp_accepts clock_hz c -> 0 <= hp_lcr c < 512.
Proof. destruct Hfields as (_ & Hi & _ & _). intros (_ & ? & _ & _ & _ & ? & _). unfold hp_lcr. repeat case_match; rlia. Qed.

Lemma trigger_bits t : 0 <= t <= 3 ->
  Z.land (u32 (Z.shiftl t 2)) C2_HP_UART_FCR_TRIGGER_MASK = 4 * t /\ Z.lor (4 * t) C2_HP_UART_FCR_FLUSH_MASK = 4 * t + 3.
Proof.
  intros. assert (t = 0 \/ t = 1 \/ t = 2 \/ t = 3) as [-> | [-> | [-> | ->]]] by lia; by split.
Qed.

Lemma hp_encode_accepts : hp_accepts clock_hz c ->
  c2_hp_uart_encode clock_hz (Some c) = (C2_OK, (clock_hz / baud_rate c - 1, hp_lcr c, 4 * rx_trigger c)).
Proof.
  intros (Hb & Hd & Hp & Hs & Ht & Hm & Hq). unfold c2_hp_uart_encode.
  assert (clock_hz <> 0) by (intros E; rewrite E, Z.div_0_l in Hq by lia; lia).
  rewrite (proj2 hp_config_valid_spec) by done. cbn [negb].
  replace (_ || _) with false by (symmetry; rewrite orb_false_iff, Z.gtb_ltb, !Z.ltb_ge; lia). rewrite u32_id by rlia.
  rewrite hp_lcr_encoding by done. do 3 f_equal. apply trigger_bits. destruct Hfields; rlia.
Qed.

Lemma hp_encode_rejects : ~ hp_accepts clock_hz c ->
  c2_hp_uart_encode clock_hz (Some c) = (C2_ERROR_INVALID_ARGUMENT, (0, 0, 0)).
Proof.
  intros Hno. unfold c2_hp_uart_encode.
  destruct (hp_config_valid clock_hz c) eqn:E; [|done]. cbn [negb].
  apply hp_config_valid_spec in E. destruct (_ || _) eqn:E'; [done|].
  exfalso. apply Hno. unfold hp_accepts. zbool. intuition lia.
Qed.
End Encode.

(** ** Transfer protocols

    The only accesses a transfer may make: a byte enters the transmitter right
    after a line status that shows room, and is taken from the receiver right
    after one that shows data, until a parity error ends the call. *)

Inductive tx_trace : list (access hp_uart_reg) -> list Z -> nat -> Prop :=
| tx_nil : tx_trace [] [] 0
| tx_full lsr l bytes polls :
    bit_set lsr C2_HP_UART_STATUS_TX_FIFO_FULL = true ->
    tx_trace l bytes polls -> tx_trace (Rd LSR lsr :: l) bytes (S polls)
| tx_sent lsr byte l bytes polls :
    bit_set lsr C2_HP_UART_STATUS_TX_FIFO_FULL = false ->
    tx_trace l bytes polls -> tx_trace (Rd LSR lsr :: Wr TRX byte :: l) (byte :: bytes) (S polls).

(** The bytes taken, the polls made and whether the last byte has bad parity. *)
Inductive rx_trace : list (access hp_uart_reg) -> list Z -> nat -> bool -> Prop :=
| rx_nil : rx_trace [] [] 0 false
| rx_empty lsr l bytes polls bad :
    bit_set lsr C2_HP_UART_STATUS_RX_FIFO_EMPTY = true ->
    rx_trace l bytes polls bad -> rx_trace (Rd LSR lsr :: l) bytes (S polls) bad
| rx_good lsr raw l bytes polls bad :
    bit_set lsr C2_HP_UART_STATUS_RX_FIFO_EMPTY = false ->
    bit_set lsr C2_HP_UART_STATUS_PARITY_ERROR = false ->
    rx_trace l bytes polls bad ->
    rx_trace (Rd LSR lsr :: Rd TRX raw :: l) (u8 raw :: bytes) (S polls) bad
| rx_bad lsr raw :
    bit_set lsr C2_HP_UART_STATUS_RX_FIFO_EMPTY = false ->
    bit_set lsr C2_HP_UART_STATUS_PARITY_ERROR = true ->
    rx_trace [Rd LSR lsr; Rd TRX raw] [u8 raw] 1 true.
Create HintDb uart.
#[export] Hint Constructors tx_trace rx_trace : uart.

Section Transfers.
Context {d : Device hp_uart_reg}.
Implicit Types (h : list (access hp_uart_reg)).

Lemma take_nth_drop (data : list Z) (i k : nat) : (i < length data)%nat ->
  nth i data 0 :: take k (drop (S i) data) = take (S k) (drop i data).
Proof.
  intros Hi. destruct (lookup_lt_is_Some_2 data i Hi) as [x Hx].
  rewrite (drop_S data x i Hx), nth_lookup, Hx. done.
Qed.

Lemma hp_write_loop_wp polls data length written h :
  0 <= written <= length -> length <= Z.of_nat (List.length data) ->
  io_wp (hp_write_loop polls data length written) h (fun n h' => exists l bytes k,
    h' = h ++ l /\ tx_trace l bytes k /\ (k <= polls)%nat /\ written <= n <= length /\
    bytes = take (Z.to_nat (n - written)) (drop (Z.to_nat written) data) /\
    (n < length -> k = polls)).
Proof.
  revert written h. induction polls as [|polls IH]; intros written h Hw Hl; cbn [hp_write_loop].
  - io_step. exists [], [], 0%nat. rewrite app_nil_r, Z.sub_diag. auto 10 with uart lia.
  - io_step; zbool.
    2:{ io_step. exists [], [], 0%nat. rewrite app_nil_r, Z.sub_diag. auto 10 with uart lia. }
    io_step. io_step. io_step; zbool.
    + do 2 io_step. eapply io_wp_mono; [apply IH; lia|]. cbn beta.
      intros n h' (l & bytes & k & -> & Ht & Hk & Hn & Hb & Hend).
      exists (Rd LSR v :: Wr TRX (nth (Z.to_nat written) data 0) :: l), (nth (Z.to_nat written) data 0 :: bytes), (S k).
      rewrite <- !app_assoc. split; [done|]. split; [by apply tx_sent|].
      split; [lia|]. split; [lia|]. split; [|lia].
      replace (Z.to_nat (n - written)) with (S (Z.to_nat (n - (written + 1)))) by lia.
      replace (Z.to_nat (written + 1)) with (S (Z.to_nat written)) by lia.
      rewrite <- take_nth_drop by lia. rewrite Hb. do 2 f_equal. f_equal. lia.
    + eapply io_wp_mono; [by apply IH|]. cbn beta.
      intros n h' (l & bytes & k & -> & Ht & Hk & Hn & Hb & Hend).
      exists (Rd LSR v :: l), bytes, (S k). rewrite <- app_assoc.
      split; [done|]. split; [by apply tx_full|]. auto with lia.
Qed.

Lemma hp_read_loop_wp polls length n0 data h :
  0 <= n0 <= length -> length <= Z.of_nat (List.length data) ->
  io_wp (hp_read_loop polls length n0 data) h (fun r h' => exists l bytes k bad,
    h' = h ++ l /\ rx_trace l bytes k bad /\ (k <= polls)%nat /\
    r = (if (bad : bool) then C2_ERROR_IO
         else if n0 + Z.of_nat (List.length bytes) =? length then C2_OK else C2_ERROR_TIMEOUT,
         (n0 + Z.of_nat (List.length bytes),
          take (Z.to_nat n0) data ++ bytes ++ drop (Z.to_nat n0 + List.length bytes) data)) /\
    n0 + Z.of_nat (List.length bytes) <= length /\
    (bad = false -> n0 + Z.of_nat (List.length bytes) < length -> k = polls)).
Proof.
  revert n0 data h. induction polls as [|polls IH]; intros n0 data h Hn Hl; cbn [hp_read_loop].
  - io_step. exists [], [], 0%nat, false. rewrite app_nil_r, Z.add_0_r, Nat.add_0_r, app_nil_l, take_drop.
    auto 10 with uart lia.
  - io_step; zbool.
    2:{ io_step. exists [], [], 0%nat, false. rewrite app_nil_r, Z.add_0_r, Nat.add_0_r, app_nil_l, take_drop.
        auto 10 with uart lia. }
    assert (Hi : (Z.to_nat n0 < List.length data)%nat) by lia.
    assert (forall b bs, take (Z.to_nat (n0 + 1)) (<[Z.to_nat n0:=b]> data) ++ bs ++
        drop (Z.to_nat (n0 + 1) + List.length bs) (<[Z.to_nat n0:=b]> data)
      = take (Z.to_nat n0) data ++ (b :: bs) ++ drop (Z.to_nat n0 + List.length (b :: bs)) data) as Hins.
    { intros b bs. replace (Z.to_nat (n0 + 1)) with (S (Z.to_nat n0)) by lia.
      rewrite (take_S_r _ _ b) by (by apply list_lookup_insert_eq).
      rewrite take_insert_ge, drop_insert_lt by lia.
      rewrite <- app_assoc. cbn. by replace (Z.to_nat n0 + S (List.length bs))%nat
        with (S (Z.to_nat n0 + List.length bs)) by lia. }
    io_step. io_step. io_step; zbool.
    + io_step. io_step. cbv zeta. io_step.
      * io_step. exists [Rd LSR v; Rd TRX v0], [u8 v0], 1%nat, true. rewrite <- app_assoc.
        split; [done|]. split; [by apply rx_bad|]. split; [lia|]. split; [|cbn; lia].
        do 2 f_equal. specialize (Hins (u8 v0) []). rewrite <- Hins. cbn.
        rewrite Nat.add_0_r. by rewrite take_drop.
      * eapply io_wp_mono; [apply IH; rewrite ?length_insert; lia|]. cbn beta.
        intros r h' (l & bytes & k & bad & -> & Ht & Hk & -> & Hle & Hend).
        exists (Rd LSR v :: Rd TRX v0 :: l), (u8 v0 :: bytes), (S k), bad. rewrite <- !app_assoc.
        split; [done|]. split; [by apply rx_good|]. split; [lia|]. cbn [List.length] in *.
        replace (n0 + Z.of_nat (S (List.length bytes))) with (n0 + 1 + Z.of_nat (List.length bytes)) by lia.
        split; [|split; [lia|auto with lia]]. do 2 f_equal. apply Hins.
    + eapply io_wp_mono; [by apply IH|]. cbn beta.
      intros r h' (l & bytes & k & bad & -> & Ht & Hk & -> & Hle & Hend).
      exists (Rd LSR v :: l), bytes, (S k), bad. rewrite <- app_assoc.
      split; [done|]. split; [by apply rx_empty|]. auto 10 with lia.
Qed.
End Transfers.

(** ** Contexts and their hardware *)

Section Sync.
Context {d : Device hp_uart_reg}.
Implicit Types (u : c2_hp_uart) (h : list (access hp_uart_reg)).

(** The shadows hold only documented bits and equal the last words written. *)
Record hp_ok u h : Prop := {
  hp_ok_regs : hp_regs u = true;
  hp_ok_lcr : 0 <= lcr_shadow u < 512;
  hp_ok_fcr : In (fcr_trigger_shadow u) [0; 4; 8; 12];
  hp_ok_last_lcr : last_write LCR h = Some (lcr_shadow u);
  hp_ok_last_fcr : last_write FCR h = Some (fcr_trigger_shadow u);
}.

Inductive hp_call : Type :=
| CallInit (clock_hz : Z) (c : c2_hp_uart_config)
| CallConfigure (clock_hz : Z) (c : c2_hp_uart_config)
| CallIrqMask (m : Z)
| CallFlush (kind : Z)
| CallDisable
| CallStatus
| CallWrite (data : list Z) (poll_limit : Z)
| CallRead (buffer : list Z) (poll_limit : Z).

Definition hp_config_u32 (c : c2_hp_uart_config) : Prop :=
  is_u32 (baud_rate c) /\ is_u32 (irq_enable_mask c) /\ is_u8 (data_bits c) /\ is_u32 (rx_trigger c).

Definition hp_call_ok (c : hp_call) : Prop :=
  match c with
  | CallInit clock c | CallConfigure clock c => is_u32 clock /\ hp_config_u32 c
  | CallIrqMask m => is_u32 m
  | _ => True
  end.

Definition hp_do (c : hp_call) u : io hp_uart_reg (c2_status_t * c2_hp_uart) :=
  let keep {A} (m : io hp_uart_reg (c2_status_t * A)) := r ← m; mret (r.1, u) in
  let update m := r ← m; mret (r.1, default u r.2) in
  match c with
  | CallInit clock c => update (c2_hp_uart_init (Some u) true clock (Some c))
  | CallConfigure clock c => update (c2_hp_uart_configure (Some u) clock (Some c))
  | CallIrqMask m => update (c2_hp_uart_set_irq_mask (Some u) m)
  | CallFlush kind => keep (c2_hp_uart_flush (Some u) kind)
  | CallDisable => update (c2_hp_uart_disable (Some u))
  | CallStatus => keep (c2_hp_uart_get_status (Some u) (Some 0))
  | CallWrite data n => keep (c2_hp_uart_write (Some u) (Some data) (Z.of_nat (length data)) (Some 0) n)
  | CallRead data n => keep (c2_hp_uart_read (Some u) (Some data) (Z.of_nat (length data)) (Some 0) n)
  end.

(** A successful init followed by any calls, whatever the device answers. *)
Inductive hp_reach : c2_hp_uart -> list (access hp_uart_reg) -> Prop :=
| hp_reach_init u0 h clock c u h' : is_u32 clock -> hp_config_u32 c ->
    exec (c2_hp_uart_init (Some u0) true clock (Some c)) h = ((C2_OK, Some u), h') -> hp_reach u h'
| hp_reach_call c u h st u' h' : hp_reach u h -> hp_call_ok c ->
    exec (hp_do c u) h = ((st, u'), h') -> hp_reach u' h'.

Definition hp_config_writes (clock_hz : Z) (c : c2_hp_uart_config) : list (access hp_uart_reg) :=
  [Wr LCR 0; Wr DIV (clock_hz / baud_rate c - 1); Wr FCR (4 * rx_trigger c + 3);
   Wr FCR (4 * rx_trigger c); Wr LCR (hp_lcr c)].

Lemma hp_apply_exec u clock c h : is_u32 clock -> hp_config_u32 c ->
  (hp_accepts clock c ->
    exec (c2_hp_uart_apply_config u clock (Some c)) h
    = ((C2_OK, mk_hp_uart (hp_regs u) (hp_lcr c) (4 * rx_trigger c) true), h ++ hp_config_writes clock c)) /\
  (~ hp_accepts clock c ->
    exec (c2_hp_uart_apply_config u clock (Some c)) h = ((C2_ERROR_INVALID_ARGUMENT, u), h)).
Proof.
  intros Hc Hf. unfold c2_hp_uart_apply_config. split; intros Ha.
  - rewrite hp_encode_accepts by done. cbn. unfold hp_config_writes.
    destruct Ha as (_ & _ & _ & _ & Ht & _), Hf as (_ & _ & _ & Ht').
    destruct (trigger_bits (rx_trigger c) ltac:(rlia)) as [_ E]. cbn in E. rewrite E, <- !app_assoc. done.
  - by rewrite hp_encode_rejects.
Qed.

Lemma hp_accepts_dec clock c : hp_accepts clock c \/ ~ hp_accepts clock c.
Proof.
  unfold hp_accepts.
  destruct (parity c), (stop_bits c); try (right; intuition congruence);
    destruct (decide (0 < baud_rate c /\ 5 <= data_bits c <= 8 /\ rx_trigger c <= 3 /\ irq_enable_mask c < 8 /\
      3 <= clock / baud_rate c <= 65536)); intuition congruence.
Qed.

Lemma hp_config_sync regs clock c h : is_u32 clock -> hp_config_u32 c -> hp_accepts clock c -> regs = true ->
  hp_ok (mk_hp_uart regs (hp_lcr c) (4 * rx_trigger c) true) (h ++ hp_config_writes clock c).
Proof.
  intros Hc Hf Ha ->. unfold hp_config_writes. split; cbn [hp_regs lcr_shadow fcr_trigger_shadow]; try done.
  - by apply (hp_lcr_range clock).
  - destruct Ha as (_ & _ & _ & _ & Ht & _), Hf as (_ & _ & _ & Ht'). cbn. rlia.
  - by rewrite last_write_concat.
  - by rewrite last_write_concat.
Qed.

(** Transfers leave the control registers alone. *)
Lemma hp_ok_extend u h l : hp_ok u h -> writes_to LCR l = [] -> writes_to FCR l = [] -> hp_ok u (h ++ l).
Proof.
  intros [H1 H2 H3 H4 H5] Hl Hf. split; try done.
  - rewrite <- H4. by apply last_write_quiet.
  - rewrite <- H5. by apply last_write_quiet.
Qed.
End Sync.

Section SyncProperties.
Context {d : Device hp_uart_reg}.
Implicit Types (u : c2_hp_uart) (h : list (access hp_uart_reg)).

Lemma tx_quiet l bytes k r : tx_trace l bytes k -> r <> TRX -> writes_to r l = [].
Proof.
  intros Ht Hr. induction Ht; autorewrite with trace; try done. by rewrite writes_to_other.
Qed.

Lemma rx_quiet l bytes k bad r : rx_trace l bytes k bad -> writes_to r l = [].
Proof. by induction 1; autorewrite with trace. Qed.

Lemma with_hp_live {A} u (out : A) body :
  with_hp (Some u) out body =
  if hp_initialized u && hp_regs u then body u else fail C2_ERROR_NOT_INITIALIZED out.
Proof. unfold with_hp, c2_hp_uart_validate. by destruct (hp_initialized u), (hp_regs u). Qed.

Lemma irq_update_range lcr m : 0 <= lcr < 512 -> is_u32 m -> m < 8 ->
  Z.lor (Z.land lcr (u32 (Z.lnot C2_HP_UART_IRQ_ALL))) m = lcr / 8 * 8 + m /\
  0 <= lcr / 8 * 8 + m < 512.
Proof.
  intros Hl Hm Hm'. change C2_HP_UART_IRQ_ALL with (2 ^ 3 - 1).
  rewrite land_u32_r, land_lnot_low by rlia. change (2 ^ 3) with 8. split; [|dlia].
  apply (lor_add_disjoint _ _ 3); [lia|rlia|by apply Z.mod_mul].
Qed.

Lemma frame_range lcr : 0 <= lcr < 512 -> Z.land lcr C2_HP_UART_LCR_FRAME_MASK = lcr / 8 * 8.
Proof.
  intros. change C2_HP_UART_LCR_FRAME_MASK with (Z.land (2 ^ 9 - 1) (Z.lnot (2 ^ 3 - 1))).
  rewrite Z.land_assoc, land_mask, Z.mod_small, land_lnot_low by lia. done.
Qed.

Lemma hp_reconfigure_ok u h clock c : hp_ok u h -> is_u32 clock -> hp_config_u32 c ->
  io_wp (c2_hp_uart_apply_config u clock (Some c)) h (fun r h' => hp_ok r.2 h').
Proof.
  intros Hok Hc Hf. destruct (hp_apply_exec u clock c h Hc Hf) as [Hyes Hno]. unfold io_wp.
  destruct (hp_accepts_dec clock c) as [Ha|Ha]; [rewrite Hyes by done|by rewrite Hno].
  apply hp_config_sync; try done. apply Hok.
Qed.

Lemma hp_transfer_write_ok u h data n : hp_ok u h ->
  io_wp (c2_hp_uart_write (Some u) (Some data) (Z.of_nat (length data)) (Some 0) n) h (fun _ h' => hp_ok u h').
Proof.
  intros Hok. unfold c2_hp_uart_write. rewrite with_hp_live. io_step; [|by io_step]. cbn [bad_buffer]. change (default [] (Some data)) with data. io_step.
  eapply io_wp_mono; [apply hp_write_loop_wp; lia|]. cbn beta. intros m h' (l & bytes & k & -> & Ht & _).
  io_step. apply hp_ok_extend; [done|by eapply tx_quiet|by eapply tx_quiet].
Qed.

Lemma hp_transfer_read_ok u h data n : hp_ok u h ->
  io_wp (c2_hp_uart_read (Some u) (Some data) (Z.of_nat (length data)) (Some 0) n) h (fun _ h' => hp_ok u h').
Proof.
  intros Hok. unfold c2_hp_uart_read. rewrite with_hp_live. io_step; [|by io_step]. cbn [bad_buffer]. change (default [] (Some data)) with data. io_step.
  eapply io_wp_mono; [apply hp_read_loop_wp; lia|]. cbn beta.
  intros [st [m buf]] h' (l & bytes & k & bad & -> & Ht & _).
  io_step. apply hp_ok_extend; [done|by eapply rx_quiet|by eapply rx_quiet].
Qed.

Lemma hp_do_ok c u h : hp_ok u h -> hp_call_ok c -> io_wp (hp_do c u) h (fun r h' => hp_ok r.2 h').
Proof.
  intros Hok Hc. pose proof Hok as [Hr Hl Hf Hll Hlf].
  destruct c as [clock c|clock c|m|kind| | |data n|data n]; cbn [hp_do hp_call_ok] in *; io_step.
  - unfold c2_hp_uart_init. cbn [negb]. io_step. destruct Hc as [Hc Hcf].
    destruct (hp_apply_exec (mk_hp_uart true 0 0 false) clock c h Hc Hcf) as [Hyes Hno]. unfold io_wp.
    destruct (hp_accepts_dec clock c) as [Ha|Ha]; [rewrite Hyes by done|by rewrite Hno].
    by apply hp_config_sync.
  - destruct Hc as [Hc Hcf]. unfold c2_hp_uart_configure. rewrite with_hp_live.
    io_step; [|by repeat io_step]. io_step.
    eapply io_wp_mono; [by apply hp_reconfigure_ok|]. done.
  - unfold c2_hp_uart_set_irq_mask. rewrite with_hp_live, irq_mask_valid by done.
    io_step; [|by repeat io_step]. io_step; [by repeat io_step|]. zbool.
    destruct (irq_update_range (lcr_shadow u) m Hl Hc ltac:(lia)) as [-> Hrange]. repeat io_step.
    split; cbn [from_option id snd hp_regs lcr_shadow fcr_trigger_shadow]; try done.
    + apply last_write_same.
    + by rewrite last_write_other.
  - unfold c2_hp_uart_flush. rewrite with_hp_live. io_step; [|by repeat io_step]. io_step; [by repeat io_step|].
    repeat io_step. split; try done; rewrite <- app_assoc, last_write_concat; done.
  - unfold c2_hp_uart_disable. rewrite with_hp_live, frame_range by done. io_step; [|by repeat io_step].
    repeat io_step. split; cbn [from_option id snd hp_regs lcr_shadow fcr_trigger_shadow]; try done.
    + dlia.
    + apply last_write_same.
    + by rewrite last_write_other.
  - unfold c2_hp_uart_get_status. rewrite with_hp_live. io_step; repeat io_step; try done.
    by apply hp_ok_extend.
  - eapply io_wp_mono; [by apply hp_transfer_write_ok|]. done.
  - eapply io_wp_mono; [by apply hp_transfer_read_ok|]. done.
Qed.

Lemma hp_reach_ok u h : hp_reach u h -> hp_ok u h.
Proof.
  induction 1 as [u0 h clock c u h' Hc Hf E|c u h st u' h' _ IH Hc E].
  - unfold c2_hp_uart_init in E. cbn [negb] in E. rewrite exec_bind in E.
    destruct (hp_apply_exec (mk_hp_uart true 0 0 false) clock c h Hc Hf) as [Hyes Hno].
    destruct (hp_accepts_dec clock c) as [Ha|Ha].
    + rewrite Hyes in E by done. injection E as <- <-. by apply hp_config_sync.
    + rewrite Hno in E by done. discriminate.
  - by apply (io_wp_exec _ _ _ _ _ (hp_do_ok c u h IH Hc) E).
Qed.
End SyncProperties.

(** ** Properties *)

Section Properties.
Context {d : Device hp_uart_reg}.

(** Initialisation of the UART accepts exactly the documented configurations; it then makes
    the five register writes in order, with interrupts masked and both FIFOs flushed before the
    line format takes effect, where the divisor register is floor(clock/baud) - 1 and the line
    word encodes every field; any other configuration touches neither hardware nor context. *)
Theorem hp_uart_configuration u clock c h :
  is_u32 clock -> hp_config_u32 c ->
  (hp_accepts clock c ->
     exec (c2_hp_uart_init (Some u) true clock (Some c)) h =
     ((C2_OK, Some (mk_hp_uart true (hp_lcr c) (4 * rx_trigger c) true)),
      h ++ [Wr LCR 0; Wr DIV (clock / baud_rate c - 1); Wr FCR (4 * rx_trigger c + 3);
            Wr FCR (4 * rx_trigger c); Wr LCR (hp_lcr c)])) /\
  (~ hp_accepts clock c ->
     exec (c2_hp_uart_init (Some u) true clock (Some c)) h = ((C2_ERROR_INVALID_ARGUMENT, Some u), h)).
Proof.
  intros Hc Hf. destruct (hp_apply_exec (mk_hp_uart true 0 0 false) clock c h Hc Hf) as [Hyes Hno].
  unfold c2_hp_uart_init. cbn [negb]. rewrite exec_bind.
  split; intros Ha; [rewrite Hyes by done|rewrite Hno by done]; done.
Qed.

(** In every context reachable from a successful init through any calls, failed ones and
    transfers included, the shadows hold only documented bits and equal the words last written
    to the line-control and FIFO-control registers, whatever the hardware answers. *)
Theorem hp_uart_in_sync u h : hp_reach u h ->
  0 <= lcr_shadow u < 512 /\ In (fcr_trigger_shadow u) [0; 4; 8; 12] /\
  last_write LCR h = Some (lcr_shadow u) /\ last_write FCR h = Some (fcr_trigger_shadow u).
Proof. intros [_ H1 H2 H3 H4]%hp_reach_ok. auto. Qed.

(** A buffer write follows the transmit protocol against every device: each byte is written
    right after a status read that shows FIFO room; the bytes sent are exactly the first
    [written] bytes of the buffer, in order; at most poll_limit status reads are made; the call
    returns OK exactly when the whole buffer was sent, and TIMEOUT only with the budget spent. *)
Theorem hp_uart_write_spec u data poll_limit h st n h' :
  hp_initialized u = true -> hp_regs u = true -> 0 <= poll_limit ->
  exec (c2_hp_uart_write (Some u) (Some data) (Z.of_nat (length data)) (Some 0) poll_limit) h
    = ((st, Some n), h') ->
  exists l polls, h' = h ++ l /\ tx_trace l (take (Z.to_nat n) data) polls /\
    0 <= n <= Z.of_nat (length data) /\ Z.of_nat polls <= poll_limit /\
    (st = C2_OK <-> n = Z.of_nat (length data)) /\
    (st <> C2_OK -> st = C2_ERROR_TIMEOUT /\ Z.of_nat polls = poll_limit).
Proof.
  intros H1 H2 Hp E.
  assert (io_wp (c2_hp_uart_write (Some u) (Some data) (Z.of_nat (length data)) (Some 0) poll_limit) h
    (fun r h' => exists n l polls, r = (if n =? Z.of_nat (length data) then C2_OK else C2_ERROR_TIMEOUT, Some n) /\
      h' = h ++ l /\ tx_trace l (take (Z.to_nat n) data) polls /\ 0 <= n <= Z.of_nat (length data) /\
      (polls <= Z.to_nat poll_limit)%nat /\ (n < Z.of_nat (length data) -> polls = Z.to_nat poll_limit))) as Hwp.
  { unfold c2_hp_uart_write. rewrite with_hp_live, H1, H2. cbn [andb bad_buffer].
    change (default [] (Some data)) with data. io_step.
    eapply io_wp_mono; [apply hp_write_loop_wp; lia|]. cbn beta.
    intros m h'' (l & bytes & k & -> & Ht & Hk & Hm & -> & Hend). io_step.
    rewrite Z.sub_0_r, drop_0 in Ht. eauto 10. }
  destruct (io_wp_exec _ _ _ _ _ Hwp E) as (m & l & polls & [= -> ->] & -> & Ht & Hm & Hk & Hend).
  exists l, polls. do 4 (split; [done || lia|]). destruct (Z.eqb_spec m (Z.of_nat (length data)));
    split; try done; intros; split; try done; lia.
Qed.

(** A buffer read follows the receive protocol against every device: each byte is taken
    right after a status read that shows data; the first [count] cells of the buffer are the
    received bytes in order and the rest is untouched; a parity error ends the call with IO
    after storing the bad byte; OK means the buffer is full of good bytes, and TIMEOUT that the
    whole poll budget was spent. *)
Theorem hp_uart_read_spec u buffer poll_limit h st out n h' :
  hp_initialized u = true -> hp_regs u = true -> 0 <= poll_limit ->
  exec (c2_hp_uart_read (Some u) (Some buffer) (Z.of_nat (length buffer)) (Some 0) poll_limit) h
    = ((st, (Some out, Some n)), h') ->
  exists l bytes polls bad, h' = h ++ l /\ rx_trace l bytes polls bad /\
    n = Z.of_nat (length bytes) /\ n <= Z.of_nat (length buffer) /\
    out = bytes ++ drop (length bytes) buffer /\ Z.of_nat polls <= poll_limit /\
    (st = C2_ERROR_IO <-> bad = true) /\
    (st = C2_OK <-> bad = false /\ n = Z.of_nat (length buffer)) /\
    (st = C2_ERROR_TIMEOUT -> Z.of_nat polls = poll_limit).
Proof.
  intros H1 H2 Hp E.
  assert (io_wp (c2_hp_uart_read (Some u) (Some buffer) (Z.of_nat (length buffer)) (Some 0) poll_limit) h
    (fun r h' => exists l bytes polls bad, h' = h ++ l /\ rx_trace l bytes polls bad /\
      r = (if (bad : bool) then C2_ERROR_IO
           else if Z.of_nat (length bytes) =? Z.of_nat (length buffer) then C2_OK else C2_ERROR_TIMEOUT,
           (Some (bytes ++ drop (length bytes) buffer), Some (Z.of_nat (length bytes)))) /\
      (polls <= Z.to_nat poll_limit)%nat /\ Z.of_nat (length bytes) <= Z.of_nat (length buffer) /\
      (bad = false -> Z.of_nat (length bytes) < Z.of_nat (length buffer) -> polls = Z.to_nat poll_limit))) as Hwp.
  { unfold c2_hp_uart_read. rewrite with_hp_live, H1, H2. cbn [andb bad_buffer].
    change (default [] (Some buffer)) with buffer. io_step.
    eapply io_wp_mono; [apply hp_read_loop_wp; lia|]. cbn beta.
    intros r h'' (l & bytes & k & bad & -> & Ht & Hk & -> & Hle & Hend). io_step.
    exists l, bytes, k, bad. rewrite !Z.add_0_l in *. done. }
  destruct (io_wp_exec _ _ _ _ _ Hwp E) as (l & bytes & polls & bad & -> & Ht & Er & Hk & Hle & Hend).
  injection Er as -> -> ->. exists l, bytes, polls, bad. do 6 (split; [done || lia|]).
  destruct bad.
  { split; [done|]. split; [|done]. split; [done|]. by intros [? _]. }
  destruct (Z.eqb_spec (Z.of_nat (length bytes)) (Z.of_nat (length buffer)));
    (split; [done|]); (split; [split; [done|]; intros [_ ?]; done || lia|]); intros; try done.
  rewrite Hend; lia || done.
Qed.
End Properties.

(** ** Witnesses, against a UART whose registers read as zero: room, data, no errors *)

Section Witnesses.
#[local] Instance zero_uart : Device hp_uart_reg := const_device 0 zero_u32.

Definition sample_config : c2_hp_uart_config :=
  mk_hp_config 9600 0 8 C2_UART_PARITY_EVEN C2_UART_STOP_BITS_1 1.
Definition sample_uart : c2_hp_uart := mk_hp_uart true 216 4 true.
Definition sample_trace : list (access hp_uart_reg) := [Wr LCR 0; Wr DIV 103; Wr FCR 7; Wr FCR 4; Wr LCR 216].

Lemma sample_config_u32 : hp_config_u32 sample_config.
Proof. repeat split; cbn; lia. Qed.

Lemma sample_config_accepted : hp_accepts 1000000 sample_config.
Proof. repeat split; cbn; done || lia. Qed.

Lemma hp_uart_configuration_witness :
  exec (c2_hp_uart_init (Some (mk_hp_uart false 0 0 false)) true 1000000 (Some sample_config)) []
  = ((C2_OK, Some sample_uart), sample_trace).
Proof.
  destruct (hp_uart_configuration (mk_hp_uart false 0 0 false) 1000000 sample_config [] ltac:(rlia)
    sample_config_u32) as [H _].
  exact (H sample_config_accepted).
Defined.

Lemma sample_uart_reach : hp_reach sample_uart sample_trace.
Proof.
  apply (hp_reach_init (mk_hp_uart false 0 0 false) [] 1000000 sample_config);
    [rlia|exact sample_config_u32|by vm_compute].
Qed.

Lemma hp_uart_in_sync_witness : last_write LCR sample_trace = Some 216.
Proof. destruct (hp_uart_in_sync _ _ sample_uart_reach) as (_ & _ & H & _). exact H. Defined.

Lemma hp_uart_write_witness : exists l polls, tx_trace l [65; 66] polls /\
  exec (c2_hp_uart_write (Some sample_uart) (Some [65; 66]) 2 (Some 0) 2) [] = ((C2_OK, Some 2), l).
Proof.
  assert (exec (c2_hp_uart_write (Some sample_uart) (Some [65; 66]) 2 (Some 0) 2) []
    = ((C2_OK, Some 2), [Rd LSR 0; Wr TRX 65; Rd LSR 0; Wr TRX 66])) as E by by vm_compute.
  destruct (hp_uart_write_spec sample_uart [65; 66] 2 [] _ _ _ eq_refl eq_refl ltac:(lia) E)
    as (l & polls & El & Ht & _).
  exists l, polls. cbn in El. subst l. split; [exact Ht|exact E].
Defined.

Lemma hp_uart_read_witness : exists l bytes polls, rx_trace l bytes polls false /\
  3 = Z.of_nat (length bytes) /\
  exec (c2_hp_uart_read (Some sample_uart) (Some [7; 7; 7]) 3 (Some 0) 3) []
    = ((C2_OK, (Some [0; 0; 0], Some 3)), l).
Proof.
  assert (exec (c2_hp_uart_read (Some sample_uart) (Some [7; 7; 7]) 3 (Some 0) 3) []
    = ((C2_OK, (Some [0; 0; 0], Some 3)),
       [Rd LSR 0; Rd TRX 0; Rd LSR 0; Rd TRX 0; Rd LSR 0; Rd TRX 0])) as E by by vm_compute.
  destruct (hp_uart_read_spec sample_uart [7; 7; 7] 3 [] _ _ _ _ eq_refl eq_refl ltac:(lia) E)
    as (l & bytes & polls & bad & El & Ht & En & _ & _ & _ & _ & Hok & _).
  destruct (proj1 Hok eq_refl) as [-> _]. exists l, bytes, polls. cbn in El. subst l.
  split; [exact Ht|]. split; [exact En|exact E].
Defined.
End Witnesses.
