(* ===== verification/C2I2c.v ===== *)
(** * I2C master: vendor/openecos/starrysky/c2/src/c2_i2c.c

    Command-level driving of the bus with bounded polling.  The register pointer
    is its address; buffers are lists, [None] is a NULL pointer.  The theorems
    read a transfer's trace as the commands it put on the bus. *)
From S2P Require Import Prelude MachineInt Mmio.

Inductive i2c_reg : Type := CTRL | PSCR | TXR | RXR | CMD | SR.
#[export] Instance i2c_reg_eq : EqDecision i2c_reg.
Proof. solve_decision. Defined.

Definition C2_I2C_CTRL_IEN : Z := 64.
Definition C2_I2C_CTRL_EN : Z := 128.
Definition C2_I2C_CMD_IACK : Z := 1.
Definition C2_I2C_CMD_ACK : Z := 8.
Definition C2_I2C_CMD_WR : Z := 16.
Definition C2_I2C_CMD_RD : Z := 32.
Definition C2_I2C_CMD_STO : Z := 64.
Definition C2_I2C_CMD_STA : Z := 128.
Definition C2_I2C_STATUS_IF : Z := 1.
Definition C2_I2C_STATUS_TIP : Z := 2.
Definition C2_I2C_STATUS_AL : Z := 32.
Definition C2_I2C_STATUS_BSY : Z := 64.
Definition C2_I2C_STATUS_RXK : Z := 128.
Definition C2_I2C_PRESCALER_MAX : Z := 65535.

Definition c2_i2c_regs_valid (regs : Z) : bool := negb (regs =? 0) && (Z.land regs 3 =? 0).

Definition c2_i2c_read_status : io i2c_reg Z := c2_mmio_read32 SR.

(** ** Commands *)

Fixpoint clear_if_poll (polls_left : nat) : io i2c_reg c2_status_t :=
  match polls_left with
  | O => mret C2_ERROR_TIMEOUT
  | S polls_left =>
      status ← c2_i2c_read_status;
      (if negb (bit_set status C2_I2C_STATUS_IF) then mret C2_OK else clear_if_poll polls_left)
  end.

Definition c2_i2c_clear_if (status poll_limit : Z) : io i2c_reg c2_status_t :=
  if negb (bit_set status C2_I2C_STATUS_IF) then mret C2_OK
  else if bit_set status C2_I2C_STATUS_TIP then mret C2_ERROR_BUSY
  else c2_mmio_write32 CMD C2_I2C_CMD_IACK;; clear_if_poll (Z.to_nat poll_limit).

Fixpoint command_poll (polls_left : nat) (check_nack : bool) (completion : Z)
    : io i2c_reg (c2_status_t * Z) :=
  match polls_left with
  | O => mret (C2_ERROR_TIMEOUT, completion)
  | S polls_left =>
      status ← c2_i2c_read_status;
      (if bit_set status C2_I2C_STATUS_AL then mret (C2_ERROR_ARBITRATION, completion)
       else if bit_set status C2_I2C_STATUS_IF then
         mret (if check_nack && bit_set status C2_I2C_STATUS_RXK then C2_ERROR_NACK else C2_OK, status)
       else command_poll polls_left check_nack completion)
  end.

(** The last component is the cell behind completion_status. *)
Definition c2_i2c_issue_command (command : Z) (check_nack : bool) (poll_limit completion : Z)
    : io i2c_reg (c2_status_t * Z) :=
  status ← c2_i2c_read_status;
  (if bit_set status C2_I2C_STATUS_TIP then mret (C2_ERROR_BUSY, completion)
   else if bit_set status C2_I2C_STATUS_AL && negb (bit_set command C2_I2C_CMD_STA)
   then mret (C2_ERROR_ARBITRATION, completion)
   else
     result ← c2_i2c_clear_if status poll_limit;
     (if negb (c2_ok result) then mret (result, completion)
      else
        c2_mmio_write32 CMD command;;
        command_poll (Z.to_nat poll_limit) check_nack completion)).

(** The repeated clean-up: acknowledge a pending IF unless a byte is in flight. *)
Definition clear_if_idle (status poll_limit : Z) : io i2c_reg unit :=
  if bit_set status C2_I2C_STATUS_IF && negb (bit_set status C2_I2C_STATUS_TIP)
  then _ ← c2_i2c_clear_if status poll_limit; mret tt
  else mret tt.

(** Wait for the bus to be released: the last status, or arbitration lost. *)
Fixpoint stop_poll (polls_left : nat) (poll_limit status : Z) : io i2c_reg (bool * Z) :=
  match polls_left with
  | O => mret (false, status)
  | S polls_left =>
      status ← c2_i2c_read_status;
      (if bit_set status C2_I2C_STATUS_AL then clear_if_idle status poll_limit;; mret (true, status)
       else if negb (bit_set status C2_I2C_STATUS_BSY) then mret (false, status)
       else stop_poll polls_left poll_limit status)
  end.

Definition c2_i2c_stop (poll_limit : Z) : io i2c_reg c2_status_t :=
  r ← c2_i2c_issue_command C2_I2C_CMD_STO false poll_limit 0;
  let '(result, status) := r in
  (if negb (c2_ok result) then
     status ← c2_i2c_read_status;
     clear_if_idle status poll_limit;;
     mret result
   else if bit_set status C2_I2C_STATUS_BSY then
     r ← stop_poll (Z.to_nat poll_limit) poll_limit status;
     let '(lost, status) := r in
     (if (lost : bool) then mret C2_ERROR_ARBITRATION
      else if bit_set status C2_I2C_STATUS_BSY then
        _ ← c2_i2c_clear_if status poll_limit; mret C2_ERROR_TIMEOUT
      else c2_i2c_clear_if status poll_limit)
   else c2_i2c_clear_if status poll_limit).

(** One more window for the command in flight: None when arbitration is lost meanwhile. *)
Fixpoint cleanup_poll (polls_left : nat) (poll_limit status : Z) : io i2c_reg (option Z) :=
  if negb (bit_set status C2_I2C_STATUS_TIP) then mret (Some status)
  else
    match polls_left with
    | O => mret (Some status)
    | S polls_left =>
        status ← c2_i2c_read_status;
        (if bit_set status C2_I2C_STATUS_AL then clear_if_idle status poll_limit;; mret None
         else cleanup_poll polls_left poll_limit status)
    end.

Definition c2_i2c_cleanup_failure (failure : c2_status_t) (poll_limit : Z) : io i2c_reg unit :=
  status ← c2_i2c_read_status;
  (if bool_decide (failure = C2_ERROR_ARBITRATION) || bit_set status C2_I2C_STATUS_AL
   then clear_if_idle status poll_limit
   else
     r ← cleanup_poll (Z.to_nat poll_limit) poll_limit status;
     match r with
     | None => mret tt
     | Some status =>
         if negb (bit_set status C2_I2C_STATUS_TIP) then _ ← c2_i2c_stop poll_limit; mret tt
         else mret tt
     end).

Definition c2_i2c_begin : io i2c_reg c2_status_t :=
  control ← c2_mmio_read32 CTRL;
  (if negb (bit_set control C2_I2C_CTRL_EN) then mret C2_ERROR_NOT_INITIALIZED
   else
     status ← c2_i2c_read_status;
     mret (if bit_set status (Z.lor C2_I2C_STATUS_TIP C2_I2C_STATUS_BSY) then C2_ERROR_BUSY else C2_OK)).

Definition c2_i2c_send_byte (byte command poll_limit : Z) : io i2c_reg c2_status_t :=
  c2_mmio_write32 TXR byte;;
  r ← c2_i2c_issue_command command true poll_limit 0; mret r.1.

Definition c2_i2c_receive_byte (byte : Z) (acknowledge : bool) (poll_limit : Z)
    : io i2c_reg (c2_status_t * Z) :=
  let command := if acknowledge then Z.lor C2_I2C_CMD_RD C2_I2C_CMD_ACK else C2_I2C_CMD_RD in
  r ← c2_i2c_issue_command command false poll_limit 0;
  (if c2_ok r.1 then raw ← c2_mmio_read32 RXR; mret (C2_OK, u8 raw) else mret (r.1, byte)).

(** ** Configuration *)

Definition c2_i2c_configure_prescaler (regs prescaler : Z) : io i2c_reg c2_status_t :=
  if negb (c2_i2c_regs_valid regs) || (prescaler >? C2_I2C_PRESCALER_MAX)
  then mret C2_ERROR_INVALID_ARGUMENT
  else
    status ← c2_i2c_read_status;
    (if bit_set status (Z.lor C2_I2C_STATUS_TIP C2_I2C_STATUS_BSY) then mret C2_ERROR_BUSY
     else
       control ← c2_mmio_read32 CTRL;
       c2_mmio_write32 CTRL (Z.land control C2_I2C_CTRL_IEN);;
       c2_mmio_write32 PSCR prescaler;;
       mret C2_OK).

Definition i2c_divider (clock_hz bus_hz : Z) : Z :=
  let denominator := u64 (bus_hz * 5) in
  let divider := u64 (u64 (clock_hz + denominator) - 1) / denominator in
  if divider =? 0 then 1 else divider.

Definition c2_i2c_configure (regs clock_hz bus_hz : Z) (prescaler_out : option Z)
    : io i2c_reg (c2_status_t * option Z) :=
  if negb (c2_i2c_regs_valid regs) || (clock_hz =? 0) || (bus_hz =? 0)
  then fail C2_ERROR_INVALID_ARGUMENT prescaler_out
  else
    let divider := i2c_divider clock_hz bus_hz in
    if divider >? 65536 then fail C2_ERROR_INVALID_ARGUMENT prescaler_out
    else
      let prescaler := u32 (u64 (divider - 1)) in
      result ← c2_i2c_configure_prescaler regs prescaler;
      mret (result, if c2_ok result
                    then match prescaler_out with Some _ => Some (u16 prescaler) | None => None end
                    else prescaler_out).

Definition c2_i2c_enable (regs : Z) : io i2c_reg c2_status_t :=
  if negb (c2_i2c_regs_valid regs) then mret C2_ERROR_INVALID_ARGUMENT
  else
    control ← c2_mmio_read32 CTRL;
    (if negb (bit_set control C2_I2C_CTRL_EN)
     then c2_mmio_write32 CTRL (Z.lor control C2_I2C_CTRL_EN);; mret C2_OK
     else mret C2_OK).

Definition c2_i2c_disable (regs : Z) : io i2c_reg c2_status_t :=
  if negb (c2_i2c_regs_valid regs) then mret C2_ERROR_INVALID_ARGUMENT
  else
    status ← c2_i2c_read_status;
    (if bit_set status (Z.lor C2_I2C_STATUS_TIP C2_I2C_STATUS_BSY) then mret C2_ERROR_BUSY
     else
       control ← c2_mmio_read32 CTRL;
       (if bit_set control C2_I2C_CTRL_EN
        then c2_mmio_write32 CTRL (Z.land control (u32 (Z.lnot C2_I2C_CTRL_EN)));; mret C2_OK
        else mret C2_OK)).

Definition c2_i2c_set_interrupt_enabled (regs : Z) (enabled : bool) : io i2c_reg c2_status_t :=
  if negb (c2_i2c_regs_valid regs) then mret C2_ERROR_INVALID_ARGUMENT
  else
    control ← c2_mmio_read32 CTRL;
    let new_control := if enabled then Z.lor control C2_I2C_CTRL_IEN
                       else Z.land control (u32 (Z.lnot C2_I2C_CTRL_IEN)) in
    (if negb (new_control =? control) then c2_mmio_write32 CTRL new_control;; mret C2_OK
     else mret C2_OK).

Record c2_i2c_status_snapshot : Type := mk_snapshot {
  raw : Z; interrupt_pending : bool; transfer_in_progress : bool; arbitration_lost : bool;
  bus_busy : bool; nack_received : bool }.

Definition c2_i2c_get_status (regs : Z) (snapshot : option c2_i2c_status_snapshot)
    : io i2c_reg (c2_status_t * option c2_i2c_status_snapshot) :=
  match snapshot with
  | None => fail C2_ERROR_INVALID_ARGUMENT snapshot
  | Some _ =>
      if negb (c2_i2c_regs_valid regs) then fail C2_ERROR_INVALID_ARGUMENT snapshot
      else
        status ← c2_i2c_read_status;
        mret (C2_OK, Some (mk_snapshot status (bit_set status C2_I2C_STATUS_IF)
          (bit_set status C2_I2C_STATUS_TIP) (bit_set status C2_I2C_STATUS_AL)
          (bit_set status C2_I2C_STATUS_BSY) (bit_set status C2_I2C_STATUS_RXK)))
  end.

Definition c2_i2c_ack_interrupt (regs poll_limit : Z) : io i2c_reg c2_status_t :=
  if negb (c2_i2c_regs_valid regs) || (poll_limit =? 0) then mret C2_ERROR_INVALID_ARGUMENT
  else status ← c2_i2c_read_status; c2_i2c_clear_if status poll_limit.

(** ** Transfers *)

(** for (index = 0; result == OK && index < length; ++index) send_byte *)
Fixpoint send_loop (result : c2_status_t) (data : list Z) (poll_limit : Z) : io i2c_reg c2_status_t :=
  match data with
  | [] => mret result
  | byte :: data =>
      if c2_ok result then
        result ← c2_i2c_send_byte byte C2_I2C_CMD_WR poll_limit;
        send_loop result data poll_limit
      else mret result
  end.

(** The receive loop from [index] on, with [remaining] bytes to go. *)
Fixpoint receive_loop (result : c2_status_t) (remaining index : nat) (data : list Z) (poll_limit : Z)
    : io i2c_reg (c2_status_t * list Z) :=
  match remaining with
  | O => mret (result, data)
  | S remaining =>
      if c2_ok result then
        r ← c2_i2c_receive_byte (nth index data 0) (negb (remaining =? 0)%nat) poll_limit;
        receive_loop r.1 remaining (S index) (<[index := r.2]> data) poll_limit
      else mret (result, data)
  end.

(** The common epilogue: STOP, or clean up after the failure. *)
Definition finish (result : c2_status_t) (poll_limit : Z) : io i2c_reg c2_status_t :=
  if c2_ok result then c2_i2c_stop poll_limit
  else c2_i2c_cleanup_failure result poll_limit;; mret result.

Definition bad_transfer (regs address length poll_limit : Z) (data : option (list Z)) : bool :=
  negb (c2_i2c_regs_valid regs) || (address >? 127) ||
  match data with None => true | Some _ => false end || (length =? 0) || (poll_limit =? 0).

Definition c2_i2c_master_write (regs address : Z) (data : option (list Z)) (length poll_limit : Z)
    : io i2c_reg c2_status_t :=
  if bad_transfer regs address length poll_limit data then mret C2_ERROR_INVALID_ARGUMENT
  else
    result ← c2_i2c_begin;
    (if negb (c2_ok result) then mret result
     else
       result ← c2_i2c_send_byte (u8 (Z.shiftl address 1)) (Z.lor C2_I2C_CMD_STA C2_I2C_CMD_WR) poll_limit;
       result ← send_loop result (take (Z.to_nat length) (default [] data)) poll_limit;
       finish result poll_limit).

Definition c2_i2c_master_read (regs address : Z) (data : option (list Z)) (length poll_limit : Z)
    : io i2c_reg (c2_status_t * option (list Z)) :=
  if bad_transfer regs address length poll_limit data then fail C2_ERROR_INVALID_ARGUMENT data
  else
    result ← c2_i2c_begin;
    (if negb (c2_ok result) then fail result data
     else
       result ← c2_i2c_send_byte (u8 (Z.lor (Z.shiftl address 1) 1))
                  (Z.lor C2_I2C_CMD_STA C2_I2C_CMD_WR) poll_limit;
       r ← receive_loop result (Z.to_nat length) 0 (default [] data) poll_limit;
       result ← finish r.1 poll_limit;
       mret (result, Some r.2)).

Definition c2_i2c_master_write_read (regs address : Z) (write_data : option (list Z)) (write_length : Z)
    (read_data : option (list Z)) (read_length poll_limit : Z)
    : io i2c_reg (c2_status_t * option (list Z)) :=
  if bad_transfer regs address write_length poll_limit write_data ||
     bad_transfer regs address read_length poll_limit read_data
  then fail C2_ERROR_INVALID_ARGUMENT read_data
  else
    result ← c2_i2c_begin;
    (if negb (c2_ok result) then fail result read_data
     else
       result ← c2_i2c_send_byte (u8 (Z.shiftl address 1)) (Z.lor C2_I2C_CMD_STA C2_I2C_CMD_WR) poll_limit;
       result ← send_loop result (take (Z.to_nat write_length) (default [] write_data)) poll_limit;
       result ← (if c2_ok result
                 then c2_i2c_send_byte (u8 (Z.lor (Z.shiftl address 1) 1))
                        (Z.lor C2_I2C_CMD_STA C2_I2C_CMD_WR) poll_limit
                 else mret result);
       r ← receive_loop result (Z.to_nat read_length) 0 (default [] read_data) poll_limit;
       result ← finish r.1 poll_limit;
       mret (result, Some r.2)).

(** ** Bus scripts

    A step puts an optional byte into TXR and issues a command.  A transfer is a
    script; its trace shows which prefix of the script reached the bus. *)

Record bus_step : Type := mk_step { step_byte : option Z; step_command : Z }.

Definition start_step (byte : Z) : bus_step := mk_step (Some byte) 144.
Definition send_step (byte : Z) : bus_step := mk_step (Some byte) 16.
Definition receive_step (last : bool) : bus_step := mk_step None (if last then 32 else 40).

(** The commands on the bus: everything written to CMD but interrupt acknowledges. *)
Definition commands (l : list (access i2c_reg)) : list Z := List.filter (fun c => negb (c =? 1)) (writes_to CMD l).

(** The script reached its [k]-th command; the byte of the next step may be in TXR. *)
Definition reached (script : list bus_step) (k : nat) (l : list (access i2c_reg)) : Prop :=
  (k <= length script)%nat /\ commands l = map step_command (take k script) /\
  exists j, (k <= j <= S k)%nat /\ writes_to TXR l = omap step_byte (take j script).

(** [n] bytes to receive, all but the last acknowledged. *)
Fixpoint receive_script (n : nat) : list bus_step :=
  match n with O => [] | S n => receive_step (n =? 0)%nat :: receive_script n end.

Section Scripts.
Context {d : Device i2c_reg} (P : Z).
Hypothesis HP : 0 <= P.
Implicit Types (h l : list (access i2c_reg)) (script : list bus_step) (st : c2_status_t).

Lemma commands_app l1 l2 : commands (l1 ++ l2) = commands l1 ++ commands l2.
Proof. unfold commands. by rewrite writes_to_app, List.filter_app. Qed.

(** Accesses that put nothing on the bus and take nothing from it, with at most [n] reads. *)
Definition quiet (n : Z) l : Prop :=
  commands l = [] /\ writes_to TXR l = [] /\ Z.of_nat (count_reads l) <= n /\ reads_of RXR l = [].

Lemma quiet_nil n : 0 <= n -> quiet n [].
Proof. done. Qed.

Lemma quiet_app n1 n2 l1 l2 : quiet n1 l1 -> quiet n2 l2 -> quiet (n1 + n2) (l1 ++ l2).
Proof.
  intros (H1 & H2 & H3 & H4) (H5 & H6 & H7 & H8). split; [|split; [|split]].
  - by rewrite commands_app, H1, H5.
  - by rewrite writes_to_app, H2, H6.
  - rewrite count_reads_app. lia.
  - by rewrite reads_of_app, H4, H8.
Qed.

Lemma quiet_mono n1 n2 l : quiet n1 l -> n1 <= n2 -> quiet n2 l.
Proof. intros (H1 & H2 & H3 & H4) H. repeat split; try done. lia. Qed.

Lemma quiet_read v n l : quiet n l -> quiet (1 + n) (Rd SR v :: l).
Proof. intros H. apply (quiet_app 1 n [Rd SR v]); [|done]. repeat split; done. Qed.

Lemma quiet_iack n l : quiet n l -> quiet n (Wr CMD C2_I2C_CMD_IACK :: l).
Proof. intros (H1 & H2 & H3 & H4). repeat split; try done. Qed.

(** [m] only makes quiet accesses. *)
Definition stays_quiet {A} (n : Z) (m : io i2c_reg A) : Prop :=
  forall h, io_wp m h (fun _ h' => exists l, h' = h ++ l /\ quiet n l).

Lemma clear_if_poll_quiet k : stays_quiet (Z.of_nat k) (clear_if_poll k).
Proof.
  induction k as [|k IH]; intros h; cbn [clear_if_poll].
  - io_step. exists []. rewrite app_nil_r. by split; [|apply quiet_nil].
  - unfold c2_i2c_read_status. io_step. io_step. io_step.
    + io_step. exists [Rd SR v]. split; [done|]. eapply quiet_mono; [apply (quiet_read _ 0), quiet_nil|]; lia.
    + eapply io_wp_mono; [apply IH|]. intros st h' (l & -> & Hq). exists (Rd SR v :: l).
      rewrite <- app_assoc. split; [done|]. eapply quiet_mono; [by apply quiet_read|lia].
Qed.

Lemma clear_if_quiet status : stays_quiet P (c2_i2c_clear_if status P).
Proof.
  intros h. unfold c2_i2c_clear_if.
  io_step; [io_step; exists []; rewrite app_nil_r; by split; [|apply quiet_nil]|].
  io_step; [io_step; exists []; rewrite app_nil_r; by split; [|apply quiet_nil]|].
  do 2 io_step. eapply io_wp_mono; [apply clear_if_poll_quiet|]. intros st h' (l & -> & Hq).
  rewrite <- app_assoc. eexists. split; [done|]. apply quiet_iack. rewrite Z2Nat.id in Hq; done.
Qed.

Lemma clear_if_idle_quiet status : stays_quiet P (clear_if_idle status P).
Proof.
  intros h. unfold clear_if_idle. io_step.
  - io_step. eapply io_wp_mono; [apply clear_if_quiet|]. intros st h' H. by io_step.
  - io_step. exists []. rewrite app_nil_r. by split; [|apply quiet_nil].
Qed.

Lemma command_poll_quiet k nack completion : stays_quiet (Z.of_nat k) (command_poll k nack completion).
Proof.
  revert completion. induction k as [|k IH]; intros completion h; cbn [command_poll].
  - io_step. exists []. rewrite app_nil_r. by split; [|apply quiet_nil].
  - unfold c2_i2c_read_status. io_step. io_step.
    assert (quiet (Z.of_nat (S k)) [Rd SR v]) as H1
      by (eapply quiet_mono; [apply (quiet_read _ 0), quiet_nil|]; lia).
    io_step; [io_step; by exists [Rd SR v]|]. io_step; [io_step; by exists [Rd SR v]|].
    eapply io_wp_mono; [apply IH|]. intros st h' (l & -> & Hq). exists (Rd SR v :: l).
    rewrite <- app_assoc. split; [done|]. eapply quiet_mono; [by apply quiet_read|lia].
Qed.

(** At most [n] reads, and [command] on the bus when [b] holds, nothing otherwise. *)
Definition issued (n command : Z) (b : bool) l : Prop :=
  commands l = (if b then [command] else []) /\ writes_to TXR l = [] /\
  Z.of_nat (count_reads l) <= n /\ reads_of RXR l = [].

Lemma quiet_issued n m command l : quiet n l -> n <= m -> issued m command false l.
Proof. intros (H1 & H2 & H3 & H4) H. repeat split; try done. lia. Qed.

Lemma issued_mono n m command b l : issued n command b l -> n <= m -> issued m command b l.
Proof. intros (H1 & H2 & H3 & H4) H. repeat split; try done. lia. Qed.

Lemma issued_quiet n1 n2 m command b l1 l2 :
  issued n1 command b l1 -> quiet n2 l2 -> n1 + n2 <= m -> issued m command b (l1 ++ l2).
Proof.
  intros (H1 & H2 & H3 & H4) (H5 & H6 & H7 & H8) Hm. split; [|split; [|split]].
  - by rewrite commands_app, H1, H5, app_nil_r.
  - by rewrite writes_to_app, H2, H6.
  - rewrite count_reads_app. lia.
  - by rewrite reads_of_app, H4, H8.
Qed.

Lemma quiet_then_issued n1 n2 m command b l1 l2 :
  quiet n1 l1 -> issued n2 command b l2 -> n1 + n2 <= m -> issued m command b (l1 ++ l2).
Proof.
  intros (H1 & H2 & H3 & H4) (H5 & H6 & H7 & H8) Hm. split; [|split; [|split]].
  - by rewrite commands_app, H1, H5.
  - by rewrite writes_to_app, H2, H6.
  - rewrite count_reads_app. lia.
  - by rewrite reads_of_app, H4, H8.
Qed.

Lemma command_issued n command l : command <> 1 -> quiet n l -> issued n command true (Wr CMD command :: l).
Proof.
  intros Hc (H1 & H2 & H3 & H4). unfold issued, commands in *. autorewrite with trace. cbn [List.filter].
  rewrite (proj2 (Z.eqb_neq command 1)) by done. cbn [negb]. by rewrite H1.
Qed.

Lemma read_quiet1 v : quiet 1 [Rd SR v].
Proof. by repeat split. Qed.

Lemma issue_command_wp command nack completion h : command <> 1 ->
  io_wp (c2_i2c_issue_command command nack P completion) h (fun r h' => exists l b,
    h' = h ++ l /\ issued (2 * P + 1) command b l /\ (r.1 = C2_OK -> b = true)).
Proof.
  intros Hc. unfold c2_i2c_issue_command, c2_i2c_read_status. io_step. io_step.
  assert (issued (2 * P + 1) command false [Rd SR v]) as H1
    by (eapply quiet_issued; [apply read_quiet1|lia]).
  io_step; [io_step; by exists [Rd SR v], false|]. io_step; [io_step; by exists [Rd SR v], false|].
  io_step. eapply io_wp_mono; [apply clear_if_quiet|]. intros result h' (l1 & -> & Hq1).
  rewrite <- app_assoc. io_step.
  - io_step. exists (Rd SR v :: l1), false. split; [done|]. split; [|by destruct result].
    eapply quiet_issued; [by apply quiet_read|lia].
  - do 2 io_step. eapply io_wp_mono; [apply command_poll_quiet|]. intros r h' (l2 & -> & Hq2).
    exists ((Rd SR v :: l1) ++ (Wr CMD command :: l2)), true. rewrite <- !app_assoc. split; [done|].
    split; [|done]. eapply quiet_then_issued; [by apply quiet_read|by apply command_issued|lia].
Qed.

Lemma stop_poll_quiet k status : stays_quiet (Z.of_nat k + P) (stop_poll k P status).
Proof.
  revert status. induction k as [|k IH]; intros status h; cbn [stop_poll].
  - io_step. exists []. rewrite app_nil_r. split; [done|]. apply quiet_nil. lia.
  - unfold c2_i2c_read_status. io_step. io_step. io_step; [|io_step].
    + io_step. eapply io_wp_mono; [apply clear_if_idle_quiet|]. intros [] h' (l & -> & Hq). io_step.
      rewrite <- app_assoc. eexists. split; [done|]. eapply quiet_mono; [by apply quiet_read|lia].
    + io_step. exists [Rd SR v]. split; [done|]. eapply quiet_mono; [apply read_quiet1|lia].
    + eapply io_wp_mono; [apply IH|]. intros st h' (l & -> & Hq). exists (Rd SR v :: l).
      rewrite <- app_assoc. split; [done|]. eapply quiet_mono; [by apply quiet_read|lia].
Qed.

(** Every way out of [c2_i2c_stop] after the command. *)
Lemma stop_rest_quiet status : stays_quiet (3 * P) (
  if bit_set status C2_I2C_STATUS_BSY then
    r ← stop_poll (Z.to_nat P) P status;
    let '(lost, status) := r in
    (if (lost : bool) then mret C2_ERROR_ARBITRATION
     else if bit_set status C2_I2C_STATUS_BSY then
       _ ← c2_i2c_clear_if status P; mret C2_ERROR_TIMEOUT
     else c2_i2c_clear_if status P)
  else c2_i2c_clear_if status P).
Proof.
  intros h. io_step.
  2:{ eapply io_wp_mono; [apply clear_if_quiet|]. intros st h' (l & -> & Hq).
      exists l. split; [done|]. eapply quiet_mono; [done|lia]. }
  io_step. eapply io_wp_mono; [apply stop_poll_quiet|]. intros [lost status'] h' (l & -> & Hq).
  assert (quiet (2 * P) l) as Hq' by (eapply quiet_mono; [done|rewrite Z2Nat.id by done; lia]).
  io_step; [|io_step].
  - io_step. exists l. split; [done|]. eapply quiet_mono; [done|lia].
  - io_step. eapply io_wp_mono; [apply clear_if_quiet|]. intros st h' (l2 & -> & Hq2). io_step.
    rewrite <- app_assoc. eexists. split; [done|]. eapply quiet_mono; [by apply quiet_app|lia].
  - eapply io_wp_mono; [apply clear_if_quiet|]. intros st h' (l2 & -> & Hq2).
    rewrite <- app_assoc. eexists. split; [done|]. eapply quiet_mono; [by apply quiet_app|lia].
Qed.

Lemma stop_wp h :
  io_wp (c2_i2c_stop P) h (fun st h' => exists l b,
    h' = h ++ l /\ issued (5 * P + 2) C2_I2C_CMD_STO b l /\ (st = C2_OK -> b = true)).
Proof.
  unfold c2_i2c_stop. io_step. eapply io_wp_mono; [by apply issue_command_wp|].
  intros [result status] h' (l & b & -> & Hi & Hb). cbn [fst] in Hb. io_step.
  - unfold c2_i2c_read_status. io_step. io_step. io_step.
    eapply io_wp_mono; [apply clear_if_idle_quiet|]. intros [] h' (l2 & -> & Hq). io_step.
    rewrite <- !app_assoc. exists (l ++ Rd SR v :: l2), b. split; [done|].
    split; [|by intros ->]. eapply issued_quiet; [done|by apply quiet_read|lia].
  - eapply io_wp_mono; [apply stop_rest_quiet|]. intros st h' (l2 & -> & Hq).
    rewrite <- app_assoc. eexists _, b. split; [done|].
    split; [eapply issued_quiet; [done|done|lia]|]. intros _. apply Hb. by destruct result.
Qed.

Lemma cleanup_poll_quiet k status : stays_quiet (Z.of_nat k + P) (cleanup_poll k P status).
Proof.
  revert status. induction k as [|k IH]; intros status h; cbn [cleanup_poll].
  - io_step; io_step; exists []; rewrite app_nil_r; (split; [done|]); apply quiet_nil; lia.
  - io_step; [io_step; exists []; rewrite app_nil_r; (split; [done|]); apply quiet_nil; lia|].
    unfold c2_i2c_read_status. io_step. io_step. io_step.
    + io_step. eapply io_wp_mono; [apply clear_if_idle_quiet|]. intros [] h' (l & -> & Hq). io_step.
      rewrite <- app_assoc. eexists. split; [done|]. eapply quiet_mono; [by apply quiet_read|lia].
    + eapply io_wp_mono; [apply IH|]. intros st h' (l & -> & Hq). exists (Rd SR v :: l).
      rewrite <- app_assoc. split; [done|]. eapply quiet_mono; [by apply quiet_read|lia].
Qed.

Lemma cleanup_wp failure h :
  io_wp (c2_i2c_cleanup_failure failure P) h (fun _ h' => exists l b,
    h' = h ++ l /\ issued (7 * P + 3) C2_I2C_CMD_STO b l /\ (failure = C2_ERROR_ARBITRATION -> b = false)).
Proof.
  unfold c2_i2c_cleanup_failure, c2_i2c_read_status. io_step. io_step. io_step.
  - eapply io_wp_mono; [apply clear_if_idle_quiet|]. intros [] h' (l & -> & Hq).
    exists (Rd SR v :: l), false. rewrite <- app_assoc. split; [done|]. split; [|done].
    eapply quiet_issued; [by apply quiet_read|lia].
  - apply orb_false_iff in E as [E _]. apply bool_decide_eq_false in E.
    io_step. eapply io_wp_mono; [apply cleanup_poll_quiet|]. intros r h' (l & -> & Hq).
    rewrite <- app_assoc. assert (quiet (1 + 2 * P) (Rd SR v :: l)) as Hq1
      by (apply quiet_read; eapply quiet_mono; [done|rewrite Z2Nat.id by done; lia]).
    destruct r as [status|].
    2:{ io_step. eexists _, false. split; [done|]. split; [|done]. eapply quiet_issued; [done|lia]. }
    io_step.
    + io_step. eapply io_wp_mono; [apply stop_wp|]. intros st h' (l2 & b & -> & Hi & _). io_step.
      rewrite <- app_assoc. exists ((Rd SR v :: l) ++ l2), b. split; [done|]. split; [|done].
      eapply quiet_then_issued; [done|done|lia].
    + io_step. eexists _, false. split; [done|]. split; [|done]. eapply quiet_issued; [done|lia].
Qed.

(** The epilogue: STOP on success, at most one STOP after a failure and none after a lost bus. *)
Lemma finish_wp result h :
  io_wp (finish result P) h (fun st h' => exists l b,
    h' = h ++ l /\ issued (7 * P + 3) C2_I2C_CMD_STO b l /\
    (result = C2_OK -> st = C2_OK -> b = true) /\
    (result <> C2_OK -> st = result) /\ (result = C2_ERROR_ARBITRATION -> b = false)).
Proof.
  unfold finish. io_step.
  - eapply io_wp_mono; [apply stop_wp|]. intros st h' (l & b & -> & Hi & Hb).
    exists l, b. split; [done|]. split; [eapply issued_mono; [done|lia]|]. by destruct result.
  - io_step. eapply io_wp_mono; [apply cleanup_wp|]. intros [] h' (l & b & -> & Hi & Hb). io_step.
    exists l, b. split; [done|]. split; [done|]. by destruct result.
Qed.

(** ** The data phase *)

Lemma reached_full script l : reached script (length script) l ->
  commands l = map step_command script /\ writes_to TXR l = omap step_byte script.
Proof.
  intros (_ & Hc & j & Hj & Ht). rewrite firstn_all in Hc.
  by rewrite (take_ge script j) in Ht by lia.
Qed.

Lemma reached_prefix s1 s2 k l : reached s1 k l -> reached (s1 ++ s2) k l.
Proof.
  intros (Hk & Hc & j & Hj & Ht). split; [rewrite length_app; lia|]. split.
  - by rewrite take_app_le.
  - exists (j `min` length s1)%nat. split; [lia|]. rewrite take_app_le by lia.
    destruct (Nat.min_spec j (length s1)) as [[? ->]|[? ->]]; [done|].
    by rewrite Ht, firstn_all, (take_ge s1 j).
Qed.

Lemma reached_app s1 s2 k l1 l2 :
  reached s1 (length s1) l1 -> reached s2 k l2 -> reached (s1 ++ s2) (length s1 + k) (l1 ++ l2).
Proof.
  intros [Hc1 Ht1]%reached_full (Hk & Hc & j & Hj & Ht). split; [rewrite length_app; lia|]. split.
  - rewrite commands_app, Hc1, Hc, take_app_add, map_app. done.
  - exists (length s1 + j)%nat. split; [lia|]. by rewrite writes_to_app, Ht1, Ht, take_app_add, omap_app.
Qed.

(** [m] walks along [script], and completes it when its status is OK; [rel] relates its result
    to the bytes taken from the bus. *)
Definition phase {A} script (status : A -> c2_status_t) (rel : A -> list Z -> Prop) (m : io i2c_reg A) : Prop :=
  forall h, io_wp m h (fun a h' => exists l k, h' = h ++ l /\ reached script k l /\
    Z.of_nat (count_reads l) <= Z.of_nat (length script) * (2 * P + 2) /\
    rel a (reads_of RXR l) /\ (status a = C2_OK -> k = length script)).

Lemma phase_bind {A B} s1 s2 (st1 : A -> c2_status_t) (st2 : B -> c2_status_t) rel1 rel2 m (f : A -> io i2c_reg B) :
  phase s1 st1 rel1 m ->
  (forall a vs, st1 a = C2_OK -> rel1 a vs -> phase s2 st2 (fun b vs2 => rel2 b (vs ++ vs2)) (f a)) ->
  (forall a vs, st1 a <> C2_OK -> rel1 a vs -> exists b, f a = mret b /\ st2 b <> C2_OK /\ rel2 b vs) ->
  phase (s1 ++ s2) st2 rel2 (m ≫= f).
Proof.
  intros Hm Hok Hbad h. io_step. eapply io_wp_mono; [apply Hm|].
  intros a h' (l & k & -> & Hr & Hn & Hrel & Hk). destruct (decide (st1 a = C2_OK)) as [E|E].
  - rewrite (Hk E) in Hr. eapply io_wp_mono; [by apply (Hok a _ E Hrel)|].
    intros b h' (l2 & k2 & -> & Hr2 & Hn2 & Hrel2 & Hk2).
    exists (l ++ l2), (length s1 + k2)%nat. rewrite <- app_assoc. split; [done|].
    split; [by apply reached_app|]. rewrite length_app, count_reads_app, reads_of_app.
    split; [lia|]. split; [done|]. intros E2. rewrite (Hk2 E2). lia.
  - destruct (Hbad a _ E Hrel) as (b & -> & E2 & Hrel2). io_step. exists l, k. split; [done|].
    split; [by apply reached_prefix|]. rewrite length_app. split; [nia|]. by split.
Qed.

Lemma send_byte_phase byte command : command <> 1 ->
  phase [mk_step (Some byte) command] id (fun _ vs => vs = []) (c2_i2c_send_byte byte command P).
Proof.
  intros Hc h. unfold c2_i2c_send_byte. do 2 io_step. io_step.
  eapply io_wp_mono; [by apply issue_command_wp|]. intros [st c] h' (l & b & -> & (H1 & H2 & H3 & H4) & Hb).
  io_step. rewrite <- app_assoc. exists (Wr TXR byte :: l), (if b then 1 else 0)%nat. split; [done|].
  split; [split; [destruct b; cbn; lia|]|].
  - split; [destruct b; exact H1|]. exists 1%nat. split; [destruct b; lia|]. by rewrite writes_to_wr, H2.
  - cbn [length]. rewrite count_reads_wr. split; [lia|]. split; [exact H4|]. cbn. by intros ->%Hb.
Qed.

Lemma receive_byte_phase byte last :
  phase [receive_step last] fst
    (fun r vs => (r.1 = C2_OK /\ exists raw, vs = [raw] /\ r.2 = u8 raw) \/ (r.1 <> C2_OK /\ vs = [] /\ r.2 = byte))
    (c2_i2c_receive_byte byte (negb last) P).
Proof.
  intros h. unfold c2_i2c_receive_byte. cbv zeta. io_step.
  eapply io_wp_mono; [apply issue_command_wp; by destruct last|].
  intros [st c] h' (l & b & -> & (H1 & H2 & H3 & H4) & Hb). cbn [fst] in *.
  assert (reached [receive_step last] (if b then 1 else 0)%nat l) as Hr.
  { split; [destruct b; cbn; lia|]. split; [destruct b, last; exact H1|].
    exists (if b then 1 else 0)%nat. split; [lia|]. rewrite H2. by destruct b. }
  io_step.
  - do 2 io_step. rewrite <- app_assoc. eexists _, 1%nat. split; [done|].
    rewrite (Hb ltac:(by destruct st)) in Hr. destruct Hr as (_ & Hc & j & Hj & Ht).
    rewrite count_reads_app, reads_of_app, H4. cbn. split.
    + split; [cbn; lia|]. rewrite commands_app, writes_to_app, Hc, Ht, !app_nil_r. eauto.
    + split; [lia|]. split; [|done]. left. eauto.
  - io_step. exists l, (if b then 1 else 0)%nat. split; [done|]. split; [done|]. cbn [length].
    split; [lia|]. cbn. split; [|by intros ->]. right. by destruct st.
Qed.

Lemma phase_ret {A} (status : A -> c2_status_t) (rel : A -> list Z -> Prop) a : rel a [] -> phase [] status rel (mret a).
Proof.
  intros Hr h. io_step. exists [], 0%nat. rewrite app_nil_r. split; [done|].
  split; [|by repeat split]. split; [done|]. split; [done|]. exists 0%nat. by split; [lia|].
Qed.

Lemma send_loop_phase data : phase (map send_step data) id (fun _ vs => vs = []) (send_loop C2_OK data P).
Proof.
  induction data as [|byte data IH]; cbn [send_loop]; [by apply phase_ret|].
  apply (phase_bind [send_step byte] (map send_step data) id id (fun _ vs => vs = [])).
  - by apply send_byte_phase.
  - cbn. intros a vs -> ->. exact IH.
  - cbn. intros a vs Ha ->. exists a. split; [|done]. destruct data; [done|]. by destruct a.
Qed.

Definition received (n idx : nat) (data : list Z) (r : c2_status_t * list Z) (vs : list Z) : Prop :=
  (length vs <= n)%nat /\ (r.1 = C2_OK -> length vs = n) /\
  r.2 = take idx data ++ map u8 vs ++ drop (idx + length vs) data.

Lemma received_none n idx data st : st <> C2_OK \/ n = 0%nat -> received n idx data (st, data) [].
Proof.
  intros H. split; [cbn; lia|]. split; [cbn; by intros; destruct H|]. cbn.
  by rewrite Nat.add_0_r, take_drop.
Qed.

Lemma received_cons n idx data r raw vs : (idx < length data)%nat ->
  received n (S idx) (<[idx := u8 raw]> data) r vs -> received (S n) idx data r (raw :: vs).
Proof.
  intros Hi (H1 & H2 & H3). split; [cbn; lia|]. split; [intros E; cbn; by rewrite H2|]. rewrite H3.
  rewrite (take_S_r _ _ (u8 raw)) by (by apply list_lookup_insert_eq).
  rewrite take_insert_ge, drop_insert_lt, <- app_assoc by lia. cbn.
  by replace (idx + S (length vs))%nat with (S (idx + length vs)) by lia.
Qed.

Lemma receive_loop_phase n idx data : (idx + n <= length data)%nat ->
  phase (receive_script n) fst (received n idx data) (receive_loop C2_OK n idx data P).
Proof.
  revert idx data. induction n as [|n IH]; intros idx data Hl; cbn [receive_loop receive_script c2_ok].
  - apply phase_ret. apply received_none. by right.
  - apply (phase_bind [receive_step (n =? 0)%nat] (receive_script n) fst fst _ (received (S n) idx data) _ _
             (receive_byte_phase (nth idx data 0) (n =? 0)%nat)).
    + intros [st b] vs Hst [(_ & raw & -> & Hb)|[Hbad _]]; cbn [fst snd] in *; [|done]. subst st b.
      intros h. eapply io_wp_mono; [apply IH; rewrite length_insert; lia|].
      intros r h' (l & k & -> & Hr & Hn & Hrel & Hk). exists l, k. split; [done|]. split; [done|].
      split; [done|]. split; [|done]. cbn [app]. apply received_cons; [lia|done].
    + intros [st b] vs Hst [[Hok _]|(_ & -> & Hb)]; cbn [fst snd] in *; [done|]. subst b.
      assert (<[idx := nth idx data 0]> data = data) as ->.
      { apply list_insert_id. destruct (lookup_lt_is_Some_2 data idx ltac:(lia)) as [x Hx].
        by rewrite nth_lookup, Hx. }
      exists (st, data). split; [destruct n; [done|by destruct st]|]. split; [done|].
      apply received_none. by left.
Qed.

(** ** Whole transfers *)

(** What a transfer with this script may do: it reached the [k]-th command, and [stop]
    tells whether a STOP followed. *)
Record transferred script st (k : nat) (stop : bool) l : Prop := {
  tr_prefix : (k <= length script)%nat;
  tr_commands : commands l = map step_command (take k script) ++ (if stop then [C2_I2C_CMD_STO] else []);
  tr_bytes : exists j, (k <= j <= S k)%nat /\ writes_to TXR l = omap step_byte (take j script);
  tr_ok : st = C2_OK -> k = length script /\ stop = true;
  tr_lost : st = C2_ERROR_ARBITRATION -> (k < length script)%nat -> stop = false;
  tr_bound : Z.of_nat (count_reads l) <= Z.of_nat (length script) * (2 * P + 2) + 7 * P + 5;
}.

(** The prologue reads two registers and stops at once unless the controller is ready. *)
Lemma begin_wp h :
  io_wp c2_i2c_begin h (fun st h' => exists l, h' = h ++ l /\ commands l = [] /\ writes_to TXR l = [] /\
    (count_reads l <= 2)%nat /\ reads_of RXR l = [] /\ st <> C2_ERROR_ARBITRATION).
Proof.
  unfold c2_i2c_begin, c2_i2c_read_status. io_step. io_step. io_step.
  { io_step. exists [Rd CTRL v]. by repeat split; cbn; auto with lia. }
  do 3 io_step. rewrite <- app_assoc. exists [Rd CTRL v; Rd SR v0].
  repeat split; cbn; auto with lia. by case_match.
Qed.

Lemma refused script st l : st <> C2_OK -> st <> C2_ERROR_ARBITRATION -> commands l = [] ->
  writes_to TXR l = [] -> (count_reads l <= 2)%nat -> transferred script st 0 false l.
Proof. intros H0 H1 H2 H3 H4. split; try done; try lia. exists 0%nat. by split; [lia|]. Qed.

(** A data phase between the prologue and the epilogue is a transfer. *)
Lemma phase_finish_wp {A} script (status : A -> c2_status_t) rel m h l0 :
  phase script status rel m -> commands l0 = [] -> writes_to TXR l0 = [] -> reads_of RXR l0 = [] ->
  (count_reads l0 <= 2)%nat ->
  io_wp (a ← m; st ← finish (status a) P; mret (a, st)) (h ++ l0) (fun r h' => exists l k stop,
    h' = h ++ l /\ transferred script r.2 k stop l /\ rel r.1 (reads_of RXR l) /\
    (r.2 = C2_OK -> status r.1 = C2_OK)).
Proof.
  intros Hm Hc0 Ht0 Hr0 Hn0. io_step. eapply io_wp_mono; [apply Hm|].
  intros a h' (l & k & -> & (Hk & Hc & j & Hj & Ht) & Hn & Hrel & Hok). io_step.
  eapply io_wp_mono; [apply finish_wp|].
  intros st h' (l2 & b & -> & (Hc2 & Ht2 & Hn2 & Hr2) & Hb & Hst & Hlost). io_step.
  exists (l0 ++ l ++ l2), k, b. rewrite <- !app_assoc. split; [done|].
  assert (st = C2_OK -> status a = C2_OK) as Hback
    by (intros E; destruct (decide (status a = C2_OK)); [done|]; by rewrite <- (Hst n)).
  split; [split|split; [by rewrite !reads_of_app, Hr0, Hr2, app_nil_r|done]].
  - done.
  - by rewrite !commands_app, Hc0, Hc, Hc2.
  - exists j. split; [done|]. by rewrite !writes_to_app, Ht0, Ht, Ht2, app_nil_r.
  - cbn. intros E. specialize (Hback E). auto.
  - cbn. intros E Hlt. destruct (decide (status a = C2_OK)) as [E'|E']; [rewrite (Hok E') in Hlt; lia|].
    rewrite (Hst E') in E. auto.
  - rewrite !count_reads_app. nia.
Qed.
End Scripts.

(** The scripts of the three transfers. *)
Definition write_script (address : Z) (data : list Z) : list bus_step :=
  start_step (2 * address) :: map send_step data.
Definition read_script (address : Z) (n : nat) : list bus_step :=
  start_step (2 * address + 1) :: receive_script n.

Section Transfers.
Context {d : Device i2c_reg}.
Variables (regs address P : Z).
Hypothesis Hregs : regs <> 0 /\ regs mod 4 = 0.
Hypothesis Haddress : 0 <= address <= 127.
Hypothesis HP : 0 < P.
Implicit Types (h l : list (access i2c_reg)).

Lemma transfer_accepted (data : list Z) : data <> [] ->
  bad_transfer regs address (Z.of_nat (length data)) P (Some data) = false.
Proof.
  intros Hd. destruct data as [|b data]; [done|].
  unfold bad_transfer, c2_i2c_regs_valid. change 3 with (2 ^ 2 - 1). rewrite land_mask by lia.
  change (2 ^ 2) with 4. destruct Hregs as [Hr ->].
  rewrite (proj2 (Z.eqb_neq regs 0)), Z.gtb_ltb, (proj2 (Z.ltb_ge 127 address)) by lia.
  rewrite (proj2 (Z.eqb_neq P 0)), (proj2 (Z.eqb_neq (Z.of_nat _) 0)) by (cbn; lia). done.
Qed.

Lemma address_write : u8 (Z.shiftl address 1) = 2 * address.
Proof. rewrite Z.shiftl_mul_pow2 by lia. rewrite u8_id; rlia. Qed.

Lemma address_read : u8 (Z.lor (Z.shiftl address 1) 1) = 2 * address + 1.
Proof. rewrite lor_shiftl_add by lia. rewrite u8_id; rlia. Qed.

Lemma start_phase byte :
  phase P [start_step byte] id (fun _ vs => vs = []) (c2_i2c_send_byte byte (Z.lor C2_I2C_CMD_STA C2_I2C_CMD_WR) P).
Proof. apply (send_byte_phase P); [lia|done]. Qed.

Lemma send_loop_skip st data : st <> C2_OK -> send_loop st data P = mret st.
Proof. destruct data; [done|]. by destruct st. Qed.

Lemma receive_loop_skip st n data : st <> C2_OK -> receive_loop st n 0 data P = mret (st, data).
Proof. destruct n; [done|]. by destruct st. Qed.

Lemma write_phase data : phase P (write_script address data) id (fun _ vs => vs = [])
  (result ← c2_i2c_send_byte (2 * address) (Z.lor C2_I2C_CMD_STA C2_I2C_CMD_WR) P; send_loop result data P).
Proof.
  apply (phase_bind P (Z.lt_le_incl 0 P HP) [start_step (2 * address)] (map send_step data) id id (fun _ vs => vs = [])).
  - apply start_phase.
  - cbn. intros a vs -> ->. apply send_loop_phase. lia.
  - cbn. intros a vs Ha ->. exists a. by rewrite send_loop_skip.
Qed.

Lemma read_phase (buffer : list Z) : phase P (read_script address (length buffer)) fst (received (length buffer) 0 buffer)
  (result ← c2_i2c_send_byte (2 * address + 1) (Z.lor C2_I2C_CMD_STA C2_I2C_CMD_WR) P;
   receive_loop result (length buffer) 0 buffer P).
Proof.
  apply (phase_bind P (Z.lt_le_incl 0 P HP) [start_step (2 * address + 1)] (receive_script _) id fst (fun _ vs => vs = [])).
  - apply start_phase.
  - cbn. intros a vs -> ->. apply receive_loop_phase; lia.
  - cbn. intros a vs Ha ->. exists (a, buffer). rewrite receive_loop_skip by done. split; [done|]. split; [done|].
    apply received_none. by left.
Qed.

Lemma write_read_phase data (buffer : list Z) :
  phase P (write_script address data ++ read_script address (length buffer)) fst (received (length buffer) 0 buffer)
  (result ← (result ← c2_i2c_send_byte (2 * address) (Z.lor C2_I2C_CMD_STA C2_I2C_CMD_WR) P; send_loop result data P);
   result ← (if c2_ok result then c2_i2c_send_byte (2 * address + 1) (Z.lor C2_I2C_CMD_STA C2_I2C_CMD_WR) P
             else mret result);
   receive_loop result (length buffer) 0 buffer P).
Proof.
  apply (phase_bind P (Z.lt_le_incl 0 P HP) (write_script address data) (read_script address _) id fst (fun _ vs => vs = [])).
  - apply write_phase.
  - cbn. intros a vs -> ->. apply read_phase.
  - cbn. intros a vs Ha ->. exists (a, buffer). split; [|by split; [|apply received_none; left]].
    destruct a; try done; by destruct buffer.
Qed.
End Transfers.

Section TransferRules.
Context {d : Device i2c_reg}.
Variables (regs address P : Z).
Hypothesis Hregs : regs <> 0 /\ regs mod 4 = 0.
Hypothesis Haddress : 0 <= address <= 127.
Hypothesis HP : 0 < P.
Implicit Types (h l : list (access i2c_reg)).

(** The prologue, then a phase and the epilogue. *)
Lemma guarded_phase_wp {A B} script (status : A -> c2_status_t) rel m (g : A * c2_status_t -> B) (refuse : c2_status_t -> B) h
    (Q : B -> list (access i2c_reg) -> Prop) :
  phase P script status rel m ->
  (forall st l, st <> C2_OK -> transferred P script st 0 false l -> Q (refuse st) (h ++ l)) ->
  (forall a st k stop l, transferred P script st k stop l -> rel a (reads_of RXR l) ->
     (st = C2_OK -> status a = C2_OK) -> Q (g (a, st)) (h ++ l)) ->
  io_wp (result ← c2_i2c_begin;
         if negb (c2_ok result) then mret (refuse result)
         else r ← (a ← m; st ← finish (status a) P; mret (a, st)); mret (g r)) h Q.
Proof.
  intros Hm Hrefuse Hdone. io_step. eapply io_wp_mono; [apply begin_wp|].
  intros st h' (l0 & -> & Hc0 & Ht0 & Hn0 & Hr0 & Hna). io_step.
  - io_step. assert (st <> C2_OK) by (by intros ->). apply Hrefuse; [done|]. apply refused; done || lia.
  - io_step. eapply io_wp_mono; [apply (phase_finish_wp P ltac:(lia) script status rel m h l0); done|].
    intros [a st'] h' (l & k & stop & -> & Htr & Hrel & Hok). io_step. by eapply Hdone.
Qed.

Lemma master_write_wp data h : data <> [] ->
  io_wp (c2_i2c_master_write regs address (Some data) (Z.of_nat (length data)) P) h (fun st h' =>
    exists l k stop, h' = h ++ l /\ transferred P (write_script address data) st k stop l).
Proof.
  intros Hd. unfold c2_i2c_master_write. rewrite transfer_accepted, address_write by done.
  change (default [] (Some data)) with data. rewrite Nat2Z.id, firstn_all.
  pose proof (guarded_phase_wp (write_script address data) id (fun _ vs => vs = []) _ snd id h
    (fun st h' => exists l k stop, h' = h ++ l /\ transferred P (write_script address data) st k stop l)
    (write_phase address P HP data)) as H.
  ospecialize (H _ _); [by eauto 10|by eauto 10|].
  unfold io_wp in *. rewrite exec_bind in *. revert H. cbn beta. destruct (negb _); [done|].
  rewrite !exec_bind. done.
Qed.

Lemma received_all (buffer : list Z) r vs : received (length buffer) 0 buffer r vs -> r.1 = C2_OK ->
  r.2 = map u8 vs /\ length r.2 = length buffer.
Proof.
  intros (Hle & Hn & Hr) E. specialize (Hn E).
  assert (r.2 = map u8 vs) as -> by (rewrite Hr, drop_ge by (cbn; lia); apply app_nil_r).
  by rewrite length_map.
Qed.

Lemma master_read_wp buffer h : buffer <> [] ->
  io_wp (c2_i2c_master_read regs address (Some buffer) (Z.of_nat (length buffer)) P) h (fun r h' =>
    exists l k stop out, h' = h ++ l /\ r.2 = Some out /\
      transferred P (read_script address (length buffer)) r.1 k stop l /\
      (r.1 = C2_OK -> out = map u8 (reads_of RXR l) /\ length out = length buffer)).
Proof.
  intros Hd. unfold c2_i2c_master_read. rewrite transfer_accepted, address_read by done.
  change (default [] (Some buffer)) with buffer. rewrite Nat2Z.id.
  pose proof (guarded_phase_wp (read_script address (length buffer)) fst (received (length buffer) 0 buffer) _
    (fun r => (r.2, Some r.1.2)) (fun st => (st, Some buffer)) h
    (fun r h' => exists l k stop out, h' = h ++ l /\ r.2 = Some out /\
      transferred P (read_script address (length buffer)) r.1 k stop l /\
      (r.1 = C2_OK -> out = map u8 (reads_of RXR l) /\ length out = length buffer))
    (read_phase address P HP buffer)) as H.
  ospecialize (H _ _).
  { intros st l Hst Ht. exists l, 0%nat, false, buffer. by do 3 (split; [done|]). }
  { intros a st k stop l Ht Hrel Hok. exists l, k, stop, a.2. do 3 (split; [done|]).
    intros E. apply received_all; [done|by apply Hok]. }
  unfold io_wp in *. rewrite exec_bind in *. revert H. cbn beta. destruct (negb _); [done|].
  rewrite !exec_bind. done.
Qed.

Lemma master_write_read_wp data buffer h : data <> [] -> buffer <> [] ->
  io_wp (c2_i2c_master_write_read regs address (Some data) (Z.of_nat (length data))
           (Some buffer) (Z.of_nat (length buffer)) P) h (fun r h' =>
    exists l k stop out, h' = h ++ l /\ r.2 = Some out /\
      transferred P (write_script address data ++ read_script address (length buffer)) r.1 k stop l /\
      (r.1 = C2_OK -> out = map u8 (reads_of RXR l) /\ length out = length buffer)).
Proof.
  intros Hd Hb. unfold c2_i2c_master_write_read.
  rewrite !transfer_accepted, address_read, address_write by done. cbn [orb].
  change (default [] (Some buffer)) with buffer. change (default [] (Some data)) with data.
  rewrite !Nat2Z.id, firstn_all.
  pose proof (guarded_phase_wp (write_script address data ++ read_script address (length buffer)) fst
    (received (length buffer) 0 buffer) _
    (fun r => (r.2, Some r.1.2)) (fun st => (st, Some buffer)) h
    (fun r h' => exists l k stop out, h' = h ++ l /\ r.2 = Some out /\
      transferred P (write_script address data ++ read_script address (length buffer)) r.1 k stop l /\
      (r.1 = C2_OK -> out = map u8 (reads_of RXR l) /\ length out = length buffer))
    (write_read_phase address P HP data buffer)) as H.
  ospecialize (H _ _).
  { intros st l Hst Ht. exists l, 0%nat, false, buffer. by do 3 (split; [done|]). }
  { intros a st k stop l Ht Hrel Hok. exists l, k, stop, a.2. do 3 (split; [done|]).
    intros E. apply received_all; [done|by apply Hok]. }
  unfold io_wp in *. rewrite exec_bind in *. revert H. cbn beta. destruct (negb _); [done|].
  rewrite !exec_bind. done.
Qed.
End TransferRules.

(** ** Properties *)


(** A master read and a combined write-then-read, against every device: the bus sees a prefix
    of the script, with a repeated START and the read address between the phases and every byte
    but the last acknowledged, and at most one STOP, none after a bus lost before the end; OK
    means that the whole script ran and that the buffer holds the received bytes, in order. *)
Theorem i2c_master_read_spec (d : Device i2c_reg) regs address (prologue buffer : list Z) P h st out h' :
  regs <> 0 /\ regs mod 4 = 0 -> 0 <= address <= 127 -> 0 < P -> buffer <> [] ->
  let n := Z.of_nat (length buffer) in
  exec (match prologue with
        | [] => c2_i2c_master_read regs address (Some buffer) n P
        | _ => c2_i2c_master_write_read regs address (Some prologue) (Z.of_nat (length prologue)) (Some buffer) n P
        end) h = ((st, out), h') ->
  exists l k (stop : bool) bytes, h' = h ++ l /\ out = Some bytes /\
    let script := match prologue with [] => @nil bus_step | _ => start_step (2 * address) :: map send_step prologue end
                  ++ start_step (2 * address + 1) :: receive_script (length buffer) in
    (k <= length script)%nat /\
    commands l = map step_command (take k script) ++ (if stop then [C2_I2C_CMD_STO] else []) /\
    (st = C2_OK -> k = length script /\ stop = true /\
                   bytes = map u8 (reads_of RXR l) /\ length bytes = length buffer) /\
    (st = C2_ERROR_ARBITRATION -> (k < length script)%nat -> stop = false) /\
    Z.of_nat (count_reads l) <= Z.of_nat (length script) * (2 * P + 2) + 7 * P + 5.
Proof.
  intros Hr Ha HP Hb n E. destruct prologue as [|b0 prologue].
  - destruct (io_wp_exec _ _ _ _ _ (master_read_wp regs address P Hr Ha HP buffer h Hb) E)
      as (l & k & stop & bytes & -> & Eo & [H1 H2 H3 H4 H5 H6] & Hok).
    exists l, k, stop, bytes. cbn in Eo. subst out. do 4 (split; [done|]). split; [|by split].
    intros Est. destruct (H4 Est), (Hok Est). auto.
  - destruct (io_wp_exec _ _ _ _ _ (master_write_read_wp regs address P Hr Ha HP (b0 :: prologue) buffer h ltac:(done) Hb) E)
      as (l & k & stop & bytes & -> & Eo & [H1 H2 H3 H4 H5 H6] & Hok).
    exists l, k, stop, bytes. cbn in Eo. subst out. do 4 (split; [done|]). split; [|by split].
    intros Est. destruct (H4 Est), (Hok Est). auto.
Qed.

(** The clock form of the configuration: the divider is the smallest that keeps the bus clock,
    clock_hz / (5 * divider), at or below the request; the controller is left disabled. *)
Lemma i2c_divider_spec clock_hz bus_hz : is_u32 clock_hz -> is_u32 bus_hz -> 0 < clock_hz -> 0 < bus_hz ->
  let divider := i2c_divider clock_hz bus_hz in
  1 <= divider <= 4294967296 /\ (divider - 1) * (5 * bus_hz) < clock_hz <= divider * (5 * bus_hz).
Proof.
  intros Hc Hb Hc0 Hb0. unfold i2c_divider. rewrite (u64_id (bus_hz * 5)), (u64_id (clock_hz + _)), u64_id by rlia.
  set (D := bus_hz * 5). assert (5 <= D) by (unfold D; lia).
  pose proof (Z.div_mod (clock_hz + D - 1) D ltac:(lia)). pose proof (Z.mod_pos_bound (clock_hz + D - 1) D ltac:(lia)).
  set (q := (clock_hz + D - 1) / D) in *. assert (0 < q) by nia.
  rewrite (proj2 (Z.eqb_neq q 0)) by lia. assert (q <= 4294967296) by (unfold is_u32 in *; nia).
  replace (5 * bus_hz) with D by (unfold D; lia). split; [lia|]. nia.
Qed.

(** Configuring from clock rates on an idle controller disables it and programs the smallest
    divider whose bus clock does not exceed the request; a request that needs more than 65536 is
    rejected, and a busy controller refused, without a write. *)
Theorem i2c_configure_spec (d : Device i2c_reg) regs clock_hz bus_hz old h st out h' :
  regs <> 0 /\ regs mod 4 = 0 -> is_u32 clock_hz -> is_u32 bus_hz -> 0 < clock_hz -> 0 < bus_hz ->
  exec (c2_i2c_configure regs clock_hz bus_hz (Some old)) h = ((st, out), h') ->
  exists l, h' = h ++ l /\
    (st <> C2_OK -> out = Some old /\ writes_to CTRL l = [] /\ writes_to PSCR l = []) /\
    (st = C2_OK -> exists p c, out = Some p /\ writes_to PSCR l = [p] /\
       writes_to CTRL l = [Z.land c C2_I2C_CTRL_IEN] /\
       0 <= p <= 65535 /\ p * (5 * bus_hz) < clock_hz <= (p + 1) * (5 * bus_hz)) /\
    (st = C2_ERROR_INVALID_ARGUMENT <-> clock_hz > 65536 * (5 * bus_hz)).
Proof.
  intros [Hr Hr4] Hc Hb Hc0 Hb0 E. destruct (i2c_divider_spec clock_hz bus_hz Hc Hb Hc0 Hb0) as [Hq Hqc].
  assert (c2_i2c_regs_valid regs = true) as Hvalid.
  { unfold c2_i2c_regs_valid. change 3 with (2 ^ 2 - 1). rewrite land_mask by lia. change (2 ^ 2) with 4.
    by rewrite Hr4, (proj2 (Z.eqb_neq regs 0)). }
  unfold c2_i2c_configure in E. rewrite Hvalid, (proj2 (Z.eqb_neq clock_hz 0)), (proj2 (Z.eqb_neq bus_hz 0)), Z.gtb_ltb in E by lia.
  cbn [negb orb] in E. set (q := i2c_divider clock_hz bus_hz) in *.
  destruct (Z.ltb_spec 65536 q).
  - injection E as <- <- <-. exists []. rewrite app_nil_r. split; [done|]. split; [done|]. split; [done|].
    split; [nia|done].
  - rewrite (u64_id (q - 1)), (u32_id (q - 1)) in E by rlia. rewrite exec_bind in E. unfold c2_i2c_configure_prescaler in E.
    rewrite Hvalid, Z.gtb_ltb, (proj2 (Z.ltb_ge _ _)) in E by (unfold C2_I2C_PRESCALER_MAX; lia). cbn in E.
    destruct (bit_set _ _); cbn in E.
    + injection E as <- <- <-. exists [Rd SR (dev_read h SR)]. split; [done|]. split; [done|].
      split; [done|]. split; [done|nia].
    + injection E as <- <- <-. eexists [Rd SR _; Rd CTRL _; Wr CTRL _; Wr PSCR _]. rewrite <- !app_assoc.
      split; [done|]. split; [done|]. split; [|split; [done|nia]]. intros _. eexists (q - 1), _.
      assert (u16 (q - 1) = q - 1) as -> by (unfold u16; rlia || apply Z.mod_small; lia).
      do 3 (split; [done|]). split; [lia|]. replace (q - 1 + 1) with q by lia. done.
Qed.

(** The header promises that a STOP is only attempted when no lost arbitration is observed.  The
    wait for IF to clear discards the other status bits it reads, so a loss that shows up exactly
    there does not stop the driver: here it writes STO right after reading AL. *)
Theorem i2c_stop_after_observed_loss :
  exists (d : Device i2c_reg) l1 l2 v, bit_set v C2_I2C_STATUS_AL = true /\
    exec (c2_i2c_master_write 4 1 (Some [2]) 1 2) [] =
      (C2_ERROR_ARBITRATION, l1 ++ [Rd SR v; Wr CMD C2_I2C_CMD_STO] ++ l2).
Proof.
  exists (scripted_device [128; 0; 0; 1; 1; 0; 1; 1; 32; 32; 32]).
  exists [Rd CTRL 128; Rd SR 0; Wr TXR 2; Rd SR 0; Wr CMD 144; Rd SR 1; Wr TXR 2; Rd SR 1; Wr CMD 1;
          Rd SR 0; Wr CMD 16; Rd SR 1; Rd SR 1; Wr CMD 1], [Rd SR 32; Rd SR 32], 32.
  split; [done|]. by vm_compute.
Qed.

(** ** Witnesses *)

Section Witnesses.
(** A slave that acknowledges: one command, then IF acknowledged before the next. *)
Definition sample_answers : list Z := [128; 0; 0; 1; 1; 0; 1; 1; 0; 1; 0].


Definition sample_read_answers : list Z := [128; 0; 0; 1; 1; 0; 1; 90; 1; 0; 1; 0].

Lemma i2c_master_read_witness :
  exists l, exec (d:=scripted_device sample_read_answers) (c2_i2c_master_read 4 1 (Some [0]) 1 2) []
    = ((C2_OK, Some [90]), l) /\ commands l = [144; 32; 64].
Proof.
  assert (exec (d:=scripted_device sample_read_answers) (c2_i2c_master_read 4 1 (Some [0]) 1 2) [] =
    ((C2_OK, Some [90]), (exec (d:=scripted_device sample_read_answers) (c2_i2c_master_read 4 1 (Some [0]) 1 2) []).2)) as E
    by by vm_compute.
  destruct (i2c_master_read_spec (scripted_device sample_read_answers) 4 1 [] [0] 2 [] _ _ _ ltac:(by split) ltac:(lia)
    ltac:(lia) ltac:(done) E) as (l & k & stop & bytes & El & Eb & _ & Hc & Hok & _).
  destruct (Hok eq_refl) as (-> & -> & _ & _). eexists. split; [exact E|]. rewrite El. exact Hc.
Defined.

Lemma i2c_configure_witness :
  exists l, exec (d:=scripted_device [0; 192]) (c2_i2c_configure 4 1000000 90000 (Some 7)) []
    = ((C2_OK, Some 2), l) /\ writes_to CTRL l = [64].
Proof.
  assert (exec (d:=scripted_device [0; 192]) (c2_i2c_configure 4 1000000 90000 (Some 7)) [] =
    ((C2_OK, Some 2), [Rd SR 0; Rd CTRL 192; Wr CTRL 64; Wr PSCR 2])) as E by by vm_compute.
  destruct (i2c_configure_spec (scripted_device [0; 192]) 4 1000000 90000 7 [] _ _ _ ltac:(by split) ltac:(rlia)
    ltac:(rlia) ltac:(lia) ltac:(lia) E) as (l & El & _ & Hok & _).
  destruct (Hok eq_refl) as (p & c & _ & _ & Hw & _). eexists. split; [exact E|]. rewrite El. cbn [app].
  cbn in El. subst l. reflexivity.
Defined.
End Witnesses.
