(* ===== verification/C2Qspi.v ===== *)
(** * QSPI controller: vendor/openecos/starrysky/c2/src/c2_qspi.c

    Two status conventions: the FIFO path waits for bit 0 of STATUS to clear,
    the raw path for a caller-chosen pattern.  A poll budget is shared by all
    the waits of a call.  [reg = false] is a NULL register block. *)
From S2P Require Import Prelude MachineInt Mmio.

Inductive qspi_reg : Type := STATUS | CLKDIV | CMD | ADR | LEN | DUM | TXFIFO | RXFIFO | INTCFG.
#[export] Instance qspi_reg_eq : EqDecision qspi_reg.
Proof. solve_decision. Defined.

Definition C2_QSPI_STATUS_SDK_BUSY_MASK : Z := 1.
Definition C2_QSPI_CONTROL_RESET_ASSERT : Z := 16.
Definition C2_QSPI_RAW_PSRAM_TRIGGER : Z := 258.
Definition C2_QSPI_RAW_PSRAM_DONE : Z := 1.
Definition C2_QSPI_RAW_PSRAM_BYTE_LENGTH : Z := 524288.
Definition C2_QSPI_RAW_WRITE_CMD : Z := 1.
Definition C2_QSPI_RAW_WRITE_ADR : Z := 2.
Definition C2_QSPI_RAW_WRITE_LEN : Z := 4.
Definition C2_QSPI_RAW_WRITE_DUM : Z := 8.
Definition C2_QSPI_RAW_WRITE_TXFIFO : Z := 16.
Definition C2_QSPI_RAW_WRITE_ALL_MASK : Z := 31.

(** The enumerators are the CMD words 1..4 << 16. *)
Definition c2_qspi_cs_valid (cs : Z) : bool :=
  (cs =? 65536) || (cs =? 131072) || (cs =? 196608) || (cs =? 262144).

(** The status and what is left of the budget. *)
Fixpoint c2_qspi_poll_sdk_idle (remaining : nat) : io qspi_reg (c2_status_t * nat) :=
  match remaining with
  | O => mret (C2_ERROR_TIMEOUT, O)
  | S remaining =>
      status ← c2_mmio_read32 STATUS;
      (if negb (bit_set status C2_QSPI_STATUS_SDK_BUSY_MASK) then mret (C2_OK, remaining)
       else c2_qspi_poll_sdk_idle remaining)
  end.

Definition c2_qspi_init (reg : bool) (clkdiv : Z) : io qspi_reg c2_status_t :=
  if negb reg then mret C2_ERROR_INVALID_ARGUMENT
  else
    c2_mmio_write32 CLKDIV clkdiv;; c2_mmio_write32 CMD 0;; c2_mmio_write32 ADR 0;;
    c2_mmio_write32 LEN 0;; mret C2_OK.

Definition c2_qspi_set_clkdiv (reg : bool) (clkdiv : Z) : io qspi_reg c2_status_t :=
  if negb reg then mret C2_ERROR_INVALID_ARGUMENT else c2_mmio_write32 CLKDIV clkdiv;; mret C2_OK.

Definition c2_qspi_reset (reg : bool) : io qspi_reg c2_status_t :=
  if negb reg then mret C2_ERROR_INVALID_ARGUMENT
  else c2_mmio_write32 STATUS C2_QSPI_CONTROL_RESET_ASSERT;; c2_mmio_write32 STATUS 0;; mret C2_OK.

Definition c2_qspi_select (reg : bool) (cs poll_limit : Z) : io qspi_reg c2_status_t :=
  if negb reg || negb (c2_qspi_cs_valid cs) then mret C2_ERROR_INVALID_ARGUMENT
  else
    r ← c2_qspi_poll_sdk_idle (Z.to_nat poll_limit);
    (if negb (c2_ok r.1) then mret r.1 else c2_mmio_write32 CMD cs;; mret C2_OK).

Definition c2_qspi_read_status (reg : bool) (status : option Z) : io qspi_reg (c2_status_t * option Z) :=
  match reg, status with
  | true, Some _ => v ← c2_mmio_read32 STATUS; mret (C2_OK, Some v)
  | _, _ => fail C2_ERROR_INVALID_ARGUMENT status
  end.

Definition c2_qspi_wait_sdk_idle (reg : bool) (poll_limit : Z) : io qspi_reg c2_status_t :=
  if negb reg then mret C2_ERROR_INVALID_ARGUMENT
  else r ← c2_qspi_poll_sdk_idle (Z.to_nat poll_limit); mret r.1.

Definition c2_qspi_fifo_write_word (reg : bool) (word poll_limit : Z) : io qspi_reg c2_status_t :=
  if negb reg then mret C2_ERROR_INVALID_ARGUMENT
  else
    r ← c2_qspi_poll_sdk_idle (Z.to_nat poll_limit);
    (if negb (c2_ok r.1) then mret r.1 else c2_mmio_write32 TXFIFO word;; mret C2_OK).

Definition c2_qspi_fifo_read_word_raw (reg : bool) (word : option Z) : io qspi_reg (c2_status_t * option Z) :=
  match reg, word with
  | true, Some _ => v ← c2_mmio_read32 RXFIFO; mret (C2_OK, Some v)
  | _, _ => fail C2_ERROR_INVALID_ARGUMENT word
  end.

(** The status, the bytes submitted and the budget left when the loop ends. *)
Fixpoint qspi_write_loop (data : list Z) (remaining : nat) (submitted : Z)
    : io qspi_reg (c2_status_t * Z * nat) :=
  match data with
  | [] => mret (C2_OK, submitted, remaining)
  | byte :: data =>
      r ← c2_qspi_poll_sdk_idle remaining;
      (if negb (c2_ok r.1) then mret (r.1, submitted, r.2)
       else c2_mmio_write32 TXFIFO byte;; qspi_write_loop data r.2 (submitted + 1))
  end.

Definition c2_qspi_write_bytes (reg : bool) (data : option (list Z)) (length poll_limit : Z)
    (bytes_submitted : option Z) : io qspi_reg (c2_status_t * option Z) :=
  let report n := match bytes_submitted with Some _ => Some n | None => None end in
  if negb reg || (negb (length =? 0) && match data with None => true | Some _ => false end)
  then mret (C2_ERROR_INVALID_ARGUMENT, report 0)
  else if length =? 0 then mret (C2_OK, report 0)
  else if (length >? UINT32_MAX - 1) || (poll_limit <? length + 1)
  then mret (C2_ERROR_INVALID_ARGUMENT, report 0)
  else
    r ← qspi_write_loop (take (Z.to_nat length) (default [] data)) (Z.to_nat poll_limit) 0;
    let '(status, submitted, remaining) := r in
    (if negb (c2_ok status) then mret (status, report submitted)
     else r ← c2_qspi_poll_sdk_idle remaining; mret (r.1, report submitted)).

Record c2_qspi_raw_transaction : Type := mk_transaction {
  write_mask : Z; command_word : Z; address_word : Z; length_word : Z; dummy_word : Z; tx_word : Z;
  trigger_word : Z; completion_mask : Z; completion_value : Z }.

Definition write_if (b : bool) (r : qspi_reg) (v : Z) : io qspi_reg unit :=
  if b then c2_mmio_write32 r v else mret tt.

(** The completion wait; [status] is the last word sampled. *)
Fixpoint raw_poll (polls_left : nat) (t : c2_qspi_raw_transaction) (status : Z) : io qspi_reg (c2_status_t * Z) :=
  match polls_left with
  | O => mret (C2_ERROR_TIMEOUT, status)
  | S polls_left =>
      status ← c2_mmio_read32 STATUS;
      (if Z.land status (completion_mask t) =? Z.land (completion_value t) (completion_mask t)
       then mret (C2_OK, status)
       else raw_poll polls_left t status)
  end.

Definition c2_qspi_transaction_raw (reg : bool) (transaction : option c2_qspi_raw_transaction)
    (poll_limit : Z) (last_status : option Z) : io qspi_reg (c2_status_t * option Z) :=
  let report n := match last_status with Some _ => Some n | None => None end in
  match transaction with
  | None => mret (C2_ERROR_INVALID_ARGUMENT, report 0)
  | Some t =>
      if negb reg || (poll_limit =? 0) || (completion_mask t =? 0) ||
         bit_set (write_mask t) (u32 (Z.lnot C2_QSPI_RAW_WRITE_ALL_MASK))
      then mret (C2_ERROR_INVALID_ARGUMENT, report 0)
      else
        write_if (bit_set (write_mask t) C2_QSPI_RAW_WRITE_CMD) CMD (command_word t);;
        write_if (bit_set (write_mask t) C2_QSPI_RAW_WRITE_ADR) ADR (address_word t);;
        write_if (bit_set (write_mask t) C2_QSPI_RAW_WRITE_LEN) LEN (length_word t);;
        write_if (bit_set (write_mask t) C2_QSPI_RAW_WRITE_DUM) DUM (dummy_word t);;
        write_if (bit_set (write_mask t) C2_QSPI_RAW_WRITE_TXFIFO) TXFIFO (tx_word t);;
        c2_mmio_write32 STATUS (trigger_word t);;
        r ← raw_poll (Z.to_nat poll_limit) t 0;
        mret (r.1, report r.2)
  end.

(** ** The FIFO protocol

    A byte enters the FIFO right after a status read with the busy bit clear;
    a completed call ends with one more such read. *)

Definition busy (s : Z) : bool := bit_set s C2_QSPI_STATUS_SDK_BUSY_MASK.

Inductive fifo_trace : list (access qspi_reg) -> list Z -> nat -> bool -> Prop :=
| fifo_nil : fifo_trace [] [] 0 false
| fifo_idle s : busy s = false -> fifo_trace [Rd STATUS s] [] 1 true
| fifo_busy s l bytes polls fin : busy s = true ->
    fifo_trace l bytes polls fin -> fifo_trace (Rd STATUS s :: l) bytes (S polls) fin
| fifo_sent s byte l bytes polls fin : busy s = false ->
    fifo_trace l bytes polls fin -> fifo_trace (Rd STATUS s :: Wr TXFIFO byte :: l) (byte :: bytes) (S polls) fin.

Section Fifo.
Context {d : Device qspi_reg}.
Implicit Types (h l : list (access qspi_reg)).

(** A wait that does not end: only busy reads. *)
Definition busy_reads l : Prop := Forall (fun e => exists s, e = Rd STATUS s /\ busy s = true) l.

Lemma busy_prefix l l2 bytes k fin : busy_reads l ->
  fifo_trace l2 bytes k fin -> fifo_trace (l ++ l2) bytes (length l + k) fin.
Proof. induction 1 as [|e l (s & -> & Hs) _ IH]; intros H2; [done|]. cbn. by apply fifo_busy, IH. Qed.

Lemma poll_wp remaining h :
  io_wp (c2_qspi_poll_sdk_idle remaining) h (fun r h' => exists l,
    busy_reads l /\
    ((r.1 = C2_OK /\ exists s, busy s = false /\ h' = h ++ l ++ [Rd STATUS s] /\ (length l + 1 + r.2 = remaining)%nat) \/
     (r.1 = C2_ERROR_TIMEOUT /\ h' = h ++ l /\ length l = remaining /\ r.2 = 0%nat))).
Proof.
  revert h. induction remaining as [|remaining IH]; intros h; cbn [c2_qspi_poll_sdk_idle].
  - io_step. exists []. split; [by constructor|]. right. by rewrite app_nil_r.
  - io_step. io_step. io_step; zbool.
    + io_step. exists []. split; [by constructor|]. left. split; [done|]. exists v. cbn. auto with lia.
    + eapply io_wp_mono; [apply IH|]. intros [st rem] h' (l & Hl & Hr). cbn [fst snd] in *.
      exists (Rd STATUS v :: l). split; [constructor; eauto|]. rewrite <- !app_assoc in Hr. cbn [length app] in *.
      destruct Hr as [(-> & s & Hs & -> & Hn)|(-> & -> & Hn & ->)]; [left|right; by rewrite Hn].
      split; [done|]. exists s. rewrite <- app_assoc. auto with lia.
Qed.

Lemma qspi_write_loop_wp data remaining submitted h :
  io_wp (qspi_write_loop data remaining submitted) h (fun r h' => exists l n polls,
    h' = h ++ l /\ fifo_trace l (take n data) polls false /\ (n <= length data)%nat /\
    r.1.2 = submitted + Z.of_nat n /\ (polls + r.2 = remaining)%nat /\
    (r.1.1 = C2_OK /\ n = length data \/ r.1.1 = C2_ERROR_TIMEOUT /\ r.2 = 0%nat)).
Proof.
  revert remaining submitted h. induction data as [|byte data IH]; intros remaining submitted h; cbn [qspi_write_loop].
  - io_step. exists [], 0%nat, 0%nat. rewrite app_nil_r, Z.add_0_r. repeat split; auto using fifo_nil.
  - io_step. eapply io_wp_mono; [apply poll_wp|].
    intros [st rem] h' (l & Hl & [(-> & s & Hs & -> & Hn)|(-> & -> & Hn & ->)]); cbn [fst snd c2_ok negb] in *.
    + do 2 io_step. eapply io_wp_mono; [apply IH|].
      intros [[st2 m] rem2] h' (l2 & n & polls & -> & Ht & Hle & Hm & Hp & Hst). cbn [fst snd] in *.
      exists (l ++ Rd STATUS s :: Wr TXFIFO byte :: l2), (S n), (length l + S polls)%nat.
      rewrite <- !app_assoc. split; [done|]. cbn [take length].
      split; [by apply busy_prefix, fifo_sent|]. split; [lia|]. split; [lia|]. split; [lia|].
      destruct Hst as [[-> ->]|[-> ->]]; [left|right]; auto.
    + io_step. exists l, 0%nat, (length l). split; [done|].
      split; [rewrite <- (app_nil_r l) at 1; rewrite <- (Nat.add_0_r (length l)); by apply busy_prefix, fifo_nil|].
      cbn [fst snd]. split; [lia|]. split; [lia|]. split; [lia|]. by right.
Qed.

Lemma fifo_trace_app l1 b1 k1 l2 b2 k2 fin :
  fifo_trace l1 b1 k1 false -> fifo_trace l2 b2 k2 fin -> fifo_trace (l1 ++ l2) (b1 ++ b2) (k1 + k2) fin.
Proof.
  intros H1 H2. remember false as f eqn:Ef. induction H1 as [|s Hs|s l b k f' Hs H1 IH|s x l b k f' Hs H1 IH]; try done;
    cbn; [apply fifo_busy|apply fifo_sent]; auto.
Qed.

Lemma busy_only l : busy_reads l -> fifo_trace l [] (length l) false.
Proof.
  intros Hl. pose proof (busy_prefix l [] [] 0 false Hl fifo_nil) as H.
  by rewrite app_nil_r, Nat.add_0_r in H.
Qed.

Definition submitted_ok data poll_limit h (r : c2_status_t * option Z) h' : Prop := exists n l polls,
  r.2 = Some n /\ h' = h ++ l /\ fifo_trace l (take (Z.to_nat n) data) polls (c2_ok r.1) /\
  0 <= n <= Z.of_nat (length data) /\ Z.of_nat polls <= poll_limit /\
  (r.1 = C2_OK /\ n = Z.of_nat (length data) \/ r.1 = C2_ERROR_TIMEOUT /\ Z.of_nat polls = poll_limit).

Lemma submit_wp data poll_limit h : 0 <= poll_limit ->
  io_wp (r ← qspi_write_loop data (Z.to_nat poll_limit) 0;
         let '(status, submitted, remaining) := r in
         (if negb (c2_ok status) then mret (status, Some submitted)
          else r ← c2_qspi_poll_sdk_idle remaining; mret (r.1, Some submitted))) h
    (submitted_ok data poll_limit h).
Proof.
  intros Hp. io_step. eapply io_wp_mono; [apply qspi_write_loop_wp|].
  intros [[st1 m] rem] h1 (l & k & polls & -> & Ht & Hk & Hm & Hrem & Hst). cbn [fst snd] in *.
  assert (m = Z.of_nat k) as -> by lia. destruct Hst as [[-> ->]|[-> ->]]; cbn [c2_ok negb].
  - io_step. eapply io_wp_mono; [apply poll_wp|]. rewrite firstn_all in Ht.
    intros [st2 rem2] h2 (l2 & Hl2 & Hr2); cbn [fst snd] in Hr2.
    destruct Hr2 as [(-> & s & Hs & -> & Hn)|(-> & -> & Hn & ->)]; io_step;
      exists (Z.of_nat (length data)); cbn [fst snd c2_ok]; rewrite Nat2Z.id, firstn_all, <- !app_assoc.
    + exists (l ++ l2 ++ [Rd STATUS s]), (polls + (length l2 + 1))%nat. do 2 (split; [done|]).
      split; [replace data with (data ++ []) by apply app_nil_r; eapply fifo_trace_app, busy_prefix, fifo_idle; done|]. split; [lia|]. split; [lia|]. by left.
    + exists (l ++ l2), (polls + length l2)%nat. do 2 (split; [done|]).
      split; [replace data with (data ++ []) by apply app_nil_r; eapply fifo_trace_app, busy_only; done|]. split; [lia|]. split; [lia|]. right. split; [done|lia].
  - io_step. exists (Z.of_nat k), l, polls. cbn [fst snd c2_ok]. rewrite Nat2Z.id. do 3 (split; [done|]).
    split; [lia|]. split; [lia|]. right. split; [done|lia].
Qed.

(** A FIFO write against every device: each byte enters the FIFO right after a status read
    with the busy bit clear, the bytes submitted are exactly the reported prefix of the buffer,
    all the waits together make at most poll_limit reads, OK means that every byte was
    submitted and the controller seen idle again, and TIMEOUT that the budget is spent; a
    budget that cannot suffice is refused before any access. *)
Theorem qspi_write_bytes_spec data poll_limit h st n h' :
  data <> [] -> Z.of_nat (length data) <= UINT32_MAX - 1 -> 0 <= poll_limit ->
  exec (c2_qspi_write_bytes true (Some data) (Z.of_nat (length data)) poll_limit (Some 0)) h = ((st, Some n), h') ->
  (poll_limit <= Z.of_nat (length data) -> st = C2_ERROR_INVALID_ARGUMENT /\ n = 0 /\ h' = h) /\
  (Z.of_nat (length data) < poll_limit -> exists l polls,
     h' = h ++ l /\ fifo_trace l (take (Z.to_nat n) data) polls (c2_ok st) /\
     0 <= n <= Z.of_nat (length data) /\ Z.of_nat polls <= poll_limit /\
     (st = C2_OK /\ n = Z.of_nat (length data) \/
      st = C2_ERROR_TIMEOUT /\ Z.of_nat polls = poll_limit)).
Proof.
  intros Hd Hlen Hp. unfold c2_qspi_write_bytes. cbn [negb orb].
  rewrite (proj2 (Z.eqb_neq (Z.of_nat (length data)) 0)) by (destruct data; [done|cbn; lia]). cbn [negb andb].
  rewrite Z.gtb_ltb, (proj2 (Z.ltb_ge _ _)) by lia. cbn [orb].
  change (default [] (Some data)) with data. rewrite Nat2Z.id, firstn_all.
  destruct (Z.ltb_spec poll_limit (Z.of_nat (length data) + 1)); intros E.
  { injection E as <- <- <-. split; [done|lia]. }
  split; [lia|]. intros _.
  destruct (io_wp_exec _ _ _ _ _ (submit_wp data poll_limit h Hp) E) as (m & l & polls & [= ->] & -> & H1).
  by exists l, polls.
Qed.
End Fifo.

(** ** Witness: a controller that is never busy *)

Lemma qspi_write_bytes_witness :
  exists l polls, fifo_trace l [65; 66] polls true /\
    exec (d:=const_device 0 zero_u32) (c2_qspi_write_bytes true (Some [65; 66]) 2 3 (Some 0)) [] = ((C2_OK, Some 2), l).
Proof.
  assert (exec (d:=const_device 0 zero_u32) (c2_qspi_write_bytes true (Some [65; 66]) 2 3 (Some 0)) []
    = ((C2_OK, Some 2), [Rd STATUS 0; Wr TXFIFO 65; Rd STATUS 0; Wr TXFIFO 66; Rd STATUS 0])) as E by by vm_compute.
  destruct (@qspi_write_bytes_spec (const_device 0 zero_u32) [65; 66] 3 [] _ _ _ ltac:(done)
    ltac:(cbn; unfold UINT32_MAX; lia) ltac:(lia) E) as [_ H].
  destruct (H ltac:(cbn; lia)) as (l & polls & El & Ht & _). exists l, polls. cbn in El. subst l.
  split; [exact Ht|exact E].
Defined.
