(* ===== verification/C2Psram.v ===== *)
(** * PSRAM cold start: vendor/openecos/starrysky/c2/src/c2_psram.c

    The sequence drives three register blocks: its own two registers, the QSPI
    controller and, through the GPIO driver and its context, the port whose bit
    15 maps the memory.  The caller's delay callback is a parameter, a status
    per stage; each stage is called at most once. *)
From S2P Require Import Prelude MachineInt Mmio C2Gpio C2Qspi.

Inductive psram_reg : Type :=
| WC | CHD
| Qspi (r : qspi_reg)
| Gpio (r : gpio_reg).
#[export] Instance psram_reg_eq : EqDecision psram_reg.
Proof. solve_decision. Defined.

Definition C2_PSRAM_COMMAND_RESET_ENABLE : Z := 102.
Definition C2_PSRAM_COMMAND_RESET_DEVICE : Z := 153.
Definition C2_PSRAM_COMMAND_ENTER_QPI : Z := 53.
Definition C2_PSRAM_QPI_MODE_GPIO_MASK : Z := 32768.
Definition C2_PSRAM_INIT_WC : Z := 18.
Definition C2_PSRAM_INIT_CHD : Z := 4.
Definition C2_PSRAM_RUN_WC : Z := 8.
Definition C2_PSRAM_RUN_CHD : Z := 0.

Inductive c2_psram_delay_stage : Type :=
| C2_PSRAM_DELAY_BEFORE_RESET_ENABLE
| C2_PSRAM_DELAY_AFTER_RESET_ENABLE
| C2_PSRAM_DELAY_AFTER_DEVICE_RESET
| C2_PSRAM_DELAY_AFTER_ENTER_QPI.

Definition c2_psram_delay_call (delay : option (c2_psram_delay_stage -> c2_status_t))
    (stage : c2_psram_delay_stage) : c2_status_t :=
  match delay with None => C2_OK | Some f => f stage end.

Definition qwrite (r : qspi_reg) (v : Z) : io psram_reg unit := c2_mmio_write32 (Qspi r) v.

(** Poll for completion; what is left of the shared budget. *)
Fixpoint command_done_poll (remaining_polls : nat) : io psram_reg (c2_status_t * nat) :=
  match remaining_polls with
  | O => mret (C2_ERROR_TIMEOUT, O)
  | S remaining_polls =>
      status ← c2_mmio_read32 (Qspi STATUS);
      (if status =? C2_QSPI_RAW_PSRAM_DONE then mret (C2_OK, remaining_polls)
       else command_done_poll remaining_polls)
  end.

Definition c2_psram_raw_command (command : Z) (remaining_polls : nat) : io psram_reg (c2_status_t * nat) :=
  match remaining_polls with
  | O => mret (C2_ERROR_TIMEOUT, O)
  | S _ =>
      qwrite LEN C2_QSPI_RAW_PSRAM_BYTE_LENGTH;;
      qwrite TXFIFO (u32 (Z.shiftl command 24));;
      qwrite STATUS C2_QSPI_RAW_PSRAM_TRIGGER;;
      command_done_poll remaining_polls
  end.

(** A call of the GPIO driver; only its updated context and status come back. *)
Definition gpio_call (m : io gpio_reg (c2_status_t * option c2_gpio)) : io psram_reg (c2_status_t * option c2_gpio) :=
  io_map Gpio m.

(** One command and the guard time after it: the status and the budget left. *)
Definition command_and_delay (delay : option (c2_psram_delay_stage -> c2_status_t)) (command : Z)
    (stage : c2_psram_delay_stage) (remaining : nat) : io psram_reg (c2_status_t * nat) :=
  r ← c2_psram_raw_command command remaining;
  mret (if negb (c2_ok r.1) then r.1 else c2_psram_delay_call delay stage, r.2).

(** status = ...; if (status != C2_OK) return status; the GPIO context is threaded. *)
Definition step {A} (gpio : option c2_gpio) (m : io psram_reg (c2_status_t * A))
    (k : A -> io psram_reg (c2_status_t * option c2_gpio)) : io psram_reg (c2_status_t * option c2_gpio) :=
  r ← m; (if negb (c2_ok r.1) then mret (r.1, gpio) else k r.2).

Definition gpio_step (m : io gpio_reg (c2_status_t * option c2_gpio))
    (k : option c2_gpio -> io psram_reg (c2_status_t * option c2_gpio)) : io psram_reg (c2_status_t * option c2_gpio) :=
  r ← gpio_call m; (if negb (c2_ok r.1) then mret r else k r.2).

Definition c2_psram_init (psram qspi : bool) (gpio : option c2_gpio) (poll_limit : Z)
    (delay : option (c2_psram_delay_stage -> c2_status_t)) : io psram_reg (c2_status_t * option c2_gpio) :=
  match gpio with
  | None => mret (C2_ERROR_INVALID_ARGUMENT, gpio)
  | Some g =>
      if negb psram || negb qspi then mret (C2_ERROR_INVALID_ARGUMENT, gpio)
      else if negb (gpio_initialized g) || negb (gpio_regs g) then mret (C2_ERROR_NOT_INITIALIZED, gpio)
      else if poll_limit <? 3 then mret (C2_ERROR_INVALID_ARGUMENT, gpio)
      else if negb (Z.land (output_shadow g) C2_PSRAM_QPI_MODE_GPIO_MASK =? 0) then mret (C2_ERROR_BUSY, gpio)
      else
        qwrite STATUS C2_QSPI_CONTROL_RESET_ASSERT;;
        qwrite STATUS 0;;
        qwrite INTCFG 0;;
        qwrite DUM 0;;
        qwrite CLKDIV 1;;
        gpio_step (c2_gpio_clear_mask gpio C2_PSRAM_QPI_MODE_GPIO_MASK) (fun gpio =>
        gpio_step (c2_gpio_set_direction_mask gpio C2_PSRAM_QPI_MODE_GPIO_MASK C2_GPIO_DIRECTION_OUTPUT) (fun gpio =>
        c2_mmio_write32 WC C2_PSRAM_INIT_WC;;
        c2_mmio_write32 CHD C2_PSRAM_INIT_CHD;;
        step gpio (mret (c2_psram_delay_call delay C2_PSRAM_DELAY_BEFORE_RESET_ENABLE, Z.to_nat poll_limit)) (fun remaining =>
        step gpio (command_and_delay delay C2_PSRAM_COMMAND_RESET_ENABLE C2_PSRAM_DELAY_AFTER_RESET_ENABLE remaining) (fun remaining =>
        step gpio (command_and_delay delay C2_PSRAM_COMMAND_RESET_DEVICE C2_PSRAM_DELAY_AFTER_DEVICE_RESET remaining) (fun remaining =>
        step gpio (command_and_delay delay C2_PSRAM_COMMAND_ENTER_QPI C2_PSRAM_DELAY_AFTER_ENTER_QPI remaining) (fun _ =>
        gpio_step (c2_gpio_set_mask gpio C2_PSRAM_QPI_MODE_GPIO_MASK) (fun gpio =>
        c2_mmio_write32 WC C2_PSRAM_RUN_WC;;
        c2_mmio_write32 CHD C2_PSRAM_RUN_CHD;;
        mret (C2_OK, gpio))))))))
  end.

(** ** The port bit *)

Section PortBit.
Variable g : c2_gpio.
Hypothesis Hlive : gpio_initialized g = true /\ gpio_regs g = true.
Hypothesis Hout : 0 <= output_shadow g < 32768.
Hypothesis Hin : 0 <= input_mask_shadow g < 65536.

Lemma live_body {A} (out : A) body : with_gpio (Some g) out body = body g.
Proof. destruct Hlive as [H1 H2]. unfold with_gpio, c2_gpio_validate. by rewrite H1, H2. Qed.

Lemma clear_bit15 x : 0 <= x < 65536 ->
  Z.land (Z.land x (u32 (Z.lnot C2_PSRAM_QPI_MODE_GPIO_MASK))) C2_GPIO_PIN_MASK = x mod 32768.
Proof.
  intros Hx. rewrite <- Z.land_assoc.
  change (Z.land (u32 (Z.lnot C2_PSRAM_QPI_MODE_GPIO_MASK)) C2_GPIO_PIN_MASK) with (2 ^ 15 - 1).
  by apply (land_mask x 15).
Qed.

Definition lowered : c2_gpio := mk_gpio true (output_shadow g) (input_mask_shadow g) true.
Definition opened : c2_gpio := mk_gpio true (output_shadow g) (input_mask_shadow g mod 32768) true.
Definition raised : c2_gpio := mk_gpio true (output_shadow g + 32768) (input_mask_shadow g mod 32768) true.

Lemma clear_mask_eq : gpio_call (c2_gpio_clear_mask (Some g) C2_PSRAM_QPI_MODE_GPIO_MASK) =
  Write (Gpio DR) (output_shadow g) (Done (C2_OK, Some lowered)).
Proof.
  destruct Hlive as [H1 H2]. unfold gpio_call, c2_gpio_clear_mask, c2_gpio_write_mask. rewrite live_body, H1, H2.
  change (Z.land 0 C2_PSRAM_QPI_MODE_GPIO_MASK) with 0. rewrite Z.lor_0_r, clear_bit15, Z.mod_small by lia. done.
Qed.

Lemma direction_eq : gpio_call (c2_gpio_set_direction_mask (Some lowered) C2_PSRAM_QPI_MODE_GPIO_MASK C2_GPIO_DIRECTION_OUTPUT) =
  Write (Gpio DDR) (input_mask_shadow g mod 32768) (Done (C2_OK, Some opened)).
Proof.
  unfold gpio_call, c2_gpio_set_direction_mask, with_gpio.
  cbn [c2_gpio_validate lowered gpio_initialized gpio_regs input_mask_shadow output_shadow negb orb].
  by rewrite clear_bit15.
Qed.

Lemma set_mask_eq : gpio_call (c2_gpio_set_mask (Some opened) C2_PSRAM_QPI_MODE_GPIO_MASK) =
  Write (Gpio DR) (output_shadow g + 32768) (Done (C2_OK, Some raised)).
Proof.
  unfold gpio_call, c2_gpio_set_mask, c2_gpio_write_mask, with_gpio.
  cbn [c2_gpio_validate opened gpio_initialized gpio_regs input_mask_shadow output_shadow negb orb].
  assert (Z.land (Z.lor (Z.land (output_shadow g) (u32 (Z.lnot C2_PSRAM_QPI_MODE_GPIO_MASK)))
    (Z.land C2_PSRAM_QPI_MODE_GPIO_MASK C2_PSRAM_QPI_MODE_GPIO_MASK)) C2_GPIO_PIN_MASK = output_shadow g + 32768) as E.
  { rewrite Z.land_lor_distr_l, clear_bit15, Z.mod_small, Z.lor_comm by lia.
    change (Z.land (Z.land C2_PSRAM_QPI_MODE_GPIO_MASK C2_PSRAM_QPI_MODE_GPIO_MASK) C2_GPIO_PIN_MASK) with (Z.shiftl 1 15).
    rewrite lor_shiftl_add by lia. lia. }
  rewrite E. done.
Qed.
End PortBit.

(** ** The sequence *)

(** The FIFO words of the three commands. *)
Definition boot_words : list Z := [1711276032; 2566914048; 889192448].

Section Sequence.
Context {d : Device psram_reg}.
Implicit Types (h l : list (access psram_reg)).

(** Accesses between the set-up and the switch-over: only these FIFO words, nothing to the
    memory's own registers or the port, and [n] reads. *)
Definition only_sends (words : list Z) (n : nat) l : Prop :=
  writes_to (Qspi TXFIFO) l = words /\ writes_to WC l = [] /\ writes_to CHD l = [] /\
  writes_to (Gpio DR) l = [] /\ writes_to (Gpio DDR) l = [] /\ count_reads l = n.

Lemma only_sends_app w1 w2 n1 n2 l1 l2 :
  only_sends w1 n1 l1 -> only_sends w2 n2 l2 -> only_sends (w1 ++ w2) (n1 + n2) (l1 ++ l2).
Proof.
  intros (H1 & H2 & H3 & H4 & H5 & H6) (J1 & J2 & J3 & J4 & J5 & J6). unfold only_sends.
  rewrite !writes_to_app, count_reads_app, H1, H2, H3, H4, H5, H6, J1, J2, J3, J4, J5, J6. done.
Qed.

Lemma command_done_poll_wp remaining h :
  io_wp (command_done_poll remaining) h (fun r h' => exists l, h' = h ++ l /\
    only_sends [] (remaining - r.2) l /\ (r.2 <= remaining)%nat /\ (r.1 = C2_ERROR_TIMEOUT -> r.2 = 0%nat)).
Proof.
  revert h. induction remaining as [|remaining IH]; intros h; cbn [command_done_poll].
  - io_step. exists []. rewrite app_nil_r. by repeat split.
  - io_step. io_step. io_step.
    + io_step. exists [Rd (Qspi STATUS) v]. repeat split; cbn; done || lia.
    + eapply io_wp_mono; [apply IH|]. intros [st rem] h' (l & -> & Hl & Hle & Ht). cbn [fst snd] in *.
      exists ([Rd (Qspi STATUS) v] ++ l). rewrite <- app_assoc. split; [done|].
      replace (S remaining - rem)%nat with (1 + (remaining - rem))%nat by lia.
      split; [by apply (only_sends_app [] [])|]. split; [lia|done].
Qed.

Lemma command_and_delay_wp delay command stage remaining h :
  io_wp (command_and_delay delay command stage remaining) h (fun r h' => exists l sent, h' = h ++ l /\
    only_sends (if (sent : bool) then [u32 (Z.shiftl command 24)] else []) (remaining - r.2) l /\
    (r.2 <= remaining)%nat /\ (r.1 = C2_OK -> sent = true)).
Proof.
  unfold command_and_delay, c2_psram_raw_command, qwrite. io_step. destruct remaining as [|remaining].
  - do 2 io_step. exists [], false. rewrite app_nil_r. by repeat split.
  - do 6 io_step. eapply io_wp_mono; [apply command_done_poll_wp|].
    intros [st rem] h' (l & -> & Hl & Hle & _). io_step. cbn [fst snd] in *.
    exists ([Wr (Qspi LEN) C2_QSPI_RAW_PSRAM_BYTE_LENGTH; Wr (Qspi TXFIFO) (u32 (Z.shiftl command 24));
             Wr (Qspi STATUS) C2_QSPI_RAW_PSRAM_TRIGGER] ++ l), true.
    rewrite <- !app_assoc. split; [done|]. split; [|done].
    apply (only_sends_app [_] [] 0); [by repeat split|done].
Qed.

Lemma step_wp {A} gpio (m : io psram_reg (c2_status_t * A)) k h (Q : c2_status_t * option c2_gpio -> list (access psram_reg) -> Prop) :
  io_wp m h (fun r h' => (r.1 <> C2_OK -> Q (r.1, gpio) h') /\ (r.1 = C2_OK -> io_wp (k r.2) h' Q)) ->
  io_wp (step gpio m k) h Q.
Proof.
  intros H. unfold step. io_step. eapply io_wp_mono; [exact H|]. intros [st a] h' [Hbad Hok]. cbn [fst snd] in *.
  io_step; [io_step; apply Hbad; by intros ->|apply Hok; by destruct st].
Qed.

(** The commands, from a prefix already sent. *)
Lemma command_step_wp gpio delay command stage remaining k h0 l0 words used
    (Q : c2_status_t * option c2_gpio -> list (access psram_reg) -> Prop) :
  only_sends words used l0 ->
  (forall st l n, st <> C2_OK -> (n <= used + remaining)%nat ->
     only_sends words n l \/ only_sends (words ++ [u32 (Z.shiftl command 24)]) n l -> Q (st, gpio) (h0 ++ l)) ->
  (forall rem l, (rem <= remaining)%nat ->
     only_sends (words ++ [u32 (Z.shiftl command 24)]) (used + (remaining - rem)) l -> io_wp (k rem) (h0 ++ l) Q) ->
  io_wp (step gpio (command_and_delay delay command stage remaining) k) (h0 ++ l0) Q.
Proof.
  intros Hl0 Hbad Hok. apply step_wp. eapply io_wp_mono; [apply command_and_delay_wp|].
  intros [st rem] h' (l & sent & -> & Hl & Hle & Hs). cbn [fst snd] in *. rewrite <- app_assoc.
  pose proof (only_sends_app _ _ _ _ _ _ Hl0 Hl) as Hall. split; intros E.
  - eapply (Hbad st _ (used + (remaining - rem))%nat); [done|lia|]. destruct sent; [by right|left].
    by rewrite app_nil_r in Hall.
  - rewrite (Hs E) in Hall. by apply Hok.
Qed.
End Sequence.

(** The reset, the configuration and the port set-up that precede every command. *)
Definition setup_writes (g : c2_gpio) : list (access psram_reg) :=
  [Wr (Qspi STATUS) 16; Wr (Qspi STATUS) 0; Wr (Qspi INTCFG) 0; Wr (Qspi DUM) 0; Wr (Qspi CLKDIV) 1;
   Wr (Gpio DR) (output_shadow g); Wr (Gpio DDR) (input_mask_shadow g mod 32768); Wr WC 18; Wr CHD 4].

Section Init.
Context {d : Device psram_reg}.

(** The outcome after the set-up: [words] went out, and the memory was mapped iff OK. *)
Definition psram_outcome g (poll_limit : Z) h0 (r : c2_status_t * option c2_gpio) h' : Prop :=
  exists l words n, only_sends words n l /\ Z.of_nat n <= poll_limit /\ words `prefix_of` boot_words /\
    h' = h0 ++ l ++ (if c2_ok r.1 then [Wr (Gpio DR) (output_shadow g + 32768); Wr WC 8; Wr CHD 0] else []) /\
    (r.1 = C2_OK -> words = boot_words) /\ r.2 = Some (if c2_ok r.1 then raised g else opened g).

Lemma stopped g poll_limit h0 st l words n : st <> C2_OK -> only_sends words n l -> Z.of_nat n <= poll_limit ->
  words `prefix_of` boot_words -> psram_outcome g poll_limit h0 (st, Some (opened g)) (h0 ++ l).
Proof.
  intros Hst Hl Hn Hw. exists l, words, n. cbn [fst snd].
  replace (c2_ok st) with false by (by destruct st). by rewrite app_nil_r.
Qed.

Lemma psram_init_wp g poll_limit delay h :
  gpio_initialized g = true /\ gpio_regs g = true -> 0 <= output_shadow g < 32768 ->
  0 <= input_mask_shadow g < 65536 -> 3 <= poll_limit ->
  io_wp (c2_psram_init true true (Some g) poll_limit delay) h (psram_outcome g poll_limit (h ++ setup_writes g)).
Proof.
  intros Hlive Hout Hin Hp. unfold c2_psram_init. cbn [negb orb]. destruct Hlive as [H1 H2]. rewrite H1, H2. cbn [negb orb].
  rewrite (proj2 (Z.ltb_ge poll_limit 3)) by lia.
  assert (Z.land (output_shadow g) C2_PSRAM_QPI_MODE_GPIO_MASK = 0) as ->.
  { rewrite <- (Z.mod_small (output_shadow g) (2 ^ 15)), <- land_mask, <- Z.land_assoc by lia. apply Z.land_0_r. }
  cbn [negb Z.eqb]. unfold qwrite. do 10 io_step.
  unfold gpio_step. rewrite clear_mask_eq by done. io_step. unfold io_wp at 1. cbn [exec fst snd c2_ok negb].
  rewrite direction_eq by done. io_step. unfold io_wp at 1. cbn [exec fst snd c2_ok negb]. do 4 io_step.
  rewrite <- !app_assoc. cbn [app]. change (h ++ _) with (h ++ setup_writes g).
  apply step_wp. io_step. cbn [fst snd]. split; intros Hdelay.
  { rewrite <- (app_nil_r (h ++ setup_writes g)) at 2. apply (stopped g poll_limit _ _ [] [] 0); try done; [lia|].
    apply prefix_nil. }
  rewrite <- (app_nil_r (h ++ setup_writes g)) at 1.
  apply (command_step_wp _ _ _ _ _ _ _ _ [] 0); [done| |].
  { intros st l n Hst Hn [Hl|Hl]; (eapply stopped; [done|exact Hl|lia|]); [apply prefix_nil|by exists (tail boot_words)]. }
  intros rem1 l1 Hr1 Hl1.
  apply (command_step_wp _ _ _ _ _ _ _ _ _ _ _ Hl1).
  { intros st l n Hst Hn [Hl|Hl]; (eapply stopped; [done|exact Hl|lia|]);
      [by exists (tail boot_words)|by exists (tail (tail boot_words))]. }
  intros rem2 l2 Hr2 Hl2.
  apply (command_step_wp _ _ _ _ _ _ _ _ _ _ _ Hl2).
  { intros st l n Hst Hn [Hl|Hl]; (eapply stopped; [done|exact Hl|lia|]);
      [by exists (tail (tail boot_words))|by exists []]. }
  intros rem3 l3 Hr3 Hl3.
  rewrite set_mask_eq by done. io_step. unfold io_wp at 1. cbn [exec fst snd c2_ok negb]. do 5 io_step.
  rewrite <- !app_assoc. cbn [app].
  eexists l3, _, _. split; [exact Hl3|]. split; [lia|]. split; [by exists []|]. by rewrite <- app_assoc.
Qed.

(** PSRAM cold start, against every device and every delay callback: after the fixed set-up,
    which latches port bit 15 low before opening it, the controller receives a prefix of the
    three commands 0x66, 0x99, 0x35 within the shared poll budget; only when all three and all
    guard times succeeded is bit 15 raised and the running timing written, as the last three
    accesses; otherwise bit 15 and the running timing are never written.  A port whose bit 15
    is already high is BUSY without any access. *)
Theorem psram_init_spec g poll_limit delay h st g' h' :
  gpio_initialized g = true /\ gpio_regs g = true -> 0 <= output_shadow g < 65536 ->
  0 <= input_mask_shadow g < 65536 -> 3 <= poll_limit ->
  exec (c2_psram_init true true (Some g) poll_limit delay) h = ((st, g'), h') ->
  (32768 <= output_shadow g -> st = C2_ERROR_BUSY /\ g' = Some g /\ h' = h) /\
  (output_shadow g < 32768 -> exists l words n,
     h' = (h ++ setup_writes g) ++ l
          ++ (if c2_ok st then [Wr (Gpio DR) (output_shadow g + 32768); Wr WC 8; Wr CHD 0] else []) /\
     only_sends words n l /\ Z.of_nat n <= poll_limit /\ words `prefix_of` boot_words /\
     (st = C2_OK -> words = boot_words) /\
     g' = Some (if c2_ok st then raised g else opened g)).
Proof.
  intros Hlive Hout Hin Hp E. split.
  - intros Hbit. destruct Hlive as [H1 H2]. unfold c2_psram_init in E. rewrite H1, H2 in E. cbn [negb orb] in E.
    rewrite (proj2 (Z.ltb_ge poll_limit 3)) in E by lia.
    assert (Z.land (output_shadow g) C2_PSRAM_QPI_MODE_GPIO_MASK <> 0) as Hne.
    { intros Hz. assert (Z.testbit (Z.land (output_shadow g) C2_PSRAM_QPI_MODE_GPIO_MASK) 15 = true) as Hb.
      { rewrite Z.land_spec. replace (output_shadow g) with (output_shadow g - 32768 + 1 * 2 ^ 15) by lia.
        rewrite Z.testbit_eqb, Z.div_add by lia.
        change (2 ^ 15) with 32768. rewrite Z.div_small by lia. done. }
      by rewrite Hz in Hb. }
    rewrite (proj2 (Z.eqb_neq _ _) Hne) in E. cbn in E. by injection E as <- <- <-.
  - intros Hlow.
    destruct (io_wp_exec _ _ _ _ _ (psram_init_wp g poll_limit delay h Hlive ltac:(lia) Hin Hp) E)
      as (l & words & n & Hl & Hn & Hw & Eh & Hok & Eg). by exists l, words, n.
Qed.
End Init.

(** ** Witness: a controller that completes at once, a live port with bit 0 high *)

Lemma psram_init_witness :
  let g := mk_gpio true 1 65535 true in
  exists h', exec (d:=const_device 1 ltac:(rlia)) (c2_psram_init true true (Some g) 3 None) []
      = ((C2_OK, Some (mk_gpio true 32769 32767 true)), h') /\
    writes_to (Qspi TXFIFO) h' = boot_words.
Proof.
  intros g. set (d := const_device 1 _).
  assert (exec (d:=d) (c2_psram_init true true (Some g) 3 None) [] =
    ((C2_OK, Some (mk_gpio true 32769 32767 true)), (exec (d:=d) (c2_psram_init true true (Some g) 3 None) []).2)) as E
    by by vm_compute.
  destruct (@psram_init_spec d g 3 None [] _ _ _ ltac:(by split) ltac:(cbn; lia) ltac:(cbn; lia) ltac:(lia) E) as [_ H].
  destruct (H ltac:(cbn; lia)) as (l & words & n & El & (Hw & _) & _ & _ & Hok & _).
  eexists. split; [exact E|]. rewrite El, !writes_to_app, Hw, (Hok eq_refl). reflexivity.
Defined.
