(* ===== verification/C2Misc.v ===== *)
(** * Small peripherals: c2_rng.c, c2_ps2.c and c2_archinfo.c of vendor/openecos/starrysky/c2/src

    The random-number generator, the PS/2 receiver and the chip identification,
    one register enumeration each.  [reg = false] is a NULL register block. *)
From S2P Require Import Prelude MachineInt Mmio.

(** ** Random numbers *)

Inductive rng_reg : Type := RNG_CTRL | RNG_SEED | RNG_VAL.
#[export] Instance rng_reg_eq : EqDecision rng_reg.
Proof. solve_decision. Defined.

Definition c2_rng_init (reg : bool) (seed : Z) : io rng_reg c2_status_t :=
  if negb reg || (seed =? 0) then mret C2_ERROR_INVALID_ARGUMENT
  else c2_mmio_write32 RNG_CTRL 1;; c2_mmio_write32 RNG_SEED seed;; c2_mmio_write32 RNG_CTRL 0;; mret C2_OK.

Definition c2_rng_seed_write_enable (reg enable : bool) : io rng_reg c2_status_t :=
  if negb reg then mret C2_ERROR_INVALID_ARGUMENT
  else c2_mmio_write32 RNG_CTRL (if enable then 1 else 0);; mret C2_OK.

Definition c2_rng_seed (reg : bool) (seed : Z) : io rng_reg c2_status_t :=
  if negb reg then mret C2_ERROR_INVALID_ARGUMENT
  else
    raw ← c2_mmio_read32 RNG_CTRL;
    let control := Z.land raw 1 in
    c2_mmio_write32 RNG_CTRL 1;; c2_mmio_write32 RNG_SEED seed;; c2_mmio_write32 RNG_CTRL control;; mret C2_OK.

Definition c2_rng_stop (reg : bool) : io rng_reg c2_status_t :=
  if negb reg then mret C2_ERROR_INVALID_ARGUMENT
  else c2_mmio_write32 RNG_CTRL 1;; c2_mmio_write32 RNG_SEED 0;; c2_mmio_write32 RNG_CTRL 0;; mret C2_OK.

Definition c2_rng_read (reg : bool) (value : option Z) : io rng_reg (c2_status_t * option Z) :=
  match reg, value with
  | true, Some _ => v ← c2_mmio_read32 RNG_VAL; mret (C2_OK, Some v)
  | _, _ => fail C2_ERROR_INVALID_ARGUMENT value
  end.

(** The inner loop: up to [k] bytes of the sample, least significant first, into the cells left. *)
Fixpoint sample_bytes (k : nat) (sample : Z) (cells : list Z) : list Z * list Z :=
  match k, cells with
  | S k, _ :: cells => let r := sample_bytes k (Z.shiftr sample 8) cells in (u8 sample :: r.1, r.2)
  | _, _ => ([], cells)
  end.

(** The outer loop; [fuel] bounds the samples, one per cell is always enough. *)
Fixpoint fill_loop (fuel : nat) (cells : list Z) : io rng_reg (list Z) :=
  match cells, fuel with
  | [], _ | _, O => mret []
  | _, S fuel =>
      sample ← c2_mmio_read32 RNG_VAL;
      let r := sample_bytes 4 sample cells in
      rest ← fill_loop fuel r.2;
      mret (r.1 ++ rest)
  end.

(** The first [length] cells of the buffer are the destination. *)
Definition c2_rng_fill (reg : bool) (data : option (list Z)) (length : Z) : io rng_reg (c2_status_t * option (list Z)) :=
  if negb reg || (negb (length =? 0) && match data with None => true | Some _ => false end)
  then fail C2_ERROR_INVALID_ARGUMENT data
  else
    match data with
    | None => mret (C2_OK, None)
    | Some cells =>
        bytes ← fill_loop (Z.to_nat length) (take (Z.to_nat length) cells);
        mret (C2_OK, Some (bytes ++ drop (Z.to_nat length) cells))
    end.

(** ** PS/2 *)

Inductive ps2_reg : Type := PS2_CTRL | PS2_DATA | PS2_STAT.
#[export] Instance ps2_reg_eq : EqDecision ps2_reg.
Proof. solve_decision. Defined.

Definition PS2_ITN : Z := 1.
Definition PS2_EN : Z := 2.

Definition c2_ps2_init (reg irq_enable : bool) : io ps2_reg c2_status_t :=
  if negb reg then mret C2_ERROR_INVALID_ARGUMENT
  else c2_mmio_write32 PS2_CTRL (Z.lor PS2_EN (if irq_enable then PS2_ITN else 0));; mret C2_OK.

Definition c2_ps2_deinit (reg : bool) : io ps2_reg c2_status_t :=
  if negb reg then mret C2_ERROR_INVALID_ARGUMENT else c2_mmio_write32 PS2_CTRL 0;; mret C2_OK.

Definition c2_ps2_enable (reg enable : bool) : io ps2_reg c2_status_t :=
  if negb reg then mret C2_ERROR_INVALID_ARGUMENT
  else
    raw ← c2_mmio_read32 PS2_CTRL;
    c2_mmio_write32 PS2_CTRL (Z.lor (Z.land raw PS2_ITN) (if enable then PS2_EN else 0));; mret C2_OK.

Definition c2_ps2_irq_enable (reg enable : bool) : io ps2_reg c2_status_t :=
  if negb reg then mret C2_ERROR_INVALID_ARGUMENT
  else
    raw ← c2_mmio_read32 PS2_CTRL;
    c2_mmio_write32 PS2_CTRL (Z.lor (Z.land raw PS2_EN) (if enable then PS2_ITN else 0));; mret C2_OK.

Definition c2_ps2_status_ack (reg : bool) (pending : option bool) : io ps2_reg (c2_status_t * option bool) :=
  match reg, pending with
  | true, Some _ => raw ← c2_mmio_read32 PS2_STAT; mret (C2_OK, Some (negb (Z.land raw 1 =? 0)))
  | _, _ => fail C2_ERROR_INVALID_ARGUMENT pending
  end.

Definition c2_ps2_read_raw (reg : bool) (data : option Z) : io ps2_reg (c2_status_t * option Z) :=
  match reg, data with
  | true, Some _ => raw ← c2_mmio_read32 PS2_DATA; mret (C2_OK, Some (u8 raw))
  | _, _ => fail C2_ERROR_INVALID_ARGUMENT data
  end.

Definition c2_ps2_try_read (reg : bool) (data : option Z) : io ps2_reg (c2_status_t * option Z) :=
  match reg, data with
  | true, Some _ =>
      raw ← c2_mmio_read32 PS2_DATA;
      (if u8 raw =? 0 then fail C2_ERROR_BUSY data else mret (C2_OK, Some (u8 raw)))
  | _, _ => fail C2_ERROR_INVALID_ARGUMENT data
  end.

Fixpoint receive_poll (poll_limit : nat) (length done : Z) (data : list Z) : io ps2_reg (Z * list Z) :=
  match poll_limit with
  | O => mret (done, data)
  | S poll_limit =>
      if done <? length then
        raw ← c2_mmio_read32 PS2_DATA;
        (if negb (u8 raw =? 0)
         then receive_poll poll_limit length (done + 1) (<[Z.to_nat done := u8 raw]> data)
         else receive_poll poll_limit length done data)
      else mret (done, data)
  end.

Definition c2_ps2_receive (reg : bool) (data : option (list Z)) (length : Z) (received : option Z) (poll_limit : Z)
    : io ps2_reg (c2_status_t * (option (list Z) * option Z)) :=
  match received with
  | None => fail C2_ERROR_INVALID_ARGUMENT (data, received)
  | Some _ =>
      if negb reg || (negb (length =? 0) && match data with None => true | Some _ => false end)
      then fail C2_ERROR_INVALID_ARGUMENT (data, Some 0)
      else
        r ← receive_poll (Z.to_nat poll_limit) length 0 (default [] data);
        let '(n, buffer) := r in
        mret (if n =? length then C2_OK else C2_ERROR_TIMEOUT,
              (match data with Some _ => Some buffer | None => None end, Some n))
  end.

(** ** Chip identification *)

Inductive archinfo_reg : Type := SYS | IDL | IDH.
#[export] Instance archinfo_reg_eq : EqDecision archinfo_reg.
Proof. solve_decision. Defined.

Record c2_archinfo_snapshot : Type := mk_archinfo { sys : Z; idl : Z; idh : Z }.
Record c2_archinfo_info : Type := mk_info {
  clock_code : Z; process_nm : Z; year : Z; month : Z; sram_kb : Z; vendor : Z; type : Z; custom : Z }.

(** The loop over the digits, least significant first. *)
Fixpoint decode_bcd_loop (digits : nat) (value result scale : Z) : option Z :=
  match digits with
  | O => Some result
  | S digits =>
      let digit := Z.land value 15 in
      if digit >? 9 then None
      else decode_bcd_loop digits (Z.shiftr value 4) (u32 (result + u32 (digit * scale))) (u32 (scale * 10))
  end.

Definition decode_bcd (value : Z) (digits : nat) : option Z := decode_bcd_loop digits value 0 1.

Definition c2_archinfo_read (reg : bool) (snapshot : option c2_archinfo_snapshot)
    : io archinfo_reg (c2_status_t * option c2_archinfo_snapshot) :=
  match reg, snapshot with
  | true, Some _ =>
      s ← c2_mmio_read32 SYS; l ← c2_mmio_read32 IDL; h ← c2_mmio_read32 IDH;
      mret (C2_OK, Some (mk_archinfo s l h))
  | _, _ => fail C2_ERROR_INVALID_ARGUMENT snapshot
  end.

Definition c2_archinfo_write (reg : bool) (snapshot : option c2_archinfo_snapshot) : io archinfo_reg c2_status_t :=
  match reg, snapshot with
  | true, Some s =>
      if negb (Z.land (sys s) 4293918720 =? 0) || negb (Z.land (idh s) 4278190080 =? 0)
      then mret C2_ERROR_INVALID_ARGUMENT
      else
        c2_mmio_write32 SYS (sys s);; c2_mmio_write32 IDL (idl s);; c2_mmio_write32 IDH (idh s);; mret C2_OK
  | _, _ => mret C2_ERROR_INVALID_ARGUMENT
  end.

Definition c2_archinfo_decode (snapshot : option c2_archinfo_snapshot) (info : option c2_archinfo_info)
    : c2_status_t * option c2_archinfo_info :=
  match snapshot, info with
  | Some s, Some _ =>
      match decode_bcd (Z.land (Z.shiftr (sys s) 8) 4095) 3,
            decode_bcd (Z.land (Z.shiftr (idl s) 6) 65535) 4,
            decode_bcd (Z.land (idh s) 16777215) 6 with
      | Some clock, Some process, Some date =>
          (C2_OK, Some (mk_info (u16 clock) (u16 process) (u16 (date / 100)) (u8 (date mod 100))
             (u8 (sys s)) (u8 (Z.shiftr (idl s) 22)) (u8 (Z.shiftr (idl s) 30)) (u8 (Z.land (idl s) 63))))
      | _, _, _ => (C2_ERROR_IO, info)
      end
  | _, _ => (C2_ERROR_INVALID_ARGUMENT, info)
  end.

(** ** Binary-coded decimals *)

(** The number with these decimal digits, when they are decimal; and its encoding. *)
Fixpoint bcd_number (digits : nat) (v : Z) : option Z :=
  match digits with
  | O => Some 0
  | S digits => if v mod 16 <=? 9 then n ← bcd_number digits (v / 16); Some (v mod 16 + 10 * n) else None
  end.
Fixpoint to_bcd (digits : nat) (n : Z) : Z :=
  match digits with O => 0 | S digits => n mod 10 + 16 * to_bcd digits (n / 10) end.

Section Bcd.
Lemma to_bcd_range k n : 0 <= to_bcd k n < 16 ^ Z.of_nat k.
Proof.
  revert n. induction k as [|k IH]; intros n; [done|]. cbn [to_bcd].
  rewrite Nat2Z.inj_succ, Z.pow_succ_r by lia. specialize (IH (n / 10)).
  pose proof (Z.mod_pos_bound n 10 ltac:(lia)). lia.
Qed.

Lemma bcd_number_complete k n : 0 <= n < 10 ^ Z.of_nat k -> bcd_number k (to_bcd k n) = Some n.
Proof.
  revert n. induction k as [|k IH]; intros n Hn; cbn [bcd_number to_bcd]; [f_equal; cbn in Hn; lia|].
  rewrite Nat2Z.inj_succ, Z.pow_succ_r in Hn by lia.
  pose proof (Z.mod_pos_bound n 10 ltac:(lia)). pose proof (Z.div_mod n 10 ltac:(lia)).
  rewrite (Z.mul_comm 16), Z.mod_add, Z.div_add, (Z.mod_small (n mod 10) 16), (Z.div_small (n mod 10) 16), Z.add_0_l by lia.
  rewrite (proj2 (Z.leb_le _ _)) by lia. rewrite IH by (split; [apply Z.div_pos; lia|apply Z.div_lt_upper_bound; lia]).
  cbn. f_equal. lia.
Qed.

Lemma bcd_number_sound k v n : bcd_number k v = Some n ->
  0 <= n < 10 ^ Z.of_nat k /\ to_bcd k n = v mod 16 ^ Z.of_nat k.
Proof.
  revert v n. induction k as [|k IH]; intros v n; cbn [bcd_number to_bcd].
  - intros [= <-]. by rewrite Z.mod_1_r.
  - destruct (Z.leb_spec (v mod 16) 9) as [Hd|]; [|done].
    destruct (bcd_number k (v / 16)) as [m|] eqn:E; [|done]. cbn. intros [= <-].
    destruct (IH _ _ E) as [Hm Hv]. pose proof (Z.mod_pos_bound v 16 ltac:(lia)).
    rewrite Nat2Z.inj_succ, !Z.pow_succ_r by lia. split; [lia|].
    rewrite (Z.mul_comm 10), Z.mod_add, Z.div_add, (Z.mod_small (v mod 16) 10), (Z.div_small (v mod 16) 10), Z.add_0_l by lia.
    rewrite Hv. rewrite Z.rem_mul_r by (try lia; apply Z.pow_nonzero; lia). done.
Qed.

(** The loop computes it, without wrapping around. *)
Lemma decode_bcd_loop_spec k v result scale : 0 <= result < scale ->
  scale * 10 ^ Z.of_nat k < 4294967296 ->
  decode_bcd_loop k v result scale = (n ← bcd_number k v; Some (result + scale * n)).
Proof.
  revert v result scale. induction k as [|k IH]; intros v result scale Hr Hb; cbn [decode_bcd_loop bcd_number].
  - cbn. f_equal. lia.
  - change 15 with (2 ^ 4 - 1). rewrite land_mask, Z.gtb_ltb, Z.shiftr_div_pow2 by lia. change (2 ^ 4) with 16.
    rewrite Nat2Z.inj_succ, Z.pow_succ_r in Hb by lia.
    pose proof (Z.mod_pos_bound v 16 ltac:(lia)). pose proof (Z.pow_pos_nonneg 10 (Z.of_nat k) ltac:(lia) ltac:(lia)).
    destruct (Z.ltb_spec 9 (v mod 16)), (Z.leb_spec (v mod 16) 9); try lia; [done|].
    assert (0 <= v mod 16 * scale <= 9 * scale) by nia. assert (10 * scale <= scale * (10 * 10 ^ Z.of_nat k)) by nia.
    rewrite (u32_id (v mod 16 * scale)), (u32_id (scale * 10)), u32_id by rlia.
    rewrite IH by lia. destruct (bcd_number k (v / 16)); cbn; [f_equal; lia|done].
Qed.

Lemma decode_bcd_spec k v : (k <= 6)%nat -> decode_bcd v k = bcd_number k v.
Proof.
  intros Hk. unfold decode_bcd. rewrite decode_bcd_loop_spec; [|lia|].
  - destruct (bcd_number k v); [cbn; f_equal; lia|done].
  - assert (10 ^ Z.of_nat k <= 10 ^ 6) by (apply Z.pow_le_mono_r; lia). lia.
Qed.
End Bcd.

(** The fields in range, and the register words that stand for them. *)
Definition info_ok (i : c2_archinfo_info) : Prop :=
  0 <= clock_code i < 1000 /\ 0 <= process_nm i < 10000 /\ 0 <= year i < 10000 /\ 0 <= month i < 100 /\
  is_u8 (sram_kb i) /\ is_u8 (vendor i) /\ 0 <= type i < 4 /\ 0 <= custom i < 64.

Definition encode_info (i : c2_archinfo_info) : c2_archinfo_snapshot :=
  mk_archinfo (256 * to_bcd 3 (clock_code i) + sram_kb i)
    (1073741824 * type i + 4194304 * vendor i + 64 * to_bcd 4 (process_nm i) + custom i)
    (to_bcd 6 (100 * year i + month i)).

(** The documented bits of the words. *)
Definition documented (s : c2_archinfo_snapshot) : c2_archinfo_snapshot :=
  mk_archinfo (sys s mod 1048576) (idl s) (idh s mod 16777216).

Lemma archinfo_decode_eq s old : c2_archinfo_decode (Some s) (Some old) =
  match bcd_number 3 ((sys s / 256) mod 4096), bcd_number 4 ((idl s / 64) mod 65536), bcd_number 6 (idh s mod 16777216) with
  | Some clock, Some process, Some date =>
      (C2_OK, Some (mk_info (u16 clock) (u16 process) (u16 (date / 100)) (u8 (date mod 100))
         (u8 (sys s)) (u8 (idl s / 4194304)) (u8 (idl s / 1073741824)) (idl s mod 64)))
  | _, _, _ => (C2_ERROR_IO, Some old)
  end.
Proof.
  unfold c2_archinfo_decode. rewrite !decode_bcd_spec by lia.
  change 4095 with (2 ^ 12 - 1). change 65535 with (2 ^ 16 - 1). change 16777215 with (2 ^ 24 - 1). change 63 with (2 ^ 6 - 1).
  rewrite !land_mask, !Z.shiftr_div_pow2 by lia. 
  change (2 ^ 12) with 4096. change (2 ^ 16) with 65536. change (2 ^ 24) with 16777216.
  change (2 ^ 8) with 256. change (2 ^ 22) with 4194304. change (2 ^ 30) with 1073741824. change (2 ^ 6) with 64.
  repeat case_match; try done. rewrite (u8_id (idl s mod 64)); [done|].
  pose proof (Z.mod_pos_bound (idl s) 64 ltac:(lia)). rlia.
Qed.

(** Decoding the identification words inverts their documented layout: every in-range
    information record comes back from its encoding, and conversely whenever the call returns OK
    the documented bits of the words are the encoding of the record it delivers, so that a
    non-decimal digit is always an IO error, with the destination unchanged. *)
Theorem archinfo_decode_inverse (i old : c2_archinfo_info) (s : c2_archinfo_snapshot) :
  info_ok i -> is_u32 (sys s) -> is_u32 (idl s) -> is_u32 (idh s) ->
  c2_archinfo_decode (Some (encode_info i)) (Some old) = (C2_OK, Some i) /\
  (exists st out, c2_archinfo_decode (Some s) (Some old) = (st, Some out) /\
     (st = C2_OK -> info_ok out /\ documented s = encode_info out) /\
     (st <> C2_OK -> st = C2_ERROR_IO /\ out = old)).
Proof.
  intros Hi Hs Hl Hh. split.
  - destruct i as [clock process yr mon sram vend ty cust].
    destruct Hi as (H1 & H2 & H3 & H4 & H5 & H6 & H7 & H8). cbn in H1, H2, H3, H4, H5, H6, H7, H8.
    rewrite archinfo_decode_eq. unfold encode_info. cbn [sys idl idh clock_code process_nm year month sram_kb vendor type custom].
    pose proof (to_bcd_range 3 clock) as B1. pose proof (to_bcd_range 4 process) as B2.
    pose proof (to_bcd_range 6 (100 * yr + mon)) as B3.
    change (16 ^ Z.of_nat 3) with 4096 in B1. change (16 ^ Z.of_nat 4) with 65536 in B2. change (16 ^ Z.of_nat 6) with 16777216 in B3.
    set (b1 := to_bcd 3 clock) in *. set (b2 := to_bcd 4 process) in *. set (b3 := to_bcd 6 (100 * yr + mon)) in *.
    assert (((256 * b1 + sram) / 256) mod 4096 = b1) as -> by dlia.
    assert (((1073741824 * ty + 4194304 * vend + 64 * b2 + cust) / 64) mod 65536 = b2) as -> by dlia.
    rewrite (Z.mod_small b3) by lia. unfold b1, b2, b3.
    rewrite !bcd_number_complete by (cbn; lia). fold b1 b2 b3. do 3 f_equal; unfold u16, u8, wrap_unsigned; dlia.
  - pose proof (archinfo_decode_eq s old) as ->.
    destruct (bcd_number 3 _) as [clock|] eqn:E1; [|by eexists _, _].
    destruct (bcd_number 4 _) as [process|] eqn:E2; [|by eexists _, _].
    destruct (bcd_number 6 _) as [date|] eqn:E3; [|by eexists _, _].
    apply bcd_number_sound in E1 as [R1 E1], E2 as [R2 E2], E3 as [R3 E3].
    change (16 ^ Z.of_nat 3) with 4096 in E1. change (16 ^ Z.of_nat 4) with 65536 in E2. change (16 ^ Z.of_nat 6) with 16777216 in E3.
    cbn in R1, R2, R3. eexists _, _. split; [done|]. split; [|done]. intros _.
    unfold info_ok, documented, encode_info. cbn [sys idl idh clock_code process_nm year month sram_kb vendor type custom].
    assert (u16 clock = clock) as -> by (unfold u16, wrap_unsigned; dlia).
    assert (u16 process = process) as -> by (unfold u16, wrap_unsigned; dlia).
    assert (u16 (date / 100) = date / 100) as -> by (unfold u16, wrap_unsigned; dlia).
    assert (u8 (date mod 100) = date mod 100) as -> by (unfold u8, wrap_unsigned; dlia).
    assert (100 * (date / 100) + date mod 100 = date) as -> by dlia.
    rewrite E1, E2, E3. split.
    + unfold u8, wrap_unsigned. repeat split; dlia.
    + f_equal; unfold u8, wrap_unsigned; dlia.
Qed.

Lemma archinfo_decode_witness :
  let i := mk_info 360 55 2024 11 128 7 2 5 in
  c2_archinfo_decode (Some (encode_info i)) (Some i) = (C2_OK, Some i).
Proof.
  intros i. destruct (archinfo_decode_inverse i i (mk_archinfo 0 0 0)) as [H _];
    [repeat split; cbn; lia|cbn; rlia|cbn; rlia|cbn; rlia|exact H].
Defined.
